(* ===== verification/_CoqProject ===== *)
-Q . S2P
Prelude.v
SyncCommon.v
KeyCodec.v
ValueCodec.v
CompositeKey.v
Wire.v
SyncProtocol.v
ChangeBatchCodec.v
Writers.v
SnapshotCodec.v
TransportCodec.v
LogicalData.v
FrameCodec.v
EnvelopeCodec.v
DeliveryProtocol.v
Mdbx.v
DupSort.v
RefMdbx.v
DupRules.v
Clients.v
StoreBase.v
MetaStore.v
AppliedStore.v
OriginIndexStore.v
ChangeLogStore.v
IdentityIndexStore.v
VersionedDbiStore.v
ReceiverModeStore.v
ScopeStore.v
ScopedStores.v
SelectiveProtocol.v
TxnState.v
Capture.v
CaptureHooks.v
CaptureHistory.v
ApplyEngine.v
ApplyTheorems.v
ApplyEffect.v
PullEngine.v
PullTheorems.v
EngineApi.v
Lifecycle.v
TableBase.v
Hashing.v
HashedStore.v
HashedSpec.v
HashedSmall.v
HashedLarge.v
HashedTheorems.v
KvTable.v
KvSpec.v
KvTheorems.v
TableCalls.v
MultiContent.v
MultiBase.v
MultiTable.v
OrderedTable.v
MultiRules.v
MultiRanges.v
MultiReconcile.v
MultiTheorems.v
