(* ===== verification/Prelude.v ===== *)
(** * mdbx-containers: verification library

    mdbx-containers ([src/include/mdbx_containers]) is a C++ header library of containers
    over libmdbx with a replication layer.  This development models the parts that carry
    its own logic as executable definitions and proves what makes them correct.

    ** How the program is put together

    Keys and values are turned into bytes whose MDBX order is the order of the C++ values, but
    for signed code units ([detail/utils.hpp], [CompositeKey.hpp]).  The table classes report every write to
    the connection, which checks that the table may be written and hands the operation to
    a capture sink ([sync/capture]); before a commit the sink writes what the transaction
    recorded as one batch.  Change batches ([sync/protocol]) are numbered per origin node
    and kept in a changelog with an index of the newest number per origin
    ([sync/stores]).  A node receives batches
    of other nodes and applies them in sequence inside one transaction ([apply_batch_ex] of
    [sync/engine/SyncEngine.hpp]); tables under last-writer-wins keep a marker per record
    in the identity index.  Peers exchange batches by requests: a pull asks for the batches
    after a cursor and is answered in pages ([handle_pull]), a push carries a range of the
    sender's own batches and is applied as a whole ([make_push_request], [handle_push]).
    Between processes these messages travel as bytes ([sync/transport]); full snapshots,
    scoped replication of some tables and deliveries of logical changes have messages and
    checks of their own ([sync/protocol], [sync/logical]).
    The public methods of a table run in the transaction of the calling thread or in one of
    their own ([KeyValueTable.hpp], [detail/BaseTable.hpp]).  The multi-value tables keep the
    values of a key as MDBX duplicates behind a sequence number
    ([KeyMultiValueTable.hpp], [KeyOrderedMultiValueTable.hpp]); the hashed store files
    records under a hash of their key and resolves collisions itself
    ([HashedKeyValueStore.hpp]).  Every access runs in a transaction guard that a
    per-connection tracker knows about
    ([common/Transaction.ipp], [common/TransactionTracker.ipp], [common/Connection.ipp]).

    ** Files

    - [Prelude]: exceptions and results, bytes and their order, integers of fixed width,
      the hint databases and tactics all files use.
    - [SyncCommon]: node ids and little/big-endian integers ([sync/common.hpp]).
    - [KeyCodec], [ValueCodec]: keys and values ([detail/utils.hpp]); [CompositeKey]:
      ordered tuples of parts ([CompositeKey.hpp]).
    - [Wire]: the cursor decoders read from; [SyncProtocol]: the data of the raw protocol;
      [ChangeBatchCodec]: the binary format of change batches.
    - [Writers]: the appends and the shared fields of the message codecs, with what they
      write; [TransportCodec]: pull and push messages
      ([sync/transport/TransportMessageCodec.hpp]); [SnapshotCodec]: full snapshot chunks
      ([sync/protocol/FullSnapshotProtocol.hpp]); [SelectiveProtocol]: scoped pulls and
      pushes ([sync/protocol/SelectiveReplicationProtocol.hpp]); [LogicalData],
      [FrameCodec], [EnvelopeCodec], [DeliveryProtocol]: logical changes, their frames and
      envelopes, and the delivery protocol ([sync/logical]).
    - [Mdbx]: libmdbx as a class of operations with its documented laws, the monad of code
      in a transaction, weakest preconditions; [DupSort]: the operations on tables with duplicates
      and on cursors that move both ways, with their laws, [DupRules]: their proof rules;
      [RefMdbx]: an engine that satisfies the laws, on which the witnesses run.
    - [Clients]: programs over an interface of calls, and that a call-by-call refinement
      carries over to every program; the hashed and the multi-value tables use it.
    - [StoreBase], [MetaStore], [AppliedStore], [OriginIndexStore], [ChangeLogStore],
      [IdentityIndexStore], [VersionedDbiStore], [ReceiverModeStore], [ScopeStore],
      [ScopedStores]: the system tables of [sync/stores], one file per store (the last two
      hold the classes of [SelectiveReplicationStore.hpp]).
    - [TxnState]: code with a C++ object as state in a transaction; [Capture]: the
      accumulator of [sync/capture/ChangeAccumulator.hpp]; [CaptureHooks]: the write guard,
      capture suppression and transaction hooks of [common/Connection.ipp] with
      [BaseTable::record_op]; [CaptureHistory]: sessions of transactions with these hooks
      ([common/Transaction.ipp]) as a step relation.
    - [ApplyEngine]: the code of the apply path; [ApplyTheorems]: its sequence rules and
      atomicity; [ApplyEffect]: its effect on the data and the convergence of
      last-writer-wins tables.
    - [PullEngine]: the code that reads pages of the changelog and ranges of local batches,
      with the rules its loops obey; [PullTheorems]: what pages and ranges hold;
      [EngineApi]: the requests that open their own transactions.
    - [Lifecycle]: the tracker, the transaction guards and the connection as a step relation
      over threads.
    - [TableBase]: what every table with typed keys and values shares: the records of a
      finite map, their order, cursors over them; [KvTable]: the methods of
      [KeyValueTable.hpp] and the rules of the reading ones; [KvSpec]: the methods as
      operations on a finite map, and the refinement; [KvTheorems]: client programs and the
      order of range scans; [TableCalls]: the constructor and [with_transaction] of
      [detail/BaseTable.hpp] over the sessions of [CaptureHistory].
    - [Hashing]: SipHash-2-4 ([common/hashing.hpp]); [HashedStore]: both layouts of
      [HashedKeyValueStore.hpp] over any hash function; [HashedSpec]: the map they
      implement; [HashedLarge], [HashedSmall]: the two proofs; [HashedTheorems]: the client
      theorem.
    - [MultiContent]: a map from keys to lists of numbered values and its records;
      [MultiBase]: the code the two multi-value classes share; [MultiTable],
      [OrderedTable]: the classes; [MultiRules], [MultiRanges], [MultiReconcile]: the
      methods on single keys, on ranges, and [reconcile]; [MultiTheorems]: the client
      theorems.

    ** Conventions

    A C++ function that may throw is a function into [result]; code that runs in an MDBX
    transaction is a function of the monad [M] over an abstract transaction.  libmdbx is a
    parameter: its operations are the fields of the class [Mdbx] and the laws of [MdbxLaws]
    describe a transaction by its view, the named tables with flags and records and the
    open handles (the unnamed main table lists the names of the others).  Every operation may also fail with an [engine_error] code, about which
    nothing else is assumed; [wp m Q v] says that [m], run in a transaction with view [v],
    ends in [Q] or throws the exception of such an error.  Integers of the code are [Z]
    with their wrap-around written out; byte strings are lists of bytes.  Loops over a
    cursor carry fuel; the theorems hold for any fuel above the number of records of the
    tables walked (for a table method, above the number of pairs of the table and of its
    argument, for a push, above that number plus the number of batches, for a commit,
    above the number of records of the changelog), so that
    [out_of_fuel] is never reached.  Requests run in the monad [E] over the state of a
    connection.  In [Lifecycle] the codes of the native calls and the failures of
    allocations are arguments of the operations.

    ** What is proved

    - keys: the order of the C++ values is kept, except that signed code units compare as
      unsigned; the stored bytes give the key back, except for bitsets whose object has
      another size than the packed bits, and then with a stated error; composite keys: order, round trip, canonical encoding; values: round trips and
      uniqueness of the string encodings.
    - batches: the decoder inverts the encoder, accepts only what is within the limits, and
      whatever it accepts can be encoded again.
    - messages: for the transport, the snapshot and the selective protocol decoding inverts
      encoding, a message is never taken for one of another type, and whatever decodes has
      passed the checks of the encoder: snapshot chunks stay inside a sorted manifest,
      scoped batches come from the scope's writer, without a gap and on its tables only;
      the encodings of the logical delivery protocol are canonical.
    - stores: the metadata table refines a record; the changelog and its origin index stay
      consistent under append, prune, rebuild and check; delivery modes exclude each
      other; identity records and keys are faithful; selective scopes never change and a
      table has one owner.
    - capture: a write is recorded or the transaction can no longer commit; a flush writes
      exactly what was recorded or restores it; over any session without logical captures
      the changelog is the history of the committed transactions, up to what a rollback
      that fails has dropped.
    - tables: with keys that can be read back (the class [KeyReadable]) a table is a finite
      map to any client program, also in what it throws; range
      scans follow the order of the C++ values; what the methods record, applied elsewhere,
      repeats what they did; a public call that throws leaves nothing behind, and over any
      sequence of public calls the committed table, the map and the changelog agree.
    - hashed store: in both layouts, whatever the hash function and its collisions, the
      store is a finite map to any program; the keyed hasher is SipHash-2-4.
    - multi-value tables: to any program both classes are maps from keys to lists of numbered
      values, in the order of insertion, also when the numbers of a key run out or a value
      is too long; replacing the content and looking a key up gives the new values in order.
    - applying: sequence rules, all-or-nothing acceptance with the reason of every refusal
      and the checks an accepted batch has passed, the exact effect of an accepted
      batch on every record, and convergence of last-writer-wins tables.
    - requests: a push commits all of its batches or changes nothing; a pull answers with the
      first missing batches within its limits or refuses for a reason that holds; pulling
      page after page delivers everything once and in order; a push request is a contiguous
      range.
    - transactions: in every reachable state tracker, guards and native transactions agree,
      the environment is never closed under a transaction, nothing is left when the guards
      are gone, failed begins leave no trace, and a shutdown drains; the exception is a
      guard that is started again, which nothing prevents after a shutdown or a disconnect.

    ** Not modelled

    The environment and file handling of [common] (I/O), the vector search (floating-point
    distances over user records), the vendored xxHash, worker threads, the middleware around
    peers, HTTP and WebSocket back ends.  The other table templates repeat the cursor loops
    of the modelled ones.  Of the full-snapshot, selective and logical protocols the messages
    are modelled, not the engine entry points, the stores and the table adapters behind them:
    where a modelled request hands over to one of them (a full-snapshot pull, the
    logical captures flushed before a commit) that part is a parameter.  The multi-value
    tables and the hashed store are modelled inside a transaction and as compiled without
    [MDBXC_SYNC_ENABLED].  In [CaptureHistory] a transaction whose capture failed and whose
    rollback failed after that is not committed: the hooks drop the mark that refuses the
    commit before the abort.  In [Lifecycle] the aborts of the destructor and of a failed
    [begin] succeed; their result is not used by the code. *)
From stdpp Require Export base tactics list gmap fin_maps strings numbers sorting.
From Stdlib Require Export ZArith Lia.
From Stdlib Require Import Strings.Byte.

Declare Scope mdbxc_scope.
Delimit Scope mdbxc_scope with mdbxc.
Open Scope Z_scope.

(** ** Exceptions and results

    The C++ code reports failures by throwing one of five standard exception
    classes or the library's own [MdbxException], which carries the MDBX return
    code.  A function that may throw is a function into [result].  [out_of_fuel] is
    not an exception of the code: a loop bounded by fuel reports with it that the fuel
    did not suffice, and the theorems show that it is never returned. *)

Inductive exn : Type :=
  | invalid_argument (what : string)
  | runtime_error (what : string)
  | logic_error (what : string)
  | length_error (what : string)
  | MdbxException (context : string) (rc : Z)
  | out_of_range (what : string)
  | overflow_error (what : string)
  | bad_alloc
  | out_of_fuel.

#[export] Instance exn_eq_dec : EqDecision exn.
Proof. solve_decision. Defined.

Inductive result (A : Type) : Type :=
  | Ok (a : A)
  | Throw (e : exn).
Arguments Ok {A} a.
Arguments Throw {A} e.

#[export] Instance result_eq_dec `{EqDecision A} : EqDecision (result A).
Proof. solve_decision. Defined.

#[export] Instance result_ret : MRet result := fun A a => Ok a.
#[export] Instance result_bind : MBind result :=
  fun A B f m => match m with Ok a => f a | Throw e => Throw e end.

(** [throw_if c e] is the idiom [if (c) throw e;]. *)
Definition throw_if (c : bool) (e : exn) : result unit :=
  if c then Throw e else Ok tt.

Definition is_ok {A} (r : result A) : bool :=
  match r with Ok _ => true | Throw _ => false end.

Lemma result_bind_Ok {A B} (m : result A) (f : A → result B) b :
  (m ≫= f) = Ok b ↔ ∃ a, m = Ok a ∧ f a = Ok b.
Proof. destruct m as [a|e]; simpl; naive_solver. Qed.

Lemma throw_if_Ok c e u : throw_if c e = Ok u ↔ c = false.
Proof. destruct c, u; simpl; naive_solver. Qed.

(** ** Bytes

    [std::uint8_t] is the 256-constructor [byte] of the Standard Library; a
    [std::string], a [std::vector<std::uint8_t>] and the contents of an
    [MDBX_val] are lists of bytes.  Wider machine integers are [Z] with explicit
    width. *)

Abbreviation byte := Init.Byte.byte.
Abbreviation bytes := (list byte).

Definition u8 (b : byte) : Z := Z.of_N (Byte.to_N b).

(** [static_cast<std::uint8_t>(z)]. *)
Definition byte_of (z : Z) : byte :=
  match Byte.of_N (Z.to_N (z mod 256)) with
  | Some b => b
  | None => Byte.x00
  end.

Definition bytes_of_string (s : string) : bytes := String.list_byte_of_string s.

Lemma u8_range b : 0 ≤ u8 b < 256.
Proof.
  unfold u8. pose proof (Byte.to_N_bounded b). lia.
Qed.

Lemma u8_inj b c : u8 b = u8 c → b = c.
Proof.
  unfold u8. intros H%N2Z.inj.
  pose proof (Byte.of_to_N b) as Hb. pose proof (Byte.of_to_N c) as Hc. congruence.
Qed.

Lemma u8_byte_of z : u8 (byte_of z) = z mod 256.
Proof.
  unfold byte_of, u8. pose proof (Z.mod_pos_bound z 256 ltac:(lia)) as Hz.
  destruct (Byte.of_N _) as [b|] eqn:E.
  - apply Byte.to_of_N in E. rewrite E. lia.
  - apply Byte.of_N_None_iff in E. lia.
Qed.

Lemma byte_of_u8 b : byte_of (u8 b) = b.
Proof.
  apply u8_inj. rewrite u8_byte_of. apply Z.mod_small, u8_range.
Qed.

#[export] Instance u8_inj' : Inj (=) (=) u8.
Proof. intros b c. apply u8_inj. Qed.

#[export] Instance byte_eq_dec : EqDecision byte := Byte.byte_eq_dec.

#[export] Program Instance byte_countable : Countable byte :=
  inj_countable Byte.to_N Byte.of_N Byte.of_to_N.

(** ** Machine widths *)

(** [size()] of a container. *)
Lemma filter_none {A} (P : A → Prop) `{∀ x, Decision (P x)} l : Forall (fun x => ¬ P x) l → filter P l = [].
Proof. induction 1 as [|x l Hx _ IH]; [done|]. by rewrite filter_cons_False. Qed.

Definition size_of {A} (l : list A) : Z := Z.of_nat (length l).

Definition u_range (w : Z) (x : Z) : Prop := 0 ≤ x < 2 ^ w.
Abbreviation is_u16 := (u_range 16).
Abbreviation is_u32 := (u_range 32).
Abbreviation is_u64 := (u_range 64).

#[export] Instance u_range_dec w x : Decision (u_range w x) := _.

(** Two's-complement reading of the low [w] bits, the effect of [memcpy] from an
    unsigned to a signed object of the same size. *)
Definition sign_of (w x : Z) : Z := if decide (x < 2 ^ (w - 1)) then x else x - 2 ^ w.
Definition s_range (w x : Z) : Prop := - 2 ^ (w - 1) ≤ x < 2 ^ (w - 1).

#[export] Instance s_range_dec w x : Decision (s_range w x) := _.

(** [~u] at width [w]. *)
Definition bit_not (w u : Z) : Z := Z.lnot u mod 2 ^ w.

(** [(flags & f) != 0]. *)
Definition has_flag (flags f : Z) : bool := negb (Z.land flags f =? 0).

(** ** Tactics *)

(** Splits a monadic success into its steps. *)
Ltac ok_inv :=
  repeat match goal with
  | H : (_ ≫= _) = Ok _ |- _ =>
      apply result_bind_Ok in H; destruct H as (? & ? & ?)
  | H : throw_if _ _ = Ok _ |- _ => apply throw_if_Ok in H
  | H : Ok _ = Ok _ |- _ => injection H as H
  | H : mret _ = Ok _ |- _ => injection H as H
  | H : Throw _ = Ok _ |- _ => discriminate H
  | H : Ok _ = Throw _ |- _ => discriminate H
  end; simplify_eq.

(** Reflects boolean integer tests in the hypotheses. *)
Ltac zbool :=
  repeat match goal with
  | H : (_ && _) = true |- _ => apply andb_prop in H; destruct H
  | H : (_ || _) = false |- _ => apply orb_false_elim in H; destruct H
  | H : negb _ = true |- _ => apply negb_true_iff in H
  | H : negb _ = false |- _ => apply negb_false_iff in H
  | H : (_ <? _) = true |- _ => apply Z.ltb_lt in H
  | H : (_ <? _) = false |- _ => apply Z.ltb_ge in H
  | H : (_ <=? _) = true |- _ => apply Z.leb_le in H
  | H : (_ <=? _) = false |- _ => apply Z.leb_gt in H
  | H : (_ >? _) = true |- _ => apply Z.gtb_lt in H
  | H : (_ >? _) = false |- _ => rewrite Z.gtb_ltb in H; apply Z.ltb_ge in H
  | H : (_ =? _) = true |- _ => apply Z.eqb_eq in H
  | H : (_ =? _) = false |- _ => apply Z.eqb_neq in H
  | H : bool_decide _ = true |- _ => apply bool_decide_eq_true in H
  | H : bool_decide _ = false |- _ => apply bool_decide_eq_false in H
  end.

(** ** Lexicographic byte order

    The order of [std::vector<std::uint8_t>::operator<], of [memcmp] extended by
    length, and of the default MDBX key comparator. *)

Definition lex_then (c d : comparison) : comparison :=
  match c with Eq => d | _ => c end.

Fixpoint bytes_compare (a b : bytes) : comparison :=
  match a, b with
  | [], [] => Eq
  | [], _ :: _ => Lt
  | _ :: _, [] => Gt
  | x :: a', y :: b' => lex_then (u8 x ?= u8 y) (bytes_compare a' b')
  end.

Definition bytes_lt (a b : bytes) : Prop := bytes_compare a b = Lt.
Definition bytes_le (a b : bytes) : Prop := bytes_compare a b ≠ Gt.

#[export] Instance bytes_lt_dec : RelDecision bytes_lt.
Proof. intros a b. unfold bytes_lt. solve_decision. Defined.
#[export] Instance bytes_le_dec : RelDecision bytes_le.
Proof. intros a b. unfold bytes_le. solve_decision. Defined.

Create HintDb mdbxc discriminated.
Create Rewrite HintDb mdbxc_len.

Lemma lex_then_assoc a b c : lex_then (lex_then a b) c = lex_then a (lex_then b c).
Proof. by destruct a. Qed.

Lemma bytes_compare_refl a : bytes_compare a a = Eq.
Proof. induction a as [|x a IH]; simpl; [done|]. by rewrite Z.compare_refl. Qed.

Lemma bytes_compare_eq a b : bytes_compare a b = Eq ↔ a = b.
Proof.
  split; [|intros ->; apply bytes_compare_refl].
  revert b. induction a as [|x a IH]; intros [|y b]; simpl; try done.
  destruct (u8 x ?= u8 y) eqn:E; simpl; try done.
  apply Z.compare_eq in E. intros H%IH. apply u8_inj in E. congruence.
Qed.

Lemma bytes_compare_antisym a b : bytes_compare b a = CompOpp (bytes_compare a b).
Proof.
  revert b. induction a as [|x a IH]; intros [|y b]; simpl; try done.
  rewrite Z.compare_antisym. destruct (u8 x ?= u8 y); simpl; auto.
Qed.

Lemma bytes_lt_trans a b c : bytes_lt a b → bytes_lt b c → bytes_lt a c.
Proof.
  unfold bytes_lt. revert b c.
  induction a as [|x a IH]; intros [|y b] [|z c]; simpl; try done.
  destruct (Z.compare_spec (u8 x) (u8 y)) as [E1|E1|E1]; simpl; try done;
    destruct (Z.compare_spec (u8 y) (u8 z)) as [E2|E2|E2]; simpl; try done;
    destruct (Z.compare_spec (u8 x) (u8 z)) as [E3|E3|E3]; simpl; try lia; eauto.
Qed.

Lemma bytes_lt_irrefl a : ¬ bytes_lt a a.
Proof. unfold bytes_lt. by rewrite bytes_compare_refl. Qed.

#[export] Instance bytes_lt_strict : StrictOrder bytes_lt.
Proof. split; [exact bytes_lt_irrefl | exact bytes_lt_trans]. Qed.

Lemma bytes_le_lteq a b : bytes_le a b ↔ bytes_lt a b ∨ a = b.
Proof.
  unfold bytes_le, bytes_lt. rewrite <- bytes_compare_eq.
  destruct (bytes_compare a b); naive_solver.
Qed.

Lemma bytes_nlt_le a b : ¬ bytes_lt a b ↔ bytes_le b a.
Proof.
  unfold bytes_le, bytes_lt. rewrite (bytes_compare_antisym a b).
  destruct (bytes_compare a b); naive_solver.
Qed.

Lemma bytes_nle_lt a b : ¬ bytes_le a b ↔ bytes_lt b a.
Proof.
  unfold bytes_le, bytes_lt. rewrite (bytes_compare_antisym a b).
  destruct (bytes_compare a b); naive_solver.
Qed.

#[export] Instance bytes_le_total : Total bytes_le.
Proof.
  intros a b. destruct (decide (bytes_le a b)) as [|H]; [by left|].
  right. apply bytes_nle_lt in H. apply bytes_le_lteq. by left.
Qed.

#[export] Instance bytes_le_trans : Transitive bytes_le.
Proof.
  intros a b c [H1| ->]%bytes_le_lteq [H2| ->]%bytes_le_lteq; apply bytes_le_lteq; auto.
  left. by eapply bytes_lt_trans.
Qed.

#[export] Instance bytes_le_refl : Reflexive bytes_le.
Proof. intros a. apply bytes_le_lteq. by right. Qed.

Lemma bytes_lt_le a b : bytes_lt a b → bytes_le a b.
Proof. intros ?. apply bytes_le_lteq. by left. Qed.

(** Two encodings are [separated] when appending anything to them leaves the order
    decided by the encodings themselves, or passed to what follows when they are
    equal.  Fixed-width and self-terminating encodings have this property. *)
Definition separated (a b : bytes) (c : comparison) : Prop :=
  ∀ x y, bytes_compare (a ++ x) (b ++ y) = lex_then c (bytes_compare x y).

Lemma separated_nil : separated [] [] Eq.
Proof. by intros x y. Qed.

Lemma separated_app a b c a' b' c' :
  separated a b c → separated a' b' c' → separated (a ++ a') (b ++ b') (lex_then c c').
Proof.
  intros H H' x y. by rewrite <- !app_assoc, H, H', lex_then_assoc.
Qed.

Lemma separated_same_length a b :
  length a = length b → separated a b (bytes_compare a b).
Proof.
  revert b. induction a as [|p a IH]; intros [|q b] Hl x y; simpl in *; try done.
  rewrite IH by lia. by rewrite lex_then_assoc.
Qed.

Lemma separated_compare a b c : separated a b c → bytes_compare a b = c.
Proof.
  intros H. specialize (H [] []). rewrite !app_nil_r in H. rewrite H. by destruct c.
Qed.

#[export] Hint Resolve bytes_compare_refl bytes_lt_le separated_nil separated_same_length
  u8_range : mdbxc.

(** ** Integer digits

    The mathematical reference for every fixed-width encoding of the library:
    [le_bytes n v] are the [n] low base-256 digits of [v], least significant first,
    [be_bytes n v] the same digits most significant first. *)

Fixpoint le_bytes (n : nat) (v : Z) : bytes :=
  match n with
  | O => []
  | S n' => byte_of v :: le_bytes n' (v / 256)
  end.

Definition be_bytes (n : nat) (v : Z) : bytes := reverse (le_bytes n v).

Fixpoint le_val (bs : bytes) : Z :=
  match bs with
  | [] => 0
  | b :: bs' => u8 b + 256 * le_val bs'
  end.

Definition be_val (bs : bytes) : Z := le_val (reverse bs).

(** The digit at bit [k], written as the code writes it. *)
Definition digit (v k : Z) : byte := byte_of (Z.land (Z.shiftr v k) 0xff).

Lemma byte_of_mod v : byte_of (v mod 256) = byte_of v.
Proof. apply u8_inj. by rewrite !u8_byte_of, Z.mod_mod by lia. Qed.

Lemma digit_0 v : digit v 0 = byte_of v.
Proof.
  unfold digit. rewrite Z.shiftr_0_r. change 0xff with (Z.ones 8).
  rewrite Z.land_ones by lia. apply byte_of_mod.
Qed.

Lemma digit_S v k : 0 ≤ k → digit v (k + 8) = digit (v / 256) k.
Proof.
  intros Hk. unfold digit. do 2 f_equal.
  rewrite !Z.shiftr_div_pow2 by lia. rewrite Z.add_comm, Z.pow_add_r by lia.
  change (2 ^ 8) with 256. by rewrite Z.div_div by lia.
Qed.

Lemma le_digits (n : nat) v : (fun i => digit v (i * 8)) <$> seqZ 0 (Z.of_nat n) = le_bytes n v.
Proof.
  revert v. induction n as [|n IH]; intros v; [done|].
  rewrite seqZ_cons by lia. rewrite fmap_cons. simpl le_bytes. rewrite <- IH. f_equal.
  - change (0 * 8) with 0. apply digit_0.
  - replace (Z.pred (Z.of_nat (S n))) with (Z.of_nat n) by lia.
    change (Z.succ 0) with (1 + 0). rewrite <- fmap_add_seqZ, <- list_fmap_compose.
    apply list_fmap_ext. intros i x Hx%lookup_seqZ. unfold compose.
    replace ((1 + x) * 8) with (x * 8 + 8) by lia. apply digit_S. lia.
Qed.

Lemma le_bytes_length n v : length (le_bytes n v) = n.
Proof. revert v. induction n; intros v; simpl; auto. Qed.

Lemma be_bytes_length n v : length (be_bytes n v) = n.
Proof. unfold be_bytes. by rewrite length_reverse, le_bytes_length. Qed.

Lemma le_val_le_bytes n v : le_val (le_bytes n v) = v mod 256 ^ Z.of_nat n.
Proof.
  revert v. induction n as [|n IH]; intros v; simpl le_bytes; simpl le_val.
  - by rewrite Z.mod_1_r.
  - rewrite IH, u8_byte_of. replace (256 ^ Z.of_nat (S n)) with (256 * 256 ^ Z.of_nat n)
      by (rewrite Nat2Z.inj_succ, Z.pow_succ_r; lia).
    rewrite Z.rem_mul_r by lia. done.
Qed.

Lemma le_bytes_le_val bs : le_bytes (length bs) (le_val bs) = bs.
Proof.
  induction bs as [|b bs IH]; simpl; [done|]. pose proof (u8_range b). f_equal.
  - rewrite <- byte_of_mod, Z.mul_comm, Z.mod_add, Z.mod_small by lia. apply byte_of_u8.
  - by rewrite Z.mul_comm, Z.div_add, Z.div_small, Z.add_0_l by lia.
Qed.

Lemma le_val_range bs : 0 ≤ le_val bs < 256 ^ Z.of_nat (length bs).
Proof.
  induction bs as [|b bs IH]; simpl length; simpl le_val; [lia|].
  pose proof (u8_range b). rewrite Nat2Z.inj_succ, Z.pow_succ_r by lia. lia.
Qed.

Lemma be_val_be_bytes n v : be_val (be_bytes n v) = v mod 256 ^ Z.of_nat n.
Proof. unfold be_val, be_bytes. by rewrite reverse_involutive, le_val_le_bytes. Qed.

Lemma be_bytes_be_val bs : be_bytes (length bs) (be_val bs) = bs.
Proof.
  unfold be_val, be_bytes. rewrite <- (length_reverse bs), le_bytes_le_val.
  apply reverse_involutive.
Qed.

Lemma be_val_range bs : 0 ≤ be_val bs < 256 ^ Z.of_nat (length bs).
Proof. unfold be_val. rewrite <- (length_reverse bs). apply le_val_range. Qed.

Lemma le_val_app xs ys :
  le_val (xs ++ ys) = le_val xs + le_val ys * 256 ^ Z.of_nat (length xs).
Proof.
  induction xs as [|x xs IH]; cbn [app le_val length]; [simpl; lia|].
  rewrite IH, Nat2Z.inj_succ, Z.pow_succ_r by lia. lia.
Qed.

Lemma be_val_cons b bs : be_val (b :: bs) = u8 b * 256 ^ Z.of_nat (length bs) + be_val bs.
Proof.
  unfold be_val. rewrite reverse_cons, le_val_app, length_reverse. cbn [le_val]. lia.
Qed.

Lemma be_bytes_S n v : be_bytes (S n) v = be_bytes n (v / 256) ++ [byte_of v].
Proof. unfold be_bytes. simpl. by rewrite reverse_cons. Qed.

Lemma be_val_snoc bs b : be_val (bs ++ [b]) = 256 * be_val bs + u8 b.
Proof. unfold be_val. rewrite reverse_snoc. simpl. lia. Qed.

Lemma div_mod_compare a b :
  lex_then (a / 256 ?= b / 256) (a mod 256 ?= b mod 256) = (a ?= b).
Proof.
  pose proof (Z.div_mod a 256 ltac:(lia)). pose proof (Z.div_mod b 256 ltac:(lia)).
  pose proof (Z.mod_pos_bound a 256 ltac:(lia)). pose proof (Z.mod_pos_bound b 256 ltac:(lia)).
  destruct (Z.compare_spec (a / 256) (b / 256)); simpl;
    [destruct (Z.compare_spec (a mod 256) (b mod 256))|..]; symmetry;
    rewrite ?Z.compare_eq_iff, ?Z.compare_lt_iff, ?Z.compare_gt_iff; lia.
Qed.

(** Big-endian digits under byte order are numbers under numeric order. *)
Lemma be_bytes_compare n a b :
  0 ≤ a < 256 ^ Z.of_nat n → 0 ≤ b < 256 ^ Z.of_nat n →
  bytes_compare (be_bytes n a) (be_bytes n b) = (a ?= b).
Proof.
  revert a b. induction n as [|n IH]; intros a b Ha Hb.
  - simpl in *. assert (a = b) as -> by lia. by rewrite Z.compare_refl.
  - rewrite Nat2Z.inj_succ, Z.pow_succ_r in Ha, Hb by lia.
    rewrite !be_bytes_S. rewrite separated_same_length by (by rewrite !be_bytes_length).
    rewrite IH by (split; [apply Z.div_pos; lia | apply Z.div_lt_upper_bound; lia]).
    simpl. rewrite !u8_byte_of, <- (div_mod_compare a b).
    by destruct (a / 256 ?= b / 256), (a mod 256 ?= b mod 256).
Qed.

(** [a] below bit [k] and [b] above do not overlap. *)
Lemma lor_disjoint_add a b k :
  0 ≤ k → 0 ≤ a < 2 ^ k → Z.lor a (Z.shiftl b k) = a + b * 2 ^ k.
Proof.
  intros Hk Ha. rewrite Z.shiftl_mul_pow2 by lia.
  rewrite <- Z.add_lor_land. enough (Z.land a (b * 2 ^ k) = 0) as -> by lia.
  apply Z.bits_inj'. intros n Hn. rewrite Z.land_spec, Z.bits_0.
  destruct (decide (n < k)).
  - rewrite Z.mul_pow2_bits_low by lia. apply andb_false_r.
  - replace (Z.testbit a n) with false; [done|]. symmetry.
    rewrite <- (Z.mod_small a (2 ^ k)) by lia. apply Z.mod_pow2_bits_high. lia.
Qed.

#[export] Hint Rewrite @length_app @length_cons @length_reverse le_bytes_length be_bytes_length
  @length_take @length_drop @length_replicate : mdbxc_len.

#[global] Arguments le_bytes : simpl never.
#[global] Arguments be_bytes : simpl never.
