(* ===== verification/SyncCommon.v ===== *)
(** * Shared sync types: node identifiers and byte-order helpers

    Models [src/include/mdbx_containers/sync/common.hpp]: the fixed-width little-
    and big-endian integer encodings every codec and store of the sync subsystem
    uses, the 16-byte node identifier and its order, and the FNV-1a hash.  The
    theorems show that each reader inverts its writer, in both directions, and that
    the big-endian form makes byte order agree with numeric order. *)
From S2P Require Import Prelude.
Open Scope Z_scope.

(** ** Node identifiers *)

(** [NodeId] and [DbId] are [std::array<std::uint8_t, 16>]. *)
Abbreviation NodeId := bytes (only parsing).
Abbreviation DbId := bytes (only parsing).
Definition node_ok (id : NodeId) : Prop := length id = 16%nat.

#[export] Instance node_ok_dec id : Decision (node_ok id) := _.

Definition make_zero_node : NodeId := replicate 16 Byte.x00.

(** [memcpy] of the first 16 bytes of the source buffer. *)
Definition make_node_id (src : bytes) : NodeId := take 16 src.

Fixpoint compare_node_id (a b : NodeId) : Z :=
  match a, b with
  | x :: a', y :: b' =>
      if bool_decide (u8 x = u8 y) then compare_node_id a' b'
      else if u8 x <? u8 y then -1 else 1
  | _, _ => 0
  end.

Definition is_zero_sync_id (id : NodeId) : bool :=
  compare_node_id id make_zero_node =? 0.

Definition fnv1a_step (h : Z) (b : byte) : Z :=
  (Z.lxor h (u8 b) * 0x100000001b3) mod 2 ^ 64.
Definition fnv1a_64 (s : bytes) : Z := foldl fnv1a_step 0xcbf29ce484222325 s.

(** ** Fixed-width integers *)

Definition write_u16_le (value : Z) : bytes :=
  [ byte_of (Z.land value 0xff); byte_of (Z.land (Z.shiftr value 8) 0xff) ].

Definition write_u32_le (value : Z) : bytes :=
  [ byte_of (Z.land value 0xff);
    byte_of (Z.land (Z.shiftr value 8) 0xff);
    byte_of (Z.land (Z.shiftr value 16) 0xff);
    byte_of (Z.land (Z.shiftr value 24) 0xff) ].

Definition write_u64_le (value : Z) : bytes :=
  map (fun i => byte_of (Z.land (Z.shiftr value (i * 8)) 0xff)) (seqZ 0 8).

Definition write_u64_be (value : Z) : bytes :=
  map (fun i => byte_of (Z.land (Z.shiftr value ((7 - i) * 8)) 0xff)) (seqZ 0 8).

(** [bytes[i]] of a pointer the caller has checked to be readable. *)
Definition at_byte (bs : bytes) (i : nat) : Z := u8 (nth i bs Byte.x00).

Definition read_u16_le (bs : bytes) : Z :=
  Z.lor (at_byte bs 0) (Z.shiftl (at_byte bs 1) 8).

Definition read_u32_le (bs : bytes) : Z :=
  Z.lor (Z.lor (Z.lor (at_byte bs 0) (Z.shiftl (at_byte bs 1) 8))
               (Z.shiftl (at_byte bs 2) 16))
        (Z.shiftl (at_byte bs 3) 24).

Definition read_u64_le (bs : bytes) : Z :=
  foldl (fun out i => Z.lor out (Z.shiftl (at_byte bs i) (Z.of_nat i * 8))) 0 (seq 0 8).

Definition read_u64_be (bs : bytes) : Z :=
  foldl (fun out i => Z.lor (Z.shiftl out 8 mod 2 ^ 64) (at_byte bs i)) 0 (seq 0 8).

Definition append_u16_le (out : bytes) (value : Z) : bytes := out ++ write_u16_le value.
Definition append_u32_le (out : bytes) (value : Z) : bytes := out ++ write_u32_le value.
Definition append_u64_le (out : bytes) (value : Z) : bytes := out ++ write_u64_le value.
Definition append_u64_be (out : bytes) (value : Z) : bytes := out ++ write_u64_be value.

(** ** Writers and readers against the reference digits *)

Lemma write_u16_le_digits v : write_u16_le v = le_bytes 2 v.
Proof. rewrite <- le_digits. unfold write_u16_le, digit. simpl. by rewrite Z.shiftr_0_r. Qed.

Lemma write_u32_le_digits v : write_u32_le v = le_bytes 4 v.
Proof. rewrite <- le_digits. unfold write_u32_le, digit. simpl. by rewrite Z.shiftr_0_r. Qed.

Lemma write_u64_le_digits v : write_u64_le v = le_bytes 8 v.
Proof. by rewrite <- le_digits. Qed.

Lemma write_u64_be_digits v : write_u64_be v = be_bytes 8 v.
Proof. unfold be_bytes. by rewrite <- le_digits. Qed.

Lemma at_byte_range bs i : 0 ≤ at_byte bs i < 256.
Proof. apply u8_range. Qed.

Ltac at_bytes bs :=
  repeat match goal with
  | |- context [at_byte bs ?i] =>
      let x := fresh "x" in let H := fresh "Hx" in
      pose proof (at_byte_range bs i) as H; set (x := at_byte bs i) in *; clearbody x
  end.

Lemma read_u16_le_sum bs : read_u16_le bs = at_byte bs 0 + 256 * at_byte bs 1.
Proof.
  unfold read_u16_le. at_bytes bs. rewrite lor_disjoint_add by lia. lia.
Qed.

Lemma read_u32_le_sum bs :
  read_u32_le bs =
  at_byte bs 0 + 256 * (at_byte bs 1 + 256 * (at_byte bs 2 + 256 * at_byte bs 3)).
Proof.
  unfold read_u32_le. at_bytes bs. rewrite (lor_disjoint_add _ _ 8) by lia.
  rewrite (lor_disjoint_add _ _ 16) by lia. rewrite (lor_disjoint_add _ _ 24) by lia. lia.
Qed.

Lemma read_u64_le_sum bs :
  read_u64_le bs =
  at_byte bs 0 + 256 * (at_byte bs 1 + 256 * (at_byte bs 2 + 256 * (at_byte bs 3 +
  256 * (at_byte bs 4 + 256 * (at_byte bs 5 + 256 * (at_byte bs 6 + 256 * at_byte bs 7)))))).
Proof.
  unfold read_u64_le. cbn [seq foldl]. at_bytes bs.
  change (Z.of_nat 0 * 8) with 0. change (Z.of_nat 1 * 8) with 8.
  change (Z.of_nat 2 * 8) with 16. change (Z.of_nat 3 * 8) with 24.
  change (Z.of_nat 4 * 8) with 32. change (Z.of_nat 5 * 8) with 40.
  change (Z.of_nat 6 * 8) with 48. change (Z.of_nat 7 * 8) with 56.
  rewrite Z.shiftl_0_r, Z.lor_0_l.
  rewrite (lor_disjoint_add _ _ 8) by lia. rewrite (lor_disjoint_add _ _ 16) by lia.
  rewrite (lor_disjoint_add _ _ 24) by lia. rewrite (lor_disjoint_add _ _ 32) by lia.
  rewrite (lor_disjoint_add _ _ 40) by lia. rewrite (lor_disjoint_add _ _ 48) by lia.
  rewrite (lor_disjoint_add _ _ 56) by lia. lia.
Qed.

Lemma be_step_lor out x :
  0 ≤ out < 2 ^ 56 → 0 ≤ x < 256 → Z.lor (Z.shiftl out 8 mod 2 ^ 64) x = 256 * out + x.
Proof.
  intros Ho Hx. rewrite Z.shiftl_mul_pow2 by lia.
  rewrite Z.mod_small by lia. rewrite Z.lor_comm.
  rewrite <- Z.shiftl_mul_pow2 by lia. rewrite lor_disjoint_add by lia. lia.
Qed.

Lemma read_u64_be_sum bs :
  read_u64_be bs =
  256 * (256 * (256 * (256 * (256 * (256 * (256 * at_byte bs 0 + at_byte bs 1) + at_byte bs 2) +
  at_byte bs 3) + at_byte bs 4) + at_byte bs 5) + at_byte bs 6) + at_byte bs 7.
Proof.
  unfold read_u64_be. cbn [seq foldl]. at_bytes bs.
  rewrite (be_step_lor 0) by lia. repeat rewrite (be_step_lor (_ + _)) by lia. lia.
Qed.

(** A reader looks only at the first bytes of its buffer, and sees the value of the
    digits there. *)
Lemma read_u16_le_val bs s : length bs = 2%nat → read_u16_le (bs ++ s) = le_val bs.
Proof.
  intros. destruct bs as [|a [|b [|]]]; try done.
  rewrite read_u16_le_sum. unfold at_byte. simpl. lia.
Qed.
Lemma read_u32_le_val bs s : length bs = 4%nat → read_u32_le (bs ++ s) = le_val bs.
Proof.
  intros. destruct bs as [|a [|b [|c [|d [|]]]]]; try done.
  rewrite read_u32_le_sum. unfold at_byte. cbn [app nth le_val]. lia.
Qed.
Lemma read_u64_le_val bs s : length bs = 8%nat → read_u64_le (bs ++ s) = le_val bs.
Proof.
  intros. destruct bs as [|a [|b [|c [|d [|e [|f [|g [|h [|]]]]]]]]]; try done.
  rewrite read_u64_le_sum. unfold at_byte. cbn [app nth le_val]. lia.
Qed.
Lemma read_u64_be_val bs s : length bs = 8%nat → read_u64_be (bs ++ s) = be_val bs.
Proof.
  intros. destruct bs as [|a [|b [|c [|d [|e [|f [|g [|h [|]]]]]]]]]; try done.
  rewrite read_u64_be_sum. unfold at_byte. cbn [app nth be_val le_val reverse rev_append]. lia.
Qed.

(** ** Round trips *)

Lemma read_write_u16_le v s : is_u16 v → read_u16_le (write_u16_le v ++ s) = v.
Proof.
  intros Hv. rewrite write_u16_le_digits, read_u16_le_val by apply le_bytes_length.
  rewrite le_val_le_bytes. by apply Z.mod_small.
Qed.
Lemma read_write_u32_le v s : is_u32 v → read_u32_le (write_u32_le v ++ s) = v.
Proof.
  intros Hv. rewrite write_u32_le_digits, read_u32_le_val by apply le_bytes_length.
  rewrite le_val_le_bytes. by apply Z.mod_small.
Qed.
Lemma read_write_u64_le v s : is_u64 v → read_u64_le (write_u64_le v ++ s) = v.
Proof.
  intros Hv. rewrite write_u64_le_digits, read_u64_le_val by apply le_bytes_length.
  rewrite le_val_le_bytes. by apply Z.mod_small.
Qed.
Lemma read_write_u64_be v s : is_u64 v → read_u64_be (write_u64_be v ++ s) = v.
Proof.
  intros Hv. rewrite write_u64_be_digits, read_u64_be_val by apply be_bytes_length.
  rewrite be_val_be_bytes. by apply Z.mod_small.
Qed.

(** Reading an exact buffer and writing it back restores the bytes. *)
Lemma write_read_u16_le bs : length bs = 2%nat → write_u16_le (read_u16_le bs) = bs.
Proof.
  intros Hl. rewrite <- (app_nil_r bs), read_u16_le_val, app_nil_r, write_u16_le_digits, <- Hl
    by done. apply le_bytes_le_val.
Qed.
Lemma write_read_u32_le bs : length bs = 4%nat → write_u32_le (read_u32_le bs) = bs.
Proof.
  intros Hl. rewrite <- (app_nil_r bs), read_u32_le_val, app_nil_r, write_u32_le_digits, <- Hl
    by done. apply le_bytes_le_val.
Qed.
Lemma write_read_u64_le bs : length bs = 8%nat → write_u64_le (read_u64_le bs) = bs.
Proof.
  intros Hl. rewrite <- (app_nil_r bs), read_u64_le_val, app_nil_r, write_u64_le_digits, <- Hl
    by done. apply le_bytes_le_val.
Qed.
Lemma write_read_u64_be bs : length bs = 8%nat → write_u64_be (read_u64_be bs) = bs.
Proof.
  intros Hl. rewrite <- (app_nil_r bs), read_u64_be_val, app_nil_r, write_u64_be_digits, <- Hl
    by done. apply be_bytes_be_val.
Qed.

Lemma write_u16_le_length v : length (write_u16_le v) = 2%nat.
Proof. done. Qed.
Lemma write_u32_le_length v : length (write_u32_le v) = 4%nat.
Proof. done. Qed.
Lemma write_u64_le_length v : length (write_u64_le v) = 8%nat.
Proof. done. Qed.
Lemma write_u64_be_length v : length (write_u64_be v) = 8%nat.
Proof. done. Qed.

(** Every read value fits its width. *)
Lemma read_u16_le_range bs : is_u16 (read_u16_le bs).
Proof. rewrite read_u16_le_sum. at_bytes bs. unfold u_range. lia. Qed.
Lemma read_u32_le_range bs : is_u32 (read_u32_le bs).
Proof. rewrite read_u32_le_sum. at_bytes bs. unfold u_range. lia. Qed.
Lemma read_u64_le_range bs : is_u64 (read_u64_le bs).
Proof. rewrite read_u64_le_sum. at_bytes bs. unfold u_range. lia. Qed.
Lemma read_u64_be_range bs : is_u64 (read_u64_be bs).
Proof. rewrite read_u64_be_sum. at_bytes bs. unfold u_range. lia. Qed.

(** ** Order *)

Lemma write_u64_be_compare a b :
  is_u64 a → is_u64 b → bytes_compare (write_u64_be a) (write_u64_be b) = (a ?= b).
Proof. intros. rewrite !write_u64_be_digits. by apply be_bytes_compare. Qed.

Lemma compare_node_id_bytes a b :
  length a = length b →
  compare_node_id a b = match bytes_compare a b with Eq => 0 | Lt => -1 | Gt => 1 end.
Proof.
  revert b. induction a as [|x a IH]; intros [|y b] Hl; simpl in *; try done.
  case_bool_decide as E; [rewrite E, Z.compare_refl; simpl; auto|].
  destruct (Z.ltb_spec (u8 x) (u8 y)).
  - by rewrite (proj2 (Z.compare_lt_iff _ _)).
  - by rewrite (proj2 (Z.compare_gt_iff _ _)) by lia.
Qed.

Lemma compare_node_id_zero a b :
  node_ok a → node_ok b → compare_node_id a b = 0 ↔ a = b.
Proof.
  intros Ha Hb. rewrite compare_node_id_bytes by (unfold node_ok in *; congruence).
  rewrite <- bytes_compare_eq. destruct (bytes_compare a b); naive_solver.
Qed.

Lemma make_zero_node_ok : node_ok make_zero_node.
Proof. done. Qed.

Lemma is_zero_sync_id_spec id : node_ok id → is_zero_sync_id id = true ↔ id = make_zero_node.
Proof.
  intros Hid. unfold is_zero_sync_id. rewrite Z.eqb_eq.
  by apply compare_node_id_zero.
Qed.

#[export] Hint Resolve read_write_u16_le read_write_u32_le read_write_u64_le read_write_u64_be
  read_u16_le_range read_u32_le_range read_u64_le_range read_u64_be_range
  make_zero_node_ok : mdbxc.
#[export] Hint Rewrite write_u16_le_length write_u32_le_length write_u64_le_length
  write_u64_be_length : mdbxc_len.

#[global] Arguments write_u16_le : simpl never.
#[global] Arguments write_u32_le : simpl never.
#[global] Arguments write_u64_le : simpl never.
#[global] Arguments write_u64_be : simpl never.

#[global] Arguments read_u16_le : simpl never.
#[global] Arguments read_u32_le : simpl never.
#[global] Arguments read_u64_le : simpl never.
#[global] Arguments read_u64_be : simpl never.
