(* ===== verification/KeyCodec.v ===== *)
(** * Key and value serialization

    Models [src/include/mdbx_containers/detail/utils.hpp]: the mapping of C++ keys to
    MDBX key bytes and back, the sortable integer ranks of signed integers and IEEE
    floating-point numbers, the overload that [serialize_key(key)] and
    [deserialize_key<KeyT>(val)] select for each key type, and the byte format
    of string containers.  The theorems show that decoding inverts encoding for
    every key type but the bitsets whose object is larger than their stored bytes, which
    never decode; that the key order MDBX uses agrees with the order of the C++ values but
    for signed code units; and that malformed bytes are rejected.

    A floating-point object is its IEEE bit pattern, which is all the code reads
    ([memcpy] to an unsigned integer); [float_value] gives the number it denotes. *)
From Stdlib Require Import SpecFloat.
From S2P Require Import Prelude SyncCommon.
Open Scope Z_scope.

(** ** Reserved names *)

Definition reserved_prefix : bytes := bytes_of_string "_mdbxc_".

Definition is_reserved_dbi_name (name : bytes) : bool :=
  bool_decide (length reserved_prefix ≤ length name)%nat &&
  bool_decide (take (length reserved_prefix) name = reserved_prefix).

(** ** Sortable ranks *)

Definition sortable_key_from_float (f : Z) : result Z :=
  let u := f in
  let magnitude := Z.land u 0x7fffffff in
  if magnitude >? 0x7f800000 then
    Throw (invalid_argument "serialize_key: NaN floating-point keys are not supported")
  else
    let u := if magnitude =? 0 then 0 else u in
    Ok (if negb (Z.land u 0x80000000 =? 0) then bit_not 32 u else Z.lxor u 0x80000000).

Definition sortable_key_from_double (d : Z) : result Z :=
  let u := d in
  let magnitude := Z.land u 0x7fffffffffffffff in
  if magnitude >? 0x7ff0000000000000 then
    Throw (invalid_argument "serialize_key: NaN floating-point keys are not supported")
  else
    let u := if magnitude =? 0 then 0 else u in
    Ok (if negb (Z.land u 0x8000000000000000 =? 0) then bit_not 64 u
        else Z.lxor u 0x8000000000000000).

(** The object representation of a signed integer: [memcpy] to the unsigned type. *)
Definition raw_bits (w key : Z) : Z := key mod 2 ^ w.

Definition sortable_key_from_signed_int32 (key : Z) : Z :=
  Z.lxor (raw_bits 32 key) 0x80000000.
Definition signed_int32_from_sortable_key (key : Z) : Z :=
  sign_of 32 (Z.lxor key 0x80000000).
Definition sortable_key_from_signed_int64 (key : Z) : Z :=
  Z.lxor (raw_bits 64 key) 0x8000000000000000.
Definition signed_int64_from_sortable_key (key : Z) : Z :=
  sign_of 64 (Z.lxor key 0x8000000000000000).

Definition float_from_sortable_key (key : Z) : Z :=
  if negb (Z.land key 0x80000000 =? 0) then Z.lxor key 0x80000000 else bit_not 32 key.
Definition double_from_sortable_key (key : Z) : Z :=
  if negb (Z.land key 0x8000000000000000 =? 0) then Z.lxor key 0x8000000000000000
  else bit_not 64 key.

(** ** Integral key types

    What the type traits ask about an integral type [T]: its size in bytes, its
    signedness, whether it is one of the four [long] types that are always stored in
    64 bits, and whether it is a character code unit. *)

Record int_type : Type := {
  ty_size : Z;
  ty_signed : bool;
  ty_long : bool;
  ty_code_unit : bool;
}.

Definition is_key_signed_integral (T : int_type) : bool := ty_signed T.

Definition uses_64bit_mdbx_integer_key_storage (T : int_type) : bool :=
  (ty_size T <=? 8) && ((ty_size T >? 4) || ty_long T).

Definition mdbx_integer_key_storage_size (T : int_type) : Z :=
  if ty_size T >? 8 then ty_size T
  else if uses_64bit_mdbx_integer_key_storage T then 8 else 4.

Definition is_signed_mdbx_integer_key (T : int_type) : bool :=
  is_key_signed_integral T && (ty_size T <=? 8) && negb (ty_code_unit T).

(** Bits of [T] and the values it holds. *)
Definition ty_bits (T : int_type) : Z := ty_size T * 8.
Definition in_type (T : int_type) (v : Z) : Prop :=
  if ty_signed T then s_range (ty_bits T) v else u_range (ty_bits T) v.

(** The C++ integral types: sizes are powers of two up to 16 bytes, the [long]
    types have 4 or 8 bytes, and code units have at most 4. *)
Definition int_type_ok (T : int_type) : Prop :=
  ty_size T ∈ [1; 2; 4; 8; 16] ∧
  (ty_long T = true → ty_size T ∈ [4; 8]) ∧
  (ty_code_unit T = true → ty_size T ≤ 4 ∧ ty_long T = false).

(** [memcpy] from the unsigned counterpart to [T]. *)
Definition from_bits (T : int_type) (bits : Z) : Z :=
  if ty_signed T then sign_of (ty_bits T) bits else bits.

Definition code_unit_key_bits (T : int_type) (key : Z) : Z := raw_bits (ty_bits T) key.

Definition code_unit_key_from_bits (T : int_type) (raw : Z) : result Z :=
  let max_value := 2 ^ ty_bits T - 1 in
  if raw >? max_value then
    Throw (runtime_error "deserialize_key: code unit value out of range")
  else Ok (from_bits T raw).

Definition serialize_wide_integral_key (T : int_type) (key : Z) : bytes :=
  let sortable := raw_bits (ty_bits T) key in
  let sortable :=
    if is_key_signed_integral T then Z.lxor sortable (Z.shiftl 1 (ty_bits T - 1))
    else sortable in
  reverse ((fun i => digit sortable (i * 8)) <$> seqZ 0 (ty_size T)).

Definition deserialize_wide_integral_key (T : int_type) (val : bytes) : result Z :=
  if negb (Z.of_nat (length val) =? ty_size T) then
    Throw (runtime_error "deserialize_key: size mismatch")
  else
    let raw := foldl (fun raw b =>
      Z.lor (Z.shiftl raw 8 mod 2 ^ ty_bits T) (u8 b)) 0 val in
    let raw :=
      if is_key_signed_integral T then Z.lxor raw (Z.shiftl 1 (ty_bits T - 1)) else raw in
    Ok (from_bits T raw).

(** ** Key types and the overload set *)

Inductive key_type : Type :=
  | KString                       (* std::string *)
  | KByteVector (signed : bool)   (* std::vector of bytes; [signed]: of a signed char *)
  | KIntegral (T : int_type)
  | KFloat
  | KDouble
  | KBitset (n size : nat)        (* std::bitset<N>, an object of [size] bytes *)
  | KTrivial (size : nat).        (* any other trivially copyable type *)

(** A key value: bytes for strings, byte vectors and object representations, an
    integer, an IEEE bit pattern, or the list of bits of a bitset. *)
Definition key_val (k : key_type) : Type :=
  match k with
  | KString | KByteVector _ | KTrivial _ => bytes
  | KIntegral _ | KFloat | KDouble => Z
  | KBitset _ _ => list bool
  end.

Definition key_ok (k : key_type) : key_val k → Prop :=
  match k with
  | KString | KByteVector _ => fun _ => True
  | KTrivial size => fun v => length v = size
  | KIntegral T => fun v => int_type_ok T ∧ in_type T v
  | KFloat => fun v => is_u32 v
  | KDouble => fun v => is_u64 v
  | KBitset n size => fun v => length v = n ∧ (n ≤ 8 * size)%nat
  end.

Definition MDBX_INTEGERKEY : Z := 0x08.

Definition get_mdbx_flags (k : key_type) : Z :=
  match k with
  | KIntegral T => if ty_size T <=? 8 then MDBX_INTEGERKEY else 0
  | KFloat | KDouble => MDBX_INTEGERKEY
  | _ => 0
  end.

Definition get_key_size (k : key_type) : key_val k → Z :=
  match k with
  | KString | KByteVector _ => fun v => Z.of_nat (length v)
  | KIntegral T => fun _ => mdbx_integer_key_storage_size T
  | KFloat => fun _ => 4
  | KDouble => fun _ => 8
  | KBitset n _ => fun _ => (Z.of_nat n + 7) / 8
  | KTrivial size => fun _ => Z.of_nat size
  end.

(** [for (i < N) if (data[i]) buffer[i / 8] |= 1 << (i % 8)] on a zeroed buffer. *)
Definition pack_bits (b : nat → bool) : Z :=
  foldl (fun acc i => if b i then Z.lor acc (Z.shiftl 1 (Z.of_nat i)) else acc) 0 (seq 0 8).
Definition bitset_byte (data : list bool) (j : nat) : byte :=
  byte_of (pack_bits (fun i => nth (8 * j + i) data false)).
Definition bitset_bytes (n : nat) (data : list bool) : bytes :=
  bitset_byte data <$> seq 0 ((n + 7) / 8).

(** Native object bytes of an unsigned integer: the supported hosts are
    little-endian. *)
Definition native_u32 (v : Z) : bytes := write_u32_le v.
Definition native_u64 (v : Z) : bytes := write_u64_le v.

Definition serialize_integral_key (T : int_type) (key : Z) : bytes :=
  if ty_size T >? 8 then serialize_wide_integral_key T key
  else if ty_code_unit T then native_u32 (code_unit_key_bits T key)
  else if mdbx_integer_key_storage_size T =? 4 then
    if is_signed_mdbx_integer_key T then native_u32 (sortable_key_from_signed_int32 key)
    else native_u32 (raw_bits 32 key)
  else
    if is_signed_mdbx_integer_key T then native_u64 (sortable_key_from_signed_int64 key)
    else native_u64 (raw_bits 64 key).

Definition serialize_key (k : key_type) : key_val k → result bytes :=
  match k with
  | KString | KByteVector _ | KTrivial _ => fun key => Ok key
  | KIntegral T => fun key => Ok (serialize_integral_key T key)
  | KFloat => fun key => temp ← sortable_key_from_float key; Ok (native_u32 temp)
  | KDouble => fun key => temp ← sortable_key_from_double key; Ok (native_u64 temp)
  | KBitset n _ => fun key => Ok (bitset_bytes n key)
  end.

Definition size_mismatch : exn := runtime_error "deserialize_key: size mismatch".

(** [static_cast<T>] of an unsigned value to an unsigned narrower type. *)
Definition narrow (T : int_type) (v : Z) : Z := v mod 2 ^ ty_bits T.

(** [static_cast<T>] of a signed value to a signed narrower type. *)
Definition narrow_signed (T : int_type) (v : Z) : Z := sign_of (ty_bits T) (v mod 2 ^ ty_bits T).

Definition deserialize_integral_key (T : int_type) (val : bytes) : result Z :=
  if ty_size T >? 8 then deserialize_wide_integral_key T val
  else if mdbx_integer_key_storage_size T =? 4 then
    if negb (Z.of_nat (length val) =? 4) then Throw size_mismatch
    else
      let raw := read_u32_le val in
      if ty_code_unit T then code_unit_key_from_bits T raw
      else if is_signed_mdbx_integer_key T then
        Ok (narrow_signed T (signed_int32_from_sortable_key raw))
      else Ok (narrow T raw)
  else
    if negb (Z.of_nat (length val) =? 8) then Throw size_mismatch
    else
      let raw := read_u64_le val in
      if is_signed_mdbx_integer_key T then
        Ok (narrow_signed T (signed_int64_from_sortable_key raw))
      else Ok (narrow T raw).

(** [deserialize_value<T>] of a trivially copyable [T]: the bytes of the object. *)
Definition deserialize_object (size : nat) (val : bytes) : result bytes :=
  if negb (length val =? size)%nat then Throw (runtime_error "deserialize_value: size mismatch") else Ok val.

(** The bits of a bitset object: words of a little-endian host, bit [i] in byte [i / 8]. *)
Definition bitset_of_object (n : nat) (object : bytes) : list bool :=
  (fun i => negb (Z.land (u8 (nth (i / 8) object Byte.x00)) (Z.shiftl 1 (Z.of_nat (i mod 8))) =? 0)) <$> seq 0 n.

(** [deserialize_key<KeyT>(val)], as every table calls it.  The overload for bitsets takes
    [N] as its template argument, so that a call with the type [std::bitset<N>] selects the
    one for trivially copyable types. *)
Definition deserialize_key (k : key_type) (val : bytes) : result (key_val k) :=
  match k return result (key_val k) with
  | KString | KByteVector _ => Ok val
  | KTrivial size => deserialize_object size val
  | KIntegral T => deserialize_integral_key T val
  | KFloat =>
      if negb (Z.of_nat (length val) =? 4) then Throw size_mismatch
      else Ok (float_from_sortable_key (read_u32_le val))
  | KDouble =>
      if negb (Z.of_nat (length val) =? 8) then Throw size_mismatch
      else Ok (double_from_sortable_key (read_u64_le val))
  | KBitset n size => object ← deserialize_object size val; Ok (bitset_of_object n object)
  end.

(** ** The number a floating-point bit pattern denotes

    IEEE 754 interchange format with [mw] fraction bits and [ew] exponent bits, read
    into the Standard Library's [spec_float]. *)

Definition ieee_value (mw ew u : Z) : spec_float :=
  let s := 2 ^ (mw + ew) <=? u in
  let e := u / 2 ^ mw mod 2 ^ ew in
  let m := u mod 2 ^ mw in
  let emin := 2 - 2 ^ (ew - 1) - mw in
  if e =? 2 ^ ew - 1 then (if m =? 0 then S754_infinity s else S754_nan)
  else if e =? 0 then
    match m with Zpos p => S754_finite s p emin | _ => S754_zero s end
  else
    match m + 2 ^ mw with Zpos p => S754_finite s p (e - 1 + emin) | _ => S754_nan end.

Definition float_value (bits : Z) : spec_float := ieee_value 23 8 bits.
Definition double_value (bits : Z) : spec_float := ieee_value 52 11 bits.

(** ** Bit arithmetic of the ranks *)

Lemma lxor_top k u :
  0 ≤ k → 0 ≤ u < 2 ^ (k + 1) →
  Z.lxor u (2 ^ k) = if decide (u < 2 ^ k) then u + 2 ^ k else u - 2 ^ k.
Proof.
  intros Hk Hu. rewrite Z.pow_add_r in Hu by lia. change (2 ^ 1) with 2 in Hu.
  assert (∀ v, 0 ≤ v < 2 ^ k → Z.lxor v (2 ^ k) = v + 2 ^ k) as Hlow.
  { intros v Hv. pose proof (lor_disjoint_add v 1 k Hk Hv) as Hl.
    rewrite Z.shiftl_1_l in Hl.
    pose proof (Z.add_lor_land v (2 ^ k)) as Ha.
    rewrite Z.lxor_lor by lia. lia. }
  case_decide as Hd; [apply Hlow; lia|].
  replace u with (Z.lxor (u - 2 ^ k) (2 ^ k)) at 1 by (rewrite Hlow; lia).
  by rewrite Z.lxor_assoc, Z.lxor_nilpotent, Z.lxor_0_r.
Qed.

Lemma land_low k u : 0 ≤ k → Z.land u (2 ^ k - 1) = u mod 2 ^ k.
Proof.
  intros. rewrite <- Z.land_ones by lia. f_equal. rewrite Z.ones_equiv. lia.
Qed.

Lemma land_top k u :
  0 ≤ k → 0 ≤ u < 2 ^ (k + 1) → (Z.land u (2 ^ k) =? 0) = (u <? 2 ^ k).
Proof.
  intros Hk Hu. pose proof (lxor_top k u Hk Hu) as Hx.
  pose proof (Z.add_lor_land u (2 ^ k)) as Ha. pose proof (Z.lxor_lor u (2 ^ k)) as Hl.
  rewrite Z.pow_add_r in Hu by lia. change (2 ^ 1) with 2 in Hu.
  destruct (Z.eqb_spec (Z.land u (2 ^ k)) 0) as [E|E]; symmetry.
  - apply Z.ltb_lt. case_decide; [lia|]. rewrite Hl in Hx by done. lia.
  - apply Z.ltb_ge. destruct (decide (2 ^ k ≤ u)) as [|Hn]; [done|]. exfalso. apply E.
    rewrite Z.land_comm. apply Z.bits_inj'. intros n Hn'. rewrite Z.land_spec, Z.bits_0.
    destruct (decide (n < k)).
    + by rewrite Z.pow2_bits_false by lia.
    + rewrite <- (Z.mod_small u (2 ^ k)) by lia. rewrite Z.mod_pow2_bits_high by lia.
      apply andb_false_r.
Qed.

Lemma bit_not_sub w u : 0 ≤ w → u_range w u → bit_not w u = 2 ^ w - 1 - u.
Proof.
  intros Hw [? ?]. unfold bit_not, Z.lnot.
  rewrite <- (Z.mod_add _ 1) by lia. rewrite Z.mod_small; lia.
Qed.

(** ** Floating-point order *)

Section IeeeOrder.
Context (mw ew : Z) (Hmw : 0 < mw) (Hew : 0 < ew).

Let E := 2 ^ mw.
Let X := 2 ^ ew.
Let emin := 2 - 2 ^ (ew - 1) - mw.
Let K := 2 ^ (mw + ew).

(** Signed magnitude of a bit pattern. *)
Definition signed_magnitude (u : Z) : Z :=
  if decide (u < K) then u mod K else - (u mod K).

(** What a non-NaN pattern of signed magnitude [z] denotes. *)
Inductive denotes : Z → spec_float → Prop :=
  | denotes_zero s : denotes 0 (S754_zero s)
  | denotes_finite s p e m :
      0 ≤ e < X - 1 → 0 ≤ m < E → 0 < m + E * e →
      Zpos p = m + (if decide (e = 0) then 0 else E) →
      denotes (if s : bool then - (m + E * e) else m + E * e)
        (S754_finite s p ((if decide (e = 0) then 0 else e - 1) + emin))
  | denotes_inf s :
      denotes (if s : bool then - (E * (X - 1)) else E * (X - 1)) (S754_infinity s).

Lemma E_pos : 0 < E.
Proof. apply Z.pow_pos_nonneg; lia. Qed.
Lemma X_ge : 2 ≤ X.
Proof. unfold X. replace ew with (1 + (ew - 1)) by lia. rewrite Z.pow_add_r by lia.
  pose proof (Z.pow_pos_nonneg 2 (ew - 1)). lia. Qed.
Lemma K_EX : K = E * X.
Proof. unfold K, E, X. by rewrite Z.pow_add_r by lia. Qed.

Lemma ieee_value_denotes u :
  0 ≤ u < 2 * K → u mod K ≤ E * (X - 1) → denotes (signed_magnitude u) (ieee_value mw ew u).
Proof.
  intros Hu Hnan. pose proof E_pos. pose proof X_ge. pose proof K_EX as HK.
  unfold ieee_value. fold K E X emin.
  set (e := u / E mod X). set (m := u mod E).
  assert (u mod K = m + E * e) as Hmag by (rewrite HK; by apply Z.rem_mul_r; lia).
  assert (0 ≤ m < E) by (apply Z.mod_pos_bound; lia).
  assert (0 ≤ e < X) by (apply Z.mod_pos_bound; lia).
  unfold signed_magnitude. rewrite Hmag in *.
  destruct (Z.eqb_spec e (X - 1)) as [He|He].
  { rewrite He in *. assert (m = 0) as -> by lia. simpl.
    destruct (Z.leb_spec K u); case_decide; try lia.
    - apply (denotes_inf true).
    - apply (denotes_inf false). }
  destruct (Z.eqb_spec e 0) as [He0|He0].
  - rewrite He0, Z.mul_0_r, Z.add_0_r. destruct m as [|p|p] eqn:Em; [|clearbody e|lia].
    + case_decide; simpl; constructor.
    + destruct (Z.leb_spec K u); case_decide; try lia.
      * pose proof (denotes_finite true p 0 (Zpos p)) as D. simpl in D.
        rewrite Z.mul_0_r, Z.add_0_r in D. apply D; lia.
      * pose proof (denotes_finite false p 0 (Zpos p)) as D. simpl in D.
        rewrite Z.mul_0_r, Z.add_0_r in D. apply D; lia.
  - destruct (m + E) as [|p|p] eqn:Em; [lia| |lia].
    pose proof (denotes_finite (K <=? u) p e m) as D.
    rewrite !decide_False in D by done.
    destruct (Z.leb_spec K u); case_decide; try lia; apply D; nia.
Qed.

Lemma scaled_compare m1 e1 m2 e2 p1 p2 :
  0 ≤ e1 → 0 ≤ e2 → 0 ≤ m1 < E → 0 ≤ m2 < E →
  Zpos p1 = m1 + (if decide (e1 = 0) then 0 else E) →
  Zpos p2 = m2 + (if decide (e2 = 0) then 0 else E) →
  match ((if decide (e1 = 0) then 0 else e1 - 1) + emin ?=
         (if decide (e2 = 0) then 0 else e2 - 1) + emin) with
  | Eq => (p1 ?= p2)%positive | Lt => Lt | Gt => Gt
  end = (m1 + E * e1 ?= m2 + E * e2).
Proof.
  intros He1 He2 Hm1 Hm2 Hp1 Hp2. pose proof E_pos as HE.
  change (p1 ?= p2)%positive with (Zpos p1 ?= Zpos p2). rewrite Hp1, Hp2.
  repeat case_decide; subst.
  all: match goal with
       | |- match (?a ?= ?b) with _ => _ end = _ => destruct (Z.compare_spec a b)
       end.
  all: match goal with |- ?l = _ => first
         [ match l with (?a ?= ?b) => destruct (Z.compare_spec a b) end | idtac ] end.
  all: symmetry; rewrite ?Z.compare_eq_iff, ?Z.compare_lt_iff, ?Z.compare_gt_iff; nia.
Qed.

Lemma denotes_compare z1 f1 z2 f2 :
  denotes z1 f1 → denotes z2 f2 → SFcompare f1 f2 = Some (z1 ?= z2).
Proof.
  pose proof E_pos. pose proof X_ge.
  intros [s1|s1 p1 e1 m1 ????|s1] [s2|s2 p2 e2 m2 ????|s2]; destruct s1, s2;
    simpl SFcompare; f_equal;
    try (symmetry; rewrite ?Z.compare_eq_iff, ?Z.compare_lt_iff, ?Z.compare_gt_iff; nia).
  - rewrite Z.compare_opp, <- (scaled_compare m2 e2 m1 e1 p2 p1) by lia.
    rewrite Z.compare_antisym, (Pos.compare_antisym p1 p2). by destruct (_ ?= _).
  - by rewrite <- (scaled_compare m1 e1 m2 e2 p1 p2) by lia.
Qed.

(** The unsigned rank the code assigns to a non-NaN pattern. *)
Definition ieee_rank (u : Z) : Z :=
  if decide (u mod K = 0) then K else if decide (u < K) then u + K else 2 * K - 1 - u.

Lemma ieee_rank_compare u v :
  0 ≤ u < 2 * K → 0 ≤ v < 2 * K →
  (ieee_rank u ?= ieee_rank v) = (signed_magnitude u ?= signed_magnitude v).
Proof.
  intros Hu Hv.
  assert (0 < K) by (unfold K; apply Z.pow_pos_nonneg; lia).
  assert (∀ x, 0 ≤ x < 2 * K → x mod K = if decide (x < K) then x else x - K) as Hmod.
  { intros x Hx. case_decide; [apply Z.mod_small; lia|].
    rewrite <- (Z.mod_add _ (-1)) by lia. rewrite Z.mod_small; lia. }
  unfold ieee_rank, signed_magnitude. rewrite !Hmod by done.
  repeat case_decide;
    match goal with |- (?a ?= ?b) = _ => destruct (Z.compare_spec a b) end;
    symmetry; rewrite ?Z.compare_eq_iff, ?Z.compare_lt_iff, ?Z.compare_gt_iff; lia.
Qed.
End IeeeOrder.

Lemma sortable_float_rank u :
  is_u32 u →
  sortable_key_from_float u =
    if decide (u mod 2 ^ 31 ≤ 0x7f800000) then Ok (ieee_rank 23 8 u)
    else Throw (invalid_argument "serialize_key: NaN floating-point keys are not supported").
Proof.
  intros Hu. unfold sortable_key_from_float, ieee_rank. change (23 + 8) with 31.
  change 0x7fffffff with (2 ^ 31 - 1). rewrite land_low by lia.
  rewrite Z.gtb_ltb. destruct (Z.ltb_spec 0x7f800000 (u mod 2 ^ 31)).
  { by rewrite decide_False by lia. }
  rewrite decide_True by lia. f_equal. change 0x80000000 with (2 ^ 31).
  destruct (Z.eqb_spec (u mod 2 ^ 31) 0); [by rewrite decide_True|].
  rewrite decide_False by done. unfold u_range in Hu. rewrite land_top, lxor_top by lia.
  destruct (Z.ltb_spec u (2 ^ 31)); simpl negb; cbv iota;
    repeat case_decide; try lia. rewrite bit_not_sub; unfold u_range; lia.
Qed.

Lemma sortable_double_rank u :
  is_u64 u →
  sortable_key_from_double u =
    if decide (u mod 2 ^ 63 ≤ 0x7ff0000000000000) then Ok (ieee_rank 52 11 u)
    else Throw (invalid_argument "serialize_key: NaN floating-point keys are not supported").
Proof.
  intros Hu. unfold sortable_key_from_double, ieee_rank. change (52 + 11) with 63.
  change 0x7fffffffffffffff with (2 ^ 63 - 1). rewrite land_low by lia.
  rewrite Z.gtb_ltb. destruct (Z.ltb_spec 0x7ff0000000000000 (u mod 2 ^ 63)).
  { by rewrite decide_False by lia. }
  rewrite decide_True by lia. f_equal. change 0x8000000000000000 with (2 ^ 63).
  destruct (Z.eqb_spec (u mod 2 ^ 63) 0); [by rewrite decide_True|].
  rewrite decide_False by done. unfold u_range in Hu. rewrite land_top, lxor_top by lia.
  destruct (Z.ltb_spec u (2 ^ 63)); simpl negb; cbv iota;
    repeat case_decide; try lia. rewrite bit_not_sub; unfold u_range; lia.
Qed.

(** The ranks of two floats compare as the floats do. *)
Lemma sortable_float_compare a b ka kb :
  is_u32 a → is_u32 b →
  sortable_key_from_float a = Ok ka → sortable_key_from_float b = Ok kb →
  SFcompare (float_value a) (float_value b) = Some (ka ?= kb).
Proof.
  intros Ha Hb. rewrite !sortable_float_rank by done. repeat case_decide; intros; simplify_eq.
  rewrite ieee_rank_compare by done.
  apply (denotes_compare 23 8); try done; by apply ieee_value_denotes.
Qed.

Lemma sortable_double_compare a b ka kb :
  is_u64 a → is_u64 b →
  sortable_key_from_double a = Ok ka → sortable_key_from_double b = Ok kb →
  SFcompare (double_value a) (double_value b) = Some (ka ?= kb).
Proof.
  intros Ha Hb. rewrite !sortable_double_rank by done. repeat case_decide; intros; simplify_eq.
  rewrite ieee_rank_compare by done.
  apply (denotes_compare 52 11); try done; by apply ieee_value_denotes.
Qed.

(** The rank determines the number: only the two zeros share one. *)
Definition float_canonical (u : Z) : Z := if decide (u mod 2 ^ 31 = 0) then 0 else u.
Definition double_canonical (u : Z) : Z := if decide (u mod 2 ^ 63 = 0) then 0 else u.

Lemma float_from_rank u k :
  is_u32 u → sortable_key_from_float u = Ok k → float_from_sortable_key k = float_canonical u.
Proof.
  intros Hu. rewrite sortable_float_rank by done. case_decide; intros; simplify_eq.
  unfold float_from_sortable_key, ieee_rank, float_canonical, u_range in *.
  change (23 + 8) with 31. change 0x80000000 with (2 ^ 31).
  destruct (decide (u mod 2 ^ 31 = 0)); [done|].
  rewrite land_top, lxor_top by (repeat case_decide; lia).
  case_decide as Hd.
  - rewrite (proj2 (Z.ltb_ge _ _)) by lia. simpl. rewrite decide_False; lia.
  - rewrite (proj2 (Z.ltb_lt _ _)) by lia. simpl. rewrite bit_not_sub; unfold u_range; lia.
Qed.

Lemma double_from_rank u k :
  is_u64 u → sortable_key_from_double u = Ok k → double_from_sortable_key k = double_canonical u.
Proof.
  intros Hu. rewrite sortable_double_rank by done. case_decide; intros; simplify_eq.
  unfold double_from_sortable_key, ieee_rank, double_canonical, u_range in *.
  change (52 + 11) with 63. change 0x8000000000000000 with (2 ^ 63).
  destruct (decide (u mod 2 ^ 63 = 0)); [done|].
  rewrite land_top, lxor_top by (repeat case_decide; lia).
  case_decide as Hd.
  - rewrite (proj2 (Z.ltb_ge _ _)) by lia. simpl. rewrite decide_False; lia.
  - rewrite (proj2 (Z.ltb_lt _ _)) by lia. simpl. rewrite bit_not_sub; unfold u_range; lia.
Qed.

Lemma sortable_float_range u k : is_u32 u → sortable_key_from_float u = Ok k → is_u32 k.
Proof.
  intros Hu. rewrite sortable_float_rank by done. case_decide; intros; simplify_eq.
  unfold ieee_rank, u_range in *. change (23 + 8) with 31. repeat case_decide; lia.
Qed.
Lemma sortable_double_range u k : is_u64 u → sortable_key_from_double u = Ok k → is_u64 k.
Proof.
  intros Hu. rewrite sortable_double_rank by done. case_decide; intros; simplify_eq.
  unfold ieee_rank, u_range in *. change (52 + 11) with 63. repeat case_decide; lia.
Qed.

(** ** Signed integer ranks *)

Lemma pow2_split w : 1 ≤ w → 2 ^ w = 2 * 2 ^ (w - 1).
Proof. intros. replace w with (1 + (w - 1)) at 1 by lia. by rewrite Z.pow_add_r by lia. Qed.

Lemma signed_rank w key :
  1 ≤ w → s_range w key → Z.lxor (raw_bits w key) (2 ^ (w - 1)) = key + 2 ^ (w - 1).
Proof.
  intros Hw [? ?]. pose proof (pow2_split w Hw) as Hp.
  unfold raw_bits. pose proof (Z.mod_pos_bound key (2 ^ w)) as Hm.
  rewrite lxor_top by (replace (w - 1 + 1) with w by lia; lia).
  destruct (decide (0 ≤ key)).
  - rewrite Z.mod_small by lia. rewrite decide_True; lia.
  - rewrite <- (Z.mod_add _ 1), Z.mod_small by lia. rewrite decide_False; lia.
Qed.

Lemma signed_unrank w x :
  1 ≤ w → u_range w x → sign_of w (Z.lxor x (2 ^ (w - 1))) = x - 2 ^ (w - 1).
Proof.
  intros Hw [? ?]. pose proof (pow2_split w Hw) as Hp.
  rewrite lxor_top by (replace (w - 1 + 1) with w by lia; lia).
  unfold sign_of. repeat case_decide; lia.
Qed.

Lemma sign_of_raw w key : 1 ≤ w → s_range w key → sign_of w (raw_bits w key) = key.
Proof.
  intros Hw [? ?]. pose proof (pow2_split w Hw) as Hp. unfold sign_of, raw_bits.
  destruct (decide (0 ≤ key)).
  - rewrite Z.mod_small by lia. rewrite decide_True; lia.
  - rewrite <- (Z.mod_add _ 1), Z.mod_small by lia. rewrite decide_False; lia.
Qed.

Lemma sortable_int32 key :
  s_range 32 key → sortable_key_from_signed_int32 key = key + 2 ^ 31.
Proof. intros. by apply (signed_rank 32). Qed.
Lemma sortable_int64 key :
  s_range 64 key → sortable_key_from_signed_int64 key = key + 2 ^ 63.
Proof. intros. by apply (signed_rank 64). Qed.
Lemma unsortable_int32 x : is_u32 x → signed_int32_from_sortable_key x = x - 2 ^ 31.
Proof. intros. by apply (signed_unrank 32). Qed.
Lemma unsortable_int64 x : is_u64 x → signed_int64_from_sortable_key x = x - 2 ^ 63.
Proof. intros. by apply (signed_unrank 64). Qed.

(** ** Integral keys *)

(** Case analysis over the finitely many integral types. *)
Ltac int_type_cases T :=
  destruct T as [size sg lg cu]; unfold int_type_ok, in_type, ty_bits in *; simpl in *;
  destruct_and?; repeat match goal with
  | H : size ∈ _ :: _ |- _ => apply list_elem_of_In in H; simpl in H; destruct_or?; [..|done]
  end.

Lemma u_range_mono w w' x : 0 ≤ w ≤ w' → u_range w x → u_range w' x.
Proof.
  intros ? [? ?]. split; [done|]. pose proof (Z.pow_le_mono_r 2 w w'). lia.
Qed.
Lemma s_range_mono w w' x : 1 ≤ w ≤ w' → s_range w x → s_range w' x.
Proof.
  intros ? [? ?]. unfold s_range. pose proof (Z.pow_le_mono_r 2 (w - 1) (w' - 1)). lia.
Qed.

(** The unsigned integer stored for a key of at most 64 bits. *)
Definition int_rank (T : int_type) (key : Z) : Z :=
  if ty_code_unit T then code_unit_key_bits T key
  else if ty_signed T then key + 2 ^ (mdbx_integer_key_storage_size T * 8 - 1)
  else key.

Lemma storage_size_cases T :
  int_type_ok T → ty_size T ≤ 8 →
  1 ≤ ty_size T ≤ mdbx_integer_key_storage_size T ∧
  (mdbx_integer_key_storage_size T = 4 ∨
   mdbx_integer_key_storage_size T = 8 ∧ ty_code_unit T = false).
Proof.
  intros (Hs & Hl & Hc) Hle. unfold mdbx_integer_key_storage_size,
    uses_64bit_mdbx_integer_key_storage.
  rewrite Z.gtb_ltb, (proj2 (Z.ltb_ge _ _)) by done.
  rewrite (proj2 (Z.leb_le _ _)) by done. simpl andb. rewrite Z.gtb_ltb.
  destruct (Z.ltb_spec 4 (ty_size T)) as [H4|H4]; simpl orb.
  - split; [set_solver by lia|]. right. split; [done|]. apply not_true_iff_false.
    intros E. specialize (Hc E). lia.
  - assert (1 ≤ ty_size T) by set_solver by lia. destruct (ty_long T).
    + split; [lia|]. right. split; [done|]. apply not_true_iff_false. naive_solver.
    + split; [lia|]. by left.
Qed.

Lemma code_unit_bits_range T key : int_type_ok T → u_range (ty_bits T) (code_unit_key_bits T key).
Proof.
  intros (Hs & _). unfold code_unit_key_bits, raw_bits, u_range, ty_bits.
  apply Z.mod_pos_bound, Z.pow_pos_nonneg; [lia|]. set_solver by lia.
Qed.

Lemma ty_bits_pos T : int_type_ok T → 8 ≤ ty_bits T.
Proof. intros (Hs & _). unfold ty_bits. set_solver by lia. Qed.

Lemma int_rank_range T key :
  int_type_ok T → in_type T key → ty_size T ≤ 8 →
  u_range (mdbx_integer_key_storage_size T * 8) (int_rank T key).
Proof.
  intros HT Hk Hle. pose proof (storage_size_cases T HT Hle) as [Hsz _].
  pose proof (ty_bits_pos T HT). unfold int_rank, in_type, ty_bits in *.
  destruct (ty_code_unit T).
  - eapply u_range_mono; [|by apply code_unit_bits_range]. unfold ty_bits. lia.
  - destruct (ty_signed T).
    + apply (s_range_mono _ (mdbx_integer_key_storage_size T * 8)) in Hk as [? ?]; [|lia].
      unfold u_range. rewrite (pow2_split (mdbx_integer_key_storage_size T * 8)) by lia. lia.
    + eapply u_range_mono; [|done]. lia.
Qed.

Lemma serialize_integral_rank T key :
  int_type_ok T → in_type T key → ty_size T ≤ 8 →
  serialize_integral_key T key =
    le_bytes (Z.to_nat (mdbx_integer_key_storage_size T)) (int_rank T key).
Proof.
  intros HT Hk Hle. pose proof (storage_size_cases T HT Hle) as [Hsz Hst].
  pose proof (ty_bits_pos T HT) as Hb.
  unfold serialize_integral_key, int_rank, is_signed_mdbx_integer_key, is_key_signed_integral,
    native_u32, native_u64, in_type in *.
  rewrite Z.gtb_ltb, (proj2 (Z.ltb_ge _ _)), (proj2 (Z.leb_le _ _)) by done.
  destruct (ty_code_unit T) eqn:Ecu; [destruct Hst as [-> | [_ ?]]; [|done];
    by rewrite write_u32_le_digits|]. rewrite !andb_true_r.
  assert (∀ w, ty_bits T ≤ w → u_range (ty_bits T) key → raw_bits w key = key) as Hraw.
  { intros w Hw Hu. apply Z.mod_small. apply (u_range_mono _ w) in Hu; [done|lia]. }
  unfold ty_bits in *. destruct Hst as [E|[E _]]; rewrite E in *;
    [change (4 =? 4) with true|change (8 =? 4) with false]; cbv iota;
    destruct (ty_signed T); rewrite ?write_u32_le_digits, ?write_u64_le_digits; f_equal.
  - apply sortable_int32. eapply s_range_mono; [|done]. lia.
  - apply Hraw; [lia|done].
  - apply sortable_int64. eapply s_range_mono; [|done]. lia.
  - apply Hraw; [lia|done].
Qed.

Lemma narrow_id T v : u_range (ty_bits T) v → narrow T v = v.
Proof. intros. by apply Z.mod_small. Qed.

Lemma from_bits_raw T key :
  int_type_ok T → in_type T key → from_bits T (raw_bits (ty_bits T) key) = key.
Proof.
  intros HT. pose proof (ty_bits_pos T HT). unfold in_type, from_bits.
  destruct (ty_signed T); intros Hk; [apply sign_of_raw; [lia|done]|].
  by apply Z.mod_small.
Qed.

Lemma deserialize_integral_rank T key :
  int_type_ok T → in_type T key → ty_size T ≤ 8 →
  deserialize_integral_key T
    (le_bytes (Z.to_nat (mdbx_integer_key_storage_size T)) (int_rank T key)) = Ok key.
Proof.
  intros HT Hk Hle. pose proof (storage_size_cases T HT Hle) as [Hsz Hst].
  pose proof (ty_bits_pos T HT) as Hb. pose proof (int_rank_range T key HT Hk Hle) as Hr.
  unfold deserialize_integral_key, is_signed_mdbx_integer_key, is_key_signed_integral.
  rewrite Z.gtb_ltb, (proj2 (Z.ltb_ge _ _)), (proj2 (Z.leb_le _ _)), le_bytes_length by done.
  destruct Hst as [E|[E Ecu]]; rewrite E in *;
    [change (4 =? 4) with true|change (8 =? 4) with false]; cbv iota; simpl negb; cbv iota.
  - change (Z.to_nat 4) with 4%nat. rewrite <- write_u32_le_digits.
    rewrite <- (app_nil_r (write_u32_le _)), read_write_u32_le by done.
    destruct (ty_code_unit T) eqn:Ecu.
    + unfold code_unit_key_from_bits, int_rank. rewrite Ecu.
      pose proof (code_unit_bits_range T key HT) as [? ?].
      rewrite Z.gtb_ltb, (proj2 (Z.ltb_ge _ _)) by lia. f_equal. by apply from_bits_raw.
    + simpl. unfold int_rank in *. rewrite Ecu, E in *. unfold in_type in Hk.
      destruct (ty_signed T); simpl; f_equal.
      * rewrite unsortable_int32 by done. unfold narrow_signed.
        replace (key + 2 ^ (4 * 8 - 1) - 2 ^ 31) with key by lia.
        apply sign_of_raw; [lia|done].
      * by apply narrow_id.
  - change (Z.to_nat 8) with 8%nat. rewrite <- write_u64_le_digits.
    rewrite <- (app_nil_r (write_u64_le _)), read_write_u64_le by done.
    rewrite Ecu. simpl. unfold int_rank in *. rewrite Ecu, E in *. unfold in_type in Hk.
    destruct (ty_signed T); simpl; f_equal.
    + rewrite unsortable_int64 by done. unfold narrow_signed.
      replace (key + 2 ^ (8 * 8 - 1) - 2 ^ 63) with key by lia.
      apply sign_of_raw; [lia|done].
    + by apply narrow_id.
Qed.

(** Wide keys are big-endian digits of the biased value. *)
Definition wide_rank (T : int_type) (key : Z) : Z :=
  if ty_signed T then key + 2 ^ (ty_bits T - 1) else key.

Lemma wide_rank_range T key :
  int_type_ok T → in_type T key → u_range (ty_bits T) (wide_rank T key).
Proof.
  intros HT Hk. pose proof (ty_bits_pos T HT). unfold wide_rank, in_type, u_range in *.
  destruct (ty_signed T); [|done]. destruct Hk. rewrite (pow2_split (ty_bits T)) by lia. lia.
Qed.

Lemma serialize_wide_rank T key :
  int_type_ok T → in_type T key →
  serialize_wide_integral_key T key = be_bytes (Z.to_nat (ty_size T)) (wide_rank T key).
Proof.
  intros HT Hk. pose proof (ty_bits_pos T HT). unfold ty_bits in *.
  unfold serialize_wide_integral_key, be_bytes. rewrite <- le_digits, Z2Nat.id by lia.
  unfold wide_rank, is_key_signed_integral, in_type, ty_bits in *. rewrite Z.shiftl_1_l.
  destruct (ty_signed T); [by rewrite signed_rank by (done || lia)|].
  unfold raw_bits. by rewrite Z.mod_small.
Qed.

Lemma wide_fold w (bs : bytes) acc :
  8 * Z.of_nat (length bs) ≤ w → 0 ≤ acc < 2 ^ (w - 8 * Z.of_nat (length bs)) →
  foldl (fun raw b => Z.lor (Z.shiftl raw 8 mod 2 ^ w) (u8 b)) acc bs =
    acc * 256 ^ Z.of_nat (length bs) + be_val bs.
Proof.
  revert acc. induction bs as [|b bs IH]; intros acc Hw Ha.
  - simpl. unfold be_val. simpl. lia.
  - cbn [foldl length] in *. pose proof (u8_range b) as Hb.
    assert (0 ≤ acc * 256 + u8 b < 2 ^ (w - 8 * Z.of_nat (length bs))) as Ha'.
    { replace (w - 8 * Z.of_nat (length bs)) with (w - 8 * Z.of_nat (S (length bs)) + 8) by lia.
      rewrite Z.pow_add_r by lia. change (2 ^ 8) with 256. lia. }
    assert (Z.lor (Z.shiftl acc 8 mod 2 ^ w) (u8 b) = acc * 256 + u8 b) as Hstep.
    { rewrite Z.shiftl_mul_pow2 by lia. change (2 ^ 8) with 256.
      pose proof (Z.pow_le_mono_r 2 (w - 8 * Z.of_nat (length bs)) w ltac:(lia) ltac:(lia)).
      rewrite Z.mod_small by lia. rewrite Z.lor_comm. change 256 with (2 ^ 8).
      rewrite <- Z.shiftl_mul_pow2, lor_disjoint_add by lia.
      rewrite Z.shiftl_mul_pow2 by lia. lia. }
    rewrite Hstep, IH by lia.
    rewrite be_val_cons.
    rewrite Nat2Z.inj_succ, Z.pow_succ_r by lia. lia.
Qed.

Lemma wide_fold_exact w (bs : bytes) :
  w = Z.of_nat (length bs) * 8 →
  foldl (fun raw b => Z.lor (Z.shiftl raw 8 mod 2 ^ w) (u8 b)) 0 bs = be_val bs.
Proof.
  intros ->. rewrite wide_fold; [lia|lia|].
  by replace (Z.of_nat (length bs) * 8 - 8 * Z.of_nat (length bs)) with 0 by lia.
Qed.

Lemma deserialize_wide_rank T key :
  int_type_ok T → in_type T key →
  deserialize_wide_integral_key T (be_bytes (Z.to_nat (ty_size T)) (wide_rank T key)) = Ok key.
Proof.
  intros HT Hk. pose proof (ty_bits_pos T HT) as Hb.
  pose proof (wide_rank_range T key HT Hk) as Hr. unfold deserialize_wide_integral_key.
  rewrite be_bytes_length, Z2Nat.id, Z.eqb_refl by (unfold ty_bits in *; lia). simpl negb. cbv iota.
  rewrite wide_fold_exact by (rewrite be_bytes_length; unfold ty_bits in *; lia).
  rewrite be_val_be_bytes, Z2Nat.id by (unfold ty_bits in *; lia).
  change 256 with (2 ^ 8). rewrite <- Z.pow_mul_r by (unfold ty_bits in *; lia).
  replace (8 * ty_size T) with (ty_bits T) by (unfold ty_bits; lia).
  rewrite Z.mod_small by done. rewrite Z.shiftl_1_l. f_equal.
  unfold is_key_signed_integral, from_bits, wide_rank, in_type in *.
  destruct (ty_signed T); [|done]. rewrite signed_unrank by (done || lia). lia.
Qed.

(** ** Bitset keys *)

Lemma pack_bits_test (b : nat → bool) i :
  (i < 8)%nat →
  negb (Z.land (u8 (byte_of (pack_bits b))) (Z.shiftl 1 (Z.of_nat i)) =? 0) = b i.
Proof.
  intros Hi. unfold pack_bits. cbn [seq foldl].
  do 8 (destruct i as [|i]; [by destruct (b 0%nat), (b 1%nat), (b 2%nat), (b 3%nat), (b 4%nat),
    (b 5%nat), (b 6%nat), (b 7%nat)|]).
  lia.
Qed.

Lemma bitset_bytes_length n data : length (bitset_bytes n data) = ((n + 7) / 8)%nat.
Proof. unfold bitset_bytes. by rewrite length_fmap, length_seq. Qed.

Lemma bitset_roundtrip n data :
  length data = n → bitset_of_object n (bitset_bytes n data) = data.
Proof.
  intros Hn. unfold bitset_of_object, bitset_bytes.
  apply (list_eq_same_length _ _ n); [done|by rewrite length_fmap, length_seq|].
  intros i x y Hi. rewrite list_lookup_fmap, lookup_seq_lt by lia.
  intros Hx%(inj Some) Hy. change (0 + i)%nat with i in Hx. subst x.
  assert (i / 8 < (n + 7) / 8)%nat as Hdiv.
  { pose proof (Nat.div_mod_eq i 8). pose proof (Nat.div_mod_eq (n + 7) 8).
    pose proof (Nat.mod_upper_bound i 8). pose proof (Nat.mod_upper_bound (n + 7) 8). lia. }
  rewrite (nth_lookup_Some _ _ _ (bitset_byte data (i / 8))).
  2:{ by rewrite list_lookup_fmap, lookup_seq_lt. }
  unfold bitset_byte.
  pose proof (pack_bits_test (fun j => nth (8 * (i / 8) + j) data false) (i mod 8)
    (Nat.mod_upper_bound i 8 ltac:(lia))) as Ht. etransitivity; [exact Ht|]. cbv beta.
  rewrite <- (Nat.div_mod_eq i 8). by apply nth_lookup_Some.
Qed.

(** ** Keys of every type *)

(** The value a key decodes to: itself, but for negative zero. *)
Definition key_canonical (k : key_type) : key_val k → key_val k :=
  match k with
  | KFloat => float_canonical
  | KDouble => double_canonical
  | _ => fun v => v
  end.

Lemma serialize_integral_roundtrip T key :
  int_type_ok T → in_type T key →
  deserialize_integral_key T (serialize_integral_key T key) = Ok key.
Proof.
  intros HT Hk. destruct (decide (ty_size T ≤ 8)) as [Hle|Hgt].
  - by rewrite serialize_integral_rank, deserialize_integral_rank.
  - unfold serialize_integral_key, deserialize_integral_key.
    rewrite Z.gtb_ltb, (proj2 (Z.ltb_lt _ _)) by lia.
    rewrite serialize_wide_rank by done. by apply deserialize_wide_rank.
Qed.

(** The key types whose stored bytes their own [deserialize_key] accepts. *)
Class KeyReadable (k : key_type) : Prop :=
  key_readable : match k with KBitset n size => size = ((n + 7) / 8)%nat | _ => True end.

#[export] Instance key_readable_dec k : Decision (KeyReadable k).
Proof. unfold KeyReadable. destruct k; apply _. Defined.

#[export] Instance string_readable : KeyReadable KString := I.
#[export] Instance byte_vector_readable sg : KeyReadable (KByteVector sg) := I.
#[export] Instance integral_readable T : KeyReadable (KIntegral T) := I.
#[export] Instance float_readable : KeyReadable KFloat := I.
#[export] Instance double_readable : KeyReadable KDouble := I.
#[export] Instance trivial_readable size : KeyReadable (KTrivial size) := I.

Lemma decode_stored_key (k : key_type) `{!KeyReadable k} (v : key_val k) (bs : bytes) :
  key_ok k v → serialize_key k v = Ok bs → deserialize_key k bs = Ok (key_canonical k v).
Proof.
  destruct k as [|sg|T| | |n size|size]; simpl; intros Hok Hs; ok_inv; try done.
  - destruct Hok. by apply serialize_integral_roundtrip.
  - unfold native_u32. rewrite <- (app_nil_r (write_u32_le _)),
      read_write_u32_le by eauto using sortable_float_range. f_equal. by eapply float_from_rank.
  - unfold native_u64. rewrite <- (app_nil_r (write_u64_le _)),
      read_write_u64_le by eauto using sortable_double_range. f_equal. by eapply double_from_rank.
  - unfold KeyReadable in *. subst size. unfold deserialize_object. rewrite bitset_bytes_length, Nat.eqb_refl.
    cbn [negb mbind result_bind]. f_equal. apply bitset_roundtrip, Hok.
  - unfold deserialize_object. by rewrite Nat.eqb_refl.
Qed.

Lemma decode_unreadable_key (k : key_type) (v : key_val k) (bs : bytes) :
  ~ KeyReadable k → key_ok k v → serialize_key k v = Ok bs →
  deserialize_key k bs = Throw (runtime_error "deserialize_value: size mismatch").
Proof.
  destruct k as [|sg|T| | |n size|size]; try (intros H; exfalso; by apply H). intros Hne _ [= <-]. cbn [deserialize_key].
  unfold deserialize_object. rewrite bitset_bytes_length. unfold KeyReadable in Hne.
  by rewrite (proj2 (Nat.eqb_neq _ _)) by done.
Qed.

(** C38: decoding the stored bytes of a key gives back the key, for strings, byte vectors,
    integers of every width and signedness, character code units, floats, doubles, other
    trivially copyable objects, and bitsets whose object is as large as their stored bytes.
    The only identification is that both floating-point zeros are stored as positive zero.
    Every key of any other bitset type is stored in bytes that its own decoder refuses. *)
Theorem key_roundtrip (k : key_type) (v : key_val k) (bs : bytes) :
  key_ok k v → serialize_key k v = Ok bs →
  deserialize_key k bs =
    if decide (KeyReadable k) then Ok (key_canonical k v) else Throw (runtime_error "deserialize_value: size mismatch").
Proof. case_decide; [by apply decode_stored_key|by apply decode_unreadable_key]. Qed.

(** A [std::bitset<16>] is an object of eight bytes and stored in two. *)
Lemma key_roundtrip_witness :
  deserialize_key (KIntegral {| ty_size := 2; ty_signed := true; ty_long := false;
    ty_code_unit := false |}) [Byte.xfb; Byte.xff; Byte.xff; Byte.x7f] = Ok (-5) ∧
  deserialize_key (KBitset 16 8) [Byte.x00; Byte.x00] = Throw (runtime_error "deserialize_value: size mismatch").
Proof.
  split.
  - apply (key_roundtrip (KIntegral {| ty_size := 2; ty_signed := true; ty_long := false;
      ty_code_unit := false |}) (-5)); [|reflexivity].
    split; [|vm_compute; split; congruence].
    split; [simpl; apply list_elem_of_In; simpl; tauto|]. split; discriminate.
  - apply (key_roundtrip (KBitset 16 8) (replicate 16 false)); [|reflexivity].
    split; [reflexivity|]. apply (bool_decide_unpack _). vm_compute. exact I.
Defined.

(** ** Size and order of stored keys *)

(** The documented key order of a DBI: with [MDBX_INTEGERKEY] keys are native
    unsigned integers of 4 or 8 bytes, otherwise byte strings. *)
Definition mdbx_key_compare (flags : Z) (a b : bytes) : comparison :=
  if bool_decide (Z.land flags MDBX_INTEGERKEY ≠ 0) then (le_val a ?= le_val b)
  else bytes_compare a b.

(** [std::lexicographical_compare], three-way, over elements with an order. *)
Fixpoint lex_compare (f : byte → Z) (a b : bytes) : comparison :=
  match a, b with
  | [], [] => Eq
  | [], _ => Lt
  | _, [] => Gt
  | x :: a, y :: b => match f x ?= f y with Eq => lex_compare f a b | c => c end
  end.

(** The order of the operator [<] of the key type, where the type has one: [std::string]
    compares unsigned characters, a vector compares its elements. *)
Definition cpp_compare (k : key_type) : key_val k → key_val k → option comparison :=
  match k with
  | KString => fun a b => Some (lex_compare u8 a b)
  | KByteVector sg => fun a b => Some (lex_compare (fun x => if sg : bool then sign_of 8 (u8 x) else u8 x) a b)
  | KIntegral _ => fun a b => Some (a ?= b)
  | KFloat => fun a b => SFcompare (float_value a) (float_value b)
  | KDouble => fun a b => SFcompare (double_value a) (double_value b)
  | KBitset _ _ | KTrivial _ => fun _ _ => None
  end.

(** The key types whose operator [<] does not compare code units as unsigned ones: a signed
    [char] or [wchar_t], and vectors of a signed [char]. *)
Definition signed_units (k : key_type) : bool :=
  match k with KIntegral T => ty_code_unit T && ty_signed T | KByteVector sg => sg | _ => false end.

(** The order of the stored keys: that of the operator [<], except that code units count as
    unsigned. *)
Definition key_value_compare (k : key_type) : key_val k → key_val k → option comparison :=
  match k with
  | KByteVector _ => fun a b => Some (lex_compare u8 a b)
  | KIntegral T => fun a b =>
      if ty_code_unit T && ty_signed T && negb (eqb (a <? 0) (b <? 0)) then Some (b ?= a) else Some (a ?= b)
  | KString => cpp_compare KString
  | KFloat => cpp_compare KFloat
  | KDouble => cpp_compare KDouble
  | KBitset n size => cpp_compare (KBitset n size)
  | KTrivial size => cpp_compare (KTrivial size)
  end.

Lemma bytes_compare_lex a b : bytes_compare a b = lex_compare u8 a b.
Proof.
  revert b. induction a as [|x a IH]; intros [|y b]; try done. cbn [bytes_compare lex_compare]. rewrite IH.
  by destruct (u8 x ?= u8 y).
Qed.

Lemma cpp_compare_unsigned (k : key_type) (a b : key_val k) :
  signed_units k = false → key_value_compare k a b = cpp_compare k a b.
Proof. destruct k as [|sg|T| | |n size|size]; cbn [signed_units key_value_compare cpp_compare]; try done; by intros ->. Qed.

Lemma code_unit_compare T a b :
  int_type_ok T → in_type T a → in_type T b →
  (code_unit_key_bits T a ?= code_unit_key_bits T b) =
    if ty_signed T && negb (eqb (a <? 0) (b <? 0)) then b ?= a else a ?= b.
Proof.
  intros HT. pose proof (ty_bits_pos T HT). unfold code_unit_key_bits, raw_bits, in_type.
  assert (∀ v, s_range (ty_bits T) v → v mod 2 ^ ty_bits T = if v <? 0 then v + 2 ^ ty_bits T else v) as Hm.
  { intros v [Hl Hh]. destruct (Z.ltb_spec v 0).
    - rewrite <- (Z.mod_add v 1), Z.mul_1_l by (pose proof (Z.pow_pos_nonneg 2 (ty_bits T)); lia).
      replace (2 ^ ty_bits T) with (2 * 2 ^ (ty_bits T - 1)) in * by (rewrite <- Z.pow_succ_r by lia; f_equal; lia).
      apply Z.mod_small. lia.
    - apply Z.mod_small. split; [done|]. eapply Z.lt_le_trans; [exact Hh|]. apply Z.pow_le_mono_r; lia. }
  destruct (ty_signed T); cbn [andb].
  - intros Ha Hb. rewrite !Hm by done. destruct Ha as [Ha1 Ha2], Hb as [Hb1 Hb2].
    replace (2 ^ ty_bits T) with (2 * 2 ^ (ty_bits T - 1)) by (rewrite <- Z.pow_succ_r by lia; f_equal; lia).
    destruct (Z.ltb_spec a 0), (Z.ltb_spec b 0); cbn [eqb negb]; try done.
    + by rewrite !(Z.add_comm _ (2 * _)), Z.add_compare_mono_l.
    + rewrite (proj2 (Z.compare_gt_iff _ _)), (proj2 (Z.compare_gt_iff _ _)) by lia. done.
    + rewrite (proj2 (Z.compare_lt_iff _ _)), (proj2 (Z.compare_lt_iff _ _)) by lia. done.
  - intros Ha Hb. by rewrite !Z.mod_small by done.
Qed.

Lemma le_val_native_u32 v : is_u32 v → le_val (native_u32 v) = v.
Proof.
  intros. unfold native_u32. rewrite write_u32_le_digits, le_val_le_bytes.
  by apply Z.mod_small.
Qed.
Lemma le_val_native_u64 v : is_u64 v → le_val (native_u64 v) = v.
Proof.
  intros. unfold native_u64. rewrite write_u64_le_digits, le_val_le_bytes.
  by apply Z.mod_small.
Qed.

Lemma pow_256 n : 0 ≤ n → 256 ^ n = 2 ^ (n * 8).
Proof. intros. change 256 with (2 ^ 8). rewrite <- Z.pow_mul_r by lia. f_equal. lia. Qed.

Lemma integral_key_order T a b :
  int_type_ok T → in_type T a → in_type T b →
  key_value_compare (KIntegral T) a b =
    Some (mdbx_key_compare (get_mdbx_flags (KIntegral T))
            (serialize_integral_key T a) (serialize_integral_key T b)).
Proof.
  intros HT Ha Hb. unfold mdbx_key_compare. simpl.
  destruct (Z.leb_spec (ty_size T) 8) as [Hle|Hgt].
  - rewrite bool_decide_true by done. rewrite !serialize_integral_rank by done.
    pose proof (storage_size_cases T HT Hle) as [? _].
    rewrite !le_val_le_bytes, !Z2Nat.id, pow_256 by lia.
    pose proof (int_rank_range T a HT Ha Hle). pose proof (int_rank_range T b HT Hb Hle).
    rewrite !Z.mod_small by done. unfold int_rank. destruct (ty_code_unit T).
    { rewrite code_unit_compare by done. cbn [andb]. by destruct (ty_signed T && _). }
    cbn [andb]. destruct (ty_signed T); [|done]. by rewrite !(Z.add_comm _ (2 ^ _)), Z.add_compare_mono_l.
  - rewrite bool_decide_false by (intros []; done). unfold serialize_integral_key.
    rewrite Z.gtb_ltb, (proj2 (Z.ltb_lt 8 (ty_size T))), !serialize_wide_rank by (done || lia).
    assert (ty_code_unit T = false) as ->.
    { apply not_true_iff_false. intros E. destruct HT as (_ & _ & Hc). specialize (Hc E). lia. }
    pose proof (wide_rank_range T a HT Ha) as Hra. pose proof (wide_rank_range T b HT Hb) as Hrb.
    unfold ty_bits in Hra, Hrb.
    rewrite be_bytes_compare by (rewrite Z2Nat.id, pow_256 by lia; done).
    f_equal. unfold wide_rank. destruct (ty_signed T); [|done].
    by rewrite !(Z.add_comm _ (2 ^ _)), Z.add_compare_mono_l.
Qed.

Lemma stored_key_order (k : key_type) (a b : key_val k) (x y : bytes) (c : comparison) :
  key_ok k a → key_ok k b → serialize_key k a = Ok x → serialize_key k b = Ok y →
  key_value_compare k a b = Some c → mdbx_key_compare (get_mdbx_flags k) x y = c.
Proof.
  destruct k as [|sg|T| | |n size|size]; simpl; intros Ha Hb Hx Hy Hc; ok_inv.
  - unfold mdbx_key_compare. by rewrite bytes_compare_lex.
  - unfold mdbx_key_compare. by rewrite bytes_compare_lex.
  - destruct Ha as [HT Ha], Hb as [_ Hb].
    pose proof (integral_key_order T a b HT Ha Hb) as Ho. simpl in Ho. congruence.
  - unfold mdbx_key_compare. rewrite bool_decide_true by done.
    rewrite !le_val_native_u32 by eauto using sortable_float_range.
    rewrite (sortable_float_compare a b _ _ Ha Hb ltac:(eassumption) ltac:(eassumption)) in Hc. congruence.
  - unfold mdbx_key_compare. rewrite bool_decide_true by done.
    rewrite !le_val_native_u64 by eauto using sortable_double_range.
    rewrite (sortable_double_compare a b _ _ Ha Hb ltac:(eassumption) ltac:(eassumption)) in Hc. congruence.
Qed.

(** C37: MDBX keeps keys in the order of the operator [<] of their C++ type: for strings,
    for vectors of unsigned bytes, for signed and unsigned integers of every width and for
    floats and doubles the comparison of the stored keys under the DBI's own comparator is
    the comparison of the values.  The exceptions are a signed [char] or [wchar_t], where two
    keys of different signs are stored the other way round, and vectors of a signed [char],
    which are stored in the order of their unsigned bytes. *)
Theorem key_order (k : key_type) (a b : key_val k) (x y : bytes) (c : comparison) :
  key_ok k a → key_ok k b → serialize_key k a = Ok x → serialize_key k b = Ok y → cpp_compare k a b = Some c →
  key_value_compare k a b = Some (mdbx_key_compare (get_mdbx_flags k) x y) ∧
  (signed_units k = false → mdbx_key_compare (get_mdbx_flags k) x y = c).
Proof.
  intros Ha Hb Hx Hy Hc. assert (is_Some (key_value_compare k a b)) as [c' Hc'].
  { destruct k as [|sg|T| | |n size|size]; cbn [key_value_compare] in *; try (by eexists). destruct (_ && _); by eexists. }
  pose proof (stored_key_order k a b x y c' Ha Hb Hx Hy Hc') as <-. split; [done|]. intros Hu.
  rewrite (cpp_compare_unsigned k a b Hu), Hc in Hc'. by injection Hc'.
Qed.

(** [-1.5f] before [-1.25f], and the character [-128] behind ['a']. *)
Lemma key_order_witness :
  mdbx_key_compare (get_mdbx_flags KFloat)
    [Byte.xff; Byte.xff; Byte.x3f; Byte.x40] [Byte.xff; Byte.xff; Byte.x5f; Byte.x40] = Lt ∧
  Some Gt = Some (mdbx_key_compare MDBX_INTEGERKEY [Byte.x80; Byte.x00; Byte.x00; Byte.x00] [Byte.x61; Byte.x00; Byte.x00; Byte.x00]).
Proof.
  split.
  - apply (key_order KFloat 0xbfc00000 0xbfa00000 [Byte.xff; Byte.xff; Byte.x3f; Byte.x40] [Byte.xff; Byte.xff; Byte.x5f; Byte.x40] Lt);
      vm_compute; try reflexivity; split; congruence.
  - set (T := {| ty_size := 1; ty_signed := true; ty_long := false; ty_code_unit := true |}).
    assert (int_type_ok T) as HT.
    { split; [simpl; apply list_elem_of_In; simpl; tauto|]. split; [discriminate|]. intros _. split; [vm_compute; discriminate|reflexivity]. }
    apply (key_order (KIntegral T) (-128) 97 [Byte.x80; Byte.x00; Byte.x00; Byte.x00] [Byte.x61; Byte.x00; Byte.x00; Byte.x00] Lt);
      [split; [exact HT|vm_compute; split; congruence]..|reflexivity|reflexivity|reflexivity].
Defined.

Lemma ieee_nan mw ew u :
  0 < mw → 0 < ew → 0 ≤ u → 2 ^ mw * (2 ^ ew - 1) < u mod 2 ^ (mw + ew) →
  ieee_value mw ew u = S754_nan.
Proof.
  intros Hmw Hew Hu Hn. unfold ieee_value.
  pose proof (Z.pow_pos_nonneg 2 mw). pose proof (Z.pow_pos_nonneg 2 ew).
  rewrite Z.pow_add_r, Z.rem_mul_r in Hn by lia.
  pose proof (Z.mod_pos_bound u (2 ^ mw)). pose proof (Z.mod_pos_bound (u / 2 ^ mw) (2 ^ ew)).
  rewrite (proj2 (Z.eqb_eq _ _)) by nia. by rewrite (proj2 (Z.eqb_neq _ _)) by nia.
Qed.

Lemma stored_key_total (k : key_type) (v : key_val k) :
  key_ok k v →
  match serialize_key k v with
  | Ok bs => Z.of_nat (length bs) = get_key_size k v
  | Throw e =>
      e = invalid_argument "serialize_key: NaN floating-point keys are not supported" ∧
      match k return key_val k → Prop with
      | KFloat => fun u => float_value u = S754_nan
      | KDouble => fun u => double_value u = S754_nan
      | _ => fun _ => False
      end v
  end.
Proof.
  destruct k as [|sg|T| | |n size|size]; simpl; intros Hok; try done.
  - destruct Hok as [HT Hk]. destruct (decide (ty_size T ≤ 8)) as [Hle|Hgt].
    + pose proof (storage_size_cases T HT Hle) as [? _].
      rewrite serialize_integral_rank, le_bytes_length, Z2Nat.id by (done || lia). done.
    + unfold serialize_integral_key, mdbx_integer_key_storage_size.
      rewrite Z.gtb_ltb, (proj2 (Z.ltb_lt _ _)) by lia.
      rewrite serialize_wide_rank, be_bytes_length, Z2Nat.id by (done || lia). done.
  - rewrite sortable_float_rank by done. case_decide as Hd; simpl; [done|].
    split; [done|]. destruct Hok. apply ieee_nan; [lia..|]. change (23 + 8) with 31. lia.
  - rewrite sortable_double_rank by done. case_decide as Hd; simpl; [done|].
    split; [done|]. destruct Hok. apply ieee_nan; [lia..|]. change (52 + 11) with 63. lia.
  - rewrite bitset_bytes_length, Nat2Z.inj_div. f_equal. lia.
  - by rewrite Hok.
Qed.

(** Serializing a key fails only for a NaN, and the stored key has exactly the
    size [get_key_size] announces. *)
Theorem key_serialize_total (k : key_type) (v : key_val k) :
  key_ok k v →
  match serialize_key k v with
  | Ok bs => Z.of_nat (length bs) = get_key_size k v
  | Throw e =>
      e = invalid_argument "serialize_key: NaN floating-point keys are not supported" ∧
      match k return key_val k → Prop with
      | KFloat => fun u => float_value u = S754_nan
      | KDouble => fun u => double_value u = S754_nan
      | _ => fun _ => False
      end v
  end.
Proof. apply stored_key_total. Qed.

Lemma key_serialize_total_witness :
  match serialize_key KDouble 0x7ff8000000000000 with
  | Ok bs => Z.of_nat (length bs) = get_key_size KDouble 0x7ff8000000000000
  | Throw e =>
      e = invalid_argument "serialize_key: NaN floating-point keys are not supported" ∧
      double_value 0x7ff8000000000000 = S754_nan
  end.
Proof.
  apply (key_serialize_total KDouble 0x7ff8000000000000). vm_compute. split; congruence.
Defined.

(** ** Keys of a table *)

#[export] Instance key_val_eq_dec k : EqDecision (key_val k).
Proof. destruct k; apply _. Defined.
#[export] Instance key_val_countable k : Countable (key_val k).
Proof. destruct k; apply _. Defined.

Lemma canonical_idemp k (v : key_val k) : key_canonical k (key_canonical k v) = key_canonical k v.
Proof.
  destruct k; simpl; try done; unfold float_canonical, double_canonical; by repeat case_decide.
Qed.

Lemma canonical_ok k (v : key_val k) : key_ok k v → key_ok k (key_canonical k v).
Proof.
  destruct k; simpl; try done; unfold float_canonical, double_canonical; case_decide; unfold u_range; done || lia.
Qed.

(** Keys that are equal in C++ are stored alike. *)
Lemma canonical_stored k (v : key_val k) :
  key_ok k v → serialize_key k (key_canonical k v) = serialize_key k v.
Proof.
  destruct k; simpl; try done; intros Hv.
  - unfold float_canonical. case_decide as E; [|done]. rewrite !sortable_float_rank by done.
    unfold ieee_rank. change (23 + 8) with 31. by rewrite E.
  - unfold double_canonical. case_decide as E; [|done]. rewrite !sortable_double_rank by done.
    unfold ieee_rank. change (52 + 11) with 63. by rewrite E.
Qed.

Lemma stored_key_inj k (a b : key_val k) (x : bytes) :
  key_ok k a → key_ok k b → serialize_key k a = Ok x → serialize_key k b = Ok x →
  key_canonical k a = key_canonical k b.
Proof.
  intros Ha Hb Ea Eb. destruct (decide (KeyReadable k)).
  { apply decode_stored_key in Ea, Eb; [|done..]. congruence. }
  destruct k as [|sg|T| | |n' size|size]; try done. cbn [key_canonical serialize_key] in *.
  rewrite <- (bitset_roundtrip n' a), <- (bitset_roundtrip n' b) by (by destruct Ha, Hb). congruence.
Qed.

(** Every key of a type with [MDBX_INTEGERKEY] has the same size. *)
Definition key_width (k : key_type) : nat :=
  match k with
  | KIntegral T => Z.to_nat (mdbx_integer_key_storage_size T)
  | KFloat => 4
  | KDouble => 8
  | _ => 0
  end.

Lemma stored_key_width k (v : key_val k) (x : bytes) :
  key_ok k v → serialize_key k v = Ok x →
  get_mdbx_flags k = 0 ∨
  get_mdbx_flags k = MDBX_INTEGERKEY ∧ length x = key_width k ∧ (key_width k = 4 ∨ key_width k = 8)%nat.
Proof.
  intros Hv Hx. pose proof (stored_key_total k v Hv) as H. rewrite Hx in H.
  destruct k as [|sg|T| | |n size|size]; simpl in *; try (by left); try (right; lia).
  destruct Hv as [HT _]. destruct (Z.leb_spec (ty_size T) 8) as [Hle|]; [right|by left].
  destruct (storage_size_cases T HT Hle) as [? Hc]. split_and!; [done|lia|].
  destruct Hc as [Hc|Hc]; lia.
Qed.

Lemma key_width_cases k :
  get_mdbx_flags k = 0 ∨ get_mdbx_flags k = MDBX_INTEGERKEY ∧ (key_width k = 4 ∨ key_width k = 8)%nat.
Proof.
  destruct k as [|sg|T| | |n size|size]; simpl; auto. destruct (Z.leb_spec (ty_size T) 8) as [Hle|]; [right|by left].
  split; [done|]. unfold mdbx_integer_key_storage_size. rewrite Z.gtb_ltb, (proj2 (Z.ltb_ge _ _)) by done.
  destruct (uses_64bit_mdbx_integer_key_storage T); [by right|by left].
Qed.
