(* ===== verification/ValueCodec.v ===== *)
(** * Value serialization

    Models the [serialize_value] / [deserialize_value] overloads of
    [src/include/mdbx_containers/detail/utils.hpp] for containers: sequences of
    trivially copyable elements (an element is its object representation, [size]
    bytes), sequences of strings and ordered sets of strings, which use a 32-bit
    native length before each string.  The theorems give both round trips, the
    uniqueness of the string encoding, and the rejection of damaged bytes. *)
From S2P Require Import Prelude SyncCommon KeyCodec.
Open Scope Z_scope.

(** ** Sequences of trivially copyable elements *)

(** [memcpy] of each element at its offset. *)
Definition serialize_elements (container : list bytes) : bytes := concat container.

(** [for (i < count) memcpy(&elem, data + i * size, size); push_back(elem)]. *)
Definition element_at (size : nat) (val : bytes) (i : nat) : bytes :=
  take size (drop (i * size) val).

Definition deserialize_elements (size : nat) (val : bytes) : result (list bytes) :=
  if negb (length val mod size =? 0)%nat then
    Throw (runtime_error "deserialize_value: size not aligned")
  else Ok (element_at size val <$> seq 0 (length val / size)).

(** A single trivially copyable object. *)
Definition deserialize_trivial (size : nat) (val : bytes) : result bytes :=
  if negb (length val =? size)%nat then Throw (runtime_error "deserialize_value: size mismatch")
  else Ok val.

(** ** Strings with a length prefix *)

Definition append_string (out str : bytes) : bytes :=
  let len := Z.of_nat (length str) mod 2 ^ 32 in
  (out ++ native_u32 len) ++ str.

Definition serialize_strings (container : list bytes) : bytes :=
  foldl append_string [] container.

Definition length_overflow : exn :=
  runtime_error "deserialize_value: corrupted data (length overflow)".
Definition trailing_data : exn :=
  runtime_error "deserialize_value: trailing data after deserialization".

(** The read loop.  [rest] is the memory from [ptr] to [end]; each round consumes the
    four length bytes at least, so [length rest] rounds of fuel reach the end. *)
Fixpoint read_strings (fuel : nat) (emit : list bytes → bytes → list bytes)
    (result_so_far : list bytes) (rest : bytes) : result (list bytes) :=
  if (4 <=? length rest)%nat then
    match fuel with
    | O => Throw trailing_data
    | S fuel' =>
        let len := read_u32_le rest in
        let rest := drop 4 rest in
        if len >? Z.of_nat (length rest) then Throw length_overflow
        else read_strings fuel' emit (emit result_so_far (take (Z.to_nat len) rest))
               (drop (Z.to_nat len) rest)
    end
  else if negb (length rest =? 0)%nat then Throw trailing_data
  else Ok result_so_far.

(** [result.emplace_back(...)]. *)
Definition emplace_back (l : list bytes) (s : bytes) : list bytes := l ++ [s].

(** [std::set<std::string>::insert]: a strictly increasing sequence. *)
Fixpoint set_insert (l : list bytes) (s : bytes) : list bytes :=
  match l with
  | [] => [s]
  | x :: l' =>
      match bytes_compare s x with
      | Lt => s :: l
      | Eq => l
      | Gt => x :: set_insert l' s
      end
  end.

Definition deserialize_string_sequence (val : bytes) : result (list bytes) :=
  if (length val =? 0)%nat then Ok []
  else read_strings (length val) emplace_back [] val.

Definition deserialize_string_set (val : bytes) : result (list bytes) :=
  if (length val =? 0)%nat then Ok []
  else read_strings (length val) set_insert [] val.

(** ** Elements *)

Lemma element_at_concat size l i e :
  Forall (fun x => length x = size) l → l !! i = Some e → element_at size (concat l) i = e.
Proof.
  intros Hl. revert i. induction Hl as [|x l Hx Hl IH]; intros [|i] Hi; simplify_eq/=.
  - unfold element_at. simpl. by rewrite drop_0, take_app_length.
  - unfold element_at in *. simpl Nat.mul.
    rewrite drop_app_add' by done. auto.
Qed.

Lemma concat_length_uniform size (l : list bytes) :
  Forall (fun x => length x = size) l → length (concat l) = (length l * size)%nat.
Proof. induction 1 as [|x l Hx Hl IH]; simpl; [done|]. rewrite length_app. lia. Qed.

(** A vector, deque or list of trivially copyable elements of [size] bytes is
    restored exactly by deserialization. *)
Theorem elements_roundtrip (size : nat) (l : list bytes) :
  (0 < size)%nat → Forall (fun x => length x = size) l →
  deserialize_elements size (serialize_elements l) = Ok l.
Proof.
  intros Hs Hl. unfold deserialize_elements, serialize_elements.
  rewrite concat_length_uniform with (size := size) by done.
  rewrite Nat.Div0.mod_mul, Nat.div_mul by lia. simpl. f_equal.
  apply (list_eq_same_length _ _ (length l)); [done|by rewrite length_fmap, length_seq|].
  intros i x y Hi. rewrite list_lookup_fmap, lookup_seq_lt by lia. simpl.
  intros [= <-] Hy. by eapply element_at_concat.
Qed.

Lemma elements_roundtrip_witness :
  deserialize_elements 2 [Byte.x01; Byte.x02; Byte.x03; Byte.x04] =
    Ok [[Byte.x01; Byte.x02]; [Byte.x03; Byte.x04]].
Proof.
  apply (elements_roundtrip 2 [[Byte.x01; Byte.x02]; [Byte.x03; Byte.x04]]); [lia|].
  repeat constructor.
Defined.

(** ** Strings *)

(** The bytes of one string, and the sizes for which its length prefix is exact. *)
Definition string_frame (s : bytes) : bytes := native_u32 (Z.of_nat (length s)) ++ s.
Definition string_fits (s : bytes) : Prop := Z.of_nat (length s) < 2 ^ 32.

#[export] Instance string_fits_dec s : Decision (string_fits s) := _.

Lemma serialize_strings_frames out l :
  Forall string_fits l → foldl append_string out l = out ++ concat (string_frame <$> l).
Proof.
  intros Hl. revert out. induction Hl as [|s l Hs Hl IH]; intros out; simpl.
  - by rewrite app_nil_r.
  - rewrite IH. unfold append_string at 1, string_frame at 1. rewrite Z.mod_small.
    + by rewrite <- !app_assoc.
    + unfold string_fits in Hs. lia.
Qed.

Lemma read_strings_S fuel emit acc rest :
  (4 ≤ length rest)%nat →
  read_strings (S fuel) emit acc rest =
    if read_u32_le rest >? Z.of_nat (length (drop 4 rest)) then Throw length_overflow
    else read_strings fuel emit (emit acc (take (Z.to_nat (read_u32_le rest)) (drop 4 rest)))
           (drop (Z.to_nat (read_u32_le rest)) (drop 4 rest)).
Proof. intros H%Nat.leb_le. cbn [read_strings]. by rewrite H. Qed.

Lemma read_strings_frame fuel emit acc s rest :
  string_fits s →
  read_strings (S fuel) emit acc (string_frame s ++ rest) =
    read_strings fuel emit (emit acc s) rest.
Proof.
  intros Hs. unfold string_frame, native_u32. rewrite <- app_assoc.
  assert (is_u32 (Z.of_nat (length s))) by (unfold string_fits, u_range in *; lia).
  rewrite read_strings_S by (rewrite length_app, write_u32_le_length; lia).
  rewrite read_write_u32_le, Nat2Z.id by done.
  rewrite drop_app_length' by by rewrite write_u32_le_length.
  rewrite take_app_length, drop_app_length, length_app.
  by rewrite Z.gtb_ltb, (proj2 (Z.ltb_ge _ _)) by lia.
Qed.

Lemma read_strings_frames fuel emit acc l :
  Forall string_fits l → (length l ≤ fuel)%nat →
  read_strings fuel emit acc (concat (string_frame <$> l)) = Ok (foldl emit acc l).
Proof.
  intros Hl. revert fuel acc.
  induction Hl as [|s l Hs Hl IH]; intros fuel acc Hf.
  - by destruct fuel.
  - destruct fuel as [|fuel]; simpl in Hf; [lia|].
    rewrite fmap_cons. cbn [concat]. rewrite read_strings_frame by done. apply IH. lia.
Qed.

Lemma frames_length l : (length l ≤ length (concat (string_frame <$> l)))%nat.
Proof.
  induction l as [|s l IH]; [done|]. rewrite fmap_cons. cbn [concat length].
  unfold string_frame at 1, native_u32. rewrite !length_app, write_u32_le_length. lia.
Qed.

Lemma deserialize_frames emit l :
  Forall string_fits l →
  (if (length (serialize_strings l) =? 0)%nat then Ok []
   else read_strings (length (serialize_strings l)) emit [] (serialize_strings l)) =
  Ok (foldl emit [] l).
Proof.
  intros Hl. unfold serialize_strings. rewrite serialize_strings_frames by done. simpl.
  destruct l as [|s l]; [done|].
  rewrite read_strings_frames by (done || apply frames_length). done.
Qed.

Lemma foldl_emplace_back l acc : foldl emplace_back acc l = acc ++ l.
Proof.
  revert acc. induction l as [|s l IH]; intros acc; simpl; [by rewrite app_nil_r|].
  rewrite IH. unfold emplace_back. by rewrite <- app_assoc.
Qed.

(** A sequence of strings, each shorter than 2^32 bytes, is restored exactly by
    deserialization, embedded zero bytes and empty strings included. *)
Theorem string_sequence_roundtrip (l : list bytes) :
  Forall string_fits l → deserialize_string_sequence (serialize_strings l) = Ok l.
Proof.
  intros Hl. unfold deserialize_string_sequence. rewrite deserialize_frames by done.
  by rewrite foldl_emplace_back.
Qed.

Lemma string_sequence_roundtrip_witness :
  deserialize_string_sequence
    [Byte.x00; Byte.x00; Byte.x00; Byte.x00; Byte.x01; Byte.x00; Byte.x00; Byte.x00; Byte.x41] =
    Ok [[]; [Byte.x41]].
Proof.
  apply (string_sequence_roundtrip [[]; [Byte.x41]]). repeat constructor.
Defined.

(** The loop never runs out of fuel: any two amounts that cover the input agree. *)
Lemma read_strings_fuel fuel fuel' emit acc rest :
  (length rest ≤ fuel)%nat → (length rest ≤ fuel')%nat →
  read_strings fuel emit acc rest = read_strings fuel' emit acc rest.
Proof.
  revert fuel' acc rest. induction fuel as [|fuel IH]; intros fuel' acc rest Hf Hf'.
  - destruct rest; simpl in Hf; [|lia]. by destruct fuel'.
  - destruct (decide (4 ≤ length rest)%nat) as [H4|H4].
    + destruct fuel' as [|fuel']; [lia|]. rewrite !read_strings_S by done.
      destruct (_ >? _); [done|]. apply IH; rewrite !length_drop; lia.
    + assert ((4 <=? length rest)%nat = false) as H5 by (apply Nat.leb_gt; lia).
      destruct fuel' as [|fuel']; cbn [read_strings]; by rewrite H5.
Qed.

Lemma read_strings_canonical fuel acc rest l :
  read_strings fuel emplace_back acc rest = Ok l →
  ∃ l', l = acc ++ l' ∧ Forall string_fits l' ∧ rest = concat (string_frame <$> l').
Proof.
  revert acc rest. induction fuel as [|fuel IH]; intros acc rest; cbn [read_strings];
    destruct (Nat.leb_spec 4 (length rest)) as [H4|H4]; try done.
  1,3: destruct rest; [|done]; intros [= <-]; exists []; by rewrite app_nil_r.
  destruct (_ >? _) eqn:E; [done|]. zbool. rewrite length_drop in E.
  intros (l' & -> & Hl & Hrest)%IH.
  set (len := read_u32_le rest) in *. set (s := take (Z.to_nat len) (drop 4 rest)) in *.
  pose proof (read_u32_le_range rest) as Hlen. fold len in Hlen. unfold u_range in Hlen.
  assert (Z.of_nat (length s) = len) as Hs.
  { unfold s. rewrite length_take, length_drop. lia. }
  exists (s :: l'). split; [unfold emplace_back; by rewrite <- app_assoc|].
  split; [constructor; [unfold string_fits; lia|done]|].
  rewrite fmap_cons. cbn [concat]. rewrite <- Hrest. unfold string_frame, native_u32.
  rewrite Hs, <- app_assoc. unfold s. rewrite take_drop.
  replace len with (read_u32_le (take 4 rest)).
  - rewrite write_read_u32_le by (rewrite length_take; lia). by rewrite take_drop.
  - unfold len. rewrite <- (take_drop 4 rest) at 2.
    rewrite <- (app_nil_r (take 4 rest)) at 1.
    by rewrite !read_u32_le_val by (rewrite length_take; lia).
Qed.

(** The string encoding is unique: bytes that deserialize to a sequence are
    exactly the serialization of that sequence, so a truncated, extended or
    otherwise altered buffer never decodes to the original strings. *)
Theorem string_sequence_canonical (val : bytes) (l : list bytes) :
  deserialize_string_sequence val = Ok l → serialize_strings l = val.
Proof.
  unfold deserialize_string_sequence. destruct (Nat.eqb_spec (length val) 0) as [E|E].
  - intros [= <-]. by destruct val.
  - intros (l' & -> & Hl & ->)%read_strings_canonical. simpl.
    unfold serialize_strings. by rewrite serialize_strings_frames.
Qed.

Lemma string_sequence_canonical_witness :
  serialize_strings [[Byte.x41]] = [Byte.x01; Byte.x00; Byte.x00; Byte.x00; Byte.x41].
Proof. apply string_sequence_canonical. reflexivity. Defined.

(** ** Ordered sets of strings *)

Lemma set_insert_last l s : Forall (fun x => bytes_lt x s) l → set_insert l s = l ++ [s].
Proof.
  induction 1 as [|x l Hx Hl IH]; simpl; [done|].
  unfold bytes_lt in Hx. rewrite bytes_compare_antisym, Hx. simpl. by rewrite IH.
Qed.

Lemma foldl_set_insert acc l :
  StronglySorted bytes_lt (acc ++ l) → foldl set_insert acc l = acc ++ l.
Proof.
  revert acc. induction l as [|s l IH]; intros acc Hs; simpl; [by rewrite app_nil_r|].
  rewrite set_insert_last.
  - rewrite IH by by rewrite <- app_assoc. by rewrite <- app_assoc.
  - clear IH. induction acc as [|x acc IH]; [done|]. apply StronglySorted_inv in Hs as [Hs Hx].
    constructor; [|by apply IH]. rewrite Forall_app in Hx. destruct Hx as [_ Hx].
    by inversion Hx.
Qed.

(** A [std::set] of strings, a strictly increasing sequence, is restored exactly
    by deserialization. *)
Theorem string_set_roundtrip (l : list bytes) :
  Forall string_fits l → StronglySorted bytes_lt l →
  deserialize_string_set (serialize_strings l) = Ok l.
Proof.
  intros Hl Hs. unfold deserialize_string_set. rewrite deserialize_frames by done.
  by rewrite foldl_set_insert.
Qed.

Lemma string_set_roundtrip_witness :
  deserialize_string_set (serialize_strings [[]; [Byte.x41]; [Byte.x41; Byte.x00]]) =
    Ok [[]; [Byte.x41]; [Byte.x41; Byte.x00]].
Proof.
  apply string_set_roundtrip; [repeat constructor|].
  repeat constructor; vm_compute; reflexivity.
Defined.
