(* ===== verification/CompositeKey.v ===== *)
(** * Composite keys

    Models [src/include/mdbx_containers/CompositeKey.hpp]: a typed tuple of components
    is stored as one byte string whose byte order is the lexicographic order of the
    components.  The theorems prove exactly that order preservation, that decoding
    inverts encoding, and that the encoding is canonical: any byte string accepted by
    [from_bytes] is the encoding of the key it decodes to. *)
From Stdlib Require Import SpecFloat.
From S2P Require Import Prelude SyncCommon KeyCodec.
Open Scope Z_scope.

(** ** Primitive readers and writers

    A reader takes the bytes between [current] and [end] and returns the value with
    the bytes left. *)

Definition composite_error (what : string) : exn := runtime_error what.

Definition composite_key_require_bytes (rest : bytes) (count : nat) : result unit :=
  throw_if (bool_decide (length rest < count)%nat)
    (composite_error "CompositeKey::from_bytes: truncated component").

Definition composite_key_append_big_endian (size : nat) (value : Z) (out : bytes) : bytes :=
  out ++ ((fun i => byte_of (Z.shiftr value (i * 8))) <$> reverse (seqZ 0 (Z.of_nat size))).

Definition composite_key_read_big_endian (size : nat) (rest : bytes) : result (Z * bytes) :=
  _ ← composite_key_require_bytes rest size;
  Ok (foldl (fun value b => Z.lor (Z.shiftl value 8 mod 2 ^ (Z.of_nat size * 8)) (u8 b)) 0
        (take size rest),
      drop size rest).

#[global] Arguments composite_key_append_big_endian : simpl never.
#[global] Arguments composite_key_read_big_endian : simpl never.

Definition integral_out_of_range : exn :=
  composite_error "CompositeKey::from_bytes: integral component out of range".

(** The two overloads of [composite_key_checked_integral_cast<T>]. *)
Definition composite_key_checked_signed_cast (T : int_type) (value : Z) : result Z :=
  let minimum := - 2 ^ (ty_bits T - 1) in
  let maximum := 2 ^ (ty_bits T - 1) - 1 in
  if (value <? minimum) || (value >? maximum) then Throw integral_out_of_range else Ok value.
Definition composite_key_checked_unsigned_cast (T : int_type) (value : Z) : result Z :=
  let maximum := 2 ^ ty_bits T - 1 in
  if value >? maximum then Throw integral_out_of_range else Ok value.

Definition escape_byte (b : byte) : bytes :=
  if u8 b =? 0 then [Byte.x00; Byte.xff] else [b].

Definition composite_key_append_terminated_bytes (data out : bytes) : bytes :=
  foldl (fun out b => out ++ escape_byte b) out data ++ [Byte.x00; Byte.x00].

Fixpoint composite_key_read_terminated_bytes (out rest : bytes) : result (bytes * bytes) :=
  match rest with
  | [] => Throw (composite_error "CompositeKey::from_bytes: missing byte component terminator")
  | b :: rest' =>
      if negb (u8 b =? 0) then composite_key_read_terminated_bytes (out ++ [b]) rest'
      else match rest' with
      | [] => Throw (composite_error "CompositeKey::from_bytes: truncated byte component")
      | escaped :: rest'' =>
          if u8 escaped =? 0 then Ok (out, rest'')
          else if u8 escaped =? 0xff then
            composite_key_read_terminated_bytes (out ++ [Byte.x00]) rest''
          else Throw (composite_error "CompositeKey::from_bytes: invalid byte component escape")
      end
  end.

(** ** Components *)

Inductive part_type : Type :=
  | PInt (T : int_type)
  | PChar (T : int_type)
  | PBool
  | PFloat
  | PDouble
  | PString
  | PBytes.

Definition part_val (t : part_type) : Type :=
  match t with
  | PInt _ | PChar _ | PFloat | PDouble => Z
  | PBool => bool
  | PString | PBytes => bytes
  end.

(** The static assertions on component types, and the range of their values. *)
Definition part_type_ok (t : part_type) : Prop :=
  match t with
  | PInt T => int_type_ok T ∧ ty_size T ≤ 8 ∧ ty_code_unit T = false
  | PChar T => int_type_ok T ∧ ty_code_unit T = true
  | _ => True
  end.

Definition part_ok (t : part_type) : part_val t → Prop :=
  match t with
  | PInt T | PChar T => fun v => in_type T v
  | PFloat => fun v => is_u32 v
  | PDouble => fun v => is_u64 v
  | PBool | PString | PBytes => fun _ => True
  end.

Definition append_integral (T : int_type) (value : Z) (out : bytes) : bytes :=
  if mdbx_integer_key_storage_size T =? 4 then
    let sortable :=
      if is_signed_mdbx_integer_key T then sortable_key_from_signed_int32 value
      else raw_bits 32 value in
    composite_key_append_big_endian 4 sortable out
  else
    let sortable :=
      if is_signed_mdbx_integer_key T then sortable_key_from_signed_int64 value
      else raw_bits 64 value in
    composite_key_append_big_endian 8 sortable out.

Definition read_integral (T : int_type) (rest : bytes) : result (Z * bytes) :=
  if mdbx_integer_key_storage_size T =? 4 then
    '(raw, rest) ← composite_key_read_big_endian 4 rest;
    v ← (if is_signed_mdbx_integer_key T then
           composite_key_checked_signed_cast T (signed_int32_from_sortable_key raw)
         else composite_key_checked_unsigned_cast T raw);
    Ok (v, rest)
  else
    '(raw, rest) ← composite_key_read_big_endian 8 rest;
    v ← (if is_signed_mdbx_integer_key T then
           composite_key_checked_signed_cast T (signed_int64_from_sortable_key raw)
         else composite_key_checked_unsigned_cast T raw);
    Ok (v, rest).

Definition read_float (rest : bytes) : result (Z * bytes) :=
  '(raw, rest) ← composite_key_read_big_endian 4 rest;
  let value := float_from_sortable_key raw in
  let is_canonical :=
    match sortable_key_from_float value with Ok k => k =? raw | Throw _ => false end in
  if negb is_canonical then
    Throw (composite_error "CompositeKey::from_bytes: invalid or non-canonical float component")
  else Ok (value, rest).

Definition read_double (rest : bytes) : result (Z * bytes) :=
  '(raw, rest) ← composite_key_read_big_endian 8 rest;
  let value := double_from_sortable_key raw in
  let is_canonical :=
    match sortable_key_from_double value with Ok k => k =? raw | Throw _ => false end in
  if negb is_canonical then
    Throw (composite_error "CompositeKey::from_bytes: invalid or non-canonical double component")
  else Ok (value, rest).

Definition part_append (t : part_type) : part_val t → bytes → result bytes :=
  match t with
  | PInt T => fun v out => Ok (append_integral T v out)
  | PChar T => fun v out => Ok (composite_key_append_big_endian 4 (code_unit_key_bits T v) out)
  | PBool => fun v out => Ok (composite_key_append_big_endian 4 (if v then 1 else 0) out)
  | PFloat => fun v out =>
      k ← sortable_key_from_float v; Ok (composite_key_append_big_endian 4 k out)
  | PDouble => fun v out =>
      k ← sortable_key_from_double v; Ok (composite_key_append_big_endian 8 k out)
  | PString | PBytes => fun v out => Ok (composite_key_append_terminated_bytes v out)
  end.

Definition part_read (t : part_type) (rest : bytes) : result (part_val t * bytes) :=
  match t return result (part_val t * bytes) with
  | PInt T => read_integral T rest
  | PChar T =>
      '(raw, rest) ← composite_key_read_big_endian 4 rest;
      v ← code_unit_key_from_bits T raw; Ok (v, rest)
  | PBool =>
      '(value, rest) ← composite_key_read_big_endian 4 rest;
      if value >? 1 then Throw (composite_error "CompositeKey::from_bytes: invalid bool component")
      else Ok (negb (value =? 0), rest)
  | PFloat => read_float rest
  | PDouble => read_double rest
  | PString | PBytes => composite_key_read_terminated_bytes [] rest
  end.

(** ** Keys *)

(** [std::tuple<Parts...>]. *)
Fixpoint parts_type (ts : list part_type) : Type :=
  match ts with
  | [] => unit
  | t :: ts' => part_val t * parts_type ts'
  end.

Fixpoint codec_append (ts : list part_type) : parts_type ts → bytes → result bytes :=
  match ts with
  | [] => fun _ out => Ok out
  | t :: ts' => fun parts out => out ← part_append t parts.1 out; codec_append ts' parts.2 out
  end.

Fixpoint codec_read (ts : list part_type) (rest : bytes) : result (parts_type ts * bytes) :=
  match ts return result (parts_type ts * bytes) with
  | [] => Ok (tt, rest)
  | t :: ts' =>
      '(v, rest) ← part_read t rest;
      '(vs, rest) ← codec_read ts' rest;
      Ok ((v, vs), rest)
  end.

Definition to_bytes (ts : list part_type) (parts : parts_type ts) : result bytes :=
  codec_append ts parts [].

(** [data] is [None] for a null pointer. *)
Definition from_bytes (ts : list part_type) (data : option bytes) : result (parts_type ts) :=
  match data with
  | None => Throw (composite_error "CompositeKey::from_bytes: null input")
  | Some current =>
      '(parts, current) ← codec_read ts current;
      if negb (length current =? 0)%nat then
        Throw (composite_error "CompositeKey::from_bytes: trailing bytes")
      else Ok parts
  end.

(** [operator<]: the order of the encodings. *)
Definition key_less (ts : list part_type) (a b : parts_type ts) : result bool :=
  x ← to_bytes ts a; y ← to_bytes ts b; Ok (bool_decide (bytes_lt x y)).

(** ** Specification: canonical values and component order *)

Definition part_canonical (t : part_type) : part_val t → part_val t :=
  match t with
  | PFloat => float_canonical
  | PDouble => double_canonical
  | _ => fun v => v
  end.

Definition part_compare (t : part_type) : part_val t → part_val t → comparison :=
  match t with
  | PInt _ => fun a b => a ?= b
  | PChar T => fun a b => code_unit_key_bits T a ?= code_unit_key_bits T b
  | PBool => fun a b => Z.b2z a ?= Z.b2z b
  | PFloat => fun a b => default Eq (SFcompare (float_value a) (float_value b))
  | PDouble => fun a b => default Eq (SFcompare (double_value a) (double_value b))
  | PString | PBytes => bytes_compare
  end.

Fixpoint parts_canonical (ts : list part_type) : parts_type ts → parts_type ts :=
  match ts with
  | [] => fun p => p
  | t :: ts' => fun p => (part_canonical t p.1, parts_canonical ts' p.2)
  end.

Fixpoint parts_ok (ts : list part_type) : parts_type ts → Prop :=
  match ts with
  | [] => fun _ => True
  | t :: ts' => fun p => part_type_ok t ∧ part_ok t p.1 ∧ parts_ok ts' p.2
  end.

Fixpoint parts_compare (ts : list part_type) : parts_type ts → parts_type ts → comparison :=
  match ts with
  | [] => fun _ _ => Eq
  | t :: ts' => fun a b => lex_then (part_compare t a.1 b.1) (parts_compare ts' a.2 b.2)
  end.

(** ** Big-endian components *)

Lemma append_big_endian_bytes size value out :
  composite_key_append_big_endian size value out = out ++ be_bytes size value.
Proof.
  unfold composite_key_append_big_endian, be_bytes. f_equal. rewrite <- le_digits.
  rewrite fmap_reverse. f_equal. apply list_fmap_ext. intros i x Hx%lookup_seqZ.
  unfold digit. change 0xff with (Z.ones 8). rewrite Z.land_ones by lia.
  by rewrite byte_of_mod.
Qed.

Lemma read_big_endian_bytes size value rest :
  u_range (Z.of_nat size * 8) value →
  composite_key_read_big_endian size (be_bytes size value ++ rest) = Ok (value, rest).
Proof.
  intros Hv. unfold composite_key_read_big_endian, composite_key_require_bytes.
  rewrite length_app, be_bytes_length, bool_decide_false by lia. simpl.
  rewrite take_app_length', drop_app_length' by by rewrite be_bytes_length.
  rewrite wide_fold_exact by by rewrite be_bytes_length.
  by rewrite be_val_be_bytes, pow_256, Z.mod_small by (done || lia).
Qed.

Lemma read_big_endian_inv size s value rest :
  composite_key_read_big_endian size s = Ok (value, rest) →
  s = be_bytes size value ++ rest ∧ u_range (Z.of_nat size * 8) value.
Proof.
  unfold composite_key_read_big_endian, composite_key_require_bytes. intros H; ok_inv. zbool.
  assert (length (take size s) = size) as Hl by (rewrite length_take; lia).
  rewrite wide_fold_exact by by rewrite Hl.
  pose proof (be_val_range (take size s)) as Hr. rewrite Hl, pow_256 in Hr by lia.
  split; [|done]. rewrite <- Hl at 1. by rewrite be_bytes_be_val, take_drop.
Qed.

Lemma be_separated size a b :
  u_range (Z.of_nat size * 8) a → u_range (Z.of_nat size * 8) b →
  separated (be_bytes size a) (be_bytes size b) (a ?= b).
Proof.
  intros Ha Hb. rewrite <- (be_bytes_compare size) by by rewrite pow_256 by lia.
  apply separated_same_length. by rewrite !be_bytes_length.
Qed.

(** ** Terminated components *)

Definition terminated (data : bytes) : bytes := concat (escape_byte <$> data) ++ [Byte.x00; Byte.x00].

Lemma append_terminated_bytes data out :
  composite_key_append_terminated_bytes data out = out ++ terminated data.
Proof.
  unfold composite_key_append_terminated_bytes, terminated. rewrite app_assoc. f_equal.
  revert out. induction data as [|b data IH]; intros out; simpl; [by rewrite app_nil_r|].
  by rewrite IH, app_assoc.
Qed.

Lemma terminated_cons b data : terminated (b :: data) = escape_byte b ++ terminated data.
Proof. unfold terminated. simpl. by rewrite app_assoc. Qed.

Lemma u8_zero b : u8 b = 0 ↔ b = Byte.x00.
Proof. split; [|by intros ->]. intros H. by apply u8_inj. Qed.

Lemma read_terminated_bytes data out rest :
  composite_key_read_terminated_bytes out (terminated data ++ rest) = Ok (out ++ data, rest).
Proof.
  revert out. induction data as [|b data IH]; intros out.
  - simpl. by rewrite app_nil_r.
  - rewrite terminated_cons, <- app_assoc. unfold escape_byte.
    destruct (Z.eqb_spec (u8 b) 0) as [E|E]; simpl.
    + apply u8_zero in E as ->. rewrite IH. by rewrite <- app_assoc.
    + rewrite (proj2 (Z.eqb_neq _ _)) by done. simpl. rewrite IH. by rewrite <- app_assoc.
Qed.

Lemma read_terminated_inv out s v rest :
  composite_key_read_terminated_bytes out s = Ok (v, rest) →
  ∃ data, v = out ++ data ∧ s = terminated data ++ rest.
Proof.
  remember (length s) as n eqn:Hn. revert out s Hn.
  induction (lt_wf n) as [n _ IH]; intros out s ->.
  destruct s as [|b s]; [done|]. cbn [composite_key_read_terminated_bytes].
  destruct (Z.eqb_spec (u8 b) 0) as [E|E]; simpl.
  - apply u8_zero in E as ->. destruct s as [|e s]; [done|].
    destruct (Z.eqb_spec (u8 e) 0) as [E0|E0].
    { apply u8_zero in E0 as ->. intros [= <- <-]. exists []. by rewrite app_nil_r. }
    destruct (Z.eqb_spec (u8 e) 0xff) as [Ef|Ef]; [|done].
    assert (e = Byte.xff) as -> by by apply u8_inj.
    intros (data & -> & ->)%(IH (length s)); [|simpl; lia|done].
    exists (Byte.x00 :: data). by rewrite <- app_assoc.
  - intros (data & -> & ->)%(IH (length s)); [|simpl; lia|done].
    exists (b :: data). rewrite <- app_assoc, terminated_cons. split; [done|].
    unfold escape_byte. by rewrite (proj2 (Z.eqb_neq _ _)).
Qed.

Lemma terminated_separated a b : separated (terminated a) (terminated b) (bytes_compare a b).
Proof.
  assert (u8 Byte.x00 = 0) as H0 by done.
  revert b. induction a as [|x a IH]; intros [|y b] s t;
    rewrite ?terminated_cons, <- ?app_assoc; unfold escape_byte;
    [|pose proof (u8_range y)|pose proof (u8_range x)|pose proof (u8_range x);
      pose proof (u8_range y)].
  - done.
  - destruct (Z.eqb_spec (u8 y) 0); [done|]. cbn -[u8 Z.compare].
    by rewrite (proj2 (Z.compare_lt_iff (u8 Byte.x00) (u8 y))) by lia.
  - destruct (Z.eqb_spec (u8 x) 0); [done|]. cbn -[u8 Z.compare].
    by rewrite (proj2 (Z.compare_gt_iff (u8 x) (u8 Byte.x00))) by lia.
  - destruct (Z.eqb_spec (u8 x) 0) as [Ex|Ex], (Z.eqb_spec (u8 y) 0) as [Ey|Ey];
      cbn -[u8 Z.compare]; rewrite ?H0, ?Ex, ?Ey, ?Z.compare_refl; cbn -[u8 Z.compare].
    + apply IH.
    + by rewrite (proj2 (Z.compare_lt_iff 0 (u8 y))) by lia.
    + by rewrite (proj2 (Z.compare_gt_iff (u8 x) 0)) by lia.
    + by rewrite IH, lex_then_assoc.
Qed.

(** ** Integral components *)

Lemma append_integral_rank T v out :
  int_type_ok T → ty_size T ≤ 8 → ty_code_unit T = false → in_type T v →
  append_integral T v out =
    out ++ be_bytes (Z.to_nat (mdbx_integer_key_storage_size T)) (int_rank T v).
Proof.
  intros HT Hle Hcu Hv. pose proof (storage_size_cases T HT Hle) as [Hsz Hst].
  pose proof (ty_bits_pos T HT). unfold append_integral, int_rank, is_signed_mdbx_integer_key,
    is_key_signed_integral, in_type, ty_bits in *.
  rewrite Hcu, (proj2 (Z.leb_le _ _)), !andb_true_r by done.
  destruct Hst as [E|[E _]]; rewrite E in *;
    [change (4 =? 4) with true|change (8 =? 4) with false]; cbv iota zeta;
    rewrite append_big_endian_bytes; f_equal; f_equal; destruct (ty_signed T).
  - apply sortable_int32. eapply s_range_mono; [|done]. lia.
  - apply Z.mod_small. eapply u_range_mono; [|done]. lia.
  - apply sortable_int64. eapply s_range_mono; [|done]. lia.
  - apply Z.mod_small. eapply u_range_mono; [|done]. lia.
Qed.

Lemma read_integral_rank T v rest :
  int_type_ok T → ty_size T ≤ 8 → ty_code_unit T = false → in_type T v →
  read_integral T (be_bytes (Z.to_nat (mdbx_integer_key_storage_size T)) (int_rank T v) ++ rest)
    = Ok (v, rest).
Proof.
  intros HT Hle Hcu Hv. pose proof (storage_size_cases T HT Hle) as [Hsz Hst].
  pose proof (int_rank_range T v HT Hv Hle) as Hr. pose proof (ty_bits_pos T HT) as Hb.
  unfold read_integral, is_signed_mdbx_integer_key, is_key_signed_integral.
  rewrite Hcu, (proj2 (Z.leb_le _ _)), !andb_true_r by done.
  destruct Hst as [E|[E _]]; rewrite E in *;
    [change (4 =? 4) with true|change (8 =? 4) with false]; cbv iota;
    [change (Z.to_nat 4) with 4%nat|change (Z.to_nat 8) with 8%nat];
    rewrite read_big_endian_bytes by done; cbn [mbind result_bind];
    unfold int_rank, in_type in *; rewrite Hcu, E in *;
    destruct (ty_signed T); cbn [mbind result_bind].
  1: rewrite unsortable_int32 by done.
  3: rewrite unsortable_int64 by done.
  all: unfold composite_key_checked_signed_cast, composite_key_checked_unsigned_cast.
  1: replace (v + 2 ^ (4 * 8 - 1) - 2 ^ 31) with v by lia.
  3: replace (v + 2 ^ (8 * 8 - 1) - 2 ^ 63) with v by lia.
  all: destruct Hv; rewrite ?(proj2 (Z.ltb_ge _ _)), Z.gtb_ltb, (proj2 (Z.ltb_ge _ _)) by lia.
  all: done.
Qed.

Lemma read_integral_inv T s v rest :
  int_type_ok T → ty_size T ≤ 8 → ty_code_unit T = false →
  read_integral T s = Ok (v, rest) →
  in_type T v ∧
  s = be_bytes (Z.to_nat (mdbx_integer_key_storage_size T)) (int_rank T v) ++ rest.
Proof.
  intros HT Hle Hcu. pose proof (storage_size_cases T HT Hle) as [Hsz Hst].
  unfold read_integral, is_signed_mdbx_integer_key, is_key_signed_integral.
  rewrite Hcu, (proj2 (Z.leb_le _ _)), !andb_true_r by done.
  destruct Hst as [E|[E _]]; rewrite E in *;
    [change (4 =? 4) with true|change (8 =? 4) with false]; cbv iota; intros H;
    apply result_bind_Ok in H as ((raw & rest') & [-> Hraw]%read_big_endian_inv & H);
    apply result_bind_Ok in H as (v' & Hcast & [= <- <-]);
    unfold int_rank, in_type; rewrite Hcu, E; destruct (ty_signed T).
  1: rewrite unsortable_int32 in Hcast by done.
  3: rewrite unsortable_int64 in Hcast by done.
  all: unfold composite_key_checked_signed_cast, composite_key_checked_unsigned_cast in Hcast;
    case_match; [done|]; zbool; injection Hcast as <-;
    (split; [unfold s_range, u_range in *; lia|]); f_equal; f_equal; lia.
Qed.

(** ** One component of any type *)

Lemma code_unit_small T : int_type_ok T → ty_code_unit T = true → 8 ≤ ty_bits T ≤ 32.
Proof.
  intros HT E. pose proof (ty_bits_pos T HT). destruct HT as (_ & _ & Hc).
  specialize (Hc E). unfold ty_bits in *. lia.
Qed.

Lemma code_unit_bits_u32 T v :
  int_type_ok T → ty_code_unit T = true → is_u32 (code_unit_key_bits T v).
Proof.
  intros HT E. eapply u_range_mono; [|by apply code_unit_bits_range].
  pose proof (code_unit_small T HT E). lia.
Qed.

(** The bytes a component contributes. *)
Definition part_bytes (t : part_type) : part_val t → result bytes :=
  match t with
  | PInt T => fun v => Ok (be_bytes (Z.to_nat (mdbx_integer_key_storage_size T)) (int_rank T v))
  | PChar T => fun v => Ok (be_bytes 4 (code_unit_key_bits T v))
  | PBool => fun v => Ok (be_bytes 4 (Z.b2z v))
  | PFloat => fun v => k ← sortable_key_from_float v; Ok (be_bytes 4 k)
  | PDouble => fun v => k ← sortable_key_from_double v; Ok (be_bytes 8 k)
  | PString | PBytes => fun v => Ok (terminated v)
  end.

Lemma part_append_bytes t v out :
  part_type_ok t → part_ok t v →
  part_append t v out = (bs ← part_bytes t v; Ok (out ++ bs)).
Proof.
  destruct t as [T|T| | | | |]; simpl; intros Ht Hv.
  - destruct Ht as (? & ? & ?). by rewrite append_integral_rank.
  - by rewrite append_big_endian_bytes.
  - destruct v; by rewrite append_big_endian_bytes.
  - destruct (sortable_key_from_float v); simpl; [|done]. by rewrite append_big_endian_bytes.
  - destruct (sortable_key_from_double v); simpl; [|done]. by rewrite append_big_endian_bytes.
  - by rewrite append_terminated_bytes.
  - by rewrite append_terminated_bytes.
Qed.

Lemma sortable_float_canonical v k :
  is_u32 v → sortable_key_from_float v = Ok k →
  sortable_key_from_float (float_canonical v) = Ok k.
Proof.
  intros Hv. unfold float_canonical. case_decide as Hz; [|done].
  rewrite sortable_float_rank by done. unfold ieee_rank. change (23 + 8) with 31.
  rewrite Hz, decide_True by done. by intros [= <-].
Qed.

Lemma sortable_double_canonical v k :
  is_u64 v → sortable_key_from_double v = Ok k →
  sortable_key_from_double (double_canonical v) = Ok k.
Proof.
  intros Hv. unfold double_canonical. case_decide as Hz; [|done].
  rewrite sortable_double_rank by done. unfold ieee_rank. change (52 + 11) with 63.
  rewrite Hz, decide_True by done. by intros [= <-].
Qed.

Lemma part_read_bytes t v bs rest :
  part_type_ok t → part_ok t v → part_bytes t v = Ok bs →
  part_read t (bs ++ rest) = Ok (part_canonical t v, rest).
Proof.
  destruct t as [T|T| | | | |];
    cbn [part_type_ok part_ok part_bytes part_read part_canonical]; intros Ht Hv Hbs; ok_inv.
  - destruct Ht as (? & ? & ?). by apply read_integral_rank.
  - destruct Ht as [HT Hcu]. rewrite read_big_endian_bytes by by apply code_unit_bits_u32.
    cbn [mbind result_bind]. pose proof (code_unit_bits_range T v HT) as [? ?].
    unfold code_unit_key_from_bits. rewrite Z.gtb_ltb, (proj2 (Z.ltb_ge _ _)) by lia.
    cbn [mbind result_bind]. unfold code_unit_key_bits. by rewrite from_bits_raw.
  - rewrite read_big_endian_bytes by (destruct v; unfold u_range; simpl; lia).
    by destruct v.
  - unfold read_float. rewrite read_big_endian_bytes by eauto using sortable_float_range.
    cbn [mbind result_bind]. erewrite float_from_rank by done.
    erewrite sortable_float_canonical by done. by rewrite Z.eqb_refl.
  - unfold read_double. rewrite read_big_endian_bytes by eauto using sortable_double_range.
    cbn [mbind result_bind]. erewrite double_from_rank by done.
    erewrite sortable_double_canonical by done. by rewrite Z.eqb_refl.
  - apply (read_terminated_bytes v []).
  - apply (read_terminated_bytes v []).
Qed.

Lemma part_separated t a b x y :
  part_type_ok t → part_ok t a → part_ok t b → part_bytes t a = Ok x → part_bytes t b = Ok y →
  separated x y (part_compare t a b).
Proof.
  destruct t as [T|T| | | | |];
    cbn [part_type_ok part_ok part_bytes part_compare]; intros Ht Ha Hb Hx Hy; ok_inv.
  - destruct Ht as (HT & Hle & Hcu). pose proof (storage_size_cases T HT Hle) as [? _].
    replace (a ?= b) with (int_rank T a ?= int_rank T b).
    + apply be_separated; rewrite Z2Nat.id by lia; by apply int_rank_range.
    + unfold int_rank. rewrite Hcu. destruct (ty_signed T); [|done].
      by rewrite !(Z.add_comm _ (2 ^ _)), Z.add_compare_mono_l.
  - destruct Ht. apply be_separated; by apply code_unit_bits_u32.
  - apply be_separated; [destruct a|destruct b]; unfold u_range; simpl; lia.
  - erewrite sortable_float_compare by done. apply be_separated; eauto using sortable_float_range.
  - erewrite sortable_double_compare by done. apply be_separated; eauto using sortable_double_range.
  - apply terminated_separated.
  - apply terminated_separated.
Qed.

Lemma float_key_range raw : is_u32 raw → is_u32 (float_from_sortable_key raw).
Proof.
  intros [? ?]. unfold float_from_sortable_key. change 0x80000000 with (2 ^ 31).
  rewrite land_top, lxor_top, bit_not_sub by (unfold u_range; lia).
  destruct (Z.ltb_spec raw (2 ^ 31)); simpl; [unfold u_range; lia|].
  rewrite decide_False by lia. unfold u_range. lia.
Qed.
Lemma double_key_range raw : is_u64 raw → is_u64 (double_from_sortable_key raw).
Proof.
  intros [? ?]. unfold double_from_sortable_key. change 0x8000000000000000 with (2 ^ 63).
  rewrite land_top, lxor_top, bit_not_sub by (unfold u_range; lia).
  destruct (Z.ltb_spec raw (2 ^ 63)); simpl; [unfold u_range; lia|].
  rewrite decide_False by lia. unfold u_range. lia.
Qed.

Lemma code_unit_from_bits_inv T raw v :
  int_type_ok T → 0 ≤ raw → code_unit_key_from_bits T raw = Ok v →
  in_type T v ∧ code_unit_key_bits T v = raw.
Proof.
  intros HT Hraw. pose proof (ty_bits_pos T HT). unfold code_unit_key_from_bits.
  destruct (_ >? _) eqn:E; [done|]. zbool. intros [= <-].
  unfold from_bits, code_unit_key_bits, raw_bits, in_type, sign_of, s_range.
  pose proof (pow2_split (ty_bits T) ltac:(lia)) as Hp.
  destruct (ty_signed T).
  - case_decide.
    + split; [lia|]. apply Z.mod_small. lia.
    + split; [lia|]. rewrite <- (Z.mod_add _ 1), Z.mod_small by lia. lia.
  - split; [unfold u_range; lia|]. apply Z.mod_small. lia.
Qed.

Lemma part_read_inv t s v rest :
  part_type_ok t → part_read t s = Ok (v, rest) →
  part_ok t v ∧ ∃ bs, part_bytes t v = Ok bs ∧ s = bs ++ rest.
Proof.
  destruct t as [T|T| | | | |]; cbn [part_type_ok part_read part_ok part_bytes]; intros Ht H.
  - destruct Ht as (? & ? & ?). apply read_integral_inv in H as [? ->]; eauto.
  - destruct Ht as [HT Hcu].
    apply result_bind_Ok in H as ((raw & rest') & [-> Hraw]%read_big_endian_inv & H). ok_inv.
    apply code_unit_from_bits_inv in H as [? <-]; [eauto|done|by destruct Hraw].
  - apply result_bind_Ok in H as ((raw & rest') & [-> Hraw]%read_big_endian_inv & H).
    destruct (_ >? _) eqn:E in H; [done|]. zbool. ok_inv. split; [done|].
    exists (be_bytes 4 raw). split; [|done]. destruct Hraw.
    by assert (raw = 0 ∨ raw = 1) as [-> | ->] by lia.
  - apply result_bind_Ok in H as ((raw & rest') & [-> Hraw]%read_big_endian_inv & H).
    cbv zeta beta iota in H.
    destruct (sortable_key_from_float (float_from_sortable_key raw)) as [k|] eqn:Ek in H; [|done].
    destruct (Z.eqb_spec k raw); [|done]. simpl in H. ok_inv.
    split; [by apply float_key_range|]. rewrite Ek. eauto.
  - apply result_bind_Ok in H as ((raw & rest') & [-> Hraw]%read_big_endian_inv & H).
    cbv zeta beta iota in H.
    destruct (sortable_key_from_double (double_from_sortable_key raw)) as [k|] eqn:Ek in H; [|done].
    destruct (Z.eqb_spec k raw); [|done]. simpl in H. ok_inv.
    split; [by apply double_key_range|]. rewrite Ek. eauto.
  - apply read_terminated_inv in H as (data & -> & ->). eauto.
  - apply read_terminated_inv in H as (data & -> & ->). eauto.
Qed.

(** ** Whole keys *)

Fixpoint parts_bytes (ts : list part_type) : parts_type ts → result bytes :=
  match ts with
  | [] => fun _ => Ok []
  | t :: ts' => fun p => x ← part_bytes t p.1; y ← parts_bytes ts' p.2; Ok (x ++ y)
  end.

Lemma codec_append_bytes ts p out :
  parts_ok ts p → codec_append ts p out = (bs ← parts_bytes ts p; Ok (out ++ bs)).
Proof.
  revert out. induction ts as [|t ts IH]; intros out; cbn [parts_ok codec_append parts_bytes].
  - simpl. by rewrite app_nil_r.
  - intros (Ht & Hv & Hp). rewrite part_append_bytes by done.
    destruct (part_bytes t p.1) as [x|e]; cbn [mbind result_bind]; [|done].
    rewrite IH by done. destruct (parts_bytes ts p.2) as [y|e]; cbn [mbind result_bind]; [|done].
    by rewrite app_assoc.
Qed.

Lemma to_bytes_parts ts p : parts_ok ts p → to_bytes ts p = parts_bytes ts p.
Proof.
  intros Hp. unfold to_bytes. rewrite codec_append_bytes by done.
  by destruct (parts_bytes ts p).
Qed.

Lemma codec_read_bytes ts p bs rest :
  parts_ok ts p → parts_bytes ts p = Ok bs →
  codec_read ts (bs ++ rest) = Ok (parts_canonical ts p, rest).
Proof.
  revert bs rest. induction ts as [|t ts IH]; intros bs rest;
    cbn [parts_ok parts_bytes codec_read parts_canonical].
  - intros _ [= <-]. by destruct p.
  - intros (Ht & Hv & Hp) H. ok_inv. rewrite <- app_assoc.
    erewrite part_read_bytes by done. cbn [mbind result_bind].
    by erewrite IH by done.
Qed.

Lemma codec_read_inv ts s p rest :
  Forall part_type_ok ts → codec_read ts s = Ok (p, rest) →
  parts_ok ts p ∧ ∃ bs, parts_bytes ts p = Ok bs ∧ s = bs ++ rest.
Proof.
  intros Hts. revert s rest. induction Hts as [|t ts Ht Hts IH]; intros s rest;
    cbn [codec_read parts_ok parts_bytes].
  - intros [= <- <-]. split; [done|]. by exists [].
  - intros H. apply result_bind_Ok in H as ((v & r1) & Hv & H).
    apply result_bind_Ok in H as ((vs & r2) & Hvs & [= <- <-]).
    apply part_read_inv in Hv as (Hok & x & Hx & ->); [|done].
    apply IH in Hvs as (Hoks & y & Hy & ->). cbn [fst snd]. split; [done|].
    exists (x ++ y). rewrite Hx. cbn [mbind result_bind]. rewrite Hy. by rewrite <- app_assoc.
Qed.

Lemma parts_separated ts a b x y :
  parts_ok ts a → parts_ok ts b → parts_bytes ts a = Ok x → parts_bytes ts b = Ok y →
  separated x y (parts_compare ts a b).
Proof.
  revert x y. induction ts as [|t ts IH]; intros x y;
    cbn [parts_ok parts_bytes parts_compare].
  - intros _ _ [= <-] [= <-]. apply separated_nil.
  - intros (Ht & Ha & Has) (_ & Hb & Hbs) Hx Hy. ok_inv.
    apply separated_app; [by eapply part_separated|by apply IH].
Qed.

(** C40: The byte order of encoded composite keys is the lexicographic order of
    their components, for any mix of integers, code units, booleans, floats,
    doubles, strings and byte vectors: range scans over composite keys see them in
    component order. *)
Theorem composite_key_order (ts : list part_type) (a b : parts_type ts) (x y : bytes) :
  parts_ok ts a → parts_ok ts b → to_bytes ts a = Ok x → to_bytes ts b = Ok y →
  bytes_compare x y = parts_compare ts a b.
Proof.
  intros Ha Hb. rewrite !to_bytes_parts by done. intros Hx Hy.
  apply separated_compare. by eapply parts_separated.
Qed.

(** Decoding the encoding of a composite key gives the key back, with negative
    floating-point zeros normalized. *)
Theorem composite_key_roundtrip (ts : list part_type) (p : parts_type ts) (bs : bytes) :
  parts_ok ts p → to_bytes ts p = Ok bs → from_bytes ts (Some bs) = Ok (parts_canonical ts p).
Proof.
  intros Hp. rewrite to_bytes_parts by done. intros Hbs. unfold from_bytes.
  rewrite <- (app_nil_r bs). by erewrite codec_read_bytes by done.
Qed.

(** The encoding is canonical: whatever bytes [from_bytes] accepts are the
    encoding of the key it returns, so truncated, extended, non-canonical or
    out-of-range bytes are rejected and no key has two encodings. *)
Theorem composite_key_canonical (ts : list part_type) (bs : bytes) (p : parts_type ts) :
  Forall part_type_ok ts → from_bytes ts (Some bs) = Ok p →
  parts_ok ts p ∧ to_bytes ts p = Ok bs.
Proof.
  intros Hts H. unfold from_bytes in H.
  apply result_bind_Ok in H as ((p' & rest) & Hr & H).
  apply codec_read_inv in Hr as (Hok & bs' & Hbs & ->); [|done].
  destruct rest; [|done]. simpl in H. ok_inv. rewrite to_bytes_parts, app_nil_r by done. done.
Qed.

Definition ty_int32 : int_type :=
  {| ty_size := 4; ty_signed := true; ty_long := false; ty_code_unit := false |}.

Lemma ty_int32_ok : int_type_ok ty_int32.
Proof. split; [apply list_elem_of_In; simpl; tauto|]. split; discriminate. Qed.

Lemma composite_key_order_witness :
  bytes_compare
    [Byte.x7f; Byte.xff; Byte.xff; Byte.xff; Byte.x61; Byte.x00; Byte.xff; Byte.x00; Byte.x00]
    [Byte.x7f; Byte.xff; Byte.xff; Byte.xff; Byte.x61; Byte.x62; Byte.x00; Byte.x00] = Lt.
Proof.
  apply (composite_key_order [PInt ty_int32; PString]
    (-1, ([Byte.x61; Byte.x00], tt)) (-1, ([Byte.x61; Byte.x62], tt))); try reflexivity;
    (split; [split; [exact ty_int32_ok|done]|split; [vm_compute; split; congruence|done]]).
Defined.

Lemma composite_key_roundtrip_witness :
  from_bytes [PInt ty_int32; PString]
    (Some [Byte.x80; Byte.x00; Byte.x00; Byte.x07; Byte.x61; Byte.x00; Byte.x00]) =
  Ok (7, ([Byte.x61], tt)).
Proof.
  apply (composite_key_roundtrip [PInt ty_int32; PString] (7, ([Byte.x61], tt))); [|reflexivity].
  split; [split; [exact ty_int32_ok|done]|split; [vm_compute; split; congruence|done]].
Defined.

Lemma composite_key_canonical_witness :
  parts_ok [PBool; PBytes] (true, ([], tt)) ∧
  to_bytes [PBool; PBytes] (true, ([], tt)) =
    Ok [Byte.x00; Byte.x00; Byte.x00; Byte.x01; Byte.x00; Byte.x00].
Proof.
  apply (composite_key_canonical [PBool; PBytes]); [repeat constructor|reflexivity].
Defined.
