(* ===== verification/Wire.v ===== *)
(** * Wire readers

    The decoders of the sync subsystem walk a byte buffer with a small [Cursor]
    ([data], [size], [pos]); every read first checks that enough bytes are left and
    throws the codec's own underrun exception otherwise.  This file gives that cursor,
    its reads as an error-and-state monad, and the two proof principles the codec
    files use: [reads] (the decoder returns a given value on a given encoding, and
    consumes exactly it) and [accepts] (whatever the decoder returns, it consumed
    bytes related to it).

    The cursor and its reads are the private helpers of
    [src/include/mdbx_containers/sync/protocol/ChangeBatchCodec.hpp]; the other codecs
    repeat them with a different message. *)
From S2P Require Import Prelude SyncCommon.
Open Scope Z_scope.

Record Cursor : Type := { cur_data : bytes; cur_pos : nat }.

Definition cur_size (c : Cursor) : nat := length (cur_data c).
Definition make_cursor (data : bytes) : Cursor := {| cur_data := data; cur_pos := 0 |}.
Definition advance (c : Cursor) (n : nat) : Cursor :=
  {| cur_data := cur_data c; cur_pos := cur_pos c + n |}.

(** [cur.data + cur.pos]. *)
Definition remaining (c : Cursor) : bytes := drop (cur_pos c) (cur_data c).

Definition reader (A : Type) : Type := Cursor → result (A * Cursor).

#[export] Instance reader_ret : MRet reader := fun A a c => Ok (a, c).
#[export] Instance reader_bind : MBind reader :=
  fun A B f m c => match m c with Ok (a, c') => f a c' | Throw e => Throw e end.

Definition throw {A} (e : exn) : reader A := fun _ => Throw e.
Definition check (bad : bool) (e : exn) : reader unit := if bad then throw e else mret tt.

(** [for (i = 0; i < count; ++i) out.push_back(body(cur));]. *)
Fixpoint repeat_read {A} (count : nat) (body : reader A) : reader (list A) :=
  match count with
  | O => mret []
  | S n => x ← body; xs ← repeat_read n body; mret (x :: xs)
  end.

(** Reads [n] bytes through a pointer the caller has bounds-checked. *)
Definition fetch {A} (f : bytes → A) (n : nat) : reader A :=
  fun c => Ok (f (remaining c), advance c n).

Section Reads.
Context (underrun : exn).

Definition check_bounds (n : Z) : reader unit := fun c =>
  if Z.of_nat (cur_pos c) + n >? Z.of_nat (cur_size c) then Throw underrun else Ok (tt, c).

Definition read_bytes (n : Z) : reader bytes :=
  _ ← check_bounds n; fetch (take (Z.to_nat n)) (Z.to_nat n).
Definition read_u8 : reader Z := _ ← check_bounds 1; fetch (fun p => at_byte p 0) 1.
Definition read_u16 : reader Z := _ ← check_bounds 2; fetch read_u16_le 2.
Definition read_u32 : reader Z := _ ← check_bounds 4; fetch read_u32_le 4.
Definition read_u64 : reader Z := _ ← check_bounds 8; fetch read_u64_le 8.
End Reads.

(** ** Decoding a given encoding *)

(** The cursor stands inside its buffer, before the bytes [s]. *)
Definition at_bytes (c : Cursor) (s : bytes) : Prop :=
  (cur_pos c ≤ cur_size c)%nat ∧ remaining c = s.

Definition reads {A} (r : reader A) (s : bytes) (a : A) : Prop :=
  ∀ c rest, at_bytes c (s ++ rest) → r c = Ok (a, advance c (length s)).

Lemma at_bytes_make data : at_bytes (make_cursor data) data.
Proof. split; [simpl; lia|]. unfold remaining. simpl. apply drop_0. Qed.

Lemma at_bytes_length c s : at_bytes c s → (cur_pos c + length s = cur_size c)%nat.
Proof.
  intros [Hp Hr]. apply (f_equal length) in Hr. unfold remaining, cur_size in *.
  rewrite length_drop in Hr. lia.
Qed.

Lemma at_bytes_advance c s rest :
  at_bytes c (s ++ rest) → at_bytes (advance c (length s)) rest.
Proof.
  intros Hc. pose proof (at_bytes_length _ _ Hc) as Hl. rewrite length_app in Hl.
  destruct Hc as [_ Hr]. split; [unfold cur_size in *; simpl; lia|].
  unfold remaining, advance in *. simpl. rewrite <- drop_drop, Hr. apply drop_app_length.
Qed.

Lemma advance_advance c m n : advance (advance c m) n = advance c (m + n).
Proof. unfold advance. simpl. f_equal. lia. Qed.

Lemma advance_0 c : advance c 0 = c.
Proof. destruct c. unfold advance. simpl. f_equal. lia. Qed.

Lemma reads_ret {A} (a : A) : reads (mret a) [] a.
Proof. intros c rest _. simpl. by rewrite advance_0. Qed.

Lemma reads_bind {A B} (r : reader A) (f : A → reader B) s1 s2 a b :
  reads r s1 a → reads (f a) s2 b → reads (r ≫= f) (s1 ++ s2) b.
Proof.
  intros H1 H2 c rest Hc. rewrite <- app_assoc in Hc. unfold mbind, reader_bind.
  rewrite (H1 c (s2 ++ rest)) by done. rewrite (H2 _ rest) by by apply at_bytes_advance.
  by rewrite advance_advance, length_app.
Qed.

(** Checks consume nothing. *)
Lemma reads_check {B} bad e (f : unit → reader B) s b :
  bad = false → reads (f tt) s b → reads (check bad e ≫= f) s b.
Proof. intros ->. change s with ([] ++ s). apply reads_bind, reads_ret. Qed.

Lemma reads_repeat {A B} (body : reader B) (enc : A → bytes) (dec : A → B) (l : list A) :
  (∀ x, x ∈ l → reads body (enc x) (dec x)) →
  reads (repeat_read (length l) body) (concat (enc <$> l)) (dec <$> l).
Proof.
  induction l as [|x l IH]; intros H; simpl; [apply reads_ret|].
  apply reads_bind with (a := dec x); [apply H; left|].
  rewrite <- (app_nil_r (concat _)). eapply reads_bind; [apply IH; intros; apply H; by right|].
  apply reads_ret.
Qed.

Section ReadsLemmas.
Context (underrun : exn).

Lemma reads_fetch {A} n m (f : bytes → A) s v :
  n = Z.of_nat (length s) → m = length s → (∀ rest, f (s ++ rest) = v) →
  reads (_ ← check_bounds underrun n; fetch f m) s v.
Proof.
  intros -> -> Hf c rest Hc. pose proof (at_bytes_length _ _ Hc) as Hl.
  rewrite length_app in Hl. unfold mbind, reader_bind, fetch, check_bounds.
  rewrite Z.gtb_ltb, (proj2 (Z.ltb_ge _ _)) by lia. destruct Hc as [_ Hc]. by rewrite Hc, Hf.
Qed.

Lemma reads_u8 b : reads (read_u8 underrun) [b] (u8 b).
Proof. by apply (reads_fetch 1 1). Qed.
Lemma reads_u16 v : is_u16 v → reads (read_u16 underrun) (write_u16_le v) v.
Proof. intros. apply (reads_fetch 2 2); auto with mdbxc. Qed.
Lemma reads_u32 v : is_u32 v → reads (read_u32 underrun) (write_u32_le v) v.
Proof. intros. apply (reads_fetch 4 4); auto with mdbxc. Qed.
Lemma reads_u64 v : is_u64 v → reads (read_u64 underrun) (write_u64_le v) v.
Proof. intros. apply (reads_fetch 8 8); auto with mdbxc. Qed.
Lemma reads_bytes n s : n = Z.of_nat (length s) → reads (read_bytes underrun n) s s.
Proof.
  intros ->. apply reads_fetch; rewrite ?Nat2Z.id; [done..|]. intros. apply take_app_length.
Qed.
End ReadsLemmas.

(** ** What a successful decoder consumed *)

Definition accepts {A} (r : reader A) (P : bytes → A → Prop) : Prop :=
  ∀ c s0 a c', at_bytes c s0 → r c = Ok (a, c') →
    ∃ s rest, s0 = s ++ rest ∧ c' = advance c (length s) ∧ P s a.

Lemma accepts_mono {A} (r : reader A) (P Q : bytes → A → Prop) :
  accepts r P → (∀ s a, P s a → Q s a) → accepts r Q.
Proof. intros HP HPQ c s0 a c' Hc Hr. destruct (HP c s0 a c' Hc Hr) as (s & rest & ?). naive_solver. Qed.

Lemma accepts_ret {A} (a : A) (R : bytes → A → Prop) : R [] a → accepts (mret a) R.
Proof. intros HR c s0 x c' Hc [= <- <-]. exists [], s0. by rewrite advance_0. Qed.

Lemma accepts_throw {A} e P : accepts (throw e : reader A) P.
Proof. done. Qed.

Lemma accepts_bind {A B} (r : reader A) (f : A → reader B) P (R : bytes → B → Prop) :
  accepts r P → (∀ s1 a, P s1 a → accepts (f a) (fun s2 b => R (s1 ++ s2) b)) →
  accepts (r ≫= f) R.
Proof.
  intros HP HQ c s0 b c' Hc Hr. unfold mbind, reader_bind in Hr.
  destruct (r c) as [[a c1]|e] eqn:E; [|done].
  destruct (HP c s0 a c1 Hc E) as (s1 & rest1 & -> & -> & H1).
  apply at_bytes_advance in Hc.
  destruct (HQ s1 a H1 _ _ _ _ Hc Hr) as (s2 & rest & -> & -> & H2).
  exists (s1 ++ s2), rest. by rewrite advance_advance, length_app, <- app_assoc.
Qed.

Lemma accepts_check {B} bad e (f : unit → reader B) (R : bytes → B → Prop) :
  (bad = false → accepts (f tt) R) → accepts (check bad e ≫= f) R.
Proof. destruct bad; intros H; [done|]. apply (H eq_refl). Qed.

Lemma accepts_repeat {A} n (body : reader A) (P : bytes → A → Prop) :
  accepts body P →
  accepts (repeat_read n body) (fun s l => length l = n ∧ ∃ ss, s = concat ss ∧ Forall2 P ss l).
Proof.
  intros HP. induction n as [|n IH]; simpl.
  - apply accepts_ret. split; [done|]. by exists [].
  - eapply accepts_bind; [exact HP|]. intros s1 x Hx.
    eapply accepts_bind; [exact IH|]. intros s2 xs (Hn & ss & -> & Hss).
    apply accepts_ret. split; [simpl; lia|]. exists (s1 :: ss). rewrite app_nil_r.
    split; [done|]. by constructor.
Qed.

Section AcceptsLemmas.
Context (underrun : exn).

Lemma accepts_fetch {A} n m (f : bytes → A) :
  n = Z.of_nat m →
  accepts (_ ← check_bounds underrun n; fetch f m)
    (fun s v => length s = m ∧ ∃ rest, v = f (s ++ rest)).
Proof.
  intros -> c s0 v c' Hc. pose proof (at_bytes_length _ _ Hc) as Hl.
  unfold mbind, reader_bind, check_bounds, fetch.
  destruct (_ >? _) eqn:E; [done|]. zbool. destruct Hc as [_ Hc]. intros [= <- <-].
  exists (take m s0), (drop m s0). rewrite take_drop, length_take.
  replace (m `min` length s0)%nat with m by lia. split_and!; [done..|].
  exists (drop m s0). by rewrite take_drop, Hc.
Qed.

Lemma accepts_u8 : accepts (read_u8 underrun) (fun s v => ∃ b, s = [b] ∧ v = u8 b).
Proof.
  eapply accepts_mono; [by apply accepts_fetch|]. intros s v [Hs [rest ->]].
  destruct s as [|b [|]]; try done. by exists b.
Qed.
Lemma accepts_u16 : accepts (read_u16 underrun) (fun s v => is_u16 v ∧ s = write_u16_le v).
Proof.
  eapply accepts_mono; [by apply accepts_fetch|]. intros s v [Hs [rest ->]].
  split; [auto with mdbxc|]. rewrite read_u16_le_val, write_u16_le_digits, <- Hs by done.
  by rewrite le_bytes_le_val.
Qed.
Lemma accepts_u32 : accepts (read_u32 underrun) (fun s v => is_u32 v ∧ s = write_u32_le v).
Proof.
  eapply accepts_mono; [by apply accepts_fetch|]. intros s v [Hs [rest ->]].
  split; [auto with mdbxc|]. rewrite read_u32_le_val, write_u32_le_digits, <- Hs by done.
  by rewrite le_bytes_le_val.
Qed.
Lemma accepts_u64 : accepts (read_u64 underrun) (fun s v => is_u64 v ∧ s = write_u64_le v).
Proof.
  eapply accepts_mono; [by apply accepts_fetch|]. intros s v [Hs [rest ->]].
  split; [auto with mdbxc|]. rewrite read_u64_le_val, write_u64_le_digits, <- Hs by done.
  by rewrite le_bytes_le_val.
Qed.
Lemma accepts_bytes n :
  0 ≤ n → accepts (read_bytes underrun n) (fun s v => s = v ∧ Z.of_nat (length v) = n).
Proof.
  intros Hn. eapply accepts_mono; [apply accepts_fetch; by rewrite Z2Nat.id|].
  intros s v [Hs [rest ->]]. rewrite <- Hs, take_app_length. split; [done|lia].
Qed.
End AcceptsLemmas.

#[export] Hint Resolve reads_ret reads_u8 reads_u16 reads_u32 reads_u64 reads_bytes
  accepts_u8 accepts_u16 accepts_u32 accepts_u64 accepts_bytes : mdbxc.
