(* ===== verification/SyncProtocol.v ===== *)
(** * Raw protocol data

    Models the data structures of
    [src/include/mdbx_containers/sync/protocol/{ChangeOp,ChangeBatch,CodecBounds,SyncCursor,codec_flags}.hpp]
    and of [src/include/mdbx_containers/sync/protocol.hpp]: change operations, batches,
    structural limits, the per-origin cursor, the chunks of a full snapshot
    ([protocol/FullSnapshotProtocol.hpp]) and the pull and push messages. *)
From S2P Require Import Prelude SyncCommon.
Open Scope Z_scope.

(** ** Flags *)

Definition BATCH_NONE : Z := 0.
Definition BATCH_COMPRESSED_ZSTD : Z := Z.shiftl 1 0.
Definition BATCH_HAS_MORE : Z := Z.shiftl 1 1.

Definition OP_NONE : Z := 0.
Definition OP_HAS_IDENTITY_KEY : Z := Z.shiftl 1 0.
Definition OP_HAS_REVISION_KEY : Z := Z.shiftl 1 1.
Definition OP_TOMBSTONE : Z := Z.shiftl 1 2.

(** ** Operations and batches *)

Inductive ChangeOpType : Type := Put | Delete | ClearTable.

#[export] Instance ChangeOpType_eq_dec : EqDecision ChangeOpType.
Proof. solve_decision. Defined.

(** The enumerator values. *)
Definition op_type_code (t : ChangeOpType) : Z :=
  match t with Put => 0 | Delete => 1 | ClearTable => 2 end.

Record ChangeOp : Type := {
  op_type : ChangeOpType;
  op_flags : Z;
  dbi_flags : Z;
  dbi_name : bytes;
  storage_key : bytes;
  value : bytes;
  identity_key : bytes;
  revision_key : bytes;
}.

Record ChangeBatch : Type := {
  version : Z;
  batch_flags : Z;
  origin_node_id : NodeId;
  seq_no : Z;
  time_unix_ns : Z;
  ops : list ChangeOp;
}.

#[export] Instance ChangeOp_eq_dec : EqDecision ChangeOp.
Proof. solve_decision. Defined.
#[export] Instance ChangeBatch_eq_dec : EqDecision ChangeBatch.
Proof. solve_decision. Defined.

(** The value ranges of the C++ field types. *)
Definition op_ok (op : ChangeOp) : Prop := is_u32 (op_flags op) ∧ is_u32 (dbi_flags op).
Definition batch_ok (b : ChangeBatch) : Prop :=
  is_u32 (version b) ∧ is_u32 (batch_flags b) ∧ node_ok (origin_node_id b) ∧
  is_u64 (seq_no b) ∧ is_u64 (time_unix_ns b) ∧ Forall op_ok (ops b).

#[export] Instance op_ok_dec op : Decision (op_ok op) := _.
#[export] Instance batch_ok_dec b : Decision (batch_ok b) := _.

(** ** Structural limits *)

Definition selective_replication_max_scope_id_len : Z := 256.
Definition selective_replication_max_manifest_entries : Z := 10000.

Record CodecBounds : Type := {
  max_ops_per_batch : Z;
  max_dbi_name_len : Z;
  max_storage_key_len : Z;
  max_value_len : Z;
  max_identity_key_len : Z;
  max_revision_key_len : Z;
  max_batch_total_bytes : Z;
  max_cursor_origins : Z;
  max_batches_per_message : Z;
  max_error_len : Z;
  max_logical_schema_id_len : Z;
  max_logical_delivery_frame_id_len : Z;
  max_selective_scope_id_len : Z;
  max_selective_manifest_entries : Z;
  max_transport_message_bytes : Z;
  max_snapshot_id_len : Z;
  max_snapshot_manifest_entries : Z;
  max_snapshot_chunk_bytes : Z;
}.

(** The member initializers. *)
Definition default_bounds : CodecBounds := {|
  max_ops_per_batch := 10000;
  max_dbi_name_len := 256;
  max_storage_key_len := 16 * 1024;
  max_value_len := 4 * 1024 * 1024;
  max_identity_key_len := 16 * 1024;
  max_revision_key_len := 16 * 1024;
  max_batch_total_bytes := 64 * 1024 * 1024;
  max_cursor_origins := 10000;
  max_batches_per_message := 10000;
  max_error_len := 16 * 1024;
  max_logical_schema_id_len := 16 * 1024;
  max_logical_delivery_frame_id_len := 16 * 1024;
  max_selective_scope_id_len := selective_replication_max_scope_id_len;
  max_selective_manifest_entries := selective_replication_max_manifest_entries;
  max_transport_message_bytes := 128 * 1024 * 1024;
  max_snapshot_id_len := 256;
  max_snapshot_manifest_entries := 10000;
  max_snapshot_chunk_bytes := 128 * 1024 * 1024;
|}.

(** ** Cursors *)

(** [std::map<NodeId, std::uint64_t>]. *)
Record SyncCursor : Type := { last_seq_by_origin : gmap NodeId Z }.

Definition empty_cursor : SyncCursor := {| last_seq_by_origin := ∅ |}.

Definition last_seq_for (c : SyncCursor) (origin : NodeId) : Z :=
  match last_seq_by_origin c !! origin with None => 0 | Some s => s end.

Definition is_empty_for (c : SyncCursor) (origin : NodeId) : bool :=
  bool_decide (last_seq_by_origin c !! origin = None).

Definition cursor_set (c : SyncCursor) (origin : NodeId) (s : Z) : SyncCursor :=
  {| last_seq_by_origin := <[origin := s]> (last_seq_by_origin c) |}.

(** ** Full snapshots *)

Record FullSnapshotManifestEntry : Type := { entry_dbi_name : bytes; entry_dbi_flags : Z }.

Inductive FullSnapshotScope : Type := ManifestOnly | CompleteUserDatabase.

Definition snapshot_scope_code (s : FullSnapshotScope) : Z :=
  match s with ManifestOnly => 0 | CompleteUserDatabase => 1 end.

Record FullSnapshotChunk : Type := {
  source_node_id : NodeId;
  source_db_uuid : DbId;
  snapshot_id : bytes;
  source_tail : SyncCursor;
  chunk_index : Z;
  chunk_has_more : bool;
  replacement_scope : FullSnapshotScope;
  continuation : bytes;
  manifest_version : Z;
  chunk_manifest : list FullSnapshotManifestEntry;
  chunk_batch : ChangeBatch;
}.

(** The member initializers. *)
Definition default_batch : ChangeBatch := {|
  version := 1; batch_flags := BATCH_NONE; origin_node_id := make_zero_node; seq_no := 0; time_unix_ns := 0; ops := [];
|}.

Definition default_chunk : FullSnapshotChunk := {|
  source_node_id := make_zero_node; source_db_uuid := make_zero_node; snapshot_id := []; source_tail := empty_cursor;
  chunk_index := 0; chunk_has_more := false; replacement_scope := ManifestOnly; continuation := []; manifest_version := 1;
  chunk_manifest := []; chunk_batch := default_batch;
|}.

(** ** Pull and push *)

Inductive SyncResponseErrorCode : Type :=
  | ErrNone | DbIdMismatch | UnsupportedFullSnapshot | ApplyConflict | SnapshotRequired
  | BatchTooLarge | SnapshotNotConfigured | SnapshotSessionInvalid | SnapshotSessionBusy
  | SnapshotLogicalStateUnsupported.

#[export] Instance SyncResponseErrorCode_eq_dec : EqDecision SyncResponseErrorCode.
Proof. solve_decision. Defined.

(** The enumerator values. *)
Definition error_code_value (code : SyncResponseErrorCode) : Z :=
  match code with
  | ErrNone => 0 | DbIdMismatch => 1 | UnsupportedFullSnapshot => 2 | ApplyConflict => 3 | SnapshotRequired => 4
  | BatchTooLarge => 5 | SnapshotNotConfigured => 6 | SnapshotSessionInvalid => 7 | SnapshotSessionBusy => 8
  | SnapshotLogicalStateUnsupported => 9
  end.

Definition sync_response_error_code_name (code : SyncResponseErrorCode) : string :=
  match code with
  | ErrNone => "none"
  | DbIdMismatch => "db_id_mismatch"
  | UnsupportedFullSnapshot => "unsupported_full_snapshot"
  | ApplyConflict => "apply_conflict"
  | SnapshotRequired => "snapshot_required"
  | BatchTooLarge => "batch_too_large"
  | SnapshotNotConfigured => "snapshot_not_configured"
  | SnapshotSessionInvalid => "snapshot_session_invalid"
  | SnapshotSessionBusy => "snapshot_session_busy"
  | SnapshotLogicalStateUnsupported => "snapshot_logical_state_unsupported"
  end.

(** Without the cancellation token, which is state of the local call. *)
Record PullRequest : Type := {
  pull_requester : NodeId;
  pull_db_id : DbId;
  have : SyncCursor;
  max_batches : Z;
  max_bytes : Z;
  request_full_snapshot : bool;
  full_snapshot_id : bytes;
  full_snapshot_continuation : bytes;
  max_single_batch_bytes : Z;
}.

Record PullResponse : Type := {
  remote_have : SyncCursor;
  remote_tail : SyncCursor;
  remote_tail_known : bool;
  batches : list ChangeBatch;
  has_more : bool;
  is_full_snapshot : bool;
  snapshot_chunk : FullSnapshotChunk;
  pull_ok : bool;
  pull_error : string;
  pull_error_code : SyncResponseErrorCode;
  pull_error_retryable : bool;
}.

Definition default_pull_response : PullResponse := {|
  remote_have := empty_cursor; remote_tail := empty_cursor; remote_tail_known := false;
  batches := []; has_more := false; is_full_snapshot := false; snapshot_chunk := default_chunk;
  pull_ok := true; pull_error := "";
  pull_error_code := ErrNone; pull_error_retryable := false;
|}.

Record PushRequest : Type := {
  sender : NodeId;
  push_db_id : DbId;
  push_batches : list ChangeBatch;
}.

Record PushResponse : Type := {
  receiver_have : SyncCursor;
  push_ok : bool;
  push_error : string;
  push_error_code : SyncResponseErrorCode;
  push_error_retryable : bool;
}.
