(* ===== verification/ChangeBatchCodec.v ===== *)
(** * The change-batch codec

    Models [src/include/mdbx_containers/sync/protocol/ChangeBatchCodec.hpp]: the stable
    little-endian encoding of a [ChangeBatch], its strict and streaming decoders and
    the structural limits.  The theorems show that decoding inverts encoding (alone
    and as a prefix of a stream), that a decoded batch respects the limits it was
    decoded under, and that every decoded batch can be encoded again and decodes to
    itself. *)
From S2P Require Import Prelude SyncCommon Wire SyncProtocol.
Open Scope Z_scope.

Definition magic : bytes := bytes_of_string "MDBXCSYN".
Definition magic_size : Z := 8.
Definition codec_version : Z := 1.
Definition batch_version : Z := 1.

Definition known_batch_mask : Z := Z.lor BATCH_COMPRESSED_ZSTD BATCH_HAS_MORE.
Definition known_op_mask : Z :=
  Z.lor (Z.lor OP_HAS_IDENTITY_KEY OP_HAS_REVISION_KEY) OP_TOMBSTONE.

(** [(flags & ~mask) != 0]. *)
Definition unknown_bits (flags mask : Z) : bool := has_flag flags (bit_not 32 mask).

(** [static_cast<std::uint32_t>(size)]. *)
Definition u32_size (b : bytes) : Z := Z.of_nat (length b) mod 2 ^ 32.

Definition absent_value : Z := 0xFFFFFFFF.

(** ** Encoder *)

Definition validate_op_bounds (bounds : CodecBounds) (op : ChangeOp) : result unit :=
  _ ← throw_if (size_of (dbi_name op) >? max_dbi_name_len bounds)
        (length_error "dbi_name_len exceeds max_dbi_name_len");
  _ ← throw_if (size_of (storage_key op) >? max_storage_key_len bounds)
        (length_error "storage_key_len exceeds max_storage_key_len");
  _ ← throw_if (size_of (value op) >? max_value_len bounds)
        (length_error "value_len exceeds max_value_len");
  _ ← throw_if (size_of (identity_key op) >? max_identity_key_len bounds)
        (length_error "identity_key_len exceeds max_identity_key_len");
  throw_if (size_of (revision_key op) >? max_revision_key_len bounds)
    (length_error "revision_key_len exceeds max_revision_key_len").

Fixpoint for_each {A} (f : A → result unit) (l : list A) : result unit :=
  match l with
  | [] => Ok tt
  | x :: l' => _ ← f x; for_each f l'
  end.

Definition validate_bounds (batch : ChangeBatch) (bounds : CodecBounds) : result unit :=
  _ ← throw_if (size_of (ops batch) >? max_ops_per_batch bounds)
        (length_error "ops_count exceeds max_ops_per_batch");
  for_each (validate_op_bounds bounds) (ops batch).

Definition append_field (out field : bytes) : bytes := append_u32_le out (u32_size field) ++ field.

Definition encode_op (out : bytes) (op : ChangeOp) : result bytes :=
  _ ← throw_if (unknown_bits (op_flags op) known_op_mask)
        (logic_error "ChangeOp has unknown mandatory flags");
  _ ← throw_if (has_flag (op_flags op) OP_HAS_IDENTITY_KEY && bool_decide (identity_key op = []))
        (logic_error "OP_HAS_IDENTITY_KEY set with empty identity_key");
  _ ← throw_if (has_flag (op_flags op) OP_HAS_REVISION_KEY && bool_decide (revision_key op = []))
        (logic_error "OP_HAS_REVISION_KEY set with empty revision_key");
  _ ← throw_if (has_flag (op_flags op) OP_TOMBSTONE && negb (bool_decide (value op = [])))
        (logic_error "OP_TOMBSTONE set with non-empty value");
  let out := out ++ [byte_of (op_type_code (op_type op))] in
  let out := append_u32_le out (op_flags op) in
  let out := append_u32_le out (dbi_flags op) in
  let out := append_field out (dbi_name op) in
  let out := append_field out (storage_key op) in
  let out :=
    if bool_decide (value op = []) then append_u32_le out absent_value
    else append_field out (value op) in
  let out :=
    if has_flag (op_flags op) OP_HAS_IDENTITY_KEY then append_field out (identity_key op)
    else out in
  let out :=
    if has_flag (op_flags op) OP_HAS_REVISION_KEY then append_field out (revision_key op)
    else out in
  Ok out.

Fixpoint encode_ops (out : bytes) (l : list ChangeOp) : result bytes :=
  match l with
  | [] => Ok out
  | op :: l' => out ← encode_op out op; encode_ops out l'
  end.

Definition encode (batch : ChangeBatch) (bounds : option CodecBounds) : result bytes :=
  _ ← match bounds with Some b => validate_bounds batch b | None => Ok tt end;
  _ ← throw_if (negb (version batch =? batch_version))
        (logic_error "Unsupported ChangeBatch::version");
  _ ← throw_if (has_flag (batch_flags batch) BATCH_COMPRESSED_ZSTD)
        (logic_error "BATCH_COMPRESSED_ZSTD is not supported in v0.1");
  _ ← throw_if (unknown_bits (batch_flags batch) known_batch_mask)
        (logic_error "ChangeBatch has unknown mandatory batch flags");
  let out := magic in
  let out := append_u16_le out codec_version in
  let out := append_u32_le out batch_version in
  let out := append_u32_le out (batch_flags batch) in
  let out := out ++ origin_node_id batch in
  let out := append_u64_le out (seq_no batch) in
  let out := append_u64_le out (time_unix_ns batch) in
  let out := append_u32_le out (Z.of_nat (length (ops batch)) mod 2 ^ 32) in
  out ← encode_ops out (ops batch);
  _ ← match bounds with
      | Some b => throw_if (size_of out >? max_batch_total_bytes b)
                    (length_error "encoded change batch exceeds max_batch_total_bytes")
      | None => Ok tt
      end;
  Ok out.

(** ** Decoder *)

Definition underrun : exn := runtime_error "Codec buffer underrun".

(** [if (bounds != nullptr && n > bounds->limit) throw]. *)
Definition check_limit (bounds : option CodecBounds) (limit : CodecBounds → Z) (n : Z)
    (what : string) : reader unit :=
  match bounds with
  | Some b => check (n >? limit b) (length_error what)
  | None => mret tt
  end.

Definition read_field (bounds : option CodecBounds) (limit : CodecBounds → Z) (what : string)
    : reader bytes :=
  len ← read_u32 underrun;
  _ ← check_limit bounds limit len what;
  read_bytes underrun len.

Definition check_magic : reader unit :=
  m ← read_bytes underrun magic_size;
  check (negb (bool_decide (m = magic))) (runtime_error "Codec magic mismatch").

Definition op_type_of_code (code : Z) : ChangeOpType :=
  if code =? 0 then Put else if code =? 1 then Delete else ClearTable.

Definition read_value (bounds : option CodecBounds) : reader bytes :=
  value_len ← read_u32 underrun;
  if value_len =? absent_value then mret []
  else
    _ ← check_limit bounds max_value_len value_len "value_len exceeds max_value_len";
    read_bytes underrun value_len.

Definition decode_op (bounds : option CodecBounds) : reader ChangeOp :=
  code ← read_u8 underrun;
  _ ← check (code >? op_type_code ClearTable) (runtime_error "Unknown ChangeOpType");
  flags ← read_u32 underrun;
  _ ← check (unknown_bits flags known_op_mask) (runtime_error "Unknown mandatory op flag bits set");
  dflags ← read_u32 underrun;
  name ← read_field bounds max_dbi_name_len "dbi_name_len exceeds max_dbi_name_len";
  skey ← read_field bounds max_storage_key_len "storage_key_len exceeds max_storage_key_len";
  val ← read_value bounds;
  id ← (if has_flag flags OP_HAS_IDENTITY_KEY then
          read_field bounds max_identity_key_len "identity_key_len exceeds max_identity_key_len"
        else mret []);
  rv ← (if has_flag flags OP_HAS_REVISION_KEY then
          read_field bounds max_revision_key_len "revision_key_len exceeds max_revision_key_len"
        else mret []);
  _ ← check (has_flag flags OP_TOMBSTONE && negb (bool_decide (val = [])))
        (runtime_error "OP_TOMBSTONE with non-empty value");
  _ ← check (has_flag flags OP_HAS_IDENTITY_KEY && bool_decide (id = []))
        (runtime_error "OP_HAS_IDENTITY_KEY with empty identity_key");
  _ ← check (has_flag flags OP_HAS_REVISION_KEY && bool_decide (rv = []))
        (runtime_error "OP_HAS_REVISION_KEY with empty revision_key");
  mret {| op_type := op_type_of_code code; op_flags := flags; dbi_flags := dflags;
          dbi_name := name; storage_key := skey; value := val; identity_key := id;
          revision_key := rv |}.

Definition decode_batch (bounds : option CodecBounds) : reader ChangeBatch :=
  _ ← check_magic;
  cv ← read_u16 underrun;
  _ ← check (negb (cv =? codec_version)) (runtime_error "Unsupported codec_version");
  bv ← read_u32 underrun;
  _ ← check (negb (bv =? batch_version)) (runtime_error "Unsupported batch_version");
  flags ← read_u32 underrun;
  _ ← check (has_flag flags BATCH_COMPRESSED_ZSTD)
        (runtime_error "BATCH_COMPRESSED_ZSTD is not supported in v0.1");
  _ ← check (unknown_bits flags known_batch_mask)
        (runtime_error "Unknown mandatory batch flag bits set");
  origin ← read_bytes underrun 16;
  seq ← read_u64 underrun;
  time ← read_u64 underrun;
  ops_count ← read_u32 underrun;
  _ ← check_limit bounds max_ops_per_batch ops_count "ops_count exceeds max_ops_per_batch";
  l ← repeat_read (Z.to_nat ops_count) (decode_op bounds);
  mret {| version := bv; batch_flags := flags; origin_node_id := origin; seq_no := seq;
          time_unix_ns := time; ops := l |}.

(** [bytes_read] is [true] when the caller passes an output pointer; the number of
    bytes consumed is returned in every case. *)
Definition decode (data : bytes) (bytes_read : bool) (bounds : option CodecBounds)
    : result (ChangeBatch * nat) :=
  '(batch, cur) ← decode_batch bounds (make_cursor data);
  _ ← match bounds with
      | Some b => throw_if (Z.of_nat (cur_pos cur) >? max_batch_total_bytes b)
                    (length_error "total batch bytes exceeds max_batch_total_bytes")
      | None => Ok tt
      end;
  if bytes_read then Ok (batch, cur_pos cur)
  else if negb (cur_pos cur =? cur_size cur)%nat then
    Throw (runtime_error "Trailing bytes after ChangeBatch")
  else Ok (batch, cur_pos cur).

Definition decode_exact (data : bytes) (bounds : option CodecBounds) : result ChangeBatch :=
  '(batch, consumed) ← decode data true bounds;
  if negb (consumed =? length data)%nat then
    Throw (runtime_error "Trailing bytes after ChangeBatch")
  else Ok batch.

(** ** The encoding, as bytes *)

Definition field_bytes (f : bytes) : bytes := write_u32_le (u32_size f) ++ f.

Definition value_bytes (v : bytes) : bytes :=
  if bool_decide (v = []) then write_u32_le absent_value else field_bytes v.

Definition op_bytes (op : ChangeOp) : bytes :=
  [byte_of (op_type_code (op_type op))] ++ write_u32_le (op_flags op) ++
  write_u32_le (dbi_flags op) ++ field_bytes (dbi_name op) ++ field_bytes (storage_key op) ++
  value_bytes (value op) ++
  (if has_flag (op_flags op) OP_HAS_IDENTITY_KEY then field_bytes (identity_key op) else []) ++
  (if has_flag (op_flags op) OP_HAS_REVISION_KEY then field_bytes (revision_key op) else []).

Definition header_bytes (b : ChangeBatch) : bytes :=
  magic ++ write_u16_le codec_version ++ write_u32_le batch_version ++
  write_u32_le (batch_flags b) ++ origin_node_id b ++ write_u64_le (seq_no b) ++
  write_u64_le (time_unix_ns b) ++ write_u32_le (Z.of_nat (length (ops b)) mod 2 ^ 32).

Definition batch_bytes (b : ChangeBatch) : bytes :=
  header_bytes b ++ concat (op_bytes <$> ops b).

(** The checks of the encoder on one operation and on the header. *)
Definition op_valid (op : ChangeOp) : Prop :=
  unknown_bits (op_flags op) known_op_mask = false ∧
  (has_flag (op_flags op) OP_HAS_IDENTITY_KEY = true → identity_key op ≠ []) ∧
  (has_flag (op_flags op) OP_HAS_REVISION_KEY = true → revision_key op ≠ []) ∧
  (has_flag (op_flags op) OP_TOMBSTONE = true → value op = []).

Definition header_valid (b : ChangeBatch) : Prop :=
  version b = batch_version ∧ has_flag (batch_flags b) BATCH_COMPRESSED_ZSTD = false ∧
  unknown_bits (batch_flags b) known_batch_mask = false.

Definition within_op (bounds : option CodecBounds) (op : ChangeOp) : Prop :=
  match bounds with Some b => validate_op_bounds b op = Ok tt | None => True end.
Definition within (bounds : option CodecBounds) (b : ChangeBatch) : Prop :=
  match bounds with Some bd => validate_bounds b bd = Ok tt | None => True end.

Definition total_within (bounds : option CodecBounds) (n : nat) : Prop :=
  match bounds with Some b => Z.of_nat n ≤ max_batch_total_bytes b | None => True end.

Lemma flag_guard flag c : flag && c = false ↔ (flag = true → c = false).
Proof. destruct flag, c; naive_solver. Qed.

Lemma encode_op_Ok out op out' :
  encode_op out op = Ok out' ↔ op_valid op ∧ out' = out ++ op_bytes op.
Proof.
  assert (∀ o f, append_field o f = o ++ field_bytes f) as Hf.
  { intros. unfold append_field, append_u32_le, field_bytes. by rewrite app_assoc. }
  unfold encode_op, op_valid. split.
  - intros H. ok_inv. rewrite !flag_guard in *. split.
    + split_and!; [done|..]; intros Hfl; repeat match goal with
        | H : _ = true → _ |- _ => specialize (H Hfl) || clear H end; zbool; try done.
    + unfold op_bytes, value_bytes, append_u32_le. rewrite !Hf.
      case_bool_decide; destruct (has_flag _ OP_HAS_IDENTITY_KEY), (has_flag _ OP_HAS_REVISION_KEY);
        by rewrite ?app_nil_r, <- ?app_assoc.
  - intros [(Hu & Hi & Hr & Ht) ->]. rewrite Hu. simpl.
    rewrite (proj2 (flag_guard _ (bool_decide (identity_key op = []))))
      by (intros E; apply bool_decide_false; auto).
    rewrite (proj2 (flag_guard _ (bool_decide (revision_key op = []))))
      by (intros E; apply bool_decide_false; auto).
    rewrite (proj2 (flag_guard _ (negb (bool_decide (value op = [])))))
      by (intros E; rewrite bool_decide_true by auto; done). cbn [throw_if mbind result_bind].
    f_equal. unfold op_bytes, value_bytes, append_u32_le. rewrite !Hf.
    case_bool_decide; destruct (has_flag _ OP_HAS_IDENTITY_KEY), (has_flag _ OP_HAS_REVISION_KEY);
      by rewrite ?app_nil_r, <- ?app_assoc.
Qed.

Lemma encode_ops_Ok out l out' :
  encode_ops out l = Ok out' ↔ Forall op_valid l ∧ out' = out ++ concat (op_bytes <$> l).
Proof.
  revert out out'. induction l as [|op l IH]; intros out out';
    rewrite ?fmap_cons; cbn [encode_ops concat fmap list_fmap].
  - rewrite app_nil_r. naive_solver.
  - rewrite Forall_cons. split.
    + intros H. apply result_bind_Ok in H as (o & [Hv ->]%encode_op_Ok & [Hl ->]%IH).
      by rewrite <- app_assoc.
    + intros [[Hv Hl] ->]. rewrite (proj2 (encode_op_Ok _ _ _) (conj Hv eq_refl)).
      cbn [mbind result_bind]. apply IH. by rewrite app_assoc.
Qed.

Lemma header_append b l :
  encode_ops (append_u32_le (append_u64_le (append_u64_le (append_u32_le
    (append_u32_le (append_u16_le magic codec_version) batch_version) (batch_flags b) ++
      origin_node_id b) (seq_no b)) (time_unix_ns b)) (Z.of_nat (length (ops b)) mod 2 ^ 32)) l =
  encode_ops (header_bytes b) l.
Proof.
  f_equal. unfold header_bytes, append_u16_le, append_u32_le, append_u64_le.
  by rewrite <- !app_assoc.
Qed.

Lemma result_unit_tt (r : result unit) : (∃ u, r = Ok u) ↔ r = Ok tt.
Proof. split; [intros [[] ->]; done|eauto]. Qed.

Lemma encode_Ok b bounds bs :
  encode b bounds = Ok bs ↔
  within bounds b ∧ header_valid b ∧ Forall op_valid (ops b) ∧ bs = batch_bytes b ∧
  total_within bounds (length bs).
Proof.
  unfold encode, header_valid. cbv zeta. rewrite header_append. split.
  - intros H. apply result_bind_Ok in H as ([] & Hw & H).
    apply result_bind_Ok in H as ([] & Hv%throw_if_Ok & H).
    apply result_bind_Ok in H as ([] & Hz%throw_if_Ok & H).
    apply result_bind_Ok in H as ([] & Hu%throw_if_Ok & H).
    apply result_bind_Ok in H as (out & [Ho ->]%encode_ops_Ok & H).
    apply result_bind_Ok in H as ([] & Ht & [= <-]). zbool.
    destruct bounds; [apply throw_if_Ok in Ht; zbool|]; done.
  - intros (Hw & (Hv & Hz & Hu) & Ho & -> & Ht).
    rewrite Hv, Hz, Hu, Z.eqb_refl. cbn [negb throw_if].
    replace (match bounds with Some _ => _ | None => _ end) with (Ok tt : result unit)
      by by destruct bounds.
    cbn [mbind result_bind].
    rewrite (proj2 (encode_ops_Ok _ _ _) (conj Ho eq_refl)). cbn [mbind result_bind].
    destruct bounds as [bd|]; [|done]. unfold total_within, batch_bytes, size_of in *.
    by rewrite Z.gtb_ltb, (proj2 (Z.ltb_ge _ _)) by lia.
Qed.

(** ** Decoding an encoding *)

(** Sizes whose 32-bit prefix is exact; a value of 2^32 - 1 bytes would be read as an
    absent one. *)
Definition op_fits (op : ChangeOp) : Prop :=
  size_of (dbi_name op) < 2 ^ 32 ∧ size_of (storage_key op) < 2 ^ 32 ∧
  size_of (value op) < 2 ^ 32 - 1 ∧ size_of (identity_key op) < 2 ^ 32 ∧
  size_of (revision_key op) < 2 ^ 32.

Definition batch_fits (b : ChangeBatch) : Prop :=
  size_of (ops b) < 2 ^ 32 ∧ Forall op_fits (ops b).

(** What the wire keeps of an operation: a key whose flag is clear is not sent. *)
Definition canonical_op (op : ChangeOp) : ChangeOp := {|
  op_type := op_type op; op_flags := op_flags op; dbi_flags := dbi_flags op;
  dbi_name := dbi_name op; storage_key := storage_key op; value := value op;
  identity_key := if has_flag (op_flags op) OP_HAS_IDENTITY_KEY then identity_key op else [];
  revision_key := if has_flag (op_flags op) OP_HAS_REVISION_KEY then revision_key op else [];
|}.

Definition canonical_batch (b : ChangeBatch) : ChangeBatch := {|
  version := version b; batch_flags := batch_flags b; origin_node_id := origin_node_id b;
  seq_no := seq_no b; time_unix_ns := time_unix_ns b; ops := canonical_op <$> ops b;
|}.

Lemma u32_size_exact f : size_of f < 2 ^ 32 → u32_size f = size_of f ∧ is_u32 (size_of f).
Proof. unfold u32_size, size_of, u_range. intros. rewrite Z.mod_small by lia. lia. Qed.

Definition limit_ok (bounds : option CodecBounds) (limit : CodecBounds → Z) (n : Z) : Prop :=
  match bounds with Some b => n ≤ limit b | None => True end.

Lemma reads_limit {B} bounds limit n what (k : unit → reader B) s b :
  limit_ok bounds limit n → reads (k tt) s b → reads (check_limit bounds limit n what ≫= k) s b.
Proof.
  intros Hl Hk. destruct bounds as [bd|]; simpl in *.
  - apply reads_check; [|done]. rewrite Z.gtb_ltb. by apply Z.ltb_ge.
  - change s with ([] ++ s). eapply reads_bind; [apply reads_ret|done].
Qed.

Lemma reads_field bounds limit what f :
  size_of f < 2 ^ 32 → limit_ok bounds limit (size_of f) →
  reads (read_field bounds limit what) (field_bytes f) f.
Proof.
  intros [Hs Hu]%u32_size_exact Hl. unfold read_field, field_bytes. rewrite Hs.
  eapply reads_bind; [by apply reads_u32|]. apply reads_limit; [done|]. by apply reads_bytes.
Qed.

Lemma reads_value bounds v :
  size_of v < 2 ^ 32 - 1 → limit_ok bounds max_value_len (size_of v) →
  reads (read_value bounds) (value_bytes v) v.
Proof.
  intros Hv Hl. unfold read_value, value_bytes. case_bool_decide as E.
  - subst v. rewrite <- (app_nil_r (write_u32_le _)).
    eapply reads_bind; [apply reads_u32; done|]. apply reads_ret.
  - unfold field_bytes. destruct (u32_size_exact v) as [Hs Hu]; [lia|]. rewrite Hs.
    eapply reads_bind; [by apply reads_u32|].
    rewrite (proj2 (Z.eqb_neq _ _)) by (unfold absent_value; lia).
    apply reads_limit; [done|]. by apply reads_bytes.
Qed.

Lemma reads_optional_field bounds limit what flag f :
  (flag = true → size_of f < 2 ^ 32 ∧ limit_ok bounds limit (size_of f)) →
  reads (if flag : bool then read_field bounds limit what else mret [])
    (if flag then field_bytes f else []) (if flag then f else []).
Proof.
  destruct flag; intros H; [|apply reads_ret]. destruct H; [done|]. by apply reads_field.
Qed.

Lemma validate_op_limits bd op :
  validate_op_bounds bd op = Ok tt ↔
  size_of (dbi_name op) ≤ max_dbi_name_len bd ∧
  size_of (storage_key op) ≤ max_storage_key_len bd ∧
  size_of (value op) ≤ max_value_len bd ∧
  size_of (identity_key op) ≤ max_identity_key_len bd ∧
  size_of (revision_key op) ≤ max_revision_key_len bd.
Proof.
  unfold validate_op_bounds. split.
  - intros H. ok_inv. zbool. done.
  - intros (H1 & H2 & H3 & H4 & H5).
    do 5 rewrite Z.gtb_ltb, (proj2 (Z.ltb_ge _ _)) by done. done.
Qed.

Lemma within_op_limits bounds op :
  within_op bounds op ↔
  limit_ok bounds max_dbi_name_len (size_of (dbi_name op)) ∧
  limit_ok bounds max_storage_key_len (size_of (storage_key op)) ∧
  limit_ok bounds max_value_len (size_of (value op)) ∧
  limit_ok bounds max_identity_key_len (size_of (identity_key op)) ∧
  limit_ok bounds max_revision_key_len (size_of (revision_key op)).
Proof. destruct bounds as [bd|]; simpl; [apply validate_op_limits|tauto]. Qed.

Lemma for_each_Ok {A} (f : A → result unit) l :
  for_each f l = Ok tt ↔ Forall (fun x => f x = Ok tt) l.
Proof.
  induction l as [|x l IH]; simpl; [by split|]. rewrite Forall_cons, <- IH.
  destruct (f x) as [[]|]; simpl; naive_solver.
Qed.

Lemma within_limits bounds b :
  within bounds b ↔
  limit_ok bounds max_ops_per_batch (size_of (ops b)) ∧ Forall (within_op bounds) (ops b).
Proof.
  destruct bounds as [bd|]; simpl.
  - unfold validate_bounds, within_op. pose proof (for_each_Ok (validate_op_bounds bd) (ops b)).
    unfold throw_if. rewrite Z.gtb_ltb.
    destruct (Z.ltb_spec (max_ops_per_batch bd) (size_of (ops b))); simpl; naive_solver lia.
  - split; [|done]. intros _. split; [done|]. by apply Forall_true.
Qed.

Lemma op_type_code_roundtrip t :
  op_type_of_code (u8 (byte_of (op_type_code t))) = t ∧
  (u8 (byte_of (op_type_code t)) >? op_type_code ClearTable) = false.
Proof. by destruct t. Qed.

Lemma reads_op bounds op :
  op_ok op → op_valid op → op_fits op → within_op bounds op →
  reads (decode_op bounds) (op_bytes op) (canonical_op op).
Proof.
  intros [Hfl Hdf] (Hu & Hi & Hr & Ht) (F1 & F2 & F3 & F4 & F5)
    (L1 & L2 & L3 & L4 & L5)%within_op_limits.
  destruct (op_type_code_roundtrip (op_type op)) as [Hcode Hle].
  unfold decode_op, op_bytes.
  eapply reads_bind; [apply reads_u8|]. apply reads_check; [done|].
  eapply reads_bind; [by apply reads_u32|]. apply reads_check; [done|].
  eapply reads_bind; [by apply reads_u32|].
  eapply reads_bind; [by apply reads_field|]. eapply reads_bind; [by apply reads_field|].
  eapply reads_bind; [by apply reads_value|].
  eapply reads_bind; [by apply reads_optional_field|].
  rewrite <- (app_nil_r (if has_flag _ OP_HAS_REVISION_KEY then _ else _)).
  eapply reads_bind; [by apply reads_optional_field|].
  rewrite Hcode.
  do 3 (apply reads_check; [apply flag_guard; intros Hf; rewrite ?Hf;
    first [by rewrite bool_decide_true by auto | by rewrite bool_decide_false by auto]|]).
  apply reads_ret.
Qed.

Lemma reads_magic : reads check_magic magic tt.
Proof.
  unfold check_magic. rewrite <- (app_nil_r magic) at 1.
  eapply reads_bind; [by apply reads_bytes|].
  rewrite bool_decide_true by done. apply reads_ret.
Qed.

Lemma reads_batch bounds b :
  batch_ok b → header_valid b → batch_fits b → within bounds b → Forall op_valid (ops b) →
  reads (decode_batch bounds) (batch_bytes b) (canonical_batch b).
Proof.
  intros (Hv & Hf & Hn & Hs & Htm & Hops) (Hver & Hz & Hu) [Hc Hfits]
    [Hlim Hwithin]%within_limits Hvalid.
  unfold decode_batch, batch_bytes, header_bytes. rewrite <- !app_assoc.
  unfold size_of in Hc. rewrite Z.mod_small by lia. rewrite Forall_forall in *.
  eapply reads_bind; [apply reads_magic|].
  eapply reads_bind; [by apply reads_u16|]. apply reads_check; [done|].
  eapply reads_bind; [by apply reads_u32|]. apply reads_check; [done|].
  eapply reads_bind; [by apply reads_u32|]. do 2 (apply reads_check; [done|]).
  eapply reads_bind; [apply reads_bytes; by rewrite Hn|].
  do 2 (eapply reads_bind; [by apply reads_u64|]).
  eapply reads_bind; [apply reads_u32; unfold u_range; lia|].
  apply reads_limit; [done|]. rewrite Nat2Z.id, <- (app_nil_r (concat _)).
  eapply reads_bind.
  - apply (reads_repeat _ op_bytes canonical_op). intros op Hop. apply reads_op; auto.
  - unfold canonical_batch. rewrite Hver. apply reads_ret.
Qed.

(** ** What a decoded batch satisfies *)

Definition op_decoded (bounds : option CodecBounds) (op : ChangeOp) : Prop :=
  op_ok op ∧ op_valid op ∧ op_fits op ∧ within_op bounds op ∧ canonical_op op = op.

Definition batch_decoded (bounds : option CodecBounds) (b : ChangeBatch) : Prop :=
  batch_ok b ∧ header_valid b ∧ batch_fits b ∧ Forall op_valid (ops b) ∧ within bounds b ∧
  canonical_batch b = b.

Lemma accepts_limit {B} bounds limit n what (k : unit → reader B) (R : bytes → B → Prop) :
  (limit_ok bounds limit n → accepts (k tt) R) →
  accepts (check_limit bounds limit n what ≫= k) R.
Proof.
  destruct bounds as [bd|]; simpl; intros H; [|by apply H].
  apply accepts_check. intros ?. zbool. by apply H.
Qed.

Definition field_decoded bounds limit (f : bytes) : Prop :=
  size_of f < 2 ^ 32 ∧ limit_ok bounds limit (size_of f).

Lemma accepts_field bounds limit what :
  accepts (read_field bounds limit what)
    (fun s f => s = field_bytes f ∧ field_decoded bounds limit f).
Proof.
  unfold read_field, field_decoded. eapply accepts_bind; [apply accepts_u32|].
  intros s1 len [Hlen ->]. apply accepts_limit. intros Hl.
  eapply accepts_mono; [apply accepts_bytes; apply Hlen|]. intros s f [-> Hf].
  unfold field_bytes, u32_size, size_of, u_range in *. rewrite Hf, Z.mod_small by lia.
  split_and!; [done|lia|done].
Qed.

Lemma accepts_value bounds :
  accepts (read_value bounds)
    (fun s v => (s = value_bytes v ∨ v = [] ∧ s = write_u32_le 0) ∧ size_of v < 2 ^ 32 - 1 ∧
       (v = [] ∨ limit_ok bounds max_value_len (size_of v))).
Proof.
  unfold read_value. eapply accepts_bind; [apply accepts_u32|].
  intros s1 len [Hlen ->]. destruct (Z.eqb_spec len absent_value) as [->|Hne].
  - apply accepts_ret. rewrite app_nil_r. split_and!; [by left|done|by left].
  - apply accepts_limit. intros Hl.
    eapply accepts_mono; [apply accepts_bytes; apply Hlen|]. intros s v [-> Hv].
    unfold value_bytes, field_bytes, u32_size, size_of, u_range, absent_value in *.
    rewrite Hv, Z.mod_small by lia. split_and!; [|lia|by right].
    case_bool_decide; subst; simpl; [right|by left]. done.
Qed.

Lemma accepts_optional_field bounds limit what flag :
  accepts (if flag : bool then read_field bounds limit what else mret [])
    (fun s f => s = (if flag then field_bytes f else []) ∧
       if flag then field_decoded bounds limit f else f = []).
Proof. destruct flag; [apply accepts_field|by apply accepts_ret]. Qed.

(** The limits are [std::size_t] values. *)
Definition bounds_ok (bounds : option CodecBounds) : Prop :=
  match bounds with
  | Some b => 0 ≤ max_value_len b ∧ 0 ≤ max_identity_key_len b ∧ 0 ≤ max_revision_key_len b
  | None => True
  end.

#[export] Instance bounds_ok_dec bounds : Decision (bounds_ok bounds).
Proof. destruct bounds; simpl; apply _. Defined.

Lemma optional_field_decoded bounds limit (flag : bool) f :
  limit_ok bounds limit 0 → (if flag then field_decoded bounds limit f else f = []) →
  size_of f < 2 ^ 32 ∧ limit_ok bounds limit (size_of f) ∧ (if flag then f else []) = f.
Proof. intros H0. destruct flag; [intros [??]|intros ->]; done. Qed.

Lemma accepts_op bounds :
  bounds_ok bounds →
  accepts (decode_op bounds) (fun s op => length s = length (op_bytes op) ∧ op_decoded bounds op).
Proof.
  intros Hb. unfold decode_op.
  eapply accepts_bind; [apply accepts_u8|]. intros s1 code (bt & -> & ->).
  apply accepts_check. intros Hcode.
  eapply accepts_bind; [apply accepts_u32|]. intros s2 flags [Hfl ->].
  apply accepts_check. intros Hu.
  eapply accepts_bind; [apply accepts_u32|]. intros s3 dflags [Hdf ->].
  eapply accepts_bind; [apply accepts_field|]. intros s4 name (-> & Fn & Ln).
  eapply accepts_bind; [apply accepts_field|]. intros s5 skey (-> & Fk & Lk).
  eapply accepts_bind; [apply accepts_value|]. intros s6 val (Hval & Fv & Lv).
  eapply accepts_bind; [apply accepts_optional_field|]. intros s7 id (-> & Hid).
  eapply accepts_bind; [apply accepts_optional_field|]. intros s8 rv (-> & Hrv).
  do 3 (apply accepts_check; rewrite flag_guard; intros ?).
  apply optional_field_decoded in Hid as (Fi & Li & Ei), Hrv as (Fr & Lr & Er);
    [|destruct bounds; simpl in *; tauto..].
  apply accepts_ret. rewrite app_nil_r. split.
  - unfold op_bytes. cbn [op_flags dbi_flags op_type dbi_name storage_key value identity_key revision_key].
    rewrite !length_app. do 5 f_equal. f_equal.
    destruct Hval as [->|[-> ->]]; [done|]. done.
  - unfold op_decoded, op_ok, op_valid, op_fits, canonical_op. rewrite within_op_limits.
    cbn [op_flags dbi_flags op_type dbi_name storage_key value identity_key revision_key].
    split_and!; try done; try (intros Hf; repeat match goal with
      | H : _ = true → _ |- _ => specialize (H Hf) || clear H end; zbool; done).
    + destruct Lv as [->|?]; [|done]. destruct bounds; simpl in *; tauto.
    + by rewrite Ei, Er.
Qed.

Lemma accepts_magic : accepts check_magic (fun s _ => s = magic).
Proof.
  unfold check_magic. eapply accepts_bind; [by apply accepts_bytes|]. intros s m [-> _].
  unfold check. case_bool_decide as E; simpl; [|done]. apply accepts_ret.
  by rewrite app_nil_r.
Qed.

Lemma Forall2_length_sum {A} (P : bytes → A → Prop) (enc : A → bytes) ss l :
  Forall2 P ss l → (∀ s x, P s x → length s = length (enc x)) →
  length (concat ss) = length (concat (enc <$> l)).
Proof.
  intros H HP. induction H; [done|]. rewrite fmap_cons. simpl. rewrite !length_app.
  f_equal; [by apply HP|done].
Qed.

Lemma accepts_batch bounds :
  bounds_ok bounds →
  accepts (decode_batch bounds)
    (fun s b => length s = length (batch_bytes b) ∧ batch_decoded bounds b).
Proof.
  intros Hb. unfold decode_batch.
  eapply accepts_bind; [apply accepts_magic|]. intros s0 _ ->.
  eapply accepts_bind; [apply accepts_u16|]. intros s1 cv [Hcv ->].
  apply accepts_check. intros Ecv.
  eapply accepts_bind; [apply accepts_u32|]. intros s2 bv [Hbv ->].
  apply accepts_check. intros Ebv.
  eapply accepts_bind; [apply accepts_u32|]. intros s3 flags [Hfl ->].
  apply accepts_check. intros Hz. apply accepts_check. intros Hu.
  eapply accepts_bind; [by apply accepts_bytes|]. intros s4 origin [-> Ho].
  eapply accepts_bind; [apply accepts_u64|]. intros s5 seq [Hseq ->].
  eapply accepts_bind; [apply accepts_u64|]. intros s6 time [Htime ->].
  eapply accepts_bind; [apply accepts_u32|]. intros s7 count [Hcount ->].
  apply accepts_limit. intros Hlim.
  eapply accepts_bind; [by apply accepts_repeat, accepts_op|].
  intros s8 l (Hl & ss & -> & Hss). apply accepts_ret. zbool. subst cv bv.
  pose proof (Forall2_length_sum _ op_bytes _ _ Hss) as Hlen.
  assert (Forall (op_decoded bounds) l) as Hops.
  { eapply Forall2_Forall_r; [exact Hss|]. apply Forall_true. intros ? ? [??]; done. }
  clear Hss. split.
  - unfold batch_bytes, header_bytes. rewrite !length_app, Hlen by by intros ?? [??].
    cbn [ops batch_flags origin_node_id seq_no time_unix_ns length].
    change (length (write_u32_le ?x)) with 4%nat. lia.
  - unfold batch_decoded, batch_ok, header_valid, batch_fits, canonical_batch, op_decoded in *.
    rewrite within_limits.
    cbn [ops batch_flags origin_node_id seq_no time_unix_ns version].
    repeat rewrite !Forall_and in Hops. destruct Hops as (Hop & Hv & Hfi & Hw & Hcan).
    assert (size_of l = count) as <- by (unfold size_of, u_range in *; lia).
    split_and!; try done; unfold node_ok, u_range in *; try lia.
    f_equal. rewrite Forall_forall in Hcan. rewrite <- (list_fmap_id l) at 2.
    apply list_fmap_ext. intros i x Hx%list_elem_of_lookup_2. by apply Hcan.
Qed.

(** ** The decoders, from the readers *)

Lemma decode_of_reads bounds s rest b :
  reads (decode_batch bounds) s b → total_within bounds (length s) →
  decode (s ++ rest) true bounds = Ok (b, length s).
Proof.
  intros Hr Ht. unfold decode. rewrite (Hr _ rest (at_bytes_make _)).
  cbn [mbind result_bind cur_pos advance make_cursor]. rewrite Nat.add_0_l.
  destruct bounds as [bd|]; [|done]. simpl in Ht.
  by rewrite Z.gtb_ltb, (proj2 (Z.ltb_ge _ _)) by lia.
Qed.

Lemma decode_true_Ok bounds data b n :
  decode data true bounds = Ok (b, n) →
  total_within bounds n ∧ ∃ c, decode_batch bounds (make_cursor data) = Ok (b, c) ∧ cur_pos c = n.
Proof.
  unfold decode. intros H. apply result_bind_Ok in H as ([b' c] & Hd & H).
  apply result_bind_Ok in H as ([] & Ht & [= -> <-]). split; [|eauto].
  destruct bounds as [bd|]; [|done]. apply throw_if_Ok in Ht. zbool. done.
Qed.

Lemma decode_exact_Ok bounds data b :
  decode_exact data bounds = Ok b ↔ decode data true bounds = Ok (b, length data).
Proof.
  unfold decode_exact. split.
  - intros H. apply result_bind_Ok in H as ([b' n] & Hd & H).
    destruct (Nat.eqb_spec n (length data)); simplify_eq/=. done.
  - intros ->. cbn [mbind result_bind]. by rewrite Nat.eqb_refl.
Qed.

Lemma decode_decoded bounds data b n :
  bounds_ok bounds → decode data true bounds = Ok (b, n) →
  batch_decoded bounds b ∧ length (batch_bytes b) = n ∧ (n ≤ length data)%nat ∧
  total_within bounds n.
Proof.
  intros Hb (Ht & c & Hd & <-)%decode_true_Ok.
  destruct (accepts_batch bounds Hb _ _ _ _ (at_bytes_make data) Hd)
    as (s & rest & -> & -> & Hlen & Hdec).
  cbn [cur_pos advance make_cursor] in *. rewrite length_app. split_and!; try done; lia.
Qed.

Lemma encode_decode bounds b bs rest :
  batch_ok b → batch_fits b → encode b bounds = Ok bs →
  decode (bs ++ rest) true bounds = Ok (canonical_batch b, length bs).
Proof.
  intros Hok Hfit (Hw & Hh & Hv & -> & Ht)%encode_Ok.
  apply decode_of_reads; [by apply reads_batch|done].
Qed.

(** ** Theorems *)

(** C31: encoding a change batch and decoding the result, alone with the strict decoder
    or as the prefix of a longer stream, gives the batch back (identity and revision
    keys whose flag is clear are not sent) and consumes exactly the encoded bytes. *)
Theorem change_batch_roundtrip (b : ChangeBatch) (bounds : option CodecBounds) (bs rest : bytes) :
  batch_ok b → batch_fits b → encode b bounds = Ok bs →
  decode_exact bs bounds = Ok (canonical_batch b) ∧
  decode (bs ++ rest) true bounds = Ok (canonical_batch b, length bs).
Proof.
  intros Hok Hfit He. split; [|by apply encode_decode].
  apply decode_exact_Ok. rewrite <- (app_nil_r bs) at 1. by apply encode_decode.
Qed.

(** The strict decoder accepts only well-formed batches: whatever bytes it is given,
    a batch it returns has field values in range, only known flags, keys present exactly
    where their flag says so, no value on a tombstone, every length and count within the
    configured limits, and it consumed no more than the total limit. *)
Theorem change_batch_decoded_within (data : bytes) (b : ChangeBatch) (bounds : option CodecBounds) :
  bounds_ok bounds → decode_exact data bounds = Ok b →
  batch_ok b ∧ header_valid b ∧ Forall op_valid (ops b) ∧ within bounds b ∧
  total_within bounds (length data).
Proof.
  intros Hb [(Hok & Hh & Hf & Hv & Hw & _) ?]%decode_exact_Ok%decode_decoded; tauto.
Qed.

(** Every batch the decoder returns can be sent on: encoding it under the same limits
    succeeds, takes as many bytes as were consumed, and decodes to the same batch. *)
Theorem change_batch_reencode (data : bytes) (b : ChangeBatch) (bounds : option CodecBounds) (n : nat) :
  bounds_ok bounds → decode data true bounds = Ok (b, n) →
  ∃ bs, encode b bounds = Ok bs ∧ length bs = n ∧ decode_exact bs bounds = Ok b.
Proof.
  intros Hb [(Hok & Hh & Hf & Hv & Hw & Hc) (Hlen & _ & Ht)]%decode_decoded; [|done].
  exists (batch_bytes b).
  assert (encode b bounds = Ok (batch_bytes b)) as He by (apply encode_Ok; by rewrite Hlen).
  split_and!; [done..|]. apply decode_exact_Ok.
  rewrite <- Hc at 2. rewrite <- (app_nil_r (batch_bytes b)) at 1. by apply encode_decode.
Qed.

(** A batch with one put carrying a revision key and one tombstone delete. *)
Definition sample_batch : ChangeBatch := {|
  version := 1; batch_flags := BATCH_HAS_MORE; origin_node_id := replicate 15 (byte_of 0) ++ [byte_of 5];
  seq_no := 7; time_unix_ns := 1000;
  ops := [ {| op_type := Put; op_flags := OP_HAS_REVISION_KEY; dbi_flags := 0;
              dbi_name := bytes_of_string "users"; storage_key := bytes_of_string "k";
              value := bytes_of_string "v"; identity_key := bytes_of_string "dropped";
              revision_key := bytes_of_string "r1" |};
           {| op_type := Delete; op_flags := OP_TOMBSTONE; dbi_flags := 8;
              dbi_name := bytes_of_string "users"; storage_key := bytes_of_string "k2";
              value := []; identity_key := []; revision_key := [] |} ];
|}.

Definition sample_encoding : bytes :=
  match encode sample_batch (Some default_bounds) with Ok bs => bs | Throw _ => [] end.

Lemma change_batch_roundtrip_witness :
  decode_exact sample_encoding (Some default_bounds) = Ok (canonical_batch sample_batch) ∧
  decode (sample_encoding ++ magic) true (Some default_bounds) =
    Ok (canonical_batch sample_batch, length sample_encoding).
Proof.
  apply change_batch_roundtrip;
    [apply (bool_decide_unpack _); vm_compute; exact I| |vm_compute; reflexivity].
  split; [done|]. repeat constructor; done.
Defined.

Lemma change_batch_decoded_within_witness :
  batch_ok (canonical_batch sample_batch) ∧ header_valid (canonical_batch sample_batch) ∧
  Forall op_valid (ops (canonical_batch sample_batch)) ∧
  within (Some default_bounds) (canonical_batch sample_batch) ∧
  total_within (Some default_bounds) (length sample_encoding).
Proof.
  apply (change_batch_decoded_within sample_encoding);
    [apply (bool_decide_unpack _); vm_compute; exact I|vm_compute; reflexivity].
Defined.

Lemma change_batch_reencode_witness :
  ∃ bs, encode (canonical_batch sample_batch) (Some default_bounds) = Ok bs ∧
    length bs = length sample_encoding ∧
    decode_exact bs (Some default_bounds) = Ok (canonical_batch sample_batch).
Proof.
  apply (change_batch_reencode (sample_encoding ++ [byte_of 1]));
    [apply (bool_decide_unpack _); vm_compute; exact I|vm_compute; reflexivity].
Defined.
