(* ===== verification/Writers.v ===== *)
(** * Wire writers

    The encoders of the sync subsystem append to a byte vector and throw when a field or
    the message grows too long.  This file gives the appends they share and the counterpart
    of [reads] and [accepts] of [Wire] on the writing side: [writes], the bytes an append
    adds, the condition under which it succeeds, and that it does succeed below a size
    limit.  It also holds what several codecs do alike: bounds, cursors, nested batches.

    The appends are the private helpers of
    [src/include/mdbx_containers/sync/transport/TransportMessageCodec.hpp],
    [.../sync/protocol/FullSnapshotProtocol.hpp] and [.../sync/logical/*Codec.hpp], which
    repeat them with different messages. *)
From S2P Require Import Prelude SyncCommon Wire SyncProtocol.
From S2P Require ChangeBatchCodec.
Open Scope Z_scope.

Abbreviation batch_encode := ChangeBatchCodec.encode.
Abbreviation batch_decode_exact := ChangeBatchCodec.decode_exact.
Abbreviation batch_bytes := ChangeBatchCodec.batch_bytes.
Abbreviation canonical_batch := ChangeBatchCodec.canonical_batch.

(** ** Bounds *)

(** The members are [std::uint32_t]. *)
Definition bounds_fields (b : CodecBounds) : list Z :=
  [max_ops_per_batch b; max_dbi_name_len b; max_storage_key_len b; max_value_len b; max_identity_key_len b;
   max_revision_key_len b; max_batch_total_bytes b; max_cursor_origins b; max_batches_per_message b; max_error_len b;
   max_logical_schema_id_len b; max_logical_delivery_frame_id_len b; max_selective_scope_id_len b;
   max_selective_manifest_entries b; max_transport_message_bytes b; max_snapshot_id_len b;
   max_snapshot_manifest_entries b; max_snapshot_chunk_bytes b].

Definition bounds_valid (b : CodecBounds) : Prop := Forall is_u32 (bounds_fields b).

#[export] Instance bounds_valid_dec b : Decision (bounds_valid b) := _.

(** A null pointer stands for the defaults. *)
Definition effective_bounds (bounds : option CodecBounds) : CodecBounds :=
  match bounds with Some b => b | None => default_bounds end.

Definition bounds_arg_valid (bounds : option CodecBounds) : Prop := bounds_valid (effective_bounds bounds).

#[export] Instance bounds_arg_valid_dec b : Decision (bounds_arg_valid b) := _.

Lemma bounds_valid_all b z : bounds_valid b → z ∈ bounds_fields b → is_u32 z.
Proof. intros H. by apply Forall_forall. Qed.

(** Takes the range of one limit from the validity of the bounds. *)
Ltac limit_range H :=
  match type of H with
  | bounds_valid ?b => unfold bounds_valid, bounds_fields in H; rewrite !Forall_cons in H; unfold u_range in H; lia
  end.

Lemma gtb_false a b : (a >? b) = false ↔ a ≤ b.
Proof. rewrite Z.gtb_ltb. apply Z.ltb_ge. Qed.

(** ** Appends *)

Abbreviation writer := (bytes → result bytes).

(** [append_bytes] of the codecs without a limit of their own: only an overflow of
    [std::size_t] fails. *)
Definition append_bytes (overflow : exn) (src : bytes) : writer := fun out =>
  if size_of src =? 0 then Ok out
  else if size_of src >? 2 ^ 64 - 1 - size_of out then Throw overflow
  else Ok (out ++ src).

Definition append_u8 (v : Z) : writer := fun out => Ok (out ++ [byte_of v]).
Definition append_bool (b : bool) : writer := append_u8 (if b then 1 else 0).

(** [detail::append_u16_le] and the like, as writers. *)
Definition put_u16 (v : Z) : writer := fun out => Ok (append_u16_le out v).
Definition put_u32 (v : Z) : writer := fun out => Ok (append_u32_le out v).
Definition put_u64 (v : Z) : writer := fun out => Ok (append_u64_le out v).

(** [append_u32_size]; [static_cast<std::uint32_t>(value)] keeps a value that passed. *)
Definition append_u32_size (value : Z) (label : string) : writer := fun out =>
  if value >? 2 ^ 32 - 1 then Throw (length_error label) else put_u32 (value mod 2 ^ 32) out.

(** ** What an append writes *)

Section Writes.
Context (max : Z).

(** [w] adds [s] and succeeds only under [P]; under [P] it does, as long as the buffer stays
    below the limit. *)
Record writes (w : writer) (s : bytes) (P : Prop) : Prop := {
  writes_added out out' : w out = Ok out' → P ∧ out' = out ++ s;
  writes_succeeds out : P → size_of (out ++ s) ≤ max → w out = Ok (out ++ s);
}.

Lemma writes_iff w s P Q : writes w s P → (P ↔ Q) → writes w s Q.
Proof.
  intros [H1 H2] E. split.
  - intros out out' Hw. rewrite <- E. by apply H1.
  - intros out HQ. apply H2. by rewrite E.
Qed.

Lemma writes_ret : writes (fun out => Ok out) [] True.
Proof. split; [intros out out' [= <-]|intros out _ _]; by rewrite app_nil_r. Qed.

Lemma writes_bind w (k : writer) s1 s2 P1 P2 :
  writes w s1 P1 → writes k s2 P2 → writes (fun out => out ← w out; k out) (s1 ++ s2) (P1 ∧ P2).
Proof.
  intros [W1 W2] [K1 K2]. split.
  - intros out out' (o & [HP ->]%W1 & [HP' ->]%K1)%result_bind_Ok. by rewrite app_assoc.
  - intros out [HP HP'] Hs. rewrite app_assoc in *. rewrite W2; [by apply K2|done|].
    revert Hs. unfold size_of. rewrite (length_app (out ++ s1)). lia.
Qed.

Lemma writes_check (r : result unit) (k : writer) s P Q :
  (r = Ok tt ↔ Q) → writes k s P → writes (fun out => _ ← r; k out) s (Q ∧ P).
Proof.
  intros Hr [K1 K2]. split.
  - intros out out' ([] & HQ%Hr & [HP ->]%K1)%result_bind_Ok. done.
  - intros out [HQ HP] Hs. rewrite (proj2 Hr HQ). by apply K2.
Qed.

Lemma writes_throw_if c e (k : writer) s P :
  writes k s P → writes (fun out => _ ← throw_if c e; k out) s (c = false ∧ P).
Proof. apply writes_check, throw_if_Ok. Qed.

Lemma writes_u8 v : writes (append_u8 v) [byte_of v] True.
Proof. split; [by intros out out' [= <-]|done]. Qed.
Lemma writes_bool b : writes (append_bool b) [byte_of (if b then 1 else 0)] True.
Proof. apply writes_u8. Qed.
Lemma writes_u16 v : writes (put_u16 v) (write_u16_le v) True.
Proof. split; [by intros out out' [= <-]|done]. Qed.
Lemma writes_u32 v : writes (put_u32 v) (write_u32_le v) True.
Proof. split; [by intros out out' [= <-]|done]. Qed.
Lemma writes_u64 v : writes (put_u64 v) (write_u64_le v) True.
Proof. split; [by intros out out' [= <-]|done]. Qed.

Lemma writes_u32_size v label :
  0 ≤ v → writes (append_u32_size v label) (write_u32_le v) (v < 2 ^ 32).
Proof.
  intros Hv. unfold append_u32_size. split; intros out.
  - intros out'. destruct (Z.gtb_spec v (2 ^ 32 - 1)); [done|]. rewrite Z.mod_small by lia. intros [= <-]. split; [lia|done].
  - intros Hl _. rewrite Z.gtb_ltb, (proj2 (Z.ltb_ge _ _)), Z.mod_small by lia. done.
Qed.

Lemma writes_bytes overflow src : max < 2 ^ 64 → writes (append_bytes overflow src) src True.
Proof.
  intros Hmax. unfold append_bytes. split; intros out.
  - intros out'. destruct (Z.eqb_spec (size_of src) 0) as [E|].
    + intros [= <-]. destruct src; [by rewrite app_nil_r|unfold size_of in E; cbn [length] in E; lia].
    + destruct (_ >? _); [done|]. by intros [= <-].
  - intros _ Hs. destruct (Z.eqb_spec (size_of src) 0) as [E|].
    + destruct src; [by rewrite app_nil_r|unfold size_of in E; cbn [length] in E; lia].
    + unfold size_of in Hs |- *. rewrite length_app in Hs. rewrite Z.gtb_ltb, (proj2 (Z.ltb_ge _ _)) by lia. done.
Qed.

(** A loop over a list. *)
Fixpoint append_each {A} (f : A → writer) (l : list A) : writer := fun out =>
  match l with
  | [] => Ok out
  | x :: l => out ← f x out; append_each f l out
  end.

Lemma writes_each {A} (f : A → writer) (enc : A → bytes) (P : A → Prop) l :
  (∀ x, x ∈ l → writes (f x) (enc x) (P x)) → writes (append_each f l) (concat (enc <$> l)) (Forall P l).
Proof.
  induction l as [|x l IH]; intros H.
  - eapply writes_iff; [apply writes_ret|]. by rewrite Forall_nil.
  - eapply writes_iff; [|by rewrite Forall_cons]. rewrite fmap_cons. cbn [concat append_each].
    apply writes_bind; [apply H; left|apply IH; intros; apply H; by right].
Qed.
End Writes.

#[export] Hint Resolve writes_u8 writes_bool writes_u16 writes_u32 writes_u64 writes_bytes : mdbxc.

(** ** Whole buffers *)

(** A strict decoder: the size of the buffer, the reads, and nothing may be left. *)
Definition decode_all {A} (too_long trailing : exn) (limit : Z) (r : reader A) (data : bytes) : result A :=
  _ ← throw_if (size_of data >? limit) too_long;
  '(a, cur) ← r (make_cursor data);
  _ ← throw_if (negb (cur_pos cur =? cur_size cur)%nat) trailing;
  Ok a.

Section DecodeAll.
Context (too_long trailing : exn) (limit : Z).

Lemma decode_all_reads {A} (r : reader A) s a : reads r s a → size_of s ≤ limit → decode_all too_long trailing limit r s = Ok a.
Proof.
  intros Hr Hs. unfold decode_all. rewrite (proj2 (gtb_false _ _) Hs). cbn [throw_if mbind result_bind].
  rewrite (Hr _ []) by (rewrite app_nil_r; apply at_bytes_make). cbn [mbind result_bind]. unfold advance, make_cursor, cur_size.
  cbn [cur_pos cur_data]. by rewrite Nat.add_0_l, Nat.eqb_refl.
Qed.

Lemma decode_all_accepts {A} (r : reader A) (P : bytes → A → Prop) data a :
  accepts r P → decode_all too_long trailing limit r data = Ok a → P data a ∧ size_of data ≤ limit.
Proof.
  intros Hr ([] & Hs%throw_if_Ok%gtb_false & H)%result_bind_Ok.
  apply result_bind_Ok in H as ([x c] & Hx & ([] & He%throw_if_Ok%negb_false_iff%Nat.eqb_eq & [= <-])%result_bind_Ok).
  destruct (Hr _ _ _ _ (at_bytes_make data) Hx) as (s & rest & E & -> & HP). unfold advance, make_cursor, cur_size in He.
  cbn [cur_pos cur_data] in He. apply (f_equal length) in E as El. rewrite length_app in El.
  destruct rest; [|cbn [length] in *; lia]. rewrite app_nil_r in E. subst s. done.
Qed.

(** A codec whose encodings are canonical. *)
Lemma decode_all_exact {A} (r : reader A) (enc : A → bytes) (P : A → Prop) data a :
  (∀ a, P a → size_of (enc a) ≤ limit → reads r (enc a) a) → accepts r (fun s a => s = enc a ∧ P a) →
  decode_all too_long trailing limit r data = Ok a ↔ P a ∧ data = enc a ∧ size_of data ≤ limit.
Proof.
  intros Hr Ha. split.
  - intros H. destruct (decode_all_accepts _ _ _ _ Ha H) as [[-> HP] Hs]. done.
  - intros (HP & -> & Hs). apply decode_all_reads; [by apply Hr|done].
Qed.

Lemma decode_all_map {A B} (r : reader A) (f : A → B) data :
  decode_all too_long trailing limit (x ← r; mret (f x)) data = (x ← decode_all too_long trailing limit r data; Ok (f x)).
Proof.
  unfold decode_all. destruct (throw_if (_ >? _) _); [|done]. cbn [mbind result_bind].
  change ((x ← r; mret (f x)) (make_cursor data)) with (match r (make_cursor data) with Ok (a, c') => Ok (f a, c') | Throw e => Throw e end).
  destruct (r (make_cursor data)) as [[x c']|]; [|done]. cbn [mbind result_bind]. by destruct (throw_if _ _).
Qed.

Lemma decode_all_throws {A} (r : reader A) data e :
  size_of data ≤ limit → r (make_cursor data) = Throw e → decode_all too_long trailing limit r data = Throw e.
Proof. intros Hs Hr. unfold decode_all. rewrite (proj2 (gtb_false _ _) Hs). cbn [throw_if mbind result_bind]. by rewrite Hr. Qed.
End DecodeAll.

(** The last read of a record. *)
Lemma reads_last {A B} (r : reader A) (f : A → reader B) s a b :
  reads r s a → reads (f a) [] b → reads (r ≫= f) s b.
Proof. intros Hr Hf. rewrite <- (app_nil_r s). by eapply reads_bind. Qed.

(** ** Shared fields *)

(** A flag of one byte; [bad] is thrown above 1. *)
Definition read_flag (underrun bad : exn) : reader bool :=
  v ← read_u8 underrun;
  _ ← check (v >? 1) bad;
  mret (negb (v =? 0)).

Lemma reads_flag underrun bad b : reads (read_flag underrun bad) [byte_of (if b : bool then 1 else 0)] b.
Proof.
  unfold read_flag. eapply reads_last; [apply reads_u8|]. apply reads_check; [by destruct b|]. destruct b; apply reads_ret.
Qed.

Lemma accepts_flag underrun bad :
  accepts (read_flag underrun bad) (fun s b => s = [byte_of (if b : bool then 1 else 0)]).
Proof.
  unfold read_flag. eapply accepts_bind; [apply accepts_u8|]. intros s v (x & -> & ->). apply accepts_check. intros Hv. zbool.
  apply accepts_ret. cbn [app]. f_equal. apply u8_inj. rewrite u8_byte_of. pose proof (u8_range x).
  destruct (Z.eqb_spec (u8 x) 0) as [->|]; cbn [negb]; [done|]. rewrite Z.mod_small; lia.
Qed.

(** *** Byte strings behind their length *)

Definition sized_bytes (f : bytes) : bytes := write_u32_le (size_of f) ++ f.

Definition read_sized (underrun too_long : exn) (limit : Z) : reader bytes :=
  len ← read_u32 underrun;
  _ ← check (len >? limit) too_long;
  read_bytes underrun len.

Lemma reads_sized underrun too_long limit f :
  size_of f < 2 ^ 32 → size_of f ≤ limit → reads (read_sized underrun too_long limit) (sized_bytes f) f.
Proof.
  intros Hf Hl. unfold read_sized, sized_bytes. eapply reads_bind.
  - apply reads_u32. unfold u_range, size_of in *. lia.
  - apply reads_check; [rewrite Z.gtb_ltb; by apply Z.ltb_ge|]. by apply reads_bytes.
Qed.

Lemma accepts_sized underrun too_long limit :
  accepts (read_sized underrun too_long limit) (fun s f => s = sized_bytes f ∧ size_of f < 2 ^ 32 ∧ size_of f ≤ limit).
Proof.
  unfold read_sized. eapply accepts_bind; [apply accepts_u32|]. intros s1 len [Hlen ->]. apply accepts_check. intros Hl. zbool.
  eapply accepts_mono; [apply accepts_bytes; apply Hlen|]. intros s f [-> Hf]. unfold sized_bytes, size_of, u_range in *.
  rewrite Hf. split; [done|lia].
Qed.

Lemma sized_bytes_length f g : length f = length g → length (sized_bytes f) = length (sized_bytes g).
Proof. intros E. unfold sized_bytes. rewrite !length_app, E. by rewrite !write_u32_le_length. Qed.

(** *** Cursors *)

Abbreviation entry_le := (fun p q : NodeId * Z => bytes_le p.1 q.1).

(** A [std::map] is visited in the order of its keys. *)
Definition cursor_entries (c : SyncCursor) : list (NodeId * Z) := merge_sort entry_le (map_to_list (last_seq_by_origin c)).
Definition cursor_size (c : SyncCursor) : Z := Z.of_nat (size (last_seq_by_origin c)).

Definition entry_bytes (p : NodeId * Z) : bytes := p.1 ++ write_u64_le p.2.
Definition cursor_bytes (c : SyncCursor) : bytes :=
  write_u32_le (cursor_size c) ++ concat (entry_bytes <$> cursor_entries c).

Definition entry_ok (k : NodeId) (v : Z) : Prop := node_ok k ∧ is_u64 v.
Definition cursor_ok (c : SyncCursor) : Prop := map_Forall entry_ok (last_seq_by_origin c).

#[export] Instance cursor_ok_dec c : Decision (cursor_ok c) := _.

Fixpoint read_cursor_entries (underrun duplicate : exn) (count : nat) (m : gmap NodeId Z) : reader (gmap NodeId Z) :=
  match count with
  | O => mret m
  | S count =>
      origin ← read_bytes underrun 16;
      seq ← read_u64 underrun;
      _ ← check (bool_decide (is_Some (m !! origin))) duplicate;
      read_cursor_entries underrun duplicate count (<[origin := seq]> m)
  end.

Definition read_sync_cursor (underrun too_long duplicate : exn) (limit : Z) : reader SyncCursor :=
  count ← read_u32 underrun;
  _ ← check (count >? limit) too_long;
  m ← read_cursor_entries underrun duplicate (Z.to_nat count) ∅;
  mret {| last_seq_by_origin := m |}.

Lemma cursor_entries_perm c : cursor_entries c ≡ₚ map_to_list (last_seq_by_origin c).
Proof. apply merge_sort_Permutation. Qed.

Lemma cursor_entries_length c : Z.of_nat (length (cursor_entries c)) = cursor_size c.
Proof. unfold cursor_size. by rewrite cursor_entries_perm, length_map_to_list. Qed.

Lemma cursor_entries_map c : (list_to_map (cursor_entries c) : gmap NodeId Z) = last_seq_by_origin c.
Proof.
  rewrite <- (list_to_map_to_list (last_seq_by_origin c)). apply list_to_map_proper; [|apply cursor_entries_perm].
  rewrite cursor_entries_perm. apply NoDup_fst_map_to_list.
Qed.

Lemma reads_cursor_entries underrun duplicate l m :
  NoDup l.*1 → Forall (fun p => entry_ok p.1 p.2) l → (∀ k, k ∈ l.*1 → m !! k = None) →
  reads (read_cursor_entries underrun duplicate (length l) m) (concat (entry_bytes <$> l)) (list_to_map l ∪ m).
Proof.
  revert m. induction l as [|[k v] l IH]; intros m Hd Hok Hm.
  { rewrite list_to_map_nil, (left_id_L ∅ (∪)). apply reads_ret. }
  rewrite fmap_cons in *. cbn [fst] in *. apply NoDup_cons in Hd as [Hk Hd]. apply Forall_cons in Hok as [[Hn Hv] Hok].
  cbn [read_cursor_entries length concat fst snd] in *. unfold entry_bytes at 1. cbn [fst snd]. rewrite <- app_assoc.
  eapply reads_bind; [apply reads_bytes; by rewrite Hn|]. eapply reads_bind; [by apply reads_u64|].
  apply reads_check; [rewrite Hm; [done|left]|]. rewrite list_to_map_cons, <- insert_union_l.
  rewrite insert_union_r by by apply not_elem_of_list_to_map_1. apply IH; [done|done|].
  intros k' Hk'. rewrite lookup_insert_ne by by intros ->. apply Hm. by right.
Qed.

Lemma reads_cursor underrun too_long duplicate limit c :
  cursor_ok c → cursor_size c < 2 ^ 32 → cursor_size c ≤ limit →
  reads (read_sync_cursor underrun too_long duplicate limit) (cursor_bytes c) c.
Proof.
  intros Hok Hs Hl. unfold read_sync_cursor, cursor_bytes. eapply reads_bind.
  { apply reads_u32. unfold u_range, cursor_size in *. lia. }
  apply reads_check; [rewrite Z.gtb_ltb; by apply Z.ltb_ge|]. eapply reads_last.
  - rewrite <- cursor_entries_length, Nat2Z.id. apply reads_cursor_entries; [| |by intros; apply lookup_empty].
    + rewrite cursor_entries_perm. apply NoDup_fst_map_to_list.
    + rewrite cursor_entries_perm. apply Forall_forall. intros [k v] Hk%elem_of_map_to_list. by apply Hok.
  - rewrite (right_id_L ∅ (∪)), cursor_entries_map. destruct c. apply reads_ret.
Qed.

Lemma accepts_cursor_entries underrun duplicate n m :
  map_Forall entry_ok m →
  accepts (read_cursor_entries underrun duplicate n m) (fun s m' =>
    map_Forall entry_ok m' ∧ (size m' = size m + n)%nat ∧ (length s = n * 24)%nat).
Proof.
  revert m. induction n as [|n IH]; intros m Hm; cbn [read_cursor_entries].
  { apply accepts_ret. split_and!; [done|lia|done]. }
  eapply accepts_bind; [by apply accepts_bytes|]. intros s1 k [-> Hk].
  eapply accepts_bind; [apply accepts_u64|]. intros s2 v [Hv ->]. apply accepts_check. intros Hd%bool_decide_eq_false.
  apply eq_None_not_Some in Hd. eapply accepts_mono; [apply IH|].
  - apply map_Forall_insert_2; [|done]. split; [unfold node_ok; lia|done].
  - intros s m' (Hok & Hs & Hl). rewrite map_size_insert_None in Hs by done. rewrite !length_app, write_u64_le_length.
    split_and!; [done|lia|lia].
Qed.

Lemma cursor_bytes_length c : cursor_ok c → length (cursor_bytes c) = (4 + size (last_seq_by_origin c) * 24)%nat.
Proof.
  intros Hok. unfold cursor_bytes. rewrite length_app, write_u32_le_length. f_equal.
  assert (length (cursor_entries c) = size (last_seq_by_origin c)) as <- by by rewrite cursor_entries_perm, length_map_to_list.
  assert (Forall (fun p => entry_ok p.1 p.2) (cursor_entries c)) as Hl.
  { rewrite cursor_entries_perm. apply Forall_forall. intros [k v] Hk%elem_of_map_to_list. by apply Hok. }
  induction Hl as [|[k v] l [Hk _] _ IH]; [done|]. rewrite fmap_cons. cbn [concat length fst] in *. unfold entry_bytes at 1.
  unfold node_ok in Hk. cbn [fst snd]. rewrite !length_app, IH, write_u64_le_length, Hk. lia.
Qed.

Lemma accepts_cursor underrun too_long duplicate limit :
  accepts (read_sync_cursor underrun too_long duplicate limit) (fun s c =>
    cursor_ok c ∧ cursor_size c < 2 ^ 32 ∧ cursor_size c ≤ limit ∧ length s = length (cursor_bytes c)).
Proof.
  unfold read_sync_cursor. eapply accepts_bind; [apply accepts_u32|]. intros s1 count [Hc ->]. apply accepts_check. intros Hl. zbool.
  eapply accepts_bind; [apply accepts_cursor_entries, map_Forall_empty|]. intros s m (Hok & Hs & Hlen). apply accepts_ret.
  rewrite map_size_empty in Hs. rewrite cursor_bytes_length by done. unfold cursor_size, u_range in *. cbn [last_seq_by_origin].
  rewrite app_nil_r, length_app, write_u32_le_length. split_and!; [done|lia..].
Qed.

(** *** Nested encodings *)

Definition lift_result {A} (r : result A) : reader A := fun c =>
  match r with Ok a => Ok (a, c) | Throw e => Throw e end.

Lemma reads_lift {A} (a : A) : reads (lift_result (Ok a)) [] a.
Proof. apply reads_ret. Qed.

Lemma accepts_lift {A} (r : result A) : accepts (lift_result r) (fun s a => s = [] ∧ r = Ok a).
Proof.
  intros c s0 a c' Hc. unfold lift_result. destruct r as [x|e]; [|done]. intros [= <- <-]. exists [], s0. by rewrite advance_0.
Qed.

(** A nested encoding behind its length. *)
Lemma writes_nested limit (enc : result bytes) (s : bytes) (k : bytes → writer) (P : Prop) :
  (∀ bs, enc = Ok bs ↔ P ∧ bs = s) → (P → writes limit (k s) (sized_bytes s) True) →
  writes limit (fun out => encoded ← enc; k encoded out) (sized_bytes s) P.
Proof.
  intros He Hk. split.
  - intros out out' (bs & [HP ->]%He & Hw)%result_bind_Ok. split; [done|]. by apply (Hk HP) in Hw as [_ ?].
  - intros out HP Hs. rewrite (proj2 (He s) (conj HP eq_refl)). cbn [mbind result_bind]. by apply (Hk HP).
Qed.

(** The batch has an encoding within the bounds. *)
Definition batch_ready (bd : CodecBounds) (b : ChangeBatch) : Prop := batch_encode b (Some bd) = Ok (batch_bytes b).

Lemma batch_encode_ready bd b bs : batch_encode b (Some bd) = Ok bs ↔ batch_ready bd b ∧ bs = batch_bytes b.
Proof.
  split; [|by intros [? ->]]. intros H. pose proof (proj1 (ChangeBatchCodec.encode_Ok _ _ _) H) as (_ & _ & _ & -> & _). done.
Qed.

Lemma op_bytes_value op :
  (length (value op) + 4 ≤ length (ChangeBatchCodec.op_bytes op))%nat ∧ (∀ l, op ∈ l →
  length (ChangeBatchCodec.op_bytes op) ≤ length (concat (ChangeBatchCodec.op_bytes <$> l)))%nat.
Proof.
  split.
  - unfold ChangeBatchCodec.op_bytes, ChangeBatchCodec.value_bytes, ChangeBatchCodec.field_bytes. rewrite !length_app.
    case_bool_decide as E; [rewrite E; cbn [length]; rewrite !write_u32_le_length; lia|rewrite !length_app, !write_u32_le_length; lia].
  - intros l. induction l as [|y l IH]; intros Hop; [by apply elem_of_nil in Hop|]. rewrite fmap_cons. cbn [concat].
    rewrite length_app. apply elem_of_cons in Hop as [<-|Hop]; [lia|]. specialize (IH Hop). lia.
Qed.

Section Batches.
Context (bd : CodecBounds) (Hbd : bounds_valid bd).

Lemma batch_ready_size b : batch_ready bd b → size_of (batch_bytes b) ≤ max_batch_total_bytes bd ∧ size_of (batch_bytes b) < 2 ^ 32.
Proof.
  intros (_ & _ & _ & _ & Ht)%ChangeBatchCodec.encode_Ok. unfold ChangeBatchCodec.total_within in Ht. split; [done|]. unfold size_of.
  assert (max_batch_total_bytes bd < 2 ^ 32); [|lia]. limit_range Hbd.
Qed.

Lemma batch_ready_fits b : batch_ready bd b → ChangeBatchCodec.batch_fits b.
Proof.
  intros Hr. pose proof (batch_ready_size b Hr) as [_ Hsize].
  apply ChangeBatchCodec.encode_Ok in Hr as (Hw & _). apply ChangeBatchCodec.within_limits in Hw as [Hn Hops].
  unfold ChangeBatchCodec.limit_ok in Hn. split; [assert (max_ops_per_batch bd < 2 ^ 32) by limit_range Hbd; lia|].
  rewrite Forall_forall in *. intros op Hop. specialize (Hops _ Hop).
  apply ChangeBatchCodec.within_op_limits in Hops as (L1 & L2 & L3 & L4 & L5). unfold ChangeBatchCodec.limit_ok in *.
  destruct (op_bytes_value op) as [Hv Hl]. specialize (Hl _ Hop).
  assert (size_of (value op) < 2 ^ 32 - 1).
  { unfold batch_bytes, size_of in *. rewrite length_app in Hsize. lia. }
  unfold ChangeBatchCodec.op_fits.
  assert (max_dbi_name_len bd < 2 ^ 32 ∧ max_storage_key_len bd < 2 ^ 32 ∧ max_identity_key_len bd < 2 ^ 32 ∧
    max_revision_key_len bd < 2 ^ 32) by (limit_range Hbd). lia.
Qed.

Lemma batch_ready_decode b :
  batch_ok b → batch_ready bd b → batch_decode_exact (batch_bytes b) (Some bd) = Ok (canonical_batch b).
Proof.
  intros Hok Hr. apply ChangeBatchCodec.decode_exact_Ok. rewrite <- (app_nil_r (batch_bytes b)) at 1.
  apply ChangeBatchCodec.encode_decode; [done|by apply batch_ready_fits|done].
Qed.

Lemma batch_decoded_ready data b :
  batch_decode_exact data (Some bd) = Ok b →
  batch_ok b ∧ canonical_batch b = b ∧ batch_ready bd b ∧ length (batch_bytes b) = length data.
Proof.
  intros H%ChangeBatchCodec.decode_exact_Ok. apply ChangeBatchCodec.decode_decoded in H as [Hd (Hlen & _ & Ht)].
  - destruct Hd as (Hok & Hh & Hf & Hv & Hw & Hc). split_and!; [done|done| |done]. apply ChangeBatchCodec.encode_Ok. by rewrite Hlen.
  - unfold ChangeBatchCodec.bounds_ok. limit_range Hbd.
Qed.
End Batches.
