(* ===== verification/SnapshotCodec.v ===== *)
(** * Full snapshot chunks

    Models the class [FullSnapshotCodec] of
    [src/include/mdbx_containers/sync/protocol/FullSnapshotProtocol.hpp]: the checks on a
    chunk, its encoder and its strict decoder.  The theorems say exactly which chunks pass
    the checks, that decoding inverts encoding, and that whatever decodes has passed them. *)
From S2P Require Import Prelude SyncCommon Wire SyncProtocol Writers.
From S2P Require ChangeBatchCodec.
Open Scope Z_scope.

Definition magic : bytes := bytes_of_string "MDBXCSNP".
Definition magic_size : Z := 8.
Definition codec_version : Z := 2.

(** ** Checks *)

Definition reserved_name_prefix : bytes := bytes_of_string "_mdbxc_".

Definition is_reserved_dbi (name : bytes) : bool :=
  (size_of name >=? 7) && bool_decide (take 7 name = reserved_name_prefix).

Definition is_zero_id (id : NodeId) : bool := forallb (fun b => u8 b =? 0) id.

(** The flags of the first entry with that name. *)
Fixpoint manifest_entry_flags (manifest : list FullSnapshotManifestEntry) (name : bytes) : option Z :=
  match manifest with
  | [] => None
  | entry :: manifest =>
      if bool_decide (entry_dbi_name entry = name) then Some (entry_dbi_flags entry)
      else manifest_entry_flags manifest name
  end.

Definition validate_scope (scope : FullSnapshotScope) : result unit :=
  match scope with ManifestOnly | CompleteUserDatabase => Ok tt end.

Definition validate_cursor (c : SyncCursor) (bounds : CodecBounds) : result unit :=
  throw_if (cursor_size c >? max_cursor_origins bounds) (length_error "full snapshot tail exceeds max_cursor_origins").

Definition validate_snapshot_operation (op : ChangeOp) : result unit :=
  _ ← throw_if (negb (bool_decide (op_type op = Put)) && negb (bool_decide (op_type op = ClearTable)))
        (invalid_argument "Full snapshot operation must be Put or ClearTable");
  _ ← throw_if (negb (op_flags op =? OP_NONE) || negb (bool_decide (identity_key op = [])) ||
                negb (bool_decide (revision_key op = [])))
        (invalid_argument "Full snapshot operation contains non-physical metadata");
  throw_if (bool_decide (op_type op = ClearTable) &&
            (negb (bool_decide (storage_key op = [])) || negb (bool_decide (value op = []))))
    (invalid_argument "Full snapshot ClearTable operation contains key or value bytes").

(** The loop over the manifest; [previous] is the entry before. *)
Fixpoint validate_manifest (bounds : CodecBounds) (previous : option FullSnapshotManifestEntry)
    (manifest : list FullSnapshotManifestEntry) : result unit :=
  match manifest with
  | [] => Ok tt
  | entry :: manifest =>
      _ ← throw_if (bool_decide (entry_dbi_name entry = []) || is_reserved_dbi (entry_dbi_name entry))
            (invalid_argument "Full snapshot manifest contains a reserved or empty DBI");
      _ ← throw_if match previous with
                   | Some p => negb (bool_decide (bytes_lt (entry_dbi_name p) (entry_dbi_name entry)))
                   | None => false
                   end
            (invalid_argument "Full snapshot manifest must be sorted and unique");
      _ ← throw_if (size_of (entry_dbi_name entry) >? max_dbi_name_len bounds)
            (length_error "full snapshot manifest DBI name exceeds max_dbi_name_len");
      validate_manifest bounds (Some entry) manifest
  end.

(** The loop over the operations. *)
Fixpoint validate_operations (manifest : list FullSnapshotManifestEntry) (ops : list ChangeOp) : result unit :=
  match ops with
  | [] => Ok tt
  | op :: ops =>
      _ ← validate_snapshot_operation op;
      _ ← throw_if (is_reserved_dbi (dbi_name op)) (invalid_argument "Full snapshot contains a reserved DBI operation");
      _ ← match manifest_entry_flags manifest (dbi_name op) with
          | None => Throw (invalid_argument "Full snapshot operation is outside its manifest")
          | Some manifest_flags =>
              throw_if (negb (dbi_flags op =? manifest_flags))
                (invalid_argument "Full snapshot operation DBI flags differ from manifest")
          end;
      validate_operations manifest ops
  end.

Definition validate (chunk : FullSnapshotChunk) (bounds : option CodecBounds) : result unit :=
  let bounds := effective_bounds bounds in
  let batch := chunk_batch chunk in
  _ ← throw_if (is_zero_id (source_node_id chunk) || is_zero_id (source_db_uuid chunk))
        (runtime_error "Full snapshot source identity is incomplete");
  _ ← throw_if (bool_decide (snapshot_id chunk = [])) (invalid_argument "Full snapshot id is empty");
  _ ← throw_if (size_of (snapshot_id chunk) >? max_snapshot_id_len bounds)
        (length_error "full snapshot id exceeds max_snapshot_id_len");
  _ ← throw_if (size_of (continuation chunk) >? max_snapshot_id_len bounds)
        (length_error "full snapshot continuation exceeds max_snapshot_id_len");
  _ ← throw_if (negb (eqb (chunk_has_more chunk) (negb (bool_decide (continuation chunk = [])))))
        (invalid_argument "Full snapshot continuation does not match has_more");
  _ ← throw_if (negb (manifest_version chunk =? 1)) (invalid_argument "Unsupported full snapshot manifest version");
  _ ← validate_scope (replacement_scope chunk);
  _ ← validate_cursor (source_tail chunk) bounds;
  _ ← throw_if (size_of (chunk_manifest chunk) >? max_snapshot_manifest_entries bounds)
        (length_error "full snapshot manifest exceeds max_snapshot_manifest_entries");
  _ ← throw_if (size_of (chunk_manifest chunk) =? 0) (invalid_argument "Full snapshot manifest is empty");
  _ ← validate_manifest bounds None (chunk_manifest chunk);
  _ ← throw_if (negb (version batch =? ChangeBatchCodec.batch_version) || negb (seq_no batch =? 0) ||
                negb (bool_decide (origin_node_id batch = source_node_id chunk)))
        (invalid_argument "Full snapshot batch must use source identity and seq=0");
  let expected_flags := if chunk_has_more chunk then BATCH_HAS_MORE else BATCH_NONE in
  _ ← throw_if (negb (batch_flags batch =? expected_flags))
        (invalid_argument "Full snapshot continuation does not match batch flags");
  _ ← throw_if (size_of (ops batch) =? 0) (invalid_argument "Full snapshot chunk must contain at least one operation");
  validate_operations (chunk_manifest chunk) (ops batch).

(** ** Encoder *)

Definition overflow : exn := length_error "full snapshot size overflow".

Definition append_string (value : bytes) : writer := fun out =>
  _ ← throw_if (size_of value >? 2 ^ 32 - 1) (length_error "full snapshot string exceeds u32");
  out ← put_u32 (size_of value mod 2 ^ 32) out;
  append_bytes overflow value out.

Definition append_scope (scope : FullSnapshotScope) : writer := fun out =>
  _ ← validate_scope scope;
  append_u8 (snapshot_scope_code scope) out.

Definition append_origin (p : NodeId * Z) : writer := fun out =>
  out ← append_bytes overflow p.1 out;
  put_u64 p.2 out.

Definition append_cursor (c : SyncCursor) (bounds : CodecBounds) : writer := fun out =>
  _ ← validate_cursor c bounds;
  out ← put_u32 (cursor_size c mod 2 ^ 32) out;
  append_each append_origin (cursor_entries c) out.

Definition append_entry (entry : FullSnapshotManifestEntry) : writer := fun out =>
  out ← append_string (entry_dbi_name entry) out;
  put_u32 (entry_dbi_flags entry) out.

Definition validate_encoded_size (encoded : bytes) (bounds : CodecBounds) : result unit :=
  throw_if (size_of encoded >? max_snapshot_chunk_bytes bounds)
    (length_error "full snapshot chunk exceeds max_snapshot_chunk_bytes").

(** The appends of [encode]. *)
Definition append_chunk (chunk : FullSnapshotChunk) (bounds : CodecBounds) (nested : bytes) : writer := fun out =>
  out ← append_bytes overflow magic out;
  out ← put_u16 codec_version out;
  out ← append_bytes overflow (source_node_id chunk) out;
  out ← append_bytes overflow (source_db_uuid chunk) out;
  out ← append_string (snapshot_id chunk) out;
  out ← append_cursor (source_tail chunk) bounds out;
  out ← put_u64 (chunk_index chunk) out;
  out ← append_bool (chunk_has_more chunk) out;
  out ← append_scope (replacement_scope chunk) out;
  out ← append_string (continuation chunk) out;
  out ← put_u32 (manifest_version chunk) out;
  out ← put_u32 (size_of (chunk_manifest chunk) mod 2 ^ 32) out;
  out ← append_each append_entry (chunk_manifest chunk) out;
  _ ← throw_if (size_of nested >? 2 ^ 32 - 1) (length_error "full snapshot nested batch exceeds u32");
  out ← put_u32 (size_of nested mod 2 ^ 32) out;
  append_bytes overflow nested out.

Definition encode (chunk : FullSnapshotChunk) (bounds : option CodecBounds) : result bytes :=
  let bd := effective_bounds bounds in
  _ ← validate chunk (Some bd);
  nested ← batch_encode (chunk_batch chunk) (Some bd);
  out ← append_chunk chunk bd nested [];
  _ ← validate_encoded_size out bd;
  Ok out.

(** ** Decoder *)

Definition truncated : exn := runtime_error "Truncated full snapshot chunk".

Definition check_magic : reader unit :=
  m ← read_bytes truncated magic_size;
  check (negb (bool_decide (m = magic))) (runtime_error "Invalid full snapshot magic").

Definition read_string (limit : Z) (error : string) : reader bytes := read_sized truncated (length_error error) limit.

Definition read_cursor (bounds : CodecBounds) : reader SyncCursor :=
  read_sync_cursor truncated (length_error "full snapshot tail exceeds max_cursor_origins")
    (runtime_error "Duplicate origin in full snapshot tail") (max_cursor_origins bounds).

Definition read_scope : reader FullSnapshotScope :=
  raw ← read_u8 truncated;
  if raw =? snapshot_scope_code ManifestOnly then mret ManifestOnly
  else if raw =? snapshot_scope_code CompleteUserDatabase then mret CompleteUserDatabase
  else throw (runtime_error "Invalid full snapshot replacement scope").

Definition read_entry (bounds : CodecBounds) : reader FullSnapshotManifestEntry :=
  name ← read_string (max_dbi_name_len bounds) "full snapshot manifest DBI name exceeds max_dbi_name_len";
  flags ← read_u32 truncated;
  mret {| entry_dbi_name := name; entry_dbi_flags := flags |}.

(** The reads of [decode], up to the nested batch. *)
Definition read_chunk (bounds : CodecBounds) : reader FullSnapshotChunk :=
  _ ← check_magic;
  v ← read_u16 truncated;
  _ ← check (negb (v =? codec_version)) (runtime_error "Unsupported full snapshot codec version");
  node ← read_bytes truncated 16;
  db ← read_bytes truncated 16;
  id ← read_string (max_snapshot_id_len bounds) "full snapshot id exceeds max_snapshot_id_len";
  tail ← read_cursor bounds;
  index ← read_u64 truncated;
  more ← read_flag truncated (runtime_error "Invalid full snapshot continuation flag");
  scope ← read_scope;
  cont ← read_string (max_snapshot_id_len bounds) "full snapshot continuation exceeds max_snapshot_id_len";
  mv ← read_u32 truncated;
  manifest_count ← read_u32 truncated;
  _ ← check (manifest_count >? max_snapshot_manifest_entries bounds)
        (length_error "full snapshot manifest exceeds max_snapshot_manifest_entries");
  manifest ← repeat_read (Z.to_nat manifest_count) (read_entry bounds);
  nested_size ← read_u32 truncated;
  nested ← read_bytes truncated nested_size;
  batch ← lift_result (batch_decode_exact nested (Some bounds));
  mret {| source_node_id := node; source_db_uuid := db; snapshot_id := id; source_tail := tail; chunk_index := index;
          chunk_has_more := more; replacement_scope := scope; continuation := cont; manifest_version := mv;
          chunk_manifest := manifest; chunk_batch := batch |}.

Definition decode (encoded : bytes) (bounds : option CodecBounds) : result FullSnapshotChunk :=
  let bd := effective_bounds bounds in
  _ ← validate_encoded_size encoded bd;
  '(out, cur) ← read_chunk bd (make_cursor encoded);
  _ ← throw_if (negb (cur_pos cur =? cur_size cur)%nat) (runtime_error "Trailing bytes after full snapshot chunk");
  _ ← validate out (Some bd);
  Ok out.

(** ** What the checks demand *)

Definition manifest_name (entry : FullSnapshotManifestEntry) : bytes := entry_dbi_name entry.

(** An operation of a snapshot: it fills or empties a table of the manifest, opened with the
    flags the manifest gives, and carries nothing but a key and a value. *)
Record snapshot_op (manifest : list FullSnapshotManifestEntry) (op : ChangeOp) : Prop := {
  so_physical : op_flags op = OP_NONE ∧ identity_key op = [] ∧ revision_key op = [];
  so_kind : op_type op = Put ∨ op_type op = ClearTable ∧ storage_key op = [] ∧ value op = [];
  so_user : is_reserved_dbi (dbi_name op) = false;
  so_declared : manifest_entry_flags manifest (dbi_name op) = Some (dbi_flags op);
}.

Record chunk_spec (bd : CodecBounds) (c : FullSnapshotChunk) : Prop := {
  cs_source : is_zero_id (source_node_id c) = false ∧ is_zero_id (source_db_uuid c) = false;
  cs_id : snapshot_id c ≠ [] ∧ size_of (snapshot_id c) ≤ max_snapshot_id_len bd;
  cs_continuation : size_of (continuation c) ≤ max_snapshot_id_len bd ∧ (chunk_has_more c = true ↔ continuation c ≠ []);
  cs_version : manifest_version c = 1;
  cs_tail : cursor_size (source_tail c) ≤ max_cursor_origins bd;
  cs_manifest : chunk_manifest c ≠ [] ∧ size_of (chunk_manifest c) ≤ max_snapshot_manifest_entries bd;
  cs_names : Forall (fun e => entry_dbi_name e ≠ [] ∧ is_reserved_dbi (entry_dbi_name e) = false ∧
    size_of (entry_dbi_name e) ≤ max_dbi_name_len bd) (chunk_manifest c);
  cs_sorted : StronglySorted bytes_lt (manifest_name <$> chunk_manifest c);
  cs_batch : version (chunk_batch c) = ChangeBatchCodec.batch_version ∧ seq_no (chunk_batch c) = 0 ∧
    origin_node_id (chunk_batch c) = source_node_id c ∧
    batch_flags (chunk_batch c) = (if chunk_has_more c then BATCH_HAS_MORE else BATCH_NONE);
  cs_ops : ops (chunk_batch c) ≠ [] ∧ Forall (snapshot_op (chunk_manifest c)) (ops (chunk_batch c));
}.

Lemma size_of_nil {A} (l : list A) : (size_of l =? 0) = false ↔ l ≠ [].
Proof. unfold size_of. destruct l; cbn [length]; [done|]. split; [done|]. intros _. apply Z.eqb_neq. lia. Qed.

Lemma bind_unit_Ok (r : result unit) (k : result unit) : (_ ← r; k) = Ok tt ↔ r = Ok tt ∧ k = Ok tt.
Proof. split; [intros ([] & H1 & H2)%result_bind_Ok; done|intros [-> ->]; done]. Qed.

Lemma negb_false b : negb b = false ↔ b = true.
Proof. by destruct b. Qed.

Lemma validate_snapshot_operation_Ok op :
  validate_snapshot_operation op = Ok tt ↔
  (op_flags op = OP_NONE ∧ identity_key op = [] ∧ revision_key op = []) ∧
  (op_type op = Put ∨ op_type op = ClearTable ∧ storage_key op = [] ∧ value op = []).
Proof.
  unfold validate_snapshot_operation. rewrite !bind_unit_Ok, !throw_if_Ok, !orb_false_iff, !andb_false_iff, !orb_false_iff,
    !negb_false, !bool_decide_eq_true, !bool_decide_eq_false, Z.eqb_eq.
  destruct (op_type op); naive_solver.
Qed.

Lemma validate_operations_Ok manifest l : validate_operations manifest l = Ok tt ↔ Forall (snapshot_op manifest) l.
Proof.
  induction l as [|op l IH]; cbn [validate_operations]; [by rewrite Forall_nil|].
  rewrite !bind_unit_Ok, validate_snapshot_operation_Ok, throw_if_Ok, IH, Forall_cons.
  assert (match manifest_entry_flags manifest (dbi_name op) with
    | Some manifest_flags => throw_if (negb (dbi_flags op =? manifest_flags))
        (invalid_argument "Full snapshot operation DBI flags differ from manifest")
    | None => Throw (invalid_argument "Full snapshot operation is outside its manifest") end = Ok tt ↔
    manifest_entry_flags manifest (dbi_name op) = Some (dbi_flags op)) as ->.
  { destruct (manifest_entry_flags _ _) as [f|]; [|done]. rewrite throw_if_Ok, negb_false, Z.eqb_eq. naive_solver. }
  split; [intros ([Hp Hk] & Hu & Hd & Hl); by split; [split|]|intros [[Hp Hk Hu Hd] Hl]; done].
Qed.

Lemma validate_chunk_manifest_Ok bd previous l :
  validate_manifest bd previous l = Ok tt ↔
  Forall (fun e => entry_dbi_name e ≠ [] ∧ is_reserved_dbi (entry_dbi_name e) = false ∧
    size_of (entry_dbi_name e) ≤ max_dbi_name_len bd) l ∧
  StronglySorted bytes_lt (option_list (manifest_name <$> previous) ++ (manifest_name <$> l)).
Proof.
  revert previous. induction l as [|e l IH]; intros previous.
  { rewrite Forall_nil. cbn [fmap list_fmap]. rewrite app_nil_r. split; [|done]. intros _. split; [done|]. destruct previous; repeat constructor. }
  cbn [validate_manifest]. rewrite !bind_unit_Ok, !throw_if_Ok, IH, orb_false_iff, bool_decide_eq_false, gtb_false, Forall_cons.
  rewrite fmap_cons. cbn [fmap option_fmap option_map option_list app]. fold (manifest_name e).
  destruct previous as [p|]; cbn [option_list app].
  2:{ naive_solver. }
  rewrite negb_false, bool_decide_eq_true. fold (manifest_name p).
  assert (StronglySorted bytes_lt (manifest_name p :: manifest_name e :: (manifest_name <$> l)) ↔
    bytes_lt (manifest_name p) (manifest_name e) ∧ StronglySorted bytes_lt (manifest_name e :: (manifest_name <$> l))) as ->.
  { split.
    - intros [Hs Hf]%StronglySorted_inv. by apply Forall_cons in Hf as [? _].
    - intros [Hlt Hs]. constructor; [done|]. apply StronglySorted_inv in Hs as [_ Hf]. constructor; [done|].
      eapply Forall_impl; [exact Hf|]. intros x Hx. by eapply bytes_lt_trans. }
  naive_solver.
Qed.

Lemma validate_Ok bd c : validate c (Some bd) = Ok tt ↔ chunk_spec bd c.
Proof.
  unfold validate, validate_cursor. cbn [effective_bounds]. cbv zeta. rewrite !bind_unit_Ok, !throw_if_Ok, validate_chunk_manifest_Ok,
    validate_operations_Ok, !orb_false_iff, !negb_false, !gtb_false, !size_of_nil, !Z.eqb_eq, !bool_decide_eq_true,
    !bool_decide_eq_false, eqb_true_iff. cbn [fmap option_fmap option_map option_list app].
  assert (validate_scope (replacement_scope c) = Ok tt ↔ True) as -> by by destruct (replacement_scope c).
  assert (chunk_has_more c = negb (bool_decide (continuation c = [])) ↔ (chunk_has_more c = true ↔ continuation c ≠ [])) as ->.
  { destruct (chunk_has_more c); case_bool_decide; naive_solver. }
  split; [intros H; constructor; tauto|intros []; tauto].
Qed.

(** ** The encoding, as bytes *)

Definition manifest_bytes (e : FullSnapshotManifestEntry) : bytes :=
  sized_bytes (entry_dbi_name e) ++ write_u32_le (entry_dbi_flags e).

Definition chunk_bytes (c : FullSnapshotChunk) : bytes :=
  magic ++ write_u16_le codec_version ++ source_node_id c ++ source_db_uuid c ++ sized_bytes (snapshot_id c) ++
  cursor_bytes (source_tail c) ++ write_u64_le (chunk_index c) ++ [byte_of (if chunk_has_more c then 1 else 0)] ++
  [byte_of (snapshot_scope_code (replacement_scope c))] ++ sized_bytes (continuation c) ++ write_u32_le (manifest_version c) ++
  write_u32_le (size_of (chunk_manifest c)) ++ concat (manifest_bytes <$> chunk_manifest c) ++
  sized_bytes (batch_bytes (chunk_batch c)).

(** The value ranges of the C++ field types. *)
Definition chunk_ok (c : FullSnapshotChunk) : Prop :=
  node_ok (source_node_id c) ∧ node_ok (source_db_uuid c) ∧ cursor_ok (source_tail c) ∧ is_u64 (chunk_index c) ∧
  is_u32 (manifest_version c) ∧ Forall (fun e => is_u32 (entry_dbi_flags e)) (chunk_manifest c) ∧ batch_ok (chunk_batch c).

#[export] Instance chunk_ok_dec c : Decision (chunk_ok c) := _.

Ltac chunk_fields :=
  cbn [source_node_id source_db_uuid snapshot_id source_tail chunk_index chunk_has_more replacement_scope continuation
       manifest_version chunk_manifest chunk_batch].

Section Codec.
Context (bd : CodecBounds) (Hbd : bounds_valid bd).
Abbreviation limit := (max_snapshot_chunk_bytes bd).

Lemma limit_small : limit < 2 ^ 64.
Proof. assert (limit < 2 ^ 32) by limit_range Hbd. lia. Qed.

Lemma writes_snapshot_string s : writes limit (append_string s) (sized_bytes s) (size_of s < 2 ^ 32).
Proof.
  pose proof limit_small. destruct (decide (size_of s < 2 ^ 32)) as [Hs|Hs].
  - unfold append_string, sized_bytes. rewrite Z.mod_small by (unfold size_of in *; lia).
    eapply writes_iff; [apply writes_throw_if, writes_bind; [apply writes_u32|by apply writes_bytes]|].
    rewrite gtb_false. split; [done|]. intros _. split; [lia|done].
  - unfold append_string. split.
    + intros out out' ([] & Hn%throw_if_Ok%gtb_false & _)%result_bind_Ok. lia.
    + done.
Qed.

Lemma writes_tail c :
  writes limit (append_cursor c bd) (cursor_bytes c) (cursor_size c ≤ max_cursor_origins bd).
Proof.
  pose proof limit_small. unfold append_cursor. destruct (decide (cursor_size c ≤ max_cursor_origins bd)) as [Hc|Hc].
  - unfold cursor_bytes, validate_cursor. rewrite Z.mod_small.
    2:{ assert (max_cursor_origins bd < 2 ^ 32) by limit_range Hbd. unfold cursor_size in *. lia. }
    eapply writes_iff.
    + apply writes_throw_if, writes_bind; [apply writes_u32|].
      apply (writes_each _ _ _ (fun _ => True ∧ True)). intros p _. unfold append_origin, entry_bytes.
      apply writes_bind; [by apply writes_bytes|apply writes_u64].
    + rewrite gtb_false. split; [done|]. intros _. split_and!; [done|done|]. by apply Forall_true.
  - split; [|done]. intros out out' ([] & Hn%throw_if_Ok%gtb_false & _)%result_bind_Ok. lia.
Qed.

Lemma writes_chunk c :
  chunk_spec bd c → batch_ready bd (chunk_batch c) →
  writes limit (append_chunk c bd (batch_bytes (chunk_batch c))) (chunk_bytes c) True.
Proof.
  intros Hc Hb. pose proof limit_small as Hlim. pose proof (batch_ready_size _ Hbd _ Hb) as [_ Hbs].
  assert (max_snapshot_id_len bd < 2 ^ 32 ∧ max_dbi_name_len bd < 2 ^ 32 ∧ max_snapshot_manifest_entries bd < 2 ^ 32) as (L1 & L2 & L3)
    by limit_range Hbd.
  destruct Hc as [_ [_ Hid] [Hcont _] _ Htail [_ Hman] Hnames _ _ _]. unfold append_chunk, chunk_bytes, sized_bytes at 3.
  rewrite !Z.mod_small by (unfold size_of in *; lia). eapply writes_iff.
  - do 2 (apply writes_bind; [by auto using writes_bytes, writes_u16|]).
    do 2 (apply writes_bind; [by apply writes_bytes|]). apply writes_bind; [apply writes_snapshot_string|].
    apply writes_bind; [apply writes_tail|]. apply writes_bind; [apply writes_u64|]. apply writes_bind; [apply writes_bool|].
    apply writes_bind; [by apply writes_check, writes_u8; destruct (replacement_scope c)|].
    apply writes_bind; [apply writes_snapshot_string|]. do 2 (apply writes_bind; [apply writes_u32|]). apply writes_bind.
    + apply (writes_each _ _ _ (fun e => size_of (entry_dbi_name e) < 2 ^ 32 ∧ True)). intros e _.
      apply writes_bind; [apply writes_snapshot_string|apply writes_u32].
    + apply writes_throw_if, writes_bind; [apply writes_u32|by apply writes_bytes].
  - split; [done|]. intros _. rewrite gtb_false. split_and!; try done; try lia.
    eapply Forall_impl; [exact Hnames|]. intros e (_ & _ & He). split; [lia|done].
Qed.

Lemma chunk_encode_Ok c bs :
  encode c (Some bd) = Ok bs ↔
  chunk_spec bd c ∧ batch_ready bd (chunk_batch c) ∧ bs = chunk_bytes c ∧ size_of bs ≤ limit.
Proof.
  unfold encode. cbn [effective_bounds]. split.
  - intros ([] & Hc%validate_Ok & (nested & [Hb ->]%batch_encode_ready & (out & Hw & ([] & Hs%throw_if_Ok%gtb_false & [= <-])
      %result_bind_Ok)%result_bind_Ok)%result_bind_Ok)%result_bind_Ok.
    apply writes_chunk in Hw as [_ ->]; [|done..]. done.
  - intros (Hc & Hb & -> & Hs). rewrite (proj2 (validate_Ok _ _) Hc). cbn [mbind result_bind]. rewrite Hb. cbn [mbind result_bind].
    rewrite (writes_succeeds _ _ _ _ (writes_chunk _ Hc Hb) []) by done. cbn [mbind result_bind app]. unfold validate_encoded_size.
    by rewrite (proj2 (gtb_false _ _) Hs).
Qed.

(** Operations of a snapshot have no keys that the wire would drop. *)
Lemma snapshot_batch_canonical c : chunk_spec bd c → canonical_batch (chunk_batch c) = chunk_batch c.
Proof.
  intros [_ _ _ _ _ _ _ _ _ [_ Hops]]. destruct (chunk_batch c) as [v f o q tm l]. cbn [ops] in *.
  unfold ChangeBatchCodec.canonical_batch. cbn [version batch_flags origin_node_id seq_no time_unix_ns ops]. f_equal.
  rewrite <- (list_fmap_id l) at 2. apply list_fmap_ext. intros i op Hop%list_elem_of_lookup_2. cbn.
  rewrite Forall_forall in Hops. destruct (Hops _ Hop) as [(Hf & Hi & Hr) _ _ _].
  destruct op. unfold ChangeBatchCodec.canonical_op. cbn in *. by subst.
Qed.

Lemma reads_snapshot_magic : reads check_magic magic tt.
Proof.
  unfold check_magic. eapply reads_last; [by apply reads_bytes|].
  rewrite bool_decide_true by done. apply reads_ret.
Qed.

Lemma reads_snapshot_scope s : reads read_scope [byte_of (snapshot_scope_code s)] s.
Proof.
  unfold read_scope. eapply reads_last; [apply reads_u8|]. destruct s; apply reads_ret.
Qed.

Lemma reads_manifest_entry e :
  is_u32 (entry_dbi_flags e) → size_of (entry_dbi_name e) < 2 ^ 32 → size_of (entry_dbi_name e) ≤ max_dbi_name_len bd →
  reads (read_entry bd) (manifest_bytes e) e.
Proof.
  intros Hf Hs Hl. unfold read_entry, manifest_bytes. eapply reads_bind; [by apply reads_sized|].
  eapply reads_last; [by apply reads_u32|]. destruct e. apply reads_ret.
Qed.

Lemma reads_chunk c :
  chunk_ok c → chunk_spec bd c → batch_ready bd (chunk_batch c) → reads (read_chunk bd) (chunk_bytes c) c.
Proof.
  intros (Hn & Hdb & Htok & Hidx & Hmv & Hfl & Hbok) Hc Hb.
  assert (max_snapshot_id_len bd < 2 ^ 32 ∧ max_dbi_name_len bd < 2 ^ 32 ∧ max_snapshot_manifest_entries bd < 2 ^ 32 ∧
    max_cursor_origins bd < 2 ^ 32) as (L1 & L2 & L3 & L4) by limit_range Hbd.
  pose proof (batch_ready_size _ Hbd _ Hb) as [_ Hbs]. pose proof (batch_ready_decode _ Hbd _ Hbok Hb) as Hdec.
  rewrite (snapshot_batch_canonical _ Hc) in Hdec.
  destruct Hc as [_ [_ Hid] [Hcont _] _ Htail [_ Hman] Hnames _ _ _]. unfold read_chunk, chunk_bytes.
  eapply reads_bind; [apply reads_snapshot_magic|]. eapply reads_bind; [by apply reads_u16|]. apply reads_check; [done|].
  eapply reads_bind; [apply reads_bytes; by rewrite Hn|]. eapply reads_bind; [apply reads_bytes; by rewrite Hdb|].
  eapply reads_bind; [apply reads_sized; lia|]. eapply reads_bind; [apply reads_cursor; [done|lia|lia]|].
  eapply reads_bind; [by apply reads_u64|]. eapply reads_bind; [apply reads_flag|]. eapply reads_bind; [apply reads_snapshot_scope|].
  eapply reads_bind; [by apply reads_sized; [lia|]|]. eapply reads_bind; [by apply reads_u32|].
  eapply reads_bind; [apply reads_u32; unfold u_range, size_of in *; lia|]. apply reads_check; [by apply gtb_false|].
  eapply reads_bind.
  { unfold size_of. rewrite Nat2Z.id. apply (reads_repeat _ manifest_bytes id). intros e He. rewrite Forall_forall in *.
    destruct (Hnames _ He) as (_ & _ & Hl). apply (reads_manifest_entry e); [by apply Hfl|lia|done]. }
  unfold sized_bytes. eapply reads_bind; [apply reads_u32; unfold u_range, size_of in *; lia|].
  eapply reads_last; [by apply reads_bytes|]. rewrite Hdec. eapply reads_last; [apply reads_lift|]. rewrite list_fmap_id. destruct c. apply reads_ret.
Qed.

(** ** What a decoded chunk satisfies *)

Lemma accepts_snapshot_magic : accepts check_magic (fun s _ => s = magic).
Proof.
  unfold check_magic. eapply accepts_bind; [by apply accepts_bytes|]. intros s m [-> _]. unfold check.
  case_bool_decide as E; cbn [negb]; [|apply accepts_throw]. apply accepts_ret. by rewrite app_nil_r.
Qed.

Lemma accepts_scope : accepts read_scope (fun s _ => length s = 1%nat).
Proof.
  unfold read_scope. eapply accepts_bind; [apply accepts_u8|]. intros s v (b & -> & ->).
  destruct (_ =? _); [by apply accepts_ret|]. destruct (_ =? _); [by apply accepts_ret|apply accepts_throw].
Qed.

Lemma accepts_entry :
  accepts (read_entry bd) (fun s e => is_u32 (entry_dbi_flags e) ∧ length s = length (manifest_bytes e)).
Proof.
  unfold read_entry. eapply accepts_bind; [apply accepts_sized|]. intros s1 name (-> & _ & _).
  eapply accepts_bind; [apply accepts_u32|]. intros s2 flags [Hf ->]. apply accepts_ret. rewrite app_nil_r. done.
Qed.

Lemma accepts_chunk :
  accepts (read_chunk bd) (fun s c => chunk_ok c ∧ batch_ready bd (chunk_batch c) ∧ length s = length (chunk_bytes c)).
Proof.
  unfold read_chunk. eapply accepts_bind; [apply accepts_snapshot_magic|]. intros s0 _ ->.
  eapply accepts_bind; [apply accepts_u16|]. intros s1 v [_ ->]. apply accepts_check. intros _.
  eapply accepts_bind; [by apply accepts_bytes|]. intros s2 node [-> Hn]. eapply accepts_bind; [by apply accepts_bytes|].
  intros s3 db [-> Hdb]. eapply accepts_bind; [apply accepts_sized|]. intros s4 sid (-> & _ & _).
  eapply accepts_bind; [apply accepts_cursor|]. intros s5 tail (Htail & _ & _ & Lt). eapply accepts_bind; [apply accepts_u64|].
  intros s6 index [Hi ->]. eapply accepts_bind; [apply accepts_flag|]. intros s7 more ->.
  eapply accepts_bind; [apply accepts_scope|]. intros s8 scope Ls. eapply accepts_bind; [apply accepts_sized|].
  intros s9 cont (-> & _ & _). eapply accepts_bind; [apply accepts_u32|]. intros s10 mv [Hmv ->].
  eapply accepts_bind; [apply accepts_u32|]. intros s11 count [Hcount ->]. apply accepts_check. intros _.
  eapply accepts_bind; [apply accepts_repeat, accepts_entry|]. intros s12 man (Hm & ss & -> & Hss).
  eapply accepts_bind; [apply accepts_u32|]. intros s13 size [Hsize ->]. eapply accepts_bind; [apply accepts_bytes, Hsize|].
  intros s14 nested [-> Hnested]. eapply accepts_bind; [apply accepts_lift|].
  intros s15 batch [-> (Hbok & _ & Hb & Lb)%(batch_decoded_ready _ Hbd)]. apply accepts_ret.
  pose proof (ChangeBatchCodec.Forall2_length_sum _ manifest_bytes _ _ Hss) as Lm. cbn [chunk_batch]. split_and!; [|done|].
  - unfold chunk_ok. chunk_fields. unfold node_ok, size_of in *. split_and!; try done; try lia.
    eapply Forall2_Forall_r; [exact Hss|]. apply Forall_true. by intros ? ? [??].
  - unfold chunk_bytes, sized_bytes. chunk_fields. rewrite !length_app, Lt, Lb, Ls, Lm by by intros ?? [??].
    rewrite !write_u16_le_length, !write_u32_le_length, !write_u64_le_length. cbn [length]. lia.
Qed.

Lemma chunk_decode_Ok data c :
  decode data (Some bd) = Ok c →
  chunk_ok c ∧ chunk_spec bd c ∧ batch_ready bd (chunk_batch c) ∧ length data = length (chunk_bytes c) ∧ size_of data ≤ limit.
Proof.
  unfold decode. cbn [effective_bounds]. intros ([] & Hs%throw_if_Ok%gtb_false & H)%result_bind_Ok.
  apply result_bind_Ok in H as ([out cur] & Hr & H).
  apply result_bind_Ok in H as ([] & He%throw_if_Ok & ([] & Hv%validate_Ok & [= <-])%result_bind_Ok).
  destruct (accepts_chunk _ _ _ _ (at_bytes_make data) Hr) as (s & rest & E & -> & Hok & Hb & Hlen).
  apply negb_false, Nat.eqb_eq in He. rewrite E in He. unfold advance, make_cursor, cur_size in He. cbn in He. rewrite length_app in He.
  split_and!; try done. rewrite E, length_app. lia.
Qed.

Lemma decode_encoded c :
  chunk_ok c → chunk_spec bd c → batch_ready bd (chunk_batch c) → size_of (chunk_bytes c) ≤ limit →
  decode (chunk_bytes c) (Some bd) = Ok c.
Proof.
  intros Hok Hc Hb Hs. unfold decode, validate_encoded_size. cbn [effective_bounds]. rewrite (proj2 (gtb_false _ _) Hs).
  cbn [throw_if mbind result_bind]. rewrite (reads_chunk c Hok Hc Hb _ []) by (rewrite app_nil_r; apply at_bytes_make).
  cbn [mbind result_bind]. unfold advance, make_cursor, cur_size. cbn [cur_pos cur_data]. rewrite Nat.add_0_l, Nat.eqb_refl.
  cbn [negb throw_if mbind result_bind]. by rewrite (proj2 (validate_Ok _ _) Hc).
Qed.
End Codec.

(** ** Theorems *)

(** A null pointer and the default bounds give the same results. *)
Lemma encode_effective c bounds : encode c bounds = encode c (Some (effective_bounds bounds)).
Proof. done. Qed.
Lemma decode_effective data bounds : decode data bounds = decode data (Some (effective_bounds bounds)).
Proof. done. Qed.

(** Encoding a chunk and decoding the result gives the chunk back. *)
Theorem snapshot_chunk_roundtrip (c : FullSnapshotChunk) (bounds : option CodecBounds) (bs : bytes) :
  bounds_arg_valid bounds → chunk_ok c → encode c bounds = Ok bs → decode bs bounds = Ok c.
Proof.
  intros Hb Hok. rewrite encode_effective, decode_effective. intros (Hc & Hr & -> & Hs)%chunk_encode_Ok; [|done].
  by apply decode_encoded.
Qed.

(** C35: a receiver sees only well-formed chunks: whatever bytes it is given, a chunk that
    decodes names its source, has a non-empty manifest that is strictly ordered by table name
    and free of reserved tables, continues exactly when it says so, and its batch carries
    sequence number 0, the source's identity and only operations that fill or empty tables
    of the manifest with the flags given there; all sizes are within the bounds.  It can be
    sent on: encoding it takes as many bytes and decodes to the same chunk. *)
Theorem snapshot_chunk_checked (data : bytes) (bounds : option CodecBounds) (c : FullSnapshotChunk) :
  bounds_arg_valid bounds → decode data bounds = Ok c →
  chunk_ok c ∧ chunk_spec (effective_bounds bounds) c ∧
  ∃ bs, encode c bounds = Ok bs ∧ length bs = length data ∧ decode bs bounds = Ok c.
Proof.
  intros Hb. rewrite decode_effective. intros (Hok & Hc & Hr & Hlen & Hs)%chunk_decode_Ok; [|done].
  split_and!; [done|done|]. exists (chunk_bytes c).
  assert (size_of (chunk_bytes c) ≤ max_snapshot_chunk_bytes (effective_bounds bounds)) by (unfold size_of in *; lia).
  split_and!; [|done|rewrite decode_effective; by apply decode_encoded].
  rewrite encode_effective. by apply chunk_encode_Ok.
Qed.

(** A last chunk with one table and one record. *)
Definition sample_source : NodeId := replicate 15 (byte_of 0) ++ [byte_of 5].
Definition sample_chunk : FullSnapshotChunk := {|
  source_node_id := sample_source; source_db_uuid := sample_source; snapshot_id := bytes_of_string "s1";
  source_tail := {| last_seq_by_origin := {[ sample_source := 9 ]} |}; chunk_index := 2; chunk_has_more := false;
  replacement_scope := CompleteUserDatabase; continuation := []; manifest_version := 1;
  chunk_manifest := [{| entry_dbi_name := bytes_of_string "users"; entry_dbi_flags := 8 |}];
  chunk_batch := {| version := 1; batch_flags := 0; origin_node_id := sample_source; seq_no := 0; time_unix_ns := 7;
    ops := [{| op_type := ClearTable; op_flags := 0; dbi_flags := 8; dbi_name := bytes_of_string "users"; storage_key := [];
               value := []; identity_key := []; revision_key := [] |};
            {| op_type := Put; op_flags := 0; dbi_flags := 8; dbi_name := bytes_of_string "users";
               storage_key := bytes_of_string "k"; value := bytes_of_string "v"; identity_key := []; revision_key := [] |}] |};
|}.

Definition sample_chunk_bytes : bytes := match encode sample_chunk None with Ok bs => bs | Throw _ => [] end.

Lemma default_bounds_valid : bounds_valid default_bounds.
Proof. apply (bool_decide_unpack _). vm_compute. exact I. Qed.

Lemma snapshot_chunk_checked_witness :
  chunk_spec default_bounds sample_chunk ∧
  ∃ bs, encode sample_chunk None = Ok bs ∧ length bs = length sample_chunk_bytes ∧ decode bs None = Ok sample_chunk.
Proof.
  assert (decode sample_chunk_bytes None = Ok sample_chunk) as Hd by (vm_compute; reflexivity).
  destruct (snapshot_chunk_checked sample_chunk_bytes None sample_chunk default_bounds_valid Hd) as (_ & Hc & Hb).
  split; [exact Hc|exact Hb].
Defined.
