(* ===== verification/TransportCodec.v ===== *)
(** * The transport message codec

    Models [src/include/mdbx_containers/sync/transport/TransportMessageCodec.hpp]: the
    encoders and strict decoders of the pull and push requests and responses.  The theorems
    show that decoding inverts encoding for all four messages, that a message is never taken
    for one of another type, and that whatever decodes is within the bounds and can be sent
    on. *)
From S2P Require Import Prelude SyncCommon Wire SyncProtocol Writers.
From S2P Require ChangeBatchCodec SnapshotCodec.
Open Scope Z_scope.

Inductive TransportMessageType : Type := PullRequestType | PullResponseType | PushRequestType | PushResponseType.

#[export] Instance TransportMessageType_eq_dec : EqDecision TransportMessageType.
Proof. solve_decision. Defined.

(** The enumerator values. *)
Definition message_type_code (t : TransportMessageType) : Z :=
  match t with PullRequestType => 1 | PullResponseType => 2 | PushRequestType => 3 | PushResponseType => 4 end.

Definition magic : bytes := bytes_of_string "MDBXCPRT".
Definition magic_size : Z := 8.
Definition codec_version : Z := 5.

(** ** Appends *)

Definition overflow : exn := length_error "transport message size overflow".

Definition make_header (type : TransportMessageType) : writer := fun out =>
  out ← append_bytes overflow magic out;
  out ← put_u16 codec_version out;
  out ← append_u8 (message_type_code type) out;
  put_u32 0 out.

Definition append_response_error_code (code : SyncResponseErrorCode) : writer := put_u16 (error_code_value code).

Definition append_node (node : NodeId) : writer := append_bytes overflow node.

Definition append_origin (p : NodeId * Z) : writer := fun out =>
  out ← append_node p.1 out;
  put_u64 p.2 out.

Definition append_cursor (c : SyncCursor) (bounds : CodecBounds) : writer := fun out =>
  _ ← throw_if (cursor_size c >? max_cursor_origins bounds) (length_error "cursor origins exceed max_cursor_origins");
  out ← append_u32_size (cursor_size c) "cursor origins exceed u32" out;
  append_each append_origin (cursor_entries c) out.

Definition append_text (limit : Z) (too_long label : string) (value : bytes) : writer := fun out =>
  _ ← throw_if (size_of value >? limit) (length_error too_long);
  out ← append_u32_size (size_of value) label out;
  if bool_decide (value = []) then Ok out else append_bytes overflow value out.

Definition append_string (value : string) (bounds : CodecBounds) : writer :=
  append_text (max_error_len bounds) "error string exceeds max_error_len" "string length exceeds u32" (bytes_of_string value).

Definition append_snapshot_token (value : bytes) (bounds : CodecBounds) : writer :=
  append_text (max_snapshot_id_len bounds) "snapshot token exceeds max_snapshot_id_len" "snapshot token length exceeds u32" value.

Definition append_snapshot_chunk (chunk : FullSnapshotChunk) (bounds : CodecBounds) : writer := fun out =>
  encoded ← SnapshotCodec.encode chunk (Some bounds);
  out ← append_u32_size (size_of encoded) "full snapshot chunk length exceeds u32" out;
  append_bytes overflow encoded out.

Definition append_batch (bounds : CodecBounds) (batch : ChangeBatch) : writer := fun out =>
  encoded ← batch_encode batch (Some bounds);
  _ ← throw_if (size_of encoded >? max_batch_total_bytes bounds) (length_error "batch bytes exceed max_batch_total_bytes");
  out ← append_u32_size (size_of encoded) "batch bytes length exceeds u32" out;
  append_bytes overflow encoded out.

Definition append_batches (batches : list ChangeBatch) (bounds : CodecBounds) : writer := fun out =>
  _ ← throw_if (size_of batches >? max_batches_per_message bounds) (length_error "batches exceed max_batches_per_message");
  out ← append_u32_size (size_of batches) "batches count exceeds u32" out;
  append_each (append_batch bounds) batches out.

Definition validate_message_size (out : bytes) (bounds : CodecBounds) : result unit :=
  throw_if (size_of out >? max_transport_message_bytes bounds)
    (length_error "transport message exceeds max_transport_message_bytes").

(** ** Snapshot state of the messages *)

Definition validate_pull_request_snapshot (request : PullRequest) (bounds : CodecBounds) : result unit :=
  let id := full_snapshot_id request in
  let cont := full_snapshot_continuation request in
  _ ← throw_if ((size_of id >? max_snapshot_id_len bounds) || (size_of cont >? max_snapshot_id_len bounds))
        (length_error "snapshot token exceeds max_snapshot_id_len");
  _ ← throw_if (negb (request_full_snapshot request) && (negb (bool_decide (id = [])) || negb (bool_decide (cont = []))))
        (invalid_argument "incremental pull contains full snapshot session state");
  throw_if (request_full_snapshot request && negb (eqb (bool_decide (id = [])) (bool_decide (cont = []))))
    (invalid_argument "full snapshot session id and continuation must both be empty or set").

Definition validate_pull_response_snapshot (response : PullResponse) (bounds : CodecBounds) : result unit :=
  if negb (is_full_snapshot response) then Ok tt
  else
    _ ← throw_if (negb (bool_decide (batches response = [])))
          (invalid_argument "full snapshot response also contains incremental batches");
    _ ← throw_if (negb (pull_ok response)) (invalid_argument "failed pull response contains a full snapshot chunk");
    _ ← SnapshotCodec.validate (snapshot_chunk response) (Some bounds);
    throw_if (negb (eqb (has_more response) (chunk_has_more (snapshot_chunk response))))
      (invalid_argument "pull and full snapshot continuation flags differ").

(** ** Encoders *)

Definition write_pull_request (request : PullRequest) (bd : CodecBounds) : writer := fun out =>
  out ← make_header PullRequestType out;
  out ← append_node (pull_requester request) out;
  out ← append_node (pull_db_id request) out;
  out ← append_cursor (have request) bd out;
  out ← put_u64 (max_batches request) out;
  out ← put_u64 (max_bytes request) out;
  out ← append_bool (request_full_snapshot request) out;
  _ ← validate_pull_request_snapshot request bd;
  out ← append_snapshot_token (full_snapshot_id request) bd out;
  out ← append_snapshot_token (full_snapshot_continuation request) bd out;
  put_u64 (max_single_batch_bytes request) out.

Definition write_pull_response (response : PullResponse) (bd : CodecBounds) : writer := fun out =>
  out ← make_header PullResponseType out;
  out ← append_cursor (remote_have response) bd out;
  out ← append_cursor (remote_tail response) bd out;
  out ← append_bool (remote_tail_known response) out;
  out ← append_batches (batches response) bd out;
  out ← append_bool (has_more response) out;
  _ ← validate_pull_response_snapshot response bd;
  out ← append_bool (is_full_snapshot response) out;
  out ← (if is_full_snapshot response then append_snapshot_chunk (snapshot_chunk response) bd out else Ok out);
  out ← append_bool (pull_ok response) out;
  out ← append_string (pull_error response) bd out;
  out ← append_response_error_code (pull_error_code response) out;
  append_bool (pull_error_retryable response) out.

Definition write_push_request (request : PushRequest) (bd : CodecBounds) : writer := fun out =>
  out ← make_header PushRequestType out;
  out ← append_node (sender request) out;
  out ← append_node (push_db_id request) out;
  append_batches (push_batches request) bd out.

Definition write_push_response (response : PushResponse) (bd : CodecBounds) : writer := fun out =>
  out ← make_header PushResponseType out;
  out ← append_cursor (receiver_have response) bd out;
  out ← append_bool (push_ok response) out;
  out ← append_string (push_error response) bd out;
  out ← append_response_error_code (push_error_code response) out;
  append_bool (push_error_retryable response) out.

(** Every encoder ends by checking the size of the message. *)
Definition encode_sized (w : writer) (bd : CodecBounds) : result bytes :=
  out ← w [];
  _ ← validate_message_size out bd;
  Ok out.

Definition encode_pull_request (request : PullRequest) (bounds : option CodecBounds) : result bytes :=
  encode_sized (write_pull_request request (effective_bounds bounds)) (effective_bounds bounds).
Definition encode_pull_response (response : PullResponse) (bounds : option CodecBounds) : result bytes :=
  encode_sized (write_pull_response response (effective_bounds bounds)) (effective_bounds bounds).
Definition encode_push_request (request : PushRequest) (bounds : option CodecBounds) : result bytes :=
  encode_sized (write_push_request request (effective_bounds bounds)) (effective_bounds bounds).
Definition encode_push_response (response : PushResponse) (bounds : option CodecBounds) : result bytes :=
  encode_sized (write_push_response response (effective_bounds bounds)) (effective_bounds bounds).

(** ** Reads *)

Definition underrun : exn := runtime_error "Transport codec buffer underrun".

Definition too_long : exn := length_error "transport message exceeds max_transport_message_bytes".
Definition trailing : exn := runtime_error "Trailing bytes after transport message".

Definition check_magic : reader unit :=
  m ← read_bytes underrun magic_size;
  check (negb (bool_decide (m = magic))) (runtime_error "Transport codec magic mismatch").

Definition unexpected_type : exn := runtime_error "Unexpected transport message type".

Definition message_type_of_code (code : Z) : option TransportMessageType :=
  match code with
  | 1 => Some PullRequestType
  | 2 => Some PullResponseType
  | 3 => Some PushRequestType
  | 4 => Some PushResponseType
  | _ => None
  end.

Definition read_header_type : reader TransportMessageType :=
  _ ← check_magic;
  v ← read_u16 underrun;
  _ ← check (negb (v =? codec_version)) (runtime_error "Unsupported transport codec_version");
  type ← read_u8 underrun;
  flags ← read_u32 underrun;
  _ ← check (negb (flags =? 0)) (runtime_error "Unknown mandatory transport message flags");
  match message_type_of_code type with
  | Some t => mret t
  | None => throw unexpected_type
  end.

Definition check_header (expected : TransportMessageType) : reader unit :=
  type ← read_header_type;
  check (negb (bool_decide (type = expected))) unexpected_type.

Definition read_bool : reader bool := read_flag underrun (runtime_error "Invalid transport bool value").
Definition read_node : reader NodeId := read_bytes underrun 16.

Definition error_code_of_value (v : Z) : option SyncResponseErrorCode :=
  match v with
  | 0 => Some ErrNone
  | 1 => Some DbIdMismatch
  | 2 => Some UnsupportedFullSnapshot
  | 3 => Some ApplyConflict
  | 4 => Some SnapshotRequired
  | 5 => Some BatchTooLarge
  | 6 => Some SnapshotNotConfigured
  | 7 => Some SnapshotSessionInvalid
  | 8 => Some SnapshotSessionBusy
  | 9 => Some SnapshotLogicalStateUnsupported
  | _ => None
  end.

Definition read_response_error_code : reader SyncResponseErrorCode :=
  v ← read_u16 underrun;
  match error_code_of_value v with
  | Some code => mret code
  | None => throw (runtime_error "Invalid SyncResponseErrorCode")
  end.

Definition read_cursor (bounds : CodecBounds) : reader SyncCursor :=
  read_sync_cursor underrun (length_error "cursor origins exceed max_cursor_origins")
    (runtime_error "Duplicate origin in transport cursor") (max_cursor_origins bounds).

Definition read_text (limit : Z) (too_long : string) : reader bytes :=
  len ← read_u32 underrun;
  _ ← check (len >? limit) (length_error too_long);
  if len =? 0 then mret [] else read_bytes underrun len.

Definition read_string (bounds : CodecBounds) : reader string :=
  b ← read_text (max_error_len bounds) "error string exceeds max_error_len";
  mret (String.string_of_list_byte b).

Definition read_snapshot_token (bounds : CodecBounds) : reader bytes :=
  read_text (max_snapshot_id_len bounds) "snapshot token exceeds max_snapshot_id_len".

Definition read_snapshot_chunk (bounds : CodecBounds) : reader FullSnapshotChunk :=
  encoded ← read_sized underrun (length_error "full snapshot chunk exceeds max_snapshot_chunk_bytes")
              (max_snapshot_chunk_bytes bounds);
  lift_result (SnapshotCodec.decode encoded (Some bounds)).

Definition read_batch (bounds : CodecBounds) : reader ChangeBatch :=
  encoded ← read_sized underrun (length_error "batch bytes exceed max_batch_total_bytes") (max_batch_total_bytes bounds);
  lift_result (batch_decode_exact encoded (Some bounds)).

Definition read_batches (bounds : CodecBounds) : reader (list ChangeBatch) :=
  count ← read_u32 underrun;
  _ ← check (count >? max_batches_per_message bounds) (length_error "batches exceed max_batches_per_message");
  repeat_read (Z.to_nat count) (read_batch bounds).

(** ** Decoders *)

Definition read_pull_request (bd : CodecBounds) : reader PullRequest :=
  _ ← check_header PullRequestType;
  requester ← read_node;
  db_id ← read_node;
  have ← read_cursor bd;
  max_batches ← read_u64 underrun;
  max_bytes ← read_u64 underrun;
  full ← read_bool;
  id ← read_snapshot_token bd;
  cont ← read_snapshot_token bd;
  max_single ← read_u64 underrun;
  let request := {| pull_requester := requester; pull_db_id := db_id; have := have; max_batches := max_batches;
                    max_bytes := max_bytes; request_full_snapshot := full; full_snapshot_id := id;
                    full_snapshot_continuation := cont; max_single_batch_bytes := max_single |} in
  _ ← lift_result (validate_pull_request_snapshot request bd);
  mret request.

Definition read_pull_response (bd : CodecBounds) : reader PullResponse :=
  _ ← check_header PullResponseType;
  remote_have ← read_cursor bd;
  remote_tail ← read_cursor bd;
  known ← read_bool;
  batches ← read_batches bd;
  more ← read_bool;
  full ← read_bool;
  chunk ← (if full then read_snapshot_chunk bd else mret default_chunk);
  ok ← read_bool;
  error ← read_string bd;
  code ← read_response_error_code;
  retryable ← read_bool;
  mret {| remote_have := remote_have; remote_tail := remote_tail; remote_tail_known := known; batches := batches;
          has_more := more; is_full_snapshot := full; snapshot_chunk := chunk; pull_ok := ok; pull_error := error;
          pull_error_code := code; pull_error_retryable := retryable |}.

Definition read_push_request (bd : CodecBounds) : reader PushRequest :=
  _ ← check_header PushRequestType;
  sender ← read_node;
  db_id ← read_node;
  batches ← read_batches bd;
  mret {| sender := sender; push_db_id := db_id; push_batches := batches |}.

Definition read_push_response (bd : CodecBounds) : reader PushResponse :=
  _ ← check_header PushResponseType;
  have ← read_cursor bd;
  ok ← read_bool;
  error ← read_string bd;
  code ← read_response_error_code;
  retryable ← read_bool;
  mret {| receiver_have := have; push_ok := ok; push_error := error; push_error_code := code;
          push_error_retryable := retryable |}.

(** [make_cursor], the reads, [check_consumed]. *)
Definition finish {A} (r : reader A) (data : bytes) (bd : CodecBounds) : result A :=
  decode_all too_long trailing (max_transport_message_bytes bd) r data.

Definition peek_message_type (data : bytes) (bounds : option CodecBounds) : result TransportMessageType :=
  _ ← throw_if (size_of data >? max_transport_message_bytes (effective_bounds bounds)) too_long;
  '(t, _) ← read_header_type (make_cursor data);
  Ok t.

Definition decode_pull_request (data : bytes) (bounds : option CodecBounds) : result PullRequest :=
  finish (read_pull_request (effective_bounds bounds)) data (effective_bounds bounds).
Definition decode_pull_response (data : bytes) (bounds : option CodecBounds) : result PullResponse :=
  response ← finish (read_pull_response (effective_bounds bounds)) data (effective_bounds bounds);
  _ ← validate_pull_response_snapshot response (effective_bounds bounds);
  Ok response.
Definition decode_push_request (data : bytes) (bounds : option CodecBounds) : result PushRequest :=
  finish (read_push_request (effective_bounds bounds)) data (effective_bounds bounds).
Definition decode_push_response (data : bytes) (bounds : option CodecBounds) : result PushResponse :=
  finish (read_push_response (effective_bounds bounds)) data (effective_bounds bounds).

(** ** The messages and their bytes *)

Inductive TransportMessage : Type :=
  | APullRequest (request : PullRequest)
  | APullResponse (response : PullResponse)
  | APushRequest (request : PushRequest)
  | APushResponse (response : PushResponse).

Definition message_type (m : TransportMessage) : TransportMessageType :=
  match m with
  | APullRequest _ => PullRequestType
  | APullResponse _ => PullResponseType
  | APushRequest _ => PushRequestType
  | APushResponse _ => PushResponseType
  end.

(** The encoder and the decoder of each type. *)
Definition encode_message (m : TransportMessage) (bounds : option CodecBounds) : result bytes :=
  match m with
  | APullRequest r => encode_pull_request r bounds
  | APullResponse r => encode_pull_response r bounds
  | APushRequest r => encode_push_request r bounds
  | APushResponse r => encode_push_response r bounds
  end.

Definition decode_message (t : TransportMessageType) (data : bytes) (bounds : option CodecBounds) : result TransportMessage :=
  match t with
  | PullRequestType => r ← decode_pull_request data bounds; Ok (APullRequest r)
  | PullResponseType => r ← decode_pull_response data bounds; Ok (APullResponse r)
  | PushRequestType => r ← decode_push_request data bounds; Ok (APushRequest r)
  | PushResponseType => r ← decode_push_response data bounds; Ok (APushResponse r)
  end.

Definition header_bytes (t : TransportMessageType) : bytes :=
  magic ++ write_u16_le codec_version ++ [byte_of (message_type_code t)] ++ write_u32_le 0.
Definition bool_bytes (b : bool) : bytes := [byte_of (if b then 1 else 0)].
Definition string_bytes (s : string) : bytes := sized_bytes (bytes_of_string s).
Definition code_bytes (c : SyncResponseErrorCode) : bytes := write_u16_le (error_code_value c).
Definition batches_bytes (l : list ChangeBatch) : bytes :=
  write_u32_le (size_of l) ++ concat ((fun b => sized_bytes (batch_bytes b)) <$> l).
Definition snapshot_bytes (c : FullSnapshotChunk) : bytes := sized_bytes (SnapshotCodec.chunk_bytes c).

Definition message_bytes (m : TransportMessage) : bytes :=
  header_bytes (message_type m) ++
  match m with
  | APullRequest r =>
      pull_requester r ++ pull_db_id r ++ cursor_bytes (have r) ++ write_u64_le (max_batches r) ++ write_u64_le (max_bytes r) ++
      bool_bytes (request_full_snapshot r) ++ sized_bytes (full_snapshot_id r) ++ sized_bytes (full_snapshot_continuation r) ++
      write_u64_le (max_single_batch_bytes r)
  | APullResponse r =>
      cursor_bytes (remote_have r) ++ cursor_bytes (remote_tail r) ++ bool_bytes (remote_tail_known r) ++
      batches_bytes (batches r) ++ bool_bytes (has_more r) ++ bool_bytes (is_full_snapshot r) ++
      (if is_full_snapshot r then snapshot_bytes (snapshot_chunk r) else []) ++ bool_bytes (pull_ok r) ++
      string_bytes (pull_error r) ++ code_bytes (pull_error_code r) ++ bool_bytes (pull_error_retryable r)
  | APushRequest r => sender r ++ push_db_id r ++ batches_bytes (push_batches r)
  | APushResponse r =>
      cursor_bytes (receiver_have r) ++ bool_bytes (push_ok r) ++ string_bytes (push_error r) ++
      code_bytes (push_error_code r) ++ bool_bytes (push_error_retryable r)
  end.

(** The value ranges of the C++ field types. *)
Definition message_ok (m : TransportMessage) : Prop :=
  match m with
  | APullRequest r =>
      node_ok (pull_requester r) ∧ node_ok (pull_db_id r) ∧ cursor_ok (have r) ∧ is_u64 (max_batches r) ∧
      is_u64 (max_bytes r) ∧ is_u64 (max_single_batch_bytes r)
  | APullResponse r =>
      cursor_ok (remote_have r) ∧ cursor_ok (remote_tail r) ∧ Forall batch_ok (batches r) ∧
      (is_full_snapshot r = true → SnapshotCodec.chunk_ok (snapshot_chunk r))
  | APushRequest r => node_ok (sender r) ∧ node_ok (push_db_id r) ∧ Forall batch_ok (push_batches r)
  | APushResponse r => cursor_ok (receiver_have r)
  end.

(** What the encoders demand, next to the size of the whole message. *)
Definition batches_ready (bd : CodecBounds) (l : list ChangeBatch) : Prop :=
  size_of l ≤ max_batches_per_message bd ∧ Forall (batch_ready bd) l.
Definition text_ready (bd : CodecBounds) (s : string) : Prop := size_of (bytes_of_string s) ≤ max_error_len bd.
Definition chunk_ready (bd : CodecBounds) (c : FullSnapshotChunk) : Prop :=
  SnapshotCodec.encode c (Some bd) = Ok (SnapshotCodec.chunk_bytes c).

Definition message_ready (bd : CodecBounds) (m : TransportMessage) : Prop :=
  match m with
  | APullRequest r => cursor_size (have r) ≤ max_cursor_origins bd ∧ validate_pull_request_snapshot r bd = Ok tt
  | APullResponse r =>
      cursor_size (remote_have r) ≤ max_cursor_origins bd ∧ cursor_size (remote_tail r) ≤ max_cursor_origins bd ∧
      batches_ready bd (batches r) ∧ validate_pull_response_snapshot r bd = Ok tt ∧
      (is_full_snapshot r = true → chunk_ready bd (snapshot_chunk r)) ∧ text_ready bd (pull_error r)
  | APushRequest r => batches_ready bd (push_batches r)
  | APushResponse r => cursor_size (receiver_have r) ≤ max_cursor_origins bd ∧ text_ready bd (push_error r)
  end.

(** What the wire keeps: batches without the keys whose flag is clear, a chunk only in a
    snapshot response. *)
Definition canonical_message (m : TransportMessage) : TransportMessage :=
  match m with
  | APullRequest r => APullRequest r
  | APullResponse r => APullResponse {|
      remote_have := remote_have r; remote_tail := remote_tail r; remote_tail_known := remote_tail_known r;
      batches := canonical_batch <$> batches r; has_more := has_more r; is_full_snapshot := is_full_snapshot r;
      snapshot_chunk := if is_full_snapshot r then snapshot_chunk r else default_chunk;
      pull_ok := pull_ok r; pull_error := pull_error r; pull_error_code := pull_error_code r;
      pull_error_retryable := pull_error_retryable r |}
  | APushRequest r => APushRequest {| sender := sender r; push_db_id := push_db_id r; push_batches := canonical_batch <$> push_batches r |}
  | APushResponse r => APushResponse r
  end.

(** ** Writing *)

Definition write_message (m : TransportMessage) (bd : CodecBounds) : writer :=
  match m with
  | APullRequest r => write_pull_request r bd
  | APullResponse r => write_pull_response r bd
  | APushRequest r => write_push_request r bd
  | APushResponse r => write_push_response r bd
  end.

Lemma encode_message_sized m bounds :
  encode_message m bounds = encode_sized (write_message m (effective_bounds bounds)) (effective_bounds bounds).
Proof. by destruct m. Qed.

Lemma size_of_nonneg {A} (l : list A) : 0 ≤ size_of l.
Proof. unfold size_of. lia. Qed.

Section Codec.
Context (bd : CodecBounds) (Hbd : bounds_valid bd).
Abbreviation limit := (max_transport_message_bytes bd).

Lemma transport_limits_small :
  limit < 2 ^ 64 ∧ max_cursor_origins bd < 2 ^ 32 ∧ max_error_len bd < 2 ^ 32 ∧ max_snapshot_id_len bd < 2 ^ 32 ∧
  max_batches_per_message bd < 2 ^ 32 ∧ max_snapshot_chunk_bytes bd < 2 ^ 32.
Proof. assert (limit < 2 ^ 32) by limit_range Hbd. split; [lia|]. limit_range Hbd. Qed.

Lemma writes_header t : writes limit (make_header t) (header_bytes t) True.
Proof.
  destruct transport_limits_small as [Hl _]. unfold make_header, header_bytes. eapply writes_iff.
  - apply writes_bind; [by apply writes_bytes|]. apply writes_bind; [apply writes_u16|].
    apply writes_bind; [apply writes_u8|apply writes_u32].
  - tauto.
Qed.

Lemma writes_node n : writes limit (append_node n) n True.
Proof. apply writes_bytes. apply transport_limits_small. Qed.

Lemma writes_message_cursor c : writes limit (append_cursor c bd) (cursor_bytes c) (cursor_size c ≤ max_cursor_origins bd).
Proof.
  destruct transport_limits_small as (Hl & Hc & _). unfold append_cursor, cursor_bytes. eapply writes_iff.
  - apply writes_throw_if, writes_bind; [apply writes_u32_size; unfold cursor_size; lia|].
    apply (writes_each _ _ _ (fun _ => True ∧ True)). intros p _. apply writes_bind; [apply writes_node|apply writes_u64].
  - rewrite gtb_false. split; [by intros (? & _)|]. intros H. split_and!; [done|lia|]. by apply Forall_true.
Qed.

Lemma writes_text lim too_long label v :
  lim < 2 ^ 32 → writes limit (append_text lim too_long label v) (sized_bytes v) (size_of v ≤ lim).
Proof.
  intros Hl. destruct transport_limits_small as [Hmax _]. unfold append_text, sized_bytes. eapply writes_iff.
  - apply writes_throw_if, writes_bind; [apply writes_u32_size, size_of_nonneg|].
    instantiate (1 := True). case_bool_decide as E; [subst v; apply writes_ret|by apply writes_bytes].
  - rewrite gtb_false. split; [by intros (? & _)|]. intros H. split_and!; [done|lia|done].
Qed.

Lemma writes_error_string s : writes limit (append_string s bd) (string_bytes s) (text_ready bd s).
Proof. apply writes_text. apply transport_limits_small. Qed.

Lemma writes_token v : writes limit (append_snapshot_token v bd) (sized_bytes v) (size_of v ≤ max_snapshot_id_len bd).
Proof. apply writes_text. apply transport_limits_small. Qed.

Lemma chunk_ready_iff c bs : SnapshotCodec.encode c (Some bd) = Ok bs ↔ chunk_ready bd c ∧ bs = SnapshotCodec.chunk_bytes c.
Proof. split; [|by intros [? ->]]. intros H. pose proof (proj1 (SnapshotCodec.chunk_encode_Ok _ Hbd _ _) H) as (_ & _ & -> & _). done. Qed.

Lemma chunk_ready_size c :
  chunk_ready bd c → size_of (SnapshotCodec.chunk_bytes c) ≤ max_snapshot_chunk_bytes bd ∧ size_of (SnapshotCodec.chunk_bytes c) < 2 ^ 32.
Proof.
  intros (_ & _ & _ & Hs)%(SnapshotCodec.chunk_encode_Ok _ Hbd). destruct transport_limits_small as (_ & _ & _ & _ & _ & Hl). split; [done|lia].
Qed.

Lemma writes_snapshot c : writes limit (append_snapshot_chunk c bd) (snapshot_bytes c) (chunk_ready bd c).
Proof.
  destruct transport_limits_small as [Hmax _]. apply (writes_nested _ _ _ (fun encoded out => _)); [apply chunk_ready_iff|].
  intros [_ Hc]%chunk_ready_size. eapply writes_iff.
  - apply writes_bind; [apply writes_u32_size, size_of_nonneg|by apply writes_bytes].
  - done.
Qed.

Lemma writes_batch b : writes limit (append_batch bd b) (sized_bytes (batch_bytes b)) (batch_ready bd b).
Proof.
  destruct transport_limits_small as [Hmax _]. apply (writes_nested _ _ _ (fun encoded out => _)); [apply batch_encode_ready|].
  intros [Hs Hc]%(batch_ready_size _ Hbd). eapply writes_iff.
  - apply writes_throw_if, writes_bind; [apply writes_u32_size, size_of_nonneg|by apply writes_bytes].
  - rewrite gtb_false. done.
Qed.

Lemma writes_batches l : writes limit (append_batches l bd) (batches_bytes l) (batches_ready bd l).
Proof.
  destruct transport_limits_small as (_ & _ & _ & _ & Hb & _). unfold append_batches, batches_bytes. eapply writes_iff.
  - apply writes_throw_if, writes_bind; [apply writes_u32_size, size_of_nonneg|].
    apply writes_each. intros b _. apply writes_batch.
  - unfold batches_ready. rewrite gtb_false. split; [tauto|]. intros [H1 H2]. split_and!; [done|lia|done].
Qed.

Lemma writes_optional (b : bool) (w : writer) s P :
  writes limit w s P → writes limit (fun out => if b then w out else Ok out) (if b then s else []) (b = true → P).
Proof.
  intros Hw. destruct b; eapply writes_iff; [exact Hw|naive_solver|apply writes_ret|naive_solver].
Qed.

Lemma request_tokens r :
  validate_pull_request_snapshot r bd = Ok tt →
  size_of (full_snapshot_id r) ≤ max_snapshot_id_len bd ∧ size_of (full_snapshot_continuation r) ≤ max_snapshot_id_len bd.
Proof.
  unfold validate_pull_request_snapshot. cbv zeta. intros ([] & H%throw_if_Ok & _)%result_bind_Ok.
  apply orb_false_iff in H as [H1%gtb_false H2%gtb_false]. done.
Qed.

Lemma writes_message m : writes limit (write_message m bd) (message_bytes m) (message_ready bd m).
Proof.
  unfold message_bytes. destruct m as [r|r|r|r]; cbn [write_message message_type message_ready]; eapply writes_iff.
  - apply writes_bind; [apply writes_header|]. do 2 (apply writes_bind; [apply writes_node|]).
    apply writes_bind; [apply writes_message_cursor|]. do 2 (apply writes_bind; [apply writes_u64|]). apply writes_bind; [apply writes_bool|].
    apply writes_check; [reflexivity|]. do 2 (apply writes_bind; [apply writes_token|]). apply writes_u64.
  - pose proof (request_tokens r). tauto.
  - apply writes_bind; [apply writes_header|]. do 2 (apply writes_bind; [apply writes_message_cursor|]).
    apply writes_bind; [apply writes_bool|]. apply writes_bind; [apply writes_batches|]. apply writes_bind; [apply writes_bool|].
    apply writes_check; [reflexivity|]. apply writes_bind; [apply writes_bool|].
    apply writes_bind; [apply writes_optional, writes_snapshot|]. apply writes_bind; [apply writes_bool|].
    apply writes_bind; [apply writes_error_string|]. apply writes_bind; [apply writes_u16|apply writes_bool].
  - tauto.
  - apply writes_bind; [apply writes_header|]. do 2 (apply writes_bind; [apply writes_node|]). apply writes_batches.
  - tauto.
  - apply writes_bind; [apply writes_header|]. apply writes_bind; [apply writes_message_cursor|]. apply writes_bind; [apply writes_bool|].
    apply writes_bind; [apply writes_error_string|]. apply writes_bind; [apply writes_u16|apply writes_bool].
  - tauto.
Qed.

Lemma encode_sized_Ok m bs :
  encode_sized (write_message m bd) bd = Ok bs ↔ message_ready bd m ∧ bs = message_bytes m ∧ size_of bs ≤ limit.
Proof.
  unfold encode_sized. split.
  - intros (out & [Hm ->]%writes_message & ([] & Hs%throw_if_Ok%gtb_false & [= <-])%result_bind_Ok)%result_bind_Ok. done.
  - intros (Hm & -> & Hs). rewrite (writes_succeeds _ _ _ _ (writes_message m) [] Hm Hs). cbn [mbind result_bind app].
    unfold validate_message_size. by rewrite (proj2 (gtb_false _ _) Hs).
Qed.

(** ** Reading *)

Lemma reads_transport_magic : reads check_magic magic tt.
Proof.
  unfold check_magic. eapply reads_last; [by apply reads_bytes|]. rewrite bool_decide_true by done. apply reads_ret.
Qed.

Lemma reads_header_type t : reads read_header_type (header_bytes t) t.
Proof.
  unfold read_header_type, header_bytes. eapply reads_bind; [apply reads_transport_magic|]. eapply reads_bind; [by apply reads_u16|].
  apply reads_check; [done|]. eapply reads_bind; [apply reads_u8|]. eapply reads_last; [by apply reads_u32|].
  apply reads_check; [done|]. destruct t; apply reads_ret.
Qed.

Lemma reads_message_header t : reads (check_header t) (header_bytes t) tt.
Proof. unfold check_header. eapply reads_last; [apply reads_header_type|]. rewrite bool_decide_true by done. apply reads_ret. Qed.

Lemma reads_bool b : reads read_bool (bool_bytes b) b.
Proof. apply reads_flag. Qed.

Lemma reads_message_node n : node_ok n → reads read_node n n.
Proof. intros Hn. apply reads_bytes. by rewrite Hn. Qed.

Lemma reads_code c : reads read_response_error_code (code_bytes c) c.
Proof.
  unfold read_response_error_code, code_bytes. eapply reads_last; [apply reads_u16; by destruct c|]. destruct c; apply reads_ret.
Qed.

Lemma reads_message_cursor c : cursor_ok c → cursor_size c ≤ max_cursor_origins bd → reads (read_cursor bd) (cursor_bytes c) c.
Proof. intros Hok Hs. destruct transport_limits_small as (_ & Hc & _). apply reads_cursor; [done|lia|done]. Qed.

Lemma reads_text lim too_long v : lim < 2 ^ 32 → size_of v ≤ lim → reads (read_text lim too_long) (sized_bytes v) v.
Proof.
  intros Hl Hv. pose proof (size_of_nonneg v). unfold read_text, sized_bytes.
  eapply reads_bind; [apply reads_u32; unfold u_range; lia|]. apply reads_check; [by apply gtb_false|].
  destruct (Z.eqb_spec (size_of v) 0) as [E|]; [|by apply reads_bytes]. destruct v; [apply reads_ret|unfold size_of in E; cbn in E; lia].
Qed.

Lemma reads_error_string s : text_ready bd s → reads (read_string bd) (string_bytes s) s.
Proof.
  intros Hs. unfold read_string, string_bytes. eapply reads_last; [apply reads_text; [apply transport_limits_small|done]|].
  unfold bytes_of_string. rewrite String.string_of_list_byte_of_string. apply reads_ret.
Qed.

Lemma reads_snapshot c :
  SnapshotCodec.chunk_ok c → chunk_ready bd c → reads (read_snapshot_chunk bd) (snapshot_bytes c) c.
Proof.
  intros Hok Hc. unfold read_snapshot_chunk, snapshot_bytes. destruct (chunk_ready_size _ Hc) as [Hs Hs'].
  eapply reads_last; [by apply reads_sized|]. apply (SnapshotCodec.chunk_encode_Ok _ Hbd) in Hc as (Hspec & Hb & _ & _).
  rewrite (SnapshotCodec.decode_encoded _ Hbd) by done. apply reads_lift.
Qed.

Lemma reads_batches l :
  Forall batch_ok l → batches_ready bd l → reads (read_batches bd) (batches_bytes l) (canonical_batch <$> l).
Proof.
  intros Hok [Hn Hr]. destruct transport_limits_small as (_ & _ & _ & _ & Hb & _). pose proof (size_of_nonneg l).
  unfold read_batches, batches_bytes. eapply reads_bind; [apply reads_u32; unfold u_range; lia|].
  apply reads_check; [by apply gtb_false|]. unfold size_of. rewrite Nat2Z.id.
  apply (reads_repeat _ (fun b => sized_bytes (batch_bytes b)) canonical_batch). intros b Hin. rewrite Forall_forall in *.
  pose proof (Hr b Hin) as Hrb. destruct (batch_ready_size _ Hbd _ Hrb) as [Hs Hs']. unfold read_batch.
  eapply reads_last; [by apply reads_sized|]. rewrite (batch_ready_decode _ Hbd) by auto. apply reads_lift.
Qed.

(** The reads of the decoder for a type. *)
Definition read_message (t : TransportMessageType) : reader TransportMessage :=
  match t with
  | PullRequestType => r ← read_pull_request bd; mret (APullRequest r)
  | PullResponseType => r ← read_pull_response bd; mret (APullResponse r)
  | PushRequestType => r ← read_push_request bd; mret (APushRequest r)
  | PushResponseType => r ← read_push_response bd; mret (APushResponse r)
  end.

Lemma reads_message m :
  message_ok m → message_ready bd m → reads (read_message (message_type m)) (message_bytes m) (canonical_message m).
Proof.
  intros Hok Hr. destruct transport_limits_small as (_ & _ & _ & Hid & _).
  unfold message_bytes. destruct m as [r|r|r|r]; cbn [message_type read_message message_ok message_ready] in *;
    (eapply reads_last; [eapply reads_bind; [apply reads_message_header|]|]).
  - destruct Hok as (H1 & H2 & H3 & H4 & H5 & H6), Hr as [Hc Hv]. destruct (request_tokens _ Hv) as [T1 T2].
    do 2 (eapply reads_bind; [by apply reads_message_node|]). eapply reads_bind; [by apply reads_message_cursor|].
    do 2 (eapply reads_bind; [by apply reads_u64|]). eapply reads_bind; [apply reads_bool|].
    do 2 (eapply reads_bind; [by apply reads_text|]). eapply reads_last; [by apply reads_u64|].
    cbv zeta. eapply reads_last; [|apply reads_ret]. destruct r. cbn in Hv |- *. rewrite Hv. apply reads_lift.
  - destruct r. apply reads_ret.
  - destruct Hok as (H1 & H2 & H3 & H4), Hr as (C1 & C2 & Hb & Hv & Hsn & Ht).
    do 2 (eapply reads_bind; [by apply reads_message_cursor|]). eapply reads_bind; [apply reads_bool|].
    eapply reads_bind; [by apply reads_batches|]. do 2 (eapply reads_bind; [apply reads_bool|]). eapply reads_bind.
    { instantiate (1 := if is_full_snapshot r then snapshot_chunk r else default_chunk).
      destruct (is_full_snapshot r); [apply reads_snapshot; auto|apply reads_ret]. }
    eapply reads_bind; [apply reads_bool|]. eapply reads_bind; [by apply reads_error_string|]. eapply reads_bind; [apply reads_code|].
    eapply reads_last; [apply reads_bool|]. apply reads_ret.
  - apply reads_ret.
  - destruct Hok as (H1 & H2 & H3). do 2 (eapply reads_bind; [by apply reads_message_node|]).
    eapply reads_last; [by apply reads_batches|]. apply reads_ret.
  - apply reads_ret.
  - destruct Hr as [Hc Ht]. eapply reads_bind; [by apply reads_message_cursor|]. eapply reads_bind; [apply reads_bool|].
    eapply reads_bind; [by apply reads_error_string|]. eapply reads_bind; [apply reads_code|]. eapply reads_last; [apply reads_bool|].
    apply reads_ret.
  - destruct r. apply reads_ret.
Qed.

(** ** What a decoded message satisfies *)

Lemma accepts_transport_magic : accepts check_magic (fun s _ => s = magic).
Proof.
  unfold check_magic. eapply accepts_bind; [by apply accepts_bytes|]. intros s m [-> _]. unfold check.
  case_bool_decide as E; cbn [negb]; [|apply accepts_throw]. apply accepts_ret. by rewrite app_nil_r.
Qed.

Lemma type_of_code_byte b t : message_type_of_code (u8 b) = Some t → b = byte_of (message_type_code t).
Proof.
  intros H. assert (u8 b = message_type_code t) as E; [|by rewrite <- E, byte_of_u8]. revert H. pose proof (u8_range b).
  unfold message_type_of_code. repeat case_match; intros [= <-]; done.
Qed.

Lemma accepts_header_type : accepts read_header_type (fun s t => s = header_bytes t).
Proof.
  unfold read_header_type. eapply accepts_bind; [apply accepts_transport_magic|]. intros s0 _ ->.
  eapply accepts_bind; [apply accepts_u16|]. intros s1 v [_ ->]. apply accepts_check. intros Hv%negb_false_iff%Z.eqb_eq.
  eapply accepts_bind; [apply accepts_u8|]. intros s2 c (b & -> & ->). eapply accepts_bind; [apply accepts_u32|].
  intros s3 f [_ ->]. apply accepts_check. intros Hf%negb_false_iff%Z.eqb_eq. subst v f.
  destruct (message_type_of_code (u8 b)) as [t|] eqn:Et; [|apply accepts_throw]. apply accepts_ret.
  apply type_of_code_byte in Et as ->. unfold header_bytes. by rewrite app_nil_r.
Qed.

Lemma accepts_message_header t : accepts (check_header t) (fun s _ => length s = length (header_bytes t)).
Proof.
  unfold check_header. eapply accepts_bind; [apply accepts_header_type|]. intros s t' ->. unfold check.
  case_bool_decide as E; cbn [negb]; [|apply accepts_throw]. apply accepts_ret. by rewrite app_nil_r, E.
Qed.

Lemma accepts_bool : accepts read_bool (fun s b => s = bool_bytes b).
Proof. apply accepts_flag. Qed.

Lemma accepts_node : accepts read_node (fun s n => s = n ∧ node_ok n).
Proof. eapply accepts_mono; [by apply accepts_bytes|]. intros s n [-> Hn]. split; [done|]. unfold node_ok. lia. Qed.

Lemma accepts_code : accepts read_response_error_code (fun s c => length s = length (code_bytes c)).
Proof.
  unfold read_response_error_code. eapply accepts_bind; [apply accepts_u16|]. intros s v [_ ->].
  destruct (error_code_of_value v); [|apply accepts_throw]. apply accepts_ret. by rewrite app_nil_r.
Qed.

Lemma accepts_message_cursor :
  accepts (read_cursor bd) (fun s c => cursor_ok c ∧ cursor_size c ≤ max_cursor_origins bd ∧ length s = length (cursor_bytes c)).
Proof. eapply accepts_mono; [apply accepts_cursor|]. intros s c (? & _ & ? & ?). done. Qed.

Lemma accepts_text lim too_long : accepts (read_text lim too_long) (fun s v => s = sized_bytes v ∧ size_of v ≤ lim).
Proof.
  unfold read_text. eapply accepts_bind; [apply accepts_u32|]. intros s1 len [Hlen ->]. apply accepts_check. intros Hl%gtb_false.
  destruct (Z.eqb_spec len 0) as [->|].
  - apply accepts_ret. by rewrite app_nil_r.
  - eapply accepts_mono; [apply accepts_bytes; apply Hlen|]. intros s v [-> Hv]. unfold sized_bytes, size_of. rewrite Hv. done.
Qed.

Lemma accepts_string : accepts (read_string bd) (fun s e => s = string_bytes e ∧ text_ready bd e).
Proof.
  unfold read_string. eapply accepts_bind; [apply accepts_text|]. intros s v [-> Hv]. apply accepts_ret.
  unfold string_bytes, text_ready, bytes_of_string. rewrite String.list_byte_of_string_of_list_byte, app_nil_r. done.
Qed.

Lemma accepts_snapshot :
  accepts (read_snapshot_chunk bd) (fun s c =>
    SnapshotCodec.chunk_ok c ∧ chunk_ready bd c ∧ length s = length (snapshot_bytes c)).
Proof.
  unfold read_snapshot_chunk. eapply accepts_bind; [apply accepts_sized|]. intros s e (-> & _ & _).
  eapply accepts_mono; [apply accepts_lift|]. intros s c [-> (Hok & Hc & Hb & Hlen & Hs)%(SnapshotCodec.chunk_decode_Ok _ Hbd)].
  split_and!; [done| |].
  - apply (SnapshotCodec.chunk_encode_Ok _ Hbd). split_and!; [done..|]. unfold size_of in *. lia.
  - rewrite app_nil_r. by apply sized_bytes_length.
Qed.

Lemma accepts_batches :
  accepts (read_batches bd) (fun s l =>
    Forall batch_ok l ∧ canonical_batch <$> l = l ∧ batches_ready bd l ∧ length s = length (batches_bytes l)).
Proof.
  assert (accepts (read_batch bd) (fun s b => (batch_ok b ∧ canonical_batch b = b ∧ batch_ready bd b) ∧
    length s = length (sized_bytes (batch_bytes b)))) as Hone.
  { unfold read_batch. eapply accepts_bind; [apply accepts_sized|]. intros s e (-> & _ & _). eapply accepts_mono; [apply accepts_lift|].
    intros s b [-> (Hok & Hc & Hr & Hlen)%(batch_decoded_ready _ Hbd)]. split; [done|]. rewrite app_nil_r. by apply sized_bytes_length. }
  unfold read_batches. eapply accepts_bind; [apply accepts_u32|]. intros s1 n [Hn ->]. apply accepts_check. intros Hl%gtb_false.
  eapply accepts_mono; [apply accepts_repeat, Hone|]. intros s l (Hlen & ss & -> & Hss).
  pose proof (ChangeBatchCodec.Forall2_length_sum _ (fun b => sized_bytes (batch_bytes b)) _ _ Hss) as Lm.
  assert (Forall (fun b => batch_ok b ∧ canonical_batch b = b ∧ batch_ready bd b) l) as Hall.
  { eapply Forall2_Forall_r; [exact Hss|]. apply Forall_true. by intros ? ? [??]. }
  repeat rewrite !Forall_and in Hall. destruct Hall as (Hok & Hcan & Hr). unfold u_range in Hn.
  assert (size_of l = n) as En by (unfold size_of; lia). unfold batches_ready, batches_bytes. rewrite En. split_and!; [done| |done|done|].
  - rewrite Forall_forall in Hcan. rewrite <- (list_fmap_id l) at 2. apply list_fmap_ext.
    intros i b Hb%list_elem_of_lookup_2. by apply Hcan.
  - rewrite !length_app, Lm by by intros ?? [??]. done.
Qed.

(** The check a decoder makes after the last read. *)
Definition validated (m : TransportMessage) : Prop :=
  match m with APullResponse r => validate_pull_response_snapshot r bd = Ok tt | _ => True end.

Definition accepted (t : TransportMessageType) (s : bytes) (m : TransportMessage) : Prop :=
  message_type m = t ∧ message_ok m ∧ canonical_message m = m ∧ (validated m → message_ready bd m) ∧
  length s = length (message_bytes m).

Lemma accepts_pull_request : accepts (read_message PullRequestType) (accepted PullRequestType).
Proof.
  cbn [read_message]. unfold read_pull_request. eapply accepts_bind.
  - eapply accepts_bind; [apply accepts_message_header|]. intros s0 [] L0. eapply accepts_bind; [apply accepts_node|]. intros s1 n1 [-> H1].
    eapply accepts_bind; [apply accepts_node|]. intros s2 n2 [-> H2]. eapply accepts_bind; [apply accepts_message_cursor|].
    intros s3 c (Hc & Sc & L3). eapply accepts_bind; [apply accepts_u64|]. intros s4 a [Ha ->].
    eapply accepts_bind; [apply accepts_u64|]. intros s5 b [Hb ->]. eapply accepts_bind; [apply accepts_bool|]. intros s6 full ->.
    eapply accepts_bind; [apply accepts_text|]. intros s7 id [-> _]. eapply accepts_bind; [apply accepts_text|]. intros s8 cont [-> _].
    eapply accepts_bind; [apply accepts_u64|]. intros s9 d [Hd ->]. cbv zeta. eapply accepts_bind; [apply accepts_lift|].
    intros s10 [] [-> Hv]. apply accepts_ret. instantiate (1 := fun s r => accepted PullRequestType s (APullRequest r)).
    split_and!; [done|done|done|done|]. unfold message_bytes. cbn [message_type pull_requester pull_db_id have max_batches max_bytes
      request_full_snapshot full_snapshot_id full_snapshot_continuation max_single_batch_bytes].
    rewrite !length_app, L0, L3. cbn [length]. lia.
  - intros s r Hr. apply accepts_ret. by rewrite app_nil_r.
Qed.

Lemma accepts_pull_response : accepts (read_message PullResponseType) (accepted PullResponseType).
Proof.
  cbn [read_message]. unfold read_pull_response. eapply accepts_bind.
  - eapply accepts_bind; [apply accepts_message_header|]. intros s0 [] L0. eapply accepts_bind; [apply accepts_message_cursor|].
    intros s1 c1 (Hc1 & Sc1 & L1). eapply accepts_bind; [apply accepts_message_cursor|]. intros s2 c2 (Hc2 & Sc2 & L2).
    eapply accepts_bind; [apply accepts_bool|]. intros s3 known ->. eapply accepts_bind; [apply accepts_batches|].
    intros s4 l (Hl & Hcan & Hlr & L4). eapply accepts_bind; [apply accepts_bool|]. intros s5 more ->.
    eapply accepts_bind; [apply accepts_bool|]. intros s6 full ->. eapply accepts_bind.
    { instantiate (1 := fun s c => (if full then SnapshotCodec.chunk_ok c ∧ chunk_ready bd c else c = default_chunk) ∧
        length s = length (if full then snapshot_bytes c else [])).
      destruct full; [|by apply accepts_ret]. eapply accepts_mono; [apply accepts_snapshot|]. naive_solver. }
    intros s7 chunk [Hch L7]. eapply accepts_bind; [apply accepts_bool|]. intros s8 ok ->.
    eapply accepts_bind; [apply accepts_string|]. intros s9 e [-> He]. eapply accepts_bind; [apply accepts_code|]. intros s10 code L10.
    eapply accepts_bind; [apply accepts_bool|]. intros s11 retry ->. apply accepts_ret.
    instantiate (1 := fun s r => accepted PullResponseType s (APullResponse r)). unfold accepted, message_bytes. cbn [message_type
      message_ok canonical_message message_ready validated remote_have remote_tail remote_tail_known batches has_more
      is_full_snapshot snapshot_chunk pull_ok pull_error pull_error_code pull_error_retryable]. split; [done|split; [|split; [|split]]].
    + split_and!; [done..|]. intros ->. apply Hch.
    + rewrite Hcan. do 2 f_equal. destruct full; [done|]. by destruct Hch.
    + intros Hv. split_and!; try done. intros ->. apply Hch.
    + rewrite !length_app, L0, L1, L2, L4, L7, L10. cbn [length]. lia.
  - intros s r Hr. apply accepts_ret. by rewrite app_nil_r.
Qed.

Lemma accepts_push_request : accepts (read_message PushRequestType) (accepted PushRequestType).
Proof.
  cbn [read_message]. unfold read_push_request. eapply accepts_bind.
  - eapply accepts_bind; [apply accepts_message_header|]. intros s0 [] L0. eapply accepts_bind; [apply accepts_node|]. intros s1 n1 [-> H1].
    eapply accepts_bind; [apply accepts_node|]. intros s2 n2 [-> H2]. eapply accepts_bind; [apply accepts_batches|].
    intros s3 l (Hl & Hcan & Hlr & L3). apply accepts_ret. instantiate (1 := fun s r => accepted PushRequestType s (APushRequest r)).
    unfold accepted, message_bytes. cbn [message_type message_ok canonical_message message_ready validated sender push_db_id push_batches].
    rewrite Hcan, !length_app, L0, L3. cbn [length]. split_and!; try done. lia.
  - intros s r Hr. apply accepts_ret. by rewrite app_nil_r.
Qed.

Lemma accepts_push_response : accepts (read_message PushResponseType) (accepted PushResponseType).
Proof.
  cbn [read_message]. unfold read_push_response. eapply accepts_bind.
  - eapply accepts_bind; [apply accepts_message_header|]. intros s0 [] L0. eapply accepts_bind; [apply accepts_message_cursor|].
    intros s1 c1 (Hc1 & Sc1 & L1). eapply accepts_bind; [apply accepts_bool|]. intros s8 ok ->.
    eapply accepts_bind; [apply accepts_string|]. intros s9 e [-> He]. eapply accepts_bind; [apply accepts_code|]. intros s10 code L10.
    eapply accepts_bind; [apply accepts_bool|]. intros s11 retry ->. apply accepts_ret.
    instantiate (1 := fun s r => accepted PushResponseType s (APushResponse r)). unfold accepted, message_bytes. cbn [message_type
      message_ok canonical_message message_ready validated receiver_have push_ok push_error push_error_code push_error_retryable].
    rewrite !length_app, L0, L1, L10. cbn [length]. by split_and!.
  - intros s r Hr. apply accepts_ret. by rewrite app_nil_r.
Qed.

Lemma accepts_message t : accepts (read_message t) (accepted t).
Proof. destruct t; [apply accepts_pull_request|apply accepts_pull_response|apply accepts_push_request|apply accepts_push_response]. Qed.
End Codec.

(** ** The decoders, from the readers *)

Lemma decode_message_Ok t data bounds m :
  decode_message t data bounds = Ok m ↔
  finish (read_message (effective_bounds bounds) t) data (effective_bounds bounds) = Ok m ∧ validated (effective_bounds bounds) m.
Proof.
  destruct t; cbn [decode_message read_message]; unfold finish; rewrite decode_all_map; fold (@finish).
  - split; [|by intros [? _]]. intros H. split; [done|]. by apply result_bind_Ok in H as (r & _ & [= <-]).
  - unfold decode_pull_response, finish. destruct (decode_all _ _ _ _ _) as [r|e]; cbn [mbind result_bind]; [|naive_solver]. split.
    + intros (r' & ([] & Hv & [= <-])%result_bind_Ok & [= <-])%result_bind_Ok. done.
    + intros [[= <-] Hv]. cbn [validated] in Hv. by rewrite Hv.
  - split; [|by intros [? _]]. intros H. split; [done|]. by apply result_bind_Ok in H as (r & _ & [= <-]).
  - split; [|by intros [? _]]. intros H. split; [done|]. by apply result_bind_Ok in H as (r & _ & [= <-]).
Qed.

Lemma message_bytes_header m : ∃ rest, message_bytes m = header_bytes (message_type m) ++ rest.
Proof. unfold message_bytes. eauto. Qed.

(** A decoder for another type stops at the header. *)
Lemma check_header_other t t' c rest :
  t ≠ t' → at_bytes c (header_bytes t' ++ rest) → check_header t c = Throw unexpected_type.
Proof.
  intros Hne Hc. unfold check_header, mbind, reader_bind. rewrite (reads_header_type t' _ _ Hc). by rewrite bool_decide_false.
Qed.

Lemma read_message_header bd t c e : check_header t c = Throw e → read_message bd t c = Throw e.
Proof.
  intros H. destruct t; cbn [read_message]; unfold read_pull_request, read_pull_response, read_push_request, read_push_response;
    unfold mbind, reader_bind; by rewrite H.
Qed.

Lemma decode_message_throws t data bounds e :
  finish (read_message (effective_bounds bounds) t) data (effective_bounds bounds) = Throw e →
  decode_message t data bounds = Throw e.
Proof.
  destruct t; cbn [decode_message read_message]; unfold finish; rewrite decode_all_map; [done| |done..]. unfold decode_pull_response, finish.
  destruct (decode_all _ _ _ _ _); [done|]. cbn [mbind result_bind]. by intros [= ->].
Qed.

Lemma response_validated bd m : message_ready bd m → validated bd (canonical_message m).
Proof.
  destruct m as [r|r|r|r]; try done. intros (_ & _ & _ & Hv & _). revert Hv. unfold validated, validate_pull_response_snapshot.
  cbn [canonical_message is_full_snapshot batches pull_ok has_more snapshot_chunk].
  destruct (is_full_snapshot r); [|done]. cbn [negb]. rewrite !SnapshotCodec.bind_unit_Ok, !throw_if_Ok, !negb_false_iff, !bool_decide_eq_true.
  intros (-> & H). done.
Qed.

(** ** Theorems *)

(** C32: what one side encodes the other side decodes: for each of the four messages,
    decoding the encoding of a message gives the message back (of a batch the keys whose flag
    is clear are not sent, of a response that is not a snapshot the chunk is not sent), the
    type of the encoding can be read off without decoding it, and the decoders of the other
    three types refuse it. *)
Theorem transport_roundtrip (m : TransportMessage) (bounds : option CodecBounds) (bs : bytes) :
  bounds_arg_valid bounds → message_ok m → encode_message m bounds = Ok bs →
  decode_message (message_type m) bs bounds = Ok (canonical_message m) ∧
  peek_message_type bs bounds = Ok (message_type m) ∧
  ∀ t, t ≠ message_type m → decode_message t bs bounds = Throw unexpected_type.
Proof.
  intros Hb Hok. rewrite encode_message_sized. intros (Hr & -> & Hs)%encode_sized_Ok; [|done]. split_and!.
  - apply decode_message_Ok. split; [|by apply response_validated]. by apply decode_all_reads; [apply reads_message|].
  - unfold peek_message_type. rewrite (proj2 (gtb_false _ _) Hs). cbn [throw_if mbind result_bind].
    destruct (message_bytes_header m) as [rest ->]. by rewrite (reads_header_type _ _ rest) by apply at_bytes_make.
  - intros t Hne. apply decode_message_throws. apply decode_all_throws; [done|]. apply read_message_header.
    destruct (message_bytes_header m) as [rest ->]. eapply check_header_other; [done|apply at_bytes_make].
Qed.

(** C33: whatever bytes arrive, a message that a decoder returns is one that an encoder could
    have produced under the same bounds: fields in range, cursors, batches, tokens and texts
    within the limits, snapshot state consistent.  Encoding it takes as many bytes as were
    received, within the limit for a message, and decodes to the same message. *)
Theorem transport_decoded (t : TransportMessageType) (data : bytes) (bounds : option CodecBounds) (m : TransportMessage) :
  bounds_arg_valid bounds → decode_message t data bounds = Ok m →
  message_type m = t ∧ message_ok m ∧ message_ready (effective_bounds bounds) m ∧
  size_of data ≤ max_transport_message_bytes (effective_bounds bounds) ∧
  ∃ bs, encode_message m bounds = Ok bs ∧ length bs = length data ∧ decode_message t bs bounds = Ok m.
Proof.
  intros Hb [Hf Hv]%decode_message_Ok. apply (decode_all_accepts _ _ _ _ (accepted (effective_bounds bounds) t)) in Hf as [Hacc Hs];
    [|by apply accepts_message]. destruct Hacc as (<- & Hok & Hcan & Hr & Hlen). specialize (Hr Hv).
  split_and!; [done..|]. exists (message_bytes m).
  assert (size_of (message_bytes m) ≤ max_transport_message_bytes (effective_bounds bounds)) by (unfold size_of in *; lia).
  split_and!; [rewrite encode_message_sized; by apply encode_sized_Ok|done|]. apply decode_message_Ok. split; [|done].
  rewrite <- Hcan at 3. by apply decode_all_reads; [apply reads_message|].
Qed.

(** ** Sample messages *)

Definition sample_push : TransportMessage := APushRequest {|
  sender := SnapshotCodec.sample_source; push_db_id := SnapshotCodec.sample_source;
  push_batches := [ChangeBatchCodec.sample_batch; ChangeBatchCodec.sample_batch] |}.

Definition sample_response : TransportMessage := APullResponse {|
  remote_have := {| last_seq_by_origin := {[ SnapshotCodec.sample_source := 3 ]} |}; remote_tail := empty_cursor;
  remote_tail_known := true; batches := []; has_more := false; is_full_snapshot := true;
  snapshot_chunk := SnapshotCodec.sample_chunk; pull_ok := true; pull_error := "fine"; pull_error_code := ErrNone;
  pull_error_retryable := false |}.

Definition bytes_of_message (m : TransportMessage) : bytes := match encode_message m None with Ok bs => bs | Throw _ => [] end.

Lemma sample_push_ok : message_ok sample_push.
Proof. split_and!; [done|done|]. repeat constructor; apply (bool_decide_unpack _); vm_compute; exact I. Qed.

Lemma transport_roundtrip_witness :
  decode_message PushRequestType (bytes_of_message sample_push) None = Ok (canonical_message sample_push) ∧
  peek_message_type (bytes_of_message sample_push) None = Ok PushRequestType ∧
  decode_message PullRequestType (bytes_of_message sample_push) None = Throw unexpected_type.
Proof.
  assert (encode_message sample_push None = Ok (bytes_of_message sample_push)) as He by (vm_compute; reflexivity).
  destruct (transport_roundtrip sample_push None (bytes_of_message sample_push) SnapshotCodec.default_bounds_valid sample_push_ok He)
    as (Hd & Hp & Ht).
  split; [exact Hd|]. split; [exact Hp|]. apply Ht. discriminate.
Defined.

Lemma transport_decoded_witness :
  message_ready default_bounds sample_response ∧
  ∃ bs, encode_message sample_response None = Ok bs ∧ length bs = length (bytes_of_message sample_response) ∧
    decode_message PullResponseType bs None = Ok sample_response.
Proof.
  assert (decode_message PullResponseType (bytes_of_message sample_response) None = Ok sample_response) as Hd by (vm_compute; reflexivity).
  destruct (transport_decoded PullResponseType (bytes_of_message sample_response) None sample_response
    SnapshotCodec.default_bounds_valid Hd) as (_ & _ & Hr & _ & Hb).
  split; [exact Hr|exact Hb].
Defined.
