(* ===== verification/LogicalData.v ===== *)
(** * Logical changes

    Models the data of [src/include/mdbx_containers/sync/logical/LogicalSchema.hpp],
    [LogicalChange.hpp] and [LogicalDeliveryEnvelope.hpp], and the appends below a size limit
    that the codecs of frames and envelopes share. *)
From S2P Require Import Prelude SyncCommon Wire SyncProtocol Writers.
Open Scope Z_scope.

(** ** Data *)

Inductive LogicalTableKind : Type :=
  | UnknownKind | KeyMultiValue | KeyOrderedMultiValue | AnyValue | HashedKeyValue | KeyValue | KeyTable | VectorStore.

#[export] Instance LogicalTableKind_eq_dec : EqDecision LogicalTableKind.
Proof. solve_decision. Defined.

(** The enumerator values. *)
Definition kind_code (k : LogicalTableKind) : Z :=
  match k with
  | UnknownKind => 0 | KeyMultiValue => 1 | KeyOrderedMultiValue => 2 | AnyValue => 3 | HashedKeyValue => 4
  | KeyValue => 5 | KeyTable => 6 | VectorStore => 7
  end.

Definition is_known_logical_table_kind (k : LogicalTableKind) : bool :=
  match k with UnknownKind => false | _ => true end.

Record LogicalSchemaRef : Type := { schema_id : bytes; kind : LogicalTableKind; schema_version : Z }.

Record LogicalChange : Type := { schema : LogicalSchemaRef; opcode : Z; flags : Z; payload : bytes }.

Record LogicalChangeFrame : Type := { changes : list LogicalChange }.

Definition is_logical_schema_ref_complete (ref : LogicalSchemaRef) : bool :=
  negb (bool_decide (schema_id ref = [])) && is_known_logical_table_kind (kind ref) && negb (schema_version ref =? 0).

Record LogicalDeliveryEnvelope : Type := {
  destination_db_uuid : DbId;
  envelope_origin : NodeId;
  origin_sequence : Z;
  frame_id : bytes;
  frame : LogicalChangeFrame;
}.

Definition is_logical_delivery_envelope_complete (e : LogicalDeliveryEnvelope) : bool :=
  negb (is_zero_sync_id (destination_db_uuid e)) && negb (is_zero_sync_id (envelope_origin e)) &&
  negb (origin_sequence e =? 0) && negb (bool_decide (frame_id e = [])).

Definition validate_logical_delivery_envelope (e : LogicalDeliveryEnvelope) (bounds : option CodecBounds) : result unit :=
  let effective := effective_bounds bounds in
  _ ← throw_if (negb (is_logical_delivery_envelope_complete e))
        (runtime_error "Logical delivery envelope identity is incomplete");
  throw_if (size_of (frame_id e) >? max_logical_delivery_frame_id_len effective)
    (length_error "logical delivery frame id exceeds max_logical_delivery_frame_id_len").

Inductive LogicalDeliveryOrderStatus : Type := InOrder | SequenceBehindWatermark | DeliverySequenceGap.

Record LogicalDeliveryOrderResult : Type :=
  { order_status : LogicalDeliveryOrderStatus; expected_sequence : Z; observed_sequence : Z }.

Definition check_logical_delivery_order (e : LogicalDeliveryEnvelope) (expected_next_sequence : Z) : LogicalDeliveryOrderResult := {|
  order_status :=
    if origin_sequence e =? expected_next_sequence then InOrder
    else if origin_sequence e <? expected_next_sequence then SequenceBehindWatermark
    else DeliverySequenceGap;
  expected_sequence := expected_next_sequence;
  observed_sequence := origin_sequence e;
|}.

(** ** Appends below a limit *)

Section Limited.
Context (overflow too_long : exn) (max : Z).

Definition ensure_append_size (n : Z) (out : bytes) : result unit :=
  _ ← throw_if (n >? 2 ^ 64 - 1 - size_of out) overflow;
  throw_if (size_of out + n >? max) too_long.

Definition append_limited (src : bytes) : writer := fun out =>
  if size_of src =? 0 then Ok out
  else _ ← ensure_append_size (size_of src) out; Ok (out ++ src).

Definition append_u16_limited (v : Z) : writer := fun out => _ ← ensure_append_size 2 out; put_u16 v out.
Definition append_u32_limited (v : Z) : writer := fun out => _ ← ensure_append_size 4 out; put_u32 v out.
Definition append_u64_limited (v : Z) : writer := fun out => _ ← ensure_append_size 8 out; put_u64 v out.

Definition append_size_limited (value : Z) (label : string) : writer := fun out =>
  _ ← throw_if (value >? 2 ^ 32 - 1) (length_error label);
  append_u32_limited (value mod 2 ^ 32) out.

Context (Hmax : max < 2 ^ 64).

Lemma ensure_append_size_Ok n out : size_of out + n ≤ max → ensure_append_size n out = Ok tt.
Proof.
  intros H. unfold ensure_append_size. rewrite !Z.gtb_ltb, (proj2 (Z.ltb_ge _ _)) by lia. cbn [throw_if mbind result_bind].
  by rewrite (proj2 (Z.ltb_ge _ _)) by lia.
Qed.

Lemma writes_ensured n (w : writer) s P :
  size_of s = n → writes max w s P → writes max (fun out => _ ← ensure_append_size n out; w out) s P.
Proof.
  intros <- [W1 W2]. split.
  - intros out out' ([] & _ & Hw)%result_bind_Ok. by apply W1.
  - intros out HP Hs. rewrite ensure_append_size_Ok; [by apply W2|]. unfold size_of in *. rewrite length_app in Hs. lia.
Qed.

Lemma writes_limited src : writes max (append_limited src) src True.
Proof.
  unfold append_limited. destruct (Z.eqb_spec (size_of src) 0) as [E|].
  - destruct src; [apply writes_ret|unfold size_of in E; cbn in E; lia].
  - apply writes_ensured; [done|]. split; [by intros out out' [= <-]|done].
Qed.

(** An append of bytes keeps the limit. *)
Lemma append_limited_below src out out' : src ≠ [] → append_limited src out = Ok out' → size_of out' ≤ max.
Proof.
  intros Hsrc. unfold append_limited. destruct (Z.eqb_spec (size_of src) 0) as [E|].
  { destruct src; [done|unfold size_of in E; cbn in E; lia]. }
  intros ([] & He & [= <-])%result_bind_Ok. apply result_bind_Ok in He as ([] & _ & Hs%throw_if_Ok).
  rewrite Z.gtb_ltb, Z.ltb_ge in Hs. unfold size_of in *. rewrite length_app. lia.
Qed.

Lemma writes_u16_limited v : writes max (append_u16_limited v) (write_u16_le v) True.
Proof. apply writes_ensured; [done|apply writes_u16]. Qed.
Lemma writes_u32_limited v : writes max (append_u32_limited v) (write_u32_le v) True.
Proof. apply writes_ensured; [done|apply writes_u32]. Qed.
Lemma writes_u64_limited v : writes max (append_u64_limited v) (write_u64_le v) True.
Proof. apply writes_ensured; [unfold size_of; by rewrite write_u64_le_length|apply writes_u64]. Qed.

Lemma writes_size_limited v label : 0 ≤ v → writes max (append_size_limited v label) (write_u32_le v) (v < 2 ^ 32).
Proof.
  intros Hv. unfold append_size_limited. split; intros out.
  - intros out' ([] & Hs%throw_if_Ok & Hw)%result_bind_Ok. rewrite Z.gtb_ltb, Z.ltb_ge in Hs.
    rewrite Z.mod_small in Hw by lia. apply writes_u32_limited in Hw as [_ ->]. split; [lia|done].
  - intros Hl Hs. rewrite Z.gtb_ltb, (proj2 (Z.ltb_ge _ _)), Z.mod_small by lia. cbn [throw_if mbind result_bind].
    by apply writes_u32_limited.
Qed.
End Limited.
