(* ===== verification/FrameCodec.v ===== *)
(** * Logical change frames

    Models [src/include/mdbx_containers/sync/logical/LogicalChangeFrameCodec.hpp].  The
    encoding is canonical: the strict decoder returns a frame exactly on the bytes the
    encoder produces for it. *)
From S2P Require Import Prelude SyncCommon Wire SyncProtocol Writers LogicalData.
Open Scope Z_scope.

Definition magic : bytes := bytes_of_string "MDBXCLGF".
Definition magic_size : Z := 8.
Definition codec_version : Z := 1.

Definition overflow : exn := length_error "logical frame size overflow".
Definition too_long : exn := length_error "logical frame exceeds max_transport_message_bytes".

Section Encode.
Context (bounds : CodecBounds).
Abbreviation max := (max_transport_message_bytes bounds).

Definition append_bytes : bytes → writer := append_limited overflow too_long max.
Definition append_u16_le : Z → writer := append_u16_limited overflow too_long max.
Definition append_u32_le : Z → writer := append_u32_limited overflow too_long max.
Definition append_u32_size : Z → string → writer := append_size_limited overflow too_long max.

Definition append_string (value : bytes) (label : string) : writer := fun out =>
  _ ← throw_if (bool_decide (value = [])) (runtime_error label);
  _ ← throw_if (size_of value >? max_logical_schema_id_len bounds)
        (length_error "logical schema id exceeds max_logical_schema_id_len");
  out ← append_u32_size (size_of value) "string length exceeds u32" out;
  append_bytes value out.

Definition append_payload (payload : bytes) : writer := fun out =>
  _ ← throw_if (size_of payload >? max_value_len bounds) (length_error "logical payload exceeds max_value_len");
  out ← append_u32_size (size_of payload) "logical payload length exceeds u32" out;
  append_bytes payload out.

Definition append_kind (k : LogicalTableKind) : writer := fun out =>
  _ ← throw_if (negb (is_known_logical_table_kind k)) (logic_error "LogicalChange has unknown table kind");
  append_u16_le (kind_code k) out.

Definition append_change (change : LogicalChange) : writer := fun out =>
  _ ← throw_if (negb (is_logical_schema_ref_complete (schema change))) (logic_error "LogicalChange schema ref is incomplete");
  _ ← throw_if (negb (flags change =? 0)) (logic_error "LogicalChange flags are reserved and must be zero");
  out ← append_string (schema_id (schema change)) "LogicalChange schema id is empty" out;
  out ← append_kind (kind (schema change)) out;
  out ← append_u32_le (schema_version (schema change)) out;
  out ← append_u32_le (opcode change) out;
  out ← append_u32_le (flags change) out;
  append_payload (payload change) out.

(** The appends of [encode]. *)
Definition append_frame (f : LogicalChangeFrame) : writer := fun out =>
  out ← append_bytes magic out;
  out ← append_u16_le codec_version out;
  out ← append_u32_le 0 out;
  out ← append_u32_size (size_of (changes f)) "logical change count exceeds u32" out;
  append_each append_change (changes f) out.
End Encode.

Definition validate_message_size (out : bytes) (bounds : CodecBounds) : result unit :=
  throw_if (size_of out >? max_transport_message_bytes bounds) too_long.

Definition encode (f : LogicalChangeFrame) (bounds : option CodecBounds) : result bytes :=
  let bd := effective_bounds bounds in
  _ ← throw_if (size_of (changes f) >? max_ops_per_batch bd) (length_error "logical changes exceed max_ops_per_batch");
  out ← append_frame bd f [];
  _ ← validate_message_size out bd;
  Ok out.

Definition underrun : exn := runtime_error "Logical frame codec buffer underrun".

Definition check_header : reader unit :=
  m ← read_bytes underrun magic_size;
  _ ← check (negb (bool_decide (m = magic))) (runtime_error "Logical frame magic mismatch");
  v ← read_u16 underrun;
  _ ← check (negb (v =? codec_version)) (runtime_error "Unsupported logical frame codec_version");
  fl ← read_u32 underrun;
  check (negb (fl =? 0)) (runtime_error "Unknown mandatory logical frame flags").

Definition read_string (bounds : CodecBounds) (label : string) : reader bytes :=
  len ← read_u32 underrun;
  _ ← check (len =? 0) (runtime_error label);
  _ ← check (len >? max_logical_schema_id_len bounds) (length_error "logical schema id exceeds max_logical_schema_id_len");
  read_bytes underrun len.

Definition kind_of_code (v : Z) : option LogicalTableKind :=
  match v with
  | 3 => Some AnyValue
  | 4 => Some HashedKeyValue
  | 5 => Some KeyValue
  | 6 => Some KeyTable
  | 1 => Some KeyMultiValue
  | 2 => Some KeyOrderedMultiValue
  | 7 => Some VectorStore
  | _ => None
  end.

Definition read_kind : reader LogicalTableKind :=
  v ← read_u16 underrun;
  match kind_of_code v with
  | Some k => mret k
  | None => throw (runtime_error "Invalid logical table kind")
  end.

Definition read_payload (bounds : CodecBounds) : reader bytes :=
  read_sized underrun (length_error "logical payload exceeds max_value_len") (max_value_len bounds).

Definition read_change (bounds : CodecBounds) : reader LogicalChange :=
  id ← read_string bounds "LogicalChange schema id is empty";
  k ← read_kind;
  sv ← read_u32 underrun;
  _ ← check (sv =? 0) (runtime_error "LogicalChange schema version is zero");
  op ← read_u32 underrun;
  fl ← read_u32 underrun;
  _ ← check (negb (fl =? 0)) (runtime_error "LogicalChange flags are reserved and must be zero");
  p ← read_payload bounds;
  mret {| schema := {| schema_id := id; kind := k; schema_version := sv |}; opcode := op; flags := fl; payload := p |}.

Definition read_frame (bounds : CodecBounds) : reader LogicalChangeFrame :=
  _ ← check_header;
  count ← read_u32 underrun;
  _ ← check (count >? max_ops_per_batch bounds) (length_error "logical changes exceed max_ops_per_batch");
  l ← repeat_read (Z.to_nat count) (read_change bounds);
  mret {| changes := l |}.

Definition trailing : exn := runtime_error "Trailing bytes after logical frame".

Definition decode (data : bytes) (bounds : option CodecBounds) : result LogicalChangeFrame :=
  let bd := effective_bounds bounds in
  decode_all too_long trailing (max_transport_message_bytes bd) (read_frame bd) data.

(** ** The encoding, as bytes *)

Definition change_bytes (c : LogicalChange) : bytes :=
  sized_bytes (schema_id (schema c)) ++ write_u16_le (kind_code (kind (schema c))) ++ write_u32_le (schema_version (schema c)) ++
  write_u32_le (opcode c) ++ write_u32_le (flags c) ++ sized_bytes (payload c).

Definition frame_bytes (f : LogicalChangeFrame) : bytes :=
  magic ++ write_u16_le codec_version ++ write_u32_le 0 ++ write_u32_le (size_of (changes f)) ++ concat (change_bytes <$> changes f).

(** The value ranges of the C++ field types. *)
Definition change_ok (c : LogicalChange) : Prop := is_u32 (schema_version (schema c)) ∧ is_u32 (opcode c).
Definition frame_ok (f : LogicalChangeFrame) : Prop := Forall change_ok (changes f).

#[export] Instance frame_ok_dec f : Decision (frame_ok f) := _.

Definition change_ready (bd : CodecBounds) (c : LogicalChange) : Prop :=
  is_logical_schema_ref_complete (schema c) = true ∧ flags c = 0 ∧
  size_of (schema_id (schema c)) ≤ max_logical_schema_id_len bd ∧ size_of (payload c) ≤ max_value_len bd.

Definition frame_ready (bd : CodecBounds) (f : LogicalChangeFrame) : Prop :=
  size_of (changes f) ≤ max_ops_per_batch bd ∧ Forall (change_ready bd) (changes f) ∧
  size_of (frame_bytes f) ≤ max_transport_message_bytes bd.

Lemma schema_ref_complete ref :
  is_logical_schema_ref_complete ref = true ↔
  schema_id ref ≠ [] ∧ is_known_logical_table_kind (kind ref) = true ∧ schema_version ref ≠ 0.
Proof.
  unfold is_logical_schema_ref_complete. rewrite !andb_true_iff, !negb_true_iff, bool_decide_eq_false, Z.eqb_neq. tauto.
Qed.

Lemma size_of_pos {A} (l : list A) : 0 ≤ size_of l ∧ (l ≠ [] ↔ 0 < size_of l).
Proof. unfold size_of. destruct l; cbn [length]; split; try lia; split; (done || lia). Qed.

Section Codec.
Context (bd : CodecBounds) (Hbd : bounds_valid bd).
Abbreviation max := (max_transport_message_bytes bd).

Lemma frame_limits_small :
  max < 2 ^ 64 ∧ max_logical_schema_id_len bd < 2 ^ 32 ∧ max_value_len bd < 2 ^ 32 ∧ max_ops_per_batch bd < 2 ^ 32.
Proof. assert (max < 2 ^ 32) by limit_range Hbd. split; [lia|]. limit_range Hbd. Qed.

(** *** Writing *)

Lemma writes_sized s label : size_of s < 2 ^ 32 →
  writes max (fun out => out ← append_u32_size bd (size_of s) label out; append_bytes bd s out) (sized_bytes s) True.
Proof.
  intros Hs. destruct frame_limits_small as [Hm _]. eapply writes_iff; [apply writes_bind; [by apply writes_size_limited, size_of_pos|by apply writes_limited]|].
  done.
Qed.

Lemma writes_change c : writes max (append_change bd c) (change_bytes c) (change_ready bd c).
Proof.
  destruct frame_limits_small as (Hm & H1 & H2 & _).
  assert (∀ (P : Prop) s (w : writer), (P → writes max w s True) → (∀ out out', w out = Ok out' → P) → writes max w s P) as Hguard.
  { intros P s w Hw HP. split.
    - intros out out' E. pose proof (HP _ _ E) as Hp. split; [done|]. by apply (Hw Hp) in E as [_ ?].
    - intros out Hp Hs. by apply (Hw Hp). }
  unfold change_ready. apply Hguard.
  - intros (Hc & Hf & Hs & Hp). pose proof (proj1 (schema_ref_complete _) Hc) as (Hid & Hk & Hv).
    unfold append_change, change_bytes. rewrite Hc, Hf. cbn [negb throw_if mbind result_bind Z.eqb].
    eapply writes_iff; [|apply (conj (fun _ => I) (fun _ => conj I (conj I (conj I (conj I (conj I I))))))].
    apply writes_bind.
    { unfold append_string. rewrite bool_decide_false by done. rewrite (proj2 (gtb_false _ _) Hs). cbn [throw_if mbind result_bind].
      apply writes_sized. lia. }
    apply writes_bind.
    { unfold append_kind. rewrite Hk. cbn [negb throw_if mbind result_bind]. by apply writes_u16_limited. }
    do 3 (apply writes_bind; [by apply writes_u32_limited|]).
    unfold append_payload. rewrite (proj2 (gtb_false _ _) Hp). cbn [throw_if mbind result_bind]. apply writes_sized. lia.
  - intros out out' H. unfold append_change in H. apply result_bind_Ok in H as ([] & Hc%throw_if_Ok%negb_false_iff & H).
    apply result_bind_Ok in H as ([] & Hf%throw_if_Ok%negb_false_iff%Z.eqb_eq & H).
    apply result_bind_Ok in H as (o1 & Hs & H). do 4 apply result_bind_Ok in H as (? & _ & H).
    unfold append_payload in H. apply result_bind_Ok in H as ([] & Hp%throw_if_Ok%gtb_false & _).
    unfold append_string in Hs. apply result_bind_Ok in Hs as ([] & _ & Hs). apply result_bind_Ok in Hs as ([] & Hs%throw_if_Ok%gtb_false & _).
    done.
Qed.

Lemma writes_frame f :
  writes max (append_frame bd f) (frame_bytes f) (size_of (changes f) < 2 ^ 32 ∧ Forall (change_ready bd) (changes f)).
Proof.
  destruct frame_limits_small as (Hm & _). unfold append_frame, frame_bytes. eapply writes_iff.
  - apply writes_bind; [by apply writes_limited|]. apply writes_bind; [by apply writes_u16_limited|].
    apply writes_bind; [by apply writes_u32_limited|]. apply writes_bind; [by apply writes_size_limited, size_of_pos|].
    apply writes_each. intros c _. apply writes_change.
  - tauto.
Qed.

Lemma frame_encode_Ok f bs : encode f (Some bd) = Ok bs ↔ frame_ready bd f ∧ bs = frame_bytes f.
Proof.
  destruct frame_limits_small as (_ & _ & _ & Ho). unfold encode, frame_ready. cbn [effective_bounds]. split.
  - intros ([] & Hn%throw_if_Ok%gtb_false & (out & [[_ Hc] ->]%writes_frame & ([] & Hs%throw_if_Ok%gtb_false & [= <-])
      %result_bind_Ok)%result_bind_Ok)%result_bind_Ok. done.
  - intros [(Hn & Hc & Hs) ->]. rewrite (proj2 (gtb_false _ _) Hn). cbn [throw_if mbind result_bind].
    rewrite (writes_succeeds _ _ _ _ (writes_frame f) []) by (done || (split; [lia|done])). cbn [mbind result_bind app].
    unfold validate_message_size. by rewrite (proj2 (gtb_false _ _) Hs).
Qed.

(** *** Reading *)

Lemma reads_frame_header : reads check_header (magic ++ write_u16_le codec_version ++ write_u32_le 0) tt.
Proof.
  unfold check_header. eapply reads_bind; [by apply reads_bytes|]. apply reads_check; [done|].
  eapply reads_bind; [by apply reads_u16|]. apply reads_check; [done|]. eapply reads_last; [by apply reads_u32|]. apply reads_ret.
Qed.

Lemma reads_name s label : s ≠ [] → size_of s ≤ max_logical_schema_id_len bd → reads (read_string bd label) (sized_bytes s) s.
Proof.
  intros Hne Hs. destruct frame_limits_small as (_ & H1 & _). destruct (size_of_pos s) as [Hp Hp']. apply Hp' in Hne.
  unfold read_string, sized_bytes. eapply reads_bind; [apply reads_u32; unfold u_range; lia|].
  apply reads_check; [by apply Z.eqb_neq; lia|]. apply reads_check; [by apply gtb_false|]. by apply reads_bytes.
Qed.

Lemma reads_kind k : is_known_logical_table_kind k = true → reads read_kind (write_u16_le (kind_code k)) k.
Proof.
  intros Hk. unfold read_kind. eapply reads_last; [apply reads_u16; by destruct k|]. destruct k; [done|apply reads_ret..].
Qed.

Lemma reads_change c : change_ok c → change_ready bd c → reads (read_change bd) (change_bytes c) c.
Proof.
  intros [Hv Ho] ((Hid & Hk & Hz)%schema_ref_complete & Hf & Hs & Hp). destruct frame_limits_small as (_ & _ & H2 & _).
  unfold read_change, change_bytes. eapply reads_bind; [by apply reads_name|]. eapply reads_bind; [by apply reads_kind|].
  eapply reads_bind; [by apply reads_u32|]. apply reads_check; [by apply Z.eqb_neq|]. eapply reads_bind; [by apply reads_u32|].
  eapply reads_bind; [by apply reads_u32; rewrite Hf|]. apply reads_check; [by rewrite Hf|].
  eapply reads_last; [apply reads_sized; [lia|done]|]. destruct c as [[] ? ? ?]. apply reads_ret.
Qed.

Lemma reads_frame f : frame_ok f → frame_ready bd f → reads (read_frame bd) (frame_bytes f) f.
Proof.
  intros Hok (Hn & Hc & _). destruct frame_limits_small as (_ & _ & _ & Ho). pose proof (size_of_pos (changes f)) as [Hp _].
  unfold read_frame, frame_bytes. rewrite (app_assoc (write_u16_le _)), (app_assoc magic).
  eapply reads_bind; [apply reads_frame_header|]. eapply reads_bind; [apply reads_u32; unfold u_range; lia|].
  apply reads_check; [by apply gtb_false|]. eapply reads_last.
  - unfold size_of. rewrite Nat2Z.id. apply (reads_repeat _ change_bytes id). intros c Hin. unfold frame_ok in Hok.
    rewrite Forall_forall in *. apply (reads_change c); auto.
  - rewrite list_fmap_id. destruct f. apply reads_ret.
Qed.

(** *** What a decoded frame satisfies *)

Lemma accepts_frame_header : accepts check_header (fun s _ => s = magic ++ write_u16_le codec_version ++ write_u32_le 0).
Proof.
  unfold check_header. eapply accepts_bind; [by apply accepts_bytes|]. intros s m [-> _]. apply accepts_check.
  intros Hm%negb_false_iff%bool_decide_eq_true. eapply accepts_bind; [apply accepts_u16|]. intros s1 v [_ ->]. apply accepts_check.
  intros Hv%negb_false_iff%Z.eqb_eq. eapply accepts_bind; [apply accepts_u32|]. intros s2 fl [_ ->]. unfold check.
  destruct (Z.eqb_spec fl 0) as [->|]; cbn [negb]; [|apply accepts_throw]. apply accepts_ret. subst. by rewrite app_nil_r.
Qed.

Lemma accepts_name label :
  accepts (read_string bd label) (fun s v => s = sized_bytes v ∧ v ≠ [] ∧ size_of v ≤ max_logical_schema_id_len bd).
Proof.
  unfold read_string. eapply accepts_bind; [apply accepts_u32|]. intros s1 len [Hlen ->]. apply accepts_check. intros Hz%Z.eqb_neq.
  apply accepts_check. intros Hl%gtb_false. eapply accepts_mono; [apply accepts_bytes; apply Hlen|]. intros s v [-> Hv].
  unfold sized_bytes, size_of. rewrite Hv. split_and!; [done| |done]. intros ->. cbn in Hv. lia.
Qed.

Lemma accepts_kind : accepts read_kind (fun s k => s = write_u16_le (kind_code k) ∧ is_known_logical_table_kind k = true).
Proof.
  unfold read_kind. eapply accepts_bind; [apply accepts_u16|]. intros s v [_ ->].
  assert (∀ k, kind_of_code v = Some k → v = kind_code k ∧ is_known_logical_table_kind k = true) as Hk.
  { intros k. unfold kind_of_code. repeat case_match; intros [= <-]; done. }
  destruct (kind_of_code v) as [k|]; [|apply accepts_throw]. destruct (Hk k) as [-> ?]; [done|]. apply accepts_ret. by rewrite app_nil_r.
Qed.

Lemma accepts_change : accepts (read_change bd) (fun s c => s = change_bytes c ∧ change_ok c ∧ change_ready bd c).
Proof.
  unfold read_change. eapply accepts_bind; [apply accepts_name|]. intros s1 id (-> & Hid & Hs).
  eapply accepts_bind; [apply accepts_kind|]. intros s2 k [-> Hk]. eapply accepts_bind; [apply accepts_u32|]. intros s3 sv [Hsv ->].
  apply accepts_check. intros Hz%Z.eqb_neq. eapply accepts_bind; [apply accepts_u32|]. intros s4 op [Hop ->].
  eapply accepts_bind; [apply accepts_u32|]. intros s5 fl [Hfl ->]. apply accepts_check. intros Hf%negb_false_iff%Z.eqb_eq.
  eapply accepts_bind; [apply accepts_sized|]. intros s6 p (-> & _ & Hp). apply accepts_ret. unfold change_ready.
  rewrite schema_ref_complete. unfold change_bytes. cbn [schema schema_id kind schema_version opcode flags payload].
  rewrite app_nil_r. split_and!; try done; by apply Hsv.
Qed.

Lemma accepts_frame :
  accepts (read_frame bd) (fun s f => s = frame_bytes f ∧ frame_ok f ∧ size_of (changes f) ≤ max_ops_per_batch bd ∧
    Forall (change_ready bd) (changes f)).
Proof.
  unfold read_frame. eapply accepts_bind; [apply accepts_frame_header|]. intros s0 [] E0. cbv beta in E0. subst s0.
  eapply accepts_bind; [apply accepts_u32|]. intros s1 n [Hn ->]. apply accepts_check. intros Hl%gtb_false.
  eapply accepts_bind; [apply accepts_repeat, accepts_change|]. intros s2 l (Hlen & ss & -> & Hss). apply accepts_ret.
  unfold u_range in Hn. assert (size_of l = n) as <- by (unfold size_of; lia).
  assert (concat ss = concat (change_bytes <$> l)) as ->.
  { clear -Hss. induction Hss as [|s c ss l [-> _] _ IH]; [done|]. rewrite fmap_cons. cbn [concat]. by rewrite IH. }
  unfold frame_bytes, frame_ok. cbn [changes]. rewrite app_nil_r, <- !app_assoc. split_and!; [done| |done|];
    (eapply Forall2_Forall_r; [exact Hss|]; apply Forall_true; by intros ? ? (_ & ? & ?)).
Qed.

Lemma frame_decode_Ok data f : decode data (Some bd) = Ok f ↔ frame_ok f ∧ frame_ready bd f ∧ data = frame_bytes f.
Proof.
  unfold decode. cbn [effective_bounds]. rewrite (decode_all_exact _ _ _ _ frame_bytes
    (fun f => frame_ok f ∧ size_of (changes f) ≤ max_ops_per_batch bd ∧ Forall (change_ready bd) (changes f))).
  - unfold frame_ready. split; [intros ((? & ? & ?) & -> & ?)|intros (? & (? & ? & ?) & ->)]; done.
  - intros g (Hok & Hn & Hc) Hs. by apply reads_frame.
  - eapply accepts_mono; [apply accepts_frame|]. done.
Qed.
End Codec.
