(* ===== verification/EnvelopeCodec.v ===== *)
(** * Logical delivery envelopes

    Models [src/include/mdbx_containers/sync/logical/LogicalDeliveryEnvelopeCodec.hpp]: a
    frame with its routing and replay identity.  The encoding is canonical. *)
From S2P Require Import Prelude SyncCommon Wire SyncProtocol Writers LogicalData.
From S2P Require FrameCodec.
Open Scope Z_scope.

Definition magic : bytes := bytes_of_string "MDBXCLDE".
Definition magic_size : Z := 8.
Definition codec_version : Z := 1.

Definition overflow : exn := length_error "logical delivery envelope size overflow".
Definition too_long : exn := length_error "logical delivery envelope exceeds max_transport_message_bytes".

Section Encode.
Context (bounds : CodecBounds).
Abbreviation max := (max_transport_message_bytes bounds).

Definition append_bytes : bytes → writer := append_limited overflow too_long max.
Definition append_u16_le : Z → writer := append_u16_limited overflow too_long max.
Definition append_u32_le : Z → writer := append_u32_limited overflow too_long max.
Definition append_u64_le : Z → writer := append_u64_limited overflow too_long max.
Definition append_u32_size : Z → string → writer := append_size_limited overflow too_long max.

Definition append_string (value : bytes) : writer := fun out =>
  _ ← throw_if (bool_decide (value = [])) (runtime_error "Logical delivery envelope frame id is empty");
  _ ← throw_if (size_of value >? max_logical_delivery_frame_id_len bounds)
        (length_error "logical delivery frame id exceeds max_logical_delivery_frame_id_len");
  out ← append_u32_size (size_of value) "logical delivery frame id length exceeds u32" out;
  append_bytes value out.

(** The appends of [encode] up to the nested frame. *)
Definition append_envelope (e : LogicalDeliveryEnvelope) (frame_bytes : bytes) : writer := fun out =>
  out ← append_bytes magic out;
  out ← append_u16_le codec_version out;
  out ← append_u32_le 0 out;
  out ← append_bytes (destination_db_uuid e) out;
  out ← append_bytes (envelope_origin e) out;
  out ← append_u64_le (origin_sequence e) out;
  out ← append_string (frame_id e) out;
  append_u32_size (size_of frame_bytes) "logical delivery frame length exceeds u32" out.
End Encode.

Definition encode (e : LogicalDeliveryEnvelope) (bounds : option CodecBounds) : result bytes :=
  let bd := effective_bounds bounds in
  _ ← validate_logical_delivery_envelope e (Some bd);
  frame_bytes ← FrameCodec.encode (frame e) (Some bd);
  out ← append_envelope bd e frame_bytes [];
  append_bytes bd frame_bytes out.

Definition underrun : exn := runtime_error "Logical delivery envelope codec buffer underrun".

Definition check_header : reader unit :=
  m ← read_bytes underrun magic_size;
  _ ← check (negb (bool_decide (m = magic))) (runtime_error "Logical delivery envelope magic mismatch");
  v ← read_u16 underrun;
  _ ← check (negb (v =? codec_version)) (runtime_error "Unsupported logical delivery envelope codec_version");
  fl ← read_u32 underrun;
  check (negb (fl =? 0)) (runtime_error "Unknown mandatory logical delivery envelope flags").

Definition read_string (bounds : CodecBounds) : reader bytes :=
  len ← read_u32 underrun;
  _ ← check (len =? 0) (runtime_error "Logical delivery envelope frame id is empty");
  _ ← check (len >? max_logical_delivery_frame_id_len bounds)
        (length_error "logical delivery frame id exceeds max_logical_delivery_frame_id_len");
  read_bytes underrun len.

Definition read_envelope (bounds : CodecBounds) : reader LogicalDeliveryEnvelope :=
  _ ← check_header;
  db ← read_bytes underrun 16;
  node ← read_bytes underrun 16;
  seq ← read_u64 underrun;
  id ← read_string bounds;
  frame_size ← read_u32 underrun;
  nested ← read_bytes underrun frame_size;
  f ← lift_result (FrameCodec.decode nested (Some bounds));
  let e := {| destination_db_uuid := db; envelope_origin := node; origin_sequence := seq; frame_id := id; frame := f |} in
  _ ← lift_result (validate_logical_delivery_envelope e (Some bounds));
  mret e.

Definition trailing : exn := runtime_error "Trailing bytes after logical delivery envelope".

Definition decode (data : bytes) (bounds : option CodecBounds) : result LogicalDeliveryEnvelope :=
  let bd := effective_bounds bounds in
  decode_all too_long trailing (max_transport_message_bytes bd) (read_envelope bd) data.

(** ** The encoding, as bytes *)

Definition head_bytes (e : LogicalDeliveryEnvelope) : bytes :=
  magic ++ write_u16_le codec_version ++ write_u32_le 0 ++ destination_db_uuid e ++ envelope_origin e ++
  write_u64_le (origin_sequence e) ++ sized_bytes (frame_id e) ++ write_u32_le (size_of (FrameCodec.frame_bytes (frame e))).
Definition envelope_bytes (e : LogicalDeliveryEnvelope) : bytes := head_bytes e ++ FrameCodec.frame_bytes (frame e).

(** The value ranges of the C++ field types. *)
Definition envelope_ok (e : LogicalDeliveryEnvelope) : Prop :=
  node_ok (destination_db_uuid e) ∧ node_ok (envelope_origin e) ∧ is_u64 (origin_sequence e) ∧ FrameCodec.frame_ok (frame e).

#[export] Instance envelope_ok_dec e : Decision (envelope_ok e) := _.

Definition envelope_ready (bd : CodecBounds) (e : LogicalDeliveryEnvelope) : Prop :=
  validate_logical_delivery_envelope e (Some bd) = Ok tt ∧ FrameCodec.frame_ready bd (frame e) ∧
  size_of (envelope_bytes e) ≤ max_transport_message_bytes bd.

Lemma frame_bytes_nonempty f : FrameCodec.frame_bytes f ≠ [].
Proof. done. Qed.

Lemma validated_frame_id e bd :
  validate_logical_delivery_envelope e (Some bd) = Ok tt →
  frame_id e ≠ [] ∧ size_of (frame_id e) ≤ max_logical_delivery_frame_id_len bd.
Proof.
  unfold validate_logical_delivery_envelope. intros ([] & Hc%throw_if_Ok%negb_false_iff & Hs%throw_if_Ok%gtb_false)%result_bind_Ok.
  split; [|done]. unfold is_logical_delivery_envelope_complete in Hc. rewrite !andb_true_iff, !negb_true_iff, bool_decide_eq_false in Hc. tauto.
Qed.

Section Codec.
Context (bd : CodecBounds) (Hbd : bounds_valid bd).
Abbreviation max := (max_transport_message_bytes bd).

Lemma envelope_limits_small : max < 2 ^ 32 ∧ max_logical_delivery_frame_id_len bd < 2 ^ 32.
Proof. limit_range Hbd. Qed.

Lemma writes_head e :
  validate_logical_delivery_envelope e (Some bd) = Ok tt → size_of (FrameCodec.frame_bytes (frame e)) < 2 ^ 32 →
  writes max (append_envelope bd e (FrameCodec.frame_bytes (frame e))) (head_bytes e) True.
Proof.
  intros [Hne Hid]%validated_frame_id Hf. destruct envelope_limits_small as [Hm H1]. assert (max < 2 ^ 64) as Hmax by lia.
  unfold append_envelope, head_bytes. eapply writes_iff.
  - apply writes_bind; [by apply writes_limited|]. apply writes_bind; [by apply writes_u16_limited|].
    apply writes_bind; [by apply writes_u32_limited|]. do 2 (apply writes_bind; [by apply writes_limited|]).
    apply writes_bind; [by apply writes_u64_limited|]. apply writes_bind.
    + unfold append_string. rewrite bool_decide_false by done. rewrite (proj2 (gtb_false _ _) Hid). cbn [throw_if mbind result_bind].
      apply writes_bind; [by apply writes_size_limited, FrameCodec.size_of_pos|by apply writes_limited].
    + by apply writes_size_limited, FrameCodec.size_of_pos.
  - split; [done|]. intros _. split_and!; try done. lia.
Qed.

Lemma envelope_encode_Ok e bs : encode e (Some bd) = Ok bs ↔ envelope_ready bd e ∧ bs = envelope_bytes e.
Proof.
  destruct envelope_limits_small as [Hm _]. unfold encode, envelope_ready. cbn [effective_bounds]. split.
  - intros ([] & Hv & (fb & [Hf ->]%(FrameCodec.frame_encode_Ok _ Hbd) & (out & Ho & Ha)%result_bind_Ok)%result_bind_Ok)%result_bind_Ok.
    pose proof Hf as (_ & _ & Hs). apply (writes_head e Hv) in Ho as [_ ->]; [|lia].
    pose proof (append_limited_below _ _ _ _ _ _ (frame_bytes_nonempty _) Ha) as Hb.
    apply writes_limited in Ha as [_ ->]; [|lia]. by split_and!.
  - intros [(Hv & Hf & Hs) ->]. rewrite Hv. cbn [mbind result_bind].
    rewrite (proj2 (FrameCodec.frame_encode_Ok _ Hbd _ _) (conj Hf eq_refl)). cbn [mbind result_bind]. pose proof Hf as (_ & _ & Hfs).
    rewrite (writes_succeeds _ _ _ _ (writes_head e Hv ltac:(lia)) []); [|done|].
    + cbn [mbind result_bind app]. apply writes_limited; [lia|done|done].
    + revert Hs. unfold envelope_bytes, size_of. cbn [app]. rewrite length_app. lia.
Qed.

Lemma reads_envelope_header : reads check_header (magic ++ write_u16_le codec_version ++ write_u32_le 0) tt.
Proof.
  unfold check_header. eapply reads_bind; [by apply reads_bytes|]. apply reads_check; [done|].
  eapply reads_bind; [by apply reads_u16|]. apply reads_check; [done|]. eapply reads_last; [by apply reads_u32|]. apply reads_ret.
Qed.

Lemma reads_envelope e : envelope_ok e → envelope_ready bd e → reads (read_envelope bd) (envelope_bytes e) e.
Proof.
  intros (Hd & Ho & Hq & Hfok) (Hv & Hf & _). destruct envelope_limits_small as [Hm H1]. destruct (validated_frame_id _ _ Hv) as [Hne Hid].
  destruct (FrameCodec.size_of_pos (frame_id e)) as [Hp Hp']. apply Hp' in Hne. pose proof Hf as (_ & _ & Hfs).
  pose proof (proj1 (FrameCodec.size_of_pos (FrameCodec.frame_bytes (frame e)))) as Hfp.
  unfold read_envelope, envelope_bytes, head_bytes. rewrite (app_assoc (write_u16_le codec_version)), (app_assoc magic), <- !(app_assoc (magic ++ _)).
  eapply reads_bind; [apply reads_envelope_header|]. rewrite <- !app_assoc.
  eapply reads_bind; [apply reads_bytes; by rewrite Hd|]. eapply reads_bind; [apply reads_bytes; by rewrite Ho|].
  eapply reads_bind; [by apply reads_u64|]. eapply reads_bind.
  { unfold read_string, sized_bytes. eapply reads_bind; [apply reads_u32; unfold u_range; lia|].
    apply reads_check; [apply Z.eqb_neq; lia|]. apply reads_check; [by apply gtb_false|]. by apply reads_bytes. }
  eapply reads_bind; [apply reads_u32; unfold u_range; lia|]. eapply reads_last; [by apply reads_bytes|].
  rewrite (proj2 (FrameCodec.frame_decode_Ok _ Hbd _ _) (conj Hfok (conj Hf eq_refl))). eapply reads_last; [apply reads_lift|]. cbv zeta.
  assert ({| destination_db_uuid := destination_db_uuid e; envelope_origin := envelope_origin e; origin_sequence := origin_sequence e;
    frame_id := frame_id e; frame := frame e |} = e) as -> by by destruct e.
  rewrite Hv. eapply reads_last; [apply reads_lift|apply reads_ret].
Qed.

Lemma accepts_envelope_header : accepts check_header (fun s _ => s = magic ++ write_u16_le codec_version ++ write_u32_le 0).
Proof.
  unfold check_header. eapply accepts_bind; [by apply accepts_bytes|]. intros s m [-> _]. apply accepts_check.
  intros Hm%negb_false_iff%bool_decide_eq_true. eapply accepts_bind; [apply accepts_u16|]. intros s1 v [_ ->]. apply accepts_check.
  intros Hv%negb_false_iff%Z.eqb_eq. eapply accepts_bind; [apply accepts_u32|]. intros s2 fl [_ ->]. unfold check.
  destruct (Z.eqb_spec fl 0) as [->|]; cbn [negb]; [|apply accepts_throw]. apply accepts_ret. subst. by rewrite app_nil_r.
Qed.

Lemma accepts_id : accepts (read_string bd) (fun s v => s = sized_bytes v).
Proof.
  unfold read_string. eapply accepts_bind; [apply accepts_u32|]. intros s1 len [Hlen ->]. apply accepts_check. intros _.
  apply accepts_check. intros _. eapply accepts_mono; [apply accepts_bytes; apply Hlen|]. intros s v [-> Hv].
  unfold sized_bytes, size_of. by rewrite Hv.
Qed.

Lemma accepts_envelope :
  accepts (read_envelope bd) (fun s e => s = envelope_bytes e ∧ envelope_ok e ∧
    validate_logical_delivery_envelope e (Some bd) = Ok tt ∧ FrameCodec.frame_ready bd (frame e)).
Proof.
  unfold read_envelope. eapply accepts_bind; [apply accepts_envelope_header|]. intros s0 [] E0. cbv beta in E0. subst s0.
  eapply accepts_bind; [by apply accepts_bytes|]. intros s1 db [-> Hdb]. eapply accepts_bind; [by apply accepts_bytes|].
  intros s2 node [-> Hnode]. eapply accepts_bind; [apply accepts_u64|]. intros s3 q [Hq ->].
  eapply accepts_bind; [apply accepts_id|]. intros s4 id ->. eapply accepts_bind; [apply accepts_u32|]. intros s5 n [Hn ->].
  eapply accepts_bind; [apply accepts_bytes, Hn|]. intros s6 nested [-> Hnested]. eapply accepts_bind; [apply accepts_lift|].
  intros s7 f [-> (Hfok & Hf & ->)%(FrameCodec.frame_decode_Ok _ Hbd)]. cbv zeta. eapply accepts_bind; [apply accepts_lift|].
  intros s8 [] [-> Hv]. apply accepts_ret. unfold envelope_bytes, head_bytes, envelope_ok, size_of.
  cbn [destination_db_uuid envelope_origin origin_sequence frame_id frame]. rewrite Hnested, !app_nil_r, <- !app_assoc.
  unfold node_ok. split_and!; try done; lia.
Qed.

Lemma envelope_decode_Ok data e : decode data (Some bd) = Ok e ↔ envelope_ok e ∧ envelope_ready bd e ∧ data = envelope_bytes e.
Proof.
  unfold decode. cbn [effective_bounds]. rewrite (decode_all_exact _ _ _ _ envelope_bytes (fun e => envelope_ok e ∧
    validate_logical_delivery_envelope e (Some bd) = Ok tt ∧ FrameCodec.frame_ready bd (frame e))).
  - unfold envelope_ready. split; [intros ((? & ? & ?) & -> & ?)|intros (? & (? & ? & ?) & ->)]; done.
  - intros g (Hok & Hv & Hf) Hs. by apply reads_envelope.
  - eapply accepts_mono; [apply accepts_envelope|]. done.
Qed.
End Codec.

(** ** Theorem *)

(** The encoding of envelopes is canonical: the strict decoder returns an envelope
    exactly on the bytes that the encoder produces for it under the same bounds.  So decoding
    inverts encoding, two different byte strings never decode to the same envelope, and what
    decodes has passed every check of the encoder: a complete identity, a frame id and frame
    within the limits, changes that name a known table kind and a non-zero schema version and
    use no reserved flag. *)
Theorem envelope_canonical (data : bytes) (bounds : option CodecBounds) (e : LogicalDeliveryEnvelope) :
  bounds_arg_valid bounds → decode data bounds = Ok e ↔ envelope_ok e ∧ encode e bounds = Ok data.
Proof.
  intros Hb. change (decode data bounds) with (decode data (Some (effective_bounds bounds))).
  change (encode e bounds) with (encode e (Some (effective_bounds bounds))).
  rewrite (envelope_decode_Ok _ Hb), (envelope_encode_Ok _ Hb). tauto.
Qed.

(** An envelope with one change. *)
Definition sample_envelope : LogicalDeliveryEnvelope := {|
  destination_db_uuid := replicate 16 (byte_of 3); envelope_origin := replicate 16 (byte_of 4); origin_sequence := 12;
  frame_id := bytes_of_string "f12";
  frame := {| changes := [{| schema := {| schema_id := bytes_of_string "tags"; kind := KeyMultiValue; schema_version := 2 |};
                             opcode := 1; flags := 0; payload := bytes_of_string "x" |}] |} |}.

Lemma envelope_canonical_witness :
  ∃ data, encode sample_envelope None = Ok data ∧ decode data None = Ok sample_envelope.
Proof.
  exists (match encode sample_envelope None with Ok bs => bs | Throw _ => [] end).
  assert (encode sample_envelope None = Ok (match encode sample_envelope None with Ok bs => bs | Throw _ => [] end)) as He
    by (vm_compute; reflexivity).
  assert (bounds_arg_valid None) as Hb by (apply (bool_decide_unpack _); vm_compute; exact I).
  assert (envelope_ok sample_envelope) as Hok by (apply (bool_decide_unpack _); vm_compute; exact I).
  split; [exact He|]. apply (proj2 (envelope_canonical _ None sample_envelope Hb)). split; [exact Hok|exact He].
Defined.
