(* ===== verification/DeliveryProtocol.v ===== *)
(** * The logical delivery protocol

    Models [src/include/mdbx_containers/sync/logical/LogicalDeliveryProtocol.hpp]: the five
    messages, their checks and the codec, and the checks a sender makes on an
    acknowledgement.  The encodings are canonical, and an acknowledgement that passes says
    exactly how far the receiver got. *)
From S2P Require Import Prelude SyncCommon Wire SyncProtocol Writers LogicalData.
From S2P Require FrameCodec EnvelopeCodec.
Open Scope Z_scope.

(** ** Data *)

Inductive LogicalDeliveryCapability : Type := NoCapability | OrderedDelivery | CumulativeAcknowledgement.

(** The enumerator values. *)
Definition capability_bit (c : LogicalDeliveryCapability) : Z :=
  match c with NoCapability => 0 | OrderedDelivery => Z.shiftl 1 0 | CumulativeAcknowledgement => Z.shiftl 1 1 end.

(** [LogicalDeliveryCapabilities], its [flags]. *)
Definition supports (flags : Z) (capability : LogicalDeliveryCapability) : bool :=
  let bit := capability_bit capability in
  negb (bit =? 0) && (Z.land flags bit =? bit).

Definition logical_delivery_supported_capability_flags : Z :=
  Z.lor (capability_bit OrderedDelivery) (capability_bit CumulativeAcknowledgement).

Definition logical_delivery_capability_negotiated (local remote : Z) (capability : LogicalDeliveryCapability) : bool :=
  supports local capability && supports remote capability.

Record LogicalDeliveryHello : Type := { hello_node_id : NodeId; hello_db_uuid : DbId; capabilities : Z }.

Record LogicalDeliveryRequest : Type :=
  { receiver_node_id : NodeId; request_envelope : LogicalDeliveryEnvelope; sender_capabilities : Z }.

Record LogicalDeliveryAcknowledgement : Type := {
  ack_destination : DbId;
  ack_receiver : NodeId;
  ack_origin : NodeId;
  acknowledged_through : Z;
  ack_ok : bool;
  ack_retryable : bool;
  ack_error : bytes;
}.

(** ** Checks *)

Definition validate_hello (hello : LogicalDeliveryHello) : result unit :=
  throw_if (is_zero_sync_id (hello_node_id hello) || is_zero_sync_id (hello_db_uuid hello))
    (runtime_error "Logical delivery hello identity is incomplete").

Definition validate_logical_delivery_request (request : LogicalDeliveryRequest) (bounds : option CodecBounds) : result unit :=
  _ ← throw_if (is_zero_sync_id (receiver_node_id request))
        (runtime_error "Logical delivery request receiver identity is incomplete");
  validate_logical_delivery_envelope (request_envelope request) bounds.

Definition validate_logical_delivery_acknowledgement (ack : LogicalDeliveryAcknowledgement) (bounds : option CodecBounds) : result unit :=
  _ ← throw_if (is_zero_sync_id (ack_destination ack) || is_zero_sync_id (ack_receiver ack) || is_zero_sync_id (ack_origin ack))
        (runtime_error "Logical delivery acknowledgement identity is incomplete");
  let effective := effective_bounds bounds in
  _ ← throw_if (size_of (ack_error ack) >? max_error_len effective)
        (length_error "logical delivery acknowledgement error exceeds max_error_len");
  throw_if (ack_ok ack && (ack_retryable ack || negb (bool_decide (ack_error ack = []))))
    (runtime_error "Successful logical delivery acknowledgement is inconsistent").

(** The acknowledgement names the delivery. *)
Definition ack_mismatch (ack : LogicalDeliveryAcknowledgement) (delivery : LogicalDeliveryEnvelope) (receiver : NodeId) : bool :=
  negb (compare_node_id (ack_destination ack) (destination_db_uuid delivery) =? 0) ||
  negb (compare_node_id (ack_receiver ack) receiver =? 0) ||
  negb (compare_node_id (ack_origin ack) (envelope_origin delivery) =? 0).

Definition validate_logical_delivery_acknowledgement_for_delivery (ack : LogicalDeliveryAcknowledgement)
    (delivery : LogicalDeliveryEnvelope) (receiver : NodeId) (bounds : option CodecBounds) : result unit :=
  _ ← validate_logical_delivery_acknowledgement ack bounds;
  _ ← throw_if (ack_mismatch ack delivery receiver)
        (runtime_error "Logical delivery acknowledgement identity does not match delivery");
  _ ← throw_if (acknowledged_through ack >? origin_sequence delivery)
        (runtime_error "Logical delivery acknowledgement exceeds delivered sequence");
  if ack_ok ack then
    throw_if (negb (acknowledged_through ack =? origin_sequence delivery))
      (runtime_error "Successful logical delivery acknowledgement is incomplete")
  else
    throw_if (acknowledged_through ack >=? origin_sequence delivery)
      (runtime_error "Failed logical delivery acknowledgement includes delivery").

Definition validate_logical_delivery_acknowledgement_for_sender (ack : LogicalDeliveryAcknowledgement)
    (delivery : LogicalDeliveryEnvelope) (receiver : NodeId) (known_tail : Z) (cumulative : bool)
    (bounds : option CodecBounds) : result unit :=
  _ ← validate_logical_delivery_acknowledgement ack bounds;
  _ ← throw_if (ack_mismatch ack delivery receiver)
        (runtime_error "Logical delivery acknowledgement identity does not match delivery");
  _ ← throw_if (known_tail <? origin_sequence delivery)
        (invalid_argument "Logical delivery sender known tail precedes delivery");
  _ ← throw_if (acknowledged_through ack >? known_tail)
        (runtime_error "Logical delivery acknowledgement exceeds sender known tail");
  if ack_ok ack then
    _ ← throw_if (acknowledged_through ack <? origin_sequence delivery)
          (runtime_error "Successful logical delivery acknowledgement is incomplete");
    throw_if (negb cumulative && negb (acknowledged_through ack =? origin_sequence delivery))
      (runtime_error "Logical delivery cumulative acknowledgement was not negotiated")
  else
    throw_if (acknowledged_through ack >=? origin_sequence delivery)
      (runtime_error "Failed logical delivery acknowledgement includes delivery").

Definition bounded_logical_delivery_acknowledgement_error (error : bytes) (bounds : option CodecBounds) : bytes :=
  let effective := effective_bounds bounds in
  if size_of error <=? max_error_len effective then error else take (Z.to_nat (max_error_len effective)) error.

(** ** Encoders *)

Inductive MessageType : Type := Hello | Delivery | Acknowledgement | HelloRequest | DeliveryRequest.

#[export] Instance MessageType_eq_dec : EqDecision MessageType.
Proof. solve_decision. Defined.

Definition message_code (t : MessageType) : Z :=
  match t with Hello => 1 | Delivery => 2 | Acknowledgement => 3 | HelloRequest => 4 | DeliveryRequest => 5 end.

Definition magic : bytes := bytes_of_string "MDBXCLDP".
Definition magic_size : Z := 8.
Definition codec_version : Z := 2.

Definition overflow : exn := length_error "logical delivery protocol size overflow".
Definition too_long : exn := length_error "logical delivery protocol exceeds max_transport_message_bytes".

Definition append_bytes (bounds : CodecBounds) (src : bytes) : writer :=
  append_limited overflow too_long (max_transport_message_bytes bounds) src.

(** The header is appended under the default bounds. *)
Definition make_header (type : MessageType) : writer := fun out =>
  out ← append_bytes default_bounds magic out;
  out ← put_u16 codec_version out;
  out ← append_u8 (message_code type) out;
  put_u32 0 out.

Definition append_string (bounds : CodecBounds) (value : bytes) : writer := fun out =>
  _ ← throw_if (size_of value >? max_error_len bounds)
        (length_error "logical delivery acknowledgement error exceeds max_error_len");
  out ← append_u32_size (size_of value) "logical delivery acknowledgement error exceeds u32" out;
  append_bytes bounds value out.

Definition append_nested (bounds : CodecBounds) (nested : bytes) : writer := fun out =>
  out ← append_u32_size (size_of nested) "logical delivery envelope exceeds u32" out;
  append_bytes bounds nested out.

Definition validate_size (out : bytes) (bounds : CodecBounds) : result unit :=
  throw_if (size_of out >? max_transport_message_bytes bounds) too_long.

Definition sized (w : writer) (bounds : CodecBounds) : result bytes :=
  out ← w [];
  _ ← validate_size out bounds;
  Ok out.

Definition encode_hello (hello : LogicalDeliveryHello) (bounds : option CodecBounds) : result bytes :=
  let bd := effective_bounds bounds in
  _ ← validate_hello hello;
  sized (fun out =>
    out ← make_header Hello out;
    out ← append_bytes bd (hello_node_id hello) out;
    out ← append_bytes bd (hello_db_uuid hello) out;
    put_u64 (capabilities hello) out) bd.

Definition encode_hello_request (bounds : option CodecBounds) : result bytes :=
  sized (make_header HelloRequest) (effective_bounds bounds).

Definition encode_delivery (envelope : LogicalDeliveryEnvelope) (bounds : option CodecBounds) : result bytes :=
  let bd := effective_bounds bounds in
  nested ← EnvelopeCodec.encode envelope bounds;
  sized (fun out =>
    out ← make_header Delivery out;
    append_nested bd nested out) bd.

Definition encode_delivery_request (request : LogicalDeliveryRequest) (bounds : option CodecBounds) : result bytes :=
  let bd := effective_bounds bounds in
  _ ← validate_logical_delivery_request request bounds;
  nested ← EnvelopeCodec.encode (request_envelope request) bounds;
  sized (fun out =>
    out ← make_header DeliveryRequest out;
    out ← append_bytes bd (receiver_node_id request) out;
    out ← put_u64 (sender_capabilities request) out;
    append_nested bd nested out) bd.

Definition encode_acknowledgement (ack : LogicalDeliveryAcknowledgement) (bounds : option CodecBounds) : result bytes :=
  let bd := effective_bounds bounds in
  _ ← validate_logical_delivery_acknowledgement ack bounds;
  sized (fun out =>
    out ← make_header Acknowledgement out;
    out ← append_bytes bd (ack_destination ack) out;
    out ← append_bytes bd (ack_receiver ack) out;
    out ← append_bytes bd (ack_origin ack) out;
    out ← put_u64 (acknowledged_through ack) out;
    out ← append_bool (ack_ok ack) out;
    out ← append_bool (ack_retryable ack) out;
    append_string bd (ack_error ack) out) bd.

(** ** Decoders *)

Definition underrun : exn := runtime_error "Logical delivery protocol buffer underrun".
Definition trailing : exn := runtime_error "Trailing bytes after logical delivery protocol message".
Definition unexpected_type : exn := runtime_error "Unexpected logical delivery protocol message type".

Definition message_of_code (v : Z) : option MessageType :=
  match v with
  | 1 => Some Hello
  | 2 => Some Delivery
  | 3 => Some Acknowledgement
  | 4 => Some HelloRequest
  | 5 => Some DeliveryRequest
  | _ => None
  end.

Definition read_header_type : reader MessageType :=
  m ← read_bytes underrun magic_size;
  _ ← check (negb (bool_decide (m = magic))) (runtime_error "Logical delivery protocol magic mismatch");
  v ← read_u16 underrun;
  _ ← check (negb (v =? codec_version)) (runtime_error "Unsupported logical delivery protocol codec version");
  raw_type ← read_u8 underrun;
  fl ← read_u32 underrun;
  _ ← check (negb (fl =? 0)) (runtime_error "Unknown mandatory logical delivery protocol flags");
  match message_of_code raw_type with
  | Some t => mret t
  | None => throw unexpected_type
  end.

Definition check_header (expected : MessageType) : reader unit :=
  t ← read_header_type;
  check (negb (bool_decide (t = expected))) unexpected_type.

Definition read_id : reader NodeId := read_bytes underrun 16.
Definition read_bool : reader bool := read_flag underrun (runtime_error "Invalid logical delivery protocol bool").
Definition read_string (bounds : CodecBounds) : reader bytes :=
  read_sized underrun (length_error "logical delivery acknowledgement error exceeds max_error_len") (max_error_len bounds).

Definition read_nested (bounds : option CodecBounds) : reader LogicalDeliveryEnvelope :=
  size ← read_u32 underrun;
  nested ← read_bytes underrun size;
  lift_result (EnvelopeCodec.decode nested bounds).

Definition read_hello : reader LogicalDeliveryHello :=
  _ ← check_header Hello;
  node ← read_id;
  db ← read_id;
  caps ← read_u64 underrun;
  let hello := {| hello_node_id := node; hello_db_uuid := db; capabilities := caps |} in
  _ ← lift_result (validate_hello hello);
  mret hello.

Definition read_delivery (bounds : option CodecBounds) : reader LogicalDeliveryEnvelope :=
  _ ← check_header Delivery;
  read_nested bounds.

Definition read_delivery_request (bounds : option CodecBounds) : reader LogicalDeliveryRequest :=
  _ ← check_header DeliveryRequest;
  receiver ← read_id;
  caps ← read_u64 underrun;
  envelope ← read_nested bounds;
  let request := {| receiver_node_id := receiver; request_envelope := envelope; sender_capabilities := caps |} in
  _ ← lift_result (validate_logical_delivery_request request bounds);
  mret request.

Definition read_acknowledgement (bounds : option CodecBounds) : reader LogicalDeliveryAcknowledgement :=
  _ ← check_header Acknowledgement;
  destination ← read_id;
  receiver ← read_id;
  origin ← read_id;
  through ← read_u64 underrun;
  ok ← read_bool;
  retryable ← read_bool;
  error ← read_string (effective_bounds bounds);
  let ack := {| ack_destination := destination; ack_receiver := receiver; ack_origin := origin; acknowledged_through := through;
                ack_ok := ok; ack_retryable := retryable; ack_error := error |} in
  _ ← lift_result (validate_logical_delivery_acknowledgement ack bounds);
  mret ack.

(** [make_cursor], the reads, [check_consumed]. *)
Definition finish {A} (r : reader A) (data : bytes) (bounds : option CodecBounds) : result A :=
  decode_all too_long trailing (max_transport_message_bytes (effective_bounds bounds)) r data.

Definition decode_hello (data : bytes) (bounds : option CodecBounds) : result LogicalDeliveryHello := finish read_hello data bounds.
Definition decode_hello_request (data : bytes) (bounds : option CodecBounds) : result unit :=
  finish (check_header HelloRequest) data bounds.
Definition decode_delivery (data : bytes) (bounds : option CodecBounds) : result LogicalDeliveryEnvelope :=
  finish (read_delivery bounds) data bounds.
Definition decode_delivery_request (data : bytes) (bounds : option CodecBounds) : result LogicalDeliveryRequest :=
  finish (read_delivery_request bounds) data bounds.
Definition decode_acknowledgement (data : bytes) (bounds : option CodecBounds) : result LogicalDeliveryAcknowledgement :=
  finish (read_acknowledgement bounds) data bounds.

Definition peek_message_type (data : bytes) (bounds : option CodecBounds) : result MessageType :=
  _ ← throw_if (size_of data >? max_transport_message_bytes (effective_bounds bounds)) too_long;
  '(t, _) ← read_header_type (make_cursor data);
  Ok t.

(** ** The messages and their bytes *)

Inductive DeliveryMessage : Type :=
  | AHello (hello : LogicalDeliveryHello)
  | ADelivery (envelope : LogicalDeliveryEnvelope)
  | AnAcknowledgement (ack : LogicalDeliveryAcknowledgement)
  | AHelloRequest
  | ADeliveryRequest (request : LogicalDeliveryRequest).

Definition delivery_type (m : DeliveryMessage) : MessageType :=
  match m with
  | AHello _ => Hello
  | ADelivery _ => Delivery
  | AnAcknowledgement _ => Acknowledgement
  | AHelloRequest => HelloRequest
  | ADeliveryRequest _ => DeliveryRequest
  end.

(** The encoder and the decoder of each type. *)
Definition encode_delivery_message (m : DeliveryMessage) (bounds : option CodecBounds) : result bytes :=
  match m with
  | AHello h => encode_hello h bounds
  | ADelivery e => encode_delivery e bounds
  | AnAcknowledgement a => encode_acknowledgement a bounds
  | AHelloRequest => encode_hello_request bounds
  | ADeliveryRequest r => encode_delivery_request r bounds
  end.

Definition decode_delivery_message (t : MessageType) (data : bytes) (bounds : option CodecBounds) : result DeliveryMessage :=
  match t with
  | Hello => h ← decode_hello data bounds; Ok (AHello h)
  | Delivery => e ← decode_delivery data bounds; Ok (ADelivery e)
  | Acknowledgement => a ← decode_acknowledgement data bounds; Ok (AnAcknowledgement a)
  | HelloRequest => _ ← decode_hello_request data bounds; Ok AHelloRequest
  | DeliveryRequest => r ← decode_delivery_request data bounds; Ok (ADeliveryRequest r)
  end.

Definition type_bytes (t : MessageType) : bytes :=
  magic ++ write_u16_le codec_version ++ [byte_of (message_code t)] ++ write_u32_le 0.
Definition flag_bytes (b : bool) : bytes := [byte_of (if b then 1 else 0)].
Definition nested_bytes (e : LogicalDeliveryEnvelope) : bytes := sized_bytes (EnvelopeCodec.envelope_bytes e).

Definition body_bytes (m : DeliveryMessage) : bytes :=
  match m with
  | AHello h => hello_node_id h ++ hello_db_uuid h ++ write_u64_le (capabilities h)
  | ADelivery e => nested_bytes e
  | AnAcknowledgement a =>
      ack_destination a ++ ack_receiver a ++ ack_origin a ++ write_u64_le (acknowledged_through a) ++ flag_bytes (ack_ok a) ++
      flag_bytes (ack_retryable a) ++ sized_bytes (ack_error a)
  | AHelloRequest => []
  | ADeliveryRequest r => receiver_node_id r ++ write_u64_le (sender_capabilities r) ++ nested_bytes (request_envelope r)
  end.
Definition delivery_bytes (m : DeliveryMessage) : bytes := type_bytes (delivery_type m) ++ body_bytes m.

(** The value ranges of the C++ field types. *)
Definition delivery_ok (m : DeliveryMessage) : Prop :=
  match m with
  | AHello h => node_ok (hello_node_id h) ∧ node_ok (hello_db_uuid h) ∧ is_u64 (capabilities h)
  | ADelivery e => EnvelopeCodec.envelope_ok e
  | AnAcknowledgement a =>
      node_ok (ack_destination a) ∧ node_ok (ack_receiver a) ∧ node_ok (ack_origin a) ∧ is_u64 (acknowledged_through a)
  | AHelloRequest => True
  | ADeliveryRequest r =>
      node_ok (receiver_node_id r) ∧ is_u64 (sender_capabilities r) ∧ EnvelopeCodec.envelope_ok (request_envelope r)
  end.

(** The checks of the encoders, next to the size of the message. *)
Definition delivery_ready (bd : CodecBounds) (m : DeliveryMessage) : Prop :=
  match m with
  | AHello h => validate_hello h = Ok tt
  | ADelivery e => EnvelopeCodec.envelope_ready bd e
  | AnAcknowledgement a => validate_logical_delivery_acknowledgement a (Some bd) = Ok tt
  | AHelloRequest => True
  | ADeliveryRequest r =>
      validate_logical_delivery_request r (Some bd) = Ok tt ∧ EnvelopeCodec.envelope_ready bd (request_envelope r)
  end.

Lemma make_header_bytes t : make_header t [] = Ok (type_bytes t).
Proof. destruct t; vm_compute; reflexivity. Qed.

Lemma ack_error_within a bd :
  validate_logical_delivery_acknowledgement a (Some bd) = Ok tt → size_of (ack_error a) ≤ max_error_len bd.
Proof.
  unfold validate_logical_delivery_acknowledgement. intros ([] & _ & H)%result_bind_Ok.
  by apply result_bind_Ok in H as ([] & H%throw_if_Ok%gtb_false & _).
Qed.

Section Codec.
Context (bd : CodecBounds) (Hbd : bounds_valid bd).
Abbreviation max := (max_transport_message_bytes bd).

Lemma delivery_limits_small : max < 2 ^ 32 ∧ max_error_len bd < 2 ^ 32.
Proof. limit_range Hbd. Qed.

Lemma writes_delivery_bytes s : writes max (append_bytes bd s) s True.
Proof. apply writes_limited. destruct delivery_limits_small. lia. Qed.

Lemma envelope_ready_size e :
  EnvelopeCodec.envelope_ready bd e → size_of (EnvelopeCodec.envelope_bytes e) ≤ max ∧ size_of (EnvelopeCodec.envelope_bytes e) < 2 ^ 32.
Proof. intros (_ & _ & Hs). destruct delivery_limits_small. lia. Qed.

Lemma writes_delivery_nested e :
  EnvelopeCodec.envelope_ready bd e → writes max (append_nested bd (EnvelopeCodec.envelope_bytes e)) (nested_bytes e) True.
Proof.
  intros [_ Hs]%envelope_ready_size. eapply writes_iff.
  - apply writes_bind; [apply writes_u32_size, FrameCodec.size_of_pos|apply writes_delivery_bytes].
  - done.
Qed.

Lemma sized_Ok t (k : writer) s bs :
  writes max k s True →
  sized (fun out => out ← make_header t out; k out) bd = Ok bs ↔ bs = type_bytes t ++ s ∧ size_of bs ≤ max.
Proof.
  intros [K1 K2]. unfold sized. rewrite make_header_bytes. cbn [mbind result_bind]. split.
  - intros (out & [_ ->]%K1 & ([] & Hs%throw_if_Ok%gtb_false & [= <-])%result_bind_Ok)%result_bind_Ok. done.
  - intros [-> Hs]. rewrite (K2 _ I Hs). cbn [mbind result_bind]. unfold validate_size. by rewrite (proj2 (gtb_false _ _) Hs).
Qed.

Lemma sized_header_Ok t bs : sized (make_header t) bd = Ok bs ↔ bs = type_bytes t ++ [] ∧ size_of bs ≤ max.
Proof.
  rewrite <- (sized_Ok t _ [] bs (writes_ret max)). unfold sized. by rewrite make_header_bytes.
Qed.

Lemma encode_delivery_message_Ok m bs :
  encode_delivery_message m (Some bd) = Ok bs ↔ delivery_ready bd m ∧ bs = delivery_bytes m ∧ size_of bs ≤ max.
Proof.
  destruct delivery_limits_small as [Hm He].
  assert (∀ (r : result unit) (Q P : Prop), (r = Ok tt → (Q ↔ P)) → r = Ok tt ∧ Q ↔ r = Ok tt ∧ P) as Hand by naive_solver.
  assert (∀ (r : result unit) (k : result bytes), (_ ← r; k) = Ok bs ↔ r = Ok tt ∧ k = Ok bs) as Hguard.
  { intros r k. split; [intros ([] & ? & ?)%result_bind_Ok; done|intros [-> ->]; done]. }
  unfold delivery_bytes. destruct m as [h|e|a| |r]; cbn [encode_delivery_message delivery_type delivery_ready body_bytes].
  - unfold encode_hello. cbn [effective_bounds]. rewrite Hguard. apply Hand. intros _. apply sized_Ok. eapply writes_iff.
    + do 2 (apply writes_bind; [apply writes_delivery_bytes|]). apply writes_u64.
    + done.
  - unfold encode_delivery. cbn [effective_bounds]. split.
    + intros (n & [Hr ->]%(EnvelopeCodec.envelope_encode_Ok _ Hbd) & Hs)%result_bind_Ok. split; [done|].
      apply (sized_Ok Delivery _ _ _ (writes_delivery_nested _ Hr)) in Hs. done.
    + intros [Hr Hs]. rewrite (proj2 (EnvelopeCodec.envelope_encode_Ok _ Hbd _ _) (conj Hr eq_refl)). cbn [mbind result_bind].
      by apply (sized_Ok Delivery _ _ _ (writes_delivery_nested _ Hr)).
  - unfold encode_acknowledgement. cbn [effective_bounds]. rewrite Hguard. apply Hand. intros Hv%ack_error_within. apply sized_Ok.
    eapply writes_iff.
    + do 3 (apply writes_bind; [apply writes_delivery_bytes|]). apply writes_bind; [apply writes_u64|].
      do 2 (apply writes_bind; [apply writes_bool|]).
      apply writes_throw_if, writes_bind; [apply writes_u32_size, FrameCodec.size_of_pos|apply writes_delivery_bytes].
    + rewrite gtb_false. split; [done|]. intros _. split_and!; try done. lia.
  - unfold encode_hello_request. cbn [effective_bounds]. rewrite sized_header_Ok. tauto.
  - unfold encode_delivery_request. cbn [effective_bounds]. rewrite Hguard, <- (and_assoc (validate_logical_delivery_request _ _ = _)).
    apply Hand. intros _.
    assert (EnvelopeCodec.envelope_ready bd (request_envelope r) → writes max (fun out =>
      out ← append_bytes bd (receiver_node_id r) out; out ← put_u64 (sender_capabilities r) out;
      append_nested bd (EnvelopeCodec.envelope_bytes (request_envelope r)) out)
      (receiver_node_id r ++ write_u64_le (sender_capabilities r) ++ nested_bytes (request_envelope r)) True) as Hw.
    { intros Hr. eapply writes_iff.
      - apply writes_bind; [apply writes_delivery_bytes|]. apply writes_bind; [apply writes_u64|by apply writes_delivery_nested].
      - done. }
    split.
    + intros (n & [Hr ->]%(EnvelopeCodec.envelope_encode_Ok _ Hbd) & Hs)%result_bind_Ok. split; [done|].
      by apply (sized_Ok DeliveryRequest _ _ _ (Hw Hr)) in Hs.
    + intros [Hr Hs]. rewrite (proj2 (EnvelopeCodec.envelope_encode_Ok _ Hbd _ _) (conj Hr eq_refl)). cbn [mbind result_bind].
      by apply (sized_Ok DeliveryRequest _ _ _ (Hw Hr)).
Qed.

(** ** Reading *)

Lemma reads_type t : reads read_header_type (type_bytes t) t.
Proof.
  unfold read_header_type, type_bytes. eapply reads_bind; [by apply reads_bytes|]. apply reads_check; [done|].
  eapply reads_bind; [by apply reads_u16|]. apply reads_check; [done|]. eapply reads_bind; [apply reads_u8|].
  eapply reads_last; [by apply reads_u32|]. apply reads_check; [done|]. destruct t; apply reads_ret.
Qed.

Lemma reads_expected t : reads (check_header t) (type_bytes t) tt.
Proof. unfold check_header. eapply reads_last; [apply reads_type|]. rewrite bool_decide_true by done. apply reads_ret. Qed.

Lemma reads_delivery_id n : node_ok n → reads read_id n n.
Proof. intros Hn. apply reads_bytes. by rewrite Hn. Qed.

Lemma reads_nested e :
  EnvelopeCodec.envelope_ok e → EnvelopeCodec.envelope_ready bd e → reads (read_nested (Some bd)) (nested_bytes e) e.
Proof.
  intros Hok Hr. pose proof (envelope_ready_size _ Hr) as [_ Hs]. unfold read_nested, nested_bytes, sized_bytes.
  eapply reads_bind; [apply reads_u32; unfold u_range, size_of in *; lia|]. eapply reads_last; [by apply reads_bytes|].
  rewrite (proj2 (EnvelopeCodec.envelope_decode_Ok _ Hbd _ _) (conj Hok (conj Hr eq_refl))). apply reads_lift.
Qed.

(** The reads of the decoder for a type. *)
Definition read_delivery_message (t : MessageType) : reader DeliveryMessage :=
  match t with
  | Hello => h ← read_hello; mret (AHello h)
  | Delivery => e ← read_delivery (Some bd); mret (ADelivery e)
  | Acknowledgement => a ← read_acknowledgement (Some bd); mret (AnAcknowledgement a)
  | HelloRequest => _ ← check_header HelloRequest; mret AHelloRequest
  | DeliveryRequest => r ← read_delivery_request (Some bd); mret (ADeliveryRequest r)
  end.

Lemma reads_delivery_message m :
  delivery_ok m → delivery_ready bd m → reads (read_delivery_message (delivery_type m)) (delivery_bytes m) m.
Proof.
  destruct delivery_limits_small as [Hm He]. intros Hok Hr.
  unfold delivery_bytes. destruct m as [h|e|a| |r]; cbn [delivery_type body_bytes delivery_ok delivery_ready read_delivery_message] in *.
  - destruct Hok as (H1 & H2 & H3), h. eapply reads_last; [eapply reads_bind; [apply reads_expected|]|].
    + do 2 (eapply reads_bind; [by apply reads_delivery_id|]). eapply reads_last; [by apply reads_u64|]. cbv zeta. cbn in Hr |- *.
      rewrite Hr. eapply reads_last; [apply reads_lift|apply reads_ret].
    + apply reads_ret.
  - eapply reads_last; [eapply reads_bind; [apply reads_expected|]|]; [by apply reads_nested|apply reads_ret].
  - pose proof (ack_error_within _ _ Hr). destruct Hok as (H1 & H2 & H3 & H4), a.
    eapply reads_last; [eapply reads_bind; [apply reads_expected|]|].
    + do 3 (eapply reads_bind; [by apply reads_delivery_id|]). eapply reads_bind; [by apply reads_u64|].
      do 2 (eapply reads_bind; [apply reads_flag|]). eapply reads_last; [apply reads_sized; cbn in *; lia|]. cbv zeta. cbn in Hr |- *.
      rewrite Hr. eapply reads_last; [apply reads_lift|apply reads_ret].
    + apply reads_ret.
  - rewrite app_nil_r. eapply reads_last; [apply reads_expected|apply reads_ret].
  - destruct Hok as (H1 & H2 & H3), Hr as [Hv Hr], r. eapply reads_last; [eapply reads_bind; [apply reads_expected|]|].
    + eapply reads_bind; [by apply reads_delivery_id|]. eapply reads_bind; [by apply reads_u64|].
      eapply reads_last; [by apply reads_nested|]. cbv zeta. cbn [receiver_node_id request_envelope sender_capabilities] in *.
      rewrite Hv. eapply reads_last; [apply reads_lift|apply reads_ret].
    + apply reads_ret.
Qed.

(** ** What a decoded message satisfies *)

Lemma accepts_type : accepts read_header_type (fun s t => s = type_bytes t).
Proof.
  unfold read_header_type. eapply accepts_bind; [by apply accepts_bytes|]. intros s0 m [-> _]. apply accepts_check.
  intros Hm%negb_false_iff%bool_decide_eq_true. eapply accepts_bind; [apply accepts_u16|]. intros s1 v [_ ->]. apply accepts_check.
  intros Hv%negb_false_iff%Z.eqb_eq. eapply accepts_bind; [apply accepts_u8|]. intros s2 c (b & -> & ->).
  eapply accepts_bind; [apply accepts_u32|]. intros s3 f [_ ->]. apply accepts_check. intros Hf%negb_false_iff%Z.eqb_eq. subst m v f.
  assert (∀ t, message_of_code (u8 b) = Some t → b = byte_of (message_code t)) as Ht.
  { intros t Et. assert (u8 b = message_code t) as E; [|by rewrite <- E, byte_of_u8]. revert Et. pose proof (u8_range b).
    unfold message_of_code. repeat case_match; intros [= <-]; done. }
  destruct (message_of_code (u8 b)) as [t|]; [|apply accepts_throw]. apply accepts_ret. rewrite (Ht t eq_refl). unfold type_bytes.
  by rewrite app_nil_r.
Qed.

Lemma accepts_expected t : accepts (check_header t) (fun s _ => s = type_bytes t).
Proof.
  unfold check_header. eapply accepts_bind; [apply accepts_type|]. intros s t' ->. unfold check.
  case_bool_decide as E; cbn [negb]; [|apply accepts_throw]. apply accepts_ret. by rewrite app_nil_r, E.
Qed.

Lemma accepts_delivery_id : accepts read_id (fun s n => s = n ∧ node_ok n).
Proof. eapply accepts_mono; [by apply accepts_bytes|]. intros s n [-> Hn]. split; [done|]. unfold node_ok. lia. Qed.

Lemma accepts_nested :
  accepts (read_nested (Some bd)) (fun s e => s = nested_bytes e ∧ EnvelopeCodec.envelope_ok e ∧ EnvelopeCodec.envelope_ready bd e).
Proof.
  unfold read_nested. eapply accepts_bind; [apply accepts_u32|]. intros s1 n [Hn ->]. eapply accepts_bind; [apply accepts_bytes, Hn|].
  intros s2 nested [-> Hlen]. eapply accepts_mono; [apply accepts_lift|].
  intros s3 e [-> (Hok & Hr & ->)%(EnvelopeCodec.envelope_decode_Ok _ Hbd)]. unfold nested_bytes, sized_bytes, size_of.
  rewrite Hlen, app_nil_r. done.
Qed.

Lemma accepts_delivery_message t :
  accepts (read_delivery_message t) (fun s m => s = delivery_bytes m ∧ delivery_type m = t ∧ delivery_ok m ∧ delivery_ready bd m).
Proof.
  assert (∀ {A} (r : reader A) (f : A → DeliveryMessage) (P : bytes → DeliveryMessage → Prop),
    accepts r (fun s a => P s (f a)) → accepts (x ← r; mret (f x)) P) as Hmap.
  { intros A r f P Hr. eapply accepts_bind; [exact Hr|]. intros s a HP. apply accepts_ret. by rewrite app_nil_r. }
  destruct t; cbn [read_delivery_message]; apply Hmap; (eapply accepts_bind; [apply accepts_expected|]; intros s0 [] E0; cbv beta in E0; subst s0)
    || (eapply accepts_mono; [apply accepts_expected|]; intros s0 [] ->).
  - eapply accepts_bind; [apply accepts_delivery_id|]. intros s1 n1 [-> H1]. eapply accepts_bind; [apply accepts_delivery_id|].
    intros s2 n2 [-> H2]. eapply accepts_bind; [apply accepts_u64|]. intros s3 c [Hc ->]. cbv zeta.
    eapply accepts_bind; [apply accepts_lift|]. intros s4 [] [-> Hv]. apply accepts_ret. unfold delivery_bytes.
    cbn [delivery_type body_bytes hello_node_id hello_db_uuid capabilities]. rewrite !app_nil_r. done.
  - eapply accepts_mono; [apply accepts_nested|]. intros s1 e (-> & Hok & Hr). done.
  - eapply accepts_bind; [apply accepts_delivery_id|]. intros s1 n1 [-> H1]. eapply accepts_bind; [apply accepts_delivery_id|].
    intros s2 n2 [-> H2]. eapply accepts_bind; [apply accepts_delivery_id|]. intros s3 n3 [-> H3].
    eapply accepts_bind; [apply accepts_u64|]. intros s4 c [Hc ->]. eapply accepts_bind; [apply accepts_flag|]. intros s5 ok ->.
    eapply accepts_bind; [apply accepts_flag|]. intros s6 re ->. eapply accepts_bind; [apply accepts_sized|].
    intros s7 e (-> & _ & _). cbv zeta. eapply accepts_bind; [apply accepts_lift|]. intros s8 [] [-> Hv]. apply accepts_ret.
    unfold delivery_bytes. cbn [delivery_type body_bytes ack_destination ack_receiver ack_origin acknowledged_through ack_ok
      ack_retryable ack_error]. rewrite !app_nil_r. done.
  - by unfold delivery_bytes; rewrite app_nil_r.
  - eapply accepts_bind; [apply accepts_delivery_id|]. intros s1 n1 [-> H1]. eapply accepts_bind; [apply accepts_u64|].
    intros s2 c [Hc ->]. eapply accepts_bind; [apply accepts_nested|]. intros s3 e (-> & Hok & Hr). cbv zeta.
    eapply accepts_bind; [apply accepts_lift|]. intros s4 [] [-> Hv]. apply accepts_ret. unfold delivery_bytes.
    cbn [delivery_type body_bytes receiver_node_id request_envelope sender_capabilities]. rewrite !app_nil_r. done.
Qed.

Lemma decode_delivery_message_Ok t data m :
  decode_delivery_message t data (Some bd) = Ok m ↔
  delivery_type m = t ∧ delivery_ok m ∧ delivery_ready bd m ∧ data = delivery_bytes m ∧ size_of data ≤ max.
Proof.
  assert (decode_delivery_message t data (Some bd) = decode_all too_long trailing max (read_delivery_message t) data) as ->.
  { destruct t; cbn [decode_delivery_message read_delivery_message]; by rewrite decode_all_map. }
  rewrite (decode_all_exact _ _ _ _ delivery_bytes (fun m => delivery_type m = t ∧ delivery_ok m ∧ delivery_ready bd m)); [tauto| |].
  - intros m' (<- & Hok & Hr) _. by apply reads_delivery_message.
  - eapply accepts_mono; [apply accepts_delivery_message|]. done.
Qed.
End Codec.

(** ** Theorems *)

(** C36: the messages of the delivery protocol have canonical encodings: the decoder of a
    type returns a message exactly on the bytes the encoder produces for it under the same
    bounds, and the type of such bytes can be read off without decoding.  In particular a
    message never decodes under another type, and everything that decodes has passed the
    checks of its encoder. *)
Theorem delivery_protocol_canonical (t : MessageType) (data : bytes) (bounds : option CodecBounds) (m : DeliveryMessage) :
  bounds_arg_valid bounds →
  (decode_delivery_message t data bounds = Ok m ↔
   delivery_type m = t ∧ delivery_ok m ∧ encode_delivery_message m bounds = Ok data) ∧
  (encode_delivery_message m bounds = Ok data → peek_message_type data bounds = Ok (delivery_type m)).
Proof.
  intros Hb.
  assert (decode_delivery_message t data bounds = decode_delivery_message t data (Some (effective_bounds bounds))) as -> by by destruct bounds, t.
  assert (encode_delivery_message m bounds = encode_delivery_message m (Some (effective_bounds bounds))) as -> by by destruct bounds, m.
  rewrite (decode_delivery_message_Ok _ Hb), (encode_delivery_message_Ok _ Hb). split; [tauto|]. intros (_ & -> & Hs).
  unfold peek_message_type. rewrite (proj2 (gtb_false _ _) Hs). cbn [throw_if mbind result_bind]. unfold delivery_bytes.
  by rewrite (reads_type _ _ (body_bytes m)) by apply at_bytes_make.
Qed.

(** What an acknowledgement that a sender accepts says of the delivery. *)
Lemma sender_acknowledgement (a : LogicalDeliveryAcknowledgement) (e : LogicalDeliveryEnvelope) (receiver : NodeId) (known_tail : Z)
    (cumulative : bool) (bounds : option CodecBounds) :
  node_ok (ack_destination a) ∧ node_ok (ack_receiver a) ∧ node_ok (ack_origin a) → EnvelopeCodec.envelope_ok e → node_ok receiver →
  validate_logical_delivery_acknowledgement_for_sender a e receiver known_tail cumulative bounds = Ok tt →
  ack_destination a = destination_db_uuid e ∧ ack_receiver a = receiver ∧ ack_origin a = envelope_origin e ∧
  acknowledged_through a ≤ known_tail ∧ (ack_ok a = true ↔ origin_sequence e ≤ acknowledged_through a) ∧
  (ack_ok a = true → cumulative = false → acknowledged_through a = origin_sequence e).
Proof.
  intros (N1 & N2 & N3) (D1 & D2 & _) Hr H. unfold validate_logical_delivery_acknowledgement_for_sender in H.
  apply result_bind_Ok in H as ([] & _ & H). apply result_bind_Ok in H as ([] & Hm%throw_if_Ok & H).
  apply result_bind_Ok in H as ([] & Hk%throw_if_Ok%Z.ltb_ge & H). apply result_bind_Ok in H as ([] & Ht%throw_if_Ok%gtb_false & H).
  unfold ack_mismatch in Hm. rewrite !orb_false_iff, !negb_false_iff, !Z.eqb_eq in Hm. destruct Hm as [[M1 M2] M3].
  apply compare_node_id_zero in M1, M2, M3; [|done..]. split_and!; try done.
  - destruct (ack_ok a).
    + apply result_bind_Ok in H as ([] & Hl%throw_if_Ok%Z.ltb_ge & _). done.
    + apply throw_if_Ok in H. rewrite Z.geb_leb, Z.leb_gt in H. split; [done|lia].
  - intros Ho ->. rewrite Ho in H. apply result_bind_Ok in H as ([] & _ & H%throw_if_Ok). cbn [negb andb] in H.
    by apply negb_false_iff, Z.eqb_eq in H.
Qed.

Definition sample_request : DeliveryMessage := ADeliveryRequest {|
  receiver_node_id := replicate 16 (byte_of 7); request_envelope := EnvelopeCodec.sample_envelope; sender_capabilities := 3 |}.

Definition sample_request_bytes : bytes := match encode_delivery_message sample_request None with Ok bs => bs | Throw _ => [] end.

Lemma delivery_protocol_canonical_witness :
  decode_delivery_message DeliveryRequest sample_request_bytes None = Ok sample_request ∧
  peek_message_type sample_request_bytes None = Ok DeliveryRequest.
Proof.
  assert (encode_delivery_message sample_request None = Ok sample_request_bytes) as He by (vm_compute; reflexivity).
  assert (bounds_arg_valid None) as Hb by (apply (bool_decide_unpack _); vm_compute; exact I).
  assert (delivery_ok sample_request) as Hok.
  { split; [reflexivity|]. split; apply (bool_decide_unpack _); vm_compute; exact I. }
  destruct (delivery_protocol_canonical DeliveryRequest sample_request_bytes None sample_request Hb) as [Hd Hp].
  split; [apply Hd; split; [reflexivity|]; split; [exact Hok|exact He]|exact (Hp He)].
Defined.
