(* ===== verification/Mdbx.v ===== *)
(** * The storage engine interface

    libmdbx is not part of the repository: its functions are the operations of the class
    [Mdbx], and what the code relies on is the class [MdbxLaws], stated over a view of a
    transaction (the named tables with their flags and records, and the open handles).
    An operation either behaves as documented or returns an [engine_error] code
    (disk full, I/O, bad sizes), about which nothing is assumed.  The file [RefMdbx]
    gives a small engine that satisfies the laws; the witnesses run on it.

    The code that calls the engine is written in the monad [M], and [wp] is its
    weakest precondition over views: the call either reaches the postcondition or throws
    the [MdbxException] of an [engine_error].

    Models [check_mdbx] and [checked_txn_env] of
    [src/include/mdbx_containers/detail/utils.hpp]. *)
From S2P Require Import Prelude.
From S2P Require KeyCodec.
Open Scope Z_scope.

(** ** Constants of mdbx.h *)

Definition MDBX_SUCCESS : Z := 0.
Definition MDBX_KEYEXIST : Z := -30799.
Definition MDBX_NOTFOUND : Z := -30798.
Definition MDBX_INCOMPATIBLE : Z := -30784.
Definition MDBX_EINVAL : Z := 22.
Definition MDBX_EACCESS : Z := 13.

Definition MDBX_REVERSEKEY : Z := 0x02.
Definition MDBX_DUPSORT : Z := 0x04.
Definition MDBX_DUPFIXED : Z := 0x10.
Definition MDBX_INTEGERDUP : Z := 0x20.
Definition MDBX_REVERSEDUP : Z := 0x40.
Definition MDBX_CREATE : Z := 0x40000.
Definition MDBX_DB_ACCEDE : Z := 0x40000000.

(** The flags an [mdbx_dbi_open] call stores with the table. *)
Definition stored_flags (flags : Z) : Z := Z.land flags 0x7e.

Inductive put_mode : Type := MDBX_UPSERT | MDBX_NOOVERWRITE.
Inductive cursor_op : Type := MDBX_FIRST | MDBX_NEXT | MDBX_SET_RANGE.
Inductive back_op : Type := MDBX_LAST | MDBX_PREV.

(** [std::string::c_str()] as libmdbx reads it: up to the first zero byte. *)
Fixpoint c_str (s : bytes) : bytes :=
  match s with
  | [] => []
  | b :: s' => if u8 b =? 0 then [] else b :: c_str s'
  end.

(** ** The operations *)

Class Mdbx : Type := {
  env : Type;
  txn : Type;
  cursor : Type;
  mdbx_txn_begin : env → bool → Z * txn;
  mdbx_txn_commit : env → txn → Z * env;
  mdbx_txn_abort : env → txn → Z * env;
  mdbx_txn_env : txn → Z;
  mdbx_dbi_open : txn → bytes → Z → Z * Z * txn;
  (** [mdbx_dbi_open] with a null name: the table that lists the named ones. *)
  mdbx_dbi_open_main : txn → Z * Z * txn;
  mdbx_dbi_flags : txn → Z → Z * Z;
  mdbx_dbi_stat : txn → Z → Z * Z;
  mdbx_get : txn → Z → bytes → Z * bytes;
  mdbx_put : txn → Z → bytes → bytes → put_mode → Z * txn;
  mdbx_del : txn → Z → bytes → Z * txn;
  mdbx_drop : txn → Z → Z * txn;
  mdbx_cmp : txn → Z → bytes → bytes → Z;
  mdbx_cursor_open : txn → Z → Z * cursor;
  mdbx_cursor_get : txn → cursor → cursor_op → bytes → Z * bytes * bytes * cursor;
  (** [mdbx_cursor_get] with an operation that moves backwards. *)
  mdbx_cursor_get_back : txn → cursor → back_op → Z * bytes * bytes * cursor;
  mdbx_cursor_del : txn → cursor → Z * txn * cursor;
}.

(** ** Views *)

Record dbi_view : Type := mk_dbi { dv_flags : Z; dv_recs : gmap bytes bytes }.

Record db_view : Type := {
  v_env : Z;
  v_rw : bool;
  v_dbs : gmap bytes dbi_view;
  v_handles : gmap Z bytes;
}.

Definition v_update (v : db_view) (name : bytes) (f : gmap bytes bytes → gmap bytes bytes)
    : db_view := {|
  v_env := v_env v; v_rw := v_rw v; v_handles := v_handles v;
  v_dbs := alter (fun d => mk_dbi (dv_flags d) (f (dv_recs d))) name (v_dbs v);
|}.

Definition v_opened (v : db_view) (name : bytes) (d : dbi_view) (dbi : Z) : db_view := {|
  v_env := v_env v; v_rw := v_rw v;
  v_dbs := <[name := d]> (v_dbs v); v_handles := <[dbi := name]> (v_handles v);
|}.

(** The table behind a handle; the record laws below are for tables without duplicate
    keys. *)
Definition plain (d : dbi_view) : Prop := has_flag (dv_flags d) MDBX_DUPSORT = false.

Definition table_at (v : db_view) (dbi : Z) (name : bytes) (d : dbi_view) : Prop :=
  v_handles v !! dbi = Some name ∧ v_dbs v !! name = Some d.

(** [k] with value [x] is the first record whose key satisfies [P]. *)
Definition first_record (m : gmap bytes bytes) (P : bytes → Prop) (k x : bytes) : Prop :=
  m !! k = Some x ∧ P k ∧ ∀ k' x', m !! k' = Some x' → P k' → bytes_le k k'.

Definition no_record (m : gmap bytes bytes) (P : bytes → Prop) : Prop :=
  ∀ k x, m !! k = Some x → ¬ P k.

(** The keys a cursor operation may move to, from position [pos]. *)
Definition cursor_range (op : cursor_op) (pos : option bytes) (key k : bytes) : Prop :=
  match op with
  | MDBX_FIRST => True
  | MDBX_SET_RANGE => bytes_le key k
  | MDBX_NEXT => match pos with Some p => bytes_lt p k | None => True end
  end.

Definition back_range (op : back_op) (pos : option bytes) (k : bytes) : Prop :=
  match op, pos with
  | MDBX_PREV, Some p => bytes_lt k p
  | _, _ => True
  end.

(** [k] with value [x] is the last record whose key satisfies [P]. *)
Definition last_record (m : gmap bytes bytes) (P : bytes → Prop) (k x : bytes) : Prop :=
  m !! k = Some x ∧ P k ∧ ∀ k' x', m !! k' = Some x' → P k' → bytes_le k' k.

(** The order of a table: keys of a table with [MDBX_INTEGERKEY] are unsigned integers of
    one size, stored little-endian, and compare as the reversed byte strings. *)
Definition sort_key (flags : Z) (k : bytes) : bytes :=
  if flags =? KeyCodec.MDBX_INTEGERKEY then reverse k else k.

Definition ordered_recs (d : dbi_view) : gmap bytes bytes := kmap (sort_key (dv_flags d)) (dv_recs d).

(** A key of [w] bytes can be compared with the keys of a table with these flags, and with
    those of [d]. *)
Definition key_sized (flags : Z) (w : nat) : Prop :=
  flags = 0 ∨ flags = KeyCodec.MDBX_INTEGERKEY ∧ (w = 4 ∨ w = 8)%nat.
Definition recs_sized (d : dbi_view) (w : nat) : Prop :=
  dv_flags d = 0 ∨
  dv_flags d = KeyCodec.MDBX_INTEGERKEY ∧ (w = 4 ∨ w = 8)%nat ∧
    map_Forall (fun k _ => length k = w) (dv_recs d).

Definition flags_match (flags : Z) (d : dbi_view) : bool :=
  (flags =? 0) || (flags =? MDBX_DB_ACCEDE) || (stored_flags flags =? dv_flags d).

Definition dup_flags (flags : Z) : bool := has_flag flags 0x74.

(** The flags for duplicates of a fixed size or another order are valid in some
    combinations only. *)
Definition fixed_flags (flags : Z) : bool := has_flag flags 0x70.

(** The documented outcomes of [mdbx_dbi_open]. *)
Definition open_spec (v : db_view) (name : bytes) (flags rc dbi : Z) (v' : db_view) : Prop :=
  let opened d := rc = MDBX_SUCCESS ∧ dbi ≠ 0 ∧
    (∀ n, v_handles v !! dbi = Some n → n = name) ∧ v' = v_opened v name d dbi in
  match v_dbs v !! name with
  | None =>
      if has_flag flags MDBX_CREATE then
        if v_rw v then
          opened (mk_dbi (stored_flags flags) ∅) ∨
          (fixed_flags flags = true ∧ rc = MDBX_EINVAL ∧ v' = v)
        else rc = MDBX_EACCESS ∧ v' = v
      else rc = MDBX_NOTFOUND ∧ v' = v
  | Some d =>
      opened d ∨
      (flags_match flags d = false ∧ (rc = MDBX_INCOMPATIBLE ∨ rc = MDBX_EINVAL) ∧ v' = v) ∨
      (flags_match flags d = false ∧ has_flag flags MDBX_CREATE = true ∧ v_rw v = true ∧
         dv_recs d = ∅ ∧ opened (mk_dbi (stored_flags flags) ∅)) ∨
      (has_flag flags MDBX_CREATE = true ∧ v_rw v = false ∧ rc = MDBX_EACCESS ∧ v' = v)
  end.

(** ** The laws *)

Class MdbxLaws (X : Mdbx) : Type := {
  view : txn → db_view;
  env_id : env → Z;
  env_dbs : env → gmap bytes dbi_view;
  env_handles : env → gmap Z bytes;
  cursor_dbi : cursor → Z;
  cursor_key : cursor → option bytes;
  main_dbi : Z → Prop;
  engine_error : Z → Prop;
  law_error rc : engine_error rc →
    rc ∉ [MDBX_SUCCESS; MDBX_KEYEXIST; MDBX_NOTFOUND; MDBX_INCOMPATIBLE; MDBX_EINVAL; MDBX_EACCESS];
  law_begin e rdonly rc s : mdbx_txn_begin e rdonly = (rc, s) →
    engine_error rc ∨
    rc = MDBX_SUCCESS ∧ v_env (view s) = env_id e ∧ v_rw (view s) = negb rdonly ∧
    v_dbs (view s) = env_dbs e;
  law_commit e s rc e' : mdbx_txn_commit e s = (rc, e') →
    env_id e' = env_id e ∧
    (engine_error rc ∧ env_dbs e' = env_dbs e ∨ rc = MDBX_SUCCESS ∧ env_dbs e' = v_dbs (view s));
  law_abort e s rc e' : mdbx_txn_abort e s = (rc, e') →
    env_id e' = env_id e ∧ env_dbs e' = env_dbs e ∧ (engine_error rc ∨ rc = MDBX_SUCCESS);
  (** A handle belongs to the environment once the transaction that opened it has
      committed; other transactions may use it from then on. *)
  law_begin_handles e rdonly rc s : mdbx_txn_begin e rdonly = (rc, s) →
    engine_error rc ∨ env_handles e ⊆ v_handles (view s);
  law_commit_handles e s rc e' : mdbx_txn_commit e s = (rc, e') →
    engine_error rc ∧ env_handles e' = env_handles e ∨ rc = MDBX_SUCCESS ∧ env_handles e' = v_handles (view s);
  law_abort_handles e s rc e' : mdbx_txn_abort e s = (rc, e') → env_handles e' = env_handles e;
  law_txn_env s : mdbx_txn_env s = v_env (view s);
  law_open s name flags rc dbi s' : mdbx_dbi_open s name flags = (rc, dbi, s') →
    engine_error rc ∨ open_spec (view s) name flags rc dbi (view s');
  (** An open that neither creates nor accedes to other flags succeeds on matching flags
      only. *)
  law_open_flags s name flags dbi s' d : mdbx_dbi_open s name flags = (MDBX_SUCCESS, dbi, s') →
    has_flag flags (Z.lor MDBX_CREATE MDBX_DB_ACCEDE) = false → v_dbs (view s) !! name = Some d →
    flags_match flags d = true;
  law_open_main s rc dbi s' : mdbx_dbi_open_main s = (rc, dbi, s') →
    engine_error rc ∨
    rc = MDBX_SUCCESS ∧ main_dbi dbi ∧ v_handles (view s) !! dbi = None ∧ view s' = view s;
  (** The keys of the main table are the names of the others. *)
  law_get_main s dbi k rc x : mdbx_get s dbi k = (rc, x) →
    main_dbi dbi → v_handles (view s) !! dbi = None →
    engine_error rc ∨ rc = MDBX_SUCCESS ∧ is_Some (v_dbs (view s) !! k) ∨
    rc = MDBX_NOTFOUND ∧ v_dbs (view s) !! k = None;
  law_flags s dbi name d rc f : mdbx_dbi_flags s dbi = (rc, f) → table_at (view s) dbi name d →
    engine_error rc ∨ rc = MDBX_SUCCESS ∧ f = dv_flags d;
  law_stat s dbi name d rc n : mdbx_dbi_stat s dbi = (rc, n) → table_at (view s) dbi name d →
    plain d → engine_error rc ∨ rc = MDBX_SUCCESS ∧ n = Z.of_nat (size (dv_recs d));
  law_get s dbi name d k rc x : mdbx_get s dbi k = (rc, x) → table_at (view s) dbi name d →
    plain d →
    engine_error rc ∨ rc = MDBX_SUCCESS ∧ dv_recs d !! k = Some x ∨
    rc = MDBX_NOTFOUND ∧ dv_recs d !! k = None;
  law_put s dbi name d k x mode rc s' : mdbx_put s dbi k x mode = (rc, s') →
    table_at (view s) dbi name d → plain d → v_rw (view s) = true →
    engine_error rc ∨
    mode = MDBX_NOOVERWRITE ∧ is_Some (dv_recs d !! k) ∧ rc = MDBX_KEYEXIST ∧ view s' = view s ∨
    (mode = MDBX_UPSERT ∨ dv_recs d !! k = None) ∧ rc = MDBX_SUCCESS ∧
      view s' = v_update (view s) name <[k := x]>;
  law_del s dbi name d k rc s' : mdbx_del s dbi k = (rc, s') →
    table_at (view s) dbi name d → plain d → v_rw (view s) = true →
    engine_error rc ∨
    rc = MDBX_NOTFOUND ∧ dv_recs d !! k = None ∧ view s' = view s ∨
    rc = MDBX_SUCCESS ∧ is_Some (dv_recs d !! k) ∧ view s' = v_update (view s) name (delete k);
  (** On any table, with duplicates too, a write touches that table only. *)
  law_put_frame s dbi name d k x mode rc s' : mdbx_put s dbi k x mode = (rc, s') →
    table_at (view s) dbi name d → v_rw (view s) = true →
    engine_error rc ∨ (rc = MDBX_SUCCESS ∨ rc = MDBX_KEYEXIST) ∧
      ∃ f, view s' = v_update (view s) name f;
  law_del_frame s dbi name d k rc s' : mdbx_del s dbi k = (rc, s') →
    table_at (view s) dbi name d → v_rw (view s) = true →
    engine_error rc ∨ (rc = MDBX_SUCCESS ∨ rc = MDBX_NOTFOUND) ∧
      ∃ f, view s' = v_update (view s) name f;
  law_drop s dbi name d rc s' : mdbx_drop s dbi = (rc, s') →
    table_at (view s) dbi name d → v_rw (view s) = true →
    engine_error rc ∨ rc = MDBX_SUCCESS ∧ view s' = v_update (view s) name (fun _ => ∅);
  law_cmp_by s dbi name d a b : table_at (view s) dbi name d →
    key_sized (dv_flags d) (length a) → length a = length b ∨ dv_flags d = 0 →
    let o := bytes_compare (sort_key (dv_flags d) a) (sort_key (dv_flags d) b) in
    (mdbx_cmp s dbi a b > 0 ↔ o = Gt) ∧ (mdbx_cmp s dbi a b < 0 ↔ o = Lt);
  law_cursor_open s dbi name d rc c : mdbx_cursor_open s dbi = (rc, c) →
    table_at (view s) dbi name d →
    engine_error rc ∨ rc = MDBX_SUCCESS ∧ cursor_dbi c = dbi ∧ cursor_key c = None;
  law_cursor_get_by s c op key name d w rc k x c' : mdbx_cursor_get s c op key = (rc, k, x, c') →
    table_at (view s) (cursor_dbi c) name d → recs_sized d w →
    (op = MDBX_SET_RANGE → length key = w ∨ dv_flags d = 0) →
    let range := cursor_range op (sort_key (dv_flags d) <$> cursor_key c) (sort_key (dv_flags d) key) in
    engine_error rc ∨
    cursor_dbi c' = cursor_dbi c ∧
    (rc = MDBX_SUCCESS ∧ first_record (ordered_recs d) range (sort_key (dv_flags d) k) x ∧
       cursor_key c' = Some k ∨
     rc = MDBX_NOTFOUND ∧ no_record (ordered_recs d) range);
  law_cursor_get_back s c op name d w rc k x c' : mdbx_cursor_get_back s c op = (rc, k, x, c') →
    table_at (view s) (cursor_dbi c) name d → recs_sized d w →
    let range := back_range op (sort_key (dv_flags d) <$> cursor_key c) in
    engine_error rc ∨
    cursor_dbi c' = cursor_dbi c ∧
    (rc = MDBX_SUCCESS ∧ last_record (ordered_recs d) range (sort_key (dv_flags d) k) x ∧
       cursor_key c' = Some k ∨
     rc = MDBX_NOTFOUND ∧ no_record (ordered_recs d) range);
  law_cursor_del_by s c name d w k rc s' c' : mdbx_cursor_del s c = (rc, s', c') →
    table_at (view s) (cursor_dbi c) name d → recs_sized d w → v_rw (view s) = true →
    cursor_key c = Some k → is_Some (dv_recs d !! k) →
    engine_error rc ∨
    rc = MDBX_SUCCESS ∧ view s' = v_update (view s) name (delete k) ∧
    cursor_dbi c' = cursor_dbi c ∧ cursor_key c' = Some k;
}.

(** ** Tables in byte order *)

Lemma sort_key_involutive flags k : sort_key flags (sort_key flags k) = k.
Proof. unfold sort_key. destruct (_ =? _); [apply reverse_involutive|done]. Qed.

#[export] Instance sort_key_inj flags : Inj (=) (=) (sort_key flags).
Proof. intros a b E. by rewrite <- (sort_key_involutive flags a), E, sort_key_involutive. Qed.

Lemma kmap_id_sort m : kmap (sort_key 0) m = m :> gmap bytes bytes.
Proof.
  apply map_eq. intros k. rewrite <- (sort_key_involutive 0 k) at 1. by rewrite lookup_kmap by apply _.
Qed.

Lemma sort_key_pos (o : option bytes) : sort_key 0 <$> o = o.
Proof. by destruct o. Qed.

Section PlainOrder.
Context {X : Mdbx} {L : MdbxLaws X}.

Lemma law_cmp s dbi name d a b : table_at (view s) dbi name d → dv_flags d = 0 →
  (mdbx_cmp s dbi a b > 0 ↔ bytes_compare a b = Gt).
Proof.
  intros Ht Hf. destruct (law_cmp_by s dbi name d a b Ht (or_introl Hf) (or_intror Hf)) as [H _].
  by rewrite Hf in H.
Qed.

Lemma law_cursor_get s c op key name d rc k x c' : mdbx_cursor_get s c op key = (rc, k, x, c') →
  table_at (view s) (cursor_dbi c) name d → dv_flags d = 0 →
  engine_error rc ∨
  cursor_dbi c' = cursor_dbi c ∧
  (rc = MDBX_SUCCESS ∧ first_record (dv_recs d) (cursor_range op (cursor_key c) key) k x ∧
     cursor_key c' = Some k ∨
   rc = MDBX_NOTFOUND ∧ no_record (dv_recs d) (cursor_range op (cursor_key c) key)).
Proof.
  intros E Ht Hf.
  pose proof (law_cursor_get_by s c op key name d 0 rc k x c' E Ht (or_introl Hf) (fun _ => or_intror Hf)) as H.
  unfold ordered_recs in H. by rewrite Hf, kmap_id_sort, sort_key_pos in H.
Qed.

Lemma law_cursor_del s c name d k rc s' c' : mdbx_cursor_del s c = (rc, s', c') →
  table_at (view s) (cursor_dbi c) name d → dv_flags d = 0 → v_rw (view s) = true →
  cursor_key c = Some k → is_Some (dv_recs d !! k) →
  engine_error rc ∨
  rc = MDBX_SUCCESS ∧ view s' = v_update (view s) name (delete k) ∧
  cursor_dbi c' = cursor_dbi c ∧ cursor_key c' = Some k.
Proof. intros E Ht Hf. by apply (law_cursor_del_by _ _ _ _ 0 _ _ _ _ E Ht (or_introl Hf)). Qed.
End PlainOrder.

(** ** Records in key order *)

Definition rec_le (a b : bytes * bytes) : Prop := bytes_le a.1 b.1.
Definition rec_lt (a b : bytes * bytes) : Prop := bytes_lt a.1 b.1.

#[export] Instance rec_le_dec : RelDecision rec_le := fun a b => bytes_le_dec a.1 b.1.
#[export] Instance rec_le_total : Total rec_le.
Proof. intros a b. apply bytes_le_total. Qed.
#[export] Instance rec_le_trans : Transitive rec_le.
Proof. intros a b c. apply bytes_le_trans. Qed.
#[export] Instance rec_lt_strict : StrictOrder rec_lt.
Proof.
  split; [intros a; apply (irreflexivity bytes_lt)|].
  intros a b c. apply (transitivity (R := bytes_lt)).
Qed.

Definition sorted_recs (m : gmap bytes bytes) : list (bytes * bytes) :=
  merge_sort rec_le (map_to_list m).

Lemma elem_of_sorted_recs m k x : (k, x) ∈ sorted_recs m ↔ m !! k = Some x.
Proof. unfold sorted_recs. by rewrite merge_sort_Permutation, elem_of_map_to_list. Qed.

Lemma strict_sorted_unique (l1 l2 : list (bytes * bytes)) :
  StronglySorted rec_lt l1 → StronglySorted rec_lt l2 → (∀ r, r ∈ l1 ↔ r ∈ l2) → l1 = l2.
Proof.
  revert l2. induction l1 as [|a l1 IH]; intros [|b l2] H1 H2 H; try done.
  - exfalso. by eapply not_elem_of_nil, H; left.
  - exfalso. by eapply not_elem_of_nil, H; left.
  - apply StronglySorted_inv in H1 as [H1 Ha], H2 as [H2 Hb]. rewrite Forall_forall in Ha, Hb.
    assert (a = b) as <-.
    { assert (a ∈ b :: l2) as [|Hin]%elem_of_cons by (apply H; left); [done|].
      assert (b ∈ a :: l1) as [|Hin']%elem_of_cons by (apply H; left); [done|].
      exfalso. apply (irreflexivity rec_lt a). by transitivity b; [apply Ha|apply Hb]. }
    f_equal. apply IH; [done..|]. intros r. specialize (H r). rewrite !elem_of_cons in H.
    split; intros Hr.
    + destruct (proj1 H (or_intror Hr)) as [->|]; [|done].
      exfalso. by apply (irreflexivity rec_lt a), Ha.
    + destruct (proj2 H (or_intror Hr)) as [->|]; [|done].
      exfalso. by apply (irreflexivity rec_lt a), Hb.
Qed.

Lemma sorted_strict {A} (f : A → bytes) (l : list A) :
  NoDup (f <$> l) → StronglySorted (fun a b => bytes_le (f a) (f b)) l →
  StronglySorted (fun a b => bytes_lt (f a) (f b)) l.
Proof.
  induction l as [|a l IH]; [constructor|].
  rewrite fmap_cons, NoDup_cons. intros [Ha Hnd] [Hs Hle]%StronglySorted_inv.
  constructor; [by apply IH|]. rewrite Forall_forall in Hle |- *. intros b Hb.
  destruct (proj1 (bytes_le_lteq (f a) (f b)) (Hle b Hb)) as [|E]; [done|].
  exfalso. apply Ha. rewrite E. by apply list_elem_of_fmap_2.
Qed.

Lemma sorted_recs_sorted m : StronglySorted rec_lt (sorted_recs m).
Proof.
  apply (sorted_strict fst).
  - unfold sorted_recs. rewrite merge_sort_Permutation. apply NoDup_fst_map_to_list.
  - apply (Sorted_StronglySorted rec_le). apply (Sorted_merge_sort rec_le).
Qed.

(** The records whose key satisfies [P], in key order. *)
Definition recs_where (m : gmap bytes bytes) (P : bytes → Prop) `{∀ k, Decision (P k)}
    : list (bytes * bytes) :=
  filter (fun r => P r.1) (sorted_recs m).

Lemma StronglySorted_filter {A} (R : relation A) (P : A → Prop) `{∀ x, Decision (P x)} l :
  StronglySorted R l → StronglySorted R (filter P l).
Proof.
  induction 1 as [|a l Hl IH Ha]; [constructor|]. rewrite filter_cons.
  case_decide; [|done]. constructor; [done|]. rewrite Forall_forall in *.
  intros x [_ Hx]%list_elem_of_filter. auto.
Qed.

Lemma elem_of_recs_where m P `{∀ k, Decision (P k)} k x :
  (k, x) ∈ recs_where m P ↔ P k ∧ m !! k = Some x.
Proof. unfold recs_where. by rewrite list_elem_of_filter, elem_of_sorted_recs. Qed.

Lemma recs_where_sorted m P `{∀ k, Decision (P k)} : StronglySorted rec_lt (recs_where m P).
Proof. apply StronglySorted_filter, sorted_recs_sorted. Qed.

Lemma recs_where_ext m P Q `{∀ k, Decision (P k), ∀ k, Decision (Q k)} :
  (∀ k x, m !! k = Some x → P k ↔ Q k) → recs_where m P = recs_where m Q.
Proof.
  intros HPQ. apply strict_sorted_unique; [apply recs_where_sorted..|].
  intros [k x]. rewrite !elem_of_recs_where. naive_solver.
Qed.

Lemma recs_where_nil m P `{∀ k, Decision (P k)} : recs_where m P = [] ↔ no_record m P.
Proof.
  split.
  - intros E k x Hk HP. apply (not_elem_of_nil (k, x)). rewrite <- E.
    by apply elem_of_recs_where.
  - intros Hn. destruct (recs_where m P) as [|[k x] l] eqn:E; [done|]. exfalso.
    assert ((k, x) ∈ recs_where m P) as [??]%elem_of_recs_where by (rewrite E; left).
    by eapply Hn.
Qed.

(** Moving to the first record of an upward-closed range leaves the records after it. *)
Lemma recs_where_first m P `{∀ k, Decision (P k)} k x :
  (∀ a b, P a → bytes_le a b → P b) → first_record m P k x →
  recs_where m P = (k, x) :: recs_where m (bytes_lt k).
Proof.
  intros Hup (Hk & HP & Hmin). apply strict_sorted_unique; [apply recs_where_sorted|..].
  - constructor; [apply recs_where_sorted|]. rewrite Forall_forall.
    intros [k' x'] [Hlt _]%elem_of_recs_where. done.
  - intros [k' x']. rewrite elem_of_cons, !elem_of_recs_where. split.
    + intros [HP' Hk']. destruct (proj1 (bytes_le_lteq _ _) (Hmin k' x' Hk' HP')) as [|<-]; [auto|].
      left. congruence.
    + intros [[= -> ->]|[Hlt Hk']]; [done|]. split; [|done].
      eapply Hup; [exact HP|]. by apply bytes_lt_le.
Qed.

Lemma recs_where_last m P `{∀ k, Decision (P k)} k x :
  (∀ a b, P b → bytes_le a b → P a) → last_record m P k x →
  recs_where m P = recs_where m (fun k' => bytes_lt k' k) ++ [(k, x)].
Proof.
  intros Hdown (Hk & HP & Hmax). apply strict_sorted_unique; [apply recs_where_sorted|..].
  - apply (StronglySorted_app_2 rec_lt); [|apply recs_where_sorted|repeat constructor].
    intros [k1 x1] r [Hlt _]%elem_of_recs_where ->%list_elem_of_singleton. done.
  - intros [k' x']. rewrite elem_of_app, list_elem_of_singleton, !elem_of_recs_where. split.
    + intros [HP' Hk']. destruct (proj1 (bytes_le_lteq _ _) (Hmax k' x' Hk' HP')) as [| ->]; [auto|].
      right. congruence.
    + intros [[Hlt Hk']|[= -> ->]]; [|done]. split; [|done].
      eapply Hdown; [exact HP|]. by apply bytes_lt_le.
Qed.

#[export] Instance cursor_range_dec op pos key k : Decision (cursor_range op pos key k).
Proof. destruct op, pos; simpl; apply _. Defined.

#[export] Instance back_range_dec op pos k : Decision (back_range op pos k).
Proof. destruct op, pos; simpl; apply _. Defined.

Lemma cursor_range_up op pos key a b :
  cursor_range op pos key a → bytes_le a b → cursor_range op pos key b.
Proof.
  destruct op; simpl; [done| |intros; by etransitivity].
  destruct pos as [p|]; [|done]. intros Ha [Hab| ->]%bytes_le_lteq; [|done].
  by eapply bytes_lt_trans.
Qed.

Lemma back_range_down op pos a b : back_range op pos b → bytes_le a b → back_range op pos a.
Proof.
  destruct op, pos as [p|]; try done. simpl. intros H [H'| ->]%bytes_le_lteq; [|done]. by eapply bytes_lt_trans.
Qed.

(** ** Code over a transaction *)

Definition M {X : Mdbx} (A : Type) : Type := txn → result A * txn.

Section Code.
Context {X : Mdbx}.

#[export] Instance M_ret : MRet M := fun A a s => (Ok a, s).
#[export] Instance M_bind : MBind M := fun A B f m s =>
  match m s with
  | (Ok a, s') => f a s'
  | (Throw e, s') => (Throw e, s')
  end.

Definition lift {A} (r : result A) : M A := fun s => (r, s).
Definition fail {A} (e : exn) : M A := lift (Throw e).

Definition check_mdbx (rc : Z) (context : string) : M unit :=
  if negb (rc =? MDBX_SUCCESS) then fail (MdbxException context rc) else mret tt.

(** A transaction of the model exists, so the null test of the code has no
    counterpart. *)
Definition checked_txn_env (expected_env : Z) (context : string) : M unit := fun s =>
  if negb (mdbx_txn_env s =? expected_env) then
    (Throw (invalid_argument
       (context +:+ ": transaction belongs to a different MDBX environment")), s)
  else (Ok tt, s).

Definition dbi_open (name : bytes) (flags : Z) : M (Z * Z) := fun s =>
  let '(rc, dbi, s') := mdbx_dbi_open s name flags in (Ok (rc, dbi), s').
Definition dbi_open_main : M (Z * Z) := fun s =>
  let '(rc, dbi, s') := mdbx_dbi_open_main s in (Ok (rc, dbi), s').
Definition get (dbi : Z) (k : bytes) : M (Z * bytes) := fun s => (Ok (mdbx_get s dbi k), s).
Definition put (dbi : Z) (k x : bytes) (mode : put_mode) : M Z := fun s =>
  let '(rc, s') := mdbx_put s dbi k x mode in (Ok rc, s').
Definition del (dbi : Z) (k : bytes) : M Z := fun s =>
  let '(rc, s') := mdbx_del s dbi k in (Ok rc, s').
Definition drop_table (dbi : Z) : M Z := fun s =>
  let '(rc, s') := mdbx_drop s dbi in (Ok rc, s').
Definition get_flags (dbi : Z) : M (Z * Z) := fun s => (Ok (mdbx_dbi_flags s dbi), s).
Definition get_stat (dbi : Z) : M (Z * Z) := fun s => (Ok (mdbx_dbi_stat s dbi), s).
Definition cmp (dbi : Z) (a b : bytes) : M Z := fun s => (Ok (mdbx_cmp s dbi a b), s).
Definition cursor_open (dbi : Z) : M (Z * cursor) := fun s => (Ok (mdbx_cursor_open s dbi), s).
Definition cursor_get (c : cursor) (op : cursor_op) (key : bytes)
    : M (Z * bytes * bytes * cursor) :=
  fun s => (Ok (mdbx_cursor_get s c op key), s).
Definition cursor_get_back (c : cursor) (op : back_op) : M (Z * bytes * bytes * cursor) := fun s =>
  (Ok (mdbx_cursor_get_back s c op), s).
Definition cursor_del (c : cursor) : M (Z * cursor) := fun s =>
  let '(rc, s', c') := mdbx_cursor_del s c in (Ok (rc, c'), s').

(** *** Idioms the stores and the engine repeat around single calls *)

(** [if (rc == MDBX_NOTFOUND) return false; check_mdbx(rc, ctx);] after [mdbx_get]. *)
Definition lookup_record (dbi : Z) (k : bytes) (context : string) : M (option bytes) :=
  '(rc, x) ← get dbi k;
  if rc =? MDBX_NOTFOUND then mret None
  else _ ← check_mdbx rc context; mret (Some x).

Definition put_record (dbi : Z) (k x : bytes) (mode : put_mode) (context : string) : M unit :=
  rc ← put dbi k x mode; check_mdbx rc context.

(** [if (rc == MDBX_SUCCESS) return true; if (rc == MDBX_NOTFOUND) return false;
    check_mdbx(rc, ctx);] after [mdbx_del]. *)
Definition erase_record (dbi : Z) (k : bytes) (context : string) : M bool :=
  rc ← del dbi k;
  if rc =? MDBX_SUCCESS then mret true
  else if rc =? MDBX_NOTFOUND then mret false
  else _ ← check_mdbx rc context; mret false.

(** Open with [MDBX_CREATE], falling back to a plain open in a read-only transaction. *)
Definition open_create (name : bytes) (context : string) : M Z :=
  '(rc, dbi) ← dbi_open name MDBX_CREATE;
  '(rc, dbi) ← (if rc =? MDBX_EACCESS then dbi_open name 0 else mret (rc, dbi));
  _ ← check_mdbx rc context;
  mret dbi.

Definition open_create_only (name : bytes) (context : string) : M Z :=
  '(rc, dbi) ← dbi_open name MDBX_CREATE;
  _ ← check_mdbx rc context;
  mret dbi.

(** Plain open; [None] when the table does not exist. *)
Definition open_plain (name : bytes) (context : string) : M (option Z) :=
  '(rc, dbi) ← dbi_open name 0;
  if rc =? MDBX_NOTFOUND then mret None
  else _ ← check_mdbx rc context; mret (Some dbi).

(** The main table, and whether it lists a named one. *)
Definition open_main (context : string) : M Z :=
  '(rc, dbi) ← dbi_open_main;
  _ ← check_mdbx rc context;
  mret dbi.

Definition listed (main_dbi : Z) (name : bytes) (context : string) : M bool :=
  found ← lookup_record main_dbi name context; mret (bool_decide (is_Some found)).

(** *** Cursor walks

    [rc = cursor_get(op); while (rc == MDBX_SUCCESS) { body; rc = cursor_get(NEXT); }
    if (rc != MDBX_NOTFOUND) check_mdbx(rc, ctx);] with a body that only updates local
    variables; the body returns [false] to leave the function or the loop early. *)
Section Scan.
Context {St : Type} (body : St → bytes → bytes → result (St * bool)) (context : string).

Fixpoint scan_loop (fuel : nat) (c : cursor) (op : cursor_op) (key : bytes) (st : St) : M St :=
  match fuel with
  | O => fail out_of_fuel
  | S n =>
      '(rc, k, x, c') ← cursor_get c op key;
      if rc =? MDBX_SUCCESS then
        '(st', more) ← lift (body st k x);
        if more : bool then scan_loop n c' MDBX_NEXT [] st' else mret st'
      else if rc =? MDBX_NOTFOUND then mret st
      else _ ← check_mdbx rc context; mret st
  end.

(** What the walk computes, over the records in its range. *)
Fixpoint fold_recs (st : St) (l : list (bytes * bytes)) : result St :=
  match l with
  | [] => Ok st
  | (k, x) :: l' =>
      '(st', more) ← body st k x;
      if more : bool then fold_recs st' l' else Ok st'
  end.
End Scan.

Definition scan {St} (fuel : nat) (dbi : Z) (op : cursor_op) (key : bytes)
    (body : St → bytes → bytes → result (St * bool)) (open_context context : string) (st : St)
    : M St :=
  '(rc, c) ← cursor_open dbi;
  _ ← check_mdbx rc open_context;
  scan_loop body context fuel c op key st.
End Code.

(** ** Tables of a view *)

Definition table (v : db_view) (name : bytes) : dbi_view :=
  default (mk_dbi 0 ∅) (v_dbs v !! name).
Definition recs (v : db_view) (name : bytes) : gmap bytes bytes := dv_recs (table v name).

(** [dbi] is an open handle of the table [name], which has flags [fl]. *)
Definition bound (v : db_view) (dbi : Z) (name : bytes) (fl : Z) : Prop :=
  v_handles v !! dbi = Some name ∧ ∃ d, v_dbs v !! name = Some d ∧ dv_flags d = fl.

(** [v'] has at least the tables and handles of [v]; a table that only [v'] has is empty. *)
Record v_ext (v v' : db_view) : Prop := {
  ext_env : v_env v' = v_env v;
  ext_rw : v_rw v' = v_rw v;
  ext_handles : v_handles v ⊆ v_handles v';
  ext_dbs : v_dbs v ⊆ v_dbs v';
  ext_table name : table v' name = table v name;
}.

#[export] Instance v_ext_preorder : PreOrder v_ext.
Proof.
  split; [by intros v; split|]. intros a b c [] []. split; [congruence..|by etrans|by etrans|].
  intros n. congruence.
Qed.

Lemma table_update v n f name :
  table (v_update v n f) name =
  if decide (name = n ∧ is_Some (v_dbs v !! n)) then mk_dbi (dv_flags (table v n)) (f (recs v n))
  else table v name.
Proof.
  unfold recs, table. simpl. case_decide as E.
  - destruct E as [-> [d Hd]]. by rewrite lookup_alter_eq, Hd.
  - destruct (decide (name = n)) as [->|]; [|by rewrite lookup_alter_ne].
    rewrite lookup_alter_eq. destruct (v_dbs v !! n); naive_solver.
Qed.

Lemma bound_table v dbi name fl :
  bound v dbi name fl → table_at v dbi name (mk_dbi fl (recs v name)).
Proof.
  intros (Hh & d & Hd & <-). split; [done|]. unfold recs, table. rewrite Hd. by destruct d.
Qed.

Lemma bound_ext v v' dbi name fl : v_ext v v' → bound v dbi name fl → bound v' dbi name fl.
Proof.
  intros [_ _ Hh Hd _] (Hb & d & Hn & Hf). split; [by eapply lookup_weaken|].
  exists d. split; [by eapply lookup_weaken|done].
Qed.

Lemma bound_update v dbi name fl n f : bound v dbi name fl → bound (v_update v n f) dbi name fl.
Proof.
  intros (Hh & d & Hd & Hf). split; [done|]. destruct (decide (n = name)) as [->|Hne].
  - eexists. simpl. rewrite lookup_alter_eq, Hd. done.
  - exists d. simpl. by rewrite lookup_alter_ne.
Qed.

Lemma recs_update v n f name :
  is_Some (v_dbs v !! n) →
  recs (v_update v n f) name = if decide (name = n) then f (recs v name) else recs v name.
Proof.
  intros [d Hd]. unfold recs, table. simpl. case_decide as E.
  - subst. by rewrite lookup_alter_eq, Hd.
  - by rewrite lookup_alter_ne by done.
Qed.

Lemma bound_is_Some v dbi name fl : bound v dbi name fl → is_Some (v_dbs v !! name).
Proof. intros (_ & d & Hd & _). eauto. Qed.

Lemma opened_ext v name dbi :
  (∀ n, v_handles v !! dbi = Some n → n = name) → v_ext v (v_opened v name (table v name) dbi).
Proof.
  intros Hfresh. split; try done; simpl.
  - apply map_subseteq_spec. intros i n Hi. destruct (decide (i = dbi)) as [->|].
    + rewrite lookup_insert_eq. f_equal. symmetry. auto.
    + by rewrite lookup_insert_ne.
  - apply map_subseteq_spec. intros n d Hn. destruct (decide (n = name)) as [->|].
    + rewrite lookup_insert_eq. unfold table. by rewrite Hn.
    + by rewrite lookup_insert_ne.
  - intros n. unfold table. simpl. destruct (decide (n = name)) as [->|].
    + by rewrite lookup_insert_eq.
    + by rewrite lookup_insert_ne.
Qed.

Lemma ext_recs v v' name : v_ext v v' → recs v' name = recs v name.
Proof. intros He. unfold recs. by rewrite (ext_table v v'). Qed.

(** Only handles are new. *)
Definition v_reopen (v v' : db_view) : Prop := v_ext v v' ∧ v_dbs v' = v_dbs v.

#[export] Instance v_reopen_preorder : PreOrder v_reopen.
Proof.
  split; [done|]. intros a b c [H1 E1] [H2 E2]. split; [by etrans|congruence].
Qed.

Lemma opened_reopen v name dbi :
  (∀ n, v_handles v !! dbi = Some n → n = name) → is_Some (v_dbs v !! name) →
  v_reopen v (v_opened v name (table v name) dbi).
Proof.
  intros Hf [d Hd]. split; [by apply opened_ext|]. simpl. apply insert_id. unfold table. by rewrite Hd.
Qed.

Lemma opened_bound v name d dbi : bound (v_opened v name d dbi) dbi name (dv_flags d).
Proof. split; [apply lookup_insert_eq|]. exists d. split; [apply lookup_insert_eq|done]. Qed.

(** ** Weakest preconditions *)

Section Wp.
Context {X : Mdbx} {L : MdbxLaws X}.

Definition engine_failure {A} (r : result A) : Prop :=
  ∃ context rc, r = Throw (MdbxException context rc) ∧ engine_error rc.

Definition wp {A} (m : M A) (Q : result A → db_view → Prop) (v : db_view) : Prop :=
  ∀ s, view s = v → let '(r, s') := m s in Q r (view s') ∨ engine_failure r.

Lemma wp_both {A} (m : M A) (P Q : result A → db_view → Prop) v :
  wp m P v → wp m Q v → wp m (fun r v' => P r v' ∧ Q r v') v.
Proof. intros HP HQ s Hs. specialize (HP s Hs). specialize (HQ s Hs). destruct (m s). tauto. Qed.

Lemma wp_mono {A} (m : M A) (P Q : result A → db_view → Prop) v :
  wp m P v → (∀ r v', P r v' → Q r v') → wp m Q v.
Proof. intros H HPQ s Hs. specialize (H s Hs). destruct (m s). naive_solver. Qed.

Lemma wp_ret {A} (a : A) Q v : Q (Ok a) v → wp (mret a) Q v.
Proof. intros H s <-. by left. Qed.

Lemma wp_lift {A} (r : result A) Q v : Q r v → wp (lift r) Q v.
Proof. intros H s <-. by left. Qed.

Lemma wp_fail {A} e (Q : result A → db_view → Prop) v : Q (Throw e) v → wp (fail e) Q v.
Proof. apply wp_lift. Qed.

Lemma wp_bind {A B} (m : M A) (f : A → M B) Q v :
  wp m (fun r v' => match r with Ok a => wp (f a) Q v' | Throw e => Q (Throw e) v' end) v →
  wp (m ≫= f) Q v.
Proof.
  intros H s Hs. specialize (H s Hs). unfold mbind, M_bind.
  destruct (m s) as [[a|e] s']; simpl in *.
  - destruct H as [H|(c & rc & [=] & _)]. by apply H.
  - destruct H as [H|(c & rc & [= ->] & He)]; [by left|]. right. by exists c, rc.
Qed.

(** The usual case: the first step cannot throw. *)
Lemma wp_bind_ok {A B} (m : M A) (f : A → M B) (P : A → db_view → Prop) Q v :
  wp m (fun r v' => ∃ a, r = Ok a ∧ P a v') v → (∀ a v', P a v' → wp (f a) Q v') →
  wp (m ≫= f) Q v.
Proof.
  intros Hm Hf. apply wp_bind. eapply wp_mono; [exact Hm|].
  intros r v' (a & -> & Ha). auto.
Qed.

Lemma wp_lift_bind {A B} (r : result A) (f : A → M B) Q v :
  match r with Ok a => wp (f a) Q v | Throw e => Q (Throw e) v end →
  wp (lift r ≫= f) Q v.
Proof. intros H. apply wp_bind, wp_lift. done. Qed.

Lemma wp_ret_bind {A B} (a : A) (f : A → M B) Q v :
  wp (f a) Q v → wp (mret a ≫= f) Q v.
Proof. intros H. apply wp_bind, wp_ret. done. Qed.

Lemma wp_assoc {A B C} (m : M A) (f : A → M B) (g : B → M C) Q v :
  wp (m ≫= (fun a => f a ≫= g)) Q v → wp ((m ≫= f) ≫= g) Q v.
Proof.
  intros H s Hs. specialize (H s Hs). unfold mbind, M_bind in *.
  by destruct (m s) as [[a|e] s'].
Qed.

Lemma wp_checked_txn env context Q v :
  env = v_env v → Q (Ok tt) v → wp (checked_txn_env env context) Q v.
Proof.
  intros -> HQ s <-. unfold checked_txn_env. rewrite law_txn_env, Z.eqb_refl. by left.
Qed.

Lemma error_neq rc c :
  engine_error rc →
  c ∈ [MDBX_SUCCESS; MDBX_KEYEXIST; MDBX_NOTFOUND; MDBX_INCOMPATIBLE; MDBX_EINVAL; MDBX_EACCESS] →
  (rc =? c) = false.
Proof. intros He%law_error Hc. apply Z.eqb_neq. by intros ->. Qed.

(** A return code that is an engine error ends in an engine failure. *)
Lemma wp_check_error {B} rc context (f : unit → M B) Q v :
  engine_error rc → wp (check_mdbx rc context ≫= f) Q v.
Proof.
  intros He s Hs. unfold check_mdbx. rewrite (error_neq rc MDBX_SUCCESS) by (done || set_solver).
  simpl. right. by exists context, rc.
Qed.

Lemma wp_check_error' rc context Q v : engine_error rc → wp (check_mdbx rc context) Q v.
Proof.
  intros He s Hs. unfold check_mdbx. rewrite (error_neq rc MDBX_SUCCESS) by (done || set_solver).
  simpl. right. by exists context, rc.
Qed.
End Wp.

(** Resolves the tests of the code on an [engine_error] code. *)
Ltac engine_error_case :=
  repeat match goal with
  | He : engine_error ?rc |- context [?rc =? ?c] =>
      rewrite (error_neq rc c He) by (vm_compute; set_solver)
  end;
  first [by apply wp_check_error | by apply wp_check_error'].

Section Rules.
Context {X : Mdbx} {L : MdbxLaws X}.

Lemma wp_lookup dbi k context name fl Q v :
  bound v dbi name fl → has_flag fl MDBX_DUPSORT = false →
  Q (Ok (recs v name !! k)) v → wp (lookup_record dbi k context) Q v.
Proof.
  intros Ht%bound_table Hp HQ. apply wp_bind. intros s Hs. simpl. left.
  destruct (mdbx_get s dbi k) as [rc x] eqn:E. rewrite Hs.
  destruct (law_get _ _ _ _ _ _ _ E ltac:(by rewrite Hs) Hp) as [He|[[-> Hx]|[-> Hx]]];
    simpl in *.
  - engine_error_case.
  - apply wp_ret_bind, wp_ret. by rewrite <- Hx.
  - apply wp_ret. by rewrite <- Hx.
Qed.

Lemma wp_put dbi k x context name fl Q v :
  bound v dbi name fl → has_flag fl MDBX_DUPSORT = false → v_rw v = true →
  Q (Ok tt) (v_update v name <[k := x]>) →
  wp (put_record dbi k x MDBX_UPSERT context) Q v.
Proof.
  intros Ht%bound_table Hp Hrw HQ. apply wp_bind. intros s Hs. unfold put.
  destruct (mdbx_put s dbi k x MDBX_UPSERT) as [rc s'] eqn:E. left. subst v.
  destruct (law_put _ _ _ _ _ _ _ _ _ E Ht Hp Hrw) as [He|[[[=] _]|(_ & -> & ->)]].
  - engine_error_case.
  - by apply wp_ret.
Qed.

(** Insertion that must not overwrite. *)
Lemma wp_put_new dbi k x context name fl Q v :
  bound v dbi name fl → has_flag fl MDBX_DUPSORT = false → v_rw v = true →
  (recs v name !! k = None → Q (Ok tt) (v_update v name <[k := x]>)) →
  (is_Some (recs v name !! k) → Q (Throw (MdbxException context MDBX_KEYEXIST)) v) →
  wp (put_record dbi k x MDBX_NOOVERWRITE context) Q v.
Proof.
  intros Ht%bound_table Hp Hrw HQ HQ'. apply wp_bind. intros s Hs. unfold put.
  destruct (mdbx_put s dbi k x MDBX_NOOVERWRITE) as [rc s'] eqn:E. left. subst v.
  destruct (law_put _ _ _ _ _ _ _ _ _ E Ht Hp Hrw)
    as [He|[(_ & Hk & -> & ->)|([[=]|Hk] & -> & ->)]].
  - engine_error_case.
  - apply wp_fail. by apply HQ'.
  - apply wp_ret. by apply HQ.
Qed.

Lemma wp_erase dbi k context name fl Q v :
  bound v dbi name fl → has_flag fl MDBX_DUPSORT = false → v_rw v = true →
  (recs v name !! k = None → Q (Ok false) v) →
  (is_Some (recs v name !! k) → Q (Ok true) (v_update v name (delete k))) →
  wp (erase_record dbi k context) Q v.
Proof.
  intros Ht%bound_table Hp Hrw HQ HQ'. apply wp_bind. intros s Hs. unfold del.
  destruct (mdbx_del s dbi k) as [rc s'] eqn:E. left. subst v.
  destruct (law_del _ _ _ _ _ _ _ E Ht Hp Hrw) as [He|[(-> & Hk & ->)|(-> & Hk & ->)]].
  - engine_error_case.
  - apply wp_ret. by apply HQ.
  - apply wp_ret. by apply HQ'.
Qed.

(** *** Opening *)

(** A table with the default flags, or none yet. *)
Definition sys_table (v : db_view) (name : bytes) : Prop := dv_flags (table v name) = 0.

Definition opens (v : db_view) (name : bytes) (dbi : Z) (v' : db_view) : Prop :=
  dbi ≠ 0 ∧ v_ext v v' ∧ bound v' dbi name 0 ∧
  v' = v_opened v name (table v name) dbi ∧ (is_Some (v_dbs v !! name) → v_reopen v v').

Lemma opened_opens v name dbi :
  sys_table v name → dbi ≠ 0 → (∀ n, v_handles v !! dbi = Some n → n = name) →
  opens v name dbi (v_opened v name (table v name) dbi).
Proof.
  intros Hs Hd Hf. split_and!; [done|by apply opened_ext| |done|by apply opened_reopen].
  rewrite <- Hs. apply opened_bound.
Qed.

(** A plain open of an existing table succeeds. *)
Lemma open_spec_plain v name rc dbi v' :
  sys_table v name → is_Some (v_dbs v !! name) → open_spec v name 0 rc dbi v' →
  rc = MDBX_SUCCESS ∧ opens v name dbi v'.
Proof.
  intros Hs [d Hd] Ho. pose proof (opened_opens v name dbi Hs) as Hop.
  unfold open_spec, table in *. rewrite Hd in *. simpl in *.
  destruct Ho as [(-> & Hz & Hf & ->)|[[? _]|[[? _]|[? _]]]]; try done. auto.
Qed.

(** An open with [MDBX_CREATE] of a system table. *)
Lemma open_spec_create v name rc dbi v' :
  sys_table v name → open_spec v name MDBX_CREATE rc dbi v' →
  rc = MDBX_SUCCESS ∧ opens v name dbi v' ∨ v_rw v = false ∧ rc = MDBX_EACCESS ∧ v' = v.
Proof.
  intros Hs Ho. pose proof (opened_opens v name dbi Hs) as Hop.
  unfold open_spec, table, sys_table, table in *.
  destruct (v_dbs v !! name) as [d|] eqn:E; simpl in *.
  - assert (flags_match MDBX_CREATE d = true) as Hm by (unfold flags_match; by rewrite Hs).
    rewrite Hm in Ho.
    destruct Ho as [(-> & Hz & Hf & ->)|[[? _]|[[? _]|(_ & ? & -> & ->)]]]; try done; auto.
  - destruct (v_rw v); [|naive_solver].
    destruct Ho as [(-> & Hz & Hf & ->)|[? _]]; [|done]. auto.
Qed.

Lemma wp_open_plain name context Q v :
  sys_table v name →
  (v_dbs v !! name = None → Q (Ok None) v) →
  (is_Some (v_dbs v !! name) → ∀ dbi v', opens v name dbi v' → Q (Ok (Some dbi)) v') →
  wp (open_plain name context) Q v.
Proof.
  intros Hs HN HS. apply wp_bind. intros s Hv. unfold dbi_open.
  destruct (mdbx_dbi_open s name 0) as [[rc dbi] s'] eqn:E. left. subst v.
  destruct (law_open _ _ _ _ _ _ E) as [He|Ho]; [engine_error_case|].
  destruct (v_dbs (view s) !! name) as [d|] eqn:Ed.
  - apply open_spec_plain in Ho as [-> Ho]; [|by eauto..]. apply wp_ret_bind, wp_ret. eauto.
  - unfold open_spec in Ho. rewrite Ed in Ho. destruct Ho as [-> ->]. apply wp_ret. auto.
Qed.

Lemma wp_open_create name context Q v :
  sys_table v name →
  (∀ dbi v', opens v name dbi v' → Q (Ok dbi) v') →
  (v_rw v = false → v_dbs v !! name = None →
     Q (Throw (MdbxException context MDBX_NOTFOUND)) v) →
  wp (open_create name context) Q v.
Proof.
  intros Hs HQ HN. apply wp_bind. intros s Hv. unfold dbi_open at 1.
  destruct (mdbx_dbi_open s name MDBX_CREATE) as [[rc dbi] s'] eqn:E. left. subst v.
  destruct (law_open _ _ _ _ _ _ E) as [He|Ho].
  { rewrite (error_neq rc MDBX_EACCESS He) by (vm_compute; set_solver).
    apply wp_ret_bind. engine_error_case. }
  destruct (open_spec_create _ _ _ _ _ Hs Ho) as [[-> Ho']|(Hrw & -> & Hv')].
  { apply wp_ret_bind, wp_ret_bind, wp_ret. by apply HQ. }
  rewrite Hv', Z.eqb_refl. apply wp_bind. intros s2 Hs2. unfold dbi_open.
  destruct (mdbx_dbi_open s2 name 0) as [[rc2 dbi2] s3] eqn:E2. left. rewrite <- Hs2 in *.
  destruct (law_open _ _ _ _ _ _ E2) as [He|Ho2]; [engine_error_case|].
  destruct (v_dbs (view s2) !! name) as [d|] eqn:Ed.
  - apply open_spec_plain in Ho2 as [-> Ho2]; [|by eauto..]. apply wp_ret_bind, wp_ret. eauto.
  - unfold open_spec in Ho2. rewrite Ed in Ho2. destruct Ho2 as [-> ->].
    apply wp_bind, wp_fail. auto.
Qed.

Lemma wp_open_create_only name context Q v :
  sys_table v name → v_rw v = true →
  (∀ dbi v', opens v name dbi v' → Q (Ok dbi) v') →
  wp (open_create_only name context) Q v.
Proof.
  intros Hs Hrw HQ. apply wp_bind. intros s Hv. unfold dbi_open.
  destruct (mdbx_dbi_open s name MDBX_CREATE) as [[rc dbi] s'] eqn:E. left. subst v.
  destruct (law_open _ _ _ _ _ _ E) as [He|Ho]; [engine_error_case|].
  destruct (open_spec_create _ _ _ _ _ Hs Ho) as [[-> Ho']|[? _]]; [|congruence].
  apply wp_ret_bind, wp_ret. eauto.
Qed.

(** *** The main table *)

Definition main_at (v : db_view) (dbi : Z) : Prop := main_dbi dbi ∧ v_handles v !! dbi = None.

Lemma wp_open_main context Q v :
  (∀ dbi, main_at v dbi → Q (Ok dbi) v) → wp (open_main context) Q v.
Proof.
  intros HQ. apply wp_bind. intros s Hv. unfold dbi_open_main.
  destruct (mdbx_dbi_open_main s) as [[rc dbi] s'] eqn:E. left. subst v.
  destruct (law_open_main _ _ _ _ E) as [He|(-> & Hm & Hn & ->)]; [engine_error_case|].
  apply wp_ret_bind, wp_ret, HQ. by split.
Qed.

Lemma wp_listed dbi name context Q v :
  main_at v dbi → Q (Ok (bool_decide (is_Some (v_dbs v !! name)))) v →
  wp (listed dbi name context) Q v.
Proof.
  intros [Hm Hn] HQ. apply wp_bind, wp_bind. intros s Hs. simpl. left. subst v.
  destruct (mdbx_get s dbi name) as [rc x] eqn:E.
  destruct (law_get_main _ _ _ _ _ E Hm Hn) as [He|[[-> Hx]|[-> Hx]]].
  - engine_error_case.
  - apply wp_ret_bind, wp_ret, wp_ret. by rewrite bool_decide_true in * by eauto.
  - apply wp_ret, wp_ret. rewrite Hx in HQ. done.
Qed.

(** *** Walking *)

Lemma wp_scan_loop {St} (body : St → bytes → bytes → result (St * bool)) context name c op key
    fuel st Q v :
  bound v (cursor_dbi c) name 0 →
  (length (recs_where (recs v name) (cursor_range op (cursor_key c) key)) < fuel)%nat →
  Q (fold_recs body st (recs_where (recs v name) (cursor_range op (cursor_key c) key))) v →
  wp (scan_loop body context fuel c op key st) Q v.
Proof.
  intros Hb. revert c op key st Hb. induction fuel as [|fuel IH]; intros c op key st Hb Hf HQ; [lia|].
  apply wp_bind. intros s Hs. left. subst v.
  destruct (mdbx_cursor_get s c op key) as [[[rc k] x] c'] eqn:E.
  destruct (law_cursor_get _ _ _ _ _ _ _ _ _ _ E (bound_table _ _ _ _ Hb) eq_refl)
    as [He|(Hc & [(-> & Hfst & Hk)|(-> & Hno)])]; cbn [dv_recs] in *.
  - engine_error_case.
  - erewrite recs_where_first in Hf, HQ by eauto using cursor_range_up. simpl in *.
    apply wp_lift_bind. destruct (body st k x) as [[st' []]|e]; simpl in *.
    + pose proof (recs_where_ext (recs (view s) name) (cursor_range MDBX_NEXT (Some k) [])
        (bytes_lt k) (fun _ _ _ => iff_refl _)) as Hn.
      apply IH; rewrite ?Hk, ?Hn, ?Hc; [done|lia|done].
    + by apply wp_ret.
    + done.
  - apply (recs_where_nil _ (cursor_range op (cursor_key c) key)) in Hno. rewrite Hno in HQ.
    by apply wp_ret.
Qed.

Lemma recs_where_length m P `{∀ k, Decision (P k)} : (length (recs_where m P) ≤ size m)%nat.
Proof.
  unfold recs_where. etransitivity; [apply length_filter|]. unfold sorted_recs.
  by rewrite merge_sort_Permutation, length_map_to_list.
Qed.

(** The keys a fresh cursor walks over. *)
Definition scan_range (op : cursor_op) (key k : bytes) : Prop := cursor_range op None key k.
#[export] Instance scan_range_dec op key k : Decision (scan_range op key k) := _.

Lemma wp_scan {St} (body : St → bytes → bytes → result (St * bool)) octx context name dbi op key
    fuel st Q v :
  bound v dbi name 0 → (size (recs v name) < fuel)%nat →
  Q (fold_recs body st (recs_where (recs v name) (scan_range op key))) v →
  wp (scan fuel dbi op key body octx context st) Q v.
Proof.
  intros Hb Hf HQ. apply wp_bind. intros s Hs. left. subst v.
  destruct (mdbx_cursor_open s dbi) as [rc c] eqn:E.
  destruct (law_cursor_open _ _ _ _ _ _ E (bound_table _ _ _ _ Hb)) as [He|(-> & <- & Hk)];
    [engine_error_case|].
  apply wp_ret_bind. eapply wp_scan_loop; [done|..]; rewrite Hk; [|done].
  eapply Nat.le_lt_trans; [apply recs_where_length|done].
Qed.
End Rules.

Lemma v_update_id v name : v_update v name (fun m => m) = v.
Proof.
  unfold v_update. destruct v as [e r dbs h]. simpl. f_equal. apply map_eq. intros n.
  rewrite lookup_alter. case_decide as E; [|done]. subst. by destruct (dbs !! n) as [[]|].
Qed.

(** [v'] differs from [v] at most in the records of the table [name]. *)
Record v_only (name : bytes) (v v' : db_view) : Prop := {
  only_env : v_env v' = v_env v;
  only_rw : v_rw v' = v_rw v;
  only_handles : v_handles v' = v_handles v;
  only_flags n : dv_flags (table v' n) = dv_flags (table v n);
  only_table n : n ≠ name → table v' n = table v n;
  only_dom n : is_Some (v_dbs v !! n) ↔ is_Some (v_dbs v' !! n);
}.

#[export] Instance v_only_preorder name : PreOrder (v_only name).
Proof.
  split; [by intros v; split|]. intros a b c [E1 R1 H1 F1 T1 D1] [E2 R2 H2 F2 T2 D2].
  split; [congruence| congruence| congruence| |  |intros n; by rewrite D1].
  - intros n. by rewrite F2, F1.
  - intros n Hn. by rewrite T2, T1.
Qed.

Lemma v_only_update v name f : v_only name v (v_update v name f).
Proof.
  split; try done; intros n; rewrite ?table_update; try (case_decide as E; naive_solver).
  simpl. rewrite lookup_alter. case_decide as E; [rewrite E|done]. by rewrite fmap_is_Some.
Qed.

Lemma only_dbs name v v' n : v_only name v v' → n ≠ name → v_dbs v' !! n = v_dbs v !! n.
Proof.
  intros Ho Hn. pose proof (only_table _ _ _ Ho n Hn) as E. pose proof (only_dom _ _ _ Ho n) as [H1 H2].
  unfold table in E. destruct (v_dbs v !! n) as [d|], (v_dbs v' !! n) as [d'|]; simpl in E; try done.
  - congruence.
  - destruct H1 as [? [=]]. eauto.
  - destruct H2 as [? [=]]. eauto.
Qed.

(** [v'] keeps the handles of [v] and every table outside [ns], and no table loses its
    flags. *)
Record v_frame (ns : list bytes) (v v' : db_view) : Prop := {
  fr_env : v_env v' = v_env v;
  fr_rw : v_rw v' = v_rw v;
  fr_handles : v_handles v ⊆ v_handles v';
  fr_flags n : dv_flags (table v' n) = dv_flags (table v n);
  fr_table n : n ∉ ns → table v' n = table v n;
  fr_dom n : is_Some (v_dbs v !! n) → is_Some (v_dbs v' !! n);
}.

#[export] Instance v_frame_preorder ns : PreOrder (v_frame ns).
Proof.
  split; [by intros v; split|]. intros a b c [E1 R1 H1 F1 T1 D1] [E2 R2 H2 F2 T2 D2].
  split; [congruence| congruence| by etrans| | |auto].
  - intros n. by rewrite F2, F1.
  - intros n Hn. by rewrite T2, T1.
Qed.

Lemma v_frame_mono ns ns' v v' : ns ⊆ ns' → v_frame ns v v' → v_frame ns' v v'.
Proof. intros Hns [E R H F T D]. split; auto. Qed.

Lemma v_ext_frame ns v v' : v_ext v v' → v_frame ns v v'.
Proof.
  intros [E R H D T]. split; try done.
  - intros n. by rewrite T.
  - intros n [d Hd]. exists d. by eapply lookup_weaken.
Qed.

Lemma v_only_frame ns name v v' : name ∈ ns → v_only name v v' → v_frame ns v v'.
Proof.
  intros Hn [E R H F T D]. split; try done.
  - by rewrite H.
  - intros n Hn'. apply T. by intros ->.
  - intros n. apply D.
Qed.

Lemma v_only_self name v v' : v_only name v v' → v_frame [name] v v'.
Proof. apply v_only_frame. by left. Qed.

Lemma recs_updated v n f : is_Some (v_dbs v !! n) → recs (v_update v n f) n = f (recs v n).
Proof. intros Hn. rewrite recs_update by done. by rewrite decide_True. Qed.

Lemma recs_other v n f name : name ≠ n → recs (v_update v n f) name = recs v name.
Proof. intros Hne. unfold recs. rewrite table_update, decide_False by naive_solver. done. Qed.

Lemma bound_frame ns v v' dbi name fl : v_frame ns v v' → bound v dbi name fl → bound v' dbi name fl.
Proof.
  intros [_ _ Hh Hf _ Hd] (Hb & d & Hn & Hfl). split; [by eapply lookup_weaken|].
  destruct (Hd name) as [d' Hd']; [eauto|]. exists d'. split; [done|].
  specialize (Hf name). unfold table in Hf. rewrite Hn, Hd' in Hf. simpl in Hf. congruence.
Qed.

Lemma sys_frame ns v v' name : v_frame ns v v' → sys_table v name → sys_table v' name.
Proof. intros Hf Hs. unfold sys_table. by rewrite (fr_flags _ _ _ Hf). Qed.

Lemma recs_frame ns v v' name : v_frame ns v v' → name ∉ ns → recs v' name = recs v name.
Proof. intros Hf Hn. unfold recs. by rewrite (fr_table _ _ _ Hf). Qed.

#[export] Hint Resolve v_only_update v_only_frame v_ext_frame bound_frame sys_frame : mdbxc.

Section CursorRules.
Context {X : Mdbx} {L : MdbxLaws X}.

Lemma wp_cursor_open {A} dbi name fl context (f : cursor → M A) Q v :
  bound v dbi name fl →
  (∀ c, cursor_dbi c = dbi → cursor_key c = None → wp (f c) Q v) →
  wp ('(rc, c) ← cursor_open dbi; _ ← check_mdbx rc context; f c) Q v.
Proof.
  intros Hb HQ. apply wp_bind. intros s Hs. left. subst v.
  destruct (mdbx_cursor_open s dbi) as [rc c] eqn:E.
  destruct (law_cursor_open _ _ _ _ _ _ E (bound_table _ _ _ _ Hb)) as [He|(-> & Hc & Hk)];
    [engine_error_case|]. apply wp_ret_bind. by apply HQ.
Qed.

Lemma wp_cursor_get {A} c op key name (f : Z * bytes * bytes * cursor → M A) Q v :
  bound v (cursor_dbi c) name 0 →
  (∀ rc k x c', engine_error rc → wp (f (rc, k, x, c')) Q v) →
  (∀ k x c', cursor_dbi c' = cursor_dbi c → cursor_key c' = Some k →
     first_record (recs v name) (cursor_range op (cursor_key c) key) k x →
     wp (f (MDBX_SUCCESS, k, x, c')) Q v) →
  (∀ k x c', cursor_dbi c' = cursor_dbi c →
     no_record (recs v name) (cursor_range op (cursor_key c) key) →
     wp (f (MDBX_NOTFOUND, k, x, c')) Q v) →
  wp (cursor_get c op key ≫= f) Q v.
Proof.
  intros Hb HE HS HN. apply wp_bind. intros s Hs. left. subst v.
  destruct (mdbx_cursor_get s c op key) as [[[rc k] x] c'] eqn:E.
  destruct (law_cursor_get _ _ _ _ _ _ _ _ _ _ E (bound_table _ _ _ _ Hb) eq_refl)
    as [He|(Hc & [(-> & Hf & Hk)|(-> & Hno)])]; auto.
Qed.

(** Opening a system table if it exists. *)
Lemma wp_open_existing {A} name (f : Z * Z → M A) Q v :
  sys_table v name →
  (∀ rc dbi v', engine_error rc → wp (f (rc, dbi)) Q v') →
  (∀ dbi, v_dbs v !! name = None → wp (f (MDBX_NOTFOUND, dbi)) Q v) →
  (∀ dbi v', dbi ≠ 0 → v_reopen v v' → bound v' dbi name 0 → wp (f (MDBX_SUCCESS, dbi)) Q v') →
  wp (dbi_open name 0 ≫= f) Q v.
Proof.
  intros Hs HE HN HS. apply wp_bind. intros s Hv. unfold dbi_open.
  destruct (mdbx_dbi_open s name 0) as [[rc dbi] s'] eqn:E. left. subst v.
  destruct (law_open _ _ _ _ _ _ E) as [He|Ho]; [auto|].
  destruct (v_dbs (view s) !! name) as [d|] eqn:Ed.
  - apply open_spec_plain in Ho as [-> (Hz & _ & Hb & _ & Hre)]; [|by eauto..]. apply HS; [done| |done]. by apply Hre; rewrite Ed.
  - unfold open_spec in Ho. rewrite Ed in Ho. destruct Ho as [-> ->]. auto.
Qed.
End CursorRules.
