(* ===== verification/DupSort.v ===== *)
(** * Tables with duplicate keys

    What the code uses of libmdbx for a table opened with [MDBX_DUPSORT]: a key has a sorted
    set of values, its bucket, and the table is the sequence of its pairs, by key and then by
    value.  The operations are those of [Mdbx] plus the ones of [MdbxDup]; the laws of
    [MdbxDupLaws] state them over the same views.

    A view has one record per pair.  The record of a pair is filed under its [item], an
    encoding of key and value whose byte order is the order of the pairs, so that the walks
    of a cursor are stated, as for other tables, by what comes first in a range. *)
From S2P Require Import Prelude Mdbx.
From S2P Require KeyCodec.
Open Scope Z_scope.

Abbreviation MDBX_INTEGERKEY := KeyCodec.MDBX_INTEGERKEY.

Inductive dup_op : Type := MDBX_SET_KEY | MDBX_NEXT_DUP | MDBX_LAST_DUP | MDBX_NEXT_NODUP.

#[export] Instance dup_op_eq_dec : EqDecision dup_op.
Proof. solve_decision. Defined.

Class MdbxDup (X : Mdbx) : Type := {
  (** [mdbx_put] with [MDBX_NODUPDATA]. *)
  mdbx_put_nodup : txn → Z → bytes → bytes → Z * txn;
  (** [mdbx_del] with a value. *)
  mdbx_del_pair : txn → Z → bytes → bytes → Z * txn;
  mdbx_cursor_get_dup : txn → cursor → dup_op → bytes → Z * bytes * bytes * cursor;
  mdbx_cursor_count : txn → cursor → Z * Z;
}.

(** ** Items *)

(** Keys of a table with [MDBX_INTEGERKEY] compare as numbers stored little-endian. *)
Definition dup_sort_key (flags : Z) (k : bytes) : bytes :=
  if has_flag flags MDBX_INTEGERKEY then reverse k else k.

Fixpoint escape (k : bytes) : bytes :=
  match k with [] => [] | b :: k => Byte.x01 :: b :: escape k end.

(** What the items of a key begin with. *)
Definition bucket_of (flags : Z) (k : bytes) : bytes := escape (dup_sort_key flags k) ++ [Byte.x00].

Definition item (flags : Z) (k x : bytes) : bytes := bucket_of flags k ++ x.

Definition in_bucket (flags : Z) (k b : bytes) : Prop := bucket_of flags k `prefix_of` b.
#[export] Instance in_bucket_dec flags k b : Decision (in_bucket flags k b) :=
  prefix_dec (bucket_of flags k) b.

(** The pair of an item. *)
Fixpoint split_item (b : bytes) : option (bytes * bytes) :=
  match b with
  | Byte.x00 :: x => Some ([], x)
  | Byte.x01 :: c :: b => '(k, x) ← split_item b; Some (c :: k, x)
  | _ => None
  end.
Definition item_pair (flags : Z) (b : bytes) : option (bytes * bytes) :=
  '(k, x) ← split_item b; Some (dup_sort_key flags k, x).

Lemma dup_sort_key_involutive flags k : dup_sort_key flags (dup_sort_key flags k) = k.
Proof. unfold dup_sort_key. destruct (has_flag _ _); [apply reverse_involutive|done]. Qed.

#[export] Instance dup_sort_key_inj flags : Inj (=) (=) (dup_sort_key flags).
Proof. intros a b E. by rewrite <- (dup_sort_key_involutive flags a), E, dup_sort_key_involutive. Qed.

Lemma split_escape k x : split_item (escape k ++ Byte.x00 :: x) = Some (k, x).
Proof. induction k as [|c k IH]; [done|]. cbn. by rewrite IH. Qed.

Lemma item_pair_item flags k x : item_pair flags (item flags k x) = Some (k, x).
Proof.
  unfold item_pair, item, bucket_of. rewrite <- (assoc_L (++)). cbn [app].
  rewrite split_escape. cbn. by rewrite dup_sort_key_involutive.
Qed.

#[export] Instance item_inj flags : Inj2 (=) (=) (=) (item flags).
Proof.
  intros k x k' x' E. apply (f_equal (item_pair flags)) in E. rewrite !item_pair_item in E. by injection E.
Qed.

Lemma in_bucket_item flags k k' x : in_bucket flags k (item flags k' x) ↔ k = k'.
Proof.
  split; [|intros ->; by exists x]. intros [y E]. symmetry in E. change (item flags k y = item flags k' x) in E.
  by apply (inj2 (item flags)) in E as [-> _].
Qed.

Lemma compare_prefix p x y : bytes_compare (p ++ x) (p ++ y) = bytes_compare x y.
Proof. induction p as [|b p IH]; [done|]. cbn. by rewrite Z.compare_refl. Qed.

Lemma item_compare_value flags k x y :
  bytes_compare (item flags k x) (item flags k y) = bytes_compare x y.
Proof. apply compare_prefix. Qed.

Lemma escape_compare a b x y :
  bytes_compare (escape a ++ Byte.x00 :: x) (escape b ++ Byte.x00 :: y) = lex_then (bytes_compare a b) (bytes_compare x y).
Proof.
  revert b. induction a as [|c a IH]; intros [|c' b]; [by cbn..|]. cbn. rewrite IH.
  by destruct (u8 c ?= u8 c').
Qed.

(** The items are in the order of the keys, and within a key in the order of the values. *)
Lemma item_compare flags k k' x y :
  bytes_compare (item flags k x) (item flags k' y) =
  lex_then (bytes_compare (dup_sort_key flags k) (dup_sort_key flags k')) (bytes_compare x y).
Proof. unfold item, bucket_of. rewrite <- !(assoc_L (++)). apply escape_compare. Qed.

(** ** Well-formed tables *)

(** [w] is the size of the keys where they are integers. *)
Definition dup_keys (flags : Z) (w : nat) : Prop :=
  flags = MDBX_DUPSORT ∨ flags = Z.lor MDBX_DUPSORT MDBX_INTEGERKEY ∧ (w = 4 ∨ w = 8)%nat.
Definition dup_fits (flags : Z) (w : nat) (k : bytes) : Prop :=
  flags = MDBX_DUPSORT ∨ length k = w.

Record dup_table (d : dbi_view) (w : nat) : Prop := {
  dt_keys : dup_keys (dv_flags d) w;
  dt_items : map_Forall (fun b x => ∃ k, b = item (dv_flags d) k x ∧ dup_fits (dv_flags d) w k) (dv_recs d);
}.

(** The pairs a cursor operation may move to from the item [pos], which is on the key [k0]. *)
Definition dup_range (op : dup_op) (flags : Z) (pos k0 key b : bytes) : Prop :=
  match op with
  | MDBX_SET_KEY => in_bucket flags key b
  | MDBX_NEXT_DUP => in_bucket flags k0 b ∧ bytes_lt pos b
  | MDBX_LAST_DUP => in_bucket flags k0 b
  | MDBX_NEXT_NODUP => ¬ in_bucket flags k0 b ∧ bytes_lt pos b
  end.
#[export] Instance dup_range_dec op flags pos k0 key b : Decision (dup_range op flags pos k0 key b).
Proof. destruct op; apply _. Defined.

(** ** The laws *)

Class MdbxDupLaws (X : Mdbx) (D : MdbxDup X) (L : MdbxLaws X) : Type := {
  (** The item a cursor is on. *)
  cursor_item : cursor → option bytes;
  dup_stat s dbi name d w rc n : mdbx_dbi_stat s dbi = (rc, n) → table_at (view s) dbi name d → dup_table d w →
    engine_error rc ∨ rc = MDBX_SUCCESS ∧ n = Z.of_nat (size (dv_recs d));
  dup_get s dbi name d w k rc x : mdbx_get s dbi k = (rc, x) → table_at (view s) dbi name d → dup_table d w →
    dup_fits (dv_flags d) w k →
    engine_error rc ∨
    rc = MDBX_SUCCESS ∧ first_record (dv_recs d) (in_bucket (dv_flags d) k) (item (dv_flags d) k x) x ∨
    rc = MDBX_NOTFOUND ∧ no_record (dv_recs d) (in_bucket (dv_flags d) k);
  dup_put s dbi name d w k x rc s' : mdbx_put s dbi k x MDBX_UPSERT = (rc, s') →
    table_at (view s) dbi name d → dup_table d w → v_rw (view s) = true → dup_fits (dv_flags d) w k →
    engine_error rc ∨ rc = MDBX_SUCCESS ∧ view s' = v_update (view s) name <[item (dv_flags d) k x := x]>;
  dup_put_nodup s dbi name d w k x rc s' : mdbx_put_nodup s dbi k x = (rc, s') →
    table_at (view s) dbi name d → dup_table d w → v_rw (view s) = true → dup_fits (dv_flags d) w k →
    engine_error rc ∨
    rc = MDBX_KEYEXIST ∧ is_Some (dv_recs d !! item (dv_flags d) k x) ∧ view s' = view s ∨
    rc = MDBX_SUCCESS ∧ dv_recs d !! item (dv_flags d) k x = None ∧
      view s' = v_update (view s) name <[item (dv_flags d) k x := x]>;
  (** Without a value, every pair of the key goes. *)
  dup_del s dbi name d w k rc s' : mdbx_del s dbi k = (rc, s') →
    table_at (view s) dbi name d → dup_table d w → v_rw (view s) = true → dup_fits (dv_flags d) w k →
    engine_error rc ∨
    rc = MDBX_NOTFOUND ∧ no_record (dv_recs d) (in_bucket (dv_flags d) k) ∧ view s' = view s ∨
    rc = MDBX_SUCCESS ∧ ¬ no_record (dv_recs d) (in_bucket (dv_flags d) k) ∧
      view s' = v_update (view s) name (filter (fun p => ¬ in_bucket (dv_flags d) k p.1));
  dup_del_pair s dbi name d w k x rc s' : mdbx_del_pair s dbi k x = (rc, s') →
    table_at (view s) dbi name d → dup_table d w → v_rw (view s) = true → dup_fits (dv_flags d) w k →
    engine_error rc ∨
    rc = MDBX_NOTFOUND ∧ dv_recs d !! item (dv_flags d) k x = None ∧ view s' = view s ∨
    rc = MDBX_SUCCESS ∧ is_Some (dv_recs d !! item (dv_flags d) k x) ∧
      view s' = v_update (view s) name (delete (item (dv_flags d) k x));
  dup_cmp s dbi name d w a b : table_at (view s) dbi name d → dup_keys (dv_flags d) w →
    dup_fits (dv_flags d) w a → dup_fits (dv_flags d) w b →
    let o := bytes_compare (dup_sort_key (dv_flags d) a) (dup_sort_key (dv_flags d) b) in
    (mdbx_cmp s dbi a b > 0 ↔ o = Gt) ∧ (mdbx_cmp s dbi a b < 0 ↔ o = Lt);
  dup_cursor_open s dbi rc c : mdbx_cursor_open s dbi = (rc, c) → engine_error rc ∨ cursor_item c = None;
  dup_cursor_get s c op key name d w rc k x c' : mdbx_cursor_get s c op key = (rc, k, x, c') →
    table_at (view s) (cursor_dbi c) name d → dup_table d w →
    (op = MDBX_SET_RANGE → dup_fits (dv_flags d) w key) →
    let range := cursor_range op (cursor_item c) (bucket_of (dv_flags d) key) in
    engine_error rc ∨
    cursor_dbi c' = cursor_dbi c ∧
    (rc = MDBX_SUCCESS ∧ first_record (dv_recs d) range (item (dv_flags d) k x) x ∧
       cursor_item c' = Some (item (dv_flags d) k x) ∨
     rc = MDBX_NOTFOUND ∧ no_record (dv_recs d) range);
  dup_cursor_get_back s c op name d w rc k x c' : mdbx_cursor_get_back s c op = (rc, k, x, c') →
    table_at (view s) (cursor_dbi c) name d → dup_table d w →
    let range := back_range op (cursor_item c) in
    engine_error rc ∨
    cursor_dbi c' = cursor_dbi c ∧
    (rc = MDBX_SUCCESS ∧ last_record (dv_recs d) range (item (dv_flags d) k x) x ∧
       cursor_item c' = Some (item (dv_flags d) k x) ∨
     rc = MDBX_NOTFOUND ∧ no_record (dv_recs d) range);
  (** The moves inside a bucket are for a cursor on a pair; it need not be there any more. *)
  dup_cursor_get_dup s c op key k0 x0 name d w rc k x c' : mdbx_cursor_get_dup s c op key = (rc, k, x, c') →
    table_at (view s) (cursor_dbi c) name d → dup_table d w →
    (op = MDBX_SET_KEY → dup_fits (dv_flags d) w key) →
    (op ≠ MDBX_SET_KEY → cursor_item c = Some (item (dv_flags d) k0 x0)) →
    (op = MDBX_LAST_DUP → is_Some (dv_recs d !! item (dv_flags d) k0 x0)) →
    let range := dup_range op (dv_flags d) (item (dv_flags d) k0 x0) k0 key in
    engine_error rc ∨
    cursor_dbi c' = cursor_dbi c ∧
    (rc = MDBX_SUCCESS ∧
       (if decide (op = MDBX_LAST_DUP) then last_record (dv_recs d) range (item (dv_flags d) k x) x
        else first_record (dv_recs d) range (item (dv_flags d) k x) x) ∧
       cursor_item c' = Some (item (dv_flags d) k x) ∨
     rc = MDBX_NOTFOUND ∧ no_record (dv_recs d) range);
  dup_cursor_count s c k0 x0 name d w rc n : mdbx_cursor_count s c = (rc, n) →
    table_at (view s) (cursor_dbi c) name d → dup_table d w →
    cursor_item c = Some (item (dv_flags d) k0 x0) → is_Some (dv_recs d !! item (dv_flags d) k0 x0) →
    engine_error rc ∨
    rc = MDBX_SUCCESS ∧ n = Z.of_nat (length (recs_where (dv_recs d) (in_bucket (dv_flags d) k0)));
  dup_cursor_del s c name d w b rc s' c' : mdbx_cursor_del s c = (rc, s', c') →
    table_at (view s) (cursor_dbi c) name d → dup_table d w → v_rw (view s) = true →
    cursor_item c = Some b → is_Some (dv_recs d !! b) →
    engine_error rc ∨
    rc = MDBX_SUCCESS ∧ view s' = v_update (view s) name (delete b) ∧
    cursor_dbi c' = cursor_dbi c ∧ cursor_item c' = Some b;
}.

(** ** The values of a key *)

(** The records of a range from the first one on. *)
Lemma recs_where_from_first m P `{∀ k, Decision (P k)} k x :
  first_record m P k x → recs_where m P = (k, x) :: recs_where m (fun b => P b ∧ bytes_lt k b).
Proof.
  intros (Hk & HP & Hmin). apply strict_sorted_unique; [apply recs_where_sorted| |].
  - constructor; [apply recs_where_sorted|]. apply Forall_forall. by intros [b y] [[_ ?] _]%elem_of_recs_where.
  - intros [b y]. rewrite elem_of_cons, !elem_of_recs_where. split.
    + intros [Hb Hy]. destruct (proj1 (bytes_le_lteq k b)) as [|<-]; [by eapply Hmin|by right|]. left. congruence.
    + intros [[= -> ->]|((? & _) & ?)]; done.
Qed.

Lemma recs_where_delete m P `{∀ k, Decision (P k)} b : ¬ P b → recs_where (delete b m) P = recs_where m P.
Proof.
  intros Hb. apply strict_sorted_unique; [apply recs_where_sorted..|]. intros [k x].
  rewrite !elem_of_recs_where, lookup_delete_Some. split; [naive_solver|]. intros [Hk Hx]. split_and!; [done| |done].
  by intros ->.
Qed.

Section Values.
Context (fl : Z) (w : nat) (m : gmap bytes bytes) (Hm : dup_table (mk_dbi fl m) w).

(** In the order of the table; [values_after] are those behind [x]. *)
Definition values (k : bytes) : list bytes := snd <$> recs_where m (in_bucket fl k).
Definition values_after (k x : bytes) : list bytes :=
  snd <$> recs_where m (fun b => in_bucket fl k b ∧ bytes_lt (item fl k x) b).

Lemma dup_item b x : m !! b = Some x → ∃ k, b = item fl k x ∧ dup_fits fl w k.
Proof. apply (dt_items _ _ Hm). Qed.

Lemma bucket_record k b x : m !! b = Some x → in_bucket fl k b → b = item fl k x.
Proof. intros (k' & -> & _)%dup_item E%in_bucket_item. by subst. Qed.

Lemma elem_of_values k x : x ∈ values k ↔ m !! item fl k x = Some x.
Proof.
  unfold values. rewrite list_elem_of_fmap. split.
  - intros ([b y] & -> & [Hb Hy]%elem_of_recs_where). cbn. by rewrite <- (bucket_record k b y).
  - intros Hx. exists (item fl k x, x). split; [done|]. apply elem_of_recs_where. by rewrite in_bucket_item.
Qed.

Lemma item_value k x y : m !! item fl k x = Some y → y = x.
Proof. intros H. destruct (dup_item _ _ H) as (k' & E & _). by apply (inj2 (item fl)) in E as [_ ->]. Qed.

Lemma elem_of_values_after k x y : y ∈ values_after k x ↔ m !! item fl k y = Some y ∧ bytes_lt x y.
Proof.
  unfold values_after. rewrite list_elem_of_fmap. split.
  - intros ([b z] & -> & [[Hb Hlt] Hz]%elem_of_recs_where). pose proof (bucket_record k b z Hz Hb) as ->.
    split; [done|]. unfold bytes_lt in Hlt. by rewrite item_compare_value in Hlt.
  - intros [Hy Hlt]. exists (item fl k y, y). split; [done|]. apply elem_of_recs_where.
    rewrite in_bucket_item. unfold bytes_lt. by rewrite item_compare_value.
Qed.

Lemma values_sorted k : StronglySorted bytes_lt (values k).
Proof.
  unfold values. assert (∀ p, p ∈ recs_where m (in_bucket fl k) → p.1 = item fl k p.2) as Hk.
  { intros [b x] [Hb Hx]%elem_of_recs_where. by apply bucket_record. }
  pose proof (recs_where_sorted m (in_bucket fl k)) as Hs. revert Hk.
  induction Hs as [|p l Hs IH Hp]; intros Hk; [constructor|]. rewrite fmap_cons. constructor.
  - apply IH. intros q Hq. apply Hk. by right.
  - apply Forall_fmap. rewrite Forall_forall in Hp |- *. intros q Hq. specialize (Hp q Hq). unfold rec_lt in Hp.
    rewrite (Hk p ltac:(left)), (Hk q ltac:(by right)) in Hp. unfold bytes_lt in *. cbn. by rewrite <- (item_compare_value fl k).
Qed.

Lemma values_first k x : first_record m (in_bucket fl k) (item fl k x) x → values k = x :: values_after k x.
Proof. intros Hf. unfold values. by rewrite (recs_where_from_first _ _ _ _ Hf). Qed.

Lemma values_next k x y :
  first_record m (fun b => in_bucket fl k b ∧ bytes_lt (item fl k x) b) (item fl k y) y →
  values_after k x = y :: values_after k y.
Proof.
  intros Hf. unfold values_after. rewrite (recs_where_from_first _ _ _ _ Hf). cbn. f_equal. f_equal.
  apply recs_where_ext. intros b z Hz. destruct Hf as (_ & [_ Hlt] & _). split; [naive_solver|].
  intros [? ?]. split_and!; [done| |done]. by etrans.
Qed.

Lemma values_nil k : values k = [] ↔ no_record m (in_bucket fl k).
Proof. unfold values. rewrite <- recs_where_nil. split; [apply fmap_nil_inv|by intros ->]. Qed.

Lemma values_after_nil k x :
  no_record m (fun b => in_bucket fl k b ∧ bytes_lt (item fl k x) b) → values_after k x = [].
Proof. intros Hn. unfold values_after. by rewrite (proj2 (recs_where_nil m _) Hn). Qed.

Lemma values_length k : (length (values k) ≤ size m)%nat.
Proof. unfold values. rewrite length_fmap. apply recs_where_length. Qed.
End Values.
