(* ===== verification/RefMdbx.v ===== *)
(** * A reference storage engine

    An executable engine over views that satisfies [MdbxLaws] and [MdbxDupLaws] and never
    reports an [engine_error]: the laws are consistent, and the witnesses of the component
    files evaluate the modelled code on it.  A cursor on a table with duplicates stores the
    item it is on. *)
From S2P Require Import Prelude Mdbx DupSort.
Open Scope Z_scope.

Record ref_env : Type := { ref_id : Z; ref_dbs : gmap bytes dbi_view; ref_handles : gmap Z bytes }.

Definition ref_fresh (v : db_view) : Z := 2 + map_fold (fun i _ m => Z.max i m) 0 (v_handles v).

Definition ref_table (v : db_view) (dbi : Z) : option (bytes * dbi_view) :=
  name ← v_handles v !! dbi; d ← v_dbs v !! name; Some (name, d).

Definition ref_begin (e : ref_env) (rdonly : bool) : Z * db_view :=
  (MDBX_SUCCESS, {| v_env := ref_id e; v_rw := negb rdonly; v_dbs := ref_dbs e; v_handles := ref_handles e |}).

Definition ref_open (v : db_view) (name : bytes) (flags : Z) : Z * Z * db_view :=
  let dbi := ref_fresh v in
  match v_dbs v !! name with
  | None =>
      if has_flag flags MDBX_CREATE then
        if v_rw v then
          if fixed_flags flags then (MDBX_EINVAL, 0, v)
          else (MDBX_SUCCESS, dbi, v_opened v name (mk_dbi (stored_flags flags) ∅) dbi)
        else (MDBX_EACCESS, 0, v)
      else (MDBX_NOTFOUND, 0, v)
  | Some d =>
      if flags_match flags d then (MDBX_SUCCESS, dbi, v_opened v name d dbi)
      else (MDBX_INCOMPATIBLE, 0, v)
  end.

Definition ref_dup (d : dbi_view) : bool := has_flag (dv_flags d) MDBX_DUPSORT.

Definition ref_bucket (d : dbi_view) (k : bytes) : list (bytes * bytes) :=
  recs_where (dv_recs d) (in_bucket (dv_flags d) k).

(** A handle of no named table is the one of the main table. *)
Definition ref_get (v : db_view) (dbi : Z) (k : bytes) : Z * bytes :=
  match ref_table v dbi with
  | Some (_, d) =>
      if ref_dup d then
        match ref_bucket d k with (_, x) :: _ => (MDBX_SUCCESS, x) | [] => (MDBX_NOTFOUND, []) end
      else
        match dv_recs d !! k with Some x => (MDBX_SUCCESS, x) | None => (MDBX_NOTFOUND, []) end
  | None =>
      match v_handles v !! dbi, v_dbs v !! k with
      | None, Some _ => (MDBX_SUCCESS, [])
      | None, None => (MDBX_NOTFOUND, [])
      | Some _, _ => (MDBX_EINVAL, [])
      end
  end.

(** The key under which a record is filed, and whether [MDBX_NOOVERWRITE] finds one. *)
Definition ref_place (d : dbi_view) (k x : bytes) : bytes := if ref_dup d then item (dv_flags d) k x else k.
Definition ref_taken (d : dbi_view) (k : bytes) : bool :=
  if ref_dup d then match ref_bucket d k with [] => false | _ => true end
  else match dv_recs d !! k with None => false | _ => true end.

Definition ref_put (v : db_view) (dbi : Z) (k x : bytes) (mode : put_mode) : Z * db_view :=
  match ref_table v dbi, mode with
  | Some (name, d), MDBX_NOOVERWRITE =>
      if ref_taken d k then (MDBX_KEYEXIST, v)
      else (MDBX_SUCCESS, v_update v name <[ref_place d k x := x]>)
  | Some (name, d), MDBX_UPSERT => (MDBX_SUCCESS, v_update v name <[ref_place d k x := x]>)
  | None, _ => (MDBX_EINVAL, v)
  end.

Definition ref_put_nodup (v : db_view) (dbi : Z) (k x : bytes) : Z * db_view :=
  match ref_table v dbi with
  | Some (name, d) =>
      match dv_recs d !! item (dv_flags d) k x with
      | Some _ => (MDBX_KEYEXIST, v)
      | None => (MDBX_SUCCESS, v_update v name <[item (dv_flags d) k x := x]>)
      end
  | None => (MDBX_EINVAL, v)
  end.

Definition ref_del_pair (v : db_view) (dbi : Z) (k x : bytes) : Z * db_view :=
  match ref_table v dbi with
  | Some (name, d) =>
      match dv_recs d !! item (dv_flags d) k x with
      | Some _ => (MDBX_SUCCESS, v_update v name (delete (item (dv_flags d) k x)))
      | None => (MDBX_NOTFOUND, v)
      end
  | None => (MDBX_EINVAL, v)
  end.

Definition ref_del (v : db_view) (dbi : Z) (k : bytes) : Z * db_view :=
  match ref_table v dbi with
  | Some (name, d) =>
      if ref_dup d then
        match ref_bucket d k with
        | [] => (MDBX_NOTFOUND, v)
        | _ => (MDBX_SUCCESS, v_update v name (filter (fun p => ¬ in_bucket (dv_flags d) k p.1)))
        end
      else
      match dv_recs d !! k with
      | Some _ => (MDBX_SUCCESS, v_update v name (delete k))
      | None => (MDBX_NOTFOUND, v)
      end
  | None => (MDBX_EINVAL, v)
  end.

(** The cursor moves to the first of the records [l] of a table with duplicates. *)
Definition ref_move (d : dbi_view) (c : Z * option bytes) (l : list (bytes * bytes))
    : Z * bytes * bytes * (Z * option bytes) :=
  match l with
  | (b, x) :: _ => (MDBX_SUCCESS, default [] (fst <$> item_pair (dv_flags d) b), x, (c.1, Some b))
  | [] => (MDBX_NOTFOUND, [], [], c)
  end.

Definition ref_cursor_get (v : db_view) (c : Z * option bytes) (op : cursor_op) (key : bytes)
    : Z * bytes * bytes * (Z * option bytes) :=
  match ref_table v c.1 with
  | Some (_, d) =>
      if ref_dup d then
        ref_move d c (recs_where (dv_recs d) (cursor_range op c.2 (bucket_of (dv_flags d) key)))
      else
      let ord := sort_key (dv_flags d) in
      match recs_where (ordered_recs d) (cursor_range op (ord <$> c.2) (ord key)) with
      | (k, x) :: _ => (MDBX_SUCCESS, ord k, x, (c.1, Some (ord k)))
      | [] => (MDBX_NOTFOUND, [], [], c)
      end
  | None => (MDBX_EINVAL, [], [], c)
  end.

Definition ref_cursor_get_back (v : db_view) (c : Z * option bytes) (op : back_op)
    : Z * bytes * bytes * (Z * option bytes) :=
  match ref_table v c.1 with
  | Some (_, d) =>
      if ref_dup d then ref_move d c (reverse (recs_where (dv_recs d) (back_range op c.2)))
      else
      let ord := sort_key (dv_flags d) in
      match reverse (recs_where (ordered_recs d) (back_range op (ord <$> c.2))) with
      | (k, x) :: _ => (MDBX_SUCCESS, ord k, x, (c.1, Some (ord k)))
      | [] => (MDBX_NOTFOUND, [], [], c)
      end
  | None => (MDBX_EINVAL, [], [], c)
  end.

Definition ref_cursor_del (v : db_view) (c : Z * option bytes) : Z * db_view * (Z * option bytes) :=
  match ref_table v c.1, c.2 with
  | Some (name, d), Some k => (MDBX_SUCCESS, v_update v name (delete k), c)
  | _, _ => (MDBX_EINVAL, v, c)
  end.

Definition ref_cursor_get_dup (v : db_view) (c : Z * option bytes) (op : dup_op) (key : bytes)
    : Z * bytes * bytes * (Z * option bytes) :=
  match ref_table v c.1 with
  | Some (_, d) =>
      let pos := default [] c.2 in
      let k0 := default [] (fst <$> item_pair (dv_flags d) pos) in
      let l := recs_where (dv_recs d) (dup_range op (dv_flags d) pos k0 key) in
      ref_move d c (if decide (op = MDBX_LAST_DUP) then reverse l else l)
  | None => (MDBX_EINVAL, [], [], c)
  end.

Definition ref_cursor_count (v : db_view) (c : Z * option bytes) : Z * Z :=
  match ref_table v c.1, c.2 with
  | Some (_, d), Some pos =>
      (MDBX_SUCCESS, Z.of_nat (length (ref_bucket d (default [] (fst <$> item_pair (dv_flags d) pos)))))
  | _, _ => (MDBX_EINVAL, 0)
  end.

#[export] Instance ref_mdbx : Mdbx := {|
  env := ref_env; txn := db_view; cursor := Z * option bytes;
  mdbx_txn_begin := ref_begin;
  mdbx_txn_commit e v := (MDBX_SUCCESS, {| ref_id := ref_id e; ref_dbs := v_dbs v; ref_handles := v_handles v |});
  mdbx_txn_abort e v := (MDBX_SUCCESS, e);
  mdbx_txn_env := v_env;
  mdbx_dbi_open := ref_open;
  mdbx_dbi_open_main v := (MDBX_SUCCESS, ref_fresh v, v);
  mdbx_dbi_flags v dbi := match ref_table v dbi with
    Some (_, d) => (MDBX_SUCCESS, dv_flags d) | None => (MDBX_EINVAL, 0) end;
  mdbx_dbi_stat v dbi := match ref_table v dbi with
    Some (_, d) => (MDBX_SUCCESS, Z.of_nat (size (dv_recs d))) | None => (MDBX_EINVAL, 0) end;
  mdbx_get := ref_get;
  mdbx_put := ref_put;
  mdbx_del := ref_del;
  mdbx_drop v dbi := match ref_table v dbi with
    Some (name, _) => (MDBX_SUCCESS, v_update v name (fun _ => ∅)) | None => (MDBX_EINVAL, v) end;
  mdbx_cmp v dbi a b :=
    let ord := match ref_table v dbi with
               | Some (_, d) => if ref_dup d then dup_sort_key (dv_flags d) else sort_key (dv_flags d)
               | None => sort_key 0
               end in
    match bytes_compare (ord a) (ord b) with Gt => 1 | Eq => 0 | Lt => -1 end;
  mdbx_cursor_open v dbi := (MDBX_SUCCESS, (dbi, None));
  mdbx_cursor_get := ref_cursor_get;
  mdbx_cursor_get_back := ref_cursor_get_back;
  mdbx_cursor_del := ref_cursor_del;
|}.

#[export] Instance ref_mdbx_dup : MdbxDup ref_mdbx := {|
  mdbx_put_nodup := ref_put_nodup : @txn ref_mdbx → _;
  mdbx_del_pair := ref_del_pair : @txn ref_mdbx → _;
  mdbx_cursor_get_dup := ref_cursor_get_dup : @txn ref_mdbx → @cursor ref_mdbx → _;
  mdbx_cursor_count := ref_cursor_count : @txn ref_mdbx → @cursor ref_mdbx → _;
|}.

Lemma ref_fresh_gt v i n : v_handles v !! i = Some n → i < ref_fresh v ∧ 0 < ref_fresh v.
Proof.
  unfold ref_fresh. generalize (v_handles v) as m. intros m. revert i n.
  cut (0 ≤ map_fold (fun i _ m => Z.max i m) 0 m ∧
       ∀ i n, m !! i = Some n → i ≤ map_fold (fun (i : Z) (_ : bytes) m => Z.max i m) 0 m).
  { intros [H0 H] i n Hi. specialize (H i n Hi). lia. }
  apply (map_fold_weak_ind (fun r m => 0 ≤ r ∧ ∀ i (n : bytes), m !! i = Some n → i ≤ r)).
  - split; [done|]. intros i n Hi. by rewrite lookup_empty in Hi.
  - intros i n m' r Hi [H0 H]. split; [lia|]. intros j n'.
    destruct (decide (i = j)) as [->|]; [lia|]. rewrite lookup_insert_ne by done.
    intros ?%H. lia.
Qed.

Lemma ref_fresh_nz v : ref_fresh v ≠ 0.
Proof.
  unfold ref_fresh. cut (0 ≤ map_fold (fun (i : Z) (_ : bytes) m => Z.max i m) 0 (v_handles v)); [lia|].
  apply (map_fold_weak_ind (fun r _ => 0 ≤ r)); lia.
Qed.

Lemma ref_table_at v dbi name d : table_at v dbi name d → ref_table v dbi = Some (name, d).
Proof. intros [Hh Hd]. unfold ref_table. rewrite Hh. simpl. by rewrite Hd. Qed.

Lemma recs_where_head m P `{∀ k, Decision (P k)} k x l :
  recs_where m P = (k, x) :: l → first_record m P k x.
Proof.
  intros E. pose proof (recs_where_sorted m P) as Hs. rewrite E in Hs.
  apply StronglySorted_inv in Hs as [_ Hall]. rewrite Forall_forall in Hall.
  assert ((k, x) ∈ recs_where m P) as [Hk Hx]%elem_of_recs_where by (rewrite E; left).
  split_and!; [done..|]. intros k' x' Hk' HP'.
  assert ((k', x') ∈ (k, x) :: l) as [[= -> ->]|Hin]%elem_of_cons
    by (rewrite <- E; by apply elem_of_recs_where).
  - apply bytes_le_lteq. by right.
  - apply bytes_lt_le. by apply (Hall (k', x')).
Qed.

Lemma ref_open_spec v name flags rc dbi v' :
  ref_open v name flags = (rc, dbi, v') → open_spec v name flags rc dbi v'.
Proof.
  assert (∀ n, v_handles v !! ref_fresh v = Some n → n = name) as Hf.
  { intros n Hn%ref_fresh_gt. lia. }
  pose proof (ref_fresh_nz v). unfold ref_open, open_spec.
  destruct (v_dbs v !! name) as [d|].
  - destruct (flags_match flags d) eqn:E; intros [= <- <- <-]; [by left|]. right. left. auto.
  - destruct (has_flag flags MDBX_CREATE); [|by intros [= <- <- <-]].
    destruct (v_rw v); [|by intros [= <- <- <-]].
    destruct (fixed_flags flags); intros [= <- <- <-]; [by right|by left].
Qed.

Lemma recs_where_back m P `{∀ k, Decision (P k)} k x l :
  reverse (recs_where m P) = (k, x) :: l → last_record m P k x.
Proof.
  intros E. assert (recs_where m P = reverse l ++ [(k, x)]) as E'.
  { by rewrite <- (reverse_involutive (recs_where m P)), E, reverse_cons. }
  pose proof (recs_where_sorted m P) as Hs. rewrite E' in Hs.
  assert ((k, x) ∈ recs_where m P) as [Hk Hx]%elem_of_recs_where by (rewrite E'; set_solver).
  split_and!; [done..|]. intros k' x' Hk' HP'.
  assert ((k', x') ∈ reverse l ++ [(k, x)]) as [Hin|[= -> ->]%list_elem_of_singleton]%elem_of_app
    by (rewrite <- E'; by apply elem_of_recs_where).
  - apply bytes_lt_le. by eapply (StronglySorted_app_1_elem_of rec_lt (reverse l) [(k, x)] (k', x') (k, x)); [| |left].
  - apply bytes_le_lteq. by right.
Qed.

Lemma ref_cursor_get_spec v c op key name d rc k x c' :
  ref_cursor_get v c op key = (rc, k, x, c') → table_at v c.1 name d → ref_dup d = false →
  let range := cursor_range op (sort_key (dv_flags d) <$> c.2) (sort_key (dv_flags d) key) in
  c'.1 = c.1 ∧
  (rc = MDBX_SUCCESS ∧ first_record (ordered_recs d) range (sort_key (dv_flags d) k) x ∧ c'.2 = Some k ∨
   rc = MDBX_NOTFOUND ∧ no_record (ordered_recs d) range).
Proof.
  intros H Ht%ref_table_at Hp. unfold ref_cursor_get in H. rewrite Ht, Hp in H. cbv zeta in H |- *.
  destruct (recs_where _ _) as [|[k0 x0] l] eqn:E; simplify_eq; (split; [done|]).
  - right. split; [done|]. by eapply recs_where_nil.
  - left. rewrite sort_key_involutive. split_and!; [done| |done]. by eapply recs_where_head.
Qed.

Lemma ref_cursor_get_back_spec v c op name d rc k x c' :
  ref_cursor_get_back v c op = (rc, k, x, c') → table_at v c.1 name d → ref_dup d = false →
  let range := back_range op (sort_key (dv_flags d) <$> c.2) in
  c'.1 = c.1 ∧
  (rc = MDBX_SUCCESS ∧ last_record (ordered_recs d) range (sort_key (dv_flags d) k) x ∧ c'.2 = Some k ∨
   rc = MDBX_NOTFOUND ∧ no_record (ordered_recs d) range).
Proof.
  intros H Ht%ref_table_at Hp. unfold ref_cursor_get_back in H. rewrite Ht, Hp in H. cbv zeta in H |- *.
  destruct (reverse _) as [|[k0 x0] l] eqn:E; simplify_eq; (split; [done|]).
  - right. split; [done|]. eapply recs_where_nil. by apply (f_equal reverse) in E; rewrite reverse_involutive in E.
  - left. rewrite sort_key_involutive. split_and!; [done| |done]. by eapply recs_where_back.
Qed.

Lemma sized_plain flags w : key_sized flags w → has_flag flags MDBX_DUPSORT = false.
Proof. by intros [->|[-> _]]. Qed.

Lemma recs_sized_plain d w : recs_sized d w → ref_dup d = false.
Proof. unfold ref_dup. by intros [->|(-> & _)]. Qed.

#[export] Instance ref_laws : MdbxLaws ref_mdbx.
Proof.
  refine {|
    view := fun v : @txn ref_mdbx => v;
    env_id := ref_id : @env ref_mdbx → Z;
    env_dbs := ref_dbs : @env ref_mdbx → gmap bytes dbi_view;
    env_handles := ref_handles : @env ref_mdbx → gmap Z bytes;
    cursor_dbi := fst : @cursor ref_mdbx → Z;
    cursor_key := snd : @cursor ref_mdbx → option bytes;
    main_dbi := fun _ => True;
    engine_error := fun _ => False
  |}; try done.
  - intros e rdonly rc s [= <- <-]. by right.
  - intros e s rc e' [= <- <-]. split; [done|]. by right.
  - intros e s rc e' [= <- <-]. auto.
  - intros e rdonly rc s [= <- <-]. by right.
  - intros e s rc e' [= <- <-]. by right.
  - by intros e s rc e' [= <- <-].
  - intros s name flags rc dbi s' H. right. by apply ref_open_spec.
  - intros s name flags dbi s' d H _ Hd. simpl in *. unfold ref_open in H. rewrite Hd in H. by destruct (flags_match flags d).
  - intros s rc dbi s' [= <- <- <-]. right. split_and!; try done. apply eq_None_not_Some.
    intros [n Hn%ref_fresh_gt]. simpl in Hn. lia.
  - intros s dbi k rc x H _ Hn. simpl in H. unfold ref_get, ref_table in H. rewrite Hn in H.
    simpl in H. destruct (v_dbs s !! k) eqn:E; simplify_eq; eauto.
  - intros s dbi name d rc f H Ht%ref_table_at. simpl in H. rewrite Ht in H. by simplify_eq; right.
  - intros s dbi name d rc f H Ht%ref_table_at _. simpl in H. rewrite Ht in H. by simplify_eq; right.
  - intros s dbi name d k rc x H Ht%ref_table_at Hp. simpl in H. unfold ref_get in H.
    rewrite Ht in H. unfold ref_dup in H. rewrite Hp in H. destruct (dv_recs d !! k) eqn:E; simplify_eq; auto.
  - intros s dbi name d k x mode rc s' H Ht%ref_table_at Hp _. simpl in H. unfold ref_put, ref_place, ref_taken, ref_dup in H.
    rewrite Ht, Hp in H. destruct mode; [simplify_eq; auto 10|].
    destruct (dv_recs d !! k) eqn:E; simplify_eq; [|by auto 10]. right. left. eauto.
  - intros s dbi name d k rc s' H Ht%ref_table_at Hp _. simpl in H. unfold ref_del, ref_dup in H.
    rewrite Ht, Hp in H. destruct (dv_recs d !! k) eqn:E; simplify_eq; eauto 10.
  - intros s dbi name d k x mode rc s' H Ht%ref_table_at _. right. simpl in H. unfold ref_put in H.
    rewrite Ht in H. pose proof (v_update_id s name) as Hid.
    destruct mode; [|destruct (ref_taken d k)]; simplify_eq; eauto.
  - intros s dbi name d k rc s' H Ht%ref_table_at _. right. simpl in H. unfold ref_del in H.
    rewrite Ht in H. pose proof (v_update_id s name) as Hid.
    destruct (ref_dup d); [destruct (ref_bucket d k)|destruct (dv_recs d !! k)]; simplify_eq; eauto.
  - intros s dbi name d rc s' H Ht%ref_table_at _. simpl in H. rewrite Ht in H.
    by simplify_eq; right.
  - intros s dbi name d a b Ht%ref_table_at Hk%sized_plain _. simpl. rewrite Ht. unfold ref_dup. rewrite Hk.
    destruct (bytes_compare _ _); split; split; lia || done.
  - intros s dbi name d rc c [= <- <-] _. by right.
  - intros s c op key name d w rc k x c' H Ht Hp%recs_sized_plain _. right. by eapply ref_cursor_get_spec.
  - intros s c op name d w rc k x c' H Ht Hp%recs_sized_plain. right. by eapply ref_cursor_get_back_spec.
  - intros s c name d w k rc s' c' H Ht%ref_table_at _ _ Hk _. right. simpl in *.
    unfold ref_cursor_del in H. rewrite Ht, Hk in H. by simplify_eq.
Defined.

(** ** Duplicates *)

Lemma dup_keys_dup d w : dup_table d w → ref_dup d = true.
Proof. unfold ref_dup. by intros [[->|[-> _]] _]. Qed.

Lemma ref_move_first d w c P `{∀ k, Decision (P k)} rc k x c' :
  ref_move d c (recs_where (dv_recs d) P) = (rc, k, x, c') → dup_table d w →
  c'.1 = c.1 ∧
  (rc = MDBX_SUCCESS ∧ first_record (dv_recs d) P (item (dv_flags d) k x) x ∧ c'.2 = Some (item (dv_flags d) k x) ∨
   rc = MDBX_NOTFOUND ∧ no_record (dv_recs d) P).
Proof.
  intros E Hd. destruct (recs_where (dv_recs d) P) as [|[b y] l] eqn:El; cbn in E; simplify_eq; (split; [done|]).
  - right. split; [done|]. by eapply recs_where_nil.
  - left. apply recs_where_head in El. destruct (dt_items _ _ Hd _ _ (proj1 El)) as (k & -> & _).
    by rewrite item_pair_item.
Qed.

Lemma ref_move_last d w c P `{∀ k, Decision (P k)} rc k x c' :
  ref_move d c (reverse (recs_where (dv_recs d) P)) = (rc, k, x, c') → dup_table d w →
  c'.1 = c.1 ∧
  (rc = MDBX_SUCCESS ∧ last_record (dv_recs d) P (item (dv_flags d) k x) x ∧ c'.2 = Some (item (dv_flags d) k x) ∨
   rc = MDBX_NOTFOUND ∧ no_record (dv_recs d) P).
Proof.
  intros E Hd. destruct (reverse (recs_where (dv_recs d) P)) as [|[b y] l] eqn:El; cbn in E; simplify_eq; (split; [done|]).
  - right. split; [done|]. eapply recs_where_nil. by apply (f_equal reverse) in El; rewrite reverse_involutive in El.
  - left. apply recs_where_back in El. destruct (dt_items _ _ Hd _ _ (proj1 El)) as (k & -> & _).
    by rewrite item_pair_item.
Qed.

Lemma ref_bucket_nil d k : ref_bucket d k = [] ↔ no_record (dv_recs d) (in_bucket (dv_flags d) k).
Proof. apply recs_where_nil. Qed.

Lemma ref_at (s : @txn ref_mdbx) dbi name d : table_at (view s) dbi name d → ref_table s dbi = Some (name, d).
Proof. apply ref_table_at. Qed.

Lemma ref_at_cursor (s : @txn ref_mdbx) (c : @cursor ref_mdbx) name d :
  table_at (view s) (cursor_dbi c) name d → ref_table s c.1 = Some (name, d).
Proof. apply ref_table_at. Qed.

#[export] Instance ref_dup_laws : MdbxDupLaws ref_mdbx ref_mdbx_dup ref_laws.
Proof.
  refine {| cursor_item := snd : @cursor ref_mdbx → option bytes |}.
  - intros s dbi name d w rc n H Ht%ref_at _. simpl in H. rewrite Ht in H. by simplify_eq; right.
  - intros s dbi name d w k rc x H Ht%ref_at Hd _. simpl in H. unfold ref_get in H.
    rewrite Ht, (dup_keys_dup d w Hd) in H. unfold ref_bucket in H.
    destruct (recs_where _ _) as [|[b y] l] eqn:E; simplify_eq; right.
    + right. split; [done|]. by eapply recs_where_nil.
    + left. split; [done|]. apply recs_where_head in E. pose proof E as (Hb & Hin & _).
      by rewrite <- (bucket_record (dv_flags d) w (dv_recs d) ltac:(by destruct d) k b x Hb Hin).
  - intros s dbi name d w k x rc s' H Ht%ref_at Hd _ _. simpl in H. unfold ref_put, ref_place in H.
    rewrite Ht, (dup_keys_dup d w Hd) in H. by simplify_eq; right.
  - intros s dbi name d w k x rc s' H Ht%ref_at Hd _ _. simpl in H. unfold ref_put_nodup in H.
    rewrite Ht in H. destruct (dv_recs d !! item _ _ _) eqn:E; simplify_eq; eauto 10.
  - intros s dbi name d w k rc s' H Ht%ref_at Hd _ _. simpl in H. unfold ref_del in H.
    rewrite Ht, (dup_keys_dup d w Hd) in H. pose proof (ref_bucket_nil d k) as Hn.
    destruct (ref_bucket d k); simplify_eq; right; [left|right]; (split_and!; [done| |done]); naive_solver.
  - intros s dbi name d w k x rc s' H Ht%ref_at Hd _ _. simpl in H. unfold ref_del_pair in H.
    rewrite Ht in H. destruct (dv_recs d !! item _ _ _) eqn:E; simplify_eq; eauto 10.
  - intros s dbi name d w a b Ht%ref_at Hk _ _. simpl. rewrite Ht.
    assert (ref_dup d = true) as -> by (unfold ref_dup; by destruct Hk as [->|[-> _]]).
    destruct (bytes_compare _ _); split; split; lia || done.
  - intros s dbi rc c [= <- <-]. by right.
  - intros s c op key name d w rc k x c' H Ht%ref_at_cursor Hd _. right. simpl in H. unfold ref_cursor_get in H.
    rewrite Ht, (dup_keys_dup d w Hd) in H. by eapply ref_move_first in H.
  - intros s c op name d w rc k x c' H Ht%ref_at_cursor Hd. right. simpl in H. unfold ref_cursor_get_back in H.
    rewrite Ht, (dup_keys_dup d w Hd) in H. by eapply ref_move_last in H.
  - intros s c op key k0 x0 name d w rc k x c' H Ht%ref_at_cursor Hd _ Hpos _. right. simpl in H.
    unfold ref_cursor_get_dup in H. rewrite Ht in H. cbv zeta in H.
    assert (∀ b, dup_range op (dv_flags d) (default [] c.2) (default [] (fst <$> item_pair (dv_flags d) (default [] c.2))) key b
      ↔ dup_range op (dv_flags d) (item (dv_flags d) k0 x0) k0 key b) as Hr.
    { simpl in Hpos. intros b. destruct op; [done|..];
        (assert (default [] c.2 = item (dv_flags d) k0 x0) as -> by by rewrite Hpos); by rewrite item_pair_item. }
    erewrite recs_where_ext in H by (intros; apply Hr).
    destruct (decide (op = MDBX_LAST_DUP)); [by eapply ref_move_last in H|by eapply ref_move_first in H].
  - intros s c k0 x0 name d w rc n H Ht%ref_at_cursor Hd Hpos _. right. simpl in H, Hpos. unfold ref_cursor_count in H.
    rewrite Ht, Hpos, item_pair_item in H. cbn in H. by simplify_eq.
  - intros s c name d w b rc s' c' H Ht%ref_at_cursor _ _ Hk _. right. simpl in *.
    unfold ref_cursor_del in H. rewrite Ht, Hk in H. by simplify_eq.
Defined.
