(* ===== verification/DupRules.v ===== *)
(** * Walking tables with duplicates

    The calls of [MdbxDup] in the monad of the code, the loop over the values of a key that
    the table classes share, and the rules of both. *)
From S2P Require Import Prelude Mdbx DupSort.
Open Scope Z_scope.

Section Code.
Context {X : Mdbx} {D : MdbxDup X}.

Definition put_nodup (dbi : Z) (k x : bytes) : M Z := fun s =>
  let '(rc, s') := mdbx_put_nodup s dbi k x in (Ok rc, s').
Definition del_pair (dbi : Z) (k x : bytes) : M Z := fun s =>
  let '(rc, s') := mdbx_del_pair s dbi k x in (Ok rc, s').
Definition cursor_get_dup (c : cursor) (op : dup_op) (key : bytes) : M (Z * bytes * bytes * cursor) := fun s =>
  (Ok (mdbx_cursor_get_dup s c op key), s).
Definition cursor_count (c : cursor) : M (Z * Z) := fun s => (Ok (mdbx_cursor_count s c), s).

(** [while (rc == MDBX_SUCCESS) { body; rc = cursor_get(MDBX_NEXT_DUP); }
    if (rc != MDBX_NOTFOUND) check_mdbx(rc, context);], entered on the value [x]. *)
Section Loop.
Context {St : Type} (body : St → cursor → bytes → M (St * cursor * bool)) (context : string).

Fixpoint bucket_loop (fuel : nat) (c : cursor) (x : bytes) (st : St) : M St :=
  match fuel with
  | O => fail out_of_fuel
  | S n =>
      '(st, c, more) ← body st c x;
      if more : bool then
        '(rc, _, x, c) ← cursor_get_dup c MDBX_NEXT_DUP [];
        if rc =? MDBX_SUCCESS then bucket_loop n c x st
        else if rc =? MDBX_NOTFOUND then mret st
        else _ ← check_mdbx rc context; mret st
      else mret st
  end.

(** The walk over the bucket of a key, from [MDBX_SET_KEY] on. *)
Definition walk_key (fuel : nat) (c : cursor) (key : bytes) (seek_context : string) (st : St) : M St :=
  '(rc, _, x, c) ← cursor_get_dup c MDBX_SET_KEY key;
  if rc =? MDBX_NOTFOUND then mret st
  else
    _ ← check_mdbx rc seek_context;
    bucket_loop fuel c x st.

Definition walk_bucket (fuel : nat) (dbi : Z) (key : bytes) (open_context seek_context : string) (st : St) : M St :=
  '(rc, c) ← cursor_open dbi;
  _ ← check_mdbx rc open_context;
  walk_key fuel c key seek_context st.
End Loop.
End Code.

Section Rules.
Context {X : Mdbx} {D : MdbxDup X} {L : MdbxLaws X} {DL : MdbxDupLaws X D L}.

Lemma wp_assoc' {A B C} (m : M A) (f : A → M B) (g : B → M C) Q v :
  wp ((m ≫= f) ≫= g) Q v → wp (m ≫= (fun a => f a ≫= g)) Q v.
Proof.
  intros H s Hs. specialize (H s Hs). unfold mbind, M_bind in *. by destruct (m s) as [[a|e] s'].
Qed.

(** [dbi] is a handle of a well-formed table with duplicates. *)
Definition dup_bound (v : db_view) (dbi : Z) (name : bytes) (fl : Z) (w : nat) : Prop :=
  bound v dbi name fl ∧ dup_table (mk_dbi fl (recs v name)) w.

Definition on_value (c : cursor) (dbi fl : Z) (k x : bytes) : Prop :=
  cursor_dbi c = dbi ∧ cursor_item c = Some (item fl k x).

Section Table.
Context (dbi : Z) (name : bytes) (fl : Z) (w : nat).

Lemma wp_dup_open {A} context (f : cursor → M A) Q v :
  dup_bound v dbi name fl w →
  (∀ c, cursor_dbi c = dbi → cursor_item c = None → wp (f c) Q v) →
  wp ('(rc, c) ← cursor_open dbi; _ ← check_mdbx rc context; f c) Q v.
Proof.
  intros [Hb _] HQ. apply wp_bind. intros s Hs. left. subst v. destruct (mdbx_cursor_open s dbi) as [rc c] eqn:E.
  destruct (law_cursor_open _ _ _ _ _ _ E (bound_table _ _ _ _ Hb)) as [He|(-> & Hc & _)]; [engine_error_case|].
  apply wp_ret_bind. destruct (dup_cursor_open _ _ _ _ E) as [He|Hi]; [|by apply HQ].
  apply law_error in He. set_solver.
Qed.

Lemma wp_set_key {A} c key (f : Z * bytes * bytes * cursor → M A) Q v :
  dup_bound v dbi name fl w → dup_fits fl w key → cursor_dbi c = dbi →
  (∀ rc k x c', engine_error rc → wp (f (rc, k, x, c')) Q v) →
  match values fl (recs v name) key with
  | x :: rest => ∀ c', on_value c' dbi fl key x → rest = values_after fl (recs v name) key x →
      wp (f (MDBX_SUCCESS, key, x, c')) Q v
  | [] => ∀ k x c', wp (f (MDBX_NOTFOUND, k, x, c')) Q v
  end →
  wp (cursor_get_dup c MDBX_SET_KEY key ≫= f) Q v.
Proof.
  intros [Hb Hd] Hw Hc HE HQ. apply wp_bind. intros s Hs. left. subst v dbi.
  destruct (mdbx_cursor_get_dup s c MDBX_SET_KEY key) as [[[rc k] x] c'] eqn:E.
  destruct (dup_cursor_get_dup _ _ _ _ [] [] _ _ _ _ _ _ _ E (bound_table _ _ _ _ Hb) Hd (fun _ => Hw))
    as [He|(Hc' & [(-> & Hf & Hi)|(-> & Hn)])]; [done..|by apply HE| |]; cbn [dv_flags dv_recs] in *.
  - rewrite decide_False in Hf by done. assert (k = key) as ->.
    { destruct Hf as (_ & Hk & _). symmetry. by apply in_bucket_item in Hk. }
    rewrite (values_first _ _ _ _ Hf) in HQ. by apply HQ.
  - rewrite (proj2 (values_nil _ _ _) Hn) in HQ. apply HQ.
Qed.

Lemma wp_next_dup {A} c key x0 (f : Z * bytes * bytes * cursor → M A) Q v :
  dup_bound v dbi name fl w → on_value c dbi fl key x0 →
  (∀ rc k x c', engine_error rc → wp (f (rc, k, x, c')) Q v) →
  match values_after fl (recs v name) key x0 with
  | x :: rest => ∀ c', on_value c' dbi fl key x → rest = values_after fl (recs v name) key x →
      wp (f (MDBX_SUCCESS, key, x, c')) Q v
  | [] => ∀ k x c', wp (f (MDBX_NOTFOUND, k, x, c')) Q v
  end →
  wp (cursor_get_dup c MDBX_NEXT_DUP [] ≫= f) Q v.
Proof.
  intros [Hb Hd] [Hc Hp] HE HQ. apply wp_bind. intros s Hs. left. subst v dbi.
  destruct (mdbx_cursor_get_dup s c MDBX_NEXT_DUP []) as [[[rc k] x] c'] eqn:E.
  destruct (dup_cursor_get_dup _ _ _ _ key x0 _ _ _ _ _ _ _ E (bound_table _ _ _ _ Hb) Hd)
    as [He|(Hc' & [(-> & Hf & Hi)|(-> & Hn)])]; [done..|by apply HE| |]; cbn [dv_flags dv_recs] in *.
  - rewrite decide_False in Hf by done. assert (key = k) as ->.
    { destruct Hf as (_ & [Hk _] & _). by apply in_bucket_item in Hk. }
    rewrite (values_next _ _ _ _ _ Hf) in HQ. by apply HQ.
  - rewrite (values_after_nil _ _ _ _ Hn) in HQ. apply HQ.
Qed.

Lemma wp_put_nodup {A} k x (f : Z → M A) Q v :
  dup_bound v dbi name fl w → dup_fits fl w k → v_rw v = true →
  (∀ rc v', engine_error rc → wp (f rc) Q v') →
  (is_Some (recs v name !! item fl k x) → wp (f MDBX_KEYEXIST) Q v) →
  (recs v name !! item fl k x = None → wp (f MDBX_SUCCESS) Q (v_update v name <[item fl k x := x]>)) →
  wp (put_nodup dbi k x ≫= f) Q v.
Proof.
  intros [Hb Hd] Hw Hrw HE HK HQ. apply wp_bind. intros s Hs. unfold put_nodup.
  destruct (mdbx_put_nodup s dbi k x) as [rc s'] eqn:E. left. subst v.
  destruct (dup_put_nodup _ _ _ _ _ _ _ _ _ E (bound_table _ _ _ _ Hb) Hd Hrw Hw) as [He|[(-> & Hi & ->)|(-> & Hi & ->)]]; auto.
Qed.

Lemma wp_dup_put {A} k x (f : Z → M A) Q v :
  dup_bound v dbi name fl w → dup_fits fl w k → v_rw v = true →
  (∀ rc v', engine_error rc → wp (f rc) Q v') →
  wp (f MDBX_SUCCESS) Q (v_update v name <[item fl k x := x]>) →
  wp (put dbi k x MDBX_UPSERT ≫= f) Q v.
Proof.
  intros [Hb Hd] Hw Hrw HE HQ. apply wp_bind. intros s Hs. unfold put.
  destruct (mdbx_put s dbi k x MDBX_UPSERT) as [rc s'] eqn:E. left. subst v.
  destruct (dup_put _ _ _ _ _ _ _ _ _ E (bound_table _ _ _ _ Hb) Hd Hrw Hw) as [He|(-> & ->)]; auto.
Qed.

Lemma wp_del_pair {A} k x (f : Z → M A) Q v :
  dup_bound v dbi name fl w → dup_fits fl w k → v_rw v = true →
  (∀ rc v', engine_error rc → wp (f rc) Q v') →
  (recs v name !! item fl k x = None → wp (f MDBX_NOTFOUND) Q v) →
  (is_Some (recs v name !! item fl k x) → wp (f MDBX_SUCCESS) Q (v_update v name (delete (item fl k x)))) →
  wp (del_pair dbi k x ≫= f) Q v.
Proof.
  intros [Hb Hd] Hw Hrw HE HN HQ. apply wp_bind. intros s Hs. unfold del_pair.
  destruct (mdbx_del_pair s dbi k x) as [rc s'] eqn:E. left. subst v.
  destruct (dup_del_pair _ _ _ _ _ _ _ _ _ E (bound_table _ _ _ _ Hb) Hd Hrw Hw) as [He|[(-> & Hi & ->)|(-> & Hi & ->)]]; auto.
Qed.

Lemma wp_dup_del {A} k (f : Z → M A) Q v :
  dup_bound v dbi name fl w → dup_fits fl w k → v_rw v = true →
  (∀ rc v', engine_error rc → wp (f rc) Q v') →
  (values fl (recs v name) k = [] → wp (f MDBX_NOTFOUND) Q v) →
  (values fl (recs v name) k ≠ [] → wp (f MDBX_SUCCESS) Q (v_update v name (filter (fun p => ¬ in_bucket fl k p.1)))) →
  wp (del dbi k ≫= f) Q v.
Proof.
  intros [Hb Hd] Hw Hrw HE HN HQ. apply wp_bind. intros s Hs. unfold del.
  destruct (mdbx_del s dbi k) as [rc s'] eqn:E. left. subst v. setoid_rewrite values_nil in HN. setoid_rewrite values_nil in HQ.
  destruct (dup_del _ _ _ _ _ _ _ _ E (bound_table _ _ _ _ Hb) Hd Hrw Hw) as [He|[(-> & Hi & ->)|(-> & Hi & ->)]]; auto.
Qed.

Lemma wp_dup_cursor_del {A} c k x (f : Z * cursor → M A) Q v :
  dup_bound v dbi name fl w → on_value c dbi fl k x → v_rw v = true → recs v name !! item fl k x = Some x →
  (∀ rc c' v', engine_error rc → wp (f (rc, c')) Q v') →
  (∀ c', on_value c' dbi fl k x → wp (f (MDBX_SUCCESS, c')) Q (v_update v name (delete (item fl k x)))) →
  wp (cursor_del c ≫= f) Q v.
Proof.
  intros [Hb Hd] [Hc Hi] Hrw Hx HE HQ. apply wp_bind. intros s Hs. unfold cursor_del.
  destruct (mdbx_cursor_del s c) as [[rc s'] c'] eqn:E. left. subst v dbi.
  destruct (dup_cursor_del _ _ _ _ _ _ _ _ _ E (bound_table _ _ _ _ Hb) Hd Hrw Hi (ex_intro _ _ Hx))
    as [He|(-> & -> & Hc' & Hi')]; auto. by apply HQ.
Qed.

Lemma wp_dup_stat {A} (f : Z * Z → M A) Q v :
  dup_bound v dbi name fl w → (∀ rc n, engine_error rc → wp (f (rc, n)) Q v) →
  wp (f (MDBX_SUCCESS, Z.of_nat (size (recs v name)))) Q v → wp (get_stat dbi ≫= f) Q v.
Proof.
  intros [Hb Hd] HE HQ. apply wp_bind. intros s Hs. left. subst v.
  destruct (mdbx_dbi_stat s dbi) as [rc n] eqn:E.
  destruct (dup_stat _ _ _ _ _ _ _ E (bound_table _ _ _ _ Hb) Hd) as [He|(-> & ->)]; auto.
Qed.

Lemma wp_dup_get {A} k (f : Z * bytes → M A) Q v :
  dup_bound v dbi name fl w → dup_fits fl w k → (∀ rc x, engine_error rc → wp (f (rc, x)) Q v) →
  match values fl (recs v name) k with
  | x :: _ => wp (f (MDBX_SUCCESS, x)) Q v
  | [] => ∀ x, wp (f (MDBX_NOTFOUND, x)) Q v
  end →
  wp (get dbi k ≫= f) Q v.
Proof.
  intros [Hb Hd] Hw HE HQ. apply wp_bind. intros s Hs. left. subst v. destruct (mdbx_get s dbi k) as [rc x] eqn:E.
  destruct (dup_get _ _ _ _ _ _ _ _ E (bound_table _ _ _ _ Hb) Hd Hw) as [He|[(-> & Hf)|(-> & Hn)]]; [auto|..]; cbn [dv_flags dv_recs] in *.
  - by rewrite (values_first _ _ _ _ Hf) in HQ.
  - rewrite (proj2 (values_nil _ _ _) Hn) in HQ. apply HQ.
Qed.

(** The records a forward move of a cursor may reach; the one it reaches is the first. *)
Definition dup_ahead (m : gmap bytes bytes) (c : cursor) (op : cursor_op) (key : bytes) : list (bytes * bytes) :=
  recs_where m (cursor_range op (cursor_item c) (bucket_of fl key)).

Lemma wp_dup_move {A} c op key (f : Z * bytes * bytes * cursor → M A) Q v :
  dup_bound v dbi name fl w → cursor_dbi c = dbi → (op = MDBX_SET_RANGE → dup_fits fl w key) →
  (∀ rc k x c', engine_error rc → wp (f (rc, k, x, c')) Q v) →
  match dup_ahead (recs v name) c op key with
  | (b, x) :: rest => ∀ k c', b = item fl k x → on_value c' dbi fl k x → recs v name !! b = Some x → dup_fits fl w k →
      rest = dup_ahead (recs v name) c' MDBX_NEXT [] → wp (f (MDBX_SUCCESS, k, x, c')) Q v
  | [] => ∀ k x c', cursor_dbi c' = dbi → wp (f (MDBX_NOTFOUND, k, x, c')) Q v
  end →
  wp (cursor_get c op key ≫= f) Q v.
Proof.
  intros [Hb Hd] Hc Hw HE HQ. apply wp_bind. intros s Hs. left. subst v dbi.
  destruct (mdbx_cursor_get s c op key) as [[[rc k] x] c'] eqn:E. unfold dup_ahead in HQ.
  destruct (dup_cursor_get _ _ _ _ _ _ _ _ _ _ _ E (bound_table _ _ _ _ Hb) Hd Hw)
    as [He|(Hc' & [(-> & Hf & Hi)|(-> & Hn)])]; [by apply HE| |]; cbn [dv_flags dv_recs] in *.
  - erewrite recs_where_first in HQ by eauto using cursor_range_up. destruct Hf as (Hx & _).
    apply HQ; [done|done|done| |].
    + destruct (dup_item fl w _ Hd _ _ Hx) as (k' & E' & Hk'). by apply (inj2 (item fl)) in E' as [-> _].
    + unfold dup_ahead. rewrite Hi. by apply recs_where_ext.
  - erewrite (proj2 (recs_where_nil _ _)) in HQ by exact Hn. by apply HQ.
Qed.

(** The pairs of a list of records. *)
Definition dup_pairs (l : list (bytes * bytes)) : list (bytes * bytes) :=
  (fun p => (default [] (fst <$> item_pair fl p.1), p.2)) <$> l.

Lemma dup_pairs_cons k x l : dup_pairs ((item fl k x, x) :: l) = (k, x) :: dup_pairs l.
Proof. unfold dup_pairs. rewrite fmap_cons. cbn [fst snd]. by rewrite item_pair_item. Qed.

Lemma wp_dup_scan_loop {St} (body : St → bytes → bytes → result (St * bool)) context fuel c op key st Q v :
  dup_bound v dbi name fl w → cursor_dbi c = dbi → (op = MDBX_SET_RANGE → dup_fits fl w key) →
  (length (dup_ahead (recs v name) c op key) < fuel)%nat →
  Q (fold_recs body st (dup_pairs (dup_ahead (recs v name) c op key))) v →
  wp (scan_loop body context fuel c op key st) Q v.
Proof.
  intros Hb. revert c op key st. induction fuel as [|fuel IH]; intros c op key st Hc Hw Hf HQ; [lia|].
  eapply wp_dup_move; [done..|intros; engine_error_case|]. destruct (dup_ahead (recs v name) c op key) as [|[b x] rest] eqn:Ea.
  { intros. by apply wp_ret. }
  intros k c' -> [Hc' Hi] _ _ Hr. rewrite dup_pairs_cons in HQ. cbn [fold_recs] in HQ. apply wp_lift_bind.
  destruct (body st k x) as [[st' []]|e]; cbn [mbind result_bind] in HQ |- *; [|by apply wp_ret|done].
  apply IH; [done|done|rewrite <- Hr; cbn in Hf; lia|by rewrite <- Hr].
Qed.

Lemma wp_dup_scan {St} (body : St → bytes → bytes → result (St * bool)) octx context fuel op key st Q v :
  dup_bound v dbi name fl w → (op = MDBX_SET_RANGE → dup_fits fl w key) → (size (recs v name) < fuel)%nat →
  Q (fold_recs body st (dup_pairs (recs_where (recs v name) (scan_range op (bucket_of fl key))))) v →
  wp (scan fuel dbi op key body octx context st) Q v.
Proof.
  intros Hb Hw Hf HQ. apply wp_dup_open; [done|]. intros c Hc Hi.
  apply wp_dup_scan_loop; [done..| |]; unfold dup_ahead; rewrite Hi; [|done].
  eapply Nat.le_lt_trans; [apply recs_where_length|done].
Qed.

(** A walk that keeps [I], stated of the values that are left: the body may change the
    state and the table, but not the values behind the cursor. *)
Section Walk.
Context {St : Type} (body : St → cursor → bytes → M (St * cursor * bool)) (context : string) (key : bytes).
Context (I : list bytes → St → db_view → Prop) (Q : result St → db_view → Prop).
Context (HI : ∀ l st v, I l st v → dup_bound v dbi name fl w).
Context (Hbody : ∀ x rest st c v,
  I (x :: rest) st v → on_value c dbi fl key x → rest = values_after fl (recs v name) key x →
  wp (body st c x) (fun r v' =>
    match r with
    | Ok (st', c', true) => on_value c' dbi fl key x ∧ I rest st' v' ∧ rest = values_after fl (recs v' name) key x
    | Ok (st', _, false) => Q (Ok st') v'
    | Throw e => Q (Throw e) v'
    end) v).
Context (Hend : ∀ st v, I [] st v → Q (Ok st) v).

Lemma wp_bucket_loop fuel c x rest st v :
  I (x :: rest) st v → on_value c dbi fl key x → rest = values_after fl (recs v name) key x →
  (length rest < fuel)%nat → wp (bucket_loop body context fuel c x st) Q v.
Proof.
  revert c x rest st v. induction fuel as [|fuel IH]; intros c x rest st v Hi Hc Hr Hf; [lia|].
  apply wp_bind. eapply wp_mono; [by apply Hbody with (rest := rest)|].
  intros [[[st' c'] []]|e] v' H; [|by apply wp_ret|done]. destruct H as (Hc' & Hi' & Hr').
  eapply wp_next_dup; [by eapply HI|done|intros; engine_error_case|]. rewrite <- Hr'.
  destruct rest as [|y rest]; [intros; by apply wp_ret, Hend|]. intros c2 Hc2 Hr2. apply (IH c2 y rest); [done..|].
  cbn in Hf. lia.
Qed.

Lemma wp_walk_key fuel c sctx st v :
  cursor_dbi c = dbi → dup_fits fl w key → I (values fl (recs v name) key) st v → (size (recs v name) < fuel)%nat →
  wp (walk_key body context fuel c key sctx st) Q v.
Proof.
  intros Hc Hw Hi Hf. pose proof (HI _ _ _ Hi) as Hb.
  apply wp_set_key; [done..|intros; engine_error_case|]. pose proof (values_length fl (recs v name) key) as Hl.
  destruct (values fl (recs v name) key) as [|x rest] eqn:E; [intros; by apply wp_ret, Hend|].
  intros c' Hc' Hr. apply wp_ret_bind. apply (wp_bucket_loop _ _ _ rest); [done..|]. cbn in Hl. lia.
Qed.

Lemma wp_walk_bucket fuel octx sctx st v :
  dup_fits fl w key → I (values fl (recs v name) key) st v → (size (recs v name) < fuel)%nat →
  wp (walk_bucket body context fuel dbi key octx sctx st) Q v.
Proof.
  intros Hw Hi Hf. apply wp_dup_open; [by eapply HI|]. intros c Hc _. by apply wp_walk_key.
Qed.
End Walk.

(** ** The other moves of a cursor on a value *)

Lemma wp_last_dup {A} c key x0 (f : Z * bytes * bytes * cursor → M A) Q v :
  dup_bound v dbi name fl w → on_value c dbi fl key x0 → recs v name !! item fl key x0 = Some x0 →
  (∀ rc k x c', engine_error rc → wp (f (rc, k, x, c')) Q v) →
  (∀ x c', last (values fl (recs v name) key) = Some x → on_value c' dbi fl key x → wp (f (MDBX_SUCCESS, key, x, c')) Q v) →
  wp (cursor_get_dup c MDBX_LAST_DUP [] ≫= f) Q v.
Proof.
  intros [Hb Hd] [Hc Hp] Hx0 HE HQ. apply wp_bind. intros s Hs. left. subst v dbi.
  destruct (mdbx_cursor_get_dup s c MDBX_LAST_DUP []) as [[[rc k] x] c'] eqn:E.
  destruct (dup_cursor_get_dup _ _ _ _ key x0 _ _ _ _ _ _ _ E (bound_table _ _ _ _ Hb) Hd)
    as [He|(Hc' & [(-> & Hf & Hi)|(-> & Hn)])]; [done|done|by eexists|by apply HE| |]; cbn [dv_flags dv_recs] in *.
  - rewrite decide_True in Hf by done. destruct Hf as (Hx & Hk & Hmax). cbn [dup_range] in *.
    apply in_bucket_item in Hk as <-. apply HQ; [|done].
    assert (x ∈ values fl (recs (view s) name) key) as Hin by (by apply (elem_of_values fl w _ Hd)).
    pose proof (values_sorted fl w _ Hd key) as Hsort.
    destruct (values fl (recs (view s) name) key) as [|y l _] eqn:Ev using rev_ind; [by apply elem_of_nil in Hin|].
    rewrite last_snoc. f_equal. apply elem_of_app in Hin as [Hin|Hin]; [|by apply list_elem_of_singleton in Hin].
    exfalso. apply StronglySorted_app in Hsort as (Hlt & _). specialize (Hlt x y Hin ltac:(left)).
    assert (y ∈ values fl (recs (view s) name) key) as Hy%(elem_of_values fl w _ Hd) by (rewrite Ev; set_solver).
    apply Hmax in Hy; [|by apply in_bucket_item]. unfold bytes_le in Hy. rewrite item_compare_value in Hy.
    apply bytes_nle_lt in Hlt. by apply Hlt.
  - exfalso. apply (Hn _ _ Hx0). by apply in_bucket_item.
Qed.

Lemma wp_cursor_count {A} c key x0 (f : Z * Z → M A) Q v :
  dup_bound v dbi name fl w → on_value c dbi fl key x0 → recs v name !! item fl key x0 = Some x0 →
  (∀ rc n, engine_error rc → wp (f (rc, n)) Q v) →
  wp (f (MDBX_SUCCESS, Z.of_nat (length (values fl (recs v name) key)))) Q v →
  wp (cursor_count c ≫= f) Q v.
Proof.
  intros [Hb Hd] [Hc Hp] Hx0 HE HQ. apply wp_bind. intros s Hs. left. subst v dbi.
  destruct (mdbx_cursor_count s c) as [rc n] eqn:E.
  destruct (dup_cursor_count _ _ _ _ _ _ _ _ _ E (bound_table _ _ _ _ Hb) Hd Hp) as [He|(-> & ->)]; [by eexists|by apply HE|].
  unfold values in HQ. by rewrite length_fmap in HQ.
Qed.

Lemma wp_dup_cmp {A} a b (f : Z → M A) Q v :
  dup_bound v dbi name fl w → dup_fits fl w a → dup_fits fl w b →
  (∀ o, (o > 0 ↔ bytes_compare (dup_sort_key fl a) (dup_sort_key fl b) = Gt) →
        (o < 0 ↔ bytes_compare (dup_sort_key fl a) (dup_sort_key fl b) = Lt) → wp (f o) Q v) →
  wp (cmp dbi a b ≫= f) Q v.
Proof.
  intros [Hb Hd] Ha Hfb HQ. apply wp_bind. intros s Hs. left. subst v.
  destruct (dup_cmp s dbi name _ w a b (bound_table _ _ _ _ Hb) (dt_keys _ _ Hd) Ha Hfb). by apply HQ.
Qed.

(** The records a backward move may reach; the one it reaches is the last. *)
Definition dup_behind (m : gmap bytes bytes) (c : cursor) (op : back_op) : list (bytes * bytes) :=
  recs_where m (back_range op (cursor_item c)).

Lemma wp_dup_back {A} c op (f : Z * bytes * bytes * cursor → M A) Q v :
  dup_bound v dbi name fl w → cursor_dbi c = dbi →
  (∀ rc k x c', engine_error rc → wp (f (rc, k, x, c')) Q v) →
  (∀ rest k x c', dup_behind (recs v name) c op = rest ++ [(item fl k x, x)] → on_value c' dbi fl k x →
     rest = dup_behind (recs v name) c' MDBX_PREV → wp (f (MDBX_SUCCESS, k, x, c')) Q v) →
  (dup_behind (recs v name) c op = [] → ∀ k x c', wp (f (MDBX_NOTFOUND, k, x, c')) Q v) →
  wp (cursor_get_back c op ≫= f) Q v.
Proof.
  intros [Hb Hd] Hc HE HQ HN. apply wp_bind. intros s Hs. left. subst v dbi.
  destruct (mdbx_cursor_get_back s c op) as [[[rc k] x] c'] eqn:E. unfold dup_behind in *.
  destruct (dup_cursor_get_back _ _ _ _ _ _ _ _ _ _ E (bound_table _ _ _ _ Hb) Hd)
    as [He|(Hc' & [(-> & Hf & Hi)|(-> & Hn)])]; [by apply HE| |]; cbn [dv_flags dv_recs] in *.
  - eapply HQ; [eapply recs_where_last; eauto using back_range_down|done|]. rewrite Hi. by apply recs_where_ext.
  - apply HN. by apply recs_where_nil.
Qed.

(** The first record behind the bucket the cursor is in. *)
Lemma wp_next_nodup {A} c key x0 (f : Z * bytes * bytes * cursor → M A) Q v :
  dup_bound v dbi name fl w → on_value c dbi fl key x0 →
  (∀ rc k x c', engine_error rc → wp (f (rc, k, x, c')) Q v) →
  match recs_where (recs v name) (fun b => ¬ in_bucket fl key b ∧ bytes_lt (item fl key x0) b) with
  | (b, x) :: _ => ∀ k c', b = item fl k x → wp (f (MDBX_SUCCESS, k, x, c')) Q v
  | [] => ∀ k x c', wp (f (MDBX_NOTFOUND, k, x, c')) Q v
  end →
  wp (cursor_get_dup c MDBX_NEXT_NODUP [] ≫= f) Q v.
Proof.
  intros [Hb Hd] [Hc Hp] HE HQ. apply wp_bind. intros s Hs. left. subst v dbi.
  destruct (mdbx_cursor_get_dup s c MDBX_NEXT_NODUP []) as [[[rc k] x] c'] eqn:E.
  destruct (dup_cursor_get_dup _ _ _ _ key x0 _ _ _ _ _ _ _ E (bound_table _ _ _ _ Hb) Hd)
    as [He|(Hc' & [(-> & Hf & Hi)|(-> & Hn)])]; [done..|by apply HE| |]; cbn [dv_flags dv_recs dup_range] in *.
  - rewrite decide_False in Hf by done. rewrite (recs_where_from_first _ _ _ _ Hf) in HQ. by apply HQ.
  - rewrite (proj2 (recs_where_nil _ _) Hn) in HQ. apply HQ.
Qed.
End Table.
End Rules.
