(* ===== verification/Clients.v ===== *)
(** * Clients of a table

    A table class is specified by what its methods do to an abstract content: a relation
    between the content before, the result and the content after.  [refines] says that code
    running in a transaction implements such a relation, and [client_refines] lifts it from
    the methods of a class to any program that calls them.

    [rep v n σ] says that the tables of [v] hold [σ] with room for [n] more entries; a method
    uses up as much of it as it may write. *)
From S2P Require Import Prelude Mdbx.
Open Scope Z_scope.

(** What the client calls next may depend on what the calls returned; an exception ends it. *)
Inductive client {C : Type → Type} {R : Type} : Type :=
  | Return (r : R)
  | Invoke {A : Type} (c : C A) (k : A → client).
Arguments client : clear implicits.

Definition Rel (S A : Type) : Type := S → result A → S → Prop.

Section Relations.
Context {S : Type}.

(** A relation of the content and the result of a method that writes nothing. *)
Definition reads {A} (P : S → result A → Prop) : Rel S A := fun σ r σ' => P σ r ∧ σ' = σ.
Definition gives {A} (f : S → A) : Rel S A := reads (fun σ r => r = Ok (f σ)).
(** One that has a single outcome. *)
Definition does {A} (f : S → result A * S) : Rel S A := fun σ r σ' => f σ = (r, σ').
Definition then_ {A B} (p : Rel S A) (q : A → Rel S B) : Rel S B := fun σ r σ' =>
  (∃ e, p σ (Throw e) σ' ∧ r = Throw e) ∨ ∃ x σ1, p σ (Ok x) σ1 ∧ q x σ1 r σ'.
End Relations.

Section Clients.
Context {X : Mdbx} {L : MdbxLaws X} {C : Type → Type} {S R : Type}.
Context (run : ∀ A, C A → M A) (spec : ∀ A, C A → Rel S A).

Fixpoint run_client (p : client C R) : M R :=
  match p with
  | Return r => mret r
  | Invoke c k => x ← run _ c; run_client (k x)
  end.

Fixpoint client_spec (p : client C R) : Rel S R :=
  match p with
  | Return r => fun σ r' σ' => r' = Ok r ∧ σ' = σ
  | Invoke c k => then_ (spec _ c) (fun x => client_spec (k x))
  end.

Context (ok : ∀ A, C A → Prop) (cost : ∀ A, C A → nat).

(** The calls of the client are [ok] and cost at most [n]. *)
Fixpoint client_within (p : client C R) (n : nat) : Prop :=
  match p with
  | Return _ => True
  | Invoke c k => ok _ c ∧ (cost _ c ≤ n)%nat ∧ ∀ x, client_within (k x) (n - cost _ c)
  end.
End Clients.

Section Refinement.
Context {X : Mdbx} {L : MdbxLaws X} {S : Type} (rep : db_view → nat → S → Prop) (kept : relation db_view).
Context `{!PreOrder kept}.

Definition refines {A} (cost : nat) (m : M A) (p : Rel S A) : Prop :=
  ∀ v n σ, rep v (cost + n) σ → wp m (fun r v' => ∃ σ', p σ r σ' ∧ rep v' n σ' ∧ kept v v') v.

Lemma refines_weaken {A} cost (m : M A) (p q : Rel S A) :
  refines cost m p → (∀ σ r σ', p σ r σ' → q σ r σ') → refines cost m q.
Proof. intros H Hpq v n σ Hr. eapply wp_mono; [by apply H|]. naive_solver. Qed.

Lemma rel_refines_bind {A B} a b (m : M A) (f : A → M B) p q :
  (∀ v n n' σ, (n' ≤ n)%nat → rep v n σ → rep v n' σ) →
  refines a m p → (∀ x, refines b (f x) (q x)) → refines (a + b) (m ≫= f) (then_ p q).
Proof.
  intros Hmono Hm Hf v n σ Hr. apply wp_bind. eapply wp_mono; [apply Hm; by rewrite <- Nat.add_assoc in Hr|].
  intros [x|e] v' (σ1 & Hp & Hr1 & Hk).
  - eapply wp_mono; [by apply Hf|]. intros r v2 (σ2 & Hq & Hr2 & Hk2). exists σ2. split; [right; by eauto|].
    split; [done|by etrans].
  - exists σ1. split; [left; by eauto|]. split; [|done]. eapply Hmono; [|done]. lia.
Qed.

Lemma rel_refines_ret {A} (x : A) p : (∀ σ, p σ (Ok x) σ) → refines 0 (mret x) p.
Proof. intros Hp v n σ Hr. apply wp_ret. by exists σ. Qed.

Context {C : Type → Type} {R : Type} (run : ∀ A, C A → M A) (spec : ∀ A, C A → Rel S A).
Context (ok : ∀ A, C A → Prop) (cost : ∀ A, C A → nat).
Context (Hcall : ∀ A (c : C A), ok _ c → refines (cost _ c) (run _ c) (spec _ c)).
Context (Hmono : ∀ v n n' σ, (n' ≤ n)%nat → rep v n σ → rep v n' σ).

Lemma client_refines (p : client C R) n v σ :
  client_within ok cost p n → rep v n σ →
  wp (run_client run p) (fun r v' => ∃ σ', client_spec spec p σ r σ' ∧ rep v' 0 σ' ∧ kept v v') v.
Proof.
  revert n v σ. induction p as [r|A c k IH]; intros n v σ Hw Hr.
  - apply wp_ret. exists σ. split; [done|]. split; [|done]. eapply Hmono; [|done]. lia.
  - destruct Hw as (Hok & Hle & Hw). apply wp_bind. replace n with (cost _ c + (n - cost _ c))%nat in Hr by lia.
    eapply wp_mono; [by eapply Hcall|]. intros [x|e] v' (σ1 & Hp & Hr1 & Hk).
    + eapply wp_mono; [by eapply IH|]. intros r v2 (σ2 & Hq & Hr2 & Hk2). exists σ2. split; [right; by eauto|].
      split; [done|by etrans].
    + exists σ1. split; [left; by eauto|]. split; [|done]. eapply Hmono; [|done]. lia.
Qed.
End Refinement.
