(* ===== verification/StoreBase.v ===== *)
(** * What the system stores share

    Every store of [src/include/mdbx_containers/sync/stores] is an object with an
    environment pointer, a table name, a handle and an open flag; its methods first check
    the transaction and the flag.  This file has that object and its three ways of
    opening, with their weakest preconditions. *)
From S2P Require Import Prelude Mdbx.
Open Scope Z_scope.

Record store : Type := { m_env : Z; m_dbi_name : bytes; m_dbi : Z; m_open : bool }.

Definition new_store (env : Z) (name : bytes) : store :=
  {| m_env := env; m_dbi_name := name; m_dbi := 0; m_open := false |}.

Definition store_table (st : store) : bytes := c_str (m_dbi_name st).

Definition opened_at (st : store) (dbi : Z) : store :=
  {| m_env := m_env st; m_dbi_name := m_dbi_name st; m_dbi := dbi; m_open := true |}.

Definition reset_open (st : store) : store :=
  {| m_env := m_env st; m_dbi_name := m_dbi_name st; m_dbi := m_dbi st; m_open := false |}.

Section Code.
Context {X : Mdbx}.

Definition checked_txn (st : store) (context : string) : M unit :=
  checked_txn_env (m_env st) context.

Definition ensure_open (st : store) (what : string) : M unit :=
  if negb (m_open st) then fail (logic_error what) else mret tt.

(** [checked_txn(txn, context); ensure_open();] *)
Definition enter (st : store) (context what : string) : M unit :=
  _ ← checked_txn st context; ensure_open st what.

(** Creates the table, or opens it plainly in a read-only transaction. *)
Definition store_open (st : store) (context what : string) : M store :=
  _ ← checked_txn st context;
  if m_open st then mret st
  else dbi ← open_create (store_table st) what; mret (opened_at st dbi).

(** Creates the table. *)
Definition store_create (st : store) (context what : string) : M store :=
  _ ← checked_txn st context;
  if m_open st then mret st
  else dbi ← open_create_only (store_table st) what; mret (opened_at st dbi).

(** Opens the table if it exists. *)
Definition store_open_existing (st : store) (context what : string) : M (store * bool) :=
  _ ← checked_txn st context;
  if m_open st then mret (st, true)
  else
    found ← open_plain (store_table st) what;
    match found with
    | None => mret (st, false)
    | Some dbi => mret (opened_at st dbi, true)
    end.
End Code.

(** The store is usable in a transaction with view [v]. *)
Definition ready (v : db_view) (st : store) : Prop :=
  m_open st = true ∧ m_env st = v_env v ∧ bound v (m_dbi st) (store_table st) 0.

Lemma ready_ext v v' st : v_ext v v' → ready v st → ready v' st.
Proof.
  intros He (Ho & Henv & Hb). split_and!; [done| |by eapply bound_ext].
  by rewrite (ext_env _ _ He).
Qed.

Lemma ready_update v st n f : ready v st → ready (v_update v n f) st.
Proof. intros (Ho & Henv & Hb). split_and!; [done..|]. by apply bound_update. Qed.

Lemma ready_frame ns v v' st : v_frame ns v v' → ready v st → ready v' st.
Proof.
  intros Hf (Ho & Henv & Hb). split_and!; [done| |by eapply bound_frame].
  by rewrite (fr_env _ _ _ Hf).
Qed.

#[export] Hint Resolve ready_ext ready_update ready_frame : mdbxc.

Section Rules.
Context {X : Mdbx} {L : MdbxLaws X}.

Lemma wp_enter {A} (f : unit → M A) st context what Q v :
  ready v st → wp (f tt) Q v → wp (enter st context what ≫= f) Q v.
Proof.
  intros (Ho & Henv & _) HQ. unfold enter. apply wp_assoc, wp_bind, wp_checked_txn; [done|].
  unfold ensure_open. rewrite Ho. by apply wp_ret_bind.
Qed.

(** A successful open: the store is ready and nothing but handles and empty tables is new. *)
Definition opened (v : db_view) (st st' : store) (v' : db_view) : Prop :=
  v_ext v v' ∧ ready v' st' ∧ store_table st' = store_table st ∧
  ∀ n, n ≠ store_table st → v_dbs v' !! n = v_dbs v !! n.

Lemma opens_opened v st dbi v' :
  m_env st = v_env v → opens v (store_table st) dbi v' → opened v st (opened_at st dbi) v'.
Proof.
  intros Henv (_ & He & Hb & Ev & _). split_and!; [done| |done|].
  - split_and!; [done| |done]. simpl. by rewrite (ext_env _ _ He).
  - intros n Hn. rewrite Ev. simpl. by rewrite lookup_insert_ne.
Qed.

Lemma wp_store_open st context what Q v :
  m_open st = false → m_env st = v_env v → sys_table v (store_table st) →
  v_rw v = true ∨ is_Some (v_dbs v !! store_table st) →
  (∀ st' v', opened v st st' v' → Q (Ok st') v') →
  wp (store_open st context what) Q v.
Proof.
  intros Ho Henv Hs Hrw HQ. apply wp_bind, wp_checked_txn; [done|]. rewrite Ho.
  apply wp_bind, wp_open_create; [done|..].
  - intros dbi v' Hv. apply wp_ret, HQ. by apply opens_opened.
  - intros H1 H2. exfalso. destruct Hrw as [|[??]]; congruence.
Qed.

Lemma wp_store_create st context what Q v :
  m_open st = false → m_env st = v_env v → sys_table v (store_table st) → v_rw v = true →
  (∀ st' v', opened v st st' v' → Q (Ok st') v') →
  wp (store_create st context what) Q v.
Proof.
  intros Ho Henv Hs Hrw HQ. apply wp_bind, wp_checked_txn; [done|]. rewrite Ho.
  apply wp_bind, wp_open_create_only; [done..|].
  intros dbi v' Hv. apply wp_ret, HQ. by apply opens_opened.
Qed.

Lemma wp_store_open_existing st context what Q v :
  m_open st = false → m_env st = v_env v → sys_table v (store_table st) →
  (v_dbs v !! store_table st = None → Q (Ok (st, false)) v) →
  (is_Some (v_dbs v !! store_table st) →
     ∀ st' v', opened v st st' v' → Q (Ok (st', true)) v') →
  wp (store_open_existing st context what) Q v.
Proof.
  intros Ho Henv Hs HN HS. apply wp_bind, wp_checked_txn; [done|]. rewrite Ho.
  apply wp_bind, wp_open_plain; [done|..].
  - intros Hn. apply wp_ret. auto.
  - intros Hn dbi v' Hv. apply wp_ret, HS; [done|]. by apply opens_opened.
Qed.
End Rules.

(** ** Deleting walks

    [rc = cursor_get(op); while (rc == MDBX_SUCCESS) { if (stop(k)) break;
    rc = cursor_del(); on_del(rc); ++removed; rc = cursor_get(NEXT); }] with the final
    check of [rc]; [on_del] returns [false] to leave the loop. *)
Section DeleteLoop.
Context {X : Mdbx} (stop : bytes → M bool) (on_del : Z → M bool) (context : string).

Fixpoint delete_loop (fuel : nat) (c : cursor) (op : cursor_op) (key : bytes) (removed : Z) : M Z :=
  match fuel with
  | O => fail out_of_fuel
  | S n =>
      '(rc, k, x, c1) ← cursor_get c op key;
      if rc =? MDBX_SUCCESS then
        stopped ← stop k;
        if stopped : bool then mret removed
        else
          '(rc, c2) ← cursor_del c1;
          go ← on_del rc;
          if go : bool then delete_loop n c2 MDBX_NEXT [] (removed + 1) else mret removed
      else if rc =? MDBX_NOTFOUND then mret removed
      else _ ← check_mdbx rc context; mret removed
  end.
End DeleteLoop.

(** The keys deleted by a walk over the records [l], and the table without them. *)
Fixpoint deleted_keys (stopb : bytes → bool) (l : list (bytes * bytes)) : list bytes :=
  match l with
  | [] => []
  | (k, _) :: l' => if stopb k then [] else k :: deleted_keys stopb l'
  end.

Definition delete_keys (ks : list bytes) (m : gmap bytes bytes) : gmap bytes bytes :=
  foldr delete m ks.

Lemma delete_keys_snoc k ks m : delete_keys ks (delete k m) = delete_keys (k :: ks) m.
Proof.
  unfold delete_keys. simpl. induction ks as [|a ks IH]; [done|]. simpl.
  rewrite IH. apply delete_delete.
Qed.

Lemma lookup_delete_keys ks m k :
  delete_keys ks m !! k = if decide (k ∈ ks) then None else m !! k.
Proof.
  induction ks as [|a ks IH]; [done|]. unfold delete_keys in *. simpl.
  destruct (decide (a = k)) as [->|Hne].
  - rewrite lookup_delete_eq. by rewrite decide_True by left.
  - rewrite lookup_delete_ne, IH by done. apply decide_ext. rewrite elem_of_cons. naive_solver.
Qed.

(** A walk that stops for good at the first key past a bound deletes the keys below it. *)
Lemma elem_of_deleted_keys stopb l k :
  StronglySorted rec_lt l →
  (∀ a b, a ∈ l.*1 → b ∈ l.*1 → stopb a = true → bytes_lt a b → stopb b = true) →
  k ∈ deleted_keys stopb l ↔ k ∈ l.*1 ∧ stopb k = false.
Proof.
  induction 1 as [|[a x] l Hl IH Ha]; intros Hst; simpl; [set_solver|].
  rewrite Forall_forall in Ha. destruct (stopb a) eqn:E.
  - split; [by intros ?%elem_of_nil|]. intros [[->|Hk]%elem_of_cons Hf]; [congruence|].
    assert (stopb k = true); [|congruence]. eapply (Hst a); [by left|by right|done|].
    apply list_elem_of_fmap in Hk as ([k' x'] & -> & Hk). by apply (Ha (k', x')).
  - rewrite !elem_of_cons, IH; [naive_solver|]. intros b c Hb Hc. apply Hst; by right.
Qed.

Lemma deleted_keys_NoDup stopb l : StronglySorted rec_lt l → NoDup (deleted_keys stopb l).
Proof.
  induction 1 as [|[a x] l Hl IH Ha]; simpl; [constructor|].
  destruct (stopb a); [constructor|]. constructor; [|done]. intros Hin.
  assert (a ∈ l.*1) as Hin'.
  { clear -Hin. induction l as [|[b y] l IH]; simpl in *; [by apply elem_of_nil in Hin|].
    destruct (stopb b); [by apply elem_of_nil in Hin|].
    apply elem_of_cons in Hin as [->|Hin]; [by left|right; auto]. }
  apply list_elem_of_fmap in Hin' as ([k' x'] & -> & Hk).
  rewrite Forall_forall in Ha. apply Ha in Hk. by apply bytes_lt_irrefl in Hk.
Qed.

Section DeleteRules.
Context {X : Mdbx} {L : MdbxLaws X}.

Lemma wp_delete_loop stop on_del context stopb name op fuel c key removed Q v :
  (∀ v' k, v_only name v v' → wp (stop k) (fun r w => r = Ok (stopb k) ∧ w = v') v') →
  (∀ v', wp (on_del MDBX_SUCCESS) (fun r w => r = Ok true ∧ w = v') v') →
  (∀ rc v' (Q : result bool → db_view → Prop), engine_error rc → wp (on_del rc) Q v') →
  bound v (cursor_dbi c) name 0 → v_rw v = true →
  let l := recs_where (recs v name) (cursor_range op (cursor_key c) key) in
  (length l < fuel)%nat →
  (∀ v', v_only name v v' → recs v' name = delete_keys (deleted_keys stopb l) (recs v name) →
     Q (Ok (removed + Z.of_nat (length (deleted_keys stopb l)))) v') →
  wp (delete_loop stop on_del context fuel c op key removed) Q v.
Proof.
  intros Hstop Hdel Herr Hb Hrw. revert c op key removed v Hstop Hb Hrw.
  induction fuel as [|fuel IH]; intros c op key removed v Hstop Hb Hrw l Hf HQ; [lia|].
  apply wp_bind. intros s Hs. left. subst v.
  destruct (mdbx_cursor_get s c op key) as [[[rc k] x] c1] eqn:E. subst l.
  destruct (law_cursor_get _ _ _ _ _ _ _ _ _ _ E (bound_table _ _ _ _ Hb) eq_refl)
    as [He|(Hc & [(-> & Hfst & Hk)|(-> & Hno)])]; cbn [dv_recs] in *.
  - engine_error_case.
  - pose proof Hfst as (Hx & _). erewrite recs_where_first in Hf, HQ by eauto using cursor_range_up.
    simpl in *. apply wp_bind. eapply wp_mono; [by apply Hstop|].
    intros r w [-> ->]. destruct (stopb k).
    { apply wp_ret. rewrite <- (Z.add_0_r removed). by apply HQ. }
    apply wp_bind. intros s1 Hs1. unfold cursor_del.
    destruct (mdbx_cursor_del s1 c1) as [[rc s2] c2] eqn:Ed. left. rewrite <- Hs1 in *.
    rewrite <- Hc in Hb.
    destruct (law_cursor_del _ _ _ _ _ _ _ _ Ed (bound_table _ _ _ _ Hb) eq_refl Hrw Hk ltac:(by eauto))
      as [He|(-> & Hv2 & Hc2 & Hk2)]; [by apply wp_bind, Herr|].
    apply wp_bind. eapply wp_mono; [apply Hdel|]. intros r w [-> ->].
    assert (v_only name (view s1) (view s2)) as Hon by (rewrite Hv2; apply v_only_update).
    assert (recs (view s2) name = delete k (recs (view s1) name)) as Hr2.
    { rewrite Hv2, recs_update by by eapply bound_is_Some. by rewrite decide_True. }
    assert (recs_where (recs (view s2) name) (cursor_range MDBX_NEXT (Some k) []) =
            recs_where (recs (view s1) name) (bytes_lt k)) as Hl.
    { apply strict_sorted_unique; [apply recs_where_sorted..|]. intros [k' x'].
      rewrite !elem_of_recs_where, Hr2. simpl. rewrite lookup_delete_Some.
      split; [naive_solver|]. intros [Hlt ?]. split_and!; [done| |done].
      intros ->. by eapply bytes_lt_irrefl. }
    apply IH.
    + intros v' k' Hv'. apply Hstop. by etrans.
    + rewrite Hc2. rewrite Hv2. by apply bound_update.
    + by rewrite (only_rw _ _ _ Hon).
    + rewrite Hk2, Hl. lia.
    + rewrite Hk2, Hl. intros v' Hv' Hr'. rewrite Hr2, delete_keys_snoc in Hr'.
      replace (removed + 1 + _) with (removed + Z.of_nat (S (length (deleted_keys stopb
        (recs_where (recs (view s1) name) (bytes_lt k)))))) by lia.
      apply HQ; [by etrans|done].
  - apply (recs_where_nil _ (cursor_range op (cursor_key c) key)) in Hno. rewrite Hno in *.
    apply wp_ret. rewrite <- (Z.add_0_r removed). by apply HQ.
Qed.
End DeleteRules.

Section Reopen.
Context {X : Mdbx} {L : MdbxLaws X}.

(** Opening a store that is closed or already usable. *)
Definition openable (v : db_view) (st : store) : Prop :=
  m_env st = v_env v ∧ sys_table v (store_table st) ∧ (m_open st = true → ready v st).

Lemma wp_reopen st context what Q v :
  openable v st → v_rw v = true ∨ is_Some (v_dbs v !! store_table st) →
  (∀ st' v', opened v st st' v' → Q (Ok st') v') →
  wp (store_open st context what) Q v.
Proof.
  intros (Henv & Hs & Ho) Hrw HQ. destruct (m_open st) eqn:E.
  - apply wp_bind, wp_checked_txn; [done|]. rewrite E. apply wp_ret, HQ. split_and!; [done|auto|done..].
  - by apply wp_store_open.
Qed.

Lemma ready_openable v st : ready v st → openable v st.
Proof.
  intros (Ho & Henv & Hb). split_and!; [done| |done]. destruct Hb as (_ & d & Hd & Hf).
  unfold sys_table, table. by rewrite Hd.
Qed.

Lemma openable_frame ns v v' st : v_frame ns v v' → openable v st → openable v' st.
Proof.
  intros Hf (Henv & Hs & Ho). split_and!.
  - by rewrite (fr_env _ _ _ Hf).
  - by eapply sys_frame.
  - intros ?. eapply ready_frame; eauto.
Qed.
End Reopen.
