(* ===== verification/MetaStore.v ===== *)
(** * MetaStore

    Models [src/include/mdbx_containers/sync/stores/MetaStore.hpp]: five fixed-width
    records (database id, node id, schema version, local sequence number, creation time)
    in the table [_mdbxc_meta].  The refinement theorem shows that any sequence of calls
    behaves as the same sequence on a record with five fields, including the defaults for
    unset fields and the wrap-around of the sequence number. *)
From S2P Require Import Prelude SyncCommon Mdbx RefMdbx StoreBase.
Open Scope Z_scope.

Definition meta_schema_version : Z := 1.
Definition meta_name : bytes := bytes_of_string "_mdbxc_meta".

Definition key_db_uuid : byte := Byte.x01.
Definition key_node_id : byte := Byte.x02.
Definition key_schema_version : byte := Byte.x03.
Definition key_local_seq : byte := Byte.x04.
Definition key_created_at_ms : byte := Byte.x05.

(** [NodeId out{}] with the first bytes overwritten. *)
Definition fill_node (got : bytes) : NodeId := got ++ drop (length got) make_zero_node.

Section Code.
Context {X : Mdbx}.

Definition open (st : store) : M store :=
  store_open st "MetaStore::open" "Failed to open MetaStore DBI".

Definition open_existing (st : store) : M (store * bool) :=
  store_open_existing st "MetaStore::open_existing" "Failed to open existing MetaStore DBI".

(** The bytes copied to [dst]; their number is the result of the method. *)
Definition read_fixed (st : store) (key : byte) (n : nat) : M bytes :=
  _ ← enter st "MetaStore::read" "MetaStore is not open";
  found ← lookup_record (m_dbi st) [key] "MetaStore read failed";
  match found with
  | None => mret []
  | Some x => mret (take n x)
  end.

Definition write_fixed (st : store) (key : byte) (src : bytes) : M unit :=
  _ ← enter st "MetaStore::write" "MetaStore is not open";
  put_record (m_dbi st) [key] src MDBX_UPSERT "MetaStore write failed".

Definition get_db_uuid (st : store) : M NodeId :=
  got ← read_fixed st key_db_uuid 16; mret (fill_node got).
Definition set_db_uuid (st : store) (id : NodeId) : M unit := write_fixed st key_db_uuid id.

(** [None] is the result [false], with the output set to zero. *)
Definition try_get_node_id (st : store) : M (option NodeId) :=
  _ ← enter st "MetaStore::try_get_node_id" "MetaStore is not open";
  found ← lookup_record (m_dbi st) [key_node_id] "MetaStore node identity read failed";
  match found with
  | None => mret None
  | Some x =>
      if negb (length x =? 16)%nat then
        fail (runtime_error "MetaStore node identity has invalid size")
      else mret (Some x)
  end.

Definition get_node_id (st : store) : M NodeId :=
  found ← try_get_node_id st; mret (default make_zero_node found).
Definition set_node_id (st : store) (id : NodeId) : M unit := write_fixed st key_node_id id.

Definition get_schema_version (st : store) : M Z :=
  got ← read_fixed st key_schema_version 4;
  mret (if negb (length got =? 4)%nat then 0 else read_u32_le got).
Definition set_schema_version (st : store) (value : Z) : M unit :=
  write_fixed st key_schema_version (write_u32_le value).

Definition get_local_seq (st : store) : M Z :=
  got ← read_fixed st key_local_seq 8;
  mret (if negb (length got =? 8)%nat then 0 else read_u64_le got).
Definition set_local_seq (st : store) (value : Z) : M unit :=
  write_fixed st key_local_seq (write_u64_le value).

Definition increment_local_seq (st : store) : M Z :=
  cur ← get_local_seq st;
  let next := (cur + 1) mod 2 ^ 64 in
  _ ← set_local_seq st next;
  mret next.

Definition get_created_at_ms (st : store) : M Z :=
  got ← read_fixed st key_created_at_ms 8;
  mret (if negb (length got =? 8)%nat then 0 else read_u64_le got).
Definition set_created_at_ms (st : store) (value : Z) : M unit :=
  write_fixed st key_created_at_ms (write_u64_le value).
End Code.

(** ** Abstract state *)

Record meta : Type := {
  a_db_uuid : NodeId;
  a_node_id : option NodeId;
  a_schema_version : Z;
  a_local_seq : Z;
  a_created_at_ms : Z;
}.

Definition fixed (m : gmap bytes bytes) (key : byte) (n : nat) : bytes :=
  match m !! [key] with None => [] | Some x => take n x end.
Definition fixed_u32 (got : bytes) : Z := if (length got =? 4)%nat then read_u32_le got else 0.
Definition fixed_u64 (got : bytes) : Z := if (length got =? 8)%nat then read_u64_le got else 0.

(** The abstract state of the records of the table. *)
Definition meta_of (m : gmap bytes bytes) : meta := {|
  a_db_uuid := fill_node (fixed m key_db_uuid 16);
  a_node_id := m !! [key_node_id];
  a_schema_version := fixed_u32 (fixed m key_schema_version 4);
  a_local_seq := fixed_u64 (fixed m key_local_seq 8);
  a_created_at_ms := fixed_u64 (fixed m key_created_at_ms 8);
|}.

(** The node id is never written with another size. *)
Definition meta_ok (a : meta) : Prop := ∀ id, a_node_id a = Some id → node_ok id.

Inductive meta_call : Type :=
  | GetDbUuid | SetDbUuid (id : NodeId) | TryGetNodeId | GetNodeId | SetNodeId (id : NodeId)
  | GetSchemaVersion | SetSchemaVersion (n : Z) | GetLocalSeq | SetLocalSeq (n : Z)
  | IncrementLocalSeq | GetCreatedAtMs | SetCreatedAtMs (n : Z).

Inductive meta_reply : Type :=
  | RUnit | RNode (id : NodeId) | RMaybeNode (id : option NodeId) | RInt (n : Z).

(** The argument types of the C++ methods. *)
Definition call_ok (c : meta_call) : Prop :=
  match c with
  | SetDbUuid id | SetNodeId id => node_ok id
  | SetSchemaVersion n => is_u32 n
  | SetLocalSeq n | SetCreatedAtMs n => is_u64 n
  | _ => True
  end.

#[export] Instance call_ok_dec c : Decision (call_ok c).
Proof. destruct c; simpl; apply _. Defined.

Definition run_call {X : Mdbx} (st : store) (c : meta_call) : M meta_reply :=
  match c with
  | GetDbUuid => id ← get_db_uuid st; mret (RNode id)
  | SetDbUuid id => _ ← set_db_uuid st id; mret RUnit
  | TryGetNodeId => id ← try_get_node_id st; mret (RMaybeNode id)
  | GetNodeId => id ← get_node_id st; mret (RNode id)
  | SetNodeId id => _ ← set_node_id st id; mret RUnit
  | GetSchemaVersion => n ← get_schema_version st; mret (RInt n)
  | SetSchemaVersion n => _ ← set_schema_version st n; mret RUnit
  | GetLocalSeq => n ← get_local_seq st; mret (RInt n)
  | SetLocalSeq n => _ ← set_local_seq st n; mret RUnit
  | IncrementLocalSeq => n ← increment_local_seq st; mret (RInt n)
  | GetCreatedAtMs => n ← get_created_at_ms st; mret (RInt n)
  | SetCreatedAtMs n => _ ← set_created_at_ms st n; mret RUnit
  end.

Definition spec_call (c : meta_call) (a : meta) : meta_reply * meta :=
  let set_seq n := {| a_db_uuid := a_db_uuid a; a_node_id := a_node_id a;
    a_schema_version := a_schema_version a; a_local_seq := n;
    a_created_at_ms := a_created_at_ms a |} in
  match c with
  | GetDbUuid => (RNode (a_db_uuid a), a)
  | SetDbUuid id => (RUnit, {| a_db_uuid := id; a_node_id := a_node_id a;
      a_schema_version := a_schema_version a; a_local_seq := a_local_seq a;
      a_created_at_ms := a_created_at_ms a |})
  | TryGetNodeId => (RMaybeNode (a_node_id a), a)
  | GetNodeId => (RNode (default make_zero_node (a_node_id a)), a)
  | SetNodeId id => (RUnit, {| a_db_uuid := a_db_uuid a; a_node_id := Some id;
      a_schema_version := a_schema_version a; a_local_seq := a_local_seq a;
      a_created_at_ms := a_created_at_ms a |})
  | GetSchemaVersion => (RInt (a_schema_version a), a)
  | SetSchemaVersion n => (RUnit, {| a_db_uuid := a_db_uuid a; a_node_id := a_node_id a;
      a_schema_version := n; a_local_seq := a_local_seq a;
      a_created_at_ms := a_created_at_ms a |})
  | GetLocalSeq => (RInt (a_local_seq a), a)
  | SetLocalSeq n => (RUnit, set_seq n)
  | IncrementLocalSeq =>
      let n := (a_local_seq a + 1) mod 2 ^ 64 in (RInt n, set_seq n)
  | GetCreatedAtMs => (RInt (a_created_at_ms a), a)
  | SetCreatedAtMs n => (RUnit, {| a_db_uuid := a_db_uuid a; a_node_id := a_node_id a;
      a_schema_version := a_schema_version a; a_local_seq := a_local_seq a;
      a_created_at_ms := n |})
  end.

Fixpoint run_calls {X : Mdbx} (st : store) (cs : list meta_call) : M (list meta_reply) :=
  match cs with
  | [] => mret []
  | c :: cs' => r ← run_call st c; rs ← run_calls st cs'; mret (r :: rs)
  end.

Fixpoint spec_calls (cs : list meta_call) (a : meta) : list meta_reply * meta :=
  match cs with
  | [] => ([], a)
  | c :: cs' =>
      let '(r, a1) := spec_call c a in
      let '(rs, a2) := spec_calls cs' a1 in
      (r :: rs, a2)
  end.

(** ** Refinement *)

Section Refinement.
Context {X : Mdbx} {L : MdbxLaws X}.

Lemma wp_read_fixed st key n Q v :
  ready v st → Q (Ok (fixed (recs v (store_table st)) key n)) v → wp (read_fixed st key n) Q v.
Proof.
  intros Hr HQ. apply wp_enter; [done|]. destruct Hr as (_ & _ & Hb).
  apply wp_bind. eapply wp_lookup; [done..|]. unfold fixed in HQ.
  destruct (recs v _ !! [key]); by apply wp_ret.
Qed.

Lemma wp_write_fixed st key src Q v :
  ready v st → v_rw v = true →
  Q (Ok tt) (v_update v (store_table st) <[[key] := src]>) → wp (write_fixed st key src) Q v.
Proof.
  intros Hr Hrw HQ. apply wp_enter; [done|]. destruct Hr as (_ & _ & Hb). by eapply wp_put.
Qed.

Lemma fixed_insert m key key' x n :
  fixed (<[[key] := x]> m) key' n = if decide (key = key') then take n x else fixed m key' n.
Proof.
  unfold fixed. destruct (decide (key = key')) as [->|Hne].
  - by rewrite lookup_insert_eq.
  - rewrite lookup_insert_ne by congruence. done.
Qed.

Lemma fixed_u32_write n : is_u32 n → fixed_u32 (take 4 (write_u32_le n)) = n.
Proof.
  intros Hn. rewrite take_ge by (rewrite write_u32_le_length; lia). unfold fixed_u32.
  rewrite write_u32_le_length. simpl. rewrite <- (app_nil_r (write_u32_le n)).
  by apply read_write_u32_le.
Qed.

Lemma fixed_u64_write n : is_u64 n → fixed_u64 (take 8 (write_u64_le n)) = n.
Proof.
  intros Hn. rewrite take_ge by (rewrite write_u64_le_length; lia). unfold fixed_u64.
  rewrite write_u64_le_length. simpl. rewrite <- (app_nil_r (write_u64_le n)).
  by apply read_write_u64_le.
Qed.

Lemma fill_node_ok m key : node_ok (fill_node (fixed m key 16)).
Proof.
  unfold node_ok, fill_node, fixed. rewrite length_app, length_drop. change (length make_zero_node) with 16%nat.
  destruct (m !! [key]); simpl; rewrite ?length_take; lia.
Qed.

Lemma fill_node_full id : node_ok id → fill_node (take 16 id) = id.
Proof.
  intros Hid. unfold fill_node, node_ok in *. rewrite take_ge by lia.
  rewrite Hid. apply app_nil_r.
Qed.

(** Postcondition of one call against the abstract state. *)
Definition meta_post (st : store) (v : db_view) (reply : meta_reply) (a : meta)
    (r : result meta_reply) (v' : db_view) : Prop :=
  r = Ok reply ∧ meta_of (recs v' (store_table st)) = a ∧ ready v' st ∧
  v_only (store_table st) v v'.

Lemma meta_post_read st v reply :
  ready v st → meta_post st v reply (meta_of (recs v (store_table st))) (Ok reply) v.
Proof. intros Hr. by split_and!. Qed.

Lemma meta_post_write st v key src a :
  ready v st → meta_of (<[[key] := src]> (recs v (store_table st))) = a →
  ∀ reply, meta_post st v reply a (Ok reply) (v_update v (store_table st) <[[key] := src]>).
Proof.
  intros Hr Ha reply. split_and!; [done| |by apply ready_update|apply v_only_update].
  destruct Hr as (_ & _ & Hb). rewrite recs_update by by eapply bound_is_Some.
  by rewrite decide_True by done.
Qed.

Lemma wp_meta_write st key src reply a Q v :
  ready v st → v_rw v = true → meta_of (<[[key] := src]> (recs v (store_table st))) = a →
  (∀ v', meta_post st v reply a (Ok reply) v' → Q (Ok reply) v') →
  wp (_ ← write_fixed st key src; mret reply) Q v.
Proof.
  intros Hr Hrw Ha HQ. apply wp_bind, wp_write_fixed; [done..|]. apply wp_ret, HQ.
  by apply meta_post_write.
Qed.

Lemma wp_try_get_node_id st Q v :
  ready v st → meta_ok (meta_of (recs v (store_table st))) →
  Q (Ok (recs v (store_table st) !! [key_node_id])) v → wp (try_get_node_id st) Q v.
Proof.
  intros Hr Hok HQ. apply wp_enter; [done|]. destruct Hr as (_ & _ & Hb).
  apply wp_bind. eapply wp_lookup; [done..|]. unfold meta_ok in Hok. simpl in Hok.
  destruct (recs v _ !! [key_node_id]) as [x|]; [|by apply wp_ret].
  unfold node_ok in Hok. rewrite (proj2 (Nat.eqb_eq _ _)) by auto. by apply wp_ret.
Qed.

Lemma read_fixed_u64 (got : bytes) :
  (if negb (length got =? 8)%nat then 0 else read_u64_le got) = fixed_u64 got.
Proof. unfold fixed_u64. by destruct (length got =? 8)%nat. Qed.

Lemma read_fixed_u32 (got : bytes) :
  (if negb (length got =? 4)%nat then 0 else read_u32_le got) = fixed_u32 got.
Proof. unfold fixed_u32. by destruct (length got =? 4)%nat. Qed.

Lemma meta_of_insert m key x :
  meta_of (<[[key] := x]> m) = {|
    a_db_uuid := if decide (key = key_db_uuid) then fill_node (take 16 x) else a_db_uuid (meta_of m);
    a_node_id := if decide (key = key_node_id) then Some x else a_node_id (meta_of m);
    a_schema_version := if decide (key = key_schema_version) then fixed_u32 (take 4 x)
                        else a_schema_version (meta_of m);
    a_local_seq := if decide (key = key_local_seq) then fixed_u64 (take 8 x)
                   else a_local_seq (meta_of m);
    a_created_at_ms := if decide (key = key_created_at_ms) then fixed_u64 (take 8 x)
                       else a_created_at_ms (meta_of m);
  |}.
Proof.
  unfold meta_of. rewrite !fixed_insert. f_equal; try by case_decide.
  case_decide as E; [rewrite E; by rewrite lookup_insert_eq|].
  rewrite lookup_insert_ne by congruence. done.
Qed.

#[local] Ltac key_cases :=
  repeat (rewrite decide_False by done || rewrite decide_True by done).

Lemma wp_call st c v :
  ready v st → v_rw v = true → call_ok c → meta_ok (meta_of (recs v (store_table st))) →
  let '(reply, a) := spec_call c (meta_of (recs v (store_table st))) in
  wp (run_call st c) (meta_post st v reply a) v.
Proof.
  intros Hr Hrw Hc Hok.
  destruct c; cbn [spec_call run_call];
    try (eapply wp_meta_write; [done..| |done]; rewrite meta_of_insert; key_cases; f_equal;
         first [by apply fixed_u64_write | by apply fixed_u32_write | by apply fill_node_full]);
    try (apply wp_bind, wp_bind, wp_read_fixed; [done|]; apply wp_ret, wp_ret;
         rewrite ?read_fixed_u64, ?read_fixed_u32; by apply meta_post_read).
  - apply wp_bind, wp_try_get_node_id; [done..|]. apply wp_ret. by apply meta_post_read.
  - apply wp_bind, wp_bind, wp_try_get_node_id; [done..|]. apply wp_ret, wp_ret.
    by apply meta_post_read.
  - apply wp_bind, wp_bind, wp_bind, wp_read_fixed; [done|].
    apply wp_ret. rewrite read_fixed_u64.
    set (n := (a_local_seq (meta_of (recs v (store_table st))) + 1) mod 2 ^ 64).
    apply wp_bind, wp_write_fixed; [done..|]. apply wp_ret, wp_ret.
    apply meta_post_write; [done|]. rewrite meta_of_insert. key_cases. f_equal.
    apply fixed_u64_write. by apply Z.mod_pos_bound.
Qed.

Lemma meta_ok_call c a : call_ok c → meta_ok a → meta_ok (spec_call c a).2.
Proof. intros Hc Ha. destruct c; try exact Ha. intros i [= <-]. exact Hc. Qed.

(** C25: any sequence of MetaStore calls in one writable transaction returns what the same
    calls return on an abstract record of the five fields and leaves the table in the state of that
    record, and changes no other table; unset fields read as zero, and the sequence number
    increments modulo 2^64.  The only other outcome is the exception of a storage failure. *)
Theorem meta_store_refines (st : store) (cs : list meta_call) (v : db_view) :
  ready v st → v_rw v = true → Forall call_ok cs →
  meta_ok (meta_of (recs v (store_table st))) →
  let '(replies, a) := spec_calls cs (meta_of (recs v (store_table st))) in
  wp (run_calls st cs)
    (fun r v' => r = Ok replies ∧ meta_of (recs v' (store_table st)) = a ∧
       v_only (store_table st) v v') v.
Proof.
  intros Hr Hrw Hcs. revert v Hr Hrw. induction Hcs as [|c cs Hc Hcs IH]; intros v Hr Hrw Hok; simpl.
  - by apply wp_ret.
  - pose proof (wp_call st c v Hr Hrw Hc Hok) as Hcall.
    pose proof (meta_ok_call c _ Hc Hok) as Hok'.
    destruct (spec_call c _) as [reply a1].
    destruct (spec_calls cs a1) as [replies a2] eqn:E.
    apply wp_bind. eapply wp_mono; [exact Hcall|]. intros r v1 (-> & Ha1 & Hr1 & Hv1).
    assert (v_rw v1 = true) as Hrw1 by by rewrite (only_rw _ _ _ Hv1).
    specialize (IH v1 Hr1 Hrw1). rewrite Ha1, E in IH.
    apply wp_bind. eapply wp_mono; [by apply IH|]. intros r v2 (-> & Ha2 & Hv2).
    apply wp_ret. split_and!; [done..|]. by etrans.
Qed.
End Refinement.

(** A writable transaction of the reference engine in which the metadata table is open. *)
Definition sample_view : db_view := {|
  v_env := 1; v_rw := true;
  v_dbs := {[ meta_name := mk_dbi 0 {[ [key_local_seq] := write_u64_le (2 ^ 64 - 1) ]} ]};
  v_handles := {[ 2 := meta_name ]};
|}.
Definition sample_store : store := opened_at (new_store 1 meta_name) 2.
Definition sample_calls : list meta_call :=
  [GetNodeId; SetNodeId (replicate 16 Byte.x07); TryGetNodeId; IncrementLocalSeq;
   GetLocalSeq; GetDbUuid].

Lemma meta_store_refines_witness :
  let '(replies, a) := spec_calls sample_calls (meta_of (recs sample_view meta_name)) in
  replies = [RNode make_zero_node; RUnit; RMaybeNode (Some (replicate 16 Byte.x07)); RInt 0;
             RInt 0; RNode make_zero_node] ∧
  wp (X := ref_mdbx) (run_calls sample_store sample_calls)
    (fun r v' => r = Ok replies ∧ meta_of (recs v' meta_name) = a ∧
       v_only meta_name sample_view v') sample_view.
Proof.
  split; [vm_compute; reflexivity|].
  apply (meta_store_refines (X := ref_mdbx) sample_store sample_calls sample_view).
  - split_and!; [reflexivity..|]. split; [reflexivity|]. eexists. split; reflexivity.
  - reflexivity.
  - repeat constructor.
  - intros id. vm_compute. discriminate.
Defined.
