(* ===== verification/AppliedStore.v ===== *)
(** * AppliedStore

    Models [src/include/mdbx_containers/sync/stores/AppliedStore.hpp]: the last contiguous
    sequence number applied per origin, in the table [_mdbxc_applied]. *)
From S2P Require Import Prelude SyncCommon Mdbx StoreBase.
Open Scope Z_scope.

Definition applied_name : bytes := bytes_of_string "_mdbxc_applied".

Section Code.
Context {X : Mdbx}.

Definition open (st : store) : M store :=
  store_create st "AppliedStore::open" "Failed to open AppliedStore DBI".

Definition last_applied_seq (st : store) (origin : NodeId) : M Z :=
  _ ← enter st "AppliedStore::last_applied_seq" "AppliedStore is not open";
  found ← lookup_record (m_dbi st) origin "AppliedStore read failed";
  match found with
  | None => mret 0
  | Some x => mret (if negb (length x =? 8)%nat then 0 else read_u64_le x)
  end.

Definition set_last_applied_seq (st : store) (origin : NodeId) (seq : Z) : M unit :=
  _ ← enter st "AppliedStore::set_last_applied_seq" "AppliedStore is not open";
  put_record (m_dbi st) origin (write_u64_le seq) MDBX_UPSERT "AppliedStore write failed".

Definition clear (st : store) (origin : NodeId) : M bool :=
  _ ← enter st "AppliedStore::clear" "AppliedStore is not open";
  erase_record (m_dbi st) origin "AppliedStore clear failed".
End Code.

(** The sequence number recorded for an origin. *)
Definition applied_seq (m : gmap bytes bytes) (origin : NodeId) : Z :=
  match m !! origin with
  | None => 0
  | Some x => if (length x =? 8)%nat then read_u64_le x else 0
  end.

Lemma applied_seq_range m origin : is_u64 (applied_seq m origin).
Proof.
  unfold applied_seq. destruct (m !! origin) as [x|]; [|done].
  destruct (length x =? 8)%nat; [|done]. apply read_u64_le_range.
Qed.

Lemma applied_seq_insert m o seq o' :
  is_u64 seq →
  applied_seq (<[o := write_u64_le seq]> m) o' = if decide (o' = o) then seq else applied_seq m o'.
Proof.
  intros Hs. unfold applied_seq. case_decide as E.
  - subst o'. rewrite lookup_insert_eq, write_u64_le_length. simpl.
    rewrite <- (app_nil_r (write_u64_le seq)). by apply read_write_u64_le.
  - by rewrite lookup_insert_ne.
Qed.

Section Rules.
Context {X : Mdbx} {L : MdbxLaws X}.

Lemma wp_last_applied_seq st origin Q v :
  ready v st → Q (Ok (applied_seq (recs v (store_table st)) origin)) v →
  wp (last_applied_seq st origin) Q v.
Proof.
  intros Hr HQ. apply wp_enter; [done|]. destruct Hr as (_ & _ & Hb).
  apply wp_bind. eapply wp_lookup; [done..|]. unfold applied_seq in HQ.
  destruct (recs v _ !! origin) as [x|]; apply wp_ret; [|done].
  by destruct (length x =? 8)%nat.
Qed.

Lemma wp_set_last_applied_seq st origin seq Q v :
  ready v st → v_rw v = true →
  Q (Ok tt) (v_update v (store_table st) <[origin := write_u64_le seq]>) →
  wp (set_last_applied_seq st origin seq) Q v.
Proof.
  intros Hr Hrw HQ. apply wp_enter; [done|]. destruct Hr as (_ & _ & Hb). by eapply wp_put.
Qed.
End Rules.
