(* ===== verification/OriginIndexStore.v ===== *)
(** * OriginIndexStore

    Models [src/include/mdbx_containers/sync/stores/OriginIndexStore.hpp]: the largest
    changelog sequence number known per origin, in the table [_mdbxc_origins]. *)
From S2P Require Import Prelude SyncCommon Mdbx StoreBase.
Open Scope Z_scope.

Definition origins_name : bytes := bytes_of_string "_mdbxc_origins".

Record OriginTail : Type := { tail_origin : NodeId; tail_last_seq : Z }.

Section Code.
Context {X : Mdbx}.

Definition open (st : store) : M store :=
  store_open st "OriginIndexStore::open" "Failed to open OriginIndexStore DBI".

Definition open_existing (st : store) : M (store * bool) :=
  store_open_existing st "OriginIndexStore::open_existing"
    "Failed to open existing OriginIndexStore DBI".

Definition empty (st : store) : M bool :=
  _ ← enter st "OriginIndexStore::empty" "OriginIndexStore is not open";
  '(rc, c) ← cursor_open (m_dbi st);
  _ ← check_mdbx rc "OriginIndexStore empty cursor open failed";
  '(rc, _, _, _) ← cursor_get c MDBX_FIRST [];
  if rc =? MDBX_NOTFOUND then mret true
  else _ ← check_mdbx rc "OriginIndexStore empty cursor get failed"; mret false.

Definition clear (fuel : nat) (st : store) : M Z :=
  _ ← enter st "OriginIndexStore::clear" "OriginIndexStore is not open";
  '(rc, c) ← cursor_open (m_dbi st);
  _ ← check_mdbx rc "OriginIndexStore clear cursor open failed";
  delete_loop (fun _ => mret false)
    (fun rc => _ ← check_mdbx rc "OriginIndexStore clear cursor_del failed"; mret true)
    "OriginIndexStore clear cursor walk failed" fuel c MDBX_FIRST [] 0.

(** [None] is the result [false]. *)
Definition last_seq (st : store) (origin : NodeId) : M (option Z) :=
  _ ← enter st "OriginIndexStore::last_seq" "OriginIndexStore is not open";
  found ← lookup_record (m_dbi st) origin "OriginIndexStore last_seq failed";
  match found with
  | None => mret None
  | Some x =>
      if negb (length x =? 8)%nat then
        fail (runtime_error "OriginIndexStore value has invalid size")
      else mret (Some (read_u64_le x))
  end.

Definition note_origin (st : store) (origin : NodeId) (seq : Z) : M unit :=
  _ ← enter st "OriginIndexStore::note_origin" "OriginIndexStore is not open";
  found ← last_seq st origin;
  if match found with Some current => current >=? seq | None => false end then mret tt
  else
    put_record (m_dbi st) origin (write_u64_le seq) MDBX_UPSERT
      "OriginIndexStore note_origin failed".

Definition tail_of_record (out : list OriginTail) (k x : bytes) : result (list OriginTail * bool) :=
  _ ← throw_if (negb (length k =? 16)%nat) (runtime_error "OriginIndexStore key has invalid size");
  _ ← throw_if (negb (length x =? 8)%nat) (runtime_error "OriginIndexStore value has invalid size");
  Ok (out ++ [{| tail_origin := k; tail_last_seq := read_u64_le x |}], true).

Definition origin_tails (fuel : nat) (st : store) : M (list OriginTail) :=
  _ ← enter st "OriginIndexStore::origin_tails" "OriginIndexStore is not open";
  scan fuel (m_dbi st) MDBX_FIRST [] tail_of_record
    "OriginIndexStore origin_tails cursor open failed"
    "OriginIndexStore origin_tails cursor walk failed" [].

Definition origins (fuel : nat) (st : store) : M (list NodeId) :=
  tails ← origin_tails fuel st; mret (tail_origin <$> tails).
End Code.

(** ** Specification *)

(** Every key is an origin and every value a sequence number. *)
Definition index_wf (m : gmap bytes bytes) : Prop :=
  map_Forall (fun k x => node_ok k ∧ length x = 8%nat) m.

Definition index_seq (m : gmap bytes bytes) (origin : NodeId) : option Z :=
  read_u64_le <$> m !! origin.

(** [note_origin] on the table. *)
Definition noted (origin : NodeId) (seq : Z) (m : gmap bytes bytes) : gmap bytes bytes :=
  match index_seq m origin with
  | Some current => if current >=? seq then m else <[origin := write_u64_le seq]> m
  | None => <[origin := write_u64_le seq]> m
  end.

Lemma noted_wf origin seq m : node_ok origin → index_wf m → index_wf (noted origin seq m).
Proof.
  intros Ho Hm. unfold noted. assert (index_wf (<[origin := write_u64_le seq]> m)).
  { apply map_Forall_insert_2; [|done]. split; [done|apply write_u64_le_length]. }
  destruct (index_seq m origin) as [cur|]; [|done]. by destruct (cur >=? seq).
Qed.

Lemma noted_seq origin seq m o :
  is_u64 seq →
  index_seq (noted origin seq m) o =
  if decide (o = origin) then Some (Z.max seq (default seq (index_seq m origin))) else index_seq m o.
Proof.
  intros Hs. assert (∀ o', index_seq (<[origin := write_u64_le seq]> m) o' =
    if decide (o' = origin) then Some seq else index_seq m o') as Hins.
  { intros o'. unfold index_seq. case_decide as E.
    - subst o'. rewrite lookup_insert_eq. simpl. f_equal.
      rewrite <- (app_nil_r (write_u64_le seq)). by apply read_write_u64_le.
    - by rewrite lookup_insert_ne. }
  unfold noted. destruct (index_seq m origin) as [cur|] eqn:E; simpl.
  - destruct (cur >=? seq) eqn:Ec; zbool; rewrite ?Hins; case_decide; subst; rewrite ?E;
      try done; f_equal; lia.
  - rewrite Hins. case_decide; [|done]. f_equal. lia.
Qed.

Section Rules.
Context {X : Mdbx} {L : MdbxLaws X}.

Lemma wp_last_seq st origin Q v :
  ready v st → index_wf (recs v (store_table st)) →
  Q (Ok (index_seq (recs v (store_table st)) origin)) v → wp (last_seq st origin) Q v.
Proof.
  intros Hr Hwf HQ. apply wp_enter; [done|]. destruct Hr as (_ & _ & Hb).
  apply wp_bind. eapply wp_lookup; [done..|]. unfold index_seq in HQ.
  destruct (recs v _ !! origin) as [x|] eqn:E; [|by apply wp_ret].
  apply Hwf in E as [_ E]. rewrite E. by apply wp_ret.
Qed.

Lemma wp_note_origin st origin seq Q v :
  ready v st → v_rw v = true → index_wf (recs v (store_table st)) →
  (∀ v', v_only (store_table st) v v' →
     recs v' (store_table st) = noted origin seq (recs v (store_table st)) → Q (Ok tt) v') →
  wp (note_origin st origin seq) Q v.
Proof.
  intros Hr Hrw Hwf HQ. apply wp_enter; [done|]. apply wp_bind, wp_last_seq; [done..|].
  unfold noted in HQ. pose proof Hr as (_ & _ & Hb).
  assert (wp (put_record (m_dbi st) origin (write_u64_le seq) MDBX_UPSERT
      "OriginIndexStore note_origin failed")
      (fun r v' => r = Ok tt ∧ v_only (store_table st) v v' ∧
         recs v' (store_table st) = <[origin := write_u64_le seq]> (recs v (store_table st))) v)
    as Hput.
  { eapply wp_put; [done..|]. split_and!; [done|apply v_only_update|].
    rewrite recs_update by by eapply bound_is_Some. by rewrite decide_True. }
  destruct (index_seq _ origin) as [cur|]; [destruct (cur >=? seq)|].
  - apply wp_ret. by apply HQ.
  - eapply wp_mono; [exact Hput|]. intros r v' (-> & ? & ?). auto.
  - eapply wp_mono; [exact Hput|]. intros r v' (-> & ? & ?). auto.
Qed.

Lemma fold_tails l out :
  Forall (fun r => node_ok r.1 ∧ length r.2 = 8%nat) l →
  fold_recs tail_of_record out l =
  Ok (out ++ ((fun r => {| tail_origin := r.1; tail_last_seq := read_u64_le r.2 |}) <$> l)).
Proof.
  intros Hl. revert out. induction Hl as [|[k x] l [Hk Hx] Hl IH]; intros out; simpl.
  - by rewrite app_nil_r.
  - assert (tail_of_record out k x =
      Ok (out ++ [{| tail_origin := k; tail_last_seq := read_u64_le x |}], true)) as ->.
    { unfold tail_of_record. unfold node_ok in Hk. simpl in Hk, Hx. by rewrite Hk, Hx. }
    simpl. rewrite IH. by rewrite <- app_assoc.
Qed.

(** The index in key order. *)
Definition tails_of (m : gmap bytes bytes) : list OriginTail :=
  (fun r => {| tail_origin := r.1; tail_last_seq := read_u64_le r.2 |}) <$> sorted_recs m.

Lemma recs_where_first_all m : recs_where m (scan_range MDBX_FIRST []) = sorted_recs m.
Proof.
  apply strict_sorted_unique; [apply recs_where_sorted|apply sorted_recs_sorted|].
  intros [k x]. rewrite elem_of_recs_where, elem_of_sorted_recs. simpl. tauto.
Qed.

Lemma wp_origin_tails fuel st Q v :
  ready v st → index_wf (recs v (store_table st)) →
  (size (recs v (store_table st)) < fuel)%nat →
  Q (Ok (tails_of (recs v (store_table st)))) v → wp (origin_tails fuel st) Q v.
Proof.
  intros Hr Hwf Hf HQ. apply wp_enter; [done|]. destruct Hr as (_ & _ & Hb).
  eapply wp_scan; [done..|]. rewrite recs_where_first_all, fold_tails; [done|].
  rewrite Forall_forall. intros [k x] Hin%elem_of_sorted_recs. by apply Hwf.
Qed.

Lemma wp_empty st Q v :
  ready v st →
  Q (Ok (bool_decide (recs v (store_table st) = ∅))) v → wp (empty st) Q v.
Proof.
  intros Hr HQ. apply wp_enter; [done|]. destruct Hr as (_ & _ & Hb).
  apply wp_bind. intros s Hs. left. subst v.
  destruct (mdbx_cursor_open s (m_dbi st)) as [rc c] eqn:E.
  destruct (law_cursor_open _ _ _ _ _ _ E (bound_table _ _ _ _ Hb)) as [He|(-> & Hcd & Hk)];
    [engine_error_case|]. rewrite <- Hcd in Hb.
  apply wp_ret_bind, wp_bind. intros s1 Hs1. left. rewrite <- Hs1 in *.
  destruct (mdbx_cursor_get s1 c MDBX_FIRST []) as [[[rc k] x] c'] eqn:E1.
  destruct (law_cursor_get _ _ _ _ _ _ _ _ _ _ E1 (bound_table _ _ _ _ Hb) eq_refl)
    as [He|(_ & [(-> & (Hx & _) & _)|(-> & Hno)])]; cbn [dv_recs] in *.
  - engine_error_case.
  - apply wp_ret_bind, wp_ret. rewrite bool_decide_false in HQ; [done|]. intros E0.
    rewrite E0 in Hx. by rewrite lookup_empty in Hx.
  - apply wp_ret. rewrite bool_decide_true in HQ; [done|]. apply map_empty. intros i.
    apply eq_None_not_Some. intros [y Hy]. by apply (Hno i y).
Qed.

Lemma deleted_keys_all l : deleted_keys (fun _ => false) l = l.*1.
Proof. induction l as [|[k x] l IH]; [done|]. simpl. by rewrite IH. Qed.

Lemma wp_clear fuel st Q v :
  ready v st → v_rw v = true → (size (recs v (store_table st)) < fuel)%nat →
  (∀ v', v_only (store_table st) v v' → recs v' (store_table st) = ∅ →
     Q (Ok (Z.of_nat (size (recs v (store_table st))))) v') →
  wp (clear fuel st) Q v.
Proof.
  intros Hr Hrw Hf HQ. apply wp_enter; [done|]. destruct Hr as (_ & _ & Hb).
  apply wp_bind. intros s Hs. left. subst v.
  destruct (mdbx_cursor_open s (m_dbi st)) as [rc c] eqn:E.
  destruct (law_cursor_open _ _ _ _ _ _ E (bound_table _ _ _ _ Hb)) as [He|(-> & Hcd & Hk)];
    [engine_error_case|]. rewrite <- Hcd in Hb.
  apply wp_ret_bind. eapply (wp_delete_loop _ _ _ (fun _ => false)); try done.
  - intros v' k _. by apply wp_ret.
  - intros v'. by apply wp_ret_bind, wp_ret.
  - intros rc v' Q' He. engine_error_case.
  - rewrite Hk. eapply Nat.le_lt_trans; [apply recs_where_length|done].
  - rewrite Hk. change (cursor_range MDBX_FIRST None []) with (scan_range MDBX_FIRST []).
    rewrite deleted_keys_all. rewrite (recs_where_first_all (recs (view s) (store_table st))).
    intros v' Hv' Hrecs. rewrite length_fmap. unfold sorted_recs at 1.
    rewrite merge_sort_Permutation, length_map_to_list. apply HQ; [done|].
    apply map_empty. intros i. rewrite Hrecs, lookup_delete_keys. case_decide as Hi; [done|].
    apply eq_None_not_Some. intros [x Hx]. apply Hi, list_elem_of_fmap. exists (i, x).
    split; [done|]. by apply elem_of_sorted_recs.
Qed.
End Rules.
