(* ===== verification/ChangeLogStore.v ===== *)
(** * ChangeLogStore

    Models [src/include/mdbx_containers/sync/stores/ChangeLogStore.hpp]: encoded batches in
    the table [_mdbxc_changelog], keyed by origin and big-endian sequence number, with the
    origin index of [OriginIndexStore] maintained beside it.  The theorems describe
    appending, pruning, rebuilding and checking the index against the records in the
    changelog. *)
From S2P Require Import Prelude SyncCommon Mdbx RefMdbx StoreBase.
From S2P Require OriginIndexStore.
Open Scope Z_scope.

Definition changelog_name : bytes := bytes_of_string "_mdbxc_changelog".

Record log_store : Type := {
  log : store;
  m_origin_index_ready : bool;
  m_origins : store;
}.

Definition new_log_store (env : Z) : log_store := {|
  log := new_store env changelog_name;
  m_origin_index_ready := false;
  m_origins := new_store env OriginIndexStore.origins_name;
|}.

Definition set_log (ls : log_store) (st : store) : log_store :=
  {| log := st; m_origin_index_ready := m_origin_index_ready ls; m_origins := m_origins ls |}.
Definition set_index (ls : log_store) (ready : bool) (st : store) : log_store :=
  {| log := log ls; m_origin_index_ready := ready; m_origins := st |}.

Definition reset_log (ls : log_store) : log_store :=
  {| log := reset_open (log ls); m_origin_index_ready := false;
     m_origins := reset_open (m_origins ls) |}.

(** The private struct [OriginTail]. *)
Definition origin_tail : Type := NodeId * Z.

Definition encode_key (origin : NodeId) (seq : Z) : bytes := origin ++ write_u64_be seq.

Definition bad_key : exn := runtime_error "ChangeLogStore key has invalid size".

Definition key_origin (k : bytes) : NodeId := take 16 k.
Definition key_seq (k : bytes) : Z := read_u64_be (drop 16 k).

Definition decode_key_origin (key : bytes) : result NodeId :=
  _ ← throw_if (negb (length key =? 24)%nat) bad_key; Ok (key_origin key).
Definition decode_key_seq (key : bytes) : result Z :=
  _ ← throw_if (negb (length key =? 24)%nat) bad_key; Ok (key_seq key).

(** The body of the origin scan; [out.back()] is the last element. *)
Definition collect_step (out : list origin_tail) (k x : bytes) : result (list origin_tail * bool) :=
  origin ← decode_key_origin k;
  seq ← decode_key_seq k;
  match last out with
  | Some (back, _) =>
      if negb (compare_node_id back origin =? 0) then Ok (out ++ [(origin, seq)], true)
      else Ok (removelast out ++ [(back, seq)], true)
  | None => Ok (out ++ [(origin, seq)], true)
  end.

Section Code.
Context {X : Mdbx} (fuel : nat).

Definition not_open : string := "ChangeLogStore is not open".

Definition open (ls : log_store) : M log_store :=
  st ← store_open (log ls) "ChangeLogStore::open" "Failed to open ChangeLogStore DBI";
  mret (set_log ls st).

Definition collect_changelog_origin_tails (ls : log_store) : M (list origin_tail) :=
  scan fuel (m_dbi (log ls)) MDBX_FIRST [] collect_step
    "ChangeLogStore origin scan cursor open failed"
    "ChangeLogStore origin scan cursor walk failed" [].

Fixpoint write_origin_tails (origins : store) (tails : list origin_tail) : M unit :=
  match tails with
  | [] => mret tt
  | (origin, seq) :: tails' =>
      _ ← OriginIndexStore.note_origin origins origin seq; write_origin_tails origins tails'
  end.

Definition backfill_origin_index (ls : log_store) : M unit :=
  tails ← collect_changelog_origin_tails ls;
  write_origin_tails (m_origins ls) tails.

Definition ensure_origin_index_ready (ls : log_store) : M log_store :=
  if m_origin_index_ready ls then mret ls
  else
    st ← OriginIndexStore.open (m_origins ls);
    let ls := set_index ls false st in
    none ← OriginIndexStore.empty st;
    if negb none then mret (set_index ls true st)
    else _ ← backfill_origin_index ls; mret (set_index ls true st).

Definition append (ls : log_store) (origin : NodeId) (seq : Z) (data : bytes) : M log_store :=
  _ ← enter (log ls) "ChangeLogStore::append" not_open;
  ls ← ensure_origin_index_ready ls;
  _ ← put_record (m_dbi (log ls)) (encode_key origin seq) data MDBX_NOOVERWRITE
        "ChangeLogStore append failed";
  _ ← OriginIndexStore.note_origin (m_origins ls) origin seq;
  mret ls.

Definition contains (ls : log_store) (origin : NodeId) (seq : Z) : M bool :=
  _ ← enter (log ls) "ChangeLogStore::contains" not_open;
  '(rc, _) ← get (m_dbi (log ls)) (encode_key origin seq);
  if rc =? MDBX_SUCCESS then mret true
  else if rc =? MDBX_NOTFOUND then mret false
  else _ ← check_mdbx rc "ChangeLogStore contains failed"; mret false.

(** [None] is the result [false]. *)
Definition get_batch (ls : log_store) (origin : NodeId) (seq : Z) : M (option bytes) :=
  _ ← enter (log ls) "ChangeLogStore::get" not_open;
  lookup_record (m_dbi (log ls)) (encode_key origin seq) "ChangeLogStore get failed".

Definition erase (ls : log_store) (origin : NodeId) (seq : Z) : M bool :=
  _ ← enter (log ls) "ChangeLogStore::erase" not_open;
  erase_record (m_dbi (log ls)) (encode_key origin seq) "ChangeLogStore erase failed".

Definition prune_up_to (ls : log_store) (origin : NodeId) (up_to : Z) : M Z :=
  _ ← enter (log ls) "ChangeLogStore::prune_up_to" not_open;
  '(rc, c) ← cursor_open (m_dbi (log ls));
  _ ← check_mdbx rc "cursor open failed";
  delete_loop
    (fun k =>
       if (length k <? 24)%nat then mret true
       else o ← cmp (m_dbi (log ls)) k (encode_key origin up_to); mret (o >? 0))
    (fun rc =>
       if rc =? MDBX_SUCCESS then mret true
       else if rc =? MDBX_NOTFOUND then mret false
       else _ ← check_mdbx rc "ChangeLogStore prune cursor_del failed"; mret false)
    "ChangeLogStore prune cursor_get failed" fuel c MDBX_SET_RANGE (encode_key origin 0) 0.

(** The comparison loop of [origin_index_matches_changelog]. *)
Fixpoint tails_match (origins : store) (actual : list NodeId) (expected : list origin_tail)
    : M bool :=
  match expected, actual with
  | (origin, seq) :: expected', a :: actual' =>
      if negb (bool_decide (a = origin)) then mret false
      else
        found ← OriginIndexStore.last_seq origins a;
        if match found with Some s => s =? seq | None => false end
        then tails_match origins actual' expected'
        else mret false
  | _, _ => mret true
  end.

Definition origin_index_matches_changelog (ls : log_store) : M bool :=
  _ ← enter (log ls) "ChangeLogStore::origin_index_matches_changelog" not_open;
  expected ← collect_changelog_origin_tails ls;
  '(origins, found) ←
    OriginIndexStore.open_existing (new_store (m_env (log ls)) OriginIndexStore.origins_name);
  if negb found then mret (bool_decide (expected = []))
  else
    actual ← OriginIndexStore.origins fuel origins;
    if negb (length actual =? length expected)%nat then mret false
    else tails_match origins actual expected.

Definition rebuild_origin_index (ls : log_store) : M (log_store * Z) :=
  _ ← enter (log ls) "ChangeLogStore::rebuild_origin_index" not_open;
  tails ← collect_changelog_origin_tails ls;
  st ← OriginIndexStore.open (m_origins ls);
  _ ← OriginIndexStore.clear fuel st;
  _ ← write_origin_tails st tails;
  mret (set_index ls true st, Z.of_nat (length tails)).
End Code.

(** ** Keys *)

Lemma key_seq_range k : is_u64 (key_seq k).
Proof. apply read_u64_be_range. Qed.

Lemma key_split k :
  length k = 24%nat →
  encode_key (key_origin k) (key_seq k) = k ∧ node_ok (key_origin k) ∧ is_u64 (key_seq k).
Proof.
  intros Hk. unfold encode_key, key_origin, key_seq, node_ok. split_and!.
  - rewrite write_read_u64_be by (rewrite length_drop; lia). apply take_drop.
  - rewrite length_take. lia.
  - apply read_u64_be_range.
Qed.

Lemma encode_key_parts o s :
  node_ok o → is_u64 s →
  key_origin (encode_key o s) = o ∧ key_seq (encode_key o s) = s ∧ length (encode_key o s) = 24%nat.
Proof.
  intros Ho Hs. unfold encode_key, key_origin, key_seq, node_ok in *. split_and!.
  - rewrite <- Ho. apply take_app_length.
  - rewrite <- Ho, drop_app_length, <- (app_nil_r (write_u64_be s)). by apply read_write_u64_be.
  - rewrite length_app, Ho, write_u64_be_length. lia.
Qed.

Lemma encode_key_inj o s o' s' :
  node_ok o → is_u64 s → node_ok o' → is_u64 s' →
  encode_key o s = encode_key o' s' → o = o' ∧ s = s'.
Proof.
  intros Ho Hs Ho' Hs' E. destruct (encode_key_parts o s Ho Hs) as (H1 & H2 & _).
  destruct (encode_key_parts o' s' Ho' Hs') as (H3 & H4 & _). rewrite E in H1, H2. by split; congruence.
Qed.

(** Key order is the order of origins, then of sequence numbers. *)
Lemma encode_key_compare o s o' s' :
  node_ok o → is_u64 s → node_ok o' → is_u64 s' →
  bytes_compare (encode_key o s) (encode_key o' s') = lex_then (bytes_compare o o') (s ?= s').
Proof.
  intros Ho Hs Ho' Hs'. unfold encode_key, node_ok in *.
  rewrite separated_same_length by congruence. by rewrite write_u64_be_compare.
Qed.

Lemma encode_key_lt o s o' s' :
  node_ok o → is_u64 s → node_ok o' → is_u64 s' →
  bytes_lt (encode_key o s) (encode_key o' s') ↔ bytes_lt o o' ∨ o = o' ∧ s < s'.
Proof.
  intros Ho Hs Ho' Hs'. unfold bytes_lt. rewrite encode_key_compare by done.
  rewrite <- bytes_compare_eq. destruct (bytes_compare o o'); simpl.
  - rewrite Z.compare_lt_iff. naive_solver.
  - naive_solver.
  - naive_solver.
Qed.

(** ** Tails *)

Definition log_wf (cl : gmap bytes bytes) : Prop := map_Forall (fun k _ => length k = 24%nat) cl.

(** [s] is the largest sequence number of [o] in the changelog. *)
Definition is_tail (cl : gmap bytes bytes) (o : NodeId) (s : Z) : Prop :=
  is_Some (cl !! encode_key o s) ∧
  ∀ s', is_u64 s' → is_Some (cl !! encode_key o s') → s' ≤ s.

(** The same over a list of records. *)
Definition tail_in (l : list (bytes * bytes)) (o : NodeId) (s : Z) : Prop :=
  node_ok o ∧ is_u64 s ∧ encode_key o s ∈ l.*1 ∧
  ∀ s', is_u64 s' → encode_key o s' ∈ l.*1 → s' ≤ s.

Record tails_inv (l : list (bytes * bytes)) (out : list origin_tail) : Prop := {
  ti_sorted : StronglySorted bytes_lt out.*1;
  ti_last : last out = (fun r => (key_origin r.1, key_seq r.1)) <$> last l;
  ti_mem o s : (o, s) ∈ out ↔ tail_in l o s;
}.

Lemma fold_recs_snoc {St} (body : St → bytes → bytes → result (St * bool)) st l k x st1 :
  (∀ st k x st' more, body st k x = Ok (st', more) → more = true) →
  fold_recs body st l = Ok st1 →
  fold_recs body st (l ++ [(k, x)]) = '(st', _) ← body st1 k x; Ok st'.
Proof.
  intros Hmore. revert st. induction l as [|[k' x'] l IH]; intros st; simpl.
  - intros [= <-]. destruct (body st k x) as [[st' more]|e]; simpl; [|done]. by destruct more.
  - destruct (body st k' x') as [[st' more]|e] eqn:E; simpl; [|done].
    rewrite (Hmore _ _ _ _ _ E). apply IH.
Qed.

Lemma collect_step_more out k x out' more : collect_step out k x = Ok (out', more) → more = true.
Proof.
  unfold collect_step. intros H. ok_inv.
  destruct (last out) as [[b sb]|]; [destruct (negb _)|]; by simplify_eq.
Qed.

Lemma collect_step_key out k x :
  length k = 24%nat →
  collect_step out k x =
  match last out with
  | Some (back, _) =>
      if negb (compare_node_id back (key_origin k) =? 0) then Ok (out ++ [(key_origin k, key_seq k)], true)
      else Ok (removelast out ++ [(back, key_seq k)], true)
  | None => Ok (out ++ [(key_origin k, key_seq k)], true)
  end.
Proof.
  intros Hk. unfold collect_step, decode_key_origin, decode_key_seq.
  rewrite Hk. change (24 =? 24)%nat with true. cbn [negb throw_if mbind result_bind].
  by destruct (last out) as [[b sb]|].
Qed.

Lemma StronglySorted_snoc {A} (R : relation A) l x :
  StronglySorted R (l ++ [x]) ↔ StronglySorted R l ∧ ∀ y, y ∈ l → R y x.
Proof.
  rewrite StronglySorted_app. split.
  - intros (H1 & H2 & H3). split; [done|]. intros y Hy. apply H1; [done|set_solver].
  - intros [H1 H2]. split_and!; [|done|repeat constructor]. set_solver.
Qed.

(** What the records before a new largest key say about its origin. *)
Lemma tail_in_snoc l k x o s :
  Forall (fun r => length r.1 = 24%nat) l → length k = 24%nat →
  (∀ r, r ∈ l → bytes_lt r.1 k) →
  tail_in (l ++ [(k, x)]) o s ↔
  if decide (o = key_origin k) then s = key_seq k else tail_in l o s.
Proof.
  intros Hl Hk Hlt. destruct (key_split k Hk) as (Ek & Hok & Hsk).
  assert (∀ s', is_u64 s' → encode_key (key_origin k) s' ∈ (l ++ [(k, x)]).*1 → s' ≤ key_seq k) as Hmax.
  { intros s' Hs'. rewrite fmap_app, elem_of_app. intros [Hin|Hin].
    - apply list_elem_of_fmap in Hin as (r & E & Hr). apply Hlt in Hr.
      assert (bytes_lt (encode_key (key_origin k) s') (encode_key (key_origin k) (key_seq k)))
        as Hr' by by rewrite Ek, E.
      apply encode_key_lt in Hr' as [Hr'|[_ ?]]; [by apply bytes_lt_irrefl in Hr'|lia|done..].
    - apply list_elem_of_singleton in Hin.
      assert (encode_key (key_origin k) s' = encode_key (key_origin k) (key_seq k)) as Hin'
        by by rewrite Ek.
      apply encode_key_inj in Hin' as [_ ?]; [lia|done..]. }
  unfold tail_in. case_decide as E.
  - subst o. split.
    + intros (_ & Hs & Hin & Hm). apply Z.le_antisymm; [by apply Hmax|]. apply Hm; [done|].
      rewrite Ek, fmap_app. set_solver.
    + intros ->. split_and!; [done..| |done]. rewrite Ek, fmap_app. set_solver.
  - assert (∀ s', is_u64 s' → node_ok o → encode_key o s' ∈ (l ++ [(k, x)]).*1 ↔ encode_key o s' ∈ l.*1)
      as Hiff.
    { intros s' Hs' Ho. rewrite fmap_app, elem_of_app. split; [|auto]. intros [|Hin]; [done|].
      apply list_elem_of_singleton in Hin.
      assert (encode_key o s' = encode_key (key_origin k) (key_seq k)) as Hin' by by rewrite Ek.
      by apply encode_key_inj in Hin' as [? _]. }
    split; intros (Ho & Hs & Hin & Hm); split_and!; try done; try (by apply Hiff);
      intros s' Hs' Hin'; apply Hm; try done; by apply Hiff.
Qed.

Lemma last_snoc_inv {A} (l : list A) x : last l = Some x → l = removelast l ++ [x].
Proof.
  destruct l as [|y l _] using rev_ind; [done|]. rewrite last_snoc. intros [= ->].
  by rewrite removelast_last.
Qed.

Section CollectStep.
Context (l : list (bytes * bytes)) (out : list origin_tail) (k x kb xb : bytes).
Context (Hl : Forall (fun r => length r.1 = 24%nat) l) (Hk : length k = 24%nat).
Context (Hlt : ∀ r, r ∈ l → bytes_lt r.1 k) (Hinv : tails_inv l out).
Context (Elast : last l = Some (kb, xb)).

(** The last record before [k], and the last origin collected so far. *)
Lemma collect_last_key :
  length kb = 24%nat ∧ last out = Some (key_origin kb, key_seq kb) ∧
  (bytes_lt (key_origin kb) (key_origin k) ∨ key_origin kb = key_origin k).
Proof.
  assert ((kb, xb) ∈ l) as Hin by by apply last_Some_elem_of.
  rewrite Forall_forall in Hl. pose proof (Hl _ Hin) as Hkb. pose proof (Hlt _ Hin) as Hlt'.
  simpl in Hkb, Hlt'. destruct (key_split kb Hkb) as (Ekb & ? & ?), (key_split k Hk) as (Ek & ? & ?).
  split_and!; [done|rewrite (ti_last _ _ Hinv), Elast; done|].
  assert (bytes_lt (encode_key (key_origin kb) (key_seq kb)) (encode_key (key_origin k) (key_seq k)))
    as Hkk by (by rewrite Ekb, Ek).
  apply encode_key_lt in Hkk; naive_solver.
Qed.

Lemma collect_origins_le o : o ∈ out.*1 → bytes_le o (key_origin kb).
Proof.
  destruct collect_last_key as (_ & Eo & _). apply last_snoc_inv in Eo.
  pose proof (ti_sorted _ _ Hinv) as Hs. rewrite Eo, fmap_app in Hs |- *.
  apply StronglySorted_snoc in Hs as [_ Hfr].
  intros [Ho|Ho%list_elem_of_singleton]%elem_of_app; [by apply bytes_lt_le, Hfr|].
  apply bytes_le_lteq. by right.
Qed.

(** A new origin is appended. *)
Lemma collect_push :
  key_origin kb ≠ key_origin k →
  tails_inv (l ++ [(k, x)]) (out ++ [(key_origin k, key_seq k)]).
Proof.
  intros Hne. destruct collect_last_key as (_ & _ & [Hkk|]); [|done]. split.
  - rewrite fmap_app. apply StronglySorted_snoc. split; [apply Hinv|]. intros o Ho.
    destruct (proj1 (bytes_le_lteq _ _) (collect_origins_le o Ho)) as [| ->]; [by eapply bytes_lt_trans|done].
  - by rewrite !last_snoc.
  - intros o s. rewrite (tail_in_snoc l) by done. rewrite elem_of_app, list_elem_of_singleton.
    case_decide as Eo.
    + split; [|intros ->; right; congruence]. intros [Hin|[= _ ->]]; [|done]. exfalso.
      apply (list_elem_of_fmap_2 fst), collect_origins_le in Hin. simpl in Hin.
      rewrite Eo in Hin. by apply bytes_nlt_le in Hin.
    + rewrite (ti_mem _ _ Hinv). split; [|auto]. intros [|[= ??]]; [done|congruence].
Qed.

(** The tail of the current origin is replaced. *)
Lemma collect_update :
  key_origin kb = key_origin k →
  tails_inv (l ++ [(k, x)]) (removelast out ++ [(key_origin kb, key_seq k)]).
Proof.
  intros E. destruct collect_last_key as (_ & Eo & _). apply last_snoc_inv in Eo.
  pose proof (ti_sorted _ _ Hinv) as Hs. pose proof (ti_mem _ _ Hinv) as Hmem.
  set (front := removelast out) in *. rewrite Eo, fmap_app in Hs. split.
  - by rewrite fmap_app.
  - rewrite !last_snoc. simpl. by rewrite E.
  - intros o s. rewrite (tail_in_snoc l) by done. specialize (Hmem o s). rewrite Eo in Hmem.
    apply StronglySorted_snoc in Hs as [_ Hfr].
    rewrite elem_of_app, list_elem_of_singleton in Hmem |- *. case_decide as Ek.
    + split; [|intros ->; right; congruence]. intros [Hin|[= _ ->]]; [|done]. exfalso.
      apply (list_elem_of_fmap_2 fst), Hfr in Hin. simpl in Hin. rewrite Ek, E in Hin.
      by apply bytes_lt_irrefl in Hin.
    + rewrite <- Hmem. split; intros [|[= ??]]; auto; congruence.
Qed.
End CollectStep.

Lemma collect_tails l :
  StronglySorted rec_lt l → Forall (fun r => length r.1 = 24%nat) l →
  ∃ out, fold_recs collect_step [] l = Ok out ∧ tails_inv l out.
Proof.
  induction l as [|[k x] l IH] using rev_ind; intros Hs Hl.
  { exists []. split; [done|]. split; [constructor|done|].
    intros o s. split; [by intros ?%elem_of_nil|]. intros (_ & _ & Hin & _). by apply elem_of_nil in Hin. }
  apply StronglySorted_snoc in Hs as [Hs Hlt]. apply Forall_app in Hl as [Hl [Hk _]%Forall_cons].
  destruct (IH Hs Hl) as (out & Hout & Hinv). clear IH. simpl in Hk.
  rewrite (fold_recs_snoc _ _ _ _ _ _ collect_step_more Hout), collect_step_key by done.
  destruct (last l) as [[kb xb]|] eqn:El.
  - destruct (collect_last_key l out k kb xb) as (Hkb & -> & _); try done.
    destruct (compare_node_id (key_origin kb) (key_origin k) =? 0) eqn:Ec; cbn [negb mbind result_bind].
    + apply Z.eqb_eq, compare_node_id_zero in Ec; [|by apply key_split..].
      eexists. split; [done|]. by eapply collect_update.
    + apply Z.eqb_neq in Ec. eexists. split; [done|]. eapply collect_push; [done..|].
      intros E. apply Ec. apply compare_node_id_zero; [by apply key_split..|done].
  - apply last_None in El as ->. pose proof (ti_last _ _ Hinv) as Hlast.
    simpl in Hlast. apply last_None in Hlast as ->. simpl.
    exists [(key_origin k, key_seq k)]. split; [done|]. split; [repeat constructor|done|].
    intros o s. change [(k, x)] with ([] ++ [(k, x)]). rewrite (tail_in_snoc []) by done.
    rewrite list_elem_of_singleton. case_decide as E; [subst o; naive_solver|].
    split; [naive_solver|]. intros (_ & _ & Hin & _). by apply elem_of_nil in Hin.
Qed.

(** ** The changelog and its index *)

Definition log_tails (cl : gmap bytes bytes) : list origin_tail :=
  match fold_recs collect_step [] (sorted_recs cl) with Ok out => out | Throw _ => [] end.

Lemma elem_of_log_keys cl k : k ∈ (sorted_recs cl).*1 ↔ is_Some (cl !! k).
Proof.
  rewrite list_elem_of_fmap. split.
  - intros ([k' x] & -> & Hin%elem_of_sorted_recs). eauto.
  - intros [x Hx]. exists (k, x). split; [done|]. by apply elem_of_sorted_recs.
Qed.

Lemma log_tails_spec cl :
  log_wf cl →
  fold_recs collect_step [] (sorted_recs cl) = Ok (log_tails cl) ∧
  StronglySorted bytes_lt (log_tails cl).*1 ∧
  ∀ o s, (o, s) ∈ log_tails cl ↔ node_ok o ∧ is_u64 s ∧ is_tail cl o s.
Proof.
  intros Hwf. destruct (collect_tails (sorted_recs cl)) as (out & Hout & Hinv).
  { apply sorted_recs_sorted. }
  { apply Forall_forall. intros [k x] Hin%elem_of_sorted_recs. by apply (Hwf k x). }
  unfold log_tails. rewrite Hout. split_and!; [done|apply Hinv|].
  intros o s. rewrite (ti_mem _ _ Hinv). unfold tail_in, is_tail.
  split; intros (Ho & Hs & H); split_and!; try done; try (apply elem_of_log_keys; naive_solver).
  - intros s' Hs' Hin. apply H; [done|]. by apply elem_of_log_keys.
  - intros s' Hs' Hin%elem_of_log_keys. by apply H.
Qed.

(** The index lists exactly the origins of the changelog with their tails. *)
Definition index_exact (cl idx : gmap bytes bytes) : Prop :=
  OriginIndexStore.index_wf idx ∧
  ∀ o s, node_ok o →
    OriginIndexStore.index_seq idx o = Some s ↔ is_u64 s ∧ is_tail cl o s.

(** The index bounds every sequence number of the changelog. *)
Definition index_covers (cl idx : gmap bytes bytes) : Prop :=
  OriginIndexStore.index_wf idx ∧
  ∀ o s, node_ok o → is_u64 s → is_Some (cl !! encode_key o s) →
    ∃ t, OriginIndexStore.index_seq idx o = Some t ∧ s ≤ t.

Definition note_tails (ts : list origin_tail) (idx : gmap bytes bytes) : gmap bytes bytes :=
  foldl (fun m t => OriginIndexStore.noted t.1 t.2 m) idx ts.

Lemma note_tails_wf ts idx :
  Forall (fun t => node_ok t.1) ts → OriginIndexStore.index_wf idx →
  OriginIndexStore.index_wf (note_tails ts idx).
Proof.
  intros Hts. revert idx. induction Hts as [|[o s] ts Ho Hts IH]; intros idx Hw; [done|].
  simpl. apply IH. by apply OriginIndexStore.noted_wf.
Qed.

Lemma note_tails_seq ts idx o :
  Forall (fun t => is_u64 t.2) ts → NoDup ts.*1 →
  (∀ s, (o, s) ∈ ts →
     OriginIndexStore.index_seq (note_tails ts idx) o =
     Some (Z.max s (default s (OriginIndexStore.index_seq idx o)))) ∧
  (o ∉ ts.*1 → OriginIndexStore.index_seq (note_tails ts idx) o = OriginIndexStore.index_seq idx o).
Proof.
  intros Hts. revert idx. induction Hts as [|[o1 s1] ts Hs Hts IH]; intros idx Hnd.
  { split; [|done]. intros s Hin%elem_of_nil. done. }
  rewrite fmap_cons, NoDup_cons in Hnd. destruct Hnd as [Hno Hnd]. simpl in *.
  destruct (IH (OriginIndexStore.noted o1 s1 idx) Hnd) as [IH1 IH2]. split.
  - intros s [[= -> ->]|Hin]%elem_of_cons.
    + rewrite IH2 by done. rewrite OriginIndexStore.noted_seq by done. by rewrite decide_True.
    + rewrite (IH1 s Hin), OriginIndexStore.noted_seq by done. rewrite decide_False; [done|].
      intros ->. apply Hno. by apply (list_elem_of_fmap_2 fst) in Hin.
  - intros Hni. rewrite not_elem_of_cons in Hni. rewrite IH2 by naive_solver.
    rewrite OriginIndexStore.noted_seq by done. rewrite decide_False by naive_solver. done.
Qed.

Lemma log_tails_forall cl :
  log_wf cl →
  Forall (fun t => node_ok t.1) (log_tails cl) ∧ Forall (fun t => is_u64 t.2) (log_tails cl) ∧
  NoDup (log_tails cl).*1.
Proof.
  intros Hwf. destruct (log_tails_spec cl Hwf) as (_ & Hs & Hm). split_and!.
  - apply Forall_forall. intros [o s] Hin. by apply Hm in Hin as (? & _).
  - apply Forall_forall. intros [o s] Hin. by apply Hm in Hin as (_ & ? & _).
  - clear Hm. induction Hs as [|o l Hl IH Ho]; constructor; [|done].
    intros Hin. rewrite Forall_forall in Ho. by apply Ho, bytes_lt_irrefl in Hin.
Qed.

(** Writing the tails of a changelog into an empty index makes it exact. *)
Lemma note_tails_exact cl : log_wf cl → index_exact cl (note_tails (log_tails cl) ∅).
Proof.
  intros Hwf. destruct (log_tails_forall cl Hwf) as (Hn & Hu & Hnd).
  destruct (log_tails_spec cl Hwf) as (_ & _ & Hm). split.
  { by apply note_tails_wf. }
  intros o s Ho. destruct (note_tails_seq (log_tails cl) ∅ o Hu Hnd) as [H1 H2].
  unfold OriginIndexStore.index_seq at 2 in H2. rewrite lookup_empty in H2.
  destruct (decide (o ∈ (log_tails cl).*1)) as [Hin|Hin].
  - apply list_elem_of_fmap in Hin as ([o' s'] & -> & Hin). simpl in *.
    rewrite (H1 s' Hin). unfold OriginIndexStore.index_seq. rewrite lookup_empty. simpl.
    rewrite Z.max_id. pose proof (proj1 (Hm _ _) Hin) as (_ & Hs' & Ht'). split.
    + intros [= <-]. done.
    + intros [Hs Ht]. f_equal. destruct Ht' as [Hk' Hmax'], Ht as [Hk Hmax].
      apply Z.le_antisymm; auto.
  - rewrite H2 by done. split; [done|]. intros [Hs Ht]. exfalso. apply Hin, list_elem_of_fmap.
    exists (o, s). split; [done|]. by apply Hm.
Qed.

Lemma list_max (l : list Z) x : x ∈ l → ∃ t, t ∈ l ∧ ∀ y, y ∈ l → y ≤ t.
Proof.
  revert x. induction l as [|a l IH]; intros x Hx; [by apply elem_of_nil in Hx|].
  destruct l as [|b l].
  - exists a. split; [left|]. intros y [->|Hy%elem_of_nil]%elem_of_cons; [lia|done].
  - destruct (IH b ltac:(left)) as (t & Ht & Hmax). exists (Z.max a t). split.
    + destruct (Z.max_spec a t) as [[_ ->]|[_ ->]]; [by right|left].
    + intros y [->|Hy%Hmax]%elem_of_cons; lia.
Qed.

(** An origin with a record has a tail. *)
Lemma tail_exists cl o s :
  log_wf cl → node_ok o → is_u64 s → is_Some (cl !! encode_key o s) →
  ∃ t, is_u64 t ∧ is_tail cl o t ∧ s ≤ t.
Proof.
  intros Hwf Ho Hs Hk.
  set (ks := filter (fun r : bytes * bytes => key_origin r.1 = o) (map_to_list cl)).
  assert (∀ t, is_u64 t → is_Some (cl !! encode_key o t) ↔ t ∈ key_seq <$> ks.*1) as Hiff.
  { intros t Ht. rewrite list_elem_of_fmap. split.
    - intros [x Hx]. exists (encode_key o t).
      destruct (encode_key_parts o t) as (E1 & E2 & _); [exact Ho|exact Ht|].
      split; [by rewrite E2|]. apply list_elem_of_fmap. exists (encode_key o t, x).
      split; [reflexivity|]. apply list_elem_of_filter. split; [exact E1|].
      by apply elem_of_map_to_list.
    - intros (k & -> & Hin). apply list_elem_of_fmap in Hin as ([k' x] & -> & Hin).
      apply list_elem_of_filter in Hin as [Eo Hin%elem_of_map_to_list]. cbn [fst] in *.
      destruct (key_split k' (Hwf k' x Hin)) as (Ek & _). rewrite <- Eo, Ek. eauto. }
  destruct (list_max _ s (proj1 (Hiff s Hs) Hk)) as (t & Ht & Hmax).
  assert (is_u64 t) as Hut.
  { apply list_elem_of_fmap in Ht as (k & -> & _). apply key_seq_range. }
  exists t. split_and!; [done| |by apply Hmax, Hiff].
  split; [by apply Hiff|]. intros s' Hs' Hk'. by apply Hmax, Hiff.
Qed.

Lemma exact_covers cl idx : log_wf cl → index_exact cl idx → index_covers cl idx.
Proof.
  intros Hwf [Hw Hex]. split; [done|]. intros o s Ho Hs Hk.
  destruct (tail_exists cl o s) as (t & Ht & Htail & Hle); try done.
  exists t. split; [by apply Hex|done].
Qed.

Lemma is_tail_insert cl o s d o' t :
  node_ok o → is_u64 s → node_ok o' → is_u64 t →
  is_tail (<[encode_key o s := d]> cl) o' t ↔
  if decide (o' = o) then
    (t = s ∨ is_Some (cl !! encode_key o t)) ∧ s ≤ t ∧
    (∀ s', is_u64 s' → is_Some (cl !! encode_key o s') → s' ≤ t)
  else is_tail cl o' t.
Proof.
  intros Ho Hs Ho' Ht.
  assert (∀ t', is_u64 t' → is_Some (<[encode_key o s := d]> cl !! encode_key o' t') ↔
    (o' = o ∧ t' = s) ∨ is_Some (cl !! encode_key o' t')) as Hiff.
  { intros t' Ht'. rewrite lookup_insert_is_Some'. split; [|naive_solver].
    intros [E|]; [|by right]. left. by apply encode_key_inj in E as [-> ->]. }
  unfold is_tail. rewrite (Hiff t Ht). case_decide as E.
  - subst o'. split.
    + intros [H1 H2]. split_and!; [naive_solver|apply H2; [done|apply Hiff; auto]|].
      intros s' Hs' Hk. apply H2; [done|]. apply Hiff; auto.
    + intros (H1 & H2 & H3). split; [naive_solver|]. intros s' Hs' [[_ ->]|Hk]%Hiff; auto.
  - split; intros [H1 H2]; (split; [naive_solver|]); intros s' Hs' Hk; apply H2; try done.
    + apply Hiff; auto.
    + apply Hiff in Hk; naive_solver.
Qed.

Lemma append_exact cl idx o s d :
  log_wf cl → node_ok o → is_u64 s → index_exact cl idx →
  index_exact (<[encode_key o s := d]> cl) (OriginIndexStore.noted o s idx).
Proof.
  intros Hwf Ho Hs [Hw Hex]. split; [by apply OriginIndexStore.noted_wf|].
  intros o' t Ho'. rewrite OriginIndexStore.noted_seq by done. case_decide as E.
  - subst o'. destruct (OriginIndexStore.index_seq idx o) as [u|] eqn:Eu.
    + apply Hex in Eu as [Hu [Hk Hmax]]; [|done]. simpl. split.
      * intros [= <-]. assert (is_u64 (Z.max s u)) by (unfold u_range in *; lia). split; [done|].
        rewrite is_tail_insert by done. rewrite decide_True by done. split_and!; [|lia|].
        -- destruct (Z.max_spec s u) as [[_ ->]|[_ ->]]; auto.
        -- intros s' Hs' ?%Hmax; [lia|done].
      * intros [Ht Htail]. rewrite is_tail_insert, decide_True in Htail by done.
        destruct Htail as ([->|Hk'] & Hle & Hm); f_equal.
        -- specialize (Hm u Hu Hk). lia.
        -- specialize (Hm u Hu Hk). specialize (Hmax t Ht Hk'). lia.
    + simpl. rewrite Z.max_id.
      assert (∀ s', is_u64 s' → ¬ is_Some (cl !! encode_key o s')) as Hnone.
      { intros s' Hs' Hk. destruct (tail_exists cl o s') as (t' & Ht' & Htail & _); try done.
        assert (OriginIndexStore.index_seq idx o = Some t') by by apply Hex. congruence. }
      split.
      * intros [= <-]. split; [done|]. rewrite is_tail_insert, decide_True by done.
        split_and!; [by left|lia|]. intros s' Hs' []%Hnone; done.
      * intros [Ht Htail]. rewrite is_tail_insert, decide_True in Htail by done.
        destruct Htail as ([->|[]%Hnone] & _); done.
  - rewrite Hex by done. split; intros [Ht Htail]; (split; [done|]).
    + rewrite is_tail_insert by done. by rewrite decide_False.
    + rewrite is_tail_insert in Htail by done. by rewrite decide_False in Htail.
Qed.

Lemma append_covers cl idx o s d :
  node_ok o → is_u64 s → index_covers cl idx →
  index_covers (<[encode_key o s := d]> cl) (OriginIndexStore.noted o s idx).
Proof.
  intros Ho Hs [Hw Hc]. split; [by apply OriginIndexStore.noted_wf|].
  intros o' t Ho' Ht Hk. rewrite OriginIndexStore.noted_seq by done.
  apply lookup_insert_is_Some' in Hk as [E|Hk].
  - apply encode_key_inj in E as [-> ->]; [|done..]. rewrite decide_True by done.
    eexists. split; [done|]. lia.
  - destruct (Hc o' t Ho' Ht Hk) as (u & Hu & Hle). case_decide as E.
    + subst o'. rewrite Hu. eexists. split; [done|]. simpl. lia.
    + eauto.
Qed.

(** ** Calls *)

(** The store object can be used in the view, and its index is either not built yet (the
    table is empty) or bounds the changelog. *)
Record log_state (v : db_view) (ls : log_store) : Prop := {
  ls_log : ready v (log ls);
  ls_log_name : store_table (log ls) = changelog_name;
  ls_index : openable v (m_origins ls);
  ls_index_name : store_table (m_origins ls) = OriginIndexStore.origins_name;
  ls_index_open : m_origin_index_ready ls = true → m_open (m_origins ls) = true;
  ls_wf : log_wf (recs v changelog_name);
  ls_index_wf : OriginIndexStore.index_wf (recs v OriginIndexStore.origins_name);
  ls_covers : m_origin_index_ready ls = true ∨ recs v OriginIndexStore.origins_name ≠ ∅ →
    index_covers (recs v changelog_name) (recs v OriginIndexStore.origins_name);
}.

(** The store object can be used in the view, whatever its index table holds. *)
Record log_usable (v : db_view) (ls : log_store) : Prop := {
  lu_log : ready v (log ls);
  lu_log_name : store_table (log ls) = changelog_name;
  lu_index : openable v (m_origins ls);
  lu_index_name : store_table (m_origins ls) = OriginIndexStore.origins_name;
  lu_wf : log_wf (recs v changelog_name);
}.

Lemma log_state_usable v ls : log_state v ls → log_usable v ls.
Proof. by intros []. Qed.

(** What the index table holds once it has been made ready. *)
Definition ready_index (ready : bool) (cl idx : gmap bytes bytes) : gmap bytes bytes :=
  if negb ready && bool_decide (idx = ∅) then note_tails (log_tails cl) ∅ else idx.

Section Rules.
Context {X : Mdbx} {L : MdbxLaws X} (fuel : nat).

Lemma wp_collect ls Q v :
  ready v (log ls) → log_wf (recs v (store_table (log ls))) →
  (size (recs v (store_table (log ls))) < fuel)%nat →
  Q (Ok (log_tails (recs v (store_table (log ls))))) v →
  wp (collect_changelog_origin_tails fuel ls) Q v.
Proof.
  intros (_ & _ & Hb) Hwf Hf HQ. eapply wp_scan; [done..|].
  rewrite OriginIndexStore.recs_where_first_all.
  by destruct (log_tails_spec _ Hwf) as (-> & _).
Qed.

Lemma wp_write_tails st ts Q v :
  ready v st → v_rw v = true → OriginIndexStore.index_wf (recs v (store_table st)) →
  Forall (fun t => node_ok t.1) ts →
  (∀ v', v_only (store_table st) v v' →
     recs v' (store_table st) = note_tails ts (recs v (store_table st)) → Q (Ok tt) v') →
  wp (write_origin_tails st ts) Q v.
Proof.
  intros Hr Hrw Hw Hts. revert v Hr Hrw Hw. induction Hts as [|[o s] ts Ho Hts IH];
    intros v Hr Hrw Hw HQ; [by apply wp_ret, HQ|]. simpl in Ho.
  apply wp_bind, OriginIndexStore.wp_note_origin; [done..|]. intros v1 Hv1 Hr1.
  apply IH.
  - eapply ready_frame, Hr. eapply (v_only_frame [store_table st]); [by left|done].
  - by rewrite (only_rw _ _ _ Hv1).
  - rewrite Hr1. by apply OriginIndexStore.noted_wf.
  - intros v' Hv' Hr'. apply HQ; [by etrans|]. by rewrite Hr', Hr1.
Qed.

Lemma names_distinct : changelog_name ≠ OriginIndexStore.origins_name.
Proof. done. Qed.

(** Making the index ready. *)
Definition index_ready_post (ls : log_store) (v : db_view) (ls' : log_store) (v' : db_view) : Prop :=
  v_frame [OriginIndexStore.origins_name] v v' ∧ log_state v' ls' ∧
  m_origin_index_ready ls' = true ∧ log ls' = log ls ∧
  recs v' OriginIndexStore.origins_name =
    ready_index (m_origin_index_ready ls) (recs v changelog_name)
      (recs v OriginIndexStore.origins_name).

Lemma log_state_indexed ls st v v' :
  log_usable v ls → v_frame [OriginIndexStore.origins_name] v v' → ready v' st →
  store_table st = OriginIndexStore.origins_name →
  index_covers (recs v changelog_name) (recs v' OriginIndexStore.origins_name) →
  log_state v' (set_index ls true st).
Proof.
  intros H Hf Hr Hn Hc.
  assert (recs v' changelog_name = recs v changelog_name) as Ecl.
  { eapply recs_frame; [done|]. by rewrite list_elem_of_singleton. }
  split; simpl; try done.
  - eapply ready_frame, lu_log; eauto.
  - apply H.
  - by apply ready_openable.
  - intros _. apply Hr.
  - rewrite Ecl. apply H.
  - apply Hc.
  - by rewrite Ecl.
Qed.

Lemma wp_ensure_index ls Q v :
  log_state v ls → v_rw v = true → (size (recs v changelog_name) < fuel)%nat →
  (∀ ls' v', index_ready_post ls v ls' v' → Q (Ok ls') v') →
  wp (ensure_origin_index_ready fuel ls) Q v.
Proof.
  intros H Hrw Hf HQ. unfold ensure_origin_index_ready. unfold index_ready_post, ready_index in HQ.
  destruct (m_origin_index_ready ls) eqn:Er.
  { apply wp_ret, HQ. split_and!; done. }
  apply wp_bind, wp_reopen; [apply H|by left|]. intros st v1 (He & Hr1 & Hn1 & _).
  rewrite (ls_index_name _ _ H) in Hn1.
  apply wp_bind, OriginIndexStore.wp_empty; [done|]. rewrite Hn1.
  assert (recs v1 OriginIndexStore.origins_name = recs v OriginIndexStore.origins_name) as Ei
    by by apply ext_recs.
  assert (recs v1 changelog_name = recs v changelog_name) as Ec by by apply ext_recs.
  rewrite Ei. case_bool_decide as Hempty; simpl in *.
  - apply wp_bind, wp_bind, wp_collect; simpl.
    { eapply ready_ext, ls_log; eauto. }
    { rewrite (ls_log_name _ _ H), Ec. apply H. }
    { by rewrite (ls_log_name _ _ H), Ec. }
    rewrite (ls_log_name _ _ H), Ec.
    pose proof (log_tails_forall _ (ls_wf _ _ H)) as (Hts & _ & _).
    apply wp_write_tails; rewrite ?Hn1, ?Ei, ?Hempty; [done|by rewrite (ext_rw _ _ He)|done|done|].
    intros v2 Hv2 Hr2. apply wp_ret, HQ.
    assert (v_frame [OriginIndexStore.origins_name] v v2) as Hfr.
    { etrans; [by apply v_ext_frame|]. eapply v_only_frame; [|done]. by left. }
    assert (ready v2 st) as Hst.
    { eapply ready_frame, Hr1.
      eapply (v_only_frame [OriginIndexStore.origins_name]); [|done]. by left. }
    split_and!; [done| |done..]. apply (log_state_indexed ls st v v2); [by apply log_state_usable|done..|]. rewrite Hr2.
    apply exact_covers; [apply H|]. apply note_tails_exact, H.
  - apply wp_ret, HQ. split_and!; [by apply v_ext_frame| |done..].
    apply (log_state_indexed ls st v v1); [by apply log_state_usable|by apply v_ext_frame|done..|].
    rewrite Ei. apply H. by right.
Qed.

(** *** Append *)

Lemma log_state_appended ls v v' origin seq data :
  log_state v ls → m_origin_index_ready ls = true → node_ok origin → is_u64 seq →
  v_frame [changelog_name; OriginIndexStore.origins_name] v v' →
  recs v' changelog_name = <[encode_key origin seq := data]> (recs v changelog_name) →
  recs v' OriginIndexStore.origins_name =
    OriginIndexStore.noted origin seq (recs v OriginIndexStore.origins_name) →
  log_state v' ls.
Proof.
  intros H Hi Ho Hs Hf Ecl Eidx. split; try apply H.
  - eapply ready_frame, ls_log; eauto.
  - eapply openable_frame, ls_index; eauto.
  - rewrite Ecl. apply map_Forall_insert_2; [|apply H]. by apply encode_key_parts.
  - rewrite Eidx. apply OriginIndexStore.noted_wf; [done|apply H].
  - intros _. rewrite Ecl, Eidx. apply append_covers; [done..|]. apply H. by left.
Qed.

Definition log_key_name : list bytes := [changelog_name; OriginIndexStore.origins_name].

Definition append_post (ls : log_store) (origin : NodeId) (seq : Z) (data : bytes) (v : db_view)
    (r : result log_store) (v' : db_view) : Prop :=
  let cl := recs v changelog_name in
  let idx := recs v OriginIndexStore.origins_name in
  let cl' := recs v' changelog_name in
  let idx' := recs v' OriginIndexStore.origins_name in
  v_frame log_key_name v v' ∧
  match cl !! encode_key origin seq with
  | None =>
      ∃ ls', r = Ok ls' ∧ log_state v' ls' ∧ cl' = <[encode_key origin seq := data]> cl ∧
        (index_exact cl idx ∨ (idx = ∅ ∧ m_origin_index_ready ls = false) → index_exact cl' idx')
  | Some _ => r = Throw (MdbxException "ChangeLogStore append failed" MDBX_KEYEXIST) ∧ cl' = cl
  end.

Lemma wp_append (ls : log_store) (origin : NodeId) (seq : Z) (data : bytes) (v : db_view) :
  log_state v ls → v_rw v = true → node_ok origin → is_u64 seq →
  (size (recs v changelog_name) < fuel)%nat →
  wp (append fuel ls origin seq data) (append_post ls origin seq data v) v.
Proof.
  intros H Hrw Ho Hs Hf. unfold append_post.
  set (cl := recs v changelog_name). set (idx := recs v OriginIndexStore.origins_name).
  apply wp_enter; [apply H|].
  apply wp_bind, wp_ensure_index; [done..|]. intros ls1 v1 (Hf1 & H1 & Hi1 & El1 & Er1).
  assert (v_frame log_key_name v v1) as Hfr1.
  { eapply v_frame_mono, Hf1. intros n. unfold log_key_name. set_solver. }
  assert (recs v1 changelog_name = cl) as Ecl1.
  { eapply recs_frame; [exact Hf1|]. by rewrite list_elem_of_singleton. }
  assert (v_rw v1 = true) as Hrw1 by by rewrite (fr_rw _ _ _ Hf1).
  pose proof (ls_log _ _ H1) as (_ & _ & Hb). rewrite (ls_log_name _ _ H1) in Hb.
  apply wp_bind. eapply wp_put_new; [exact Hb|done|done|..]; rewrite Ecl1; intros Hk.
  2: { destruct Hk as [x Hk]. split; [done|]. fold cl. by rewrite Hk. }
  set (v2 := v_update v1 changelog_name _).
  assert (v_frame log_key_name v1 v2) as Hf2 by (eapply v_only_frame, v_only_update; by left).
  assert (ready v1 (m_origins ls1)) as Hr1 by (apply (ls_index _ _ H1), (ls_index_open _ _ H1), Hi1).
  assert (recs v2 OriginIndexStore.origins_name = recs v1 OriginIndexStore.origins_name) as Ei2
    by (by apply recs_other).
  apply wp_bind, OriginIndexStore.wp_note_origin; rewrite ?(ls_index_name _ _ H1), ?Ei2;
    [by apply ready_update|done|apply H1|].
  intros v3 Hv3 Er3. apply wp_ret.
  assert (v_frame log_key_name v2 v3) as Hf3 by (eapply v_only_frame, Hv3; right; by left).
  assert (recs v3 changelog_name = <[encode_key origin seq := data]> cl) as Ecl3.
  { rewrite (recs_frame _ _ _ _ (v_only_self _ _ _ Hv3)) by (by rewrite list_elem_of_singleton).
    unfold v2. rewrite recs_updated by (by eapply bound_is_Some). by rewrite Ecl1. }
  split; [by etrans; [|etrans]|]. rewrite Hk. exists ls1. split_and!; [done| |done|].
  - apply (log_state_appended ls1 v1 v3 origin seq data); [done..|by etrans|by rewrite Ecl3, Ecl1|done].
  - intros Hex. rewrite Ecl3, Er3, Er1. apply append_exact; [apply H|done..|].
    unfold ready_index. fold cl idx. destruct Hex as [Hex|[Hidx ->]].
    + destruct (negb (m_origin_index_ready ls)); [|done]. simpl. case_bool_decide; [|done].
      apply note_tails_exact, H.
    + rewrite bool_decide_true by done. apply note_tails_exact, H.
Qed.

(** C22: appending a batch for an origin and sequence number that is not in the changelog
    adds exactly that record, keeps the index a bound of the changelog, and keeps it exact
    when it was exact or not yet built; appending at an existing key throws
    [MDBX_KEYEXIST] and leaves the changelog as it was.  No other table changes. *)
Theorem changelog_append (ls : log_store) (origin : NodeId) (seq : Z) (data : bytes) (v : db_view) :
  log_state v ls → v_rw v = true → node_ok origin → is_u64 seq →
  (size (recs v changelog_name) < fuel)%nat →
  wp (append fuel ls origin seq data) (append_post ls origin seq data v) v.
Proof. apply wp_append. Qed.

(** *** Prune *)

Definition pruned (origin : NodeId) (up_to : Z) (k : bytes) : Prop :=
  key_origin k = origin ∧ key_seq k ≤ up_to.

#[export] Instance pruned_dec origin up_to k : Decision (pruned origin up_to k) := _.

Definition past_bound (hi k : bytes) : bool :=
  (length k <? 24)%nat || bool_decide (bytes_compare k hi = Gt).

(** The keys the pruning walk visits and does not stop at. *)
Lemma prune_range origin up_to k :
  node_ok origin → is_u64 up_to → length k = 24%nat →
  bytes_le (encode_key origin 0) k ∧ past_bound (encode_key origin up_to) k = false ↔
  pruned origin up_to k.
Proof.
  intros Ho Hu Hk. destruct (key_split k Hk) as (Ek & Hok & Hsk).
  pose proof (encode_key_compare origin 0 (key_origin k) (key_seq k) Ho ltac:(done) Hok Hsk) as C1.
  pose proof (encode_key_compare (key_origin k) (key_seq k) origin up_to Hok Hsk Ho Hu) as C2.
  rewrite Ek in C1, C2. unfold past_bound, pruned, bytes_le. rewrite Hk, C1, C2.
  change (24 <? 24)%nat with false. rewrite orb_false_l, bool_decide_eq_false.
  rewrite (bytes_compare_antisym origin (key_origin k)), <- (bytes_compare_eq (key_origin k)).
  rewrite (bytes_compare_antisym origin (key_origin k)).
  assert ((0 ?= key_seq k) ≠ Gt) as H by (apply Z.compare_le_iff, Hsk).
  change (key_seq k ≤ up_to) with ((key_seq k ?= up_to) ≠ Gt).
  clear -H. revert H. generalize (0 ?= key_seq k) (key_seq k ?= up_to)
    (bytes_compare origin (key_origin k)). intros c1 c2 c3 H. destruct c3; simpl; intuition congruence.
Qed.

Lemma wp_prune_stop dbi k hi name Q v :
  bound v dbi name 0 → Q (Ok (past_bound hi k)) v →
  wp (if (length k <? 24)%nat then mret true else o ← cmp dbi k hi; mret (o >? 0)) Q v.
Proof.
  intros Hb HQ. unfold past_bound in HQ. destruct (length k <? 24)%nat; [by apply wp_ret|].
  apply wp_bind. intros s <-. left. apply wp_ret.
  pose proof (law_cmp s dbi name _ k hi (bound_table _ _ _ _ Hb) eq_refl) as Hc.
  replace (mdbx_cmp s dbi k hi >? 0) with (bool_decide (bytes_compare k hi = Gt)); [done|].
  case_bool_decide as E; symmetry; rewrite Z.gtb_ltb; [apply Z.ltb_lt|apply Z.ltb_ge].
  - apply Hc in E. lia.
  - assert (¬ mdbx_cmp s dbi k hi > 0) by (by rewrite Hc). lia.
Qed.

(** What the pruning walk deletes. *)
Lemma prune_keys origin up_to cl k :
  log_wf cl → node_ok origin → is_u64 up_to →
  let l := recs_where cl (bytes_le (encode_key origin 0)) in
  k ∈ deleted_keys (past_bound (encode_key origin up_to)) l ↔
  is_Some (cl !! k) ∧ pruned origin up_to k.
Proof.
  intros Hwf Ho Hu l.
  assert (∀ k', k' ∈ l.*1 ↔ is_Some (cl !! k') ∧ bytes_le (encode_key origin 0) k') as Hl.
  { intros k'. rewrite list_elem_of_fmap. split.
    - intros ([k1 x] & -> & [??]%elem_of_recs_where). simpl. eauto.
    - intros [[x Hx] Hle]. exists (k', x). split; [done|]. by apply elem_of_recs_where. }
  assert (∀ k', is_Some (cl !! k') → length k' = 24%nat) as Hlen by (intros k' [x Hx]; by eapply Hwf).
  rewrite elem_of_deleted_keys.
  - rewrite Hl. split.
    + intros [[Hk Hle] Hp]. split; [done|]. apply prune_range; auto.
    + intros [Hk Hp]. apply prune_range in Hp; [|auto..]. tauto.
  - apply recs_where_sorted.
  - intros a b [Ha _]%Hl [Hb _]%Hl Hst Hlt. unfold past_bound in *.
    rewrite (Hlen a Ha) in Hst. rewrite (Hlen b Hb). simpl in *. zbool. apply bool_decide_true.
    rewrite (bytes_compare_antisym (encode_key origin up_to)) in Hst |- *.
    assert (bytes_lt (encode_key origin up_to) a) as Hua.
    { unfold bytes_lt. by destruct (bytes_compare (encode_key origin up_to) a). }
    pose proof (bytes_lt_trans _ _ _ Hua Hlt) as Hub. unfold bytes_lt in Hub. by rewrite Hub.
Qed.

Definition prune_log (origin : NodeId) (up_to : Z) (cl : gmap bytes bytes) : gmap bytes bytes :=
  filter (fun r => ¬ pruned origin up_to r.1) cl.

Lemma prune_deletes origin up_to cl :
  log_wf cl → node_ok origin → is_u64 up_to →
  let ks := deleted_keys (past_bound (encode_key origin up_to))
              (recs_where cl (bytes_le (encode_key origin 0))) in
  delete_keys ks cl = prune_log origin up_to cl ∧
  length ks = size (filter (fun r => pruned origin up_to r.1) cl).
Proof.
  intros Hwf Ho Hu ks. pose proof (prune_keys origin up_to cl) as Hks. split.
  - apply map_eq. intros k. rewrite lookup_delete_keys. unfold prune_log.
    destruct (cl !! k) as [x|] eqn:E.
    + case_decide as Hk.
      * symmetry. apply map_lookup_filter_None. right. intros x' _ Hn. apply Hn.
        by apply Hks in Hk as [_ ?].
      * symmetry. apply map_lookup_filter_Some. split; [done|]. intros Hp. apply Hk, Hks; eauto.
    + rewrite (proj2 (map_lookup_filter_None _ _ _)) by auto. by case_decide.
  - assert (NoDup ks) as Hnd by (apply deleted_keys_NoDup, recs_where_sorted).
    rewrite <- size_dom, <- (size_list_to_set (C := gset bytes)) by exact Hnd.
    f_equal. apply set_eq. intros k. rewrite elem_of_list_to_set, elem_of_dom.
    unfold ks. rewrite Hks by done. split.
    + intros [[x Hx] Hp]. exists x. by apply map_lookup_filter_Some.
    + intros [x [Hx Hp]%map_lookup_filter_Some]. eauto.
Qed.

Lemma log_state_shrunk ls v v' :
  log_state v ls → v_frame [changelog_name] v v' →
  recs v' changelog_name ⊆ recs v changelog_name → log_state v' ls.
Proof.
  intros H Hf Hsub.
  assert (recs v' OriginIndexStore.origins_name = recs v OriginIndexStore.origins_name) as Ei.
  { eapply recs_frame; [done|]. by rewrite list_elem_of_singleton. }
  split; try apply H; rewrite ?Ei; try apply H.
  - eapply ready_frame, ls_log; eauto.
  - eapply openable_frame, ls_index; eauto.
  - intros k x Hk. eapply (ls_wf _ _ H). by eapply lookup_weaken.
  - intros Hi. destruct (ls_covers _ _ H Hi) as [Hw Hc]. split; [done|].
    intros o s Ho Hs [x Hx]. apply Hc; [done..|]. exists x. by eapply lookup_weaken.
Qed.

(** C23: pruning an origin up to a sequence number removes exactly the records of that
    origin with that or a smaller number, returns how many they were, and keeps the index
    a bound of the changelog; nothing else changes, and the walk always ends. *)
Theorem changelog_prune (ls : log_store) (origin : NodeId) (up_to : Z) (v : db_view) :
  log_state v ls → v_rw v = true → node_ok origin → is_u64 up_to →
  (size (recs v changelog_name) < fuel)%nat →
  wp (prune_up_to fuel ls origin up_to)
    (fun r v' =>
       r = Ok (Z.of_nat (size (filter (fun e => pruned origin up_to e.1) (recs v changelog_name)))) ∧
       recs v' changelog_name = prune_log origin up_to (recs v changelog_name) ∧
       v_frame [changelog_name] v v' ∧ log_state v' ls) v.
Proof.
  intros H Hrw Ho Hu Hf. apply wp_enter; [apply H|].
  pose proof (ls_log _ _ H) as (_ & _ & Hb). rewrite (ls_log_name _ _ H) in Hb.
  apply wp_bind. intros s Hs. left. rewrite Hs.
  destruct (mdbx_cursor_open s (m_dbi (log ls))) as [rc c] eqn:E.
  destruct (law_cursor_open _ _ _ _ _ _ E ltac:(rewrite Hs; by apply bound_table))
    as [He|(-> & Hcd & Hk)]; [engine_error_case|].
  apply wp_ret_bind.
  destruct (prune_deletes origin up_to _ (ls_wf _ _ H) Ho Hu) as [Edel Elen].
  eapply (wp_delete_loop _ _ _ (past_bound (encode_key origin up_to)) changelog_name).
  - intros v' k Hv'. eapply wp_prune_stop; [|done]. eapply bound_frame, Hb.
    by apply v_only_self.
  - intros v'. by apply wp_ret.
  - intros rc v' Q He. engine_error_case.
  - by rewrite Hcd.
  - done.
  - rewrite Hk. eapply Nat.le_lt_trans; [apply recs_where_length|done].
  - rewrite Hk. change (cursor_range MDBX_SET_RANGE None (encode_key origin 0))
      with (bytes_le (encode_key origin 0)).
    intros v' Hv' Er. rewrite Z.add_0_l.
    erewrite (recs_where_ext _ _ (bytes_le (encode_key origin 0))) in Er |- * by done.
    rewrite Elen. rewrite Edel in Er. split_and!; [done..|by apply v_only_self|].
    apply (log_state_shrunk ls v); [done|by apply v_only_self|]. rewrite Er.
    apply map_filter_subseteq.
Qed.

(** *** The index against the changelog *)

(** The index in key order. *)
Definition index_list (idx : gmap bytes bytes) : list origin_tail :=
  (fun r => (r.1, read_u64_le r.2)) <$> sorted_recs idx.

Lemma elem_of_index_list idx o s :
  (o, s) ∈ index_list idx ↔ OriginIndexStore.index_seq idx o = Some s.
Proof.
  unfold index_list, OriginIndexStore.index_seq. rewrite list_elem_of_fmap, fmap_Some. split.
  - intros ([k x] & [= -> ->] & Hin%elem_of_sorted_recs). eauto.
  - intros (x & Hx & ->). exists (o, x). split; [done|]. by apply elem_of_sorted_recs.
Qed.

Lemma fmap_sorted_fst {A B} (f : A → B) (R : relation A) (R' : relation B) l :
  StronglySorted R l → (∀ x y, R x y → R' (f x) (f y)) → StronglySorted R' (f <$> l).
Proof.
  intros Hl HR. induction Hl as [|x l Hl IH Hx]; [constructor|]. rewrite fmap_cons.
  constructor; [done|]. apply Forall_fmap. eapply Forall_impl; [done|]. intros y. apply HR.
Qed.

Lemma index_list_sorted idx : StronglySorted bytes_lt (index_list idx).*1.
Proof.
  unfold index_list. rewrite <- list_fmap_compose.
  eapply fmap_sorted_fst; [apply sorted_recs_sorted|]. by intros x y.
Qed.

(** Two lists with increasing origins and the same members are equal. *)
Lemma origin_lists_eq (l1 l2 : list origin_tail) :
  StronglySorted bytes_lt l1.*1 → StronglySorted bytes_lt l2.*1 →
  (∀ t, t ∈ l1 ↔ t ∈ l2) → l1 = l2.
Proof.
  revert l2. induction l1 as [|[a s] l1 IH]; intros [|[b t] l2] H1 H2 H; try done.
  - exfalso. by eapply not_elem_of_nil, H; left.
  - exfalso. by eapply not_elem_of_nil, H; left.
  - rewrite !fmap_cons in *. apply StronglySorted_inv in H1 as [H1 Ha], H2 as [H2 Hb].
    rewrite Forall_forall in Ha, Hb. simpl in *.
    assert ((a, s) = (b, t)) as E.
    { assert ((a, s) ∈ (b, t) :: l2) as [|Hin]%elem_of_cons by (apply H; left); [done|].
      assert ((b, t) ∈ (a, s) :: l1) as [|Hin']%elem_of_cons by (apply H; left); [done|].
      apply (list_elem_of_fmap_2 fst) in Hin, Hin'. apply Hb in Hin. apply Ha in Hin'.
      exfalso. apply (bytes_lt_irrefl a). by eapply bytes_lt_trans. }
    injection E as -> ->. f_equal. apply IH; [done..|]. intros r. specialize (H r).
    rewrite !elem_of_cons in H. split; intros Hr.
    + destruct (proj1 H (or_intror Hr)) as [->|]; [|done].
      apply (list_elem_of_fmap_2 fst), Ha in Hr. by apply bytes_lt_irrefl in Hr.
    + destruct (proj2 H (or_intror Hr)) as [->|]; [|done].
      apply (list_elem_of_fmap_2 fst), Hb in Hr. by apply bytes_lt_irrefl in Hr.
Qed.

Lemma index_list_exact cl idx :
  log_wf cl → OriginIndexStore.index_wf idx → index_list idx = log_tails cl ↔ index_exact cl idx.
Proof.
  intros Hwf Hw. destruct (log_tails_spec cl Hwf) as (_ & Hs & Hm). split.
  - intros E. split; [done|]. intros o s Ho. rewrite <- elem_of_index_list, E, Hm. tauto.
  - intros [_ Hex]. apply origin_lists_eq; [apply index_list_sorted|done|].
    intros [o s]. rewrite elem_of_index_list, Hm. split.
    + intros E. assert (node_ok o) as Ho.
      { unfold OriginIndexStore.index_seq in E. apply fmap_Some in E as (x & Hx & _). by eapply Hw. }
      split; [done|]. by apply Hex.
    + intros (Ho & Hs' & Ht). by apply Hex.
Qed.

Lemma wp_tails_match st il expected Q v :
  ready v st → OriginIndexStore.index_wf (recs v (store_table st)) →
  (∀ t, t ∈ il → OriginIndexStore.index_seq (recs v (store_table st)) t.1 = Some t.2) →
  length il = length expected →
  Q (Ok (bool_decide (il = expected))) v → wp (tails_match st il.*1 expected) Q v.
Proof.
  intros Hr Hw. revert expected. induction il as [|[a r] il IH]; intros [|[o s] expected] Hil Hlen HQ;
    try discriminate; [by apply wp_ret|]. rewrite fmap_cons. cbn [tails_match fst].
  destruct (decide (a = o)) as [->|E];
    [rewrite (bool_decide_true (o = o)) by done|rewrite (bool_decide_false (a = o)) by done]; simpl.
  - apply wp_bind, OriginIndexStore.wp_last_seq; [done..|].
    pose proof (Hil (o, r) ltac:(left)) as Ho. simpl in Ho. rewrite Ho.
    destruct (Z.eqb_spec r s) as [->|Hne].
    + apply IH; [|simpl in Hlen; lia|].
      * intros t Ht. apply Hil. by right.
      * replace (bool_decide (il = expected)) with (bool_decide ((o, s) :: il = (o, s) :: expected));
          [done|]. apply bool_decide_ext. naive_solver.
    + apply wp_ret. rewrite bool_decide_false in HQ by naive_solver. done.
  - apply wp_ret. rewrite bool_decide_false in HQ by naive_solver. done.
Qed.

Lemma tails_of_index_list idx :
  OriginIndexStore.tail_origin <$> OriginIndexStore.tails_of idx = (index_list idx).*1.
Proof. unfold OriginIndexStore.tails_of, index_list. by rewrite <- !list_fmap_compose. Qed.

Lemma index_list_empty cl :
  log_wf cl → bool_decide (log_tails cl = []) = bool_decide (index_list ∅ = log_tails cl).
Proof. intros Hwf. apply bool_decide_ext. change (index_list ∅) with (@nil origin_tail). naive_solver. Qed.

(** The consistency check of the store answers [true] exactly when the index table (an
    absent table counting as empty) lists every origin of the changelog with its largest
    sequence number and no other origin; it changes no table.  The index may be missing
    origins or hold wrong numbers, but its records have the form the store writes. *)
Theorem index_check_correct (ls : log_store) (v : db_view) :
  log_usable v ls → OriginIndexStore.index_wf (recs v OriginIndexStore.origins_name) → (size (recs v changelog_name) < fuel)%nat →
  (size (recs v OriginIndexStore.origins_name) < fuel)%nat →
  wp (origin_index_matches_changelog fuel ls)
    (fun r v' => v_frame [] v v' ∧
       ∃ b, r = Ok b ∧
         (b = true ↔ index_exact (recs v changelog_name) (recs v OriginIndexStore.origins_name))) v.
Proof.
  intros H Hiw Hf1 Hf2. pose proof (lu_log _ _ H) as (_ & Henv & _). apply wp_enter; [apply H|].
  apply wp_bind, wp_collect; rewrite ?(lu_log_name _ _ H); [apply H|apply H|done|].
  pose proof (index_list_exact _ _ (lu_wf _ _ H) Hiw) as Hex.
  pose proof (lu_index _ _ H) as (_ & Hsys & _). rewrite (lu_index_name _ _ H) in Hsys.
  apply wp_bind, wp_store_open_existing; [done..| |].
  - intros Hnone. apply wp_ret. split; [done|]. eexists. split; [done|].
    change (store_table _) with OriginIndexStore.origins_name in Hnone.
    assert (recs v OriginIndexStore.origins_name = ∅) as E0
      by (unfold recs, table; by rewrite Hnone).
    rewrite E0 in *. rewrite index_list_empty by apply H. by rewrite bool_decide_eq_true.
  - intros _ st v1 (He & Hr & Hn & _).
    change (store_table (new_store _ _)) with OriginIndexStore.origins_name in Hn.
    assert (recs v1 OriginIndexStore.origins_name = recs v OriginIndexStore.origins_name) as Ei
      by by apply ext_recs.
    apply wp_bind, wp_bind, OriginIndexStore.wp_origin_tails; rewrite ?Hn, ?Ei; [done..|].
    apply wp_ret. rewrite tails_of_index_list, length_fmap.
    destruct (_ =? _)%nat eqn:El; [apply Nat.eqb_eq in El|apply Nat.eqb_neq in El]; simpl.
    + apply wp_tails_match; rewrite ?Hn, ?Ei; [done|done| |done|].
      * intros [o s]. by apply elem_of_index_list.
      * split; [by apply v_ext_frame|]. eexists. split; [done|]. by rewrite bool_decide_eq_true.
    + apply wp_ret. split; [by apply v_ext_frame|]. eexists. split; [done|]. rewrite <- Hex.
      split; [done|]. intros E. by rewrite E in El.
Qed.

(** C24: whatever the index table holds (records that are missing, stale or malformed),
    rebuilding it from the changelog ends, makes the index exact and returns the number of
    origins; the changelog and every other table stay as they are. *)
Theorem index_rebuild_exact (ls : log_store) (v : db_view) :
  log_usable v ls → v_rw v = true →
  (size (recs v changelog_name) < fuel)%nat →
  (size (recs v OriginIndexStore.origins_name) < fuel)%nat →
  wp (rebuild_origin_index fuel ls)
    (fun r v' => ∃ ls', r = Ok (ls', Z.of_nat (length (log_tails (recs v changelog_name)))) ∧
       v_frame [OriginIndexStore.origins_name] v v' ∧ log_state v' ls' ∧
       index_exact (recs v' changelog_name) (recs v' OriginIndexStore.origins_name)) v.
Proof.
  intros H Hrw Hf1 Hf2. apply wp_enter; [apply H|].
  apply wp_bind, wp_collect; rewrite ?(lu_log_name _ _ H); [apply H|apply H|done|].
  apply wp_bind, wp_reopen; [apply H|by left|]. intros st v1 (He & Hr1 & Hn & _).
  rewrite (lu_index_name _ _ H) in Hn.
  assert (recs v1 OriginIndexStore.origins_name = recs v OriginIndexStore.origins_name) as Ei
    by by apply ext_recs.
  apply wp_bind, OriginIndexStore.wp_clear; rewrite ?Hn, ?Ei; [done|by rewrite (ext_rw _ _ He)|done|].
  intros v2 Hv2 E2. pose proof (log_tails_forall _ (lu_wf _ _ H)) as (Hts & _ & _).
  apply wp_bind, wp_write_tails; rewrite ?Hn, ?E2.
  { eapply ready_frame, Hr1. by apply v_only_self. }
  { by rewrite (only_rw _ _ _ Hv2), (ext_rw _ _ He). }
  { done. }
  { done. }
  intros v3 Hv3 E3. apply wp_ret. eexists. split; [done|].
  assert (v_frame [OriginIndexStore.origins_name] v v3) as Hfr.
  { etrans; [by apply v_ext_frame|]. etrans; by apply v_only_self. }
  assert (recs v3 changelog_name = recs v changelog_name) as Ecl.
  { eapply recs_frame; [done|]. by rewrite list_elem_of_singleton. }
  pose proof (note_tails_exact _ (lu_wf _ _ H)) as Hex. split_and!; [done| |by rewrite Ecl, E3].
  apply (log_state_indexed ls st v v3); [done..| |done|].
  - eapply ready_frame, Hr1. etrans; by apply v_only_self.
  - rewrite E3. apply exact_covers; [apply H|done].
Qed.

(** *** Single records *)

Lemma wp_get_batch ls origin seq Q v :
  ready v (log ls) → Q (Ok (recs v (store_table (log ls)) !! encode_key origin seq)) v →
  wp (get_batch ls origin seq) Q v.
Proof.
  intros Hr HQ. apply wp_enter; [done|]. destruct Hr as (_ & _ & Hb). by eapply wp_lookup.
Qed.
End Rules.

(** ** Witnesses *)

Definition node_a : NodeId := replicate 15 Byte.x00 ++ [Byte.x0a].
Definition node_b : NodeId := replicate 15 Byte.x00 ++ [Byte.x0b].

(** A changelog with three records of two origins and an index that was never built. *)
Definition sample_log_view : db_view := {|
  v_env := 1; v_rw := true;
  v_dbs := {[ changelog_name := mk_dbi 0 (list_to_map
                [(encode_key node_a 1, [Byte.x01]); (encode_key node_a 2, [Byte.x02]);
                 (encode_key node_b 7, [Byte.x03])]);
              OriginIndexStore.origins_name := mk_dbi 0 ∅ ]};
  v_handles := {[ 2 := changelog_name ]};
|}.

Definition sample_log : log_store := set_log (new_log_store 1) (opened_at (new_store 1 changelog_name) 2).

Lemma sample_log_state : log_state sample_log_view sample_log.
Proof.
  split; try reflexivity.
  - split_and!; [reflexivity..|]. split; [reflexivity|]. eexists. split; reflexivity.
  - split_and!; [reflexivity..|discriminate].
  - discriminate.
  - unfold log_wf. apply (bool_decide_unpack _). vm_compute. exact I.
  - unfold OriginIndexStore.index_wf. apply (bool_decide_unpack _). vm_compute. exact I.
  - intros [?|Hne]; [discriminate|]. exfalso. apply Hne. vm_compute. reflexivity.
Defined.

(** The same changelog with an index that lost one origin, is stale for the other and holds
    a record that the store does not write. *)
Definition damaged_log_view : db_view := {|
  v_env := 1; v_rw := true;
  v_dbs := <[OriginIndexStore.origins_name := mk_dbi 0
               (list_to_map [(node_a, write_u64_le 1); ([Byte.x01], [Byte.x02])])]> (v_dbs sample_log_view);
  v_handles := v_handles sample_log_view;
|}.

Lemma damaged_log_usable : log_usable damaged_log_view sample_log.
Proof.
  split; try reflexivity.
  - split_and!; [reflexivity..|]. split; [reflexivity|]. eexists. split; vm_compute; reflexivity.
  - split_and!; [reflexivity|vm_compute; reflexivity|discriminate].
  - unfold log_wf. apply (bool_decide_unpack _). vm_compute. exact I.
Defined.

Lemma changelog_append_witness :
  wp (X := ref_mdbx) (append 5 sample_log node_b 8 [Byte.x04])
    (append_post sample_log node_b 8 [Byte.x04] sample_log_view) sample_log_view.
Proof.
  apply (changelog_append (X := ref_mdbx) 5); [apply sample_log_state|reflexivity..| |].
  - split; vm_compute; congruence.
  - apply Nat.ltb_lt. vm_compute. reflexivity.
Defined.

Lemma changelog_prune_witness :
  wp (X := ref_mdbx) (prune_up_to 5 sample_log node_a 1)
    (fun r v' =>
       r = Ok (Z.of_nat (size (filter (fun e => pruned node_a 1 e.1)
                                 (recs sample_log_view changelog_name)))) ∧
       recs v' changelog_name = prune_log node_a 1 (recs sample_log_view changelog_name) ∧
       v_frame [changelog_name] sample_log_view v' ∧ log_state v' sample_log) sample_log_view.
Proof.
  apply (changelog_prune (X := ref_mdbx) 5); [apply sample_log_state|reflexivity..| |].
  - split; vm_compute; congruence.
  - apply Nat.ltb_lt. vm_compute. reflexivity.
Defined.

Lemma index_rebuild_exact_witness :
  wp (X := ref_mdbx) (rebuild_origin_index 5 sample_log)
    (fun r v' => ∃ ls',
       r = Ok (ls', Z.of_nat (length (log_tails (recs damaged_log_view changelog_name)))) ∧
       v_frame [OriginIndexStore.origins_name] damaged_log_view v' ∧ log_state v' ls' ∧
       index_exact (recs v' changelog_name) (recs v' OriginIndexStore.origins_name))
    damaged_log_view.
Proof.
  apply (index_rebuild_exact (X := ref_mdbx) 5);
    [apply damaged_log_usable|reflexivity|apply Nat.ltb_lt; vm_compute; reflexivity..].
Defined.

Lemma index_check_correct_witness :
  wp (X := ref_mdbx) (origin_index_matches_changelog 5 sample_log)
    (fun r v' => v_frame [] sample_log_view v' ∧
       ∃ b, r = Ok b ∧
         (b = true ↔ index_exact (recs sample_log_view changelog_name)
                       (recs sample_log_view OriginIndexStore.origins_name))) sample_log_view.
Proof.
  apply (index_check_correct (X := ref_mdbx) 5);
    [apply log_state_usable, sample_log_state|apply sample_log_state|apply Nat.ltb_lt; vm_compute; reflexivity..].
Defined.
