(* ===== verification/IdentityIndexStore.v ===== *)
(** * IdentityIndexStore

    Models [src/include/mdbx_containers/sync/stores/IdentityIndexStore.hpp]: per table and
    identity key, the revision that wrote it last.  The key is a length-prefixed table
    name followed by the identity key, the value a structured record; the theorems show
    that keys do not collide and that values survive the encoding. *)
From S2P Require Import Prelude SyncCommon Wire Mdbx StoreBase.
Open Scope Z_scope.

Definition identity_name : bytes := bytes_of_string "_mdbxc_identity_index".

Definition IDENTITY_TOMBSTONE : Z := Z.shiftl 1 0.

Record IdentityIndexValue : Type := {
  iv_storage_key : bytes;
  iv_origin : NodeId;
  iv_seq : Z;
  iv_revision_key : bytes;
  iv_flags : Z;
}.

#[export] Instance IdentityIndexValue_eq_dec : EqDecision IdentityIndexValue.
Proof. solve_decision. Defined.

Definition u32_len (b : bytes) : Z := Z.of_nat (length b) mod 2 ^ 32.

Definition encode_key (dbi_name identity_key : bytes) : bytes :=
  append_u32_le [] (u32_len dbi_name) ++ dbi_name ++ identity_key.

Definition encode_value (v : IdentityIndexValue) : bytes :=
  let out := append_u32_le [] (u32_len (iv_storage_key v)) in
  let out := out ++ iv_storage_key v in
  let out := out ++ iv_origin v in
  let out := append_u64_le out (iv_seq v) in
  let out := append_u32_le out (u32_len (iv_revision_key v)) in
  let out := out ++ iv_revision_key v in
  append_u32_le out (iv_flags v).

Definition need_failed : exn := runtime_error "IdentityIndexStore decode underrun".

Definition read_value : reader IdentityIndexValue :=
  sk_len ← read_u32 need_failed;
  sk ← read_bytes need_failed sk_len;
  origin ← read_bytes need_failed 16;
  seq ← read_u64 need_failed;
  rv_len ← read_u32 need_failed;
  rv ← read_bytes need_failed rv_len;
  flags ← read_u32 need_failed;
  mret {| iv_storage_key := sk; iv_origin := origin; iv_seq := seq; iv_revision_key := rv;
          iv_flags := flags |}.

(** Bytes after the record are not looked at. *)
Definition decode_value (data : bytes) : result IdentityIndexValue :=
  '(v, _) ← read_value (make_cursor data); Ok v.

Section Code.
Context {X : Mdbx}.

Definition open (st : store) : M store :=
  store_create st "IdentityIndexStore::open" "Failed to open IdentityIndexStore DBI".

Definition not_open : string := "IdentityIndexStore is not open".

Definition put_value (st : store) (dbi_name identity_key : bytes) (value : IdentityIndexValue)
    : M unit :=
  _ ← enter st "IdentityIndexStore::put" not_open;
  put_record (m_dbi st) (encode_key dbi_name identity_key) (encode_value value) MDBX_UPSERT
    "IdentityIndexStore put failed".

(** [None] is the result [false]. *)
Definition get_value (st : store) (dbi_name identity_key : bytes) : M (option IdentityIndexValue) :=
  _ ← enter st "IdentityIndexStore::get" not_open;
  found ← lookup_record (m_dbi st) (encode_key dbi_name identity_key) "IdentityIndexStore get failed";
  match found with
  | None => mret None
  | Some x => v ← lift (decode_value x); mret (Some v)
  end.

Definition tombstone (st : store) (dbi_name identity_key : bytes) (marker : IdentityIndexValue)
    : M unit :=
  _ ← enter st "IdentityIndexStore::tombstone" not_open;
  put_value st dbi_name identity_key {|
    iv_storage_key := iv_storage_key marker; iv_origin := iv_origin marker;
    iv_seq := iv_seq marker; iv_revision_key := iv_revision_key marker;
    iv_flags := Z.lor (iv_flags marker) IDENTITY_TOMBSTONE |}.

Definition erase (st : store) (dbi_name identity_key : bytes) : M bool :=
  _ ← enter st "IdentityIndexStore::erase" not_open;
  erase_record (m_dbi st) (encode_key dbi_name identity_key) "IdentityIndexStore erase failed".
End Code.

(** ** Codec *)

Definition fits (b : bytes) : Prop := Z.of_nat (length b) < 2 ^ 32.

#[export] Instance fits_dec b : Decision (fits b) := _.

Definition value_ok (v : IdentityIndexValue) : Prop :=
  fits (iv_storage_key v) ∧ node_ok (iv_origin v) ∧ is_u64 (iv_seq v) ∧
  fits (iv_revision_key v) ∧ is_u32 (iv_flags v).

#[export] Instance value_ok_dec v : Decision (value_ok v) := _.

Lemma u32_len_fits b : fits b → u32_len b = Z.of_nat (length b) ∧ is_u32 (Z.of_nat (length b)).
Proof. unfold fits, u32_len, u_range. intros. rewrite Z.mod_small by lia. lia. Qed.

Lemma identity_key_parts n1 k1 n2 k2 :
  fits n1 → fits n2 → encode_key n1 k1 = encode_key n2 k2 → n1 = n2 ∧ k1 = k2.
Proof.
  intros [E1 H1]%u32_len_fits [E2 H2]%u32_len_fits. unfold encode_key, append_u32_le.
  rewrite E1, E2, !app_nil_l. intros E.
  assert (Z.of_nat (length n1) = Z.of_nat (length n2)) as El.
  { rewrite <- (read_write_u32_le _ (n1 ++ k1) H1), E. by apply read_write_u32_le. }
  rewrite El in E. apply app_inv_head in E. apply app_inj_1 in E; [done|lia].
Qed.

(** Identity keys of different (table name, identity key) pairs never collide: the
    length prefix makes the encoding injective. *)
Theorem identity_key_inj (n1 k1 n2 k2 : bytes) :
  fits n1 → fits n2 → encode_key n1 k1 = encode_key n2 k2 ↔ n1 = n2 ∧ k1 = k2.
Proof. intros H1 H2. split; [by apply identity_key_parts|by intros [-> ->]]. Qed.

Lemma reads_identity_value v : value_ok v → reads read_value (encode_value v) v.
Proof.
  intros (Hs & Ho & Hq & Hr & Hf). apply u32_len_fits in Hs as [Es Hs], Hr as [Er Hr].
  unfold encode_value, append_u32_le, append_u64_le, read_value. rewrite Es, Er, app_nil_l.
  rewrite <- !app_assoc, <- (app_nil_r (write_u32_le (iv_flags v))).
  eapply reads_bind; [by apply reads_u32|]. eapply reads_bind; [by apply reads_bytes|].
  eapply reads_bind; [apply reads_bytes; by rewrite Ho|].
  eapply reads_bind; [by apply reads_u64|]. eapply reads_bind; [by apply reads_u32|].
  eapply reads_bind; [by apply reads_bytes|]. eapply reads_bind; [by apply reads_u32|].
  destruct v. apply reads_ret.
Qed.

Lemma decode_encode_value v rest : value_ok v → decode_value (encode_value v ++ rest) = Ok v.
Proof.
  intros Hv. unfold decode_value.
  rewrite (reads_identity_value v Hv (make_cursor (encode_value v ++ rest)) rest (at_bytes_make _)). done.
Qed.

(** A stored identity record decodes to the record that was encoded, whatever bytes
    follow it. *)
Theorem identity_value_roundtrip (v : IdentityIndexValue) (rest : bytes) :
  value_ok v → decode_value (encode_value v ++ rest) = Ok v.
Proof. apply decode_encode_value. Qed.

Section Rules.
Context {X : Mdbx} {L : MdbxLaws X}.

Lemma wp_put_value st n k val Q v :
  ready v st → v_rw v = true →
  Q (Ok tt) (v_update v (store_table st) <[encode_key n k := encode_value val]>) →
  wp (put_value st n k val) Q v.
Proof.
  intros Hr Hrw HQ. apply wp_enter; [done|]. destruct Hr as (_ & _ & Hb). by eapply wp_put.
Qed.

Lemma wp_get_value st n k Q v :
  ready v st →
  match recs v (store_table st) !! encode_key n k with
  | None => Q (Ok None) v
  | Some x => match decode_value x with
              | Ok val => Q (Ok (Some val)) v
              | Throw e => Q (Throw e) v
              end
  end → wp (get_value st n k) Q v.
Proof.
  intros Hr HQ. apply wp_enter; [done|]. destruct Hr as (_ & _ & Hb).
  apply wp_bind. eapply wp_lookup; [done..|].
  destruct (recs v _ !! encode_key n k) as [x|]; [|by apply wp_ret].
  apply wp_lift_bind. destruct (decode_value x); [by apply wp_ret|done].
Qed.
End Rules.

Lemma identity_key_inj_witness :
  encode_key (bytes_of_string "ab") (bytes_of_string "c") =
  encode_key (bytes_of_string "a") (bytes_of_string "bc") ↔
  bytes_of_string "ab" = bytes_of_string "a" ∧ bytes_of_string "c" = bytes_of_string "bc".
Proof. apply identity_key_inj; reflexivity. Defined.

Definition sample_value : IdentityIndexValue := {|
  iv_storage_key := bytes_of_string "key"; iv_origin := replicate 16 Byte.x05; iv_seq := 12;
  iv_revision_key := bytes_of_string "r7"; iv_flags := IDENTITY_TOMBSTONE |}.

Lemma identity_value_roundtrip_witness :
  decode_value (encode_value sample_value ++ [Byte.xff]) = Ok sample_value.
Proof.
  apply identity_value_roundtrip. apply (bool_decide_unpack _). vm_compute. exact I.
Defined.
