(* ===== verification/VersionedDbiStore.v ===== *)
(** * VersionedDbiStore

    Models [src/include/mdbx_containers/sync/stores/VersionedDbiStore.hpp]: the registry of
    user tables under the source-version-wins contract, one empty record per table name in
    [_mdbxc_versioned_dbis]. *)
From S2P Require Import Prelude KeyCodec Mdbx StoreBase.
Open Scope Z_scope.

Definition versioned_name : bytes := bytes_of_string "_mdbxc_versioned_dbis".

Definition new_registry (env : Z) : store := new_store env versioned_name.

Section Code.
Context {X : Mdbx}.

Definition validate_name (dbi_name : bytes) : M unit :=
  lift (throw_if (bool_decide (dbi_name = []) || is_reserved_dbi_name dbi_name)
    (invalid_argument "VersionedDbiStore requires a non-reserved user DBI name")).

Definition open_failed : string := "Failed to open VersionedDbiStore DBI".

Definition open_for_write (st : store) : M store :=
  if m_open st then mret st
  else dbi ← open_create_only (store_table st) open_failed; mret (opened_at st dbi).

Definition open_existing (st : store) : M (store * bool) :=
  if m_open st then mret (st, true)
  else
    found ← open_plain (store_table st) open_failed;
    match found with
    | None => mret (st, false)
    | Some dbi => mret (opened_at st dbi, true)
    end.

Definition register_dbi (st : store) (dbi_name : bytes) : M (store * bool) :=
  _ ← checked_txn st "VersionedDbiStore::register_dbi";
  _ ← validate_name dbi_name;
  st ← open_for_write st;
  rc ← put (m_dbi st) dbi_name [] MDBX_NOOVERWRITE;
  if rc =? MDBX_SUCCESS then mret (st, true)
  else if rc =? MDBX_KEYEXIST then mret (st, false)
  else _ ← check_mdbx rc "VersionedDbiStore register failed"; mret (st, false).

Definition contains (st : store) (dbi_name : bytes) : M (store * bool) :=
  _ ← checked_txn st "VersionedDbiStore::contains";
  if bool_decide (dbi_name = []) then mret (st, false)
  else
    '(st, found) ← open_existing st;
    if negb found then mret (st, false)
    else
      '(rc, _) ← get (m_dbi st) dbi_name;
      if rc =? MDBX_SUCCESS then mret (st, true)
      else if rc =? MDBX_NOTFOUND then mret (st, false)
      else _ ← check_mdbx rc "VersionedDbiStore lookup failed"; mret (st, false).
End Code.

(** Whether a table name is registered. *)
Definition registered (v : db_view) (dbi_name : bytes) : bool :=
  negb (bool_decide (dbi_name = [])) && bool_decide (is_Some (recs v versioned_name !! dbi_name)).

(** The registry object in a transaction with view [v]. *)
Definition registry_ok (v : db_view) (st : store) : Prop :=
  openable v st ∧ store_table st = versioned_name.

Section Rules.
Context {X : Mdbx} {L : MdbxLaws X}.

Lemma registry_ext v v' st : v_ext v v' → registry_ok v st → registry_ok v' st.
Proof.
  intros He [Ho Hn]. split; [|done]. eapply openable_frame, Ho. by apply (v_ext_frame []).
Qed.

Lemma wp_registry_open_existing st Q v :
  registry_ok v st →
  (v_dbs v !! versioned_name = None → Q (Ok (st, false)) v) →
  (∀ st' v', v_reopen v v' → ready v' st' → store_table st' = versioned_name → Q (Ok (st', true)) v') →
  wp (open_existing st) Q v.
Proof.
  intros [(Henv & Hs & Hr) Hn] HN HQ. unfold open_existing. destruct (m_open st) eqn:E.
  - apply wp_ret, HQ; [done|by apply Hr|done].
  - apply wp_bind, wp_open_plain; [done|..]; rewrite Hn.
    + intros Hnone. apply wp_ret. auto.
    + intros Hex dbi v' Ho. apply wp_ret.
      assert (opened v st (opened_at st dbi) v') as (_ & Hr' & Hn' & _)
        by (apply opens_opened; [done|by rewrite Hn]).
      destruct Ho as (_ & _ & _ & _ & He). apply HQ; [by apply He|done|]. by rewrite Hn'.
Qed.

Lemma wp_contains st dbi_name Q v :
  registry_ok v st →
  (∀ st' v', v_reopen v v' → registry_ok v' st' → Q (Ok (st', registered v dbi_name)) v') →
  wp (contains st dbi_name) Q v.
Proof.
  intros Hreg HQ. pose proof Hreg as [(Henv & _) Hn]. apply wp_bind, wp_checked_txn; [done|].
  unfold registered in HQ. case_bool_decide as Ee; simpl in HQ; [by apply wp_ret, HQ|].
  apply wp_bind, wp_registry_open_existing; [done|..].
  - intros Hnone. apply wp_ret. simpl.
    unfold recs, table in HQ. rewrite Hnone in HQ. simpl in HQ. rewrite lookup_empty in HQ.
    by apply HQ.
  - intros st' v' He Hr' Hn'. simpl. apply wp_bind. intros s Hs. left. subst v'.
    destruct (mdbx_get s (m_dbi st') dbi_name) as [rc x] eqn:E.
    assert (registry_ok (view s) st') as Hreg' by (split; [by apply ready_openable|done]).
    destruct Hr' as (_ & _ & Hb). rewrite Hn' in Hb. specialize (HQ st' (view s) He Hreg').
    rewrite <- (ext_recs _ _ _ (proj1 He)) in HQ.
    destruct (law_get _ _ _ _ _ _ _ E (bound_table _ _ _ _ Hb) eq_refl) as [Hx|[[-> Hx]|[-> Hx]]];
      [engine_error_case|simpl in Hx; rewrite Hx in HQ..].
    + by apply wp_ret.
    + by apply wp_ret.
Qed.
End Rules.
