(* ===== verification/ReceiverModeStore.v ===== *)
(** * ReceiverReplicationModeStore

    Models [src/include/mdbx_containers/sync/stores/ReceiverReplicationModeStore.hpp]: the
    durable choice, per database id, between full-global and selective raw delivery.  The
    theorems show that the record format round-trips and that the two modes exclude each
    other whatever sequence of claims is made. *)
From S2P Require Import Prelude SyncCommon Wire SyncProtocol Mdbx RefMdbx StoreBase.
Open Scope Z_scope.

Definition receiver_mode_name : bytes := bytes_of_string "_mdbxc_receiver_mode".

Inductive ReceiverReplicationMode : Type := FullGlobal | Selective.

#[export] Instance ReceiverReplicationMode_eq_dec : EqDecision ReceiverReplicationMode.
Proof. solve_decision. Defined.

Definition mode_code (m : ReceiverReplicationMode) : Z :=
  match m with FullGlobal => 1 | Selective => 2 end.

Record ReceiverReplicationModeState : Type := {
  mode : ReceiverReplicationMode;
  scope_ids : list bytes;
}.

#[export] Instance ReceiverReplicationModeState_eq_dec : EqDecision ReceiverReplicationModeState.
Proof. solve_decision. Defined.

Definition format_version : Z := 1.

(** ** Record format *)

Definition scope_valid (scope_id : bytes) : bool :=
  negb (bool_decide (scope_id = [])) &&
  (Z.of_nat (length scope_id) <=? selective_replication_max_scope_id_len).

Definition validate_scope_id (scope_id : bytes) : result unit :=
  throw_if (negb (scope_valid scope_id))
    (invalid_argument "receiver replication mode has invalid ScopeId").

Definition put_scope (out scope_id : bytes) : result bytes :=
  _ ← validate_scope_id scope_id;
  Ok (append_u32_le out (Z.of_nat (length scope_id) mod 2 ^ 32) ++ scope_id).

(** The loop over the scopes; [prev] is [scope_ids[i - 1]]. *)
Fixpoint put_scopes (out : bytes) (prev : option bytes) (l : list bytes) : result bytes :=
  match l with
  | [] => Ok out
  | s :: l' =>
      _ ← throw_if (match prev with Some p => bool_decide (bytes_le s p) | None => false end)
            (logic_error "receiver mode ScopeIds must be sorted and unique");
      out ← put_scope out s;
      put_scopes out (Some s) l'
  end.

Definition encode (state : ReceiverReplicationModeState) : result bytes :=
  _ ← throw_if (bool_decide (mode state = FullGlobal) && negb (bool_decide (scope_ids state = [])))
        (logic_error "full-global receiver mode must not carry scopes");
  _ ← throw_if (bool_decide (mode state = Selective) && bool_decide (scope_ids state = []))
        (logic_error "selective receiver mode must carry a scope");
  _ ← throw_if (Z.of_nat (length (scope_ids state)) >? selective_replication_max_manifest_entries)
        (length_error "receiver mode scope count exceeds the v1 bound");
  let out := append_u32_le [] format_version in
  let out := out ++ [byte_of (mode_code (mode state))] in
  let out := append_u32_le out (Z.of_nat (length (scope_ids state)) mod 2 ^ 32) in
  put_scopes out None (scope_ids state).

Definition bad_scope : exn := runtime_error "invalid receiver replication mode ScopeId".

Definition read_scope : reader bytes :=
  size ← read_u32 (runtime_error "truncated receiver mode ScopeId length");
  _ ← check ((size =? 0) || (size >? selective_replication_max_scope_id_len)) bad_scope;
  read_bytes bad_scope size.

Fixpoint read_scopes (count : nat) (prev : option bytes) : reader (list bytes) :=
  match count with
  | O => mret []
  | S n =>
      s ← read_scope;
      _ ← check (match prev with Some p => bool_decide (bytes_le s p) | None => false end)
            (runtime_error "receiver mode ScopeIds are not canonical");
      l ← read_scopes n (Some s);
      mret (s :: l)
  end.

Definition mode_of_code (raw : Z) : option ReceiverReplicationMode :=
  if raw =? 1 then Some FullGlobal else if raw =? 2 then Some Selective else None.

Definition read_state : reader ReceiverReplicationModeState :=
  v ← read_u32 (runtime_error "truncated receiver mode version");
  _ ← check (negb (v =? format_version)) (runtime_error "unsupported receiver replication mode format");
  raw ← fetch (fun p => at_byte p 0) 1;
  match mode_of_code raw with
  | None => throw (runtime_error "unknown receiver replication mode")
  | Some m =>
      count ← read_u32 (runtime_error "truncated receiver mode scope count");
      _ ← check (count >? selective_replication_max_manifest_entries)
            (runtime_error "receiver mode scope count exceeds the v1 bound");
      l ← read_scopes (Z.to_nat count) None;
      mret {| mode := m; scope_ids := l |}
  end.

Definition decode (data : bytes) : result ReceiverReplicationModeState :=
  _ ← throw_if (Z.of_nat (length data) <? 9)
        (runtime_error "invalid receiver replication mode record");
  '(st, cur) ← read_state (make_cursor data);
  _ ← throw_if (negb (cur_pos cur =? cur_size cur)%nat ||
                (bool_decide (mode st = FullGlobal) && negb (bool_decide (scope_ids st = []))) ||
                (bool_decide (mode st = Selective) && bool_decide (scope_ids st = [])))
        (runtime_error "invalid receiver replication mode payload");
  Ok st.

(** ** The store *)

Section Code.
Context {X : Mdbx}.

Definition not_open : string := "ReceiverReplicationModeStore is not open".

Definition open (st : store) : M store :=
  store_open st "ReceiverReplicationModeStore::open" "Failed to open receiver replication mode DBI".

Definition open_existing (st : store) : M (store * bool) :=
  store_open_existing st "ReceiverReplicationModeStore::open_existing"
    "Failed to open existing receiver mode DBI".

Definition id_value (db_id : DbId) : M bytes :=
  _ ← lift (throw_if (is_zero_sync_id db_id)
        (invalid_argument "receiver replication mode DbId must not be zero"));
  mret db_id.

(** [None] is the result [false]. *)
Definition get_state (st : store) (db_id : DbId) : M (option ReceiverReplicationModeState) :=
  _ ← enter st "ReceiverReplicationModeStore::get" not_open;
  key ← id_value db_id;
  found ← lookup_record (m_dbi st) key "Receiver replication mode read failed";
  match found with
  | None => mret None
  | Some x => s ← lift (decode x); mret (Some s)
  end.

Definition put_state (st : store) (db_id : DbId) (state : ReceiverReplicationModeState) : M unit :=
  data ← lift (encode state);
  key ← id_value db_id;
  put_record (m_dbi st) key data MDBX_UPSERT "Receiver replication mode write failed".

Definition claim_full_global (st : store) (db_id : DbId) : M bool :=
  _ ← enter st "ReceiverReplicationModeStore::claim_full_global" not_open;
  found ← get_state st db_id;
  match found with
  | Some s => mret (bool_decide (mode s = FullGlobal))
  | None => _ ← put_state st db_id {| mode := FullGlobal; scope_ids := [] |}; mret true
  end.

(** [std::lower_bound] on the sorted scopes: the number of scopes below [s]. *)
Fixpoint lower_bound (l : list bytes) (s : bytes) : nat :=
  match l with
  | [] => 0
  | x :: l' => if bool_decide (bytes_lt x s) then S (lower_bound l' s) else 0
  end.

Definition claim_selective (st : store) (db_id : DbId) (scope_id : bytes) : M bool :=
  _ ← enter st "ReceiverReplicationModeStore::claim_selective" not_open;
  _ ← lift (validate_scope_id scope_id);
  found ← get_state st db_id;
  match found with
  | Some s =>
      if negb (bool_decide (mode s = Selective)) then mret false
      else
        let position := lower_bound (scope_ids s) scope_id in
        if bool_decide (scope_ids s !! position = Some scope_id) then mret true
        else
          let scopes := take position (scope_ids s) ++ scope_id :: drop position (scope_ids s) in
          _ ← put_state st db_id {| mode := mode s; scope_ids := scopes |}; mret true
  | None => _ ← put_state st db_id {| mode := Selective; scope_ids := [scope_id] |}; mret true
  end.
End Code.

(** ** Round trip *)

(** Sorted from [prev] on. *)
Fixpoint sorted_after (prev : option bytes) (l : list bytes) : Prop :=
  match l with
  | [] => True
  | s :: l' => (match prev with Some p => bytes_lt p s | None => True end) ∧ sorted_after (Some s) l'
  end.

Definition state_ok (st : ReceiverReplicationModeState) : Prop :=
  (mode st = FullGlobal ↔ scope_ids st = []) ∧
  Z.of_nat (length (scope_ids st)) ≤ selective_replication_max_manifest_entries ∧
  Forall (fun s => scope_valid s = true) (scope_ids st) ∧ sorted_after None (scope_ids st).

Definition scope_bytes (s : bytes) : bytes := write_u32_le (Z.of_nat (length s)) ++ s.

Definition state_bytes (st : ReceiverReplicationModeState) : bytes :=
  write_u32_le format_version ++ [byte_of (mode_code (mode st))] ++
  write_u32_le (Z.of_nat (length (scope_ids st))) ++ concat (scope_bytes <$> scope_ids st).

Lemma scope_valid_spec s :
  scope_valid s = true ↔ s ≠ [] ∧ Z.of_nat (length s) ≤ 256.
Proof.
  unfold scope_valid, selective_replication_max_scope_id_len.
  rewrite andb_true_iff, negb_true_iff, bool_decide_eq_false, Z.leb_le. done.
Qed.

Lemma after_check prev s :
  (match prev with Some p => bool_decide (bytes_le s p) | None => false end) = false ↔
  match prev with Some p => bytes_lt p s | None => True end.
Proof. destruct prev as [p|]; [|done]. by rewrite bool_decide_eq_false, bytes_nle_lt. Qed.

Lemma put_scopes_Ok out prev l :
  Forall (fun s => scope_valid s = true) l → sorted_after prev l →
  put_scopes out prev l = Ok (out ++ concat (scope_bytes <$> l)).
Proof.
  intros Hl. revert out prev. induction Hl as [|s l Hs Hl IH]; intros out prev Hst; simpl in *.
  - by rewrite app_nil_r.
  - destruct Hst as [Hp%after_check Hst]. rewrite Hp. simpl. unfold put_scope, validate_scope_id.
    rewrite Hs. simpl. rewrite IH by done. apply scope_valid_spec in Hs as [_ Hs].
    unfold scope_bytes at 2, append_u32_le. rewrite Z.mod_small by lia. by rewrite <- !app_assoc.
Qed.

(** The mode checks of the encoder and of the decoder. *)
Lemma mode_checks st :
  (mode st = FullGlobal ↔ scope_ids st = []) →
  bool_decide (mode st = FullGlobal) && negb (bool_decide (scope_ids st = [])) = false ∧
  bool_decide (mode st = Selective) && bool_decide (scope_ids st = []) = false.
Proof.
  intros Hm. destruct (mode st), (scope_ids st); naive_solver.
Qed.

Lemma encode_state_ok st : state_ok st → encode st = Ok (state_bytes st).
Proof.
  intros (Hm & Hlen & Hv & Hs). unfold encode. destruct (mode_checks st Hm) as [-> ->].
  rewrite Z.gtb_ltb, (proj2 (Z.ltb_ge _ _)) by done. cbn [throw_if mbind result_bind].
  rewrite put_scopes_Ok by done. unfold state_bytes, append_u32_le.
  unfold selective_replication_max_manifest_entries in Hlen. rewrite Z.mod_small by lia.
  by rewrite <- !app_assoc.
Qed.

Lemma reads_scope s : scope_valid s = true → reads read_scope (scope_bytes s) s.
Proof.
  intros [Hne Hs]%scope_valid_spec. unfold read_scope, scope_bytes.
  eapply reads_bind; [apply reads_u32; unfold u_range; lia|].
  apply reads_check; [|by apply reads_bytes].
  unfold selective_replication_max_scope_id_len.
  rewrite Z.gtb_ltb, (proj2 (Z.ltb_ge _ _)), orb_false_r by lia.
  apply Z.eqb_neq. destruct s; [done|simpl; lia].
Qed.

Lemma reads_scopes prev l :
  Forall (fun s => scope_valid s = true) l → sorted_after prev l →
  reads (read_scopes (length l) prev) (concat (scope_bytes <$> l)) l.
Proof.
  intros Hl. revert prev. induction Hl as [|s l Hs Hl IH]; intros prev Hst; [apply reads_ret|].
  rewrite fmap_cons. cbn [length read_scopes concat]. destruct Hst as [Hp%after_check Hst].
  eapply reads_bind; [by apply reads_scope|]. apply reads_check; [done|].
  rewrite <- (app_nil_r (concat _)). eapply reads_bind; [by apply IH|]. apply reads_ret.
Qed.

Lemma reads_mode m : reads (fetch (fun p => at_byte p 0) 1) [byte_of (mode_code m)] (mode_code m).
Proof. intros c rest [_ Hc]. unfold fetch. rewrite Hc. by destruct m. Qed.

Lemma mode_code_roundtrip m : mode_of_code (mode_code m) = Some m.
Proof. by destruct m. Qed.

Lemma reads_state st : state_ok st → reads read_state (state_bytes st) st.
Proof.
  intros (Hm & Hlen & Hv & Hs). unfold read_state, state_bytes.
  unfold selective_replication_max_manifest_entries in *.
  eapply reads_bind; [by apply reads_u32|]. apply reads_check; [done|].
  eapply reads_bind; [apply reads_mode|]. rewrite mode_code_roundtrip.
  eapply reads_bind; [apply reads_u32; unfold u_range; lia|].
  apply reads_check; [by rewrite Z.gtb_ltb; apply Z.ltb_ge|]. rewrite Nat2Z.id.
  rewrite <- (app_nil_r (concat _)). eapply reads_bind; [by apply reads_scopes|].
  destruct st. apply reads_ret.
Qed.

Lemma decode_state_bytes st : state_ok st → decode (state_bytes st) = Ok st.
Proof.
  intros Hok. pose proof (reads_state st Hok (make_cursor (state_bytes st)) []) as Hr.
  rewrite app_nil_r in Hr. specialize (Hr (at_bytes_make _)). destruct Hok as (Hm & _).
  unfold decode. rewrite (proj2 (Z.ltb_ge _ _)).
  2: { unfold state_bytes. rewrite !length_app, !write_u32_le_length. simpl. lia. }
  cbn [throw_if mbind result_bind]. rewrite Hr. cbn [mbind result_bind].
  unfold cur_size. cbn [cur_pos cur_data advance make_cursor]. rewrite Nat.add_0_l, Nat.eqb_refl.
  by destruct (mode_checks st Hm) as [-> ->].
Qed.

(** The receiver-mode record round-trips: every valid state (full-global without
    scopes, or selective with sorted, distinct, bounded scope ids) is encoded, and decodes
    to itself. *)
Theorem receiver_mode_roundtrip (st : ReceiverReplicationModeState) :
  state_ok st → ∃ data, encode st = Ok data ∧ decode data = Ok st.
Proof.
  intros Hok. exists (state_bytes st). auto using encode_state_ok, decode_state_bytes.
Qed.

(** ** Claims *)

Inductive claim : Type := ClaimFull | ClaimSelective (scope_id : bytes).

Definition claim_mode (c : claim) : ReceiverReplicationMode :=
  match c with ClaimFull => FullGlobal | ClaimSelective _ => Selective end.

Definition claim_ok (c : claim) : Prop :=
  match c with ClaimFull => True | ClaimSelective s => scope_valid s = true end.

Definition run_claim {X : Mdbx} (st : store) (db_id : DbId) (c : claim) : M bool :=
  match c with
  | ClaimFull => claim_full_global st db_id
  | ClaimSelective s => claim_selective st db_id s
  end.

Fixpoint run_claims {X : Mdbx} (st : store) (db_id : DbId) (cs : list claim) : M (list bool) :=
  match cs with
  | [] => mret []
  | c :: cs' => b ← run_claim st db_id c; bs ← run_claims st db_id cs'; mret (b :: bs)
  end.

(** The scope list after an admission. *)
Definition admit_scope (l : list bytes) (s : bytes) : list bytes :=
  let position := lower_bound l s in
  if bool_decide (l !! position = Some s) then l
  else take position l ++ s :: drop position l.

Lemma admit_scope_cons x l s :
  admit_scope (x :: l) s =
  if bool_decide (bytes_lt x s) then x :: admit_scope l s
  else if bool_decide (x = s) then x :: l else s :: x :: l.
Proof.
  unfold admit_scope. cbn [lower_bound]. destruct (bool_decide (bytes_lt x s)).
  - cbn [lookup list_lookup take drop app]. by destruct (bool_decide (l !! lower_bound l s = Some s)).
  - cbn [lookup list_lookup take drop app]. replace (bool_decide (Some x = Some s)) with (bool_decide (x = s)); [done|].
    apply bool_decide_ext. naive_solver.
Qed.

Lemma admit_scope_sorted prev l s :
  sorted_after prev l → (match prev with Some p => bytes_lt p s | None => True end) →
  sorted_after prev (admit_scope l s).
Proof.
  revert prev. induction l as [|x l IH]; intros prev Hl Hp; [done|].
  rewrite admit_scope_cons. destruct Hl as [Hx Hl]. case_bool_decide as E1; [|case_bool_decide as E2].
  - split; [done|]. by apply IH.
  - by split.
  - split; [done|]. split; [|done]. apply bytes_nlt_le, bytes_le_lteq in E1 as [|E1]; [done|congruence].
Qed.

Lemma elem_of_admit_scope l s x : x ∈ admit_scope l s ↔ x = s ∨ x ∈ l.
Proof.
  induction l as [|y l IH]; [unfold admit_scope; simpl; set_solver|].
  rewrite admit_scope_cons. case_bool_decide; [set_solver|]. case_bool_decide; set_solver.
Qed.

Lemma admit_scope_length l s : (length (admit_scope l s) ≤ S (length l))%nat.
Proof.
  induction l as [|y l IH]; [done|]. rewrite admit_scope_cons.
  case_bool_decide; [|case_bool_decide]; simpl; lia.
Qed.

(** The state after a claim on an existing record. *)
Definition claimed (c : claim) (s : ReceiverReplicationModeState) : ReceiverReplicationModeState :=
  match c, mode s with
  | ClaimSelective x, Selective => {| mode := Selective; scope_ids := admit_scope (scope_ids s) x |}
  | _, _ => s
  end.

Lemma claimed_ok c s :
  claim_ok c → state_ok s →
  Z.of_nat (length (scope_ids s)) < selective_replication_max_manifest_entries →
  state_ok (claimed c s).
Proof.
  intros Hc Hs Hlen. pose proof Hs as (Hm & _ & Hv & Hsort). destruct c as [|x]; [done|]. simpl.
  destruct (mode s) eqn:Em; [done|]. pose proof (elem_of_admit_scope (scope_ids s) x) as Hin.
  split_and!; simpl.
  - split; [done|]. intros E. rewrite E in Hin. exfalso. eapply not_elem_of_nil, Hin. by left.
  - pose proof (admit_scope_length (scope_ids s) x). lia.
  - rewrite Forall_forall in *. intros y [->|Hy]%Hin; auto.
  - by apply admit_scope_sorted.
Qed.

(** The state a first claim creates. *)
Definition first_claim (c : claim) : ReceiverReplicationModeState :=
  match c with
  | ClaimFull => {| mode := FullGlobal; scope_ids := [] |}
  | ClaimSelective x => {| mode := Selective; scope_ids := [x] |}
  end.

Lemma first_claim_ok c : claim_ok c → state_ok (first_claim c).
Proof. intros Hc. destruct c; simpl; split_and!; simpl; try done. by repeat constructor. Qed.

Section Claims.
Context {X : Mdbx} {L : MdbxLaws X} (st : store) (db_id : DbId).
Context (Hid : node_ok db_id) (Hnz : db_id ≠ make_zero_node).

Definition mode_table (v : db_view) : gmap bytes bytes := recs v (store_table st).

Lemma wp_id_value {A} (f : bytes → M A) Q v : wp (f db_id) Q v → wp (id_value db_id ≫= f) Q v.
Proof.
  intros H. unfold id_value.
  destruct (is_zero_sync_id db_id) eqn:E; [by apply is_zero_sync_id_spec in E|].
  apply wp_assoc, wp_lift_bind, wp_ret_bind. done.
Qed.

Lemma wp_get_state s Q v :
  ready v st → mode_table v !! db_id = state_bytes <$> s →
  (∀ x, s = Some x → state_ok x) → Q (Ok s) v → wp (get_state st db_id) Q v.
Proof.
  intros Hr Hs Hok HQ. apply wp_enter; [done|]. apply wp_id_value. destruct Hr as (_ & _ & Hb).
  apply wp_bind. eapply wp_lookup; [done..|]. fold (mode_table v). rewrite Hs.
  destruct s as [x|]; simpl; [|by apply wp_ret].
  apply wp_lift_bind. rewrite decode_state_bytes by auto. by apply wp_ret.
Qed.

Lemma wp_put_state s Q v :
  ready v st → v_rw v = true → state_ok s →
  (∀ v', v_only (store_table st) v v' → mode_table v' = <[db_id := state_bytes s]> (mode_table v) →
     Q (Ok tt) v') →
  wp (put_state st db_id s) Q v.
Proof.
  intros Hr Hrw Hok HQ. unfold put_state. rewrite encode_state_ok by done.
  apply wp_lift_bind, wp_id_value. destruct Hr as (_ & _ & Hb). eapply wp_put; [done..|].
  apply HQ; [apply v_only_update|]. unfold mode_table. rewrite recs_updated; [done|].
  by eapply bound_is_Some.
Qed.

(** A claim on an existing record. *)
Lemma wp_claim c s Q v :
  ready v st → v_rw v = true → claim_ok c → state_ok s →
  Z.of_nat (length (scope_ids s)) < selective_replication_max_manifest_entries →
  mode_table v !! db_id = Some (state_bytes s) →
  (∀ v', v_only (store_table st) v v' →
     mode_table v' = <[db_id := state_bytes (claimed c s)]> (mode_table v) →
     Q (Ok (bool_decide (claim_mode c = mode s))) v') →
  wp (run_claim st db_id c) Q v.
Proof.
  intros Hr Hrw Hc Hok Hlen Hs HQ.
  assert (claimed c s = s → Q (Ok (bool_decide (claim_mode c = mode s))) v) as HQ0.
  { intros E. apply HQ; [done|]. rewrite E. by rewrite insert_id. }
  pose proof (claimed_ok c s Hc Hok Hlen) as Hok'.
  destruct c as [|x]; apply wp_enter; try done.
  - apply wp_bind, (wp_get_state (Some s)); [done..|by intros ? [= <-]|]. apply wp_ret.
    replace (bool_decide (mode s = FullGlobal)) with (bool_decide (FullGlobal = mode s)); [by apply HQ0|].
    apply bool_decide_ext. naive_solver.
  - unfold validate_scope_id. rewrite Hc. apply wp_lift_bind. cbn [throw_if negb].
    apply wp_bind, (wp_get_state (Some s)); [done..|by intros ? [= <-]|]. simpl in *.
    destruct (mode s) eqn:Em; simpl; [by apply wp_ret, HQ0|].
    unfold admit_scope in *. case_bool_decide as Ein.
    + apply wp_ret. rewrite (bool_decide_true (Selective = Selective)) in HQ0 by done.
      apply HQ0. destruct s. simpl in *. by subst.
    + apply wp_bind, wp_put_state; [done..|]. intros v' Hv' E. apply wp_ret. by apply HQ.
Qed.

(** A claim on a database without a record. *)
Lemma wp_claim_first c Q v :
  ready v st → v_rw v = true → claim_ok c → mode_table v !! db_id = None →
  (∀ v', v_only (store_table st) v v' →
     mode_table v' = <[db_id := state_bytes (first_claim c)]> (mode_table v) → Q (Ok true) v') →
  wp (run_claim st db_id c) Q v.
Proof.
  intros Hr Hrw Hc Hs HQ. pose proof (first_claim_ok c Hc) as Hok.
  destruct c as [|x]; apply wp_enter; try done.
  - apply wp_bind, (wp_get_state None); [done..|].
    apply wp_bind, wp_put_state; [done..|]. intros v' Hv' E. apply wp_ret. by apply HQ.
  - unfold validate_scope_id. rewrite Hc. apply wp_lift_bind. cbn [throw_if negb].
    apply wp_bind, (wp_get_state None); [done..|].
    apply wp_bind, wp_put_state; [done..|]. intros v' Hv' E. apply wp_ret. by apply HQ.
Qed.

(** The scopes of a selective record after a list of claims. *)
Definition scopes_after (m : ReceiverReplicationMode) (l : list bytes) (cs : list claim) (x : bytes)
    : Prop :=
  x ∈ l ∨ m = Selective ∧ ClaimSelective x ∈ cs.

Definition claims_post (m : ReceiverReplicationMode) (l : list bytes) (cs : list claim) (v : db_view)
    (r : result (list bool)) (v' : db_view) : Prop :=
  r = Ok ((fun c => bool_decide (claim_mode c = m)) <$> cs) ∧
  v_only (store_table st) v v' ∧
  ∃ s, mode_table v' = <[db_id := state_bytes s]> (mode_table v) ∧ state_ok s ∧ mode s = m ∧
    ∀ x, x ∈ scope_ids s ↔ scopes_after m l cs x.

Lemma claimed_scopes c s x :
  x ∈ scope_ids (claimed c s) ↔ scopes_after (mode s) (scope_ids s) [c] x.
Proof.
  unfold scopes_after, claimed. rewrite list_elem_of_singleton.
  destruct c as [|y], (mode s) eqn:E; simpl; try rewrite elem_of_admit_scope; naive_solver.
Qed.

Lemma claimed_mode c s : mode (claimed c s) = mode s.
Proof. unfold claimed. destruct c, (mode s) eqn:E; done. Qed.

Lemma claimed_length c s : (length (scope_ids (claimed c s)) ≤ S (length (scope_ids s)))%nat.
Proof.
  unfold claimed. pose proof (admit_scope_length (scope_ids s)).
  destruct c, (mode s); simpl; auto with lia.
Qed.

Lemma wp_claims cs s v :
  ready v st → v_rw v = true → Forall claim_ok cs → state_ok s →
  Z.of_nat (length (scope_ids s) + length cs) ≤ selective_replication_max_manifest_entries →
  mode_table v !! db_id = Some (state_bytes s) →
  wp (run_claims st db_id cs) (claims_post (mode s) (scope_ids s) cs v) v.
Proof.
  intros Hr Hrw Hcs. revert s v Hr Hrw.
  induction Hcs as [|c cs Hc Hcs IH]; intros s v Hr Hrw Hok Hlen Hs; simpl.
  - apply wp_ret. split_and!; [done..|]. exists s. rewrite insert_id by done.
    split_and!; [done..|]. unfold scopes_after. set_solver.
  - simpl in Hlen. apply wp_bind, (wp_claim c s); [done..|lia|done|]. intros v1 Hv1 E1.
    pose proof (claimed_length c s). pose proof (claimed_mode c s) as Em.
    apply wp_bind. eapply wp_mono.
    { apply (IH (claimed c s)).
      - eapply ready_frame, Hr. by apply v_only_self.
      - by rewrite (only_rw _ _ _ Hv1).
      - apply claimed_ok; [done..|lia].
      - lia.
      - rewrite E1. apply lookup_insert_eq. }
    rewrite Em. intros r v2 (-> & Hv2 & s2 & E2 & Hok2 & Em2 & Hsc). apply wp_ret.
    split_and!; [done|by etrans|]. exists s2. rewrite E2, E1, insert_insert_eq.
    split_and!; [done..|]. intros x. rewrite Hsc. unfold scopes_after at 1.
    rewrite claimed_scopes. unfold scopes_after. set_solver.
Qed.

(** C26: the first claim on a database decides its delivery mode for good.  Whatever claims
    follow, exactly those of the same mode succeed, the stored mode never changes, and a
    selective record holds exactly the claimed scopes, sorted and distinct. *)
Theorem receiver_mode_exclusive (c : claim) (cs : list claim) (v : db_view) :
  ready v st → v_rw v = true → Forall claim_ok (c :: cs) →
  Z.of_nat (length (c :: cs)) ≤ selective_replication_max_manifest_entries →
  mode_table v !! db_id = None →
  wp (run_claims st db_id (c :: cs)) (claims_post (claim_mode c) [] (c :: cs) v) v.
Proof.
  intros Hr Hrw [Hc Hcs]%Forall_cons Hlen Hnone. simpl in Hlen. cbn [run_claims].
  apply wp_bind, (wp_claim_first c); [done..|]. intros v1 Hv1 E1.
  assert (mode (first_claim c) = claim_mode c ∧ (length (scope_ids (first_claim c)) ≤ 1)%nat)
    as [Em El] by (by destruct c; simpl; auto).
  apply wp_bind. eapply wp_mono.
  { apply (wp_claims cs (first_claim c)).
    - eapply ready_frame, Hr. by apply v_only_self.
    - by rewrite (only_rw _ _ _ Hv1).
    - done.
    - by apply first_claim_ok.
    - lia.
    - rewrite E1. apply lookup_insert_eq. }
  rewrite Em. intros r v2 (-> & Hv2 & s2 & E2 & Hok2 & Em2 & Hsc). apply wp_ret.
  split_and!; [|by etrans|].
  - rewrite fmap_cons. by rewrite bool_decide_true by done.
  - exists s2. rewrite E2, E1, insert_insert_eq. split_and!; [done..|]. intros x. rewrite Hsc.
    unfold scopes_after. destruct c as [|y]; simpl; set_solver.
Qed.
End Claims.

(** ** Witnesses *)

Definition sample_state : ReceiverReplicationModeState :=
  {| mode := Selective; scope_ids := [bytes_of_string "alpha"; bytes_of_string "beta"] |}.

Lemma receiver_mode_roundtrip_witness :
  ∃ data, encode sample_state = Ok data ∧ decode data = Ok sample_state.
Proof.
  apply receiver_mode_roundtrip. split_and!; [done|done|repeat constructor|by vm_compute].
Defined.

Definition sample_mode_view : db_view := {|
  v_env := 1; v_rw := true; v_dbs := {[ receiver_mode_name := mk_dbi 0 ∅ ]};
  v_handles := {[ 2 := receiver_mode_name ]};
|}.
Definition sample_mode_store : store := opened_at (new_store 1 receiver_mode_name) 2.
Definition sample_db : DbId := replicate 16 Byte.x09.
Definition sample_claims : list claim :=
  [ClaimSelective (bytes_of_string "b"); ClaimFull; ClaimSelective (bytes_of_string "a")].

Lemma receiver_mode_exclusive_witness :
  wp (X := ref_mdbx) (run_claims sample_mode_store sample_db sample_claims)
    (claims_post sample_mode_store sample_db Selective [] sample_claims sample_mode_view)
    sample_mode_view.
Proof.
  apply (receiver_mode_exclusive (X := ref_mdbx) sample_mode_store sample_db).
  - reflexivity.
  - discriminate.
  - split_and!; [reflexivity..|]. split; [reflexivity|]. eexists. split; reflexivity.
  - reflexivity.
  - repeat constructor.
  - discriminate.
  - reflexivity.
Defined.
