(* ===== verification/ScopeStore.v ===== *)
(** * SelectiveReplicationStore

    Models [src/include/mdbx_containers/sync/core/SelectiveReplication.hpp] and the class
    [SelectiveReplicationStore] of
    [src/include/mdbx_containers/sync/stores/SelectiveReplicationStore.hpp]: immutable scope
    descriptors in [_mdbxc_selective_scopes] and, for each table of a scope, its owner in
    [_mdbxc_selective_scope_dbis].  The theorem shows that registration keeps the two tables
    in agreement, so a table has one owner, and describes every outcome of a
    registration. *)
From S2P Require Import Prelude SyncCommon KeyCodec Wire SyncProtocol Mdbx RefMdbx StoreBase.
Open Scope Z_scope.

Definition scopes_name : bytes := bytes_of_string "_mdbxc_selective_scopes".
Definition dbis_name : bytes := bytes_of_string "_mdbxc_selective_scope_dbis".

Definition selective_replication_max_dbi_name_len : Z := 256.
Definition format_version : Z := 1.

(** ** Data *)

Record SelectiveReplicationDbi : Type := { m_dbi_name : bytes; m_dbi_flags : Z }.

Record SelectiveReplicationDescriptor : Type := {
  scope_id : bytes;
  designated_writer_origin : NodeId;
  manifest : list SelectiveReplicationDbi;
}.

Record SelectiveReplicationDbiBinding : Type := {
  b_scope_id : bytes;
  b_writer : NodeId;
  b_dbi_flags : Z;
}.

#[export] Instance scope_dbi_eq_dec : EqDecision SelectiveReplicationDbi.
Proof. solve_decision. Defined.
#[export] Instance descriptor_eq_dec : EqDecision SelectiveReplicationDescriptor.
Proof. solve_decision. Defined.
#[export] Instance binding_eq_dec : EqDecision SelectiveReplicationDbiBinding.
Proof. solve_decision. Defined.


(** ** Validation *)

(** The body of the manifest loop; [prev] is the name before this one. *)
Definition validate_dbi (prev : option bytes) (dbi_name : bytes) : result unit :=
  _ ← throw_if (bool_decide (dbi_name = []) || is_reserved_dbi_name dbi_name)
        (invalid_argument "selective replication manifest contains invalid DBI name");
  _ ← throw_if (size_of dbi_name >? selective_replication_max_dbi_name_len)
        (length_error "selective replication DBI name exceeds the v1 wire limit");
  match prev with
  | None => Ok tt
  | Some p => throw_if (negb (bool_decide (bytes_lt p dbi_name)))
      (invalid_argument "selective replication manifest DBI names must be sorted and unique")
  end.

Fixpoint validate_manifest (prev : option bytes) (l : list SelectiveReplicationDbi) : result unit :=
  match l with
  | [] => Ok tt
  | e :: l' => _ ← validate_dbi prev (m_dbi_name e); validate_manifest (Some (m_dbi_name e)) l'
  end.

Definition validate_descriptor (d : SelectiveReplicationDescriptor) : result unit :=
  _ ← throw_if (bool_decide (scope_id d = []))
        (invalid_argument "selective replication scope_id must not be empty");
  _ ← throw_if (size_of (scope_id d) >? selective_replication_max_scope_id_len)
        (length_error "selective replication scope_id exceeds the v1 wire limit");
  _ ← throw_if (is_zero_sync_id (designated_writer_origin d))
        (invalid_argument "selective replication designated writer must not be zero");
  _ ← throw_if (bool_decide (manifest d = []))
        (invalid_argument "selective replication manifest must not be empty");
  _ ← throw_if (Z.of_nat (length (manifest d)) >? selective_replication_max_manifest_entries)
        (length_error "selective replication manifest exceeds the v1 wire limit");
  validate_manifest None (manifest d).

Fixpoint manifests_equal (l r : list SelectiveReplicationDbi) : bool :=
  match l, r with
  | e :: l', f :: r' =>
      if negb (bool_decide (m_dbi_name e = m_dbi_name f)) || negb (m_dbi_flags e =? m_dbi_flags f)
      then false else manifests_equal l' r'
  | _, _ => true
  end.

Definition descriptors_equal (left right : SelectiveReplicationDescriptor) : bool :=
  if negb (bool_decide (scope_id left = scope_id right)) ||
     negb (compare_node_id (designated_writer_origin left) (designated_writer_origin right) =? 0) ||
     negb (length (manifest left) =? length (manifest right))%nat
  then false
  else manifests_equal (manifest left) (manifest right).

Definition binding_matches_descriptor (b : SelectiveReplicationDbiBinding)
    (d : SelectiveReplicationDescriptor) (e : SelectiveReplicationDbi) : bool :=
  bool_decide (b_scope_id b = scope_id d) &&
  (compare_node_id (b_writer b) (designated_writer_origin d) =? 0) &&
  (b_dbi_flags b =? m_dbi_flags e).

(** ** Encoding *)

Definition append_string (out s : bytes) : result bytes :=
  _ ← throw_if (size_of s >? 2 ^ 32 - 1) (length_error "selective replication string is too long");
  Ok (append_u32_le out (size_of s) ++ s).

Definition append_node_id (out : bytes) (id : NodeId) : bytes := out ++ id.

Fixpoint append_manifest (out : bytes) (l : list SelectiveReplicationDbi) : result bytes :=
  match l with
  | [] => Ok out
  | e :: l' =>
      out ← append_string out (m_dbi_name e);
      append_manifest (append_u32_le out (m_dbi_flags e)) l'
  end.

(** The value [put_descriptor] writes. *)
Definition encode_descriptor (d : SelectiveReplicationDescriptor) : result bytes :=
  out ← append_string (append_u32_le [] format_version) (scope_id d);
  let out := append_node_id out (designated_writer_origin d) in
  let n := Z.of_nat (length (manifest d)) in
  _ ← throw_if (n >? 2 ^ 32 - 1) (length_error "selective replication manifest is too large");
  append_manifest (append_u32_le out n) (manifest d).

(** The value [put_binding] writes. *)
Definition encode_binding (d : SelectiveReplicationDescriptor) (e : SelectiveReplicationDbi)
    : result bytes :=
  out ← append_string (append_u32_le [] format_version) (scope_id d);
  Ok (append_u32_le (append_node_id out (designated_writer_origin d)) (m_dbi_flags e)).

(** ** Decoding *)

(** [static_cast<std::uint32_t>(end - cursor)]. *)
Definition left_u32 (c : Cursor) : Z := Z.of_nat (length (remaining c)) mod 2 ^ 32.

Definition check_left (bad : Cursor → bool) (e : exn) : reader unit := fun c => check (bad c) e c.

Definition read_string : reader bytes :=
  size ← read_u32 (runtime_error "truncated selective replication string length");
  _ ← check_left (fun c => size >? left_u32 c) (runtime_error "truncated selective replication string");
  fetch (take (Z.to_nat size)) (Z.to_nat size).

Definition read_node_id : reader NodeId :=
  read_bytes (runtime_error "truncated selective replication node id") 16.

Definition read_manifest_entry : reader SelectiveReplicationDbi :=
  name ← read_string;
  flags ← read_u32 (runtime_error "truncated selective replication DBI flags");
  mret {| m_dbi_name := name; m_dbi_flags := flags |}.

Definition read_descriptor : reader SelectiveReplicationDescriptor :=
  id ← read_string;
  origin ← read_node_id;
  count ← read_u32 (runtime_error "truncated selective replication manifest count");
  _ ← check_left (fun c => count >? (Z.of_nat (length (remaining c)) / 8) mod 2 ^ 32) (runtime_error "selective replication manifest count exceeds remaining bytes");
  entries ← repeat_read (Z.to_nat count) read_manifest_entry;
  _ ← check_left (fun c => negb (length (remaining c) =? 0)%nat) (runtime_error "trailing selective replication descriptor bytes");
  mret {| scope_id := id; designated_writer_origin := origin; manifest := entries |}.

Definition decode_descriptor (x : bytes) : result SelectiveReplicationDescriptor :=
  let bad := runtime_error "unsupported selective replication descriptor format" in
  _ ← throw_if (length x <? 4)%nat bad;
  _ ← throw_if (negb (read_u32_le x =? format_version)) bad;
  '(decoded, _) ← read_descriptor (advance (make_cursor x) 4);
  _ ← validate_descriptor decoded;
  Ok decoded.

Definition read_binding : reader SelectiveReplicationDbiBinding :=
  id ← read_string;
  origin ← read_node_id;
  _ ← check_left (fun c => negb (length (remaining c) =? 4)%nat) (runtime_error "invalid selective replication DBI binding size");
  flags ← fetch read_u32_le 4;
  mret {| b_scope_id := id; b_writer := origin; b_dbi_flags := flags |}.

Definition decode_binding (x : bytes) : result SelectiveReplicationDbiBinding :=
  let bad := runtime_error "unsupported selective replication DBI binding format" in
  _ ← throw_if (length x <? 4)%nat bad;
  _ ← throw_if (negb (read_u32_le x =? format_version)) bad;
  '(decoded, _) ← read_binding (advance (make_cursor x) 4);
  Ok decoded.

(** ** The store *)

Record scope_store : Type := {
  sc_env : Z;
  m_scopes_dbi_name : bytes;
  m_dbis_dbi_name : bytes;
  m_scopes_dbi : Z;
  m_dbis_dbi : Z;
  sc_open : bool;
}.

Definition new_scope_store (env : Z) : scope_store := {|
  sc_env := env; m_scopes_dbi_name := scopes_name; m_dbis_dbi_name := dbis_name;
  m_scopes_dbi := 0; m_dbis_dbi := 0; sc_open := false;
|}.

Definition scopes_opened (st : scope_store) (scopes dbis : Z) : scope_store := {|
  sc_env := sc_env st; m_scopes_dbi_name := m_scopes_dbi_name st;
  m_dbis_dbi_name := m_dbis_dbi_name st; m_scopes_dbi := scopes; m_dbis_dbi := dbis; sc_open := true;
|}.

Definition reset_scopes (st : scope_store) : scope_store := {|
  sc_env := sc_env st; m_scopes_dbi_name := m_scopes_dbi_name st;
  m_dbis_dbi_name := m_dbis_dbi_name st; m_scopes_dbi := m_scopes_dbi st;
  m_dbis_dbi := m_dbis_dbi st; sc_open := false;
|}.

Section Code.
Context {X : Mdbx}.

Definition open_scopes_failed : string := "Failed to open selective scope descriptor DBI".
Definition open_dbis_failed : string := "Failed to open selective scope DBI index".
Definition main_failed : string := "Failed to open main DBI for selective scope lookup".

Definition enter_scopes (st : scope_store) (context : string) : M unit :=
  _ ← checked_txn_env (sc_env st) context;
  if negb (sc_open st) then fail (logic_error "SelectiveReplicationStore is not open") else mret tt.

Definition open (st : scope_store) : M scope_store :=
  _ ← checked_txn_env (sc_env st) "SelectiveReplicationStore::open";
  if sc_open st then mret st
  else
    scopes ← open_create (c_str (m_scopes_dbi_name st)) open_scopes_failed;
    dbis ← open_create (c_str (m_dbis_dbi_name st)) open_dbis_failed;
    mret (scopes_opened st scopes dbis).

Definition named_dbi_exists (main : Z) (name : bytes) : M bool :=
  listed main name "Failed to read selective scope store marker".

Definition plain_open (name : bytes) (context : string) : M Z :=
  '(rc, dbi) ← dbi_open name 0; _ ← check_mdbx rc context; mret dbi.

Definition open_existing (st : scope_store) : M (scope_store * bool) :=
  _ ← checked_txn_env (sc_env st) "SelectiveReplicationStore::open_existing";
  if sc_open st then mret (st, true)
  else
    main ← open_main main_failed;
    has_scopes ← named_dbi_exists main (m_scopes_dbi_name st);
    has_dbi_index ← named_dbi_exists main (m_dbis_dbi_name st);
    if negb has_scopes && negb has_dbi_index then mret (st, false)
    else if negb has_scopes || negb has_dbi_index then
      fail (runtime_error "selective replication descriptor and DBI-index stores disagree")
    else
      scopes ← plain_open (c_str (m_scopes_dbi_name st)) open_scopes_failed;
      dbis ← plain_open (c_str (m_dbis_dbi_name st)) open_dbis_failed;
      mret (scopes_opened st scopes dbis, true).

(** [None] is the result [false]. *)
Definition get_descriptor (st : scope_store) (id : bytes) : M (option SelectiveReplicationDescriptor) :=
  _ ← enter_scopes st "SelectiveReplicationStore::get";
  found ← lookup_record (m_scopes_dbi st) id "Selective replication descriptor read failed";
  match found with
  | None => mret None
  | Some x =>
      out ← lift (decode_descriptor x);
      _ ← lift (throw_if (negb (bool_decide (scope_id out = id)))
                  (runtime_error "selective replication descriptor scope identity mismatch"));
      mret (Some out)
  end.

Definition binding_read_failed : string := "Selective replication DBI binding read failed".

Definition lookup_binding (dbi : Z) (dbi_name : bytes) : M (option SelectiveReplicationDbiBinding) :=
  found ← lookup_record dbi dbi_name binding_read_failed;
  match found with
  | None => mret None
  | Some x => out ← lift (decode_binding x); mret (Some out)
  end.

Definition find_for_dbi (st : scope_store) (dbi_name : bytes)
    : M (option SelectiveReplicationDbiBinding) :=
  _ ← enter_scopes st "SelectiveReplicationStore::find_for_dbi";
  lookup_binding (m_dbis_dbi st) dbi_name.

Definition find_existing_for_dbi (env : Z) (dbi_name : bytes)
    : M (option SelectiveReplicationDbiBinding) :=
  _ ← checked_txn_env env "SelectiveReplicationStore::find_existing_for_dbi";
  main ← open_main main_failed;
  has_index ← listed main dbis_name "Failed to find selective scope DBI index";
  if negb has_index then
    has_scopes ← listed main scopes_name "Failed to find selective scope descriptor store";
    if has_scopes : bool then
      fail (runtime_error "selective scope descriptors exist without DBI index")
    else mret None
  else
    opened ← open_plain (c_str dbis_name) open_dbis_failed;
    match opened with
    | None => fail (runtime_error "selective scope DBI index is missing after registry lookup")
    | Some dbi => lookup_binding dbi dbi_name
    end.

Definition put_descriptor (st : scope_store) (d : SelectiveReplicationDescriptor) : M unit :=
  x ← lift (encode_descriptor d);
  put_record (m_scopes_dbi st) (scope_id d) x MDBX_NOOVERWRITE
    "selective replication descriptor write failed".

Definition put_binding (st : scope_store) (d : SelectiveReplicationDescriptor)
    (e : SelectiveReplicationDbi) : M unit :=
  x ← lift (encode_binding d e);
  put_record (m_dbis_dbi st) (m_dbi_name e) x MDBX_UPSERT
    "selective replication DBI binding write failed".

Definition immutable_scope : exn := logic_error "selective replication scope descriptor is immutable".
Definition owned_elsewhere : exn :=
  logic_error "DBI already belongs to a different selective replication scope".

(** The two loops of [register_or_verify]. *)
Fixpoint check_bindings (st : scope_store) (d : SelectiveReplicationDescriptor)
    (l : list SelectiveReplicationDbi) : M unit :=
  match l with
  | [] => mret tt
  | e :: l' =>
      found ← find_for_dbi st (m_dbi_name e);
      match found with
      | Some b =>
          if negb (binding_matches_descriptor b d e) then fail owned_elsewhere
          else check_bindings st d l'
      | None => check_bindings st d l'
      end
  end.

Fixpoint put_bindings (st : scope_store) (d : SelectiveReplicationDescriptor)
    (l : list SelectiveReplicationDbi) : M unit :=
  match l with
  | [] => mret tt
  | e :: l' => _ ← put_binding st d e; put_bindings st d l'
  end.

Definition register_or_verify (st : scope_store) (d : SelectiveReplicationDescriptor) : M unit :=
  _ ← enter_scopes st "SelectiveReplicationStore::register_or_verify";
  _ ← lift (validate_descriptor d);
  existing ← get_descriptor st (scope_id d);
  match existing with
  | Some found =>
      if negb (descriptors_equal found d) then fail immutable_scope
      else
        _ ← check_bindings st d (manifest d);
        put_bindings st d (manifest d)
  | None =>
      _ ← check_bindings st d (manifest d);
      _ ← put_descriptor st d;
      put_bindings st d (manifest d)
  end.
End Code.

(** ** Encodings *)

Definition string_bytes (s : bytes) : bytes := write_u32_le (size_of s) ++ s.
Definition entry_bytes (e : SelectiveReplicationDbi) : bytes :=
  string_bytes (m_dbi_name e) ++ write_u32_le (m_dbi_flags e).
Definition descriptor_bytes (d : SelectiveReplicationDescriptor) : bytes :=
  write_u32_le format_version ++ string_bytes (scope_id d) ++ designated_writer_origin d ++
  write_u32_le (Z.of_nat (length (manifest d))) ++ concat (entry_bytes <$> manifest d).
Definition binding_bytes (b : SelectiveReplicationDbiBinding) : bytes :=
  write_u32_le format_version ++ string_bytes (b_scope_id b) ++ b_writer b ++ write_u32_le (b_dbi_flags b).

Arguments string_bytes : simpl never.
Arguments entry_bytes : simpl never.
Arguments descriptor_bytes : simpl never.
Arguments binding_bytes : simpl never.

Definition binding_of (d : SelectiveReplicationDescriptor) (e : SelectiveReplicationDbi)
    : SelectiveReplicationDbiBinding :=
  {| b_scope_id := scope_id d; b_writer := designated_writer_origin d; b_dbi_flags := m_dbi_flags e |}.

(** The value ranges of the C++ field types. *)
Definition descriptor_ok (d : SelectiveReplicationDescriptor) : Prop :=
  node_ok (designated_writer_origin d) ∧ Forall (fun e => is_u32 (m_dbi_flags e)) (manifest d).
Definition binding_ok (b : SelectiveReplicationDbiBinding) : Prop :=
  size_of (b_scope_id b) < 2 ^ 31 ∧ node_ok (b_writer b) ∧ is_u32 (b_dbi_flags b).

#[export] Instance descriptor_ok_dec d : Decision (descriptor_ok d) := _.

(** What validation establishes. *)
Definition dbi_name_ok (n : bytes) : Prop :=
  n ≠ [] ∧ is_reserved_dbi_name n = false ∧ size_of n ≤ 256.

Record descriptor_valid (d : SelectiveReplicationDescriptor) : Prop := {
  dv_scope : scope_id d ≠ [];
  dv_scope_len : size_of (scope_id d) ≤ 256;
  dv_count : Z.of_nat (length (manifest d)) ≤ 10000;
  dv_names : Forall (fun e => dbi_name_ok (m_dbi_name e)) (manifest d);
  dv_sorted : StronglySorted bytes_lt (m_dbi_name <$> manifest d);
}.

Lemma validate_dbi_Ok prev n :
  validate_dbi prev n = Ok tt →
  dbi_name_ok n ∧ match prev with Some p => bytes_lt p n | None => True end.
Proof.
  unfold validate_dbi. intros H. ok_inv. zbool. unfold dbi_name_ok, selective_replication_max_dbi_name_len in *.
  destruct prev; ok_inv; zbool; auto.
Qed.

Lemma validate_manifest_Ok prev l :
  validate_manifest prev l = Ok tt →
  Forall (fun e => dbi_name_ok (m_dbi_name e)) l ∧
  StronglySorted bytes_lt (option_list prev ++ (m_dbi_name <$> l)).
Proof.
  revert prev. induction l as [|e l IH]; intros prev; simpl.
  - intros _. split; [constructor|]. destruct prev; simpl; repeat constructor.
  - intros ([] & [He Hp]%validate_dbi_Ok & [Hl Hs]%IH)%result_bind_Ok. split; [by constructor|].
    destruct prev as [p|]; simpl in *; [|done]. apply Sorted_StronglySorted; [apply _|].
    apply StronglySorted_Sorted in Hs. constructor; [done|by constructor].
Qed.

Lemma validate_descriptor_Ok d : validate_descriptor d = Ok tt → descriptor_valid d.
Proof.
  unfold validate_descriptor. intros H. ok_inv. zbool.
  unfold selective_replication_max_scope_id_len, selective_replication_max_manifest_entries in *.
  match goal with H : validate_manifest _ _ = _ |- _ => apply validate_manifest_Ok in H as [Hn Hs] end.
  by split.
Qed.

Lemma append_string_Ok out s : size_of s < 2 ^ 32 → append_string out s = Ok (out ++ string_bytes s).
Proof.
  intros Hs. unfold append_string, string_bytes, append_u32_le.
  rewrite Z.gtb_ltb, (proj2 (Z.ltb_ge _ _)) by lia. simpl. by rewrite <- app_assoc.
Qed.

Lemma append_manifest_Ok out l :
  Forall (fun e => dbi_name_ok (m_dbi_name e)) l →
  append_manifest out l = Ok (out ++ concat (entry_bytes <$> l)).
Proof.
  intros Hl. revert out. induction Hl as [|e l (_ & _ & He) Hl IH]; intros out; simpl.
  - by rewrite app_nil_r.
  - rewrite append_string_Ok by lia. simpl. rewrite IH. unfold append_u32_le, entry_bytes.
    by rewrite <- !app_assoc.
Qed.

Lemma encode_descriptor_Ok d : descriptor_valid d → encode_descriptor d = Ok (descriptor_bytes d).
Proof.
  intros []. unfold encode_descriptor. rewrite append_string_Ok by lia. cbn [mbind result_bind].
  rewrite Z.gtb_ltb, (proj2 (Z.ltb_ge _ _)) by lia. cbn [throw_if mbind result_bind].
  rewrite append_manifest_Ok by done. unfold append_u32_le, append_node_id, descriptor_bytes.
  by rewrite <- !app_assoc.
Qed.

Lemma encode_binding_Ok d e :
  size_of (scope_id d) < 2 ^ 32 → encode_binding d e = Ok (binding_bytes (binding_of d e)).
Proof.
  intros Hs. unfold encode_binding. rewrite append_string_Ok by lia. cbn [mbind result_bind].
  unfold append_u32_le, append_node_id, binding_bytes. simpl. by rewrite <- !app_assoc.
Qed.

(** Decoding in front of given bytes; the tests of the decoders look at all of them. *)
Definition reads_before {A} (r : reader A) (s rest : bytes) (a : A) : Prop :=
  ∀ c, at_bytes c (s ++ rest) → r c = Ok (a, advance c (length s)).

Lemma reads_reads_before {A} (r : reader A) s rest a : reads r s a → reads_before r s rest a.
Proof. intros H c Hc. by apply (H c rest). Qed.

Lemma reads_before_bind {A B} (r : reader A) (f : A → reader B) s1 s2 rest a b :
  reads_before r s1 (s2 ++ rest) a → reads_before (f a) s2 rest b →
  reads_before (r ≫= f) (s1 ++ s2) rest b.
Proof.
  intros H1 H2 c Hc. rewrite <- app_assoc in Hc. unfold mbind, reader_bind.
  rewrite H1 by done. rewrite H2 by by apply at_bytes_advance.
  by rewrite advance_advance, length_app.
Qed.

Lemma reads_before_check {B} bad e (f : unit → reader B) s rest b :
  (∀ c, remaining c = s ++ rest → bad c = false) → reads_before (f tt) s rest b →
  reads_before (check_left bad e ≫= f) s rest b.
Proof.
  intros Hb Hf c Hc. unfold mbind, reader_bind, check_left. rewrite Hb by apply Hc. by apply Hf.
Qed.

Lemma reads_before_ret {A} (a : A) rest : reads_before (mret a) [] rest a.
Proof. apply reads_reads_before, reads_ret. Qed.

Lemma fetch_before {A} (f : bytes → A) s rest n a :
  n = length s → f (s ++ rest) = a → reads_before (fetch f n) s rest a.
Proof. intros -> <- c [_ Hc]. unfold fetch. by rewrite Hc. Qed.

Definition fits_u32 (s : bytes) : Prop := size_of s < 2 ^ 32.

Lemma reads_string s rest : fits_u32 (s ++ rest) → reads_before read_string (string_bytes s) rest s.
Proof.
  unfold fits_u32, size_of. rewrite length_app. intros Hf.
  unfold string_bytes. eapply reads_before_bind.
  { apply reads_reads_before, reads_u32. unfold is_u32, size_of. lia. }
  eapply reads_before_check.
  - intros c Hc. unfold left_u32, size_of. rewrite Hc, length_app, Z.mod_small by lia.
    rewrite Z.gtb_ltb. apply Z.ltb_ge. lia.
  - apply fetch_before; unfold size_of; rewrite Nat2Z.id; [done|]. apply take_app_length.
Qed.

Lemma fits_tail s1 s2 : fits_u32 (s1 ++ s2) → fits_u32 s2.
Proof. unfold fits_u32, size_of. rewrite length_app. lia. Qed.

Lemma reads_entry e rest :
  is_u32 (m_dbi_flags e) → fits_u32 (entry_bytes e ++ rest) →
  reads_before read_manifest_entry (entry_bytes e) rest e.
Proof.
  intros He Hf. unfold entry_bytes, string_bytes in *. rewrite <- !app_assoc in Hf. apply fits_tail in Hf.
  eapply reads_before_bind; [by apply reads_string|]. rewrite <- (app_nil_r (write_u32_le _)).
  eapply reads_before_bind; [by apply reads_reads_before, reads_u32|].
  destruct e. apply reads_before_ret.
Qed.

Lemma reads_entries l rest :
  Forall (fun e => is_u32 (m_dbi_flags e)) l → fits_u32 (concat (entry_bytes <$> l) ++ rest) →
  reads_before (repeat_read (length l) read_manifest_entry) (concat (entry_bytes <$> l)) rest l.
Proof.
  induction 1 as [|e l He Hl IH]; intros Hf; [apply reads_before_ret|]. rewrite fmap_cons in *. cbn [concat] in *.
  rewrite <- app_assoc in Hf. eapply reads_before_bind; [by apply reads_entry|].
  rewrite <- (app_nil_r (concat _)). eapply reads_before_bind; [|apply reads_before_ret].
  apply IH. by eapply fits_tail.
Qed.

Lemma entry_bytes_length e : (8 ≤ length (entry_bytes e))%nat.
Proof.
  unfold entry_bytes, string_bytes. rewrite !length_app, !write_u32_le_length. lia.
Qed.

Lemma entries_length l : (8 * length l ≤ length (concat (entry_bytes <$> l)))%nat.
Proof.
  induction l as [|e l IH]; [done|]. rewrite fmap_cons. cbn [concat length].
  rewrite length_app. pose proof (entry_bytes_length e). lia.
Qed.

Lemma reads_node id rest : node_ok id → reads_before read_node_id id rest id.
Proof. intros Hid. apply reads_reads_before, reads_bytes. by rewrite Hid. Qed.

(** The bytes after the version. *)
Definition descriptor_body (d : SelectiveReplicationDescriptor) : bytes :=
  string_bytes (scope_id d) ++ designated_writer_origin d ++
  write_u32_le (Z.of_nat (length (manifest d))) ++ concat (entry_bytes <$> manifest d).

Lemma entries_le l :
  Forall (fun e => dbi_name_ok (m_dbi_name e)) l →
  (length (concat (entry_bytes <$> l)) ≤ 264 * length l)%nat.
Proof.
  induction 1 as [|e l (_ & _ & He) Hl IH]; [done|]. rewrite fmap_cons. cbn [concat length].
  unfold size_of in *. rewrite length_app. unfold entry_bytes at 1, string_bytes.
  rewrite !length_app, !write_u32_le_length. lia.
Qed.

Lemma reads_descriptor d :
  descriptor_ok d → descriptor_valid d → reads_before read_descriptor (descriptor_body d) [] d.
Proof.
  intros [Ho Hfl] [_ Hs Hc Hn _]. pose proof (entries_le _ Hn) as Hle. pose proof (entries_length (manifest d)) as Hge.
  unfold node_ok, size_of in *. unfold descriptor_body.
  eapply reads_before_bind.
  { apply reads_string. unfold fits_u32, size_of. rewrite !length_app, write_u32_le_length. simpl. lia. }
  eapply reads_before_bind; [by apply reads_node|].
  eapply reads_before_bind; [apply reads_reads_before, reads_u32; unfold is_u32; lia|].
  apply reads_before_check.
  { intros c ->. rewrite app_nil_r, Z.gtb_ltb. apply Z.ltb_ge. rewrite Z.mod_small.
    - apply Z.div_le_lower_bound; lia.
    - split; [apply Z.div_pos; lia|]. apply Z.div_lt_upper_bound; lia. }
  rewrite Nat2Z.id, <- (app_nil_r (concat _)). eapply reads_before_bind.
  { apply reads_entries; [done|]. unfold fits_u32, size_of. rewrite !length_app. simpl. lia. }
  apply reads_before_check; [by intros c ->|]. destruct d. apply reads_before_ret.
Qed.

Lemma at_bytes_skip4 n s : at_bytes (advance (make_cursor (write_u32_le n ++ s)) 4) s.
Proof.
  change 4%nat with (length (write_u32_le n)). apply at_bytes_advance, at_bytes_make.
Qed.

Lemma version_ok s : read_u32_le (write_u32_le format_version ++ s) = format_version.
Proof. apply read_write_u32_le. by vm_compute. Qed.

Lemma decode_descriptor_bytes d :
  descriptor_ok d → validate_descriptor d = Ok tt → decode_descriptor (descriptor_bytes d) = Ok d.
Proof.
  intros Hd Hv. unfold decode_descriptor. change (descriptor_bytes d) with (write_u32_le format_version ++ descriptor_body d).
  rewrite length_app, write_u32_le_length, version_ok. simpl (throw_if _ _). cbn [mbind result_bind].
  rewrite reads_descriptor; [|done|by apply validate_descriptor_Ok|].
  - cbn [mbind result_bind]. by rewrite Hv.
  - rewrite app_nil_r. apply at_bytes_skip4.
Qed.

Lemma decode_binding_bytes b : binding_ok b → decode_binding (binding_bytes b) = Ok b.
Proof.
  intros (Hs & Ho & Hf). unfold size_of, node_ok in *. unfold decode_binding, binding_bytes.
  rewrite length_app, write_u32_le_length, version_ok. simpl (throw_if _ _). cbn [mbind result_bind].
  assert (reads_before read_binding (string_bytes (b_scope_id b) ++ b_writer b ++ write_u32_le (b_dbi_flags b)) [] b) as H.
  { eapply reads_before_bind.
    { apply reads_string. unfold fits_u32, size_of. rewrite !length_app, write_u32_le_length. simpl. lia. }
    eapply reads_before_bind; [by apply reads_node|]. rewrite <- (app_nil_r (write_u32_le _)).
    apply reads_before_check; [intros c ->; by rewrite !length_app, write_u32_le_length|].
    eapply reads_before_bind.
    { apply fetch_before; [by rewrite write_u32_le_length|by apply read_write_u32_le]. }
    destruct b. apply reads_before_ret. }
  rewrite H; [done|]. rewrite app_nil_r. apply at_bytes_skip4.
Qed.

(** ** The registry *)

Definition registered (scopes : gmap bytes bytes) (d : SelectiveReplicationDescriptor) : Prop :=
  descriptor_ok d ∧ validate_descriptor d = Ok tt ∧ scopes !! scope_id d = Some (descriptor_bytes d).

(** The owner the index records for [e] is [d]. *)
Definition owned_by (d : SelectiveReplicationDescriptor) (e : SelectiveReplicationDbi) : bytes :=
  binding_bytes (binding_of d e).

(** The descriptors are well formed, and the index lists the tables of the descriptors, each
    with its owner, and nothing else. *)
Record registry_ok (scopes dbis : gmap bytes bytes) : Prop := {
  rg_scopes k x : scopes !! k = Some x → ∃ d, registered scopes d ∧ scope_id d = k;
  rg_owner n x : dbis !! n = Some x →
    ∃ d e, registered scopes d ∧ e ∈ manifest d ∧ m_dbi_name e = n ∧ x = owned_by d e;
  rg_members d e : registered scopes d → e ∈ manifest d → dbis !! m_dbi_name e = Some (owned_by d e);
}.

Lemma descriptor_bytes_inj d d' :
  descriptor_ok d → validate_descriptor d = Ok tt → descriptor_ok d' → validate_descriptor d' = Ok tt →
  descriptor_bytes d = descriptor_bytes d' → d = d'.
Proof.
  intros Hd Hv Hd' Hv' E. apply decode_descriptor_bytes in Hv, Hv'; [|done..]. rewrite E in Hv. congruence.
Qed.

Lemma binding_of_ok d e : descriptor_ok d → validate_descriptor d = Ok tt → e ∈ manifest d → binding_ok (binding_of d e).
Proof.
  intros [Ho Hf] Hv%validate_descriptor_Ok He. rewrite Forall_forall in Hf. pose proof (dv_scope_len _ Hv).
  unfold binding_ok. simpl. split_and!; [lia|done|auto].
Qed.

Lemma decode_owned d e :
  descriptor_ok d → validate_descriptor d = Ok tt → e ∈ manifest d →
  decode_binding (owned_by d e) = Ok (binding_of d e).
Proof. intros. by apply decode_binding_bytes, binding_of_ok. Qed.

Lemma owned_by_inj d e d' e' :
  descriptor_ok d → validate_descriptor d = Ok tt → e ∈ manifest d →
  descriptor_ok d' → validate_descriptor d' = Ok tt → e' ∈ manifest d' →
  owned_by d e = owned_by d' e' → binding_of d e = binding_of d' e'.
Proof.
  intros H1 H2 H3 H1' H2' H3' E. pose proof (decode_owned d e H1 H2 H3) as D.
  rewrite E, decode_owned in D by done. congruence.
Qed.

Lemma descriptor_names_inj d e e' :
  validate_descriptor d = Ok tt → e ∈ manifest d → e' ∈ manifest d → m_dbi_name e = m_dbi_name e' → e = e'.
Proof.
  intros Hv%validate_descriptor_Ok. pose proof (dv_sorted _ Hv) as Hs. clear Hv.
  induction (manifest d) as [|a l IH]; [by intros ?%elem_of_nil|].
  rewrite fmap_cons in Hs. apply StronglySorted_inv in Hs as [Hs Ha]. rewrite Forall_forall in Ha.
  assert (∀ b, b ∈ l → m_dbi_name a ≠ m_dbi_name b) as Hne.
  { intros b Hb E. specialize (Ha (m_dbi_name b) ltac:(by apply list_elem_of_fmap_2)).
    rewrite E in Ha. by apply bytes_lt_irrefl in Ha. }
  intros [->|He]%elem_of_cons [->|He']%elem_of_cons E; [done| | |by apply IH]; exfalso.
  - by apply (Hne e').
  - by apply (Hne e).
Qed.

(** A table belongs to at most one scope. *)
Lemma one_owner scopes dbis d e d' e' :
  registry_ok scopes dbis → registered scopes d → e ∈ manifest d → registered scopes d' → e' ∈ manifest d' →
  m_dbi_name e = m_dbi_name e' → d = d' ∧ e = e'.
Proof.
  intros Hr Hd He Hd' He' E. pose proof (rg_members _ _ Hr d e Hd He) as H1.
  pose proof (rg_members _ _ Hr d' e' Hd' He') as H2.
  rewrite E, H2 in H1. apply (inj Some) in H1. destruct Hd as (Hok & Hv & Hs), Hd' as (Hok' & Hv' & Hs').
  assert (binding_of d e = binding_of d' e') as [= Eid Ew Ef] by (by apply owned_by_inj).
  assert (d = d') as <-.
  { apply descriptor_bytes_inj; [done..|]. rewrite Eid, Hs' in Hs. congruence. }
  split; [done|]. by eapply descriptor_names_inj.
Qed.

Lemma manifests_equal_spec l r : length l = length r → manifests_equal l r = true ↔ l = r.
Proof.
  revert r. induction l as [|[n f] l IH]; intros [|[n' f'] r]; simpl; intros Hl; try done.
  destruct (bool_decide_reflect (n = n')) as [->|Hn]; simpl.
  - destruct (Z.eqb_spec f f') as [->|Hf]; simpl; [rewrite IH by lia|]; split; congruence.
  - split; congruence.
Qed.

Lemma descriptors_equal_spec d d' :
  descriptor_ok d → descriptor_ok d' → descriptors_equal d d' = bool_decide (d = d').
Proof.
  intros [Ho _] [Ho' _]. unfold descriptors_equal. destruct d as [i o m], d' as [i' o' m']; simpl in *.
  pose proof (compare_node_id_zero o o') as Hc. unfold node_ok in *.
  destruct (bool_decide_reflect (i = i')) as [->|?]; simpl; [|by rewrite bool_decide_false by congruence].
  destruct (Z.eqb_spec (compare_node_id o o') 0) as [E|E]; simpl.
  - apply Hc in E as ->; [|done..]. destruct (Nat.eqb_spec (length m) (length m')) as [El|El]; simpl.
    + apply (manifests_equal_spec m m') in El as Hm. destruct (manifests_equal m m').
      * rewrite bool_decide_true; [done|]. f_equal. by apply Hm.
      * rewrite bool_decide_false; [done|]. intros [= ->]. by specialize (proj2 Hm eq_refl).
    + rewrite bool_decide_false; [done|]. by intros [= ->].
  - rewrite bool_decide_false; [done|]. intros [= ->]. by apply E, Hc.
Qed.

Lemma binding_matches_spec b d e :
  node_ok (b_writer b) → descriptor_ok d →
  binding_matches_descriptor b d e = bool_decide (b = binding_of d e).
Proof.
  intros Hb [Ho _]. unfold binding_matches_descriptor, binding_of. destruct b as [i o f]; simpl in *.
  pose proof (compare_node_id_zero o (designated_writer_origin d)) as Hc.
  destruct (bool_decide_reflect (i = scope_id d)) as [->|?]; simpl; [|by rewrite bool_decide_false by congruence].
  destruct (Z.eqb_spec (compare_node_id o (designated_writer_origin d)) 0) as [E|E]; simpl.
  - apply Hc in E as ->; [|done..]. destruct (Z.eqb_spec f (m_dbi_flags e)) as [->|Hf];
      [by rewrite bool_decide_true|rewrite bool_decide_false; congruence].
  - rewrite bool_decide_false; [done|]. intros [= ->]. by apply E, Hc.
Qed.

(** The store under its default names. *)
Definition default_names (st : scope_store) : Prop :=
  m_scopes_dbi_name st = scopes_name ∧ m_dbis_dbi_name st = dbis_name.

Definition scopes_ready (v : db_view) (st : scope_store) : Prop :=
  sc_open st = true ∧ sc_env st = v_env v ∧ default_names st ∧
  bound v (m_scopes_dbi st) scopes_name 0 ∧ bound v (m_dbis_dbi st) dbis_name 0.

Lemma scopes_ready_frame ns v v' st : v_frame ns v v' → scopes_ready v st → scopes_ready v' st.
Proof.
  intros Hf (Ho & He & Hn & H1 & H2). split_and!; [done| |apply Hn..|by eapply bound_frame|by eapply bound_frame].
  by rewrite (fr_env _ _ _ Hf).
Qed.

(** What a lookup in the index returns. *)
Definition find_result (dbis : gmap bytes bytes) (n : bytes) : result (option SelectiveReplicationDbiBinding) :=
  match dbis !! n with
  | None => Ok None
  | Some x => b ← decode_binding x; Ok (Some b)
  end.

(** The table of [e] is free or belongs to [d] already. *)
Definition free_for (dbis : gmap bytes bytes) (d : SelectiveReplicationDescriptor) (e : SelectiveReplicationDbi) : bool :=
  match dbis !! m_dbi_name e with
  | None => true
  | Some x => bool_decide (x = owned_by d e)
  end.

Definition bind_all (d : SelectiveReplicationDescriptor) (l : list SelectiveReplicationDbi)
    (dbis : gmap bytes bytes) : gmap bytes bytes :=
  foldl (fun m e => <[m_dbi_name e := owned_by d e]> m) dbis l.

Lemma bind_all_other d l dbis n :
  n ∉ (m_dbi_name <$> l) → bind_all d l dbis !! n = dbis !! n.
Proof.
  revert dbis. induction l as [|e l IH]; intros dbis; [done|]. rewrite fmap_cons, not_elem_of_cons.
  intros [Hn Hl]. unfold bind_all in *. simpl. rewrite IH by done. by rewrite lookup_insert_ne.
Qed.

Lemma bind_all_member d l dbis e :
  (∀ a b, a ∈ l → b ∈ l → m_dbi_name a = m_dbi_name b → a = b) → e ∈ l →
  bind_all d l dbis !! m_dbi_name e = Some (owned_by d e).
Proof.
  revert dbis. induction l as [|a l IH]; intros dbis Hinj; [by intros ?%elem_of_nil|].
  intros He. destruct (decide (e ∈ l)) as [Hl|Hl].
  - apply (IH (<[_ := _]> dbis)); [|done]. intros x y Hx Hy. apply Hinj; by right.
  - apply elem_of_cons in He as [->|]; [|done]. change (bind_all d (a :: l) dbis) with
      (bind_all d l (<[m_dbi_name a := owned_by d a]> dbis)).
    rewrite bind_all_other; [by rewrite lookup_insert_eq|].
    intros (b & E & Hb)%list_elem_of_fmap. apply Hl. rewrite (Hinj a b); [done|by left|by right|done].
Qed.

Section Preserve.
Context (scopes dbis : gmap bytes bytes) (d : SelectiveReplicationDescriptor) (Hr : registry_ok scopes dbis).
Context (Hok : descriptor_ok d) (Hv : validate_descriptor d = Ok tt).
Context (Hnew : scopes !! scope_id d = None ∨ scopes !! scope_id d = Some (descriptor_bytes d)).
Context (Hfree : forallb (free_for dbis d) (manifest d) = true).

Lemma registered_insert d' :
  registered (<[scope_id d := descriptor_bytes d]> scopes) d' ↔ d' = d ∨ registered scopes d'.
Proof.
  unfold registered. split.
  - intros (Ho' & Hv' & Hs). destruct (decide (scope_id d' = scope_id d)) as [E|E].
    + left. rewrite E, lookup_insert_eq in Hs. apply (inj Some) in Hs. symmetry. by apply descriptor_bytes_inj.
    + right. by rewrite lookup_insert_ne in Hs by congruence.
  - intros [->|(Ho' & Hv' & Hs)]; [by rewrite lookup_insert_eq|]. split_and!; [done..|].
    destruct (decide (scope_id d' = scope_id d)) as [E|E].
    + rewrite E, lookup_insert_eq. rewrite E in Hs. destruct Hnew; congruence.
    + by rewrite lookup_insert_ne by congruence.
Qed.

Lemma free_owner e d' e' :
  e ∈ manifest d → registered scopes d' → e' ∈ manifest d' → m_dbi_name e' = m_dbi_name e →
  scope_id d' = scope_id d.
Proof.
  intros He Hd' He' E. pose proof (rg_members _ _ Hr d' e' Hd' He') as Hm. rewrite E in Hm.
  rewrite forallb_forall in Hfree. specialize (Hfree e ltac:(by apply list_elem_of_In)).
  unfold free_for in Hfree. rewrite Hm in Hfree. zbool. destruct Hd' as (Ho' & Hv' & _).
  apply owned_by_inj in Hfree; [|done..]. by injection Hfree.
Qed.

Lemma register_registry_ok :
  registry_ok (<[scope_id d := descriptor_bytes d]> scopes) (bind_all d (manifest d) dbis).
Proof.
  assert (∀ a b, a ∈ manifest d → b ∈ manifest d → m_dbi_name a = m_dbi_name b → a = b) as Hinj
    by (intros; by eapply descriptor_names_inj).
  split.
  - intros k x Hk. destruct (decide (k = scope_id d)) as [->|Hne].
    + exists d. split; [|done]. apply registered_insert. by left.
    + rewrite lookup_insert_ne in Hk by done. apply (rg_scopes _ _ Hr) in Hk as (d' & Hd' & <-).
      exists d'. split; [|done]. apply registered_insert. by right.
  - intros n x Hn. destruct (decide (n ∈ (m_dbi_name <$> manifest d))) as [Hin|Hin].
    + apply list_elem_of_fmap in Hin as (e & -> & He). rewrite bind_all_member in Hn by done.
      exists d, e. split_and!; [|done..|congruence]. apply registered_insert. by left.
    + rewrite bind_all_other in Hn by done. apply (rg_owner _ _ Hr) in Hn as (d' & e & Hd' & ?).
      exists d', e. split; [|done]. apply registered_insert. by right.
  - intros d' e Hd' He. apply registered_insert in Hd' as [->|Hd']; [by apply bind_all_member|].
    destruct (decide (m_dbi_name e ∈ (m_dbi_name <$> manifest d))) as [Hin|Hin].
    + apply list_elem_of_fmap in Hin as (e2 & E & He2).
      assert (scope_id d' = scope_id d) as Eid by by eapply free_owner.
      assert (d' = d) as ->; [|by apply bind_all_member].
      destruct Hd' as (Ho' & Hv' & Hs'). apply descriptor_bytes_inj; [done..|].
      rewrite Eid in Hs'. destruct Hnew; congruence.
    + rewrite bind_all_other by done. by apply (rg_members _ _ Hr).
Qed.
End Preserve.

(** ** Rules *)

Section Rules.
Context {X : Mdbx} {L : MdbxLaws X}.

Lemma wp_enter_scopes {A} (f : unit → M A) st context Q v :
  scopes_ready v st → wp (f tt) Q v → wp (enter_scopes st context ≫= f) Q v.
Proof.
  intros (Ho & Henv & _) HQ. unfold enter_scopes. apply wp_assoc, wp_bind, wp_checked_txn; [done|].
  rewrite Ho. by apply wp_ret_bind.
Qed.

Lemma wp_lookup_binding dbi n Q v :
  bound v dbi dbis_name 0 → Q (find_result (recs v dbis_name) n) v → wp (lookup_binding dbi n) Q v.
Proof.
  intros Hb HQ. apply wp_bind. eapply wp_lookup; [done..|]. unfold find_result in HQ.
  destruct (recs v dbis_name !! n) as [x|]; [|by apply wp_ret].
  apply wp_lift_bind. destruct (decode_binding x) as [b|e]; [by apply wp_ret|done].
Qed.

Lemma wp_find_for_dbi st n Q v :
  scopes_ready v st → Q (find_result (recs v dbis_name) n) v → wp (find_for_dbi st n) Q v.
Proof.
  intros Hr HQ. apply wp_enter_scopes; [done|]. apply wp_lookup_binding; [apply Hr|done].
Qed.

Definition store_present (v : db_view) : bool * bool :=
  (bool_decide (is_Some (v_dbs v !! scopes_name)), bool_decide (is_Some (v_dbs v !! dbis_name))).

Lemma wp_plain_open {A} name context (f : Z → M A) Q v :
  sys_table v name → is_Some (v_dbs v !! name) →
  (∀ dbi v', v_reopen v v' → bound v' dbi name 0 → wp (f dbi) Q v') →
  wp (plain_open name context ≫= f) Q v.
Proof.
  intros Hs [d Hd] HQ. apply wp_assoc, wp_open_existing; [done|..].
  - intros rc dbi v' He. apply wp_assoc. engine_error_case.
  - congruence.
  - intros dbi v' _ Hre Hb. apply wp_assoc, wp_ret_bind, wp_ret_bind. auto.
Qed.

(** Opening the stores without creating them: both or none must exist. *)
Lemma wp_open_existing_scopes st Q v :
  sc_open st = false → sc_env st = v_env v → default_names st →
  sys_table v scopes_name → sys_table v dbis_name →
  match store_present v with
  | (false, false) => Q (Ok (st, false)) v
  | (true, true) => ∀ st' v', v_reopen v v' → scopes_ready v' st' → Q (Ok (st', true)) v'
  | _ => Q (Throw (runtime_error "selective replication descriptor and DBI-index stores disagree")) v
  end →
  wp (open_existing st) Q v.
Proof.
  intros Ho Henv [Hn1 Hn2] Hs1 Hs2 HQ. apply wp_bind, wp_checked_txn; [done|]. rewrite Ho.
  apply wp_bind, wp_open_main. intros main Hm.
  apply wp_bind, wp_listed; [done|]. apply wp_bind, wp_listed; [done|]. rewrite Hn1, Hn2.
  unfold store_present in HQ.
  destruct (bool_decide_reflect (is_Some (v_dbs v !! scopes_name))) as [H1|H1],
    (bool_decide_reflect (is_Some (v_dbs v !! dbis_name))) as [H2|H2]; cbn [negb andb orb];
    [|by apply wp_fail..|by apply wp_ret].
  apply wp_plain_open; [done..|]. intros dbi1 v1 Hr1 Hb1.
  apply wp_plain_open; [|by rewrite (proj2 Hr1)|].
  { unfold sys_table. by rewrite (ext_table _ _ (proj1 Hr1)). }
  intros dbi2 v2 Hr2 Hb2. apply wp_ret, HQ; [by etrans|].
  split; [done|]. split.
  { simpl. rewrite (ext_env _ _ (proj1 Hr2)), (ext_env _ _ (proj1 Hr1)). done. }
  split; [done|]. split; [|done]. eapply bound_ext, Hb1. apply Hr2.
Qed.

(** The lookup of the write guard. *)
Definition existing_result (v : db_view) (n : bytes) : result (option SelectiveReplicationDbiBinding) :=
  match store_present v with
  | (_, true) => find_result (recs v dbis_name) n
  | (true, false) => Throw (runtime_error "selective scope descriptors exist without DBI index")
  | (false, false) => Ok None
  end.

Lemma wp_find_existing env n Q v :
  env = v_env v → sys_table v dbis_name →
  (∀ v', v_reopen v v' → Q (existing_result v n) v') → wp (find_existing_for_dbi env n) Q v.
Proof.
  intros Henv Hs HQ. apply wp_bind, wp_checked_txn; [done|].
  apply wp_bind, wp_open_main. intros main Hm. apply wp_bind, wp_listed; [done|].
  unfold existing_result, store_present in HQ. change (c_str dbis_name) with dbis_name.
  destruct (bool_decide_reflect (is_Some (v_dbs v !! dbis_name))) as [H2|H2]; cbn [negb].
  - apply wp_bind, wp_open_plain; [done|..].
    + intros E. exfalso. rewrite E in H2. by destruct H2.
    + intros _ dbi v' (_ & Hext & Hb & _ & Hre). apply wp_lookup_binding; [done|].
      rewrite (ext_recs _ _ _ Hext). destruct (bool_decide (is_Some (v_dbs v !! scopes_name))); auto.
  - apply wp_bind, wp_listed; [done|].
    destruct (bool_decide (is_Some (v_dbs v !! scopes_name))); [apply wp_fail|apply wp_ret]; by apply HQ.
Qed.

Lemma registry_find scopes dbis d e :
  registry_ok scopes dbis → descriptor_ok d →
  validate_descriptor d = Ok tt → e ∈ manifest d →
  match find_result dbis (m_dbi_name e) with
  | Ok None => free_for dbis d e = true
  | Ok (Some b) => binding_matches_descriptor b d e = free_for dbis d e
  | Throw _ => False
  end.
Proof.
  intros Hr Hd Hv He. unfold find_result, free_for.
  destruct (dbis !! m_dbi_name e) as [x|] eqn:Ex; [|done].
  destruct (rg_owner _ _ Hr _ _ Ex) as (d' & e' & (Ho' & Hv' & _) & He' & _ & ->).
  rewrite decode_owned by done. simpl. rewrite binding_matches_spec by (done || apply Ho').
  apply bool_decide_ext. split; [|by apply owned_by_inj]. unfold owned_by. by intros ->.
Qed.

Lemma wp_check_bindings st d l Q v :
  scopes_ready v st → registry_ok (recs v scopes_name) (recs v dbis_name) → descriptor_ok d →
  validate_descriptor d = Ok tt → l ⊆ manifest d →
  Q (if forallb (free_for (recs v dbis_name) d) l then Ok tt else Throw owned_elsewhere) v →
  wp (check_bindings st d l) Q v.
Proof.
  intros Hr Hg Hd Hv. induction l as [|e l IH]; intros Hl HQ; [by apply wp_ret|].
  apply wp_bind, wp_find_for_dbi; [done|].
  pose proof (registry_find _ _ d e Hg Hd Hv ltac:(set_solver)) as Hf. cbn [forallb] in HQ.
  destruct (find_result _ _) as [[b|]|x]; [..|done]; rewrite ?Hf in *.
  - destruct (free_for _ d e); [|by apply wp_fail]. apply IH; [set_solver|done].
  - apply IH; [set_solver|done].
Qed.

Lemma wp_get_descriptor st id Q v :
  scopes_ready v st → registry_ok (recs v scopes_name) (recs v dbis_name) →
  (recs v scopes_name !! id = None → Q (Ok None) v) →
  (∀ d, registered (recs v scopes_name) d → scope_id d = id → Q (Ok (Some d)) v) →
  wp (get_descriptor st id) Q v.
Proof.
  intros Hr Hg HN HS. apply wp_enter_scopes; [done|]. apply wp_bind. eapply wp_lookup; [apply Hr|done|].
  destruct (recs v scopes_name !! id) as [x|] eqn:Ex; [|by apply wp_ret, HN].
  destruct (rg_scopes _ _ Hg _ _ Ex) as (d & Hd & <-). destruct (Hd) as (Ho & Hv & Hs).
  rewrite Ex in Hs. apply (inj Some) in Hs as ->. rewrite decode_descriptor_bytes by done.
  apply wp_lift_bind, wp_lift_bind. rewrite bool_decide_true by done. simpl. apply wp_ret. auto.
Qed.

Lemma wp_put_bindings st d l Q v :
  scopes_ready v st → v_rw v = true → size_of (scope_id d) < 2 ^ 32 →
  (∀ v', v_only dbis_name v v' → recs v' dbis_name = bind_all d l (recs v dbis_name) → Q (Ok tt) v') →
  wp (put_bindings st d l) Q v.
Proof.
  intros Hr Hrw Hs. revert v Hr Hrw. induction l as [|e l IH]; intros v Hr Hrw HQ; [by apply wp_ret, HQ|].
  cbn [put_bindings]. apply wp_bind. unfold put_binding. apply wp_lift_bind.
  rewrite encode_binding_Ok by done. fold (owned_by d e).
  destruct Hr as (Ho & He & Hn & Hb1 & Hb2). eapply wp_put; [exact Hb2|done..|].
  set (v1 := v_update v dbis_name _). assert (v_only dbis_name v v1) as Hon by apply v_only_update.
  apply IH; [|done|].
  - eapply scopes_ready_frame; [by apply v_only_self|]. by split_and!; try apply Hn.
  - intros v' Hv' Hrec. apply HQ; [by etrans|]. rewrite Hrec. unfold v1.
    rewrite recs_updated by by eapply bound_is_Some. done.
Qed.
End Rules.

(** ** Registration *)

(** What [register_or_verify] answers. *)
Definition register_result (scopes dbis : gmap bytes bytes) (d : SelectiveReplicationDescriptor) : result unit :=
  _ ← validate_descriptor d;
  if match scopes !! scope_id d with None => false | Some x => negb (bool_decide (x = descriptor_bytes d)) end
  then Throw immutable_scope
  else if forallb (free_for dbis d) (manifest d) then Ok tt
  else Throw owned_elsewhere.

(** Afterwards the registry is well formed, and a refused registration changed nothing. *)
Record register_post (d : SelectiveReplicationDescriptor) (v : db_view) (r : result unit) (v' : db_view) : Prop := {
  rp_result : r = register_result (recs v scopes_name) (recs v dbis_name) d;
  rp_frame : v_frame [scopes_name; dbis_name] v v';
  rp_registry : registry_ok (recs v' scopes_name) (recs v' dbis_name);
  rp_change :
    match r with
    | Ok _ =>
        recs v' scopes_name = <[scope_id d := descriptor_bytes d]> (recs v scopes_name) ∧
        ∀ e, e ∈ manifest d → find_result (recs v' dbis_name) (m_dbi_name e) = Ok (Some (binding_of d e))
    | Throw _ => v' = v
    end;
  rp_owner d1 e1 d2 e2 :
    registered (recs v' scopes_name) d1 → registered (recs v' scopes_name) d2 →
    e1 ∈ manifest d1 → e2 ∈ manifest d2 → m_dbi_name e1 = m_dbi_name e2 → d1 = d2;
}.

Section Register.
Context {X : Mdbx} {L : MdbxLaws X}.

Lemma register_unclaimed d v :
  validate_descriptor d = Ok tt →
  recs v scopes_name !! scope_id d = None ∨ recs v scopes_name !! scope_id d = Some (descriptor_bytes d) →
  register_result (recs v scopes_name) (recs v dbis_name) d =
  if forallb (free_for (recs v dbis_name) d) (manifest d) then Ok tt else Throw owned_elsewhere.
Proof.
  intros Hv Hn. unfold register_result. rewrite Hv. cbn [mbind result_bind].
  destruct Hn as [->| ->]; [done|]. by rewrite bool_decide_true.
Qed.

Lemma register_refused d v e :
  registry_ok (recs v scopes_name) (recs v dbis_name) →
  register_result (recs v scopes_name) (recs v dbis_name) d = Throw e → register_post d v (Throw e) v.
Proof.
  intros Hg E. split; [done|done|done|done|]. intros. by eapply one_owner.
Qed.

Lemma register_done d v v' :
  registry_ok (recs v scopes_name) (recs v dbis_name) → descriptor_ok d → validate_descriptor d = Ok tt →
  register_result (recs v scopes_name) (recs v dbis_name) d = Ok tt →
  v_frame [scopes_name; dbis_name] v v' →
  recs v' scopes_name = <[scope_id d := descriptor_bytes d]> (recs v scopes_name) →
  recs v' dbis_name = bind_all d (manifest d) (recs v dbis_name) → register_post d v (Ok tt) v'.
Proof.
  intros Hg Hd Hv E Hf E1 E2. pose proof E as Hc. unfold register_result in Hc. rewrite Hv in Hc. cbn [mbind result_bind] in Hc.
  assert (recs v scopes_name !! scope_id d = None ∨ recs v scopes_name !! scope_id d = Some (descriptor_bytes d)) as Hn.
  { destruct (recs v scopes_name !! scope_id d) as [x|]; [|by left]. right. f_equal.
    by destruct (bool_decide_reflect (x = descriptor_bytes d)). }
  assert (forallb (free_for (recs v dbis_name) d) (manifest d) = true) as Hfr.
  { destruct (forallb _ _); [done|]. by destruct (match _ with None => _ | _ => _ end). }
  assert (registry_ok (recs v' scopes_name) (recs v' dbis_name)) as Hg'.
  { rewrite E1, E2. by apply register_registry_ok. }
  split; [done|done|done| |intros; by eapply one_owner].
  split; [done|]. intros e He. unfold find_result.
  assert (registered (recs v' scopes_name) d) as Hd'.
  { rewrite E1. unfold registered. by rewrite lookup_insert_eq. }
  rewrite (rg_members _ _ Hg' d e Hd' He), decode_owned by done. done.
Qed.

(** C27: on a registry whose index lists exactly the tables of its descriptors, registering a
    scope is refused with the code's error, and changes nothing, when the descriptor is
    invalid, when another descriptor has its id, or when another scope owns one of its tables;
    otherwise the descriptor is stored, each of its tables is found with it as the owner, no
    other table of the database changes, the registry stays well formed, and every table
    still has one owner. *)
Theorem register_scope_sound (st : scope_store) (d : SelectiveReplicationDescriptor) (v : db_view) :
  scopes_ready v st → v_rw v = true → descriptor_ok d →
  registry_ok (recs v scopes_name) (recs v dbis_name) →
  wp (register_or_verify st d) (register_post d v) v.
Proof.
  intros Hr Hrw Hd Hg. apply wp_enter_scopes; [done|]. apply wp_lift_bind.
  destruct (validate_descriptor d) as [[]|x] eqn:Hv;
    [|apply register_refused; [done|]; unfold register_result; by rewrite Hv].
  pose proof (dv_scope_len _ (validate_descriptor_Ok _ Hv)) as Hlen.
  apply wp_bind, wp_get_descriptor; [done..| |].
  - intros Hnone. apply wp_bind, wp_check_bindings; [done..|].
    pose proof (register_unclaimed d v Hv (or_introl Hnone)) as Er.
    destruct (forallb _ _); [|by apply register_refused].
    apply wp_bind. unfold put_descriptor. rewrite encode_descriptor_Ok by by apply validate_descriptor_Ok.
    apply wp_lift_bind. destruct (Hr) as (_ & _ & _ & Hb1 & _).
    eapply wp_put_new; [exact Hb1|done..| |by intros [? [=]%(eq_trans (eq_sym Hnone))]].
    intros _. set (v1 := v_update v scopes_name _). assert (v_only scopes_name v v1) as Hon by apply v_only_update.
    apply wp_put_bindings; [by eapply scopes_ready_frame, Hr; apply v_only_self|done|lia|].
    intros v' Hv' Hrec. eapply register_done; [done..| | |].
    + etrans; [eapply v_only_frame, Hon|eapply v_only_frame, Hv']; set_solver.
    + rewrite (recs_frame _ _ _ _ (v_only_self _ _ _ Hv')) by (by rewrite list_elem_of_singleton).
      unfold v1. by rewrite recs_updated by by eapply bound_is_Some.
    + rewrite Hrec. f_equal. unfold v1. by rewrite recs_other.
  - intros d0 Hd0 Eid. destruct Hd0 as (Ho0 & Hv0 & Hs0). rewrite Eid in Hs0.
    rewrite descriptors_equal_spec by done.
    destruct (bool_decide_reflect (d0 = d)) as [->|Hne]; simpl.
    2: { apply wp_fail, register_refused; [done|]. unfold register_result. rewrite Hv, Hs0. cbn [mbind result_bind].
         rewrite bool_decide_false; [done|]. by intros ?%descriptor_bytes_inj. }
    apply wp_bind, wp_check_bindings; [done..|].
    pose proof (register_unclaimed d v Hv (or_intror Hs0)) as Er.
    destruct (forallb _ _); [|by apply register_refused].
    apply wp_put_bindings; [done|done|lia|]. intros v' Hv' Hrec.
    eapply register_done; [done..| | |done].
    + eapply v_only_frame, Hv'. set_solver.
    + rewrite (recs_frame _ _ _ _ (v_only_self _ _ _ Hv')) by (by rewrite list_elem_of_singleton).
      symmetry. by apply insert_id.
Qed.
End Register.

(** ** A concrete registry *)

Definition sample_member (name : string) : SelectiveReplicationDbi :=
  {| m_dbi_name := bytes_of_string name; m_dbi_flags := 0 |}.
Definition sample_scope (id : string) (names : list string) : SelectiveReplicationDescriptor := {|
  scope_id := bytes_of_string id; designated_writer_origin := replicate 16 Byte.x01;
  manifest := sample_member <$> names;
|}.
Definition scope_a : SelectiveReplicationDescriptor := sample_scope "a" ["orders"; "users"]%string.
Definition scope_b : SelectiveReplicationDescriptor := sample_scope "b" ["items"; "stock"]%string.

Definition sample_scopes : gmap bytes bytes := {[ scope_id scope_a := descriptor_bytes scope_a ]}.
Definition sample_dbis : gmap bytes bytes := bind_all scope_a (manifest scope_a) ∅.

Definition sample_scope_view : db_view := {|
  v_env := 1; v_rw := true;
  v_dbs := {[ scopes_name := mk_dbi 0 sample_scopes; dbis_name := mk_dbi 0 sample_dbis ]};
  v_handles := {[ 2 := scopes_name; 3 := dbis_name ]};
|}.
Definition sample_scope_store : scope_store := scopes_opened (new_scope_store 1) 2 3.

Lemma sample_descriptor_ok d : d ∈ [scope_a; scope_b] → descriptor_ok d ∧ validate_descriptor d = Ok tt.
Proof.
  intros Hd. repeat (apply elem_of_cons in Hd as [->|Hd]; [split; [by apply (bool_decide_unpack _)|by vm_compute]|]).
  by apply elem_of_nil in Hd.
Defined.

Lemma sample_registry : registry_ok sample_scopes sample_dbis.
Proof.
  destruct (sample_descriptor_ok scope_a ltac:(by left)) as [Hok Hv].
  assert (registry_ok ∅ ∅) as He.
  { split; [intros k x; by rewrite lookup_empty|intros k x; by rewrite lookup_empty|].
    intros d e (_ & _ & H). by rewrite lookup_empty in H. }
  apply (register_registry_ok ∅ ∅ scope_a He Hok Hv); [by left|by vm_compute].
Defined.

Lemma register_scope_sound_witness :
  wp (X := ref_mdbx) (register_or_verify sample_scope_store scope_b)
    (register_post scope_b sample_scope_view) sample_scope_view.
Proof.
  apply (register_scope_sound (X := ref_mdbx)).
  - do 3 (split; [by vm_compute|]). split; (split; [by vm_compute|]); by eexists.
  - reflexivity.
  - apply (sample_descriptor_ok scope_b). right. by left.
  - exact sample_registry.
Defined.
