(* ===== verification/ScopedStores.v ===== *)
(** * The stores of a selective scope

    Models the classes [ScopedChangeLogStore] and [ScopedProgressStore] of
    [src/include/mdbx_containers/sync/stores/SelectiveReplicationStore.hpp]: the batches of each
    scope in [_mdbxc_selective_changelog], keyed by scope and sequence number, and the last
    sequence number of each scope in [_mdbxc_selective_progress]. *)
From S2P Require Import Prelude SyncCommon Mdbx StoreBase.
Open Scope Z_scope.

Module ScopedChangeLog.

Definition scoped_log_name : bytes := bytes_of_string "_mdbxc_selective_changelog".

Definition encode_scoped_key (scope_id : bytes) (sequence : Z) : result bytes :=
  _ ← throw_if (bool_decide (scope_id = []))
        (invalid_argument "scoped changelog scope_id must not be empty");
  _ ← throw_if (Z.of_nat (length scope_id) >? 2 ^ 32 - 1)
        (length_error "scoped changelog scope_id is too long");
  Ok (append_u64_be (append_u32_le [] (Z.of_nat (length scope_id)) ++ scope_id) sequence).

Section Code.
Context {X : Mdbx}.

Definition not_open : string := "ScopedChangeLogStore is not open".

Definition open_scoped_log (st : store) : M store :=
  store_open st "ScopedChangeLogStore::open" "Failed to open scoped changelog DBI".

Definition open_existing_scoped_log (st : store) : M (store * bool) :=
  store_open_existing st "ScopedChangeLogStore::open_existing"
    "Failed to open existing scoped changelog DBI".

Definition append_scoped (st : store) (scope_id : bytes) (sequence : Z) (data : bytes) : M unit :=
  _ ← enter st "ScopedChangeLogStore::append" not_open;
  key ← lift (encode_scoped_key scope_id sequence);
  put_record (m_dbi st) key data MDBX_NOOVERWRITE "scoped changelog append failed".

(** [None] is the result [false]. *)
Definition get_scoped (st : store) (scope_id : bytes) (sequence : Z) : M (option bytes) :=
  _ ← enter st "ScopedChangeLogStore::get" not_open;
  key ← lift (encode_scoped_key scope_id sequence);
  lookup_record (m_dbi st) key "scoped changelog read failed".
End Code.

(** The key of a usable scope id. *)
Definition scoped_key (scope_id : bytes) (sequence : Z) : bytes :=
  write_u32_le (Z.of_nat (length scope_id)) ++ scope_id ++ write_u64_be sequence.

Definition usable (scope_id : bytes) : Prop := scope_id ≠ [] ∧ Z.of_nat (length scope_id) < 2 ^ 32.

Lemma encode_scoped_key_Ok id s : usable id → encode_scoped_key id s = Ok (scoped_key id s).
Proof.
  intros [Hne Hl]. unfold encode_scoped_key. rewrite bool_decide_false by done.
  rewrite Z.gtb_ltb, (proj2 (Z.ltb_ge _ _)) by lia. cbn [throw_if mbind result_bind].
  unfold append_u64_be, append_u32_le, scoped_key. by rewrite <- app_assoc.
Qed.

(** The sequence numbers of one scope are consecutive keys of the table. *)
Lemma scoped_key_compare id s s' :
  is_u64 s → is_u64 s' → bytes_compare (scoped_key id s) (scoped_key id s') = (s ?= s').
Proof.
  intros Hs Hs'. unfold scoped_key. rewrite !app_assoc, separated_same_length by done.
  rewrite (proj2 (bytes_compare_eq _ _) eq_refl). cbn [lex_then]. by apply write_u64_be_compare.
Qed.

Section Rules.
Context {X : Mdbx} {L : MdbxLaws X}.

Lemma wp_append_scoped st id s data Q v :
  ready v st → store_table st = scoped_log_name → v_rw v = true → usable id →
  (recs v scoped_log_name !! scoped_key id s = None →
     Q (Ok tt) (v_update v scoped_log_name <[scoped_key id s := data]>)) →
  (is_Some (recs v scoped_log_name !! scoped_key id s) →
     Q (Throw (MdbxException "scoped changelog append failed" MDBX_KEYEXIST)) v) →
  wp (append_scoped st id s data) Q v.
Proof.
  intros Hr Et Hrw Hid HQ HT. apply wp_enter; [done|]. rewrite encode_scoped_key_Ok by done.
  apply wp_lift_bind. destruct Hr as (_ & _ & Hb). rewrite Et in Hb. by eapply wp_put_new.
Qed.
End Rules.
End ScopedChangeLog.

Module ScopedProgress.

Definition scoped_progress_name : bytes := bytes_of_string "_mdbxc_selective_progress".

(** [string_value], with the check it makes. *)
Definition scope_value (scope_id : bytes) : result bytes :=
  _ ← throw_if (bool_decide (scope_id = []))
        (invalid_argument "scoped progress scope_id must not be empty");
  Ok scope_id.

Section Code.
Context {X : Mdbx}.

Definition progress_not_open : string := "ScopedProgressStore is not open".

Definition open_progress (st : store) : M store :=
  store_open st "ScopedProgressStore::open" "Failed to open scoped progress DBI".

Definition open_existing_progress (st : store) : M (store * bool) :=
  store_open_existing st "ScopedProgressStore::open_existing"
    "Failed to open existing scoped progress DBI".

Definition last_sequence (st : store) (scope_id : bytes) : M Z :=
  _ ← enter st "ScopedProgressStore::last_sequence" progress_not_open;
  key ← lift (scope_value scope_id);
  found ← lookup_record (m_dbi st) key "scoped progress read failed";
  match found with
  | None => mret 0
  | Some x =>
      if negb (length x =? 8)%nat then fail (runtime_error "scoped progress has invalid size")
      else mret (read_u64_le x)
  end.

Definition set_last_sequence (st : store) (scope_id : bytes) (sequence : Z) : M unit :=
  _ ← enter st "ScopedProgressStore::set_last_sequence" progress_not_open;
  key ← lift (scope_value scope_id);
  put_record (m_dbi st) key (write_u64_le sequence) MDBX_UPSERT "scoped progress write failed".

Definition increment_sequence (st : store) (scope_id : bytes) : M Z :=
  _ ← checked_txn st "ScopedProgressStore::increment_sequence";
  last ← last_sequence st scope_id;
  let next := (last + 1) mod 2 ^ 64 in
  _ ← set_last_sequence st scope_id next;
  mret next.
End Code.

Lemma scope_value_Ok id : id ≠ [] → scope_value id = Ok id.
Proof. intros Hne. unfold scope_value. by rewrite bool_decide_false. Qed.

(** The last sequence number of a scope. *)
Definition progress_of (m : gmap bytes bytes) (id : bytes) : result Z :=
  match m !! id with
  | None => Ok 0
  | Some x => if (length x =? 8)%nat then Ok (read_u64_le x)
              else Throw (runtime_error "scoped progress has invalid size")
  end.

Lemma progress_of_range m id n : progress_of m id = Ok n → is_u64 n.
Proof.
  unfold progress_of. destruct (m !! id) as [x|]; [destruct (length x =? 8)%nat|]; intros [= <-].
  - apply read_u64_le_range.
  - by vm_compute.
Qed.

Lemma progress_of_insert m id n id' :
  is_u64 n →
  progress_of (<[id := write_u64_le n]> m) id' = if decide (id' = id) then Ok n else progress_of m id'.
Proof.
  intros Hn. unfold progress_of. case_decide as E.
  - subst. rewrite lookup_insert_eq, write_u64_le_length. change (8 =? 8)%nat with true. cbv iota.
    f_equal. rewrite <- (app_nil_r (write_u64_le n)). by apply read_write_u64_le.
  - by rewrite lookup_insert_ne.
Qed.

Section Rules.
Context {X : Mdbx} {L : MdbxLaws X}.

Lemma wp_last_sequence st id Q v :
  ready v st → store_table st = scoped_progress_name → id ≠ [] →
  Q (progress_of (recs v scoped_progress_name) id) v → wp (last_sequence st id) Q v.
Proof.
  intros Hr Et Hne HQ. apply wp_enter; [done|]. rewrite scope_value_Ok by done. apply wp_lift_bind.
  destruct Hr as (_ & _ & Hb). rewrite Et in Hb. apply wp_bind. eapply wp_lookup; [done..|].
  unfold progress_of in HQ. destruct (recs v _ !! id) as [x|]; [|by apply wp_ret].
  destruct (length x =? 8)%nat; [by apply wp_ret|by apply wp_fail].
Qed.

Lemma wp_increment_sequence st id Q v :
  ready v st → store_table st = scoped_progress_name → v_rw v = true → id ≠ [] →
  match progress_of (recs v scoped_progress_name) id with
  | Ok n =>
      let next := (n + 1) mod 2 ^ 64 in
      Q (Ok next) (v_update v scoped_progress_name <[id := write_u64_le next]>)
  | Throw e => Q (Throw e) v
  end →
  wp (increment_sequence st id) Q v.
Proof.
  intros Hr Et Hrw Hne HQ. apply wp_bind, wp_checked_txn; [apply Hr|].
  apply wp_bind, wp_last_sequence; [done..|]. destruct (progress_of _ id) as [n|e]; [|done].
  apply wp_bind, wp_enter; [done|]. rewrite scope_value_Ok by done. apply wp_lift_bind.
  destruct Hr as (_ & _ & Hb). rewrite Et in Hb. eapply wp_put; [done..|]. by apply wp_ret.
Qed.
End Rules.
End ScopedProgress.
