(* ===== verification/SelectiveProtocol.v ===== *)
(** * The selective replication protocol

    Models [src/include/mdbx_containers/sync/protocol/SelectiveReplicationProtocol.hpp]: the
    messages of scoped pulls and pushes, the checks on them, and the codec.  The theorem
    shows that decoding inverts encoding, and that whatever decodes has passed the checks of
    the encoder: batches of the scope's writer, contiguous and inside the scope's tables. *)
From S2P Require Import Prelude SyncCommon KeyCodec Wire SyncProtocol Writers ScopeStore.
From S2P Require ChangeBatchCodec FrameCodec.
Open Scope Z_scope.

(** ** Data *)

Inductive SelectiveReplicationCapability : Type := NoScopedCapability | ScopedPull | ScopedPush.

(** The enumerator values. *)
Definition scoped_capability_bit (c : SelectiveReplicationCapability) : Z :=
  match c with NoScopedCapability => 0 | ScopedPull => Z.shiftl 1 0 | ScopedPush => Z.shiftl 1 1 end.

(** [SelectiveReplicationCapabilities], its [flags]. *)
Definition supports (flags : Z) (capability : SelectiveReplicationCapability) : bool :=
  let bit := scoped_capability_bit capability in
  negb (bit =? 0) && (Z.land flags bit =? bit).

Definition selective_replication_supported_capability_flags : Z :=
  Z.lor (scoped_capability_bit ScopedPull) (scoped_capability_bit ScopedPush).

Definition selective_replication_capability_negotiated (local remote : Z) (capability : SelectiveReplicationCapability) : bool :=
  supports local capability && supports remote capability.

Record SelectiveReplicationHello : Type := { hello_node_id : NodeId; hello_db_id : DbId; hello_capabilities : Z }.

Inductive SelectiveReplicationErrorCode : Type :=
  | ScopedNone | UnsupportedSelectiveReplication | ScopedDbIdMismatch | ScopeDescriptorMismatch | WrongDesignatedWriter
  | ScopedSequenceGap | OutOfScopeOperation | ReceiverModeConflict | ScopedSnapshotRequired | ScopedBatchTooLarge
  | ScopedCancelled.

#[export] Instance SelectiveReplicationErrorCode_eq_dec : EqDecision SelectiveReplicationErrorCode.
Proof. solve_decision. Defined.

(** The enumerator values. *)
Definition scoped_error_value (code : SelectiveReplicationErrorCode) : Z :=
  match code with
  | ScopedNone => 0 | UnsupportedSelectiveReplication => 1 | ScopedDbIdMismatch => 2 | ScopeDescriptorMismatch => 3
  | WrongDesignatedWriter => 4 | ScopedSequenceGap => 5 | OutOfScopeOperation => 6 | ReceiverModeConflict => 7
  | ScopedSnapshotRequired => 8 | ScopedBatchTooLarge => 9 | ScopedCancelled => 10
  end.

Definition selective_replication_error_code_name (code : SelectiveReplicationErrorCode) : string :=
  match code with
  | ScopedNone => "none"
  | UnsupportedSelectiveReplication => "unsupported_selective_replication"
  | ScopedDbIdMismatch => "db_id_mismatch"
  | ScopeDescriptorMismatch => "scope_descriptor_mismatch"
  | WrongDesignatedWriter => "wrong_designated_writer"
  | ScopedSequenceGap => "scoped_sequence_gap"
  | OutOfScopeOperation => "out_of_scope_operation"
  | ReceiverModeConflict => "receiver_mode_conflict"
  | ScopedSnapshotRequired => "scoped_snapshot_required"
  | ScopedBatchTooLarge => "batch_too_large"
  | ScopedCancelled => "cancelled"
  end.

Record ScopedChangeBatch : Type := {
  sb_version : Z;
  sb_flags : Z;
  sb_scope_id : bytes;
  sb_writer : NodeId;
  scope_sequence : Z;
  sb_time : Z;
  sb_ops : list ChangeOp;
}.

(** The requests come without their cancellation token, which is state of the local call. *)
Record ScopedPullRequest : Type := {
  pr_requester : NodeId;
  pr_db_id : DbId;
  pr_scope_id : bytes;
  have_sequence : Z;
  pr_max_batches : Z;
  pr_max_bytes : Z;
  pr_max_single_batch_bytes : Z;
}.

(** The members both responses have. *)
Record response_status : Type := { rs_ok : bool; rs_error : bytes; rs_code : SelectiveReplicationErrorCode; rs_retryable : bool }.

Record ScopedPullResponse : Type := {
  ps_descriptor : SelectiveReplicationDescriptor;
  ps_remote_tail : Z;
  ps_remote_tail_known : bool;
  ps_batches : list ScopedChangeBatch;
  ps_has_more : bool;
  ps_status : response_status;
}.

Record ScopedPushRequest : Type :=
  { pq_sender : NodeId; pq_db_id : DbId; pq_descriptor : SelectiveReplicationDescriptor; pq_batches : list ScopedChangeBatch }.

Record ScopedPushResponse : Type := { po_scope_id : bytes; receiver_sequence : Z; po_status : response_status }.

Definition default_descriptor : SelectiveReplicationDescriptor :=
  {| scope_id := []; designated_writer_origin := make_zero_node; manifest := [] |}.

(** ** Checks *)

Definition validate_hello (hello : SelectiveReplicationHello) : result unit :=
  throw_if (is_zero_sync_id (hello_node_id hello) || is_zero_sync_id (hello_db_id hello))
    (invalid_argument "selective hello identity is incomplete").

Definition validate_scope_id (id : bytes) (bounds : CodecBounds) : result unit :=
  _ ← throw_if (bool_decide (id = [])) (invalid_argument "selective scope_id is empty");
  throw_if (size_of id >? max_selective_scope_id_len bounds) (length_error "scope_id exceeds max_selective_scope_id_len").

(** The loop over the manifest; [previous] is the name before. *)
Fixpoint validate_entries (bounds : CodecBounds) (previous : option bytes) (l : list SelectiveReplicationDbi) : result unit :=
  match l with
  | [] => Ok tt
  | e :: l =>
      let name := m_dbi_name e in
      _ ← throw_if (bool_decide (name = []) || is_reserved_dbi_name name)
            (invalid_argument "selective manifest contains invalid DBI name");
      _ ← throw_if (size_of name >? max_dbi_name_len bounds) (length_error "manifest DBI exceeds max_dbi_name_len");
      _ ← throw_if match previous with Some p => negb (bool_decide (bytes_lt p name)) | None => false end
            (invalid_argument "selective manifest must be sorted and unique");
      validate_entries bounds (Some name) l
  end.

Definition validate_descriptor (d : SelectiveReplicationDescriptor) (bounds : CodecBounds) : result unit :=
  _ ← validate_scope_id (scope_id d) bounds;
  _ ← throw_if (is_zero_sync_id (designated_writer_origin d)) (invalid_argument "selective descriptor writer is zero");
  _ ← throw_if (bool_decide (manifest d = [])) (invalid_argument "selective descriptor manifest is empty");
  _ ← throw_if (size_of (manifest d) >? max_selective_manifest_entries bounds)
        (length_error "manifest exceeds max_selective_manifest_entries");
  validate_entries bounds None (manifest d).

Fixpoint find_manifest_dbi (l : list SelectiveReplicationDbi) (name : bytes) : option SelectiveReplicationDbi :=
  match l with
  | [] => None
  | e :: l => if bool_decide (m_dbi_name e = name) then Some e else find_manifest_dbi l name
  end.

Definition to_change_batch (s : ScopedChangeBatch) : ChangeBatch := {|
  version := sb_version s; batch_flags := sb_flags s; origin_node_id := sb_writer s; seq_no := scope_sequence s;
  time_unix_ns := sb_time s; ops := sb_ops s;
|}.

Definition from_change_batch (id : bytes) (b : ChangeBatch) : ScopedChangeBatch := {|
  sb_version := version b; sb_flags := batch_flags b; sb_scope_id := id; sb_writer := origin_node_id b;
  scope_sequence := seq_no b; sb_time := time_unix_ns b; sb_ops := ops b;
|}.

(** The loop over the operations of a batch. *)
Fixpoint validate_scoped_ops (d : SelectiveReplicationDescriptor) (l : list ChangeOp) : result unit :=
  match l with
  | [] => Ok tt
  | op :: l =>
      _ ← match find_manifest_dbi (manifest d) (dbi_name op) with
          | None => Throw (invalid_argument "scoped batch operation is outside manifest")
          | Some e => throw_if (negb (m_dbi_flags e =? dbi_flags op)) (invalid_argument "scoped batch DBI flags mismatch")
          end;
      validate_scoped_ops d l
  end.

Definition validate_scoped_batch (bounds : CodecBounds) (d : SelectiveReplicationDescriptor) (b : ScopedChangeBatch) : result unit :=
  _ ← validate_scope_id (sb_scope_id b) bounds;
  _ ← throw_if (negb (bool_decide (sb_scope_id b = scope_id d))) (invalid_argument "scoped batch scope mismatch");
  _ ← throw_if (negb (compare_node_id (sb_writer b) (designated_writer_origin d) =? 0))
        (invalid_argument "scoped batch writer mismatch");
  _ ← throw_if (scope_sequence b =? 0) (invalid_argument "scoped batch sequence must not be zero");
  _ ← throw_if (negb (sb_version b =? 1) || negb (sb_flags b =? BATCH_NONE))
        (invalid_argument "scoped batch version or flags are unsupported");
  _ ← throw_if (bool_decide (sb_ops b = [])) (invalid_argument "scoped batch operations must not be empty");
  _ ← batch_encode (to_change_batch b) (Some bounds);
  validate_scoped_ops d (sb_ops b).

(** The loop over the batches; [previous] is the sequence number of the batch before. *)
Fixpoint validate_batch_list (bounds : CodecBounds) (d : SelectiveReplicationDescriptor) (previous : option Z)
    (l : list ScopedChangeBatch) : result unit :=
  match l with
  | [] => Ok tt
  | b :: l =>
      _ ← validate_scoped_batch bounds d b;
      _ ← throw_if match previous with Some p => negb (scope_sequence b =? (p + 1) mod 2 ^ 64) | None => false end
            (invalid_argument "scoped batches are not contiguous");
      validate_batch_list bounds d (Some (scope_sequence b)) l
  end.

Definition validate_scoped_batches (bounds : CodecBounds) (d : SelectiveReplicationDescriptor) (l : list ScopedChangeBatch) : result unit :=
  _ ← throw_if (size_of l >? max_batches_per_message bounds)
        (length_error "scoped batch count exceeds max_batches_per_message");
  validate_batch_list bounds d None l.

Definition validate_pull_request (r : ScopedPullRequest) (bounds : CodecBounds) : result unit :=
  _ ← throw_if (is_zero_sync_id (pr_requester r) || is_zero_sync_id (pr_db_id r))
        (invalid_argument "scoped pull request identity is incomplete");
  _ ← validate_scope_id (pr_scope_id r) bounds;
  _ ← throw_if ((pr_max_batches r =? 0) || (pr_max_bytes r =? 0) || (pr_max_single_batch_bytes r =? 0))
        (invalid_argument "scoped pull request bounds must not be zero");
  _ ← throw_if (pr_max_batches r >? max_batches_per_message bounds)
        (length_error "scoped pull max_batches exceeds codec bounds");
  _ ← throw_if (pr_max_bytes r >? max_transport_message_bytes bounds)
        (length_error "scoped pull max_bytes exceeds codec bounds");
  throw_if (pr_max_single_batch_bytes r >? max_batch_total_bytes bounds)
    (length_error "scoped pull max_single_batch_bytes exceeds codec bounds").

Definition validate_response_status (s : response_status) (bounds : CodecBounds) : result unit :=
  _ ← throw_if (size_of (rs_error s) >? max_error_len bounds) (length_error "selective error exceeds max_error_len");
  if rs_ok s then
    throw_if (negb (bool_decide (rs_error s = [])) || rs_retryable s || negb (bool_decide (rs_code s = ScopedNone)))
      (invalid_argument "successful selective response has error state")
  else throw_if (bool_decide (rs_code s = ScopedNone)) (invalid_argument "failed selective response has no error code").

Definition validate_pull_response (r : ScopedPullResponse) (bounds : CodecBounds) : result unit :=
  _ ← validate_response_status (ps_status r) bounds;
  if negb (rs_ok (ps_status r)) then
    throw_if (negb (bool_decide (scope_id (ps_descriptor r) = [])) || negb (bool_decide (ps_batches r = [])) ||
              negb (ps_remote_tail r =? 0) || ps_remote_tail_known r || ps_has_more r)
      (invalid_argument "failed scoped pull response carries success state")
  else
    _ ← validate_descriptor (ps_descriptor r) bounds;
    _ ← validate_scoped_batches bounds (ps_descriptor r) (ps_batches r);
    _ ← throw_if (ps_has_more r && bool_decide (ps_batches r = [])) (invalid_argument "scoped pull has_more without batches");
    _ ← throw_if (negb (ps_remote_tail_known r) && negb (ps_remote_tail r =? 0))
          (invalid_argument "unknown scoped pull tail carries progress");
    throw_if (ps_remote_tail_known r &&
              match last (ps_batches r) with Some b => ps_remote_tail r <? scope_sequence b | None => false end)
      (invalid_argument "scoped pull tail precedes returned batches").

Definition validate_push_request (r : ScopedPushRequest) (bounds : CodecBounds) : result unit :=
  _ ← throw_if (is_zero_sync_id (pq_sender r) || is_zero_sync_id (pq_db_id r))
        (invalid_argument "scoped push request identity is incomplete");
  _ ← validate_descriptor (pq_descriptor r) bounds;
  _ ← throw_if (negb (compare_node_id (pq_sender r) (designated_writer_origin (pq_descriptor r)) =? 0))
        (invalid_argument "scoped push sender is not designated writer");
  _ ← throw_if (bool_decide (pq_batches r = [])) (invalid_argument "scoped push request has no batches");
  validate_scoped_batches bounds (pq_descriptor r) (pq_batches r).

Definition validate_push_response (r : ScopedPushResponse) (bounds : CodecBounds) : result unit :=
  _ ← validate_scope_id (po_scope_id r) bounds;
  validate_response_status (po_status r) bounds.

(** ** Encoders *)

Inductive MessageType : Type := ScopedHello | ScopedPullRequestType | ScopedPullResponseType | ScopedPushRequestType | ScopedPushResponseType.

#[export] Instance scoped_message_type_eq_dec : EqDecision MessageType.
Proof. solve_decision. Defined.

Definition scoped_message_code (t : MessageType) : Z :=
  match t with
  | ScopedHello => 1 | ScopedPullRequestType => 2 | ScopedPullResponseType => 3 | ScopedPushRequestType => 4
  | ScopedPushResponseType => 5
  end.

Definition magic : bytes := bytes_of_string "MDBXCSRP".
Definition magic_size : Z := 8.
Definition codec_version : Z := 1.

Definition overflow : exn := length_error "selective protocol size overflow".
Definition too_long : exn := length_error "selective message exceeds max_transport_message_bytes".

Definition make_header (type : MessageType) : writer := fun out =>
  out ← append_bytes overflow magic out;
  out ← put_u16 codec_version out;
  out ← append_u8 (scoped_message_code type) out;
  put_u32 0 out.

Definition append_id (id : NodeId) : writer := append_bytes overflow id.

Definition append_string (maximum : Z) (error : string) (value : bytes) : writer := fun out =>
  _ ← throw_if (size_of value >? maximum) (length_error error);
  out ← append_u32_size (size_of value) "selective string length exceeds u32" out;
  append_bytes overflow value out.

Definition append_scope_id (bounds : CodecBounds) (value : bytes) : writer := fun out =>
  _ ← validate_scope_id value bounds;
  append_string (max_selective_scope_id_len bounds) "scope_id exceeds max_selective_scope_id_len" value out.

Definition append_dbi (bounds : CodecBounds) (e : SelectiveReplicationDbi) : writer := fun out =>
  out ← append_string (max_dbi_name_len bounds) "manifest DBI exceeds max_dbi_name_len" (m_dbi_name e) out;
  put_u32 (m_dbi_flags e) out.

Definition append_descriptor (bounds : CodecBounds) (d : SelectiveReplicationDescriptor) : writer := fun out =>
  _ ← validate_descriptor d bounds;
  out ← append_scope_id bounds (scope_id d) out;
  out ← append_id (designated_writer_origin d) out;
  out ← append_u32_size (size_of (manifest d)) "selective manifest count exceeds u32" out;
  append_each (append_dbi bounds) (manifest d) out.

Definition append_scoped_batch (bounds : CodecBounds) (b : ScopedChangeBatch) : writer := fun out =>
  out ← append_scope_id bounds (sb_scope_id b) out;
  nested ← batch_encode (to_change_batch b) (Some bounds);
  _ ← throw_if (size_of nested >? max_batch_total_bytes bounds) (length_error "scoped batch exceeds max_batch_total_bytes");
  out ← append_u32_size (size_of nested) "scoped batch length exceeds u32" out;
  append_bytes overflow nested out.

Definition append_scoped_batches (bounds : CodecBounds) (d : SelectiveReplicationDescriptor) (l : list ScopedChangeBatch) : writer := fun out =>
  _ ← validate_scoped_batches bounds d l;
  out ← append_u32_size (size_of l) "scoped batch count exceeds u32" out;
  append_each (append_scoped_batch bounds) l out.

Definition append_response_status (bounds : CodecBounds) (s : response_status) : writer := fun out =>
  _ ← validate_response_status s bounds;
  out ← append_bool (rs_ok s) out;
  out ← put_u16 (scoped_error_value (rs_code s)) out;
  out ← append_bool (rs_retryable s) out;
  append_string (max_error_len bounds) "selective error exceeds max_error_len" (rs_error s) out.

(** The appends of an encoder and the check of the size. *)
Definition sized (w : writer) (bounds : CodecBounds) : result bytes :=
  out ← w [];
  _ ← throw_if (size_of out >? max_transport_message_bytes bounds) too_long;
  Ok out.

Definition encode_hello (h : SelectiveReplicationHello) (bounds : option CodecBounds) : result bytes :=
  let bd := effective_bounds bounds in
  _ ← validate_hello h;
  sized (fun out =>
    out ← make_header ScopedHello out;
    out ← append_id (hello_node_id h) out;
    out ← append_id (hello_db_id h) out;
    put_u64 (hello_capabilities h) out) bd.

Definition encode_pull_request (r : ScopedPullRequest) (bounds : option CodecBounds) : result bytes :=
  let bd := effective_bounds bounds in
  _ ← validate_pull_request r bd;
  sized (fun out =>
    out ← make_header ScopedPullRequestType out;
    out ← append_id (pr_requester r) out;
    out ← append_id (pr_db_id r) out;
    out ← append_scope_id bd (pr_scope_id r) out;
    out ← put_u64 (have_sequence r) out;
    out ← put_u64 (pr_max_batches r) out;
    out ← put_u64 (pr_max_bytes r) out;
    put_u64 (pr_max_single_batch_bytes r) out) bd.

Definition encode_pull_response (r : ScopedPullResponse) (bounds : option CodecBounds) : result bytes :=
  let bd := effective_bounds bounds in
  _ ← validate_pull_response r bd;
  sized (fun out =>
    out ← make_header ScopedPullResponseType out;
    out ← append_response_status bd (ps_status r) out;
    if rs_ok (ps_status r) then
      out ← append_descriptor bd (ps_descriptor r) out;
      out ← put_u64 (ps_remote_tail r) out;
      out ← append_bool (ps_remote_tail_known r) out;
      out ← append_scoped_batches bd (ps_descriptor r) (ps_batches r) out;
      append_bool (ps_has_more r) out
    else Ok out) bd.

Definition encode_push_request (r : ScopedPushRequest) (bounds : option CodecBounds) : result bytes :=
  let bd := effective_bounds bounds in
  _ ← validate_push_request r bd;
  sized (fun out =>
    out ← make_header ScopedPushRequestType out;
    out ← append_id (pq_sender r) out;
    out ← append_id (pq_db_id r) out;
    out ← append_descriptor bd (pq_descriptor r) out;
    append_scoped_batches bd (pq_descriptor r) (pq_batches r) out) bd.

Definition encode_push_response (r : ScopedPushResponse) (bounds : option CodecBounds) : result bytes :=
  let bd := effective_bounds bounds in
  _ ← validate_push_response r bd;
  sized (fun out =>
    out ← make_header ScopedPushResponseType out;
    out ← append_response_status bd (po_status r) out;
    out ← append_scope_id bd (po_scope_id r) out;
    put_u64 (receiver_sequence r) out) bd.

(** ** Decoders *)

Definition underrun : exn := runtime_error "Selective protocol buffer underrun".
Definition trailing : exn := runtime_error "Trailing bytes after selective protocol message".

Definition scoped_type_of_code (v : Z) : option MessageType :=
  match v with
  | 1 => Some ScopedHello
  | 2 => Some ScopedPullRequestType
  | 3 => Some ScopedPullResponseType
  | 4 => Some ScopedPushRequestType
  | 5 => Some ScopedPushResponseType
  | _ => None
  end.

Definition read_header_type : reader MessageType :=
  m ← read_bytes underrun magic_size;
  _ ← check (negb (bool_decide (m = magic))) (runtime_error "Selective protocol magic mismatch");
  v ← read_u16 underrun;
  _ ← check (negb (v =? codec_version)) (runtime_error "Unsupported selective protocol codec version");
  raw ← read_u8 underrun;
  fl ← read_u32 underrun;
  _ ← check (negb (fl =? 0)) (runtime_error "Unknown mandatory selective protocol flags");
  match scoped_type_of_code raw with
  | Some t => mret t
  | None => throw (runtime_error "Unknown selective protocol message type")
  end.

Definition check_header (expected : MessageType) : reader unit :=
  t ← read_header_type;
  check (negb (bool_decide (t = expected))) (runtime_error "Unexpected selective protocol message type").

Definition read_id : reader NodeId := read_bytes underrun 16.
Definition read_bool : reader bool := read_flag underrun (runtime_error "Invalid selective protocol bool").
Definition read_string (maximum : Z) (error : string) : reader bytes := read_sized underrun (length_error error) maximum.

Definition read_scope_id (bounds : CodecBounds) : reader bytes :=
  id ← read_string (max_selective_scope_id_len bounds) "scope_id exceeds max_selective_scope_id_len";
  _ ← lift_result (validate_scope_id id bounds);
  mret id.

Definition read_dbi (bounds : CodecBounds) : reader SelectiveReplicationDbi :=
  name ← read_string (max_dbi_name_len bounds) "manifest DBI exceeds max_dbi_name_len";
  flags ← read_u32 underrun;
  mret {| m_dbi_name := name; m_dbi_flags := flags |}.

Definition read_descriptor (bounds : CodecBounds) : reader SelectiveReplicationDescriptor :=
  id ← read_scope_id bounds;
  writer ← read_id;
  count ← read_u32 underrun;
  _ ← check (count >? max_selective_manifest_entries bounds) (length_error "manifest exceeds max_selective_manifest_entries");
  l ← repeat_read (Z.to_nat count) (read_dbi bounds);
  let d := {| scope_id := id; designated_writer_origin := writer; manifest := l |} in
  _ ← lift_result (validate_descriptor d bounds);
  mret d.

Definition read_scoped_batch (bounds : CodecBounds) : reader ScopedChangeBatch :=
  id ← read_scope_id bounds;
  nested ← read_sized underrun (length_error "scoped batch exceeds max_batch_total_bytes") (max_batch_total_bytes bounds);
  b ← lift_result (batch_decode_exact nested (Some bounds));
  mret (from_change_batch id b).

Definition read_scoped_batches (bounds : CodecBounds) (d : SelectiveReplicationDescriptor) : reader (list ScopedChangeBatch) :=
  count ← read_u32 underrun;
  _ ← check (count >? max_batches_per_message bounds) (length_error "scoped batch count exceeds max_batches_per_message");
  l ← repeat_read (Z.to_nat count) (read_scoped_batch bounds);
  _ ← lift_result (validate_scoped_batches bounds d l);
  mret l.

Definition scoped_error_of_value (v : Z) : option SelectiveReplicationErrorCode :=
  match v with
  | 0 => Some ScopedNone
  | 1 => Some UnsupportedSelectiveReplication
  | 2 => Some ScopedDbIdMismatch
  | 3 => Some ScopeDescriptorMismatch
  | 4 => Some WrongDesignatedWriter
  | 5 => Some ScopedSequenceGap
  | 6 => Some OutOfScopeOperation
  | 7 => Some ReceiverModeConflict
  | 8 => Some ScopedSnapshotRequired
  | 9 => Some ScopedBatchTooLarge
  | 10 => Some ScopedCancelled
  | _ => None
  end.

(** The conversion to the enumeration and [validate_error_code]. *)
Definition read_error_code : reader SelectiveReplicationErrorCode :=
  v ← read_u16 underrun;
  match scoped_error_of_value v with
  | Some code => mret code
  | None => throw (runtime_error "Unknown selective replication error code")
  end.

Definition read_response_status (bounds : CodecBounds) : reader response_status :=
  ok ← read_bool;
  code ← read_error_code;
  retryable ← read_bool;
  error ← read_string (max_error_len bounds) "selective error exceeds max_error_len";
  let s := {| rs_ok := ok; rs_error := error; rs_code := code; rs_retryable := retryable |} in
  _ ← lift_result (validate_response_status s bounds);
  mret s.

Definition read_hello : reader SelectiveReplicationHello :=
  _ ← check_header ScopedHello;
  node ← read_id;
  db ← read_id;
  caps ← read_u64 underrun;
  let h := {| hello_node_id := node; hello_db_id := db; hello_capabilities := caps |} in
  _ ← lift_result (validate_hello h);
  mret h.

Definition read_pull_request (bounds : CodecBounds) : reader ScopedPullRequest :=
  _ ← check_header ScopedPullRequestType;
  requester ← read_id;
  db ← read_id;
  id ← read_scope_id bounds;
  have ← read_u64 underrun;
  mb ← read_u64 underrun;
  my ← read_u64 underrun;
  ms ← read_u64 underrun;
  mret {| pr_requester := requester; pr_db_id := db; pr_scope_id := id; have_sequence := have; pr_max_batches := mb;
          pr_max_bytes := my; pr_max_single_batch_bytes := ms |}.

Definition read_pull_response (bounds : CodecBounds) : reader ScopedPullResponse :=
  _ ← check_header ScopedPullResponseType;
  s ← read_response_status bounds;
  if rs_ok s then
    d ← read_descriptor bounds;
    tail ← read_u64 underrun;
    known ← read_bool;
    l ← read_scoped_batches bounds d;
    more ← read_bool;
    mret {| ps_descriptor := d; ps_remote_tail := tail; ps_remote_tail_known := known; ps_batches := l; ps_has_more := more; ps_status := s |}
  else
    mret {| ps_descriptor := default_descriptor; ps_remote_tail := 0; ps_remote_tail_known := false; ps_batches := [];
            ps_has_more := false; ps_status := s |}.

Definition read_push_request (bounds : CodecBounds) : reader ScopedPushRequest :=
  _ ← check_header ScopedPushRequestType;
  sender ← read_id;
  db ← read_id;
  d ← read_descriptor bounds;
  l ← read_scoped_batches bounds d;
  mret {| pq_sender := sender; pq_db_id := db; pq_descriptor := d; pq_batches := l |}.

Definition read_push_response (bounds : CodecBounds) : reader ScopedPushResponse :=
  _ ← check_header ScopedPushResponseType;
  s ← read_response_status bounds;
  id ← read_scope_id bounds;
  q ← read_u64 underrun;
  mret {| po_scope_id := id; receiver_sequence := q; po_status := s |}.

(** [make_cursor], the reads, [check_consumed]. *)
Definition finish {A} (r : reader A) (data : bytes) (bd : CodecBounds) : result A :=
  decode_all too_long trailing (max_transport_message_bytes bd) r data.

Definition decode_hello (data : bytes) (bounds : option CodecBounds) : result SelectiveReplicationHello :=
  finish read_hello data (effective_bounds bounds).
Definition decode_pull_request (data : bytes) (bounds : option CodecBounds) : result ScopedPullRequest :=
  let bd := effective_bounds bounds in
  r ← finish (read_pull_request bd) data bd; _ ← validate_pull_request r bd; Ok r.
Definition decode_pull_response (data : bytes) (bounds : option CodecBounds) : result ScopedPullResponse :=
  let bd := effective_bounds bounds in
  r ← finish (read_pull_response bd) data bd; _ ← validate_pull_response r bd; Ok r.
Definition decode_push_request (data : bytes) (bounds : option CodecBounds) : result ScopedPushRequest :=
  let bd := effective_bounds bounds in
  r ← finish (read_push_request bd) data bd; _ ← validate_push_request r bd; Ok r.
Definition decode_push_response (data : bytes) (bounds : option CodecBounds) : result ScopedPushResponse :=
  let bd := effective_bounds bounds in
  r ← finish (read_push_response bd) data bd; _ ← validate_push_response r bd; Ok r.

Definition peek_message_type (data : bytes) (bounds : option CodecBounds) : result MessageType :=
  _ ← throw_if (size_of data >? max_transport_message_bytes (effective_bounds bounds)) too_long;
  '(t, _) ← read_header_type (make_cursor data);
  Ok t.

(** ** The messages and their bytes *)

Inductive ScopedMessage : Type :=
  | AScopedHello (hello : SelectiveReplicationHello)
  | AScopedPullRequest (request : ScopedPullRequest)
  | AScopedPullResponse (response : ScopedPullResponse)
  | AScopedPushRequest (request : ScopedPushRequest)
  | AScopedPushResponse (response : ScopedPushResponse).

Definition scoped_type (m : ScopedMessage) : MessageType :=
  match m with
  | AScopedHello _ => ScopedHello
  | AScopedPullRequest _ => ScopedPullRequestType
  | AScopedPullResponse _ => ScopedPullResponseType
  | AScopedPushRequest _ => ScopedPushRequestType
  | AScopedPushResponse _ => ScopedPushResponseType
  end.

(** The check, the encoder and the decoder of each type. *)
Definition validate_scoped (m : ScopedMessage) (bd : CodecBounds) : result unit :=
  match m with
  | AScopedHello h => validate_hello h
  | AScopedPullRequest r => validate_pull_request r bd
  | AScopedPullResponse r => validate_pull_response r bd
  | AScopedPushRequest r => validate_push_request r bd
  | AScopedPushResponse r => validate_push_response r bd
  end.

Definition encode_scoped (m : ScopedMessage) (bounds : option CodecBounds) : result bytes :=
  match m with
  | AScopedHello h => encode_hello h bounds
  | AScopedPullRequest r => encode_pull_request r bounds
  | AScopedPullResponse r => encode_pull_response r bounds
  | AScopedPushRequest r => encode_push_request r bounds
  | AScopedPushResponse r => encode_push_response r bounds
  end.

Definition decode_scoped (t : MessageType) (data : bytes) (bounds : option CodecBounds) : result ScopedMessage :=
  match t with
  | ScopedHello => h ← decode_hello data bounds; Ok (AScopedHello h)
  | ScopedPullRequestType => r ← decode_pull_request data bounds; Ok (AScopedPullRequest r)
  | ScopedPullResponseType => r ← decode_pull_response data bounds; Ok (AScopedPullResponse r)
  | ScopedPushRequestType => r ← decode_push_request data bounds; Ok (AScopedPushRequest r)
  | ScopedPushResponseType => r ← decode_push_response data bounds; Ok (AScopedPushResponse r)
  end.

Definition scoped_header_bytes (t : MessageType) : bytes :=
  magic ++ write_u16_le codec_version ++ [byte_of (scoped_message_code t)] ++ write_u32_le 0.
Definition scoped_bool_bytes (b : bool) : bytes := [byte_of (if b then 1 else 0)].
Definition dbi_bytes (e : SelectiveReplicationDbi) : bytes := sized_bytes (m_dbi_name e) ++ write_u32_le (m_dbi_flags e).
Definition scoped_descriptor_bytes (d : SelectiveReplicationDescriptor) : bytes :=
  sized_bytes (scope_id d) ++ designated_writer_origin d ++ write_u32_le (size_of (manifest d)) ++ concat (dbi_bytes <$> manifest d).
Definition scoped_batch_bytes (b : ScopedChangeBatch) : bytes :=
  sized_bytes (sb_scope_id b) ++ sized_bytes (batch_bytes (to_change_batch b)).
Definition scoped_batches_bytes (l : list ScopedChangeBatch) : bytes :=
  write_u32_le (size_of l) ++ concat (scoped_batch_bytes <$> l).
Definition status_bytes (s : response_status) : bytes :=
  scoped_bool_bytes (rs_ok s) ++ write_u16_le (scoped_error_value (rs_code s)) ++ scoped_bool_bytes (rs_retryable s) ++
  sized_bytes (rs_error s).

Definition scoped_body_bytes (m : ScopedMessage) : bytes :=
  match m with
  | AScopedHello h => hello_node_id h ++ hello_db_id h ++ write_u64_le (hello_capabilities h)
  | AScopedPullRequest r =>
      pr_requester r ++ pr_db_id r ++ sized_bytes (pr_scope_id r) ++ write_u64_le (have_sequence r) ++
      write_u64_le (pr_max_batches r) ++ write_u64_le (pr_max_bytes r) ++ write_u64_le (pr_max_single_batch_bytes r)
  | AScopedPullResponse r =>
      status_bytes (ps_status r) ++
      if rs_ok (ps_status r) then
        scoped_descriptor_bytes (ps_descriptor r) ++ write_u64_le (ps_remote_tail r) ++
        scoped_bool_bytes (ps_remote_tail_known r) ++ scoped_batches_bytes (ps_batches r) ++ scoped_bool_bytes (ps_has_more r)
      else []
  | AScopedPushRequest r =>
      pq_sender r ++ pq_db_id r ++ scoped_descriptor_bytes (pq_descriptor r) ++ scoped_batches_bytes (pq_batches r)
  | AScopedPushResponse r => status_bytes (po_status r) ++ sized_bytes (po_scope_id r) ++ write_u64_le (receiver_sequence r)
  end.
Definition scoped_bytes (m : ScopedMessage) : bytes := scoped_header_bytes (scoped_type m) ++ scoped_body_bytes m.

(** The value ranges of the C++ field types. *)
Definition descriptor_ok (d : SelectiveReplicationDescriptor) : Prop :=
  node_ok (designated_writer_origin d) ∧ Forall (fun e => is_u32 (m_dbi_flags e)) (manifest d).
Definition scoped_batch_ok (b : ScopedChangeBatch) : Prop := batch_ok (to_change_batch b).

#[export] Instance descriptor_ok_dec d : Decision (descriptor_ok d) := _.
#[export] Instance scoped_batch_ok_dec b : Decision (scoped_batch_ok b) := _.

Definition scoped_ok (m : ScopedMessage) : Prop :=
  match m with
  | AScopedHello h => node_ok (hello_node_id h) ∧ node_ok (hello_db_id h) ∧ is_u64 (hello_capabilities h)
  | AScopedPullRequest r =>
      node_ok (pr_requester r) ∧ node_ok (pr_db_id r) ∧ is_u64 (have_sequence r) ∧ is_u64 (pr_max_batches r) ∧
      is_u64 (pr_max_bytes r) ∧ is_u64 (pr_max_single_batch_bytes r)
  | AScopedPullResponse r =>
      rs_ok (ps_status r) = true →
      descriptor_ok (ps_descriptor r) ∧ is_u64 (ps_remote_tail r) ∧ Forall scoped_batch_ok (ps_batches r)
  | AScopedPushRequest r =>
      node_ok (pq_sender r) ∧ node_ok (pq_db_id r) ∧ descriptor_ok (pq_descriptor r) ∧ Forall scoped_batch_ok (pq_batches r)
  | AScopedPushResponse r => is_u64 (receiver_sequence r)
  end.

(** What the wire keeps: batches without the keys whose flag is clear, of a failed pull only
    the status. *)
Definition canonical_scoped_batch (b : ScopedChangeBatch) : ScopedChangeBatch :=
  from_change_batch (sb_scope_id b) (canonical_batch (to_change_batch b)).

Definition canonical_scoped (m : ScopedMessage) : ScopedMessage :=
  match m with
  | AScopedPullResponse r => AScopedPullResponse (
      if rs_ok (ps_status r) then
        {| ps_descriptor := ps_descriptor r; ps_remote_tail := ps_remote_tail r; ps_remote_tail_known := ps_remote_tail_known r;
           ps_batches := canonical_scoped_batch <$> ps_batches r; ps_has_more := ps_has_more r; ps_status := ps_status r |}
      else
        {| ps_descriptor := default_descriptor; ps_remote_tail := 0; ps_remote_tail_known := false; ps_batches := [];
           ps_has_more := false; ps_status := ps_status r |})
  | AScopedPushRequest r => AScopedPushRequest
      {| pq_sender := pq_sender r; pq_db_id := pq_db_id r; pq_descriptor := pq_descriptor r;
         pq_batches := canonical_scoped_batch <$> pq_batches r |}
  | _ => m
  end.

(** ** What the checks establish *)

(** The batches a message carries, with the scope they are sent for. *)
Definition carried (m : ScopedMessage) : option (SelectiveReplicationDescriptor * list ScopedChangeBatch) :=
  match m with
  | AScopedPullResponse r => if rs_ok (ps_status r) then Some (ps_descriptor r, ps_batches r) else None
  | AScopedPushRequest r => Some (pq_descriptor r, pq_batches r)
  | _ => None
  end.

(** A batch of the scope: its id, its writer, and only tables of the manifest. *)
Record batch_in_scope (d : SelectiveReplicationDescriptor) (b : ScopedChangeBatch) : Prop := {
  in_scope_id : sb_scope_id b = scope_id d;
  in_scope_writer : sb_writer b = designated_writer_origin d;
  in_scope_sequence : scope_sequence b ≠ 0;
  in_scope_ops : sb_ops b ≠ [];
  in_scope_tables : Forall (fun op => ∃ e, e ∈ manifest d ∧ m_dbi_name e = dbi_name op ∧ m_dbi_flags e = dbi_flags op) (sb_ops b);
}.

(** Consecutive batches have consecutive numbers. *)
Definition contiguous (l : list ScopedChangeBatch) : Prop :=
  ∀ i b b', l !! i = Some b → l !! S i = Some b' → scope_sequence b' = scope_sequence b + 1.

Lemma guard_Ok (r : result unit) {A} (k : result A) a : (_ ← r; k) = Ok a ↔ r = Ok tt ∧ k = Ok a.
Proof. split; [intros ([] & ? & ?)%result_bind_Ok; done|intros [-> ->]; done]. Qed.

Lemma find_manifest_dbi_elem l name e : find_manifest_dbi l name = Some e → e ∈ l ∧ m_dbi_name e = name.
Proof.
  induction l as [|x l IH]; [done|]. cbn [find_manifest_dbi]. case_bool_decide as E.
  - intros [= ->]. split; [left|done].
  - intros [H1 H2]%IH. split; [by right|done].
Qed.

Lemma validate_scoped_ops_Ok d l :
  validate_scoped_ops d l = Ok tt →
  Forall (fun op => ∃ e, e ∈ manifest d ∧ m_dbi_name e = dbi_name op ∧ m_dbi_flags e = dbi_flags op) l.
Proof.
  induction l as [|op l IH]; [by constructor|]. cbn [validate_scoped_ops]. intros [H1 H2]%guard_Ok. constructor; [|by apply IH].
  destruct (find_manifest_dbi _ _) as [e|] eqn:E; [|done]. apply throw_if_Ok, negb_false_iff, Z.eqb_eq in H1.
  apply find_manifest_dbi_elem in E as [E1 E2]. by exists e.
Qed.

Lemma validate_scoped_batch_Ok bd d b :
  validate_scoped_batch bd d b = Ok tt →
  validate_scope_id (sb_scope_id b) bd = Ok tt ∧ batch_ready bd (to_change_batch b) ∧ scope_sequence b ≠ 0 ∧
  (node_ok (designated_writer_origin d) → scoped_batch_ok b → batch_in_scope d b).
Proof.
  unfold validate_scoped_batch. rewrite !guard_Ok, !throw_if_Ok, !negb_false_iff. intros (H1 & H2 & H3 & H4 & _ & H6 & H7).
  apply result_bind_Ok in H7 as (bs & [Hr _]%batch_encode_ready & Hops). apply bool_decide_eq_true in H2.
  apply bool_decide_eq_false in H6. apply Z.eqb_neq in H4. split_and!; [done..|]. intros Hn Hb. split; [done| |done|done|].
  - apply Z.eqb_eq, compare_node_id_zero in H3; [done| |done]. apply Hb.
  - by apply validate_scoped_ops_Ok.
Qed.

Lemma validate_batch_list_Ok bd d p l :
  validate_batch_list bd d p l = Ok tt →
  Forall (fun b => validate_scoped_batch bd d b = Ok tt) l ∧
  (∀ b, head l = Some b → ∀ q, p = Some q → scope_sequence b = (q + 1) mod 2 ^ 64) ∧
  ∀ i b b', l !! i = Some b → l !! S i = Some b' → scope_sequence b' = (scope_sequence b + 1) mod 2 ^ 64.
Proof.
  revert p. induction l as [|b l IH]; intros p; [done|]. cbn [validate_batch_list].
  rewrite !guard_Ok. intros (H1 & H2 & (H3 & H4 & H5)%IH). split_and!.
  - by constructor.
  - intros b0 [= <-] q ->. by apply throw_if_Ok, negb_false_iff, Z.eqb_eq in H2.
  - intros [|i] x y; cbn [lookup list_lookup]; [|by apply H5]. intros [= <-] Hy. eapply H4; [|done]. by destruct l.
Qed.

Lemma validate_scoped_batches_scope bd d l :
  descriptor_ok d → Forall scoped_batch_ok l → validate_scoped_batches bd d l = Ok tt →
  Forall (batch_in_scope d) l ∧ contiguous l.
Proof.
  intros [Hd _] Hl. unfold validate_scoped_batches. rewrite guard_Ok. intros [_ (H1 & _ & H3)%validate_batch_list_Ok].
  rewrite !Forall_forall in *. split.
  - intros b Hb. apply (validate_scoped_batch_Ok bd d b); auto.
  - intros i b b' Hb Hb'. specialize (H3 i b b' Hb Hb').
    apply list_elem_of_lookup_2 in Hb, Hb'. destruct (validate_scoped_batch_Ok _ _ _ (H1 _ Hb')) as (_ & _ & Hne & _).
    destruct (Hl _ Hb) as (_ & _ & _ & Hs & _). revert Hs. cbn [to_change_batch seq_no]. unfold u_range. intros Hs.
    destruct (decide (scope_sequence b + 1 = 2 ^ 64)) as [E|]; [rewrite E in H3; done|]. rewrite Z.mod_small in H3; lia.
Qed.

(** ** Writing *)

Lemma validate_scope_id_size id bd : validate_scope_id id bd = Ok tt → size_of id ≤ max_selective_scope_id_len bd.
Proof. unfold validate_scope_id. rewrite guard_Ok, throw_if_Ok. by intros [_ H%throw_if_Ok%gtb_false]. Qed.

Lemma validate_entries_sizes bd p l :
  validate_entries bd p l = Ok tt → Forall (fun e => size_of (m_dbi_name e) ≤ max_dbi_name_len bd) l.
Proof.
  revert p. induction l as [|e l IH]; intros p; [by constructor|]. cbn [validate_entries]. cbv zeta.
  rewrite !guard_Ok, !throw_if_Ok. intros (_ & H%gtb_false & _ & Hl). constructor; [done|by eapply IH].
Qed.

Lemma validate_descriptor_sizes d bd :
  validate_descriptor d bd = Ok tt →
  validate_scope_id (scope_id d) bd = Ok tt ∧ size_of (manifest d) ≤ max_selective_manifest_entries bd ∧
  Forall (fun e => size_of (m_dbi_name e) ≤ max_dbi_name_len bd) (manifest d).
Proof.
  unfold validate_descriptor. rewrite !guard_Ok, !throw_if_Ok. intros (H1 & _ & _ & H4%gtb_false & H5%validate_entries_sizes). done.
Qed.

Lemma validate_scoped_batches_sizes bd d l :
  validate_scoped_batches bd d l = Ok tt →
  size_of l ≤ max_batches_per_message bd ∧
  Forall (fun b => validate_scope_id (sb_scope_id b) bd = Ok tt ∧ batch_ready bd (to_change_batch b)) l.
Proof.
  unfold validate_scoped_batches. rewrite guard_Ok, throw_if_Ok. intros [H1%gtb_false (H2 & _)%validate_batch_list_Ok].
  split; [done|]. eapply Forall_impl; [exact H2|]. intros b (? & ? & _)%validate_scoped_batch_Ok. done.
Qed.

Lemma validate_status_size s bd : validate_response_status s bd = Ok tt → size_of (rs_error s) ≤ max_error_len bd.
Proof. unfold validate_response_status. rewrite guard_Ok, throw_if_Ok. by intros [H%gtb_false _]. Qed.

Section Codec.
Context (bd : CodecBounds) (Hbd : bounds_valid bd).
Abbreviation limit := (max_transport_message_bytes bd).

Lemma scoped_limits_small :
  limit < 2 ^ 64 ∧ max_selective_scope_id_len bd < 2 ^ 32 ∧ max_dbi_name_len bd < 2 ^ 32 ∧ max_error_len bd < 2 ^ 32 ∧
  max_selective_manifest_entries bd < 2 ^ 32 ∧ max_batches_per_message bd < 2 ^ 32.
Proof. assert (limit < 2 ^ 32) by limit_range Hbd. split; [lia|]. limit_range Hbd. Qed.

Lemma writes_scoped_header t : writes limit (make_header t) (scoped_header_bytes t) True.
Proof.
  destruct scoped_limits_small as [Hl _]. eapply writes_iff.
  - apply writes_bind; [by apply writes_bytes|]. apply writes_bind; [apply writes_u16|].
    apply writes_bind; [apply writes_u8|apply writes_u32].
  - tauto.
Qed.

Lemma writes_scoped_id n : writes limit (append_id n) n True.
Proof. apply writes_bytes. apply scoped_limits_small. Qed.

Lemma writes_scoped_string lim error v : lim < 2 ^ 32 → writes limit (append_string lim error v) (sized_bytes v) (size_of v ≤ lim).
Proof.
  intros Hl. destruct scoped_limits_small as [Hmax _]. eapply writes_iff.
  - apply writes_throw_if, writes_bind; [apply writes_u32_size, FrameCodec.size_of_pos|by apply writes_bytes].
  - rewrite gtb_false. split; [by intros (? & _)|]. intros H. split_and!; [done|lia|done].
Qed.

Lemma writes_scope_id v : writes limit (append_scope_id bd v) (sized_bytes v) (validate_scope_id v bd = Ok tt).
Proof.
  destruct scoped_limits_small as (_ & Hl & _). eapply writes_iff.
  - apply writes_check; [reflexivity|by apply writes_scoped_string].
  - pose proof (validate_scope_id_size v bd). tauto.
Qed.

Lemma writes_scoped_descriptor d :
  writes limit (append_descriptor bd d) (scoped_descriptor_bytes d) (validate_descriptor d bd = Ok tt).
Proof.
  destruct scoped_limits_small as (_ & _ & Hn & _ & Hm & _). eapply writes_iff.
  - apply writes_check; [reflexivity|]. apply writes_bind; [apply writes_scope_id|]. apply writes_bind; [apply writes_scoped_id|].
    apply writes_bind; [apply writes_u32_size, FrameCodec.size_of_pos|].
    apply (writes_each _ _ _ (fun e => size_of (m_dbi_name e) ≤ max_dbi_name_len bd ∧ True)). intros e _.
    apply writes_bind; [by apply writes_scoped_string|apply writes_u32].
  - split; [by intros [? _]|]. intros Hv. pose proof (validate_descriptor_sizes _ _ Hv) as (H1 & H2 & H3).
    split_and!; [done|done|done|lia|]. eapply Forall_impl; [exact H3|]. done.
Qed.

Lemma writes_scoped_batch b :
  writes limit (append_scoped_batch bd b) (scoped_batch_bytes b)
    (validate_scope_id (sb_scope_id b) bd = Ok tt ∧ batch_ready bd (to_change_batch b)).
Proof.
  destruct scoped_limits_small as [Hmax _]. apply writes_bind; [apply writes_scope_id|].
  apply (writes_nested _ _ _ (fun nested out => _)); [apply batch_encode_ready|]. intros [Hs Hc]%(batch_ready_size _ Hbd). eapply writes_iff.
  - apply writes_throw_if, writes_bind; [apply writes_u32_size, FrameCodec.size_of_pos|by apply writes_bytes].
  - rewrite gtb_false. done.
Qed.

Lemma writes_scoped_batches d l :
  writes limit (append_scoped_batches bd d l) (scoped_batches_bytes l) (validate_scoped_batches bd d l = Ok tt).
Proof.
  destruct scoped_limits_small as (_ & _ & _ & _ & _ & Hb). eapply writes_iff.
  - apply writes_check; [reflexivity|]. apply writes_bind; [apply writes_u32_size, FrameCodec.size_of_pos|].
    apply writes_each. intros b _. apply writes_scoped_batch.
  - split; [by intros [? _]|]. intros Hv. pose proof (validate_scoped_batches_sizes _ _ _ Hv) as [H1 H2]. split_and!; [done|lia|done].
Qed.

Lemma writes_status s : writes limit (append_response_status bd s) (status_bytes s) (validate_response_status s bd = Ok tt).
Proof.
  destruct scoped_limits_small as (_ & _ & _ & He & _). eapply writes_iff.
  - apply writes_check; [reflexivity|]. apply writes_bind; [apply writes_bool|]. apply writes_bind; [apply writes_u16|].
    apply writes_bind; [apply writes_bool|by apply writes_scoped_string].
  - pose proof (validate_status_size s bd). tauto.
Qed.

(** An encoder whose appends all pass once the message is checked. *)
Lemma checked_sized_Ok (v : result unit) (w : writer) s P bs :
  writes limit w s P → (v = Ok tt → P) →
  (_ ← v; sized w bd) = Ok bs ↔ v = Ok tt ∧ bs = s ∧ size_of bs ≤ limit.
Proof.
  intros [W1 W2] HP. rewrite guard_Ok. unfold sized. split.
  - intros [Hv (out & [_ ->]%W1 & ([] & Hs%throw_if_Ok%gtb_false & [= <-])%result_bind_Ok)%result_bind_Ok]. done.
  - intros (Hv & -> & Hs). split; [done|]. rewrite (W2 [] (HP Hv) Hs). cbn [mbind result_bind app].
    by rewrite (proj2 (gtb_false _ _) Hs).
Qed.

Lemma encode_scoped_Ok m bs :
  encode_scoped m (Some bd) = Ok bs ↔ validate_scoped m bd = Ok tt ∧ bs = scoped_bytes m ∧ size_of bs ≤ limit.
Proof.
  unfold scoped_bytes. destruct m as [h|r|r|r|r]; cbn [encode_scoped validate_scoped scoped_type scoped_body_bytes];
    eapply checked_sized_Ok; try (apply writes_bind; [apply writes_scoped_header|]).
  - do 2 (apply writes_bind; [apply writes_scoped_id|]). apply writes_u64.
  - done.
  - do 2 (apply writes_bind; [apply writes_scoped_id|]). apply writes_bind; [apply writes_scope_id|].
    do 3 (apply writes_bind; [apply writes_u64|]). apply writes_u64.
  - cbn [effective_bounds]. unfold validate_pull_request. rewrite !guard_Ok. tauto.
  - apply writes_bind; [apply writes_status|]. instantiate (1 := if rs_ok (ps_status r) then _ else _).
    destruct (rs_ok (ps_status r)); [|apply writes_ret]. apply writes_bind; [apply writes_scoped_descriptor|].
    apply writes_bind; [apply writes_u64|]. apply writes_bind; [apply writes_bool|].
    apply writes_bind; [apply writes_scoped_batches|apply writes_bool].
  - cbn [effective_bounds]. unfold validate_pull_response. rewrite !guard_Ok. destruct (rs_ok (ps_status r)); cbn [negb];
      [rewrite !guard_Ok|]; tauto.
  - do 2 (apply writes_bind; [apply writes_scoped_id|]). apply writes_bind; [apply writes_scoped_descriptor|apply writes_scoped_batches].
  - cbn [effective_bounds]. unfold validate_push_request. rewrite !guard_Ok. tauto.
  - apply writes_bind; [apply writes_status|]. apply writes_bind; [apply writes_scope_id|apply writes_u64].
  - cbn [effective_bounds]. unfold validate_push_response. rewrite !guard_Ok. tauto.
Qed.

(** ** Reading *)

Lemma reads_scoped_header_type t : reads read_header_type (scoped_header_bytes t) t.
Proof.
  unfold read_header_type, scoped_header_bytes. eapply reads_bind; [by apply reads_bytes|]. apply reads_check; [done|].
  eapply reads_bind; [by apply reads_u16|]. apply reads_check; [done|]. eapply reads_bind; [apply reads_u8|].
  eapply reads_last; [by apply reads_u32|]. apply reads_check; [done|]. destruct t; apply reads_ret.
Qed.

Lemma reads_scoped_header t : reads (check_header t) (scoped_header_bytes t) tt.
Proof. unfold check_header. eapply reads_last; [apply reads_scoped_header_type|]. rewrite bool_decide_true by done. apply reads_ret. Qed.

Lemma reads_scoped_id n : node_ok n → reads read_id n n.
Proof. intros Hn. apply reads_bytes. by rewrite Hn. Qed.

Lemma reads_scoped_string lim error v : lim < 2 ^ 32 → size_of v ≤ lim → reads (read_string lim error) (sized_bytes v) v.
Proof. intros Hl Hv. apply reads_sized; [lia|done]. Qed.

Lemma reads_scope_id v : validate_scope_id v bd = Ok tt → reads (read_scope_id bd) (sized_bytes v) v.
Proof.
  intros Hv. destruct scoped_limits_small as (_ & Hl & _). unfold read_scope_id.
  eapply reads_last; [apply reads_scoped_string; [done|by apply validate_scope_id_size]|]. rewrite Hv.
  eapply reads_last; [apply reads_lift|apply reads_ret].
Qed.

Lemma reads_scoped_descriptor d :
  descriptor_ok d → validate_descriptor d bd = Ok tt → reads (read_descriptor bd) (scoped_descriptor_bytes d) d.
Proof.
  intros [Hw Hf] Hv. destruct scoped_limits_small as (_ & _ & Hn & _ & Hm & _).
  destruct (validate_descriptor_sizes _ _ Hv) as (H1 & H2 & H3). pose proof (FrameCodec.size_of_pos (manifest d)).
  unfold read_descriptor, scoped_descriptor_bytes. eapply reads_bind; [by apply reads_scope_id|].
  eapply reads_bind; [by apply reads_scoped_id|]. eapply reads_bind; [apply reads_u32; unfold u_range; lia|].
  apply reads_check; [by apply gtb_false|]. unfold size_of. rewrite Nat2Z.id. eapply reads_last.
  - apply (reads_repeat _ dbi_bytes id). intros e He. rewrite Forall_forall in *. unfold read_dbi, dbi_bytes.
    eapply reads_bind; [apply reads_scoped_string; auto|]. eapply reads_last; [apply reads_u32; auto|]. destruct e; apply reads_ret.
  - rewrite list_fmap_id. cbv zeta. destruct d as [i w l]. cbn [scope_id designated_writer_origin manifest] in *. rewrite Hv.
    eapply reads_last; [apply reads_lift|apply reads_ret].
Qed.

Lemma canonical_ready b :
  scoped_batch_ok b → batch_ready bd (to_change_batch b) → batch_ready bd (to_change_batch (canonical_scoped_batch b)).
Proof. intros Hok Hr. eapply (batch_ready_decode _ Hbd) in Hr; [|done]. by apply (batch_decoded_ready _ Hbd) in Hr as (_ & _ & ? & _). Qed.

Lemma validate_scoped_ops_canonical d l :
  validate_scoped_ops d l = Ok tt → validate_scoped_ops d (ChangeBatchCodec.canonical_op <$> l) = Ok tt.
Proof.
  induction l as [|op l IH]; [done|]. rewrite fmap_cons. cbn [validate_scoped_ops ChangeBatchCodec.canonical_op dbi_name dbi_flags].
  rewrite !guard_Ok. intros [H1 H2]. auto.
Qed.

Lemma validate_scoped_batch_canonical d b :
  scoped_batch_ok b → validate_scoped_batch bd d b = Ok tt → validate_scoped_batch bd d (canonical_scoped_batch b) = Ok tt.
Proof.
  intros Hok Hv. destruct (validate_scoped_batch_Ok _ _ _ Hv) as (_ & Hr & _). pose proof (canonical_ready _ Hok Hr) as Hr'.
  revert Hv. unfold validate_scoped_batch. unfold batch_ready in Hr, Hr'. rewrite Hr, Hr'. cbn [mbind result_bind].
  cbn [canonical_scoped_batch from_change_batch ChangeBatchCodec.canonical_batch to_change_batch sb_scope_id sb_writer scope_sequence
    sb_version sb_flags sb_ops version batch_flags origin_node_id seq_no ops].
  rewrite !guard_Ok. intros (H1 & H2 & H3 & H4 & H5 & H6 & H7). do 5 (split; [done|]).
  split; [|by apply validate_scoped_ops_canonical]. rewrite throw_if_Ok, bool_decide_eq_false in H6 |- *. by intros ?%fmap_nil_inv.
Qed.

Lemma validate_scoped_batches_canonical d l :
  Forall scoped_batch_ok l → validate_scoped_batches bd d l = Ok tt →
  validate_scoped_batches bd d (canonical_scoped_batch <$> l) = Ok tt.
Proof.
  intros Hok. unfold validate_scoped_batches. rewrite !guard_Ok. unfold size_of. rewrite length_fmap. intros [H1 H2]. split; [done|].
  clear H1. revert H2. generalize (@None Z) as p. induction Hok as [|b l Hb _ IH]; intros p; [done|]. rewrite fmap_cons. cbn [validate_batch_list].
  rewrite !guard_Ok. intros (B1 & B2 & B3). split; [by apply validate_scoped_batch_canonical|]. split; [done|]. by apply IH.
Qed.

Lemma reads_scoped_batches d l :
  Forall scoped_batch_ok l → validate_scoped_batches bd d l = Ok tt →
  reads (read_scoped_batches bd d) (scoped_batches_bytes l) (canonical_scoped_batch <$> l).
Proof.
  intros Hok Hv. destruct scoped_limits_small as (_ & _ & _ & _ & _ & Hb). pose proof (FrameCodec.size_of_pos l).
  destruct (validate_scoped_batches_sizes _ _ _ Hv) as [Hn Hr]. unfold read_scoped_batches, scoped_batches_bytes.
  eapply reads_bind; [apply reads_u32; unfold u_range; lia|]. apply reads_check; [by apply gtb_false|]. unfold size_of.
  rewrite Nat2Z.id. eapply reads_last.
  - apply (reads_repeat _ scoped_batch_bytes canonical_scoped_batch). intros b Hin. rewrite Forall_forall in *.
    destruct (Hr b Hin) as [Hid Hrb]. destruct (batch_ready_size _ Hbd _ Hrb) as [Hs Hs']. unfold read_scoped_batch, scoped_batch_bytes.
    eapply reads_bind; [by apply reads_scope_id|]. eapply reads_last; [by apply reads_sized|].
    rewrite (batch_ready_decode _ Hbd) by (try apply Hok; done). eapply reads_last; [apply reads_lift|apply reads_ret].
  - rewrite validate_scoped_batches_canonical by done. eapply reads_last; [apply reads_lift|apply reads_ret].
Qed.

Lemma reads_status s : validate_response_status s bd = Ok tt → reads (read_response_status bd) (status_bytes s) s.
Proof.
  intros Hv. destruct scoped_limits_small as (_ & _ & _ & He & _). unfold read_response_status, status_bytes.
  eapply reads_bind; [apply reads_flag|]. eapply reads_bind.
  { instantiate (1 := rs_code s). unfold read_error_code. eapply reads_last; [apply reads_u16; by destruct (rs_code s)|].
    destruct (rs_code s); apply reads_ret. }
  eapply reads_bind; [apply reads_flag|]. eapply reads_last; [apply reads_scoped_string; [done|by apply validate_status_size]|].
  cbv zeta. destruct s as [ok e c rt]. cbn [rs_ok rs_error rs_code rs_retryable] in *. rewrite Hv. eapply reads_last; [apply reads_lift|apply reads_ret].
Qed.

(** The reads of the decoder for a type. *)
Definition read_scoped (t : MessageType) : reader ScopedMessage :=
  match t with
  | ScopedHello => h ← read_hello; mret (AScopedHello h)
  | ScopedPullRequestType => r ← read_pull_request bd; mret (AScopedPullRequest r)
  | ScopedPullResponseType => r ← read_pull_response bd; mret (AScopedPullResponse r)
  | ScopedPushRequestType => r ← read_push_request bd; mret (AScopedPushRequest r)
  | ScopedPushResponseType => r ← read_push_response bd; mret (AScopedPushResponse r)
  end.

Lemma reads_scoped m :
  scoped_ok m → validate_scoped m bd = Ok tt → reads (read_scoped (scoped_type m)) (scoped_bytes m) (canonical_scoped m).
Proof.
  intros Hok Hv. unfold scoped_bytes.
  destruct m as [h|r|r|r|r]; cbn [scoped_type read_scoped scoped_ok validate_scoped scoped_body_bytes] in *;
    (eapply reads_last; [eapply reads_bind; [apply reads_scoped_header|]|]).
  - destruct Hok as (H1 & H2 & H3), h as [n db cap]. do 2 (eapply reads_bind; [by apply reads_scoped_id|]).
    eapply reads_last; [by apply reads_u64|]. cbv zeta. cbn [hello_node_id hello_db_id hello_capabilities]. rewrite Hv.
    eapply reads_last; [apply reads_lift|apply reads_ret].
  - apply reads_ret.
  - unfold validate_pull_request in Hv. rewrite !guard_Ok in Hv. destruct Hok as (H1 & H2 & H3 & H4 & H5 & H6), r.
    do 2 (eapply reads_bind; [by apply reads_scoped_id|]). eapply reads_bind; [apply reads_scope_id; tauto|].
    do 3 (eapply reads_bind; [by apply reads_u64|]). eapply reads_last; [by apply reads_u64|]. apply reads_ret.
  - apply reads_ret.
  - unfold validate_pull_response in Hv. rewrite guard_Ok in Hv. destruct Hv as [Hs Hv]. eapply reads_bind; [by apply reads_status|].
    instantiate (1 := match canonical_scoped (AScopedPullResponse r) with AScopedPullResponse r => r | _ => r end).
    cbn [canonical_scoped]. destruct (rs_ok (ps_status r)) eqn:Eok; [|destruct r; apply reads_ret]. cbn [negb] in Hv.
    rewrite !guard_Ok in Hv. destruct Hok as (H1 & H2 & H3); [done|]. eapply reads_bind; [apply reads_scoped_descriptor; tauto|].
    eapply reads_bind; [by apply reads_u64|]. eapply reads_bind; [apply reads_flag|].
    eapply reads_bind; [apply reads_scoped_batches; tauto|]. eapply reads_last; [apply reads_flag|]. apply reads_ret.
  - apply reads_ret.
  - unfold validate_push_request in Hv. rewrite !guard_Ok in Hv. destruct Hok as (H1 & H2 & H3 & H4).
    do 2 (eapply reads_bind; [by apply reads_scoped_id|]). eapply reads_bind; [apply reads_scoped_descriptor; tauto|].
    eapply reads_last; [apply reads_scoped_batches; tauto|]. apply reads_ret.
  - apply reads_ret.
  - unfold validate_push_response in Hv. rewrite guard_Ok in Hv. destruct Hv as [Hid Hs]. eapply reads_bind; [by apply reads_status|].
    eapply reads_bind; [by apply reads_scope_id|]. eapply reads_last; [by apply reads_u64|]. apply reads_ret.
  - destruct r. apply reads_ret.
Qed.

(** ** What a decoded message satisfies *)

Lemma accepts_scoped_header t : accepts (check_header t) (fun s _ => length s = length (scoped_header_bytes t)).
Proof.
  unfold check_header, read_header_type. eapply accepts_bind; [|intros s t' Ht'; instantiate (1 := fun s t' => length s = _) in Ht'].
  - eapply accepts_bind; [by apply accepts_bytes|]. intros s0 m [-> Lm]. apply accepts_check. intros _.
    eapply accepts_bind; [apply accepts_u16|]. intros s1 v [_ ->]. apply accepts_check. intros _.
    eapply accepts_bind; [apply accepts_u8|]. intros s2 c (b & -> & _). eapply accepts_bind; [apply accepts_u32|].
    intros s3 f [_ ->]. apply accepts_check. intros _. destruct (scoped_type_of_code c); [|apply accepts_throw]. apply accepts_ret.
    rewrite !length_app, write_u16_le_length, write_u32_le_length. unfold magic_size in Lm. cbn [length].
    assert (length m = 8)%nat as -> by lia. reflexivity.
  - unfold check. case_bool_decide; cbn [negb]; [|apply accepts_throw]. apply accepts_ret. by rewrite app_nil_r.
Qed.

Lemma accepts_scoped_id : accepts read_id (fun s n => s = n ∧ node_ok n).
Proof. eapply accepts_mono; [by apply accepts_bytes|]. intros s n [-> Hn]. split; [done|]. unfold node_ok. lia. Qed.

Lemma accepts_scope_id : accepts (read_scope_id bd) (fun s v => s = sized_bytes v ∧ validate_scope_id v bd = Ok tt).
Proof.
  unfold read_scope_id. eapply accepts_bind; [apply accepts_sized|]. intros s v (-> & _ & _).
  eapply accepts_bind; [apply accepts_lift|]. intros s' [] [-> Hv]. apply accepts_ret. by rewrite !app_nil_r.
Qed.

Lemma accepts_scoped_descriptor :
  accepts (read_descriptor bd) (fun s d =>
    descriptor_ok d ∧ validate_descriptor d bd = Ok tt ∧ length s = length (scoped_descriptor_bytes d)).
Proof.
  assert (accepts (read_dbi bd) (fun s e => is_u32 (m_dbi_flags e) ∧ length s = length (dbi_bytes e))) as Hone.
  { unfold read_dbi. eapply accepts_bind; [apply accepts_sized|]. intros s v (-> & _ & _). eapply accepts_bind; [apply accepts_u32|].
    intros s f [Hf ->]. apply accepts_ret. split; [done|]. unfold dbi_bytes. cbn [m_dbi_name m_dbi_flags]. by rewrite app_nil_r. }
  unfold read_descriptor. eapply accepts_bind; [apply accepts_scope_id|]. intros s1 i [-> _].
  eapply accepts_bind; [apply accepts_scoped_id|]. intros s2 w [-> Hw]. eapply accepts_bind; [apply accepts_u32|]. intros s3 n [Hn ->].
  apply accepts_check. intros _. eapply accepts_bind; [apply accepts_repeat, Hone|]. intros s4 l (Hlen & ss & -> & Hss). cbv zeta.
  eapply accepts_bind; [apply accepts_lift|]. intros s5 [] [-> Hv]. apply accepts_ret.
  pose proof (ChangeBatchCodec.Forall2_length_sum _ dbi_bytes _ _ Hss) as Lm. unfold u_range in Hn.
  split; [split; [done|]|split; [done|]].
  - cbn [manifest]. eapply Forall2_Forall_r; [exact Hss|]. apply Forall_true. by intros ?? [??].
  - unfold scoped_descriptor_bytes. cbn [scope_id designated_writer_origin manifest].
    rewrite !length_app, Lm by by intros ?? [??]. rewrite !write_u32_le_length. cbn [length]. lia.
Qed.

Lemma accepts_scoped_batches d :
  accepts (read_scoped_batches bd d) (fun s l =>
    Forall scoped_batch_ok l ∧ canonical_scoped_batch <$> l = l ∧ validate_scoped_batches bd d l = Ok tt ∧
    length s = length (scoped_batches_bytes l)).
Proof.
  assert (accepts (read_scoped_batch bd) (fun s b => (scoped_batch_ok b ∧ canonical_scoped_batch b = b) ∧
    length s = length (scoped_batch_bytes b))) as Hone.
  { unfold read_scoped_batch. eapply accepts_bind; [apply accepts_scope_id|]. intros s i [-> _].
    eapply accepts_bind; [apply accepts_sized|]. intros s e (-> & _ & _). eapply accepts_bind; [apply accepts_lift|].
    intros s b [-> (Hok & Hc & Hr & Hlen)%(batch_decoded_ready _ Hbd)]. apply accepts_ret. rewrite !app_nil_r.
    assert (to_change_batch (from_change_batch i b) = b) as E by by destruct b. split; [split|].
    - unfold scoped_batch_ok. by rewrite E.
    - unfold canonical_scoped_batch. by rewrite E, Hc.
    - unfold scoped_batch_bytes. rewrite E, !length_app. f_equal. by apply sized_bytes_length. }
  unfold read_scoped_batches. eapply accepts_bind; [apply accepts_u32|]. intros s1 n [Hn ->]. apply accepts_check. intros Hl%gtb_false.
  eapply accepts_bind; [apply accepts_repeat, Hone|]. intros s l (Hlen & ss & -> & Hss). eapply accepts_bind; [apply accepts_lift|].
  intros s' [] [-> Hv]. apply accepts_ret. pose proof (ChangeBatchCodec.Forall2_length_sum _ scoped_batch_bytes _ _ Hss) as Lm.
  assert (Forall (fun b => scoped_batch_ok b ∧ canonical_scoped_batch b = b) l) as [Hok Hcan]%Forall_and.
  { eapply Forall2_Forall_r; [exact Hss|]. apply Forall_true. by intros ?? [??]. }
  split; [done|split; [|split; [done|]]].
  - rewrite Forall_forall in Hcan. rewrite <- (list_fmap_id l) at 2. apply list_fmap_ext.
    intros i b Hb%list_elem_of_lookup_2. by apply Hcan.
  - unfold scoped_batches_bytes. rewrite app_nil_r, !length_app, !write_u32_le_length, Lm by by intros ?? [??]. done.
Qed.

Lemma accepts_status :
  accepts (read_response_status bd) (fun s st => validate_response_status st bd = Ok tt ∧ length s = length (status_bytes st)).
Proof.
  unfold read_response_status. eapply accepts_bind; [apply accepts_flag|]. intros s1 ok ->. eapply accepts_bind.
  { instantiate (1 := fun s _ => length s = 2%nat). unfold read_error_code. eapply accepts_bind; [apply accepts_u16|].
    intros s v [_ ->]. destruct (scoped_error_of_value v); [|apply accepts_throw]. apply accepts_ret.
    by rewrite app_nil_r, write_u16_le_length. }
  intros s2 code L2. eapply accepts_bind; [apply accepts_flag|]. intros s3 rt ->. eapply accepts_bind; [apply accepts_sized|].
  intros s4 e (-> & _ & _). cbv zeta. eapply accepts_bind; [apply accepts_lift|]. intros s5 [] [-> Hv]. apply accepts_ret.
  split; [done|]. cbv beta in L2. unfold status_bytes, scoped_bool_bytes. cbn [rs_ok rs_error rs_code rs_retryable].
  rewrite !length_app, L2, write_u16_le_length. cbn [length]. lia.
Qed.

(** The check a decoder makes after the last read. *)
Definition scoped_validated (m : ScopedMessage) : Prop :=
  match m with AScopedHello _ => True | _ => validate_scoped m bd = Ok tt end.

Definition scoped_accepted (t : MessageType) (s : bytes) (m : ScopedMessage) : Prop :=
  scoped_type m = t ∧ scoped_ok m ∧ canonical_scoped m = m ∧ (scoped_validated m → validate_scoped m bd = Ok tt) ∧
  length s = length (scoped_bytes m).

Lemma accepts_scoped_map {A} (r : reader A) (f : A → ScopedMessage) P :
  accepts r (fun s a => P s (f a)) → accepts (x ← r; mret (f x)) P.
Proof. intros Hr. eapply accepts_bind; [exact Hr|]. intros s a HP. apply accepts_ret. by rewrite app_nil_r. Qed.

Lemma accepts_scoped_pull_response : accepts (read_scoped ScopedPullResponseType) (scoped_accepted ScopedPullResponseType).
Proof.
  apply accepts_scoped_map. unfold read_pull_response. eapply accepts_bind; [apply accepts_scoped_header|]. intros s0 [] L0.
  cbv beta in L0. eapply accepts_bind; [apply accepts_status|]. intros s1 st [Hs L1]. destruct (rs_ok st) eqn:Eok.
  - eapply accepts_bind; [apply accepts_scoped_descriptor|]. intros s2 d (Hd & Hdv & L2). eapply accepts_bind; [apply accepts_u64|].
    intros s3 tl [Ht ->]. eapply accepts_bind; [apply accepts_flag|]. intros s4 k ->.
    eapply accepts_bind; [apply accepts_scoped_batches|]. intros s5 l (Hl & Hcan & Hlv & L5).
    eapply accepts_bind; [apply accepts_flag|]. intros s6 more ->. apply accepts_ret. unfold scoped_accepted, scoped_bytes.
    cbn [scoped_type scoped_ok canonical_scoped scoped_validated scoped_body_bytes ps_descriptor ps_remote_tail ps_remote_tail_known
      ps_batches ps_has_more ps_status]. rewrite Eok, Hcan. split; [done|]. split; [done|]. split; [done|]. split; [done|].
    unfold scoped_bool_bytes. rewrite !length_app, L0, L1, L2, L5. cbn [length]. lia.
  - apply accepts_ret. unfold scoped_accepted, scoped_bytes.
    cbn [scoped_type scoped_ok canonical_scoped scoped_validated scoped_body_bytes ps_descriptor ps_remote_tail ps_remote_tail_known
      ps_batches ps_has_more ps_status]. rewrite Eok. split; [done|]. split; [done|]. split; [done|]. split; [done|].
    rewrite !length_app, L0, L1. cbn [length]. lia.
Qed.

Lemma accepts_scoped t : accepts (read_scoped t) (scoped_accepted t).
Proof.
  destruct t; [| |apply accepts_scoped_pull_response| |]; apply accepts_scoped_map;
    (eapply accepts_bind; [apply accepts_scoped_header|]; intros s0 [] L0; cbv beta in L0);
    [do 2 (eapply accepts_bind; [apply accepts_scoped_id|]; intros ? ? [-> ?])..|
     eapply accepts_bind; [apply accepts_status|]; intros s1 st [Hs L1]].
  - eapply accepts_bind; [apply accepts_u64|]. intros s3 c [Hc ->]. cbv zeta. eapply accepts_bind; [apply accepts_lift|].
    intros s4 [] [-> Hv]. apply accepts_ret. do 4 (split; [done|]). unfold scoped_bytes.
    cbn [scoped_type scoped_body_bytes hello_node_id hello_db_id hello_capabilities]. rewrite !length_app, L0. cbn [length]. lia.
  - eapply accepts_bind; [apply accepts_scope_id|]. intros s3 i [-> _].
    do 4 (eapply accepts_bind; [apply accepts_u64|]; intros ? ? [? ->]). apply accepts_ret. do 4 (split; [done|]).
    unfold scoped_bytes. rewrite !length_app, L0. cbn [scoped_type scoped_body_bytes pr_requester pr_db_id pr_scope_id have_sequence
      pr_max_batches pr_max_bytes pr_max_single_batch_bytes]. rewrite !length_app. cbn [length]. lia.
  - eapply accepts_bind; [apply accepts_scoped_descriptor|]. intros s2 d (Hd & Hdv & L2).
    eapply accepts_bind; [apply accepts_scoped_batches|]. intros s5 l (Hl & Hcan & Hlv & L5). apply accepts_ret.
    unfold scoped_accepted, scoped_bytes. cbn [scoped_type scoped_ok canonical_scoped scoped_validated scoped_body_bytes pq_sender
      pq_db_id pq_descriptor pq_batches]. rewrite Hcan. do 4 (split; [done|]). rewrite !length_app, L0, L2, L5. cbn [length]. lia.
  - eapply accepts_bind; [apply accepts_scope_id|]. intros s3 i [-> Hi]. eapply accepts_bind; [apply accepts_u64|]. intros s4 q [Hq ->].
    apply accepts_ret. do 4 (split; [done|]). unfold scoped_bytes. cbn [scoped_type scoped_body_bytes po_scope_id receiver_sequence
      po_status]. rewrite !length_app, L0, L1. cbn [length]. lia.
Qed.

Lemma decode_scoped_Ok t data m :
  decode_scoped t data (Some bd) = Ok m ↔ finish (read_scoped t) data bd = Ok m ∧ scoped_validated m.
Proof.
  assert (∀ {A} (r : reader A) (f : A → ScopedMessage) (v : A → result unit), (∀ a, v a = Ok tt ↔ scoped_validated (f a)) →
    (x ← (y ← finish r data bd; _ ← v y; Ok y); Ok (f x)) = Ok m ↔ finish (x ← r; mret (f x)) data bd = Ok m ∧ scoped_validated m) as Hc.
  { intros A r f v Hf. unfold finish. rewrite decode_all_map. destruct (decode_all _ _ _ r data) as [a|e]; cbn [mbind result_bind]; [|naive_solver].
    split.
    - intros (a' & ([] & Hv & [= <-])%result_bind_Ok & [= <-])%result_bind_Ok. by rewrite <- Hf.
    - intros [[= <-] Hv%Hf]. by rewrite Hv. }
  destruct t; cbn [decode_scoped read_scoped]; try (apply Hc; by intros a).
  rewrite <- (Hc _ _ _ (fun _ => Ok tt)) by done. unfold decode_hello. cbn [effective_bounds]. by destruct (finish _ _ _).
Qed.

Lemma canonical_validated m : scoped_ok m → validate_scoped m bd = Ok tt → validate_scoped (canonical_scoped m) bd = Ok tt.
Proof.
  intros Hok. destruct m as [h|r|r|r|r]; try done; cbn [canonical_scoped validate_scoped scoped_ok] in *.
  - unfold validate_pull_response. rewrite !guard_Ok. destruct (rs_ok (ps_status r)) eqn:Eok;
      cbn [ps_descriptor ps_remote_tail ps_remote_tail_known ps_batches ps_has_more ps_status]; rewrite Eok; cbn [negb]; [|by intros [? _]].
    destruct Hok as (_ & _ & Hl); [done|]. rewrite !guard_Ok. intros (Hs & Hd & Hb & Hm & Ht & Hlast). split; [done|]. split; [done|].
    split; [by apply validate_scoped_batches_canonical|]. split; [by destruct (ps_batches r)|]. split; [done|].
    rewrite fmap_last. by destruct (last (ps_batches r)).
  - unfold validate_push_request. cbn [pq_sender pq_db_id pq_descriptor pq_batches]. rewrite !guard_Ok.
    destruct Hok as (_ & _ & _ & Hl). intros (H1 & H2 & H3 & H4 & H5). do 3 (split; [done|]). split; [by destruct (pq_batches r)|].
    by apply validate_scoped_batches_canonical.
Qed.
End Codec.

Lemma scoped_effective m t data bounds :
  encode_scoped m bounds = encode_scoped m (Some (effective_bounds bounds)) ∧
  decode_scoped t data bounds = decode_scoped t data (Some (effective_bounds bounds)).
Proof. by destruct bounds, m, t. Qed.

Lemma scoped_roundtrip m bounds bs :
  bounds_arg_valid bounds → scoped_ok m → encode_scoped m bounds = Ok bs →
  decode_scoped (scoped_type m) bs bounds = Ok (canonical_scoped m) ∧ peek_message_type bs bounds = Ok (scoped_type m).
Proof.
  intros Hb Hok. rewrite (proj1 (scoped_effective m (scoped_type m) bs _)), (proj2 (scoped_effective m (scoped_type m) bs _)).
  intros (Hv & -> & Hs)%encode_scoped_Ok; [|done]. split.
  - apply decode_scoped_Ok. split; [by apply decode_all_reads; [apply reads_scoped|]|].
    pose proof (canonical_validated _ Hb _ Hok Hv) as Hc. by destruct m.
  - unfold peek_message_type. rewrite (proj2 (gtb_false _ _) Hs). cbn [throw_if mbind result_bind].
    by rewrite (reads_scoped_header_type _ _ (scoped_body_bytes m)) by apply at_bytes_make.
Qed.

Lemma carried_in_scope bd m d l :
  scoped_ok m → validate_scoped m bd = Ok tt → carried m = Some (d, l) → Forall (batch_in_scope d) l ∧ contiguous l.
Proof.
  destruct m as [h|r|r|r|r]; try done; cbn [carried scoped_ok validate_scoped].
  - destruct (rs_ok (ps_status r)) eqn:Eok; [|done]. intros Hok Hv [= <- <-]. destruct Hok as (Hd & _ & Hl); [done|].
    unfold validate_pull_response in Hv. rewrite Eok in Hv. cbn [negb] in Hv. rewrite !guard_Ok in Hv.
    eapply validate_scoped_batches_scope; [done|done|]. apply Hv.
  - intros (_ & _ & Hd & Hl) Hv [= <- <-]. unfold validate_push_request in Hv. rewrite !guard_Ok in Hv.
    eapply validate_scoped_batches_scope; [done|done|]. apply Hv.
Qed.

(** ** Theorem *)

(** C34: the selective protocol carries scoped changes faithfully.  What one side encodes the
    other side decodes to the same message (of a batch the keys whose flag is clear are not
    sent, of a failed pull only the status is), and its type can be read off first.  Whatever
    bytes arrive, a message that a decoder returns passes the checks of its encoder and
    encodes to as many bytes as were received; the batches it carries are all of the scope it
    names, from the scope's designated writer, on tables of its manifest only, and numbered
    without a gap. *)
Theorem scoped_protocol_sound (m : ScopedMessage) (t : MessageType) (data : bytes) (bounds : option CodecBounds) :
  bounds_arg_valid bounds →
  (scoped_ok m → encode_scoped m bounds = Ok data →
    decode_scoped (scoped_type m) data bounds = Ok (canonical_scoped m) ∧ peek_message_type data bounds = Ok (scoped_type m)) ∧
  (decode_scoped t data bounds = Ok m →
    scoped_type m = t ∧ scoped_ok m ∧ validate_scoped m (effective_bounds bounds) = Ok tt ∧
    (∀ d l, carried m = Some (d, l) → Forall (batch_in_scope d) l ∧ contiguous l) ∧
    ∃ bs, encode_scoped m bounds = Ok bs ∧ length bs = length data ∧ decode_scoped t bs bounds = Ok m).
Proof.
  intros Hb. split; [apply scoped_roundtrip, Hb|]. rewrite (proj2 (scoped_effective m t data bounds)).
  intros [Hf Hv]%decode_scoped_Ok. apply (decode_all_accepts _ _ _ _ (scoped_accepted (effective_bounds bounds) t)) in Hf as [Hacc Hs];
    [|by apply accepts_scoped]. destruct Hacc as (<- & Hok & Hcan & Hr & Hlen). specialize (Hr Hv).
  split; [done|]. split; [done|]. split; [done|]. split; [intros d l; by apply (carried_in_scope (effective_bounds bounds))|].
  assert (encode_scoped m bounds = Ok (scoped_bytes m)) as He.
  { rewrite (proj1 (scoped_effective m (scoped_type m) data bounds)). apply encode_scoped_Ok; [done|]. split; [done|]. split; [done|].
    unfold size_of in *. lia. }
  exists (scoped_bytes m). split; [done|]. split; [done|]. rewrite <- Hcan at 3. by apply scoped_roundtrip.
Qed.

(** ** A sample push *)

Definition sample_writer : NodeId := replicate 16 (byte_of 9).

Definition sample_op : ChangeOp := {|
  op_type := Put; op_flags := OP_NONE; dbi_flags := 0; dbi_name := bytes_of_string "prices"; storage_key := bytes_of_string "k";
  value := bytes_of_string "v"; identity_key := []; revision_key := [] |}.

Definition sample_scoped_batch (n : Z) : ScopedChangeBatch := {|
  sb_version := 1; sb_flags := BATCH_NONE; sb_scope_id := bytes_of_string "eu"; sb_writer := sample_writer; scope_sequence := n;
  sb_time := 17; sb_ops := [sample_op] |}.

Definition sample_descriptor : SelectiveReplicationDescriptor := {|
  scope_id := bytes_of_string "eu"; designated_writer_origin := sample_writer;
  manifest := [{| m_dbi_name := bytes_of_string "orders"; m_dbi_flags := 0 |}; {| m_dbi_name := bytes_of_string "prices"; m_dbi_flags := 0 |}] |}.

Definition sample_scoped_push : ScopedMessage := AScopedPushRequest {|
  pq_sender := sample_writer; pq_db_id := sample_writer; pq_descriptor := sample_descriptor;
  pq_batches := [sample_scoped_batch 4; sample_scoped_batch 5] |}.

Definition sample_scoped_bytes : bytes := match encode_scoped sample_scoped_push None with Ok bs => bs | Throw _ => [] end.

Lemma scoped_protocol_sound_witness :
  decode_scoped ScopedPushRequestType sample_scoped_bytes None = Ok (canonical_scoped sample_scoped_push) ∧
  peek_message_type sample_scoped_bytes None = Ok ScopedPushRequestType ∧
  Forall (batch_in_scope sample_descriptor) [sample_scoped_batch 4; sample_scoped_batch 5] ∧
  contiguous [sample_scoped_batch 4; sample_scoped_batch 5].
Proof.
  assert (encode_scoped sample_scoped_push None = Ok sample_scoped_bytes) as He by (vm_compute; reflexivity).
  assert (decode_scoped ScopedPushRequestType sample_scoped_bytes None = Ok sample_scoped_push) as Hd by (vm_compute; reflexivity).
  assert (bounds_arg_valid None) as Hb by (apply (bool_decide_unpack _); vm_compute; exact I).
  assert (scoped_ok sample_scoped_push) as Hok.
  { split; [reflexivity|]. split; [reflexivity|]. split; apply (bool_decide_unpack _); vm_compute; exact I. }
  destruct (scoped_protocol_sound sample_scoped_push ScopedPushRequestType sample_scoped_bytes None Hb) as [H1 H2].
  destruct (H1 Hok He) as [Hr Hp]. destruct (H2 Hd) as (_ & _ & _ & Hs & _).
  split; [exact Hr|]. split; [exact Hp|]. exact (Hs _ _ eq_refl).
Defined.
