(* ===== verification/TxnState.v ===== *)
(** * Objects used inside a transaction

    The accumulator of changes and the hooks of the connection are objects with members of
    their own that work in a transaction: their methods change the members and the
    transaction, and what they changed before an exception stays.  [St S] is the monad of such
    methods and [cwp] its weakest precondition over members and views: besides the
    postcondition it says what holds of the members when the storage engine fails. *)
From S2P Require Import Prelude Mdbx.
Open Scope Z_scope.

Section Code.
Context {X : Mdbx}.

Definition St (S A : Type) : Type := S → txn → result A * S * txn.

#[export] Instance St_ret {S} : MRet (St S) := fun A x a s => (Ok x, a, s).
#[export] Instance St_bind {S} : MBind (St S) := fun A B f m a s =>
  match m a s with
  | (Ok x, a', s') => f x a' s'
  | (Throw e, a', s') => (Throw e, a', s')
  end.

Definition in_txn {S A} (m : S → M A) : St S A := fun a s => let '(r, s') := m a s in (r, a, s').
Definition reading {S A} (f : S → St S A) : St S A := fun a => f a a.
Definition modify {S} (f : S → S) : St S unit := fun a s => (Ok tt, f a, s).
Definition throws {S A} (e : exn) : St S A := fun a s => (Throw e, a, s).

(** [try { m } catch (...) { h; throw; }]. *)
Definition on_throw {S A} (m : St S A) (h : S → S) : St S A := fun a s =>
  match m a s with
  | (Ok x, a', s') => (Ok x, a', s')
  | (Throw e, a', s') => (Throw e, h a', s')
  end.
End Code.

Section Rules.
Context {X : Mdbx} {L : MdbxLaws X} {S : Type}.

Definition cwp {A} (I : S → Prop) (m : St S A) (Q : result A → S → db_view → Prop) (a : S) (v : db_view)
    : Prop :=
  ∀ s, view s = v → let '(r, a', s') := m a s in Q r a' (view s') ∨ engine_failure r ∧ I a'.

Lemma cwp_mono {A} I (m : St S A) (P Q : result A → S → db_view → Prop) a v :
  cwp I m P a v → (∀ r a' v', P r a' v' → Q r a' v') → cwp I m Q a v.
Proof. intros H HPQ s Hs. specialize (H s Hs). destruct (m a s) as [[r a'] s']. naive_solver. Qed.

Lemma cwp_ret {A} I (x : A) Q a v : Q (Ok x) a v → cwp I (mret x) Q a v.
Proof. intros H s <-. by left. Qed.

Lemma cwp_throws {A} I e (Q : result A → S → db_view → Prop) a v : Q (Throw e) a v → cwp I (throws e) Q a v.
Proof. intros H s <-. by left. Qed.

Lemma cwp_bind {A B} I (m : St S A) (f : A → St S B) Q a v :
  cwp I m (fun r a' v' => match r with Ok x => cwp I (f x) Q a' v' | Throw e => Q (Throw e) a' v' end) a v →
  cwp I (m ≫= f) Q a v.
Proof.
  intros H s Hs. specialize (H s Hs). unfold mbind, St_bind.
  destruct (m a s) as [[[x|e] a'] s']; simpl in *.
  - destruct H as [H|[(c & rc & [=] & _) _]]. by apply H.
  - destruct H as [H|[(c & rc & [= ->] & He) HI]]; [by left|]. right. split; [|done]. by exists c, rc.
Qed.

Lemma cwp_in_txn {A} (I : S → Prop) (m : S → M A) Q a v :
  I a → wp (m a) (fun r v' => Q r a v') v → cwp I (in_txn m) Q a v.
Proof.
  intros HI H s Hs. specialize (H s Hs). unfold in_txn. destruct (m a s) as [r s']. naive_solver.
Qed.

Lemma cwp_modify (I : S → Prop) f Q a v : Q (Ok tt) (f a) v → cwp I (modify f) Q a v.
Proof. intros H s <-. by left. Qed.

Lemma cwp_reading {A} I (f : S → St S A) Q a v : cwp I (f a) Q a v → cwp I (reading f) Q a v.
Proof. done. Qed.

Lemma cwp_on_throw {A} (I I' : S → Prop) (m : St S A) h Q a v :
  (∀ a, I a → I' (h a)) →
  cwp I m (fun r a' v' => match r with Ok x => Q (Ok x) a' v' | Throw e => Q (Throw e) (h a') v' end) a v →
  cwp I' (on_throw m h) Q a v.
Proof.
  intros HI H s Hs. specialize (H s Hs). unfold on_throw.
  destruct (m a s) as [[[x|e] a'] s']; simpl in *.
  - destruct H as [H|[(c & rc & [=] & _) _]]. by left.
  - destruct H as [H|[(c & rc & [= ->] & He) Ha]]; [by left|]. right. split; [by exists c, rc|auto].
Qed.
End Rules.

(** What every run keeps of the members, whatever the storage engine does. *)
Section Preserves.
Context {X : Mdbx} {S : Type} (R : S → S → Prop) `{!PreOrder R}.

Definition preserves {A} (m : St S A) : Prop := ∀ a s, R a (m a s).1.2.

Lemma preserves_ret {A} (x : A) : preserves (mret x).
Proof. intros a s. apply reflexivity. Qed.
Lemma preserves_throws {A} e : preserves (throws e : St S A).
Proof. intros a s. apply reflexivity. Qed.
Lemma preserves_in_txn {A} (m : S → M A) : preserves (in_txn m).
Proof. intros a s. unfold in_txn. destruct (m a s). apply reflexivity. Qed.
Lemma preserves_modify f : (∀ a, R a (f a)) → preserves (modify f).
Proof. intros Hf a s. apply Hf. Qed.
Lemma preserves_reading {A} (f : S → St S A) : (∀ a, preserves (f a)) → preserves (reading f).
Proof. intros Hf a s. apply Hf. Qed.
Lemma preserves_bind {A B} (m : St S A) (f : A → St S B) :
  preserves m → (∀ x, preserves (f x)) → preserves (m ≫= f).
Proof.
  intros Hm Hf a s. specialize (Hm a s). unfold mbind, St_bind.
  destruct (m a s) as [[[x|e] a'] s']; [|done]. etrans; [exact Hm|apply Hf].
Qed.
Lemma preserves_on_throw {A} (m : St S A) h : preserves m → (∀ a, R a (h a)) → preserves (on_throw m h).
Proof.
  intros Hm Hh a s. specialize (Hm a s). unfold on_throw.
  destruct (m a s) as [[[x|e] a'] s']; [done|]. etrans; [exact Hm|apply Hh].
Qed.
End Preserves.
