(* ===== verification/Capture.v ===== *)
(** * Change capture

    Models [ThreadLocalChangeAccumulator] of
    [src/include/mdbx_containers/sync/capture/ChangeAccumulator.hpp]: the operations a write
    transaction has recorded are kept under its pointer until it commits; then they are
    written, inside that transaction, as one batch of the changelog with the next local
    sequence number, and as one batch of their selective scope when their tables belong to
    one. *)
From S2P Require Import Prelude SyncCommon KeyCodec SyncProtocol ChangeBatchCodec Mdbx RefMdbx StoreBase TxnState.
From S2P Require MetaStore OriginIndexStore ChangeLogStore.
From S2P Require Import ScopeStore ScopedStores.
Import ScopedChangeLog ScopedProgress.
Open Scope Z_scope.

(** The members of the accumulator; pending operations are keyed by transaction pointer. *)
Record accumulator : Type := {
  ac_env : Z;
  ac_node_id : NodeId;
  ac_meta : store;
  ac_change_log : ChangeLogStore.log_store;
  ac_scopes : scope_store;
  ac_scoped_log : store;
  ac_progress : store;
  ac_pending : gmap Z (list ChangeOp);
}.

Definition new_accumulator (env : Z) : accumulator := {|
  ac_env := env; ac_node_id := make_zero_node;
  ac_meta := new_store env MetaStore.meta_name;
  ac_change_log := ChangeLogStore.new_log_store env;
  ac_scopes := new_scope_store env;
  ac_scoped_log := new_store env scoped_log_name;
  ac_progress := new_store env scoped_progress_name;
  ac_pending := ∅;
|}.

(** Member updates. *)
Definition set_node (a : accumulator) (id : NodeId) : accumulator := {|
  ac_env := ac_env a; ac_node_id := id; ac_meta := ac_meta a; ac_change_log := ac_change_log a;
  ac_scopes := ac_scopes a; ac_scoped_log := ac_scoped_log a; ac_progress := ac_progress a;
  ac_pending := ac_pending a;
|}.
Definition set_stores (a : accumulator) (meta : store) (log : ChangeLogStore.log_store)
    (scopes : scope_store) (slog progress : store) : accumulator := {|
  ac_env := ac_env a; ac_node_id := ac_node_id a; ac_meta := meta; ac_change_log := log;
  ac_scopes := scopes; ac_scoped_log := slog; ac_progress := progress; ac_pending := ac_pending a;
|}.
Definition set_meta (st : store) (a : accumulator) : accumulator :=
  set_stores a st (ac_change_log a) (ac_scopes a) (ac_scoped_log a) (ac_progress a).
Definition set_change_log (ls : ChangeLogStore.log_store) (a : accumulator) : accumulator :=
  set_stores a (ac_meta a) ls (ac_scopes a) (ac_scoped_log a) (ac_progress a).
Definition set_scopes (st : scope_store) (a : accumulator) : accumulator :=
  set_stores a (ac_meta a) (ac_change_log a) st (ac_scoped_log a) (ac_progress a).
Definition set_scoped (slog progress : store) (a : accumulator) : accumulator :=
  set_stores a (ac_meta a) (ac_change_log a) (ac_scopes a) slog progress.
Definition set_pending (p : gmap Z (list ChangeOp)) (a : accumulator) : accumulator := {|
  ac_env := ac_env a; ac_node_id := ac_node_id a; ac_meta := ac_meta a;
  ac_change_log := ac_change_log a; ac_scopes := ac_scopes a; ac_scoped_log := ac_scoped_log a;
  ac_progress := ac_progress a; ac_pending := p;
|}.

(** A batch as [build_and_append_batch] fills it; the other members keep their
    initializers. *)
Definition captured_batch (node : NodeId) (seq : Z) (l : list ChangeOp) : ChangeBatch := {|
  version := 1; batch_flags := BATCH_NONE; origin_node_id := node; seq_no := seq; time_unix_ns := 0;
  ops := l;
|}.

Definition no_node_id : exn := runtime_error
  "Sync node_id is not initialised. Attach a SyncEngine and write _mdbxc_meta.node_id before enabling capture.".
Definition foreign_origin : exn :=
  logic_error "non-designated origin cannot publish a selective scope change".
Definition flags_differ : exn :=
  logic_error "selective scope DBI flags do not match the descriptor".
Definition many_scopes : exn :=
  logic_error "one transaction cannot change DBIs from multiple selective scopes".

(** Code of the accumulator. *)
Abbreviation C := (St accumulator).

Section Code.
Context {X : Mdbx} (fuel : nat).

Definition record_change_op (ptr : Z) (change : ChangeOp) : C unit :=
  _ ← in_txn (fun a => checked_txn_env (ac_env a) "ThreadLocalChangeAccumulator::record_change");
  modify (fun a => set_pending (<[ptr := default [] (ac_pending a !! ptr) ++ [change]]> (ac_pending a)) a).

Definition record_change (ptr : Z) (name : bytes) (ty : ChangeOpType) (flags : Z) (key val : bytes)
    : C unit :=
  record_change_op ptr {| op_type := ty; op_flags := OP_NONE; dbi_flags := flags; dbi_name := name;
    storage_key := key; value := val; identity_key := []; revision_key := [] |}.

Definition open_stores : C unit :=
  _ ← modify (fun a => set_meta (reset_open (ac_meta a)) a);
  meta ← in_txn (fun a => MetaStore.open (ac_meta a));
  _ ← modify (set_meta meta);
  _ ← modify (fun a => set_change_log (ChangeLogStore.reset_log (ac_change_log a)) a);
  log ← in_txn (fun a => ChangeLogStore.open (ac_change_log a));
  _ ← modify (set_change_log log);
  _ ← modify (fun a => set_scopes (reset_scopes (ac_scopes a)) a);
  _ ← modify (fun a => set_scoped (reset_open (ac_scoped_log a)) (reset_open (ac_progress a)) a);
  '(scopes, _) ← in_txn (fun a => open_existing (ac_scopes a));
  _ ← modify (set_scopes scopes);
  reading (fun a =>
    if bool_decide (ac_node_id a = make_zero_node) then
      from_meta ← in_txn (fun a => MetaStore.get_node_id (ac_meta a));
      if compare_node_id from_meta make_zero_node =? 0 then throws no_node_id
      else modify (fun a => set_node a from_meta)
    else mret tt).

(** The loop over the operations: the scope they belong to and those that do. *)
Fixpoint collect_scoped (node : NodeId) (st : scope_store) (l : list ChangeOp)
    (scope : option SelectiveReplicationDbiBinding) (scoped : list ChangeOp)
    : M (option SelectiveReplicationDbiBinding * list ChangeOp) :=
  match l with
  | [] => mret (scope, scoped)
  | op :: l' =>
      found ← find_for_dbi st (dbi_name op);
      match found with
      | None => collect_scoped node st l' scope scoped
      | Some binding =>
          _ ← lift (throw_if (negb (compare_node_id (b_writer binding) node =? 0)) foreign_origin);
          _ ← lift (throw_if (negb (b_dbi_flags binding =? dbi_flags op)) flags_differ);
          match scope with
          | Some b =>
              _ ← lift (throw_if (negb (bool_decide (b_scope_id binding = b_scope_id b))) many_scopes);
              collect_scoped node st l' scope (scoped ++ [op])
          | None => collect_scoped node st l' (Some binding) (scoped ++ [op])
          end
      end
  end.

(** The first batch: the changelog. *)
Definition append_local_batch (l : list ChangeOp) : C unit :=
  seq ← in_txn (fun a => MetaStore.increment_local_seq (ac_meta a));
  log ← in_txn (fun a =>
    data ← lift (encode (captured_batch (ac_node_id a) seq l) None);
    ChangeLogStore.append fuel (ac_change_log a) (ac_node_id a) seq data);
  modify (set_change_log log).

(** The second one: the changelog of the scope. *)
Definition append_scoped_batch (scope : bytes) (l : list ChangeOp) : C unit :=
  slog ← in_txn (fun a => open_scoped_log (ac_scoped_log a));
  _ ← modify (fun a => set_scoped slog (ac_progress a) a);
  progress ← in_txn (fun a => open_progress (ac_progress a));
  _ ← modify (fun a => set_scoped (ac_scoped_log a) progress a);
  in_txn (fun a =>
    seq ← increment_sequence (ac_progress a) scope;
    data ← lift (encode (captured_batch (ac_node_id a) seq l) None);
    append_scoped (ac_scoped_log a) scope seq data).

Definition build_and_append_batch (l : list ChangeOp) : C unit :=
  _ ← append_local_batch l;
  reading (fun a =>
    if negb (sc_open (ac_scopes a)) then mret tt
    else
      '(scope, scoped) ← in_txn (fun a => collect_scoped (ac_node_id a) (ac_scopes a) l None []);
      match scope with
      | None => mret tt
      | Some b => append_scoped_batch (b_scope_id b) scoped
      end).

Definition flush_in_txn (ptr : Z) : C unit :=
  _ ← in_txn (fun a => checked_txn_env (ac_env a) "ThreadLocalChangeAccumulator::flush_in_txn");
  reading (fun a =>
    match ac_pending a !! ptr with
    | None | Some [] => mret tt
    | Some l =>
        _ ← modify (fun a => set_pending (<[ptr := []]> (ac_pending a)) a);
        on_throw
          (_ ← open_stores;
           _ ← build_and_append_batch l;
           modify (fun a => set_pending (delete ptr (ac_pending a)) a))
          (fun a => set_pending (<[ptr := l]> (ac_pending a)) a)
    end).

Definition discard_txn (ptr : Z) (a : accumulator) : accumulator :=
  set_pending (delete ptr (ac_pending a)) a.
End Code.

(** ** What a flush does *)

(** The loop over the operations, against the records of the index. *)
Fixpoint scoped_ops (dbis : gmap bytes bytes) (node : NodeId) (l : list ChangeOp)
    (scope : option SelectiveReplicationDbiBinding) (scoped : list ChangeOp)
    : result (option SelectiveReplicationDbiBinding * list ChangeOp) :=
  match l with
  | [] => Ok (scope, scoped)
  | op :: l' =>
      found ← find_result dbis (dbi_name op);
      match found with
      | None => scoped_ops dbis node l' scope scoped
      | Some b =>
          if negb (bool_decide (b_writer b = node)) then Throw foreign_origin
          else if negb (b_dbi_flags b =? dbi_flags op) then Throw flags_differ
          else match scope with
               | Some b0 =>
                   if negb (bool_decide (b_scope_id b = b_scope_id b0)) then Throw many_scopes
                   else scoped_ops dbis node l' scope (scoped ++ [op])
               | None => scoped_ops dbis node l' (Some b) (scoped ++ [op])
               end
      end
  end.

(** The node id in use: the one read before, or the one of the database. *)
Definition node_in_use (known : NodeId) (meta : gmap bytes bytes) : result NodeId :=
  if bool_decide (known = make_zero_node) then
    let id := default make_zero_node (meta !! [MetaStore.key_node_id]) in
    if bool_decide (id = make_zero_node) then Throw no_node_id else Ok id
  else Ok known.

Definition next_local_seq (meta : gmap bytes bytes) : Z :=
  (MetaStore.a_local_seq (MetaStore.meta_of meta) + 1) mod 2 ^ 64.

(** The record added to the changelog. *)
Definition local_record (node : NodeId) (meta cl : gmap bytes bytes) (l : list ChangeOp) : result (Z * bytes) :=
  let seq := next_local_seq meta in
  data ← encode (captured_batch node seq l) None;
  match cl !! ChangeLogStore.encode_key node seq with
  | Some _ => Throw (MdbxException "ChangeLogStore append failed" MDBX_KEYEXIST)
  | None => Ok (seq, data)
  end.

(** The scope, number and record added to the changelog of the scope, if there is one. *)
Definition scope_record (node : NodeId) (dbis slog progress : gmap bytes bytes) (l : list ChangeOp)
    : result (option (bytes * Z * bytes)) :=
  '(scope, scoped) ← scoped_ops dbis node l None [];
  match scope with
  | None => Ok None
  | Some b =>
      last ← progress_of progress (b_scope_id b);
      let seq := (last + 1) mod 2 ^ 64 in
      data ← encode (captured_batch node seq scoped) None;
      match slog !! scoped_key (b_scope_id b) seq with
      | Some _ => Throw (MdbxException "scoped changelog append failed" MDBX_KEYEXIST)
      | None => Ok (Some (b_scope_id b, seq, data))
      end
  end.

Record captured : Type := {
  cp_node : NodeId;
  cp_seq : Z;
  cp_data : bytes;
  cp_scoped : option (bytes * Z * bytes);
}.

Definition stores_disagree : exn :=
  runtime_error "selective replication descriptor and DBI-index stores disagree".

(** Whether the scope stores exist, and the node id. *)
Definition open_outcome (known : NodeId) (v : db_view) : result (bool * NodeId) :=
  present ← match store_present v with
            | (true, true) => Ok true
            | (false, false) => Ok false
            | _ => Throw stores_disagree
            end;
  node ← node_in_use known (recs v MetaStore.meta_name);
  Ok (present, node).

Definition capture_outcome (known : NodeId) (v : db_view) (l : list ChangeOp) : result captured :=
  '(present, node) ← open_outcome known v;
  '(seq, data) ← local_record node (recs v MetaStore.meta_name) (recs v ChangeLogStore.changelog_name) l;
  scoped ← (if present : bool then
              scope_record node (recs v dbis_name) (recs v scoped_log_name) (recs v scoped_progress_name) l
            else Ok None);
  Ok {| cp_node := node; cp_seq := seq; cp_data := data; cp_scoped := scoped |}.

(** The tables a flush writes. *)
Definition capture_tables : list bytes :=
  [MetaStore.meta_name; ChangeLogStore.changelog_name; OriginIndexStore.origins_name;
   scoped_log_name; scoped_progress_name].

Definition index_good (v : db_view) : Prop :=
  OriginIndexStore.index_wf (recs v OriginIndexStore.origins_name) ∧
  (recs v OriginIndexStore.origins_name ≠ ∅ →
   ChangeLogStore.index_covers (recs v ChangeLogStore.changelog_name) (recs v OriginIndexStore.origins_name)).

Record captured_in (c : captured) (v v' : db_view) : Prop := {
  ci_frame : v_frame capture_tables v v';
  ci_meta : recs v' MetaStore.meta_name =
    <[[MetaStore.key_local_seq] := write_u64_le (cp_seq c)]> (recs v MetaStore.meta_name);
  ci_log : recs v' ChangeLogStore.changelog_name =
    <[ChangeLogStore.encode_key (cp_node c) (cp_seq c) := cp_data c]> (recs v ChangeLogStore.changelog_name);
  ci_index : index_good v';
  ci_scoped :
    match cp_scoped c with
    | None =>
        recs v' scoped_log_name = recs v scoped_log_name ∧
        recs v' scoped_progress_name = recs v scoped_progress_name
    | Some (id, n, data) =>
        recs v' scoped_log_name = <[scoped_key id n := data]> (recs v scoped_log_name) ∧
        recs v' scoped_progress_name = <[id := write_u64_le n]> (recs v scoped_progress_name)
    end;
}.

(** The accumulator's stores are the ones of the environment. *)
Definition store_is (env : Z) (name : bytes) (st : store) : Prop :=
  m_env st = env ∧ store_table st = name.

Record acc_ok (env : Z) (a : accumulator) : Prop := {
  ao_env : ac_env a = env;
  ao_node : node_ok (ac_node_id a);
  ao_meta : store_is env MetaStore.meta_name (ac_meta a);
  ao_log : store_is env ChangeLogStore.changelog_name (ChangeLogStore.log (ac_change_log a));
  ao_origins : store_is env OriginIndexStore.origins_name (ChangeLogStore.m_origins (ac_change_log a));
  ao_scopes : sc_env (ac_scopes a) = env ∧ default_names (ac_scopes a);
  ao_scoped : store_is env scoped_log_name (ac_scoped_log a);
  ao_progress : store_is env scoped_progress_name (ac_progress a);
}.

(** A database capture can work in. *)
Record capture_view (env : Z) (fuel : nat) (v : db_view) : Prop := {
  cv_env : v_env v = env;
  cv_rw : v_rw v = true;
  cv_sys n : n ∈ scopes_name :: dbis_name :: capture_tables → sys_table v n;
  cv_meta : MetaStore.meta_ok (MetaStore.meta_of (recs v MetaStore.meta_name));
  cv_log : ChangeLogStore.log_wf (recs v ChangeLogStore.changelog_name);
  cv_index : index_good v;
  cv_registry : registry_ok (recs v scopes_name) (recs v dbis_name);
  cv_fuel : (size (recs v ChangeLogStore.changelog_name) < fuel)%nat;
}.

Definition outcome_post (ptr : Z) (a : accumulator) (v : db_view) (o : result captured) (r : result unit)
    (a' : accumulator) (v' : db_view) : Prop :=
  match o with
  | Throw e => r = Throw e
  | Ok c =>
      r = Ok tt ∧ ac_pending a' = delete ptr (ac_pending a) ∧ ac_node_id a' = cp_node c ∧ captured_in c v v'
  end.

Definition flush_post (ptr : Z) (a : accumulator) (v : db_view) (r : result unit) (a' : accumulator)
    (v' : db_view) : Prop :=
  match ac_pending a !! ptr with
  | None | Some [] => r = Ok tt ∧ a' = a ∧ v' = v
  | Some l => outcome_post ptr a v (capture_outcome (ac_node_id a) v l) r a' v'
  end.

(** ** The stores are opened *)

(** The stores and the node id, one of [ids], may have changed, and nothing else. *)
Definition kept (env : Z) (ids : list NodeId) (p : gmap Z (list ChangeOp)) (a : accumulator) : Prop :=
  acc_ok env a ∧ ac_pending a = p ∧ ac_node_id a ∈ ids.

(** The node id recorded in the database. *)
Definition meta_node (v : db_view) : NodeId :=
  default make_zero_node (recs v MetaStore.meta_name !! [MetaStore.key_node_id]).

Lemma kept_meta env ids p st a : kept env ids p a → store_is env MetaStore.meta_name st → kept env ids p (set_meta st a).
Proof. intros [[] Hp] Hs. split; [by split|exact Hp]. Qed.

Lemma kept_log env ids p ls a :
  kept env ids p a → store_is env ChangeLogStore.changelog_name (ChangeLogStore.log ls) →
  store_is env OriginIndexStore.origins_name (ChangeLogStore.m_origins ls) → kept env ids p (set_change_log ls a).
Proof. intros [[] Hp] H1 H2. split; [by split|exact Hp]. Qed.

Lemma kept_scopes env ids p st a :
  kept env ids p a → sc_env st = env → default_names st → kept env ids p (set_scopes st a).
Proof. intros [[] Hp] H1 H2. split; [by split|exact Hp]. Qed.

Lemma kept_scoped env ids p slog progress a :
  kept env ids p a → store_is env scoped_log_name slog → store_is env scoped_progress_name progress →
  kept env ids p (set_scoped slog progress a).
Proof. intros [[] Hp] H1 H2. split; [by split|exact Hp]. Qed.

Lemma kept_node env ids p id a : kept env ids p a → node_ok id → id ∈ ids → kept env ids p (set_node a id).
Proof. intros [[] [Hp _]] H1 H2. by split; [split|]. Qed.

Lemma store_is_reset env name st : store_is env name st → store_is env name (reset_open st).
Proof. done. Qed.

(** The stores after [open_stores], in the view [v] that grew out of [v0]. *)
Record opened_stores (present : bool) (node : NodeId) (v0 v : db_view) (a : accumulator) : Prop := {
  os_ext : v_ext v0 v;
  os_meta : ready v (ac_meta a);
  os_log : ChangeLogStore.log_state v (ac_change_log a);
  os_scopes : if present then scopes_ready v (ac_scopes a) else sc_open (ac_scopes a) = false;
  os_closed : m_open (ac_scoped_log a) = false ∧ m_open (ac_progress a) = false;
  os_node : ac_node_id a = node;
}.

Lemma opened_store_is env name st st' v v' :
  v_env v = env → store_is env name st → opened v st st' v' → store_is env name st'.
Proof.
  intros Henv [_ Ht] (He & (_ & Hm & _) & Et & _). split; [|congruence].
  rewrite Hm, (ext_env _ _ He). done.
Qed.

Lemma capture_view_ext env fuel v v' : v_ext v v' → capture_view env fuel v → capture_view env fuel v'.
Proof.
  intros He [H1 H2 H3 H4 H5 H6 H7 H8]. pose proof (fun n => ext_recs v v' n He) as Er.
  split; unfold index_good in *; rewrite ?Er; try done.
  - by rewrite (ext_env _ _ He).
  - by rewrite (ext_rw _ _ He).
  - intros n Hn. unfold sys_table. rewrite (ext_table _ _ He). by apply H3.
Qed.

Lemma log_state_ext v v' ls : v_ext v v' → ChangeLogStore.log_state v ls → ChangeLogStore.log_state v' ls.
Proof.
  intros He [H1 H2 H3 H4 H5 H6 H7 H8]. split; rewrite ?(ext_recs _ _ _ He); try done.
  - by eapply ready_ext.
  - eapply (openable_frame []), H3. by apply v_ext_frame.
Qed.

Lemma present_kept v v' st st' :
  opened v st st' v' → store_table st ∈ [MetaStore.meta_name; ChangeLogStore.changelog_name] →
  store_present v' = store_present v.
Proof.
  intros (_ & _ & _ & Hd) Hn. unfold store_present.
  assert (scopes_name ≠ store_table st ∧ dbis_name ≠ store_table st) as [H1 H2].
  { split; intros E; rewrite <- E in Hn; revert Hn; apply (bool_decide_unpack _); by vm_compute. }
  by rewrite !Hd.
Qed.

Section Open.
Context {X : Mdbx} {L : MdbxLaws X} (env : Z) (fuel : nat) (ids : list NodeId) (p : gmap Z (list ChangeOp)).

Lemma cwp_open_store (get : accumulator → store) (set : store → accumulator → accumulator) context what name
    {B} (k : C B) Q a v :
  kept env ids p a → capture_view env fuel v → name ∈ capture_tables → store_is env name (get a) →
  m_open (get a) = false →
  (∀ st' v', opened v (get a) st' v' → store_is env name st' → capture_view env fuel v' →
     cwp (kept env ids p) k Q (set st' a) v') →
  cwp (kept env ids p) (st ← in_txn (fun a => store_open (get a) context what); _ ← modify (set st); k) Q a v.
Proof.
  intros Hk Hv Hn [Hm Ht] Ho HQ. apply cwp_bind, cwp_in_txn; [done|].
  apply wp_store_open; [done|by rewrite (cv_env _ _ _ Hv)|rewrite Ht; apply (cv_sys _ _ _ Hv); set_solver|left; apply Hv|].
  intros st' v' Hop. apply cwp_bind, cwp_modify, HQ; [done| |].
  - eapply opened_store_is, Hop; [apply Hv|done].
  - eapply capture_view_ext, Hv. apply Hop.
Qed.

Lemma fresh_log_state v ls st' v' :
  capture_view env fuel v → store_is env ChangeLogStore.changelog_name (ChangeLogStore.log ls) →
  store_is env OriginIndexStore.origins_name (ChangeLogStore.m_origins ls) →
  m_open (ChangeLogStore.m_origins ls) = false → ChangeLogStore.m_origin_index_ready ls = false →
  opened v (ChangeLogStore.log ls) st' v' →
  ChangeLogStore.log_state v' (ChangeLogStore.set_log ls st').
Proof.
  intros Hv [_ Hl] [Hoe Hot] Ho Hr (He & Hrdy & Et & _).
  pose proof (capture_view_ext _ _ _ _ He Hv) as Hv'. destruct (cv_index _ _ _ Hv') as [Hw Hi].
  split; simpl; [done|congruence| |done|congruence|apply Hv'|exact Hw|].
  - split_and!; [by rewrite Hoe, (cv_env _ _ _ Hv')| |congruence].
    rewrite Hot. apply (cv_sys _ _ _ Hv'). set_solver.
  - intros [H|H]; [simpl in H; congruence|]. by apply Hi.
Qed.

Lemma cwp_open_log {B} (k : C B) Q a v :
  kept env ids p a → capture_view env fuel v →
  m_open (ChangeLogStore.log (ac_change_log a)) = false →
  m_open (ChangeLogStore.m_origins (ac_change_log a)) = false →
  ChangeLogStore.m_origin_index_ready (ac_change_log a) = false →
  (∀ ls v', opened v (ChangeLogStore.log (ac_change_log a)) (ChangeLogStore.log ls) v' →
     ChangeLogStore.log_state v' ls → kept env ids p (set_change_log ls a) → capture_view env fuel v' →
     cwp (kept env ids p) k Q (set_change_log ls a) v') →
  cwp (kept env ids p)
    (log ← in_txn (fun a => ChangeLogStore.open (ac_change_log a)); _ ← modify (set_change_log log); k) Q a v.
Proof.
  intros Hk Hv Ho1 Ho2 Hr HQ. pose proof (proj1 Hk) as Hok. destruct (ao_log _ _ Hok) as [Hm Ht].
  apply cwp_bind, cwp_in_txn; [done|]. apply wp_bind, wp_store_open; [done|by rewrite (cv_env _ _ _ Hv)| |left; apply Hv|].
  { rewrite Ht. apply (cv_sys _ _ _ Hv). set_solver. }
  intros st' v' Hop. apply wp_ret, cwp_bind, cwp_modify. apply HQ.
  - done.
  - eapply fresh_log_state; [done|apply Hok..|done|done|done].
  - eapply kept_log; [done| |apply Hok]. eapply opened_store_is, Hop; [apply Hv|done].
  - eapply capture_view_ext, Hv. apply Hop.
Qed.

Lemma cwp_open_node Q a v :
  kept env ids p a → meta_node v ∈ ids → capture_view env fuel v → ready v (ac_meta a) →
  match node_in_use (ac_node_id a) (recs v MetaStore.meta_name) with
  | Ok node => node_ok node → node ∈ ids → Q (Ok tt) (set_node a node) v
  | Throw e => Q (Throw e) a v
  end →
  cwp (kept env ids p) (reading (fun a =>
    if bool_decide (ac_node_id a = make_zero_node) then
      from_meta ← in_txn (fun a => MetaStore.get_node_id (ac_meta a));
      if compare_node_id from_meta make_zero_node =? 0 then throws no_node_id
      else modify (fun a => set_node a from_meta)
    else mret tt)) Q a v.
Proof.
  intros Hk Hids Hv Hr HQ. pose proof (proj1 Hk) as Hok. apply cwp_reading. unfold node_in_use in HQ.
  destruct (bool_decide_reflect (ac_node_id a = make_zero_node)).
  2: { apply cwp_ret. assert (set_node a (ac_node_id a) = a) as E by by destruct a.
       rewrite <- E. apply HQ; [apply Hok|apply Hk]. }
  apply cwp_bind, cwp_in_txn; [done|].
  destruct (ao_meta _ _ Hok) as [_ Ht]. apply wp_bind, MetaStore.wp_try_get_node_id; [done|rewrite Ht; apply Hv|].
  apply wp_ret. rewrite Ht. set (id := default make_zero_node _) in *.
  assert (node_ok id) as Hid.
  { unfold id. pose proof (cv_meta _ _ _ Hv) as Hm. unfold MetaStore.meta_ok in Hm. simpl in Hm.
    destruct (recs v MetaStore.meta_name !! _); [by apply Hm|apply make_zero_node_ok]. }
  pose proof (compare_node_id_zero id make_zero_node Hid make_zero_node_ok) as Hc.
  destruct (bool_decide_reflect (id = make_zero_node)) as [E|E].
  - rewrite (proj2 Hc E), Z.eqb_refl. by apply cwp_throws.
  - rewrite (proj2 (Z.eqb_neq _ _)) by naive_solver. apply cwp_modify. by apply HQ.
Qed.

(** The end of [open_stores], once the meta table and the changelog are open. *)
Lemma cwp_open_rest (present : bool) (st : scope_store) v0 Q a v :
  kept env ids p a → meta_node v0 ∈ ids → capture_view env fuel v → v_ext v0 v → ready v (ac_meta a) →
  ChangeLogStore.log_state v (ac_change_log a) →
  (if present then scopes_ready v st else sc_open st = false) → sc_env st = env → default_names st →
  m_open (ac_scoped_log a) = false ∧ m_open (ac_progress a) = false →
  match node_in_use (ac_node_id a) (recs v0 MetaStore.meta_name) with
  | Ok node => ∀ a' v', opened_stores present node v0 v' a' → kept env ids p a' → Q (Ok tt) a' v'
  | Throw e => ∀ a' v', kept env ids p a' → Q (Throw e) a' v'
  end →
  cwp (kept env ids p) (_ ← modify (set_scopes st); reading (fun a =>
    if bool_decide (ac_node_id a = make_zero_node) then
      from_meta ← in_txn (fun a => MetaStore.get_node_id (ac_meta a));
      if compare_node_id from_meta make_zero_node =? 0 then throws no_node_id
      else modify (fun a => set_node a from_meta)
    else mret tt)) Q a v.
Proof.
  intros Hk Hids Hv He Hm Hl Hs Hse Hsn Hc HQ. apply cwp_bind, cwp_modify.
  assert (kept env ids p (set_scopes st a)) as Hk' by by apply kept_scopes.
  apply cwp_open_node; [done|by unfold meta_node; rewrite (ext_recs _ _ _ He)|done..|]. rewrite (ext_recs _ _ _ He). simpl.
  destruct (node_in_use _ _) as [node|e]; [|by apply HQ].
  intros Hn Hin. apply HQ; [|by apply kept_node]. split; try done.
Qed.

Lemma cwp_open_stores Q a v :
  kept env ids p a → meta_node v ∈ ids → capture_view env fuel v →
  match open_outcome (ac_node_id a) v with
  | Ok (present, node) => ∀ a' v', opened_stores present node v v' a' → kept env ids p a' → Q (Ok tt) a' v'
  | Throw e => ∀ a' v', kept env ids p a' → Q (Throw e) a' v'
  end →
  cwp (kept env ids p) open_stores Q a v.
Proof.
  intros Hk Hids Hv HQ. pose proof (proj1 Hk) as Hok. unfold open_stores.
  apply cwp_bind, cwp_modify. apply (cwp_open_store ac_meta set_meta _ _ MetaStore.meta_name);
    [by apply kept_meta; [|apply Hok]|done|set_solver|apply Hok|done|].
  intros meta v1 Hop1 Hs1 Hv1. apply cwp_bind, cwp_modify. set (a1 := set_meta meta _).
  assert (kept env ids p a1) as Hk1 by (apply kept_meta; [|done]; by apply kept_meta; [|apply Hok]).
  apply cwp_open_log; [by apply kept_log; [|apply Hok..]|done..|].
  intros ls v2 Hop2 Hls Hk2 Hv2. simpl in Hop2. apply cwp_bind, cwp_modify, cwp_bind, cwp_modify.
  set (a2 := set_scoped _ _ _).
  assert (kept env ids p a2) as Hk3.
  { apply kept_scoped; [|apply Hok..]. apply kept_scopes; [done|apply Hok..]. }
  assert (v_ext v v2) as He by (etrans; [apply Hop1|apply Hop2]).
  assert (store_present v2 = store_present v) as Hp.
  { etrans; eapply present_kept; [exact Hop2| |exact Hop1|].
    - change (store_table (reset_open _)) with (store_table (ChangeLogStore.log (ac_change_log a))).
      rewrite (proj2 (ao_log _ _ Hok)). set_solver.
    - change (store_table (reset_open (ac_meta a)) ∈ [MetaStore.meta_name; ChangeLogStore.changelog_name]).
      rewrite (proj2 (store_is_reset _ _ _ (ao_meta _ _ Hok))). set_solver. }
  apply cwp_bind, cwp_in_txn; [done|]. simpl.
  apply wp_open_existing_scopes; [done|by rewrite (cv_env _ _ _ Hv2); apply Hok|apply Hok|apply (cv_sys _ _ _ Hv2); set_solver..|].
  unfold open_outcome in HQ. rewrite Hp.
  assert (ready v2 meta) as Hrm by (eapply ready_ext; [apply Hop2|apply Hop1]).
  assert (recs v2 MetaStore.meta_name = recs v MetaStore.meta_name) as Em by by apply ext_recs.
  destruct (store_present v) as [[] []]; simpl in HQ |- *; [|by apply HQ..|].
  - intros st' v3 [He3 _] Hsr. destruct (Hsr) as (_ & Hse & Hsn & _).
    assert (capture_view env fuel v3) as Hv3 by by eapply capture_view_ext.
    apply (cwp_open_rest true _ v); [done|done|done|by etrans|by eapply ready_ext|by eapply log_state_ext|done| |done..|].
    + by rewrite Hse, (cv_env _ _ _ Hv3).
    + simpl. by destruct (node_in_use _ _).
  - apply (cwp_open_rest false _ v); [done..|apply Hok|apply Hok|done|].
    simpl. by destruct (node_in_use _ _).
Qed.
End Open.

(** ** The batch of the changelog *)

Lemma index_good_state v ls : ChangeLogStore.log_state v ls → index_good v.
Proof. intros H. split; [apply H|]. intros Hne. apply H. by right. Qed.

Record local_appended (present : bool) (node : NodeId) (v0 : db_view) (seq : Z) (data : bytes) (v : db_view)
    (a : accumulator) : Prop := {
  la_frame : v_frame [MetaStore.meta_name; ChangeLogStore.changelog_name; OriginIndexStore.origins_name] v0 v;
  la_meta : recs v MetaStore.meta_name =
    <[[MetaStore.key_local_seq] := write_u64_le seq]> (recs v0 MetaStore.meta_name);
  la_log : recs v ChangeLogStore.changelog_name =
    <[ChangeLogStore.encode_key node seq := data]> (recs v0 ChangeLogStore.changelog_name);
  la_index : index_good v;
  la_scopes : if present then scopes_ready v (ac_scopes a) else sc_open (ac_scopes a) = false;
  la_closed : m_open (ac_scoped_log a) = false ∧ m_open (ac_progress a) = false;
  la_node : ac_node_id a = node;
}.

Section Append.
Context {X : Mdbx} {L : MdbxLaws X} (env : Z) (fuel : nat) (ids : list NodeId) (p : gmap Z (list ChangeOp)).

Lemma wp_increment_local_seq st Q v :
  ready v st → v_rw v = true →
  (let next := next_local_seq (recs v (store_table st)) in
   Q (Ok next) (v_update v (store_table st) <[[MetaStore.key_local_seq] := write_u64_le next]>)) →
  wp (MetaStore.increment_local_seq st) Q v.
Proof.
  intros Hr Hrw HQ. apply wp_bind, wp_bind, MetaStore.wp_read_fixed; [done|].
  apply wp_ret. rewrite MetaStore.read_fixed_u64. apply wp_bind, MetaStore.wp_write_fixed; [done..|].
  by apply wp_ret.
Qed.

Lemma log_state_meta v ls f :
  ChangeLogStore.log_state v ls → ChangeLogStore.log_state (v_update v MetaStore.meta_name f) ls.
Proof.
  intros [H1 H2 H3 H4 H5 H6 H7 H8]. pose proof (v_only_self _ _ _ (v_only_update v MetaStore.meta_name f)) as Hf.
  split; rewrite ?recs_other by done; try done.
  - by apply ready_update.
  - by eapply openable_frame.
Qed.

Lemma cwp_append_local present node v0 l Q a v :
  opened_stores present node v0 v a → kept env ids p a → capture_view env fuel v0 →
  match local_record node (recs v0 MetaStore.meta_name) (recs v0 ChangeLogStore.changelog_name) l with
  | Ok (seq, data) => ∀ a' v', local_appended present node v0 seq data v' a' → kept env ids p a' → Q (Ok tt) a' v'
  | Throw e => ∀ a' v', kept env ids p a' → Q (Throw e) a' v'
  end →
  cwp (kept env ids p) (append_local_batch fuel l) Q a v.
Proof.
  intros [He Hm Hl Hs Hc Hn] Hk Hv0 HQ. pose proof (proj1 Hk) as Hok. destruct (ao_meta _ _ Hok) as [_ Ht].
  pose proof (capture_view_ext _ _ _ _ He Hv0) as Hv.
  apply cwp_bind, cwp_in_txn; [done|]. apply wp_increment_local_seq; [done|apply Hv|]. cbv zeta. rewrite Ht, (ext_recs _ _ _ He).
  unfold local_record in HQ. set (seq := next_local_seq _) in *.
  assert (is_u64 seq) as Hseq by (by apply Z.mod_pos_bound).
  set (v1 := v_update v MetaStore.meta_name _). apply cwp_bind, cwp_in_txn; [done|].
  apply wp_lift_bind. rewrite Hn. destruct (encode _ _) as [data|e]; [|by apply HQ]. cbn [mbind result_bind] in HQ.
  assert (recs v1 ChangeLogStore.changelog_name = recs v0 ChangeLogStore.changelog_name) as Ecl.
  { unfold v1. rewrite recs_other by done. by apply ext_recs. }
  eapply wp_mono; [apply ChangeLogStore.wp_append|].
  { by apply log_state_meta. } { apply Hv. } { rewrite <- Hn. apply Hok. } { done. } { rewrite Ecl. apply Hv0. }
  intros r v' [Hf Hr]. rewrite Ecl in Hr.
  destruct (recs v0 ChangeLogStore.changelog_name !! _); [destruct Hr as [-> _]; by apply HQ|].
  destruct Hr as (ls & -> & Hls & Ecl' & _). apply cwp_modify, HQ.
  - assert (v_frame [MetaStore.meta_name; ChangeLogStore.changelog_name; OriginIndexStore.origins_name] v1 v') as Hf'
      by (eapply v_frame_mono, Hf; intros n; unfold ChangeLogStore.log_key_name; set_solver).
    split; [|..|done|done].
    + etrans; [by apply v_ext_frame|]. etrans; [|exact Hf']. eapply v_only_frame, v_only_update. by left.
    + rewrite (recs_frame _ _ _ _ Hf) by (apply (bool_decide_unpack _); by vm_compute).
      unfold v1. rewrite recs_updated by (rewrite <- Ht; eapply bound_is_Some, Hm).
      by rewrite (ext_recs _ _ _ He).
    + done.
    + by eapply index_good_state.
    + simpl. destruct present; [|done]. eapply scopes_ready_frame; [exact Hf'|].
      eapply scopes_ready_frame, Hs. apply v_only_self, v_only_update.
  - apply kept_log; [done|..]; split; try apply Hls.
    + rewrite (proj1 (proj2 (ChangeLogStore.ls_log _ _ Hls))), (fr_env _ _ _ Hf). by apply Hv.
    + rewrite (proj1 (ChangeLogStore.ls_index _ _ Hls)), (fr_env _ _ _ Hf). by apply Hv.
Qed.
End Append.

(** ** The batch of the scope *)

Lemma registry_found scopes dbis n b :
  registry_ok scopes dbis → find_result dbis n = Ok (Some b) → node_ok (b_writer b) ∧ usable (b_scope_id b).
Proof.
  intros Hr. unfold find_result. destruct (dbis !! n) as [x|] eqn:Ex; [|done].
  destruct (rg_owner _ _ Hr _ _ Ex) as (d & e & (Ho & Hv & _) & He & _ & ->).
  rewrite decode_owned by done. simpl. intros [= <-]. apply validate_descriptor_Ok in Hv.
  split; [apply Ho|]. split; [apply Hv|]. pose proof (dv_scope_len _ Hv) as Hl. unfold size_of in Hl. simpl. lia.
Qed.

Lemma scoped_ops_usable scopes dbis node l scope scoped b out :
  registry_ok scopes dbis → (∀ b, scope = Some b → usable (b_scope_id b)) →
  scoped_ops dbis node l scope scoped = Ok (Some b, out) → usable (b_scope_id b).
Proof.
  intros Hr. revert scope scoped. induction l as [|op l IH]; intros scope scoped Hs; simpl.
  - intros [= -> <-]. auto.
  - destruct (find_result dbis (dbi_name op)) as [[b'|]|e] eqn:Ef; simpl; [|by apply IH|done].
    apply (registry_found _ _ _ _ Hr) in Ef as [_ Hu].
    destruct (negb _); [done|]. destruct (negb _); [done|]. destruct scope as [b0|].
    + destruct (negb _); [done|]. by apply IH.
    + apply IH. by intros ? [= <-].
Qed.

Section Scoped.
Context {X : Mdbx} {L : MdbxLaws X} (env : Z) (fuel : nat) (ids : list NodeId) (p : gmap Z (list ChangeOp)).

Lemma wp_collect_scoped node st l scope scoped Q v :
  scopes_ready v st → node_ok node → registry_ok (recs v scopes_name) (recs v dbis_name) →
  Q (scoped_ops (recs v dbis_name) node l scope scoped) v → wp (collect_scoped node st l scope scoped) Q v.
Proof.
  intros Hs Hn Hr. revert scope scoped. induction l as [|op l IH]; intros scope scoped HQ; [by apply wp_ret|].
  apply wp_bind, wp_find_for_dbi; [done|]. simpl in HQ.
  destruct (find_result _ (dbi_name op)) as [[b|]|e] eqn:Ef; [|by apply IH|done]. simpl in HQ.
  destruct (registry_found _ _ _ _ Hr Ef) as [Hw _].
  pose proof (compare_node_id_zero _ _ Hw Hn) as Hc. apply wp_lift_bind.
  destruct (bool_decide_reflect (b_writer b = node)) as [E|E]; simpl in HQ.
  2: { by rewrite (proj2 (Z.eqb_neq _ _)) by naive_solver. }
  rewrite (proj2 Hc E), Z.eqb_refl. apply wp_lift_bind.
  destruct (b_dbi_flags b =? dbi_flags op); [|done]. simpl in HQ. destruct scope as [b0|]; [|by apply IH].
  apply wp_lift_bind. destruct (bool_decide _); [|done]. by apply IH.
Qed.

(** The state after the scoped batch has been appended, relative to the one before. *)
Definition scoped_appended (id : bytes) (n : Z) (data : bytes) (v v' : db_view) : Prop :=
  v_frame [scoped_log_name; scoped_progress_name] v v' ∧
  recs v' scoped_log_name = <[scoped_key id n := data]> (recs v scoped_log_name) ∧
  recs v' scoped_progress_name = <[id := write_u64_le n]> (recs v scoped_progress_name).

Lemma cwp_append_scoped_batch id l Q a v :
  kept env ids p a → v_env v = env → v_rw v = true → usable id →
  sys_table v scoped_log_name → sys_table v scoped_progress_name →
  m_open (ac_scoped_log a) = false → m_open (ac_progress a) = false →
  match
    last ← progress_of (recs v scoped_progress_name) id;
    let seq := (last + 1) mod 2 ^ 64 in
    data ← encode (captured_batch (ac_node_id a) seq l) None;
    match recs v scoped_log_name !! scoped_key id seq with
    | Some _ => Throw (MdbxException "scoped changelog append failed" MDBX_KEYEXIST)
    | None => Ok (seq, data)
    end
  with
  | Ok (n, data) => ∀ a' v', kept env ids p a' → ac_node_id a' = ac_node_id a → scoped_appended id n data v v' → Q (Ok tt) a' v'
  | Throw e => ∀ a' v', kept env ids p a' → Q (Throw e) a' v'
  end →
  cwp (kept env ids p) (append_scoped_batch id l) Q a v.
Proof.
  intros Hk Henv Hrw Hid Hs1 Hs2 Ho1 Ho2 HQ. pose proof (proj1 Hk) as Hok.
  destruct (ao_scoped _ _ Hok) as [Em1 Et1], (ao_progress _ _ Hok) as [Em2 Et2].
  apply cwp_bind, cwp_in_txn; [done|]. apply wp_store_open; [done|congruence|by rewrite Et1|by left|].
  intros slog v1 Hop1. apply cwp_bind, cwp_modify. pose proof (opened_store_is _ _ _ _ _ _ Henv (conj Em1 Et1) Hop1) as [Hm1 Ht1].
  destruct Hop1 as (He1 & Hr1 & _). apply cwp_bind, cwp_in_txn; [by apply kept_scoped; [|done|apply Hok]|].
  apply wp_store_open; [done|by rewrite (ext_env _ _ He1), Henv| |left; by rewrite (ext_rw _ _ He1)|].
  { simpl. rewrite Et2. unfold sys_table. by rewrite (ext_table _ _ He1). }
  intros progress v2 Hop2. simpl in Hop2.
  pose proof (opened_store_is env _ _ _ _ _ ltac:(by rewrite (ext_env _ _ He1)) (conj Em2 Et2) Hop2) as [Hm2 Ht2].
  destruct Hop2 as (He2 & Hr2 & _). apply cwp_bind, cwp_modify.
  set (a2 := set_scoped _ _ _). assert (kept env ids p a2) as Hk2
    by (apply kept_scoped; [apply kept_scoped; [done|by split|apply Hok]|by split|by split]).
  assert (v_ext v v2) as He by by etrans. apply cwp_in_txn; [done|]. simpl.
  assert (v_rw v2 = true) as Hrw2 by by rewrite (ext_rw _ _ He).
  apply wp_bind, wp_increment_sequence; [done..|apply Hid|]. rewrite (ext_recs _ _ _ He).
  destruct (progress_of _ id) as [last|e]; [|by apply HQ]. cbn [mbind result_bind] in HQ. cbv zeta in HQ |- *.
  set (n := (last + 1) mod 2 ^ 64) in *. set (v3 := v_update v2 scoped_progress_name _).
  apply wp_lift_bind. destruct (encode _ _) as [data|e]; [|by apply HQ]. cbn [mbind result_bind] in HQ.
  assert (ready v2 slog) as Hr1' by (by eapply ready_ext, Hr1).
  assert (recs v3 scoped_log_name = recs v scoped_log_name) as El.
  { unfold v3. rewrite recs_other by done. by apply ext_recs. }
  apply wp_append_scoped; [by apply ready_update|done|done|done|..]; rewrite El; intros Hx.
  2: { destruct Hx as [x Hx]. rewrite Hx in HQ. by apply HQ. }
  rewrite Hx in HQ. apply HQ; [done|done|]. set (v4 := v_update v3 scoped_log_name _).
  split_and!.
  - etrans; [by apply v_ext_frame|]. etrans.
    + apply (v_only_frame _ scoped_progress_name); [set_solver|apply v_only_update].
    + apply (v_only_frame _ scoped_log_name); [set_solver|apply v_only_update].
  - unfold v4. rewrite recs_updated; [by rewrite El|]. rewrite <- Ht1. eapply bound_is_Some, bound_update, Hr1'.
  - unfold v4. rewrite recs_other by done. unfold v3.
    rewrite recs_updated by (rewrite <- Ht2; eapply bound_is_Some, Hr2). by rewrite (ext_recs _ _ _ He).
Qed.
End Scoped.

(** ** The whole flush *)

Section Flush.
Context {X : Mdbx} {L : MdbxLaws X} (env : Z) (fuel : nat).

Lemma cwp_build ids p present node v0 l Q a v :
  opened_stores present node v0 v a → kept env ids p a → capture_view env fuel v0 →
  match
    '(seq, data) ← local_record node (recs v0 MetaStore.meta_name) (recs v0 ChangeLogStore.changelog_name) l;
    scoped ← (if present : bool then
                scope_record node (recs v0 dbis_name) (recs v0 scoped_log_name) (recs v0 scoped_progress_name) l
              else Ok None);
    Ok {| cp_node := node; cp_seq := seq; cp_data := data; cp_scoped := scoped |}
  with
  | Ok c => ∀ a' v', kept env ids p a' → ac_node_id a' = cp_node c → captured_in c v0 v' → Q (Ok tt) a' v'
  | Throw e => ∀ a' v', kept env ids p a' → Q (Throw e) a' v'
  end →
  cwp (kept env ids p) (build_and_append_batch fuel l) Q a v.
Proof.
  intros Hos Hk Hv0 HQ. apply cwp_bind. eapply cwp_append_local; [done..|].
  destruct (local_record _ _ _ _) as [[seq data]|e]; [|by apply HQ]. cbn [mbind result_bind] in HQ.
  intros a1 v1 [Hf Em Ecl Hi Hs [Hc1 Hc2] Hn] Hk1. apply cwp_reading.
  assert (∀ ns n, v_frame ns v0 v1 → n ∉ ns → recs v1 n = recs v0 n) as Hrec by (intros; by eapply recs_frame).
  assert (v_frame capture_tables v0 v1) as Hfr by (eapply v_frame_mono, Hf; set_solver).
  assert (∀ n, n ∈ [scopes_name; dbis_name; scoped_log_name; scoped_progress_name] → recs v1 n = recs v0 n) as Er.
  { intros n Hn'. eapply Hrec; [exact Hf|]. revert n Hn'. apply Forall_forall.
    apply (bool_decide_unpack _). by vm_compute. }
  destruct present; simpl in Hs.
  2: { rewrite Hs. apply cwp_ret, HQ; [done|done|]. split; [done..|]. simpl. rewrite !Er by set_solver. done. }
  rewrite (proj1 Hs). simpl. apply cwp_bind, cwp_in_txn; [done|].
  apply wp_collect_scoped; [done|apply Hk1|rewrite !Er by set_solver; apply Hv0|].
  rewrite Hn, Er by set_solver. unfold scope_record in HQ.
  destruct (scoped_ops _ _ _ _ _) as [[scope scoped]|e] eqn:Eso; [|by apply HQ]. cbn [mbind result_bind] in HQ.
  destruct scope as [b|].
  2: { apply cwp_ret, HQ; [done|done|]. split; [done..|]. simpl. rewrite !Er by set_solver. done. }
  assert (usable (b_scope_id b)) as Hu by (eapply scoped_ops_usable, Eso; [apply Hv0|done]).
  eapply cwp_append_scoped_batch; [done|by rewrite (fr_env _ _ _ Hf); apply Hv0|by rewrite (fr_rw _ _ _ Hf); apply Hv0|done| | |done|done|].
  { eapply sys_frame; [exact Hf|]. apply (cv_sys _ _ _ Hv0). set_solver. }
  { eapply sys_frame; [exact Hf|]. apply (cv_sys _ _ _ Hv0). set_solver. }
  rewrite !Er, Hn by set_solver. destruct (progress_of _ _) as [last|e]; [|by apply HQ]. cbn [mbind result_bind] in *.
  cbv zeta in *. destruct (encode _ _) as [sdata|e]; [|by apply HQ]. cbn [mbind result_bind] in *.
  destruct (recs v0 scoped_log_name !! _); [by apply HQ|]. cbn [mbind result_bind] in *.
  intros a2 v2 Hk2 Hn2 (Hf2 & El & Ep). apply HQ; [done|simpl; congruence|].
  assert (∀ n, n ∉ [scoped_log_name; scoped_progress_name] → recs v2 n = recs v1 n) as Er2 by (intros; by eapply recs_frame).
  split; simpl.
  - etrans; [exact Hfr|]. eapply v_frame_mono, Hf2. set_solver.
  - rewrite Er2; [done|]. apply (bool_decide_unpack _). by vm_compute.
  - rewrite Er2; [done|]. apply (bool_decide_unpack _). by vm_compute.
  - unfold index_good. rewrite !Er2; [done|apply (bool_decide_unpack _); by vm_compute..].
  - rewrite El, Ep, !Er by set_solver. done.
Qed.

Lemma kept_pending ids p q a : kept env ids p a → kept env ids q (set_pending q a).
Proof. intros [[] [_ Hin]]. by split; [split|]. Qed.

(** The members afterwards: the stores are still those of the environment, and only a
    flush that wrote its batch dropped the operations. *)
Definition flushed_acc (ptr : Z) (a : accumulator) (v : db_view) (r : result unit) (a' : accumulator) : Prop :=
  acc_ok env a' ∧ ac_node_id a' ∈ [ac_node_id a; meta_node v] ∧
  match r with
  | Ok _ => ∀ q, q ≠ ptr → ac_pending a' !! q = ac_pending a !! q
  | Throw _ => ac_pending a' = ac_pending a
  end.

Lemma cwp_flush ptr a v :
  acc_ok env a → capture_view env fuel v →
  cwp (kept env [ac_node_id a; meta_node v] (ac_pending a)) (flush_in_txn fuel ptr)
    (fun r a' v' => flush_post ptr a v r a' v' ∧ flushed_acc ptr a v r a') a v.
Proof.
  intros Hok Hv. set (ids := [ac_node_id a; meta_node v]).
  assert (ac_node_id a ∈ ids) as Hin by by left. assert (kept env ids (ac_pending a) a) as Hk by done.
  unfold flush_in_txn, flush_post, flushed_acc.
  apply cwp_bind, cwp_in_txn; [done|]. apply wp_checked_txn; [by rewrite (ao_env _ _ Hok), (cv_env _ _ _ Hv)|].
  apply cwp_reading. destruct (ac_pending a !! ptr) as [[|op l]|] eqn:Ep; [by apply cwp_ret| |by apply cwp_ret].
  set (l' := op :: l) in *. apply cwp_bind, cwp_modify.
  set (p := <[ptr := []]> (ac_pending a)). set (a0 := set_pending p a).
  assert (kept env ids p a0) as Hk0 by by eapply kept_pending.
  assert (<[ptr := l']> p = ac_pending a) as Er by (unfold p; rewrite insert_insert_eq; by apply insert_id).
  assert (∀ b, kept env ids p b → kept env ids (ac_pending a) (set_pending (<[ptr := l']> (ac_pending b)) b)) as Hres.
  { intros b Hb. rewrite (proj1 (proj2 Hb)), Er. by eapply kept_pending. }
  apply (cwp_on_throw (kept env ids p)); [exact Hres|].
  assert (∀ e a' v', kept env ids p a' →
    let b := set_pending (<[ptr := l']> (ac_pending a')) a' in
    outcome_post ptr a v (Throw e) (Throw e) b v' ∧ acc_ok env b ∧ ac_node_id b ∈ ids ∧ ac_pending b = ac_pending a) as Hthrow.
  { intros e a' v' Ha' b. by destruct (Hres a' Ha') as (? & ? & ?). }
  apply cwp_bind. eapply cwp_open_stores; [done|right; by left|done|]. unfold capture_outcome in *. change (ac_node_id a0) with (ac_node_id a).
  destruct (open_outcome (ac_node_id a) v) as [[present node]|e]; [|intros; by apply Hthrow]. cbn [mbind result_bind] in *.
  intros a1 v1 Hos Hk1. apply cwp_bind. eapply cwp_build; [done..|].
  destruct (_ ≫= _) as [c|e]; [|intros; by apply Hthrow].
  intros a2 v2 Hk2 Hn2 Hci. apply cwp_modify. destruct Hk2 as (Hok2 & Hp2 & Hin2).
  assert (ac_pending (set_pending (delete ptr (ac_pending a2)) a2) = delete ptr (ac_pending a)) as Ed.
  { simpl. rewrite Hp2. unfold p. apply delete_insert_eq. }
  rewrite Ed. split; [done|]. split; [by destruct Hok2; split|]. split; [done|].
  intros q Hq. by rewrite lookup_delete_ne.
Qed.

(** C15: capturing a write transaction.  When the transaction has recorded nothing, the
    flush does nothing.  Otherwise it either throws the error [capture_outcome] gives (no
    node id yet, a batch that cannot be encoded, tables of another writer or of two scopes, a
    taken sequence number), or adds exactly one batch with the recorded operations, in order,
    under the local node and the next local sequence number, and one with those of the scope
    under its next number, moves both counters, changes no other table and forgets the
    operations.  Whenever it throws, also when the storage engine fails, the pending
    operations of every transaction are as before. *)
Theorem flush_captures (ptr : Z) (a : accumulator) (s : txn) :
  acc_ok env a → capture_view env fuel (view s) →
  let '(r, a', s') := flush_in_txn fuel ptr a s in
  flushed_acc ptr a (view s) r a' ∧ (flush_post ptr a (view s) r a' (view s') ∨ engine_failure r).
Proof.
  intros Hok Hv. pose proof (cwp_flush ptr a (view s) Hok Hv s eq_refl) as H.
  destruct (flush_in_txn fuel ptr a s) as [[r a'] s']. destruct H as [[Hp Ha]|[Hf Hk]]; [by auto|].
  split; [|by right]. destruct Hf as (c & rc & -> & _). by destruct Hk as (? & ? & ?).
Qed.
End Flush.

(** ** A concrete flush *)

Definition sample_node : NodeId := replicate 16 Byte.x01.
Definition sample_op (name : string) : ChangeOp := {|
  op_type := Put; op_flags := OP_NONE; dbi_flags := 0; dbi_name := bytes_of_string name;
  storage_key := [Byte.x01]; value := [Byte.x02]; identity_key := []; revision_key := [];
|}.

Definition sample_capture_dbs : gmap bytes dbi_view := {[
  MetaStore.meta_name := mk_dbi 0 {[ [MetaStore.key_node_id] := sample_node ]};
  scopes_name := mk_dbi 0 sample_scopes; dbis_name := mk_dbi 0 sample_dbis ]}.
Definition sample_capture_view : db_view :=
  {| v_env := 1; v_rw := true; v_dbs := sample_capture_dbs; v_handles := ∅ |}.

Definition sample_accumulator : accumulator :=
  set_pending {[ 7 := [sample_op "orders"; sample_op "cache"] ]} (new_accumulator 1).

Lemma new_accumulator_ok env : acc_ok env (new_accumulator env).
Proof. by split. Qed.

#[export] Instance sys_table_dec v n : Decision (sys_table v n).
Proof. unfold sys_table. apply _. Defined.

Lemma sample_capture_view_ok : capture_view 1 5 sample_capture_view.
Proof.
  split; try reflexivity.
  - intros n Hn. revert n Hn. apply Forall_forall. apply (bool_decide_unpack _). vm_compute. exact I.
  - intros id H. vm_compute in H. injection H as <-. reflexivity.
  - unfold ChangeLogStore.log_wf. apply (bool_decide_unpack _). vm_compute. exact I.
  - split; [unfold OriginIndexStore.index_wf; apply (bool_decide_unpack _); vm_compute; exact I|].
    intros []. vm_compute. reflexivity.
  - exact sample_registry.
  - apply Nat.ltb_lt. vm_compute. reflexivity.
Defined.

Lemma flush_captures_witness :
  match flush_in_txn (X := ref_mdbx) 5 7 sample_accumulator sample_capture_view with
  | (r, a', v') =>
      (r = Ok tt ∧ size (recs v' ChangeLogStore.changelog_name) = 1%nat ∧ size (recs v' scoped_log_name) = 1%nat) ∧
      flushed_acc 1 7 sample_accumulator sample_capture_view r a' ∧
      (flush_post 7 sample_accumulator sample_capture_view r a' v' ∨
       engine_failure (X := ref_mdbx) r)
  end.
Proof.
  pose proof (flush_captures (X := ref_mdbx) 1 5 7 sample_accumulator sample_capture_view
    ltac:(by split) sample_capture_view_ok) as H.
  assert (match flush_in_txn (X := ref_mdbx) 5 7 sample_accumulator sample_capture_view with
    | (r, a', v') => r = Ok tt ∧ size (recs v' ChangeLogStore.changelog_name) = 1%nat ∧
        size (recs v' scoped_log_name) = 1%nat end) as E by (vm_compute; repeat split).
  destruct (flush_in_txn _ _ _ _) as [[r a'] v']. split; [exact E|exact H].
Defined.
