(* ===== verification/CaptureHooks.v ===== *)
(** * The capture hooks of a connection

    Models the sync part of [src/include/mdbx_containers/common/Connection.ipp] (the failure
    mark, the suppression lists, the guards on writes to tables under a replication contract,
    [on_pre_commit] and [on_discard]) and [BaseTable::record_op] of
    [src/include/mdbx_containers/detail/BaseTable.hpp], the call every table operation makes after
    a successful write.  The attached sink is a [ThreadLocalChangeAccumulator] or none; the
    logical captures are objects behind the interface [ILogicalDbiCapture], of which the hooks
    only use [flush_in_txn].

    Transactions are identified by their pointers; 0 is the null pointer. *)
From S2P Require Import Prelude SyncCommon KeyCodec SyncProtocol ChangeBatchCodec Mdbx RefMdbx StoreBase TxnState.
From S2P Require MetaStore OriginIndexStore ChangeLogStore VersionedDbiStore.
From S2P Require Import ScopeStore ScopedStores Capture.
Import ScopedChangeLog ScopedProgress.
Open Scope Z_scope.

Record hooks : Type := {
  hk_env : Z;
  hk_read_only : bool;
  m_sync_capture : option accumulator;
  m_sync_capture_failed_txn : Z;
  m_sync_capture_suppressed_txns : list Z;
  m_logical_dbi_apply_suppressed_txns : list Z;
}.

Definition set_sink (a : accumulator) (h : hooks) : hooks := {|
  hk_env := hk_env h; hk_read_only := hk_read_only h; m_sync_capture := Some a;
  m_sync_capture_failed_txn := m_sync_capture_failed_txn h;
  m_sync_capture_suppressed_txns := m_sync_capture_suppressed_txns h;
  m_logical_dbi_apply_suppressed_txns := m_logical_dbi_apply_suppressed_txns h;
|}.
Definition set_failed (ptr : Z) (h : hooks) : hooks := {|
  hk_env := hk_env h; hk_read_only := hk_read_only h; m_sync_capture := m_sync_capture h;
  m_sync_capture_failed_txn := ptr;
  m_sync_capture_suppressed_txns := m_sync_capture_suppressed_txns h;
  m_logical_dbi_apply_suppressed_txns := m_logical_dbi_apply_suppressed_txns h;
|}.
Definition set_suppressed (l l' : list Z) (h : hooks) : hooks := {|
  hk_env := hk_env h; hk_read_only := hk_read_only h; m_sync_capture := m_sync_capture h;
  m_sync_capture_failed_txn := m_sync_capture_failed_txn h;
  m_sync_capture_suppressed_txns := l; m_logical_dbi_apply_suppressed_txns := l';
|}.

(** ** The failure mark *)

Definition mark_sync_capture_failed (ptr : Z) (h : hooks) : hooks :=
  if ptr =? 0 then h else set_failed ptr h.

Definition sync_capture_failed (ptr : Z) (h : hooks) : bool :=
  if ptr =? 0 then false else m_sync_capture_failed_txn h =? ptr.

Definition clear_sync_capture_failed (ptr : Z) (h : hooks) : hooks :=
  if ptr =? 0 then h
  else if m_sync_capture_failed_txn h =? ptr then set_failed 0 h else h.

(** ** Suppression *)

(** Erases the first occurrence. *)
Fixpoint erase_first (ptr : Z) (l : list Z) : list Z :=
  match l with
  | [] => []
  | x :: l' => if x =? ptr then l' else x :: erase_first ptr l'
  end.

Definition end_sync_capture_suppression (ptr : Z) (h : hooks) : hooks :=
  if ptr =? 0 then h
  else set_suppressed (erase_first ptr (m_sync_capture_suppressed_txns h))
         (m_logical_dbi_apply_suppressed_txns h) h.

Definition sync_capture_suppressed (ptr : Z) (h : hooks) : bool :=
  if ptr =? 0 then false else bool_decide (ptr ∈ m_sync_capture_suppressed_txns h).

Definition end_logical_dbi_apply_suppression (ptr : Z) (h : hooks) : hooks :=
  if ptr =? 0 then h
  else set_suppressed (m_sync_capture_suppressed_txns h)
         (erase_first ptr (m_logical_dbi_apply_suppressed_txns h)) h.

Definition logical_dbi_apply_suppressed (ptr : Z) (h : hooks) : bool :=
  if ptr =? 0 then false else bool_decide (ptr ∈ m_logical_dbi_apply_suppressed_txns h).

Definition logical_bindings_name : bytes := bytes_of_string "_mdbxc_logical_dbi_bindings".

Abbreviation H := (St hooks).

Section Code.
Context {X : Mdbx}.

Definition begin_sync_capture_suppression (ptr : Z) : H unit :=
  if ptr =? 0 then
    throws (invalid_argument "Connection::SyncCaptureSuppressionScope transaction cannot be null")
  else
    _ ← in_txn (fun h => checked_txn_env (hk_env h) "Connection::SyncCaptureSuppressionScope");
    modify (fun h => set_suppressed (m_sync_capture_suppressed_txns h ++ [ptr])
                       (m_logical_dbi_apply_suppressed_txns h) h).

Definition begin_logical_dbi_apply_suppression (ptr : Z) : H unit :=
  if ptr =? 0 then
    throws (invalid_argument "Connection logical DBI apply suppression transaction cannot be null")
  else
    _ ← in_txn (fun h => checked_txn_env (hk_env h) "Connection logical DBI apply suppression");
    modify (fun h => set_suppressed (m_sync_capture_suppressed_txns h)
                       (m_logical_dbi_apply_suppressed_txns h ++ [ptr]) h).

(** ** Which contract a table is under *)

(** Looks the name up in a registry table; [None] when the registry does not exist. *)
Definition registry_lookup (registry : bytes) (find_ctx open_ctx get_ctx : string) (dbi_name : bytes)
    : M (option bytes) :=
  main ← open_main "Connection failed to open main DBI";
  known ← listed main registry find_ctx;
  if negb known then mret None
  else
    opened ← open_plain registry open_ctx;
    match opened with
    | None => mret None
    | Some dbi => lookup_record dbi dbi_name get_ctx
    end.

Definition is_sync_versioned_dbi (env : Z) (dbi_name : bytes) : M bool :=
  _ ← checked_txn_env env "Connection::is_sync_versioned_dbi";
  found ← registry_lookup VersionedDbiStore.versioned_name
    "Connection failed to find versioned DBI registry" "Connection failed to open versioned DBI registry"
    "Connection failed to query versioned DBI registry" dbi_name;
  mret (bool_decide (is_Some found)).

Definition is_sync_logical_dbi (env : Z) (dbi_name : bytes) : M bool :=
  _ ← checked_txn_env env "Connection::is_sync_logical_dbi";
  found ← registry_lookup logical_bindings_name
    "Connection failed to find logical DBI binding registry"
    "Connection failed to open logical DBI binding registry"
    "Connection failed to query logical DBI binding registry" dbi_name;
  match found with
  | None => mret false
  | Some x =>
      if (length x <? 26)%nat then fail (runtime_error "Connection found invalid logical DBI binding")
      else mret true
  end.

(** [None] is the result [false]. *)
Definition selective_scope_writer_for_dbi (env : Z) (dbi_name : bytes) : M (option NodeId) :=
  _ ← checked_txn_env env "Connection::selective_scope_writer_for_dbi";
  found ← find_existing_for_dbi env dbi_name;
  mret (b_writer <$> found).

Definition needs_sink : exn :=
  logic_error "selective replication DBI requires an attached scope-aware sync capture sink".
Definition bypassed : exn := logic_error
  "public raw sync capture suppression cannot bypass a selective replication DBI".
Definition needs_identity : exn :=
  logic_error "selective replication DBI requires an initialized local node identity".
Definition not_writer : exn := logic_error
  "non-designated origin cannot locally mutate a selective replication DBI".
Definition logical_only : exn := logic_error
  "registered logical DBI must be mutated through its automatic logical capture-enabled table API".
Definition versioned_only : exn := logic_error
  "registered source-version-wins DBI must be mutated through VersionedKeyValueTable".

(** The part for a table of a selective scope; the accumulator supports scopes. *)
Definition validate_scope_writer (ptr : Z) (writer : NodeId) : H unit :=
  reading (fun h =>
    match m_sync_capture h with
    | None => throws needs_sink
    | Some _ =>
        if sync_capture_suppressed ptr h then throws bypassed
        else in_txn (fun h =>
          '(meta, found) ← MetaStore.open_existing (new_store (hk_env h) MetaStore.meta_name);
          if negb found then fail needs_identity
          else
            local ← MetaStore.try_get_node_id meta;
            match local with
            | None => fail needs_identity
            | Some id => if negb (compare_node_id id writer =? 0) then fail not_writer else mret tt
            end)
    end).

(** The part for versioned and logical tables. *)
Definition validate_contract (env : Z) (dbi_name : bytes) : M unit :=
  versioned ← is_sync_versioned_dbi env dbi_name;
  logical ← (if versioned : bool then mret true else is_sync_logical_dbi env dbi_name);
  if negb versioned && negb logical then mret tt
  else
    logical ← is_sync_logical_dbi env dbi_name;
    if logical : bool then fail logical_only else fail versioned_only.

Definition validate_sync_dbi_write (ptr : Z) (dbi_name : bytes) : H unit :=
  on_throw
    (writer ← in_txn (fun h => selective_scope_writer_for_dbi (hk_env h) dbi_name);
     _ ← match writer with None => mret tt | Some w => validate_scope_writer ptr w end;
     in_txn (fun h => validate_contract (hk_env h) dbi_name))
    (mark_sync_capture_failed ptr).

(** A method of the attached accumulator. *)
Definition with_sink {A} (none : A) (m : C A) : H A := fun h s =>
  match m_sync_capture h with
  | None => (Ok none, h, s)
  | Some a => let '(r, a', s') := m a s in (r, set_sink a' h, s')
  end.

(** [m_name] and [m_dbi_flags] are the members of the table. *)
Definition table_op (m_name : bytes) (m_dbi_flags : Z) (ty : ChangeOpType) (key val : bytes) : ChangeOp := {|
  op_type := ty; op_flags := OP_NONE; dbi_flags := m_dbi_flags; dbi_name := m_name;
  storage_key := key; value := val; identity_key := []; revision_key := [];
|}.

Definition record_op (ptr : Z) (m_name : bytes) (m_dbi_flags : Z) (ty : ChangeOpType) (key val : bytes)
    : H unit :=
  reading (fun h =>
    if hk_read_only h then mret tt
    else
      _ ← validate_sync_dbi_write ptr m_name;
      reading (fun h =>
        if sync_capture_suppressed ptr h then mret tt
        else on_throw (with_sink tt (record_change_op ptr (table_op m_name m_dbi_flags ty key val)))
               (mark_sync_capture_failed ptr))).

(** ** Transactions the table classes accept *)

(** [thread_txn] is the transaction of the calling thread and [rdonly] what
    [mdbx_txn_flags] says of [ptr]. *)
Definition ensure_sync_capture_txn_supported (thread_txn ptr : Z) (rdonly : bool) (context : string)
    : H unit :=
  reading (fun h =>
    match m_sync_capture h with
    | None => mret tt
    | Some _ =>
        if thread_txn =? ptr then mret tt
        else if rdonly then mret tt
        else throws (logic_error (context +:+
          " cannot use caller-created raw writable MDBX_txn* while sync capture is attached; use mdbx_containers::Transaction or Connection::begin()/commit()"))
    end).

Definition ensure_sync_dbi_external_txn_supported (env thread_txn ptr : Z) (rdonly : bool) (dbi_name : bytes)
    (context : string) : M unit :=
  if thread_txn =? ptr then mret tt
  else if rdonly then mret tt
  else
    writer ← selective_scope_writer_for_dbi env dbi_name;
    match writer with
    | Some _ => fail (logic_error (context +:+
        " cannot use caller-created raw writable MDBX_txn* with a selective replication DBI; use Connection::transaction()"))
    | None =>
        versioned ← is_sync_versioned_dbi env dbi_name;
        logical ← (if versioned : bool then mret true else is_sync_logical_dbi env dbi_name);
        if negb versioned && negb logical then mret tt
        else
          logical ← is_sync_logical_dbi env dbi_name;
          if logical : bool then fail (logic_error (context +:+
            " cannot use caller-created raw writable MDBX_txn* with a registered logical DBI; use Connection::transaction() and the bound automatic logical table API"))
          else fail (logic_error (context +:+
            " cannot use caller-created raw writable MDBX_txn* with a registered source-version-wins DBI; use VersionedKeyValueTable"))
    end.

Definition ensure_logical_dbi_operation_supported (env : Z) (dbi_name : bytes) (operation : string) : M unit :=
  logical ← is_sync_logical_dbi env dbi_name;
  if negb logical then mret tt
  else fail (logic_error ("registered logical DBI does not support " +:+ operation +:+
    "; use a supported automatic logical table mutation")).

Definition ensure_logical_dbi_capture_not_suppressed (ptr : Z) (dbi_name : bytes) : H unit :=
  reading (fun h =>
    if negb (sync_capture_suppressed ptr h) || logical_dbi_apply_suppressed ptr h then mret tt
    else
      logical ← in_txn (fun h => is_sync_logical_dbi (hk_env h) dbi_name);
      if negb logical then mret tt
      else
        _ ← modify (mark_sync_capture_failed ptr);
        throws (logic_error
          "public raw sync capture suppression cannot bypass a registered automatic logical DBI binding")).

(** ** The hooks of a transaction *)

Fixpoint flush_captures_in (captures : list (M unit)) : M unit :=
  match captures with
  | [] => mret tt
  | c :: cs => _ ← c; flush_captures_in cs
  end.

Definition on_pre_commit (fuel : nat) (captures : list (M unit)) (ptr : Z) : H unit :=
  reading (fun h =>
    if sync_capture_failed ptr h then
      throws (logic_error "Cannot commit transaction after sync capture failure")
    else
      _ ← on_throw (with_sink tt (flush_in_txn fuel ptr)) (mark_sync_capture_failed ptr);
      on_throw (in_txn (fun _ => flush_captures_in captures)) (mark_sync_capture_failed ptr)).

Definition on_discard (ptr : Z) (h : hooks) : hooks :=
  let h := clear_sync_capture_failed ptr h in
  match m_sync_capture h with
  | None => h
  | Some a => set_sink (discard_txn ptr a) h
  end.
End Code.

(** ** What the write guard decides *)

Definition logical_result (v : db_view) (n : bytes) : result bool :=
  match recs v logical_bindings_name !! n with
  | None => Ok false
  | Some x => if (length x <? 26)%nat then Throw (runtime_error "Connection found invalid logical DBI binding")
              else Ok true
  end.

Definition contract_result (v : db_view) (n : bytes) : result unit :=
  logical ← logical_result v n;
  if logical : bool then Throw logical_only
  else if bool_decide (is_Some (recs v VersionedDbiStore.versioned_name !! n)) then Throw versioned_only
  else Ok tt.

(** The local node must be the designated writer, with a sink that records the change. *)
Definition writer_result (h : hooks) (ptr : Z) (v : db_view) (writer : NodeId) : result unit :=
  if bool_decide (m_sync_capture h = None) then Throw needs_sink
  else if sync_capture_suppressed ptr h then Throw bypassed
  else match recs v MetaStore.meta_name !! [MetaStore.key_node_id] with
       | None => Throw needs_identity
       | Some id => if bool_decide (id = writer) then Ok tt else Throw not_writer
       end.

Definition guard_result (h : hooks) (ptr : Z) (v : db_view) (n : bytes) : result unit :=
  found ← existing_result v n;
  _ ← match found with None => Ok tt | Some b => writer_result h ptr v (b_writer b) end;
  contract_result v n.

Record guard_view (env : Z) (v : db_view) : Prop := {
  gv_env : v_env v = env;
  gv_sys n : n ∈ [dbis_name; MetaStore.meta_name; VersionedDbiStore.versioned_name; logical_bindings_name] →
    sys_table v n;
  gv_meta : MetaStore.meta_ok (MetaStore.meta_of (recs v MetaStore.meta_name));
  gv_registry : registry_ok (recs v scopes_name) (recs v dbis_name);
}.

Lemma guard_view_reopen env v v' : v_reopen v v' → guard_view env v → guard_view env v'.
Proof.
  intros [He Ed] [H1 H2 H3 H4]. split; rewrite ?(ext_recs _ _ _ He); try done.
  - by rewrite (ext_env _ _ He).
  - intros n Hn. unfold sys_table. rewrite (ext_table _ _ He). by apply H2.
Qed.

Section Guard.
Context {X : Mdbx} {L : MdbxLaws X} (env : Z).

Lemma wp_registry_lookup registry c1 c2 c3 n Q v :
  sys_table v registry →
  (∀ v', v_reopen v v' → Q (Ok (recs v registry !! n)) v') → wp (registry_lookup registry c1 c2 c3 n) Q v.
Proof.
  intros Hs HQ. apply wp_bind, wp_open_main. intros main Hm. apply wp_bind, wp_listed; [done|].
  destruct (bool_decide_reflect (is_Some (v_dbs v !! registry))) as [Hp|Hp]; cbn [negb].
  - apply wp_bind, wp_open_plain; [done|..].
    + intros E. rewrite E in Hp. by destruct Hp.
    + intros _ dbi v' (_ & He & Hb & _ & Hre). eapply wp_lookup; [done..|].
      rewrite (ext_recs _ _ _ He). auto.
  - apply wp_ret. apply eq_None_not_Some in Hp. unfold recs, table in HQ. rewrite Hp in HQ. by apply HQ.
Qed.

Lemma wp_is_versioned n Q v :
  guard_view env v →
  (∀ v', v_reopen v v' → Q (Ok (bool_decide (is_Some (recs v VersionedDbiStore.versioned_name !! n)))) v') →
  wp (is_sync_versioned_dbi env n) Q v.
Proof.
  intros Hv HQ. apply wp_bind, wp_checked_txn; [by rewrite (gv_env _ _ Hv)|].
  apply wp_bind, wp_registry_lookup; [apply (gv_sys _ _ Hv); set_solver|].
  intros v' Hv'. by apply wp_ret, HQ.
Qed.

Lemma wp_is_logical n Q v :
  guard_view env v → (∀ v', v_reopen v v' → Q (logical_result v n) v') → wp (is_sync_logical_dbi env n) Q v.
Proof.
  intros Hv HQ. apply wp_bind, wp_checked_txn; [by rewrite (gv_env _ _ Hv)|].
  apply wp_bind, wp_registry_lookup; [apply (gv_sys _ _ Hv); set_solver|].
  intros v' Hv'. unfold logical_result in HQ.
  destruct (recs v logical_bindings_name !! n) as [x|]; [|by apply wp_ret, HQ].
  destruct (length x <? 26)%nat; [by apply wp_fail, HQ|by apply wp_ret, HQ].
Qed.

Lemma wp_contract n Q v :
  guard_view env v → (∀ v', v_reopen v v' → Q (contract_result v n) v') → wp (validate_contract env n) Q v.
Proof.
  intros Hv HQ. apply wp_bind, wp_is_versioned; [done|]. intros v1 H1.
  assert (guard_view env v1) as Hv1 by by eapply guard_view_reopen.
  assert (∀ w, v_reopen v w → logical_result w n = logical_result v n) as El.
  { intros w [He _]. unfold logical_result. by rewrite (ext_recs _ _ _ He). }
  unfold contract_result in HQ. destruct (bool_decide _).
  - apply wp_ret_bind. cbn [negb andb]. apply wp_bind, wp_is_logical; [done|]. intros v2 H2.
    rewrite El by done. destruct (logical_result v n) as [[]|e]; [apply wp_fail..|]; apply HQ; by etrans.
  - apply wp_bind, wp_is_logical; [done|]. intros v2 H2. rewrite El by done.
    destruct (logical_result v n) as [[]|e] eqn:E; cbn [negb andb]; [|apply wp_ret, HQ; by etrans|apply HQ; by etrans].
    apply wp_bind, wp_is_logical; [by eapply guard_view_reopen|]. intros v3 H3.
    rewrite (El v2) by by etrans. rewrite ?E. apply wp_fail, HQ. by do 2 (etrans; [done|]).
Qed.

Lemma registry_writer v n b :
  guard_view env v → existing_result v n = Ok (Some b) → node_ok (b_writer b).
Proof.
  intros Hv. unfold existing_result. destruct (store_present v) as [[] []]; try done;
    intros Hf; by eapply registry_found; [apply Hv|].
Qed.

Lemma cwp_scope_writer (I : hooks → Prop) ptr w Q h v :
  I h → hk_env h = env → guard_view env v → node_ok w →
  (∀ v', v_reopen v v' → Q (writer_result h ptr v w) h v') → cwp I (validate_scope_writer ptr w) Q h v.
Proof.
  intros HI Henv Hv Hw HQ. apply cwp_reading. unfold writer_result in HQ.
  destruct (m_sync_capture h) as [a|] eqn:Es; [|by apply cwp_throws, HQ].
  rewrite bool_decide_false in HQ by done.
  destruct (sync_capture_suppressed ptr h); [by apply cwp_throws, HQ|].
  apply cwp_in_txn; [done|].
  apply wp_bind, wp_store_open_existing; [done|by simpl; rewrite (gv_env _ _ Hv)| |..].
  { apply (gv_sys _ _ Hv). set_solver. }
  - intros E. cbn [negb]. apply wp_fail. simpl in E.
    change (store_table (new_store (hk_env h) MetaStore.meta_name)) with MetaStore.meta_name in E.
    unfold recs, table in HQ. rewrite E in HQ. by apply HQ.
  - intros Hp st' v' (He & Hr & Et & Hd). change (store_table (new_store (hk_env h) MetaStore.meta_name)) with MetaStore.meta_name in *.
    assert (v_reopen v v') as Hre.
    { split; [done|]. apply map_eq. intros n. destruct (decide (n = MetaStore.meta_name)) as [->|Hn]; [|by apply Hd].
      destruct Hp as [d Ed]. rewrite Ed. pose proof (ext_dbs _ _ He) as Hs. by eapply lookup_weaken. }
    cbn [negb]. apply wp_bind, MetaStore.wp_try_get_node_id; [done|rewrite Et, (ext_recs _ _ _ He); apply Hv|].
    rewrite Et, (ext_recs _ _ _ He). pose proof (gv_meta _ _ Hv) as Hm.
    unfold MetaStore.meta_ok in Hm. simpl in Hm.
    destruct (recs v MetaStore.meta_name !! _) as [id|]; [|by apply wp_fail, HQ].
    pose proof (compare_node_id_zero id w (Hm id eq_refl) Hw) as Hc.
    destruct (bool_decide_reflect (id = w)) as [E|E].
    + rewrite (proj2 Hc E), Z.eqb_refl. by apply wp_ret, HQ.
    + rewrite (proj2 (Z.eqb_neq _ _)) by naive_solver. by apply wp_fail, HQ.
Qed.

Definition marked (ptr : Z) (r : result unit) (h : hooks) : hooks :=
  match r with Ok _ => h | Throw _ => mark_sync_capture_failed ptr h end.

Lemma cwp_validate ptr n Q h v :
  hk_env h = env → guard_view env v →
  (∀ v', v_reopen v v' → Q (guard_result h ptr v n) (marked ptr (guard_result h ptr v n) h) v') →
  cwp (eq (mark_sync_capture_failed ptr h)) (validate_sync_dbi_write ptr n) Q h v.
Proof.
  intros Henv Hv HQ. apply (cwp_on_throw (eq h)); [by intros ? <-|].
  unfold guard_result in HQ. apply cwp_bind, cwp_in_txn; [done|].
  apply wp_bind, wp_checked_txn; [by rewrite (gv_env _ _ Hv)|].
  apply wp_bind, wp_find_existing; [by rewrite (gv_env _ _ Hv)|apply (gv_sys _ _ Hv); set_solver|].
  intros v1 H1. destruct (existing_result v n) as [found|e] eqn:Ef; [|by apply HQ]. cbn [mbind result_bind] in HQ.
  assert (guard_view env v1) as Hv1 by by eapply guard_view_reopen.
  assert (∀ w, v_reopen v w → contract_result w n = contract_result v n) as Ec.
  { intros w [He _]. unfold contract_result, logical_result. by rewrite !(ext_recs _ _ _ He). }
  apply wp_ret. destruct found as [b|]; cbn [fmap option_fmap option_map].
  - apply cwp_bind, cwp_scope_writer; [done|done|done|by eapply (registry_writer v)|].
    assert (writer_result h ptr v1 (b_writer b) = writer_result h ptr v (b_writer b)) as ->
      by (unfold writer_result; by rewrite (ext_recs _ _ _ (proj1 H1))).
    intros v2 H2. destruct (writer_result _ _ _ _) as [[]|e]; [|apply HQ; by etrans]. cbn [mbind result_bind] in HQ.
    apply cwp_in_txn; [done|]. rewrite Henv. apply wp_contract; [by eapply guard_view_reopen|]. intros v3 H3.
    rewrite Ec by by etrans. destruct (contract_result v n) as [[]|e]; apply HQ; by do 2 (etrans; [done|]).
  - apply cwp_bind, cwp_ret, cwp_in_txn; [done|]. rewrite Henv. cbn [mbind result_bind] in HQ.
    apply wp_contract; [done|]. intros v2 H2. rewrite Ec by done.
    destruct (contract_result v n) as [[]|e]; apply HQ; by etrans.
Qed.

(** What [record_op] does to the members. *)
Definition recorded (ptr : Z) (op : ChangeOp) (h : hooks) : hooks :=
  match m_sync_capture h with
  | Some a =>
      if sync_capture_suppressed ptr h then h
      else set_sink (set_pending (<[ptr := default [] (ac_pending a !! ptr) ++ [op]]> (ac_pending a)) a) h
  | None => h
  end.

Definition record_post (ptr : Z) (op : ChangeOp) (h : hooks) (v : db_view) (r : result unit) (h' : hooks)
    (v' : db_view) : Prop :=
  v_reopen v v' ∧
  if hk_read_only h then r = Ok tt ∧ h' = h
  else
    r = guard_result h ptr v (dbi_name op) ∧
    h' = match r with Ok _ => recorded ptr op h | Throw _ => mark_sync_capture_failed ptr h end.

Lemma cwp_record_op ptr n fl ty key val h v :
  hk_env h = env → (∀ a, m_sync_capture h = Some a → ac_env a = env) → guard_view env v →
  cwp (eq (mark_sync_capture_failed ptr h)) (record_op ptr n fl ty key val)
    (record_post ptr (table_op n fl ty key val) h v) h v.
Proof.
  intros Henv Hsink Hv. unfold record_post. apply cwp_reading. destruct (hk_read_only h); [by apply cwp_ret|].
  apply cwp_bind, cwp_validate; [done..|]. intros v' Hv'. simpl.
  destruct (guard_result h ptr v n) as [[]|e]; [|done]. unfold marked, recorded. apply cwp_reading.
  destruct (sync_capture_suppressed ptr h).
  { apply cwp_ret. by destruct (m_sync_capture h). }
  apply (cwp_on_throw (eq h)); [by intros ? <-|]. intros s Hs. unfold with_sink.
  destruct (m_sync_capture h) as [a|] eqn:Ea; [|left; by rewrite Hs].
  unfold record_change_op, mbind, St_bind, in_txn, checked_txn_env, modify.
  rewrite law_txn_env, Hs, (ext_env _ _ (proj1 Hv')), (gv_env _ _ Hv), (Hsink a), Z.eqb_refl by done.
  left. rewrite Hs. done.
Qed.

(** A relation that the mark and a longer list of operations of [ptr] keep to is kept by
    [record_op]. *)
Lemma record_op_preserves (R : hooks → hooks → Prop) `{!PreOrder R} ptr n fl ty key val :
  (∀ h, R h (mark_sync_capture_failed ptr h)) →
  (∀ h a l, m_sync_capture h = Some a → R h (set_sink (set_pending (<[ptr := l]> (ac_pending a)) a) h)) →
  preserves R (record_op ptr n fl ty key val).
Proof.
  intros Hmark Hpend. unfold record_op, validate_sync_dbi_write, validate_scope_writer.
  apply preserves_reading. intros h. destruct (hk_read_only h); [apply preserves_ret, _|].
  apply preserves_bind; [apply _|..].
  - apply preserves_on_throw; [apply _| |apply Hmark].
    apply preserves_bind; [apply _|apply preserves_in_txn, _|]. intros w.
    apply preserves_bind; [apply _| |intros _; apply preserves_in_txn, _].
    destruct w as [w|]; [|apply preserves_ret, _]. apply preserves_reading. intros h'.
    destruct (m_sync_capture h'); [|apply preserves_throws, _].
    destruct (sync_capture_suppressed ptr h'); [apply preserves_throws, _|apply preserves_in_txn, _].
  - intros _. apply preserves_reading. intros h'. destruct (sync_capture_suppressed ptr h'); [apply preserves_ret, _|].
    apply preserves_on_throw; [apply _| |apply Hmark]. clear h h'. intros h s. unfold with_sink.
    destruct (m_sync_capture h) as [a|] eqn:Ea; [|apply reflexivity].
    unfold record_change_op, mbind, St_bind, in_txn, modify. destruct (checked_txn_env _ _ s) as [[[]|e] s']; simpl.
    + by apply Hpend.
    + assert (set_sink a h = h) as -> by (destruct h; simpl in *; by subst). apply reflexivity.
Qed.

Definition capture_refused : exn := logic_error "Cannot commit transaction after sync capture failure".

(** C16: after a table has written, the write guard either lets the operation be recorded
    (behind the operations of the same transaction, unless capture is suppressed or nothing
    is attached), or throws: when the table belongs to a scope and no sink is attached, capture
    is suppressed, or the local node is unknown or not the designated writer, and when the
    table is under the versioned or logical contract.  It changes no table.  Whenever it
    throws, the transaction is marked, and no commit of it gets past the hook: the data
    that was not captured is never committed. *)
Theorem write_guard (ptr : Z) (n : bytes) (fl : Z) (ty : ChangeOpType) (key val : bytes) (h : hooks) (s : txn) :
  ptr ≠ 0 → hk_env h = env → (∀ a, m_sync_capture h = Some a → ac_env a = env) → guard_view env (view s) →
  let '(r, h', s') := record_op ptr n fl ty key val h s in
  (record_post ptr (table_op n fl ty key val) h (view s) r h' (view s') ∨ engine_failure r) ∧
  (∀ e, r = Throw e → h' = mark_sync_capture_failed ptr h ∧
     ∀ fuel captures s2, on_pre_commit fuel captures ptr h' s2 = (Throw capture_refused, h', s2)).
Proof.
  intros Hp Henv Hsink Hv. pose proof (cwp_record_op ptr n fl ty key val h (view s) Henv Hsink Hv s eq_refl) as H.
  destruct (record_op _ _ _ _ _ _ h s) as [[r h'] s'].
  assert ((record_post ptr (table_op n fl ty key val) h (view s) r h' (view s') ∨ engine_failure r) ∧
    (∀ e, r = Throw e → h' = mark_sync_capture_failed ptr h)) as [H1 H2].
  { destruct H as [H|[H <-]]; [|by auto]. split; [by left|]. intros e ->. destruct H as [_ H].
    destruct (hk_read_only h); [by destruct H|]. by destruct H. }
  split; [done|]. intros e He. specialize (H2 e He). split; [done|]. intros fuel captures s2. subst h'.
  unfold on_pre_commit, reading, sync_capture_failed, mark_sync_capture_failed.
  rewrite (proj2 (Z.eqb_neq _ _) Hp). simpl. by rewrite Z.eqb_refl.
Qed.
End Guard.

(** ** A concrete guarded write *)

Definition sample_hooks : hooks := {|
  hk_env := 1; hk_read_only := false; m_sync_capture := Some (new_accumulator 1);
  m_sync_capture_failed_txn := 0; m_sync_capture_suppressed_txns := [];
  m_logical_dbi_apply_suppressed_txns := [];
|}.

Lemma sample_guard_view : guard_view 1 sample_capture_view.
Proof.
  split; [reflexivity| | |exact sample_registry].
  - intros n Hn. repeat (apply elem_of_cons in Hn as [->|Hn]; [vm_compute; reflexivity|]). by apply elem_of_nil in Hn.
  - apply sample_capture_view_ok.
Defined.

Lemma write_guard_witness :
  match record_op (X := ref_mdbx) 7 (bytes_of_string "orders") 0 Put [Byte.x01] [Byte.x02]
          sample_hooks sample_capture_view with
  | (r, h', v') =>
      (r = Ok tt ∧ (ac_pending <$> m_sync_capture h') ≫= lookup 7 = Some [sample_op "orders"]) ∧
      (record_post 7 (table_op (bytes_of_string "orders") 0 Put [Byte.x01] [Byte.x02]) sample_hooks
         sample_capture_view r h' v' ∨ engine_failure (X := ref_mdbx) r) ∧
      (∀ e, r = Throw e → h' = mark_sync_capture_failed 7 sample_hooks ∧
         ∀ fuel captures s2, on_pre_commit (X := ref_mdbx) fuel captures 7 h' s2 = (Throw capture_refused, h', s2))
  end.
Proof.
  pose proof (write_guard (X := ref_mdbx) 1 7 (bytes_of_string "orders") 0 Put [Byte.x01] [Byte.x02]
    sample_hooks sample_capture_view ltac:(done) eq_refl ltac:(by intros a [= <-]) sample_guard_view) as H.
  assert (match record_op (X := ref_mdbx) 7 (bytes_of_string "orders") 0 Put [Byte.x01] [Byte.x02]
            sample_hooks sample_capture_view with
    | (r, h', v') => r = Ok tt ∧ (ac_pending <$> m_sync_capture h') ≫= lookup 7 = Some [sample_op "orders"] end)
    as E by (vm_compute; repeat split).
  destruct (record_op _ _ _ _ _ _ _ _) as [[r h'] v']. split; [exact E|exact H].
Defined.
