(* ===== verification/CaptureHistory.v ===== *)
(** * What the changelog holds

    Sessions of write transactions over one connection with an attached accumulator:
    [begin], table writes, [record_op], capture suppression, [commit], [rollback] and the
    destructor of [src/include/mdbx_containers/common/Transaction.ipp], each with its hooks of
    [CaptureHooks] and its effect on the storage.  The pointer of a new transaction is any
    non-null value, the one of an earlier transaction too.

    The invariant relates the database to the operations the committed transactions
    recorded; the theorem says that the changelog is exactly their history. *)
From S2P Require Import Prelude SyncCommon KeyCodec SyncProtocol ChangeBatchCodec Mdbx RefMdbx StoreBase TxnState.
From S2P Require MetaStore OriginIndexStore ChangeLogStore VersionedDbiStore.
From S2P Require Import ScopeStore ScopedStores Capture CaptureHooks.
Import ScopedChangeLog ScopedProgress.
Open Scope Z_scope.

Definition MDBX_THREAD_MISMATCH : Z := -30416.

Section Code.
Context {X : Mdbx} (fuel : nat) (captures : list (M unit)).

(** The environment, the hooks and the open write transaction; the storage engine admits
    one at a time. *)
Record session : Type := { se_env : env; se_hooks : hooks; se_txn : option (Z * txn) }.

Definition no_txn (what : string) : exn := MdbxException ("No active transaction to " +:+ what +:+ ".") (-1).

Definition begin_txn (ptr : Z) (g : session) : result unit * session :=
  let '(rc, s) := mdbx_txn_begin (se_env g) false in
  if negb (rc =? MDBX_SUCCESS) then (Throw (MdbxException "Failed to begin transaction" rc), g)
  else (Ok tt, {| se_env := se_env g; se_hooks := se_hooks g; se_txn := Some (ptr, s) |}).

Definition commit_txn (g : session) : result unit * session :=
  match se_txn g with
  | None => (Throw (no_txn "commit"), g)
  | Some (ptr, s) =>
      match on_pre_commit fuel captures ptr (se_hooks g) s with
      | (Throw e, h, s) => (Throw e, {| se_env := se_env g; se_hooks := h; se_txn := Some (ptr, s) |})
      | (Ok _, h, s) =>
          let '(rc, e) := mdbx_txn_commit (se_env g) s in
          let failed := MdbxException "Failed to commit writable transaction" rc in
          if rc =? MDBX_THREAD_MISMATCH then
            (Throw failed, {| se_env := e; se_hooks := h; se_txn := Some (ptr, s) |})
          else if negb (rc =? MDBX_SUCCESS) then
            (Throw failed, {| se_env := e; se_hooks := on_discard ptr h; se_txn := None |})
          else (Ok tt, {| se_env := e; se_hooks := h; se_txn := None |})
      end
  end.

Definition rollback_txn (g : session) : result unit * session :=
  match se_txn g with
  | None => (Throw (no_txn "rollback"), g)
  | Some (ptr, s) =>
      let h := on_discard ptr (se_hooks g) in
      let '(rc, e) := mdbx_txn_abort (se_env g) s in
      if negb (rc =? MDBX_SUCCESS) then
        (Throw (MdbxException "Failed to abort writable transaction" rc),
         {| se_env := e; se_hooks := h; se_txn := Some (ptr, s) |})
      else (Ok tt, {| se_env := e; se_hooks := h; se_txn := None |})
  end.

(** The destructor. *)
Definition release_txn (g : session) : session :=
  match se_txn g with
  | None => g
  | Some (ptr, s) =>
      let '(_, e) := mdbx_txn_abort (se_env g) s in
      {| se_env := e; se_hooks := on_discard ptr (se_hooks g); se_txn := None |}
  end.

(** A hook method in the open transaction. *)
Definition in_session (m : Z → H unit) (g : session) : result unit * session :=
  match se_txn g with
  | None => (Ok tt, g)
  | Some (ptr, s) =>
      let '(r, h, s') := m ptr (se_hooks g) s in
      (r, {| se_env := se_env g; se_hooks := h; se_txn := Some (ptr, s') |})
  end.
End Code.

(** ** Steps *)

Definition system_tables : list bytes :=
  VersionedDbiStore.versioned_name :: logical_bindings_name :: scopes_name :: dbis_name :: capture_tables.

(** The application writes its own tables. *)
Definition user_write (v v' : db_view) : Prop :=
  v_env v' = v_env v ∧ v_rw v' = v_rw v ∧ ∀ n, n ∈ system_tables → v_dbs v' !! n = v_dbs v !! n.

(** A session with the operations recorded so far: of the committed transactions, in
    order, of the batches the open one has written, and of those it has not; and whether
    the open transaction had failed to capture something when a rollback failed, which
    clears the mark that keeps it from being committed. *)
Record trace {X : Mdbx} : Type := {
  t_session : session;
  t_committed : list (list ChangeOp);
  t_written : list (list ChangeOp);
  t_current : list ChangeOp;
  t_lost : bool;
}.

(** A batch is written for a transaction that recorded something. *)
Definition batch_list (l : list ChangeOp) : list (list ChangeOp) := match l with [] => [] | _ => [l] end.

Definition is_captured (h : hooks) (ptr : Z) : bool :=
  negb (hk_read_only h) && negb (sync_capture_suppressed ptr h).

Section Steps.
Context {X : Mdbx} {L : MdbxLaws X} (captures : list (M unit)).

Definition with_hooks (t : trace) (g : session) (l : list ChangeOp) : trace :=
  {| t_session := g; t_committed := t_committed t; t_written := t_written t; t_current := l;
     t_lost := t_lost t |}.

(** The transaction is gone, and with it what it had recorded. *)
Definition ended (t : trace) (g : session) (committed : list (list ChangeOp)) : trace :=
  {| t_session := g; t_committed := committed; t_written := []; t_current := []; t_lost := false |}.

Definition marked (t : trace) : bool :=
  match se_txn (t_session t) with
  | Some (ptr, _) => sync_capture_failed ptr (se_hooks (t_session t))
  | None => false
  end.

(** A rollback whose abort fails has dropped the recorded operations; the transaction stays
    open. *)
Definition rollback_threw (t : trace) (g : session) : trace :=
  {| t_session := g; t_committed := t_committed t; t_written := t_written t; t_current := [];
     t_lost := t_lost t || marked t |}.

(** A commit of a transaction that is [t_lost] is not a step: the storage may hold half of a
    captured batch. *)
Inductive step : trace → trace → Prop :=
  | step_begin t ptr g :
      se_txn (t_session t) = None → ptr ≠ 0 → begin_txn ptr (t_session t) = (Ok tt, g) →
      step t (ended t g (t_committed t))
  | step_write t ptr s s' :
      se_txn (t_session t) = Some (ptr, s) → user_write (view s) (view s') →
      step t (with_hooks t {| se_env := se_env (t_session t); se_hooks := se_hooks (t_session t);
                              se_txn := Some (ptr, s') |} (t_current t))
  | step_record t ptr s n fl ty key val g :
      se_txn (t_session t) = Some (ptr, s) →
      in_session (fun ptr => record_op ptr n fl ty key val) (t_session t) = (Ok tt, g) →
      step t (with_hooks t g (if is_captured (se_hooks (t_session t)) ptr
                              then t_current t ++ [table_op n fl ty key val] else t_current t))
  | step_record_throws t ptr s n fl ty key val e g :
      se_txn (t_session t) = Some (ptr, s) →
      in_session (fun ptr => record_op ptr n fl ty key val) (t_session t) = (Throw e, g) →
      step t (with_hooks t g (t_current t))
  | step_suppress t r g :
      in_session begin_sync_capture_suppression (t_session t) = (r, g) → step t (with_hooks t g (t_current t))
  | step_unsuppress t ptr s :
      se_txn (t_session t) = Some (ptr, s) →
      step t (with_hooks t {| se_env := se_env (t_session t);
                              se_hooks := end_sync_capture_suppression ptr (se_hooks (t_session t));
                              se_txn := Some (ptr, s) |} (t_current t))
  | step_commit t ptr s fuel g :
      se_txn (t_session t) = Some (ptr, s) → t_lost t = false →
      (size (recs (view s) ChangeLogStore.changelog_name) < fuel)%nat →
      commit_txn fuel captures (t_session t) = (Ok tt, g) →
      step t (ended t g (t_committed t ++ t_written t ++ batch_list (t_current t)))
  | step_commit_throws t ptr s fuel e g :
      se_txn (t_session t) = Some (ptr, s) → t_lost t = false →
      (size (recs (view s) ChangeLogStore.changelog_name) < fuel)%nat →
      commit_txn fuel captures (t_session t) = (Throw e, g) →
      step t (match se_txn g with
              | None => ended t g (t_committed t)
              | Some (ptr, _) =>
                  if sync_capture_failed ptr (se_hooks g) then with_hooks t g (t_current t)
                  else {| t_session := g; t_committed := t_committed t;
                          t_written := t_written t ++ batch_list (t_current t); t_current := [];
                          t_lost := t_lost t |}
              end)
  | step_rollback t g :
      rollback_txn (t_session t) = (Ok tt, g) → step t (ended t g (t_committed t))
  | step_rollback_throws t e g :
      rollback_txn (t_session t) = (Throw e, g) → step t (rollback_threw t g)
  | step_release t : step t (ended t (release_txn (t_session t)) (t_committed t)).

(** ** The invariant *)

Context (id : Z) (node : NodeId) (n0 : Z) (log0 : gmap bytes bytes).

(** The changelog with one more record for each list of operations. *)
Fixpoint captured_log (n : Z) (h : list (list ChangeOp)) (cl : gmap bytes bytes) : gmap bytes bytes :=
  match h with
  | [] => cl
  | l :: h' => captured_log (n + 1) h'
      (<[ChangeLogStore.encode_key node (n + 1) := batch_bytes (captured_batch node (n + 1) l)]> cl)
  end.

Definition count (h : list (list ChangeOp)) : Z := Z.of_nat (length h).

(** The tables of a view are well formed. *)
Record sound (v : db_view) : Prop := {
  sd_sys n : n ∈ system_tables → sys_table v n;
  sd_meta : MetaStore.meta_ok (MetaStore.meta_of (recs v MetaStore.meta_name));
  sd_wf : ChangeLogStore.log_wf (recs v ChangeLogStore.changelog_name);
  sd_index : index_good v;
  sd_registry : registry_ok (recs v scopes_name) (recs v dbis_name);
  sd_node : recs v MetaStore.meta_name !! [MetaStore.key_node_id] = Some node;
}.

(** They hold the history [h], as long as the sequence numbers fit. *)
Definition holds (v : db_view) (h : list (list ChangeOp)) : Prop :=
  n0 + count h < 2 ^ 64 →
  MetaStore.a_local_seq (MetaStore.meta_of (recs v MetaStore.meta_name)) = n0 + count h ∧
  recs v ChangeLogStore.changelog_name = captured_log n0 h log0.

(** The committed tables as a view. *)
Definition committed_view (e : env) : db_view :=
  {| v_env := env_id e; v_rw := false; v_dbs := env_dbs e; v_handles := ∅ |}.

Definition acc_inv (a : accumulator) : Prop :=
  acc_ok id a ∧ (ac_node_id a = make_zero_node ∨ ac_node_id a = node).

Definition pending_of (a : accumulator) (ptr : Z) : list ChangeOp := default [] (ac_pending a !! ptr).

(** A write transaction whose tables hold the history [h]. *)
Definition in_progress (s : txn) (h : list (list ChangeOp)) : Prop :=
  v_env (view s) = id ∧ v_rw (view s) = true ∧ sound (view s) ∧ holds (view s) h.

Record trace_inv (t : trace) (a : accumulator) : Prop := {
  ti_env : env_id (se_env (t_session t)) = id;
  ti_hooks : hk_env (se_hooks (t_session t)) = id ∧ hk_read_only (se_hooks (t_session t)) = false ∧
    m_sync_capture (se_hooks (t_session t)) = Some a;
  ti_acc : acc_inv a;
  ti_sound : sound (committed_view (se_env (t_session t)));
  ti_committed : holds (committed_view (se_env (t_session t))) (t_committed t);
  (** Nothing is pending for a pointer that is not the open transaction. *)
  ti_pending q : fst <$> se_txn (t_session t) ≠ Some q → pending_of a q = [];
  (** The open transaction is marked or holds what it has recorded. *)
  ti_txn ptr s : se_txn (t_session t) = Some (ptr, s) →
    ptr ≠ 0 ∧
    (sync_capture_failed ptr (se_hooks (t_session t)) = true ∨ t_lost t = true ∨
     in_progress s (t_committed t ++ t_written t) ∧ pending_of a ptr = t_current t);
}.

(** ** Tables *)

Definition same_tables (v v' : db_view) : Prop := ∀ n, n ∈ system_tables → v_dbs v' !! n = v_dbs v !! n.

Lemma same_table v v' n : same_tables v v' → n ∈ system_tables → table v' n = table v n.
Proof. intros H Hn. unfold table. by rewrite H. Qed.

Lemma same_recs v v' n : same_tables v v' → n ∈ system_tables → recs v' n = recs v n.
Proof. intros H Hn. unfold recs. by rewrite (same_table v v'). Qed.

#[local] Ltac system_table := apply (bool_decide_unpack _); vm_compute; exact I.

Lemma sound_same v v' : same_tables v v' → sound v → sound v'.
Proof.
  intros Hs [H1 H2 H3 H4 H5 H6]. pose proof (fun n => same_recs v v' n Hs) as Er.
  split; unfold index_good in *; rewrite ?Er by system_table; try done.
  intros n Hn. unfold sys_table. rewrite (same_table v v') by done. by apply H1.
Qed.

Lemma holds_same v v' h : same_tables v v' → holds v h → holds v' h.
Proof. intros Hs H. unfold holds. by rewrite !(same_recs v v') by (done || system_table). Qed.

Lemma sound_capture_view fuel v :
  sound v → v_env v = id → v_rw v = true → (size (recs v ChangeLogStore.changelog_name) < fuel)%nat →
  capture_view id fuel v.
Proof.
  intros [H1 H2 H3 H4 H5 H6] He Hrw Hf. split; try done. intros n Hn. apply H1. unfold system_tables. set_solver.
Qed.

Lemma sound_guard_view v : sound v → v_env v = id → guard_view id v.
Proof.
  intros [H1 H2 H3 H4 H5 H6] He. split; try done. intros n Hn. apply H1. revert n Hn. apply Forall_forall. system_table.
Qed.

Lemma captured_log_snoc n h l cl :
  captured_log n (h ++ [l]) cl =
  <[ChangeLogStore.encode_key node (n + count h + 1) := batch_bytes (captured_batch node (n + count h + 1) l)]>
    (captured_log n h cl).
Proof.
  revert n cl. induction h as [|l' h IH]; intros n cl; simpl.
  - by rewrite Z.add_0_r.
  - rewrite IH. unfold count. simpl length. by replace (n + 1 + Z.of_nat (length h)) with (n + Z.of_nat (S (length h))) by lia.
Qed.

(** What a successful capture wrote. *)
Lemma captured_spec known v l c :
  sound v → known = make_zero_node ∨ known = node → node ≠ make_zero_node →
  capture_outcome known v l = Ok c →
  cp_node c = node ∧ cp_seq c = next_local_seq (recs v MetaStore.meta_name) ∧
  cp_data c = batch_bytes (captured_batch node (cp_seq c) l).
Proof.
  intros Hs Hk Hz. unfold capture_outcome, open_outcome, node_in_use. rewrite (sd_node _ Hs). cbn [default].
  intros ([present nd] & Ho & H)%result_bind_Ok. apply result_bind_Ok in Ho as (b & _ & Ho).
  apply result_bind_Ok in Ho as (nd' & Hn & [= -> <-]).
  assert (nd' = node) as ->.
  { cbv zeta in Hn. destruct (bool_decide_reflect (known = make_zero_node)) as [E|E].
    - rewrite bool_decide_false in Hn by done. by injection Hn.
    - injection Hn as <-. by destruct Hk. }
  apply result_bind_Ok in H as ([seq data] & Hl & H). apply result_bind_Ok in H as (sc & _ & [= <-]). simpl.
  unfold local_record in Hl. apply result_bind_Ok in Hl as (data' & He & Hl).
  destruct (recs v ChangeLogStore.changelog_name !! _); [done|]. injection Hl as <- <-.
  apply encode_Ok in He. naive_solver.
Qed.

Lemma meta_local_seq m n :
  is_u64 n → MetaStore.meta_of (<[[MetaStore.key_local_seq] := write_u64_le n]> m) =
  {| MetaStore.a_db_uuid := MetaStore.a_db_uuid (MetaStore.meta_of m);
     MetaStore.a_node_id := MetaStore.a_node_id (MetaStore.meta_of m);
     MetaStore.a_schema_version := MetaStore.a_schema_version (MetaStore.meta_of m);
     MetaStore.a_local_seq := n; MetaStore.a_created_at_ms := MetaStore.a_created_at_ms (MetaStore.meta_of m) |}.
Proof.
  intros Hn. rewrite MetaStore.meta_of_insert.
  repeat (rewrite decide_False by done || rewrite decide_True by done). f_equal. by apply MetaStore.fixed_u64_write.
Qed.

Lemma captured_sound c v v' :
  sound v → cp_node c = node → node_ok node → is_u64 (cp_seq c) → captured_in c v v' → sound v'.
Proof.
  intros Hs Hn Hok Hu [Hf Em El Hi _].
  assert (∀ n, n ∉ capture_tables → recs v' n = recs v n) as Er by (intros; by eapply recs_frame).
  split; [|..|done| |].
  - intros n Hn'. unfold sys_table. rewrite (fr_flags _ _ _ Hf). by apply Hs.
  - rewrite Em, meta_local_seq by done. intros i. apply (sd_meta _ Hs).
  - rewrite El. apply map_Forall_insert_2; [|apply Hs]. rewrite Hn. by apply ChangeLogStore.encode_key_parts.
  - rewrite !Er by system_table. apply Hs.
  - rewrite Em, lookup_insert_ne by done. apply Hs.
Qed.

Lemma captured_holds c v v' h l :
  holds v h → cp_node c = node → cp_seq c = next_local_seq (recs v MetaStore.meta_name) → 0 ≤ n0 →
  cp_data c = batch_bytes (captured_batch node (cp_seq c) l) → captured_in c v v' → holds v' (h ++ [l]).
Proof.
  intros Hh Hn Hq H0 Hd [Hf Em El Hi _] Hb. unfold count in Hb. rewrite length_app in Hb. simpl in Hb.
  destruct Hh as [Es Ec]; [unfold count; lia|].
  assert (cp_seq c = n0 + count h + 1) as Eseq.
  { rewrite Hq. unfold next_local_seq. rewrite Es, Z.mod_small; unfold count; lia. }
  rewrite Em, El, meta_local_seq, captured_log_snoc, Hn, Hd, Ec, Eseq by (rewrite Eseq; unfold u_range, count; lia).
  split; [|done]. simpl. unfold count. rewrite length_app. simpl. lia.
Qed.

(** ** Hooks *)

(** The members stay usable, only the operations of [ptr] change, and its mark stays. *)
Definition hooks_step (ptr : Z) (h h' : hooks) : Prop :=
  hk_env h' = hk_env h ∧ hk_read_only h' = hk_read_only h ∧
  (sync_capture_failed ptr h = true → sync_capture_failed ptr h' = true) ∧
  ∀ a, m_sync_capture h = Some a → acc_inv a →
    ∃ a', m_sync_capture h' = Some a' ∧ acc_inv a' ∧ ∀ q, q ≠ ptr → ac_pending a' !! q = ac_pending a !! q.

#[export] Instance hooks_step_preorder ptr : PreOrder (hooks_step ptr).
Proof.
  split; [intros h; split_and!; eauto|]. intros a b c (H1 & H2 & H3 & H4) (H1' & H2' & H3' & H4').
  split_and!; [congruence|congruence|auto|]. intros x Hx Hi. destruct (H4 x Hx Hi) as (y & Hy & Hiy & Hq).
  destruct (H4' y Hy Hiy) as (z & Hz & Hiz & Hq'). exists z. split_and!; [done|done|]. intros q Hne. by rewrite Hq', Hq.
Qed.

Lemma hooks_step_mark ptr h : hooks_step ptr h (mark_sync_capture_failed ptr h).
Proof.
  unfold hooks_step, mark_sync_capture_failed, sync_capture_failed. destruct (ptr =? 0) eqn:E; simpl; [by eauto 10|].
  rewrite ?Z.eqb_refl. eauto 10.
Qed.

Lemma acc_inv_pending p a : acc_inv a → acc_inv (set_pending p a).
Proof. intros [[] Hn]. by split; [split|]. Qed.

Lemma preserves_record_op ptr n fl ty key val : preserves (hooks_step ptr) (record_op ptr n fl ty key val).
Proof.
  apply record_op_preserves; [apply _|apply hooks_step_mark|]. intros h a l Ea. split_and!; [done..|].
  intros a' [= <-]%(eq_trans (eq_sym Ea)) Hi. eexists. split_and!; [done|by apply acc_inv_pending|].
  intros q Hq. simpl. by rewrite lookup_insert_ne.
Qed.

(** ** The hook before a commit *)

Context (Hcap : Forall (fun c : M unit => ∀ s, user_write (view s) (view (c s).2)) captures).
Context (Hnode : node_ok node) (Hz : node ≠ make_zero_node) (Hn0 : 0 ≤ n0).

#[export] Instance user_write_preorder : PreOrder user_write.
Proof.
  split; [by intros v|]. intros a b c (H1 & H2 & H3) (H1' & H2' & H3'). split_and!; [congruence..|].
  intros n Hn. by rewrite H3', H3.
Qed.

Lemma flush_captures_user cs s :
  Forall (fun c : M unit => ∀ s, user_write (view s) (view (c s).2)) cs →
  user_write (view s) (view (flush_captures_in cs s).2).
Proof.
  intros Hcs. revert s. induction Hcs as [|c cs Hc _ IH]; intros s; simpl; [apply reflexivity|].
  unfold mbind, M_bind. specialize (Hc s). destruct (c s) as [[x|e] s']; [|done]. etrans; [exact Hc|apply IH].
Qed.

Lemma user_write_in_progress s s' h : user_write (view s) (view s') → in_progress s h → in_progress s' h.
Proof.
  intros (H1 & H2 & H3) (He & Hrw & Hs & Hh). split_and!; [congruence|congruence|..].
  - by eapply sound_same.
  - by eapply holds_same.
Qed.

Lemma flush_run fuel ptr a s h :
  acc_inv a → in_progress s h → (size (recs (view s) ChangeLogStore.changelog_name) < fuel)%nat →
  let '(r, a', s') := flush_in_txn fuel ptr a s in
  acc_inv a' ∧ (∀ q, q ≠ ptr → ac_pending a' !! q = ac_pending a !! q) ∧
  (r = Ok tt → pending_of a' ptr = [] ∧ in_progress s' (h ++ batch_list (pending_of a ptr))).
Proof.
  intros [Hok Hid] (He & Hrw & Hs & Hh) Hf.
  pose proof (cwp_flush id fuel ptr a (view s) Hok ltac:(by apply sound_capture_view) s eq_refl) as H.
  destruct (flush_in_txn fuel ptr a s) as [[r a'] s'].
  assert (meta_node (view s) = node) as Em by (unfold meta_node; by rewrite (sd_node _ Hs)).
  assert (∀ b, ac_node_id b ∈ [ac_node_id a; meta_node (view s)] → acc_ok id b → acc_inv b) as Hinv.
  { intros b Hin Hb. split; [done|]. rewrite Em in Hin.
    apply elem_of_cons in Hin as [E|E%list_elem_of_singleton]; rewrite E; auto. }
  destruct H as [[Hp (Hok' & Hin & Hpend)]|[(c & rc & -> & _) (Hok' & Hpend & Hin)]].
  2: { split_and!; [auto|by intros; rewrite Hpend|done]. }
  split; [auto|]. split; [destruct r; [done|by intros; rewrite Hpend]|]. intros ->.
  unfold flush_post, pending_of in *. destruct (ac_pending a !! ptr) as [[|op l]|] eqn:Ep; simpl.
  1, 3: destruct Hp as (_ & -> & Ev); rewrite Ep, app_nil_r; split; [done|]; unfold in_progress; by rewrite Ev.
  destruct (capture_outcome _ _ _) as [c|e] eqn:Eo; [|done]. destruct Hp as (_ & Hd & _ & Hci).
  destruct (captured_spec _ _ _ _ Hs Hid Hz Eo) as (E1 & E2 & E3).
  rewrite Hd, lookup_delete_eq. split; [done|]. pose proof (ci_frame _ _ _ Hci) as Hfr.
  split_and!; [by rewrite (fr_env _ _ _ Hfr)|by rewrite (fr_rw _ _ _ Hfr)|..].
  - eapply captured_sound; [done..| |done]. rewrite E2. by apply Z.mod_pos_bound.
  - by eapply captured_holds.
Qed.

Lemma failed_mark ptr h : ptr ≠ 0 → sync_capture_failed ptr (mark_sync_capture_failed ptr h) = true.
Proof.
  intros Hp. unfold sync_capture_failed, mark_sync_capture_failed. rewrite (proj2 (Z.eqb_neq _ _) Hp). simpl. apply Z.eqb_refl.
Qed.

Lemma failed_sink ptr a h : sync_capture_failed ptr (set_sink a h) = sync_capture_failed ptr h.
Proof. done. Qed.

Lemma pre_commit_run fuel ptr h a s hist r h' s' :
  ptr ≠ 0 → m_sync_capture h = Some a → acc_inv a → in_progress s hist →
  (size (recs (view s) ChangeLogStore.changelog_name) < fuel)%nat → sync_capture_failed ptr h = false →
  on_pre_commit fuel captures ptr h s = (r, h', s') →
  hooks_step ptr h h' ∧
  match r with
  | Throw _ => sync_capture_failed ptr h' = true
  | Ok _ => sync_capture_failed ptr h' = false ∧ in_progress s' (hist ++ batch_list (pending_of a ptr)) ∧
      ∀ a', m_sync_capture h' = Some a' → pending_of a' ptr = []
  end.
Proof.
  intros Hp Ha Hi Hip Hf Hfail. unfold on_pre_commit, reading. rewrite Hfail.
  unfold mbind, St_bind, on_throw, with_sink. rewrite Ha.
  pose proof (flush_run fuel ptr a s hist Hi Hip Hf) as H. destruct (flush_in_txn fuel ptr a s) as [[r1 a1] s1].
  destruct H as (Hi1 & Hq & Hok).
  assert (hooks_step ptr h (set_sink a1 h)) as Hst.
  { split_and!; [done..|]. intros b [= <-]%(eq_trans (eq_sym Ha)) _. eauto. }
  destruct r1 as [[]|e].
  2: { intros [= <- <- <-]. split; [|by apply failed_mark]. etrans; [exact Hst|apply hooks_step_mark]. }
  destruct (Hok eq_refl) as [Hpe Hip1]. unfold in_txn. pose proof (flush_captures_user captures s1 Hcap) as Hu.
  destruct (flush_captures_in captures s1) as [[[]|e] s2]; intros [= <- <- <-].
  - split; [done|]. split; [by rewrite failed_sink|]. split; [by eapply user_write_in_progress|]. by intros a' [= <-].
  - split; [|by apply failed_mark]. etrans; [exact Hst|apply hooks_step_mark].
Qed.

(** ** Steps keep the invariant *)

Definition hooks_ok (h : hooks) (a : accumulator) : Prop :=
  hk_env h = id ∧ hk_read_only h = false ∧ m_sync_capture h = Some a.

Lemma hooks_step_ok ptr h h' a :
  hooks_step ptr h h' → hooks_ok h a → acc_inv a →
  ∃ a', hooks_ok h' a' ∧ acc_inv a' ∧ ∀ q, q ≠ ptr → pending_of a' q = pending_of a q.
Proof.
  intros (H1 & H2 & _ & H4) (E1 & E2 & E3) Hi. destruct (H4 a E3 Hi) as (a' & E' & Hi' & Hq).
  exists a'. split; [split_and!; congruence|]. split; [done|]. intros q Hne. unfold pending_of. by rewrite Hq.
Qed.

Lemma on_discard_ok ptr h a :
  hooks_ok h a → acc_inv a → hooks_ok (on_discard ptr h) (discard_txn ptr a) ∧ acc_inv (discard_txn ptr a) ∧
  ∀ q, pending_of (discard_txn ptr a) q = if decide (q = ptr) then [] else pending_of a q.
Proof.
  intros (E1 & E2 & E3) Hi. split; [|split; [by apply acc_inv_pending|]].
  { unfold hooks_ok, on_discard, clear_sync_capture_failed.
    destruct (ptr =? 0); [|destruct (_ =? ptr)]; simpl; by rewrite E3. }
  intros q. unfold pending_of, discard_txn. simpl. case_decide as E; [by rewrite E, lookup_delete_eq|].
  by rewrite lookup_delete_ne.
Qed.

Lemma ended_inv t g cs a :
  env_id (se_env g) = id → hooks_ok (se_hooks g) a → acc_inv a → sound (committed_view (se_env g)) →
  holds (committed_view (se_env g)) cs → se_txn g = None → (∀ q, pending_of a q = []) → trace_inv (ended t g cs) a.
Proof. intros H1 H2 H3 H4 H5 H6 H7. split; simpl; try done. intros ptr s. by rewrite H6. Qed.

(** A step inside the open transaction. *)
Lemma progress_inv t g a ptr s' cur written :
  trace_inv t a → fst <$> se_txn (t_session t) = Some ptr → se_env g = se_env (t_session t) →
  se_txn g = Some (ptr, s') → hooks_step ptr (se_hooks (t_session t)) (se_hooks g) → ptr ≠ 0 →
  (∀ a', hooks_ok (se_hooks g) a' → sync_capture_failed ptr (se_hooks g) = true ∨ t_lost t = true ∨
     in_progress s' (t_committed t ++ written) ∧ pending_of a' ptr = cur) →
  ∃ a', trace_inv {| t_session := g; t_committed := t_committed t; t_written := written; t_current := cur;
                     t_lost := t_lost t |} a'.
Proof.
  intros [He Hh Hi Hs Hc Hp Ht] Etx Eg Eg' Hst Hptr H.
  destruct (hooks_step_ok _ _ _ _ Hst Hh Hi) as (a' & Hh' & Hi' & Hq). exists a'.
  split; simpl; rewrite ?Eg; try done.
  - intros q Hne. rewrite Eg' in Hne. rewrite Hq by (intros ->; by apply Hne). apply Hp. rewrite Etx. exact Hne.
  - intros ptr' s2 E. rewrite Eg' in E. injection E as <- <-. split; [done|]. by apply H.
Qed.

Lemma same_dbs_sound s e : v_dbs (view s) = env_dbs e → sound (view s) ↔ sound (committed_view e).
Proof. intros E. split; apply sound_same; intros n _; simpl; by rewrite E. Qed.
Lemma same_dbs_holds s e h : v_dbs (view s) = env_dbs e → holds (view s) h ↔ holds (committed_view e) h.
Proof. intros E. split; apply holds_same; intros n _; simpl; by rewrite E. Qed.

Lemma begin_inv t ptr g a :
  trace_inv t a → se_txn (t_session t) = None → ptr ≠ 0 → begin_txn ptr (t_session t) = (Ok tt, g) →
  ∃ a', trace_inv (ended t g (t_committed t)) a'.
Proof.
  intros [He Hh Hi Hs Hc Hp Ht] Etx Hptr. unfold begin_txn.
  destruct (mdbx_txn_begin (se_env (t_session t)) false) as [rc s] eqn:Eb.
  destruct (negb (rc =? MDBX_SUCCESS)) eqn:Erc; [done|]. intros [= <-]. zbool. subst rc.
  destruct (law_begin _ _ _ _ Eb) as [Herr|(_ & E1 & E2 & E3)]; [by apply law_error in Herr; set_solver|].
  rewrite Etx in Hp. exists a. split; simpl; try done; [by intros q _; apply Hp|].
  intros p2 s2 [= <- <-]. split; [done|]. right. right. split; [|by apply Hp]. rewrite app_nil_r.
  split_and!; [congruence|done|by apply (same_dbs_sound _ _ E3)|by apply (same_dbs_holds _ _ _ E3)].
Qed.

Lemma reopen_user v v' : v_reopen v v' → user_write v v'.
Proof. intros [He Ed]. split_and!; [apply He..|]. intros n _. by rewrite Ed. Qed.

Lemma record_run ptr s n fl ty key val h a r h' s' hist :
  hooks_ok h a → acc_inv a → in_progress s hist → record_op ptr n fl ty key val h s = (r, h', s') →
  match r with
  | Ok _ => in_progress s' hist ∧ h' = recorded ptr (table_op n fl ty key val) h
  | Throw _ => h' = mark_sync_capture_failed ptr h
  end.
Proof.
  intros (E1 & E2 & E3) Hi Hip Hr. destruct (Hip) as (He & _ & Hs & _).
  assert (∀ b, m_sync_capture h = Some b → ac_env b = id) as Hb.
  { intros b Eb. rewrite E3 in Eb. injection Eb as <-. apply Hi. }
  pose proof (cwp_record_op id ptr n fl ty key val h (view s) E1 Hb (sound_guard_view _ Hs He) s eq_refl) as H.
  rewrite Hr in H. unfold record_post in H. rewrite E2 in H.
  destruct H as [(Hre & _ & Hh)|[(c & rc & -> & _) <-]]; [|done].
  destruct r; [|done]. split; [|done]. by eapply user_write_in_progress, Hip; apply reopen_user.
Qed.

Lemma recorded_pending ptr op h a :
  hooks_ok h a → acc_inv a →
  ∀ a', hooks_ok (recorded ptr op h) a' →
    pending_of a' ptr = if is_captured h ptr then pending_of a ptr ++ [op] else pending_of a ptr.
Proof.
  intros (E1 & E2 & E3) Hi a' (_ & _ & E'). unfold recorded, is_captured in *. rewrite E2, E3 in *. simpl.
  destruct (sync_capture_suppressed ptr h); simpl in *; [congruence|]. injection E' as <-.
  unfold pending_of. simpl. by rewrite lookup_insert_eq.
Qed.

Lemma in_session_some (m : Z → H unit) g ptr s r g' :
  se_txn g = Some (ptr, s) → in_session m g = (r, g') →
  ∃ h' s', m ptr (se_hooks g) s = (r, h', s') ∧
    g' = {| se_env := se_env g; se_hooks := h'; se_txn := Some (ptr, s') |}.
Proof.
  intros E. unfold in_session. rewrite E. destruct (m ptr (se_hooks g) s) as [[r1 h1] s1].
  intros [= <- <-]. eauto.
Qed.

Lemma record_inv t a ptr s n fl ty key val r g :
  trace_inv t a → se_txn (t_session t) = Some (ptr, s) →
  in_session (fun ptr => record_op ptr n fl ty key val) (t_session t) = (r, g) →
  ∃ a', trace_inv (with_hooks t g
    (match r with
     | Ok _ => if is_captured (se_hooks (t_session t)) ptr then t_current t ++ [table_op n fl ty key val] else t_current t
     | Throw _ => t_current t
     end)) a'.
Proof.
  intros Hinv Etx Hr. pose proof (in_session_some _ _ _ _ _ _ Etx Hr) as (h' & s' & Hm & ->).
  destruct (ti_txn _ _ Hinv ptr s Etx) as [Hptr Hcase]. pose proof (ti_hooks _ _ Hinv) as Hh. pose proof (ti_acc _ _ Hinv) as Hi.
  assert (hooks_step ptr (se_hooks (t_session t)) h') as Hst.
  { pose proof (preserves_record_op ptr n fl ty key val (se_hooks (t_session t)) s) as H. by rewrite Hm in H. }
  eapply (progress_inv t _ a ptr s' _ (t_written t)); [done|by rewrite Etx|done|done|exact Hst|done|]. simpl.
  intros a' Ha'. destruct Hcase as [Hf|[Hl|[Hip Hpe]]]; [left; by apply Hst|by auto|].
  pose proof (record_run _ _ _ _ _ _ _ _ _ _ _ _ _ Hh Hi Hip Hm) as Hrun. destruct r as [[]|e].
  - right. right. destruct Hrun as [Hip' ->]. split; [done|]. rewrite (recorded_pending _ _ _ _ Hh Hi _ Ha'), Hpe. done.
  - left. rewrite Hrun. by apply failed_mark.
Qed.

Lemma hooks_step_suppressed ptr l l' h : hooks_step ptr h (set_suppressed l l' h).
Proof. split_and!; [done..|]. eauto. Qed.

Lemma suppressed_inv t a ptr s l l' :
  trace_inv t a → se_txn (t_session t) = Some (ptr, s) →
  ∃ a', trace_inv (with_hooks t {| se_env := se_env (t_session t);
    se_hooks := set_suppressed l l' (se_hooks (t_session t)); se_txn := Some (ptr, s) |} (t_current t)) a'.
Proof.
  intros Hinv Etx. destruct (ti_txn _ _ Hinv ptr s Etx) as [Hptr Hcase].
  eapply (progress_inv t _ a ptr s _ (t_written t)); [done|by rewrite Etx|done|done|apply hooks_step_suppressed|done|]. simpl.
  intros a' (_ & _ & Ha'). simpl in Ha'. pose proof (ti_hooks _ _ Hinv) as (_ & _ & Ha). rewrite Ha in Ha'. by injection Ha' as <-.
Qed.

Lemma same_session_inv t a :
  trace_inv t a → ∃ a', trace_inv (with_hooks t (t_session t) (t_current t)) a'.
Proof. intros H. exists a. by destruct t, H. Qed.

Lemma suppress_inv t a r g :
  trace_inv t a → in_session begin_sync_capture_suppression (t_session t) = (r, g) →
  ∃ a', trace_inv (with_hooks t g (t_current t)) a'.
Proof.
  intros Hinv Hr. destruct (se_txn (t_session t)) as [[ptr s]|] eqn:Etx.
  2: { unfold in_session in Hr. rewrite Etx in Hr. injection Hr as <- <-. by eapply same_session_inv. }
  pose proof (in_session_some _ _ _ _ _ _ Etx Hr) as (h' & s' & Hm & ->).
  assert (with_hooks t {| se_env := se_env (t_session t); se_hooks := se_hooks (t_session t); se_txn := Some (ptr, s) |}
    (t_current t) = with_hooks t (t_session t) (t_current t)) as Esame.
  { unfold with_hooks. f_equal. rewrite <- Etx. by destruct (t_session t). }
  unfold begin_sync_capture_suppression in Hm. destruct (ptr =? 0).
  { injection Hm as <- <- <-. rewrite Esame. by eapply same_session_inv. }
  unfold mbind, St_bind, in_txn, checked_txn_env in Hm. destruct (_ =? _).
  - injection Hm as <- <- <-. by eapply suppressed_inv.
  - injection Hm as <- <- <-. rewrite Esame. by eapply same_session_inv.
Qed.

(** The end of a transaction that leaves the committed tables as they were. *)
Lemma discarded_inv t a ptr h e :
  trace_inv t a → hooks_ok h a → env_id e = env_id (se_env (t_session t)) → env_dbs e = env_dbs (se_env (t_session t)) →
  (∀ q, q ≠ ptr → pending_of a q = []) →
  trace_inv (ended t {| se_env := e; se_hooks := on_discard ptr h; se_txn := None |} (t_committed t)) (discard_txn ptr a).
Proof.
  intros [He _ Hi Hs Hc Hp Ht] Hh Eid Edb Hq. destruct (on_discard_ok ptr _ _ Hh Hi) as (Hh' & Hi' & Hp').
  apply ended_inv; simpl; try done; [congruence|..].
  - eapply sound_same, Hs. intros n _. simpl. by rewrite Edb.
  - eapply holds_same, Hc. intros n _. simpl. by rewrite Edb.
  - intros q. rewrite Hp'. case_decide; [done|]. by apply Hq.
Qed.

Lemma others_pending t a ptr s q : trace_inv t a → se_txn (t_session t) = Some (ptr, s) → q ≠ ptr → pending_of a q = [].
Proof. intros Hinv E Hq. apply (ti_pending _ _ Hinv). rewrite E. by intros [= ->]. Qed.

Lemma rollback_inv t a g :
  trace_inv t a → rollback_txn (t_session t) = (Ok tt, g) → ∃ a', trace_inv (ended t g (t_committed t)) a'.
Proof.
  intros Hinv. unfold rollback_txn. destruct (se_txn (t_session t)) as [[ptr s]|] eqn:Etx; [|done].
  destruct (mdbx_txn_abort _ s) as [rc e] eqn:Ea. destruct (law_abort _ _ _ _ Ea) as (E1 & E2 & _).
  destruct (negb _); [done|]. intros [= <-]. eexists. apply discarded_inv; [done|apply Hinv|done|done|].
  intros q Hq. by eapply others_pending.
Qed.

Lemma rollback_throws_inv t a e g :
  trace_inv t a → rollback_txn (t_session t) = (Throw e, g) → ∃ a', trace_inv (rollback_threw t g) a'.
Proof.
  intros Hinv. unfold rollback_txn, rollback_threw, marked.
  destruct (se_txn (t_session t)) as [[ptr s]|] eqn:Etx.
  2: { intros [= <- <-]. exists a. destruct Hinv as [He Hh Hi Hs Hc Hp Ht]. split; simpl; try done.
       intros p s E. by rewrite Etx in E. }
  destruct (mdbx_txn_abort _ s) as [rc e'] eqn:Ea. destruct (law_abort _ _ _ _ Ea) as (E1 & E2 & _).
  destruct (negb _); [|done]. intros [= <- <-].
  destruct (ti_txn _ _ Hinv ptr s Etx) as [Hptr Hcase].
  destruct Hinv as [He Hh Hi Hs Hc Hp Ht]. destruct (on_discard_ok ptr _ _ Hh Hi) as (Hh' & Hi' & Hp').
  exists (discard_txn ptr a). split; simpl; try done; [congruence|..].
  - eapply sound_same, Hs. intros n _. simpl. by rewrite E2.
  - eapply holds_same, Hc. intros n _. simpl. by rewrite E2.
  - intros q Hne. rewrite Hp'. case_decide as Eq; [done|]. apply Hp. rewrite Etx. simpl. congruence.
  - intros p2 s2 [= <- <-]. split; [done|]. right. rewrite Hp', decide_True by done.
    destruct Hcase as [-> | [-> | [Hip _]]]; [left; apply orb_true_r|by left|by right].
Qed.

Lemma release_inv t a : trace_inv t a → ∃ a', trace_inv (ended t (release_txn (t_session t)) (t_committed t)) a'.
Proof.
  intros Hinv. unfold release_txn. destruct (se_txn (t_session t)) as [[ptr s]|] eqn:Etx.
  - destruct (mdbx_txn_abort _ s) as [rc e] eqn:Ea. destruct (law_abort _ _ _ _ Ea) as (E1 & E2 & _).
    eexists. apply discarded_inv; [done|apply Hinv|done|done|]. intros q Hq. by eapply others_pending.
  - exists a. destruct Hinv as [He Hh Hi Hs Hc Hp Ht]. apply ended_inv; try done. intros q. apply Hp. by rewrite Etx.
Qed.

(** What a commit that threw leaves of the trace. *)
Definition commit_threw (t : trace) (g : session) : trace :=
  match se_txn g with
  | None => ended t g (t_committed t)
  | Some (ptr, _) =>
      if sync_capture_failed ptr (se_hooks g) then with_hooks t g (t_current t)
      else {| t_session := g; t_committed := t_committed t;
              t_written := t_written t ++ batch_list (t_current t); t_current := []; t_lost := t_lost t |}
  end.

Lemma marked_commit fuel ptr h s :
  sync_capture_failed ptr h = true → on_pre_commit fuel captures ptr h s = (Throw capture_refused, h, s).
Proof. intros E. unfold on_pre_commit, reading. by rewrite E. Qed.

(** The hook let the transaction through. *)
Lemma passed_inv t a ptr s h s' rc e fuel :
  trace_inv t a → se_txn (t_session t) = Some (ptr, s) → hooks_step ptr (se_hooks (t_session t)) h →
  sync_capture_failed ptr h = false →
  in_progress s' (t_committed t ++ t_written t ++ batch_list (t_current t)) →
  (∀ a', m_sync_capture h = Some a' → pending_of a' ptr = []) →
  on_pre_commit fuel captures ptr (se_hooks (t_session t)) s = (Ok tt, h, s') →
  mdbx_txn_commit (se_env (t_session t)) s' = (rc, e) →
  let '(r, g) := commit_txn fuel captures (t_session t) in
  ∃ a', trace_inv (match r with
    | Ok _ => ended t g (t_committed t ++ t_written t ++ batch_list (t_current t))
    | Throw _ => commit_threw t g end) a'.
Proof.
  intros Hinv Etx Hst Hf Hip Hpe Hpre Ec. destruct (ti_txn _ _ Hinv ptr s Etx) as [Hptr _].
  destruct (hooks_step_ok _ _ _ _ Hst (ti_hooks _ _ Hinv) (ti_acc _ _ Hinv)) as (a' & Hh' & Hi' & Hq).
  assert (∀ q, q ≠ ptr → pending_of a' q = []) as Hoth by (intros q Hne; rewrite Hq by done; by eapply others_pending).
  pose proof (Hpe a' (proj2 (proj2 Hh'))) as Hpp. pose proof (ti_env _ _ Hinv) as Eid.
  unfold commit_txn. rewrite Etx, Hpre, Ec. destruct (law_commit _ _ _ _ Ec) as [E1 Hrc].
  destruct (rc =? MDBX_THREAD_MISMATCH) eqn:Emis; zbool.
  - destruct Hrc as [[_ Edb]|[-> _]]; [|done]. unfold commit_threw. simpl. rewrite Hf. exists a'.
    destruct Hinv as [He Hh Hi Hs Hc Hp Ht]. split; simpl; try done; [congruence|..].
    + eapply sound_same, Hs. intros n _. simpl. by rewrite Edb.
    + eapply holds_same, Hc. intros n _. simpl. by rewrite Edb.
    + intros q Hne. apply Hoth. intros ->. by apply Hne.
    + intros p2 s2 [= <- <-]. split; [done|]. right. right. by split.
  - destruct (rc =? MDBX_SUCCESS) eqn:Es; zbool; simpl.
    + subst rc. destruct Hrc as [[Herr _]|[_ Edb]]; [by apply law_error in Herr; set_solver|].
      exists a'. destruct Hip as (_ & _ & Hs' & Hh2). apply ended_inv; simpl; try done; [congruence|..].
      * by apply (same_dbs_sound s' e).
      * by apply (same_dbs_holds s' e).
      * intros q. destruct (decide (q = ptr)) as [->|]; auto.
    + destruct Hrc as [[_ Edb]|[-> _]]; [|done]. unfold commit_threw. simpl. exists (discard_txn ptr a').
      destruct (on_discard_ok ptr _ _ Hh' Hi') as (Hh2 & Hi2 & Hp2). destruct Hinv as [He Hh Hi Hs Hc Hp Ht].
      apply ended_inv; simpl; try done; [congruence|..].
      * eapply sound_same, Hs. intros n _. simpl. by rewrite Edb.
      * eapply holds_same, Hc. intros n _. simpl. by rewrite Edb.
      * intros q. rewrite Hp2. case_decide; auto.
Qed.

Lemma commit_inv t a ptr s fuel r g :
  trace_inv t a → se_txn (t_session t) = Some (ptr, s) → t_lost t = false →
  (size (recs (view s) ChangeLogStore.changelog_name) < fuel)%nat →
  commit_txn fuel captures (t_session t) = (r, g) →
  ∃ a', trace_inv (match r with
    | Ok _ => ended t g (t_committed t ++ t_written t ++ batch_list (t_current t))
    | Throw _ => commit_threw t g end) a'.
Proof.
  intros Hinv Etx Hlost Hf Hcm. destruct (ti_txn _ _ Hinv ptr s Etx) as [Hptr Hcase].
  pose proof (ti_hooks _ _ Hinv) as Hh. pose proof (ti_acc _ _ Hinv) as Hi.
  destruct (on_pre_commit fuel captures ptr (se_hooks (t_session t)) s) as [[r1 h1] s1] eqn:Epre.
  assert (∀ e, r1 = Throw e → r = Throw e ∧
    g = {| se_env := se_env (t_session t); se_hooks := h1; se_txn := Some (ptr, s1) |}) as Hthrow.
  { intros e ->. unfold commit_txn in Hcm. rewrite Etx, Epre in Hcm. by injection Hcm as <- <-. }
  assert (∀ e, r1 = Throw e → hooks_step ptr (se_hooks (t_session t)) h1 → sync_capture_failed ptr h1 = true →
    ∃ a', trace_inv (commit_threw t g) a') as Hfailed.
  { intros e E Hst Hfl. destruct (Hthrow e E) as [_ ->]. unfold commit_threw. simpl. rewrite Hfl.
    eapply (progress_inv t _ a ptr s1 _ (t_written t)); [done|by rewrite Etx|done|done|exact Hst|done|]. by left. }
  destruct (sync_capture_failed ptr (se_hooks (t_session t))) eqn:Efl.
  { rewrite marked_commit in Epre by done. injection Epre as <- <- <-.
    destruct (Hthrow _ eq_refl) as [-> _]. by eapply Hfailed. }
  destruct Hcase as [?|[?|[Hip Hpe]]]; [done|congruence|].
  destruct (pre_commit_run _ _ _ _ _ _ _ _ _ Hptr (proj2 (proj2 Hh)) Hi Hip Hf Efl Epre) as [Hst Hr1].
  destruct r1 as [[]|e]; [|destruct (Hthrow _ eq_refl) as [-> _]; by eapply Hfailed].
  destruct Hr1 as (Hf1 & Hip1 & Hp1). rewrite Hpe, <- app_assoc in Hip1.
  destruct (mdbx_txn_commit (se_env (t_session t)) s1) as [rc e] eqn:Ec.
  pose proof (passed_inv _ _ _ _ _ _ _ _ _ Hinv Etx Hst Hf1 Hip1 Hp1 Epre Ec) as H. by rewrite Hcm in H.
Qed.

Lemma step_inv t t' a : trace_inv t a → step t t' → ∃ a', trace_inv t' a'.
Proof.
  intros Hinv Hst.
  destruct Hst as [t ptr g Hn Hp Hb|t ptr s s' Etx Hu|t ptr s n fl ty key val g Etx Hr|t ptr s n fl ty key val e g Etx Hr
    |t r g Hr|t ptr s Etx|t ptr s fuel g Etx Hl Hf Hc|t ptr s fuel e g Etx Hl Hf Hc|t g Hr|t e g Hr|t].
  - by eapply begin_inv.
  - destruct (ti_txn _ _ Hinv ptr s Etx) as [Hptr Hcase].
    eapply (progress_inv t _ a ptr s' _ (t_written t)); [done|by rewrite Etx|done|done|apply reflexivity|done|]. simpl.
    intros a' Ha'. pose proof (ti_hooks _ _ Hinv) as (_ & _ & Ha). destruct Ha' as (_ & _ & Ha'). rewrite Ha in Ha'.
    injection Ha' as <-. destruct Hcase as [|[|[Hip Hpe]]]; [by left|by auto|right; right]. split; [|done].
    by eapply user_write_in_progress.
  - by eapply (record_inv _ _ _ _ _ _ _ _ _ (Ok tt)).
  - by eapply (record_inv _ _ _ _ _ _ _ _ _ (Throw e)).
  - by eapply suppress_inv.
  - destruct (ti_txn _ _ Hinv ptr s Etx) as [Hptr _]. unfold end_sync_capture_suppression.
    rewrite (proj2 (Z.eqb_neq _ _) Hptr). by eapply suppressed_inv.
  - by eapply (commit_inv _ _ _ _ _ (Ok tt)).
  - by eapply (commit_inv _ _ _ _ _ (Throw e)).
  - by eapply rollback_inv.
  - by eapply rollback_throws_inv.
  - by eapply release_inv.
Qed.

Lemma steps_inv t t' : rtc step t t' → (∃ a, trace_inv t a) → ∃ a, trace_inv t' a.
Proof. induction 1 as [|x y z H _ IH]; [done|]. intros [a Ha]. apply IH. by eapply step_inv. Qed.

(** ** The history *)

(** The batches of a trace hold at least one operation, and all of them were made by the table classes. *)
Definition plain (op : ChangeOp) : Prop := ∃ n fl ty key val, op = table_op n fl ty key val.
Definition plain_batch (l : list ChangeOp) : Prop := l ≠ [] ∧ Forall plain l.
Definition plain_trace (t : trace) : Prop :=
  Forall plain_batch (t_committed t) ∧ Forall plain_batch (t_written t) ∧ Forall plain (t_current t).

Lemma plain_batch_list l : Forall plain l → Forall plain_batch (batch_list l).
Proof. destruct l; intros H; [by apply Forall_nil|]. by apply Forall_singleton. Qed.

Lemma plain_step t t' : step t t' → plain_trace t → plain_trace t'.
Proof.
  intros Hst (Hc & Hw & Hl). pose proof (plain_batch_list _ Hl) as Hb.
  assert (∀ n fl ty key val, plain (table_op n fl ty key val)) as Hp by (intros; unfold plain; eauto 10).
  destruct Hst; unfold plain_trace, ended, with_hooks; simpl;
    repeat (case_match; simpl); rewrite ?Forall_app, ?Forall_singleton; auto.
Qed.

Lemma plain_steps t t' : rtc step t t' → plain_trace t → plain_trace t'.
Proof. induction 1; eauto using plain_step. Qed.

(** Such a batch is read back as it was captured. *)
Lemma plain_decodes n l :
  Forall plain l → batch_ok (captured_batch node n l) → batch_fits (captured_batch node n l) →
  decode_exact (batch_bytes (captured_batch node n l)) None = Ok (captured_batch node n l).
Proof.
  intros Hp Hok Hfit. apply decode_exact_Ok. rewrite <- (app_nil_r (batch_bytes _)) at 1.
  rewrite (encode_decode None (captured_batch node n l)); [|done|done|].
  - do 2 f_equal. unfold canonical_batch, captured_batch. simpl. f_equal.
    induction Hp as [|op l (m & fl & ty & key & val & ->) _ IH]; [done|]. rewrite fmap_cons. f_equal.
    apply IH; [by destruct Hok as (?&?&?&?&?&Ho%Forall_cons); split_and!; try apply Ho|].
    destruct Hfit as [Hs Hf%Forall_cons]. split; [|apply Hf]. unfold size_of in *. simpl in Hs |- *. lia.
  - apply encode_Ok. split_and!; [done..| |done|done]. eapply Forall_impl; [exact Hp|].
    by intros op (m & fl & ty & key & val & ->).
Qed.

Definition log_key (i : nat) : bytes := ChangeLogStore.encode_key node (n0 + Z.of_nat i + 1).

Lemma captured_log_lookup h i l :
  n0 + count h < 2 ^ 64 → h !! i = Some l →
  captured_log n0 h log0 !! log_key i = Some (batch_bytes (captured_batch node (n0 + Z.of_nat i + 1) l)).
Proof.
  revert i l. induction h as [|l' h IH] using rev_ind; intros i l Hb; [done|]. unfold count in *.
  rewrite length_app in Hb. simpl in Hb. rewrite captured_log_snoc. unfold count, log_key in *.
  rewrite lookup_app. destruct (h !! i) as [l2|] eqn:E; intros H.
  - apply lookup_lt_Some in E as Hlt. rewrite lookup_insert_ne.
    + rewrite (IH i l2) by (done || lia). by injection H as ->.
    + intros Hk. apply ChangeLogStore.encode_key_inj in Hk as [_ Hk]; [lia|done|unfold u_range; lia|done|unfold u_range; lia].
  - apply lookup_ge_None in E. apply list_lookup_singleton_Some in H as [Hi <-].
    replace (length h) with i by lia. by rewrite lookup_insert_eq.
Qed.

Lemma captured_log_other h k :
  (∀ i, (i < length h)%nat → k ≠ log_key i) → captured_log n0 h log0 !! k = log0 !! k.
Proof.
  induction h as [|l h IH] using rev_ind; intros Hk; [done|]. rewrite length_app in Hk. simpl in Hk.
  rewrite captured_log_snoc, lookup_insert_ne by (intros E; by apply (Hk (length h)); [lia|]).
  apply IH. intros i Hi. apply Hk. lia.
Qed.

(** A connection at rest: nothing recorded or open, well-formed tables, [n0] the local
    sequence number and [log0] the changelog. *)
Record at_rest (t : trace) (a : accumulator) : Prop := {
  ar_env : env_id (se_env (t_session t)) = id;
  ar_hooks : hooks_ok (se_hooks (t_session t)) a;
  ar_acc : acc_inv a;
  ar_sound : sound (committed_view (se_env (t_session t)));
  ar_seq : MetaStore.a_local_seq (MetaStore.meta_of
    (recs (committed_view (se_env (t_session t))) MetaStore.meta_name)) = n0;
  ar_log : recs (committed_view (se_env (t_session t))) ChangeLogStore.changelog_name = log0;
  ar_none : se_txn (t_session t) = None ∧ t_committed t = [] ∧ t_written t = [] ∧ t_current t = [];
  ar_pending q : pending_of a q = [];
}.

Lemma at_rest_inv t a : at_rest t a → trace_inv t a.
Proof.
  intros [H1 H2 H3 H4 H5 H6 (H7 & H8 & _) Hp]. split; try done.
  - intros _. rewrite H8. split; [by rewrite H5, Z.add_0_r|done].
  - intros ptr s. by rewrite H7.
Qed.

(** The history, with logical captures that keep to their own tables. *)
Lemma history_holds (t t' : trace) (a : accumulator) :
  at_rest t a → rtc step t t' → n0 + count (t_committed t') < 2 ^ 64 →
  let v := committed_view (se_env (t_session t')) in
  let cl := recs v ChangeLogStore.changelog_name in
  MetaStore.a_local_seq (MetaStore.meta_of (recs v MetaStore.meta_name)) = n0 + count (t_committed t') ∧
  (∀ i l, t_committed t' !! i = Some l →
     let b := captured_batch node (n0 + Z.of_nat i + 1) l in
     l ≠ [] ∧ ∃ x, cl !! log_key i = Some x ∧
     (batch_ok b → batch_fits b → decode_exact x None = Ok b)) ∧
  (∀ k, (∀ i, (i < length (t_committed t'))%nat → k ≠ log_key i) → cl !! k = log0 !! k).
Proof.
  intros Hr Hst Hb v cl. destruct (steps_inv t t' Hst) as [a' Hinv]; [exists a; by apply at_rest_inv|].
  destruct (ti_committed _ _ Hinv Hb) as [Es El].
  destruct (plain_steps _ _ Hst) as [Hpl _].
  { destruct (ar_none _ _ Hr) as (_ & E1 & E2 & E3). unfold plain_trace. by rewrite E1, E2, E3. }
  split; [exact Es|]. unfold cl, v. rewrite El. split; [|by apply captured_log_other].
  intros i l Hi. destruct (Forall_lookup_1 _ _ _ _ Hpl Hi) as [Hne Hp]. split; [done|].
  eexists. split; [by apply captured_log_lookup|]. by apply plain_decodes.
Qed.
End Steps.

(** C4: on a connection without logical captures, the changelog is the history of the
    committed transactions.  After any sequence of [begin], table writes, recorded operations
    (accepted or refused), capture suppression, commits and rollbacks that succeed or throw
    (a commit or rollback that fails with [MDBX_THREAD_MISMATCH], say, leaves the transaction
    open and may be tried again) and destructor calls, also with transaction pointers the allocator
    reuses, the local sequence number has moved by one for each batch of a committed
    transaction; the i-th record after the old ones is the batch of exactly the operations
    recorded for it, in order, and every other record is as it was.  Nothing of a transaction
    that was rolled back, released or refused is ever written, and no operation of a
    committed one is missing, except those recorded before a rollback whose native abort
    failed: the code has dropped them although the transaction stays open and may be
    committed.  (A transaction whose capture had failed before such a rollback is not
    committed in these sequences: its refusal is dropped as well.) *)
Theorem capture_history {X : Mdbx} {L : MdbxLaws X} (id : Z) (node : NodeId) (n0 : Z) (log0 : gmap bytes bytes)
    (t t' : trace) (a : accumulator) :
  node_ok node → node ≠ make_zero_node → 0 ≤ n0 →
  at_rest id node n0 log0 t a → rtc (step []) t t' → n0 + count (t_committed t') < 2 ^ 64 →
  let v := committed_view (se_env (t_session t')) in
  let cl := recs v ChangeLogStore.changelog_name in
  MetaStore.a_local_seq (MetaStore.meta_of (recs v MetaStore.meta_name)) = n0 + count (t_committed t') ∧
  (∀ i l, t_committed t' !! i = Some l →
     let b := captured_batch node (n0 + Z.of_nat i + 1) l in
     l ≠ [] ∧ ∃ x, cl !! log_key node n0 i = Some x ∧
     (batch_ok b → batch_fits b → decode_exact x None = Ok b)) ∧
  (∀ k, (∀ i, (i < length (t_committed t'))%nat → k ≠ log_key node n0 i) → cl !! k = log0 !! k).
Proof. intros Hn Hz H0. apply (history_holds []); [by apply Forall_nil|done..]. Qed.


(** A rollback whose native abort fails leaves the transaction open, with its records, and
    has dropped its recorded operations and the mark that would refuse its commit. *)
Theorem failed_rollback_drops_capture {X : Mdbx} (g g' : session) (ptr : Z) (s : txn) (e : exn) :
  se_txn g = Some (ptr, s) → rollback_txn g = (Throw e, g') →
  se_txn g' = Some (ptr, s) ∧
  (∀ a, m_sync_capture (se_hooks g') = Some a → pending_of a ptr = []) ∧
  (ptr ≠ 0 → sync_capture_failed ptr (se_hooks g') = false).
Proof.
  intros Etx. unfold rollback_txn. rewrite Etx. destruct (mdbx_txn_abort _ s) as [rc e']. destruct (negb _); [|done].
  intros [= <- <-]. simpl. split; [done|]. unfold on_discard. split.
  - intros a. destruct (m_sync_capture (clear_sync_capture_failed ptr (se_hooks g))) as [b|] eqn:E; [|by rewrite E].
    intros [= <-]. unfold pending_of, discard_txn. simpl. by rewrite lookup_delete_eq.
  - intros Hp. assert (sync_capture_failed ptr (clear_sync_capture_failed ptr (se_hooks g)) = false) as Hf.
    { unfold sync_capture_failed, clear_sync_capture_failed. rewrite (proj2 (Z.eqb_neq _ _) Hp).
      destruct (m_sync_capture_failed_txn (se_hooks g) =? ptr) eqn:E; simpl; [by destruct ptr|done]. }
    destruct (m_sync_capture _); [by rewrite failed_sink|done].
Qed.

(** ** A concrete session *)

Definition sample_env : ref_env := {| ref_id := 1; ref_dbs := sample_capture_dbs; ref_handles := ∅ |}.

Definition session_at (g : session (X := ref_mdbx)) (committed : list (list ChangeOp)) (l : list ChangeOp)
    : trace (X := ref_mdbx) :=
  {| t_session := g; t_committed := committed; t_written := []; t_current := l; t_lost := false |}.

Definition sample_start : session (X := ref_mdbx) :=
  {| se_env := sample_env : env (Mdbx := ref_mdbx); se_hooks := sample_hooks; se_txn := None |}.

Definition record_orders (ptr : Z) : H unit :=
  record_op (X := ref_mdbx) ptr (bytes_of_string "orders") 0 Put [Byte.x01] [Byte.x02].

(** A transaction rolled back after one write, then one that records a write and
    commits, under the same pointer. *)
Definition sample_begun : session (X := ref_mdbx) := (begin_txn 7 sample_start).2.
Definition sample_recorded : session (X := ref_mdbx) := (in_session record_orders sample_begun).2.
Definition sample_rolled_back : session (X := ref_mdbx) := (rollback_txn sample_recorded).2.
Definition sample_begun2 : session (X := ref_mdbx) := (begin_txn 7 sample_rolled_back).2.
Definition sample_recorded2 : session (X := ref_mdbx) := (in_session record_orders sample_begun2).2.
Definition sample_end : session (X := ref_mdbx) := (commit_txn 5 [] sample_recorded2).2.

Definition in_session_txn (g : session (X := ref_mdbx)) : db_view :=
  match se_txn g with Some (_, s) => s | None => (ref_begin sample_env false).2 end.

Lemma ok_run {G} (p : result unit * G) : p.1 = Ok tt → p = (Ok tt, p.2).
Proof. destruct p as [r g]. simpl. by intros ->. Qed.

#[local] Ltac run := apply ok_run; vm_compute; reflexivity.

Lemma step_to (t u t' t2 : trace (X := ref_mdbx)) :
  step (X := ref_mdbx) [] t u → u = t' → rtc (step (X := ref_mdbx) []) t' t2 → rtc (step (X := ref_mdbx) []) t t2.
Proof. intros H -> H2. by eapply rtc_l. Qed.

Lemma record_orders_step g ptr s committed l :
  se_txn g = Some (ptr, s) → (in_session record_orders g).1 = Ok tt → is_captured (se_hooks g) ptr = true →
  ∀ t2, rtc (step (X := ref_mdbx) []) (session_at (in_session record_orders g).2 committed (l ++ [sample_op "orders"])) t2 →
    rtc (step (X := ref_mdbx) []) (session_at g committed l) t2.
Proof.
  intros Etx Hr Hc t2. eapply step_to.
  - eapply (step_record [] _ ptr s _ 0 Put); [exact Etx|exact (ok_run _ Hr)].
  - unfold with_hooks, session_at. cbn [t_session t_committed t_written t_current]. by rewrite Hc.
Qed.

Lemma sample_commit : (commit_txn (X := ref_mdbx) 5 [] sample_recorded2).1 = Ok tt.
Proof. vm_compute. reflexivity. Qed.

Lemma sample_txn : se_txn sample_recorded2 = Some (7, in_session_txn sample_recorded2).
Proof. vm_compute. reflexivity. Qed.

Lemma sample_fuel : (size (recs (in_session_txn sample_recorded2) ChangeLogStore.changelog_name) < 5)%nat.
Proof. apply Nat.ltb_lt. vm_compute. reflexivity. Qed.

Lemma sample_commit_step :
  step (X := ref_mdbx) [] (session_at sample_recorded2 [] [sample_op "orders"])
    (session_at sample_end [[sample_op "orders"]] []).
Proof.
  pose proof (step_commit (X := ref_mdbx) (L := ref_laws) [] (session_at sample_recorded2 [] [sample_op "orders"]) 7
    (in_session_txn sample_recorded2) 5 sample_end sample_txn eq_refl sample_fuel) as H.
  assert (ended (X := ref_mdbx) (session_at sample_recorded2 [] [sample_op "orders"]) sample_end
    [[sample_op "orders"]] = session_at sample_end [[sample_op "orders"]] []) as E by reflexivity.
  rewrite <- E. exact (H (ok_run _ sample_commit)).
Qed.

Lemma sample_steps :
  rtc (step (X := ref_mdbx) []) (session_at sample_start [] []) (session_at sample_end [[sample_op "orders"]] []).
Proof.
  eapply (step_to _ _ (session_at sample_begun [] []));
    [apply (step_begin [] _ 7 sample_begun); [reflexivity|discriminate|run]|reflexivity|].
  apply (record_orders_step _ 7 (ref_begin sample_env false).2); [reflexivity|vm_compute; reflexivity|reflexivity|].
  eapply (step_to _ _ (session_at sample_rolled_back [] [])); [apply (step_rollback [] _ sample_rolled_back); run|reflexivity|].
  eapply (step_to _ _ (session_at sample_begun2 [] []));
    [apply (step_begin [] _ 7 sample_begun2); [vm_compute; reflexivity|discriminate|run]|reflexivity|].
  apply (record_orders_step _ 7 (ref_begin sample_env false).2); [vm_compute; reflexivity|vm_compute; reflexivity|vm_compute; reflexivity|].
  exact (rtc_once _ _ sample_commit_step).
Qed.

Lemma sample_at_rest :
  at_rest (X := ref_mdbx) 1 sample_node 0 ∅ (session_at sample_start [] []) (new_accumulator 1).
Proof.
  destruct sample_capture_view_ok as [_ _ _ Hm Hl Hi Hr _].
  split; [reflexivity|by split|split; [apply new_accumulator_ok|by left]| |reflexivity|reflexivity|done|done].
  split; [|exact Hm|exact Hl|exact Hi|exact Hr|vm_compute; reflexivity].
  intros n Hn. revert n Hn. apply Forall_forall. apply (bool_decide_unpack _). vm_compute. exact I.
Qed.

Lemma capture_history_witness :
  let v := committed_view (X := ref_mdbx) (se_env sample_end) in
  MetaStore.a_local_seq (MetaStore.meta_of (recs v MetaStore.meta_name)) = 1 ∧
  ∃ x, recs v ChangeLogStore.changelog_name !! log_key sample_node 0 0 = Some x ∧
    decode_exact x None = Ok (captured_batch sample_node 1 [sample_op "orders"]).
Proof.
  destruct (capture_history (X := ref_mdbx) 1 sample_node 0 ∅ _ _ (new_accumulator 1) eq_refl
    ltac:(discriminate) ltac:(done) sample_at_rest sample_steps ltac:(reflexivity)) as (Hs & Hl & _).
  split; [exact Hs|]. destruct (Hl 0%nat _ eq_refl) as (_ & x & Hx & Hd). exists x. split; [exact Hx|].
  apply Hd; apply (bool_decide_unpack _); vm_compute; exact I.
Defined.
