(* ===== verification/ApplyEngine.v ===== *)
(** * Applying change batches

    Models the apply path of [src/include/mdbx_containers/sync/engine/SyncEngine.hpp]:
    [apply_batch_ex] with its validation, preflight, last-writer-wins and raw operations.
    The theorems show the sequence rules (own, old and non-contiguous batches change
    nothing), that a batch is refused as a whole, that an accepted batch has exactly the
    effect of its operations in order, and that last-writer-wins tables converge. *)
From stdpp Require Import pretty.
From S2P Require Import Prelude SyncCommon KeyCodec SyncProtocol Mdbx RefMdbx StoreBase.
From S2P Require MetaStore AppliedStore IdentityIndexStore VersionedDbiStore ReceiverModeStore.
Open Scope Z_scope.

Definition string_of_bytes (b : bytes) : string := String.string_of_list_byte b.
Definition to_string (n : Z) : string := pretty n.

(** ** Outcomes *)

Inductive ConflictPolicy : Type := Reject | LastWriterWins.

#[export] Instance ConflictPolicy_eq_dec : EqDecision ConflictPolicy.
Proof. solve_decision. Defined.

Inductive ApplyResult : Type := Applied | Skipped | Conflict.

#[export] Instance ApplyResult_eq_dec : EqDecision ApplyResult.
Proof. solve_decision. Defined.

Inductive ApplyConflictReason : Type :=
  | NoConflict | SequenceGap | InconsistentBatchDbiFlags | ExistingDbiFlagsMismatch
  | ReservedDbiName | MissingLwwRevision | UnsupportedLwwOperation | LwwPolicyDisabled
  | UnexpectedLwwRevision | ReceiverModeConflict.

#[export] Instance ApplyConflictReason_eq_dec : EqDecision ApplyConflictReason.
Proof. solve_decision. Defined.

Record ApplyOutcome : Type := {
  out_result : ApplyResult;
  conflict_reason : ApplyConflictReason;
  out_origin : NodeId;
  out_last_applied_seq : Z;
  batch_seq : Z;
  out_dbi_name : bytes;
  expected_dbi_flags : Z;
  incoming_dbi_flags : Z;
  actual_dbi_flags_available : bool;
  actual_dbi_flags : Z;
  mdbx_error_code : Z;
}.

Definition make_apply_outcome (result : ApplyResult) (batch : ChangeBatch) (last : Z) : ApplyOutcome := {|
  out_result := result; conflict_reason := NoConflict; out_origin := origin_node_id batch;
  out_last_applied_seq := last; batch_seq := seq_no batch; out_dbi_name := [];
  expected_dbi_flags := 0; incoming_dbi_flags := 0; actual_dbi_flags_available := false;
  actual_dbi_flags := 0; mdbx_error_code := MDBX_SUCCESS;
|}.

(** The assignments to an outcome that the code makes. *)
Definition set_result (o : ApplyOutcome) (r : ApplyResult) (reason : ApplyConflictReason) (last : Z)
    : ApplyOutcome := {|
  out_result := r; conflict_reason := reason; out_origin := out_origin o;
  out_last_applied_seq := last; batch_seq := batch_seq o; out_dbi_name := out_dbi_name o;
  expected_dbi_flags := expected_dbi_flags o; incoming_dbi_flags := incoming_dbi_flags o;
  actual_dbi_flags_available := actual_dbi_flags_available o;
  actual_dbi_flags := actual_dbi_flags o; mdbx_error_code := mdbx_error_code o;
|}.

Definition conflict_on (o : ApplyOutcome) (reason : ApplyConflictReason) (name : bytes)
    (expected incoming : Z) : ApplyOutcome := {|
  out_result := Conflict; conflict_reason := reason; out_origin := out_origin o;
  out_last_applied_seq := out_last_applied_seq o; batch_seq := batch_seq o; out_dbi_name := name;
  expected_dbi_flags := expected; incoming_dbi_flags := incoming;
  actual_dbi_flags_available := actual_dbi_flags_available o;
  actual_dbi_flags := actual_dbi_flags o; mdbx_error_code := mdbx_error_code o;
|}.

Definition mismatch_on (o : ApplyOutcome) (name : bytes) (incoming : Z) (actual : option Z) (rc : Z)
    : ApplyOutcome := {|
  out_result := Conflict; conflict_reason := ExistingDbiFlagsMismatch; out_origin := out_origin o;
  out_last_applied_seq := out_last_applied_seq o; batch_seq := batch_seq o; out_dbi_name := name;
  expected_dbi_flags := expected_dbi_flags o; incoming_dbi_flags := incoming;
  actual_dbi_flags_available := bool_decide (is_Some actual);
  actual_dbi_flags := default 0 actual; mdbx_error_code := rc;
|}.

Definition apply_conflict_reason_name (reason : ApplyConflictReason) : string :=
  match reason with
  | NoConflict => "none"
  | SequenceGap => "sequence_gap"
  | InconsistentBatchDbiFlags => "inconsistent_batch_dbi_flags"
  | ExistingDbiFlagsMismatch => "existing_dbi_flags_mismatch"
  | ReservedDbiName => "reserved_dbi_name"
  | MissingLwwRevision => "missing_lww_revision"
  | UnsupportedLwwOperation => "unsupported_lww_operation"
  | LwwPolicyDisabled => "lww_policy_disabled"
  | UnexpectedLwwRevision => "unexpected_lww_revision"
  | ReceiverModeConflict => "receiver_mode_conflict"
  end.

Definition apply_conflict_message (o : ApplyOutcome) : string :=
  let message := apply_conflict_reason_name (conflict_reason o) +:+ " while applying pushed batch" in
  match conflict_reason o with
  | SequenceGap =>
      message +:+ " (last_applied_seq=" +:+ to_string (out_last_applied_seq o) +:+
      ", batch_seq=" +:+ to_string (batch_seq o) +:+ ")"
  | InconsistentBatchDbiFlags =>
      message +:+ " (dbi='" +:+ string_of_bytes (out_dbi_name o) +:+ "', expected_flags=" +:+
      to_string (expected_dbi_flags o) +:+ ", incoming_flags=" +:+
      to_string (incoming_dbi_flags o) +:+ ")"
  | ExistingDbiFlagsMismatch =>
      message +:+ " (dbi='" +:+ string_of_bytes (out_dbi_name o) +:+ "', incoming_flags=" +:+
      to_string (incoming_dbi_flags o) +:+
      (if actual_dbi_flags_available o then ", actual_flags=" +:+ to_string (actual_dbi_flags o)
       else ", actual_flags=unknown") +:+
      ", mdbx_error_code=" +:+ to_string (mdbx_error_code o) +:+ ")"
  | ReservedDbiName => message +:+ " (dbi='" +:+ string_of_bytes (out_dbi_name o) +:+ "')"
  | _ => message
  end.

(** ** Flags of user tables *)

Definition persistent_dbi_flags_mask : Z :=
  Z.lor MDBX_REVERSEKEY (Z.lor MDBX_DUPSORT (Z.lor MDBX_INTEGERKEY (Z.lor MDBX_DUPFIXED
    (Z.lor MDBX_INTEGERDUP MDBX_REVERSEDUP)))).

Definition persistent_dbi_flags (dbi_flags : Z) : Z := Z.land dbi_flags persistent_dbi_flags_mask.

Record BatchDbiFlags : Type := { bd_name : bytes; bd_flags : Z }.

(** The entry the index map of the code points at. *)
Fixpoint find_dbi (name : bytes) (dbis : list BatchDbiFlags) : option BatchDbiFlags :=
  match dbis with
  | [] => None
  | e :: dbis' => if bool_decide (bd_name e = name) then Some e else find_dbi name dbis'
  end.

(** [inl] is the result [false] with the outcome filled in. *)
Fixpoint collect_ops_dbi_flags (ops : list ChangeOp) (dbis : list BatchDbiFlags) (outcome : ApplyOutcome)
    : ApplyOutcome + list BatchDbiFlags :=
  match ops with
  | [] => inr dbis
  | op :: ops' =>
      let flags := persistent_dbi_flags (dbi_flags op) in
      if is_reserved_dbi_name (dbi_name op) then
        inl (conflict_on outcome ReservedDbiName (dbi_name op) (expected_dbi_flags outcome) flags)
      else
        match find_dbi (dbi_name op) dbis with
        | None =>
            collect_ops_dbi_flags ops' (dbis ++ [{| bd_name := dbi_name op; bd_flags := flags |}]) outcome
        | Some existing =>
            if negb (bd_flags existing =? flags) then
              inl (conflict_on outcome InconsistentBatchDbiFlags (dbi_name op) (bd_flags existing) flags)
            else collect_ops_dbi_flags ops' dbis outcome
        end
  end.

Definition collect_batch_dbi_flags (batch : ChangeBatch) (outcome : ApplyOutcome)
    : ApplyOutcome + list BatchDbiFlags :=
  collect_ops_dbi_flags (ops batch) [] outcome.

Section Code.
Context {X : Mdbx} (env_handle : Z) (m_policy : ConflictPolicy).

(** The handle (0 for an absent table), or the error code of the result [false]. *)
Definition open_existing_user_dbi (name : bytes) (dbi_flags : Z) : M (Z + Z) :=
  let open_dbi_flags := persistent_dbi_flags dbi_flags in
  '(rc, dbi) ← dbi_open (c_str name) open_dbi_flags;
  '(rc, dbi) ←
    (if (rc =? MDBX_INCOMPATIBLE) && (Z.land open_dbi_flags MDBX_INTEGERKEY =? 0) then
       dbi_open (c_str name) (Z.lor open_dbi_flags MDBX_INTEGERKEY)
     else mret (rc, dbi));
  if rc =? MDBX_NOTFOUND then mret (inr 0)
  else if (rc =? MDBX_INCOMPATIBLE) || (rc =? MDBX_EINVAL) then mret (inl rc)
  else
    _ ← check_mdbx rc ("SyncEngine: failed to preflight user DBI '" +:+ string_of_bytes name +:+ "'");
    mret (inr dbi).

(** [None] is the result [false]. *)
Definition read_existing_user_dbi_flags (name : bytes) : M (option Z) :=
  '(rc, dbi) ← dbi_open (c_str name) MDBX_DB_ACCEDE;
  if (rc =? MDBX_NOTFOUND) || (rc =? MDBX_INCOMPATIBLE) || (rc =? MDBX_EINVAL) then mret None
  else
    _ ← check_mdbx rc ("SyncEngine: failed to probe existing user DBI '" +:+ string_of_bytes name +:+ "'");
    '(rc, raw_flags) ← get_flags dbi;
    _ ← check_mdbx rc ("SyncEngine: failed to read flags for existing user DBI '" +:+
                       string_of_bytes name +:+ "'");
    mret (Some (persistent_dbi_flags raw_flags)).

Definition dbi_cache : Type := gmap bytes Z.

Fixpoint preflight_batch_user_dbis (dbis : list BatchDbiFlags) (cache : dbi_cache)
    (outcome : ApplyOutcome) : M (ApplyOutcome + dbi_cache) :=
  match dbis with
  | [] => mret (inr cache)
  | e :: dbis' =>
      opened ← open_existing_user_dbi (bd_name e) (bd_flags e);
      match opened with
      | inl rc =>
          actual ← read_existing_user_dbi_flags (bd_name e);
          mret (inl (mismatch_on outcome (bd_name e) (bd_flags e) actual rc))
      | inr dbi =>
          preflight_batch_user_dbis dbis'
            (if negb (dbi =? 0) then <[bd_name e := dbi]> cache else cache) outcome
      end
  end.

Definition resolve_user_dbi (name : bytes) (dbi_flags : Z) (cache : dbi_cache) : M (Z * dbi_cache) :=
  let cached := default 0 (cache !! name) in
  if negb (cached =? 0) then mret (cached, cache)
  else
    let open_dbi_flags := persistent_dbi_flags dbi_flags in
    let open_flags := Z.lor open_dbi_flags MDBX_CREATE in
    '(rc, dbi) ← dbi_open (c_str name) open_flags;
    '(rc, dbi) ←
      (if (rc =? MDBX_INCOMPATIBLE) && (Z.land open_dbi_flags MDBX_INTEGERKEY =? 0) then
         dbi_open (c_str name) (Z.lor open_flags MDBX_INTEGERKEY)
       else mret (rc, dbi));
    _ ← check_mdbx rc ("SyncEngine: failed to open user DBI '" +:+ string_of_bytes name +:+ "'");
    mret (dbi, <[name := dbi]> cache).

Definition apply_one_op (op : ChangeOp) (cache : dbi_cache) : M dbi_cache :=
  '(dbi, cache) ← resolve_user_dbi (dbi_name op) (dbi_flags op) cache;
  match op_type op with
  | Put =>
      _ ← put_record dbi (storage_key op) (value op) MDBX_UPSERT
            ("SyncEngine: mdbx_put failed for DBI '" +:+ string_of_bytes (dbi_name op) +:+ "'");
      mret cache
  | Delete =>
      rc ← del dbi (storage_key op);
      _ ← (if negb (rc =? MDBX_SUCCESS) && negb (rc =? MDBX_NOTFOUND) then
             check_mdbx rc ("SyncEngine: mdbx_del failed for DBI '" +:+
                            string_of_bytes (dbi_name op) +:+ "'")
           else mret tt);
      mret (delete (dbi_name op) cache)
  | ClearTable =>
      rc ← drop_table dbi;
      _ ← check_mdbx rc ("SyncEngine: mdbx_drop failed for DBI '" +:+
                         string_of_bytes (dbi_name op) +:+ "'");
      mret (delete (dbi_name op) cache)
  end.

(** [op.revision_key < current.revision_key], and the tie broken by the origin. *)
Definition lww_superseded (op : ChangeOp) (origin : NodeId)
    (current : IdentityIndexStore.IdentityIndexValue) : bool :=
  bool_decide (bytes_lt (revision_key op) (IdentityIndexStore.iv_revision_key current)) ||
  (bool_decide (revision_key op = IdentityIndexStore.iv_revision_key current) &&
   (compare_node_id origin (IdentityIndexStore.iv_origin current) <=? 0)).

Definition lww_marker (op : ChangeOp) (origin : NodeId) (sequence : Z)
    : IdentityIndexStore.IdentityIndexValue := {|
  IdentityIndexStore.iv_storage_key := storage_key op;
  IdentityIndexStore.iv_origin := origin;
  IdentityIndexStore.iv_seq := sequence;
  IdentityIndexStore.iv_revision_key := revision_key op;
  IdentityIndexStore.iv_flags := 0;
|}.

Definition apply_lww_one_op (op : ChangeOp) (origin : NodeId) (sequence : Z) (cache : dbi_cache)
    (identity_index : store) : M dbi_cache :=
  current ← IdentityIndexStore.get_value identity_index (dbi_name op) (storage_key op);
  if match current with Some c => lww_superseded op origin c | None => false end then mret cache
  else
    cache ← apply_one_op op cache;
    let marker := lww_marker op origin sequence in
    _ ← (if bool_decide (op_type op = Delete) then
           IdentityIndexStore.tombstone identity_index (dbi_name op) (storage_key op) marker
         else IdentityIndexStore.put_value identity_index (dbi_name op) (storage_key op) marker);
    mret cache.

(** One step of the validation loop, on an operation whose table is or is not registered. *)
Definition versioned_conflict (op : ChangeOp) (is_versioned : bool) : option ApplyConflictReason :=
  let has_revision :=
    has_flag (op_flags op) OP_HAS_REVISION_KEY || negb (bool_decide (revision_key op = [])) in
  if negb is_versioned then
    if negb has_revision then None else Some UnexpectedLwwRevision
  else if negb (bool_decide (m_policy = LastWriterWins)) then Some LwwPolicyDisabled
  else if negb has_revision || bool_decide (revision_key op = []) then Some MissingLwwRevision
  else if has_flag (op_flags op) OP_HAS_IDENTITY_KEY ||
          (negb (bool_decide (op_type op = Put)) && negb (bool_decide (op_type op = Delete)))
  then Some UnsupportedLwwOperation
  else None.

Fixpoint validate_versioned_ops (ops : list ChangeOp) (registry : store) (versioned_ops : list bool)
    (outcome : ApplyOutcome) : M (ApplyOutcome + list bool) :=
  match ops with
  | [] => mret (inr versioned_ops)
  | op :: ops' =>
      '(registry, is_versioned) ← VersionedDbiStore.contains registry (dbi_name op);
      match versioned_conflict op is_versioned with
      | Some reason =>
          mret (inl (conflict_on outcome reason (dbi_name op) (expected_dbi_flags outcome)
                       (incoming_dbi_flags outcome)))
      | None => validate_versioned_ops ops' registry (versioned_ops ++ [is_versioned]) outcome
      end
  end.

Definition validate_versioned_dbi_batch (batch : ChangeBatch) (registry : store)
    (outcome : ApplyOutcome) : M (ApplyOutcome + list bool) :=
  validate_versioned_ops (ops batch) registry [] outcome.

(** The loop over the operations. *)
Fixpoint apply_ops (l : list (ChangeOp * bool)) (origin : NodeId) (seq : Z) (cache : dbi_cache)
    (identity_index : store) : M unit :=
  match l with
  | [] => mret tt
  | (op, versioned) :: l' =>
      cache ← (if versioned : bool then apply_lww_one_op op origin seq cache identity_index
               else apply_one_op op cache);
      apply_ops l' origin seq cache identity_index
  end.

(** [false] when selective delivery was claimed before; a database without an id claims
    nothing. *)
Definition claim_receiver_mode (local_db_id : DbId) : M bool :=
  if is_zero_sync_id local_db_id then mret true
  else
    receiver_mode ← ReceiverModeStore.open
      (new_store env_handle ReceiverModeStore.receiver_mode_name);
    ReceiverModeStore.claim_full_global receiver_mode local_db_id.

Definition apply_batch_ex (batch : ChangeBatch) : M ApplyOutcome :=
  _ ← checked_txn_env env_handle "SyncEngine::apply_batch_ex";
  let outcome := make_apply_outcome Applied batch 0 in
  meta ← MetaStore.open (new_store env_handle MetaStore.meta_name);
  applied ← AppliedStore.open (new_store env_handle AppliedStore.applied_name);
  local_node ← MetaStore.get_node_id meta;
  if compare_node_id (origin_node_id batch) local_node =? 0 then
    mret (set_result outcome Skipped NoConflict 0)
  else
  last ← AppliedStore.last_applied_seq applied (origin_node_id batch);
  let outcome := set_result outcome Applied NoConflict last in
  if seq_no batch <=? last then mret (set_result outcome Skipped NoConflict last)
  else if negb (seq_no batch =? (last + 1) mod 2 ^ 64) then
    mret (set_result outcome Conflict SequenceGap last)
  else
  checked ← validate_versioned_dbi_batch batch (VersionedDbiStore.new_registry env_handle) outcome;
  match checked with
  | inl conflict => mret conflict
  | inr versioned_ops =>
  match collect_batch_dbi_flags batch outcome with
  | inl conflict => mret conflict
  | inr batch_dbis =>
  preflight ← preflight_batch_user_dbis batch_dbis ∅ outcome;
  match preflight with
  | inl conflict => mret conflict
  | inr cache =>
  local_db_id ← MetaStore.get_db_uuid meta;
  claimed ← claim_receiver_mode local_db_id;
  if negb claimed then mret (set_result outcome Conflict ReceiverModeConflict last)
  else
  let identity_index := new_store env_handle IdentityIndexStore.identity_name in
  identity_index ← (if bool_decide (true ∈ versioned_ops) then IdentityIndexStore.open identity_index
                    else mret identity_index);
  _ ← apply_ops (zip (ops batch) versioned_ops) (origin_node_id batch) (seq_no batch) cache identity_index;
  _ ← AppliedStore.set_last_applied_seq applied (origin_node_id batch) (seq_no batch);
  mret (set_result outcome Applied NoConflict (seq_no batch))
  end end end.

Definition apply_batch (batch : ChangeBatch) : M ApplyResult :=
  outcome ← apply_batch_ex batch; mret (out_result outcome).
End Code.

(** ** Opening user tables *)

Lemma persistent_none f x : Z.land persistent_dbi_flags_mask x = 0 → has_flag (persistent_dbi_flags f) x = false.
Proof.
  intros E. unfold has_flag, persistent_dbi_flags. by rewrite <- Z.land_assoc, E, Z.land_0_r.
Qed.

Lemma persistent_no_create f : has_flag (persistent_dbi_flags f) MDBX_CREATE = false.
Proof. by apply persistent_none. Qed.

Lemma persistent_idem f : persistent_dbi_flags (persistent_dbi_flags f) = persistent_dbi_flags f.
Proof. unfold persistent_dbi_flags. by rewrite <- Z.land_assoc, Z.land_diag. Qed.

Lemma has_flag_lor a b f : has_flag (Z.lor a b) f = has_flag a f || has_flag b f.
Proof.
  unfold has_flag. rewrite Z.land_lor_distr_l.
  destruct (Z.eqb_spec (Z.land a f) 0) as [->|Ha]; [by rewrite Z.lor_0_l|]. simpl.
  destruct (Z.eqb_spec (Z.lor (Z.land a f) (Z.land b f)) 0) as [E|]; [|done].
  apply Z.lor_eq_0_iff in E as [??]. done.
Qed.

Lemma persistent_integer_no_create f :
  has_flag (Z.lor (persistent_dbi_flags f) MDBX_INTEGERKEY) MDBX_CREATE = false.
Proof. by rewrite has_flag_lor, persistent_no_create. Qed.

Lemma persistent_integer_no_accede f :
  has_flag (Z.lor (persistent_dbi_flags f) MDBX_INTEGERKEY) MDBX_DB_ACCEDE = false.
Proof. by rewrite has_flag_lor, persistent_none. Qed.

Lemma has_flag_lor_r f a b : has_flag f (Z.lor a b) = has_flag f a || has_flag f b.
Proof. unfold has_flag. rewrite !(Z.land_comm f). apply has_flag_lor. Qed.

(** An existing table that an open with these flags may find. *)
Definition opens_with (v : db_view) (name : bytes) (flags : Z) : Prop :=
  has_flag flags MDBX_DB_ACCEDE = false → ∀ d, v_dbs v !! name = Some d → flags_match flags d = true.

(** The flags that the preflight accepts for a table that exists: the ones of the batch, or
    the same for integer keys. *)
Definition flags_admitted (flags : Z) (d : dbi_view) : Prop :=
  flags_match flags d = true ∨ flags_match (Z.lor flags MDBX_INTEGERKEY) d = true.

(** An open that may not create leaves every table as it is. *)
Lemma open_spec_existing v name flags rc dbi v' :
  has_flag flags MDBX_CREATE = false → open_spec v name flags rc dbi v' →
  v_reopen v v' ∧
  (rc = MDBX_SUCCESS ∧ dbi ≠ 0 ∧ (∃ d, v_dbs v !! name = Some d ∧ bound v' dbi name (dv_flags d)) ∨
   rc = MDBX_NOTFOUND ∧ v_dbs v !! name = None ∨
   (rc = MDBX_INCOMPATIBLE ∨ rc = MDBX_EINVAL) ∧
     ∃ d, v_dbs v !! name = Some d ∧ flags_match flags d = false).
Proof.
  intros Hc Ho. unfold open_spec in Ho. rewrite Hc in Ho.
  destruct (v_dbs v !! name) as [d|] eqn:Ed.
  - destruct Ho as [(-> & Hz & Hf & ->)|[(Hm & Hrc & ->)|[(_ & ? & _)|(? & _)]]]; try done.
    + assert (table v name = d) as <- by (unfold table; by rewrite Ed).
      split; [split; [by apply opened_ext|by apply insert_id]|]. left. split_and!; [done..|]. exists (table v name).
      split; [done|apply opened_bound].
    + split; [done|]. right. right. eauto.
  - destruct Ho as [-> ->]. split; [done|]. auto.
Qed.

Section Rules.
Context {X : Mdbx} {L : MdbxLaws X} (env_handle : Z) (m_policy : ConflictPolicy).

Lemma wp_dbi_open_existing name flags Q v :
  has_flag flags MDBX_CREATE = false →
  (∀ rc dbi v', engine_error rc → Q (Ok (rc, dbi)) v') →
  (∀ rc dbi v', open_spec v name flags rc dbi v' → v_reopen v v' →
     (rc = MDBX_SUCCESS → opens_with v name flags) → Q (Ok (rc, dbi)) v') →
  wp (dbi_open name flags) Q v.
Proof.
  intros Hc He HQ s Hs. unfold dbi_open.
  destruct (mdbx_dbi_open s name flags) as [[rc dbi] s'] eqn:E. left. subst v.
  destruct (law_open _ _ _ _ _ _ E) as [|Ho]; [auto|].
  apply HQ; [done|by apply (open_spec_existing _ _ _ _ _ _ Hc Ho)|].
  intros -> Ha d Hd. eapply law_open_flags; [exact E|by rewrite has_flag_lor_r, Hc|exact Hd].
Qed.

(** The preflight open of a table. *)
Definition preflight_result (v : db_view) (name : bytes) (flags : Z) (r : Z + Z) (v' : db_view) : Prop :=
  v_reopen v v' ∧
  match r with
  | inl rc => ∃ d, v_dbs v !! name = Some d ∧ flags_match flags d = false
  | inr dbi =>
      dbi = 0 ∧ v_dbs v !! name = None ∨
      dbi ≠ 0 ∧ ∃ d, v_dbs v !! name = Some d ∧ bound v' dbi name (dv_flags d) ∧ flags_admitted flags d
  end.

Lemma preflight_finish v v1 name flags msg rc dbi (Q : result (Z + Z) → db_view → Prop) :
  v_reopen v v1 →
  (rc = MDBX_SUCCESS ∧ dbi ≠ 0 ∧
     (∃ d, v_dbs v !! name = Some d ∧ bound v1 dbi name (dv_flags d) ∧ flags_admitted flags d) ∨
   rc = MDBX_NOTFOUND ∧ v_dbs v !! name = None ∨
   (rc = MDBX_INCOMPATIBLE ∨ rc = MDBX_EINVAL) ∧
     ∃ d, v_dbs v !! name = Some d ∧ flags_match flags d = false) →
  (∀ r, preflight_result v name flags r v1 → Q (Ok r) v1) →
  wp (if rc =? MDBX_NOTFOUND then mret (inr 0)
      else if (rc =? MDBX_INCOMPATIBLE) || (rc =? MDBX_EINVAL) then mret (inl rc)
      else _ ← check_mdbx rc msg; mret (inr dbi)) Q v1.
Proof.
  intros He H HQ. destruct H as [(-> & Hz & Hd)|[(-> & Hn)|([-> | ->] & Hd)]]; simpl.
  - apply wp_ret_bind, wp_ret, HQ. split; [done|]. by right.
  - apply wp_ret, HQ. split; [done|]. by left.
  - apply wp_ret, HQ. by split.
  - apply wp_ret, HQ. by split.
Qed.

Lemma wp_open_existing_user_dbi name flags Q v :
  (∀ r v', preflight_result v (c_str name) (persistent_dbi_flags flags) r v' → Q (Ok r) v') →
  wp (open_existing_user_dbi name flags) Q v.
Proof.
  intros HQ. unfold open_existing_user_dbi.
  apply wp_bind, wp_dbi_open_existing; [apply persistent_no_create|..].
  { intros rc dbi v' He. rewrite (error_neq rc MDBX_INCOMPATIBLE He) by (vm_compute; set_solver).
    apply wp_ret_bind. engine_error_case. }
  intros rc dbi v1 Ho He1 Hfl.
  destruct (open_spec_existing _ _ _ _ _ _ (persistent_no_create flags) Ho) as [_ Hrc].
  destruct ((rc =? MDBX_INCOMPATIBLE) && _) eqn:Eretry.
  - apply andb_true_iff in Eretry as [Erc%Z.eqb_eq _]. subst rc.
    destruct Hrc as [(? & _)|[(? & _)|(_ & d & Hd & Hm)]]; try done.
    apply wp_bind, wp_dbi_open_existing; [apply persistent_integer_no_create|..].
    { intros rc' dbi' v' He. engine_error_case. }
    intros rc' dbi' v2 Ho2 He2 Hfl2.
    destruct (open_spec_existing _ _ _ _ _ _ (persistent_integer_no_create flags) Ho2) as [_ Hrc2].
    assert (v_dbs v1 !! c_str name = Some d) as Hd1 by (destruct He1 as [_ ->]; done).
    apply (preflight_finish v _ (c_str name) (persistent_dbi_flags flags)); [by etrans| |intros r (H1 & H2); apply HQ; by split].
    rewrite Hd1 in Hrc2. rewrite Hd. destruct Hrc2 as [(? & ? & d' & [= <-] & ?)|[(? & ?)|(? & ?)]]; eauto 10.
    left. split_and!; [done..|]. exists d. split_and!; [done..|]. right. by apply Hfl2; [|apply persistent_integer_no_accede|].
  - apply wp_ret_bind.
    apply (preflight_finish v _ (c_str name) (persistent_dbi_flags flags)); [done| |intros r (H1 & H2); apply HQ; by split].
    destruct Hrc as [(? & ? & d & Hd & Hb)|[?|?]]; auto.
    left. split_and!; [done..|]. exists d. split_and!; [done..|]. left. by apply Hfl; [|apply persistent_none|].
Qed.

Lemma wp_read_existing_user_dbi_flags name Q v :
  (∀ actual v', v_reopen v v' → Q (Ok actual) v') → wp (read_existing_user_dbi_flags name) Q v.
Proof.
  intros HQ. apply wp_bind, wp_dbi_open_existing; [done|..].
  { intros rc dbi v' He. engine_error_case. }
  intros rc dbi v1 Ho He1 _.
  destruct (open_spec_existing v (c_str name) MDBX_DB_ACCEDE rc dbi v1 eq_refl Ho)
    as [_ [(-> & _ & d & Hd & Hb)|[(-> & _)|([-> | ->] & _)]]]; try (by apply wp_ret, HQ).
  apply wp_ret_bind, wp_bind. intros s Hs. left. subst v1.
  destruct (mdbx_dbi_flags s dbi) as [rc f] eqn:E.
  destruct (law_flags _ _ _ _ _ _ E (bound_table _ _ _ _ Hb)) as [He|[-> _]]; [engine_error_case|].
  apply wp_ret_bind, wp_ret. by apply HQ.
Qed.

(** The cache holds open handles. *)
Definition cache_ok (v : db_view) (cache : dbi_cache) : Prop :=
  map_Forall (fun n dbi => dbi ≠ 0 ∧ ∃ fl, bound v dbi (c_str n) fl) cache.

Definition dbi_mismatch (v : db_view) (e : BatchDbiFlags) : Prop :=
  ∃ d, v_dbs v !! c_str (bd_name e) = Some d ∧
    flags_match (persistent_dbi_flags (bd_flags e)) d = false.

Definition dbi_admitted (v : db_view) (e : BatchDbiFlags) : Prop :=
  ∀ d, v_dbs v !! c_str (bd_name e) = Some d → flags_admitted (persistent_dbi_flags (bd_flags e)) d.

Lemma cache_ok_ext v v' cache : v_ext v v' → cache_ok v cache → cache_ok v' cache.
Proof.
  intros He Hc n dbi Hn. destruct (Hc n dbi Hn) as (Hz & fl & Hb). split; [done|].
  exists fl. by eapply bound_ext.
Qed.

Lemma wp_preflight dbis cache outcome Q v :
  cache_ok v cache →
  (∀ v' o, v_reopen v v' → out_result o = Conflict → conflict_reason o = ExistingDbiFlagsMismatch →
     Exists (dbi_mismatch v) dbis → Q (Ok (inl o)) v') →
  (∀ v' cache', v_reopen v v' → cache_ok v' cache' → Forall (dbi_admitted v) dbis →
     Q (Ok (inr cache')) v') →
  wp (preflight_batch_user_dbis dbis cache outcome) Q v.
Proof.
  revert cache v. induction dbis as [|e dbis IH]; intros cache v Hc HI HQ; simpl.
  { by apply wp_ret, HQ. }
  apply wp_bind, wp_open_existing_user_dbi. intros r v1 (He1 & Hr). destruct r as [rc|dbi].
  - apply wp_bind, wp_read_existing_user_dbi_flags. intros actual v2 He2. apply wp_ret, HI.
    + by etrans.
    + done.
    + done.
    + left. exact Hr.
  - apply IH.
    + pose proof (cache_ok_ext _ _ _ (proj1 He1) Hc) as Hc1. destruct (Z.eqb_spec dbi 0) as [->|Hz]; [done|].
      apply map_Forall_insert_2; [|done]. destruct Hr as [[? _]|(_ & d & _ & Hb & _)]; [done|]. eauto.
    + intros v' o He Ho Hre Hex. apply HI; [by etrans|done..|]. right. eapply Exists_impl; [exact Hex|].
      intros e'. unfold dbi_mismatch. destruct He1 as [_ ->]. done.
    + intros v' cache' He Hc' Hall. apply HQ; [by etrans|done|]. constructor.
      * intros d Hd. destruct Hr as [[_ Hn]|(_ & d' & Hd' & _ & Hf)]; [congruence|]. by simplify_eq.
      * eapply Forall_impl; [exact Hall|]. intros e'. unfold dbi_admitted. destruct He1 as [_ ->]. done.
Qed.

(** *** Validation *)

Fixpoint validated (v : db_view) (l : list ChangeOp) (versioned_ops : list bool) (outcome : ApplyOutcome)
    : ApplyOutcome + list bool :=
  match l with
  | [] => inr versioned_ops
  | op :: l' =>
      let is_versioned := VersionedDbiStore.registered v (dbi_name op) in
      match versioned_conflict m_policy op is_versioned with
      | Some reason =>
          inl (conflict_on outcome reason (dbi_name op) (expected_dbi_flags outcome)
                 (incoming_dbi_flags outcome))
      | None => validated v l' (versioned_ops ++ [is_versioned]) outcome
      end
  end.

Lemma registered_ext v v' n :
  v_ext v v' → VersionedDbiStore.registered v' n = VersionedDbiStore.registered v n.
Proof. intros He. unfold VersionedDbiStore.registered. by rewrite (ext_recs _ _ _ He). Qed.

Lemma validated_ext v v' l acc outcome : v_ext v v' → validated v' l acc outcome = validated v l acc outcome.
Proof.
  intros He. revert acc. induction l as [|op l IH]; intros acc; [done|]. simpl.
  rewrite (registered_ext v v') by done. by destruct (versioned_conflict _ _ _).
Qed.

Lemma wp_validate l registry acc outcome Q v :
  VersionedDbiStore.registry_ok v registry →
  (∀ v', v_reopen v v' → Q (Ok (validated v l acc outcome)) v') →
  wp (validate_versioned_ops m_policy l registry acc outcome) Q v.
Proof.
  revert registry acc v. induction l as [|op l IH]; intros registry acc v Hr HQ; simpl.
  { by apply wp_ret, HQ. }
  apply wp_bind, VersionedDbiStore.wp_contains; [done|]. intros st' v1 He1 Hr1. simpl in HQ.
  destruct (versioned_conflict _ _ _); [by apply wp_ret, HQ|].
  apply IH; [done|]. intros v' He'. rewrite (validated_ext v v1) by apply He1. apply HQ. by etrans.
Qed.

Lemma validated_length v l acc outcome vs :
  validated v l acc outcome = inr vs →
  vs = acc ++ (VersionedDbiStore.registered v <$> (dbi_name <$> l)).
Proof.
  revert acc. induction l as [|op l IH]; intros acc; simpl; [intros [= <-]; by rewrite app_nil_r|].
  destruct (versioned_conflict _ _ _); [done|]. intros ->%IH. by rewrite <- app_assoc.
Qed.
End Rules.
