(* ===== verification/ApplyTheorems.v ===== *)
(** * Guarantees of the apply path

    What [ApplyEngine.apply_batch_ex] promises whatever the batch: the sequence rules, the
    order and the outcome of its checks, and that a batch is refused or accepted as a
    whole. *)
From S2P Require Import Prelude SyncCommon KeyCodec SyncProtocol Mdbx RefMdbx StoreBase ApplyEngine.
From S2P Require MetaStore AppliedStore IdentityIndexStore VersionedDbiStore ReceiverModeStore.
Open Scope Z_scope.

(** ** Writes that stay inside a set of tables *)

(** [v'] keeps the handles and the tables of [v], and the contents of every table outside
    [ns]; the library's own tables keep their flags. *)
Record v_touch (ns : list bytes) (v v' : db_view) : Prop := {
  to_env : v_env v' = v_env v;
  to_rw : v_rw v' = v_rw v;
  to_handles : v_handles v ⊆ v_handles v';
  to_table n : n ∉ ns → table v' n = table v n;
  to_dom n : is_Some (v_dbs v !! n) → is_Some (v_dbs v' !! n);
  to_flags n : is_reserved_dbi_name n = true → dv_flags (table v' n) = dv_flags (table v n);
}.

#[export] Instance v_touch_preorder ns : PreOrder (v_touch ns).
Proof.
  split; [by intros v; split|]. intros a b c [E1 R1 H1 T1 D1 F1] [E2 R2 H2 T2 D2 F2].
  split; [congruence| congruence| by etrans| |auto|]; intros n Hn.
  - by rewrite T2, T1.
  - by rewrite F2, F1.
Qed.

Lemma v_touch_mono ns ns' v v' : ns ⊆ ns' → v_touch ns v v' → v_touch ns' v v'.
Proof. intros Hns [E R H T D F]. split; auto. Qed.

Lemma v_frame_touch ns v v' : v_frame ns v v' → v_touch ns v v'.
Proof. intros [E R H F T D]. by split. Qed.

Lemma v_ext_touch ns v v' : v_ext v v' → v_touch ns v v'.
Proof. intros He. by apply v_frame_touch, v_ext_frame. Qed.

Lemma v_update_touch ns v n f : n ∈ ns → v_touch ns v (v_update v n f).
Proof. intros Hn. eapply v_frame_touch, v_only_frame, v_only_update. done. Qed.

Lemma touch_recs ns v v' n : v_touch ns v v' → n ∉ ns → recs v' n = recs v n.
Proof. intros Ht Hn. unfold recs. by rewrite (to_table _ _ _ Ht). Qed.

Lemma touch_sys ns v v' n : v_touch ns v v' → n ∉ ns → sys_table v n → sys_table v' n.
Proof. intros Ht Hn Hs. unfold sys_table. by rewrite (to_table _ _ _ Ht). Qed.

(** A handle stays bound to its table. *)
Lemma touch_bound_any ns v v' dbi n fl :
  v_touch ns v v' → bound v dbi n fl → ∃ fl', bound v' dbi n fl'.
Proof.
  intros [_ _ Hh _ Hd _] (Hb & d & Hn & _). destruct (Hd n) as [d' Hd']; [eauto|].
  exists (dv_flags d'). split; [by eapply lookup_weaken|eauto].
Qed.

Lemma touch_bound ns v v' dbi n fl :
  v_touch ns v v' → n ∉ ns → bound v dbi n fl → bound v' dbi n fl.
Proof.
  intros Ht Hn Hb. pose proof (touch_bound_any _ _ _ _ _ _ Ht Hb) as (fl' & Hh' & d' & Hd' & <-).
  split; [done|]. exists d'. split; [done|]. destruct Hb as (_ & d & Hd & <-).
  pose proof (to_table _ _ _ Ht n Hn) as E. unfold table in E. rewrite Hd, Hd' in E. simpl in E. congruence.
Qed.

Lemma touch_ready ns v v' st : v_touch ns v v' → store_table st ∉ ns → ready v st → ready v' st.
Proof.
  intros Ht Hn (Ho & Henv & Hb). split_and!; [done| |by eapply touch_bound].
  by rewrite (to_env _ _ _ Ht).
Qed.

Lemma touch_cache ns v v' cache : v_touch ns v v' → cache_ok v cache → cache_ok v' cache.
Proof.
  intros Ht Hc n dbi Hn. destruct (Hc n dbi Hn) as (Hz & fl & Hb). split; [done|].
  by eapply touch_bound_any.
Qed.

(** [mdbx_dbi_open] touches the opened table at most. *)
Lemma open_spec_touch v name flags rc dbi v' :
  is_reserved_dbi_name name = false → open_spec v name flags rc dbi v' →
  v_touch [name] v v' ∧ (rc = MDBX_SUCCESS → dbi ≠ 0 ∧ ∃ fl, bound v' dbi name fl).
Proof.
  intros Hu Ho.
  assert (∀ d, dbi ≠ 0 → (∀ n, v_handles v !! dbi = Some n → n = name) →
    v_touch [name] v (v_opened v name d dbi) ∧
    (rc = MDBX_SUCCESS → dbi ≠ 0 ∧ ∃ fl, bound (v_opened v name d dbi) dbi name fl)) as Hop.
  { intros d Hz Hf. split; [|intros _; split; [done|]; eexists; apply opened_bound]. split; try done; simpl.
    - apply (opened_ext v name dbi Hf).
    - intros n Hn. unfold table. simpl. rewrite lookup_insert_ne; [done|]. intros ->. apply Hn. by left.
    - intros n Hn. destruct (decide (n = name)) as [->|]; [rewrite lookup_insert_eq; eauto|].
      by rewrite lookup_insert_ne.
    - intros n Hn. unfold table. simpl. rewrite lookup_insert_ne; [done|]. intros ->. congruence. }
  unfold open_spec in Ho. destruct (v_dbs v !! name) as [d|].
  - destruct Ho as [(_ & Hz & Hf & ->)|[(_ & Hrc & ->)|[(_ & _ & _ & _ & _ & Hz & Hf & ->)|(_ & _ & -> & ->)]]];
      auto; split; try done; by destruct Hrc as [-> | ->].
  - destruct (has_flag flags MDBX_CREATE); [|by destruct Ho as [-> ->]].
    destruct (v_rw v); [|by destruct Ho as [-> ->]].
    destruct Ho as [(_ & Hz & Hf & ->)|(_ & -> & ->)]; [auto|done].
Qed.

(** Reserved names are recognised before and after the cut at a zero byte. *)
Lemma reserved_prefix_of name : is_reserved_dbi_name name = true ↔ ∃ r, name = reserved_prefix ++ r.
Proof.
  unfold is_reserved_dbi_name. rewrite andb_true_iff, !bool_decide_eq_true. split.
  - intros [_ E]. exists (drop (length reserved_prefix) name). rewrite <- E at 1. by rewrite take_drop.
  - intros [r ->]. rewrite length_app, take_app_length. split; [lia|done].
Qed.

Lemma c_str_prefix s : ∃ r, s = c_str s ++ r.
Proof.
  induction s as [|b s [r IH]]; [by exists []|]. simpl. destruct (u8 b =? 0); [by eexists|].
  exists r. simpl. by rewrite <- IH.
Qed.

Lemma reserved_c_str name : is_reserved_dbi_name name = false → is_reserved_dbi_name (c_str name) = false.
Proof.
  intros Hn. destruct (is_reserved_dbi_name (c_str name)) eqn:E; [|done].
  apply reserved_prefix_of in E as [r E]. destruct (c_str_prefix name) as [r' E'].
  rewrite E, <- app_assoc in E'. rewrite <- Hn. symmetry. apply reserved_prefix_of. eauto.
Qed.

Section OneOp.
Context {X : Mdbx} {L : MdbxLaws X}.

(** Postcondition of the application of operations on any kind of table: success with a
    usable cache, or an exception, and only the tables [ns] are touched. *)
Definition touch_post (ns : list bytes) (v : db_view) (r : result dbi_cache) (v' : db_view) : Prop :=
  v_touch ns v v' ∧ ∀ cache, r = Ok cache → cache_ok v' cache.

(** What a call ensures on return under an assumption about the state it started from. *)
Lemma wp_assume {A} (m : M A) (P : Prop) (Q : result A → db_view → Prop) v :
  (P → wp m Q v) → wp m (fun r v' => ∀ a, r = Ok a → P → Q r v') v.
Proof.
  intros H s Hs. destruct (m s) as [r s'] eqn:E. left. intros a -> HP. specialize (H HP s Hs). rewrite E in H.
  by destruct H as [|(? & ? & [=] & _)].
Qed.

Lemma wp_check_any {A} rc context (f : unit → M A) (Q : result A → db_view → Prop) v :
  (∀ e, Q (Throw e) v) → (rc = MDBX_SUCCESS → wp (f tt) Q v) → wp (check_mdbx rc context ≫= f) Q v.
Proof.
  intros He HQ. unfold check_mdbx. destruct (Z.eqb_spec rc MDBX_SUCCESS) as [Hrc|]; simpl.
  - apply wp_ret_bind. auto.
  - by apply wp_bind, wp_fail.
Qed.

Lemma wp_dbi_open_any {A} name flags (f : Z * Z → M A) (Q : result A → db_view → Prop) v :
  is_reserved_dbi_name name = false →
  (∀ rc dbi v', engine_error rc → wp (f (rc, dbi)) Q v') →
  (∀ rc dbi v', v_touch [name] v v' →
     (rc = MDBX_SUCCESS → dbi ≠ 0 ∧ ∃ fl, bound v' dbi name fl) → wp (f (rc, dbi)) Q v') →
  wp (dbi_open name flags ≫= f) Q v.
Proof.
  intros Hu He HQ. apply wp_bind. intros s Hs. unfold dbi_open.
  destruct (mdbx_dbi_open s name flags) as [[rc dbi] s'] eqn:E. left. subst v.
  destruct (law_open _ _ _ _ _ _ E) as [|[Ht Hb]%open_spec_touch]; [auto| |done]. by apply HQ.
Qed.

(** The handle for an operation. *)
Lemma wp_resolve name flags cache Q v :
  is_reserved_dbi_name name = false → cache_ok v cache →
  (∀ e v', v_touch [c_str name] v v' → Q (Throw e) v') →
  (∀ dbi cache' v', v_touch [c_str name] v v' → cache_ok v' cache' →
     (∃ fl, bound v' dbi (c_str name) fl) → Q (Ok (dbi, cache')) v') →
  wp (resolve_user_dbi name flags cache) Q v.
Proof.
  intros Hu%reserved_c_str Hc HE HQ. unfold resolve_user_dbi. case_match eqn:Ec.
  { apply wp_ret. destruct (cache !! name) as [dbi|] eqn:E; [|done]. apply HQ; [done..|]. by apply (Hc _ _ E). }
  assert (∀ rc dbi v1, v_touch [c_str name] v v1 →
    (rc = MDBX_SUCCESS → dbi ≠ 0 ∧ ∃ fl, bound v1 dbi (c_str name) fl) →
    wp (_ ← check_mdbx rc ("SyncEngine: failed to open user DBI '" +:+ string_of_bytes name +:+ "'");
        mret (dbi, <[name := dbi]> cache)) Q v1) as Hfin.
  { intros rc dbi v1 Ht Hb. apply wp_check_any; [auto|]. intros [Hz Hfl]%Hb. apply wp_ret, HQ; [done| |done].
    apply map_Forall_insert_2; [done|]. by eapply touch_cache. }
  apply wp_dbi_open_any; [done|..].
  { intros rc dbi v' He. rewrite (error_neq rc MDBX_INCOMPATIBLE He) by (vm_compute; set_solver).
    apply wp_ret_bind. engine_error_case. }
  intros rc dbi v1 Ht Hb. case_match; [|by apply wp_ret_bind, Hfin].
  apply wp_dbi_open_any; [done|..].
  { intros rc' dbi' v' He. engine_error_case. }
  intros rc' dbi' v2 Ht2 Hb2. apply Hfin; [by etrans|done].
Qed.

Lemma wp_apply_one_op_any op cache v :
  is_reserved_dbi_name (dbi_name op) = false → cache_ok v cache → v_rw v = true →
  wp (apply_one_op op cache) (touch_post [c_str (dbi_name op)] v) v.
Proof.
  intros Hu Hc Hrw. set (n := c_str (dbi_name op)).
  apply wp_bind, wp_resolve; [done..|by intros|].
  intros dbi cache1 v1 Ht Hc1 [fl Hb%bound_table]. fold n in Ht, Hb.
  assert (v_rw v1 = true) as Hrw1 by by rewrite (to_rw _ _ _ Ht).
  assert (∀ f, v_touch [n] v (v_update v1 n f)) as Hup.
  { intros f. etrans; [exact Ht|]. apply v_update_touch. by left. }
  assert (∀ f, cache_ok (v_update v1 n f) cache1) as Hcu.
  { intros f. eapply touch_cache, Hc1. apply (v_update_touch [n]). by left. }
  assert (∀ w c, cache_ok w c → cache_ok w (delete (dbi_name op) c)) as Hdel.
  { intros w c Hw. by apply map_Forall_delete. }
  destruct (op_type op).
  - apply wp_assoc, wp_bind. intros s Hs. unfold put.
    destruct (mdbx_put s dbi (storage_key op) (value op) MDBX_UPSERT) as [rc s'] eqn:E. left. subst v1.
    destruct (law_put_frame _ _ _ _ _ _ _ _ _ E Hb Hrw1) as [He|(_ & f & ->)]; [engine_error_case|].
    apply wp_check_any; [intros e; split; [apply Hup|done]|]. intros _. apply wp_ret. split; [done|]. by intros ? [= <-].
  - apply wp_bind. intros s Hs. unfold del.
    destruct (mdbx_del s dbi (storage_key op)) as [rc s'] eqn:E. left. subst v1.
    destruct (law_del_frame _ _ _ _ _ _ _ E Hb Hrw1) as [He|(Hrc & f & ->)].
    + rewrite (error_neq rc MDBX_SUCCESS He), (error_neq rc MDBX_NOTFOUND He) by (vm_compute; set_solver).
      simpl. engine_error_case.
    + destruct Hrc as [-> | ->]; apply wp_ret_bind, wp_ret; (split; [done|]; intros ? [= <-]; auto).
  - apply wp_bind. intros s Hs. unfold drop_table.
    destruct (mdbx_drop s dbi) as [rc s'] eqn:E. left. subst v1.
    destruct (law_drop _ _ _ _ _ _ E Hb Hrw1) as [He|(-> & ->)]; [engine_error_case|].
    apply wp_ret_bind, wp_ret. split; [done|]. intros ? [= <-]. auto.
Qed.
End OneOp.

(** ** The state a receiver starts from *)

Definition system_names : list bytes :=
  [MetaStore.meta_name; AppliedStore.applied_name; VersionedDbiStore.versioned_name;
   ReceiverModeStore.receiver_mode_name; IdentityIndexStore.identity_name].

(** A writable transaction of the engine's environment whose system tables, where they
    exist, hold what the stores write. *)
Record engine_ok (env_handle : Z) (v : db_view) : Prop := {
  ok_env : env_handle = v_env v;
  ok_rw : v_rw v = true;
  ok_sys n : n ∈ system_names → sys_table v n;
  ok_meta : MetaStore.meta_ok (MetaStore.meta_of (recs v MetaStore.meta_name));
  ok_mode id x : recs v ReceiverModeStore.receiver_mode_name !! id = Some x →
    ∃ s, ReceiverModeStore.state_ok s ∧ x = ReceiverModeStore.state_bytes s;
}.

Definition local_node (v : db_view) : NodeId :=
  default make_zero_node (recs v MetaStore.meta_name !! [MetaStore.key_node_id]).
Definition local_db (v : db_view) : DbId :=
  MetaStore.a_db_uuid (MetaStore.meta_of (recs v MetaStore.meta_name)).
Definition last_seq (v : db_view) (origin : NodeId) : Z :=
  AppliedStore.applied_seq (recs v AppliedStore.applied_name) origin.

(** Selective delivery was claimed for the database. *)
Definition selective_claimed (v : db_view) : bool :=
  negb (is_zero_sync_id (local_db v)) &&
  match recs v ReceiverModeStore.receiver_mode_name !! local_db v with
  | Some x =>
      match ReceiverModeStore.decode x with
      | Ok s => match ReceiverModeStore.mode s with ReceiverModeStore.Selective => true | _ => false end
      | Throw _ => false
      end
  | None => false
  end.

Lemma engine_ok_ext env_handle v v' : v_ext v v' → engine_ok env_handle v → engine_ok env_handle v'.
Proof.
  intros He [Henv Hrw Hs Hm Hc]. split.
  - by rewrite (ext_env _ _ He).
  - by rewrite (ext_rw _ _ He).
  - intros n Hn. unfold sys_table. rewrite (ext_table _ _ He). by apply Hs.
  - by rewrite (ext_recs _ _ _ He).
  - rewrite (ext_recs _ _ _ He). exact Hc.
Qed.

Lemma local_db_ok v : node_ok (local_db v).
Proof.
  unfold local_db, MetaStore.meta_of, MetaStore.fixed, MetaStore.fill_node, node_ok. cbn [MetaStore.a_db_uuid].
  rewrite length_app, length_drop.
  change (length make_zero_node) with 16%nat.
  destruct (_ !! [MetaStore.key_db_uuid]) as [x|]; [rewrite length_take; lia|done].
Qed.

(** The tables that are not the library's own are the same. *)
Definition same_user (v v' : db_view) : Prop :=
  ∀ n, is_reserved_dbi_name n = false → v_dbs v' !! n = v_dbs v !! n.

#[export] Instance same_user_preorder : PreOrder same_user.
Proof. split; [by intros v n|]. intros a b c H1 H2 n Hn. by rewrite H2, H1. Qed.

Lemma same_user_but name v v' :
  is_reserved_dbi_name name = true → (∀ n, n ≠ name → v_dbs v' !! n = v_dbs v !! n) → same_user v v'.
Proof. intros Hr Hd n Hn. apply Hd. intros ->. congruence. Qed.

Section Phases.
Context {X : Mdbx} {L : MdbxLaws X} (env_handle : Z) (m_policy : ConflictPolicy).

(** Opening a system store touches no record. *)
Lemma opened_new v name st' v' :
  c_str name = name → opened v (new_store env_handle name) st' v' →
  v_ext v v' ∧ ready v' st' ∧ store_table st' = name ∧ ∀ n, n ≠ name → v_dbs v' !! n = v_dbs v !! n.
Proof.
  intros E (He & Hr & Hn & Hd).
  assert (store_table (new_store env_handle name) = name) as En by exact E. rewrite En in *.
  by split_and!.
Qed.

Lemma wp_claim_receiver_mode Q v :
  engine_ok env_handle v →
  (∀ v', v_ext v v' → selective_claimed v = true → Q (Ok false) v') →
  (∀ v', v_frame [ReceiverModeStore.receiver_mode_name] v v' → same_user v v' → engine_ok env_handle v' →
     selective_claimed v = false → Q (Ok true) v') →
  wp (claim_receiver_mode env_handle (local_db v)) Q v.
Proof.
  intros Hok HF HT. pose proof (local_db_ok v) as Hid. unfold claim_receiver_mode, selective_claimed in *.
  destruct (is_zero_sync_id (local_db v)) eqn:Ez; simpl in *; [by apply wp_ret, HT|].
  assert (local_db v ≠ make_zero_node) as Hnz.
  { intros E. apply is_zero_sync_id_spec in E; [congruence|done]. }
  pose proof (ok_mode _ _ Hok) as Hall. pose proof (Hall (local_db v)) as Hmode.
  apply wp_bind, wp_store_open; [done|apply (ok_env _ _ Hok)| |left; apply (ok_rw _ _ Hok)|].
  { apply (ok_sys _ _ Hok). by do 3 right; left. }
  intros st v1 (He & Hr & Hn & Hd)%opened_new; [|done].
  assert (ReceiverModeStore.mode_table st v1 = recs v ReceiverModeStore.receiver_mode_name) as Em.
  { unfold ReceiverModeStore.mode_table. rewrite Hn. by apply ext_recs. }
  apply same_user_but in Hd; [|done].
  apply wp_enter; [done|].
  destruct (recs v ReceiverModeStore.receiver_mode_name !! local_db v) as [x|] eqn:Ex.
  - destruct (Hmode x eq_refl) as (s & Hs & ->). rewrite ReceiverModeStore.decode_state_bytes in * by done.
    apply wp_bind, (ReceiverModeStore.wp_get_state _ _ Hid Hnz (Some s)); [done|by rewrite Em|by intros ? [= <-]|].
    apply wp_ret. destruct (ReceiverModeStore.mode s).
    + apply HT; [by apply v_ext_frame|done|by eapply engine_ok_ext|done].
    + by apply HF.
  - apply wp_bind, (ReceiverModeStore.wp_get_state _ _ Hid Hnz None); [done|by rewrite Em|done|].
    apply wp_bind, (ReceiverModeStore.wp_put_state _ _ Hid Hnz); [done| |by apply (ReceiverModeStore.first_claim_ok ReceiverModeStore.ClaimFull)|].
    { by rewrite (ext_rw _ _ He), (ok_rw _ _ Hok). }
    intros v2 Hv2 Er. rewrite Em in Er. unfold ReceiverModeStore.mode_table in Er. rewrite Hn in Hv2, Er.
    apply wp_ret, HT; [| | |done].
    + etrans; [by apply v_ext_frame|]. by apply v_only_self.
    + etrans; [exact Hd|]. apply (same_user_but ReceiverModeStore.receiver_mode_name); [done|].
      intros n. by apply only_dbs.
    + assert (v_frame [ReceiverModeStore.receiver_mode_name] v v2) as Hf
        by (etrans; [by apply v_ext_frame|by apply v_only_self]).
      destruct Hok as [Henv Hrw Hsys Hmeta _]. split.
      * by rewrite (fr_env _ _ _ Hf).
      * by rewrite (fr_rw _ _ _ Hf).
      * intros n Hin. eapply sys_frame; [exact Hf|]. by apply Hsys.
      * by rewrite (recs_frame _ _ _ _ Hf) by set_solver.
      * rewrite Er. intros id y [[<- <-]|[_ Hy]]%lookup_insert_Some; [|by eapply Hall].
        eexists. split; [by apply (ReceiverModeStore.first_claim_ok ReceiverModeStore.ClaimFull)|done].
Qed.

(** The outcome so far, once the sequence number was read. *)
Definition reached (v : db_view) (batch : ChangeBatch) : ApplyOutcome :=
  set_result (make_apply_outcome Applied batch 0) Applied NoConflict (last_seq v (origin_node_id batch)).

(** The checks that only read, in the order of the code: the outcome that stops the batch,
    or the registered operations and the tables to open. *)
Definition verdict (v : db_view) (batch : ChangeBatch) : ApplyOutcome + list bool * list BatchDbiFlags :=
  let last := last_seq v (origin_node_id batch) in
  if compare_node_id (origin_node_id batch) (local_node v) =? 0 then
    inl (set_result (make_apply_outcome Applied batch 0) Skipped NoConflict 0)
  else if seq_no batch <=? last then inl (set_result (reached v batch) Skipped NoConflict last)
  else if negb (seq_no batch =? (last + 1) mod 2 ^ 64) then
    inl (set_result (reached v batch) Conflict SequenceGap last)
  else
    match validated m_policy v (ops batch) [] (reached v batch) with
    | inl conflict => inl conflict
    | inr versioned_ops =>
        match collect_batch_dbi_flags batch (reached v batch) with
        | inl conflict => inl conflict
        | inr batch_dbis => inr (versioned_ops, batch_dbis)
        end
    end.

(** The rest of [apply_batch_ex], from the point where it writes. *)
Definition commit_phase (batch : ChangeBatch) (versioned_ops : list bool) (cache : dbi_cache)
    (applied : store) (outcome : ApplyOutcome) : M ApplyOutcome :=
  identity_index ← (if bool_decide (true ∈ versioned_ops)
                    then IdentityIndexStore.open (new_store env_handle IdentityIndexStore.identity_name)
                    else mret (new_store env_handle IdentityIndexStore.identity_name));
  _ ← apply_ops (zip (ops batch) versioned_ops) (origin_node_id batch) (seq_no batch) cache identity_index;
  _ ← AppliedStore.set_last_applied_seq applied (origin_node_id batch) (seq_no batch);
  mret (set_result outcome Applied NoConflict (seq_no batch)).

Definition applied_ready (v : db_view) (applied : store) : Prop :=
  ready v applied ∧ store_table applied = AppliedStore.applied_name.

Lemma wp_apply_phases batch Q v :
  engine_ok env_handle v →
  (∀ o v', verdict v batch = inl o → v_ext v v' → Q (Ok o) v') →
  (∀ vs dbis, verdict v batch = inr (vs, dbis) →
     (∀ o v', v_ext v v' → out_result o = Conflict → conflict_reason o = ExistingDbiFlagsMismatch →
        Exists (fun e => dbi_mismatch v e ∨ is_reserved_dbi_name (c_str (bd_name e)) = true) dbis →
        Q (Ok o) v') ∧
     (∀ v', v_ext v v' → selective_claimed v = true →
        Q (Ok (set_result (reached v batch) Conflict ReceiverModeConflict
                 (last_seq v (origin_node_id batch)))) v') ∧
     (∀ v' cache applied, v_frame [ReceiverModeStore.receiver_mode_name] v v' → same_user v v' →
        engine_ok env_handle v' → selective_claimed v = false → cache_ok v' cache → applied_ready v' applied →
        Forall (fun e => is_reserved_dbi_name (c_str (bd_name e)) = false → dbi_admitted v e) dbis →
        wp (commit_phase batch vs cache applied (reached v batch)) Q v')) →
  wp (apply_batch_ex env_handle m_policy batch) Q v.
Proof.
  intros Hok HI HG. unfold apply_batch_ex.
  apply wp_bind, wp_checked_txn; [apply Hok|].
  apply wp_bind, wp_store_open; [done|apply Hok|apply (ok_sys _ _ Hok); by left|left; apply Hok|].
  intros meta v1 (He1 & Hr1 & Hn1 & Hd1)%opened_new; [|done].
  pose proof (engine_ok_ext _ _ _ He1 Hok) as Hok1.
  apply wp_bind, wp_store_create; [done|apply Hok1|apply (ok_sys _ _ Hok1); by right; left|apply Hok1|].
  intros applied v2 (He2 & Hr2 & Hn2 & Hd2)%opened_new; [|done].
  apply same_user_but in Hd1, Hd2; [|done..]. assert (same_user v v2) as Hsu by by etrans.
  assert (v_ext v v2) as He by by etrans. pose proof (engine_ok_ext _ _ _ He Hok) as Hok2.
  apply wp_bind, wp_bind, MetaStore.wp_try_get_node_id; [exact (ready_ext _ _ _ He2 Hr1)|rewrite Hn1; apply Hok2|].
  rewrite Hn1, (ext_recs _ _ _ He). apply wp_ret. fold (local_node v). unfold verdict in *.
  destruct (compare_node_id _ _ =? 0); [by apply wp_ret, HI|].
  apply wp_bind, AppliedStore.wp_last_applied_seq; [done|]. rewrite Hn2, (ext_recs _ _ _ He).
  fold (last_seq v (origin_node_id batch)). fold (reached v batch).
  destruct (_ <=? _); [by apply wp_ret, HI|]. destruct (negb _); [by apply wp_ret, HI|].
  apply wp_bind, wp_validate.
  { split; [|done]. split_and!; [apply Hok2|apply (ok_sys _ _ Hok2); by do 2 right; left|done]. }
  intros v3 [He3 Hd3]. rewrite (validated_ext _ v v2) by done.
  destruct (validated _ _ _ _ _) as [o|vs]; [apply wp_ret, HI; [done|by etrans]|].
  destruct (collect_batch_dbi_flags _ _) as [o|dbis]; [apply wp_ret, HI; [done|by etrans]|].
  destruct (HG vs dbis eq_refl) as (HM & HS & HC). clear HI HG.
  assert (v_ext v v3) as He03 by by etrans.
  apply wp_bind, wp_preflight; [done| |].
  { intros v4 o [He4 _] Ho Hre Hex. apply wp_ret, HM; [by etrans|done..|].
    eapply Exists_impl; [exact Hex|]. intros e (d & Hd & Hm).
    destruct (is_reserved_dbi_name (c_str (bd_name e))) eqn:Er; [by right|left]. exists d. split; [|done].
    by rewrite <- Hd, Hd3, Hsu. }
  intros v4 cache [He4 Hd4] Hc Hadm. assert (v_ext v v4) as He04 by by etrans.
  assert (v_ext v2 v4) as He24 by by etrans.
  apply wp_bind, wp_bind, MetaStore.wp_read_fixed; [exact (ready_ext _ _ _ He24 (ready_ext _ _ _ He2 Hr1))|].
  rewrite Hn1, (ext_recs _ _ _ He04). apply wp_ret.
  change (MetaStore.fill_node _) with (local_db v).
  assert (local_db v = local_db v4) as Edb by (unfold local_db; by rewrite (ext_recs _ _ _ He04)).
  assert (selective_claimed v = selective_claimed v4) as Esel.
  { unfold selective_claimed. by rewrite Edb, (ext_recs _ _ _ He04). }
  rewrite Edb. apply wp_bind, wp_claim_receiver_mode; [by eapply engine_ok_ext| |]; rewrite <- Esel.
  - intros v5 He5 Hsel. apply wp_ret, HS; [by etrans|done].
  - intros v5 Hf5 Hsu5 Hok5 Hsel. apply HC; [| |done|done|by eapply touch_cache, Hc; apply v_frame_touch| |].
    + etrans; [by apply v_ext_frame|done].
    + intros n Hn. by rewrite Hsu5, Hd4, Hd3, Hsu.
    + split; [|done]. eapply ready_frame; [exact Hf5|]. exact (ready_ext _ _ _ He24 Hr2).
    + eapply Forall_impl; [exact Hadm|]. intros e He' Hu d Hd. apply He'. by rewrite Hd3, Hsu.
Qed.

(** *** What the checks decide *)

Lemma validated_conflict v l acc o o' :
  validated m_policy v l acc o = inl o' → out_result o' = Conflict ∧ conflict_reason o' ≠ NoConflict.
Proof.
  revert acc. induction l as [|op l IH]; intros acc; simpl; [done|].
  destruct (versioned_conflict _ _ _) as [reason|] eqn:E; [|by apply IH].
  intros [= <-]. split; [done|]. simpl. unfold versioned_conflict in E. repeat case_match; naive_solver.
Qed.

Lemma collect_conflict l dbis o o' :
  collect_ops_dbi_flags l dbis o = inl o' → out_result o' = Conflict ∧ conflict_reason o' ≠ NoConflict.
Proof.
  revert dbis. induction l as [|op l IH]; intros dbis; simpl; [done|].
  repeat case_match; eauto; by intros [= <-].
Qed.

Lemma collect_user l dbis o dbis' :
  collect_ops_dbi_flags l dbis o = inr dbis' →
  Forall (fun op => is_reserved_dbi_name (dbi_name op) = false) l.
Proof.
  revert dbis. induction l as [|op l IH]; intros dbis; simpl; [by constructor|].
  destruct (is_reserved_dbi_name (dbi_name op)) eqn:E; [done|].
  repeat case_match; intros ?; simplify_eq; constructor; eauto.
Qed.

(** The entry of an operation. *)
Definition dbi_entry (op : ChangeOp) : BatchDbiFlags :=
  {| bd_name := dbi_name op; bd_flags := persistent_dbi_flags (dbi_flags op) |}.

Lemma find_dbi_name n dbis e : find_dbi n dbis = Some e → bd_name e = n ∧ e ∈ dbis.
Proof.
  induction dbis as [|d dbis IH]; simpl; [done|]. case_bool_decide.
  - intros [= <-]. split; [done|by left].
  - intros [? ?]%IH. split; [done|by right].
Qed.

Lemma find_dbi_app n dbis d :
  find_dbi n (dbis ++ [d]) =
  match find_dbi n dbis with Some e => Some e | None => if bool_decide (bd_name d = n) then Some d else None end.
Proof. induction dbis as [|e dbis IH]; simpl; [done|]. by destruct (bool_decide (bd_name e = n)). Qed.

(** The collected entries are those of the operations, one for a name. *)
Lemma collect_sound l dbis o dbis' :
  collect_ops_dbi_flags l dbis o = inr dbis' →
  (∀ n e, find_dbi n dbis = Some e → find_dbi n dbis' = Some e) ∧
  ∀ op, op ∈ l → find_dbi (dbi_name op) dbis' = Some (dbi_entry op).
Proof.
  revert dbis. induction l as [|op l IH]; intros dbis; simpl; [intros [= <-]; split; [done|set_solver]|].
  destruct (is_reserved_dbi_name _); [done|]. destruct (find_dbi (dbi_name op) dbis) as [e|] eqn:E.
  - destruct (Z.eqb_spec (bd_flags e) (persistent_dbi_flags (dbi_flags op))) as [Ef|]; [|done]. simpl.
    intros [H1 H2]%IH. split; [done|]. intros op' [Eo|Hop']%elem_of_cons; [|by apply H2]. rewrite Eo.
    rewrite (H1 _ _ E). destruct (find_dbi_name _ _ _ E) as [En _]. unfold dbi_entry. rewrite <- En, <- Ef. by destruct e.
  - intros [H1 H2]%IH. split.
    + intros n e Hn. apply H1. by rewrite find_dbi_app, Hn.
    + intros op' [->|Hop']%elem_of_cons; [|by apply H2]. apply H1. rewrite find_dbi_app, E. simpl. by rewrite bool_decide_true.
Qed.

Lemma collect_entries l dbis o dbis' (P : BatchDbiFlags → Prop) :
  collect_ops_dbi_flags l dbis o = inr dbis' → Forall P dbis →
  (∀ op, op ∈ l → P (dbi_entry op)) → Forall P dbis'.
Proof.
  revert dbis. induction l as [|op l IH]; intros dbis; simpl; [by intros [= <-]|].
  intros Hc Hd Hl. assert (∀ op, op ∈ l → P (dbi_entry op)) as Hl'.
  { intros op' Hop'. apply Hl. by right. }
  repeat case_match; simplify_eq; [by eapply IH|]. eapply IH; [exact Hc| |done].
  apply Forall_app. split; [done|]. constructor; [|done]. apply Hl. by left.
Qed.

(** An inconsistent batch is refused with two operations that disagree, a reserved name
    with the operation that has it. *)
Lemma collect_refused l dbis o o' :
  collect_ops_dbi_flags l dbis o = inl o' →
  conflict_reason o' = ReservedDbiName ∧ (∃ op, op ∈ l ∧ is_reserved_dbi_name (dbi_name op) = true) ∨
  conflict_reason o' = InconsistentBatchDbiFlags ∧
    ∃ op e, op ∈ l ∧ dbi_name op = bd_name e ∧ persistent_dbi_flags (dbi_flags op) ≠ bd_flags e ∧
      (e ∈ dbis ∨ ∃ op', op' ∈ l ∧ e = dbi_entry op').
Proof.
  revert dbis. induction l as [|op l IH]; intros dbis; simpl; [done|].
  destruct (is_reserved_dbi_name (dbi_name op)) eqn:Er.
  { intros [= <-]. left. split; [done|]. exists op. split; [by left|done]. }
  assert (∀ dbis1, (∀ e, e ∈ dbis1 → e ∈ dbis ∨ e = dbi_entry op) → collect_ops_dbi_flags l dbis1 o = inl o' → conflict_reason o' = ReservedDbiName ∧ (∃ op', op' ∈ op :: l ∧ is_reserved_dbi_name (dbi_name op') = true) ∨
    conflict_reason o' = InconsistentBatchDbiFlags ∧
    ∃ op' e, op' ∈ op :: l ∧ dbi_name op' = bd_name e ∧ persistent_dbi_flags (dbi_flags op') ≠ bd_flags e ∧
      (e ∈ dbis ∨ ∃ op'', op'' ∈ op :: l ∧ e = dbi_entry op'')) as Hrec.
  { intros dbis1 Hsub [(Hr & op' & Hop' & Hn)|(Hr & op' & e & Hop' & Hn & Hf & He)]%IH; [left|right]; (split; [done|]).
    - exists op'. split; [by right|done].
    - exists op', e. split_and!; [by right|done..|]. destruct He as [[?| ->]%Hsub|(op'' & ? & ->)]; [by left|..]; right.
      + exists op. split; [by left|done].
      + exists op''. split; [by right|done]. }
  destruct (find_dbi (dbi_name op) dbis) as [e|] eqn:E.
  - destruct (Z.eqb_spec (bd_flags e) (persistent_dbi_flags (dbi_flags op))); simpl; [apply Hrec; by left|].
    intros [= <-]. right. split; [done|]. apply find_dbi_name in E as [En He].
    exists op, e. split_and!; [by left|done|done|by left].
  - apply Hrec. intros e [?| ->%list_elem_of_singleton]%elem_of_app; [by left|by right].
Qed.

Lemma validated_refused v l acc o o' :
  validated m_policy v l acc o = inl o' →
  ∃ op, op ∈ l ∧ versioned_conflict m_policy op (VersionedDbiStore.registered v (dbi_name op)) = Some (conflict_reason o').
Proof.
  revert acc. induction l as [|op l IH]; intros acc; simpl; [done|].
  destruct (versioned_conflict _ _ _) as [reason|] eqn:E.
  - intros [= <-]. exists op. split; [by left|done].
  - intros (op' & ? & ?)%IH. exists op'. split; [by right|done].
Qed.

Lemma validated_ops v l acc o vs :
  validated m_policy v l acc o = inr vs →
  Forall (fun op => versioned_conflict m_policy op (VersionedDbiStore.registered v (dbi_name op)) = None) l.
Proof.
  revert acc. induction l as [|op l IH]; intros acc; simpl; [by constructor|].
  destruct (versioned_conflict _ _ _) eqn:E; [done|]. intros ?%IH. by constructor.
Qed.

(** The checks on the sequence number, on each operation by itself and on the delivery
    mode of the receiver. *)
Definition acceptable (v : db_view) (batch : ChangeBatch) : Prop :=
  compare_node_id (origin_node_id batch) (local_node v) ≠ 0 ∧
  seq_no batch = last_seq v (origin_node_id batch) + 1 ∧
  Forall (fun op => is_reserved_dbi_name (dbi_name op) = false ∧
    versioned_conflict m_policy op (VersionedDbiStore.registered v (dbi_name op)) = None) (ops batch) ∧
  selective_claimed v = false.

(** The operations on a table agree on its flags. *)
Definition flags_agree (l : list ChangeOp) : Prop :=
  ∀ op op', op ∈ l → op' ∈ l → dbi_name op = dbi_name op' →
    persistent_dbi_flags (dbi_flags op) = persistent_dbi_flags (dbi_flags op').

(** The tables that exist admit the flags of the operations. *)
Definition tables_admit (v : db_view) (l : list ChangeOp) : Prop :=
  ∀ op d, op ∈ l → v_dbs v !! c_str (dbi_name op) = Some d →
    flags_admitted (persistent_dbi_flags (dbi_flags op)) d.

(** A batch that passes every check. *)
Definition passes_checks (v : db_view) (batch : ChangeBatch) : Prop :=
  acceptable v batch ∧ flags_agree (ops batch) ∧ tables_admit v (ops batch).

(** What is true of a batch that is not applied, by the result and its reason. *)
Definition refusal (v : db_view) (batch : ChangeBatch) (o : ApplyOutcome) : Prop :=
  match out_result o, conflict_reason o with
  | Applied, _ | Conflict, NoConflict => False
  | Skipped, _ =>
      compare_node_id (origin_node_id batch) (local_node v) = 0 ∨
      seq_no batch ≤ last_seq v (origin_node_id batch)
  | Conflict, SequenceGap => last_seq v (origin_node_id batch) + 1 < seq_no batch
  | Conflict, ReservedDbiName => ∃ op, op ∈ ops batch ∧ is_reserved_dbi_name (dbi_name op) = true
  | Conflict, InconsistentBatchDbiFlags => ¬ flags_agree (ops batch)
  | Conflict, ExistingDbiFlagsMismatch =>
      ∃ op d, op ∈ ops batch ∧ v_dbs v !! c_str (dbi_name op) = Some d ∧
        flags_match (persistent_dbi_flags (dbi_flags op)) d = false
  | Conflict, ReceiverModeConflict => selective_claimed v = true
  | Conflict, reason =>
      ∃ op, op ∈ ops batch ∧
        versioned_conflict m_policy op (VersionedDbiStore.registered v (dbi_name op)) = Some reason
  end.

Lemma collect_agree l o dbis : collect_ops_dbi_flags l [] o = inr dbis → flags_agree l.
Proof.
  intros [_ Hf]%collect_sound op op' Hop Hop' En. pose proof (Hf op Hop) as E1. pose proof (Hf op' Hop') as E2.
  rewrite En, E2 in E1. by injection E1.
Qed.

Lemma verdict_refusal v batch o : is_u64 (seq_no batch) → verdict v batch = inl o → refusal v batch o.
Proof.
  intros Hseq. unfold verdict. destruct (Z.eqb_spec (compare_node_id (origin_node_id batch) (local_node v)) 0) as [E0|E0].
  { intros [= <-]. by left. }
  destruct (Z.leb_spec (seq_no batch) (last_seq v (origin_node_id batch))) as [E1|E1].
  { intros [= <-]. by right. }
  destruct (negb _) eqn:E2.
  { intros [= <-]. unfold refusal. simpl. apply negb_true_iff, Z.eqb_neq in E2.
    pose proof (AppliedStore.applied_seq_range (recs v AppliedStore.applied_name) (origin_node_id batch)) as Hr.
    fold (last_seq v (origin_node_id batch)) in Hr. unfold u_range in Hr, Hseq.
    destruct (decide (last_seq v (origin_node_id batch) + 1 = 2 ^ 64)) as [E|]; [|rewrite Z.mod_small in E2; lia].
    rewrite E, Z.mod_same in E2 by lia. lia. }
  destruct (validated _ _ _ _ _) as [o1|vs] eqn:Ev.
  { intros [= <-]. destruct (validated_conflict _ _ _ _ _ Ev) as [Er _].
    destruct (validated_refused _ _ _ _ _ Ev) as (op & Hop & Hc). unfold refusal. rewrite Er.
    destruct (conflict_reason o1) eqn:Ereason; eauto; exfalso;
      unfold versioned_conflict in Hc; by repeat case_match. }
  destruct (collect_batch_dbi_flags _ _) as [o1|dbis] eqn:Ec; [|done]. intros [= <-].
  destruct (collect_conflict _ _ _ _ Ec) as [Er _]. unfold refusal. rewrite Er.
  destruct (collect_refused _ _ _ _ Ec) as [[-> Hop]|(-> & op & e & Hop & En & Hf & [?|(op' & Hop' & ->)])]; [done|set_solver|].
  intros Ha. apply Hf. by apply Ha.
Qed.

Lemma verdict_inl v batch o : verdict v batch = inl o → out_result o ≠ Applied.
Proof.
  unfold verdict. repeat case_match; intros; simplify_eq; simpl; try done.
  - by destruct (validated_conflict _ _ _ _ _ ltac:(eassumption)) as [-> _].
  - by destruct (collect_conflict _ _ _ _ ltac:(eassumption)) as [-> _].
Qed.

Lemma next_seq v origin n :
  (n <=? last_seq v origin) = false → negb (n =? (last_seq v origin + 1) mod 2 ^ 64) = false →
  n = last_seq v origin + 1.
Proof.
  intros H1%Z.leb_gt H2%negb_false_iff%Z.eqb_eq.
  pose proof (AppliedStore.applied_seq_range (recs v AppliedStore.applied_name) origin) as Hr.
  fold (last_seq v origin) in Hr. unfold u_range in Hr.
  destruct (decide (last_seq v origin + 1 = 2 ^ 64)) as [E|]; [rewrite E, Z.mod_same in H2 by lia; lia|].
  rewrite Z.mod_small in H2; lia.
Qed.

Lemma gap_seq v origin n :
  is_u64 n → last_seq v origin + 1 < n → negb (n =? (last_seq v origin + 1) mod 2 ^ 64) = true.
Proof.
  intros Hn Hg. apply negb_true_iff, Z.eqb_neq.
  pose proof (AppliedStore.applied_seq_range (recs v AppliedStore.applied_name) origin) as Hr.
  fold (last_seq v origin) in Hr. unfold u_range in Hr, Hn. rewrite Z.mod_small; lia.
Qed.

Lemma verdict_next v batch r :
  verdict v batch = inr r →
  compare_node_id (origin_node_id batch) (local_node v) ≠ 0 ∧
  seq_no batch = last_seq v (origin_node_id batch) + 1.
Proof.
  unfold verdict. destruct (compare_node_id _ _ =? 0) eqn:E0; [done|].
  destruct (_ <=? _) eqn:E1; [done|]. destruct (negb _) eqn:E2; [done|].
  intros _. split; [by apply Z.eqb_neq|by apply next_seq].
Qed.

Lemma verdict_inr v batch vs dbis :
  verdict v batch = inr (vs, dbis) → selective_claimed v = false →
  acceptable v batch ∧ vs = VersionedDbiStore.registered v <$> (dbi_name <$> ops batch).
Proof.
  intros Hv Hs. destruct (verdict_next _ _ _ Hv) as [E0 E1]. unfold verdict in Hv.
  destruct (compare_node_id _ _ =? 0); [done|]. destruct (_ <=? _); [done|]. destruct (negb _); [done|].
  destruct (validated _ _ _ _ _) as [|vs'] eqn:Ev; [done|].
  destruct (collect_batch_dbi_flags _ _) as [|dbis'] eqn:Ec; [done|]. simplify_eq.
  split; [|by apply validated_length in Ev]. split_and!; [done..| |done].
  apply Forall_and. split; [by eapply collect_user|by eapply validated_ops].
Qed.

Lemma verdict_collected v batch vs dbis :
  verdict v batch = inr (vs, dbis) → collect_batch_dbi_flags batch (reached v batch) = inr dbis.
Proof. unfold verdict. repeat case_match; intros; simplify_eq; done. Qed.

(** The flag checks: of the batch by itself, and against the tables that exist. *)
Lemma verdict_flags v batch vs dbis :
  verdict v batch = inr (vs, dbis) →
  Forall (fun op => is_reserved_dbi_name (dbi_name op) = false) (ops batch) →
  Forall (fun e => is_reserved_dbi_name (c_str (bd_name e)) = false → dbi_admitted v e) dbis →
  flags_agree (ops batch) ∧ tables_admit v (ops batch).
Proof.
  intros Hc%verdict_collected Hu Hd. split; [by eapply collect_agree|]. intros op d Hop Hn.
  rewrite Forall_forall in Hd. rewrite Forall_forall in Hu. rewrite <- persistent_idem.
  apply (Hd (dbi_entry op)); [|by apply reserved_c_str, Hu|exact Hn].
  eapply find_dbi_name. by apply (collect_sound _ _ _ _ Hc).
Qed.

Lemma mismatch_refusal v batch vs dbis o :
  verdict v batch = inr (vs, dbis) → out_result o = Conflict → conflict_reason o = ExistingDbiFlagsMismatch →
  Exists (fun e => dbi_mismatch v e ∨ is_reserved_dbi_name (c_str (bd_name e)) = true) dbis →
  refusal v batch o.
Proof.
  intros Hc%verdict_collected Eo Er Hex. unfold refusal. rewrite Eo, Er.
  apply Exists_exists in Hex as (e & He & Hbad).
  assert (Forall (fun e => ∃ op, op ∈ ops batch ∧ e = dbi_entry op) dbis) as Hall.
  { eapply collect_entries; [exact Hc|done|eauto]. }
  rewrite Forall_forall in Hall. destruct (Hall e He) as (op & Hop & ->). pose proof (collect_user _ _ _ _ Hc) as Hu.
  rewrite Forall_forall in Hu. destruct Hbad as [(d & Hd & Hm)|Hr%not_false_iff_true]; simpl in *.
  - exists op, d. rewrite persistent_idem in Hm. done.
  - by apply Hu, reserved_c_str in Hop.
Qed.

(** *** The write phase on any kind of table *)

Definition op_tables (l : list ChangeOp) : list bytes := (c_str ∘ dbi_name) <$> l.

Lemma identity_not_user op :
  is_reserved_dbi_name (dbi_name op) = false → IdentityIndexStore.identity_name ∉ [c_str (dbi_name op)].
Proof. intros Hn%reserved_c_str Hin%list_elem_of_singleton. by rewrite <- Hin in Hn. Qed.

Lemma wp_put_marker op idx origin seq Q v :
  ready v idx → v_rw v = true →
  (∀ f, Q (Ok tt) (v_update v (store_table idx) f)) →
  wp (if bool_decide (op_type op = Delete) then
        IdentityIndexStore.tombstone idx (dbi_name op) (storage_key op) (lww_marker op origin seq)
      else IdentityIndexStore.put_value idx (dbi_name op) (storage_key op) (lww_marker op origin seq)) Q v.
Proof.
  intros Hr Hrw HQ. case_bool_decide.
  - apply wp_enter; [done|]. by apply IdentityIndexStore.wp_put_value.
  - by apply IdentityIndexStore.wp_put_value.
Qed.

(** The identity index stays usable too. *)
Definition lww_post (op : ChangeOp) (idx : store) (v : db_view) (r : result dbi_cache) (v' : db_view) : Prop :=
  touch_post [IdentityIndexStore.identity_name; c_str (dbi_name op)] v r v' ∧ (ready v idx → ready v' idx).

Lemma plain_lww_post op idx v r v' :
  is_reserved_dbi_name (dbi_name op) = false → store_table idx = IdentityIndexStore.identity_name →
  touch_post [c_str (dbi_name op)] v r v' → lww_post op idx v r v'.
Proof.
  intros Hu Hn [Ht Hc]. split.
  - split; [|done]. eapply v_touch_mono, Ht. set_solver.
  - intros Hr. eapply touch_ready; [exact Ht| |done]. rewrite Hn. by apply identity_not_user.
Qed.

Lemma wp_apply_lww_any op origin seq cache idx v :
  cache_ok v cache → v_rw v = true → ready v idx → store_table idx = IdentityIndexStore.identity_name →
  is_reserved_dbi_name (dbi_name op) = false →
  wp (apply_lww_one_op op origin seq cache idx) (lww_post op idx v) v.
Proof.
  intros Hc Hrw Hr Hn Hu. apply wp_bind, IdentityIndexStore.wp_get_value; [done|].
  assert (wp (cache ← apply_one_op op cache;
    _ ← (if bool_decide (op_type op = Delete) then
           IdentityIndexStore.tombstone idx (dbi_name op) (storage_key op) (lww_marker op origin seq)
         else IdentityIndexStore.put_value idx (dbi_name op) (storage_key op) (lww_marker op origin seq));
    mret cache) (lww_post op idx v) v) as Hgo.
  { apply wp_bind. eapply wp_mono; [by apply wp_apply_one_op_any|].
    intros r v1 [[Ht Hc1] Hr1]%(plain_lww_post op idx); [|done..].
    destruct r as [cache1|e]; [|by split].
    apply wp_bind, wp_put_marker; [by apply Hr1|by rewrite (to_rw _ _ _ Ht)|].
    intros f. apply wp_ret. split; [|intros _; by apply ready_update, Hr1].
    rewrite Hn. split; [etrans; [exact Ht|apply v_update_touch; by left]|].
    intros ? [= <-]. eapply touch_cache, Hc1, eq_refl. apply (v_update_touch [IdentityIndexStore.identity_name]). by left. }
  assert (lww_post op idx v (Ok cache) v) as Hstop by (split; [split; [done|]; by intros ? [= <-]|done]).
  destruct (recs v _ !! _) as [x|]; [|done].
  destruct (IdentityIndexStore.decode_value x) as [val|e]; [|by split].
  destruct (lww_superseded _ _ _); [by apply wp_ret|done].
Qed.

Lemma wp_apply_ops_any l origin seq cache idx v :
  cache_ok v cache → v_rw v = true → store_table idx = IdentityIndexStore.identity_name →
  (true ∈ l.*2 → ready v idx) →
  Forall (fun op => is_reserved_dbi_name (dbi_name op) = false) l.*1 →
  wp (apply_ops l origin seq cache idx)
    (fun _ v' => v_touch (IdentityIndexStore.identity_name :: op_tables l.*1) v v') v.
Proof.
  revert cache v. induction l as [|[op b] l IH]; intros cache v Hc Hrw Hn Hidx Hu; simpl in *.
  { by apply wp_ret. }
  apply Forall_cons in Hu as [Hu Hus].
  assert (wp (if b then apply_lww_one_op op origin seq cache idx else apply_one_op op cache)
    (lww_post op idx v) v) as Hone.
  { destruct b; [apply wp_apply_lww_any; auto; apply Hidx; by left|].
    eapply wp_mono; [by apply wp_apply_one_op_any|]. intros r v1. by apply plain_lww_post. }
  apply wp_bind. eapply wp_mono; [exact Hone|]. intros r v1 [[Ht Hc1] Hr1].
  assert (v_touch (IdentityIndexStore.identity_name :: c_str (dbi_name op) :: op_tables l.*1) v v1) as Htn
    by (eapply v_touch_mono, Ht; set_solver).
  destruct r as [cache1|e]; [|done].
  eapply wp_mono.
  { apply IH; [by apply Hc1|by rewrite (to_rw _ _ _ Ht)|done| |done]. intros Hin. apply Hr1, Hidx. by right. }
  intros r v2 Ht2. etrans; [exact Htn|]. eapply v_touch_mono, Ht2. set_solver.
Qed.

(** The tables an accepted batch may write. *)
Definition batch_tables (batch : ChangeBatch) : list bytes :=
  AppliedStore.applied_name :: ReceiverModeStore.receiver_mode_name ::
  IdentityIndexStore.identity_name :: op_tables (ops batch).

Lemma reserved_not_user n l :
  Forall (fun op => is_reserved_dbi_name (dbi_name op) = false) l → is_reserved_dbi_name n = true →
  n ∉ op_tables l.
Proof.
  intros Hl Hn (op & -> & Hop)%list_elem_of_fmap. rewrite Forall_forall in Hl.
  apply Hl, reserved_c_str in Hop. simpl in Hn. congruence.
Qed.

(** The tables of the write phase. *)
Definition commit_tables (batch : ChangeBatch) : list bytes :=
  AppliedStore.applied_name :: IdentityIndexStore.identity_name :: op_tables (ops batch).

Lemma engine_ok_touch ns v v' :
  v_touch ns v v' → MetaStore.meta_name ∉ ns → ReceiverModeStore.receiver_mode_name ∉ ns →
  engine_ok env_handle v → engine_ok env_handle v'.
Proof.
  intros Ht Hm Hr [Henv Hrw Hsys Hmeta Hmode]. split.
  - by rewrite (to_env _ _ _ Ht).
  - by rewrite (to_rw _ _ _ Ht).
  - intros n Hn. unfold sys_table. rewrite (to_flags _ _ _ Ht); [by apply Hsys|].
    repeat (apply elem_of_cons in Hn as [->|Hn]; [reflexivity|]). by apply elem_of_nil in Hn.
  - by rewrite (touch_recs _ _ _ _ Ht).
  - by rewrite (touch_recs _ _ _ _ Ht).
Qed.

Lemma commit_tables_system batch n :
  Forall (fun op => is_reserved_dbi_name (dbi_name op) = false) (ops batch) →
  n ∈ [MetaStore.meta_name; ReceiverModeStore.receiver_mode_name] → n ∉ commit_tables batch.
Proof.
  intros Hu Hn. unfold commit_tables. rewrite !not_elem_of_cons.
  split_and!; [set_solver|set_solver|]. apply reserved_not_user; [done|].
  by repeat (apply elem_of_cons in Hn as [->|Hn]; [reflexivity|]); apply elem_of_nil in Hn.
Qed.

Definition commit_post (batch : ChangeBatch) (v : db_view) (r : result ApplyOutcome) (v' : db_view) : Prop :=
  v_touch (commit_tables batch) v v' ∧
  ∀ o, r = Ok o → out_result o = Applied ∧ out_last_applied_seq o = seq_no batch ∧
    recs v' AppliedStore.applied_name =
      <[origin_node_id batch := write_u64_le (seq_no batch)]> (recs v AppliedStore.applied_name).

Lemma wp_open_identity (vs : list bool) v Q :
  env_handle = v_env v → v_rw v = true → sys_table v IdentityIndexStore.identity_name →
  (∀ idx v', v_ext v v' → same_user v v' → store_table idx = IdentityIndexStore.identity_name →
     (true ∈ vs → ready v' idx) → Q (Ok idx) v') →
  wp (if bool_decide (true ∈ vs)
      then IdentityIndexStore.open (new_store env_handle IdentityIndexStore.identity_name)
      else mret (new_store env_handle IdentityIndexStore.identity_name)) Q v.
Proof.
  intros He Hrw Hs HQ. case_bool_decide as Ev; [|by apply wp_ret, HQ].
  apply wp_store_create; [done..|]. intros st v' (He' & Hr & Hn & Hd)%opened_new; [|done].
  apply HQ; [done| |done..]. by apply (same_user_but IdentityIndexStore.identity_name).
Qed.

Lemma wp_commit batch vs cache applied o v :
  engine_ok env_handle v → is_u64 (seq_no batch) → length vs = length (ops batch) →
  Forall (fun op => is_reserved_dbi_name (dbi_name op) = false) (ops batch) →
  cache_ok v cache → applied_ready v applied →
  wp (commit_phase batch vs cache applied o) (commit_post batch v) v.
Proof.
  intros Hok Hseq Hlen Hu Hc [Hr Hn].
  apply wp_bind, wp_open_identity; [apply Hok..|apply Hok; by do 4 right; left|].
  intros idx v1 He1 _ Hi Hidx.
  apply wp_bind. eapply wp_mono.
  { apply wp_apply_ops_any; [by eapply cache_ok_ext|by rewrite (ext_rw _ _ He1), (ok_rw _ _ Hok)|done| |];
      rewrite ?fst_zip, ?snd_zip by lia; done. }
  intros r v2 Ht2. rewrite fst_zip in Ht2 by lia.
  assert (v_touch (IdentityIndexStore.identity_name :: op_tables (ops batch)) v v2) as Ht.
  { etrans; [by apply v_ext_touch|done]. }
  assert (AppliedStore.applied_name ∉ IdentityIndexStore.identity_name :: op_tables (ops batch)) as Hna.
  { rewrite not_elem_of_cons. split; [done|]. by apply reserved_not_user. }
  assert (v_touch (commit_tables batch) v v2) as Htb by (eapply v_touch_mono, Ht; unfold commit_tables; set_solver).
  destruct r as [[]|e]; [|by split].
  assert (ready v2 applied) as Hr2 by (eapply touch_ready; [exact Ht|by rewrite Hn|done]).
  apply wp_bind, AppliedStore.wp_set_last_applied_seq; [done|by rewrite (to_rw _ _ _ Ht), (ok_rw _ _ Hok)|].
  apply wp_ret. split.
  - etrans; [exact Htb|]. apply v_update_touch. rewrite Hn. by left.
  - intros ? [= <-]. split_and!; [done..|].
    destruct Hr2 as (_ & _ & Hb2). rewrite <- Hn, recs_updated by by eapply bound_is_Some.
    by rewrite Hn, (touch_recs _ _ _ _ Ht) by done.
Qed.

(** What a call leaves behind. *)
Definition apply_post (batch : ChangeBatch) (v : db_view) (r : result ApplyOutcome) (v' : db_view) : Prop :=
  engine_ok env_handle v' ∧
  ((∃ o, r = Ok o ∧ refusal v batch o ∧ v_touch [] v v') ∨
   (passes_checks v batch ∧ v_touch (batch_tables batch) v v' ∧
    ∀ o, r = Ok o → out_result o = Applied ∧ out_last_applied_seq o = seq_no batch ∧
      recs v' AppliedStore.applied_name =
        <[origin_node_id batch := write_u64_le (seq_no batch)]> (recs v AppliedStore.applied_name))).

Lemma wp_apply_post batch v :
  engine_ok env_handle v → batch_ok batch →
  wp (apply_batch_ex env_handle m_policy batch) (apply_post batch v) v.
Proof.
  intros Hok (_ & _ & _ & Hseq & _). apply wp_apply_phases; [done| |].
  - intros o v' Ho He. split; [by eapply engine_ok_ext|]. left. exists o.
    split_and!; [done|by apply verdict_refusal|by apply v_ext_touch].
  - intros vs dbis Hv.
    split_and!; [intros o v' He Hc Hre Hex|intros v' He Hsel|intros v1 cache applied Hf _ Hok1 Hs Hc Ha Hadm].
    1,2: split; [by eapply engine_ok_ext|]; left; eexists; split; [done|]; (split; [|by apply v_ext_touch]).
    { by eapply mismatch_refusal. }
    { exact Hsel. }
    destruct (verdict_inr _ _ _ _ Hv Hs) as [Hacc ->]. pose proof Hacc as (_ & _ & Hops & _).
    assert (Forall (fun op => is_reserved_dbi_name (dbi_name op) = false) (ops batch)) as Hu.
    { eapply Forall_impl; [exact Hops|]. by intros op []. }
    eapply wp_mono; [apply wp_commit; try done; by rewrite !length_fmap|]. intros r v2 [Ht Hr]. split.
    { eapply engine_ok_touch; [exact Ht|..|done]; (apply commit_tables_system; [done|set_solver]). }
    right. split; [split; [done|by eapply verdict_flags]|]. split.
    + etrans; [eapply v_touch_mono, v_frame_touch, Hf; unfold batch_tables; set_solver|].
      eapply v_touch_mono, Ht. unfold batch_tables, commit_tables. set_solver.
    + intros o (? & ? & Hl)%Hr. split_and!; [done..|]. rewrite Hl.
      by rewrite (recs_frame _ _ _ _ Hf) by set_solver.
Qed.

(** C21: a batch of the node's own origin or with a sequence number that was applied before
    is skipped, and one that leaves a gap is refused with [SequenceGap]; none of them
    changes a record.  A batch is applied only when its number is the next one for its
    origin. *)
Theorem apply_sequence_rules (batch : ChangeBatch) (v : db_view) :
  engine_ok env_handle v → batch_ok batch →
  wp (apply_batch_ex env_handle m_policy batch) (fun r v' =>
    let last := last_seq v (origin_node_id batch) in
    (origin_node_id batch = local_node v →
       ∃ o, r = Ok o ∧ out_result o = Skipped ∧ v_touch [] v v') ∧
    (origin_node_id batch ≠ local_node v → seq_no batch ≤ last →
       ∃ o, r = Ok o ∧ out_result o = Skipped ∧ out_last_applied_seq o = last ∧ v_touch [] v v') ∧
    (origin_node_id batch ≠ local_node v → last + 1 < seq_no batch →
       ∃ o, r = Ok o ∧ out_result o = Conflict ∧ conflict_reason o = SequenceGap ∧
         out_last_applied_seq o = last ∧ batch_seq o = seq_no batch ∧ v_touch [] v v') ∧
    (∀ o, r = Ok o → out_result o = Applied →
       origin_node_id batch ≠ local_node v ∧ seq_no batch = last + 1)) v.
Proof.
  intros Hok Hb. pose proof Hb as (_ & _ & Hor & Hseq & _).
  assert (node_ok (local_node v)) as Hln.
  { pose proof (ok_meta _ _ Hok) as Hm. unfold local_node, MetaStore.meta_ok in *. cbn [MetaStore.a_node_id MetaStore.meta_of] in Hm.
    destruct (_ !! _); [by apply Hm|apply make_zero_node_ok]. }
  apply wp_apply_phases; [done| |].
  - intros o v' Ho He. pose proof (v_ext_touch [] _ _ He) as Ht. pose proof (verdict_inl _ _ _ Ho) as Hna.
    assert (∀ o' : ApplyOutcome, Ok o = Ok o' → out_result o' ≠ Applied) as Hna' by (by intros ? [= <-]).
    unfold verdict in Ho. destruct (Z.eqb_spec (compare_node_id (origin_node_id batch) (local_node v)) 0) as [E0|E0];
      rewrite compare_node_id_zero in E0 by done; [simplify_eq; naive_solver|].
    destruct (Z.leb_spec (seq_no batch) (last_seq v (origin_node_id batch))) as [E1|E1];
      [simplify_eq; split_and!; try lia; naive_solver|].
    split_and!; [done|lia| |naive_solver]. intros _ Hgap. rewrite gap_seq in Ho by (done || lia).
    simplify_eq. eauto 10.
  - intros vs dbis Hv. destruct (verdict_next _ _ _ Hv) as [E0 E1].
    rewrite compare_node_id_zero in E0 by done.
    split_and!; [intros o v' _ Hc _ _|intros v' _ _|intros v' cache applied Hf _ Hok' Hs Hc Ha _].
    1,2: split_and!; [done|lia|lia|intros ? [= <-] ?; simpl in *; congruence].
    destruct (verdict_inr _ _ _ _ Hv Hs) as [(_ & _ & Hops & _) ->].
    eapply wp_mono; [apply wp_commit; try done|].
    + by rewrite !length_fmap.
    + eapply Forall_impl; [exact Hops|]. by intros op [].
    + intros r v'' _. split_and!; [done|lia|lia|done].
Qed.

(** C1: a batch is accepted or refused as a whole.  When the call returns another result
    than [Applied] no record of any table has changed and the reason it gives is true: the
    batch was local or seen before, left a gap, named a reserved table, disagreed on the
    flags of a table within the batch or with a table that exists, had an operation that
    its table's versioning refuses, or the receiver has claimed selective delivery.
    Otherwise the batch had passed every one of these checks, only the tables of its operations and the
    three system tables of the apply path are written, and on return the sequence number of
    its origin, and of no other, is the batch's.  In every case the system tables stay
    well-formed. *)
Theorem apply_batch_atomic (batch : ChangeBatch) (v : db_view) :
  engine_ok env_handle v → batch_ok batch →
  wp (apply_batch_ex env_handle m_policy batch) (fun r v' =>
    engine_ok env_handle v' ∧
    ((∃ o, r = Ok o ∧ refusal v batch o ∧ v_touch [] v v') ∨
     (passes_checks v batch ∧ v_touch (batch_tables batch) v v' ∧
      ∀ o, r = Ok o → out_result o = Applied ∧ out_last_applied_seq o = seq_no batch ∧
        ∀ a, last_seq v' a = if decide (a = origin_node_id batch) then seq_no batch else last_seq v a))) v.
Proof.
  intros Hok Hb. pose proof Hb as (_ & _ & _ & Hseq & _). eapply wp_mono; [by apply wp_apply_post|].
  intros r v' [Hok' [?|(Hacc & Ht & Hr)]]; (split; [done|]); [by left|right]. split_and!; [done..|].
  intros o (? & ? & Ha)%Hr. split_and!; [done..|]. intros a. unfold last_seq.
  by rewrite Ha, AppliedStore.applied_seq_insert.
Qed.
End Phases.

(** ** Witnesses *)

(** A receiver that knows node 5 up to sequence number 6 and has one user table. *)
Definition sample_apply_view : db_view := {|
  v_env := 1; v_rw := true;
  v_dbs := {[ bytes_of_string "users" := mk_dbi 0 {[ bytes_of_string "k" := bytes_of_string "old" ]};
              AppliedStore.applied_name := mk_dbi 0 {[ replicate 16 Byte.x05 := write_u64_le 6 ]} ]};
  v_handles := ∅;
|}.

Definition sample_put (key val : string) : ChangeOp := {|
  op_type := Put; op_flags := 0; dbi_flags := 0; dbi_name := bytes_of_string "users";
  storage_key := bytes_of_string key; value := bytes_of_string val; identity_key := []; revision_key := [] |}.

Definition sample_batch (seq : Z) : ChangeBatch := {|
  version := 1; batch_flags := 0; origin_node_id := replicate 16 Byte.x05; seq_no := seq;
  time_unix_ns := 0; ops := [sample_put "k" "new"; sample_put "j" "more"] |}.

Lemma sample_engine_ok : engine_ok 1 sample_apply_view.
Proof.
  split; [reflexivity..| |vm_compute; discriminate|vm_compute; discriminate].
  intros n Hn. repeat (apply elem_of_cons in Hn as [->|Hn]; [reflexivity|]). by apply elem_of_nil in Hn.
Qed.

Lemma sample_flags op : op ∈ ops (sample_batch 7) → dbi_flags op = 0.
Proof.
  assert (Forall (fun op => dbi_flags op = 0) (ops (sample_batch 7))) as H by repeat constructor.
  rewrite Forall_forall in H. apply H.
Qed.

Lemma apply_sequence_rules_witness :
  last_seq sample_apply_view (replicate 16 Byte.x05) = 6 ∧
  wp (X := ref_mdbx) (apply_batch_ex 1 Reject (sample_batch 9)) (fun r v' =>
    let last := last_seq sample_apply_view (origin_node_id (sample_batch 9)) in
    (origin_node_id (sample_batch 9) = local_node sample_apply_view →
       ∃ o, r = Ok o ∧ out_result o = Skipped ∧ v_touch [] sample_apply_view v') ∧
    (origin_node_id (sample_batch 9) ≠ local_node sample_apply_view → seq_no (sample_batch 9) ≤ last →
       ∃ o, r = Ok o ∧ out_result o = Skipped ∧ out_last_applied_seq o = last ∧
         v_touch [] sample_apply_view v') ∧
    (origin_node_id (sample_batch 9) ≠ local_node sample_apply_view → last + 1 < seq_no (sample_batch 9) →
       ∃ o, r = Ok o ∧ out_result o = Conflict ∧ conflict_reason o = SequenceGap ∧
         out_last_applied_seq o = last ∧ batch_seq o = seq_no (sample_batch 9) ∧
         v_touch [] sample_apply_view v') ∧
    (∀ o, r = Ok o → out_result o = Applied →
       origin_node_id (sample_batch 9) ≠ local_node sample_apply_view ∧
       seq_no (sample_batch 9) = last + 1)) sample_apply_view.
Proof.
  split; [vm_compute; reflexivity|].
  apply (apply_sequence_rules (X := ref_mdbx) 1 Reject (sample_batch 9) sample_apply_view).
  - apply sample_engine_ok.
  - apply (bool_decide_unpack _). vm_compute. exact I.
Defined.

Lemma apply_batch_atomic_witness :
  passes_checks Reject sample_apply_view (sample_batch 7) ∧
  wp (X := ref_mdbx) (apply_batch_ex 1 Reject (sample_batch 7)) (fun r v' =>
    engine_ok 1 v' ∧
    ((∃ o, r = Ok o ∧ refusal Reject sample_apply_view (sample_batch 7) o ∧ v_touch [] sample_apply_view v') ∨
     (passes_checks Reject sample_apply_view (sample_batch 7) ∧
      v_touch (batch_tables (sample_batch 7)) sample_apply_view v' ∧
      ∀ o, r = Ok o → out_result o = Applied ∧ out_last_applied_seq o = 7 ∧
        ∀ a, last_seq v' a =
          if decide (a = replicate 16 Byte.x05) then 7 else last_seq sample_apply_view a)))
    sample_apply_view.
Proof.
  split.
  - split; [|split].
    + split_and!; [vm_compute; discriminate|vm_compute; reflexivity|repeat constructor|reflexivity].
    + intros op op' Hop Hop' _. by rewrite (sample_flags op Hop), (sample_flags op' Hop').
    + intros op d Hop _. left. by rewrite (sample_flags op Hop).
  - apply (apply_batch_atomic (X := ref_mdbx) 1 Reject (sample_batch 7) sample_apply_view).
    + apply sample_engine_ok.
    + apply (bool_decide_unpack _). vm_compute. exact I.
Defined.
