(* ===== verification/ApplyEffect.v ===== *)
(** * The effect of an accepted batch

    What [ApplyEngine.apply_batch_ex] does to the data.  A record of a user table together
    with its last-writer-wins marker is a cell; an accepted batch acts on every cell as the
    fold of its operations, and the last-writer-wins fold does not depend on the order in
    which the batches of different origins arrive. *)
From S2P Require Import Prelude SyncCommon KeyCodec SyncProtocol Mdbx RefMdbx StoreBase ApplyEngine ApplyTheorems.
From S2P Require MetaStore AppliedStore IdentityIndexStore VersionedDbiStore ReceiverModeStore.
Open Scope Z_scope.

(** ** Cells *)

Record cell : Type := {
  c_val : option bytes;
  c_mark : option IdentityIndexStore.IdentityIndexValue;
}.

Definition marker_at (v : db_view) (n k : bytes) : option IdentityIndexStore.IdentityIndexValue :=
  recs v IdentityIndexStore.identity_name !! IdentityIndexStore.encode_key n k ≫= fun x =>
  match IdentityIndexStore.decode_value x with Ok m => Some m | Throw _ => None end.

Definition cell_of (v : db_view) (n k : bytes) : cell :=
  {| c_val := recs v n !! k; c_mark := marker_at v n k |}.

(** The records of the table of an operation after it. *)
Definition op_effect (op : ChangeOp) (m : gmap bytes bytes) : gmap bytes bytes :=
  match op_type op with
  | Put => <[storage_key op := value op]> m
  | Delete => delete (storage_key op) m
  | ClearTable => ∅
  end.

(** The value of the record [k] of that table after it. *)
Definition op_value (op : ChangeOp) (k : bytes) (old : option bytes) : option bytes :=
  match op_type op with
  | Put => if decide (storage_key op = k) then Some (value op) else old
  | Delete => if decide (storage_key op = k) then None else old
  | ClearTable => None
  end.

Lemma op_effect_value op m k : op_effect op m !! k = op_value op k (m !! k).
Proof.
  unfold op_effect, op_value. destruct (op_type op); [..|done].
  - rewrite lookup_insert. done.
  - rewrite lookup_delete. done.
Qed.

(** The marker a last-writer-wins operation leaves. *)
Definition lww_record (op : ChangeOp) (origin : NodeId) (seq : Z) : IdentityIndexStore.IdentityIndexValue := {|
  IdentityIndexStore.iv_storage_key := storage_key op;
  IdentityIndexStore.iv_origin := origin;
  IdentityIndexStore.iv_seq := seq;
  IdentityIndexStore.iv_revision_key := revision_key op;
  IdentityIndexStore.iv_flags :=
    if bool_decide (op_type op = Delete) then IdentityIndexStore.IDENTITY_TOMBSTONE else 0;
|}.

Definition superseded_by (op : ChangeOp) (origin : NodeId) (mark : option IdentityIndexStore.IdentityIndexValue)
    : bool :=
  match mark with Some c => lww_superseded op origin c | None => false end.

(** What one operation does to the cell [(n, k)]. *)
Definition cell_step (origin : NodeId) (seq : Z) (n k : bytes) (c : cell) (e : ChangeOp * bool) : cell :=
  let '(op, versioned) := e in
  if negb (bool_decide (dbi_name op = n)) then c
  else if negb versioned then {| c_val := op_value op k (c_val c); c_mark := c_mark c |}
  else if negb (bool_decide (storage_key op = k)) then c
  else if superseded_by op origin (c_mark c) then c
  else {| c_val := op_value op k (c_val c); c_mark := Some (lww_record op origin seq) |}.

(** ** Operations on tables without duplicates *)

Definition op_flags_of (op : ChangeOp) : Z := persistent_dbi_flags (dbi_flags op).

(** The operation names a table by a C string, its table has no duplicates, and its byte
    strings have 32-bit lengths. *)
Definition op_plain (op : ChangeOp) : Prop :=
  c_str (dbi_name op) = dbi_name op ∧ dup_flags (op_flags_of op) = false ∧
  IdentityIndexStore.fits (dbi_name op) ∧ IdentityIndexStore.fits (storage_key op) ∧
  IdentityIndexStore.fits (revision_key op).

(** An existing table has the flags of the operation. *)
Definition op_compat (v : db_view) (op : ChangeOp) : Prop :=
  match v_dbs v !! dbi_name op with None => True | Some d => dv_flags d = op_flags_of op end.

Definition same_flags (op op' : ChangeOp) : Prop :=
  dbi_name op = dbi_name op' → op_flags_of op = op_flags_of op'.

Lemma stored_persistent f : stored_flags (Z.lor (persistent_dbi_flags f) MDBX_CREATE) = persistent_dbi_flags f.
Proof.
  unfold stored_flags, persistent_dbi_flags. rewrite Z.land_lor_distr_l, <- Z.land_assoc.
  change (Z.land persistent_dbi_flags_mask 0x7e) with persistent_dbi_flags_mask.
  change (Z.land MDBX_CREATE 0x7e) with 0. apply Z.lor_0_r.
Qed.

Lemma stored_persistent_open f : stored_flags (persistent_dbi_flags f) = persistent_dbi_flags f.
Proof.
  unfold stored_flags, persistent_dbi_flags. rewrite <- Z.land_assoc.
  by change (Z.land persistent_dbi_flags_mask 0x7e) with persistent_dbi_flags_mask.
Qed.

Lemma dup_flags_plain f : dup_flags f = false → has_flag f MDBX_DUPSORT = false.
Proof.
  unfold dup_flags, has_flag. intros H%negb_false_iff%Z.eqb_eq. apply negb_false_iff, Z.eqb_eq.
  change MDBX_DUPSORT with (Z.land 0x74 MDBX_DUPSORT). by rewrite Z.land_assoc, H.
Qed.

Lemma dup_flags_create f : dup_flags f = false → fixed_flags (Z.lor f MDBX_CREATE) = false.
Proof.
  unfold dup_flags, fixed_flags. intros H. rewrite has_flag_lor, orb_false_r. unfold has_flag in *.
  apply negb_false_iff, Z.eqb_eq in H. apply negb_false_iff, Z.eqb_eq.
  change 0x70 with (Z.land 0x74 0x70). by rewrite Z.land_assoc, H.
Qed.

(** The table of an operation, open and with the right flags. *)
Definition op_table (v : db_view) (op : ChangeOp) : dbi_view :=
  default (mk_dbi (op_flags_of op) ∅) (v_dbs v !! dbi_name op).

Lemma open_spec_user v op rc dbi v' :
  op_plain op → op_compat v op → v_rw v = true →
  open_spec v (dbi_name op) (Z.lor (op_flags_of op) MDBX_CREATE) rc dbi v' →
  rc = MDBX_SUCCESS ∧ dbi ≠ 0 ∧ (∀ n, v_handles v !! dbi = Some n → n = dbi_name op) ∧
  v' = v_opened v (dbi_name op) (op_table v op) dbi.
Proof.
  intros (_ & Hdup & _) Hc Hrw Ho. unfold open_spec, op_compat, op_table in *.
  destruct (v_dbs v !! dbi_name op) as [d|] eqn:Ed; simpl.
  - assert (flags_match (Z.lor (op_flags_of op) MDBX_CREATE) d = true) as Hm.
    { unfold flags_match, op_flags_of in *. by rewrite stored_persistent, Hc, Z.eqb_refl, !orb_true_r. }
    rewrite Hm, Hrw in Ho. destruct Ho as [?|[[? _]|[[? _]|(_ & ? & _)]]]; done.
  - assert (has_flag (Z.lor (op_flags_of op) MDBX_CREATE) MDBX_CREATE = true) as Hcr
      by (rewrite has_flag_lor; apply orb_true_r).
    rewrite Hcr, Hrw, dup_flags_create in Ho by done.
    destruct Ho as [Ho|[? _]]; [|done]. unfold op_flags_of in *. by rewrite stored_persistent in Ho.
Qed.

Section Effect.
Context {X : Mdbx} {L : MdbxLaws X}.

(** After the table was opened, and after the operation. *)
Definition op_opened (v : db_view) (op : ChangeOp) (dbi : Z) (v' : db_view) : Prop :=
  v_touch [dbi_name op] v v' ∧ bound v' dbi (dbi_name op) (op_flags_of op) ∧
  recs v' (dbi_name op) = recs v (dbi_name op) ∧ ∀ n, n ≠ dbi_name op → v_dbs v' !! n = v_dbs v !! n.

Definition op_done (v : db_view) (op : ChangeOp) (v' : db_view) : Prop :=
  v_touch [dbi_name op] v v' ∧
  (∃ d, v_dbs v' !! dbi_name op = Some d ∧ dv_flags d = op_flags_of op) ∧
  recs v' (dbi_name op) = op_effect op (recs v (dbi_name op)) ∧
  ∀ n, n ≠ dbi_name op → v_dbs v' !! n = v_dbs v !! n.

Lemma opened_op_opened v op dbi :
  is_reserved_dbi_name (dbi_name op) = false → op_compat v op → (∀ n, v_handles v !! dbi = Some n → n = dbi_name op) →
  op_opened v op dbi (v_opened v (dbi_name op) (op_table v op) dbi).
Proof.
  intros Hu Hc Hf. unfold op_opened, op_table. split_and!.
  - split; try done; simpl; [apply (opened_ext _ _ _ Hf)|..]; intros n Hn.
    + unfold table. simpl. rewrite lookup_insert_ne; [done|]. intros <-. apply Hn. by left.
    + destruct (decide (n = dbi_name op)) as [->|]; [rewrite lookup_insert_eq; eauto|by rewrite lookup_insert_ne].
    + unfold table. simpl. rewrite lookup_insert_ne; [done|]. intros <-. congruence.
  - unfold op_compat in Hc. destruct (v_dbs v !! dbi_name op) as [d|] eqn:Ed; simpl.
    + rewrite <- Hc. apply opened_bound.
    + apply (opened_bound v (dbi_name op) (mk_dbi (op_flags_of op) ∅) dbi).
  - unfold recs, table. simpl. rewrite lookup_insert_eq. by destruct (v_dbs v !! dbi_name op).
  - intros n Hn. simpl. by rewrite lookup_insert_ne.
Qed.

Lemma wp_resolve_exact op cache Q v :
  is_reserved_dbi_name (dbi_name op) = false → op_plain op → op_compat v op → v_rw v = true → cache_ok v cache →
  (∀ dbi cache' v', op_opened v op dbi v' → cache_ok v' cache' → Q (Ok (dbi, cache')) v') →
  wp (resolve_user_dbi (dbi_name op) (dbi_flags op) cache) Q v.
Proof.
  intros Hu Hp Hcompat Hrw Hc HQ. pose proof Hp as (Hn & _). unfold resolve_user_dbi. case_match eqn:Ec.
  { apply wp_ret. destruct (cache !! dbi_name op) as [dbi|] eqn:E; [|done]. apply HQ; [|done].
    destruct (Hc _ _ E) as (_ & fl & Hb). rewrite Hn in Hb. split_and!; [done| |done..].
    pose proof Hb as (_ & d & Hd & Hfl). unfold op_compat in Hcompat. rewrite Hd in Hcompat. simpl.
    by rewrite <- Hcompat, Hfl. }
  rewrite Hn. apply wp_bind. intros s Hs. unfold dbi_open at 1.
  destruct (mdbx_dbi_open s (dbi_name op) _) as [[rc dbi] s'] eqn:E. left. subst v.
  destruct (law_open _ _ _ _ _ _ E) as [He|Ho].
  { rewrite (error_neq rc MDBX_INCOMPATIBLE He) by (vm_compute; set_solver). apply wp_ret_bind. engine_error_case. }
  apply open_spec_user in Ho as (-> & Hz & Hf & ->); [|done..].
  pose proof (opened_op_opened (view s) op dbi Hu Hcompat Hf) as Hop.
  apply wp_ret_bind, wp_ret_bind, wp_ret, HQ; [done|]. apply map_Forall_insert_2.
  - split; [done|]. rewrite Hn. exists (op_flags_of op). apply Hop.
  - eapply touch_cache, Hc. apply Hop.
Qed.

Lemma op_update_done v op dbi v1 f :
  op_opened v op dbi v1 → f (recs v1 (dbi_name op)) = op_effect op (recs v (dbi_name op)) →
  op_done v op (v_update v1 (dbi_name op) f).
Proof.
  intros (Ht & Hb & Hr & Ho) Hf. split_and!.
  - etrans; [exact Ht|]. apply v_update_touch. by left.
  - destruct (bound_update _ _ _ _ (dbi_name op) f Hb) as (_ & ?). done.
  - rewrite recs_updated by by eapply bound_is_Some. done.
  - intros n Hn. simpl. rewrite lookup_alter_ne by done. by apply Ho.
Qed.

Lemma op_same_done v op dbi v1 :
  op_opened v op dbi v1 → recs v1 (dbi_name op) = op_effect op (recs v (dbi_name op)) → op_done v op v1.
Proof. intros (Ht & Hb & _ & Ho) Hf. split_and!; [done| |done..]. by destruct Hb. Qed.

Lemma wp_apply_one_op op cache Q v :
  is_reserved_dbi_name (dbi_name op) = false → op_plain op → op_compat v op → v_rw v = true → cache_ok v cache →
  (∀ cache' v', op_done v op v' → cache_ok v' cache' → Q (Ok cache') v') →
  wp (apply_one_op op cache) Q v.
Proof.
  intros Hu Hp Hcompat Hrw Hc HQ. apply wp_bind, wp_resolve_exact; [done..|]. intros dbi cache1 v1 Ho Hc1.
  pose proof Ho as (Ht & Hb & Hr & _). assert (v_rw v1 = true) as Hrw1 by by rewrite (to_rw _ _ _ Ht).
  assert (has_flag (op_flags_of op) MDBX_DUPSORT = false) as Hpl by by apply dup_flags_plain, Hp.
  assert (∀ f, cache_ok (v_update v1 (dbi_name op) f) cache1) as Hcu.
  { intros f. eapply touch_cache, Hc1. apply (v_update_touch [dbi_name op]). by left. }
  pose proof (op_update_done v op dbi v1) as Hup. pose proof (op_same_done v op dbi v1 Ho) as Hsame.
  unfold op_effect in Hup, Hsame.
  destruct (op_type op).
  - apply wp_bind. eapply wp_put; [done..|]. apply wp_ret, HQ; [|done]. apply Hup; [done|]. by rewrite Hr.
  - apply wp_bind. intros s Hs. unfold del. destruct (mdbx_del s dbi _) as [rc s'] eqn:E. left. subst v1.
    destruct (law_del _ _ _ _ _ _ _ E (bound_table _ _ _ _ Hb) Hpl Hrw1) as [He|[(-> & Hk & ->)|(-> & Hk & ->)]].
    + rewrite (error_neq rc MDBX_SUCCESS He), (error_neq rc MDBX_NOTFOUND He) by (vm_compute; set_solver).
      simpl. engine_error_case.
    + apply wp_ret_bind, wp_ret, HQ; [|by apply map_Forall_delete]. apply Hsame. rewrite <- Hr.
      symmetry. by apply delete_id.
    + apply wp_ret_bind, wp_ret, HQ; [|apply map_Forall_delete; apply Hcu]. apply Hup; [done|]. by rewrite Hr.
  - apply wp_bind. intros s Hs. unfold drop_table. destruct (mdbx_drop s dbi) as [rc s'] eqn:E. left. subst v1.
    destruct (law_drop _ _ _ _ _ _ E (bound_table _ _ _ _ Hb) Hrw1) as [He|(-> & ->)]; [engine_error_case|].
    apply wp_ret_bind, wp_ret, HQ; [|apply map_Forall_delete; apply Hcu]. by apply Hup.
Qed.

(** Every marker decodes. *)
Definition index_ok (v : db_view) : Prop :=
  ∀ key x, recs v IdentityIndexStore.identity_name !! key = Some x →
    ∃ m, IdentityIndexStore.decode_value x = Ok m.

(** One operation of the loop did what [cell_step] says. *)
Definition step_done (op : ChangeOp) (b : bool) (origin : NodeId) (seq : Z) (idx : store) (v v' : db_view)
    : Prop :=
  v_touch [IdentityIndexStore.identity_name; dbi_name op] v v' ∧ (ready v idx → ready v' idx) ∧
  index_ok v' ∧ (∀ op', same_flags op op' → op_compat v op' → op_compat v' op') ∧
  ∀ n k, is_reserved_dbi_name n = false → IdentityIndexStore.fits n →
    cell_of v' n k = cell_step origin seq n k (cell_of v n k) (op, b).

Lemma user_not_identity n : is_reserved_dbi_name n = false → n ≠ IdentityIndexStore.identity_name.
Proof. by intros Hn ->. Qed.

Lemma op_done_compat v op v' op' : op_done v op v' → same_flags op op' → op_compat v op' → op_compat v' op'.
Proof.
  intros (_ & (d & Hd & Hfl) & _ & Ho) Hs. unfold op_compat.
  destruct (decide (dbi_name op' = dbi_name op)) as [E|]; [|by rewrite Ho].
  rewrite E, Hd, Hfl. intros _. by apply Hs.
Qed.

Lemma op_done_cell v op v' n k :
  is_reserved_dbi_name (dbi_name op) = false → op_done v op v' → is_reserved_dbi_name n = false →
  cell_of v' n k = {|
    c_val := if decide (dbi_name op = n) then op_value op k (recs v n !! k) else recs v n !! k;
    c_mark := marker_at v n k |}.
Proof.
  intros Hu (Ht & _ & Hr & _) Hn. unfold cell_of, marker_at.
  rewrite (touch_recs _ _ _ IdentityIndexStore.identity_name Ht).
  2: { rewrite list_elem_of_singleton. by apply not_eq_sym, user_not_identity. }
  f_equal. case_decide as E.
  - subst n. by rewrite Hr, op_effect_value.
  - rewrite (touch_recs _ _ _ _ Ht); [done|]. rewrite list_elem_of_singleton. by apply not_eq_sym.
Qed.

Lemma op_done_step v op v' origin seq idx :
  is_reserved_dbi_name (dbi_name op) = false → store_table idx = IdentityIndexStore.identity_name →
  index_ok v → op_done v op v' → step_done op false origin seq idx v v'.
Proof.
  intros Hu Hi Hix Hd. pose proof Hd as (Ht & _).
  assert (IdentityIndexStore.identity_name ∉ [dbi_name op]) as Hnot.
  { rewrite list_elem_of_singleton. by apply not_eq_sym, user_not_identity. }
  split_and!.
  - eapply v_touch_mono, Ht. set_solver.
  - apply (touch_ready _ _ _ _ Ht). by rewrite Hi.
  - unfold index_ok. by rewrite (touch_recs _ _ _ _ Ht).
  - intros op'. by apply op_done_compat.
  - intros n k Hn _. rewrite (op_done_cell v op v') by done. unfold cell_step.
    case_decide as E; [rewrite bool_decide_true by done|rewrite bool_decide_false by done]; done.
Qed.

Definition marker_ok (op : ChangeOp) (origin : NodeId) (seq : Z) : Prop :=
  IdentityIndexStore.value_ok (lww_record op origin seq).

Lemma wp_put_lww op idx origin seq Q v :
  ready v idx → v_rw v = true →
  Q (Ok tt) (v_update v (store_table idx)
    <[IdentityIndexStore.encode_key (dbi_name op) (storage_key op) :=
        IdentityIndexStore.encode_value (lww_record op origin seq)]>) →
  wp (if bool_decide (op_type op = Delete) then
        IdentityIndexStore.tombstone idx (dbi_name op) (storage_key op) (lww_marker op origin seq)
      else IdentityIndexStore.put_value idx (dbi_name op) (storage_key op) (lww_marker op origin seq)) Q v.
Proof.
  intros Hr Hrw HQ. unfold lww_record in HQ. case_bool_decide.
  - apply wp_enter; [done|]. by apply IdentityIndexStore.wp_put_value.
  - by apply IdentityIndexStore.wp_put_value.
Qed.

Lemma op_value_other op k old : op_type op ≠ ClearTable → storage_key op ≠ k → op_value op k old = old.
Proof. intros Ht Hk. unfold op_value. destruct (op_type op); [by rewrite decide_False..|done]. Qed.

(** The cells after the marker of an applied operation was written. *)
Lemma marker_cell v op v1 origin seq n k :
  op_plain op → op_type op ≠ ClearTable → is_reserved_dbi_name (dbi_name op) = false →
  IdentityIndexStore.decode_value (IdentityIndexStore.encode_value (lww_record op origin seq)) =
    Ok (lww_record op origin seq) →
  op_done v op v1 → is_Some (v_dbs v1 !! IdentityIndexStore.identity_name) →
  superseded_by op origin (marker_at v (dbi_name op) (storage_key op)) = false →
  is_reserved_dbi_name n = false → IdentityIndexStore.fits n →
  cell_of (v_update v1 IdentityIndexStore.identity_name
    <[IdentityIndexStore.encode_key (dbi_name op) (storage_key op) :=
        IdentityIndexStore.encode_value (lww_record op origin seq)]>) n k =
  cell_step origin seq n k (cell_of v n k) (op, true).
Proof.
  intros (_ & _ & Hfn & _) Hty Hu Hdec Hd Hex Hsup Hn Hfit.
  pose proof (op_done_cell v op v1 n k Hu Hd Hn) as Hc1. unfold cell_of in Hc1. simplify_eq.
  unfold cell_of at 1, marker_at at 1. rewrite recs_updated by done. rewrite recs_other by by apply user_not_identity.
  rewrite lookup_insert. unfold cell_step.
  destruct (decide (dbi_name op = n)) as [E|E].
  - subst n. rewrite (bool_decide_true (dbi_name op = dbi_name op)) by done. simpl negb. cbn iota.
    destruct (decide (storage_key op = k)) as [Ek|Ek].
    + subst k. rewrite (bool_decide_true (storage_key op = storage_key op)) by done. simpl negb. cbn iota.
      cbn [c_mark cell_of]. rewrite Hsup. rewrite decide_True by done. cbn [mbind option_bind].
      rewrite Hdec. f_equal. naive_solver.
    + rewrite (bool_decide_false (storage_key op = k)) by done. simpl negb. cbn iota.
      rewrite decide_False by (intros [_ ?]%IdentityIndexStore.identity_key_parts; done). unfold cell_of. f_equal; [|naive_solver].
      rewrite op_value_other in * by done. naive_solver.
  - rewrite bool_decide_false by done. simpl negb. cbn iota.
    rewrite decide_False by (intros [? _]%IdentityIndexStore.identity_key_parts; done). unfold cell_of. f_equal; naive_solver.
Qed.

Lemma lww_record_ok op origin seq :
  op_plain op → node_ok origin → is_u64 seq →
  IdentityIndexStore.decode_value (IdentityIndexStore.encode_value (lww_record op origin seq)) =
  Ok (lww_record op origin seq).
Proof.
  intros (_ & _ & _ & Hs & Hr) Ho Hq.
  rewrite <- (app_nil_r (IdentityIndexStore.encode_value _)). apply IdentityIndexStore.decode_encode_value.
  split_and!; [done..|]. unfold lww_record. simpl. by case_bool_decide.
Qed.

Lemma step_superseded v op origin seq idx :
  index_ok v → superseded_by op origin (marker_at v (dbi_name op) (storage_key op)) = true →
  step_done op true origin seq idx v v.
Proof.
  intros Hix Hs. split_and!; [done..|]. intros n k _ _. unfold cell_step. case_bool_decide as E; [|done].
  subst n. simpl. case_bool_decide as Ek; [|done]. subst k. simpl. by rewrite Hs.
Qed.

Lemma wp_apply_lww op origin seq cache idx Q v :
  op_plain op → op_type op ≠ ClearTable → is_reserved_dbi_name (dbi_name op) = false →
  node_ok origin → is_u64 seq → op_compat v op → v_rw v = true → cache_ok v cache →
  ready v idx → store_table idx = IdentityIndexStore.identity_name → index_ok v →
  (∀ cache' v', step_done op true origin seq idx v v' → cache_ok v' cache' → Q (Ok cache') v') →
  wp (apply_lww_one_op op origin seq cache idx) Q v.
Proof.
  intros Hp Hty Hu Ho Hq Hcompat Hrw Hc Hr Hi Hix HQ.
  apply wp_bind, IdentityIndexStore.wp_get_value; [done|]. rewrite Hi.
  assert (∀ cur, marker_at v (dbi_name op) (storage_key op) = cur →
    wp (if match cur with Some c => lww_superseded op origin c | None => false end then mret cache
        else
          cache ← apply_one_op op cache;
          _ ← (if bool_decide (op_type op = Delete) then
                 IdentityIndexStore.tombstone idx (dbi_name op) (storage_key op) (lww_marker op origin seq)
               else IdentityIndexStore.put_value idx (dbi_name op) (storage_key op) (lww_marker op origin seq));
          mret cache) Q v) as Hgo.
  { intros cur Hm. destruct (superseded_by op origin cur) eqn:Es; unfold superseded_by in Es; rewrite Es.
    { apply wp_ret, HQ; [|done]. apply step_superseded; [done|]. by rewrite Hm. }
    apply wp_bind, wp_apply_one_op; [done..|]. intros cache1 v1 Hd Hc1.
    destruct (op_done_step _ _ _ origin seq idx Hu Hi Hix Hd) as (Ht & Hr1 & Hix1 & Hcp & _).
    specialize (Hr1 Hr). pose proof (lww_record_ok op origin seq Hp Ho Hq) as Hdec.
    apply wp_bind, wp_put_lww; [done|by rewrite (to_rw _ _ _ Ht)|]. rewrite Hi.
    assert (is_Some (v_dbs v1 !! IdentityIndexStore.identity_name)) as Hex.
    { rewrite <- Hi. eapply bound_is_Some, Hr1. }
    apply wp_ret, HQ.
    - split_and!.
      + etrans; [exact Ht|apply v_update_touch; by left].
      + intros _. by apply ready_update.
      + intros key x. rewrite recs_updated by done. intros [[<- <-]|[_ Hx]]%lookup_insert_Some; eauto.
      + intros op' Hsf Hc'. specialize (Hcp op' Hsf Hc'). unfold op_compat in *. simpl.
        rewrite lookup_alter. case_decide as E; [|done].
        rewrite E in *. by destruct (v_dbs v1 !! dbi_name op') as [d|].
      + intros n k Hn Hf. apply marker_cell; try done. by rewrite Hm.
    - eapply touch_cache, Hc1. apply (v_update_touch [IdentityIndexStore.identity_name]). by left. }
  unfold marker_at in Hgo. specialize (Hix (IdentityIndexStore.encode_key (dbi_name op) (storage_key op))).
  destruct (recs v _ !! _) as [x|]; [|by apply (Hgo None)].
  destruct (Hix x eq_refl) as [m Em]. simpl in Hgo. rewrite Em in *. by apply (Hgo (Some m)).
Qed.

(** *** The loop over the operations *)

Definition entry_ok (e : ChangeOp * bool) : Prop :=
  op_plain e.1 ∧ is_reserved_dbi_name (dbi_name e.1) = false ∧ (e.2 = true → op_type e.1 ≠ ClearTable).

Definition consistent (l : list ChangeOp) : Prop := ∀ op op', op ∈ l → op' ∈ l → same_flags op op'.

Definition cells_after (l : list (ChangeOp * bool)) (origin : NodeId) (seq : Z) (v v' : db_view) : Prop :=
  ∀ n k, is_reserved_dbi_name n = false → IdentityIndexStore.fits n →
    cell_of v' n k = foldl (cell_step origin seq n k) (cell_of v n k) l.

Lemma wp_apply_entry op b origin seq cache idx Q v :
  entry_ok (op, b) → node_ok origin → is_u64 seq → op_compat v op → v_rw v = true → cache_ok v cache →
  (b = true → ready v idx) → store_table idx = IdentityIndexStore.identity_name → index_ok v →
  (∀ cache' v', step_done op b origin seq idx v v' → cache_ok v' cache' → Q (Ok cache') v') →
  wp (if b then apply_lww_one_op op origin seq cache idx else apply_one_op op cache) Q v.
Proof.
  intros (Hp & Hu & Hty) Ho Hq Hc Hrw Hca Hr Hi Hix HQ. simpl in *. destruct b.
  - apply wp_apply_lww; auto.
  - apply wp_apply_one_op; try done. intros cache' v' Hd Hc'. apply HQ; [|done]. by apply op_done_step.
Qed.

Lemma wp_apply_ops l origin seq cache idx Q v :
  Forall entry_ok l → consistent l.*1 → Forall (op_compat v) l.*1 → node_ok origin → is_u64 seq →
  v_rw v = true → cache_ok v cache → (true ∈ l.*2 → ready v idx) →
  store_table idx = IdentityIndexStore.identity_name → index_ok v →
  (∀ v', v_touch (IdentityIndexStore.identity_name :: (dbi_name <$> l.*1)) v v' →
     cells_after l origin seq v v' → index_ok v' → Q (Ok tt) v') →
  wp (apply_ops l origin seq cache idx) Q v.
Proof.
  revert cache v. induction l as [|[op b] l IH];
    intros cache v Hl Hcons Hcompat Ho Hq Hrw Hc Hr Hi Hix HQ; simpl in *.
  { apply wp_ret, HQ; [done| |done]. by intros n k. }
  apply Forall_cons in Hl as [He Hl], Hcompat as [Hco Hcompat].
  apply wp_bind, wp_apply_entry; try done.
  { intros ->. apply Hr. by left. }
  intros cache1 v1 (Ht & Hr1 & Hix1 & Hcp & Hcell) Hc1. apply IH; try done.
  - intros x y Hx Hy. apply Hcons; by right.
  - rewrite Forall_forall in *. intros op' Hop'. apply Hcp; [|by apply Hcompat]. apply Hcons; [by left|by right].
  - by rewrite (to_rw _ _ _ Ht).
  - intros Hin. apply Hr1, Hr. by right.
  - intros v2 Ht2 Hcell2 Hix2. apply HQ; [| |done].
    + etrans; [eapply v_touch_mono, Ht; set_solver|eapply v_touch_mono, Ht2; set_solver].
    + intros n k Hn Hf. rewrite Hcell2, Hcell by done. done.
Qed.

(** *** The checks accept such a batch *)

Lemma collect_consistent l dbis o :
  Forall (fun op => is_reserved_dbi_name (dbi_name op) = false) l →
  (∀ op, op ∈ l → ∀ e, find_dbi (dbi_name op) dbis = Some e → bd_flags e = op_flags_of op) →
  consistent l → ∃ dbis', collect_ops_dbi_flags l dbis o = inr dbis'.
Proof.
  revert dbis. induction l as [|op l IH]; intros dbis Hu Hd Hc; simpl; [eauto|].
  apply Forall_cons in Hu as [-> Hu].
  assert (consistent l) as Hcl by (intros x y ??; apply Hc; by right).
  destruct (find_dbi (dbi_name op) dbis) as [e|] eqn:E.
  - rewrite (Hd op ltac:(by left) e E). unfold op_flags_of. rewrite Z.eqb_refl. simpl.
    apply IH; [done| |done]. intros op' Hop'. apply Hd. by right.
  - apply IH; [done| |done]. intros op' Hop' e' He'.
    assert (∀ n d, find_dbi n (dbis ++ [d]) =
      match find_dbi n dbis with Some e => Some e | None => if bool_decide (bd_name d = n) then Some d else None end) as Hf.
    { clear. intros n d. induction dbis as [|a dbis IH]; simpl; [done|].
      destruct (bool_decide (bd_name a = n)); [done|exact IH]. }
    rewrite Hf in He'. destruct (find_dbi (dbi_name op') dbis) as [e''|] eqn:E'.
    + simplify_eq. apply (Hd op'); [by right|done].
    + simpl in He'. case_bool_decide as En; [|done]. simplify_eq. simpl. apply Hc; [by left|by right|done].
Qed.

Lemma validated_accepts m_policy v l acc o :
  Forall (fun op => versioned_conflict m_policy op (VersionedDbiStore.registered v (dbi_name op)) = None) l →
  ∃ vs, validated m_policy v l acc o = inr vs.
Proof. intros Hl. revert acc. induction Hl as [|op l Hop Hl IH]; intros acc; simpl; [eauto|]. by rewrite Hop. Qed.

Lemma compat_no_mismatch v op :
  op_plain op → op_compat v op → ¬ dbi_mismatch v {| bd_name := dbi_name op; bd_flags := op_flags_of op |}.
Proof.
  intros (Hn & _) Hc (d & Hd & Hm). simpl in *. rewrite Hn in Hd. unfold op_compat in Hc. rewrite Hd in Hc.
  unfold flags_match in Hm. rewrite stored_persistent_open in Hm.
  assert (persistent_dbi_flags (op_flags_of op) = op_flags_of op) as E.
  { unfold op_flags_of, persistent_dbi_flags. by rewrite <- Z.land_assoc, Z.land_diag. }
  rewrite E, Hc, Z.eqb_refl, !orb_true_r in Hm. done.
Qed.

(** The batch names tables without duplicates, with the flags they have. *)
Definition batch_plain (v : db_view) (batch : ChangeBatch) : Prop :=
  Forall op_plain (ops batch) ∧ consistent (ops batch) ∧ Forall (op_compat v) (ops batch).

(** The operations with the marks of the validation. *)
Definition entries (v : db_view) (batch : ChangeBatch) : list (ChangeOp * bool) :=
  zip (ops batch) (VersionedDbiStore.registered v <$> (dbi_name <$> ops batch)).

Lemma acceptable_verdict m_policy v batch :
  acceptable m_policy v batch → batch_ok batch → consistent (ops batch) →
  ∃ dbis, verdict m_policy v batch = inr (VersionedDbiStore.registered v <$> (dbi_name <$> ops batch), dbis).
Proof.
  intros (H0 & H1 & Hops & Hs) (_ & _ & _ & Hseq & _) Hc. apply Forall_and in Hops as [Hu Hv]. unfold verdict.
  pose proof (AppliedStore.applied_seq_range (recs v AppliedStore.applied_name) (origin_node_id batch)) as Hr.
  fold (last_seq v (origin_node_id batch)) in Hr. unfold u_range in Hr, Hseq.
  rewrite (proj2 (Z.eqb_neq _ _) H0), (proj2 (Z.leb_gt _ _)), Z.mod_small, (proj2 (Z.eqb_eq _ _) H1) by lia.
  destruct (validated_accepts m_policy v (ops batch) [] (reached v batch) Hv) as [vs Ev]. simpl negb. cbn iota.
  rewrite Ev. apply validated_length in Ev as ->.
  destruct (collect_consistent (ops batch) [] (reached v batch) Hu) as [dbis Ed]; [done|done|].
  unfold collect_batch_dbi_flags. rewrite Ed. by exists dbis.
Qed.

Lemma verdict_entries m_policy v batch vs dbis :
  verdict m_policy v batch = inr (vs, dbis) → batch_plain v batch →
  Forall (fun op => is_reserved_dbi_name (dbi_name op) = false) (ops batch) →
  ¬ Exists (fun e => dbi_mismatch v e ∨ is_reserved_dbi_name (c_str (bd_name e)) = true) dbis.
Proof.
  intros Hv (Hp & _ & Hc) Hu. unfold verdict in Hv. repeat case_match; simplify_eq.
  rewrite Exists_exists. intros (e & He & Hbad).
  assert (Forall (fun e => ¬ (dbi_mismatch v e ∨ is_reserved_dbi_name (c_str (bd_name e)) = true)) dbis) as Hall;
    [|rewrite Forall_forall in Hall; exact (Hall e He Hbad)].
  eapply collect_entries; [eassumption|done|].
  rewrite Forall_forall in Hp, Hc, Hu. intros op Hop [Hm|Hr].
  - by eapply compat_no_mismatch; [apply Hp|apply Hc|].
  - simpl in Hr. apply Hu, reserved_c_str in Hop. congruence.
Qed.

Lemma versioned_not_clear m_policy op : versioned_conflict m_policy op true = None → op_type op ≠ ClearTable.
Proof.
  unfold versioned_conflict. intros H E. rewrite E in H. simpl in H.
  rewrite orb_true_r in H. repeat case_match; done.
Qed.

Lemma entries_ok m_policy v batch :
  acceptable m_policy v batch → batch_plain v batch → Forall entry_ok (entries v batch).
Proof.
  intros (_ & _ & Hops & _) (Hp & _). rewrite Forall_forall in Hops, Hp. apply Forall_forall.
  intros [op b] Hin. pose proof Hin as Hop%elem_of_zip_l. destruct (Hops op Hop) as [Hu Hv]. split_and!; simpl; auto.
  intros ->. eapply versioned_not_clear.
  assert (VersionedDbiStore.registered v (dbi_name op) = true) as <-; [|exact Hv].
  unfold entries in Hin. rewrite <- list_fmap_compose in Hin.
  apply list_elem_of_lookup_1 in Hin as [i Hi]. apply lookup_zip_with_Some in Hi as (x & y & [= <- <-] & Hx & Hy).
  rewrite list_lookup_fmap, Hx in Hy. by simplify_option_eq.
Qed.

(** The state of the receiver that the write phase starts from is unchanged where it reads
    it. *)
Lemma frame_cells ns v v1 l origin seq v2 :
  v_frame ns v v1 → (∀ n, n ∈ ns → is_reserved_dbi_name n = true ∧ n ≠ IdentityIndexStore.identity_name) →
  cells_after l origin seq v1 v2 → cells_after l origin seq v v2.
Proof.
  intros Hf Hns Hc n k Hn Hfit. rewrite Hc by done. f_equal. unfold cell_of, marker_at.
  rewrite (recs_frame _ _ _ _ Hf), (recs_frame _ _ _ IdentityIndexStore.identity_name Hf); [done|..].
  - intros [_ ?]%Hns. done.
  - intros [? _]%Hns. congruence.
Qed.

Lemma same_user_compat v v1 l :
  same_user v v1 → Forall (fun op => is_reserved_dbi_name (dbi_name op) = false) l →
  Forall (op_compat v) l → Forall (op_compat v1) l.
Proof.
  intros Hs Hu Hc. rewrite Forall_forall in *. intros op Hop. unfold op_compat. rewrite Hs by auto. by apply Hc.
Qed.

Lemma wp_commit_effect env_handle batch vs cache applied o v :
  env_handle = v_env v → v_rw v = true → sys_table v IdentityIndexStore.identity_name →
  node_ok (origin_node_id batch) → is_u64 (seq_no batch) → length vs = length (ops batch) →
  Forall entry_ok (zip (ops batch) vs) → consistent (ops batch) → Forall (op_compat v) (ops batch) →
  index_ok v → cache_ok v cache → applied_ready v applied →
  wp (commit_phase env_handle batch vs cache applied o) (fun r v' =>
    (∃ o, r = Ok o ∧ out_result o = Applied) ∧
    cells_after (zip (ops batch) vs) (origin_node_id batch) (seq_no batch) v v' ∧ index_ok v') v.
Proof.
  intros Henv Hrw Hs Hor Hseq Hlen Hent Hcons Hcompat Hix Hc [Hr Hn].
  assert (Forall (fun op => is_reserved_dbi_name (dbi_name op) = false) (ops batch)) as Hu.
  { rewrite <- (fst_zip (ops batch) vs) by lia. apply Forall_fmap. eapply Forall_impl; [exact Hent|]. by intros ? (_ & ? & _). }
  apply wp_bind, wp_open_identity; [done..|]. intros idx v1 He1 Hsu Hi Hidx.
  apply wp_bind, wp_apply_ops; rewrite ?fst_zip, ?snd_zip by lia; try done.
  - by eapply same_user_compat.
  - by rewrite (ext_rw _ _ He1).
  - by eapply cache_ok_ext.
  - unfold index_ok. by rewrite (ext_recs _ _ _ He1).
  - intros v2 Ht Hcells Hix2.
    assert (AppliedStore.applied_name ∉ IdentityIndexStore.identity_name :: (dbi_name <$> ops batch)) as Hna.
    { rewrite not_elem_of_cons. split; [done|]. intros (op & E & Hop)%list_elem_of_fmap.
      rewrite Forall_forall in Hu. apply Hu in Hop. by rewrite <- E in Hop. }
    assert (ready v2 applied) as Hr2.
    { eapply touch_ready; [exact Ht|by rewrite Hn|by eapply ready_ext]. }
    apply wp_bind, AppliedStore.wp_set_last_applied_seq; [done|by rewrite (to_rw _ _ _ Ht), (ext_rw _ _ He1)|].
    apply wp_ret. split; [by eexists|]. rewrite Hn. split; [|unfold index_ok; by rewrite recs_other].
    intros n k Hnu Hf.
    assert (cell_of v1 n k = cell_of v n k) as <- by (unfold cell_of, marker_at; by rewrite !(ext_recs _ _ _ He1)).
    rewrite <- Hcells by done. unfold cell_of, marker_at.
    rewrite !recs_other; [done|done|]. intros ->. done.
Qed.

Lemma wp_apply_effect (env_handle : Z) (m_policy : ConflictPolicy) (batch : ChangeBatch) (v : db_view) :
  engine_ok env_handle v → batch_ok batch → index_ok v → acceptable m_policy v batch → batch_plain v batch →
  wp (apply_batch_ex env_handle m_policy batch) (fun r v' =>
    (∃ o, r = Ok o ∧ out_result o = Applied) ∧
    cells_after (entries v batch) (origin_node_id batch) (seq_no batch) v v' ∧ index_ok v') v.
Proof.
  intros Hok Hb Hix Hacc Hp. pose proof Hb as (_ & _ & Hor & Hseq & _). pose proof Hp as (_ & Hcons & Hcompat).
  pose proof (entries_ok _ _ _ Hacc Hp) as Hent. pose proof Hacc as (_ & _ & Hops & Hsel).
  destruct (acceptable_verdict m_policy v batch Hacc Hb Hcons) as [dbis Hv].
  apply wp_apply_phases; [done| |]; rewrite Hv; [done|]. intros vs dbis' [= <- <-]. split_and!.
  - intros o v' _ _ _ Hex. exfalso. eapply verdict_entries; [exact Hv|done| |exact Hex].
    eapply Forall_impl; [exact Hops|]. by intros op [].
  - by rewrite Hsel.
  - intros v1 cache applied Hf Hsu _ _ Hc Ha _. eapply wp_mono; [apply wp_commit_effect; try done|].
    + by rewrite (fr_env _ _ _ Hf), (ok_env _ _ Hok).
    + by rewrite (fr_rw _ _ _ Hf), (ok_rw _ _ Hok).
    + eapply sys_frame; [exact Hf|]. apply Hok. by do 4 right; left.
    + by rewrite !length_fmap.
    + eapply same_user_compat; [done| |done]. eapply Forall_impl; [exact Hops|]. by intros op [].
    + unfold index_ok. by rewrite (recs_frame _ _ _ _ Hf) by set_solver.
    + intros r v' (Ho & Hcells & Hix'). split; [done|]. split; [|done]. eapply frame_cells; [exact Hf| |exact Hcells].
      intros n ->%list_elem_of_singleton. done.
Qed.

(** C2: an acceptable batch on tables without duplicates is applied (the only other outcome
    is the exception of a storage failure), and every record of every user table, with its
    last-writer-wins marker, ends as the fold of the batch's operations over it, in order:
    raw operations always act, operations on registered tables only when the stored
    revision does not supersede them. *)
Theorem apply_batch_effect (env_handle : Z) (m_policy : ConflictPolicy) (batch : ChangeBatch) (v : db_view) :
  engine_ok env_handle v → batch_ok batch → index_ok v → acceptable m_policy v batch → batch_plain v batch →
  wp (apply_batch_ex env_handle m_policy batch) (fun r v' =>
    (∃ o, r = Ok o ∧ out_result o = Applied) ∧
    cells_after (entries v batch) (origin_node_id batch) (seq_no batch) v v') v.
Proof.
  intros Hok Hb Hix Hacc Hp. eapply wp_mono; [by apply wp_apply_effect|]. by intros r v' (? & ? & _).
Qed.
End Effect.

(** ** Convergence of last-writer-wins tables *)

(** A write of the history of a cell: the operation, its origin and its sequence number. *)
Definition write : Type := ChangeOp * NodeId * Z.
Definition write_origin (w : write) : NodeId := w.1.2.

Definition lww_write (n k : bytes) (c : cell) (w : write) : cell :=
  let '(op, origin, seq) := w in cell_step origin seq n k c (op, true).

(** Revision keys are compared first, origins break ties. *)
Definition stamp_le (a b : bytes * NodeId) : Prop :=
  bytes_lt a.1 b.1 ∨ a.1 = b.1 ∧ bytes_le a.2 b.2.

Lemma stamp_le_total a b : stamp_le a b ∨ stamp_le b a.
Proof.
  unfold stamp_le. destruct (bytes_le_total a.1 b.1) as [[?|E]%bytes_le_lteq|[?|E]%bytes_le_lteq]; auto.
  - destruct (bytes_le_total a.2 b.2); naive_solver.
  - destruct (bytes_le_total a.2 b.2); naive_solver.
Qed.

Lemma stamp_le_antisym a b : stamp_le a b → stamp_le b a → a = b.
Proof.
  unfold stamp_le. destruct a as [r1 o1], b as [r2 o2]. simpl. intros [H1|[-> H1]] [H2|[E H2]].
  - exfalso. eapply bytes_lt_irrefl, bytes_lt_trans; eassumption.
  - subst. by apply bytes_lt_irrefl in H1.
  - by apply bytes_lt_irrefl in H2.
  - f_equal. apply bytes_le_lteq in H1 as [H1|?]; [|done].
    apply bytes_nle_lt in H1. done.
Qed.

Lemma stamp_le_trans a b c : stamp_le a b → stamp_le b c → stamp_le a c.
Proof.
  unfold stamp_le. intros [H1|[E1 H1]] [H2|[E2 H2]].
  - left. by eapply bytes_lt_trans.
  - left. by rewrite <- E2.
  - left. by rewrite E1.
  - right. split; [congruence|]. by etransitivity.
Qed.

Lemma stamp_lt_le a b : ¬ stamp_le a b → stamp_le b a.
Proof. destruct (stamp_le_total a b); tauto. Qed.

Definition write_stamp (w : write) : bytes * NodeId := (revision_key w.1.1, w.1.2).
Definition mark_stamp (m : IdentityIndexStore.IdentityIndexValue) : bytes * NodeId :=
  (IdentityIndexStore.iv_revision_key m, IdentityIndexStore.iv_origin m).

Lemma superseded_stamp op origin seq m :
  node_ok origin → node_ok (IdentityIndexStore.iv_origin m) →
  lww_superseded op origin m = true ↔ stamp_le (write_stamp (op, origin, seq)) (mark_stamp m).
Proof.
  intros H1 H2. unfold lww_superseded, stamp_le, write_stamp, mark_stamp. simpl.
  rewrite orb_true_iff, andb_true_iff, !bool_decide_eq_true, Z.leb_le.
  rewrite compare_node_id_bytes by (unfold node_ok in *; congruence).
  unfold bytes_le. destruct (bytes_compare origin _); naive_solver lia.
Qed.

(** The write acts on the cell. *)
Definition on_cell (n k : bytes) (w : write) : Prop := dbi_name w.1.1 = n ∧ storage_key w.1.1 = k.

Definition written (k : bytes) (w : write) : cell := {|
  c_val := op_value w.1.1 k None; c_mark := Some (lww_record w.1.1 w.1.2 w.2) |}.

Definition cell_ok (c : cell) : Prop :=
  ∀ m, c_mark c = Some m → node_ok (IdentityIndexStore.iv_origin m).

Lemma lww_write_off n k c w : ¬ on_cell n k w → lww_write n k c w = c.
Proof.
  destruct w as [[op o] s]. unfold on_cell, lww_write, cell_step. simpl. intros Hn.
  repeat case_bool_decide; naive_solver.
Qed.

(** A write on the cell replaces it unless its stamp is at most the stamp of the cell. *)
Lemma lww_write_on n k c w :
  on_cell n k w → node_ok (write_origin w) → cell_ok c →
  lww_write n k c w = c ∧ (∃ m, c_mark c = Some m ∧ stamp_le (write_stamp w) (mark_stamp m)) ∨
  lww_write n k c w = written k w ∧ (∀ m, c_mark c = Some m → ¬ stamp_le (write_stamp w) (mark_stamp m)).
Proof.
  destruct w as [[op o] s]. intros [<- <-] Ho Hc. unfold lww_write, cell_step, written. simpl.
  rewrite !bool_decide_true by done. simpl.
  assert (∀ old, op_value op (storage_key op) old = op_value op (storage_key op) None) as Hval.
  { intros old. unfold op_value. destruct (op_type op); by rewrite ?decide_True. }
  rewrite Hval. destruct (c_mark c) as [m|] eqn:Em; simpl; [|right; by split].
  specialize (Hc m Em). pose proof (superseded_stamp op o s m Ho Hc) as Hs.
  destruct (lww_superseded op o m).
  - left. split; [done|]. exists m. naive_solver.
  - right. split; [done|]. intros ? [= <-] Hle%Hs. done.
Qed.

Lemma written_ok k w : node_ok (write_origin w) → cell_ok (written k w).
Proof. intros Ho m [= <-]. done. Qed.

Lemma lww_write_ok n k c w : node_ok (write_origin w) → cell_ok c → cell_ok (lww_write n k c w).
Proof.
  intros Ho Hc. destruct (decide (on_cell n k w)) as [Hon|Hoff]; [|by rewrite lww_write_off].
  destruct (lww_write_on n k c w Hon Ho Hc) as [[-> _]|[-> _]]; [done|by apply written_ok].
Qed.

(** Writes of different origins commute. *)
Lemma lww_write_comm n k c a b :
  node_ok (write_origin a) → node_ok (write_origin b) → cell_ok c → write_origin a ≠ write_origin b →
  lww_write n k (lww_write n k c a) b = lww_write n k (lww_write n k c b) a.
Proof.
  intros Ha Hb Hc Hne.
  destruct (decide (on_cell n k a)) as [Ona|]; [|by rewrite !(lww_write_off n k _ a)].
  destruct (decide (on_cell n k b)) as [Onb|]; [|by rewrite !(lww_write_off n k _ b)].
  assert (write_stamp a ≠ write_stamp b) as Hst by (intros [= _ E]; done).
  pose proof (written_ok k a Ha) as Hwa. pose proof (written_ok k b Hb) as Hwb.
  assert (∀ w, mark_stamp (lww_record w.1.1 w.1.2 w.2) = write_stamp w) as Hms by done.
  pose proof (stamp_le_antisym (write_stamp a) (write_stamp b)) as Hanti.
  pose proof (stamp_lt_le (write_stamp a) (write_stamp b)) as Htot.
  pose proof (lww_write_on n k (written k a) b Onb Hb Hwa) as Hab.
  pose proof (lww_write_on n k (written k b) a Ona Ha Hwb) as Hba.
  destruct (lww_write_on n k c a Ona Ha Hc) as [[Ea (m & Em & Hma)]|[Ea Hma]],
    (lww_write_on n k c b Onb Hb Hc) as [[Eb (m' & Em' & Hmb)]|[Eb Hmb]]; rewrite Ea, Eb, ?Ea, ?Eb; try done.
  - destruct Hba as [[-> _]|[_ Hn]]; [done|]. exfalso. eapply (Hn _ eq_refl). rewrite Hms.
    eapply stamp_le_trans; [exact Hma|]. apply stamp_lt_le. by apply Hmb.
  - destruct Hab as [[-> _]|[_ Hn]]; [done|]. exfalso. eapply (Hn _ eq_refl). rewrite Hms.
    eapply stamp_le_trans; [exact Hmb|]. apply stamp_lt_le. by apply Hma.
  - destruct Hab as [[-> (? & [= <-] & H1)]|[-> H1]], Hba as [[-> (? & [= <-] & H2)]|[-> H2]]; try done; exfalso.
    + rewrite Hms in *. auto.
    + specialize (H1 _ eq_refl). specialize (H2 _ eq_refl). rewrite Hms in *. auto.
Qed.

(** The same writes, in the same order for each origin. *)
Definition from_origin (o : NodeId) (h : list write) : list write := filter (fun w => write_origin w = o) h.
Definition same_by_origin (h1 h2 : list write) : Prop := ∀ o, from_origin o h1 = from_origin o h2.

Lemma filter_cons_inv {A} (P : A → Prop) `{∀ x, Decision (P x)} l a r :
  filter P l = a :: r → ∃ p q, l = p ++ a :: q ∧ Forall (fun x => ¬ P x) p ∧ filter P q = r.
Proof.
  induction l as [|x l IH]; [done|]. rewrite filter_cons. case_decide as Hx.
  - intros [= -> <-]. by exists [], l.
  - intros (p & q & -> & Hp & Hq)%IH. exists (x :: p), q. by repeat constructor.
Qed.

(** A write can be moved before writes of other origins. *)
Lemma lww_write_front n k a p q c :
  node_ok (write_origin a) → cell_ok c → Forall (fun w => node_ok (write_origin w)) p →
  Forall (fun w => write_origin w ≠ write_origin a) p →
  foldl (lww_write n k) c (p ++ a :: q) = foldl (lww_write n k) (lww_write n k c a) (p ++ q).
Proof.
  intros Ha. revert c. induction p as [|w p IH]; intros c Hc Hp Hne; [done|].
  apply Forall_cons in Hp as [Hw Hp], Hne as [Hwa Hne]. simpl. rewrite IH; [|by apply lww_write_ok|done..].
  f_equal. by apply lww_write_comm.
Qed.

(** C3: last-writer-wins tables converge.  Two replicas that start with the same cell and
    apply the same writes to it, each origin's in its own order but interleaved in any way
    between origins, end with the same value and the same marker. *)
Theorem lww_convergence (n k : bytes) (c : cell) (h1 h2 : list write) :
  cell_ok c → Forall (fun w => node_ok (write_origin w)) h1 → Forall (fun w => node_ok (write_origin w)) h2 →
  same_by_origin h1 h2 → foldl (lww_write n k) c h1 = foldl (lww_write n k) c h2.
Proof.
  intros Hc H1. revert c Hc h2. induction H1 as [|a t Ha Ht IH]; intros c Hc h2 H2 Hs.
  - destruct h2 as [|w h2]; [done|]. specialize (Hs (write_origin w)). unfold from_origin in Hs.
    by rewrite filter_cons_True in Hs.
  - pose proof (Hs (write_origin a)) as E. unfold from_origin in E. rewrite filter_cons_True in E by done.
    symmetry in E. apply filter_cons_inv in E as (p & q & -> & Hp & Hq).
    apply Forall_app in H2 as [Hop [_ Hoq]%Forall_cons]. rewrite lww_write_front by done. simpl.
    apply IH; [by apply lww_write_ok|by apply Forall_app|]. intros o. specialize (Hs o). unfold from_origin in *.
    rewrite filter_app in Hs |- *. destruct (decide (write_origin a = o)) as [<-|Hne].
    + rewrite (filter_none _ p) by exact Hp. rewrite Hq. done.
    + by rewrite !filter_cons_False in Hs by done.
Qed.

(** ** Witnesses *)

Definition sample_registered_view : db_view := {|
  v_env := 1; v_rw := true;
  v_dbs := {[ bytes_of_string "users" := mk_dbi 0 {[ bytes_of_string "k" := bytes_of_string "old" ]};
              VersionedDbiStore.versioned_name := mk_dbi 0 {[ bytes_of_string "users" := [] ]} ]};
  v_handles := ∅;
|}.

Definition sample_lww_op (type : ChangeOpType) (key rev val : string) : ChangeOp := {|
  op_type := type; op_flags := OP_HAS_REVISION_KEY; dbi_flags := 0; dbi_name := bytes_of_string "users";
  storage_key := bytes_of_string key; value := bytes_of_string val; identity_key := [];
  revision_key := bytes_of_string rev |}.

Definition sample_lww_batch : ChangeBatch := {|
  version := 1; batch_flags := 0; origin_node_id := replicate 16 Byte.x05; seq_no := 1; time_unix_ns := 0;
  ops := [sample_lww_op Put "k" "r2" "new"; sample_lww_op Delete "k" "r1" ""; sample_lww_op Put "j" "r1" "x"] |}.

Lemma sample_registered_ok : engine_ok 1 sample_registered_view.
Proof.
  split; [reflexivity..| |vm_compute; discriminate|vm_compute; discriminate].
  intros n Hn. repeat (apply elem_of_cons in Hn as [->|Hn]; [reflexivity|]). by apply elem_of_nil in Hn.
Qed.

Lemma apply_batch_effect_witness :
  c_val (foldl (cell_step (replicate 16 Byte.x05) 1 (bytes_of_string "users") (bytes_of_string "k"))
    (cell_of sample_registered_view (bytes_of_string "users") (bytes_of_string "k"))
    (entries sample_registered_view sample_lww_batch)) = Some (bytes_of_string "new") ∧
  wp (X := ref_mdbx) (apply_batch_ex 1 LastWriterWins sample_lww_batch) (fun r v' =>
    (∃ o, r = Ok o ∧ out_result o = Applied) ∧
    cells_after (entries sample_registered_view sample_lww_batch) (replicate 16 Byte.x05) 1
      sample_registered_view v') sample_registered_view.
Proof.
  split; [vm_compute; reflexivity|].
  apply (apply_batch_effect (X := ref_mdbx) 1 LastWriterWins sample_lww_batch sample_registered_view).
  - apply sample_registered_ok.
  - apply (bool_decide_unpack _). vm_compute. exact I.
  - intros key x. vm_compute. discriminate.
  - split_and!; [vm_compute; discriminate|vm_compute; reflexivity| |vm_compute; reflexivity].
    repeat constructor; vm_compute; reflexivity.
  - split_and!.
    + repeat constructor; vm_compute; reflexivity.
    + intros a b Ha Hb. repeat (apply elem_of_cons in Ha as [->|Ha]); [..|by apply elem_of_nil in Ha];
        repeat (apply elem_of_cons in Hb as [->|Hb]); try (by apply elem_of_nil in Hb); intros _; reflexivity.
    + repeat constructor.
Defined.

Definition sample_write (o : byte) (rev val : string) (seq : Z) : write :=
  (sample_lww_op Put "k" rev val, replicate 16 o, seq).

Lemma lww_convergence_witness :
  let a := sample_write Byte.x01 "r1" "one" 1 in
  let b := sample_write Byte.x02 "r3" "two" 1 in
  let d := sample_write Byte.x01 "r3" "three" 2 in
  let fold := foldl (lww_write (bytes_of_string "users") (bytes_of_string "k")) {| c_val := None; c_mark := None |} in
  c_val (fold [a; b; d]) = Some (bytes_of_string "two") ∧ fold [a; b; d] = fold [a; d; b].
Proof.
  intros a b d fold. split; [vm_compute; reflexivity|].
  apply lww_convergence.
  - discriminate.
  - repeat constructor.
  - repeat constructor.
  - intros o. unfold from_origin. rewrite !filter_cons. repeat case_decide; simplify_eq; reflexivity.
Defined.
