(* ===== verification/PullEngine.v ===== *)
(** * Pulling and pushing change batches

    Models the incremental pull and the push of
    [src/include/mdbx_containers/sync/engine/SyncEngine.hpp].  [pull_changelog_page] reads
    the retained batches a peer does not have yet, in pages; [make_push_request] collects a
    contiguous range of the node's own batches. *)
From S2P Require Import Prelude SyncCommon KeyCodec SyncProtocol ChangeBatchCodec Mdbx RefMdbx StoreBase.
From S2P Require MetaStore AppliedStore OriginIndexStore ChangeLogStore.
From S2P Require Import ApplyEngine.
Open Scope Z_scope.

Record PullOrigin : Type := {
  pull_origin : NodeId;
  pull_last_seq : Z;
  has_last_seq : bool;
}.

Definition max_u64 : Z := 2 ^ 64 - 1.

Definition make_changelog_key (origin : NodeId) (seq : Z) : bytes := origin ++ write_u64_be seq.

Definition bad_changelog_key : exn := runtime_error "SyncEngine: invalid changelog key size".

Definition changelog_key_origin (key : bytes) : result NodeId :=
  _ ← throw_if (negb (length key =? 24)%nat) bad_changelog_key; Ok (take 16 key).
Definition changelog_key_seq (key : bytes) : result Z :=
  _ ← throw_if (negb (length key =? 24)%nat) bad_changelog_key; Ok (read_u64_be (drop 16 key)).

Definition changelog_key_matches_origin (key : bytes) (origin : NodeId) : result bool :=
  o ← changelog_key_origin key; Ok (compare_node_id o origin =? 0).

Definition make_pull_origin (origin : NodeId) : PullOrigin :=
  {| pull_origin := origin; pull_last_seq := 0; has_last_seq := false |}.
Definition make_pull_origin_at (origin : NodeId) (last_seq : Z) : PullOrigin :=
  {| pull_origin := origin; pull_last_seq := last_seq; has_last_seq := true |}.

Definition origin_is_at_tail (origin : PullOrigin) (request : PullRequest) : bool :=
  has_last_seq origin && (last_seq_for (have request) (pull_origin origin) >=? pull_last_seq origin).

(** ** Responses *)

(** The assignments a failure makes. *)
Definition pull_failure (out : PullResponse) (code : SyncResponseErrorCode) (error : string)
    : PullResponse := {|
  remote_have := remote_have out; remote_tail := remote_tail out;
  remote_tail_known := remote_tail_known out; batches := []; has_more := false;
  pull_ok := false; pull_error := error; pull_error_code := code; pull_error_retryable := false;
  is_full_snapshot := is_full_snapshot out; snapshot_chunk := snapshot_chunk out;
|}.

Definition set_snapshot_required (out : PullResponse) (origin : PullOrigin) (have_seq : Z)
    (earliest : option Z) : PullResponse :=
  pull_failure out SnapshotRequired
    ("requested changelog history was pruned for origin" +:+
     " (have_seq=" +:+ to_string have_seq +:+
     (if has_last_seq origin then ", tail_seq=" +:+ to_string (pull_last_seq origin) else "") +:+
     match earliest with
     | Some e => ", earliest_retained_seq=" +:+ to_string e
     | None => ", earliest_retained_seq=none"
     end +:+ ")").

Definition set_batch_too_large (out : PullResponse) (seq batch_bytes limit : Z) : PullResponse :=
  pull_failure out BatchTooLarge
    ("retained changelog batch exceeds max_single_batch_bytes" +:+
     " (seq=" +:+ to_string seq +:+ ", batch_bytes=" +:+ to_string batch_bytes +:+
     ", max_single_batch_bytes=" +:+ to_string limit +:+ ")").

Definition push_batch (out : PullResponse) (b : ChangeBatch) : PullResponse := {|
  remote_have := remote_have out; remote_tail := remote_tail out;
  remote_tail_known := remote_tail_known out; batches := batches out ++ [b];
  has_more := has_more out; pull_ok := pull_ok out; pull_error := pull_error out;
  pull_error_code := pull_error_code out; pull_error_retryable := pull_error_retryable out;
  is_full_snapshot := is_full_snapshot out; snapshot_chunk := snapshot_chunk out;
|}.

Definition set_cursors (out : PullResponse) (remote tail : SyncCursor) (known : bool) : PullResponse := {|
  remote_have := remote; remote_tail := tail; remote_tail_known := known;
  batches := batches out; has_more := has_more out; pull_ok := pull_ok out;
  pull_error := pull_error out; pull_error_code := pull_error_code out;
  pull_error_retryable := pull_error_retryable out;
  is_full_snapshot := is_full_snapshot out; snapshot_chunk := snapshot_chunk out;
|}.

Definition set_has_more (out : PullResponse) (more : bool) : PullResponse := {|
  remote_have := remote_have out; remote_tail := remote_tail out;
  remote_tail_known := remote_tail_known out; batches := batches out; has_more := more;
  pull_ok := pull_ok out; pull_error := pull_error out; pull_error_code := pull_error_code out;
  pull_error_retryable := pull_error_retryable out;
  is_full_snapshot := is_full_snapshot out; snapshot_chunk := snapshot_chunk out;
|}.

(** ** Cursors *)

(** The cursor and the result; a missing tail empties the cursor. *)
Fixpoint copy_known_tail (origins : list PullOrigin) (out : SyncCursor) : SyncCursor * bool :=
  match origins with
  | [] => (out, true)
  | o :: origins' =>
      if negb (has_last_seq o) then (empty_cursor, false)
      else copy_known_tail origins' (cursor_set out (pull_origin o) (pull_last_seq o))
  end.

(** The walk over the source map does not depend on its order. *)
Definition merge_sync_cursor_max (target source : SyncCursor) : SyncCursor :=
  foldl (fun t e => let current := last_seq_for t e.1 in
                    if e.2 >? current then cursor_set t e.1 e.2 else t)
    target (map_to_list (last_seq_by_origin source)).

(** The body of the walk over the applied table. *)
Definition applied_step (cur : SyncCursor) (k x : bytes) : result (SyncCursor * bool) :=
  Ok (if (length k =? 16)%nat then
        if (length x =? 8)%nat then cursor_set cur k (read_u64_le x) else cur
      else cur, true).

(** The body of the walk over the batches of one origin; the flag is the result of the
    function when the walk ends here. *)
Definition pull_state : Type := PullResponse * Z * bool.

Definition pull_step (origin : NodeId) (request : PullRequest) (st : pull_state) (k x : bytes)
    : result (pull_state * bool) :=
  let '(out, total_bytes, _) := st in
  matches ← changelog_key_matches_origin k origin;
  if negb matches then Ok ((out, total_bytes, false), false)
  else if (Z.of_nat (length (batches out)) >=? max_batches request) ||
          (total_bytes >=? max_bytes request)
  then Ok ((out, total_bytes, true), false)
  else
    key_seq ← changelog_key_seq k;
    if Z.of_nat (length x) >? max_single_batch_bytes request then
      Ok ((set_batch_too_large out key_seq (Z.of_nat (length x)) (max_single_batch_bytes request),
           total_bytes, true), false)
    else
      batch ← decode_exact x None;
      if negb (compare_node_id (origin_node_id batch) origin =? 0) || negb (seq_no batch =? key_seq)
      then Throw (runtime_error "SyncEngine: changelog key/value mismatch")
      else Ok ((push_batch out batch, total_bytes + Z.of_nat (length x), false), true).

Section Code.
Context {X : Mdbx} (env_handle : Z) (fuel : nat).

Definition open_store_ro (name : bytes) (what : string) : M Z :=
  '(rc, dbi) ← dbi_open name 0;
  if rc =? MDBX_NOTFOUND then mret 0
  else _ ← check_mdbx rc ("SyncEngine: failed to open store '" +:+ what +:+ "'"); mret dbi.

Definition open_changelog_ro : M Z := open_store_ro ChangeLogStore.changelog_name "_mdbxc_changelog".
Definition open_applied_ro : M Z := open_store_ro AppliedStore.applied_name "_mdbxc_applied".

Definition read_applied_cursor (cur : SyncCursor) : M SyncCursor :=
  applied_dbi ← open_applied_ro;
  if applied_dbi =? 0 then mret cur
  else scan fuel applied_dbi MDBX_FIRST [] applied_step "applied_cursor: cursor open failed"
         "applied_cursor: cursor walk failed" cur.

Definition applied_cursor_in : M SyncCursor :=
  _ ← checked_txn_env env_handle "SyncEngine::applied_cursor";
  read_applied_cursor empty_cursor.

(** The earliest sequence number of an origin; [None] is the result [false]. *)
Definition changelog_earliest_seq (dbi : Z) (origin : NodeId) : M (option Z) :=
  '(rc, c) ← cursor_open dbi;
  _ ← check_mdbx rc "pull_full: earliest retained cursor open failed";
  '(rc, k, _, _) ← cursor_get c MDBX_SET_RANGE (make_changelog_key origin 0);
  if rc =? MDBX_NOTFOUND then mret None
  else
    _ ← check_mdbx rc "pull_full: earliest retained cursor get failed";
    matches ← lift (changelog_key_matches_origin k origin);
    if negb matches then mret None
    else s ← lift (changelog_key_seq k); mret (Some s).

(** [None] is the result [true]; otherwise the response that was filled in. *)
Definition request_has_retained_start (dbi : Z) (origin : PullOrigin) (request : PullRequest)
    (out : PullResponse) : M (option PullResponse) :=
  if origin_is_at_tail origin request then mret None
  else
    let have_seq := last_seq_for (have request) (pull_origin origin) in
    if have_seq =? max_u64 then mret None
    else
      earliest ← changelog_earliest_seq dbi (pull_origin origin);
      match earliest with
      | None =>
          if has_last_seq origin && (have_seq <? pull_last_seq origin)
          then mret (Some (set_snapshot_required out origin have_seq None))
          else mret None
      | Some earliest_seq =>
          if (have_seq + 1) mod 2 ^ 64 <? earliest_seq
          then mret (Some (set_snapshot_required out origin have_seq (Some earliest_seq)))
          else mret None
      end.

(** The loop of [collect_changelog_origins]: [k] is the current key. *)
Fixpoint collect_origins_loop (n : nat) (c : cursor) (k : bytes) (origins : list PullOrigin)
    : M (list PullOrigin) :=
  match n with
  | O => fail out_of_fuel
  | S n =>
      origin ← lift (changelog_key_origin k);
      let origins := origins ++ [make_pull_origin origin] in
      '(rc, next_key, _, c) ← cursor_get c MDBX_SET_RANGE (make_changelog_key origin max_u64);
      if rc =? MDBX_SUCCESS then
        next ← lift (changelog_key_origin next_key);
        if compare_node_id next origin =? 0 then
          '(rc, k, _, c) ← cursor_get c MDBX_NEXT [];
          if rc =? MDBX_SUCCESS then collect_origins_loop n c k origins
          else if rc =? MDBX_NOTFOUND then mret origins
          else _ ← check_mdbx rc "pull_full: origin cursor walk failed"; mret origins
        else collect_origins_loop n c next_key origins
      else if rc =? MDBX_NOTFOUND then mret origins
      else _ ← check_mdbx rc "pull_full: origin cursor walk failed"; mret origins
  end.

Definition collect_changelog_origins (dbi : Z) : M (list PullOrigin) :=
  '(rc, c) ← cursor_open dbi;
  _ ← check_mdbx rc "pull_full: origin cursor open failed";
  '(rc, k, _, c) ← cursor_get c MDBX_FIRST [];
  if rc =? MDBX_SUCCESS then collect_origins_loop fuel c k []
  else if rc =? MDBX_NOTFOUND then mret []
  else _ ← check_mdbx rc "pull_full: origin cursor walk failed"; mret [].

Definition collect_indexed_origins : M (list PullOrigin) :=
  '(origins, found) ←
    OriginIndexStore.open_existing (new_store env_handle OriginIndexStore.origins_name);
  if negb found then mret []
  else
    tails ← OriginIndexStore.origin_tails fuel origins;
    mret ((fun t => make_pull_origin_at (OriginIndexStore.tail_origin t)
                      (OriginIndexStore.tail_last_seq t)) <$> tails).

Definition collect_known_origins (changelog_dbi : Z) : M (list PullOrigin) :=
  indexed ← collect_indexed_origins;
  match indexed with
  | [] => collect_changelog_origins changelog_dbi
  | _ => mret indexed
  end.

(** The result is the response, the byte count and whether the page is full (or failed). *)
Definition pull_origin_batches (dbi : Z) (origin : NodeId) (request : PullRequest)
    (out : PullResponse) (total_bytes : Z) : M pull_state :=
  let have_seq := last_seq_for (have request) origin in
  if have_seq =? max_u64 then mret (out, total_bytes, false)
  else
    scan fuel dbi MDBX_SET_RANGE (make_changelog_key origin ((have_seq + 1) mod 2 ^ 64))
      (pull_step origin request) "pull_full: origin batch cursor open failed"
      "pull_full: origin batch cursor walk failed" (out, total_bytes, false).

(** The two loops of [pull_changelog_page]. *)
Fixpoint check_retained (dbi : Z) (origins : list PullOrigin) (request : PullRequest)
    (out : PullResponse) : M (option PullResponse) :=
  match origins with
  | [] => mret None
  | o :: origins' =>
      failed ← request_has_retained_start dbi o request out;
      match failed with
      | Some out => mret (Some out)
      | None => check_retained dbi origins' request out
      end
  end.

Fixpoint pull_origins (dbi : Z) (origins : list PullOrigin) (request : PullRequest)
    (out : PullResponse) (total_bytes : Z) : M PullResponse :=
  match origins with
  | [] => mret (set_has_more out false)
  | o :: origins' =>
      if origin_is_at_tail o request then pull_origins dbi origins' request out total_bytes
      else
        '(out, total_bytes, stopped) ← pull_origin_batches dbi (pull_origin o) request out total_bytes;
        if stopped : bool then
          if negb (pull_ok out) then mret out else mret (set_has_more out true)
        else pull_origins dbi origins' request out total_bytes
  end.

Definition pull_changelog_page (dbi : Z) (request : PullRequest) : M PullResponse :=
  let out := default_pull_response in
  if request_full_snapshot request then
    mret (pull_failure out UnsupportedFullSnapshot
            "request_full_snapshot is not handled by pull_changelog_page")
  else
  _ ← checked_txn_env env_handle "SyncEngine::pull_changelog_page";
  remote ← read_applied_cursor (remote_have out);
  origins ← collect_known_origins dbi;
  let '(tail, known) := copy_known_tail origins (remote_tail out) in
  let out := set_cursors out remote tail known in
  failed ← check_retained dbi origins request out;
  match failed with
  | Some out => mret out
  | None => pull_origins dbi origins request out 0
  end.

(** The loop of [make_push_request], from [s] to [to_seq]. *)
Fixpoint collect_push (n : nat) (log : ChangeLogStore.log_store) (sender : NodeId) (s to_seq : Z)
    (acc : list ChangeBatch) : M (list ChangeBatch) :=
  match n with
  | O => fail out_of_fuel
  | S n =>
      found ← ChangeLogStore.get_batch log sender s;
      match found with
      | None =>
          fail (runtime_error ("SyncEngine::make_push_request: changelog gap at seq " +:+
                               to_string s +:+ " (pruning, corruption, or wrong origin)"))
      | Some buf =>
          b ← lift (decode_exact buf None);
          let acc := acc ++ [b] in
          if s =? to_seq then mret acc
          else collect_push n log sender ((s + 1) mod 2 ^ 64) to_seq acc
      end
  end.

(** The part of [make_push_request] inside its read transaction, after the database id was
    read in another one. *)
Definition make_push_request_in (db_id : DbId) (from_seq to_seq : Z) : M PushRequest :=
  meta ← MetaStore.open (new_store env_handle MetaStore.meta_name);
  log ← ChangeLogStore.open (ChangeLogStore.new_log_store env_handle);
  sender ← MetaStore.get_node_id meta;
  to_seq ← (if to_seq =? 0 then MetaStore.get_local_seq meta else mret to_seq);
  if to_seq <? from_seq then
    mret {| sender := sender; push_db_id := db_id; push_batches := [] |}
  else
    bs ← collect_push (S (Z.to_nat (to_seq - from_seq))) log sender from_seq to_seq [];
    mret {| sender := sender; push_db_id := db_id; push_batches := bs |}.
End Code.

(** ** What a page holds *)

(** Every record of the changelog is a batch stored under its own origin and number. *)
Definition log_batches (cl : gmap bytes bytes) : Prop :=
  ∀ k x, cl !! k = Some x → length k = 24%nat ∧
    ∃ b, decode_exact x None = Ok b ∧ node_ok (origin_node_id b) ∧
      origin_node_id b = ChangeLogStore.key_origin k ∧ seq_no b = ChangeLogStore.key_seq k.

(** The record is newer than what the cursor has of its origin. *)
Definition newer (c : SyncCursor) (k : bytes) : Prop :=
  last_seq_for c (ChangeLogStore.key_origin k) < ChangeLogStore.key_seq k.

#[export] Instance newer_dec c k : Decision (newer c k).
Proof. unfold newer. apply _. Defined.

(** The records the peer does not have, in key order: by origin, then by number. *)
Definition missing (cl : gmap bytes bytes) (c : SyncCursor) : list (bytes * bytes) :=
  recs_where cl (newer c).

Definition retained (cl : gmap bytes bytes) (o : NodeId) (h : Z) : list (bytes * bytes) :=
  recs_where cl (fun k => ChangeLogStore.key_origin k = o ∧ h < ChangeLogStore.key_seq k).

Definition batch_of (x : bytes) : list ChangeBatch :=
  match decode_exact x None with Ok b => [b] | Throw _ => [] end.
Definition batches_of (l : list (bytes * bytes)) : list ChangeBatch := mjoin ((batch_of ∘ snd) <$> l).

(** Filling the page from a list of records. *)
Fixpoint fill_page (request : PullRequest) (out : PullResponse) (total : Z) (l : list (bytes * bytes))
    : pull_state :=
  match l with
  | [] => (out, total, false)
  | (k, x) :: l' =>
      if (Z.of_nat (length (batches out)) >=? max_batches request) || (total >=? max_bytes request)
      then (out, total, true)
      else if Z.of_nat (length x) >? max_single_batch_bytes request then
        (set_batch_too_large out (ChangeLogStore.key_seq k) (Z.of_nat (length x))
           (max_single_batch_bytes request), total, true)
      else
        match batch_of x with
        | b :: _ => fill_page request (push_batch out b) (total + Z.of_nat (length x)) l'
        | [] => (out, total, false)
        end
  end.

Definition good_record (r : bytes * bytes) : Prop :=
  length r.1 = 24%nat ∧
  ∃ b, decode_exact r.2 None = Ok b ∧ node_ok (origin_node_id b) ∧
    origin_node_id b = ChangeLogStore.key_origin r.1 ∧ seq_no b = ChangeLogStore.key_seq r.1.

Lemma log_batches_forall cl P `{∀ k, Decision (P k)} :
  log_batches cl → Forall good_record (recs_where cl P).
Proof. intros Hl. apply Forall_forall. intros [k x] [_ Hx]%elem_of_recs_where. by apply Hl. Qed.

Lemma key_origin_ok k : length k = 24%nat → node_ok (ChangeLogStore.key_origin k).
Proof. intros Hk. by apply ChangeLogStore.key_split. Qed.

Lemma changelog_key_origin_ok k :
  length k = 24%nat → changelog_key_origin k = Ok (ChangeLogStore.key_origin k).
Proof. intros Hk. unfold changelog_key_origin, ChangeLogStore.key_origin. rewrite Hk. reflexivity. Qed.

Lemma changelog_key_seq_ok k :
  length k = 24%nat → changelog_key_seq k = Ok (ChangeLogStore.key_seq k).
Proof. intros Hk. unfold changelog_key_seq, ChangeLogStore.key_seq. rewrite Hk. reflexivity. Qed.

Lemma matches_origin_ok k o :
  length k = 24%nat → node_ok o →
  changelog_key_matches_origin k o = Ok (bool_decide (ChangeLogStore.key_origin k = o)).
Proof.
  intros Hk Ho. unfold changelog_key_matches_origin. rewrite changelog_key_origin_ok by done.
  cbn [mbind result_bind]. f_equal. pose proof (compare_node_id_zero _ _ (key_origin_ok k Hk) Ho) as Hc.
  case_bool_decide as E; [apply Z.eqb_eq|apply Z.eqb_neq]; tauto.
Qed.

Lemma pull_step_good o request out total f k x :
  good_record (k, x) → node_ok o → ChangeLogStore.key_origin k = o →
  pull_step o request (out, total, f) k x =
  if (Z.of_nat (length (batches out)) >=? max_batches request) || (total >=? max_bytes request)
  then Ok ((out, total, true), false)
  else if Z.of_nat (length x) >? max_single_batch_bytes request then
    Ok ((set_batch_too_large out (ChangeLogStore.key_seq k) (Z.of_nat (length x))
           (max_single_batch_bytes request), total, true), false)
  else
    match batch_of x with
    | b :: _ => Ok ((push_batch out b, total + Z.of_nat (length x), false), true)
    | [] => Ok ((out, total, false), false)
    end.
Proof.
  intros (Hk & b & Hb & Hbo & Eo & Es) Ho E. simpl in *. unfold pull_step.
  rewrite matches_origin_ok by done. cbn [mbind result_bind].
  rewrite bool_decide_true by done. simpl negb. cbn iota.
  destruct (_ || _); [done|]. rewrite changelog_key_seq_ok by done. cbn [mbind result_bind].
  destruct (_ >? _); [done|]. unfold batch_of. rewrite Hb. cbn [mbind result_bind].
  assert (compare_node_id (origin_node_id b) o = 0) as -> by (apply compare_node_id_zero; congruence).
  by rewrite Es, !Z.eqb_refl.
Qed.

(** The walk over the records of one origin fills the page and stops at the next one. *)
Lemma fold_pull o request out total l1 l2 :
  node_ok o → Forall good_record (l1 ++ l2) →
  Forall (fun r => ChangeLogStore.key_origin r.1 = o) l1 →
  Forall (fun r => ChangeLogStore.key_origin r.1 ≠ o) l2 →
  fold_recs (pull_step o request) (out, total, false) (l1 ++ l2) = Ok (fill_page request out total l1).
Proof.
  intros Ho Hg H1 H2. revert out total. induction l1 as [|[k x] l1 IH]; intros out total; simpl app.
  - destruct l2 as [|[k x] l2]; [done|]. apply Forall_cons in Hg as [(Hk & _) _], H2 as [Hne _].
    simpl in *. rewrite matches_origin_ok by done. rewrite bool_decide_false by done. done.
  - apply Forall_cons in Hg as [Hg Hgs], H1 as [Eo H1]. cbn [fold_recs fill_page].
    rewrite pull_step_good by done. pose proof Hg as (_ & b & Hb & _). unfold batch_of. simpl in Hb. rewrite Hb.
    destruct (_ || _); [done|]. destruct (_ >? _); [done|]. cbn [mbind result_bind]. by apply IH.
Qed.

Lemma fill_page_app request out total l1 l2 :
  fill_page request out total (l1 ++ l2) =
  let '(out', total', stop) := fill_page request out total l1 in
  if stop : bool then (out', total', true)
  else if bool_decide (Forall (fun r => batch_of r.2 ≠ []) l1)
       then fill_page request out' total' l2 else (out', total', false).
Proof.
  revert out total. induction l1 as [|[k x] l1 IH]; intros out total; cbn [app fill_page].
  - by rewrite bool_decide_true by constructor.
  - destruct (_ || _); [done|]. destruct (_ >? _); [done|]. destruct (batch_of x) as [|b bs] eqn:E.
    + rewrite bool_decide_false; [done|]. intros [H _]%Forall_cons. done.
    + rewrite IH. destruct (fill_page _ _ _ l1) as [[out' total'] []]; [done|].
      erewrite bool_decide_ext; [done|]. rewrite Forall_cons. simpl. rewrite E. naive_solver.
Qed.

Lemma good_batch_of r : good_record r → batch_of r.2 ≠ [].
Proof. intros (_ & b & Hb & _). unfold batch_of. by rewrite Hb. Qed.

Lemma fill_page_more request out total l1 l2 :
  Forall good_record l1 →
  fill_page request out total (l1 ++ l2) =
  let '(out', total', stop) := fill_page request out total l1 in
  if stop : bool then (out', total', true) else fill_page request out' total' l2.
Proof.
  intros Hg. rewrite fill_page_app. destruct (fill_page _ _ _ l1) as [[out' total'] []]; [done|].
  rewrite bool_decide_true; [done|]. eapply Forall_impl; [exact Hg|]. apply good_batch_of.
Qed.

(** ** Records in key order, by origin *)

Lemma key_le o s k :
  node_ok o → is_u64 s → length k = 24%nat →
  bytes_le (make_changelog_key o s) k ↔
  bytes_lt o (ChangeLogStore.key_origin k) ∨ o = ChangeLogStore.key_origin k ∧ s ≤ ChangeLogStore.key_seq k.
Proof.
  intros Ho Hs Hk. destruct (ChangeLogStore.key_split k Hk) as (Ek & Hok & Hsk).
  change (make_changelog_key o s) with (ChangeLogStore.encode_key o s). rewrite <- Ek at 1.
  unfold bytes_le, bytes_lt. rewrite ChangeLogStore.encode_key_compare, <- bytes_compare_eq by done.
  destruct (bytes_compare o _); simpl; [|naive_solver..]. rewrite Z.compare_gt_iff. naive_solver lia.
Qed.

Lemma log_key_lt k k' :
  length k = 24%nat → length k' = 24%nat →
  bytes_lt k k' ↔ bytes_lt (ChangeLogStore.key_origin k) (ChangeLogStore.key_origin k') ∨
    ChangeLogStore.key_origin k = ChangeLogStore.key_origin k' ∧
    ChangeLogStore.key_seq k < ChangeLogStore.key_seq k'.
Proof.
  intros Hk Hk'. destruct (ChangeLogStore.key_split k Hk) as (Ek & ? & ?).
  destruct (ChangeLogStore.key_split k' Hk') as (Ek' & ? & ?).
  rewrite <- Ek, <- Ek' at 1. by apply ChangeLogStore.encode_key_lt.
Qed.

Lemma StronglySorted_app_lt l1 l2 :
  StronglySorted rec_lt l1 → StronglySorted rec_lt l2 → (∀ a b, a ∈ l1 → b ∈ l2 → rec_lt a b) →
  StronglySorted rec_lt (l1 ++ l2).
Proof. intros H1 H2 H. apply StronglySorted_app. by split_and!. Qed.

Section LogOrder.
Context (cl : gmap bytes bytes) (Hlog : log_batches cl).

Lemma log_key_length k x : cl !! k = Some x → length k = 24%nat.
Proof. intros Hx. by apply (Hlog k x). Qed.

(** The records from a sequence number of an origin on. *)
Lemma range_retained o h :
  node_ok o → 0 ≤ h < max_u64 →
  recs_where cl (scan_range MDBX_SET_RANGE (make_changelog_key o ((h + 1) mod 2 ^ 64))) =
  retained cl o h ++ recs_where cl (fun k => bytes_lt o (ChangeLogStore.key_origin k)).
Proof.
  intros Ho Hh. unfold max_u64 in Hh. rewrite Z.mod_small by lia.
  apply strict_sorted_unique; [apply recs_where_sorted| |].
  - apply StronglySorted_app_lt; [apply recs_where_sorted..|].
    intros [k x] [k' x'] [[Ek _] Hx]%elem_of_recs_where [Hlt Hx']%elem_of_recs_where.
    unfold rec_lt. simpl. apply log_key_lt; [by eapply log_key_length..|]. left. by rewrite Ek.
  - intros [k x]. unfold retained. rewrite elem_of_app, !(elem_of_recs_where cl). unfold scan_range. simpl.
    split; [intros [Hr Hx]|intros [[[Ek Hs] Hx]|[Hlt Hx]]].
    + apply key_le in Hr as [?|[-> ?]]; [by right| |done|unfold u_range; lia|by eapply log_key_length].
      left. split_and!; [done|lia|done].
    + split; [|done]. apply key_le; [done|unfold u_range; lia|by eapply log_key_length|]. right. split; [done|lia].
    + split; [|done]. apply key_le; [done|unfold u_range; lia|by eapply log_key_length|]. by left.
Qed.

Lemma retained_max o : retained cl o max_u64 = [].
Proof.
  apply recs_where_nil. intros k x Hx [_ Hs]. pose proof (ChangeLogStore.key_seq_range k) as Hr.
  unfold u_range, max_u64 in *. lia.
Qed.

(** The missing records, origin by origin. *)
Lemma missing_by_origin c os :
  StronglySorted bytes_lt os →
  (∀ k, is_Some (cl !! k) → newer c k → ChangeLogStore.key_origin k ∈ os) →
  missing cl c = mjoin ((fun o => retained cl o (last_seq_for c o)) <$> os).
Proof.
  intros Hos Hcov. apply strict_sorted_unique; [apply recs_where_sorted| |].
  - clear Hcov. induction Hos as [|o os Hos IH Ho]; simpl; [constructor|].
    apply StronglySorted_app_lt; [apply recs_where_sorted|done|].
    intros [k x] [k' x'] [[Ek _] Hx]%elem_of_recs_where Hin.
    apply list_elem_of_join in Hin as (l & Hl & Hin). apply list_elem_of_fmap in Hin as (o' & -> & Ho').
    apply elem_of_recs_where in Hl as [[Ek' _] Hx']. unfold rec_lt. simpl.
    apply log_key_lt; [by eapply log_key_length..|]. left. rewrite Ek, Ek'.
    rewrite Forall_forall in Ho. by apply Ho.
  - intros [k x]. unfold missing. rewrite elem_of_recs_where. split.
    + intros [Hn Hx]. apply list_elem_of_join. exists (retained cl (ChangeLogStore.key_origin k)
        (last_seq_for c (ChangeLogStore.key_origin k))). split.
      * by apply elem_of_recs_where.
      * apply list_elem_of_fmap. eexists. split; [done|]. apply Hcov; eauto.
    + intros (l & Hl & Hin)%list_elem_of_join. apply list_elem_of_fmap in Hin as (o & -> & _).
      apply elem_of_recs_where in Hl as [[<- Hs] Hx]. by split.
Qed.
End LogOrder.

(** ** Reading the tables *)

(** The cursor that the applied table holds. *)
Definition applied_entry (k x : bytes) : option Z :=
  if (length k =? 16)%nat && (length x =? 8)%nat then Some (read_u64_le x) else None.

Definition cursor_of (m : gmap bytes bytes) (cur : SyncCursor) : SyncCursor :=
  {| last_seq_by_origin := map_imap applied_entry m ∪ last_seq_by_origin cur |}.

Lemma applied_step_entry cur k x :
  applied_step cur k x =
  Ok (match applied_entry k x with Some s => cursor_set cur k s | None => cur end, true).
Proof.
  unfold applied_step, applied_entry. by destruct (length k =? 16)%nat, (length x =? 8)%nat.
Qed.

Lemma fold_applied l cur :
  NoDup l.*1 →
  fold_recs applied_step cur l = Ok (cursor_of (list_to_map l) cur).
Proof.
  revert cur. induction l as [|[k x] l IH]; intros cur Hnd.
  - unfold cursor_of. simpl. rewrite map_imap_empty, (left_id_L ∅ (∪)). by destruct cur.
  - rewrite fmap_cons, NoDup_cons in Hnd. destruct Hnd as [Hk Hnd]. cbn [fold_recs].
    rewrite applied_step_entry. cbn [mbind result_bind]. rewrite IH by done. f_equal. unfold cursor_of. f_equal.
    apply map_eq. intros i. rewrite !lookup_union, !map_lookup_imap. cbn [list_to_map foldr uncurry].
    simpl fst in Hk. simpl. destruct (decide (i = k)) as [->|Hne].
    + rewrite lookup_insert_eq. rewrite (not_elem_of_list_to_map_1 l k) by done. simpl.
      destruct (applied_entry k x) as [s|]; simpl; [by rewrite lookup_insert_eq; destruct (last_seq_by_origin cur !! k)|done].
    + rewrite lookup_insert_ne by done.
      destruct (applied_entry k x) as [s|]; simpl; [by rewrite lookup_insert_ne|done].
Qed.

Lemma sorted_recs_to_map m : list_to_map (sorted_recs m) = m.
Proof.
  apply map_eq. intros i. apply option_eq. intros x. rewrite <- elem_of_list_to_map.
  - by rewrite elem_of_sorted_recs.
  - unfold sorted_recs. rewrite merge_sort_Permutation. apply NoDup_fst_map_to_list.
Qed.

Lemma cursor_of_seq m o :
  node_ok o → last_seq_for (cursor_of m empty_cursor) o = AppliedStore.applied_seq m o.
Proof.
  intros Ho. unfold last_seq_for, cursor_of, AppliedStore.applied_seq. simpl.
  rewrite (right_id_L ∅ (∪)), map_lookup_imap. destruct (m !! o) as [x|]; [|done]. simpl.
  unfold applied_entry. unfold node_ok in Ho. rewrite Ho. simpl. by destruct (length x =? 8)%nat.
Qed.

Definition first_of (cl : gmap bytes bytes) (o : NodeId) : option Z :=
  match recs_where cl (fun k => ChangeLogStore.key_origin k = o) with
  | (k, _) :: _ => Some (ChangeLogStore.key_seq k)
  | [] => None
  end.

Section Rules.
Context {X : Mdbx} {L : MdbxLaws X} (env_handle : Z) (fuel : nat).

Lemma wp_read_applied_cursor cur Q v :
  sys_table v AppliedStore.applied_name → (size (recs v AppliedStore.applied_name) < fuel)%nat →
  (∀ v', v_reopen v v' → Q (Ok (cursor_of (recs v AppliedStore.applied_name) cur)) v') →
  wp (read_applied_cursor fuel cur) Q v.
Proof.
  intros Hs Hf HQ. unfold read_applied_cursor, open_applied_ro, open_store_ro.
  apply wp_assoc, wp_open_existing; [done|..].
  - intros rc dbi v' He. apply wp_bind. engine_error_case.
  - intros dbi Hn. apply wp_ret_bind, wp_ret. unfold recs, table in HQ. rewrite Hn in HQ. simpl in HQ.
    unfold cursor_of in HQ. rewrite map_imap_empty, (left_id_L ∅ (∪)) in HQ. destruct cur. by apply HQ.
  - intros dbi v' Hz He Hb. apply wp_assoc, wp_ret_bind, wp_ret_bind.
    rewrite (proj2 (Z.eqb_neq _ _) Hz).
    eapply wp_scan; [done|by rewrite (ext_recs _ _ _ (proj1 He))|].
    rewrite OriginIndexStore.recs_where_first_all, fold_applied, sorted_recs_to_map.
    + rewrite (ext_recs _ _ _ (proj1 He)). by apply HQ.
    + unfold sorted_recs. rewrite merge_sort_Permutation. apply NoDup_fst_map_to_list.
Qed.

Definition changelog_bound (v : db_view) (dbi : Z) : Prop := bound v dbi ChangeLogStore.changelog_name 0.
Definition changelog (v : db_view) : gmap bytes bytes := recs v ChangeLogStore.changelog_name.

(** The first record from the start of an origin on. *)
Lemma first_record_origin cl o k x :
  log_batches cl → node_ok o → first_record cl (bytes_le (make_changelog_key o 0)) k x →
  first_of cl o = if bool_decide (ChangeLogStore.key_origin k = o) then Some (ChangeLogStore.key_seq k) else None.
Proof.
  intros Hl Ho (Hx & Hle & Hmin). pose proof (log_key_length cl Hl k x Hx) as Hk.
  assert (is_u64 0) as H0 by done.
  assert (∀ k' x', cl !! k' = Some x' → ChangeLogStore.key_origin k' = o → bytes_le k k') as Hmin'.
  { intros k' x' Hx' <-. eapply Hmin; [done|]. pose proof (log_key_length cl Hl k' x' Hx') as Hk'.
    apply key_le; [by apply key_origin_ok|done..|]. right. split; [done|].
    pose proof (ChangeLogStore.key_seq_range k') as Hr. unfold u_range in Hr. lia. }
  unfold first_of. case_bool_decide as E.
  - destruct (recs_where cl _) as [|[k1 x1] l] eqn:El.
    + exfalso. apply (proj1 (recs_where_nil _ _) El k x Hx E).
    + assert ((k1, x1) ∈ recs_where cl (fun k' => ChangeLogStore.key_origin k' = o)) as [E1 Hx1]%elem_of_recs_where
        by (rewrite El; left).
      pose proof (recs_where_sorted cl (fun k' => ChangeLogStore.key_origin k' = o)) as Hsort. rewrite El in Hsort.
      assert ((k, x) ∈ (k1, x1) :: l) as Hin by (rewrite <- El; by apply elem_of_recs_where).
      apply elem_of_cons in Hin as [[= <- <-]|Hin]; [done|]. exfalso.
      apply StronglySorted_inv in Hsort as [_ Hall]. rewrite Forall_forall in Hall.
      apply Hall in Hin. unfold rec_lt in Hin. simpl in Hin. by apply bytes_nle_lt in Hin; eauto.
  - destruct (recs_where cl _) as [|[k1 x1] l] eqn:El; [done|]. exfalso.
    assert ((k1, x1) ∈ recs_where cl (fun k' => ChangeLogStore.key_origin k' = o)) as [E1 Hx1]%elem_of_recs_where
      by (rewrite El; left).
    pose proof (Hmin' k1 x1 Hx1 E1) as Hk1. pose proof (log_key_length cl Hl k1 x1 Hx1) as Hl1.
    apply bytes_le_lteq in Hk1 as [Hk1|<-]; [|done].
    apply log_key_lt in Hk1; [|done..]. apply key_le in Hle; [|done..]. rewrite E1 in Hk1.
    destruct Hle as [Hle|[Hle _]]; [|done]. destruct Hk1 as [Hk1|[Hk1 _]]; [|congruence].
    by eapply bytes_lt_irrefl, bytes_lt_trans.
Qed.

Lemma wp_earliest dbi o Q v :
  changelog_bound v dbi → log_batches (changelog v) → node_ok o →
  Q (Ok (first_of (changelog v) o)) v → wp (changelog_earliest_seq dbi o) Q v.
Proof.
  intros Hb Hl Ho HQ. eapply wp_cursor_open; [done|]. intros c Hc Hk. eapply wp_cursor_get; [by rewrite Hc|..].
  - intros rc k x c' He. engine_error_case.
  - intros k x c' _ _ Hf. apply wp_ret_bind. rewrite Hk in Hf.
    rewrite (first_record_origin _ o k x) in HQ by done.
    pose proof Hf as (Hx & _). pose proof (log_key_length _ Hl k x Hx) as Hlen.
    rewrite matches_origin_ok, changelog_key_seq_ok by done. apply wp_lift_bind.
    case_bool_decide; [|by apply wp_ret]. apply wp_lift_bind. by apply wp_ret.
  - intros k x c' _ Hno. apply wp_ret. unfold first_of in HQ.
    destruct (recs_where _ _) as [|[k1 x1] l] eqn:El; [done|]. exfalso.
    assert ((k1, x1) ∈ recs_where (changelog v) (fun k' => ChangeLogStore.key_origin k' = o))
      as [E1 Hx1]%elem_of_recs_where by (rewrite El; left).
    eapply Hno; [exact Hx1|]. simpl. pose proof (log_key_length _ Hl k1 x1 Hx1) as Hlen.
    apply key_le; [done..|]. right. split; [done|].
    pose proof (ChangeLogStore.key_seq_range k1) as Hr. unfold u_range in Hr. lia.
Qed.

(** *** Retained history *)

(** The peer's position in the history of the origin was pruned. *)
Definition pruned (cl : gmap bytes bytes) (request : PullRequest) (o : PullOrigin) : bool :=
  let h := last_seq_for (have request) (pull_origin o) in
  negb (origin_is_at_tail o request) && negb (h =? max_u64) &&
  match first_of cl (pull_origin o) with
  | None => has_last_seq o && (h <? pull_last_seq o)
  | Some e => (h + 1) mod 2 ^ 64 <? e
  end.

Definition snapshot_response (cl : gmap bytes bytes) (request : PullRequest) (o : PullOrigin)
    (out : PullResponse) : PullResponse :=
  set_snapshot_required out o (last_seq_for (have request) (pull_origin o)) (first_of cl (pull_origin o)).

Lemma wp_retained_start dbi o request out Q v :
  changelog_bound v dbi → log_batches (changelog v) → node_ok (pull_origin o) →
  Q (Ok (if pruned (changelog v) request o then Some (snapshot_response (changelog v) request o out) else None)) v →
  wp (request_has_retained_start dbi o request out) Q v.
Proof.
  intros Hb Hl Ho HQ. unfold request_has_retained_start, pruned, snapshot_response in *.
  destruct (origin_is_at_tail o request); [by apply wp_ret|].
  destruct (_ =? max_u64); [by apply wp_ret|]. simpl in HQ.
  apply wp_bind, wp_earliest; [done..|]. destruct (first_of _ _) as [e|].
  - destruct (_ <? e); by apply wp_ret.
  - destruct (has_last_seq o); [|by apply wp_ret]. destruct (_ <? _); by apply wp_ret.
Qed.

(** The first origin whose history was pruned decides. *)
Lemma wp_check_retained dbi origins request out Q v :
  changelog_bound v dbi → log_batches (changelog v) → Forall (fun o => node_ok (pull_origin o)) origins →
  (∀ o, o ∈ origins → pruned (changelog v) request o = true →
     Q (Ok (Some (snapshot_response (changelog v) request o out))) v) →
  (Forall (fun o => pruned (changelog v) request o = false) origins → Q (Ok None) v) →
  wp (check_retained dbi origins request out) Q v.
Proof.
  intros Hb Hl Ho. induction Ho as [|o origins Ho Hos IH]; intros HS HN; simpl; [by apply wp_ret, HN|].
  apply wp_bind, wp_retained_start; [done..|]. destruct (pruned _ _ o) eqn:E.
  - apply wp_ret. apply HS; [by left|done].
  - apply IH; [|intros Hf; apply HN; by constructor]. intros o' Ho' E'. apply HS; [by right|done].
Qed.

(** *** The origins of the changelog *)

Lemma recs_where_mono m P Q `{∀ k, Decision (P k), ∀ k, Decision (Q k)} :
  (∀ k, P k → Q k) → (length (recs_where m P) ≤ length (recs_where m Q))%nat.
Proof.
  intros HPQ. apply submseteq_length, NoDup_submseteq.
  - apply NoDup_filter. unfold sorted_recs. rewrite merge_sort_Permutation. apply NoDup_map_to_list.
  - intros [k x]. rewrite !elem_of_recs_where. naive_solver.
Qed.

Lemma key_max k o :
  node_ok o → length k = 24%nat →
  bytes_le (make_changelog_key o max_u64) k ↔
  bytes_lt o (ChangeLogStore.key_origin k) ∨ o = ChangeLogStore.key_origin k ∧ ChangeLogStore.key_seq k = max_u64.
Proof.
  intros Ho Hk. pose proof (ChangeLogStore.key_seq_range k) as Hr. unfold u_range, max_u64 in *.
  rewrite key_le by (done || (unfold u_range; lia)). naive_solver lia.
Qed.

(** The origins of the records from [k] on. *)
Definition origins_from (cl : gmap bytes bytes) (k : bytes) (os : list NodeId) : Prop :=
  StronglySorted bytes_lt os ∧
  ∀ o, o ∈ os ↔ ∃ k' x', cl !! k' = Some x' ∧ bytes_le k k' ∧ ChangeLogStore.key_origin k' = o.

Lemma origins_from_last cl k x :
  log_batches cl → cl !! k = Some x →
  (∀ k' x', cl !! k' = Some x' → ¬ bytes_lt (ChangeLogStore.key_origin k) (ChangeLogStore.key_origin k')) →
  origins_from cl k [ChangeLogStore.key_origin k].
Proof.
  intros Hl Hx Hno. split; [by repeat constructor|]. intros o. rewrite list_elem_of_singleton. split.
  - intros ->. exists k, x. split_and!; [done| |done]. by apply bytes_nlt_le, bytes_lt_irrefl.
  - intros (k' & x' & Hx' & Hle & <-). apply bytes_le_lteq in Hle as [Hlt|<-]; [|done].
    apply log_key_lt in Hlt as [Hlt|[<- _]]; [|done|by eapply log_key_length..].
    exfalso. by eapply Hno.
Qed.

(** The first record of another origin continues the list. *)
Lemma origins_from_next cl k x k2 x2 os :
  log_batches cl → cl !! k = Some x →
  first_record cl (fun k' => bytes_lt (ChangeLogStore.key_origin k) (ChangeLogStore.key_origin k')) k2 x2 →
  origins_from cl k2 os → origins_from cl k (ChangeLogStore.key_origin k :: os).
Proof.
  intros Hl Hx (Hx2 & Hlt & Hmin) [Hs Hos]. pose proof (log_key_length cl Hl k x Hx) as Hk.
  pose proof (log_key_length cl Hl k2 x2 Hx2) as Hk2.
  assert (bytes_lt k k2) as Hk12 by (apply log_key_lt; auto). split.
  - constructor; [done|]. apply Forall_forall. intros o (k' & x' & Hx' & Hle & <-)%Hos.
    apply bytes_le_lteq in Hle as [Hlt'|<-]; [|done].
    apply log_key_lt in Hlt' as [?|[<- _]]; [|done|done|by eapply log_key_length].
    by eapply bytes_lt_trans.
  - intros o. rewrite elem_of_cons, Hos. split.
    + intros [->|(k' & x' & Hx' & Hle & <-)].
      * exists k, x. split_and!; [done| |done]. by apply bytes_nlt_le, bytes_lt_irrefl.
      * exists k', x'. split_and!; [done| |done]. etransitivity; [|exact Hle]. by apply bytes_lt_le.
    + intros (k' & x' & Hx' & Hle & <-).
      destruct (decide (ChangeLogStore.key_origin k' = ChangeLogStore.key_origin k)) as [->|Hne]; [by left|right].
      exists k', x'. split_and!; [done| |done]. eapply Hmin; [done|].
      apply bytes_le_lteq in Hle as [Hlt'|<-]; [|done].
      by apply log_key_lt in Hlt' as [?|[? _]]; [..|by eapply log_key_length].
Qed.

(** Both ways of moving to the next origin. *)
Lemma next_origin_range cl k k2 x2 :
  log_batches cl → length k = 24%nat → length k2 = 24%nat →
  ChangeLogStore.key_origin k2 ≠ ChangeLogStore.key_origin k →
  first_record cl (bytes_le (make_changelog_key (ChangeLogStore.key_origin k) max_u64)) k2 x2 →
  first_record cl (fun k' => bytes_lt (ChangeLogStore.key_origin k) (ChangeLogStore.key_origin k')) k2 x2.
Proof.
  intros Hl Hk Hk2 Hne (Hx & Hle & Hmin). pose proof (key_origin_ok k Hk) as Ho.
  apply key_max in Hle as [Hlt|[? _]]; [|done..]. split_and!; [done..|].
  intros k' x' Hx' Hlt'. eapply Hmin; [done|]. apply key_max; [done|by eapply log_key_length|]. by left.
Qed.

Lemma next_origin_step cl k k1 k2 x2 :
  log_batches cl → length k = 24%nat → length k1 = 24%nat → length k2 = 24%nat →
  ChangeLogStore.key_origin k1 = ChangeLogStore.key_origin k → ChangeLogStore.key_seq k1 = max_u64 →
  first_record cl (bytes_lt k1) k2 x2 →
  first_record cl (fun k' => bytes_lt (ChangeLogStore.key_origin k) (ChangeLogStore.key_origin k')) k2 x2.
Proof.
  intros Hl Hk Hk1 Hk2 Eo Es (Hx & Hlt & Hmin).
  assert (∀ k' x', cl !! k' = Some x' → bytes_lt k1 k' ↔
    bytes_lt (ChangeLogStore.key_origin k) (ChangeLogStore.key_origin k')) as Hiff.
  { intros k' x' Hx'. rewrite log_key_lt by (done || by eapply log_key_length). rewrite Eo, Es.
    pose proof (ChangeLogStore.key_seq_range k') as Hr. unfold u_range, max_u64 in *. naive_solver lia. }
  split_and!; [done|by eapply Hiff|]. intros k' x' Hx' Hlt'. eapply Hmin; [done|]. by eapply Hiff.
Qed.

Lemma wp_collect_loop n c k x acc Q v :
  bound v (cursor_dbi c) ChangeLogStore.changelog_name 0 → log_batches (changelog v) →
  changelog v !! k = Some x → (length (recs_where (changelog v) (bytes_le k)) ≤ n)%nat →
  (∀ os, origins_from (changelog v) k os → Q (Ok (acc ++ (make_pull_origin <$> os))) v) →
  wp (collect_origins_loop n c k acc) Q v.
Proof.
  revert c k x acc. induction n as [|n IH]; intros c k x acc Hb Hl Hx Hn HQ.
  { exfalso. assert ((k, x) ∈ recs_where (changelog v) (bytes_le k)) as Hin.
    { apply elem_of_recs_where. split; [by apply bytes_nlt_le, bytes_lt_irrefl|done]. }
    destruct (recs_where _ _); [by apply elem_of_nil in Hin|simpl in Hn; lia]. }
  pose proof (log_key_length _ Hl k x Hx) as Hk. pose proof (key_origin_ok k Hk) as Ho.
  assert (∀ k2 x2 c2, bound v (cursor_dbi c2) ChangeLogStore.changelog_name 0 →
    first_record (changelog v) (fun k' => bytes_lt (ChangeLogStore.key_origin k) (ChangeLogStore.key_origin k')) k2 x2 →
    wp (collect_origins_loop n c2 k2 (acc ++ [make_pull_origin (ChangeLogStore.key_origin k)])) Q v) as Hrec.
  { intros k2 x2 c2 Hb2 Hf. pose proof Hf as (Hx2 & _). apply (IH c2 k2 x2); [done..| |].
    - apply le_S_n. etrans; [|exact Hn]. erewrite (recs_where_first _ (bytes_le k) k x).
      + simpl. apply le_n_S, recs_where_mono. intros k' Hle. destruct Hf as (_ & Hlt & _).
        assert (bytes_lt k k2) as Hk2 by (apply log_key_lt; [done|by eapply log_key_length|auto]).
        apply bytes_le_lteq in Hle as [?|<-]; [by eapply bytes_lt_trans|done].
      + intros a b ??. by etransitivity.
      + split_and!; [done|by apply bytes_nlt_le, bytes_lt_irrefl|done].
    - intros os Hos. rewrite <- app_assoc. apply (HQ (ChangeLogStore.key_origin k :: os)).
      by eapply origins_from_next. }
  cbn [collect_origins_loop]. rewrite changelog_key_origin_ok by done. apply wp_lift_bind.
  eapply wp_cursor_get; [done|..].
  - intros rc k1 x1 c1 He. engine_error_case.
  - intros k1 x1 c1 Hc1 Hk1 Hf. simpl. pose proof Hf as (Hx1 & Hle1 & _).
    pose proof (log_key_length _ Hl k1 x1 Hx1) as Hlen1. rewrite changelog_key_origin_ok by done.
    apply wp_lift_bind. rewrite <- Hc1 in Hb.
    destruct (Z.eqb_spec (compare_node_id (ChangeLogStore.key_origin k1) (ChangeLogStore.key_origin k)) 0) as [E|E];
      rewrite compare_node_id_zero in E by (done || by apply key_origin_ok).
    + apply key_max in Hle1 as [Hlt|[_ Es]]; [rewrite E in Hlt; by apply bytes_lt_irrefl in Hlt| |done..].
      eapply wp_cursor_get; [done|..].
      * intros rc k2 x2 c2 He. engine_error_case.
      * intros k2 x2 c2 Hc2 _ Hf2. rewrite Hk1 in Hf2. simpl. eapply Hrec; [by rewrite Hc2|].
        pose proof Hf2 as (Hx2 & _). eapply next_origin_step; eauto. by eapply log_key_length.
      * intros k2 x2 c2 _ Hno. rewrite Hk1 in Hno. apply wp_ret, (HQ [ChangeLogStore.key_origin k]).
        eapply origins_from_last; [done..|]. intros k' x' Hx' Hlt. eapply Hno; [exact Hx'|]. simpl.
        apply log_key_lt; [done|by eapply log_key_length|]. left. by rewrite E.
    + eapply Hrec; [done|]. by apply next_origin_range.
  - intros k1 x1 c1 Hc1 Hno. apply wp_ret, (HQ [ChangeLogStore.key_origin k]).
    eapply origins_from_last; [done..|]. intros k' x' Hx' Hlt. eapply Hno; [exact Hx'|]. simpl.
    apply key_max; [done|by eapply log_key_length|]. by left.
Qed.

(** The origins a page considers: sorted, covering the changelog, and with upper bounds of
    its sequence numbers where the index gives one. *)
Record known_origins (cl idx : gmap bytes bytes) (os : list PullOrigin) : Prop := {
  ko_sorted : StronglySorted bytes_lt (pull_origin <$> os);
  ko_nodes : Forall (fun o => node_ok (pull_origin o)) os;
  ko_covers k : is_Some (cl !! k) → ChangeLogStore.key_origin k ∈ (pull_origin <$> os);
  ko_bound o k : o ∈ os → has_last_seq o = true → is_Some (cl !! k) →
    ChangeLogStore.key_origin k = pull_origin o → ChangeLogStore.key_seq k ≤ pull_last_seq o;
  ko_index o : o ∈ os → has_last_seq o = true →
    OriginIndexStore.index_seq idx (pull_origin o) = Some (pull_last_seq o);
}.

Lemma origins_scanned cl idx os :
  log_batches cl → StronglySorted bytes_lt os →
  (∀ o, o ∈ os ↔ ∃ k' x', cl !! k' = Some x' ∧ ChangeLogStore.key_origin k' = o) →
  known_origins cl idx (make_pull_origin <$> os).
Proof.
  intros Hl Hs Hos. assert (pull_origin <$> (make_pull_origin <$> os) = os) as E.
  { rewrite <- list_fmap_compose. apply list_fmap_id. }
  split.
  - by rewrite E.
  - apply Forall_forall. intros o (o' & -> & Ho')%list_elem_of_fmap. simpl.
    apply Hos in Ho' as (k & x & Hx & <-). by eapply key_origin_ok, log_key_length.
  - intros k [x Hx]. rewrite E. apply Hos. eauto.
  - intros o k (o' & -> & _)%list_elem_of_fmap. done.
  - intros o (o' & -> & _)%list_elem_of_fmap. done.
Qed.

Lemma wp_collect_changelog_origins dbi idx Q v :
  changelog_bound v dbi → log_batches (changelog v) → (size (changelog v) < fuel)%nat →
  (∀ os, known_origins (changelog v) idx os → Q (Ok os) v) →
  wp (collect_changelog_origins fuel dbi) Q v.
Proof.
  intros Hb Hl Hf HQ. eapply wp_cursor_open; [done|]. intros c Hc Hk. eapply wp_cursor_get; [by rewrite Hc|..].
  - intros rc k x c' He. engine_error_case.
  - intros k x c' Hc' _ (Hx & _ & Hmin). simpl. rewrite <- Hc, <- Hc' in Hb. eapply wp_collect_loop; [done..| |].
    + eapply Nat.le_trans; [apply recs_where_length|lia].
    + intros os [Hs Hos]. apply HQ. simpl. apply origins_scanned; [done..|]. intros o. rewrite Hos. split.
      * intros (k' & x' & ? & _ & ?). eauto.
      * intros (k' & x' & Hx' & E). exists k', x'. split_and!; [done| |done]. by eapply Hmin.
  - intros k x c' _ Hno. apply wp_ret, (HQ []). split; [constructor|constructor| | |].
    + intros k' [x' Hx']. exfalso. by eapply Hno.
    + intros o k' Ho%elem_of_nil. done.
    + intros o Ho%elem_of_nil. done.
Qed.

Lemma indexed_known cl idx :
  ChangeLogStore.index_covers cl idx → log_batches cl →
  known_origins cl idx ((fun t => make_pull_origin_at (OriginIndexStore.tail_origin t)
    (OriginIndexStore.tail_last_seq t)) <$> OriginIndexStore.tails_of idx).
Proof.
  intros [Hwf Hc] Hl. unfold OriginIndexStore.tails_of. rewrite <- list_fmap_compose.
  assert (∀ o, o ∈ ((fun t => make_pull_origin_at (OriginIndexStore.tail_origin t) (OriginIndexStore.tail_last_seq t)) ∘
    (fun r : bytes * bytes => {| OriginIndexStore.tail_origin := r.1; OriginIndexStore.tail_last_seq := read_u64_le r.2 |})
    <$> sorted_recs idx) → ∃ k x, idx !! k = Some x ∧ o = make_pull_origin_at k (read_u64_le x)) as Hin.
  { intros o ([k x] & -> & Hin%elem_of_sorted_recs)%list_elem_of_fmap. eauto. }
  assert (pull_origin <$> ((fun t => make_pull_origin_at (OriginIndexStore.tail_origin t) (OriginIndexStore.tail_last_seq t)) ∘
    (fun r : bytes * bytes => {| OriginIndexStore.tail_origin := r.1; OriginIndexStore.tail_last_seq := read_u64_le r.2 |})
    <$> sorted_recs idx) = (sorted_recs idx).*1) as E by by rewrite <- list_fmap_compose.
  split.
  - rewrite E. eapply ChangeLogStore.fmap_sorted_fst; [apply sorted_recs_sorted|]. by intros r r'.
  - apply Forall_forall. intros o (k & x & Hx & ->)%Hin. by apply (Hwf k x).
  - intros k [x Hx]. rewrite E. apply ChangeLogStore.elem_of_log_keys.
    pose proof (log_key_length cl Hl k x Hx) as Hk. destruct (ChangeLogStore.key_split k Hk) as (Ek & Ho & Hq).
    destruct (Hc (ChangeLogStore.key_origin k) (ChangeLogStore.key_seq k) Ho Hq) as (t & Ht & _); [rewrite Ek; eauto|].
    unfold OriginIndexStore.index_seq in Ht. by apply fmap_Some in Ht as (y & -> & _).
  - intros o k (k' & x' & Hx' & ->)%Hin _ [x Hx] Eo. simpl in *.
    pose proof (log_key_length cl Hl k x Hx) as Hk. destruct (ChangeLogStore.key_split k Hk) as (Ek & Ho & Hq).
    destruct (Hc (ChangeLogStore.key_origin k) (ChangeLogStore.key_seq k) Ho Hq) as (t & Ht & Hle); [rewrite Ek; eauto|].
    unfold OriginIndexStore.index_seq in Ht. rewrite Eo, Hx' in Ht. by injection Ht as <-.
  - intros o (k' & x' & Hx' & ->)%Hin _. unfold OriginIndexStore.index_seq. simpl. by rewrite Hx'.
Qed.

(** A transaction in which the engine can serve a pull. *)
Record pull_view (v : db_view) (dbi : Z) : Prop := {
  pv_env : env_handle = v_env v;
  pv_applied : sys_table v AppliedStore.applied_name;
  pv_origins : sys_table v OriginIndexStore.origins_name;
  pv_bound : changelog_bound v dbi;
  pv_log : log_batches (changelog v);
  pv_index_wf : OriginIndexStore.index_wf (recs v OriginIndexStore.origins_name);
  pv_index : recs v OriginIndexStore.origins_name ≠ ∅ →
    ChangeLogStore.index_covers (changelog v) (recs v OriginIndexStore.origins_name);
  pv_fuel n : n ∈ [ChangeLogStore.changelog_name; AppliedStore.applied_name; OriginIndexStore.origins_name] →
    (size (recs v n) < fuel)%nat;
}.

Lemma pull_view_reopen v v' dbi : v_ext v v' → pull_view v dbi → pull_view v' dbi.
Proof.
  intros He [Henv Ha Ho Hb Hl Hw Hi Hf]. unfold changelog in *.
  split; unfold changelog; try (by rewrite (ext_recs _ _ _ He)).
  - by rewrite (ext_env _ _ He).
  - unfold sys_table. by rewrite (ext_table _ _ He).
  - unfold sys_table. by rewrite (ext_table _ _ He).
  - by eapply bound_ext.
  - by rewrite !(ext_recs _ _ _ He).
  - intros n Hn. rewrite (ext_recs _ _ _ He). by apply Hf.
Qed.

Lemma wp_collect_known dbi Q v :
  pull_view v dbi →
  (∀ os v', v_ext v v' → known_origins (changelog v) (recs v OriginIndexStore.origins_name) os → Q (Ok os) v') →
  wp (collect_known_origins env_handle fuel dbi) Q v.
Proof.
  intros Hv HQ.
  assert (∀ v1, v_ext v v1 → wp (collect_changelog_origins fuel dbi) Q v1) as Hscan.
  { intros v1 He. pose proof (pull_view_reopen _ _ _ He Hv) as Hv1.
    apply (wp_collect_changelog_origins _ (recs v OriginIndexStore.origins_name)); [apply Hv1|apply Hv1|apply Hv1; by left|].
    unfold changelog. rewrite (ext_recs _ _ _ He). intros os Hos. by apply HQ. }
  apply wp_bind, wp_bind, wp_store_open_existing; [done|apply Hv|apply Hv|..].
  - intros Hn. apply wp_ret. by apply Hscan.
  - intros Hex st v1 (He & Hr & Hn & _). simpl.
    assert (store_table st = OriginIndexStore.origins_name) as Est by by rewrite Hn.
    assert (recs v1 OriginIndexStore.origins_name = recs v OriginIndexStore.origins_name) as Er by by apply ext_recs.
    apply wp_bind, OriginIndexStore.wp_origin_tails; rewrite ?Est, ?Er; [done|apply Hv|apply Hv; by do 2 right; left|].
    apply wp_ret. pose proof (indexed_known (changelog v) (recs v OriginIndexStore.origins_name)) as Hk.
    destruct (OriginIndexStore.tails_of _) as [|t ts] eqn:Et; [by apply Hscan|].
    apply wp_ret, HQ; [done|]. apply Hk; [|apply Hv]. apply Hv. intros E0. rewrite E0 in Et. done.
Qed.

(** *** Filling the page *)

Definition finish_page (st : pull_state) : PullResponse :=
  let '(out, _, stop) := st in
  if stop : bool then if negb (pull_ok out) then out else set_has_more out true else set_has_more out false.

Lemma retained_at_tail cl o request :
  (∀ k, is_Some (cl !! k) → ChangeLogStore.key_origin k = pull_origin o → has_last_seq o = true →
     ChangeLogStore.key_seq k ≤ pull_last_seq o) →
  origin_is_at_tail o request = true →
  retained cl (pull_origin o) (last_seq_for (have request) (pull_origin o)) = [].
Proof.
  intros Hb Ht. unfold origin_is_at_tail in Ht. apply andb_true_iff in Ht as [Hl Hge]. zbool.
  apply recs_where_nil. intros k x Hx [Eo Hs]. specialize (Hb k ltac:(eauto) Eo Hl). lia.
Qed.

Definition cursor_ok (c : SyncCursor) : Prop := ∀ o, is_u64 (last_seq_for c o).

Lemma wp_pull_origin_batches dbi o request out total Q v :
  changelog_bound v dbi → log_batches (changelog v) → (size (changelog v) < fuel)%nat → node_ok o →
  cursor_ok (have request) →
  Q (Ok (fill_page request out total (retained (changelog v) o (last_seq_for (have request) o)))) v →
  wp (pull_origin_batches fuel dbi o request out total) Q v.
Proof.
  intros Hb Hl Hf Ho Hc HQ. unfold pull_origin_batches.
  destruct (Z.eqb_spec (last_seq_for (have request) o) max_u64) as [E|Hne].
  { rewrite E, retained_max in HQ. by apply wp_ret. }
  pose proof (Hc o) as Hr. unfold u_range, max_u64 in *. eapply wp_scan; [done..|].
  fold (changelog v). rewrite range_retained by (done || (unfold max_u64; lia)). rewrite fold_pull; [done|done|..].
  - rewrite <- (range_retained _ Hl o) by (done || (unfold max_u64; lia)). by apply log_batches_forall.
  - apply Forall_forall. intros [k x] [[? _] _]%elem_of_recs_where. done.
  - apply Forall_forall. intros [k x] [Hlt _]%elem_of_recs_where. simpl. intros E. rewrite E in Hlt.
    by apply bytes_lt_irrefl in Hlt.
Qed.

Lemma wp_pull_origins dbi os request out total Q v :
  changelog_bound v dbi → log_batches (changelog v) → (size (changelog v) < fuel)%nat →
  cursor_ok (have request) → Forall (fun o => node_ok (pull_origin o)) os →
  (∀ o k, o ∈ os → has_last_seq o = true → is_Some (changelog v !! k) →
     ChangeLogStore.key_origin k = pull_origin o → ChangeLogStore.key_seq k ≤ pull_last_seq o) →
  Q (Ok (finish_page (fill_page request out total
    (mjoin ((fun o => retained (changelog v) o (last_seq_for (have request) o)) <$> (pull_origin <$> os)))))) v →
  wp (pull_origins fuel dbi os request out total) Q v.
Proof.
  intros Hb Hl Hf Hc Hos. revert out total. induction Hos as [|o os Ho Hos IH]; intros out total Hbd HQ; simpl in *.
  { by apply wp_ret. }
  assert (∀ o' k, o' ∈ os → has_last_seq o' = true → is_Some (changelog v !! k) →
    ChangeLogStore.key_origin k = pull_origin o' → ChangeLogStore.key_seq k ≤ pull_last_seq o') as Hbd'.
  { intros o' k Hin. apply Hbd. by right. }
  destruct (origin_is_at_tail o request) eqn:Et.
  - rewrite retained_at_tail in HQ; [by apply IH| |done]. intros k Hk Eo Hlast. by apply (Hbd o); [left|..].
  - apply wp_bind, wp_pull_origin_batches; [done..|]. rewrite fill_page_more in HQ by by apply log_batches_forall.
    destruct (fill_page _ out total _) as [[out1 total1] stop]. destruct stop; simpl in *.
    + destruct (negb (pull_ok out1)); by apply wp_ret.
    + by apply IH.
Qed.

(** *** Pages *)

Definition add_batches (out : PullResponse) (bs : list ChangeBatch) : PullResponse := {|
  remote_have := remote_have out; remote_tail := remote_tail out;
  remote_tail_known := remote_tail_known out; batches := batches out ++ bs;
  has_more := has_more out; pull_ok := pull_ok out; pull_error := pull_error out;
  pull_error_code := pull_error_code out; pull_error_retryable := pull_error_retryable out;
  is_full_snapshot := is_full_snapshot out; snapshot_chunk := snapshot_chunk out;
|}.

Lemma add_batches_nil out : add_batches out [] = out.
Proof. unfold add_batches. rewrite app_nil_r. by destruct out. Qed.

Lemma add_push out b bs : add_batches (push_batch out b) bs = add_batches out (b :: bs).
Proof. unfold add_batches, push_batch. simpl. by rewrite <- app_assoc. Qed.

Definition record_size (r : bytes * bytes) : Z := Z.of_nat (length r.2).
Definition page_bytes (l : list (bytes * bytes)) : Z := foldr (fun r n => record_size r + n) 0 l.

(** The page holds the first [n] of the records [l]. *)
Record page_prefix (request : PullRequest) (count total : Z) (l : list (bytes * bytes)) (n : nat) : Prop := {
  pp_length : (n ≤ length l)%nat;
  pp_count : (0 < n)%nat → count + Z.of_nat n ≤ max_batches request;
  pp_bytes m : (m < n)%nat → total + page_bytes (take m l) < max_bytes request;
  pp_single : Forall (fun r => record_size r ≤ max_single_batch_bytes request) (take n l);
}.

Inductive page_result (request : PullRequest) (out : PullResponse) (total : Z) (l : list (bytes * bytes))
    : pull_state → Prop :=
  | page_done t :
      page_prefix request (Z.of_nat (length (batches out))) total l (length l) →
      page_result request out total l (add_batches out (batches_of l), t, false)
  | page_full n t :
      page_prefix request (Z.of_nat (length (batches out))) total l n → (n < length l)%nat →
      max_batches request ≤ Z.of_nat (length (batches out)) + Z.of_nat n ∨
        max_bytes request ≤ total + page_bytes (take n l) →
      page_result request out total l (add_batches out (batches_of (take n l)), t, true)
  | page_too_large n r t s :
      page_prefix request (Z.of_nat (length (batches out))) total l n →
      l !! n = Some r → record_size r > max_single_batch_bytes request →
      page_result request out total l
        (set_batch_too_large out s (record_size r) (max_single_batch_bytes request), t, true).

Lemma page_prefix_cons request count total r l n :
  record_size r ≤ max_single_batch_bytes request → count < max_batches request → total < max_bytes request →
  page_prefix request (count + 1) (total + record_size r) l n →
  page_prefix request count total (r :: l) (S n).
Proof.
  intros Hs Hc Ht [Hl Hn Hb Hf]. split.
  - simpl. lia.
  - intros _. destruct n as [|n]; [lia|]. specialize (Hn ltac:(lia)). lia.
  - intros [|m] Hm; simpl; [lia|]. specialize (Hb m ltac:(lia)). lia.
  - simpl. by constructor.
Qed.

Lemma fill_page_result request out total l :
  Forall good_record l → page_result request out total l (fill_page request out total l).
Proof.
  intros Hg. revert out total. induction Hg as [|[k x] l Hr Hg IH]; intros out total; cbn [fill_page].
  { rewrite <- (add_batches_nil out) at 2. change [] with (batches_of []) at 2. constructor. split; simpl; auto with lia; constructor. }
  destruct (_ || _) eqn:Efull.
  { rewrite <- (add_batches_nil out) at 2. change [] with (batches_of (take 0 ((k, x) :: l))). constructor.
    - split; simpl; auto with lia; constructor.
    - simpl. lia.
    - apply orb_true_iff in Efull as [?|?]; zbool; [left|right]; simpl; lia. }
  apply orb_false_iff in Efull as [Ec Et]. destruct (_ >? _) eqn:Es.
  { change (Z.of_nat (length x)) with (record_size (k, x)). apply (page_too_large _ _ _ _ 0); [|done|unfold record_size; simpl; zbool; lia].
    split; simpl; auto with lia; constructor. }
  pose proof Hr as (_ & b & Hb & _). simpl in Hb. unfold batch_of at 1. rewrite Hb.
  assert (∀ l', batches_of ((k, x) :: l') = b :: batches_of l') as Hbs.
  { intros l'. unfold batches_of, batch_of. simpl. by rewrite Hb. }
  assert (record_size (k, x) ≤ max_single_batch_bytes request) as Hsz by (unfold record_size; simpl; zbool; lia).
  assert (Z.of_nat (length (batches (push_batch out b))) = Z.of_nat (length (batches out)) + 1) as El.
  { simpl. rewrite length_app. simpl. lia. }
  destruct (IH (push_batch out b) (total + Z.of_nat (length x))) as [t Hp|n t Hp Hn Hm|n r t s Hp Hn Hm];
    rewrite El in Hp; apply (page_prefix_cons _ _ _ (k, x)) in Hp; try (zbool; lia).
  - rewrite add_push, <- Hbs. by constructor.
  - rewrite add_push, <- Hbs. change ((k, x) :: take n l) with (take (S n) ((k, x) :: l)). constructor; [done|simpl; lia|].
    rewrite El in Hm. change (page_bytes (take (S n) ((k, x) :: l))) with (record_size (k, x) + page_bytes (take n l)).
    unfold record_size at 1. simpl. lia.
  - change (set_batch_too_large (push_batch out b)) with (set_batch_too_large out).
    by apply (page_too_large _ _ _ _ (S n)).
Qed.
End Rules.
