(* ===== verification/PullTheorems.v ===== *)
(** * What a pull and a push deliver

    Theorems about [pull_changelog_page] and [make_push_request] of
    [src/include/mdbx_containers/sync/engine/SyncEngine.hpp]: what one page holds, that the
    pages of successive requests deliver every batch exactly once and in order, and that a
    push carries a contiguous range. *)
From S2P Require Import Prelude SyncCommon KeyCodec SyncProtocol ChangeBatchCodec Mdbx RefMdbx StoreBase.
From S2P Require MetaStore AppliedStore OriginIndexStore ChangeLogStore.
From S2P Require Import ApplyEngine PullEngine.
Open Scope Z_scope.

(** ** Pages *)

(** A successful page: the first [n] missing records, within the limits of the request. *)
Record page_ok (cl : gmap bytes bytes) (request : PullRequest) (n : nat) (out : PullResponse) : Prop := {
  pg_ok : pull_ok out = true;
  pg_batches : batches out = batches_of (take n (missing cl (have request)));
  pg_length : (n ≤ length (missing cl (have request)))%nat;
  pg_more : has_more out = bool_decide (n < length (missing cl (have request)))%nat;
  pg_count : Z.of_nat n ≤ max_batches request;
  pg_bytes m : (m < n)%nat → page_bytes (take m (missing cl (have request))) < max_bytes request;
  pg_single : Forall (fun r => record_size r ≤ max_single_batch_bytes request)
                (take n (missing cl (have request)));
  pg_progress : missing cl (have request) ≠ [] → 0 < max_batches request → 0 < max_bytes request → (0 < n)%nat;
  pg_start k x : (k, x) ∈ missing cl (have request) →
    ∃ e, first_of cl (ChangeLogStore.key_origin k) = Some e ∧
         e ≤ last_seq_for (have request) (ChangeLogStore.key_origin k) + 1;
}.

(** The history the request needs of the origin is gone. *)
Definition history_pruned (cl idx : gmap bytes bytes) (c : SyncCursor) (o : NodeId) : Prop :=
  (∃ e, first_of cl o = Some e ∧ last_seq_for c o + 1 < e) ∨
  first_of cl o = None ∧ ∃ t, OriginIndexStore.index_seq idx o = Some t ∧ last_seq_for c o < t.

(** A refused page is empty and says why. *)
Record page_refused (cl idx : gmap bytes bytes) (request : PullRequest) (out : PullResponse) : Prop := {
  pf_ok : pull_ok out = false;
  pf_batches : batches out = [];
  pf_more : has_more out = false;
  pf_retryable : pull_error_retryable out = false;
  pf_reason :
    pull_error_code out = SnapshotRequired ∧ (∃ o, history_pruned cl idx (have request) o) ∨
    pull_error_code out = BatchTooLarge ∧
      ∃ r, r ∈ missing cl (have request) ∧ record_size r > max_single_batch_bytes request;
}.

Lemma last_seq_set c o s o' :
  last_seq_for (cursor_set c o s) o' = if decide (o = o') then s else last_seq_for c o'.
Proof.
  unfold last_seq_for, cursor_set. simpl. case_decide; [subst; by rewrite lookup_insert_eq|by rewrite lookup_insert_ne].
Qed.

(** A tail that is known is the one of the index. *)
Lemma copy_known_tail_spec os c tail :
  NoDup (pull_origin <$> os) → copy_known_tail os c = (tail, true) →
  Forall (fun o => has_last_seq o = true ∧ last_seq_for tail (pull_origin o) = pull_last_seq o) os ∧
  ∀ o, o ∉ (pull_origin <$> os) → last_seq_for tail o = last_seq_for c o.
Proof.
  revert c. induction os as [|o os IH]; intros c; simpl.
  - intros _ [= ->]. split; [constructor|done].
  - rewrite NoDup_cons. intros [Ho Hnd]. destruct (has_last_seq o) eqn:E; simpl; [|done].
    intros (Hf & Hother)%IH; [|done]. split.
    + constructor; [|done]. split; [done|]. rewrite Hother by done. by rewrite last_seq_set, decide_True.
    + intros o' [Hne Hn]%not_elem_of_cons. rewrite Hother, last_seq_set by done. by rewrite decide_False.
Qed.

Lemma sorted_NoDup os : StronglySorted bytes_lt os → NoDup os.
Proof.
  induction 1 as [|o os Hs IH Ho]; constructor; [|done]. intros Hin. rewrite Forall_forall in Ho.
  by apply (bytes_lt_irrefl o), Ho.
Qed.

Section Known.
Context (cl idx : gmap bytes bytes) (os : list PullOrigin) (request : PullRequest).
Context (Hk : known_origins cl idx os) (Hc : cursor_ok (have request)) (Hlog : log_batches cl).

Lemma known_missing :
  missing cl (have request) =
  mjoin ((fun o => retained cl o (last_seq_for (have request) o)) <$> (pull_origin <$> os)).
Proof. apply missing_by_origin; [done|apply Hk|]. intros k Hs _. by apply (ko_covers _ _ _ Hk). Qed.

Lemma pruned_history o : o ∈ os → pruned cl request o = true → history_pruned cl idx (have request) (pull_origin o).
Proof.
  intros Ho. unfold pruned, history_pruned. rewrite !andb_true_iff, !negb_true_iff. intros [[_ Hm] Hp].
  pose proof (Hc (pull_origin o)) as Hr. unfold u_range, max_u64 in *. zbool.
  destruct (first_of cl (pull_origin o)) as [e|].
  - left. exists e. split; [done|]. zbool. rewrite Z.mod_small in Hp by lia. lia.
  - right. split; [done|]. apply andb_true_iff in Hp as [Hl Hp]. zbool. exists (pull_last_seq o).
    split; [by apply (ko_index _ _ _ Hk)|lia].
Qed.

Lemma unpruned_start k x :
  Forall (fun o => pruned cl request o = false) os → (k, x) ∈ missing cl (have request) →
  ∃ e, first_of cl (ChangeLogStore.key_origin k) = Some e ∧
       e ≤ last_seq_for (have request) (ChangeLogStore.key_origin k) + 1.
Proof.
  intros Hf [Hn Hx]%elem_of_recs_where. unfold newer in Hn.
  assert (∃ e, first_of cl (ChangeLogStore.key_origin k) = Some e) as [e He].
  { unfold first_of. destruct (recs_where cl _) as [|[k' x'] l] eqn:E; [|eauto].
    exfalso. by apply (proj1 (recs_where_nil _ _) E k x Hx). }
  exists e. split; [done|].
  destruct (proj1 (list_elem_of_fmap _ _ _) (ko_covers _ _ _ Hk k ltac:(eauto))) as (o & Eo & Ho).
  rewrite Forall_forall in Hf. specialize (Hf o Ho). unfold pruned in Hf. rewrite <- Eo, He in Hf.
  pose proof (Hc (ChangeLogStore.key_origin k)) as Hr. pose proof (ChangeLogStore.key_seq_range k) as Hr'.
  unfold u_range, max_u64 in *.
  assert (origin_is_at_tail o request = false) as Ht.
  { unfold origin_is_at_tail. destruct (has_last_seq o) eqn:El; [|done]. rewrite <- Eo. simpl.
    pose proof (ko_bound _ _ _ Hk o k Ho El ltac:(eauto) Eo). zbool. lia. }
  rewrite Ht in Hf. rewrite Z.mod_small in Hf by lia. simpl in Hf.
  destruct (Z.eqb_spec (last_seq_for (have request) (ChangeLogStore.key_origin k)) (2 ^ 64 - 1)); [lia|].
  simpl in Hf. zbool. lia.
Qed.

Lemma known_tail c tail k :
  copy_known_tail os c = (tail, true) → is_Some (cl !! k) →
  ChangeLogStore.key_seq k ≤ last_seq_for tail (ChangeLogStore.key_origin k).
Proof.
  intros (Hf & _)%copy_known_tail_spec Hs; [|by apply sorted_NoDup, Hk].
  destruct (proj1 (list_elem_of_fmap _ _ _) (ko_covers _ _ _ Hk k Hs)) as (o & Eo & Ho).
  rewrite Forall_forall in Hf. destruct (Hf o Ho) as [Hl Ht]. rewrite Eo, Ht. by eapply (ko_bound _ _ _ Hk o k).
Qed.
End Known.

Lemma filled_page cl idx request out :
  log_batches cl → has_more out = false → batches out = [] → pull_ok out = true →
  0 ≤ max_batches request →
  (∀ k x, (k, x) ∈ missing cl (have request) →
     ∃ e, first_of cl (ChangeLogStore.key_origin k) = Some e ∧
          e ≤ last_seq_for (have request) (ChangeLogStore.key_origin k) + 1) →
  let out' := finish_page (fill_page request out 0 (missing cl (have request))) in
  remote_have out' = remote_have out ∧ remote_tail out' = remote_tail out ∧
  remote_tail_known out' = remote_tail_known out ∧
  ((∃ n, page_ok cl request n out') ∨ page_refused cl idx request out').
Proof.
  intros Hl Hm Hb Hok Hmax Hstart out'. subst out'.
  assert (Forall good_record (missing cl (have request))) as Hg by by apply log_batches_forall.
  destruct (fill_page_result request out 0 _ Hg) as [t [Hlen Hc Hby Hs]|n t [Hlen Hc Hby Hs] Hn Hfull|n r t s _ Hr Hsz];
    rewrite ?Hb in *; cbn [finish_page].
  - split_and!; [done..|]. left. exists (length (missing cl (have request))). split; simpl; try done.
    + by rewrite Hb, firstn_all.
    + rewrite bool_decide_false by lia. done.
    + destruct (missing cl (have request)); simpl in *; lia.
    + intros Hne _ _. destruct (missing cl (have request)); simpl in *; [done|lia].
  - simpl. rewrite Hok. simpl. split_and!; [done..|]. left. exists n. split; simpl; try done.
    + by rewrite Hb.
    + rewrite bool_decide_true by lia. done.
    + destruct n; simpl in *; lia.
    + intros _ Hmb Hmy. destruct n; [|lia]. simpl in Hfull. lia.
  - simpl. split_and!; [done..|]. right. split; simpl; try done. right. split; [done|].
    exists r. split; [by eapply list_elem_of_lookup_2|done].
Qed.

Lemma filled_page_code cl request out :
  log_batches cl → pull_error_code out = ErrNone →
  pull_error_code (finish_page (fill_page request out 0 (missing cl (have request)))) ≠ SnapshotRequired.
Proof.
  intros Hl Hc. assert (Forall good_record (missing cl (have request))) as Hg by by apply log_batches_forall.
  destruct (fill_page_result request out 0 _ Hg) as [t _|n t _ _ _|n r t s _ _ _]; simpl; [congruence| |done].
  destruct (negb _); simpl; congruence.
Qed.

Section Pages.
Context {X : Mdbx} {L : MdbxLaws X} (env_handle : Z) (fuel : nat).

(** The answer to a pull: who knows what, and a page or a refusal. *)
Definition pull_answer (v : db_view) (request : PullRequest) (out : PullResponse) : Prop :=
  let cl := changelog v in
  let idx := recs v OriginIndexStore.origins_name in
  (∀ o, node_ok o → last_seq_for (remote_have out) o = AppliedStore.applied_seq (recs v AppliedStore.applied_name) o) ∧
  (remote_tail_known out = true → ∀ k, is_Some (cl !! k) →
     ChangeLogStore.key_seq k ≤ last_seq_for (remote_tail out) (ChangeLogStore.key_origin k)) ∧
  ((∃ n, page_ok cl request n out) ∨ page_refused cl idx request out).

Lemma wp_pull_page dbi request Q v :
  pull_view env_handle fuel v dbi → cursor_ok (have request) → 0 ≤ max_batches request →
  request_full_snapshot request = false →
  (∀ out v', v_ext v v' → pull_answer v request out → Q (Ok out) v') →
  wp (pull_changelog_page env_handle fuel dbi request) Q v.
Proof.
  intros Hv Hc Hm Hfs HQ. unfold pull_changelog_page. rewrite Hfs. apply wp_bind, wp_checked_txn; [apply Hv|].
  apply wp_bind, wp_read_applied_cursor; [apply Hv|apply Hv; by right; left|]. intros v1 [He1 _].
  pose proof (pull_view_reopen _ _ _ _ _ He1 Hv) as Hv1. apply wp_bind, wp_collect_known; [done|].
  intros os v2 He2 Hk. pose proof (pull_view_reopen _ _ _ _ _ He2 Hv1) as Hv2.
  destruct (copy_known_tail os _) as [tail known] eqn:Et. set (out := set_cursors _ _ _ _).
  assert (v_ext v v2) as He by by etrans.
  assert (changelog v1 = changelog v) as E1 by by apply ext_recs.
  assert (changelog v2 = changelog v) as E2 by by apply ext_recs.
  rewrite E1, (ext_recs _ _ _ He1) in Hk. pose proof (pv_log _ _ _ _ Hv) as Hlog.
  assert (∀ out', remote_have out' = remote_have out ∧ remote_tail out' = remote_tail out ∧
    remote_tail_known out' = remote_tail_known out ∧ ((∃ n, page_ok (changelog v) request n out') ∨
      page_refused (changelog v) (recs v OriginIndexStore.origins_name) request out') → Q (Ok out') v2) as HQ'.
  { intros out' (E3 & E4 & E5 & Hp). apply HQ; [done|]. split_and!; [| |done].
    - intros o Ho. rewrite E3. by apply cursor_of_seq.
    - rewrite E4, E5. simpl. intros -> k Hs. by eapply known_tail. }
  apply wp_bind, wp_check_retained; [apply Hv2|by rewrite E2|apply Hk|..]; rewrite E2.
  - intros o Ho Hp. apply wp_ret, HQ'. split_and!; [done..|]. right. split; try done. left.
    split; [done|]. exists (pull_origin o). by eapply pruned_history.
  - intros Hf. apply wp_pull_origins; [apply Hv2|by rewrite E2|apply Hv2; by left|done|apply Hk|..]; rewrite ?E2.
    + intros o k Ho Hl Hs Eo. by eapply (ko_bound _ _ _ Hk).
    + rewrite <- (known_missing _ _ _ _ Hk Hlog). apply HQ'. apply filled_page; try done.
      intros k x Hin. by eapply unpruned_start.
Qed.
End Pages.

(** ** Successive pages *)

(** The cursor after applying the batches in order. *)
Definition advance (c : SyncCursor) (bs : list ChangeBatch) : SyncCursor :=
  foldl (fun c b => cursor_set c (origin_node_id b) (seq_no b)) c bs.

(** No number is missing between two records of an origin. *)
Definition log_contiguous (cl : gmap bytes bytes) : Prop :=
  ∀ o s1 s2 s, node_ok o → 0 ≤ s1 → s1 ≤ s ≤ s2 → s2 < 2 ^ 64 →
    is_Some (cl !! make_changelog_key o s1) → is_Some (cl !! make_changelog_key o s2) →
    is_Some (cl !! make_changelog_key o s).

Section Session.
Context (cl : gmap bytes bytes) (Hlog : log_batches cl).

Lemma batches_of_cons k x :
  cl !! k = Some x → ∃ b, (∀ l, batches_of ((k, x) :: l) = b :: batches_of l) ∧
    origin_node_id b = ChangeLogStore.key_origin k ∧ seq_no b = ChangeLogStore.key_seq k.
Proof.
  intros (_ & b & Hb & _ & ? & ?)%Hlog. exists b. split; [|done].
  intros l. unfold batches_of, batch_of. simpl. by rewrite Hb.
Qed.

(** Delivering the first missing record leaves the others. *)
Lemma missing_step c k x l :
  missing cl c = (k, x) :: l →
  cl !! k = Some x ∧ newer c k ∧
  missing cl (cursor_set c (ChangeLogStore.key_origin k) (ChangeLogStore.key_seq k)) = l.
Proof.
  intros E. assert ((k, x) ∈ missing cl c) as [Hn Hx]%elem_of_recs_where by (rewrite E; left).
  split_and!; [done..|]. pose proof (recs_where_sorted cl (newer c)) as Hs. fold (missing cl c) in Hs.
  rewrite E in Hs. apply StronglySorted_inv in Hs as [Hs Hall]. rewrite Forall_forall in Hall.
  pose proof (log_key_length _ Hlog k x Hx) as Hk. apply strict_sorted_unique; [apply recs_where_sorted|done|].
  intros [k' x']. unfold missing. rewrite elem_of_recs_where. unfold newer at 1. rewrite last_seq_set.
  assert ((k', x') ∈ missing cl c ↔ newer c k' ∧ cl !! k' = Some x') as Hin by apply elem_of_recs_where.
  rewrite E, elem_of_cons in Hin. unfold newer in *. split.
  - case_decide as Eo; intros [Hlt Hx'].
    + destruct (proj2 Hin) as [[= -> ->]|?]; [|lia|done]. split; [|done]. rewrite <- Eo. lia.
    + destruct (proj2 Hin) as [[= -> ->]|?]; done.
  - intros Hl. destruct (proj1 Hin (or_intror Hl)) as [Hn' Hx']. split; [|done].
    specialize (Hall _ Hl). apply log_key_lt in Hall; [|done|by eapply log_key_length].
    simpl in Hall. case_decide as Eo; [|done]. destruct Hall as [Hlt|[_ ?]]; [|lia]. rewrite Eo in Hlt. by apply bytes_lt_irrefl in Hlt.
Qed.

Lemma missing_advance c n :
  missing cl (advance c (batches_of (take n (missing cl c)))) = drop n (missing cl c) ∧
  ∀ o, last_seq_for c o ≤ last_seq_for (advance c (batches_of (take n (missing cl c)))) o.
Proof.
  revert c. induction n as [|n IH]; intros c; [done|]. destruct (missing cl c) as [|[k x] l] eqn:E; [done|].
  destruct (missing_step _ _ _ _ E) as (Hx & Hn & El). cbn [take drop].
  destruct (batches_of_cons k x Hx) as (b & -> & Eo & Es). simpl. rewrite Eo, Es.
  destruct (IH (cursor_set c (ChangeLogStore.key_origin k) (ChangeLogStore.key_seq k))) as [IH1 IH2].
  rewrite El in IH1, IH2. split; [done|]. intros o. etrans; [|apply IH2]. rewrite last_seq_set. unfold newer in Hn.
  case_decide; [subst|]; lia.
Qed.

Lemma first_of_spec o e :
  node_ok o → first_of cl o = Some e → 0 ≤ e < 2 ^ 64 ∧ is_Some (cl !! make_changelog_key o e).
Proof.
  intros Ho. unfold first_of. destruct (recs_where cl _) as [|[k x] l] eqn:E; [done|]. intros [= <-].
  assert ((k, x) ∈ recs_where cl (fun k => ChangeLogStore.key_origin k = o)) as [Eo Hx]%elem_of_recs_where
    by (rewrite E; left).
  pose proof (log_key_length _ Hlog k x Hx) as Hk. destruct (ChangeLogStore.key_split k Hk) as (Ek & _ & Hr).
  split; [exact Hr|]. rewrite <- Eo. change (make_changelog_key ?o ?s) with (ChangeLogStore.encode_key o s).
  rewrite Ek. eauto.
Qed.

(** In a changelog without gaps the first missing record is the next one of its origin. *)
Lemma missing_next c k x l e :
  log_contiguous cl → cursor_ok c → missing cl c = (k, x) :: l →
  first_of cl (ChangeLogStore.key_origin k) = Some e → e ≤ last_seq_for c (ChangeLogStore.key_origin k) + 1 →
  ChangeLogStore.key_seq k = last_seq_for c (ChangeLogStore.key_origin k) + 1.
Proof.
  intros Hcont Hc E He Hle. destruct (missing_step _ _ _ _ E) as (Hx & Hn & _).
  set (o := ChangeLogStore.key_origin k) in *. unfold newer in Hn. fold o in Hn.
  pose proof (log_key_length _ Hlog k x Hx) as Hk. destruct (ChangeLogStore.key_split k Hk) as (Ek & Ho & Hr).
  fold o in Ek, Ho. destruct (first_of_spec _ _ Ho He) as [Her Hes]. pose proof (Hc o) as Hco. unfold u_range in *.
  set (s := last_seq_for c o + 1) in *.
  destruct (Hcont o e (ChangeLogStore.key_seq k) s) as [x' Hx']; [done|lia..|done| |].
  { change (make_changelog_key ?o ?s) with (ChangeLogStore.encode_key o s). rewrite Ek. eauto. }
  assert (ChangeLogStore.key_origin (make_changelog_key o s) = o ∧
    ChangeLogStore.key_seq (make_changelog_key o s) = s) as [Eo' Es'].
  { change (make_changelog_key ?o ?s) with (ChangeLogStore.encode_key o s).
    destruct (ChangeLogStore.encode_key_parts o s Ho) as (? & ? & _); [unfold u_range; lia|done]. }
  assert ((make_changelog_key o s, x') ∈ missing cl c) as Hin.
  { apply elem_of_recs_where. split; [|done]. unfold newer. rewrite Eo', Es'. lia. }
  rewrite E in Hin. apply elem_of_cons in Hin as [[= Ek' _]|Hin]; [by rewrite <- Es', Ek'|].
  pose proof (recs_where_sorted cl (newer c)) as Hs. fold (missing cl c) in Hs. rewrite E in Hs.
  apply StronglySorted_inv in Hs as [_ Hall]. rewrite Forall_forall in Hall. specialize (Hall _ Hin).
  apply log_key_lt in Hall; [|done|by eapply log_key_length]. simpl fst in Hall. rewrite Eo', Es' in Hall. fold o in Hall.
  destruct Hall as [Hlt|[_ Hlt]]; [by apply bytes_lt_irrefl in Hlt|lia].
Qed.

(** Each record gives one batch. *)
Lemma batches_of_lookup l i b :
  (∀ k x, (k, x) ∈ l → cl !! k = Some x) → batches_of l !! i = Some b →
  ∃ k x, l !! i = Some (k, x) ∧ origin_node_id b = ChangeLogStore.key_origin k ∧ seq_no b = ChangeLogStore.key_seq k.
Proof.
  revert i. induction l as [|[k x] l IH]; intros i Hl; [done|].
  destruct (batches_of_cons k x (Hl k x ltac:(left))) as (b' & -> & Eo & Es). destruct i as [|i]; simpl.
  - intros [= <-]. eauto.
  - apply IH. intros k' x' Hin. apply Hl. by right.
Qed.

Lemma batches_of_take l i :
  (∀ k x, (k, x) ∈ l → cl !! k = Some x) → batches_of (take i l) = take i (batches_of l).
Proof.
  revert i. induction l as [|[k x] l IH]; intros [|i] Hl; [done..|]. cbn [take].
  destruct (batches_of_cons k x (Hl k x ltac:(left))) as (b & E & _). rewrite !E. cbn [take].
  f_equal. apply IH. intros k' x' Hin. apply Hl. by right.
Qed.

Lemma missing_in c k x n : (k, x) ∈ take n (missing cl c) → cl !! k = Some x.
Proof. intros Hin. by apply subseteq_take, elem_of_recs_where in Hin as [_ ?]. Qed.

Lemma advance_ok c l :
  cursor_ok c → (∀ k x, (k, x) ∈ l → cl !! k = Some x) → cursor_ok (advance c (batches_of l)).
Proof.
  revert c. induction l as [|[k x] l IH]; intros c Hc Hl; [done|].
  destruct (batches_of_cons k x (Hl k x ltac:(left))) as (b & -> & Eo & Es). simpl. apply IH.
  - intros o. rewrite last_seq_set. case_decide; [|apply Hc]. rewrite Es. apply ChangeLogStore.key_seq_range.
  - intros k' x' Hin. apply Hl. by right.
Qed.

(** Draining the pages: ask again from the advanced cursor while there are more. *)
Fixpoint drain (page : SyncCursor → PullResponse) (n : nat) (c : SyncCursor) : option (list ChangeBatch) :=
  match n with
  | O => None
  | S n =>
      if has_more (page c)
      then (fun bs => batches (page c) ++ bs) <$> drain page n (advance c (batches (page c)))
      else Some (batches (page c))
  end.

Lemma drain_complete page (rq : SyncCursor → PullRequest) n c :
  (∀ c', have (rq c') = c' ∧ 0 < max_batches (rq c') ∧ 0 < max_bytes (rq c')) → cursor_ok c →
  (∀ c', cursor_ok c' → (∀ o, last_seq_for c o ≤ last_seq_for c' o) → ∃ k, page_ok cl (rq c') k (page c')) →
  (length (missing cl c) < n)%nat → drain page n c = Some (batches_of (missing cl c)).
Proof.
  intros Hrq. revert c. induction n as [|n IH]; intros c Hc Hp Hn; [lia|]. cbn [drain].
  destruct (Hp c) as [k Hk]; [done..|]. destruct Hk as [_ Hb Hl Hm _ _ _ Hpr _]. destruct (Hrq c) as (E & ? & ?).
  rewrite E in *. rewrite Hm. case_bool_decide as Hlt.
  - destruct (missing_advance c k) as [Hd Hge]. rewrite Hb. rewrite IH.
    + simpl. rewrite Hd. f_equal. unfold batches_of. by rewrite <- join_app, <- fmap_app, take_drop.
    + apply advance_ok; [done|]. intros k' x'. apply missing_in.
    + intros c' Hc' Hle. apply Hp; [done|]. intros o. etrans; [apply Hge|apply Hle].
    + rewrite Hd, length_drop. destruct (missing cl c) eqn:Em; simpl in *; [lia|].
      specialize (Hpr ltac:(done) ltac:(done) ltac:(done)). lia.
  - rewrite Hb, take_ge by lia. done.
Qed.
End Session.


(** ** Ranges of local batches *)

(** The batches [s], ..., [to_seq] of an origin. *)
Definition push_range (cl : gmap bytes bytes) (o : NodeId) (s to_seq : Z) (bs : list ChangeBatch) : Prop :=
  Z.of_nat (length bs) = to_seq - s + 1 ∧
  ∀ i b, bs !! i = Some b → origin_node_id b = o ∧ seq_no b = s + Z.of_nat i ∧
    ∃ x, cl !! make_changelog_key o (s + Z.of_nat i) = Some x ∧ decode_exact x None = Ok b.

Definition push_gap (s : Z) : exn :=
  runtime_error ("SyncEngine::make_push_request: changelog gap at seq " +:+ to_string s +:+
                 " (pruning, corruption, or wrong origin)").

Lemma push_range_cons cl o s to_seq x b bs :
  cl !! make_changelog_key o s = Some x → decode_exact x None = Ok b →
  origin_node_id b = o → seq_no b = s → push_range cl o (s + 1) to_seq bs → push_range cl o s to_seq (b :: bs).
Proof.
  intros Hx Hb Ho Hs [Hl Hi]. split; [simpl; lia|]. intros [|i] b' Hb'; simpl in Hb'.
  - injection Hb' as <-. rewrite Z.add_0_r. eauto.
  - destruct (Hi i b' Hb') as (? & E & ?). replace (s + Z.of_nat (S i)) with (s + 1 + Z.of_nat i) by lia. auto.
Qed.

Lemma push_range_nil cl o s to_seq : to_seq = s - 1 → push_range cl o s to_seq [].
Proof. intros ->. split; [simpl; lia|done]. Qed.

Section Push.
Context {X : Mdbx} {L : MdbxLaws X}.

Lemma wp_collect_push n ls sender s to_seq acc Q v :
  ready v (ChangeLogStore.log ls) → store_table (ChangeLogStore.log ls) = ChangeLogStore.changelog_name →
  log_batches (changelog v) → node_ok sender → 0 ≤ s ≤ to_seq → to_seq < 2 ^ 64 →
  (Z.to_nat (to_seq - s) < n)%nat →
  (∀ bs, push_range (changelog v) sender s to_seq bs → Q (Ok (acc ++ bs)) v) →
  (∀ g, s ≤ g ≤ to_seq → changelog v !! make_changelog_key sender g = None → Q (Throw (push_gap g)) v) →
  wp (collect_push n ls sender s to_seq acc) Q v.
Proof.
  intros Hr Hn Hl Ho. revert s acc. induction n as [|n IH]; intros s acc Hs Ht Hf HQ HG; [lia|]. cbn [collect_push].
  apply wp_bind, ChangeLogStore.wp_get_batch; [done|]. rewrite Hn.
  change (recs v ChangeLogStore.changelog_name) with (changelog v).
  change (ChangeLogStore.encode_key sender s) with (make_changelog_key sender s).
  destruct (changelog v !! make_changelog_key sender s) as [x|] eqn:Ex; [|apply wp_fail, HG; [lia|done]].
  destruct (Hl _ _ Ex) as (_ & b & Hb & _ & Ebo & Ebs).
  destruct (ChangeLogStore.encode_key_parts sender s Ho) as (E1 & E2 & _); [unfold u_range; lia|].
  change (ChangeLogStore.encode_key sender s) with (make_changelog_key sender s) in *.
  rewrite E1 in Ebo. rewrite E2 in Ebs. rewrite Hb. apply wp_lift_bind.
  destruct (Z.eqb_spec s to_seq) as [->|Hne].
  - apply wp_ret, HQ. eapply push_range_cons; try done. apply push_range_nil. lia.
  - rewrite Z.mod_small by lia. apply IH; [lia..| |].
    + intros bs Hbs. rewrite <- app_assoc. apply HQ. by eapply push_range_cons.
    + intros g Hg. apply HG. lia.
Qed.
End Push.

(** ** What pulling guarantees *)

(** In order, when the changelog has no gaps. *)
Lemma page_in_order cl request n out i b :
  log_batches cl → log_contiguous cl → cursor_ok (have request) → page_ok cl request n out →
  batches out !! i = Some b →
  seq_no b = last_seq_for (advance (have request) (take i (batches out))) (origin_node_id b) + 1.
Proof.
  intros Hl Hcont Hc [_ -> Hlen _ _ _ _ _ Hst] Hi. pose proof (missing_in cl (have request)) as Hin.
  rewrite <- (batches_of_take cl) by eauto. rewrite take_take.
  destruct (batches_of_lookup cl Hl _ i b (fun k x => Hin k x n) Hi) as (k & x & Hk & Eo & Es). rewrite Eo, Es.
  apply lookup_take_Some in Hk as [Hk Hlt]. rewrite Nat.min_l by lia.
  destruct (missing_advance cl Hl (have request) i) as [Hd Hge].
  destruct (Hst k x (list_elem_of_lookup_2 _ _ _ Hk)) as (e & He & Hle).
  apply (missing_next cl Hl _ k x (drop (S i) (missing cl (have request))) e); [done|apply (advance_ok cl); eauto| |done|].
  - rewrite Hd. by apply drop_S.
  - specialize (Hge (ChangeLogStore.key_origin k)). lia.
Qed.

Section Guarantees.
Context {X : Mdbx} {L : MdbxLaws X} (env_handle : Z) (fuel : nat).

(** A page that was not refused. *)
Lemma run_page_ok dbi request s s' out :
  pull_view env_handle fuel (view s) dbi → cursor_ok (have request) → 0 ≤ max_batches request →
  request_full_snapshot request = false →
  pull_changelog_page env_handle fuel dbi request s = (Ok out, s') → pull_ok out = true →
  ∃ n, page_ok (changelog (view s)) request n out.
Proof.
  intros Hv Hc Hm Hs Hrun Hok.
  assert (wp (pull_changelog_page env_handle fuel dbi request)
    (fun r _ => ∃ out, r = Ok out ∧ pull_answer (view s) request out) (view s)) as Hwp.
  { apply wp_pull_page; try done. intros out' v' _ Ha. eauto. }
  specialize (Hwp s eq_refl). rewrite Hrun in Hwp.
  destruct Hwp as [(out' & [= <-] & _ & _ & [?|[Hf _ _ _ _]])|(? & ? & [=] & _)]; [done|congruence].
Qed.

(** C13: pulling page after page, each time from the cursor the delivered batches lead to,
    from an engine that refuses none of these requests, ends after at most one page more than
    there are missing batches, and has then delivered every batch of the changelog that the
    first cursor did not cover, each once and in order. *)
Theorem pull_delivers_all (v : db_view) (dbi : Z) (page : SyncCursor → PullResponse)
    (rq : SyncCursor → PullRequest) (c : SyncCursor) :
  pull_view env_handle fuel v dbi → cursor_ok c →
  (∀ c', have (rq c') = c' ∧ 0 < max_batches (rq c') ∧ 0 < max_bytes (rq c') ∧
         request_full_snapshot (rq c') = false) →
  (∀ c', cursor_ok c' → (∀ o, last_seq_for c o ≤ last_seq_for c' o) →
     ∃ s s', view s = v ∧ pull_changelog_page env_handle fuel dbi (rq c') s = (Ok (page c'), s') ∧
       pull_ok (page c') = true) →
  drain page (S (length (missing (changelog v) c))) c = Some (batches_of (missing (changelog v) c)).
Proof.
  intros Hv Hc Hrq Hp. apply (drain_complete _ (pv_log _ _ _ _ Hv) page rq); [|done| |lia].
  - intros c'. destruct (Hrq c') as (? & ? & ? & _). done.
  - intros c' Hc' Hle. destruct (Hp c' Hc' Hle) as (s & s' & <- & Hrun & Hok). destruct (Hrq c') as (E & ? & ? & ?).
    eapply run_page_ok; [done|by rewrite E|lia|done..].
Qed.

(** When the changelog has no gaps, every batch of a page carries the number right after
    the last one the receiver has of its origin once the batches before it are applied, so
    that applying the page in order meets no sequence gap. *)
Theorem pull_page_in_order (dbi : Z) (request : PullRequest) (s s' : txn) (out : PullResponse)
    (i : nat) (b : ChangeBatch) :
  pull_view env_handle fuel (view s) dbi → log_contiguous (changelog (view s)) → cursor_ok (have request) →
  0 ≤ max_batches request → request_full_snapshot request = false →
  pull_changelog_page env_handle fuel dbi request s = (Ok out, s') → pull_ok out = true →
  batches out !! i = Some b →
  seq_no b = last_seq_for (advance (have request) (take i (batches out))) (origin_node_id b) + 1.
Proof.
  intros Hv Hcont Hc Hm Hs Hrun Hok Hi. destruct (run_page_ok _ _ _ _ _ Hv Hc Hm Hs Hrun Hok) as [n Hn].
  by eapply page_in_order; [apply Hv|..].
Qed.
End Guarantees.

(** ** Witnesses *)

(** A changelog with the batches 1 to 3 of one origin and batch 1 of another. *)
Definition pull_batch (o : byte) (seq : Z) : ChangeBatch := {|
  version := 1; batch_flags := 0; origin_node_id := replicate 16 o; seq_no := seq; time_unix_ns := 0;
  ops := [{| op_type := Put; op_flags := 0; dbi_flags := 0; dbi_name := bytes_of_string "t";
             storage_key := bytes_of_string "k"; value := bytes_of_string "v"; identity_key := [];
             revision_key := [] |}] |}.

Definition pull_record (o : byte) (seq : Z) : bytes * bytes :=
  (make_changelog_key (replicate 16 o) seq,
   match encode (pull_batch o seq) None with Ok bs => bs | Throw _ => [] end).

Definition pull_records : list (bytes * bytes) :=
  [pull_record Byte.x05 1; pull_record Byte.x05 2; pull_record Byte.x05 3; pull_record Byte.x06 1].

Definition pull_log : gmap bytes bytes := list_to_map pull_records.

Lemma pull_log_records k x : pull_log !! k = Some x → (k, x) ∈ pull_records.
Proof. apply elem_of_list_to_map_2. Qed.

Definition record_check (r : bytes * bytes) : bool :=
  (length r.1 =? 24)%nat && (Z.of_nat (length r.2) <=? 1000) &&
  match decode_exact r.2 None with
  | Ok b => (length (origin_node_id b) =? 16)%nat &&
      bool_decide (origin_node_id b = ChangeLogStore.key_origin r.1) && (seq_no b =? ChangeLogStore.key_seq r.1)
  | Throw _ => false
  end.

Lemma pull_log_check k x : pull_log !! k = Some x → record_check (k, x) = true.
Proof.
  intros Hin%pull_log_records. assert (Forall (fun r => record_check r = true) pull_records) as Hf.
  { repeat constructor; vm_compute; reflexivity. }
  rewrite Forall_forall in Hf. by apply Hf.
Qed.

Lemma pull_log_batches : log_batches pull_log.
Proof.
  intros k x Hc%pull_log_check. unfold record_check in Hc. cbn [fst snd] in Hc.
  apply andb_true_iff in Hc as [[Hk%Nat.eqb_eq _]%andb_true_iff Hc]. split; [done|].
  destruct (decode_exact x None) as [b|]; [|done].
  apply andb_true_iff in Hc as [[Hn%Nat.eqb_eq Ho%bool_decide_eq_true]%andb_true_iff Hs%Z.eqb_eq]. eauto 10.
Qed.

Lemma pull_log_first k x :
  pull_log !! k = Some x → first_of pull_log (ChangeLogStore.key_origin k) = Some 1.
Proof.
  intros Hin%pull_log_records. assert (Forall (fun r =>
    first_of pull_log (ChangeLogStore.key_origin r.1) = Some 1) pull_records) as Hf.
  { repeat constructor; vm_compute; reflexivity. }
  rewrite Forall_forall in Hf. by apply (Hf (k, x)).
Qed.

Definition pull_request (c : SyncCursor) : PullRequest := {|
  pull_requester := make_zero_node; pull_db_id := make_zero_node; have := c; max_batches := 2;
  max_bytes := 1000; request_full_snapshot := false; full_snapshot_id := []; full_snapshot_continuation := [];
  max_single_batch_bytes := 1000 |}.

(** A read transaction on a database with this changelog. *)
Definition pull_state_view : db_view := {|
  v_env := 1; v_rw := false; v_dbs := <[ChangeLogStore.changelog_name := mk_dbi 0 pull_log]> ∅;
  v_handles := <[2 := ChangeLogStore.changelog_name]> ∅;
|}.

Lemma pull_state_recs n :
  recs pull_state_view n = if decide (n = ChangeLogStore.changelog_name) then pull_log else ∅.
Proof.
  unfold recs, table. change (v_dbs pull_state_view) with
    (<[ChangeLogStore.changelog_name := mk_dbi 0 pull_log]> (∅ : gmap bytes dbi_view)).
  case_decide; [subst; by rewrite lookup_insert_eq|by rewrite lookup_insert_ne].
Qed.

Lemma pull_state_log : changelog pull_state_view = pull_log.
Proof. unfold changelog. rewrite pull_state_recs. by rewrite decide_True. Qed.

Lemma pull_state_index : recs pull_state_view OriginIndexStore.origins_name = ∅.
Proof. rewrite pull_state_recs. by rewrite decide_False. Qed.

Lemma pull_state_ok : pull_view 1 100 pull_state_view 2.
Proof.
  split; unfold changelog; rewrite ?pull_state_recs; try done.
  - split; [reflexivity|]. exists (mk_dbi 0 pull_log). split; [apply lookup_insert_eq|done].
  - apply pull_log_batches.
  - intros n Hn. rewrite pull_state_recs. case_decide; [vm_compute; lia|]. rewrite map_size_empty. lia.
Qed.

Definition pull_page (c : SyncCursor) : PullResponse :=
  match pull_changelog_page (X := ref_mdbx) 1 100 2 (pull_request c) pull_state_view with
  | (Ok out, _) => out
  | (Throw _, _) => default_pull_response
  end.

(** No request is refused. *)
Lemma pull_page_runs c :
  cursor_ok c → ∃ s' : db_view,
    pull_changelog_page (X := ref_mdbx) 1 100 2 (pull_request c) pull_state_view = (Ok (pull_page c), s') ∧
    pull_ok (pull_page c) = true.
Proof.
  intros Hc. assert (wp (X := ref_mdbx) (pull_changelog_page 1 100 2 (pull_request c))
    (fun r _ => ∃ out, r = Ok out ∧ pull_answer pull_state_view (pull_request c) out) pull_state_view) as Hwp.
  { apply wp_pull_page; [apply pull_state_ok|done..|]. intros out' v' _ Ha. eauto. }
  specialize (Hwp pull_state_view eq_refl). unfold pull_page.
  destruct (pull_changelog_page _ _ _ _ _) as [r s'].
  destruct Hwp as [(out & -> & _ & _ & Ha)|(? & ? & _ & [])]. exists s'. split; [done|].
  destruct Ha as [[n Hn]|Hr]; [apply Hn|]. exfalso. rewrite pull_state_log, pull_state_index in Hr.
  destruct Hr as [_ _ _ _ [[_ [o Ho]]|[_ ([k x] & [_ Hx]%elem_of_recs_where & Hs)]]].
  - destruct Ho as [(e & He & Hlt)|(_ & t & Ht & _)]; [|by vm_compute in Ht].
    unfold first_of in He. destruct (recs_where _ _) as [|[k x] l] eqn:El; [done|].
    assert ((k, x) ∈ recs_where pull_log (fun k => ChangeLogStore.key_origin k = o)) as [Eo Hx]%elem_of_recs_where
      by (rewrite El; left).
    pose proof (pull_log_first k x Hx) as Hf. rewrite Eo in Hf. unfold first_of in Hf. rewrite El in Hf.
    assert (e = 1) as -> by congruence. specialize (Hc o). unfold u_range in Hc.
    change (have (pull_request c)) with c in Hlt. lia.
  - apply pull_log_check in Hx. unfold record_check, record_size in *. cbn [fst snd max_single_batch_bytes pull_request] in *.
    apply andb_true_iff in Hx as [[_ Hx]%andb_true_iff _]. zbool. lia.
Qed.

Lemma pull_delivers_all_witness :
  drain pull_page (S (length (missing (changelog pull_state_view) empty_cursor))) empty_cursor =
    Some (batches_of (missing (changelog pull_state_view) empty_cursor)) ∧
  length (missing (changelog pull_state_view) empty_cursor) = 4%nat.
Proof.
  split; [|vm_compute; reflexivity].
  apply (pull_delivers_all (X := ref_mdbx) 1 100 pull_state_view 2 pull_page pull_request empty_cursor).
  - apply pull_state_ok.
  - done.
  - intros c'. done.
  - intros c' Hc' _. destruct (pull_page_runs c' Hc') as (s' & Hrun & Hok). exists pull_state_view, s'.
    split; [exact eq_refl|]. split; [exact Hrun|exact Hok].
Defined.

Definition known_key (k : bytes) : bool :=
  let o := ChangeLogStore.key_origin k in
  let s := ChangeLogStore.key_seq k in
  bool_decide (o = replicate 16 Byte.x05) && (1 <=? s) && (s <=? 3) ||
  bool_decide (o = replicate 16 Byte.x06) && (s =? 1).

Lemma pull_log_known o s :
  node_ok o → is_u64 s → is_Some (pull_log !! make_changelog_key o s) →
  o = replicate 16 Byte.x05 ∧ 1 ≤ s ≤ 3 ∨ o = replicate 16 Byte.x06 ∧ s = 1.
Proof.
  intros Ho Hs [x Hin%pull_log_records]. assert (Forall (fun r => known_key r.1 = true) pull_records) as Hf.
  { repeat constructor; vm_compute; reflexivity. }
  rewrite Forall_forall in Hf. specialize (Hf _ Hin). unfold known_key in Hf. cbn [fst] in Hf.
  destruct (ChangeLogStore.encode_key_parts o s Ho Hs) as (E1 & E2 & _).
  change (ChangeLogStore.encode_key o s) with (make_changelog_key o s) in *. rewrite E1, E2 in Hf.
  apply orb_true_iff in Hf as [Hf|Hf]; [left|right].
  - apply andb_true_iff in Hf as [[?%bool_decide_eq_true ?]%andb_true_iff ?]. zbool. auto.
  - apply andb_true_iff in Hf as [?%bool_decide_eq_true ?]. zbool. auto.
Qed.

Lemma pull_log_contiguous : log_contiguous pull_log.
Proof.
  intros o s1 s2 s Ho Hs1 Hs Hs2 H1 H2.
  apply pull_log_known in H1; [|done|unfold u_range; lia]. apply pull_log_known in H2; [|done|unfold u_range; lia].
  destruct H1 as [[-> H1]|[-> H1]], H2 as [[E2 H2]|[E2 H2]];
    try (by vm_compute in E2).
  - assert (s = 1 ∨ s = 2 ∨ s = 3) as [->|[->| ->]] by lia; eexists; vm_compute; reflexivity.
  - assert (s = 1) as -> by lia. eexists; vm_compute; reflexivity.
Qed.

Lemma empty_cursor_ok : cursor_ok empty_cursor.
Proof. done. Qed.

Lemma pull_page_in_order_witness :
  seq_no (pull_batch Byte.x05 2) =
  last_seq_for (advance empty_cursor (take 1 (batches (pull_page empty_cursor))))
    (origin_node_id (pull_batch Byte.x05 2)) + 1.
Proof.
  destruct (pull_page_runs empty_cursor empty_cursor_ok) as (s' & Hrun & Hok).
  apply (pull_page_in_order (X := ref_mdbx) 1 100 2 (pull_request empty_cursor) pull_state_view s').
  - apply pull_state_ok.
  - change (log_contiguous (changelog pull_state_view)). rewrite pull_state_log. apply pull_log_contiguous.
  - exact empty_cursor_ok.
  - vm_compute. discriminate.
  - reflexivity.
  - exact Hrun.
  - exact Hok.
  - vm_compute. reflexivity.
Defined.
