(* ===== verification/EngineApi.v ===== *)
(** * The engine's requests

    Models the entry points of [src/include/mdbx_containers/sync/engine/SyncEngine.hpp] that
    open their own transactions: [local_node_id], [db_uuid], [db_id_matches], [handle_pull],
    [handle_push], [applied_cursor] and [make_push_request].

    A request runs over the state of one connection: the storage environment and the
    record of the committed applies (their generation counter and the events handed to the
    observers).  The connection is open, and the calling thread has no transaction of its own,
    so [Connection::transaction] begins one; its guard ends it on every path
    ([read_txn], [write_txn], after [Transaction::begin], [commit], [rollback] and [release] of
    [src/include/mdbx_containers/common/Transaction.ipp]). *)
From S2P Require Import Prelude SyncCommon KeyCodec SyncProtocol ChangeBatchCodec Mdbx RefMdbx StoreBase.
From S2P Require MetaStore AppliedStore OriginIndexStore ChangeLogStore TxnState Capture CaptureHooks.
From S2P Require Import ApplyEngine ApplyTheorems ApplyEffect PullEngine PullTheorems.
Open Scope Z_scope.

(** What [mark_sync_apply_committed] passes on to the observers. *)
Record SyncApplyEvent : Type := {
  generation : Z;
  applied_batches : Z;
  applied_ops : Z;
  affected_dbi_names : list bytes;
}.

Definition add_unique_dbi_name (names : list bytes) (dbi_name : bytes) : list bytes :=
  if bool_decide (dbi_name ∈ names) then names else names ++ [dbi_name].

(** The counters of [handle_push]. *)
Record push_progress : Type := { pp_batches : Z; pp_ops : Z; pp_names : list bytes }.

Definition no_progress : push_progress := {| pp_batches := 0; pp_ops := 0; pp_names := [] |}.

Definition count_batch (p : push_progress) (outcome : ApplyOutcome) (batch : ChangeBatch) : push_progress :=
  if bool_decide (out_result outcome = Applied) && negb (bool_decide (ops batch = [])) then {|
    pp_batches := pp_batches p + 1;
    pp_ops := pp_ops p + Z.of_nat (length (ops batch));
    pp_names := foldl add_unique_dbi_name (pp_names p) (dbi_name <$> ops batch);
  |} else p.

Section Code.
Context {X : Mdbx}.

Record conn_state : Type := {
  c_env : env;
  c_generation : Z;
  c_events : list SyncApplyEvent;
}.

Definition set_env (c : conn_state) (e : env) : conn_state :=
  {| c_env := e; c_generation := c_generation c; c_events := c_events c |}.

Definition E (A : Type) : Type := conn_state → result A * conn_state.

#[export] Instance E_ret : MRet E := fun A a c => (Ok a, c).
#[export] Instance E_bind : MBind E := fun A B f m c =>
  match m c with
  | (Ok a, c') => f a c'
  | (Throw e, c') => (Throw e, c')
  end.

(** A read-only transaction; the guard aborts it. *)
Definition read_txn {A} (context : string) (body : M A) : E A := fun c =>
  let '(rc, s) := mdbx_txn_begin (c_env c) true in
  if negb (rc =? MDBX_SUCCESS) then (Throw (MdbxException context rc), c)
  else
    let '(r, s) := body s in
    let '(_, e) := mdbx_txn_abort (c_env c) s in
    (r, set_env c e).

(** A writable transaction, committed or rolled back as [keep] says, and aborted by the
    guard when something throws.  [on_pre_commit] is the hook that runs before the commit. *)
Definition write_txn {A} (on_pre_commit : M unit) (body : M A) (keep : A → bool) : E A := fun c =>
  let '(rc, s) := mdbx_txn_begin (c_env c) false in
  if negb (rc =? MDBX_SUCCESS) then (Throw (MdbxException "Failed to begin transaction" rc), c)
  else
    let release s r := let '(_, e) := mdbx_txn_abort (c_env c) s in (r, set_env c e) in
    match body s with
    | (Throw x, s) => release s (Throw x)
    | (Ok a, s) =>
        if keep a then
          match on_pre_commit s with
          | (Throw x, s) => release s (Throw x)
          | (Ok _, s) =>
              let '(rc, e) := mdbx_txn_commit (c_env c) s in
              if negb (rc =? MDBX_SUCCESS)
              then (Throw (MdbxException "Failed to commit writable transaction" rc), set_env c e)
              else (Ok a, set_env c e)
          end
        else
          let '(rc, e) := mdbx_txn_abort (c_env c) s in
          if negb (rc =? MDBX_SUCCESS)
          then let '(_, e) := mdbx_txn_abort e s in
               (Throw (MdbxException "Failed to abort writable transaction" rc), set_env c e)
          else (Ok a, set_env c e)
    end.

(** The generation counter has 64 bits.  Which observers receive the event is up to their
    filters and not recorded. *)
Definition mark_sync_apply_committed (p : push_progress) : E unit := fun c =>
  let g := (c_generation c + 1) mod 2 ^ 64 in
  (Ok tt, {| c_env := c_env c; c_generation := g;
             c_events := c_events c ++
               [{| generation := g; applied_batches := pp_batches p; applied_ops := pp_ops p;
                   affected_dbi_names := pp_names p |}] |}).

Context (env_handle : Z) (fuel : nat) (m_policy : ConflictPolicy) (on_pre_commit : M unit).

Definition begin_failed : string := "Failed to begin transaction".

Definition local_node_id : E NodeId :=
  read_txn begin_failed (
    meta ← MetaStore.open (new_store env_handle MetaStore.meta_name); MetaStore.get_node_id meta).

Definition db_uuid : E NodeId :=
  read_txn begin_failed (
    meta ← MetaStore.open (new_store env_handle MetaStore.meta_name); MetaStore.get_db_uuid meta).

Definition db_id_matches (request_db_id : DbId) : E bool :=
  if compare_node_id request_db_id make_zero_node =? 0 then mret false
  else id ← db_uuid; mret (compare_node_id request_db_id id =? 0).

Definition applied_cursor : E SyncCursor :=
  read_txn begin_failed (read_applied_cursor fuel empty_cursor).

(** The part of [handle_pull] inside its read transaction. *)
Definition pull_in (request : PullRequest) : M PullResponse :=
  let out := default_pull_response in
  changelog_dbi ← open_changelog_ro;
  if changelog_dbi =? 0 then
    remote ← read_applied_cursor fuel (remote_have out);
    mret (set_cursors out remote (remote_tail out) true)
  else pull_changelog_page env_handle fuel changelog_dbi request.

(** Full snapshots are served by another part of the engine. *)
Definition handle_pull (handle_full_snapshot_pull : PullRequest → E PullResponse)
    (request : PullRequest) : E PullResponse :=
  matches ← db_id_matches (pull_db_id request);
  if negb matches then
    mret {| remote_have := empty_cursor; remote_tail := empty_cursor; remote_tail_known := false;
            batches := []; has_more := false; pull_ok := false; pull_error := "db_id mismatch";
            pull_error_code := DbIdMismatch; pull_error_retryable := false;
            is_full_snapshot := false; snapshot_chunk := default_chunk |}
  else if request_full_snapshot request then handle_full_snapshot_pull request
  else read_txn "SyncEngine: failed to begin read txn for pull" (pull_in request).

(** The loop of [handle_push]: a conflict stops it. *)
Fixpoint push_loop (bs : list ChangeBatch) (p : push_progress) : M (ApplyOutcome + push_progress) :=
  match bs with
  | [] => mret (inr p)
  | batch :: bs' =>
      outcome ← apply_batch_ex env_handle m_policy batch;
      if bool_decide (out_result outcome = Conflict) then mret (inl outcome)
      else push_loop bs' (count_batch p outcome batch)
  end.

Definition push_refused (o : ApplyOutcome) (receiver : SyncCursor) : PushResponse := {|
  receiver_have := receiver; push_ok := false; push_error := apply_conflict_message o;
  push_error_code := ApplyConflict;
  push_error_retryable := bool_decide (conflict_reason o = SequenceGap);
|}.

Definition handle_push (request : PushRequest) : E PushResponse :=
  matches ← db_id_matches (push_db_id request);
  if negb matches then
    receiver ← applied_cursor;
    mret {| receiver_have := receiver; push_ok := false; push_error := "db_id mismatch";
            push_error_code := DbIdMismatch; push_error_retryable := false |}
  else
    done ← write_txn on_pre_commit (push_loop (push_batches request) no_progress)
             (fun r => match r with inl _ => false | inr _ => true end);
    match done with
    | inl outcome => receiver ← applied_cursor; mret (push_refused outcome receiver)
    | inr p =>
        _ ← (if negb (pp_batches p =? 0) then mark_sync_apply_committed p else mret tt);
        receiver ← applied_cursor;
        mret {| receiver_have := receiver; push_ok := true; push_error := "";
                push_error_code := ErrNone; push_error_retryable := false |}
    end.

Definition make_push_request (from_seq to_seq : Z) : E PushRequest :=
  db_id ← db_uuid;
  if negb (to_seq =? 0) && (to_seq <? from_seq) then
    mret {| sender := make_zero_node; push_db_id := db_id; push_batches := [] |}
  else read_txn begin_failed (make_push_request_in env_handle db_id from_seq to_seq).
End Code.

(** The hook of the connection before a commit of the transaction [ptr]; logical captures
    have nothing to flush for a transaction that only applies batches. *)
Definition pre_commit_hook {X : Mdbx} (fuel : nat) (ptr : Z) (h : CaptureHooks.hooks) : M unit := fun s =>
  let '(r, _, s) := CaptureHooks.on_pre_commit fuel [] ptr h s in (r, s).

(** The transaction recorded no operation and is not marked. *)
Definition nothing_captured (ptr : Z) (h : CaptureHooks.hooks) : Prop :=
  CaptureHooks.sync_capture_failed ptr h = false ∧
  ∀ a, CaptureHooks.m_sync_capture h = Some a → default [] (Capture.ac_pending a !! ptr) = [].

(** ** Rules for requests *)

Section Rules.
Context {X : Mdbx} {L : MdbxLaws X}.

Definition ewp {A} (m : E A) (Q : result A → conn_state → Prop) (c : conn_state) : Prop :=
  let '(r, c') := m c in Q r c'.

Lemma ewp_mono {A} (m : E A) (P Q : result A → conn_state → Prop) c :
  ewp m P c → (∀ r c', P r c' → Q r c') → ewp m Q c.
Proof. unfold ewp. destruct (m c). auto. Qed.

Lemma ewp_ret {A} (a : A) Q c : Q (Ok a) c → ewp (mret a) Q c.
Proof. done. Qed.

Lemma ewp_bind {A B} (m : E A) (f : A → E B) Q c :
  ewp m (fun r c' => match r with Ok a => ewp (f a) Q c' | Throw e => Q (Throw e) c' end) c →
  ewp (m ≫= f) Q c.
Proof. unfold ewp, mbind, E_bind. by destruct (m c) as [[a|e] c']. Qed.

(** The database is as it was, and nothing was published. *)
Record quiet (c c' : conn_state) : Prop := {
  qt_id : env_id (c_env c') = env_id (c_env c);
  qt_dbs : env_dbs (c_env c') = env_dbs (c_env c);
  qt_generation : c_generation c' = c_generation c;
  qt_events : c_events c' = c_events c;
}.

#[export] Instance quiet_preorder : PreOrder quiet.
Proof. split; [done|]. intros a b c [] []. split; congruence. Qed.

(** The view of a transaction that has just begun. *)
Definition begun (c : conn_state) (rw : bool) (v : db_view) : Prop :=
  v_env v = env_id (c_env c) ∧ v_rw v = rw ∧ v_dbs v = env_dbs (c_env c).

Lemma begun_quiet c c' rw v : quiet c c' → begun c' rw v → begun c rw v.
Proof. intros [Hi Hd _ _] (? & ? & ?). split_and!; congruence. Qed.

Lemma abort_quiet c s rc e : mdbx_txn_abort (c_env c) s = (rc, e) → quiet c (set_env c e).
Proof. intros (? & ? & _)%law_abort. by split. Qed.

Lemma ewp_read {A} context (body : M A) Q c :
  (∀ v, begun c false v → wp body (fun r _ => ∀ c', quiet c c' → Q r c') v) →
  (∀ r c', quiet c c' → engine_failure r → Q r c') → ewp (read_txn context body) Q c.
Proof.
  intros Hb He. unfold ewp, read_txn. destruct (mdbx_txn_begin (c_env c) true) as [rc s] eqn:Es.
  destruct (law_begin _ _ _ _ Es) as [Herr|(-> & Hv)].
  { rewrite (error_neq rc MDBX_SUCCESS Herr) by set_solver. simpl. apply He; [done|]. by exists context, rc. }
  simpl. specialize (Hb (view s) Hv s eq_refl). destruct (body s) as [r s'].
  destruct (mdbx_txn_abort (c_env c) s') as [rc' e] eqn:Ea. apply abort_quiet in Ea. naive_solver.
Qed.

(** What a commit leaves. *)
Record committed (c : conn_state) (v : db_view) (c' : conn_state) : Prop := {
  cm_id : env_id (c_env c') = env_id (c_env c);
  cm_dbs : env_dbs (c_env c') = v_dbs v;
  cm_generation : c_generation c' = c_generation c;
  cm_events : c_events c' = c_events c;
}.

Lemma ewp_write {A} hook (body : M A) keep Q c :
  (∀ v, begun c true v → wp body (fun r v' =>
     match r with
     | Ok a =>
         if keep a : bool then wp hook (fun r' v2 =>
           match r' with
           | Ok _ => ∀ c', committed c v2 c' → Q (Ok a) c'
           | Throw x => ∀ c', quiet c c' → Q (Throw x) c'
           end) v'
         else ∀ c', quiet c c' → Q (Ok a) c'
     | Throw x => ∀ c', quiet c c' → Q (Throw x) c'
     end) v) →
  (∀ r c', quiet c c' → engine_failure r → Q r c') → ewp (write_txn hook body keep) Q c.
Proof.
  intros Hb He. unfold ewp, write_txn. destruct (mdbx_txn_begin (c_env c) false) as [rc s] eqn:Es.
  destruct (law_begin _ _ _ _ Es) as [Herr|(-> & Hv)].
  { rewrite (error_neq rc MDBX_SUCCESS Herr) by set_solver. simpl. apply He; [done|]. eexists _, rc. eauto. }
  simpl. specialize (Hb (view s) Hv s eq_refl).
  assert (∀ s x e rc, mdbx_txn_abort (c_env c) s = (rc, e) → engine_failure (A := A) (Throw x) →
    Q (Throw x) (set_env c e)) as Hab by (intros; eapply He; [by eapply abort_quiet|done]).
  destruct (body s) as [[a|x] s1].
  - destruct Hb as [Hb|(ctx & rc & [=] & _)]. destruct (keep a).
    + specialize (Hb s1 eq_refl). destruct (hook s1) as [[[]|x] s2].
      * destruct Hb as [Hb|(ctx & rc & [=] & _)]. destruct (mdbx_txn_commit (c_env c) s2) as [rc e] eqn:Ec.
        destruct (law_commit _ _ _ _ Ec) as (Hi & [[Herr Hd]|[-> Hd]]).
        -- rewrite (error_neq rc MDBX_SUCCESS Herr) by set_solver. simpl. apply He; [by split|]. eexists _, rc. eauto.
        -- simpl. apply Hb. by split.
      * destruct (mdbx_txn_abort (c_env c) s2) as [rc e] eqn:Ea.
        destruct Hb as [Hb|Hb]; [by eapply Hb, abort_quiet|]. eapply Hab; [exact Ea|].
        destruct Hb as (ctx & rc' & [= ->] & ?). by exists ctx, rc'.
    + destruct (mdbx_txn_abort (c_env c) s1) as [rc e] eqn:Ea.
      destruct (law_abort _ _ _ _ Ea) as (Hi & Hd & [Herr| ->]); [|by simpl; eapply Hb, abort_quiet].
      rewrite (error_neq rc MDBX_SUCCESS Herr) by set_solver. simpl.
      destruct (mdbx_txn_abort e s1) as [rc2 e2] eqn:Ea2. destruct (law_abort _ _ _ _ Ea2) as (Hi2 & Hd2 & _).
      apply He; [split; simpl; congruence|]. eexists _, rc. eauto.
  - destruct (mdbx_txn_abort (c_env c) s1) as [rc e] eqn:Ea. destruct Hb as [Hb|Hb]; [by eapply Hb, abort_quiet|].
    by eapply Hab.
Qed.
End Rules.

(** ** Requests *)

Section Requests.
Context {X : Mdbx} {L : MdbxLaws X} (env_handle : Z) (fuel : nat) (m_policy : ConflictPolicy).

(** The database between transactions. *)
Definition conn_view (c : conn_state) : db_view :=
  {| v_env := env_id (c_env c); v_rw := true; v_dbs := env_dbs (c_env c); v_handles := ∅ |}.

Record conn_ok (c : conn_state) : Prop := {
  co_engine : engine_ok env_handle (conn_view c);
  co_meta : is_Some (env_dbs (c_env c) !! MetaStore.meta_name);
}.

Lemma engine_ok_same v w :
  v_env v = v_env w → v_rw v = v_rw w → v_dbs v = v_dbs w → engine_ok env_handle w → engine_ok env_handle v.
Proof.
  intros He Hr Hd [H1 H2 H3 H4 H5]. assert (∀ n, table v n = table w n) as Ht by (intros n; unfold table; by rewrite Hd).
  unfold sys_table, recs in *. split; unfold sys_table, recs; try congruence.
  - intros n. rewrite Ht. apply H3.
  - by rewrite Ht.
  - intros id x. rewrite Ht. apply H5.
Qed.

Lemma begun_recs c rw v n : begun c rw v → recs v n = recs (conn_view c) n.
Proof. intros (_ & _ & E). unfold recs, table. by rewrite E. Qed.

Lemma begun_sys c rw v n : begun c rw v → n ∈ system_names → conn_ok c → sys_table v n.
Proof. intros (_ & _ & E) Hn Hc. pose proof (ok_sys _ _ (co_engine _ Hc) n Hn) as Hs. unfold sys_table, table in *. by rewrite E. Qed.

Lemma conn_ok_quiet c c' : quiet c c' → conn_ok c → conn_ok c'.
Proof.
  intros [Hi Hd _ _] [He Hm]. split; [|by rewrite Hd]. eapply engine_ok_same; [..|exact He]; simpl; congruence.
Qed.

Lemma quiet_view c c' : quiet c c' → conn_view c' = conn_view c.
Proof. intros [Hi Hd _ _]. unfold conn_view. by rewrite Hi, Hd. Qed.

Lemma ewp_db_uuid Q c :
  conn_ok c → (∀ c', quiet c c' → Q (Ok (local_db (conn_view c))) c') →
  (∀ r c', quiet c c' → engine_failure r → Q r c') → ewp (db_uuid env_handle) Q c.
Proof.
  intros Hc HQ He. apply ewp_read; [|done]. intros v Hv. pose proof Hv as (Henv & Hrw & Hd).
  pose proof (co_engine _ Hc) as Hok.
  apply wp_bind, wp_store_open; [done|by rewrite Henv; apply Hok|by eapply begun_sys; [|left|]|right; rewrite Hd; apply Hc|].
  intros meta v1 (He1 & Hr1 & Hn1 & _). apply wp_bind, MetaStore.wp_read_fixed; [done|].
  rewrite Hn1, (ext_recs _ _ _ He1), (begun_recs _ _ _ _ Hv). apply wp_ret. intros c' Hq. by apply HQ.
Qed.

Lemma conn_db_ok c : node_ok (local_db (conn_view c)).
Proof.
  apply MetaStore.fill_node_ok.
Qed.

Lemma ewp_db_id_matches id Q c :
  conn_ok c → node_ok id →
  (∀ c', quiet c c' → Q (Ok (bool_decide (id ≠ make_zero_node ∧ id = local_db (conn_view c)))) c') →
  (∀ r c', quiet c c' → engine_failure r → Q r c') → ewp (db_id_matches env_handle id) Q c.
Proof.
  intros Hc Hid HQ He. unfold db_id_matches.
  destruct (Z.eqb_spec (compare_node_id id make_zero_node) 0) as [E|E];
    rewrite compare_node_id_zero in E by (done || apply make_zero_node_ok).
  { apply ewp_ret. rewrite bool_decide_false in HQ by naive_solver. by apply HQ. }
  apply ewp_bind, ewp_db_uuid; [done|..].
  - intros c' Hq. apply ewp_ret. specialize (HQ c' Hq). revert HQ.
    pose proof (compare_node_id_zero _ _ Hid (conn_db_ok c)) as Hz.
    case_bool_decide as E'; intros HQ.
    + by rewrite (proj2 (Z.eqb_eq _ _)) by naive_solver.
    + by rewrite (proj2 (Z.eqb_neq _ _)) by naive_solver.
  - intros [a|e] c' Hq (ctx & rc & [= ->] & Herr). apply He; [done|]. by exists ctx, rc.
Qed.

(** The cursor holds the last applied sequence number of every origin. *)
Definition cursor_matches (cur : SyncCursor) (v : db_view) : Prop :=
  ∀ o, node_ok o → last_seq_for cur o = last_seq v o.

Lemma ewp_applied_cursor Q c :
  conn_ok c → (size (recs (conn_view c) AppliedStore.applied_name) < fuel)%nat →
  (∀ cur c', quiet c c' → cursor_matches cur (conn_view c) → Q (Ok cur) c') →
  (∀ r c', quiet c c' → engine_failure r → Q r c') → ewp (applied_cursor fuel) Q c.
Proof.
  intros Hc Hf HQ He. apply ewp_read; [|done]. intros v Hv.
  apply wp_read_applied_cursor; [eapply begun_sys; [done|by right; left|done]|by rewrite (begun_recs _ _ _ _ Hv)|].
  intros v' _ c' Hq. apply HQ; [done|]. intros o Ho. rewrite cursor_of_seq by done. unfold last_seq.
  by rewrite (begun_recs _ _ _ _ Hv).
Qed.
(** *** Push *)

(** The batches of a push, one after the other: each came from this node or was seen before
    and was skipped, or it passed every check and was applied.  What an applied batch leaves
    in the user tables is said in full for tables without duplicates. *)
Inductive batches_applied : list ChangeBatch → db_view → push_progress → db_view → push_progress → Prop :=
  | applied_nil v p : batches_applied [] v p v p
  | applied_skip batch bs v p v1 v' p' :
      origin_node_id batch = local_node v ∨ seq_no batch ≤ last_seq v (origin_node_id batch) →
      v_touch [] v v1 → batches_applied bs v1 p v' p' → batches_applied (batch :: bs) v p v' p'
  | applied_batch batch bs v p o v1 v' p' :
      passes_checks m_policy v batch → v_touch (batch_tables batch) v v1 → out_result o = Applied →
      recs v1 AppliedStore.applied_name =
        <[origin_node_id batch := write_u64_le (seq_no batch)]> (recs v AppliedStore.applied_name) →
      (index_ok v → batch_plain v batch →
         cells_after (entries v batch) (origin_node_id batch) (seq_no batch) v v1 ∧ index_ok v1) →
      batches_applied bs v1 (count_batch p o batch) v' p' → batches_applied (batch :: bs) v p v' p'.

Lemma batches_applied_touch bs v p v' p' :
  batches_applied bs v p v' p' →
  v_touch (mjoin (batch_tables <$> bs)) v v' ∧
  (size (recs v' AppliedStore.applied_name) ≤ size (recs v AppliedStore.applied_name) + length bs)%nat.
Proof.
  induction 1 as [|batch bs v p v1 v' p' _ Ht _ [IHt IHs]|batch bs v p o v1 v' p' _ Ht _ Ha _ _ [IHt IHs]]; simpl.
  - split; [done|lia].
  - split; [etrans; eapply v_touch_mono; [|exact Ht| |exact IHt]; set_solver|].
    rewrite (touch_recs _ _ _ _ Ht) in IHs by set_solver. lia.
  - split; [etrans; eapply v_touch_mono; [|exact Ht| |exact IHt]; set_solver|].
    rewrite Ha, map_size_insert in IHs. destruct (_ !! _); simpl in IHs; lia.
Qed.

Lemma local_node_ok v : MetaStore.meta_ok (MetaStore.meta_of (recs v MetaStore.meta_name)) → node_ok (local_node v).
Proof.
  intros Hm. unfold local_node, MetaStore.meta_ok in *. cbn [MetaStore.a_node_id MetaStore.meta_of] in Hm.
  destruct (_ !! _); [by apply Hm|apply make_zero_node_ok].
Qed.

(** The conflict that stopped a push is that of a batch, reached after the ones before it. *)
Definition push_conflict (bs : list ChangeBatch) (v : db_view) (p : push_progress) (o : ApplyOutcome) : Prop :=
  out_result o = Conflict ∧
  ∃ bs1 batch bs2 v1 p1, bs = bs1 ++ batch :: bs2 ∧ batches_applied bs1 v p v1 p1 ∧ refusal m_policy v1 batch o.

Lemma batch_ok_origin batch : batch_ok batch → node_ok (origin_node_id batch).
Proof. by intros (_ & _ & ? & _). Qed.

(** One batch of the loop. *)
Lemma wp_push_batch batch v :
  engine_ok env_handle v → batch_ok batch →
  wp (apply_batch_ex env_handle m_policy batch) (fun r v1 =>
    ∀ o, r = Ok o → engine_ok env_handle v1 ∧
      (out_result o = Conflict → refusal m_policy v batch o) ∧
      (out_result o ≠ Conflict → ∀ bs p v' p',
         batches_applied bs v1 (count_batch p o batch) v' p' → batches_applied (batch :: bs) v p v' p')) v.
Proof.
  intros Hok Hb. assert (wp (apply_batch_ex env_handle m_policy batch) (fun r v1 =>
    ∀ o, r = Ok o → acceptable m_policy v batch ∧ index_ok v ∧ batch_plain v batch →
      cells_after (entries v batch) (origin_node_id batch) (seq_no batch) v v1 ∧ index_ok v1) v) as Heff.
  { apply (wp_assume _ _ (fun _ v1 => cells_after (entries v batch) _ _ v v1 ∧ index_ok v1)). intros (Ha & Hi & Hp).
    eapply wp_mono; [by apply wp_apply_effect|]. by intros r v1 (_ & ? & ?). }
  eapply wp_mono; [apply wp_both; [by apply wp_apply_post|exact Heff]|].
  intros r v1 [[Hok1 Hp] He] o ->. split; [done|].
  destruct Hp as [(o' & [= <-] & Hna & Ht)|(Hacc & Ht & Ho)].
  - split; [done|]. intros Hc bs p v' p' Hr. unfold refusal in Hna.
    destruct (out_result o) eqn:Eo; [done| |done]. unfold count_batch in Hr. rewrite bool_decide_false in Hr by congruence.
    eapply applied_skip; [|exact Ht|exact Hr]. rewrite compare_node_id_zero in Hna; [done|by apply batch_ok_origin|].
    apply local_node_ok, Hok.
  - destruct (Ho o eq_refl) as (Eo & _ & Ha). rewrite Eo. split; [done|]. intros _ bs p v' p' Hr.
    eapply applied_batch; [done..| |exact Hr]. intros Hi Hpl. apply (He o); [done|]. by destruct Hacc.
Qed.

Lemma wp_push_loop bs p v :
  engine_ok env_handle v → Forall batch_ok bs →
  wp (push_loop env_handle m_policy bs p) (fun r v' =>
    match r with
    | Ok (inr p') => engine_ok env_handle v' ∧ batches_applied bs v p v' p'
    | Ok (inl o) => push_conflict bs v p o
    | Throw _ => True
    end) v.
Proof.
  intros Hok Hbs. revert p v Hok. induction Hbs as [|batch bs Hb Hbs IH]; intros p v Hok; simpl.
  { apply wp_ret. split; [done|constructor]. }
  apply wp_bind. eapply wp_mono; [by apply wp_push_batch|]. intros [o|e] v1 Hp; [|done].
  destruct (Hp o eq_refl) as (Hok1 & Hc & Ha). case_bool_decide as E.
  - apply wp_ret. split; [done|]. exists [], batch, bs, v, p. split_and!; [done|constructor|by apply Hc].
  - eapply wp_mono; [by apply IH|]. intros [[o'|p']|?] v' Hr; [| |done].
    + destruct Hr as (Eo & bs1 & b & bs2 & v2 & p2 & -> & Hb1 & Hre). split; [done|].
      exists (batch :: bs1), b, bs2, v2, p2. split_and!; [done|by apply Ha|done].
    + destruct Hr as [? Hr]. split; [done|]. by apply Ha.
Qed.

Definition push_event (c : conn_state) (p : push_progress) : list SyncApplyEvent :=
  if pp_batches p =? 0 then []
  else [{| generation := (c_generation c + 1) mod 2 ^ 64; applied_batches := pp_batches p;
           applied_ops := pp_ops p; affected_dbi_names := pp_names p |}].

(** The database after a push whose batches all went through. *)
Definition push_committed (request : PushRequest) (c c' : conn_state) (v' : db_view) (p : push_progress) : Prop :=
  (∃ v, begun c true v ∧ batches_applied (push_batches request) v no_progress v' p) ∧
  env_id (c_env c') = env_id (c_env c) ∧ env_dbs (c_env c') = v_dbs v' ∧
  c_events c' = c_events c ++ push_event c p.

(** Why a push was refused. *)
Definition push_refusal (request : PushRequest) (c : conn_state) (resp : PushResponse) : Prop :=
  push_ok resp = false ∧ cursor_matches (receiver_have resp) (conn_view c) ∧
  (push_error_code resp = DbIdMismatch ∧ push_error_retryable resp = false ∧
     (push_db_id request = make_zero_node ∨ push_db_id request ≠ local_db (conn_view c)) ∨
   push_error_code resp = ApplyConflict ∧ push_db_id request = local_db (conn_view c) ∧
     ∃ o v, begun c true v ∧ push_conflict (push_batches request) v no_progress o ∧
       push_error resp = apply_conflict_message o ∧
       (push_error_retryable resp = true ↔ conflict_reason o = SequenceGap)).

Definition push_post (request : PushRequest) (c : conn_state) (r : result PushResponse) (c' : conn_state) : Prop :=
  conn_ok c' ∧
  (quiet c c' ∧ (∀ resp, r = Ok resp → push_refusal request c resp) ∨
   ∃ v' p, push_committed request c c' v' p ∧
     ((∃ resp, r = Ok resp ∧ push_ok resp = true ∧ cursor_matches (receiver_have resp) v') ∨ engine_failure r)).

Lemma push_post_failed request c r c' :
  conn_ok c → quiet c c' → (∀ resp, r ≠ Ok resp) → push_post request c r c'.
Proof. intros Hc Hq Hr. split; [by eapply conn_ok_quiet|]. left. split; [done|]. by intros resp ?%Hr. Qed.

Lemma failure_not_ok {A} (r : result A) a : engine_failure r → r ≠ Ok a.
Proof. by intros (? & ? & -> & _). Qed.

Lemma push_applied c c1 c2 v1 v2 v p request :
  conn_ok c → begun c true v → engine_ok env_handle v1 →
  batches_applied (push_batches request) v no_progress v1 p → v_dbs v2 = v_dbs v1 → committed c v2 c1 →
  env_id (c_env c2) = env_id (c_env c1) → env_dbs (c_env c2) = env_dbs (c_env c1) →
  c_events c2 = c_events c1 ++ push_event c p →
  conn_ok c2 ∧ push_committed request c c2 v1 p ∧ (∀ n, recs (conn_view c2) n = recs v1 n) ∧
  (size (recs v1 AppliedStore.applied_name) ≤
     size (recs (conn_view c) AppliedStore.applied_name) + length (push_batches request))%nat.
Proof.
  intros Hc Hv Hok Ha E2 [Hi Hd Hg He] Hi2 Hd2 He2. pose proof (batches_applied_touch _ _ _ _ _ Ha) as [Ht Hs].
  rewrite (begun_recs _ _ _ _ Hv) in Hs. split_and!; [split| | |done].
  - eapply engine_ok_same; [..|exact Hok]; simpl; [|by rewrite (ok_rw _ _ Hok)|congruence].
    rewrite Hi2, Hi. etrans; [|apply (ok_env _ _ Hok)]. symmetry. apply (ok_env _ _ (co_engine _ Hc)).
  - rewrite Hd2, Hd, E2. apply (to_dom _ _ _ Ht). destruct Hv as (_ & _ & ->). apply Hc.
  - split_and!; [eauto|congruence..|]. by rewrite He2, He.
  - intros n. unfold recs, table. simpl. by rewrite Hd2, Hd, E2.
Qed.

Lemma push_throw request c x c' : conn_ok c → quiet c c' → push_post request c (Throw x) c'.
Proof. intros Hc Hq. by apply push_post_failed. Qed.

(** An answer that reads the applied cursor of an unchanged database. *)
Lemma ewp_push_answer request (f : SyncCursor → PushResponse) c c1 :
  conn_ok c → quiet c c1 → (size (recs (conn_view c) AppliedStore.applied_name) < fuel)%nat →
  (∀ cur, cursor_matches cur (conn_view c) → push_refusal request c (f cur)) →
  ewp (receiver ← applied_cursor fuel; mret (f receiver)) (push_post request c) c1.
Proof.
  intros Hc Hq Hf HP. apply ewp_bind, ewp_applied_cursor; [by eapply conn_ok_quiet|by rewrite (quiet_view _ _ Hq)|..].
  - intros cur c2 Hq2 Hcur. rewrite (quiet_view _ _ Hq) in Hcur. assert (quiet c c2) by by etrans.
    apply ewp_ret. split; [by eapply conn_ok_quiet|]. left. split; [done|]. intros resp [= <-]. by apply HP.
  - intros [m|e] c2 Hq2 Hr; [by destruct Hr as (? & ? & [=] & _)|]. apply push_throw; [done|by etrans].
Qed.

(** Publishing a committed push and answering it. *)
Lemma ewp_push_done request p c v v1 v2 c1 :
  conn_ok c → begun c true v → engine_ok env_handle v1 →
  batches_applied (push_batches request) v no_progress v1 p → v_dbs v2 = v_dbs v1 → committed c v2 c1 →
  (size (recs (conn_view c) AppliedStore.applied_name) + length (push_batches request) < fuel)%nat →
  ewp (_ ← (if negb (pp_batches p =? 0) then mark_sync_apply_committed p else mret tt);
       receiver ← applied_cursor fuel;
       mret {| receiver_have := receiver; push_ok := true; push_error := ""; push_error_code := ErrNone;
               push_error_retryable := false |}) (push_post request c) c1.
Proof.
  intros Hc Hv Hok Ha E2 Hcm Hf. set (c3 := if pp_batches p =? 0 then c1 else snd (mark_sync_apply_committed p c1)).
  destruct (push_applied c c1 c3 v1 v2 v p request) as (Hc3 & Hpc & Hrecs & Hsz); try done.
  1,2: subst c3; by destruct (_ =? 0).
  { subst c3. unfold push_event. destruct (_ =? 0); [by rewrite app_nil_r|]. simpl. by rewrite (cm_generation _ _ _ Hcm). }
  assert (∀ c4 r, quiet c3 c4 → ((∃ resp, r = Ok resp ∧ push_ok resp = true ∧ cursor_matches (receiver_have resp) v1) ∨
    engine_failure r) → push_post request c r c4) as H4.
  { intros c4 r Hq Hr. split; [by eapply conn_ok_quiet|]. right. exists v1, p. split; [|done].
    destruct Hq, Hpc as (? & ? & ? & ?). split_and!; [done|congruence..]. }
  assert (ewp (receiver ← applied_cursor fuel; mret {| receiver_have := receiver; push_ok := true; push_error := "";
    push_error_code := ErrNone; push_error_retryable := false |}) (push_post request c) c3) as Hlast.
  { apply ewp_bind, ewp_applied_cursor; [done|rewrite Hrecs; lia|..].
    - intros cur c4 Hq Hcur. apply ewp_ret, H4; [done|]. left. eexists. split_and!; [done..|]. simpl. intros o Ho.
      rewrite (Hcur o Ho). unfold last_seq. by rewrite Hrecs.
    - intros [m|e] c4 Hq Hf4; [by destruct Hf4 as (? & ? & [=] & _)|]. apply H4; [done|]. right.
      destruct Hf4 as (ctx & rc & [= ->] & ?). by exists ctx, rc. }
  subst c3. apply ewp_bind. destruct (pp_batches p =? 0); exact Hlast.
Qed.

(** The hook of a transaction without captured operations writes nothing. *)
Lemma wp_pre_commit_idle n ptr h v :
  nothing_captured ptr h → wp (pre_commit_hook n ptr h) (fun _ v' => v_dbs v' = v_dbs v) v.
Proof.
  intros [Hf Hp] s <-. unfold pre_commit_hook, CaptureHooks.on_pre_commit, TxnState.reading. rewrite Hf.
  unfold mbind, TxnState.St_bind, TxnState.on_throw, CaptureHooks.with_sink.
  destruct (CaptureHooks.m_sync_capture h) as [a|] eqn:Ea; [|by left].
  unfold Capture.flush_in_txn, mbind, TxnState.St_bind, TxnState.in_txn, TxnState.reading, checked_txn_env.
  destruct (negb _); [by left|]. specialize (Hp a eq_refl).
  destruct (Capture.ac_pending a !! ptr) as [[|op l]|]; [by left|done|by left].
Qed.

(** C11: a push is all or nothing.  It leaves the database as it was, and then any answer is a
    refusal that says why (another database id, or the conflict of the first batch that is
    refused, with a true reason; it may be retried exactly for a sequence gap) and carries
    the receiver's unchanged cursor; or the batches were taken in order, each one skipped
    because it came from this node or had been applied before, or applied with the effect of
    its operations and its sequence number recorded, the commit took effect as a whole, one event with
    the counts was published when a batch changed something, and the answer carries the new
    cursor (only the storage engine can still fail while that cursor is read).  The
    database stays well-formed in every case.  The commit runs the capture hook of the
    connection; a push records no operation of its own in the capture. *)
Theorem handle_push_atomic (ptr : Z) (h : CaptureHooks.hooks) (request : PushRequest) (c : conn_state) :
  conn_ok c → node_ok (push_db_id request) → Forall batch_ok (push_batches request) →
  nothing_captured ptr h →
  (size (recs (conn_view c) AppliedStore.applied_name) + length (push_batches request) < fuel)%nat →
  ewp (handle_push env_handle fuel m_policy (pre_commit_hook fuel ptr h) request) (push_post request c) c.
Proof.
  intros Hc Hid Hbs Hcap Hf. apply ewp_bind, ewp_db_id_matches; [done..| |].
  2:{ intros [m|e] c' Hq Hr; [by destruct Hr as (? & ? & [=] & _)|]. by apply push_throw. }
  intros c1 Hq1. case_bool_decide as Em; simpl.
  2:{ apply ewp_push_answer; [done..|lia|]. intros cur Hcur. split_and!; [done..|]. left. split_and!; [done..|].
      destruct (decide (push_db_id request = make_zero_node)); naive_solver. }
  apply ewp_bind, ewp_write.
  2:{ intros [m|e] c2 Hq2 Hr; [by destruct Hr as (? & ? & [=] & _)|]. apply push_throw; [done|by etrans]. }
  intros v Hv%(begun_quiet c); [|done].
  assert (engine_ok env_handle v) as Hok.
  { destruct Hv as (? & ? & ?). eapply engine_ok_same; [..|apply (co_engine _ Hc)]; done. }
  eapply wp_mono; [by apply wp_push_loop|]. intros [[o|p]|e] v1 Hr.
  - intros c2 Hq2. apply (ewp_push_answer _ (push_refused o)); [done|by etrans|lia|].
    intros cur Hcur. split_and!; [done..|]. right. split_and!; [done|naive_solver|].
    exists o, v. split; [done|]. split; [done|]. split; [done|]. simpl. by rewrite bool_decide_eq_true.
  - destruct Hr as [Hok1 Ha]. eapply wp_mono; [by apply wp_pre_commit_idle|]. intros [[]|x] v2 E2 c2 Hcm.
    + eapply ewp_push_done; try done. destruct Hcm, Hq1. split; congruence.
    + apply push_throw; [done|by etrans].
  - intros c2 Hq2. apply push_throw; [done|by etrans].
Qed.

(** *** Pull *)

(** A database whose changelog and origin index hold what the log store writes. *)
Record log_ok (v : db_view) : Prop := {
  lg_changelog : sys_table v ChangeLogStore.changelog_name;
  lg_origins : sys_table v OriginIndexStore.origins_name;
  lg_batches : log_batches (changelog v);
  lg_index_wf : OriginIndexStore.index_wf (recs v OriginIndexStore.origins_name);
  lg_index : recs v OriginIndexStore.origins_name ≠ ∅ →
    ChangeLogStore.index_covers (changelog v) (recs v OriginIndexStore.origins_name);
  lg_fuel n : n ∈ [ChangeLogStore.changelog_name; AppliedStore.applied_name; OriginIndexStore.origins_name] →
    (size (recs v n) < fuel)%nat;
}.

Lemma log_ok_same v w : v_dbs v = v_dbs w → log_ok w → log_ok v.
Proof.
  intros Hd [H1 H2 H3 H4 H5 H6]. unfold sys_table, changelog, recs, table in *.
  split; unfold sys_table, changelog, recs, table; rewrite ?Hd; done.
Qed.

Lemma missing_empty c : missing ∅ c = [].
Proof. apply recs_where_nil. intros k x Hx. by rewrite lookup_empty in Hx. Qed.

(** Without a changelog the answer is an empty page. *)
Lemma empty_page request out :
  0 ≤ max_batches request → pull_ok out = true → batches out = [] → has_more out = false →
  page_ok ∅ request 0 out.
Proof.
  intros Hm Hok Hb Hh. split; rewrite ?missing_empty; try done; simpl; try lia.
  by intros k x ?%elem_of_nil.
Qed.

Lemma wp_pull_in request v Q :
  env_handle = v_env v → sys_table v AppliedStore.applied_name → log_ok v → cursor_ok (have request) →
  0 ≤ max_batches request → request_full_snapshot request = false →
  (∀ out v', pull_answer v request out → Q (Ok out) v') → wp (pull_in env_handle fuel request) Q v.
Proof.
  intros Henv Ha Hl Hc Hm Hs HQ. unfold pull_in, open_changelog_ro, open_store_ro.
  apply wp_assoc, wp_open_existing; [apply Hl|..].
  - intros rc dbi v' He. apply wp_bind. engine_error_case.
  - intros dbi Hn. apply wp_ret_bind. simpl. apply wp_bind, wp_read_applied_cursor; [done|apply Hl; set_solver|].
    intros v' _. apply wp_ret, HQ.
    assert (changelog v = ∅) as E by (unfold changelog, recs, table; by rewrite Hn).
    unfold pull_answer. rewrite E. split_and!.
    + intros o Ho. by apply cursor_of_seq.
    + intros _ k [x Hx]. by rewrite lookup_empty in Hx.
    + left. exists 0%nat. by apply empty_page.
  - intros dbi v1 Hz He Hb. apply wp_assoc, wp_ret_bind, wp_ret_bind. rewrite (proj2 (Z.eqb_neq _ _) Hz).
    pose proof He as [He1 Hd1]. pose proof (log_ok_same _ _ Hd1 Hl) as [H1 H2 H3 H4 H5 H6].
    apply wp_pull_page; try done.
    + split; try done; [by rewrite (ext_env _ _ He1)|]. unfold sys_table. by rewrite (ext_table _ _ He1).
    + intros out v' _ Hout. apply HQ. revert Hout. unfold pull_answer, changelog. by rewrite !(ext_recs _ _ _ He1).
Qed.

(** The answer to a pull request. *)
Definition pull_post (request : PullRequest) (c : conn_state) (r : result PullResponse) (c' : conn_state) : Prop :=
  quiet c c' ∧
  (engine_failure r ∨
   ∃ out, r = Ok out ∧
     if bool_decide (pull_db_id request ≠ make_zero_node ∧ pull_db_id request = local_db (conn_view c))
     then pull_answer (conn_view c) request out
     else pull_ok out = false ∧ pull_error_code out = DbIdMismatch ∧ batches out = []).

(** C12: a pull never changes the database.  For another database id it is refused; otherwise
    the answer says what this node has applied of every origin and either is refused for a
    reason that holds (history that the requester needs was pruned, or a missing batch is
    above the single-batch limit), or is a page: the first missing batches of the changelog
    in key order, within the count and byte limits of the request, with [has_more] exactly
    when some remain, at least one when the limits allow it, and with no gap between what the
    requester has of an origin and the retained history. *)
Theorem handle_pull_page (snapshot : PullRequest → E PullResponse) (request : PullRequest) (c : conn_state) :
  conn_ok c → log_ok (conn_view c) → node_ok (pull_db_id request) → cursor_ok (have request) →
  0 ≤ max_batches request → request_full_snapshot request = false →
  ewp (handle_pull env_handle fuel snapshot request) (pull_post request c) c.
Proof.
  intros Hc Hl Hid Hcur Hm Hs. unfold pull_post. apply ewp_bind, ewp_db_id_matches; [done..| |].
  2:{ intros [m|e] c' Hq Hr; [by destruct Hr as (? & ? & [=] & _)|]. split; [done|]. left.
      destruct Hr as (ctx & rc & [= ->] & ?). by exists ctx, rc. }
  intros c1 Hq1. case_bool_decide as Em; simpl; [|apply ewp_ret; eauto 10]. rewrite Hs.
  apply ewp_read.
  - intros v Hv%(begun_quiet c); [|done]. pose proof Hv as (Henv & _ & Hd). apply wp_pull_in; try done.
    + rewrite Henv. apply Hc.
    + eapply begun_sys; [done|by right; left|done].
    + by apply (log_ok_same _ (conn_view c)).
    + intros out v' Hout c2 Hq2. split; [by etrans|]. right. exists out. split; [done|].
      revert Hout. unfold pull_answer, changelog. by rewrite !(begun_recs _ _ _ _ Hv).
  - intros r c2 Hq2 Hr. split; [by etrans|by left].
Qed.

(** *** The node's own batches *)

Definition local_seq (v : db_view) : Z := MetaStore.a_local_seq (MetaStore.meta_of (recs v MetaStore.meta_name)).

(** The requested range: up to the node's last number when no end is given. *)
Definition push_end (v : db_view) (to_seq : Z) : Z := if to_seq =? 0 then local_seq v else to_seq.

Definition push_request_post (v : db_view) (from_seq to_seq : Z) (r : result PushRequest) : Prop :=
  let last := push_end v to_seq in
  (∃ req, r = Ok req ∧ push_db_id req = local_db v ∧
     if last <? from_seq then push_batches req = []
     else sender req = local_node v ∧ push_range (changelog v) (local_node v) from_seq last (push_batches req)) ∨
  (∃ s, r = Throw (push_gap s) ∧ from_seq ≤ s ≤ last ∧
     changelog v !! make_changelog_key (local_node v) s = None).

Lemma local_seq_range v : is_u64 (local_seq v).
Proof.
  unfold local_seq, MetaStore.meta_of, MetaStore.fixed_u64. simpl. destruct (_ =? 8)%nat; [apply read_u64_le_range|done].
Qed.

Lemma wp_make_push_request_in from_seq to_seq c v :
  conn_ok c → log_ok (conn_view c) → is_Some (env_dbs (c_env c) !! ChangeLogStore.changelog_name) →
  0 ≤ from_seq → is_u64 to_seq → begun c false v →
  wp (make_push_request_in env_handle (local_db (conn_view c)) from_seq to_seq)
    (fun r _ => push_request_post (conn_view c) from_seq to_seq r) v.
Proof.
  intros Hc Hl Hex Hfrom Hto Hv. pose proof Hv as (Henv & _ & Hd). pose proof (co_engine _ Hc) as Hok.
  assert (log_ok v) as Hlv by by apply (log_ok_same _ (conn_view c)).
  assert (v_env v = env_handle) as Henv' by (rewrite Henv; symmetry; apply Hok).
  apply wp_bind, wp_store_open; [done|done|by eapply begun_sys; [|left|]|right; rewrite Hd; apply Hc|].
  intros meta v1 (He1 & Hr1 & Hn1 & _).
  apply wp_bind, wp_bind, wp_store_open; [done|by rewrite (ext_env _ _ He1)| | |].
  { unfold sys_table. rewrite (ext_table _ _ He1). apply Hlv. }
  { right. destruct Hex as [d Hx]. exists d. eapply lookup_weaken; [|apply (ext_dbs _ _ He1)]. by rewrite Hd. }
  intros log v2 (He2 & Hr2 & Hn2 & _). apply wp_ret. assert (v_ext v v2) as He by by etrans.
  assert (∀ n, recs v2 n = recs (conn_view c) n) as Hrecs.
  { intros n. by rewrite (ext_recs _ _ _ He), (begun_recs _ _ _ _ Hv). }
  pose proof (ready_ext _ _ _ He2 Hr1) as Hr1'.
  apply wp_bind, wp_bind, MetaStore.wp_try_get_node_id; [done|rewrite Hn1, Hrecs; apply Hok|]. apply wp_ret.
  rewrite Hn1, Hrecs. fold (local_node (conn_view c)).
  apply wp_bind. assert (∀ Q : result Z → db_view → Prop, Q (Ok (push_end (conn_view c) to_seq)) v2 →
    wp (if to_seq =? 0 then MetaStore.get_local_seq meta else mret to_seq) Q v2) as Hend.
  { intros Q HQ. unfold push_end in HQ. destruct (to_seq =? 0); [|by apply wp_ret].
    apply wp_bind, MetaStore.wp_read_fixed; [done|]. rewrite Hn1, Hrecs. apply wp_ret.
    revert HQ. unfold local_seq, MetaStore.meta_of, MetaStore.fixed_u64. simpl. by destruct (_ =? 8)%nat. }
  apply Hend. unfold push_request_post. destruct (Z.ltb_spec (push_end (conn_view c) to_seq) from_seq) as [Hlt|Hle].
  { apply wp_ret. left. eexists. by split_and!. }
  assert (push_end (conn_view c) to_seq < 2 ^ 64) as Hbound.
  { unfold push_end. pose proof (local_seq_range (conn_view c)) as Hls. unfold u_range in *. destruct (to_seq =? 0); lia. }
  assert (changelog v2 = changelog (conn_view c)) as Ecl by apply Hrecs.
  apply wp_bind, wp_collect_push; try done; rewrite ?Ecl.
  - apply Hl.
  - apply local_node_ok, Hok.
  - lia.
  - intros bs Hbs. apply wp_ret. left. eexists. by split_and!.
  - intros g Hg Hno. right. eauto.
Qed.

(** C14: a push request for a range carries exactly the node's own batches of that range, one
    per number and in order, when the changelog retains all of them, and otherwise fails on a
    number of the range that is missing; an empty range gives an empty request.  An end that
    is given and lies past the node's last number is not cut to it: the call fails on the
    first number without a batch, where the comment of the function announces an empty
    request.  The call never changes the database. *)
Theorem make_push_request_range (from_seq to_seq : Z) (c : conn_state) :
  conn_ok c → log_ok (conn_view c) → is_Some (env_dbs (c_env c) !! ChangeLogStore.changelog_name) →
  0 ≤ from_seq → is_u64 to_seq →
  ewp (make_push_request env_handle from_seq to_seq) (fun r c' =>
    quiet c c' ∧ (engine_failure r ∨ push_request_post (conn_view c) from_seq to_seq r)) c.
Proof.
  intros Hc Hl Hex Hfrom Hto. apply ewp_bind, ewp_db_uuid; [done| |].
  2:{ intros [m|e] c' Hq Hr; [by destruct Hr as (? & ? & [=] & _)|]. split; [done|]. left.
      destruct Hr as (ctx & rc & [= ->] & ?). by exists ctx, rc. }
  intros c1 Hq1. destruct (negb (to_seq =? 0) && (to_seq <? from_seq)) eqn:Et.
  { apply ewp_ret. split; [done|]. right. left. eexists. split_and!; [done..|]. unfold push_end.
    apply andb_true_iff in Et as [Ez%negb_true_iff Et]. by rewrite Ez, Et. }
  apply ewp_read.
  - intros v Hv%(begun_quiet c); [|done]. eapply wp_mono; [by apply wp_make_push_request_in|].
    intros r v' Hr c2 Hq2. split; [by etrans|by right].
  - intros r c2 Hq2 Hr. split; [by etrans|by left].
Qed.
End Requests.

(** ** Witnesses *)

Definition sample_db_id : DbId := replicate 16 Byte.x09.

(** A node 5 that retains the changelog of [PullTheorems]. *)
Definition sample_dbs : gmap bytes dbi_view :=
  <[ChangeLogStore.changelog_name := mk_dbi 0 pull_log]>
  {[ MetaStore.meta_name := mk_dbi 0 (list_to_map [
       ([MetaStore.key_db_uuid], sample_db_id); ([MetaStore.key_node_id], replicate 16 Byte.x05);
       ([MetaStore.key_local_seq], write_u64_le 3) ]);
     AppliedStore.applied_name := mk_dbi 0 {[ replicate 16 Byte.x06 := write_u64_le 1 ]} ]}.

Definition sample_conn : conn_state (X := ref_mdbx) := {|
  c_env := {| ref_id := 1; ref_dbs := sample_dbs; ref_handles := ∅ |}; c_generation := 0; c_events := [];
|}.

Lemma sample_conn_ok : conn_ok (X := ref_mdbx) 1 sample_conn.
Proof.
  split; [|eexists; vm_compute; reflexivity].
  split; [reflexivity..| | |vm_compute; discriminate].
  - intros n Hn. repeat (apply elem_of_cons in Hn as [->|Hn]; [vm_compute; reflexivity|]). by apply elem_of_nil in Hn.
  - intros id Hid. vm_compute in Hid. injection Hid as <-. reflexivity.
Qed.

Lemma sample_changelog : changelog (conn_view (X := ref_mdbx) sample_conn) = pull_log.
Proof.
  change (dv_recs (default (mk_dbi 0 ∅) (sample_dbs !! ChangeLogStore.changelog_name)) = pull_log).
  unfold sample_dbs. by rewrite lookup_insert_eq.
Qed.

Lemma sample_index : recs (conn_view (X := ref_mdbx) sample_conn) OriginIndexStore.origins_name = ∅.
Proof. vm_compute. reflexivity. Qed.

Lemma sample_log_ok : log_ok 100 (conn_view (X := ref_mdbx) sample_conn).
Proof.
  split; rewrite ?sample_changelog, ?sample_index; [vm_compute; reflexivity..|apply pull_log_batches|done|done|].
  intros n Hn. repeat (apply elem_of_cons in Hn as [->|Hn]; [vm_compute; lia|]). by apply elem_of_nil in Hn.
Qed.

Definition sample_push : PushRequest := {|
  sender := replicate 16 Byte.x07; push_db_id := sample_db_id;
  push_batches := [pull_batch Byte.x07 1; pull_batch Byte.x07 2] |}.

(** A connection with an attached accumulator. *)
Definition push_hooks : CaptureHooks.hooks := {|
  CaptureHooks.hk_env := 1; CaptureHooks.hk_read_only := false;
  CaptureHooks.m_sync_capture := Some (Capture.new_accumulator 1);
  CaptureHooks.m_sync_capture_failed_txn := 0; CaptureHooks.m_sync_capture_suppressed_txns := [];
  CaptureHooks.m_logical_dbi_apply_suppressed_txns := [];
|}.

Lemma handle_push_atomic_witness :
  match handle_push (X := ref_mdbx) 1 100 Reject (pre_commit_hook 100 7 push_hooks) sample_push sample_conn with
  | (Ok resp, c') => push_ok resp = true ∧ length (c_events c') = 1%nat
  | _ => False
  end ∧
  ewp (X := ref_mdbx) (handle_push 1 100 Reject (pre_commit_hook 100 7 push_hooks) sample_push) (push_post 1 Reject sample_push sample_conn)
    sample_conn.
Proof.
  split.
  - vm_compute. by split.
  - apply (handle_push_atomic (X := ref_mdbx) 1 100 Reject 7 push_hooks sample_push sample_conn).
    + apply sample_conn_ok.
    + reflexivity.
    + repeat constructor; apply (bool_decide_unpack _); vm_compute; exact I.
    + split; [reflexivity|]. intros a [= <-]. reflexivity.
    + vm_compute. lia.
Defined.

Definition sample_pull : PullRequest := {|
  pull_requester := make_zero_node; pull_db_id := sample_db_id; have := empty_cursor; max_batches := 2;
  max_bytes := 1000; request_full_snapshot := false; full_snapshot_id := []; full_snapshot_continuation := [];
  max_single_batch_bytes := 1000 |}.

Lemma handle_pull_page_witness :
  match handle_pull (X := ref_mdbx) 1 100 (fun _ => mret default_pull_response) sample_pull sample_conn with
  | (Ok out, _) => length (batches out) = 2%nat ∧ has_more out = true
  | _ => False
  end ∧
  ewp (X := ref_mdbx) (handle_pull 1 100 (fun _ => mret default_pull_response) sample_pull)
    (pull_post sample_pull sample_conn) sample_conn.
Proof.
  split.
  - vm_compute. by split.
  - apply (handle_pull_page (X := ref_mdbx) 1 100 (fun _ => mret default_pull_response) sample_pull sample_conn);
      [apply sample_conn_ok|apply sample_log_ok|reflexivity|done|done|reflexivity].
Defined.

Lemma make_push_request_range_witness :
  match make_push_request (X := ref_mdbx) 1 2 0 sample_conn with
  | (Ok req, _) => push_batches req = [pull_batch Byte.x05 2; pull_batch Byte.x05 3]
  | _ => False
  end ∧
  fst (make_push_request (X := ref_mdbx) 1 100 200 sample_conn) = Throw (push_gap 100) ∧
  ewp (X := ref_mdbx) (make_push_request 1 2 0) (fun r c' =>
    quiet sample_conn c' ∧ (engine_failure r ∨ push_request_post (conn_view sample_conn) 2 0 r)) sample_conn.
Proof.
  split; [|split].
  - vm_compute. reflexivity.
  - vm_compute. reflexivity.
  - apply (make_push_request_range (X := ref_mdbx) 1 100 2 0 sample_conn);
      [apply sample_conn_ok|apply sample_log_ok|eexists; vm_compute; reflexivity|done|done].
Defined.
