(* ===== verification/Lifecycle.v ===== *)
(** * Transactions and connections

    Models [src/include/mdbx_containers/common/TransactionTracker.ipp], [Transaction.ipp] and
    the transaction and shutdown part of [Connection.ipp]: which native transactions exist,
    which guard owns each, what the tracker knows of them, and when the environment may be
    closed.

    The native side is what libmdbx documents of [mdbx_txn_begin], [renew], [reset],
    [abort] and [commit] without [MDBX_NOSTICKYTHREADS]: which handles exist and which one is
    active on a thread.  The return code of each native call is an argument of the operation
    that makes it; [begin_ok] states which codes a successful begin can have. *)
From S2P Require Import Prelude.
Open Scope Z_scope.

Definition RC_SUCCESS : Z := 0.
Definition RC_THREAD_MISMATCH : Z := -30416.
Definition RC_BUSY : Z := -30778.

(** Thread ids and native transaction pointers. *)
Definition tid : Type := Z.
Definition ptr : Type := Z.

(** ** Native transactions *)

Record native : Type := {
  n_live : gmap ptr tid;
  n_active : gmap tid ptr;
}.

Definition native_start (t : tid) (p : ptr) (n : native) : native :=
  {| n_live := n_live n; n_active := <[t := p]> (n_active n) |}.
Definition native_stop (t : tid) (p : ptr) (n : native) : native :=
  {| n_live := n_live n;
     n_active := if bool_decide (n_active n !! t = Some p) then delete t (n_active n) else n_active n |}.

Definition native_begin (rc : Z) (t : tid) (p : ptr) (n : native) : native :=
  if rc =? RC_SUCCESS then native_start t p {| n_live := <[p := t]> (n_live n); n_active := n_active n |} else n.
Definition native_renew (rc : Z) (t : tid) (p : ptr) (n : native) : native :=
  if rc =? RC_SUCCESS then native_start t p n else n.
Definition native_reset (rc : Z) (t : tid) (p : ptr) (n : native) : native :=
  if rc =? RC_SUCCESS then native_stop t p n else n.
Definition native_end (t : tid) (p : ptr) (n : native) : native :=
  native_stop t p {| n_live := delete p (n_live n); n_active := n_active n |}.
Definition native_abort (rc : Z) (t : tid) (p : ptr) (n : native) : native :=
  if rc =? RC_SUCCESS then native_end t p n else n.
(** Every result but a thread mismatch consumes the handle. *)
Definition native_commit (rc : Z) (t : tid) (p : ptr) (n : native) : native :=
  if rc =? RC_THREAD_MISMATCH then n else native_end t p n.

(** ** TransactionTracker *)

Record tracker : Type := {
  m_thread_txns : gmap tid ptr;
  m_thread_txn_handle_counts : gmap tid Z;
  m_open_txn_handles : Z;
}.

Definition bind_txn (t : tid) (txn : ptr) (tr : tracker) : tracker := {|
  m_thread_txns := <[t := txn]> (m_thread_txns tr);
  m_thread_txn_handle_counts := m_thread_txn_handle_counts tr;
  m_open_txn_handles := m_open_txn_handles tr;
|}.

Definition register_txn_handle (t : tid) (tr : tracker) : tracker := {|
  m_thread_txns := m_thread_txns tr;
  m_thread_txn_handle_counts :=
    <[t := default 0 (m_thread_txn_handle_counts tr !! t) + 1]> (m_thread_txn_handle_counts tr);
  m_open_txn_handles := m_open_txn_handles tr + 1;
|}.

Definition unregister_txn_handle (t : tid) (tr : tracker) : tracker := {|
  m_thread_txns := m_thread_txns tr;
  m_thread_txn_handle_counts :=
    match m_thread_txn_handle_counts tr !! t with
    | Some c => if c >? 1 then <[t := c - 1]> (m_thread_txn_handle_counts tr)
                else delete t (m_thread_txn_handle_counts tr)
    | None => m_thread_txn_handle_counts tr
    end;
  m_open_txn_handles :=
    if m_open_txn_handles tr >? 0 then m_open_txn_handles tr - 1 else m_open_txn_handles tr;
|}.

Definition unbind_txn (t : tid) (expected_txn : ptr) (tr : tracker) : tracker := {|
  m_thread_txns :=
    if bool_decide (m_thread_txns tr !! t = Some expected_txn) then delete t (m_thread_txns tr)
    else m_thread_txns tr;
  m_thread_txn_handle_counts := m_thread_txn_handle_counts tr;
  m_open_txn_handles := m_open_txn_handles tr;
|}.

Definition thread_txn (t : tid) (tr : tracker) : option ptr := m_thread_txns tr !! t.
Definition current_thread_has_txn (t : tid) (tr : tracker) : bool :=
  bool_decide (is_Some (m_thread_txns tr !! t)).
Definition current_thread_has_txn_handle (t : tid) (tr : tracker) : bool :=
  bool_decide (is_Some (m_thread_txn_handle_counts tr !! t)).
Definition has_txn_handles (tr : tracker) : bool := negb (m_open_txn_handles tr =? 0).

(** ** Transaction *)

Inductive TransactionMode : Type := READ_ONLY | WRITABLE.

#[export] Instance mode_eq_dec : EqDecision TransactionMode.
Proof. solve_decision. Defined.

(** The pointers to the tracker and the environment are null or not. *)
Record transaction : Type := {
  m_registry : bool;
  m_env : bool;
  m_txn : option ptr;
  m_mode : TransactionMode;
  m_started : bool;
  m_handle_registered : bool;
}.

(** What the methods change: the tracker, the native transactions and the transactions the
    capture sinks were told to discard. *)
Record sys : Type := { s_tracker : tracker; s_native : native; s_discarded : list ptr }.

Definition on_tracker (f : tracker → tracker) (s : sys) : sys :=
  {| s_tracker := f (s_tracker s); s_native := s_native s; s_discarded := s_discarded s |}.
Definition on_native (f : native → native) (s : sys) : sys :=
  {| s_tracker := s_tracker s; s_native := f (s_native s); s_discarded := s_discarded s |}.
Definition on_discard (p : ptr) (s : sys) : sys :=
  {| s_tracker := s_tracker s; s_native := s_native s; s_discarded := s_discarded s ++ [p] |}.

Definition set_txn (tx : transaction) (p : option ptr) (started registered : bool) : transaction := {|
  m_registry := m_registry tx; m_env := m_env tx; m_txn := p; m_mode := m_mode tx;
  m_started := started; m_handle_registered := registered;
|}.

(** The insertions of the tracker can run out of memory. *)
Inductive alloc : Type := AllocOk | RegisterFails | BindFails.

(** The codes of one [begin]: of [mdbx_txn_begin] or [mdbx_txn_renew] with the handle it
    returns, of the cleanup call, and what the tracker's insertions do. *)
Record begin_codes : Type := {
  bc_rc : Z;
  bc_txn : ptr;
  bc_cleanup : Z;
  bc_alloc : alloc;
}.

Definition begin (t : tid) (c : begin_codes) (tx : transaction) (s : sys) : result unit * transaction * sys :=
  if m_started tx then (Ok tt, tx, s)
  else
    let reserved_handle := m_handle_registered tx && bool_decide (m_txn tx = None) in
    let release_handle registered tx s :=
      if registered || reserved_handle : bool
      then (set_txn tx (m_txn tx) false false, on_tracker (unregister_txn_handle t) s) else (tx, s) in
    match m_txn tx, m_mode tx with
    | Some p, READ_ONLY =>
        let s := on_native (native_renew (bc_rc c) t p) s in
        let failed e :=
          let '(tx, s) := release_handle false tx (on_native (native_reset (bc_cleanup c) t p) s) in
          (Throw e, tx, s) in
        if negb (bc_rc c =? RC_SUCCESS) then failed (MdbxException "Failed to renew transaction" (bc_rc c))
        else
          match bc_alloc c with
          | BindFails => failed bad_alloc
          | _ => (Ok tt, set_txn tx (Some p) true (m_handle_registered tx), on_tracker (bind_txn t p) s)
          end
    | _, _ =>
        let p := bc_txn c in
        let s := on_native (native_begin (bc_rc c) t p) s in
        if negb (bc_rc c =? RC_SUCCESS) then
          let '(tx, s) := release_handle false tx s in
          (Throw (MdbxException "Failed to begin transaction" (bc_rc c)), tx, s)
        else
          let failed registered tx s :=
            let s := on_native (native_abort (bc_cleanup c) t p) s in
            let '(tx, s) := release_handle registered (set_txn tx None false (m_handle_registered tx)) s in
            (Throw bad_alloc, tx, s) in
          let tx := set_txn tx (Some p) false (m_handle_registered tx) in
          let register := negb (m_handle_registered tx) in
          match register, bc_alloc c with
          | true, RegisterFails => failed false tx s
          | _, a =>
              let s := if register then on_tracker (register_txn_handle t) s else s in
              let tx := set_txn tx (Some p) false true in
              match a with
              | BindFails => failed register tx s
              | _ => (Ok tt, set_txn tx (Some p) true true, on_tracker (bind_txn t p) s)
              end
          end
    end.

(** The exceptions of the code that carry no MDBX code have the default -1. *)
Definition no_active (what : string) : exn :=
  MdbxException ("No active transaction to " +:+ what +:+ ".") (-1).

(** [safe_unbind_txn], [safe_unregister_txn_handle] and the members a writable transaction
    loses when its handle is gone. *)
Definition drop_handle (t : tid) (p : ptr) (tx : transaction) (s : sys) : transaction * sys :=
  (set_txn tx None false false, on_tracker (unregister_txn_handle t) (on_tracker (unbind_txn t p) s)).

(** The read-only branch of [commit] and [rollback]. *)
Definition reset_txn (t : tid) (rc : Z) (p : ptr) (tx : transaction) (s : sys) : result unit * transaction * sys :=
  let s := on_native (native_reset rc t p) s in
  if negb (rc =? RC_SUCCESS) then (Throw (MdbxException "Failed to reset read-only transaction" rc), tx, s)
  else (Ok tt, set_txn tx (Some p) false (m_handle_registered tx), on_tracker (unbind_txn t p) s).

(** [hook] is what [on_pre_commit] did. *)
Definition commit (t : tid) (hook : result unit) (rc : Z) (tx : transaction) (s : sys)
    : result unit * transaction * sys :=
  match m_txn tx, m_started tx with
  | Some p, true =>
      match m_mode tx with
      | READ_ONLY => reset_txn t rc p tx s
      | WRITABLE =>
          match hook with
          | Throw e => (Throw e, tx, s)
          | Ok _ =>
              let s := on_native (native_commit rc t p) s in
              let failed := MdbxException "Failed to commit writable transaction" rc in
              if rc =? RC_THREAD_MISMATCH then (Throw failed, tx, s)
              else
                let s := if negb (rc =? RC_SUCCESS) then on_discard p s else s in
                let '(tx, s) := drop_handle t p tx s in
                if negb (rc =? RC_SUCCESS) then (Throw failed, tx, s) else (Ok tt, tx, s)
          end
      end
  | _, _ => (Throw (no_active "commit"), tx, s)
  end.

Definition rollback (t : tid) (rc : Z) (tx : transaction) (s : sys) : result unit * transaction * sys :=
  match m_txn tx, m_started tx with
  | Some p, true =>
      match m_mode tx with
      | READ_ONLY => reset_txn t rc p tx s
      | WRITABLE =>
          let s := on_native (native_abort rc t p) (on_discard p s) in
          if negb (rc =? RC_SUCCESS) then (Throw (MdbxException "Failed to abort writable transaction" rc), tx, s)
          else let '(tx, s) := drop_handle t p tx s in (Ok tt, tx, s)
      end
  | _, _ => (Throw (no_active "rollback"), tx, s)
  end.

Definition empty_transaction (mode : TransactionMode) : transaction := {|
  m_registry := false; m_env := false; m_txn := None; m_mode := mode; m_started := false;
  m_handle_registered := false;
|}.

(** The destructor; [rc] is the code of [mdbx_txn_abort]. *)
Definition release (t : tid) (rc : Z) (tx : transaction) (s : sys) : transaction * sys :=
  let tx' := empty_transaction (m_mode tx) in
  let s := match m_txn tx with
           | Some p =>
               let s := if m_registry tx && m_started tx && bool_decide (m_mode tx = WRITABLE)
                        then on_discard p s else s in
               let s := on_native (native_abort rc t p) s in
               if m_registry tx && m_started tx then on_tracker (unbind_txn t p) s else s
           | None => s
           end in
  (tx', if m_registry tx && m_handle_registered tx then on_tracker (unregister_txn_handle t) s else s).

(** The new guard and what is left of the old one. *)
Definition move_from (other : transaction) : transaction * transaction :=
  (other, empty_transaction (m_mode other)).

(** ** Connection *)

(** A guard and the thread that owns it. *)
Record guard : Type := { g_owner : tid; g_tx : transaction }.

(** The connection, every guard that exists, the manual transactions, and the threads
    between the reservation of a handle and the native begin (with the guard under
    construction and whether it is a manual one). *)
Record world : Type := {
  w_env : bool;
  w_shutdown : bool;
  w_sys : sys;
  w_objs : gmap nat guard;
  w_manual : gmap tid nat;
  w_pending : gmap tid (nat * bool);
}.

Definition with_sys (w : world) (s : sys) (objs : gmap nat guard) : world := {|
  w_env := w_env w; w_shutdown := w_shutdown w; w_sys := s; w_objs := objs;
  w_manual := w_manual w; w_pending := w_pending w;
|}.
Definition with_manual (w : world) (m : gmap tid nat) : world := {|
  w_env := w_env w; w_shutdown := w_shutdown w; w_sys := w_sys w; w_objs := w_objs w;
  w_manual := m; w_pending := w_pending w;
|}.
Definition with_pending (w : world) (p : gmap tid (nat * bool)) : world := {|
  w_env := w_env w; w_shutdown := w_shutdown w; w_sys := w_sys w; w_objs := w_objs w;
  w_manual := w_manual w; w_pending := p;
|}.
Definition with_state (w : world) (env shutdown : bool) : world := {|
  w_env := env; w_shutdown := shutdown; w_sys := w_sys w; w_objs := w_objs w;
  w_manual := w_manual w; w_pending := w_pending w;
|}.

Definition new_transaction (mode : TransactionMode) : transaction := {|
  m_registry := true; m_env := true; m_txn := None; m_mode := mode; m_started := false;
  m_handle_registered := true;
|}.

Definition shutting_down : exn := logic_error "Connection shutdown is in progress.".
Definition not_connected : exn := logic_error "Connection is not connected.".
Definition already_active (what : string) : exn :=
  logic_error ("A transaction is already active on this connection's thread. " +:+ what).

(** The part of [transaction] and [begin] under the mutex: the tests and the reservation.  The
    constructor runs afterwards, in [finish]. *)
Definition reserve (t : tid) (mode : TransactionMode) (manual : bool) (o : nat) (w : world) : result unit * world :=
  if w_shutdown w then (Throw shutting_down, w)
  else if negb (w_env w) then (Throw not_connected, w)
  else if manual && bool_decide (is_Some (w_manual w !! t)) then
    (Throw (logic_error "Transaction already started for this thread."), w)
  else if current_thread_has_txn t (s_tracker (w_sys w)) then
    (Throw (already_active (if manual then "Commit or roll it back before starting a manual transaction."
       else "Reuse it through table operations or pass the active transaction explicitly.")), w)
  else
    (Ok tt, with_pending
       (with_sys w (on_tracker (register_txn_handle t) (w_sys w))
          (<[o := {| g_owner := t; g_tx := new_transaction mode |}]> (w_objs w)))
       (<[t := (o, manual)]> (w_pending w))).

(** A method of the guard [o]. *)
Definition on_guard (o : nat) (f : transaction → sys → result unit * transaction * sys) (w : world)
    : result unit * world :=
  match w_objs w !! o with
  | Some g =>
      let '(r, tx, s) := f (g_tx g) (w_sys w) in
      (r, with_sys w s (<[o := {| g_owner := g_owner g; g_tx := tx |}]> (w_objs w)))
  | None => (Ok tt, w)
  end.

(** The constructor and, for a manual transaction, its entry in the map. *)
Definition finish (t : tid) (c : begin_codes) (w : world) : result unit * world :=
  match w_pending w !! t with
  | None => (Ok tt, w)
  | Some (o, manual) =>
      let '(r, w) := on_guard o (begin t c) (with_pending w (delete t (w_pending w))) in
      match r with
      | Throw e => (Throw e, w)
      | Ok _ =>
          if manual : bool then
            match w_manual w !! t with
            | Some _ => (Throw (logic_error "Transaction already started for this thread."), w)
            | None => (Ok tt, with_manual w (<[t := o]> (w_manual w)))
            end
          else (Ok tt, w)
      end
  end.

Definition erase_manual_transaction_if_current (t : tid) (o : nat) (w : world) : world :=
  if bool_decide (w_manual w !! t = Some o) then with_manual w (delete t (w_manual w)) else w.

(** [commit] and [rollback] of the connection, with the method of the guard. *)
Definition end_manual (t : tid) (f : transaction → sys → result unit * transaction * sys) (w : world)
    : result unit * world :=
  match w_manual w !! t with
  | None => (Throw (logic_error "No transaction for this thread."), w)
  | Some o => let '(r, w) := on_guard o f w in (r, erase_manual_transaction_if_current t o w)
  end.

Definition conn_commit (t : tid) (hook : result unit) (rc : Z) (w : world) : result unit * world :=
  end_manual t (commit t hook rc) w.
Definition conn_rollback (t : tid) (rc : Z) (w : world) : result unit * world := end_manual t (rollback t rc) w.

(** The end of a guard's life. *)
Definition destroy (t : tid) (o : nat) (rc : Z) (w : world) : world :=
  match w_objs w !! o with
  | Some g => let '(_, s) := release t rc (g_tx g) (w_sys w) in with_sys w s (delete o (w_objs w))
  | None => w
  end.

Definition move (o o' : nat) (w : world) : world :=
  match w_objs w !! o with
  | Some g =>
      let '(tx', tx) := move_from (g_tx g) in
      with_sys w (w_sys w) (<[o' := {| g_owner := g_owner g; g_tx := tx' |}]>
        (<[o := {| g_owner := g_owner g; g_tx := tx |}]> (w_objs w)))
  | None => w
  end.

Definition request_shutdown (t : tid) (w : world) : result bool * world :=
  if negb (w_env w) then (Ok false, with_state w false false)
  else if current_thread_has_txn_handle t (s_tracker (w_sys w)) then
    (Throw (logic_error "Cannot shutdown from a thread with an open transaction handle."), w)
  else (Ok true, with_state w true true).

(** [rc] is the code of [mdbx_env_close].  The manual transactions that the map drops have no
    handle here. *)
Definition cleanup (rc : Z) (w : world) : result unit * world :=
  if has_txn_handles (s_tracker (w_sys w)) then
    (Throw (MdbxException "Cannot disconnect while transaction handles are open." RC_BUSY), w)
  else
    let w := with_manual w ∅ in
    if w_env w then
      if negb (rc =? RC_SUCCESS) then (Throw (MdbxException "Failed to close environment" rc), w)
      else (Ok tt, with_state w false false)
    else (Ok tt, w).

Definition disconnect (rc : Z) (w : world) : result unit * world := cleanup rc w.

(** With a configuration and an environment that opens. *)
Definition connect (w : world) : world := if w_env w then w else with_state w true false.

(** ** Steps

    Every operation runs on the thread that owns the guard, and a thread that is in the
    middle of a constructor does nothing else.  A begin or renew that succeeds finds no other
    active transaction on its thread and returns a fresh handle.  Commits, rollbacks and
    resets may fail with any code.  The two aborts whose result the code does not use, in the
    destructor (which asserts it) and after an allocation that fails in [begin], succeed.
    A guard may be started again at any time, also when the connection was closed: the
    code then passes on the pointer of the closed environment, and the call may answer
    anything. *)

Definition begin_ok (t : tid) (c : begin_codes) (tx : transaction) (n : native) : Prop :=
  (bc_rc c = RC_SUCCESS → n_active n !! t = None ∧ (m_txn tx = None → n_live n !! bc_txn c = None)) ∧
  bc_cleanup c = RC_SUCCESS.

(** Starting a guard again is told apart from the other steps. *)
Inductive label : Type := Restart | Other.

Inductive step : label → world → world → Prop :=
  | step_reserve t mode manual o w :
      w_pending w !! t = None → w_objs w !! o = None → step Other w (reserve t mode manual o w).2
  | step_finish t c o manual g w :
      w_pending w !! t = Some (o, manual) → w_objs w !! o = Some g →
      begin_ok t c (g_tx g) (s_native (w_sys w)) → step Other w (finish t c w).2
  | step_begin t c o g w :
      w_pending w !! t = None → w_objs w !! o = Some g → g_owner g = t →
      m_registry (g_tx g) = true → begin_ok t c (g_tx g) (s_native (w_sys w)) →
      step Restart w (on_guard o (begin t c) w).2
  | step_commit t hook rc o g w :
      w_pending w !! t = None → w_objs w !! o = Some g → g_owner g = t →
      step Other w (on_guard o (commit t hook rc) w).2
  | step_rollback t rc o g w :
      w_pending w !! t = None → w_objs w !! o = Some g → g_owner g = t →
      step Other w (on_guard o (rollback t rc) w).2
  | step_end_manual t hook rc w :
      w_pending w !! t = None → step Other w (conn_commit t hook rc w).2
  | step_rollback_manual t rc w :
      w_pending w !! t = None → step Other w (conn_rollback t rc w).2
  | step_destroy t o g w :
      w_pending w !! t = None → w_objs w !! o = Some g → g_owner g = t →
      (∀ t', w_manual w !! t' ≠ Some o) → step Other w (destroy t o RC_SUCCESS w)
  | step_move t o o' g w :
      w_pending w !! t = None → w_objs w !! o = Some g → g_owner g = t → w_objs w !! o' = None →
      (∀ t', w_manual w !! t' ≠ Some o) → step Other w (move o o' w)
  | step_request_shutdown t w : w_pending w !! t = None → step Other w (request_shutdown t w).2
  | step_disconnect t rc w : w_pending w !! t = None → step Other w (disconnect rc w).2
  | step_connect w : step Other w (connect w).

Definition no_tracker : tracker :=
  {| m_thread_txns := ∅; m_thread_txn_handle_counts := ∅; m_open_txn_handles := 0 |}.

(** A new connection. *)
Definition initial : world := {|
  w_env := false; w_shutdown := false;
  w_sys := {| s_tracker := no_tracker; s_native := {| n_live := ∅; n_active := ∅ |}; s_discarded := [] |};
  w_objs := ∅; w_manual := ∅; w_pending := ∅;
|}.

Definition next (w w' : world) : Prop := ∃ l, step l w w'.
Definition reachable (w : world) : Prop := rtc next initial w.

(** ** Counting guards *)

Definition cnt (P : guard → bool) (objs : gmap nat guard) : Z :=
  map_fold (fun _ g n => n + Z.b2z (P g)) 0 objs.

Lemma cnt_insert_new P o g objs : objs !! o = None → cnt P (<[o := g]> objs) = cnt P objs + Z.b2z (P g).
Proof.
  intros Ho. unfold cnt. rewrite map_fold_insert_L; [done| |done]. intros. lia.
Qed.

Lemma cnt_delete P o g objs : objs !! o = Some g → cnt P (delete o objs) = cnt P objs - Z.b2z (P g).
Proof.
  intros Ho. rewrite <- (insert_delete_id objs o g) at 2 by done.
  rewrite cnt_insert_new by apply lookup_delete_eq. lia.
Qed.

Lemma cnt_insert P o g g' objs :
  objs !! o = Some g → cnt P (<[o := g']> objs) = cnt P objs - Z.b2z (P g) + Z.b2z (P g').
Proof.
  intros Ho. rewrite <- insert_delete_eq. rewrite cnt_insert_new by apply lookup_delete_eq.
  by rewrite (cnt_delete _ _ g).
Qed.

Lemma cnt_nonneg P objs : 0 ≤ cnt P objs.
Proof.
  unfold cnt. apply (map_fold_weak_ind (fun n _ => 0 ≤ n)); [lia|]. intros o g m n _ Hn.
  destruct (P g); simpl; lia.
Qed.

Lemma cnt_pos P o g objs : objs !! o = Some g → P g = true → 0 < cnt P objs.
Proof.
  intros Ho Hg. pose proof (cnt_delete P o g objs Ho) as E. pose proof (cnt_nonneg P (delete o objs)).
  rewrite Hg in E. simpl in E. lia.
Qed.

Lemma cnt_le P Q objs : (∀ g, P g = true → Q g = true) → cnt P objs ≤ cnt Q objs.
Proof.
  intros HPQ. induction objs as [|o g objs Ho IH] using map_ind; [done|].
  rewrite !cnt_insert_new by done. specialize (HPQ g). destruct (P g), (Q g); simpl; naive_solver lia.
Qed.

Definition registered (g : guard) : bool := m_handle_registered (g_tx g).
Definition owned (t : tid) (g : guard) : bool := registered g && bool_decide (g_owner g = t).

(** ** The invariant *)

Record guard_ok (n : native) (g : guard) : Prop := {
  go_txn p : m_txn (g_tx g) = Some p → registered g = true ∧ n_live n !! p = Some (g_owner g);
  go_started : m_started (g_tx g) = true →
    ∃ p, m_txn (g_tx g) = Some p ∧ n_active n !! g_owner g = Some p;
  go_writable p : m_mode (g_tx g) = WRITABLE → m_txn (g_tx g) = Some p → m_started (g_tx g) = true;
  go_registry : registered g = true → m_registry (g_tx g) = true;
}.

(** The counters of the tracker count the guards with a registered handle. *)
Record counters (objs : gmap nat guard) (tr : tracker) : Prop := {
  c_open : m_open_txn_handles tr = cnt registered objs;
  c_counts t : default 0 (m_thread_txn_handle_counts tr !! t) = cnt (owned t) objs;
  c_pos t c : m_thread_txn_handle_counts tr !! t = Some c → 0 < c;
}.

(** Every native transaction belongs to one guard, and the active ones are those of the
    started guards. *)
Record links (objs : gmap nat guard) (n : native) : Prop := {
  l_obj o g : objs !! o = Some g → guard_ok n g;
  l_inj o o' g g' p : objs !! o = Some g → objs !! o' = Some g' →
    m_txn (g_tx g) = Some p → m_txn (g_tx g') = Some p → o = o';
  l_live p t : n_live n !! p = Some t →
    ∃ o g, objs !! o = Some g ∧ g_owner g = t ∧ m_txn (g_tx g) = Some p;
  l_active t p : n_active n !! t = Some p →
    ∃ o g, objs !! o = Some g ∧ g_owner g = t ∧ m_txn (g_tx g) = Some p ∧ m_started (g_tx g) = true;
}.

(** The tracker, the native transactions and the guards agree. *)
Record core (objs : gmap nat guard) (s : sys) : Prop := {
  c_counters : counters objs (s_tracker s);
  c_links : links objs (s_native s);
  c_bound : m_thread_txns (s_tracker s) = n_active (s_native s);
}.

(** What one method does to its guard and the system. *)
Inductive effect (t : tid) (tx : transaction) (s : sys) : transaction → sys → Prop :=
  | eff_none s' :
      s_tracker s' = s_tracker s → s_native s' = s_native s → effect t tx s tx s'
  | eff_start p s' :
      m_txn tx = Some p → n_active (s_native s) !! t = None →
      s_tracker s' = bind_txn t p (s_tracker s) → s_native s' = native_start t p (s_native s) →
      effect t tx s (set_txn tx (Some p) true (m_handle_registered tx)) s'
  | eff_open p s' :
      m_txn tx = None → n_live (s_native s) !! p = None → n_active (s_native s) !! t = None →
      m_registry tx = true →
      s_tracker s' = bind_txn t p
        (if m_handle_registered tx then s_tracker s else register_txn_handle t (s_tracker s)) →
      s_native s' = native_begin RC_SUCCESS t p (s_native s) →
      effect t tx s (set_txn tx (Some p) true true) s'
  | eff_stop p s' :
      m_txn tx = Some p → m_started tx = true → m_mode tx = READ_ONLY →
      s_tracker s' = unbind_txn t p (s_tracker s) → s_native s' = native_stop t p (s_native s) →
      effect t tx s (set_txn tx (Some p) false (m_handle_registered tx)) s'
  | eff_unreserve tx' s' :
      m_txn tx = None → m_handle_registered tx = true →
      m_txn tx' = None → m_started tx' = false → m_handle_registered tx' = false →
      s_tracker s' = unregister_txn_handle t (s_tracker s) → s_native s' = s_native s →
      effect t tx s tx' s'
  | eff_drop p tx' s' :
      m_txn tx = Some p →
      m_txn tx' = None → m_started tx' = false → m_handle_registered tx' = false →
      s_tracker s' = unregister_txn_handle t
        (if m_started tx then unbind_txn t p (s_tracker s) else s_tracker s) →
      s_native s' = native_end t p (s_native s) →
      effect t tx s tx' s'
  | eff_inert tx' s' :
      m_txn tx = None → m_handle_registered tx = false →
      m_txn tx' = None → m_started tx' = false → m_handle_registered tx' = false →
      s_tracker s' = s_tracker s → s_native s' = s_native s → effect t tx s tx' s'.

(** *** Counters *)

Lemma same_counters objs tr tr' :
  m_open_txn_handles tr' = m_open_txn_handles tr →
  m_thread_txn_handle_counts tr' = m_thread_txn_handle_counts tr → counters objs tr → counters objs tr'.
Proof. intros Ho Hc [H1 H2 H3]. split; [congruence|intros; by rewrite Hc|intros t c; rewrite Hc; apply H3]. Qed.

Lemma counters_same objs tr o g g' :
  objs !! o = Some g → g_owner g' = g_owner g → registered g' = registered g →
  counters objs tr → counters (<[o := g']> objs) tr.
Proof.
  intros Ho Hown Hr [H1 H2 H3]. split; [| |done].
  - rewrite (cnt_insert _ _ g), Hr by done. lia.
  - intros t. rewrite (cnt_insert _ _ g) by done. unfold owned at 2 3. rewrite Hr, Hown, H2. lia.
Qed.

Lemma owned_owner t g : owned t g = if decide (g_owner g = t) then registered g else false.
Proof. unfold owned. case_decide; [rewrite bool_decide_true|rewrite bool_decide_false]; by rewrite ?andb_true_r, ?andb_false_r. Qed.

Lemma register_counts t tr t' :
  default 0 (m_thread_txn_handle_counts (register_txn_handle t tr) !! t') =
  default 0 (m_thread_txn_handle_counts tr !! t') + (if decide (t = t') then 1 else 0).
Proof. simpl. case_decide; [subst; by rewrite lookup_insert_eq|rewrite lookup_insert_ne by done; lia]. Qed.

Lemma unregister_counts t tr t' :
  (∀ c, m_thread_txn_handle_counts tr !! t = Some c → 0 < c) →
  is_Some (m_thread_txn_handle_counts tr !! t) →
  default 0 (m_thread_txn_handle_counts (unregister_txn_handle t tr) !! t') =
  default 0 (m_thread_txn_handle_counts tr !! t') - (if decide (t = t') then 1 else 0).
Proof.
  intros Hp [c Hc]. simpl. rewrite Hc. specialize (Hp c Hc). case_decide as E.
  - subst t'. rewrite Hc. simpl. destruct (Z.gtb_spec c 1); [by rewrite lookup_insert_eq|rewrite lookup_delete_eq; simpl; lia].
  - destruct (c >? 1); [rewrite lookup_insert_ne by done|rewrite lookup_delete_ne by done]; lia.
Qed.

Lemma counters_register objs tr o g g' t :
  objs !! o = Some g → g_owner g = t → g_owner g' = t → registered g = false → registered g' = true →
  counters objs tr → counters (<[o := g']> objs) (register_txn_handle t tr).
Proof.
  intros Ho Hown Hown' Hr Hr' [H1 H2 H3]. split.
  - rewrite (cnt_insert _ _ g), Hr, Hr', <- H1 by done. simpl. lia.
  - intros t'. rewrite register_counts, (cnt_insert _ _ g), H2 by done. rewrite !owned_owner, Hown, Hown', Hr, Hr'.
    case_decide; simpl; lia.
  - intros t' c. simpl. destruct (decide (t = t')) as [<-|Hne].
    + rewrite lookup_insert_eq. intros [= <-]. rewrite H2. pose proof (cnt_nonneg (owned t) objs). lia.
    + rewrite lookup_insert_ne by done. apply H3.
Qed.

Lemma counters_new objs tr o g t :
  objs !! o = None → g_owner g = t → registered g = true →
  counters objs tr → counters (<[o := g]> objs) (register_txn_handle t tr).
Proof.
  intros Ho Hown Hr [H1 H2 H3]. split.
  - rewrite cnt_insert_new, Hr, <- H1 by done. simpl. lia.
  - intros t'. rewrite register_counts, cnt_insert_new, H2 by done. rewrite owned_owner, Hown, Hr. case_decide; simpl; lia.
  - intros t' c. simpl. destruct (decide (t = t')) as [<-|Hne].
    + rewrite lookup_insert_eq. intros [= <-]. rewrite H2. pose proof (cnt_nonneg (owned t) objs). lia.
    + rewrite lookup_insert_ne by done. apply H3.
Qed.

Lemma counters_unregister objs tr o g g' t :
  objs !! o = Some g → g_owner g = t → g_owner g' = t → registered g = true → registered g' = false →
  counters objs tr → counters (<[o := g']> objs) (unregister_txn_handle t tr).
Proof.
  intros Ho Hown Hown' Hr Hr' [H1 H2 H3].
  assert (0 < cnt (owned t) objs) as Hpos by (eapply cnt_pos; [done|]; rewrite owned_owner, decide_True; done).
  assert (0 < cnt registered objs) as Hall by by eapply cnt_pos.
  assert (is_Some (m_thread_txn_handle_counts tr !! t)) as Hs.
  { specialize (H2 t). destruct (_ !! t); [eauto|]. simpl in H2. lia. }
  split.
  - rewrite (cnt_insert _ _ g), Hr, Hr', <- H1 by done. simpl. destruct (Z.gtb_spec (m_open_txn_handles tr) 0); lia.
  - intros t'. rewrite unregister_counts, (cnt_insert _ _ g), H2 by eauto.
    rewrite !owned_owner, Hown, Hown', Hr, Hr'. case_decide; simpl; lia.
  - intros t' c. simpl. destruct Hs as [c0 Hc0]. rewrite Hc0. destruct (Z.gtb_spec c0 1).
    + destruct (decide (t = t')) as [<-|]; [rewrite lookup_insert_eq; intros [= <-]; lia|].
      rewrite lookup_insert_ne by done. apply H3.
    + intros [_ ?]%lookup_delete_Some. by eapply H3.
Qed.

(** *** Links *)

Lemma links_update objs n n' o g g' :
  links objs n → objs !! o = Some g → g_owner g' = g_owner g → guard_ok n' g' →
  (∀ o2 g2, o2 ≠ o → objs !! o2 = Some g2 → guard_ok n' g2) →
  (∀ o2 g2 p, o2 ≠ o → objs !! o2 = Some g2 → m_txn (g_tx g') = Some p → m_txn (g_tx g2) ≠ Some p) →
  (∀ p t, n_live n' !! p = Some t →
     t = g_owner g ∧ m_txn (g_tx g') = Some p ∨ n_live n !! p = Some t ∧ m_txn (g_tx g) ≠ Some p) →
  (∀ t p, n_active n' !! t = Some p →
     t = g_owner g ∧ m_txn (g_tx g') = Some p ∧ m_started (g_tx g') = true ∨
     n_active n !! t = Some p ∧ m_txn (g_tx g) ≠ Some p) →
  links (<[o := g']> objs) n'.
Proof.
  intros [Hobj Hinj Hlive Hact] Ho Hown Hok Hoks Hnew Hl Ha. split.
  - intros o2 g2 [[-> ->]|[? ?]]%lookup_insert_Some; eauto.
  - intros o1 o2 g1 g2 p H1 H2 E1 E2. apply lookup_insert_Some in H1 as [[<- <-]|[Hn1 H1]], H2 as [[<- <-]|[Hn2 H2]].
    + done.
    + exfalso. by eapply (Hnew o2).
    + exfalso. by eapply (Hnew o1).
    + by eapply Hinj.
  - intros p t [[-> E]|[H Hne]]%Hl.
    + exists o, g'. by rewrite lookup_insert_eq.
    + destruct (Hlive p t H) as (o2 & g2 & H2 & ? & E2). exists o2, g2. rewrite lookup_insert_ne by congruence. done.
  - intros t p [(-> & E & Es)|[H Hne]]%Ha.
    + exists o, g'. by rewrite lookup_insert_eq.
    + destruct (Hact t p H) as (o2 & g2 & H2 & ? & E2 & ?). exists o2, g2. rewrite lookup_insert_ne by congruence. done.
Qed.

(** Another guard keeps its links when neither its handle nor its thread's activity changes. *)
Lemma guard_ok_other n n' g :
  (∀ p, m_txn (g_tx g) = Some p → n_live n' !! p = n_live n !! p) →
  (∀ p, m_txn (g_tx g) = Some p → n_active n !! g_owner g = Some p → n_active n' !! g_owner g = Some p) →
  guard_ok n g → guard_ok n' g.
Proof.
  intros Hl Ha [H1 H2 H3 H4]. split; [| |done|done].
  - intros p Hp. rewrite Hl by done. by apply H1.
  - intros (p & Hp & Hact)%H2. exists p. auto.
Qed.

Lemma active_one objs n o o' g g' p :
  links objs n → objs !! o = Some g → objs !! o' = Some g' → m_txn (g_tx g) = Some p →
  n_active n !! g_owner g' = Some p → m_started (g_tx g') = true → o' = o.
Proof.
  intros Hl Ho Ho' Ep Ha Hs. destruct (go_started _ _ (l_obj _ _ Hl _ _ Ho') Hs) as (p' & E & Ha').
  rewrite Ha in Ha'. injection Ha' as <-. by eapply (l_inj _ _ Hl).
Qed.

Lemma live_none objs n o g p q :
  links objs n → objs !! o = Some g → m_txn (g_tx g) = Some q → n_live n !! p = None → q ≠ p.
Proof. intros Hl Ho Hq Hp ->. pose proof (go_txn _ _ (l_obj _ _ Hl _ _ Ho) _ Hq) as [_ ?]. congruence. Qed.

Lemma links_start objs n o g p :
  links objs n → objs !! o = Some g → m_txn (g_tx g) = Some p → n_active n !! g_owner g = None →
  links (<[o := {| g_owner := g_owner g; g_tx := set_txn (g_tx g) (Some p) true (m_handle_registered (g_tx g)) |}]> objs)
    (native_start (g_owner g) p n).
Proof.
  intros Hl Ho Ep Hn. pose proof (l_obj _ _ Hl _ _ Ho) as [H1 H2 H3 H4]. eapply links_update; [done..| | | | |]; simpl.
  - split; simpl; [|intros _; exists p; by rewrite lookup_insert_eq|done|done]. intros ? [= <-]. by apply H1.
  - intros o2 g2 Hne Ho2. eapply guard_ok_other, (l_obj _ _ Hl _ _ Ho2); [done|]. simpl. intros q Eq Ha.
    rewrite lookup_insert_ne; [done|]. intros E. rewrite <- E in Ha. congruence.
  - intros o2 g2 q Hne Ho2 [= <-] E2. by apply Hne; eapply (l_inj _ _ Hl).
  - intros q t Hq. destruct (decide (q = p)) as [->|Hne]; [|right; split; congruence]. left. split; [|done].
    destruct (H1 p Ep). congruence.
  - intros t q Hq. apply lookup_insert_Some in Hq as [[<- <-]|[Hne Hq]]; [by left|]. right. split; [done|].
    intros E. destruct (l_active _ _ Hl _ _ Hq) as (o2 & g2 & Ho2 & Hw & E2 & _).
    assert (o2 = o) as -> by by eapply (l_inj _ _ Hl). congruence.
Qed.

Lemma links_open objs n o g p :
  links objs n → objs !! o = Some g → m_txn (g_tx g) = None → n_live n !! p = None →
  n_active n !! g_owner g = None → m_registry (g_tx g) = true →
  links (<[o := {| g_owner := g_owner g; g_tx := set_txn (g_tx g) (Some p) true true |}]> objs)
    (native_begin RC_SUCCESS (g_owner g) p n).
Proof.
  intros Hl Ho En Hp Ha Hr. eapply links_update; [done..| | | | |]; simpl.
  - split; simpl; [|intros _; exists p; by rewrite lookup_insert_eq|done|done]. intros ? [= <-].
    by rewrite lookup_insert_eq.
  - intros o2 g2 Hne Ho2. eapply guard_ok_other, (l_obj _ _ Hl _ _ Ho2); simpl; intros q Eq.
    + rewrite lookup_insert_ne; [done|]. symmetry. by eapply live_none.
    + intros Hq. rewrite lookup_insert_ne; [done|]. intros E. rewrite <- E in Hq. congruence.
  - intros o2 g2 q Hne Ho2 [= <-] E2. by eapply live_none.
  - intros q t [[<- <-]|[Hne Hq]]%lookup_insert_Some; [by left|right; split; congruence].
  - intros t q [[<- <-]|[Hne Hq]]%lookup_insert_Some; [by left|right; split; congruence].
Qed.

Lemma links_stop objs n o g p :
  links objs n → objs !! o = Some g → m_txn (g_tx g) = Some p → m_started (g_tx g) = true →
  m_mode (g_tx g) = READ_ONLY →
  n_active n !! g_owner g = Some p ∧
  links (<[o := {| g_owner := g_owner g; g_tx := set_txn (g_tx g) (Some p) false (m_handle_registered (g_tx g)) |}]> objs)
    (native_stop (g_owner g) p n).
Proof.
  intros Hl Ho Ep Hs Hm. pose proof (l_obj _ _ Hl _ _ Ho) as [H1 H2 H3 H4].
  destruct (H2 Hs) as (q & Eq & Ha). assert (q = p) as -> by congruence. split; [done|].
  unfold native_stop. rewrite bool_decide_true by done. eapply links_update; [done..| | | | |]; simpl.
  - split; simpl; [|done|congruence|done]. intros ? [= <-]. by apply H1.
  - intros o2 g2 Hne Ho2. eapply guard_ok_other, (l_obj _ _ Hl _ _ Ho2); [done|]. simpl. intros q E Hq.
    rewrite lookup_delete_ne; [done|]. intros Et. rewrite <- Et, Ha in Hq. injection Hq as <-. by apply Hne; eapply (l_inj _ _ Hl).
  - intros o2 g2 q Hne Ho2 [= <-] E2. by apply Hne; eapply (l_inj _ _ Hl).
  - intros q t Hq. destruct (decide (q = p)) as [->|Hne]; [|right; split; congruence]. left. split; [|done].
    destruct (H1 p Ep). congruence.
  - intros t q [Hne Hq]%lookup_delete_Some. right. split; [done|]. intros E.
    destruct (l_active _ _ Hl _ _ Hq) as (o2 & g2 & Ho2 & Hw & E2 & _).
    assert (o2 = o) as -> by by eapply (l_inj _ _ Hl). congruence.
Qed.

Lemma links_plain objs n o g tx' :
  links objs n → objs !! o = Some g → m_txn (g_tx g) = None → m_txn tx' = None → m_started tx' = false →
  m_handle_registered tx' = false → links (<[o := {| g_owner := g_owner g; g_tx := tx' |}]> objs) n.
Proof.
  intros Hl Ho En E1 E2 E3. eapply links_update; [done..| | | | |]; simpl.
  - split; unfold registered; simpl; congruence.
  - intros o2 g2 _. apply (l_obj _ _ Hl).
  - congruence.
  - intros p t Hp. right. split; [done|congruence].
  - intros t p Hp. right. split; [done|congruence].
Qed.

Lemma links_drop objs n o g p tx' :
  links objs n → objs !! o = Some g → m_txn (g_tx g) = Some p → m_txn tx' = None → m_started tx' = false →
  m_handle_registered tx' = false →
  (if m_started (g_tx g) then n_active n !! g_owner g = Some p else n_active n !! g_owner g ≠ Some p) ∧
  links (<[o := {| g_owner := g_owner g; g_tx := tx' |}]> objs) (native_end (g_owner g) p n).
Proof.
  intros Hl Ho Ep E1 E2 E3. pose proof (l_obj _ _ Hl _ _ Ho) as [H1 H2 H3 H4].
  assert (if m_started (g_tx g) then n_active n !! g_owner g = Some p else n_active n !! g_owner g ≠ Some p) as Hs.
  { destruct (m_started (g_tx g)) eqn:Es; [destruct (H2 eq_refl) as (q & ? & ?); congruence|].
    intros Ha. destruct (l_active _ _ Hl _ _ Ha) as (o2 & g2 & Ho2 & _ & Eq & Es2).
    assert (o2 = o) as -> by by eapply (l_inj _ _ Hl). congruence. }
  split; [done|].
  assert (∀ t q, n_active (native_end (g_owner g) p n) !! t = Some q →
    n_active n !! t = Some q ∧ (t = g_owner g → q ≠ p)) as Hact.
  { intros t q. unfold native_end, native_stop. simpl. case_bool_decide as Ea.
    - intros [Hne Hq]%lookup_delete_Some. split; [done|]. intros ->. done.
    - intros Hq. split; [done|]. intros -> ->. done. }
  eapply links_update; [done..| | | | |]; simpl.
  - split; unfold registered; simpl; congruence.
  - intros o2 g2 Hne Ho2. eapply guard_ok_other, (l_obj _ _ Hl _ _ Ho2); simpl; intros q Eq.
    + rewrite lookup_delete_ne; [done|]. intros <-. by apply Hne; eapply (l_inj _ _ Hl).
    + intros Hq. unfold native_end, native_stop. simpl. case_bool_decide as Ea; [|done].
      rewrite lookup_delete_ne; [done|]. intros Et. rewrite <- Et, Ea in Hq. injection Hq as <-.
      by apply Hne; eapply (l_inj _ _ Hl).
  - congruence.
  - intros q t [Hne Hq]%lookup_delete_Some. right. split; congruence.
  - intros t q [Hq Hne]%Hact. right. split; [done|]. intros E.
    destruct (l_active _ _ Hl _ _ Hq) as (o2 & g2 & Ho2 & Hw & Eq & _).
    assert (o2 = o) as -> by by eapply (l_inj _ _ Hl). assert (g2 = g) as -> by congruence.
    apply Hne; congruence.
Qed.

(** *** Methods *)

Lemma core_effect objs s o g tx' s' :
  core objs s → objs !! o = Some g → effect (g_owner g) (g_tx g) s tx' s' →
  core (<[o := {| g_owner := g_owner g; g_tx := tx' |}]> objs) s'.
Proof.
  intros [Hc Hl Hb] Ho He. set (t := g_owner g) in *.
  inversion He as [s1 Et En|p s1 Ep Ha Et En|p s1 Ep Hp Ha Hr Et En|p s1 Ep Hs Hm Et En|tx1 s1 Ep Hr E1 E2 E3 Et En
    |p tx1 s1 Ep E1 E2 E3 Et En|tx1 s1 Ep Hr E1 E2 E3 Et En]; subst; rewrite ?Et, ?En.
  - destruct g as [ow tx]. simpl in *. subst t. rewrite insert_id by done. split; by rewrite ?Et, ?En.
  - split; rewrite ?Et, ?En; [|by apply links_start|simpl; by rewrite Hb].
    eapply same_counters; [..|eapply counters_same; [done..|exact Hc]]; done.
  - split; rewrite ?Et, ?En; [|by apply links_open|destruct (m_handle_registered _); simpl; by rewrite Hb].
    destruct (m_handle_registered (g_tx g)) eqn:Eh.
    + eapply same_counters; [..|eapply counters_same; [done..|exact Hc]]; done.
    + eapply same_counters; [..|eapply counters_register; [done..|exact Hc]]; done.
  - destruct (links_stop _ _ _ _ _ Hl Ho Ep Hs Hm) as [Ha Hl']. split; rewrite ?Et, ?En; [|done|].
    + eapply same_counters; [..|eapply counters_same; [done..|exact Hc]]; done.
    + simpl. by rewrite Hb.
  - split; rewrite ?Et, ?En; [|by apply links_plain|done]. by eapply counters_unregister.
  - destruct (links_drop _ _ _ _ _ tx' Hl Ho Ep E1 E2 E3) as [Ha Hl'].
    assert (m_thread_txns (unregister_txn_handle t (if m_started (g_tx g) then unbind_txn t p (s_tracker s) else s_tracker s))
      = n_active (native_end t p (s_native s))) as Hb'.
    { unfold native_end, native_stop. simpl. destruct (m_started (g_tx g)); simpl; rewrite Hb; [done|].
      by rewrite bool_decide_false. }
    split; rewrite ?Et, ?En; [|done|done]. pose proof (go_txn _ _ (l_obj _ _ Hl _ _ Ho) _ Ep) as [Hreg _].
    eapply counters_unregister; [done..|]. destruct (m_started (g_tx g)); [by apply (same_counters _ (s_tracker s))|done].
  - split; rewrite ?Et, ?En; [|by apply links_plain|done]. eapply counters_same; [done|done| |done]. unfold registered. simpl. congruence.
Qed.

Lemma native_same n n' : n_live n = n_live n' → n_active n = n_active n' → n = n'.
Proof. destruct n, n'. simpl. by intros -> ->. Qed.

Lemma tracker_same tr tr' :
  m_thread_txns tr = m_thread_txns tr' → m_thread_txn_handle_counts tr = m_thread_txn_handle_counts tr' →
  m_open_txn_handles tr = m_open_txn_handles tr' → tr = tr'.
Proof. destruct tr, tr'. simpl. by intros -> -> ->. Qed.

(** A handle that is begun and aborted leaves nothing. *)
Lemma begin_end t p n : n_live n !! p = None → n_active n !! t = None → native_end t p (native_begin RC_SUCCESS t p n) = n.
Proof.
  intros Hl Ha. apply native_same; simpl.
  - by rewrite delete_insert_id.
  - rewrite lookup_insert_eq, bool_decide_true by done. by rewrite delete_insert_id.
Qed.

Lemma renew_reset t p n : n_active n !! t = None → native_stop t p (native_start t p n) = n.
Proof.
  intros Ha. apply native_same; simpl; [done|]. rewrite lookup_insert_eq, bool_decide_true by done. by rewrite delete_insert_id.
Qed.

Lemma register_unregister t tr objs : counters objs tr → unregister_txn_handle t (register_txn_handle t tr) = tr.
Proof.
  intros [Ho _ Hp]. pose proof (cnt_nonneg registered objs). apply tracker_same; simpl; [done| |].
  - rewrite lookup_insert_eq. destruct (m_thread_txn_handle_counts tr !! t) as [c|] eqn:E; simpl.
    + specialize (Hp t c E). destruct (Z.gtb_spec (c + 1) 1); [|lia]. rewrite insert_insert_eq.
      rewrite insert_id; [done|]. by replace (c + 1 - 1) with c by lia.
    + by rewrite delete_insert_id.
  - destruct (Z.gtb_spec (m_open_txn_handles tr + 1) 0); lia.
Qed.

Lemma not_started_active objs n o g p :
  links objs n → objs !! o = Some g → m_txn (g_tx g) = Some p → m_started (g_tx g) = false →
  native_stop (g_owner g) p n = n.
Proof.
  intros Hl Ho Ep Es. unfold native_stop. rewrite bool_decide_false; [by destruct n|]. intros Ha.
  destruct (l_active _ _ Hl _ _ Ha) as (o2 & g2 & Ho2 & _ & Eq & Es2).
  assert (o2 = o) as -> by by eapply (l_inj _ _ Hl). congruence.
Qed.

Lemma set_txn_set tx p b r p' b' r' : set_txn (set_txn tx p b r) p' b' r' = set_txn tx p' b' r'.
Proof. reflexivity. Qed.

Lemma begin_effect objs s o g c r tx' s' :
  core objs s → objs !! o = Some g → m_registry (g_tx g) = true →
  begin_ok (g_owner g) c (g_tx g) (s_native s) →
  begin (g_owner g) c (g_tx g) s = (r, tx', s') → effect (g_owner g) (g_tx g) s tx' s'.
Proof.
  intros [Hc Hl _] Ho Hr [Hrc Hcl] Hb. pose proof (l_obj _ _ Hl _ _ Ho) as Hok. unfold begin in Hb.
  destruct (m_started (g_tx g)) eqn:Es; [simplify_eq; by constructor|].
  pose proof (not_started_active objs (s_native s) o g) as Hstop. destruct (m_txn (g_tx g)) as [p|] eqn:Ep.
  - destruct (m_mode (g_tx g)) eqn:Em; [|by rewrite (go_writable _ _ Hok p) in Es].
    rewrite bool_decide_false, andb_false_r in Hb by done. simpl in Hb. rewrite Hcl in Hb.
    destruct (Z.eqb_spec (bc_rc c) RC_SUCCESS) as [E|E]; simpl in Hb.
    + destruct (Hrc E) as [Ha _]. rewrite E in Hb. destruct (bc_alloc c); simplify_eq; try (by eapply eff_start).
      apply eff_none; [done|]. by apply renew_reset.
    + simplify_eq. apply eff_none; [done|]. simpl. unfold native_renew. rewrite (proj2 (Z.eqb_neq _ _) E). by apply Hstop.
  - rewrite bool_decide_true, andb_true_r in Hb by done.
    destruct (Z.eqb_spec (bc_rc c) RC_SUCCESS) as [E|E]; simpl in Hb.
    + destruct (Hrc E) as [Ha Hp]. specialize (Hp eq_refl). rewrite E, Hcl in Hb.
      pose proof (begin_end _ _ _ Hp Ha) as Hbe. destruct (m_handle_registered (g_tx g)) eqn:Eh; simpl in Hb.
      * destruct (bc_alloc c); simplify_eq; [| |by eapply eff_unreserve].
        all: rewrite !set_txn_set; eapply eff_open; try done; by rewrite Eh.
      * pose proof (register_unregister (g_owner g) _ _ Hc) as Hru.
        destruct (bc_alloc c); simplify_eq; [|by eapply eff_inert|by eapply eff_inert].
        rewrite !set_txn_set. eapply eff_open; try done; by rewrite Eh.
    + destruct (m_handle_registered (g_tx g)) eqn:Eh; simplify_eq; simpl.
      * eapply eff_unreserve; try done. simpl. unfold native_begin. by rewrite (proj2 (Z.eqb_neq _ _) E).
      * eapply eff_none; [done|]. simpl. unfold native_begin. by rewrite (proj2 (Z.eqb_neq _ _) E).
Qed.

(** A call that fails changes no native transaction, and the guard stays as it is. *)
Lemma reset_effect t rc p tx s r tx' s' :
  m_txn tx = Some p → m_started tx = true → m_mode tx = READ_ONLY →
  reset_txn t rc p tx s = (r, tx', s') → effect t tx s tx' s'.
Proof.
  intros Ep Es Em Hr. unfold reset_txn in Hr. destruct (rc =? RC_SUCCESS) eqn:E; simpl in Hr; simplify_eq.
  - eapply eff_stop; try done. simpl. unfold native_reset. by rewrite E.
  - apply eff_none; [done|]. simpl. unfold native_reset. by rewrite E.
Qed.

Lemma commit_effect t hook rc tx s r tx' s' :
  commit t hook rc tx s = (r, tx', s') → effect t tx s tx' s'.
Proof.
  intros Hr. unfold commit in *. destruct (m_txn tx) as [p|] eqn:Ep; [|simplify_eq; by constructor].
  destruct (m_started tx) eqn:Es; [|simplify_eq; by constructor].
  destruct (m_mode tx) eqn:Em; [by eapply reset_effect|].
  destruct hook as [u|e]; [|simplify_eq; by constructor].
  destruct (rc =? RC_THREAD_MISMATCH) eqn:He.
  { simplify_eq. apply eff_none; [done|]. simpl. unfold native_commit. by rewrite He. }
  assert (native_commit rc t p (s_native s) = native_end t p (s_native s)) as En.
  { unfold native_commit. by rewrite He. }
  destruct (rc =? RC_SUCCESS); simpl in Hr; simplify_eq; eapply eff_drop; simpl; try done; by rewrite Es.
Qed.

Lemma rollback_effect t rc tx s r tx' s' :
  rollback t rc tx s = (r, tx', s') → effect t tx s tx' s'.
Proof.
  intros Hr. unfold rollback in *. destruct (m_txn tx) as [p|] eqn:Ep; [|simplify_eq; by constructor].
  destruct (m_started tx) eqn:Es; [|simplify_eq; by constructor].
  destruct (m_mode tx) eqn:Em; [by eapply reset_effect|]. destruct (rc =? RC_SUCCESS) eqn:E; simpl in Hr; simplify_eq.
  - eapply eff_drop; simpl; try done; [by rewrite Es|]. unfold native_abort. by rewrite E.
  - apply eff_none; [done|]. simpl. unfold native_abort. by rewrite E.
Qed.

Lemma release_effect objs s o g tx' s' :
  core objs s → objs !! o = Some g → release (g_owner g) RC_SUCCESS (g_tx g) s = (tx', s') →
  m_txn tx' = None ∧ m_handle_registered tx' = false ∧ effect (g_owner g) (g_tx g) s tx' s'.
Proof.
  intros [_ Hl _] Ho Hr. pose proof (l_obj _ _ Hl _ _ Ho) as Hok. unfold release in Hr. simplify_eq.
  split_and!; [done..|]. destruct (m_txn (g_tx g)) as [p|] eqn:Ep.
  - destruct (go_txn _ _ Hok p Ep) as [Hreg _]. pose proof (go_registry _ _ Hok Hreg) as Hr. unfold registered in Hreg.
    rewrite Hreg, Hr. simpl. destruct (m_started (g_tx g)) eqn:Es; simpl.
    + eapply eff_drop; simpl; try done; [by rewrite Es; destruct (bool_decide _)|by destruct (bool_decide _)].
    + eapply eff_drop; simpl; try done. by rewrite Es.
  - destruct (m_handle_registered (g_tx g)) eqn:Eh.
    + rewrite (go_registry _ _ Hok Eh). simpl. by eapply eff_unreserve.
    + rewrite andb_false_r. by eapply eff_inert.
Qed.

(** ** The invariant holds in every reachable state *)

Definition handles (w : world) : Z := m_open_txn_handles (s_tracker (w_sys w)).

Record inv (w : world) : Prop := {
  i_core : core (w_objs w) (w_sys w);
  i_pending t o m : w_pending w !! t = Some (o, m) →
    ∃ g, w_objs w !! o = Some g ∧ g_owner g = t ∧ registered g = true;
  i_manual t o : w_manual w !! t = Some o → ∃ g, w_objs w !! o = Some g ∧ g_owner g = t;
  i_shutdown : w_shutdown w = true → w_env w = true;
}.

Lemma effect_handles t tx s tx' s' :
  effect t tx s tx' s' → m_handle_registered tx = true ∨ (m_txn tx = None → m_txn tx' = None) →
  m_open_txn_handles (s_tracker s') ≤ m_open_txn_handles (s_tracker s).
Proof.
  assert (∀ tr, m_open_txn_handles (unregister_txn_handle t tr) ≤ m_open_txn_handles tr) as Hle.
  { intros tr. simpl. destruct (Z.gtb_spec (m_open_txn_handles tr) 0); lia. }
  intros He Hn. inversion He as [? E|? ? ? ? E|? ? En ? ? ? E|? ? ? ? ? E|? ? ? ? ? ? ? E|? ? ? ? ? ? ? E|? ? ? ? ? ? ? E];
    subst; rewrite ?E; simpl; try lia.
  - destruct Hn as [->|Hn]; [done|]. by specialize (Hn En).
  - apply Hle.
  - etrans; [apply Hle|]. by destruct (m_started tx).
Qed.

(** A method of a guard of thread [t]. *)
Lemma inv_guard w o g t tx' s' :
  inv w → w_objs w !! o = Some g → g_owner g = t → w_pending w !! t = None →
  effect t (g_tx g) (w_sys w) tx' s' →
  inv (with_sys w s' (<[o := {| g_owner := t; g_tx := tx' |}]> (w_objs w))).
Proof.
  intros [Hc Hp Hm Hsd] Ho <- Hpt Heff. pose proof (core_effect _ _ _ _ _ _ Hc Ho Heff) as Hc'. split; simpl.
  - done.
  - intros t' o' m E. destruct (Hp t' o' m E) as (g' & Ho' & Ht' & Hr'). exists g'. split; [|done].
    rewrite lookup_insert_ne; [done|]. intros ->. congruence.
  - intros t' o' E. destruct (Hm t' o' E) as (g' & Ho' & Ht'). destruct (decide (o = o')) as [<-|Hne].
    + eexists. rewrite lookup_insert_eq. split; [done|]. simpl. congruence.
    + exists g'. by rewrite lookup_insert_ne.
  - done.
Qed.

Lemma on_guard_eq o f w g r tx' s' :
  w_objs w !! o = Some g → f (g_tx g) (w_sys w) = (r, tx', s') →
  on_guard o f w = (r, with_sys w s' (<[o := {| g_owner := g_owner g; g_tx := tx' |}]> (w_objs w))).
Proof. intros Ho Hf. unfold on_guard. by rewrite Ho, Hf. Qed.

Lemma commit_keeps_none t hook rc tx s : m_txn tx = None → (commit t hook rc tx s).1.2 = tx.
Proof. intros E. unfold commit. by rewrite E. Qed.

Lemma rollback_keeps_none t rc tx s : m_txn tx = None → (rollback t rc tx s).1.2 = tx.
Proof. intros E. unfold rollback. by rewrite E. Qed.

Lemma inv_commit t hook rc o g w :
  inv w → w_pending w !! t = None → w_objs w !! o = Some g → g_owner g = t →
  inv (on_guard o (commit t hook rc) w).2.
Proof.
  intros Hi Hp Ho Ht. destruct (commit t hook rc (g_tx g) (w_sys w)) as [[r tx'] s'] eqn:E.
  erewrite on_guard_eq by done. simpl. rewrite Ht. eapply inv_guard; [done..|by eapply commit_effect].
Qed.

Lemma inv_rollback t rc o g w :
  inv w → w_pending w !! t = None → w_objs w !! o = Some g → g_owner g = t →
  inv (on_guard o (rollback t rc) w).2.
Proof.
  intros Hi Hp Ho Ht. destruct (rollback t rc (g_tx g) (w_sys w)) as [[r tx'] s'] eqn:E.
  erewrite on_guard_eq by done. simpl. rewrite Ht. eapply inv_guard; [done..|by eapply rollback_effect].
Qed.

Lemma inv_begin t c o g w :
  inv w → w_pending w !! t = None → w_objs w !! o = Some g → g_owner g = t →
  m_registry (g_tx g) = true → begin_ok t c (g_tx g) (s_native (w_sys w)) → inv (on_guard o (begin t c) w).2.
Proof.
  intros Hi Hp Ho <- Hr Hb. destruct (begin (g_owner g) c (g_tx g) (w_sys w)) as [[r tx'] s'] eqn:E.
  erewrite on_guard_eq by done. simpl. eapply inv_guard; [done..|].
  eapply begin_effect; [apply Hi|done..].
Qed.

Lemma inv_fields w w' :
  w_objs w' = w_objs w → w_sys w' = w_sys w →
  (w_shutdown w' = true → w_shutdown w = true ∧ w_env w' = w_env w ∨ w_env w' = true) →
  (∀ t x, w_pending w' !! t = Some x → w_pending w !! t = Some x) →
  (∀ t o, w_manual w' !! t = Some o → w_manual w !! t = Some o) → inv w → inv w'.
Proof.
  intros Ho Hs Hsd Hp Hm [H1 H3 H4 H5]. split; rewrite ?Ho, ?Hs.
  - done.
  - intros t o m E%Hp. by eapply H3.
  - intros t o E%Hm. by apply H4.
  - intros [[? ->]|?]%Hsd; auto.
Qed.

Lemma inv_reserve t mode manual o w :
  inv w → w_pending w !! t = None → w_objs w !! o = None → inv (reserve t mode manual o w).2.
Proof.
  intros Hi Hp Ho. unfold reserve. destruct (w_shutdown w); [done|]. destruct (w_env w) eqn:Ee; [|done]. simpl.
  destruct (manual && _); [done|]. destruct (current_thread_has_txn t _); [done|]. simpl.
  destruct Hi as [[Hc Hl Hb] H3 H4 H5]. split; simpl.
  - split; simpl; [by apply counters_new| |done]. destruct Hl as [L1 L2 L3 L4]. split.
    + intros o' g' [[<- <-]|[_ ?]]%lookup_insert_Some; [by split|by eapply L1].
    + intros o1 o2 g1 g2 p [[<- <-]|[_ H1]]%lookup_insert_Some [[<- <-]|[_ H2]]%lookup_insert_Some E1 E2; try done.
      by eapply L2.
    + intros p t' (o' & g' & Ho' & ?)%L3. exists o', g'. rewrite lookup_insert_ne by congruence. done.
    + intros p t' (o' & g' & Ho' & ?)%L4. exists o', g'. rewrite lookup_insert_ne by congruence. done.
  - intros t' o' m [[<- [= <- <-]]|[_ E]]%lookup_insert_Some.
    + eexists. by rewrite lookup_insert_eq.
    + destruct (H3 t' o' m E) as (g' & Ho' & ?). exists g'. by rewrite lookup_insert_ne by congruence.
  - intros t' o' (g' & Ho' & ?)%H4. exists g'. by rewrite lookup_insert_ne by congruence.
  - done.
Qed.

Lemma on_guard_fields o f w :
  let w' := (on_guard o f w).2 in
  w_env w' = w_env w ∧ w_shutdown w' = w_shutdown w ∧ w_manual w' = w_manual w ∧ w_pending w' = w_pending w.
Proof. unfold on_guard. destruct (w_objs w !! o) as [g|]; [|done]. by destruct (f _ _) as [[]]. Qed.

Lemma on_guard_owner o f w o' g :
  w_objs w !! o' = Some g → ∃ g', w_objs (on_guard o f w).2 !! o' = Some g' ∧ g_owner g' = g_owner g.
Proof.
  intros Ho. unfold on_guard. destruct (w_objs w !! o) as [g0|] eqn:E; [|eauto].
  destruct (f _ _) as [[r tx'] s']. simpl. destruct (decide (o = o')) as [<-|Hne].
  - rewrite lookup_insert_eq. eexists. split; [done|]. simpl. congruence.
  - rewrite lookup_insert_ne by done. eauto.
Qed.

Lemma inv_finish t c o manual g w :
  inv w → w_pending w !! t = Some (o, manual) → w_objs w !! o = Some g →
  begin_ok t c (g_tx g) (s_native (w_sys w)) → inv (finish t c w).2.
Proof.
  intros Hi Hp Ho Hb. destruct (i_pending _ Hi _ _ _ Hp) as (g' & Ho' & Ht & Hr). assert (g' = g) as -> by congruence.
  unfold finish. rewrite Hp. set (w1 := with_pending w (delete t (w_pending w))).
  assert (inv w1) as Hi1.
  { eapply inv_fields, Hi; try done; [by left|]. intros t' x. simpl. by intros [_ ?]%lookup_delete_Some. }
  assert (inv (on_guard o (begin t c) w1).2) as Hi2.
  { eapply inv_begin; [done|apply lookup_delete_eq|exact Ho|done| |done].
    by apply (go_registry _ _ (l_obj _ _ (c_links _ _ (i_core _ Hi)) _ _ Ho)). }
  destruct (on_guard_owner o (begin t c) w1 o g Ho) as (g2 & Ho2 & Ht2).
  destruct (on_guard o (begin t c) w1) as [[u|e] w2]; [|done]. simpl in *. destruct manual; [|done].
  destruct (w_manual w2 !! t) eqn:Em; [done|]. simpl. destruct Hi2 as [H1 H3 H4 H5]. split; try done.
  simpl. intros t' o' [[<- <-]|[_ E]]%lookup_insert_Some; [|by apply H4]. exists g2. split; [done|congruence].
Qed.

Lemma inv_erase t o w : inv w → inv (erase_manual_transaction_if_current t o w).
Proof.
  intros Hi. unfold erase_manual_transaction_if_current. destruct (bool_decide _); [|done].
  eapply inv_fields, Hi; try done; [by left|]. intros t' x. simpl. by intros [_ ?]%lookup_delete_Some.
Qed.

Lemma inv_end_manual t f w :
  inv w → (∀ o g, w_manual w !! t = Some o → w_objs w !! o = Some g → g_owner g = t → inv (on_guard o f w).2) →
  inv (end_manual t f w).2.
Proof.
  intros Hi Hf. unfold end_manual. destruct (w_manual w !! t) as [o|] eqn:Em; [|done].
  destruct (i_manual _ Hi _ _ Em) as (g & Ho & Ht). specialize (Hf o g eq_refl Ho Ht).
  destruct (on_guard o f w) as [r w']. by apply inv_erase.
Qed.

(** A guard without a handle can go. *)
Lemma core_delete objs s o g :
  core objs s → objs !! o = Some g → m_txn (g_tx g) = None → registered g = false → core (delete o objs) s.
Proof.
  intros [[C1 C2 C3] [L1 L2 L3 L4] Hb] Ho En Hr. split; [split|split|done].
  - rewrite (cnt_delete _ _ g), Hr by done. simpl. lia.
  - intros t. rewrite (cnt_delete _ _ g) by done. rewrite owned_owner, Hr, C2. case_decide; simpl; lia.
  - done.
  - intros o' g' [_ ?]%lookup_delete_Some. by eapply L1.
  - intros o1 o2 g1 g2 p [_ ?]%lookup_delete_Some [_ ?]%lookup_delete_Some. by eapply L2.
  - intros p t (o' & g' & Ho' & ? & E)%L3. exists o', g'. rewrite lookup_delete_ne by congruence. done.
  - intros t p (o' & g' & Ho' & ? & E & ?)%L4. exists o', g'. rewrite lookup_delete_ne by congruence. done.
Qed.

Lemma inv_destroy t o g w :
  inv w → w_pending w !! t = None → w_objs w !! o = Some g → g_owner g = t →
  (∀ t', w_manual w !! t' ≠ Some o) → inv (destroy t o RC_SUCCESS w).
Proof.
  intros Hi Hp Ho <- Hm. unfold destroy. rewrite Ho.
  destruct (release (g_owner g) RC_SUCCESS (g_tx g) (w_sys w)) as [tx' s'] eqn:E.
  destruct (release_effect _ _ _ _ _ _ (i_core _ Hi) Ho E) as (E1 & E2 & Heff).
  assert (inv (with_sys w s' (<[o := {| g_owner := g_owner g; g_tx := tx' |}]> (w_objs w)))) as [H1 H3 H4 H5].
  { by eapply inv_guard. }
  simpl in *. rewrite <- (delete_insert_eq (w_objs w) o {| g_owner := g_owner g; g_tx := tx' |}).
  split; simpl; [eapply core_delete; [done|by rewrite lookup_insert_eq|done..]|..].
  - intros t' o' m Hq. destruct (H3 t' o' m Hq) as (g' & Ho' & Ht' & Hr'). exists g'. split; [|done].
    rewrite lookup_delete_ne; [done|]. intros <-. rewrite lookup_insert_eq in Ho'. injection Ho' as <-. simpl in Ht'. congruence.
  - intros t' o' Hq. destruct (H4 t' o' Hq) as (g' & Ho' & Ht'). exists g'. split; [|done].
    rewrite lookup_delete_ne; [done|]. intros <-. by eapply Hm.
  - done.
Qed.

Lemma core_move objs s o o' g mode :
  core objs s → objs !! o = Some g → objs !! o' = None →
  core (<[o' := g]> (<[o := {| g_owner := g_owner g; g_tx := empty_transaction mode |}]> objs)) s.
Proof.
  intros [[C1 C2 C3] [L1 L2 L3 L4] Hb] Ho Ho'. assert (o ≠ o') as Hoo by congruence.
  set (g0 := {| g_owner := g_owner g; g_tx := empty_transaction mode |}).
  assert (<[o := g0]> objs !! o' = None) as Hn by by rewrite lookup_insert_ne.
  assert (∀ P, P g0 = false → cnt P (<[o' := g]> (<[o := g0]> objs)) = cnt P objs) as Hcnt.
  { intros P HP. rewrite cnt_insert_new, (cnt_insert _ _ g), HP by done. simpl. lia. }
  (* the guards of the new map that have a transaction are those of the old one *)
  assert (∀ i x p, <[o' := g]> (<[o := g0]> objs) !! i = Some x → m_txn (g_tx x) = Some p →
    objs !! (if decide (i = o') then o else i) = Some x ∧ i ≠ o) as Hold.
  { intros i x p [[<- <-]|[Hne Hi]]%lookup_insert_Some E; [by rewrite decide_True|].
    rewrite decide_False by done. apply lookup_insert_Some in Hi as [[<- <-]|[Hne2 Hi]]; [by simpl in E|done]. }
  assert (∀ i x, objs !! i = Some x →
    <[o' := g]> (<[o := g0]> objs) !! (if decide (i = o) then o' else i) = Some x) as Hnew.
  { intros i x Hi. case_decide as E; [subst i; rewrite lookup_insert_eq; congruence|].
    rewrite !lookup_insert_ne by congruence. done. }
  split; [split|split|done].
  - by rewrite Hcnt.
  - intros t. rewrite Hcnt; [done|]. by rewrite owned_owner; case_decide.
  - done.
  - intros i x [[<- <-]|[_ [[<- <-]|[_ ?]]%lookup_insert_Some]]%lookup_insert_Some; [by eapply L1|by split|by eapply L1].
  - intros i1 i2 x1 x2 p H1 H2 E1 E2. destruct (Hold _ _ _ H1 E1) as [A1 B1], (Hold _ _ _ H2 E2) as [A2 B2].
    pose proof (L2 _ _ _ _ _ A1 A2 E1 E2) as E. repeat case_decide; congruence.
  - intros p t (i & x & Hi & ? & ?)%L3. eauto 10.
  - intros t p (i & x & Hi & ? & ? & ?)%L4. eauto 10.
Qed.

Lemma inv_move t o o' g w :
  inv w → w_pending w !! t = None → w_objs w !! o = Some g → g_owner g = t → w_objs w !! o' = None →
  (∀ t', w_manual w !! t' ≠ Some o) → inv (move o o' w).
Proof.
  intros [H1 H3 H4 H5] Hp Ho <- Ho' Hm. unfold move. rewrite Ho. destruct g as [ow tx]. simpl in *. split; simpl.
  - by apply (core_move _ _ o o' {| g_owner := ow; g_tx := tx |}).
  - intros t' i m Hq. destruct (H3 t' i m Hq) as (g' & Hi & Ht' & Hr'). exists g'. split; [|done].
    rewrite !lookup_insert_ne; [done|intros <-; rewrite Ho in Hi; injection Hi as <-; simpl in Ht'; congruence|congruence].
  - intros t' i Hq. destruct (H4 t' i Hq) as (g' & Hi & Ht'). exists g'. split; [|done].
    rewrite !lookup_insert_ne; [done|intros <-; by eapply Hm|congruence].
  - done.
Qed.

Lemma inv_step l w w' : step l w w' → inv w → inv w'.
Proof.
  intros Hs Hi. destruct Hs.
  - by apply inv_reserve.
  - by eapply inv_finish.
  - by eapply inv_begin.
  - by eapply inv_commit.
  - by eapply inv_rollback.
  - apply inv_end_manual; [done|]. intros o' g' Hm Ho' Ht'. by eapply inv_commit.
  - apply inv_end_manual; [done|]. intros o' g' Hm Ho' Ht'. by eapply inv_rollback.
  - by eapply inv_destroy.
  - by eapply inv_move.
  - unfold request_shutdown. destruct (w_env w) eqn:E; simpl; [|by eapply inv_fields, Hi; simpl; auto].
    destruct (current_thread_has_txn_handle _ _); [done|]. eapply inv_fields, Hi; simpl; by auto.
  - unfold disconnect, cleanup, has_txn_handles. destruct (Z.eqb_spec (m_open_txn_handles (s_tracker (w_sys w))) 0) as [E|]; simpl; [|done].
    destruct (w_env w) eqn:Ee; [destruct (rc =? RC_SUCCESS)|]; simpl; (eapply inv_fields, Hi; simpl; try done); by auto.
  - unfold connect. destruct (w_env w) eqn:E; [done|]. eapply inv_fields, Hi; simpl; done.
Qed.

Lemma reachable_inv w : reachable w → inv w.
Proof.
  intros Hr. refine (rtc_ind_r inv initial _ _ w Hr).
  - split; [split; [split|split|]|..]; try done.
    all: intros *; simpl; rewrite ?lookup_empty; try done.
  - intros w1 w2 _ [l Hl] Hi. by eapply inv_step.
Qed.

(** ** Claims *)

Lemma reachable_live w p t :
  inv w → n_live (s_native (w_sys w)) !! p = Some t ↔
  ∃ o g, w_objs w !! o = Some g ∧ g_owner g = t ∧ m_txn (g_tx g) = Some p.
Proof.
  intros Hi. pose proof (c_links _ _ (i_core _ Hi)) as Hl. split; [apply (l_live _ _ Hl)|].
  intros (o & g & Ho & <- & Ep). by apply (go_txn _ _ (l_obj _ _ Hl _ _ Ho)).
Qed.

Lemma no_handles_no_live w : inv w → handles w = 0 → n_live (s_native (w_sys w)) = ∅.
Proof.
  intros Hi H0. apply map_empty. intros p. destruct (_ !! p) as [t|] eqn:E; [|done]. exfalso.
  pose proof (c_links _ _ (i_core _ Hi)) as Hl. destruct (l_live _ _ Hl p t E) as (o & g & Ho & _ & Ep).
  destruct (go_txn _ _ (l_obj _ _ Hl _ _ Ho) p Ep) as [Hr _]. unfold handles in H0.
  rewrite (c_open _ _ (c_counters _ _ (i_core _ Hi))) in H0. pose proof (cnt_pos _ _ _ _ Ho Hr). lia.
Qed.

(** C28: in every state that threads can reach by creating, starting, committing, rolling
    back, moving and destroying guards and by connecting and shutting down, where begins,
    renews, commits, resets, rollbacks and allocations may fail: the tracker names for each
    thread exactly the transaction that is active on it, and counts exactly the guards that
    hold a handle or a reservation; every native transaction belongs to exactly one guard of
    its thread, a thread has at most one started guard, and the environment is closed only
    at a moment when no native transaction exists.  (A guard that is started again
    afterwards is tracked too, although its environment is gone.)  The aborts of the
    destructor and of a [begin] that fails are taken to succeed. *)
Theorem transactions_tracked (w : world) :
  reachable w →
  (∀ t, thread_txn t (s_tracker (w_sys w)) = n_active (s_native (w_sys w)) !! t) ∧
  handles w = cnt registered (w_objs w) ∧
  (∀ p t, n_live (s_native (w_sys w)) !! p = Some t ↔
     ∃ o g, w_objs w !! o = Some g ∧ g_owner g = t ∧ m_txn (g_tx g) = Some p) ∧
  (∀ o o' g g' p, w_objs w !! o = Some g → w_objs w !! o' = Some g' →
     m_txn (g_tx g) = Some p → m_txn (g_tx g') = Some p → o = o') ∧
  (∀ o o' g g', w_objs w !! o = Some g → w_objs w !! o' = Some g' → g_owner g = g_owner g' →
     m_started (g_tx g) = true → m_started (g_tx g') = true → o = o') ∧
  (∀ rc, w_env w = true → w_env (disconnect rc w).2 = false → n_live (s_native (w_sys w)) = ∅).
Proof.
  intros Hi%reachable_inv. pose proof (i_core _ Hi) as [Hc Hl Hb]. split_and!.
  - intros t. unfold thread_txn. by rewrite Hb.
  - apply Hc.
  - intros p t. by apply reachable_live.
  - apply (l_inj _ _ Hl).
  - intros o o' g g' Ho Ho' Ht Hs Hs'. destruct (go_started _ _ (l_obj _ _ Hl _ _ Ho) Hs) as (p & Ep & Ha).
    eapply (active_one _ _ o' o g' g); try done. destruct (go_started _ _ (l_obj _ _ Hl _ _ Ho') Hs') as (q & Eq & Hq). congruence.
  - intros rc He E. apply no_handles_no_live; [done|]. unfold disconnect, cleanup, has_txn_handles in E.
    fold (handles w) in E. destruct (Z.eqb_spec (handles w) 0) as [|]; [done|]. simpl in E. congruence.
Qed.

(** When every guard is gone nothing is left behind: no native transaction, no thread
    bound to one, and no handle counted. *)
Theorem guards_leave_nothing (w : world) :
  reachable w → w_objs w = ∅ →
  s_tracker (w_sys w) = no_tracker ∧ s_native (w_sys w) = {| n_live := ∅; n_active := ∅ |}.
Proof.
  intros Hi%reachable_inv Ho. pose proof (i_core _ Hi) as [[C1 C2 C3] Hl Hb]. rewrite Ho in *.
  assert (n_active (s_native (w_sys w)) = ∅) as Ha.
  { apply map_empty. intros t. destruct (_ !! t) as [p|] eqn:E; [|done].
    destruct (l_active _ _ Hl t p E) as (? & ? & ? & _). done. }
  split; [apply tracker_same|apply native_same]; simpl; [by rewrite Hb| |by rewrite C1|apply no_handles_no_live; [done|by unfold handles; rewrite C1]|done].
  apply map_empty. intros t. destruct (_ !! t) as [c|] eqn:E; [|done]. exfalso.
  specialize (C3 t c E). specialize (C2 t). rewrite E in C2. vm_compute in C2. lia.
Qed.

(** Disconnecting closes the environment only when no native transaction exists; while
    some guard holds a handle or a reservation it is refused with [MDBX_BUSY] and changes
    nothing. *)
Theorem disconnect_safe (rc : Z) (w : world) :
  reachable w →
  let '(r, w') := disconnect rc w in
  w_sys w' = w_sys w ∧ w_objs w' = w_objs w ∧
  (r = Ok tt → w_env w' = false ∧ n_live (s_native (w_sys w')) = ∅) ∧
  (∀ o g, w_objs w !! o = Some g → registered g = true →
     r = Throw (MdbxException "Cannot disconnect while transaction handles are open." RC_BUSY) ∧ w' = w).
Proof.
  intros Hi%reachable_inv. unfold disconnect, cleanup, has_txn_handles.
  destruct (Z.eqb_spec (m_open_txn_handles (s_tracker (w_sys w))) 0) as [E|E]; simpl.
  - assert (∀ o g, w_objs w !! o = Some g → registered g = true → False) as Hno.
    { intros o g Ho Hr. rewrite (c_open _ _ (c_counters _ _ (i_core _ Hi))) in E. pose proof (cnt_pos _ _ _ _ Ho Hr). lia. }
    pose proof (no_handles_no_live _ Hi E) as Hl.
    destruct (w_env w) eqn:Ee; [destruct (rc =? RC_SUCCESS)|]; simpl; (split_and!; [done..| |naive_solver]); try done.
  - split_and!; done.
Qed.

(** *** Shutting down *)

Lemma handles_guard o f w g r tx' s' :
  w_objs w !! o = Some g → f (g_tx g) (w_sys w) = (r, tx', s') →
  effect (g_owner g) (g_tx g) (w_sys w) tx' s' →
  m_handle_registered (g_tx g) = true ∨ (m_txn (g_tx g) = None → m_txn tx' = None) →
  handles (on_guard o f w).2 ≤ handles w.
Proof. intros Ho Hf He Hn. erewrite on_guard_eq by done. unfold handles. simpl. by eapply effect_handles. Qed.

Lemma handles_commit t hook rc o g w :
  w_objs w !! o = Some g → g_owner g = t → handles (on_guard o (commit t hook rc) w).2 ≤ handles w.
Proof.
  intros Ho <-. destruct (commit (g_owner g) hook rc (g_tx g) (w_sys w)) as [[r tx'] s'] eqn:E.
  eapply handles_guard; [done|exact E|by eapply commit_effect|]. right. intros En.
  pose proof (commit_keeps_none (g_owner g) hook rc (g_tx g) (w_sys w) En) as Hk. rewrite E in Hk. simpl in Hk. congruence.
Qed.

Lemma handles_rollback t rc o g w :
  w_objs w !! o = Some g → g_owner g = t → handles (on_guard o (rollback t rc) w).2 ≤ handles w.
Proof.
  intros Ho <-. destruct (rollback (g_owner g) rc (g_tx g) (w_sys w)) as [[r tx'] s'] eqn:E.
  eapply handles_guard; [done|exact E|by eapply rollback_effect|]. right. intros En.
  pose proof (rollback_keeps_none (g_owner g) rc (g_tx g) (w_sys w) En) as Hk. rewrite E in Hk. simpl in Hk. congruence.
Qed.

Lemma erase_fields t o w :
  let w' := erase_manual_transaction_if_current t o w in
  w_env w' = w_env w ∧ w_shutdown w' = w_shutdown w ∧ handles w' = handles w.
Proof. unfold erase_manual_transaction_if_current. by destruct (bool_decide _). Qed.

Lemma end_manual_fields t f w :
  inv w → (∀ o g, w_manual w !! t = Some o → w_objs w !! o = Some g → g_owner g = t → handles (on_guard o f w).2 ≤ handles w) →
  let w' := (end_manual t f w).2 in
  w_env w' = w_env w ∧ w_shutdown w' = w_shutdown w ∧ handles w' ≤ handles w.
Proof.
  intros Hi Hf. unfold end_manual. destruct (w_manual w !! t) as [o|] eqn:Em; [|done].
  destruct (i_manual _ Hi _ _ Em) as (g & Ho & Ht). specialize (Hf o g eq_refl Ho Ht).
  destruct (on_guard_fields o f w) as (F1 & F2 & _). destruct (on_guard o f w) as [r w'].
  simpl in *. destruct (erase_fields t o w') as (-> & -> & ->). auto.
Qed.

Lemma handles_finish t c o manual g w :
  inv w → w_pending w !! t = Some (o, manual) → w_objs w !! o = Some g →
  begin_ok t c (g_tx g) (s_native (w_sys w)) →
  let w' := (finish t c w).2 in
  w_env w' = w_env w ∧ w_shutdown w' = w_shutdown w ∧ handles w' ≤ handles w.
Proof.
  intros Hi Hp Ho Hb. destruct (i_pending _ Hi _ _ _ Hp) as (g' & Ho' & <- & Hr). assert (g' = g) as -> by congruence.
  unfold finish. rewrite Hp. set (w1 := with_pending w (delete (g_owner g) (w_pending w))).
  destruct (begin (g_owner g) c (g_tx g) (w_sys w1)) as [[r tx'] s'] eqn:E.
  pose proof (go_registry _ _ (l_obj _ _ (c_links _ _ (i_core _ Hi)) _ _ Ho) Hr) as Hreg.
  pose proof (begin_effect _ _ _ _ _ _ _ _ (i_core _ Hi) Ho Hreg Hb E) as Heff.
  erewrite (on_guard_eq o) by done.
  assert (m_open_txn_handles (s_tracker s') ≤ handles w) as Hle by (eapply effect_handles; [exact Heff|by left]).
  destruct r as [u|e]; simpl; [destruct manual; [destruct (w_manual w !! g_owner g)|]|]; (split_and!; [reflexivity|reflexivity|exact Hle]).
Qed.

Ltac same_handles := unfold handles; simpl; split; [lia|auto].

Lemma drains_step w w' :
  inv w → w_shutdown w = true → step Other w w' →
  handles w' ≤ handles w ∧ (w_shutdown w' = true ∨ w_env w' = false).
Proof.
  intros Hi Hs Hst. pose proof (i_shutdown _ Hi Hs) as He. remember Other as l eqn:El. destruct Hst; try done.
  - unfold reserve. rewrite Hs. same_handles.
  - edestruct (handles_finish t c o manual g w) as (? & -> & ?); try done. auto.
  - destruct (on_guard_fields o (commit t hook rc) w) as (_ & -> & _). split; [by eapply handles_commit|auto].
  - destruct (on_guard_fields o (rollback t rc) w) as (_ & -> & _). split; [by eapply handles_rollback|auto].
  - unfold conn_commit. destruct (end_manual_fields t (commit t hook rc) w) as (_ & -> & ?); [done| |auto].
    intros o' g' Hm Ho' Ht'. by eapply handles_commit.
  - unfold conn_rollback. destruct (end_manual_fields t (rollback t rc) w) as (_ & -> & ?); [done| |auto].
    intros o' g' Hm Ho' Ht'. by eapply handles_rollback.
  - subst t. unfold destroy. match goal with H : w_objs w !! o = Some g |- _ => rename H into Ho end. rewrite Ho.
    destruct (release (g_owner g) RC_SUCCESS (g_tx g) (w_sys w)) as [tx' s'] eqn:E.
    destruct (release_effect _ _ _ _ _ _ (i_core _ Hi) Ho E) as (E1 & E2 & Heff).
    split; [|by left]. unfold handles. simpl. eapply effect_handles; [exact Heff|by right].
  - unfold move. destruct (w_objs w !! o); same_handles.
  - unfold request_shutdown. rewrite He. simpl. destruct (current_thread_has_txn_handle _ _); same_handles.
  - unfold disconnect, cleanup. destruct (has_txn_handles _); [same_handles|]. simpl. rewrite He.
    destruct (rc =? RC_SUCCESS); same_handles.
  - unfold connect. rewrite He. same_handles.
Qed.

(** Starting a guard again adds one handle at most. *)
Lemma restart_handles w w' :
  inv w → step Restart w w' →
  (handles w' ≤ handles w ∨ handles w' = handles w + 1) ∧ w_env w' = w_env w ∧ w_shutdown w' = w_shutdown w.
Proof.
  intros Hi Hst. remember Restart as l eqn:El. destruct Hst; try done.
  match goal with H : w_objs w !! o = Some g |- _ => rename H into Ho end. subst t.
  destruct (begin (g_owner g) c (g_tx g) (w_sys w)) as [[r tx'] s'] eqn:E.
  pose proof (begin_effect _ _ _ _ _ _ _ _ (i_core _ Hi) Ho ltac:(done) ltac:(done) E) as Heff.
  erewrite on_guard_eq by done. split; [|done]. unfold handles. simpl.
  destruct (decide (m_handle_registered (g_tx g) = true ∨ (m_txn (g_tx g) = None → m_txn tx' = None))) as [Hd|Hd].
  { left. by eapply effect_handles. }
  right. inversion Heff; subst; try (exfalso; apply Hd; right; intros; simpl in *; congruence).
  destruct (m_handle_registered (g_tx g)) eqn:Eh; [exfalso; apply Hd; by left|].
  match goal with H : s_tracker s' = _ |- _ => rewrite H end. done.
Qed.

(** C29: once shutdown is requested, no step adds a handle except starting an existing
    guard again, which may add one; the request stays in force until the environment is
    closed, and whenever no handle is left disconnecting succeeds. *)
Theorem shutdown_drains (l : label) (w w' : world) :
  reachable w → w_shutdown w = true → step l w w' →
  (handles w' ≤ handles w ∨ l = Restart ∧ handles w' = handles w + 1) ∧
  (w_shutdown w' = true ∨ w_env w' = false) ∧
  (handles w' = 0 → w_env (disconnect RC_SUCCESS w').2 = false).
Proof.
  intros Hi%reachable_inv Hs Hst.
  assert ((handles w' ≤ handles w ∨ l = Restart ∧ handles w' = handles w + 1) ∧ (w_shutdown w' = true ∨ w_env w' = false))
    as [Hle Hsd].
  { destruct l; [destruct (restart_handles _ _ Hi Hst) as (? & _ & ->)|destruct (drains_step _ _ Hi Hs Hst)]; naive_solver. }
  split_and!; [done..|].
  intros H0. unfold disconnect, cleanup, has_txn_handles. unfold handles in H0. rewrite H0. simpl.
  destruct (w_env w') eqn:E; [done|]. simpl. done.
Qed.

Lemma begin_throw t c tx s e tx' s' :
  begin t c tx s = (Throw e, tx', s') →
  m_started tx = false ∧ m_started tx' = false ∧ (m_txn tx = None → m_handle_registered tx' = false).
Proof.
  unfold begin. destruct (m_started tx) eqn:Es; [done|]. intros E. split_and!; [done|..].
  - repeat (case_match; simplify_eq; try done).
  - intros En. rewrite En in E. destruct (m_handle_registered tx) eqn:Eh; simpl in E; repeat (case_match; simplify_eq; try done).
Qed.

Lemma begin_throw_txn t c tx s e tx' s' p :
  begin t c tx s = (Throw e, tx', s') → m_txn tx = Some p → m_mode tx = READ_ONLY → m_txn tx' = Some p.
Proof.
  unfold begin. intros E Ep Em. rewrite Ep, Em in E. destruct (m_started tx); [done|].
  rewrite bool_decide_false, andb_false_r in E by done. simpl in E. repeat (case_match; simplify_eq; try done).
Qed.

(** A begin that fails leaves no trace: the guard is not started, the native transactions
    and the thread's binding are as before, and a handle reserved for it is given back. *)
Theorem begin_failure_clean (w : world) (t : tid) (c : begin_codes) (o : nat) (g : guard) (e : exn)
    (tx' : transaction) (s' : sys) :
  reachable w → w_objs w !! o = Some g → g_owner g = t → m_registry (g_tx g) = true →
  begin_ok t c (g_tx g) (s_native (w_sys w)) → begin t c (g_tx g) (w_sys w) = (Throw e, tx', s') →
  m_started tx' = false ∧ m_txn tx' = m_txn (g_tx g) ∧ s_native s' = s_native (w_sys w) ∧
  m_thread_txns (s_tracker s') = m_thread_txns (s_tracker (w_sys w)) ∧
  m_open_txn_handles (s_tracker s') =
    handles w - Z.b2z (m_handle_registered (g_tx g) && bool_decide (m_txn (g_tx g) = None)).
Proof.
  intros Hi%reachable_inv Ho <- Hr Hb E. pose proof (i_core _ Hi) as Hc.
  pose proof (begin_effect _ _ _ _ _ _ _ _ Hc Ho Hr Hb E) as Heff. destruct (begin_throw _ _ _ _ _ _ _ E) as (Hns & Hns' & Hgone).
  assert (m_handle_registered (g_tx g) = true → 0 < handles w) as Hpos.
  { intros Hreg. unfold handles. rewrite (c_open _ _ (c_counters _ _ Hc)). by eapply cnt_pos. }
  pose proof (go_writable _ _ (l_obj _ _ (c_links _ _ Hc) _ _ Ho)) as Hw.
  inversion Heff as [? Et En|? ? ? ? ? ?|? ? ? ? ? ?|? ? ? Hs|? ? En Hreg E1 E2 E3 Et Enn|? ? ? Ep E1 E2 E3 Et Enn|? ? En Hreg E1 E2 E3 Et Enn]; subst;
    simpl in *; try congruence.
  - rewrite Et, En. split_and!; [done..|]. unfold handles. case_bool_decide as E0; [|rewrite andb_false_r; simpl; lia].
    rewrite (Hgone E0). simpl. lia.
  - rewrite Et, Enn, E1, En, Hreg. rewrite bool_decide_true by done. split_and!; [done..|]. specialize (Hpos Hreg). simpl.
    unfold handles in *. destruct (Z.gtb_spec (m_open_txn_handles (s_tracker (w_sys w))) 0); lia.
  - exfalso. pose proof (begin_throw_txn _ _ _ _ _ _ _ p E Ep) as Hk. destruct (m_mode (g_tx g)).
    + by rewrite Hk in E1.
    + rewrite (Hw p eq_refl Ep) in Hns. done.
  - rewrite Et, Enn, E1, En, Hreg. simpl. split_and!; [done..|]. unfold handles. lia.
Qed.


(** ** Runs *)

(** Thread 1 begins, commits and keeps a writable guard; thread 2 then requests shutdown. *)
Definition good_begin (p : ptr) : begin_codes :=
  {| bc_rc := RC_SUCCESS; bc_txn := p; bc_cleanup := RC_SUCCESS; bc_alloc := AllocOk |}.

Definition run_connected : world := connect initial.
Definition run_reserved : world := (reserve 1 WRITABLE false 0 run_connected).2.
Definition run_started : world := (finish 1 (good_begin 7) run_reserved).2.
Definition run_committed : world := (on_guard 0 (commit 1 (Ok tt) RC_SUCCESS) run_started).2.
Definition run_shutdown : world := (request_shutdown 2 run_committed).2.

Lemma next_other w w' : step Other w w' → next w w'.
Proof. intros. by exists Other. Qed.

Lemma run_reserved_reachable : reachable run_reserved.
Proof.
  eapply rtc_l; [apply next_other, step_connect|]. eapply rtc_l; [|apply rtc_refl].
  apply next_other, step_reserve; reflexivity.
Qed.

Lemma run_started_reachable : reachable run_started.
Proof.
  eapply rtc_r; [apply run_reserved_reachable|]. apply next_other. eapply step_finish; [reflexivity..|]. split; done.
Qed.

Lemma run_committed_reachable : reachable run_committed.
Proof.
  eapply rtc_r; [apply run_started_reachable|]. apply next_other. by eapply step_commit.
Qed.

Lemma run_shutdown_reachable : reachable run_shutdown.
Proof. eapply rtc_r; [apply run_committed_reachable|]. apply next_other, step_request_shutdown. reflexivity. Qed.


Lemma transactions_tracked_witness :
  thread_txn 1 (s_tracker (w_sys run_started)) = Some 7 ∧
  (∀ t, thread_txn t (s_tracker (w_sys run_started)) = n_active (s_native (w_sys run_started)) !! t).
Proof.
  split; [reflexivity|]. destruct (transactions_tracked run_started) as [H _]; [apply run_started_reachable|exact H].
Defined.

Definition run_empty : world := destroy 1 0 RC_SUCCESS run_started.

Lemma run_empty_reachable : reachable run_empty.
Proof.
  eapply rtc_r; [apply run_started_reachable|]. apply next_other. eapply step_destroy; [reflexivity..|]. done.
Qed.

Lemma guards_leave_nothing_witness :
  s_tracker (w_sys run_empty) = no_tracker ∧ s_native (w_sys run_empty) = {| n_live := ∅; n_active := ∅ |}.
Proof. apply (guards_leave_nothing run_empty); [apply run_empty_reachable|reflexivity]. Defined.

Lemma disconnect_safe_witness :
  (disconnect RC_SUCCESS run_started).2 = run_started ∧ w_env (disconnect RC_SUCCESS run_committed).2 = false.
Proof.
  pose proof (disconnect_safe RC_SUCCESS run_started run_started_reachable) as H1.
  pose proof (disconnect_safe RC_SUCCESS run_committed run_committed_reachable) as H2.
  destruct (disconnect RC_SUCCESS run_started) as [r1 w1] eqn:E1, (disconnect RC_SUCCESS run_committed) as [r2 w2] eqn:E2.
  split; simpl.
  - destruct H1 as (_ & _ & _ & H1). by eapply (H1 0%nat).
  - destruct H2 as (_ & _ & H2 & _). apply H2. assert (r2 = (disconnect RC_SUCCESS run_committed).1) as -> by by rewrite E2.
    reflexivity.
Defined.

Lemma shutdown_drains_witness :
  let w' := destroy 1 0 RC_SUCCESS run_shutdown in
  (handles w' ≤ handles run_shutdown ∨ Other = Restart ∧ handles w' = handles run_shutdown + 1) ∧
  (w_shutdown w' = true ∨ w_env w' = false) ∧
  (handles w' = 0 → w_env (disconnect RC_SUCCESS w').2 = false).
Proof.
  apply (shutdown_drains Other run_shutdown); [apply run_shutdown_reachable|reflexivity|].
  eapply step_destroy; [reflexivity..|]. done.
Defined.





Definition failing_begin : begin_codes :=
  {| bc_rc := RC_SUCCESS; bc_txn := 7; bc_cleanup := RC_SUCCESS; bc_alloc := BindFails |}.

Lemma begin_failure_clean_witness :
  let g := {| g_owner := 1; g_tx := new_transaction WRITABLE |} in
  let '(_, tx', s') := begin 1 failing_begin (g_tx g) (w_sys run_reserved) in
  m_started tx' = false ∧ m_txn tx' = m_txn (g_tx g) ∧ s_native s' = s_native (w_sys run_reserved) ∧
  m_thread_txns (s_tracker s') = m_thread_txns (s_tracker (w_sys run_reserved)) ∧
  m_open_txn_handles (s_tracker s') =
    handles run_reserved - Z.b2z (m_handle_registered (g_tx g) && bool_decide (m_txn (g_tx g) = None)).
Proof.
  apply (begin_failure_clean run_reserved 1 failing_begin 0 {| g_owner := 1; g_tx := new_transaction WRITABLE |} bad_alloc);
    [apply run_reserved_reachable|reflexivity|reflexivity|reflexivity|split; done|reflexivity].
Defined.
