(* ===== verification/TableBase.v ===== *)
(** * Typed tables

    What the table classes share: values as an interface, the typed content of a table
    with its order, and walks over a range of keys with a cursor.  A table with keys of type
    [kt] holds the finite map [μ] when its records are the stored forms of the pairs of [μ];
    the records in the order of the table are then the pairs of [μ] in key order. *)
From S2P Require Import Prelude SyncCommon KeyCodec ValueCodec Mdbx StoreBase.
Open Scope Z_scope.

(** ** Values

    [serialize_value] and [deserialize_value] are overloaded on the value type of a table. *)
Class TableValue (V : Type) : Type := {
  serialize_value : V → bytes;
  deserialize_value : bytes → result V;
  value_ok : V → Prop;
  value_decodes v : value_ok v → deserialize_value (serialize_value v) = Ok v;
}.

(** Byte strings ([std::string], [std::vector] of bytes) are stored as they are. *)
#[export] Instance bytes_value : TableValue bytes :=
  {| serialize_value v := v; deserialize_value x := Ok x; value_ok _ := True; value_decodes v _ := eq_refl |}.

(** The limit of the configuration for values of tables with duplicates; 0 is none. *)
Definition check_dupsort_value_size (max_dupsort_value_size : Z) (value : bytes) : result unit :=
  throw_if ((max_dupsort_value_size >? 0) && (size_of value >? max_dupsort_value_size))
    (length_error "MDBX_DUPSORT duplicate value is too large. Use a large-value layout or increase Config::max_dupsort_value_size.").

(** ** Typed content *)

Section Content.
Context (kt : key_type) {V : Type} `{!TableValue V}.
Abbreviation K := (key_val kt).
Abbreviation fl := (get_mdbx_flags kt).

(** The keys a table can hold: valid, canonical and not a NaN. *)
Definition good_key (k : K) : Prop :=
  key_ok kt k ∧ key_canonical kt k = k ∧ is_ok (serialize_key kt k) = true.

Definition stored (k : K) : bytes := match serialize_key kt k with Ok b => b | Throw _ => [] end.

(** The place of a key in the order of the table. *)
Definition rank (k : K) : bytes := sort_key fl (stored k).

Record holds_map (m : gmap bytes bytes) (μ : gmap K V) : Prop := {
  hm_good : map_Forall (fun k v => good_key k ∧ value_ok v) μ;
  hm_recs b x : m !! b = Some x ↔ ∃ k v, μ !! k = Some v ∧ b = stored k ∧ x = serialize_value v;
}.

Lemma good_stored k : good_key k → serialize_key kt k = Ok (stored k).
Proof. intros (_ & _ & H). unfold stored. by destruct (serialize_key kt k). Qed.

Lemma good_canonical k b : key_ok kt k → serialize_key kt k = Ok b → good_key (key_canonical kt k).
Proof.
  intros Hk Hb. split_and!; [by apply canonical_ok|apply canonical_idemp|]. by rewrite canonical_stored, Hb.
Qed.

Lemma stored_canonical k b : key_ok kt k → serialize_key kt k = Ok b → stored (key_canonical kt k) = b.
Proof. intros Hk Hb. unfold stored. by rewrite canonical_stored, Hb. Qed.

Lemma stored_inj a b : good_key a → good_key b → stored a = stored b → a = b.
Proof.
  intros Ha Hb E. pose proof (good_stored a Ha) as Ea. pose proof (good_stored b Hb) as Eb. rewrite E in Ea.
  destruct Ha as (Ha & <- & _), Hb as (Hb & <- & _). by eapply stored_key_inj.
Qed.

Lemma rank_inj a b : good_key a → good_key b → rank a = rank b → a = b.
Proof. intros Ha Hb E. by apply stored_inj; [..|eapply sort_key_inj]. Qed.

Lemma decode_key `{!KeyReadable kt} k : good_key k → deserialize_key kt (stored k) = Ok k.
Proof.
  intros Hk. pose proof (good_stored k Hk) as E. destruct Hk as (Hk & Ec & _).
  apply decode_stored_key in E; [|done..]. by rewrite E, Ec.
Qed.

Section Holds.
Context (m : gmap bytes bytes) (μ : gmap K V) (H : holds_map m μ).

Lemma holds_good k v : μ !! k = Some v → good_key k ∧ value_ok v.
Proof. apply (hm_good _ _ H). Qed.

Lemma holds_lookup k : good_key k → m !! stored k = serialize_value <$> μ !! k.
Proof.
  intros Hk. apply option_eq. intros x. rewrite (hm_recs _ _ H), fmap_Some. split.
  - intros (k' & v & Hv & E & ->). destruct (holds_good _ _ Hv) as [Hk' _].
    apply stored_inj in E as <-; eauto.
  - intros (v & Hv & ->). eauto.
Qed.

(** Lookup with any key, also a negative zero. *)
Lemma holds_lookup_key k b :
  key_ok kt k → serialize_key kt k = Ok b → m !! b = serialize_value <$> μ !! key_canonical kt k.
Proof.
  intros Hk Hb. rewrite <- holds_lookup by by eapply good_canonical.
  by rewrite (stored_canonical _ _ Hk Hb).
Qed.

Lemma holds_insert k v b :
  key_ok kt k → serialize_key kt k = Ok b → value_ok v →
  holds_map (<[b := serialize_value v]> m) (<[key_canonical kt k := v]> μ).
Proof.
  intros Hk Hb Hv. pose proof (good_canonical _ _ Hk Hb) as Hg. rewrite <- (stored_canonical _ _ Hk Hb).
  set (k' := key_canonical kt k) in *. split.
  - apply map_Forall_insert_2; [done|apply H].
  - intros b' x. destruct (decide (b' = stored k')) as [->|Hne].
    + rewrite lookup_insert_eq. split.
      * intros [= <-]. exists k', v. by rewrite lookup_insert_eq.
      * intros (k2 & v2 & Hl & E & ->). destruct (decide (k2 = k')) as [->|Hne].
        { rewrite lookup_insert_eq in Hl. by injection Hl as ->. }
        rewrite lookup_insert_ne in Hl by done. destruct (holds_good _ _ Hl).
        exfalso. apply Hne. by apply stored_inj.
    + rewrite lookup_insert_ne by done. rewrite (hm_recs _ _ H). split; intros (k2 & v2 & Hl & -> & ->); exists k2, v2.
      * by rewrite lookup_insert_ne by congruence.
      * rewrite lookup_insert_ne in Hl by congruence. done.
Qed.

Lemma holds_delete k : good_key k → holds_map (delete (stored k) m) (delete k μ).
Proof.
  intros Hk. split; [apply map_Forall_delete, H|]. intros b x. rewrite lookup_delete_Some, (hm_recs _ _ H). split.
  - intros [Hne (k' & v & Hv & -> & ->)]. exists k', v. rewrite lookup_delete_ne by congruence. done.
  - intros (k' & v & Hv & -> & ->). apply lookup_delete_Some in Hv as [Hne Hv]. split; [|by eauto].
    intros E. apply Hne. destruct (holds_good _ _ Hv). by apply stored_inj.
Qed.
End Holds.

Lemma holds_empty : holds_map ∅ ∅.
Proof.
  split; [apply map_Forall_empty|]. intros b x. rewrite lookup_empty. split; [done|].
  intros (k & v & Hv & _). by rewrite lookup_empty in Hv.
Qed.

(** ** Pairs in key order *)

Definition pair_le (p q : K * V) : Prop := bytes_le (rank p.1) (rank q.1).
#[export] Instance pair_le_dec : RelDecision pair_le := fun p q => bytes_le_dec (rank p.1) (rank q.1).
#[export] Instance pair_le_total : Total pair_le.
Proof. intros p q. apply bytes_le_total. Qed.
#[export] Instance pair_le_trans : Transitive pair_le.
Proof. intros p q r. apply bytes_le_trans. Qed.

(** The content as an ordered sequence, and the part of it whose keys satisfy [P]. *)
Definition pairs (μ : gmap K V) : list (K * V) := merge_sort pair_le (map_to_list μ).
Definition pairs_where (μ : gmap K V) (P : bytes → Prop) `{∀ k, Decision (P k)} : list (K * V) :=
  filter (fun p => P (rank p.1)) (pairs μ).

(** The record of a pair, under the place of its key. *)
Definition record_of (p : K * V) : bytes * bytes := (rank p.1, serialize_value p.2).

Lemma elem_of_pairs μ k v : (k, v) ∈ pairs μ ↔ μ !! k = Some v.
Proof. unfold pairs. by rewrite merge_sort_Permutation, elem_of_map_to_list. Qed.

Lemma elem_of_pairs_where μ P `{∀ k, Decision (P k)} p : p ∈ pairs_where μ P → p ∈ pairs μ.
Proof. intros Hp. by apply list_elem_of_filter in Hp as [_ ?]. Qed.

Lemma pairs_where_ext μ P Q `{∀ k, Decision (P k), ∀ k, Decision (Q k)} :
  (∀ k, P k ↔ Q k) → pairs_where μ P = pairs_where μ Q.
Proof. intros HPQ. unfold pairs_where. apply list_filter_iff. intros p. apply HPQ. Qed.

Lemma pairs_good m μ : holds_map m μ → Forall (fun p => good_key p.1 ∧ value_ok p.2) (pairs μ).
Proof.
  intros H. apply Forall_forall. intros [k v] Hp%elem_of_pairs. by apply (holds_good m μ H).
Qed.

Lemma NoDup_ranks (l : list (K * V)) : NoDup l.*1 → Forall (fun p => good_key p.1) l → NoDup ((rank ∘ fst) <$> l).
Proof.
  induction l as [|p l IH]; [constructor|]. rewrite !fmap_cons, !NoDup_cons, Forall_cons.
  intros [Hp Hl] [Hg Hgl]. split; [|by apply IH]. intros (q & E & Hq)%list_elem_of_fmap. apply Hp.
  rewrite Forall_forall in Hgl. apply rank_inj in E; [|done|by apply Hgl]. rewrite E. by apply list_elem_of_fmap_2.
Qed.

Lemma pairs_sorted m μ : holds_map m μ → StronglySorted (fun p q => bytes_lt (rank p.1) (rank q.1)) (pairs μ).
Proof.
  intros H. apply (sorted_strict (rank ∘ fst)).
  - apply NoDup_ranks.
    + unfold pairs. rewrite merge_sort_Permutation. apply NoDup_fst_map_to_list.
    + eapply Forall_impl; [by eapply pairs_good|]. naive_solver.
  - apply (Sorted_StronglySorted pair_le). apply (Sorted_merge_sort pair_le).
Qed.

Lemma StronglySorted_map {A B} (R : relation A) (S : relation B) (f : A → B) l :
  (∀ a b, R a b → S (f a) (f b)) → StronglySorted R l → StronglySorted S (f <$> l).
Proof.
  intros Hf. induction 1 as [|a l _ IH Ha]; [constructor|]. constructor; [done|].
  apply Forall_fmap. eapply Forall_impl; [exact Ha|]. intros b. apply Hf.
Qed.

Lemma holds_sorted m μ : holds_map m μ → sorted_recs (kmap (sort_key fl) m) = record_of <$> pairs μ.
Proof.
  intros H. apply strict_sorted_unique; [apply sorted_recs_sorted| |].
  - eapply StronglySorted_map, (pairs_sorted m μ H). done.
  - intros [b x]. rewrite elem_of_sorted_recs, lookup_kmap_Some by apply _. rewrite list_elem_of_fmap. split.
    + intros (b' & -> & (k & v & Hv & -> & ->)%(hm_recs _ _ H)). exists (k, v). by rewrite elem_of_pairs.
    + intros ([k v] & [= -> ->] & Hp%elem_of_pairs). exists (stored k). split; [done|]. apply (hm_recs _ _ H). eauto.
Qed.

Lemma filter_map {A B} (f : A → B) (P : B → Prop) `{∀ b, Decision (P b)} (l : list A) :
  filter P (f <$> l) = f <$> filter (fun a => P (f a)) l.
Proof.
  induction l as [|a l IH]; [done|]. rewrite fmap_cons, !filter_cons, IH. by case_decide.
Qed.

(** The records of a range are the pairs of the range. *)
Lemma holds_where m μ P `{∀ k, Decision (P k)} :
  holds_map m μ → recs_where (kmap (sort_key fl) m) P = record_of <$> pairs_where μ P.
Proof.
  intros Hm. unfold recs_where, pairs_where. by rewrite (holds_sorted m μ Hm), filter_map.
Qed.

Lemma holds_size m μ : holds_map m μ → size m = size μ.
Proof.
  intros H. pose proof (f_equal length (holds_sorted m μ H)) as E.
  unfold sorted_recs, pairs in E. rewrite length_fmap, !merge_sort_Permutation, length_map_to_list in E.
  rewrite length_map_to_list in E.
  by rewrite <- E, <- !length_map_to_list, map_to_list_kmap, length_fmap by apply _.
Qed.

(** Reading the record of a pair gives the pair. *)
Lemma record_decodes `{!KeyReadable kt} p :
  good_key p.1 → value_ok p.2 →
  deserialize_key kt (sort_key fl (record_of p).1) = Ok p.1 ∧ deserialize_value (record_of p).2 = Ok p.2.
Proof.
  intros Hk Hv. unfold record_of, rank. cbn [fst snd]. rewrite sort_key_involutive.
  split; [by apply decode_key|by apply value_decodes].
Qed.

Lemma stored_width k : good_key k → length (stored k) = key_width kt ∨ fl = 0.
Proof.
  intros Hk. destruct (stored_key_width kt k (stored k) (proj1 Hk) (good_stored k Hk)) as [|(_ & ? & _)]; auto.
Qed.

Lemma holds_sized m μ : holds_map m μ → recs_sized (mk_dbi fl m) (key_width kt).
Proof.
  intros H. destruct (key_width_cases kt) as [E|[E Hw]]; [by left|right]. split_and!; [done|done|].
  intros b x (k & v & Hv & -> & ->)%(hm_recs _ _ H). destruct (holds_good _ _ H _ _ Hv) as [Hk _].
  destruct (stored_width k Hk) as [|E0]; [done|]. by rewrite E in E0.
Qed.

Lemma filter_all {A} (P : A → Prop) `{∀ a, Decision (P a)} (l : list A) : (∀ a, a ∈ l → P a) → filter P l = l.
Proof.
  induction l as [|a l IH]; intros Hl; [done|]. rewrite filter_cons, decide_True by (apply Hl; left).
  f_equal. apply IH. intros b Hb. apply Hl. by right.
Qed.

(** Moving to the first pair of an upward-closed range leaves the pairs after it. *)
Lemma sorted_first P `{∀ k, Decision (P k)} (l : list (K * V)) p rest :
  StronglySorted (fun p q => bytes_lt (rank p.1) (rank q.1)) l → (∀ a b, P a → bytes_le a b → P b) →
  filter (fun q => P (rank q.1)) l = p :: rest → rest = filter (fun q => bytes_lt (rank p.1) (rank q.1)) l.
Proof.
  intros Hs Hup. revert p rest. induction Hs as [|a l Hs IH Ha]; intros p rest; [done|].
  rewrite !filter_cons. rewrite Forall_forall in Ha. case_decide as HP.
  - intros [= <- <-]. rewrite decide_False by apply bytes_lt_irrefl.
    rewrite !filter_all; [done|auto|]. intros q Hq.
    eapply Hup; [exact HP|]. by apply bytes_lt_le, Ha.
  - intros E. rewrite decide_False; [by apply IH|]. intros Hlt. apply (bytes_lt_irrefl (rank p.1)).
    eapply bytes_lt_trans; [exact Hlt|]. apply Ha. assert (p ∈ filter (fun q => P (rank q.1)) l) as Hp by (rewrite E; left).
    by apply list_elem_of_filter in Hp as [_ ?].
Qed.

Lemma sorted_last P `{∀ k, Decision (P k)} (l : list (K * V)) p rest :
  StronglySorted (fun p q => bytes_lt (rank p.1) (rank q.1)) l → (∀ a b, P b → bytes_le a b → P a) →
  filter (fun q => P (rank q.1)) l = rest ++ [p] → rest = filter (fun q => bytes_lt (rank q.1) (rank p.1)) l.
Proof.
  intros Hs Hdown. revert p rest. induction l as [|a l IH] using rev_ind; intros p rest E.
  { by destruct rest. }
  apply StronglySorted_app in Hs as (Ha & Hs & _). rewrite filter_app, filter_cons, filter_nil in E |- *.
  case_decide as HP.
  - apply app_inj_tail in E as [<- ->]. rewrite (decide_False (P := bytes_lt _ _)) by apply bytes_lt_irrefl.
    rewrite app_nil_r, !filter_all; [done|..]; intros q Hq.
    + apply Ha; [done|left].
    + eapply Hdown; [exact HP|]. apply bytes_lt_le, Ha; [done|left].
  - rewrite app_nil_r in E. assert (p ∈ filter (fun q => P (rank q.1)) l) as Hp by (rewrite E; set_solver).
    apply list_elem_of_filter in Hp as [_ Hp]. rewrite decide_False, app_nil_r; [by apply IH|].
    intros Hlt. eapply bytes_lt_irrefl, bytes_lt_trans; [exact Hlt|]. by apply Ha; [|left].
Qed.
End Content.

(** ** Walking a range with a cursor *)

Section Walk.
Context {X : Mdbx}.

Definition open_cursor (dbi : Z) : M cursor :=
  '(rc, c) ← cursor_open dbi;
  _ ← check_mdbx rc "Failed to open MDBX cursor";
  mret c.

(** [rc = cursor_get(op); while (rc == MDBX_SUCCESS) { if (cmp(key, hi) > 0) break; body;
    rc = cursor_get(NEXT); } if (!stopped && rc != MDBX_NOTFOUND) check_mdbx(rc, ctx);] *)
Section Loop.
Context {S : Type} (body : S → bytes → bytes → result (S * bool)) (context : string) (dbi : Z) (hi : bytes).

Fixpoint range_loop (fuel : nat) (c : cursor) (op : cursor_op) (key : bytes) (st : S) : M S :=
  match fuel with
  | O => fail out_of_fuel
  | Datatypes.S n =>
      '(rc, k, x, c) ← cursor_get c op key;
      if rc =? MDBX_SUCCESS then
        o ← cmp dbi k hi;
        if o >? 0 then mret st
        else
          '(st, more) ← lift (body st k x);
          if more : bool then range_loop n c MDBX_NEXT [] st else mret st
      else if rc =? MDBX_NOTFOUND then mret st
      else _ ← check_mdbx rc context; mret st
  end.
End Loop.
End Walk.

(** ** Rules *)

Section Rules.
Context {X : Mdbx} {L : MdbxLaws X} (kt : key_type) {V : Type} `{!TableValue V}.
Abbreviation fl := (get_mdbx_flags kt).

(** [dbi] is a handle of the table [name], which holds [μ]. *)
Definition typed (v : db_view) (dbi : Z) (name : bytes) (μ : gmap (key_val kt) V) : Prop :=
  bound v dbi name fl ∧ holds_map kt (recs v name) μ.

Definition fits (k : bytes) : Prop := length k = key_width kt ∨ fl = 0.

Lemma fits_sized k : fits k → key_sized fl (length k).
Proof. intros [->|E]; [|by left]. destruct (key_width_cases kt) as [|[]]; [by left|by right]. Qed.

Lemma key_fits k b : key_ok kt k → serialize_key kt k = Ok b → fits b.
Proof. intros Hk Hb. destruct (stored_key_width kt k b Hk Hb) as [|(_ & ? & _)]; [by right|by left]. Qed.

Lemma wp_open_cursor dbi name f Q v :
  bound v dbi name f → (∀ c, cursor_dbi c = dbi → cursor_key c = None → Q (Ok c) v) → wp (open_cursor dbi) Q v.
Proof.
  intros Hb HQ. apply wp_bind. intros s Hs. left. subst v. destruct (mdbx_cursor_open s dbi) as [rc c] eqn:E.
  destruct (law_cursor_open _ _ _ _ _ _ E (bound_table _ _ _ _ Hb)) as [He|(-> & Hc & Hk)]; [engine_error_case|].
  apply wp_ret_bind. by apply wp_ret, HQ.
Qed.

Lemma wp_cmp {A} dbi name a b (f : Z → M A) Q v :
  bound v dbi name fl → fits a → fits b →
  (∀ o, (o > 0 ↔ bytes_compare (sort_key fl a) (sort_key fl b) = Gt) →
        (o < 0 ↔ bytes_compare (sort_key fl a) (sort_key fl b) = Lt) → wp (f o) Q v) →
  wp (cmp dbi a b ≫= f) Q v.
Proof.
  intros Hb Ha Hfb HQ. apply wp_bind. intros s Hs. left. subst v.
  destruct (law_cmp_by s dbi name _ a b (bound_table _ _ _ _ Hb)) as [H1 H2].
  - by apply fits_sized.
  - cbn [dv_flags]. destruct Ha, Hfb; auto. left. congruence.
  - by apply HQ.
Qed.

Section Cursor.
Context (dbi : Z) (name : bytes) (μ : gmap (key_val kt) V) (v : db_view) (Hv : typed v dbi name μ).

(** The pairs from the place a cursor operation moves to. *)
Definition ahead (c : cursor) (op : cursor_op) (key : bytes) : list (key_val kt * V) :=
  pairs_where kt μ (cursor_range op (sort_key fl <$> cursor_key c) (sort_key fl key)).
Definition behind (c : cursor) (op : back_op) : list (key_val kt * V) :=
  pairs_where kt μ (back_range op (sort_key fl <$> cursor_key c)).

(** The cursor is on [p]. *)
Definition on_pair (c : cursor) (p : key_val kt * V) : Prop :=
  cursor_dbi c = dbi ∧ cursor_key c = Some (stored kt p.1).

Lemma ahead_next c p : on_pair c p → ahead c MDBX_NEXT [] = pairs_where kt μ (bytes_lt (rank kt p.1)).
Proof. intros [_ E]. unfold ahead. by rewrite E. Qed.
Lemma behind_prev c p : on_pair c p → behind c MDBX_PREV = pairs_where kt μ (fun k => bytes_lt k (rank kt p.1)).
Proof. intros [_ E]. unfold behind. by rewrite E. Qed.

Lemma typed_sized : recs_sized (mk_dbi fl (recs v name)) (key_width kt).
Proof. by eapply holds_sized, Hv. Qed.

Lemma wp_typed_get {A} c op key (f : Z * bytes * bytes * cursor → M A) Q :
  cursor_dbi c = dbi → (op = MDBX_SET_RANGE → fits key) →
  (∀ rc k x c', engine_error rc → wp (f (rc, k, x, c')) Q v) →
  match ahead c op key with
  | p :: rest => ∀ c', on_pair c' p → rest = pairs_where kt μ (bytes_lt (rank kt p.1)) →
      good_key kt p.1 → value_ok p.2 →
      wp (f (MDBX_SUCCESS, stored kt p.1, serialize_value p.2, c')) Q v
  | [] => ∀ k x c', cursor_dbi c' = dbi → wp (f (MDBX_NOTFOUND, k, x, c')) Q v
  end →
  wp (cursor_get c op key ≫= f) Q v.
Proof.
  intros Hc Hf HE HQ. pose proof typed_sized as Hsz. destruct Hv as [Hb Hm].
  apply wp_bind. intros s Hs. left. subst v.
  destruct (mdbx_cursor_get s c op key) as [[[rc k] x] c'] eqn:E. rewrite <- Hc in Hb.
  destruct (law_cursor_get_by _ _ _ _ _ _ _ _ _ _ _ E (bound_table _ _ _ _ Hb) Hsz Hf)
    as [He|(Hc' & Hcase)]; [by apply HE|]. unfold ordered_recs in Hcase. cbn [dv_flags dv_recs] in Hcase.
  unfold ahead in HQ. pose proof (holds_where kt _ _ (cursor_range op (sort_key fl <$> cursor_key c) (sort_key fl key)) Hm) as Hw.
  destruct Hcase as [(-> & Hfst & Hk)|(-> & Hno)].
  - erewrite recs_where_first in Hw by eauto using cursor_range_up.
    destruct (pairs_where kt μ _) as [|p rest] eqn:Ep; [done|]. injection Hw as Ek Ex _.
    apply sort_key_inj in Ek as ->. subst x. assert (p ∈ pairs kt μ) as Hp.
    { eapply elem_of_pairs_where. rewrite Ep. left. }
    pose proof (pairs_good kt _ _ Hm) as Hg. rewrite Forall_forall in Hg. destruct (Hg p Hp).
    apply HQ; [by split; [congruence|]| |done|done].
    refine (sorted_first kt _ _ _ _ (pairs_sorted kt _ _ Hm) _ Ep). eauto using cursor_range_up.
  - rewrite (proj2 (recs_where_nil _ _) Hno) in Hw. symmetry in Hw. apply fmap_nil_inv in Hw. rewrite Hw in HQ.
    apply HQ. congruence.
Qed.

Lemma wp_typed_back {A} c op (f : Z * bytes * bytes * cursor → M A) Q :
  cursor_dbi c = dbi →
  (∀ rc k x c', engine_error rc → wp (f (rc, k, x, c')) Q v) →
  (∀ p rest c', behind c op = rest ++ [p] → on_pair c' p →
      rest = pairs_where kt μ (fun k => bytes_lt k (rank kt p.1)) → good_key kt p.1 → value_ok p.2 →
      wp (f (MDBX_SUCCESS, stored kt p.1, serialize_value p.2, c')) Q v) →
  (∀ k x c', behind c op = [] → cursor_dbi c' = dbi → wp (f (MDBX_NOTFOUND, k, x, c')) Q v) →
  wp (cursor_get_back c op ≫= f) Q v.
Proof.
  intros Hc HE HQ HN. pose proof typed_sized as Hsz. destruct Hv as [Hb Hm].
  apply wp_bind. intros s Hs. left. subst v.
  destruct (mdbx_cursor_get_back s c op) as [[[rc k] x] c'] eqn:E. rewrite <- Hc in Hb.
  destruct (law_cursor_get_back _ _ _ _ _ _ _ _ _ _ E (bound_table _ _ _ _ Hb) Hsz)
    as [He|(Hc' & Hcase)]; [by apply HE|]. unfold ordered_recs in Hcase. cbn [dv_flags dv_recs] in Hcase.
  unfold behind in HQ, HN. pose proof (holds_where kt _ _ (back_range op (sort_key fl <$> cursor_key c)) Hm) as Hw.
  destruct Hcase as [(-> & Hlst & Hk)|(-> & Hno)].
  - erewrite recs_where_last in Hw by eauto using back_range_down.
    destruct (pairs_where kt μ _) as [|p rest _] eqn:Ep using rev_ind; [by destruct (recs_where _ _)|].
    rewrite fmap_app in Hw. apply app_inj_tail in Hw as [_ Hp]. injection Hp as Ek Ex.
    apply sort_key_inj in Ek as ->. subst x. assert (p ∈ pairs kt μ) as Hp.
    { eapply elem_of_pairs_where. rewrite Ep. set_solver. }
    pose proof (pairs_good kt _ _ Hm) as Hg. rewrite Forall_forall in Hg. destruct (Hg p Hp).
    eapply HQ; [reflexivity|by split; [congruence|]| |done|done].
    refine (sorted_last kt _ _ _ _ (pairs_sorted kt _ _ Hm) _ Ep). eauto using back_range_down.
  - rewrite (proj2 (recs_where_nil _ _) Hno) in Hw. symmetry in Hw. apply fmap_nil_inv in Hw.
    apply HN; [done|congruence].
Qed.

(** What a walk computes, over the pairs it visits. *)
Fixpoint fold_pairs {S} (body : S → bytes → bytes → result (S * bool)) (st : S) (l : list (key_val kt * V)) : result S :=
  match l with
  | [] => Ok st
  | p :: l' =>
      '(st, more) ← body st (stored kt p.1) (serialize_value p.2);
      if more : bool then fold_pairs body st l' else Ok st
  end.

Definition upto (hi : bytes) (l : list (key_val kt * V)) : list (key_val kt * V) :=
  filter (fun p => bytes_le (rank kt p.1) (sort_key fl hi)) l.

Lemma pairs_where_sorted P `{∀ k, Decision (P k)} :
  StronglySorted (fun p q => bytes_lt (rank kt p.1) (rank kt q.1)) (pairs_where kt μ P).
Proof. apply StronglySorted_filter. by eapply pairs_sorted, Hv. Qed.

Lemma upto_beyond hi p l :
  Forall (fun q => bytes_lt (rank kt p.1) (rank kt q.1)) l → ¬ bytes_le (rank kt p.1) (sort_key fl hi) →
  upto hi (p :: l) = [].
Proof.
  intros Hl Hp. unfold upto. rewrite filter_cons, decide_False by done.
  induction Hl as [|q l Hq _ IH]; [done|]. rewrite filter_cons, decide_False; [done|].
  intros Hle. apply Hp. etrans; [|exact Hle]. by apply bytes_lt_le.
Qed.

Lemma wp_range_loop {S} (body : S → bytes → bytes → result (S * bool)) context hi fuel c op key st Q :
  cursor_dbi c = dbi → (op = MDBX_SET_RANGE → fits key) → fits hi →
  (length (ahead c op key) < fuel)%nat →
  Q (fold_pairs body st (upto hi (ahead c op key))) v →
  wp (range_loop body context dbi hi fuel c op key st) Q v.
Proof.
  intros Hc Hf Hhi. revert c op key st Hc Hf. induction fuel as [|fuel IH]; intros c op key st Hc Hf Hlen HQ; [lia|].
  apply wp_typed_get; [done|done|by intros; engine_error_case|].
  pose proof (pairs_where_sorted (cursor_range op (sort_key fl <$> cursor_key c) (sort_key fl key))) as Hs.
  unfold ahead in Hlen, HQ |- *. destruct (pairs_where kt μ _) as [|p rest]; [intros; by apply wp_ret|].
  intros c' Hp -> Hk Hx. apply StronglySorted_inv in Hs as [_ Hall].
  assert (fits (stored kt p.1)) as Hfp by by apply (key_fits p.1), good_stored, Hk; apply Hk.
  rewrite Z.eqb_refl. eapply wp_cmp; [apply Hv|done|done|]. fold (rank kt p.1). intros o Ho _.
  destruct (decide (bytes_le (rank kt p.1) (sort_key fl hi))) as [Hle|Hnle].
  - rewrite Z.gtb_ltb, (proj2 (Z.ltb_ge _ _)) by (assert (¬ o > 0) by (rewrite Ho; exact Hle); lia).
    unfold upto in HQ. rewrite filter_cons, decide_True in HQ by done. simpl in HQ. apply wp_lift_bind.
    destruct (body st _ _) as [[st' []]|e]; simpl in *; [|by apply wp_ret|done].
    simpl in Hlen. apply IH; [apply Hp|done|..]; rewrite (ahead_next c' p Hp); [lia|done].
  - rewrite Z.gtb_ltb, (proj2 (Z.ltb_lt _ _)). { apply wp_ret. rewrite upto_beyond in HQ by done. done. }
    cut (o > 0); [lia|]. apply Ho. unfold bytes_le in Hnle. destruct (bytes_compare _ _); [by destruct Hnle..|done].
Qed.

Lemma wp_scan_pairs {S} (body : S → bytes → bytes → result (S * bool)) context fuel c op key st Q :
  cursor_dbi c = dbi → (op = MDBX_SET_RANGE → fits key) → (length (ahead c op key) < fuel)%nat →
  Q (fold_pairs body st (ahead c op key)) v → wp (scan_loop body context fuel c op key st) Q v.
Proof.
  revert c op key st. induction fuel as [|fuel IH]; intros c op key st Hc Hf Hlen HQ; [lia|].
  apply wp_typed_get; [done|done|by intros; engine_error_case|].
  destruct (ahead c op key) as [|p rest]; [intros; by apply wp_ret|]. intros c' Hp -> Hk Hx. simpl in Hlen, HQ.
  rewrite Z.eqb_refl. apply wp_lift_bind. destruct (body st _ _) as [[st' []]|e]; simpl in *; [|by apply wp_ret|done].
  apply IH; [apply Hp|done|..]; rewrite (ahead_next c' p Hp); [lia|done].
Qed.

(** A body that goes on with every pair. *)
Lemma fold_pairs_foldl {S} (body : S → bytes → bytes → result (S * bool)) (g : S → key_val kt * V → S) st l :
  (∀ st p, p ∈ l → body st (stored kt p.1) (serialize_value p.2) = Ok (g st p, true)) →
  fold_pairs body st l = Ok (foldl g st l).
Proof.
  revert st. induction l as [|p l IH]; intros st Hb; [done|]. simpl. rewrite Hb by left. simpl.
  apply IH. intros st' q Hq. apply Hb. by right.
Qed.

Lemma ahead_length c op key : (length (ahead c op key) ≤ size μ)%nat.
Proof.
  unfold ahead, pairs_where. etrans; [apply length_filter|]. unfold pairs.
  by rewrite merge_sort_Permutation, length_map_to_list.
Qed.
End Cursor.

Lemma wp_typed_scan {S} (body : S → bytes → bytes → result (S * bool)) octx context dbi name μ fuel op key st Q v :
  typed v dbi name μ → (op = MDBX_SET_RANGE → fits key) → (size μ < fuel)%nat →
  Q (fold_pairs body st (pairs_where kt μ (scan_range op (sort_key fl key)))) v →
  wp (scan fuel dbi op key body octx context st) Q v.
Proof.
  intros Hv Hf Hfu HQ. apply wp_bind. intros s Hs. left. subst v. destruct (mdbx_cursor_open s dbi) as [rc c] eqn:E.
  destruct (law_cursor_open _ _ _ _ _ _ E (bound_table _ _ _ _ (proj1 Hv))) as [He|(-> & Hc & Hk)]; [engine_error_case|].
  apply wp_ret_bind. eapply wp_scan_pairs; [done..|by eapply Nat.le_lt_trans; [apply ahead_length|]|].
  unfold ahead. by rewrite Hk.
Qed.
End Rules.
