(* ===== verification/Hashing.v ===== *)
(** * Hash functions of the hashed store

    Models [SipHashHasher] of [src/include/mdbx_containers/common/hashing.hpp] with its 64-bit
    words and their wrap-around.  [XXH3Hasher] of the same file only calls the vendored
    [xxhash.h]; the hashed store takes its hasher as an argument.  [siphash_reference] shows that
    the block loop and the fall-through switch over the tail compute SipHash-2-4 as it is
    defined: the compression of the words of the padded message, with its length in the last
    byte, followed by the finalization. *)
From S2P Require Import Prelude SyncCommon.
Open Scope Z_scope.

(** ** The code *)

(** The four words of the state. *)
Record sip_state : Type := { v0 : Z; v1 : Z; v2 : Z; v3 : Z }.

Definition rotl (value bits : Z) : Z := Z.lor (Z.shiftl value bits mod 2 ^ 64) (Z.shiftr value (64 - bits)).

Definition load64_le (data : bytes) : Z :=
  foldl (fun value i => Z.lor value (Z.shiftl (at_byte data i) (8 * Z.of_nat i))) 0 (seq 0 8).

Definition sip_round (s : sip_state) : sip_state :=
  let '(Build_sip_state v0 v1 v2 v3) := s in
  let v0 := (v0 + v1) mod 2 ^ 64 in
  let v1 := rotl v1 13 in
  let v1 := Z.lxor v1 v0 in
  let v0 := rotl v0 32 in
  let v2 := (v2 + v3) mod 2 ^ 64 in
  let v3 := rotl v3 16 in
  let v3 := Z.lxor v3 v2 in
  let v0 := (v0 + v3) mod 2 ^ 64 in
  let v3 := rotl v3 21 in
  let v3 := Z.lxor v3 v0 in
  let v2 := (v2 + v1) mod 2 ^ 64 in
  let v1 := rotl v1 17 in
  let v1 := Z.lxor v1 v2 in
  let v2 := rotl v2 32 in
  Build_sip_state v0 v1 v2 v3.

Definition xor_v3 (m : Z) (s : sip_state) : sip_state := Build_sip_state (v0 s) (v1 s) (v2 s) (Z.lxor (v3 s) m).
Definition xor_v0 (m : Z) (s : sip_state) : sip_state := Build_sip_state (Z.lxor (v0 s) m) (v1 s) (v2 s) (v3 s).
Definition xor_v2 (m : Z) (s : sip_state) : sip_state := Build_sip_state (v0 s) (v1 s) (Z.lxor (v2 s) m) (v3 s).

(** The body of the loop over the full blocks. *)
Definition sip_block (s : sip_state) (m : Z) : sip_state := xor_v0 m (sip_round (sip_round (xor_v3 m s))).

Definition sip_start (k0 k1 : Z) : sip_state :=
  Build_sip_state (Z.lxor 0x736f6d6570736575 k0) (Z.lxor 0x646f72616e646f6d k1)
                  (Z.lxor 0x6c7967656e657261 k0) (Z.lxor 0x7465646279746573 k1).

(** The [switch] falls through, so the case [n] runs the cases below it too. *)
Fixpoint sip_tail (n : nat) (tail : bytes) (last : Z) : Z :=
  match n with
  | O => last
  | S n => sip_tail n tail (Z.lor last (Z.shiftl (at_byte tail n) (8 * Z.of_nat n)))
  end.

(** The four rounds after [v2 ^= 0xff] and the value returned. *)
Definition sip_finish (s : sip_state) : Z :=
  let s := sip_round (sip_round (sip_round (sip_round (xor_v2 0xff s)))) in
  Z.lxor (Z.lxor (Z.lxor (v0 s) (v1 s)) (v2 s)) (v3 s).

(** [len & 7] is the remainder by 8. *)
Definition siphash (k0 k1 : Z) (data : bytes) : Z :=
  let len := size_of data in
  let full_blocks := (length data / 8)%nat in
  let s := foldl (fun s i => sip_block s (load64_le (drop (i * 8) data))) (sip_start k0 k1) (seq 0 full_blocks) in
  let last := Z.shiftl len 56 mod 2 ^ 64 in
  let last := sip_tail (length data mod 8) (drop (full_blocks * 8) data) last in
  sip_finish (sip_block s last).

(** ** The definition of SipHash-2-4 *)

(** The message, zeros up to the last byte of a word, and the length modulo 256. *)
Definition sip_padded (data : bytes) : bytes :=
  data ++ replicate (7 - length data mod 8) Byte.x00 ++ [byte_of (size_of data)].

(** The first [n] little-endian words. *)
Fixpoint sip_words (n : nat) (data : bytes) : list Z :=
  match n with
  | O => []
  | S n => le_val (take 8 data) :: sip_words n (drop 8 data)
  end.

Definition siphash_spec (k0 k1 : Z) (data : bytes) : Z :=
  let padded := sip_padded data in
  sip_finish (foldl sip_block (sip_start k0 k1) (sip_words (length padded / 8) padded)).

(** ** Their agreement *)

Lemma load64_le_val bs s : length bs = 8%nat → load64_le (bs ++ s) = le_val bs.
Proof.
  intros Hl. rewrite <- (read_u64_le_val bs s Hl). unfold load64_le, read_u64_le.
  generalize 0. induction (seq 0 8) as [|i l IH]; intros z; [done|]. cbn [foldl]. by rewrite IH, (Z.mul_comm 8).
Qed.

Lemma load64_le_take data : (8 ≤ length data)%nat → load64_le data = le_val (take 8 data).
Proof. intros H. rewrite <- (take_drop 8 data) at 1. apply load64_le_val. rewrite length_take. lia. Qed.

(** The loop reads the words of the message from the front. *)
Lemma sip_loop_words n : ∀ data s, (n * 8 ≤ length data)%nat →
  foldl (fun s i => sip_block s (load64_le (drop (i * 8) data))) s (seq 0 n) =
  foldl sip_block s (sip_words n data).
Proof.
  induction n as [|n IH]; intros data s Hl; [done|].
  cbn [seq foldl sip_words]. rewrite drop_0, load64_le_take by lia.
  rewrite <- (IH (drop 8 data)) by (rewrite length_drop; lia).
  rewrite <- (fmap_S_seq 0 n). generalize (sip_block s (le_val (take 8 data))), (seq 0 n).
  intros s' l. revert s'. induction l as [|i l IHl]; intros s'; [done|].
  cbn [fmap list_fmap foldl]. by rewrite IHl, drop_drop.
Qed.

Lemma sip_words_app n : ∀ data rest, length data = (n * 8)%nat →
  sip_words (S n) (data ++ rest) = sip_words n data ++ [le_val (take 8 rest)].
Proof.
  induction n as [|n IH]; intros data rest Hl.
  - destruct data; [|done]. done.
  - change (le_val (take 8 (data ++ rest)) :: sip_words (S n) (drop 8 (data ++ rest)) =
      le_val (take 8 data) :: (sip_words n (drop 8 data) ++ [le_val (take 8 rest)])).
    rewrite take_app_le, drop_app_le by lia. f_equal. apply IH. rewrite length_drop. lia.
Qed.

Lemma sip_words_take n : ∀ data, (n * 8 ≤ length data)%nat → sip_words n (take (n * 8) data) = sip_words n data.
Proof.
  induction n as [|n IH]; intros data Hl; [done|]. cbn [sip_words]. rewrite take_take, Nat.min_l by lia.
  f_equal. change (S n * 8)%nat with (8 + n * 8)%nat. rewrite <- take_drop_commute. apply IH. rewrite length_drop. lia.
Qed.

(** The switch builds the last word of the padded message. *)
Lemma sip_tail_val n tail hi : length tail = n → (n ≤ 7)%nat →
  sip_tail n tail (Z.shiftl hi 56) = le_val (tail ++ replicate (7 - n) Byte.x00) + hi * 2 ^ 56.
Proof.
  intros Hl Hn.
  assert (∀ k acc, (k ≤ n)%nat → sip_tail k tail (Z.shiftl acc (8 * Z.of_nat k)) =
    le_val (take k tail) + acc * 2 ^ (8 * Z.of_nat k)) as Hk.
  { induction k as [|k IH]; intros acc Hk; [change (8 * Z.of_nat 0) with 0; rewrite take_0; cbn [sip_tail le_val]; rewrite Z.shiftl_0_r; lia|].
    cbn [sip_tail].
    replace (Z.lor (Z.shiftl acc (8 * Z.of_nat (S k))) (Z.shiftl (at_byte tail k) (8 * Z.of_nat k)))
      with (Z.shiftl (at_byte tail k + acc * 2 ^ 8) (8 * Z.of_nat k)).
    - rewrite IH by lia. destruct (lookup_lt_is_Some_2 tail k) as [b Hb]; [lia|].
      rewrite (take_S_r _ _ _ Hb), le_val_app, length_take, Nat.min_l by lia.
      assert (at_byte tail k = u8 b) as -> by (unfold at_byte; by rewrite (nth_lookup_Some _ _ _ _ Hb)).
      cbn [le_val]. replace (8 * Z.of_nat (S k)) with (8 + 8 * Z.of_nat k) by lia.
      rewrite Z.pow_add_r by lia. replace 256 with (2 ^ 8) by done. rewrite <- Z.pow_mul_r by lia. lia.
    - rewrite <- (lor_disjoint_add (at_byte tail k) acc 8) by (pose proof (at_byte_range tail k); lia).
      rewrite Z.shiftl_lor, Z.shiftl_shiftl, Z.lor_comm by lia. do 2 f_equal. lia. }
  replace (Z.shiftl hi 56) with (Z.shiftl (hi * 2 ^ (8 * Z.of_nat (7 - n))) (8 * Z.of_nat n)).
  - rewrite Hk by lia. rewrite take_ge by lia. rewrite le_val_app.
    assert (∀ m, le_val (replicate m Byte.x00) = 0) as -> by (induction m as [|m IHm]; [done|cbn; lia]).
    rewrite Z.mul_0_l, Z.add_0_r, <- Z.mul_assoc, <- Z.pow_add_r by lia. do 3 f_equal. lia.
  - rewrite !Z.shiftl_mul_pow2, <- Z.mul_assoc, <- Z.pow_add_r by lia. do 2 f_equal. lia.
Qed.

Lemma sip_last_word data :
  let tail := drop (length data / 8 * 8) data in
  sip_tail (length data mod 8) tail (Z.shiftl (size_of data) 56 mod 2 ^ 64) =
  le_val (tail ++ replicate (7 - length data mod 8) Byte.x00 ++ [byte_of (size_of data)]).
Proof.
  intros tail. pose proof (Nat.div_mod_eq (length data) 8) as Hd.
  pose proof (Nat.mod_upper_bound (length data) 8 ltac:(lia)) as Hm.
  assert (length tail = length data mod 8)%nat as Ht by (unfold tail; rewrite length_drop; lia).
  replace (Z.shiftl (size_of data) 56 mod 2 ^ 64) with (Z.shiftl (size_of data mod 2 ^ 8) 56).
  - rewrite sip_tail_val by lia. rewrite app_assoc, (le_val_app (_ ++ _)).
    cbn [le_val]. rewrite u8_byte_of, length_app, length_replicate, Ht.
    replace (length data mod 8 + (7 - length data mod 8))%nat with 7%nat by lia. change (256 ^ Z.of_nat 7) with (2 ^ 56).
    change (2 ^ 8) with 256. lia.
  - rewrite !Z.shiftl_mul_pow2 by lia. change (2 ^ 64) with (2 ^ 8 * 2 ^ 56). by rewrite Z.mul_mod_distr_r.
Qed.

(** C39: [SipHashHasher] computes SipHash-2-4: for every key material and every key, of any
    length, the loop over the full blocks and the fall-through switch over the remaining bytes
    give the digest of the words of the padded message, whose last byte is the length; and it
    agrees with the test vector published with SipHash. *)
Theorem siphash_reference :
  (∀ k0 k1 data, siphash k0 k1 data = siphash_spec k0 k1 data) ∧
  siphash 0x0706050403020100 0x0f0e0d0c0b0a0908 (byte_of <$> seqZ 0 15) = 0xa129ca6149be45e5.
Proof.
  split; [|vm_compute; reflexivity]. intros k0 k1 data. unfold siphash, siphash_spec.
  pose proof (Nat.div_mod_eq (length data) 8) as Hd.
  pose proof (Nat.mod_upper_bound (length data) 8 ltac:(lia)) as Hm.
  rewrite sip_last_word, sip_loop_words by lia.
  assert (length (sip_padded data) = (length data / 8 + 1) * 8)%nat as Hp.
  { unfold sip_padded. rewrite !length_app, length_replicate. cbn [length]. lia. }
  rewrite Hp, Nat.div_mul by lia. rewrite Nat.add_1_r. unfold sip_padded.
  set (head := take (length data / 8 * 8) data).
  replace (data ++ replicate (7 - length data mod 8) Byte.x00 ++ [byte_of (size_of data)])
    with (head ++ drop (length data / 8 * 8) data ++ replicate (7 - length data mod 8) Byte.x00 ++ [byte_of (size_of data)])
    by (unfold head; rewrite app_assoc, take_drop; done).
  rewrite sip_words_app by (unfold head; rewrite length_take; lia). rewrite foldl_app. cbn [foldl]. do 2 f_equal.
  - f_equal. symmetry. apply sip_words_take; lia.
  - rewrite take_ge; [done|]. rewrite !length_app, length_drop, length_replicate. cbn [length]. lia.
Qed.
