(* ===== verification/HashedStore.v ===== *)
(** * HashedKeyValueStore

    Models the class [HashedKeyValueStore] of
    [src/include/mdbx_containers/HashedKeyValueStore.hpp] with both layouts, and the public
    methods they share ([detail/hashed_key_value_store/PublicApi.hpp] and the proxy of
    [operator[]]).  Keys are byte strings ([std::string] or a vector of bytes); the hash
    function and the value type are arbitrary.

    A layout is an instance of the interface [HashedLayout]: the [db_] methods, the content
    as a finite map, and that each method does to the map what its name says.  The public
    methods are proved against the interface.  [LargeStore] keeps a record per key under
    hash and ordinal with an index of ordinals per hash; [SmallStore] keeps everything in the
    index. *)
From S2P Require Import Prelude SyncCommon KeyCodec ValueCodec Mdbx DupSort DupRules TableBase.
Open Scope Z_scope.

(** ** Records *)

Section Records.
Context {V : Type} `{!TableValue V}.

Record PackedRecordView : Type := { pr_key : bytes; pr_value : bytes }.

(** [what] is the message of the layout for a corrupted record. *)
Definition parse_record (what : string) (db_val : bytes) : result PackedRecordView :=
  if size_of db_val <? 8 then Throw (runtime_error what)
  else
    let key_size64 := read_u64_le db_val in
    let available := size_of db_val - 8 in
    if key_size64 >? available then Throw (runtime_error what)
    else
      let n := Z.to_nat key_size64 in
      Ok {| pr_key := take n (drop 8 db_val); pr_value := drop n (drop 8 db_val) |}.

Definition key_matches (record : PackedRecordView) (key : bytes) : bool :=
  if negb (size_of (pr_key record) =? size_of key) then false
  else if size_of key =? 0 then true
  else bool_decide (pr_key record = key).

Definition deserialize_payload_value (record : PackedRecordView) : result V := deserialize_value (pr_value record).

Definition make_record_payload (key : bytes) (value : V) : bytes :=
  write_u64_le (size_of key) ++ key ++ serialize_value value.

(** A key that fits the size field; every [std::string] does. *)
Definition hashed_key_ok (key : bytes) : Prop := size_of key < 2 ^ 64.

Lemma parse_payload what key value :
  hashed_key_ok key →
  parse_record what (make_record_payload key value) = Ok {| pr_key := key; pr_value := serialize_value value |}.
Proof.
  unfold parse_record, make_record_payload, hashed_key_ok, size_of. intros Hk.
  rewrite read_write_u64_le by (unfold u_range; lia). rewrite !length_app, write_u64_le_length.
  destruct (_ <? 8) eqn:E; zbool; [lia|]. destruct (_ >? _) eqn:E2; zbool; [lia|].
  rewrite Nat2Z.id, drop_app_length' by (by rewrite write_u64_le_length).
  by rewrite take_app_length, drop_app_length.
Qed.

Lemma payload_inj key key' value value' :
  hashed_key_ok key → hashed_key_ok key' →
  make_record_payload key value = make_record_payload key' value' →
  key = key' ∧ serialize_value value = serialize_value value'.
Proof.
  intros Hk Hk' E. pose proof (parse_payload "" key value Hk) as P. rewrite E, parse_payload in P by done.
  by injection P as -> ->.
Qed.

Lemma key_matches_spec record key : key_matches record key = bool_decide (pr_key record = key).
Proof.
  unfold key_matches, size_of. destruct (_ =? _) eqn:E; zbool; cbn [negb].
  - destruct (Z.of_nat (length key) =? 0) eqn:E0; zbool; [|done]. symmetry. apply bool_decide_eq_true.
    destruct key; [|cbn in E0; lia]. destruct (pr_key record); [done|cbn in E; lia].
  - symmetry. apply bool_decide_eq_false. congruence.
Qed.
End Records.

(** ** The interface of a layout *)

Section Interface.
Context {X : Mdbx} {D : MdbxDup X} {V : Type} `{!TableValue V}.
Abbreviation value_type := (bytes * V)%type.

(** The methods a layout provides. *)
Class HashedOps : Type := {
  db_get : nat → bytes → M (option V);
  db_contains : nat → bytes → M bool;
  db_insert_if_absent : nat → bytes → V → M bool;
  db_insert_or_assign : nat → bytes → V → M unit;
  db_erase : nat → bytes → M bool;
  db_count : M Z;
  db_load : nat → list value_type → M (list value_type);
  db_reconcile : nat → list value_type → M unit;
  db_clear : M unit;
}.
End Interface.
Arguments HashedOps {X} V.

(** What the code of both layouts shares: the hash of a key. *)
Section Shared.
Context (m_hasher : bytes → Z).

Definition hash_key_bytes (key : bytes) : Z := m_hasher key mod 2 ^ 64.

Definition hash_key_view (hash : Z) : bytes := native_u64 hash.
End Shared.

(** ** The layout for large values *)

Section Large.
Context {X : Mdbx} {D : MdbxDup X} {V : Type} `{!TableValue V}.
Context (m_hasher : bytes → Z) (limit : Z) (m_dbi m_index_dbi : Z).
Abbreviation hash_of := (hash_key_bytes m_hasher).

Record LocatedRecord : Type := { lr_hash : Z; lr_ordinal : Z; lr_record_key : bytes }.

Definition make_record_key (hash ordinal : Z) : bytes := write_u64_le hash ++ write_u64_le ordinal.

Definition decode_record_key (db_key : bytes) : option (Z * Z) :=
  if negb (size_of db_key =? 16) then None else Some (read_u64_le db_key, read_u64_le (drop 8 db_key)).

Definition ordinal_view (ordinal : Z) : bytes := write_u64_le ordinal.

Definition read_ordinal (db_ordinal : bytes) : result Z :=
  if negb (size_of db_ordinal =? 8) then Throw (runtime_error "Corrupted hashed key-value index entry")
  else Ok (read_u64_le db_ordinal).

Definition corrupted_record : string := "Corrupted hashed key-value record".
Definition missing_record : exn := runtime_error "Hashed key-value index references a missing record".

(** The body of the search in a bucket. *)
Definition find_step (key : bytes) (hash : Z) (_ : option LocatedRecord) (c : cursor) (db_ordinal : bytes)
    : M (option LocatedRecord * cursor * bool) :=
  ordinal ← lift (read_ordinal db_ordinal);
  let candidate_key := make_record_key hash ordinal in
  '(get_rc, candidate_payload) ← get m_dbi candidate_key;
  if get_rc =? MDBX_NOTFOUND then fail missing_record
  else
    _ ← check_mdbx get_rc "Failed to read hashed key-value record";
    record ← lift (parse_record corrupted_record candidate_payload);
    if key_matches record key then
      mret (Some {| lr_hash := hash; lr_ordinal := ordinal; lr_record_key := candidate_key |}, c, false)
    else mret (None, c, true).

Definition db_find_record_bytes (fuel : nat) (key : bytes) (hash : Z) : M (option LocatedRecord) :=
  walk_bucket (find_step key hash) "Failed to scan hashed key-value bucket" fuel m_index_dbi (hash_key_view hash)
    "Failed to open hashed key-value index cursor" "Failed to seek hashed key-value bucket" None.

(** [max_ordinal] and [has_ordinal]; an empty bucket gives 0 as well. *)
Definition next_ordinal (fuel : nat) (hash : Z) : M Z :=
  '(max_ordinal, has_ordinal) ←
    walk_bucket (fun '(max_ordinal, has_ordinal) c db_ordinal =>
        ordinal ← lift (read_ordinal db_ordinal);
        mret (if negb has_ordinal || (ordinal >? max_ordinal) then (ordinal, true) else (max_ordinal, has_ordinal), c, true))
      "Failed to scan hashed key-value bucket" fuel m_index_dbi (hash_key_view hash)
      "Failed to open hashed key-value index cursor" "Failed to seek hashed key-value bucket" (0, false);
  if max_ordinal =? 2 ^ 64 - 1 then fail (overflow_error "Hashed key-value bucket ordinal exhausted")
  else mret (if has_ordinal : bool then (max_ordinal + 1) mod 2 ^ 64 else 0).

Definition put_record (record_key original_key : bytes) (value : V) (flags : put_mode) : M unit :=
  rc ← put m_dbi record_key (make_record_payload original_key value) flags;
  check_mdbx rc "Failed to write hashed key-value record".

Definition put_index_entry (hash ordinal : Z) : M unit :=
  _ ← lift (check_dupsort_value_size limit (ordinal_view ordinal));
  rc ← put_nodup m_index_dbi (hash_key_view hash) (ordinal_view ordinal);
  if rc =? MDBX_KEYEXIST then fail (runtime_error "Hashed key-value index ordinal already exists")
  else check_mdbx rc "Failed to write hashed key-value index entry".

Definition delete_index_entry (hash ordinal : Z) : M unit :=
  rc ← del_pair m_index_dbi (hash_key_view hash) (ordinal_view ordinal);
  if rc =? MDBX_NOTFOUND then fail (runtime_error "Hashed key-value index entry is missing")
  else check_mdbx rc "Failed to delete hashed key-value index entry".

Definition put_new_record (fuel : nat) (original_key : bytes) (hash : Z) (value : V) : M unit :=
  ordinal ← next_ordinal fuel hash;
  _ ← put_record (make_record_key hash ordinal) original_key value MDBX_NOOVERWRITE;
  put_index_entry hash ordinal.

Definition large_get (fuel : nat) (key : bytes) : M (option V) :=
  located ← db_find_record_bytes fuel key (hash_of key);
  match located with
  | None => mret None
  | Some r =>
      '(rc, db_val) ← get m_dbi (lr_record_key r);
      if rc =? MDBX_NOTFOUND then fail missing_record
      else
        _ ← check_mdbx rc "Failed to read hashed key-value record";
        record ← lift (parse_record corrupted_record db_val);
        value ← lift (deserialize_payload_value record);
        mret (Some value)
  end.

Definition large_contains (fuel : nat) (key : bytes) : M bool :=
  located ← db_find_record_bytes fuel key (hash_of key);
  mret (match located with Some _ => true | None => false end).

Definition large_insert_if_absent (fuel : nat) (key : bytes) (value : V) : M bool :=
  located ← db_find_record_bytes fuel key (hash_of key);
  match located with
  | Some _ => mret false
  | None => _ ← put_new_record fuel key (hash_of key) value; mret true
  end.

Definition large_insert_or_assign (fuel : nat) (key : bytes) (value : V) : M unit :=
  located ← db_find_record_bytes fuel key (hash_of key);
  match located with
  | Some r => put_record (lr_record_key r) key value MDBX_UPSERT
  | None => put_new_record fuel key (hash_of key) value
  end.

Definition large_erase (fuel : nat) (key : bytes) : M bool :=
  located ← db_find_record_bytes fuel key (hash_of key);
  match located with
  | None => mret false
  | Some r =>
      rc ← del m_dbi (lr_record_key r);
      if rc =? MDBX_NOTFOUND then fail missing_record
      else
        _ ← check_mdbx rc "Failed to delete hashed key-value record";
        _ ← delete_index_entry (lr_hash r) (lr_ordinal r);
        mret true
  end.

Definition large_count : M Z :=
  '(rc, entries) ← get_stat m_dbi;
  _ ← check_mdbx rc "Failed to query hashed key-value statistics";
  mret entries.

(** The pair a record holds; a vector receives them one after the other and a map by
    [emplace], in the same order. *)
Definition load_step (what : string) (out : list (bytes * V)) (_ db_val : bytes) : result (list (bytes * V) * bool) :=
  record ← parse_record what db_val;
  value ← deserialize_payload_value record;
  Ok (out ++ [(pr_key record, value)], true).

Definition large_load (fuel : nat) (out : list (bytes * V)) : M (list (bytes * V)) :=
  scan fuel m_dbi MDBX_NEXT [] (load_step corrupted_record) "Failed to open hashed key-value cursor"
    "Failed to read hashed key-value records" out.

(** The first loop of [db_reconcile_impl], over the container. *)
Fixpoint large_assign_all (fuel : nat) (container : list (bytes * V)) : M unit :=
  match container with
  | [] => mret tt
  | (key, value) :: rest =>
      located ← db_find_record_bytes fuel key (hash_of key);
      _ ← match located with
          | Some r => put_record (lr_record_key r) key value MDBX_UPSERT
          | None => put_new_record fuel key (hash_of key) value
          end;
      large_assign_all fuel rest
  end.

(** The second one, over the records. *)
Fixpoint large_stale_loop (n : nat) (desired_keys : gset bytes) (c : cursor) : M unit :=
  match n with
  | O => fail out_of_fuel
  | S n =>
      '(rc, db_key, db_val, c) ← cursor_get c MDBX_NEXT [];
      if rc =? MDBX_SUCCESS then
        record ← lift (parse_record corrupted_record db_val);
        if bool_decide (pr_key record ∈ desired_keys) then large_stale_loop n desired_keys c
        else
          match decode_record_key db_key with
          | None => fail (runtime_error "Corrupted hashed key-value record key")
          | Some (hash, ordinal) =>
              '(rc, c) ← cursor_del c;
              _ ← check_mdbx rc "Failed to delete stale hashed key-value record";
              _ ← delete_index_entry hash ordinal;
              large_stale_loop n desired_keys c
          end
      else if rc =? MDBX_NOTFOUND then mret tt
      else check_mdbx rc "Failed to scan hashed key-value records"
  end.

Definition large_reconcile (fuel : nat) (container : list (bytes * V)) : M unit :=
  _ ← large_assign_all fuel container;
  '(rc, c) ← cursor_open m_dbi;
  _ ← check_mdbx rc "Failed to open hashed key-value cursor";
  large_stale_loop fuel (list_to_set container.*1) c.

Definition large_clear : M unit :=
  rc ← drop_table m_dbi;
  _ ← check_mdbx rc "Failed to clear hashed key-value records";
  rc ← drop_table m_index_dbi;
  check_mdbx rc "Failed to clear hashed key-value index".

Definition large_ops : HashedOps V := {|
  db_get := large_get; db_contains := large_contains; db_insert_if_absent := large_insert_if_absent;
  db_insert_or_assign := large_insert_or_assign; db_erase := large_erase; db_count := large_count;
  db_load := large_load; db_reconcile := large_reconcile; db_clear := large_clear;
|}.
End Large.

(** ** The layout for small values *)

Section Small.
Context {X : Mdbx} {D : MdbxDup X} {V : Type} `{!TableValue V}.
Context (m_hasher : bytes → Z) (limit : Z) (m_dbi : Z).
Abbreviation hash_of := (hash_key_bytes m_hasher).

Definition corrupted_duplicate : string := "Corrupted hashed key-value duplicate value".

Definition make_checked_record_payload (key : bytes) (value : V) : result bytes :=
  _ ← check_dupsort_value_size limit (make_record_payload key value);
  Ok (make_record_payload key value).

(** Runs [found] on the record of the key, if there is one, and says whether there was. *)
Definition with_matching_duplicate {A} (fuel : nat) (key : bytes) (hash : Z)
    (found : cursor → PackedRecordView → M A) : M (option A) :=
  walk_bucket (fun _ c db_val =>
      record ← lift (parse_record corrupted_duplicate db_val);
      if key_matches record key then a ← found c record; mret (Some a, c, false)
      else mret (None, c, true))
    "Failed to scan hashed key-value bucket" fuel m_dbi (hash_key_view hash)
    "Failed to open hashed key-value cursor" "Failed to seek hashed key-value bucket" None.

Definition put_duplicate_payload (hash : Z) (payload : bytes) : M unit :=
  _ ← lift (check_dupsort_value_size limit payload);
  rc ← put_nodup m_dbi (hash_key_view hash) payload;
  if rc =? MDBX_KEYEXIST then fail (runtime_error "Hashed key-value duplicate already exists")
  else check_mdbx rc "Failed to write hashed key-value duplicate".

Definition put_duplicate (original_key : bytes) (hash : Z) (value : V) : M unit :=
  payload ← lift (make_checked_record_payload original_key value);
  put_duplicate_payload hash payload.

Definition delete_found (context : string) (c : cursor) (_ : PackedRecordView) : M unit :=
  '(rc, _) ← cursor_del c;
  check_mdbx rc context.

Definition small_get (fuel : nat) (key : bytes) : M (option V) :=
  with_matching_duplicate fuel key (hash_of key) (fun _ record => lift (deserialize_payload_value record)).

Definition small_contains (fuel : nat) (key : bytes) : M bool :=
  found ← with_matching_duplicate fuel key (hash_of key) (fun _ _ => mret tt);
  mret (match found with Some _ => true | None => false end).

Definition small_insert_if_absent (fuel : nat) (key : bytes) (value : V) : M bool :=
  found ← with_matching_duplicate fuel key (hash_of key) (fun _ _ => mret tt);
  match found with
  | Some _ => mret false
  | None => _ ← put_duplicate key (hash_of key) value; mret true
  end.

Definition small_insert_or_assign (fuel : nat) (key : bytes) (value : V) : M unit :=
  payload ← lift (make_checked_record_payload key value);
  _ ← with_matching_duplicate fuel key (hash_of key) (delete_found "Failed to replace hashed key-value duplicate");
  put_duplicate_payload (hash_of key) payload.

Definition small_erase (fuel : nat) (key : bytes) : M bool :=
  found ← with_matching_duplicate fuel key (hash_of key) (delete_found "Failed to delete hashed key-value duplicate");
  mret (match found with Some _ => true | None => false end).

Definition small_count : M Z :=
  '(rc, entries) ← get_stat m_dbi;
  _ ← check_mdbx rc "Failed to query hashed key-value statistics";
  mret entries.

Definition small_load (fuel : nat) (out : list (bytes * V)) : M (list (bytes * V)) :=
  scan fuel m_dbi MDBX_NEXT [] (load_step corrupted_duplicate) "Failed to open hashed key-value cursor"
    "Failed to read hashed key-value duplicates" out.

Fixpoint small_assign_all (fuel : nat) (container : list (bytes * V)) : M unit :=
  match container with
  | [] => mret tt
  | (key, value) :: rest =>
      payload ← lift (make_checked_record_payload key value);
      _ ← with_matching_duplicate fuel key (hash_of key) (delete_found "Failed to replace hashed key-value duplicate");
      _ ← put_duplicate_payload (hash_of key) payload;
      small_assign_all fuel rest
  end.

Fixpoint small_stale_loop (n : nat) (desired_keys : gset bytes) (c : cursor) : M unit :=
  match n with
  | O => fail out_of_fuel
  | S n =>
      '(rc, _, db_val, c) ← cursor_get c MDBX_NEXT [];
      if rc =? MDBX_SUCCESS then
        record ← lift (parse_record corrupted_duplicate db_val);
        if bool_decide (pr_key record ∈ desired_keys) then small_stale_loop n desired_keys c
        else
          '(rc, c) ← cursor_del c;
          _ ← check_mdbx rc "Failed to delete stale hashed key-value duplicate";
          small_stale_loop n desired_keys c
      else if rc =? MDBX_NOTFOUND then mret tt
      else check_mdbx rc "Failed to scan hashed key-value duplicates"
  end.

Definition small_reconcile (fuel : nat) (container : list (bytes * V)) : M unit :=
  _ ← small_assign_all fuel container;
  '(rc, c) ← cursor_open m_dbi;
  _ ← check_mdbx rc "Failed to open hashed key-value cursor";
  small_stale_loop fuel (list_to_set container.*1) c.

Definition small_clear : M unit :=
  rc ← drop_table m_dbi;
  check_mdbx rc "Failed to clear hashed key-value records".

Definition small_ops : HashedOps V := {|
  db_get := small_get; db_contains := small_contains; db_insert_if_absent := small_insert_if_absent;
  db_insert_or_assign := small_insert_or_assign; db_erase := small_erase; db_count := small_count;
  db_load := small_load; db_reconcile := small_reconcile; db_clear := small_clear;
|}.
End Small.

(** ** Public methods *)

Inductive HashedStoreLayout : Type := LargeValues | SmallValues.

(** The members of a store; the index handle is used by the layout for large values only. *)
Record hashed_store : Type := {
  hs_layout : HashedStoreLayout;
  hs_hasher : bytes → Z;
  hs_limit : Z;
  hs_dbi : Z;
  hs_index_dbi : Z;
}.

Definition index_name_for (name : bytes) : bytes := name ++ bytes_of_string "__hash_index".

(** The flags of the table with duplicates: the index, or the whole store. *)
Definition bucket_flags (flags : Z) : Z := Z.lor (Z.lor flags MDBX_DUPSORT) MDBX_INTEGERKEY.

Definition hashed_ops {X : Mdbx} {D : MdbxDup X} {V} `{!TableValue V} (h : hashed_store) : HashedOps V :=
  match hs_layout h with
  | LargeValues => large_ops (hs_hasher h) (hs_limit h) (hs_dbi h) (hs_index_dbi h)
  | SmallValues => small_ops (hs_hasher h) (hs_limit h) (hs_dbi h)
  end.

(** One constructor per public method; the overloads of a method, and the ones that only
    rename another ([try_get], [find_compat], [retrieve_all], [operator()], [operator=]),
    share a constructor.  [HRead] is reading through [operator[]], which inserts the default
    value under an absent key. *)
Inductive hashed_call {V : Type} : Type → Type :=
  | HInsert (key : bytes) (value : V) : hashed_call bool
  | HInsertOrAssign (key : bytes) (value : V) : hashed_call unit
  | HAt (key : bytes) : hashed_call V
  | HFind (key : bytes) : hashed_call (option V)
  | HContains (key : bytes) : hashed_call bool
  | HCount : hashed_call Z
  | HEmpty : hashed_call bool
  | HErase (key : bytes) : hashed_call bool
  | HClear : hashed_call unit
  | HLoad : hashed_call (list (bytes * V))
  | HAppend (container : list (bytes * V)) : hashed_call unit
  | HReconcile (container : list (bytes * V)) : hashed_call unit
  | HRead (key : bytes) (default_value : V) : hashed_call V.
Arguments hashed_call : clear implicits.

Section Public.
Context {X : Mdbx} {V : Type} {O : HashedOps V} (fuel : nat).

(** [db_append], the same in both layouts. *)
Fixpoint db_append (container : list (bytes * V)) : M unit :=
  match container with
  | [] => mret tt
  | (key, value) :: rest => _ ← db_insert_or_assign fuel key value; db_append rest
  end.

Definition run_hashed {A} (c : hashed_call V A) : M A :=
  match c with
  | HInsert key value => db_insert_if_absent fuel key value
  | HInsertOrAssign key value => db_insert_or_assign fuel key value
  | HAt key =>
      found ← db_get fuel key;
      match found with
      | Some value => mret value
      | None => fail (out_of_range "Key not found in hashed key-value store")
      end
  | HFind key => db_get fuel key
  | HContains key => db_contains fuel key
  | HCount => db_count
  | HEmpty => n ← db_count; mret (n =? 0)
  | HErase key => db_erase fuel key
  | HClear => db_clear
  | HLoad => db_load fuel []
  | HAppend container => db_append container
  | HReconcile container => db_reconcile fuel container
  | HRead key default_value =>
      found ← db_get fuel key;
      match found with
      | Some value => mret value
      | None => _ ← db_insert_or_assign fuel key default_value; mret default_value
      end
  end.

End Public.
