(* ===== verification/HashedSpec.v ===== *)
(** * The contract of HashedKeyValueStore

    A store is a finite map from byte strings to values, whatever its hash function: the
    relation [hashed_spec] says what each public method does to the map.  [HashedLaws] is
    what a layout promises of its [db_] methods; the public methods are proved from it, so
    that one theorem covers both layouts. *)
From S2P Require Import Prelude Mdbx DupSort DupRules Clients TableBase HashedStore.
Open Scope Z_scope.

Section Contract.
Context {V : Type} `{!TableValue V} (fits : bytes → V → bool).
Abbreviation content := (gmap bytes V).

(** What a layout throws for a pair that it cannot store. *)
Definition too_large : exn :=
  length_error "MDBX_DUPSORT duplicate value is too large. Use a large-value layout or increase Config::max_dupsort_value_size.".

Definition absent_key : exn := out_of_range "Key not found in hashed key-value store".

Definition assign_spec (key : bytes) (value : V) : Rel content unit :=
  does (fun μ => if fits key value then (Ok tt, <[key := value]> μ) else (Throw too_large, μ)).

Definition insert_spec (key : bytes) (value : V) : Rel content bool :=
  does (fun μ =>
    match μ !! key with
    | Some _ => (Ok false, μ)
    | None => if fits key value then (Ok true, <[key := value]> μ) else (Throw too_large, μ)
    end).

Definition erase_spec (key : bytes) : Rel content bool :=
  does (fun μ => (Ok (bool_decide (is_Some (μ !! key))), delete key μ)).

Fixpoint assign_all_spec (container : list (bytes * V)) : Rel content unit :=
  match container with
  | [] => does (fun μ => (Ok tt, μ))
  | (key, value) :: rest => then_ (assign_spec key value) (fun _ => assign_all_spec rest)
  end.

(** Afterwards the keys of the container are the keys of the store. *)
Definition reconcile_spec (container : list (bytes * V)) : Rel content unit :=
  then_ (assign_all_spec container) (fun _ =>
    does (fun μ => (Ok tt, filter (fun p => p.1 ∈ container.*1) μ))).

Definition hashed_spec {A} (c : hashed_call V A) : Rel content A :=
  match c with
  | HInsert key value => insert_spec key value
  | HInsertOrAssign key value => assign_spec key value
  | HAt key => reads (fun μ r => r = match μ !! key with
      | Some value => Ok value
      | None => Throw absent_key
      end)
  | HFind key => gives (fun μ => μ !! key)
  | HContains key => gives (fun μ => bool_decide (is_Some (μ !! key)))
  | HCount => gives (fun μ => Z.of_nat (size μ))
  | HEmpty => gives (fun μ => bool_decide (μ = ∅))
  | HErase key => erase_spec key
  | HClear => does (fun _ => (Ok tt, ∅))
  | HLoad => reads (fun μ r => ∃ l, r = Ok l ∧ l ≡ₚ map_to_list μ)
  | HAppend container => assign_all_spec container
  | HReconcile container => reconcile_spec container
  | HRead key default_value =>
      does (fun μ =>
        match μ !! key with
        | Some value => (Ok value, μ)
        | None =>
            if fits key default_value then (Ok default_value, <[key := default_value]> μ) else (Throw too_large, μ)
        end)
  end.

Definition hashed_pair_ok (p : bytes * V) : Prop := hashed_key_ok p.1 ∧ value_ok p.2.

Definition hashed_call_ok {A} (c : hashed_call V A) : Prop :=
  match c with
  | HInsert key value | HInsertOrAssign key value | HRead key value => hashed_pair_ok (key, value)
  | HAt key | HFind key | HContains key | HErase key => hashed_key_ok key
  | HAppend container | HReconcile container => Forall hashed_pair_ok container
  | _ => True
  end.

(** How many pairs a call may add. *)
Definition hashed_cost {A} (c : hashed_call V A) : nat :=
  match c with
  | HInsert _ _ | HInsertOrAssign _ _ | HRead _ _ => 1
  | HAppend container | HReconcile container => length container
  | _ => 0
  end.
End Contract.

(** ** What a layout promises *)

Section Laws.
Context {X : Mdbx} {L : MdbxLaws X} {V : Type} `{!TableValue V}.

Class HashedLaws (O : HashedOps V) (fuel : nat) (fits : bytes → V → bool)
    (rep : db_view → nat → gmap bytes V → Prop) (kept : relation db_view) : Prop := {
  rep_mono v n n' μ : (n' ≤ n)%nat → rep v n μ → rep v n' μ;
  kept_preorder : PreOrder kept;
  get_refines key : hashed_key_ok key → refines rep kept 0 (db_get fuel key) (gives (fun μ => μ !! key));
  contains_refines key : hashed_key_ok key →
    refines rep kept 0 (db_contains fuel key) (gives (fun μ => bool_decide (is_Some (μ !! key))));
  insert_refines key value : hashed_pair_ok (key, value) →
    refines rep kept 1 (db_insert_if_absent fuel key value) (insert_spec fits key value);
  assign_refines key value : hashed_pair_ok (key, value) →
    refines rep kept 1 (db_insert_or_assign fuel key value) (assign_spec fits key value);
  erase_refines key : hashed_key_ok key → refines rep kept 0 (db_erase fuel key) (erase_spec key);
  count_refines : refines rep kept 0 db_count (gives (fun μ => Z.of_nat (size μ)));
  load_refines : refines rep kept 0 (db_load fuel []) (reads (fun μ r => ∃ l, r = Ok l ∧ l ≡ₚ map_to_list μ));
  reconcile_refines container : Forall hashed_pair_ok container →
    refines rep kept (length container) (db_reconcile fuel container) (reconcile_spec fits container);
  clear_refines : refines rep kept 0 db_clear (does (fun _ => (Ok tt, ∅)));
}.

Context {O : HashedOps V} (fuel : nat) (fits : bytes → V → bool).
Context (rep : db_view → nat → gmap bytes V → Prop) (kept : relation db_view) `{!HashedLaws O fuel fits rep kept}.
Abbreviation refines := (refines rep kept).
#[local] Instance kept_order : PreOrder kept := kept_preorder.

Lemma refines_seq {A B} a b (m : M A) (f : A → M B) p q :
  refines a m p → (∀ x, refines b (f x) (q x)) → refines (a + b) (m ≫= f) (then_ p q).
Proof. apply (rel_refines_bind rep kept). intros v n n' μ. apply rep_mono. Qed.

(** A call followed by a computation that only looks at the result. *)
Lemma refines_then {A B} a b (m : M A) (f : A → M B) p q r :
  refines a m p → (∀ x, refines b (f x) (q x)) → (∀ σ x σ', then_ p q σ x σ' → r σ x σ') → refines (a + b) (m ≫= f) r.
Proof. intros Hm Hf Hr. eapply refines_weaken; [|exact Hr]. by apply refines_seq. Qed.

Lemma append_refines container :
  Forall hashed_pair_ok container → refines (length container) (db_append fuel container) (assign_all_spec fits container).
Proof.
  induction 1 as [|[key value] rest Hp _ IH]; [by apply (rel_refines_ret rep kept)|]. cbn [length db_append].
  by apply (refines_seq 1); [apply assign_refines|].
Qed.

Lemma run_hashed_refines {A} (c : hashed_call V A) :
  hashed_call_ok c → refines (hashed_cost c) (run_hashed fuel c) (hashed_spec fits c).
Proof.
  destruct c; cbn [hashed_call_ok hashed_cost run_hashed hashed_spec]; intros Hok.
  - by apply insert_refines.
  - by apply assign_refines.
  - apply (refines_then 0 0 _ _ (gives (fun μ => μ !! key))
      (fun found => reads (fun _ r => r = match found with Some x => Ok x | None => Throw absent_key end))); [by apply get_refines|..].
    + intros [x|] v n μ Hr; [apply wp_ret|apply wp_fail]; by exists μ.
    + intros μ r μ' [(e & [[=] _] & _)|(found & μ1 & [[= ->] ->] & [-> ->])]. by split.
  - by apply get_refines.
  - by apply contains_refines.
  - by apply count_refines.
  - apply (refines_then 0 0 _ _ (gives (fun μ => Z.of_nat (size μ))) (fun n => gives (fun _ => n =? 0))); [apply count_refines|..].
    + intros n v n' μ Hr. apply wp_ret. by exists μ.
    + intros μ r μ' [(e & [[=] _] & _)|(n & μ1 & [[= ->] ->] & [-> ->])]. split; [|done]. f_equal.
      apply eq_bool_prop_intro. rewrite Is_true_true, Z.eqb_eq, bool_decide_spec, <- map_size_empty_iff. lia.
  - by apply erase_refines.
  - apply clear_refines.
  - apply load_refines.
  - by apply append_refines.
  - by apply reconcile_refines.
  - apply (refines_then 0 1 _ _ (gives (fun μ => μ !! key)) (fun found =>
      match found with
      | Some x => gives (fun _ => x)
      | None => then_ (assign_spec fits key default_value) (fun _ => gives (fun _ => default_value))
      end)); [by apply get_refines; destruct Hok|..].
    + intros [x|].
      * intros v n μ Hr. apply wp_ret. exists μ. split; [done|]. split; [|apply reflexivity]. eapply rep_mono; [|done]. lia.
      * apply (refines_seq 1 0); [by apply assign_refines|]. intros [] v n μ Hr. apply wp_ret. by exists μ.
    + intros μ r μ' [(e & [[=] _] & _)|(found & μ1 & [[= ->] ->] & Hq)]. unfold does.
      destruct (μ !! key) as [x|]; [by destruct Hq as [-> ->]|]. unfold then_, assign_spec, does in Hq.
      destruct (fits key default_value); [|naive_solver]. destruct Hq as [(e & ? & _)|([] & μ2 & [= <-] & [-> ->])]; done.
Qed.
End Laws.

(** ** Payloads *)

Section Payloads.
Context {V : Type} `{!TableValue V}.

Lemma load_payload (what : string) (out : list (bytes * V)) (b k : bytes) (v : V) :
  hashed_pair_ok (k, v) → load_step what out b (make_record_payload k v) = Ok (out ++ [(k, v)], true).
Proof.
  intros [Hk Hv]. unfold load_step. rewrite parse_payload by done. cbn [mbind result_bind].
  unfold deserialize_payload_value. cbn [pr_value pr_key]. by rewrite value_decodes.
Qed.

Lemma load_records (what : string) (out : list (bytes * V)) (l : list (bytes * bytes)) (ps : list (bytes * V)) :
  Forall2 (fun r p => hashed_pair_ok p ∧ r.2 = make_record_payload p.1 p.2) l ps →
  fold_recs (load_step what) out l = Ok (out ++ ps).
Proof.
  intros H. revert out. induction H as [|[b x] [k v] l ps [Hp Hx] _ IH]; intros out; [by rewrite app_nil_r|].
  cbn [fold_recs snd fst] in *. subst x. rewrite load_payload by done.
  cbn [mbind result_bind]. rewrite IH. by rewrite <- (assoc_L (++)).
Qed.

(** Records that hold the pairs of [μ] load as [μ]. *)
Lemma load_content (what : string) (l : list (bytes * bytes)) (μ : gmap bytes V) :
  map_Forall (fun k v => hashed_pair_ok (k, v)) μ → NoDup l.*2 →
  (∀ x, x ∈ l.*2 ↔ ∃ k v, μ !! k = Some v ∧ x = make_record_payload k v) →
  ∃ ps : list (bytes * V), fold_recs (load_step what) [] l = Ok ps ∧ ps ≡ₚ map_to_list μ.
Proof.
  intros Hok Hnd Hl.
  assert (∃ ps, Forall2 (fun r p => μ !! p.1 = Some p.2 ∧ r.2 = make_record_payload p.1 p.2) l ps) as [ps Hps].
  { assert (∀ r, r ∈ l → ∃ p, μ !! p.1 = Some p.2 ∧ r.2 = make_record_payload p.1 p.2) as Hr.
    { intros r Hr. destruct (proj1 (Hl r.2)) as (k & v & Hv & Hx); [by apply list_elem_of_fmap_2|]. by exists (k, v). }
    clear Hl Hnd. induction l as [|r l IH]; [by exists []|]. destruct IH as [ps Hps]; [intros; apply Hr; by right|].
    destruct (Hr r) as [p Hp]; [left|]. exists (p :: ps). by constructor. }
  exists ps. split.
  - erewrite load_records; [done|]. eapply Forall2_impl; [exact Hps|]. intros r [k v] [Hv Hx].
    split; [by apply (Hok k v)|done].
  - assert (l.*2 = (fun p => make_record_payload p.1 p.2) <$> ps) as El.
    { clear -Hps. induction Hps as [|r p l ps [_ Hx] _ IH]; [done|]. rewrite !fmap_cons. by f_equal. }
    apply NoDup_Permutation; [|apply NoDup_map_to_list|].
    + rewrite El in Hnd. by eapply NoDup_fmap_1.
    + intros [k v]. rewrite elem_of_map_to_list. split.
      * intros Hp. clear -Hps Hp. induction Hps as [|r p l ps [Hv _] _ IH]; [by apply elem_of_nil in Hp|].
        apply elem_of_cons in Hp as [<-|Hp]; auto.
      * intros Hv. assert (make_record_payload k v ∈ l.*2) as Hin by (apply Hl; eauto). rewrite El in Hin.
        apply list_elem_of_fmap in Hin as ([k' v'] & E & Hp). assert (μ !! k' = Some v') as Hv'.
        { clear -Hps Hp. induction Hps as [|r p l ps [Hv _] _ IH]; [by apply elem_of_nil in Hp|].
          apply elem_of_cons in Hp as [<-|Hp]; auto. }
        apply payload_inj in E as [-> _]; [|by apply (Hok _ _ Hv)|by apply (Hok _ _ Hv')]. cbn in Hv, Hv', Hp. assert (v = v') as -> by congruence. done.
Qed.

Lemma recs_where_NoDup m P `{∀ k, Decision (P k)} : NoDup (recs_where m P).
Proof. unfold recs_where, sorted_recs. apply NoDup_filter. rewrite merge_sort_Permutation. apply NoDup_map_to_list. Qed.

(** A table whose records are those of the pairs of [μ] has as many. *)
Lemma image_size (m : gmap bytes bytes) (μ : gmap bytes V) (g h : bytes → V → bytes) :
  (∀ b x, m !! b = Some x ↔ ∃ k v, μ !! k = Some v ∧ b = g k v ∧ x = h k v) →
  (∀ k v k' v', μ !! k = Some v → μ !! k' = Some v' → g k v = g k' v' → k = k') → size m = size μ.
Proof.
  intros Hm Hg. rewrite <- !length_map_to_list.
  rewrite <- (length_fmap (fun p : bytes * V => (g p.1 p.2, h p.1 p.2)) (map_to_list μ)).
  apply Permutation_length, NoDup_Permutation; [apply NoDup_map_to_list| |].
  - apply NoDup_fmap_2_strong, NoDup_map_to_list. intros [k v] [k' v'] Hk Hk' [= E _].
    apply elem_of_map_to_list in Hk, Hk'. pose proof (Hg _ _ _ _ Hk Hk' E) as ->. congruence.
  - intros [b x]. rewrite elem_of_map_to_list, Hm, list_elem_of_fmap. split.
    + intros (k & v & Hv & -> & ->). exists (k, v). by rewrite elem_of_map_to_list.
    + intros ([k v] & [= -> ->] & Hv%elem_of_map_to_list). eauto.
Qed.
End Payloads.
