(* ===== verification/HashedSmall.v ===== *)
(** * The layout for small values

    The store is one table with duplicates: under the hash of a key, the payload with the
    key and its value.  Its records are the payloads of a finite map, and the [db_] methods
    satisfy [HashedLaws] with the limit for duplicate values as the only restriction. *)
From S2P Require Import Prelude SyncCommon KeyCodec Mdbx DupSort DupRules Clients TableBase HashedStore HashedSpec.
Open Scope Z_scope.

Abbreviation hash_flags := (Z.lor MDBX_DUPSORT MDBX_INTEGERKEY).

Lemma hash_view_fits hash : dup_fits hash_flags 8 (hash_key_view hash).
Proof. right. apply write_u64_le_length. Qed.

Section Small.
Context {X : Mdbx} {D : MdbxDup X} {L : MdbxLaws X} {DL : MdbxDupLaws X D L} {V : Type} `{!TableValue V}.
Context (m_hasher : bytes → Z) (limit : Z) (m_dbi : Z) (name : bytes) (fuel : nat).

(** The item of a pair. *)
Definition small_item (key : bytes) (value : V) : bytes :=
  item hash_flags (hash_key_view (hash_key_bytes m_hasher key)) (make_record_payload key value).

Record holds_small (m : gmap bytes bytes) (μ : gmap bytes V) : Prop := {
  hs_ok : map_Forall (fun k v => hashed_pair_ok (k, v)) μ;
  hs_recs b x : m !! b = Some x ↔ ∃ k v, μ !! k = Some v ∧ b = small_item k v ∧ x = make_record_payload k v;
}.

Record small_rep (v : db_view) (n : nat) (μ : gmap bytes V) : Prop := {
  sr_bound : bound v m_dbi name hash_flags;
  sr_rw : v_rw v = true;
  sr_holds : holds_small (recs v name) μ;
  sr_fuel : (size μ + n < fuel)%nat;
}.

Definition small_fits (key : bytes) (value : V) : bool :=
  is_ok (check_dupsort_value_size limit (make_record_payload key value)).

Lemma small_item_inj k v k' v' :
  hashed_key_ok k → hashed_key_ok k' → small_item k v = small_item k' v' →
  k = k' ∧ make_record_payload k v = make_record_payload k' v'.
Proof. intros Hk Hk' [_ E]%(inj2 (item _)). split; [by apply payload_inj in E as [-> _]|done]. Qed.

Section Holds.
Context (m : gmap bytes bytes) (μ : gmap bytes V) (H : holds_small m μ).

Lemma small_table : dup_table (mk_dbi hash_flags m) 8.
Proof.
  split; [right; auto|]. intros b x (k & v & _ & -> & ->)%(hs_recs _ _ H). eexists. split; [reflexivity|].
  apply hash_view_fits.
Qed.

Lemma small_lookup k v : hashed_key_ok k → m !! small_item k v = Some (make_record_payload k v) →
  ∃ v', μ !! k = Some v' ∧ make_record_payload k v = make_record_payload k v'.
Proof.
  intros Hk (k' & v' & Hv & E & Ep)%(hs_recs _ _ H). destruct (hs_ok _ _ H _ _ Hv) as [Hk' _].
  apply small_item_inj in E as [-> _]; eauto.
Qed.

Lemma small_size : size m = size μ.
Proof.
  eapply (image_size m μ small_item make_record_payload); [apply H|].
  intros k v k' v' Hv Hv' E. apply small_item_inj in E as [? _]; [done|..]; by eapply (hs_ok _ _ H).
Qed.

Lemma small_insert k v :
  hashed_pair_ok (k, v) → μ !! k = None →
  m !! small_item k v = None ∧ holds_small (<[small_item k v := make_record_payload k v]> m) (<[k := v]> μ).
Proof.
  intros Hp Hn. assert (m !! small_item k v = None) as Hm.
  { apply eq_None_not_Some. intros [x Hx]. pose proof Hx as (k' & v' & Hv & E & _)%(hs_recs _ _ H).
    apply small_item_inj in E as [-> _]; [congruence|apply Hp|]. by eapply (hs_ok _ _ H). }
  split; [done|]. split; [apply map_Forall_insert_2; [done|apply H]|]. intros b x.
  rewrite lookup_insert_Some, (hs_recs _ _ H). split.
  - intros [[<- <-]|(Hb & k' & v' & Hv & -> & ->)]; [exists k, v; by rewrite lookup_insert_eq|].
    exists k', v'. rewrite lookup_insert_ne by congruence. done.
  - intros (k' & v' & [[<- <-]|[Hne Hv]]%lookup_insert_Some & -> & ->); [by left|]. right. split; [|by eauto].
    intros [? _]%small_item_inj; [done|apply Hp|]. by eapply (hs_ok _ _ H).
Qed.

Lemma small_delete k v :
  μ !! k = Some v → holds_small (delete (small_item k v) m) (delete k μ).
Proof.
  intros Hv. split; [apply map_Forall_delete, H|]. intros b x. rewrite lookup_delete_Some, (hs_recs _ _ H). split.
  - intros [Hne (k' & v' & Hv' & -> & ->)]. exists k', v'. split; [|done]. apply lookup_delete_Some.
    split; [|done]. intros <-. apply Hne. congruence.
  - intros (k' & v' & [Hne Hv']%lookup_delete_Some & -> & ->). split; [|by eauto].
    intros [? _]%small_item_inj; [done|by eapply (hs_ok _ _ H)..].
Qed.
End Holds.

Lemma small_bound v n μ : small_rep v n μ → dup_bound v m_dbi name hash_flags 8.
Proof. intros []. split; [done|]. by eapply small_table. Qed.

Lemma small_rep_mono v n n' μ : (n' ≤ n)%nat → small_rep v n μ → small_rep v n' μ.
Proof. intros Hle [???]. split; [done..|]. lia. Qed.

(** After a change of the table. *)
Lemma small_update v n n' μ f μ' :
  small_rep v n μ → holds_small (f (recs v name)) μ' → (size μ' + n' ≤ size μ + n)%nat →
  small_rep (v_update v name f) n' μ' ∧ v_frame [name] v (v_update v name f).
Proof.
  intros [Hb Hrw Hh Hf] Hh' Hle. split.
  - split; [by apply bound_update|done| |lia]. rewrite recs_updated by by eapply bound_is_Some. done.
  - apply v_only_self, v_only_update.
Qed.

(** ** Searching a bucket *)

Lemma wp_matching {A} key (found : cursor → PackedRecordView → M A) v n μ Q :
  small_rep v n μ → hashed_key_ok key →
  (μ !! key = None → Q (Ok None) v) →
  (∀ value c, μ !! key = Some value →
     on_value c m_dbi hash_flags (hash_key_view (hash_key_bytes m_hasher key)) (make_record_payload key value) →
     wp (found c {| pr_key := key; pr_value := serialize_value value |})
       (fun r v' => Q (x ← r; Ok (Some x)) v') v) →
  wp (with_matching_duplicate m_dbi fuel key (hash_key_bytes m_hasher key) found) Q v.
Proof.
  intros Hr Hk HN HF. pose proof (small_bound _ _ _ Hr) as Hb. pose proof (sr_holds _ _ _ Hr) as Hh.
  set (hv := hash_key_view (hash_key_bytes m_hasher key)) in *.
  eapply (wp_walk_bucket m_dbi name hash_flags 8 _ _ hv (fun l st v' => v' = v ∧
    (∀ value, μ !! key = Some value → make_record_payload key value ∈ l) ∧
    (∀ x, x ∈ l → ∃ k value, μ !! k = Some value ∧ x = make_record_payload k value) ∧ st = None)).
  - by intros l st v' [-> _].
  - intros x rest st c v' (-> & Hin & Hall & ->) Hc Hrest. destruct (Hall x) as (k & value & Hv & ->); [left|].
    destruct (hs_ok _ _ Hh _ _ Hv) as [Hk' _]. apply wp_lift_bind. rewrite parse_payload by done. cbv beta iota.
    rewrite key_matches_spec. cbn [pr_key]. case_bool_decide as E.
    + subst k. apply wp_bind. eapply wp_mono; [by eapply HF|]. intros [a|e] v' Hq; [by apply wp_ret|done].
    + apply wp_ret. split; [done|]. split; [|done]. split; [done|]. split; [|split; [|done]].
      * intros value' Hv'. specialize (Hin _ Hv'). apply elem_of_cons in Hin as [Heq|]; [|done].
        apply payload_inj in Heq as [-> _]; done.
      * intros y Hy. apply Hall. by right.
  - intros st v' (-> & Hin & _ & ->). apply HN. destruct (μ !! key) eqn:E; [|done]. exfalso.
    by eapply not_elem_of_nil, Hin.
  - apply hash_view_fits.
  - split; [done|]. split; [|split; [|done]].
    + intros value Hv. apply (elem_of_values _ _ _ (proj2 Hb)). apply (hs_recs _ _ Hh). eauto.
    + intros x Hx%(elem_of_values _ _ _ (proj2 Hb)). apply (hs_recs _ _ Hh) in Hx as (k & value & Hv & _ & ->). eauto.
  - rewrite (small_size _ _ Hh). pose proof (sr_fuel _ _ _ Hr). lia.
Qed.

Lemma wp_delete_found context v n μ key value c Q :
  small_rep v n μ → μ !! key = Some value →
  on_value c m_dbi hash_flags (hash_key_view (hash_key_bytes m_hasher key)) (make_record_payload key value) →
  Q (Ok tt) (v_update v name (delete (small_item key value))) →
  wp (delete_found context c {| pr_key := key; pr_value := serialize_value value |}) Q v.
Proof.
  intros Hr Hv Hc HQ. eapply wp_dup_cursor_del; [by eapply small_bound|exact Hc|apply Hr| |intros; engine_error_case|].
  - apply (hs_recs _ _ (sr_holds _ _ _ Hr)). exists key, value. done.
  - intros c' _. by apply wp_ret.
Qed.

Lemma wp_put_duplicate_payload v n μ key value Q :
  small_rep v (S n) μ → hashed_pair_ok (key, value) → μ !! key = None → small_fits key value = true →
  (small_rep (v_update v name <[small_item key value := make_record_payload key value]>) n (<[key := value]> μ) →
   Q (Ok tt) (v_update v name <[small_item key value := make_record_payload key value]>)) →
  wp (put_duplicate_payload limit m_dbi (hash_key_bytes m_hasher key) (make_record_payload key value)) Q v.
Proof.
  intros Hr Hp Hn Hfit HQ. destruct (small_insert _ _ (sr_holds _ _ _ Hr) key value Hp Hn) as [Hm Hh].
  unfold put_duplicate_payload. apply wp_lift_bind. unfold small_fits in Hfit.
  destruct (check_dupsort_value_size _ _) as [[]|]; [|done].
  eapply wp_put_nodup; [by eapply small_bound|apply hash_view_fits|apply Hr|intros; engine_error_case|..].
  - intros Hs. exfalso. unfold small_item in Hm. rewrite Hm in Hs. by destruct Hs.
  - intros _. apply wp_ret. apply HQ. eapply small_update; [done|done|]. rewrite map_size_insert_None by done. lia.
Qed.

(** ** The methods *)

Abbreviation kept := (v_frame [name]).
Abbreviation implements := (refines small_rep kept).

Lemma payload_checked key value :
  make_checked_record_payload limit key value =
  if small_fits key value then Ok (make_record_payload key value) else Throw too_large.
Proof.
  unfold make_checked_record_payload, small_fits, check_dupsort_value_size, throw_if. by case_match.
Qed.

Lemma small_get_ok key :
  hashed_key_ok key → implements 0 (small_get m_hasher m_dbi fuel key) (gives (fun μ => μ !! key)).
Proof.
  intros Hk v n μ Hr. eapply wp_matching; [done..| |].
  - intros E. exists μ. unfold gives, reads. by rewrite E.
  - intros value c E _. apply wp_lift. unfold deserialize_payload_value. cbn [pr_value].
    rewrite value_decodes by by eapply (hs_ok _ _ (sr_holds _ _ _ Hr)). exists μ. unfold gives, reads. by rewrite E.
Qed.

Lemma small_contains_ok key :
  hashed_key_ok key →
  implements 0 (small_contains m_hasher m_dbi fuel key) (gives (fun μ => bool_decide (is_Some (μ !! key)))).
Proof.
  intros Hk v n μ Hr. apply wp_bind. eapply wp_matching; [done..| |].
  - intros E. apply wp_ret. exists μ. unfold gives, reads. by rewrite E.
  - intros value c E _. apply wp_ret, wp_ret. exists μ. unfold gives, reads. by rewrite E.
Qed.

Lemma small_insert_ok key value :
  hashed_pair_ok (key, value) →
  implements 1 (small_insert_if_absent m_hasher limit m_dbi fuel key value) (insert_spec small_fits key value).
Proof.
  intros Hp v n μ Hr. apply wp_bind. eapply wp_matching; [done|apply Hp|..].
  - intros E. unfold put_duplicate. apply wp_assoc, wp_lift_bind. rewrite payload_checked.
    unfold insert_spec, does. destruct (small_fits key value) eqn:Ef.
    + apply wp_bind. eapply wp_put_duplicate_payload; [done..|]. intros Hr'. apply wp_ret.
      exists (<[key := value]> μ). rewrite E. split; [done|]. split; [done|]. apply v_only_self, v_only_update.
    + exists μ. rewrite E. split; [done|]. split; [|done]. eapply small_rep_mono; [|done]. lia.
  - intros value' c E _. apply wp_ret, wp_ret. exists μ. unfold insert_spec, does. rewrite E. split; [done|].
    split; [|done]. eapply small_rep_mono; [|done]. lia.
Qed.

(** Replacing the pair of a key, as [db_insert_or_assign] and [db_reconcile_impl] do. *)
Lemma wp_small_assign key value v n μ Q :
  hashed_pair_ok (key, value) → small_rep v (S n) μ → small_fits key value = true →
  (∀ v', small_rep v' n (<[key := value]> μ) → v_frame [name] v v' → Q (Ok tt) v') →
  wp (_ ← with_matching_duplicate m_dbi fuel key (hash_key_bytes m_hasher key)
            (delete_found "Failed to replace hashed key-value duplicate");
      put_duplicate_payload limit m_dbi (hash_key_bytes m_hasher key) (make_record_payload key value)) Q v.
Proof.
  intros Hp Hr Hf HQ. apply wp_bind. eapply wp_matching; [done|apply Hp|..].
  - intros E. eapply wp_put_duplicate_payload; [done..|]. intros Hr'. apply HQ; [done|].
    apply v_only_self, v_only_update.
  - intros value' c E Hc. eapply wp_delete_found; [done..|].
    destruct (small_update v (S n) (S n) μ (delete (small_item key value')) (delete key μ) Hr) as [Hr1 Hk1].
    { by apply small_delete; [apply Hr|]. }
    { rewrite map_size_delete, E. lia. }
    eapply wp_put_duplicate_payload; [done|done|apply lookup_delete_eq|done|]. intros Hr'.
    rewrite insert_delete_eq in Hr'. apply HQ; [done|]. etrans; [done|]. apply v_only_self, v_only_update.
Qed.

Lemma small_assign_ok key value :
  hashed_pair_ok (key, value) →
  implements 1 (small_insert_or_assign m_hasher limit m_dbi fuel key value) (assign_spec small_fits key value).
Proof.
  intros Hp v n μ Hr. apply wp_lift_bind. rewrite payload_checked. unfold assign_spec, does.
  destruct (small_fits key value) eqn:Ef.
  - eapply wp_small_assign; [done..|]. intros v' Hr' Hk. by exists (<[key := value]> μ).
  - exists μ. split; [done|]. split; [|done]. eapply small_rep_mono; [|done]. lia.
Qed.

Lemma small_erase_ok key :
  hashed_key_ok key → implements 0 (small_erase m_hasher m_dbi fuel key) (erase_spec key).
Proof.
  intros Hk v n μ Hr. apply wp_bind. unfold erase_spec, does. eapply wp_matching; [done..| |].
  - intros E. apply wp_ret. exists μ. rewrite E, delete_id by done. done.
  - intros value c E Hc. eapply wp_delete_found; [done..|]. apply wp_ret. exists (delete key μ).
    rewrite E. split; [done|]. apply (small_update v n n μ); [done| |].
    + by apply small_delete; [apply Hr|].
    + rewrite map_size_delete, E. lia.
Qed.

Lemma small_count_ok : implements 0 (small_count m_dbi) (gives (fun μ => Z.of_nat (size μ))).
Proof.
  intros v n μ Hr. eapply wp_dup_stat; [by eapply small_bound|intros; engine_error_case|].
  apply wp_ret_bind, wp_ret. exists μ. rewrite (small_size _ _ (sr_holds _ _ _ Hr)). done.
Qed.

Lemma small_clear_ok : implements 0 (small_clear m_dbi) (does (fun _ => (Ok tt, ∅))).
Proof.
  intros v n μ Hr. apply wp_bind. intros s Hs. unfold drop_table.
  destruct (mdbx_drop s m_dbi) as [rc s'] eqn:E. left. subst v.
  destruct (law_drop _ _ _ _ _ _ E (bound_table _ _ _ _ (sr_bound _ _ _ Hr)) (sr_rw _ _ _ Hr)) as [He|[-> ->]];
    [engine_error_case|]. apply wp_ret. exists ∅. split; [done|].
  apply (small_update (view s) n n μ); [done| |rewrite map_size_empty; lia].
  split; [apply map_Forall_empty|]. intros b x. rewrite lookup_empty. split; [done|].
  intros (k & y & Hy & _). by rewrite lookup_empty in Hy.
Qed.

Lemma small_load_ok :
  implements 0 (small_load m_dbi fuel []) (reads (fun μ r => ∃ l, r = Ok l ∧ l ≡ₚ map_to_list μ)).
Proof.
  intros v n μ Hr. pose proof (sr_holds _ _ _ Hr) as Hh.
  eapply wp_dup_scan; [by eapply small_bound|done|rewrite (small_size _ _ Hh); pose proof (sr_fuel _ _ _ Hr); lia|].
  set (l := dup_pairs _ _). assert (l.*2 = (recs_where (recs v name) (scan_range MDBX_NEXT (bucket_of hash_flags []))).*2) as El.
  { unfold l, dup_pairs. by rewrite <- list_fmap_compose. }
  destruct (load_content corrupted_duplicate l μ) as (ps & Hps & Hperm).
  - apply Hh.
  - rewrite El. apply NoDup_fmap_2_strong.
    + intros [b x] [b' x'] [_ Hx]%elem_of_recs_where [_ Hx']%elem_of_recs_where E. cbn in E. subst x'.
      apply (hs_recs _ _ Hh) in Hx as (k & y & Hy & -> & ->), Hx' as (k' & y' & Hy' & -> & E).
      apply payload_inj in E as [-> _]; [|by eapply (hs_ok _ _ Hh)..]. congruence.
    + apply recs_where_NoDup.
  - intros x. rewrite El, list_elem_of_fmap. split.
    + intros ([b y] & -> & [_ Hy]%elem_of_recs_where). apply (hs_recs _ _ Hh) in Hy as (k & z & Hz & _ & ->). eauto.
    + intros (k & y & Hy & ->). exists (small_item k y, make_record_payload k y). split; [done|].
      apply elem_of_recs_where. split; [done|]. apply (hs_recs _ _ Hh). eauto.
  - rewrite Hps. exists μ. split; [|by split]. split; [by eauto|done].
Qed.

(** ** Reconciling *)

Lemma small_assign_all_ok container :
  Forall hashed_pair_ok container →
  implements (length container) (small_assign_all m_hasher limit m_dbi fuel container) (assign_all_spec small_fits container).
Proof.
  induction 1 as [|[key value] rest Hp _ IH]; [by apply (rel_refines_ret small_rep kept)|].
  intros v n μ Hr. cbn [small_assign_all length assign_all_spec] in *. apply wp_lift_bind. rewrite payload_checked.
  unfold then_, assign_spec, does. destruct (small_fits key value) eqn:Ef.
  - apply wp_assoc'. apply wp_bind. eapply wp_small_assign; [done|exact Hr|done|]. intros v1 Hr1 Hk1.
    eapply wp_mono; [by eapply IH|]. intros r v2 (μ2 & Hs & Hr2 & Hk2). exists μ2. split; [right; by eauto|].
    split; [done|by etrans].
  - exists μ. split; [left; by eauto|]. split; [|done]. eapply small_rep_mono; [|done]. lia.
Qed.

Lemma small_record v n μ b x :
  small_rep v n μ → recs v name !! b = Some x →
  ∃ k value, μ !! k = Some value ∧ b = small_item k value ∧ x = make_record_payload k value ∧ hashed_key_ok k.
Proof.
  intros Hr (k & value & Hv & -> & ->)%(hs_recs _ _ (sr_holds _ _ _ Hr)). exists k, value.
  split_and!; [done..|]. by eapply (hs_ok _ _ (sr_holds _ _ _ Hr)).
Qed.

Lemma wp_small_stale (desired : gset bytes) c i v n μ :
  small_rep v n μ → cursor_dbi c = m_dbi → (length (dup_ahead hash_flags (recs v name) c MDBX_NEXT []) < i)%nat →
  (∀ k value, μ !! k = Some value → k ∉ desired →
     (small_item k value, make_record_payload k value) ∈ dup_ahead hash_flags (recs v name) c MDBX_NEXT []) →
  wp (small_stale_loop i desired c) (fun r v' =>
    r = Ok tt ∧ small_rep v' n (filter (fun p => p.1 ∈ desired) μ) ∧ v_frame [name] v v') v.
Proof.
  revert c v μ. induction i as [|i IH]; intros c v μ Hr Hc Hi Hst; [lia|].
  eapply wp_dup_move; [by eapply small_bound|done|done|intros; engine_error_case|].
  destruct (dup_ahead _ _ _ _ _) as [|[b x] rest] eqn:Ea.
  { intros k0 x0 c0 _. apply wp_ret. split; [done|]. rewrite map_filter_id; [done|]. intros k value Hv. cbn.
    destruct (decide (k ∈ desired)) as [|Hn]; [done|]. by destruct (not_elem_of_nil _ (Hst _ _ Hv Hn)). }
  intros hv c' -> Hc' Hx _ Hrest. destruct (small_record _ _ _ _ _ Hr Hx) as (k & value & Hv & Eb & -> & Hk).
  rewrite Eb in *. apply wp_lift_bind. rewrite parse_payload by done. cbv beta iota. cbn [pr_key].
  assert (∀ k' value', μ !! k' = Some value' → k' ∉ desired → k' ≠ k →
    (small_item k' value', make_record_payload k' value') ∈ rest) as Hst'.
  { intros k' value' Hv' Hn Hne. destruct (proj1 (elem_of_cons _ _ _) (Hst _ _ Hv' Hn)) as [E|]; [|done].
    apply (f_equal fst) in E. cbn [fst] in E. apply small_item_inj in E as [? _]; [done| |done]. by eapply (hs_ok _ _ (sr_holds _ _ _ Hr)). }
  case_bool_decide as Hd.
  - apply IH; [done|apply Hc'|rewrite <- Hrest; cbn in Hi; lia|]. rewrite <- Hrest. intros k' value' Hv' Hn.
    apply Hst'; [done..|]. by intros ->.
  - unfold small_item in Eb. apply (inj2 (item _)) in Eb as [-> _].
    eapply wp_dup_cursor_del; [by eapply small_bound|exact Hc'|apply Hr|exact Hx|intros; engine_error_case|].
    intros c2 Hc2. fold (small_item k value). apply wp_ret_bind. destruct (small_update v n n μ (delete (small_item k value)) (delete k μ) Hr) as [Hr1 Hk1].
    { by apply small_delete; [apply Hr|]. }
    { rewrite map_size_delete, Hv. lia. }
    assert (dup_ahead hash_flags (recs (v_update v name (delete (small_item k value))) name) c2 MDBX_NEXT [] = rest) as Ea2.
    { rewrite recs_updated by (eapply bound_is_Some, Hr). rewrite Hrest. unfold dup_ahead.
      rewrite (proj2 Hc2), (proj2 Hc'). apply recs_where_delete. apply bytes_lt_irrefl. }
    eapply wp_mono; [apply (IH c2 _ (delete k μ)); [done|apply Hc2|rewrite Ea2; cbn in Hi; lia|]|].
    + rewrite Ea2. intros k' value' [Hne Hv']%lookup_delete_Some Hn. by apply Hst'.
    + intros r v' (-> & Hr' & Hk'). rewrite map_filter_delete_not in Hr' by naive_solver. split_and!; [done|done|by etrans].
Qed.

Lemma small_reconcile_ok container :
  Forall hashed_pair_ok container →
  implements (length container) (small_reconcile m_hasher limit m_dbi fuel container) (reconcile_spec small_fits container).
Proof.
  intros Hp. rewrite <- (Nat.add_0_r (length container)).
  apply (rel_refines_bind small_rep kept); [apply small_rep_mono|by apply small_assign_all_ok|].
  intros [] v n μ Hr. pose proof (sr_holds _ _ _ Hr) as Hh.
  eapply wp_dup_open; [by eapply small_bound|]. intros c Hc Hi.
  assert (∀ r, r ∈ dup_ahead hash_flags (recs v name) c MDBX_NEXT [] ↔ recs v name !! r.1 = Some r.2) as Ha.
  { intros [b x]. unfold dup_ahead. rewrite Hi, elem_of_recs_where. cbn. naive_solver. }
  eapply wp_mono; [eapply wp_small_stale with (n := n) (μ := μ); [done|done|..]|].
  - eapply Nat.le_lt_trans; [apply recs_where_length|]. rewrite (small_size _ _ Hh). pose proof (sr_fuel _ _ _ Hr). lia.
  - intros k value Hv _. apply Ha. apply (hs_recs _ _ Hh). eauto.
  - intros r v' (-> & Hr' & Hk). eexists. split; [reflexivity|]. split; [|done].
    erewrite (proj1 (map_filter_ext _ _ μ)); [exact Hr'|].
    intros k value _. cbn. by rewrite elem_of_list_to_set.
Qed.

Lemma small_laws : HashedLaws (small_ops m_hasher limit m_dbi) fuel small_fits small_rep kept.
Proof.
  split; [apply small_rep_mono|apply _|apply small_get_ok|apply small_contains_ok|apply small_insert_ok|apply small_assign_ok|
    apply small_erase_ok|apply small_count_ok|apply small_load_ok|apply small_reconcile_ok|apply small_clear_ok].
Qed.
End Small.
