(* ===== verification/HashedLarge.v ===== *)
(** * The layout for large values

    A record per key under its hash and an ordinal, and an index with the ordinals of each
    hash.  The invariant relates both tables to a finite map [σ] from keys to ordinals and
    values: keys with the same hash have different ordinals, and the index has an entry for
    each record.  A new record gets the ordinal after the largest of its bucket, so that the
    ordinals run out only after as many insertions: a store with room for [n] more pairs has
    [n] more ordinals in each bucket. *)
From S2P Require Import Prelude SyncCommon KeyCodec Mdbx DupSort DupRules Clients TableBase HashedStore HashedSpec HashedSmall.
Open Scope Z_scope.

Lemma make_record_key_inj h o h' o' :
  is_u64 h → is_u64 o → is_u64 h' → is_u64 o' → make_record_key h o = make_record_key h' o' → h = h' ∧ o = o'.
Proof.
  intros Hh Ho Hh' Ho' E. apply app_inj_1 in E as [E1 E2]; [|by rewrite !write_u64_le_length].
  split; [rewrite <- (read_write_u64_le h []), <- (read_write_u64_le h' []) by done; by rewrite E1|].
  rewrite <- (read_write_u64_le o []), <- (read_write_u64_le o' []) by done. by rewrite E2.
Qed.

Lemma ordinal_view_inj o o' : is_u64 o → is_u64 o' → ordinal_view o = ordinal_view o' → o = o'.
Proof.
  intros Ho Ho' E. rewrite <- (read_write_u64_le o []), <- (read_write_u64_le o' []) by done. unfold ordinal_view in E. by rewrite E.
Qed.

Lemma read_ordinal_view o : is_u64 o → read_ordinal (ordinal_view o) = Ok o.
Proof.
  intros Ho. unfold read_ordinal, ordinal_view, size_of. rewrite write_u64_le_length. cbn [negb].
  rewrite <- (app_nil_r (write_u64_le o)) at 1. by rewrite read_write_u64_le.
Qed.

Lemma decode_record_key_made h o : is_u64 h → is_u64 o → decode_record_key (make_record_key h o) = Some (h, o).
Proof.
  intros Hh Ho. unfold decode_record_key, make_record_key, size_of.
  rewrite length_app, !write_u64_le_length. cbn [negb]. rewrite read_write_u64_le by done.
  rewrite drop_app_length' by (by rewrite write_u64_le_length).
  rewrite <- (app_nil_r (write_u64_le o)). by rewrite read_write_u64_le.
Qed.

Section Large.
Context {X : Mdbx} {D : MdbxDup X} {L : MdbxLaws X} {DL : MdbxDupLaws X D L} {V : Type} `{!TableValue V}.
Context (m_hasher : bytes → Z) (limit m_dbi m_index_dbi : Z) (name index : bytes) (fuel : nat).
Context (Hdiff : name ≠ index) (Hlimit : limit ≤ 0 ∨ 8 ≤ limit).
Abbreviation hash_of := (hash_key_bytes m_hasher).

Definition index_item (key : bytes) (ordinal : Z) : bytes :=
  item hash_flags (hash_key_view (hash_of key)) (ordinal_view ordinal).

Record holds_large (R J : gmap bytes bytes) (σ : gmap bytes (Z * V)) : Prop := {
  hl_ok k o v : σ !! k = Some (o, v) → hashed_pair_ok (k, v) ∧ is_u64 o;
  hl_inj k k' o v v' : σ !! k = Some (o, v) → σ !! k' = Some (o, v') → hash_of k = hash_of k' → k = k';
  hl_recs b x : R !! b = Some x ↔
    ∃ k o v, σ !! k = Some (o, v) ∧ b = make_record_key (hash_of k) o ∧ x = make_record_payload k v;
  hl_index b x : J !! b = Some x ↔
    ∃ k o v, σ !! k = Some (o, v) ∧ b = index_item k o ∧ x = ordinal_view o;
}.

(** [n] more ordinals are free in every bucket. *)
Definition ordinals_left (n : nat) (σ : gmap bytes (Z * V)) : Prop :=
  Z.of_nat n ≤ 2 ^ 64 ∧ map_Forall (fun _ p => p.1 + Z.of_nat n < 2 ^ 64) σ.

Record large_state (v : db_view) (n : nat) (σ : gmap bytes (Z * V)) : Prop := {
  ls_bound : bound v m_dbi name 0;
  ls_index : bound v m_index_dbi index hash_flags;
  ls_rw : v_rw v = true;
  ls_holds : holds_large (recs v name) (recs v index) σ;
  ls_left : ordinals_left n σ;
  ls_fuel : (size σ + n < fuel)%nat;
}.

Definition large_rep (v : db_view) (n : nat) (μ : gmap bytes V) : Prop :=
  ∃ σ, μ = snd <$> σ ∧ large_state v n σ.

Lemma hash_range k : is_u64 (hash_of k).
Proof. unfold hash_key_bytes, u_range. apply Z.mod_pos_bound. lia. Qed.

Lemma index_item_inj k o k' o' :
  is_u64 o → is_u64 o' → index_item k o = index_item k' o' → hash_of k = hash_of k' ∧ o = o'.
Proof.
  intros Ho Ho' [E1 E2]%(inj2 (item _)). split; [|by apply ordinal_view_inj].
  apply (ordinal_view_inj _ _ (hash_range k) (hash_range k') E1).
Qed.

Lemma record_key_inj k o k' o' :
  is_u64 o → is_u64 o' → make_record_key (hash_of k) o = make_record_key (hash_of k') o' → hash_of k = hash_of k' ∧ o = o'.
Proof. intros Ho Ho'. apply make_record_key_inj; [apply hash_range|done|apply hash_range|done]. Qed.

Section Holds.
Context (R J : gmap bytes bytes) (σ : gmap bytes (Z * V)) (H : holds_large R J σ).

Lemma hl_ok_key k o v : σ !! k = Some (o, v) → hashed_key_ok k.
Proof. intros Hk. apply (hl_ok _ _ _ H _ _ _ Hk). Qed.

Lemma large_index_table : dup_table (mk_dbi hash_flags J) 8.
Proof.
  split; [right; auto|]. intros b x (k & o & v & _ & -> & ->)%(hl_index _ _ _ H). eexists. split; [reflexivity|].
  apply hash_view_fits.
Qed.

(** The key of a record is determined by its place. *)
Lemma large_place k o v k' o' v' :
  σ !! k = Some (o, v) → σ !! k' = Some (o', v') →
  make_record_key (hash_of k) o = make_record_key (hash_of k') o' ∨ index_item k o = index_item k' o' → k = k'.
Proof.
  intros Hk Hk' E. destruct (hl_ok _ _ _ H _ _ _ Hk) as [_ Ho]. destruct (hl_ok _ _ _ H _ _ _ Hk') as [_ Ho'].
  assert (hash_of k = hash_of k' ∧ o = o') as [Eh ->].
  { destruct E as [E|E]; [by apply record_key_inj in E|by apply index_item_inj in E]. }
  by eapply (hl_inj _ _ _ H).
Qed.

Lemma large_sizes : size R = size σ ∧ size J = size σ.
Proof.
  split.
  - apply (image_size R σ (fun k p => make_record_key (hash_of k) p.1) (fun k p => make_record_payload k p.2)).
    + intros b x. rewrite (hl_recs _ _ _ H). split.
      * intros (k & o & v & Hv & -> & ->). by exists k, (o, v).
      * intros (k & [o v] & Hv & -> & ->). by exists k, o, v.
    + intros k [o v] k' [o' v'] Hk Hk' E. cbn in E. eapply large_place; eauto.
  - apply (image_size J σ (fun k p => index_item k p.1) (fun k p => ordinal_view p.1)).
    + intros b x. rewrite (hl_index _ _ _ H). split.
      * intros (k & o & v & Hv & -> & ->). by exists k, (o, v).
      * intros (k & [o v] & Hv & -> & ->). by exists k, o, v.
    + intros k [o v] k' [o' v'] Hk Hk' E. cbn in E. eapply large_place; eauto.
Qed.

(** A new key with an ordinal that its bucket does not have. *)
Section Fresh.
Context (k : bytes) (o : Z) (v : V).
Context (Hp : hashed_pair_ok (k, v)) (Ho : is_u64 o) (Hk : σ !! k = None).
Context (Hfresh : ∀ k' o' v', σ !! k' = Some (o', v') → hash_of k' = hash_of k → o' ≠ o).

Lemma fresh_record : R !! make_record_key (hash_of k) o = None.
Proof.
  apply eq_None_not_Some. intros [x (k' & o' & v' & Hv & E & _)%(hl_recs _ _ _ H)].
  destruct (hl_ok _ _ _ H _ _ _ Hv) as [_ Ho']. apply record_key_inj in E as [Eh ->]; [|done..].
  by eapply Hfresh.
Qed.

Lemma fresh_entry : J !! index_item k o = None.
Proof.
  apply eq_None_not_Some. intros [x (k' & o' & v' & Hv & E & _)%(hl_index _ _ _ H)].
  destruct (hl_ok _ _ _ H _ _ _ Hv) as [_ Ho']. apply index_item_inj in E as [Eh ->]; [|done..].
  by eapply Hfresh.
Qed.

Lemma large_insert :
  holds_large (<[make_record_key (hash_of k) o := make_record_payload k v]> R)
    (<[index_item k o := ordinal_view o]> J) (<[k := (o, v)]> σ).
Proof.
  split.
  - intros k' o' v' [[<- [= <- <-]]|[_ Hv]]%lookup_insert_Some; [done|]. by eapply (hl_ok _ _ _ H).
  - intros a b o' va vb Ha Hb Eh. rewrite !lookup_insert_Some in Ha, Hb.
    destruct Ha as [[<- Ea]|[Hna Ha]], Hb as [[<- Eb]|[Hnb Hb]]; [done| | |by eapply (hl_inj _ _ _ H)].
    + injection Ea as <- <-. by destruct (Hfresh _ _ _ Hb).
    + injection Eb as <- <-. by destruct (Hfresh _ _ _ Ha).
  - intros b x. rewrite lookup_insert_Some, (hl_recs _ _ _ H). split.
    + intros [[<- <-]|(_ & k' & o' & v' & Hv & -> & ->)]; [exists k, o, v; by rewrite lookup_insert_eq|].
      exists k', o', v'. rewrite lookup_insert_ne by congruence. done.
    + intros (k' & o' & v' & [[<- [= <- <-]]|[Hne Hv]]%lookup_insert_Some & -> & ->); [by left|].
      right. split; [|by eauto 10]. intros E. pose proof fresh_record as Hf. rewrite E in Hf.
      assert (R !! make_record_key (hash_of k') o' = Some (make_record_payload k' v')) by (apply (hl_recs _ _ _ H); eauto 10).
      congruence.
  - intros b x. rewrite lookup_insert_Some, (hl_index _ _ _ H). split.
    + intros [[<- <-]|(_ & k' & o' & v' & Hv & -> & ->)]; [exists k, o, v; by rewrite lookup_insert_eq|].
      exists k', o', v'. rewrite lookup_insert_ne by congruence. done.
    + intros (k' & o' & v' & [[<- [= <- <-]]|[Hne Hv]]%lookup_insert_Some & -> & ->); [by left|].
      right. split; [|by eauto 10]. intros E. pose proof fresh_entry as Hf. rewrite E in Hf.
      assert (J !! index_item k' o' = Some (ordinal_view o')) by (apply (hl_index _ _ _ H); eauto 10).
      congruence.
Qed.
End Fresh.

Lemma large_assign k o v v' :
  σ !! k = Some (o, v) → hashed_pair_ok (k, v') →
  holds_large (<[make_record_key (hash_of k) o := make_record_payload k v']> R) J (<[k := (o, v')]> σ).
Proof.
  intros Hk Hp. destruct (hl_ok _ _ _ H _ _ _ Hk) as [_ Ho]. split.
  - intros a oa va [[<- [= <- <-]]|[_ Ha]]%lookup_insert_Some; [done|]. by eapply (hl_ok _ _ _ H).
  - intros a b oa va vb Ha Hb Eh. rewrite !lookup_insert_Some in Ha, Hb.
    destruct Ha as [[<- Ea]|[Hna Ha]], Hb as [[<- Eb]|[Hnb Hb]]; [done|..|by eapply (hl_inj _ _ _ H)].
    + injection Ea as <- <-. by eapply (hl_inj _ _ _ H).
    + injection Eb as <- <-. by eapply (hl_inj _ _ _ H).
  - intros b x. rewrite lookup_insert_Some, (hl_recs _ _ _ H). split.
    + intros [[<- <-]|(Hne & a & oa & va & Ha & -> & ->)]; [exists k, o, v'; by rewrite lookup_insert_eq|].
      exists a, oa, va. rewrite lookup_insert_ne; [done|]. intros <-. congruence.
    + intros (a & oa & va & [[<- [= <- <-]]|[Hne Ha]]%lookup_insert_Some & -> & ->); [by left|].
      right. split; [|by eauto 10]. intros E. apply Hne. eapply large_place; eauto.
  - intros b x. rewrite (hl_index _ _ _ H). split.
    + intros (a & oa & va & Ha & -> & ->). destruct (decide (a = k)) as [->|Hne].
      * exists k, oa, v'. rewrite lookup_insert_eq. split; [|done]. congruence.
      * exists a, oa, va. by rewrite lookup_insert_ne.
    + intros (a & oa & va & [[<- [= <- <-]]|[Hne Ha]]%lookup_insert_Some & -> & ->); eauto 10.
Qed.

Lemma large_delete k o v :
  σ !! k = Some (o, v) → holds_large (delete (make_record_key (hash_of k) o) R) (delete (index_item k o) J) (delete k σ).
Proof.
  intros Hk. split.
  - intros a oa va [_ Ha]%lookup_delete_Some. by eapply (hl_ok _ _ _ H).
  - intros a b oa va vb [_ Ha]%lookup_delete_Some [_ Hb]%lookup_delete_Some. by eapply (hl_inj _ _ _ H).
  - intros b x. rewrite lookup_delete_Some, (hl_recs _ _ _ H). split.
    + intros (Hne & a & oa & va & Ha & -> & ->). exists a, oa, va. rewrite lookup_delete_ne; [done|]. intros <-. congruence.
    + intros (a & oa & va & [Hne Ha]%lookup_delete_Some & -> & ->). split; [|by eauto 10].
      intros E. apply Hne. eapply large_place; eauto.
  - intros b x. rewrite lookup_delete_Some, (hl_index _ _ _ H). split.
    + intros (Hne & a & oa & va & Ha & -> & ->). exists a, oa, va. rewrite lookup_delete_ne; [done|]. intros <-. congruence.
    + intros (a & oa & va & [Hne Ha]%lookup_delete_Some & -> & ->). split; [|by eauto 10].
      intros E. apply Hne. eapply large_place; eauto.
Qed.
End Holds.

Abbreviation kept := (v_frame [name; index]).
Abbreviation implements := (refines large_rep kept).

Lemma large_bound v n σ : large_state v n σ → dup_bound v m_index_dbi index hash_flags 8.
Proof. intros []. split; [done|]. by eapply large_index_table. Qed.

Lemma ordinals_mono n n' σ : (n' ≤ n)%nat → ordinals_left n σ → ordinals_left n' σ.
Proof. intros Hle [H1 H2]. split; [lia|]. eapply map_Forall_impl; [exact H2|]. cbn. lia. Qed.

Lemma large_state_mono v n n' σ : (n' ≤ n)%nat → large_state v n σ → large_state v n' σ.
Proof. intros Hle []. split; [done..|by eapply ordinals_mono|lia]. Qed.

Lemma large_rep_mono v n n' μ : (n' ≤ n)%nat → large_rep v n μ → large_rep v n' μ.
Proof. intros Hle (σ & -> & Hs). exists σ. split; [done|]. by eapply large_state_mono. Qed.

(** After a change of the records and one of the index. *)
Lemma large_change v n n' σ f g σ' :
  large_state v n σ → holds_large (f (recs v name)) (g (recs v index)) σ' → ordinals_left n' σ' →
  (size σ' + n' ≤ size σ + n)%nat →
  large_state (v_update (v_update v name f) index g) n' σ' ∧ kept v (v_update (v_update v name f) index g).
Proof.
  intros [Hb Hi Hrw _ _ Hf] Hh Ho Hle. split.
  - split; [by do 2 apply bound_update|by do 2 apply bound_update|done| |done|lia].
    rewrite recs_other by done. rewrite recs_updated by by eapply bound_is_Some.
    rewrite recs_updated by by eapply bound_is_Some, bound_update. by rewrite recs_other.
  - etrans; eapply v_only_frame; [|apply v_only_update| |apply v_only_update]; set_solver.
Qed.

(** ** Searching a bucket *)

Lemma wp_get_record {A} b (f : Z * bytes → M A) v n σ Q :
  large_state v n σ →
  (∀ rc x, engine_error rc → wp (f (rc, x)) Q v) →
  match recs v name !! b with
  | Some x => wp (f (MDBX_SUCCESS, x)) Q v
  | None => ∀ x, wp (f (MDBX_NOTFOUND, x)) Q v
  end → wp (get m_dbi b ≫= f) Q v.
Proof.
  intros Hs HE HQ. apply wp_bind. intros s Hv. left. subst v. destruct (mdbx_get s m_dbi b) as [rc x] eqn:E.
  destruct (law_get _ _ _ _ _ _ _ E (bound_table _ _ _ _ (ls_bound _ _ _ Hs)) eq_refl) as [He|[[-> Hx]|[-> Hx]]];
    [auto|..]; cbn [dv_recs] in Hx; rewrite Hx in HQ; auto.
Qed.

Definition located (key : bytes) (o : Z) : LocatedRecord :=
  {| lr_hash := hash_of key; lr_ordinal := o; lr_record_key := make_record_key (hash_of key) o |}.

Lemma large_record v n σ k o value :
  large_state v n σ → σ !! k = Some (o, value) →
  recs v name !! make_record_key (hash_of k) o = Some (make_record_payload k value).
Proof. intros Hs Hk. apply (hl_recs _ _ _ (ls_holds _ _ _ Hs)). eauto 10. Qed.

Lemma large_bucket v n σ key x :
  large_state v n σ →
  x ∈ values hash_flags (recs v index) (hash_key_view (hash_of key)) ↔
  ∃ k o value, σ !! k = Some (o, value) ∧ hash_of k = hash_of key ∧ x = ordinal_view o.
Proof.
  intros Hs. pose proof (ls_holds _ _ _ Hs) as Hh. rewrite (elem_of_values _ _ _ (large_index_table _ _ _ Hh)).
  rewrite (hl_index _ _ _ Hh). split.
  - intros (k & o & value & Hk & E & ->). exists k, o, value. split; [done|]. split; [|done].
    apply (inj2 (item _)) in E as [E _]. symmetry. apply (ordinal_view_inj _ _ (hash_range _) (hash_range _) E).
  - intros (k & o & value & Hk & E & ->). exists k, o, value. unfold index_item. by rewrite E.
Qed.

Lemma wp_find key v n σ Q :
  large_state v n σ → hashed_key_ok key →
  (σ !! key = None → Q (Ok None) v) →
  (∀ o value, σ !! key = Some (o, value) → Q (Ok (Some (located key o))) v) →
  wp (db_find_record_bytes m_dbi m_index_dbi fuel key (hash_of key)) Q v.
Proof.
  intros Hs Hk HN HF. pose proof (ls_holds _ _ _ Hs) as Hh. pose proof (large_bound _ _ _ Hs) as Hb.
  eapply (wp_walk_bucket m_index_dbi index hash_flags 8 _ _ (hash_key_view (hash_of key)) (fun l st v' => v' = v ∧
    (∀ o value, σ !! key = Some (o, value) → ordinal_view o ∈ l) ∧
    (∀ x, x ∈ l → ∃ k o value, σ !! k = Some (o, value) ∧ hash_of k = hash_of key ∧ x = ordinal_view o) ∧ st = None)).
  - by intros l st v' [-> _].
  - intros x rest st c v' (-> & Hin & Hall & ->) Hc Hrest.
    destruct (Hall x) as (k & o & value & Hv & Eh & ->); [left|]. destruct (hl_ok _ _ _ Hh _ _ _ Hv) as [[Hk' _] Ho].
    apply wp_lift_bind. rewrite read_ordinal_view by done. cbv beta iota.
    pose proof (large_record _ _ _ _ _ _ Hs Hv) as Hrec. rewrite Eh in Hrec.
    eapply wp_get_record; [done|intros; engine_error_case|]. rewrite Hrec.
    apply wp_ret_bind, wp_lift_bind. rewrite parse_payload by done. cbv beta iota. rewrite key_matches_spec. cbn [pr_key].
    case_bool_decide as E; apply wp_ret.
    + subst k. by eapply HF.
    + split; [done|]. split; [|done]. split; [done|]. split; [|split; [|done]].
      * intros o' value' Hv'. specialize (Hin _ _ Hv'). apply elem_of_cons in Hin as [Heq|]; [|done].
        apply ordinal_view_inj in Heq as ->; [|by eapply (hl_ok _ _ _ Hh)|done].
        destruct E. by eapply (hl_inj _ _ _ Hh).
      * intros y Hy. apply Hall. by right.
  - intros st v' (-> & Hin & _ & ->). apply HN. destruct (σ !! key) as [[o value]|] eqn:E; [|done]. exfalso.
    by eapply not_elem_of_nil, Hin.
  - apply hash_view_fits.
  - split; [done|]. split; [|split; [|done]].
    + intros o value Hv. eapply large_bucket; [done|]. eauto 10.
    + intros x Hx. by eapply large_bucket.
  - rewrite (proj2 (large_sizes _ _ _ Hh)). pose proof (ls_fuel _ _ _ Hs). lia.
Qed.

(** The ordinal for a new record is not in use, and leaves as many as promised. *)
Lemma wp_next_ordinal key v n σ Q :
  large_state v (S n) σ →
  (∀ o, is_u64 o → o + Z.of_nat n < 2 ^ 64 →
     (∀ k o' value, σ !! k = Some (o', value) → hash_of k = hash_of key → o' ≠ o) → Q (Ok o) v) →
  wp (next_ordinal m_index_dbi fuel (hash_of key)) Q v.
Proof.
  intros Hs HQ. pose proof (ls_holds _ _ _ Hs) as Hh. pose proof (large_bound _ _ _ Hs) as Hb.
  destruct (ls_left _ _ _ Hs) as [Hn Hleft]. apply wp_bind.
  eapply (wp_walk_bucket m_index_dbi index hash_flags 8 _ _ (hash_key_view (hash_of key)) (fun l st v' => v' = v ∧
    (∀ k o value, σ !! k = Some (o, value) → hash_of k = hash_of key → ordinal_view o ∈ l ∨ st.2 = true ∧ o ≤ st.1) ∧
    (∀ x, x ∈ l → ∃ k o value, σ !! k = Some (o, value) ∧ hash_of k = hash_of key ∧ x = ordinal_view o) ∧
    (st = (0, false) ∨ st.2 = true ∧ is_u64 st.1 ∧ st.1 + Z.of_nat (S n) < 2 ^ 64))).
  - by intros l st v' [-> _].
  - intros x rest [mo has] c v' (-> & Hcov & Hall & Hst) Hc Hrest.
    destruct (Hall x) as (k & o & value & Hv & Eh & ->); [left|]. destruct (hl_ok _ _ _ Hh _ _ _ Hv) as [_ Ho].
    apply wp_lift_bind. rewrite read_ordinal_view by done. cbv beta iota. apply wp_ret.
    split; [done|]. split; [|done]. split; [done|]. cbn [fst snd] in *.
    specialize (Hleft _ _ Hv). cbn [fst] in Hleft. split; [|split].
    + intros k' o' value' Hv' Eh'. destruct (Hcov _ _ _ Hv' Eh') as [Hin|[-> Hle]].
      * apply elem_of_cons in Hin as [E|?]; [|by left]. right. apply ordinal_view_inj in E as ->;
          [|by eapply (hl_ok _ _ _ Hh)|done]. destruct (negb has || (o >? mo)) eqn:Eg; cbn [fst snd]; [by split; [|lia]|].
        apply orb_false_iff in Eg as [Eb Eg]. zbool. destruct has; [|done]. split; [done|lia].
      * right. cbn [negb orb]. destruct (o >? mo) eqn:Eg; zbool; cbn [fst snd]; split; done || lia.
    + intros y Hy. apply Hall. by right.
    + right. destruct (negb has || (o >? mo)) eqn:Eg; cbn [fst snd]; [done|].
      apply orb_false_iff in Eg as [Eb _]. destruct has; [|done]. destruct Hst as [[=]|Hst]. done.
  - intros [mo has] v' (-> & Hcov & _ & Hst). cbn [fst snd] in *. destruct Hst as [[= -> ->]|(-> & Hmo & Hlt)].
    + change (0 =? 2 ^ 64 - 1) with false. cbv iota. apply wp_ret, HQ; [unfold u_range; lia|lia|].
      intros k o' value Hv Eh. destruct (Hcov _ _ _ Hv Eh) as [Hin|[[=] _]]. by apply not_elem_of_nil in Hin.
    + destruct (mo =? 2 ^ 64 - 1) eqn:E; zbool; [lia|]. unfold u_range in Hmo. rewrite Z.mod_small by lia.
      apply wp_ret, HQ; [unfold u_range; lia|lia|]. intros k o' value Hv Eh ->.
      destruct (Hcov _ _ _ Hv Eh) as [Hin|[_ Hle]]; [by apply not_elem_of_nil in Hin|lia].
  - apply hash_view_fits.
  - split; [done|]. split; [|split; [|by left]].
    + intros k o value Hv Eh. left. eapply large_bucket; [done|]. eauto 10.
    + intros x Hx. by eapply large_bucket.
  - rewrite (proj2 (large_sizes _ _ _ Hh)). pose proof (ls_fuel _ _ _ Hs). lia.
Qed.

(** ** Changing the tables *)

Lemma ordinal_fits_limit o : check_dupsort_value_size limit (ordinal_view o) = Ok tt.
Proof.
  unfold check_dupsort_value_size, throw_if, size_of, ordinal_view. rewrite write_u64_le_length.
  destruct (_ >? 0) eqn:E1; [|done]. destruct (_ >? limit) eqn:E2; [|done]. zbool. lia.
Qed.

Lemma wp_put_new_record key value v n σ Q :
  large_state v (S n) σ → hashed_pair_ok (key, value) → σ !! key = None →
  (∀ o v', large_state v' n (<[key := (o, value)]> σ) → kept v v' → Q (Ok tt) v') →
  wp (put_new_record limit m_dbi m_index_dbi fuel key (hash_of key) value) Q v.
Proof.
  intros Hs Hp Hk HQ. pose proof (ls_holds _ _ _ Hs) as Hh. apply wp_bind. eapply wp_next_ordinal; [done|].
  intros o Ho Hlt Hfresh. pose proof (fresh_record _ _ _ Hh key o Ho Hfresh) as Hfr.
  pose proof (fresh_entry _ _ _ Hh key o Ho Hfresh) as Hfe.
  pose proof (large_insert _ _ _ Hh key o value Hp Ho Hk Hfresh) as Hh'.
  apply wp_bind. eapply wp_put_new; [apply Hs|done|apply Hs| |intros [x Hx]; congruence]. intros _.
  unfold put_index_entry. apply wp_lift_bind. rewrite ordinal_fits_limit. cbv beta iota.
  assert (recs (v_update v name <[make_record_key (hash_of key) o := make_record_payload key value]>) index = recs v index) as Ei
    by by apply recs_other.
  eapply wp_put_nodup; [split; [apply bound_update, Hs|rewrite Ei; by eapply large_bound]|apply hash_view_fits|apply Hs|
    intros; engine_error_case|intros [x Hx]; unfold index_item in Hfe; congruence|].
  intros _. apply wp_ret. fold (index_item key o).
  assert (size (<[key := (o, value)]> σ) = S (size σ)) as Esz by by apply map_size_insert_None.
  destruct (large_change v (S n) n σ _ _ _ Hs Hh') as [Hs2 Hk2]; [|lia|by eapply HQ]. destruct (ls_left _ _ _ Hs) as [H1 H2].
  split; [lia|]. apply map_Forall_insert_2; [done|]. eapply map_Forall_impl; [exact H2|]. cbn. lia.
Qed.

Lemma wp_assign_record key o value value' v n σ Q :
  large_state v n σ → hashed_pair_ok (key, value') → σ !! key = Some (o, value) →
  (∀ v', large_state v' n (<[key := (o, value')]> σ) → kept v v' → Q (Ok tt) v') →
  wp (put_record m_dbi (lr_record_key (located key o)) key value' MDBX_UPSERT) Q v.
Proof.
  intros Hs Hp Hk HQ. pose proof (large_assign _ _ _ (ls_holds _ _ _ Hs) key o value value' Hk Hp) as Hh.
  destruct (ls_left _ _ _ Hs) as [H1 H2].
  eapply wp_put; [apply Hs|done|apply Hs|]. rewrite <- (v_update_id _ index).
  destruct (large_change v n n σ _ (fun m => m) _ Hs Hh) as [Hs2 Hk2]; [| |by eapply HQ].
  - split; [done|]. apply map_Forall_insert_2; [exact (H2 _ _ Hk)|done].
  - rewrite map_size_insert_Some by done. lia.
Qed.

Lemma wp_delete_index key o v Q :
  dup_bound v m_index_dbi index hash_flags 8 → v_rw v = true → is_Some (recs v index !! index_item key o) →
  Q (Ok tt) (v_update v index (delete (index_item key o))) →
  wp (delete_index_entry m_index_dbi (hash_of key) o) Q v.
Proof.
  intros Hb Hrw Hi HQ. eapply wp_del_pair; [done|apply hash_view_fits|done|intros; engine_error_case| |].
  - intros E. unfold index_item in Hi. rewrite E in Hi. by destruct Hi.
  - intros _. by apply wp_ret.
Qed.

(** After the deletion of a record, the one of its index entry. *)
Lemma wp_drop_entry key o value v n σ Q :
  large_state v n σ → σ !! key = Some (o, value) →
  (∀ v', v' = v_update (v_update v name (delete (make_record_key (hash_of key) o))) index (delete (index_item key o)) →
     large_state v' n (delete key σ) → kept v v' → Q (Ok tt) v') →
  wp (delete_index_entry m_index_dbi (hash_of key) o) Q (v_update v name (delete (make_record_key (hash_of key) o))).
Proof.
  intros Hs Hk HQ. pose proof (ls_holds _ _ _ Hs) as Hh.
  assert (recs (v_update v name (delete (make_record_key (hash_of key) o))) index = recs v index) as Ei by by apply recs_other.
  apply wp_delete_index.
  - split; [apply bound_update, Hs|]. rewrite Ei. by eapply large_bound.
  - apply Hs.
  - rewrite Ei. exists (ordinal_view o). apply (hl_index _ _ _ Hh). eauto 10.
  - destruct (large_change v n n σ (delete (make_record_key (hash_of key) o)) (delete (index_item key o)) (delete key σ))
      as [Hs' Hk']; [done|by eapply large_delete| | |by eapply HQ].
    + destruct (ls_left _ _ _ Hs). split; [done|]. by apply map_Forall_delete.
    + rewrite map_size_delete, Hk. lia.
Qed.

(** ** The methods *)

Lemma lookup_fmap_Some' (σ : gmap bytes (Z * V)) k (v : V) :
  (snd <$> σ : gmap bytes V) !! k = Some v → ∃ p, p.2 = v ∧ σ !! k = Some p.
Proof. rewrite lookup_fmap, fmap_Some. naive_solver. Qed.

Lemma content_lookup (σ : gmap bytes (Z * V)) key : (snd <$> σ : gmap bytes V) !! key = snd <$> σ !! key.
Proof. apply lookup_fmap. Qed.

Lemma large_get_ok key :
  hashed_key_ok key → implements 0 (large_get m_hasher m_dbi m_index_dbi fuel key) (gives (fun μ => μ !! key)).
Proof.
  intros Hk v n μ (σ & -> & Hs). apply wp_bind. unfold gives, reads. eapply wp_find; [done..| |].
  - intros E. apply wp_ret. exists (snd <$> σ). rewrite content_lookup, E. split; [done|]. split; [by exists σ|done].
  - intros o value E. cbn [lr_record_key located]. eapply wp_get_record; [done|intros; engine_error_case|].
    rewrite (large_record _ _ _ _ _ _ Hs E). apply wp_ret_bind, wp_lift_bind. rewrite parse_payload by done. cbv beta iota.
    apply wp_lift_bind. unfold deserialize_payload_value. cbn [pr_value].
    rewrite value_decodes by by eapply (hl_ok _ _ _ (ls_holds _ _ _ Hs)). apply wp_ret.
    exists (snd <$> σ). rewrite content_lookup, E. split; [done|]. split; [by exists σ|done].
Qed.

Lemma large_contains_ok key :
  hashed_key_ok key →
  implements 0 (large_contains m_hasher m_dbi m_index_dbi fuel key) (gives (fun μ => bool_decide (is_Some (μ !! key)))).
Proof.
  intros Hk v n μ (σ & -> & Hs). apply wp_bind. unfold gives, reads.
  eapply wp_find; [done..| |]; [intros E|intros o value E]; apply wp_ret; exists (snd <$> σ); rewrite content_lookup, E;
    (split; [done|]; split; [by exists σ|done]).
Qed.

Definition large_fits (_ : bytes) (_ : V) : bool := true.

Lemma content_insert (σ : gmap bytes (Z * V)) key o value :
  (snd <$> <[key := (o, value)]> σ : gmap bytes V) = <[key := value]> (snd <$> σ).
Proof. apply fmap_insert. Qed.

Lemma large_insert_ok key value :
  hashed_pair_ok (key, value) →
  implements 1 (large_insert_if_absent m_hasher limit m_dbi m_index_dbi fuel key value) (insert_spec large_fits key value).
Proof.
  intros Hp v n μ (σ & -> & Hs). apply wp_bind. unfold insert_spec, does. eapply wp_find; [done|apply Hp|..].
  - intros E. apply wp_bind. eapply wp_put_new_record; [done..|]. intros o v' Hs' Hk. apply wp_ret.
    exists (<[key := value]> (snd <$> σ)). rewrite content_lookup, E. split; [done|]. split; [|done].
    eexists. by rewrite <- content_insert with (o := o).
  - intros o value' E. apply wp_ret. exists (snd <$> σ). rewrite content_lookup, E. split; [done|]. split; [|done].
    exists σ. split; [done|]. eapply large_state_mono; [|done]. lia.
Qed.

(** Storing a pair, as [db_insert_or_assign] and [db_reconcile_impl] do. *)
Lemma wp_large_assign key value v n σ Q :
  hashed_pair_ok (key, value) → large_state v (S n) σ →
  (∀ v', large_rep v' n (<[key := value]> (snd <$> σ)) → kept v v' → Q (Ok tt) v') →
  wp (large_insert_or_assign m_hasher limit m_dbi m_index_dbi fuel key value) Q v.
Proof.
  intros Hp Hs HQ. apply wp_bind. eapply wp_find; [done|apply Hp|..].
  - intros E. eapply wp_put_new_record; [done..|]. intros o v' Hs' Hk. apply HQ; [|done].
    eexists. by rewrite <- content_insert with (o := o).
  - intros o value' E. eapply wp_assign_record; [exact Hs|done|done|]. intros v' Hs' Hk. apply HQ; [|done].
    eexists. rewrite <- content_insert with (o := o). split; [done|]. eapply large_state_mono; [|done]. lia.
Qed.

Lemma large_assign_ok key value :
  hashed_pair_ok (key, value) →
  implements 1 (large_insert_or_assign m_hasher limit m_dbi m_index_dbi fuel key value) (assign_spec large_fits key value).
Proof.
  intros Hp v n μ (σ & -> & Hs). eapply wp_large_assign; [done..|]. intros v' Hr Hk. eexists. split; [reflexivity|done].
Qed.

Lemma content_delete (σ : gmap bytes (Z * V)) key : (snd <$> delete key σ : gmap bytes V) = delete key (snd <$> σ).
Proof. apply fmap_delete. Qed.

Lemma large_erase_ok key :
  hashed_key_ok key → implements 0 (large_erase m_hasher m_dbi m_index_dbi fuel key) (erase_spec key).
Proof.
  intros Hk v n μ (σ & -> & Hs). apply wp_bind. unfold erase_spec, does. eapply wp_find; [done..| |].
  - intros E. apply wp_ret. exists (snd <$> σ). rewrite content_lookup, E. rewrite delete_id by (by rewrite content_lookup, E).
    split; [done|]. split; [by exists σ|done].
  - intros o value E. cbn [lr_record_key lr_hash lr_ordinal located]. apply wp_bind. intros s Hv. unfold del.
    destruct (mdbx_del s m_dbi _) as [rc s'] eqn:Ed. left. subst v.
    destruct (law_del _ _ _ _ _ _ _ Ed (bound_table _ _ _ _ (ls_bound _ _ _ Hs)) eq_refl (ls_rw _ _ _ Hs))
      as [He|[(-> & Hn & _)|(-> & _ & ->)]]; [engine_error_case| |].
    + cbn [dv_recs] in Hn. rewrite (large_record _ _ _ _ _ _ Hs E) in Hn. done.
    + apply wp_ret_bind, wp_bind. eapply wp_drop_entry; [done..|]. intros v' _ Hs' Hk'. apply wp_ret.
      exists (delete key (snd <$> σ)). rewrite content_lookup, E. split; [done|]. split; [|done].
      eexists. by rewrite <- content_delete.
Qed.

Lemma large_count_ok : implements 0 (large_count m_dbi) (gives (fun μ => Z.of_nat (size μ))).
Proof.
  intros v n μ (σ & -> & Hs). apply wp_bind. intros s Hv. left. subst v. destruct (mdbx_dbi_stat s m_dbi) as [rc k] eqn:E.
  destruct (law_stat _ _ _ _ _ _ E (bound_table _ _ _ _ (ls_bound _ _ _ Hs)) eq_refl) as [He|[-> ->]]; [engine_error_case|].
  apply wp_ret_bind, wp_ret. exists (snd <$> σ). unfold gives, reads. cbn [dv_recs].
  rewrite (proj1 (large_sizes _ _ _ (ls_holds _ _ _ Hs))), map_size_fmap. split; [done|]. split; [by exists σ|done].
Qed.

Lemma holds_large_empty : holds_large ∅ ∅ ∅.
Proof.
  split; [by intros k o v Hk; rewrite lookup_empty in Hk|by intros k k' o v v' Hk; rewrite lookup_empty in Hk|..]; intros b x;
    rewrite lookup_empty; (split; [done|]); intros (k & o & v & Hk & _); by rewrite lookup_empty in Hk.
Qed.

Lemma large_clear_ok : implements 0 (large_clear m_dbi m_index_dbi) (does (fun _ => (Ok tt, ∅))).
Proof.
  intros v n μ (σ & -> & Hs). apply wp_bind. intros s Hv. unfold drop_table at 1.
  destruct (mdbx_drop s m_dbi) as [rc s'] eqn:E. left. subst v.
  destruct (law_drop _ _ _ _ _ _ E (bound_table _ _ _ _ (ls_bound _ _ _ Hs)) (ls_rw _ _ _ Hs)) as [He|[-> Ev]];
    [engine_error_case|]. apply wp_ret_bind, wp_bind. intros s2 Hv2. unfold drop_table.
  destruct (mdbx_drop s2 m_index_dbi) as [rc2 s3] eqn:E2. left. rewrite Ev in Hv2.
  assert (bound (view s2) m_index_dbi index hash_flags) as Hb2 by (rewrite Hv2; apply bound_update, Hs).
  destruct (law_drop _ _ _ _ _ _ E2 (bound_table _ _ _ _ Hb2)) as [He|[-> ->]]; [by rewrite Hv2; apply Hs|engine_error_case|].
  apply wp_ret. exists ∅. split; [done|]. rewrite Hv2.
  destruct (large_change (view s) n n σ (fun _ => ∅) (fun _ => ∅) ∅ Hs holds_large_empty) as [Hs' Hk'].
  - destruct (ls_left _ _ _ Hs). split; [done|]. apply map_Forall_empty.
  - rewrite map_size_empty. lia.
  - split; [|done]. exists ∅. split; [|done]. by rewrite fmap_empty.
Qed.

Lemma large_load_ok :
  implements 0 (large_load m_dbi fuel []) (reads (fun μ r => ∃ l, r = Ok l ∧ l ≡ₚ map_to_list μ)).
Proof.
  intros v n μ (σ & -> & Hs). pose proof (ls_holds _ _ _ Hs) as Hh.
  eapply wp_scan; [apply Hs|rewrite (proj1 (large_sizes _ _ _ Hh)); pose proof (ls_fuel _ _ _ Hs); lia|].
  set (l := recs_where _ _). destruct (load_content corrupted_record l (snd <$> σ)) as (ps & Hps & Hperm).
  - intros k value ([o value'] & <- & E)%lookup_fmap_Some'. by eapply (hl_ok _ _ _ Hh).
  - apply NoDup_fmap_2_strong; [|apply recs_where_NoDup].
    intros [b x] [b' x'] [_ Hx]%elem_of_recs_where [_ Hx']%elem_of_recs_where E. cbn in E. subst x'.
    apply (hl_recs _ _ _ Hh) in Hx as (k & o & y & Hy & -> & ->), Hx' as (k' & o' & y' & Hy' & -> & E).
    apply payload_inj in E as [-> _]; [|by eapply hl_ok_key..]. congruence.
  - intros x. rewrite list_elem_of_fmap. split.
    + intros ([b y] & -> & [_ Hy]%elem_of_recs_where). apply (hl_recs _ _ _ Hh) in Hy as (k & o & z & Hz & _ & ->).
      exists k, z. by rewrite content_lookup, Hz.
    + intros (k & y & ([o y'] & <- & Hy)%lookup_fmap_Some' & ->).
      exists (make_record_key (hash_of k) o, make_record_payload k y'). split; [done|].
      apply elem_of_recs_where. split; [done|]. apply (hl_recs _ _ _ Hh). eauto 10.
  - rewrite Hps. exists (snd <$> σ). split; [|by split; [exists σ|]]. split; [by eauto|done].
Qed.

(** ** Reconciling *)

Lemma large_assign_all_ok container :
  Forall hashed_pair_ok container →
  implements (length container) (large_assign_all m_hasher limit m_dbi m_index_dbi fuel container)
    (assign_all_spec large_fits container).
Proof.
  induction 1 as [|[key value] rest Hp _ IH]; [by apply (rel_refines_ret large_rep kept)|].
  intros v n μ (σ & -> & Hs). cbn [large_assign_all length assign_all_spec] in *. apply wp_assoc', wp_bind.
  eapply wp_large_assign; [done|exact Hs|]. intros v1 Hr1 Hk1. eapply wp_mono; [by eapply IH|].
  intros r v2 (μ2 & Hsp & Hr2 & Hk2). exists μ2. split; [right; by eexists tt, _|]. split; [done|by etrans].
Qed.

(** The records behind a cursor. *)
Definition records_ahead (m : gmap bytes bytes) (c : cursor) : list (bytes * bytes) :=
  recs_where m (cursor_range MDBX_NEXT (cursor_key c) []).

Lemma wp_next_record {A} c (f : Z * bytes * bytes * cursor → M A) v n σ Q :
  large_state v n σ → cursor_dbi c = m_dbi → (∀ rc k x c', engine_error rc → wp (f (rc, k, x, c')) Q v) →
  match records_ahead (recs v name) c with
  | [] => ∀ k x c', wp (f (MDBX_NOTFOUND, k, x, c')) Q v
  | (b, x) :: rest => ∀ c', cursor_dbi c' = m_dbi → cursor_key c' = Some b → recs v name !! b = Some x →
      rest = recs_where (recs v name) (bytes_lt b) → wp (f (MDBX_SUCCESS, b, x, c')) Q v
  end →
  wp (cursor_get c MDBX_NEXT [] ≫= f) Q v.
Proof.
  intros Hs Hc HE HQ. unfold records_ahead in HQ. eapply wp_cursor_get; [rewrite Hc; apply Hs|done| |].
  - intros k x c' Hc' Hk Hf. erewrite recs_where_first in HQ by eauto using cursor_range_up.
    apply HQ; [congruence|done|apply Hf|done].
  - intros k x c' _ Hn. rewrite (proj2 (recs_where_nil _ _) Hn) in HQ. apply HQ.
Qed.

Lemma records_behind m c b : cursor_key c = Some b → records_ahead m c = recs_where m (bytes_lt b).
Proof. intros E. unfold records_ahead. rewrite E. by apply recs_where_ext. Qed.

Lemma wp_large_stale (desired : gset bytes) c i v n σ :
  large_state v n σ → cursor_dbi c = m_dbi → (length (records_ahead (recs v name) c) < i)%nat →
  (∀ k o value, σ !! k = Some (o, value) → k ∉ desired →
     (make_record_key (hash_of k) o, make_record_payload k value) ∈ records_ahead (recs v name) c) →
  wp (large_stale_loop m_index_dbi i desired c) (fun r v' =>
    r = Ok tt ∧ large_state v' n (filter (fun p => p.1 ∈ desired) σ) ∧ kept v v') v.
Proof.
  revert c v σ. induction i as [|i IH]; intros c v σ Hs Hc Hi Hst; [lia|].
  pose proof (ls_holds _ _ _ Hs) as Hh. eapply wp_next_record; [done|done|intros; engine_error_case|].
  destruct (records_ahead _ c) as [|[b x] rest] eqn:Ea.
  { intros k0 x0 c0. apply wp_ret. split; [done|]. rewrite map_filter_id; [done|]. intros k [o value] Hv. cbn.
    destruct (decide (k ∈ desired)) as [|Hn]; [done|]. by destruct (not_elem_of_nil _ (Hst _ _ _ Hv Hn)). }
  intros c' Hc' Hb Hx Hrest. pose proof Hx as (k & o & value & Hv & -> & ->)%(hl_recs _ _ _ Hh).
  destruct (hl_ok _ _ _ Hh _ _ _ Hv) as [[Hk _] Ho]. apply wp_lift_bind. rewrite parse_payload by done. cbv beta iota. cbn [pr_key].
  assert (∀ k' o' value', σ !! k' = Some (o', value') → k' ∉ desired → k' ≠ k →
    (make_record_key (hash_of k') o', make_record_payload k' value') ∈ rest) as Hst'.
  { intros k' o' value' Hv' Hn Hne. destruct (proj1 (elem_of_cons _ _ _) (Hst _ _ _ Hv' Hn)) as [E|]; [|done].
    apply (f_equal fst) in E. cbn [fst] in E. destruct Hne. eapply large_place; eauto. }
  case_bool_decide as Hd.
  - apply IH; [done|done|rewrite (records_behind _ _ _ Hb), <- Hrest; cbn in Hi; lia|].
    rewrite (records_behind _ _ _ Hb), <- Hrest. intros k' o' value' Hv' Hn. apply Hst'; [done..|]. by intros ->.
  - rewrite decode_record_key_made by (done || apply hash_range). apply wp_bind. intros s Hsv. unfold cursor_del.
    destruct (mdbx_cursor_del s c') as [[rc s'] c2] eqn:E. left. subst v.
    assert (bound (view s) (cursor_dbi c') name 0) as Hbc by (rewrite Hc'; apply Hs).
    destruct (law_cursor_del _ _ _ _ _ _ _ _ E (bound_table _ _ _ _ Hbc) eq_refl (ls_rw _ _ _ Hs) Hb)
      as [He|(-> & -> & Hc2 & Hb2)]; [by eexists|engine_error_case|].
    apply wp_ret_bind, wp_bind. eapply wp_drop_entry; [done..|]. intros v1 Ev1 Hs1 Hk1.
    assert (records_ahead (recs v1 name) c2 = rest) as Ea2.
    { rewrite (records_behind _ _ _ Hb2), Hrest, Ev1. rewrite recs_other by done.
      rewrite recs_updated by eapply bound_is_Some, Hs. apply recs_where_delete, bytes_lt_irrefl. }
    eapply wp_mono; [apply (IH c2 _ (delete k σ)); [done|congruence|rewrite Ea2; cbn in Hi; lia|]|].
    + rewrite Ea2. intros k' o' value' [Hne Hv']%lookup_delete_Some Hn. by eapply Hst'.
    + intros r v' (-> & Hs' & Hk'). rewrite map_filter_delete_not in Hs' by naive_solver. split_and!; [done|done|by etrans].
Qed.

Lemma large_reconcile_ok container :
  Forall hashed_pair_ok container →
  implements (length container) (large_reconcile m_hasher limit m_dbi m_index_dbi fuel container)
    (reconcile_spec large_fits container).
Proof.
  intros Hp. rewrite <- (Nat.add_0_r (length container)).
  apply (rel_refines_bind large_rep kept); [apply large_rep_mono|by apply large_assign_all_ok|].
  intros [] v n μ (σ & -> & Hs). pose proof (ls_holds _ _ _ Hs) as Hh.
  eapply wp_cursor_open; [apply Hs|]. intros c Hc Hk.
  assert (∀ r, r ∈ records_ahead (recs v name) c ↔ recs v name !! r.1 = Some r.2) as Ha.
  { intros [b x]. unfold records_ahead. rewrite Hk, elem_of_recs_where. cbn. naive_solver. }
  eapply wp_mono; [eapply wp_large_stale with (n := n) (σ := σ); [done|done|..]|].
  - eapply Nat.le_lt_trans; [apply recs_where_length|]. rewrite (proj1 (large_sizes _ _ _ Hh)). pose proof (ls_fuel _ _ _ Hs). lia.
  - intros k o value Hv _. apply Ha. apply (hl_recs _ _ _ Hh). eauto 10.
  - intros r v' (-> & Hs' & Hk'). eexists. split; [reflexivity|]. split; [|done].
    eexists. split; [|exact Hs']. rewrite map_filter_fmap. f_equal. apply map_filter_ext. intros k p _. cbn.
    by rewrite elem_of_list_to_set.
Qed.

Lemma large_laws : HashedLaws (large_ops m_hasher limit m_dbi m_index_dbi) fuel large_fits large_rep kept.
Proof.
  split; [apply large_rep_mono|apply _|apply large_get_ok|apply large_contains_ok|apply large_insert_ok|apply large_assign_ok|
    apply large_erase_ok|apply large_count_ok|apply large_load_ok|apply large_reconcile_ok|apply large_clear_ok].
Qed.
End Large.
