(* ===== verification/HashedTheorems.v ===== *)
(** * HashedKeyValueStore as a map

    Both layouts, any hash function: the store is a finite map to its clients. *)
From S2P Require Import Prelude SyncCommon KeyCodec Mdbx DupSort DupRules RefMdbx Clients TableBase.
From S2P Require Import HashedStore HashedSpec HashedSmall HashedLarge.
Open Scope Z_scope.

Lemma index_name_differs name : name ≠ index_name_for name.
Proof.
  intros E. apply (f_equal length) in E. unfold index_name_for in E. rewrite length_app in E.
  assert (length (bytes_of_string "__hash_index") = 12%nat) as El by reflexivity. lia.
Qed.

Section Store.
Context {X : Mdbx} {D : MdbxDup X} {L : MdbxLaws X} {DL : MdbxDupLaws X D L} {V : Type} `{!TableValue V}.
Context (h : hashed_store) (name : bytes) (fuel : nat).

(** The tables of the store hold [μ], with room for [n] more pairs. *)
Definition hashed_rep (v : db_view) (n : nat) (μ : gmap bytes V) : Prop :=
  match hs_layout h with
  | LargeValues => large_rep (hs_hasher h) (hs_dbi h) (hs_index_dbi h) name (index_name_for name) fuel v n μ
  | SmallValues => small_rep (hs_hasher h) (hs_dbi h) name fuel v n μ
  end.

(** The layout for small values refuses a pair whose payload exceeds the limit of the
    configuration; the other one needs room for an ordinal. *)
Definition hashed_fits (key : bytes) (value : V) : bool :=
  match hs_layout h with
  | LargeValues => true
  | SmallValues => is_ok (check_dupsort_value_size (hs_limit h) (make_record_payload key value))
  end.
Definition limit_ok : Prop := hs_layout h = LargeValues → hs_limit h ≤ 0 ∨ 8 ≤ hs_limit h.

Definition hashed_kept (v v' : db_view) : Prop := v_frame [name; index_name_for name] v v'.

(** Any call of a client keeps the promise of its layout. *)
Lemma hashed_client {R} (p : client (hashed_call V) R) n v μ :
  limit_ok → client_within (@hashed_call_ok V _) (@hashed_cost V) p n → hashed_rep v n μ →
  wp (run_client (fun A c => run_hashed (O := hashed_ops h) fuel c) p) (fun r v' =>
    ∃ μ', client_spec (@hashed_spec V hashed_fits) p μ r μ' ∧ hashed_rep v' 0 μ' ∧ hashed_kept v v') v.
Proof.
  unfold limit_ok, hashed_rep, hashed_fits, hashed_kept, hashed_ops. intros Hl Hw Hr. destruct (hs_layout h).
  - pose proof (large_laws (V := V) (hs_hasher h) (hs_limit h) (hs_dbi h) (hs_index_dbi h) name (index_name_for name) fuel
      (index_name_differs name) (Hl eq_refl)) as HL.
    apply (client_refines _ _ (fun A (c : hashed_call V A) => run_hashed (O := large_ops (hs_hasher h) (hs_limit h) (hs_dbi h) (hs_index_dbi h)) fuel c)
      (@hashed_spec V large_fits) (@hashed_call_ok V _) (@hashed_cost V)) with (n := n); [|apply large_rep_mono|done|done].
    intros A c Hc. by eapply run_hashed_refines.
  - pose proof (small_laws (V := V) (hs_hasher h) (hs_limit h) (hs_dbi h) name fuel) as HL.
    eapply wp_mono.
    + apply (client_refines (small_rep (hs_hasher h) (hs_dbi h) name fuel) (v_frame [name]) (fun A (c : hashed_call V A) => run_hashed (O := small_ops (hs_hasher h) (hs_limit h) (hs_dbi h)) fuel c)
      (@hashed_spec V (small_fits (hs_limit h))) (@hashed_call_ok V _) (@hashed_cost V)) with (n := n); [|apply small_rep_mono|done|done].
      intros A c Hc. by eapply run_hashed_refines.
    + intros r v' (μ' & Hs & Hr' & Hk). exists μ'. split; [done|]. split; [done|]. eapply v_frame_mono; [|done]. set_solver.
Qed.

(** C7: a hashed store is a finite map from keys to values, for every hash function, however
    its values collide, and in both layouts.  Take any program over the methods of the store,
    in a write transaction whose tables hold the map [μ] with room for the pairs the program
    writes (ordinals below 2^64, fuel for the scans).  Unless the storage engine fails, the
    program returns or throws what it would on the map ([at] throws for an absent key, the
    layout for small values refuses a pair over the configured limit before it touches the
    old one, loading returns every pair once), the tables then hold the map the program
    leaves, and no other table has changed. *)
Theorem hashed_store_refines_map {R} (p : client (hashed_call V) R) (n : nat) (μ : gmap bytes V) (s : txn) :
  limit_ok → client_within (@hashed_call_ok V _) (@hashed_cost V) p n → hashed_rep (view s) n μ →
  let '(r, s') := run_client (fun A c => run_hashed (O := hashed_ops h) fuel c) p s in
  (∃ μ', client_spec (@hashed_spec V hashed_fits) p μ r μ' ∧ hashed_rep (view s') 0 μ' ∧ hashed_kept (view s) (view s')) ∨
  engine_failure r.
Proof. intros Hl Hw Hr. by apply (hashed_client p n (view s) μ Hl Hw Hr). Qed.
End Store.

(** ** A store whose keys all collide *)

Definition colliding_store (layout : HashedStoreLayout) : hashed_store :=
  {| hs_layout := layout; hs_hasher := fun _ => 7; hs_limit := 64; hs_dbi := 2; hs_index_dbi := 3 |}.

Definition hashed_name : bytes := bytes_of_string "files".

Definition hashed_view (layout : HashedStoreLayout) : db_view :=
  let v := {| v_env := 1; v_rw := true; v_dbs := ∅; v_handles := ∅ |} in
  match layout with
  | LargeValues => v_opened (v_opened v hashed_name (mk_dbi 0 ∅) 2) (index_name_for hashed_name) (mk_dbi hash_flags ∅) 3
  | SmallValues => v_opened v hashed_name (mk_dbi hash_flags ∅) 2
  end.

Definition key_a : bytes := bytes_of_string "a".
Definition key_b : bytes := bytes_of_string "b".

(** Two keys of one bucket go in, one is replaced and the other erased. *)
Definition hashed_sample : client (hashed_call bytes) (bool * option bytes * list (bytes * bytes)) :=
  Invoke (HInsert key_a [Byte.x01]) (fun _ =>
  Invoke (HAppend [(key_b, [Byte.x02]); (key_a, [Byte.x03])]) (fun _ =>
  Invoke (HErase key_b) (fun erased =>
  Invoke (HFind key_b) (fun found =>
  Invoke HLoad (fun l => Return (erased, found, l)))))).

Lemma short_key_ok (k : bytes) : (length k < 1000)%nat → hashed_key_ok k.
Proof. intros Hk. unfold hashed_key_ok, size_of. lia. Qed.

Lemma hashed_sample_within : client_within (@hashed_call_ok bytes _) (@hashed_cost bytes) hashed_sample 3.
Proof.
  assert (hashed_key_ok key_a ∧ hashed_key_ok key_b) as [Ha Hb] by (split; apply short_key_ok; cbn; lia).
  repeat (split; [first [done|by repeat constructor]|]; split; [cbn; lia|]; intros ?). done.
Qed.

Lemma hashed_view_rep layout :
  hashed_rep (V := bytes) (colliding_store layout) hashed_name 10 (hashed_view layout) 3 ∅.
Proof.
  destruct layout.
  - exists ∅. split; [done|]. split.
    + split; [vm_compute; reflexivity|]. eexists. split; vm_compute; reflexivity.
    + split; [vm_compute; reflexivity|]. eexists. split; vm_compute; reflexivity.
    + done.
    + assert (recs (hashed_view LargeValues) hashed_name = ∅) as -> by (vm_compute; reflexivity).
      assert (recs (hashed_view LargeValues) (index_name_for hashed_name) = ∅) as -> by (vm_compute; reflexivity).
      apply holds_large_empty.
    + split; [lia|]. apply map_Forall_empty.
    + rewrite map_size_empty. lia.
  - split.
    + split; [vm_compute; reflexivity|]. eexists. split; vm_compute; reflexivity.
    + done.
    + assert (recs (hashed_view SmallValues) hashed_name = ∅) as -> by (vm_compute; reflexivity).
      split; [apply map_Forall_empty|]. intros b x. rewrite lookup_empty. split; [done|].
      intros (k & y & Hy & _). by rewrite lookup_empty in Hy.
    + rewrite map_size_empty. lia.
Qed.

Definition hashed_run (layout : HashedStoreLayout) : result (bool * option bytes * list (bytes * bytes)) * db_view :=
  run_client (fun A c => run_hashed (X := ref_mdbx) (O := hashed_ops (colliding_store layout)) 10 c) hashed_sample (hashed_view layout).

Definition hashed_outcome (layout : HashedStoreLayout) : Prop :=
  (hashed_run layout).1 = Ok (true, None, [(key_a, [Byte.x03])]) ∧
  ∃ μ', client_spec (@hashed_spec bytes (hashed_fits (colliding_store layout))) hashed_sample ∅ (hashed_run layout).1 μ' ∧
    hashed_rep (colliding_store layout) hashed_name 10 (hashed_run layout).2 0 μ'.

Lemma hashed_store_refines_map_witness : hashed_outcome LargeValues ∧ hashed_outcome SmallValues.
Proof.
  assert (∀ layout, hashed_outcome layout) as Hall; [|split; apply Hall].
  intros layout. assert (limit_ok (colliding_store layout)) as Hl by (intros _; right; cbn; lia).
  assert (let '(r, v') := hashed_run layout in
    (∃ μ', client_spec (@hashed_spec bytes (hashed_fits (colliding_store layout))) hashed_sample ∅ r μ' ∧
       hashed_rep (colliding_store layout) hashed_name 10 v' 0 μ' ∧ hashed_kept hashed_name (hashed_view layout) v') ∨
    engine_failure (X := ref_mdbx) (L := ref_laws) r) as H.
  { exact (hashed_store_refines_map (X := ref_mdbx) (D := ref_mdbx_dup) (L := ref_laws) (DL := ref_dup_laws)
      (colliding_store layout) hashed_name 10 hashed_sample 3 ∅ (hashed_view layout) Hl hashed_sample_within (hashed_view_rep layout)). }
  split; [destruct layout; vm_compute; reflexivity|]. destruct (hashed_run layout) as [r v'].
  destruct H as [(μ' & Hs & Hr & _)|(c & rc & _ & [])]. exists μ'. split; [exact Hs|exact Hr].
Defined.
