(* ===== verification/KvTable.v ===== *)
(** * KeyValueTable

    Models the class [KeyValueTable] of [src/include/mdbx_containers/KeyValueTable.hpp] for
    every key type of [KeyCodec] and any value type: the [db_] methods, which the public
    methods run in a transaction.  Reading methods work on the transaction alone; writing
    methods also hand each record they changed to the hooks of the connection
    ([BaseTable::record_op]).

    The theorems: a table holds a finite map, every method does to it what its
    documentation says, and what the methods record, applied elsewhere, repeats what they
    did. *)
From S2P Require Import Prelude SyncCommon KeyCodec SyncProtocol ValueCodec Mdbx RefMdbx StoreBase TxnState.
From S2P Require Import ScopeStore Capture CaptureHooks TableBase.
From S2P Require MetaStore VersionedDbiStore.
Open Scope Z_scope.

(** The members of a table that its methods use. *)
Record table_obj : Type := { t_dbi : Z; t_name : bytes; t_flags : Z }.

Section Code.
Context {X : Mdbx} (kt : key_type) {V : Type} `{!TableValue V} (fuel : nat) (t : table_obj).
Abbreviation K := (key_val kt).
Abbreviation value_type := (K * V)%type.

Definition decode_pair (k x : bytes) : result value_type :=
  key ← deserialize_key kt k;
  value ← deserialize_value x;
  Ok (key, value).

(** ** Reading *)

Definition db_get (key : K) : M (option V) :=
  db_key ← lift (serialize_key kt key);
  found ← lookup_record (t_dbi t) db_key "Failed to retrieve value";
  match found with
  | None => mret None
  | Some x => value ← lift (deserialize_value x); mret (Some value)
  end.

Definition db_contains (key : K) : M bool :=
  db_key ← lift (serialize_key kt key);
  '(rc, _) ← get (t_dbi t) db_key;
  if rc =? MDBX_NOTFOUND then mret false
  else _ ← check_mdbx rc "Failed to check key presence"; mret true.

Definition db_count : M Z :=
  '(rc, entries) ← get_stat (t_dbi t);
  _ ← check_mdbx rc "Failed to query database statistics";
  mret entries.

Definition collect_pair (out : list value_type) (k x : bytes) : result (list value_type * bool) :=
  p ← decode_pair k x; Ok (out ++ [p], true).

(** Into a vector; a map receives the pairs by [emplace], in the same order. *)
Definition db_load (out : list value_type) : M (list value_type) :=
  scan fuel (t_dbi t) MDBX_NEXT [] collect_pair "Failed to open MDBX cursor" "Failed to load key-value table" out.

(** The head of the range methods: both bounds, the cursor, and nothing to do for an
    empty range. *)
Definition with_range {A} (from_key to_key : K) (none : A) (walk : cursor → bytes → bytes → M A) : M A :=
  db_from_key ← lift (serialize_key kt from_key);
  db_to_key ← lift (serialize_key kt to_key);
  c ← open_cursor (t_dbi t);
  o ← cmp (t_dbi t) db_from_key db_to_key;
  if o >? 0 then mret none else walk c db_from_key db_to_key.

Definition db_range (from_key to_key : K) : M (list value_type) :=
  with_range from_key to_key [] (fun c lo hi =>
    range_loop collect_pair "Failed to read key-value range" (t_dbi t) hi fuel c MDBX_SET_RANGE lo []).

Definition db_range_values (from_key to_key : K) : M (list V) :=
  with_range from_key to_key [] (fun c lo hi =>
    range_loop (fun out _ x => v ← deserialize_value x; Ok (out ++ [v], true))
      "Failed to read key-value range values" (t_dbi t) hi fuel c MDBX_SET_RANGE lo []).

(** The callback has a state of its own, may throw, and returns [false] to stop. *)
Definition db_for_each_range {S} (callback : S → K → V → result (S * bool)) (from_key to_key : K) (st : S)
    : M (S * bool) :=
  with_range from_key to_key (st, true) (fun c lo hi =>
    range_loop (fun acc k x =>
        '(key, value) ← decode_pair k x;
        '(st, more) ← callback acc.1 key value;
        Ok ((st, more), more))
      "Failed to iterate key-value range" (t_dbi t) hi fuel c MDBX_SET_RANGE lo (st, true)).

Definition found_pair (k x : bytes) : M (option value_type) := p ← lift (decode_pair k x); mret (Some p).

Definition db_lower_bound (key : K) : M (option value_type) :=
  db_key ← lift (serialize_key kt key);
  '(rc, x) ← get (t_dbi t) db_key;
  if rc =? MDBX_SUCCESS then found_pair db_key x
  else
    c ← open_cursor (t_dbi t);
    '(rc, k, x, _) ← cursor_get c MDBX_SET_RANGE db_key;
    if rc =? MDBX_SUCCESS then found_pair k x
    else if rc =? MDBX_NOTFOUND then mret None
    else _ ← check_mdbx rc "Failed to seek lower bound"; mret None.

Definition db_upper_bound (key : K) : M (option value_type) :=
  db_key_exact ← lift (serialize_key kt key);
  c ← open_cursor (t_dbi t);
  '(rc, k, x, c) ← cursor_get c MDBX_SET_RANGE db_key_exact;
  if rc =? MDBX_NOTFOUND then mret None
  else
    _ ← check_mdbx rc "Failed to seek upper bound";
    o ← cmp (t_dbi t) k db_key_exact;
    if o =? 0 then
      '(rc, k, x, _) ← cursor_get c MDBX_NEXT [];
      if rc =? MDBX_NOTFOUND then mret None
      else _ ← check_mdbx rc "Failed to seek next key for upper bound"; found_pair k x
    else found_pair k x.

(** [db_first], [db_last], [db_min_key] and [db_max_key]. *)
Definition at_end {A} (move : cursor → M (Z * bytes * bytes * cursor)) (context : string)
    (read : bytes → bytes → result A) : M (option A) :=
  c ← open_cursor (t_dbi t);
  '(rc, k, x, _) ← move c;
  if rc =? MDBX_NOTFOUND then mret None
  else _ ← check_mdbx rc context; a ← lift (read k x); mret (Some a).

Definition db_first : M (option value_type) :=
  at_end (fun c => cursor_get c MDBX_FIRST []) "Failed to seek first pair" decode_pair.
Definition db_last : M (option value_type) :=
  at_end (fun c => cursor_get_back c MDBX_LAST) "Failed to seek last pair" decode_pair.
Definition db_min_key : M (option K) :=
  at_end (fun c => cursor_get c MDBX_FIRST []) "Failed to seek minimum key" (fun k _ => deserialize_key kt k).
Definition db_max_key : M (option K) :=
  at_end (fun c => cursor_get_back c MDBX_LAST) "Failed to seek maximum key" (fun k _ => deserialize_key kt k).

(** The loop of [db_range_reverse]; without [limit] the walk goes on to the lower bound. *)
Fixpoint reverse_loop (n : nat) (lo : bytes) (limit : option Z) (at_ : Z * bytes * bytes * cursor)
    (out : list value_type) : M (list value_type) :=
  match n with
  | O => fail out_of_fuel
  | S n =>
      let '(rc, k, x, c) := at_ in
      if rc =? MDBX_SUCCESS then
        o ← cmp (t_dbi t) k lo;
        if o <? 0 then mret out
        else
          p ← lift (decode_pair k x);
          let out := out ++ [p] in
          if match limit with Some l => size_of out >=? l | None => false end then mret out
          else
            next ← cursor_get_back c MDBX_PREV;
            reverse_loop n lo limit next out
      else if rc =? MDBX_NOTFOUND then mret out
      else _ ← check_mdbx rc "Failed to iterate reverse key-value range"; mret out
  end.

Definition reverse_from (limit : option Z) (c : cursor) (lo hi : bytes) : M (list value_type) :=
  '(rc, k, x, c) ← cursor_get c MDBX_SET_RANGE hi;
  at_ ← (if rc =? MDBX_NOTFOUND then cursor_get_back c MDBX_LAST
         else if rc =? MDBX_SUCCESS then
           o ← cmp (t_dbi t) k hi;
           if o >? 0 then cursor_get_back c MDBX_PREV else mret (rc, k, x, c)
         else mret (rc, k, x, c));
  let '(rc, _, _, _) := at_ in
  if rc =? MDBX_NOTFOUND then mret []
  else
    _ ← check_mdbx rc "Failed to seek reverse range start";
    reverse_loop fuel lo limit at_ [].

Definition db_range_reverse (from_key to_key : K) : M (list value_type) :=
  with_range from_key to_key [] (reverse_from None).

Definition db_range_reverse_limit (from_key to_key : K) (limit : Z) : M (list value_type) :=
  if limit =? 0 then mret []
  else with_range from_key to_key [] (reverse_from (Some limit)).

Definition db_contains_range (from_key to_key : K) : M bool :=
  with_range from_key to_key false (fun c lo hi =>
    '(rc, k, _, _) ← cursor_get c MDBX_SET_RANGE lo;
    if rc =? MDBX_NOTFOUND then mret false
    else
      _ ← check_mdbx rc "Failed to seek range for contains";
      o ← cmp (t_dbi t) k hi;
      mret (o <=? 0)).

Definition db_count_range (from_key to_key : K) : M Z :=
  with_range from_key to_key 0 (fun c lo hi =>
    range_loop (fun count _ _ => Ok ((count + 1) mod 2 ^ 64, true))
      "Failed to count key-value range" (t_dbi t) hi fuel c MDBX_SET_RANGE lo 0).

Fixpoint db_find_many_vector (keys : list K) : M (list value_type) :=
  match keys with
  | [] => mret []
  | key :: keys' =>
      found ← db_get key;
      rest ← db_find_many_vector keys';
      mret (match found with Some v => (key, v) :: rest | None => rest end)
  end.
End Code.

(** ** Writing *)

Section Writes.
Context {X : Mdbx} (kt : key_type) {V : Type} `{!TableValue V} (fuel : nat) (t : table_obj) (ptr : Z).
Abbreviation K := (key_val kt).
Abbreviation value_type := (K * V)%type.

(** Calls that do not involve the connection. *)
Definition txn_call {A} (m : M A) : H A := in_txn (fun _ => m).
Definition pure_call {A} (r : result A) : H A := txn_call (lift r).

Definition record (ty : ChangeOpType) (k x : bytes) : H unit := record_op ptr (t_name t) (t_flags t) ty k x.

Definition db_insert_if_absent (key : K) (value : V) : H bool :=
  db_key ← pure_call (serialize_key kt key);
  let db_val := serialize_value value in
  rc ← txn_call (put (t_dbi t) db_key db_val MDBX_NOOVERWRITE);
  if rc =? MDBX_SUCCESS then
    _ ← record Put db_key db_val; mret true
  else if rc =? MDBX_KEYEXIST then mret false
  else _ ← txn_call (check_mdbx rc "Failed to insert key-value pair"); mret false.

Definition put_pair (context : string) (key : K) (value : V) : H unit :=
  db_key ← pure_call (serialize_key kt key);
  let db_val := serialize_value value in
  _ ← txn_call (put_record (t_dbi t) db_key db_val MDBX_UPSERT context);
  record Put db_key db_val.

Definition db_insert_or_assign (key : K) (value : V) : H unit :=
  put_pair "Failed to insert or assign key-value pair" key value.

(** The function may throw; it changes the value it is given. *)
Definition db_update (key : K) (fn : V → result V) : H bool :=
  db_key ← pure_call (serialize_key kt key);
  found ← txn_call (lookup_record (t_dbi t) db_key "Failed to read value for update");
  match found with
  | None => mret false
  | Some x =>
      value ← pure_call (deserialize_value x);
      value ← pure_call (fn value);
      _ ← db_insert_or_assign key value;
      mret true
  end.

Fixpoint db_append (container : list value_type) : H unit :=
  match container with
  | [] => mret tt
  | (key, value) :: container' =>
      _ ← put_pair "Failed to write record" key value;
      db_append container'
  end.

(** [new_keys.find(key) != new_keys.end()]: equality of C++ keys, under which both
    floating-point zeros are the same. *)
Definition known_key (new_keys : list K) (key : K) : bool :=
  bool_decide (key_canonical kt key ∈ key_canonical kt <$> new_keys).

Definition delete_current (c : cursor) (k : bytes) (context : string) : H cursor :=
  '(rc, c) ← txn_call (cursor_del c);
  _ ← txn_call (check_mdbx rc context);
  _ ← record Delete k [];
  mret c.

Fixpoint stale_loop (n : nat) (new_keys : list K) (c : cursor) : H unit :=
  match n with
  | O => txn_call (fail out_of_fuel)
  | S n =>
      '(rc, k, _, c) ← txn_call (cursor_get c MDBX_NEXT []);
      if rc =? MDBX_SUCCESS then
        key ← pure_call (deserialize_key kt k);
        if known_key new_keys key then stale_loop n new_keys c
        else
          c ← delete_current c k "Failed to delete record using cursor";
          stale_loop n new_keys c
      else if rc =? MDBX_NOTFOUND then mret tt
      else txn_call (check_mdbx rc "Failed to reconcile key-value table")
  end.

Definition db_reconcile (container : list value_type) : H unit :=
  _ ← db_append container;
  c ← txn_call (open_cursor (t_dbi t));
  stale_loop fuel container.*1 c.

Definition db_erase (key : K) : H bool :=
  db_key ← pure_call (serialize_key kt key);
  rc ← txn_call (del (t_dbi t) db_key);
  if rc =? MDBX_SUCCESS then _ ← record Delete db_key []; mret true
  else if rc =? MDBX_NOTFOUND then mret false
  else _ ← txn_call (check_mdbx rc "Failed to erase key"); mret false.

Fixpoint erase_loop (n : nat) (hi : bytes) (op : cursor_op) (key : bytes) (c : cursor) (removed : Z) : H Z :=
  match n with
  | O => txn_call (fail out_of_fuel)
  | S n =>
      '(rc, k, _, c) ← txn_call (cursor_get c op key);
      if rc =? MDBX_SUCCESS then
        o ← txn_call (cmp (t_dbi t) k hi);
        if o >? 0 then mret removed
        else
          c ← delete_current c k "Failed to erase pair in range";
          erase_loop n hi MDBX_NEXT [] c ((removed + 1) mod 2 ^ 64)
      else if rc =? MDBX_NOTFOUND then mret removed
      else _ ← txn_call (check_mdbx rc "Failed to erase key-value range"); mret removed
  end.

Definition db_erase_range (from_key to_key : K) : H Z :=
  db_from_key ← pure_call (serialize_key kt from_key);
  db_to_key ← pure_call (serialize_key kt to_key);
  c ← txn_call (open_cursor (t_dbi t));
  o ← txn_call (cmp (t_dbi t) db_from_key db_to_key);
  if o >? 0 then mret 0
  else erase_loop fuel db_to_key MDBX_SET_RANGE db_from_key c 0.

Definition db_clear : H unit :=
  rc ← txn_call (drop_table (t_dbi t));
  _ ← txn_call (check_mdbx rc "Failed to clear table");
  record ClearTable [] [].
End Writes.

(** ** What the reading methods return *)

Section Reads.
Context {X : Mdbx} {L : MdbxLaws X} (kt : key_type) `{!KeyReadable kt} {V : Type} `{!TableValue V} (fuel : nat) (t : table_obj).
Abbreviation K := (key_val kt).
Abbreviation fl := (get_mdbx_flags kt).

(** The place of any key, also a negative zero. *)
Definition place (k : K) : bytes := rank kt (key_canonical kt k).

(** The pairs with keys between two places, both included. *)
Definition between (μ : gmap K V) (lo hi : bytes) : list (K * V) :=
  pairs_where kt μ (fun r => bytes_le lo r ∧ bytes_le r hi).

(** A method that needs the stored form of a key fails as its serialization does. *)
Definition with_key {A} (k : K) (a : A) : result A := _ ← serialize_key kt k; Ok a.
Definition with_keys {A} (a b : K) (x : A) : result A := with_key a tt ≫= fun _ => with_key b x.

Lemma plain_flags : has_flag fl MDBX_DUPSORT = false.
Proof. by destruct (key_width_cases kt) as [->|[-> _]]. Qed.

Lemma place_sort k b : key_ok kt k → serialize_key kt k = Ok b → sort_key fl b = place k.
Proof. intros Hk Hb. unfold place, rank. by rewrite (stored_canonical kt k b). Qed.

Context (μ : gmap K V) (v : db_view) (Hv : typed kt v (t_dbi t) (t_name t) μ).

Lemma wp_lookup_key k b context Q :
  key_ok kt k → serialize_key kt k = Ok b → Q (Ok (serialize_value <$> μ !! key_canonical kt k)) v →
  wp (lookup_record (t_dbi t) b context) Q v.
Proof.
  intros Hk Hb HQ. destruct Hv as [Hbd Hm]. eapply wp_lookup; [exact Hbd|apply plain_flags|].
  by rewrite (holds_lookup_key kt _ _ Hm k b Hk Hb).
Qed.

Lemma good_pair p : p ∈ pairs kt μ → good_key kt p.1 ∧ value_ok p.2.
Proof. intros Hp. pose proof (pairs_good kt _ _ (proj2 Hv)) as H. rewrite Forall_forall in H. by apply H. Qed.

Lemma decode_stored p : good_key kt p.1 → value_ok p.2 → decode_pair kt (stored kt p.1) (serialize_value p.2) = Ok p.
Proof.
  intros Hk Hx. unfold decode_pair. rewrite decode_key by done. cbn [mbind result_bind].
  rewrite value_decodes by done. by destruct p.
Qed.

Lemma value_at k : μ !! k = None ∨ ∃ x, μ !! k = Some x ∧ deserialize_value (serialize_value x) = Ok x.
Proof.
  destruct (μ !! k) as [x|] eqn:E; [right|by left]. exists x. split; [done|].
  apply value_decodes. by apply (holds_good kt _ _ (proj2 Hv) k x).
Qed.

Lemma wp_with_key {A} k (f : bytes → M A) Q :
  key_ok kt k → (∀ b, serialize_key kt k = Ok b → wp (f b) Q v) →
  (∀ e, serialize_key kt k = Throw e → Q (Throw e) v) → wp (lift (serialize_key kt k) ≫= f) Q v.
Proof. intros Hk Hok He. apply wp_lift_bind. destruct (serialize_key kt k) as [b|e]; auto. Qed.

Lemma wp_db_get k Q :
  key_ok kt k → Q (with_key k (μ !! key_canonical kt k)) v → wp (db_get kt t k) Q v.
Proof.
  intros Hk HQ. unfold with_key in HQ. apply wp_with_key; [done|intros b Eb|intros e Ee; by rewrite Ee in HQ].
  rewrite Eb in HQ. apply wp_bind. eapply wp_lookup_key; [done..|]. simpl in *.
  destruct (value_at (key_canonical kt k)) as [E|(x & E & Ex)]; rewrite E in *; simpl; [by apply wp_ret|].
  apply wp_lift_bind. rewrite Ex. by apply wp_ret.
Qed.

Lemma wp_get_key {A} k b (f : Z * bytes → M A) Q :
  key_ok kt k → serialize_key kt k = Ok b →
  (∀ rc x, engine_error rc → wp (f (rc, x)) Q v) →
  match μ !! key_canonical kt k with
  | Some y => wp (f (MDBX_SUCCESS, serialize_value y)) Q v
  | None => ∀ x, wp (f (MDBX_NOTFOUND, x)) Q v
  end →
  wp (get (t_dbi t) b ≫= f) Q v.
Proof.
  intros Hk Hb HE HQ. pose proof (holds_lookup_key kt _ _ (proj2 Hv) k b Hk Hb) as Hl. destruct Hv as [Hbd _].
  apply wp_bind. intros s Hs. left. subst v. destruct (mdbx_get s (t_dbi t) b) as [rc x] eqn:E.
  destruct (law_get _ _ _ _ _ _ _ E (bound_table _ _ _ _ Hbd) plain_flags) as [He|[[-> Hx]|[-> Hx]]]; [by apply HE|..];
    cbn [dv_recs] in Hx; rewrite Hl in Hx; destruct (μ !! _); simplify_eq/=; done.
Qed.

Lemma wp_db_contains k Q :
  key_ok kt k → Q (with_key k (bool_decide (is_Some (μ !! key_canonical kt k)))) v → wp (db_contains kt t k) Q v.
Proof.
  intros Hk HQ. unfold with_key in HQ. apply wp_with_key; [done|intros b Eb|intros e Ee; by rewrite Ee in HQ].
  rewrite Eb in HQ. eapply wp_get_key; [done..|by intros; engine_error_case|].
  destruct (μ !! _); simpl in *; [apply wp_ret_bind|intros x]; by apply wp_ret.
Qed.

Lemma wp_db_count Q : Q (Ok (Z.of_nat (size μ))) v → wp (db_count t) Q v.
Proof.
  intros HQ. rewrite <- (holds_size kt _ _ (proj2 Hv)) in HQ. destruct Hv as [Hbd _].
  apply wp_bind. intros s Hs. left. subst v. destruct (mdbx_dbi_stat s (t_dbi t)) as [rc n] eqn:E.
  destruct (law_stat _ _ _ _ _ _ E (bound_table _ _ _ _ Hbd) plain_flags) as [He|[-> ->]]; [engine_error_case|].
  apply wp_ret_bind. by apply wp_ret.
Qed.

Lemma filter_twice {A} (P Q : A → Prop) `{∀ a, Decision (P a), ∀ a, Decision (Q a)} (l : list A) :
  filter Q (filter P l) = filter (fun a => P a ∧ Q a) l.
Proof.
  induction l as [|a l IH]; [done|]. rewrite !filter_cons. destruct (decide (P a)) as [HP|HP].
  - rewrite filter_cons, IH. destruct (decide (Q a)); [by rewrite decide_True|]. rewrite decide_False; naive_solver.
  - rewrite IH, decide_False; naive_solver.
Qed.

Lemma between_empty a b : bytes_lt b a → between μ a b = [].
Proof.
  intros Hlt. destruct (between μ a b) as [|p l] eqn:E; [done|]. exfalso.
  assert (p ∈ between μ a b) as [[H1 H2] _]%list_elem_of_filter by (rewrite E; left).
  apply bytes_nle_lt in Hlt. apply Hlt. by etrans.
Qed.

Lemma ahead_from c lo : ahead kt μ c MDBX_SET_RANGE lo = pairs_where kt μ (bytes_le (sort_key fl lo)).
Proof. by apply pairs_where_ext. Qed.

Lemma upto_between lo hi : upto kt hi (pairs_where kt μ (bytes_le lo)) = between μ lo (sort_key fl hi).
Proof. unfold upto, pairs_where, between. apply filter_twice. Qed.

Lemma wp_with_range {A} a b none (walk : cursor → bytes → bytes → M A) Q :
  key_ok kt a → key_ok kt b →
  (∀ e, with_keys a b tt = Throw e → Q (Throw e) v) →
  (with_keys a b tt = Ok tt → bytes_lt (place b) (place a) → Q (Ok none) v) →
  (∀ lo hi c, with_keys a b tt = Ok tt → sort_key fl lo = place a → sort_key fl hi = place b → fits kt lo → fits kt hi →
     cursor_dbi c = t_dbi t → bytes_le (place a) (place b) → wp (walk c lo hi) Q v) →
  wp (with_range kt t a b none walk) Q v.
Proof.
  intros Ha Hb HE HN HW. unfold with_keys, with_key in *.
  apply wp_with_key; [done|intros lo El|intros e Ee; apply HE; by rewrite Ee]. rewrite El in *.
  apply wp_with_key; [done|intros hi Eh|intros e Ee; apply HE; by rewrite Ee]. rewrite Eh in *.
  pose proof (key_fits kt _ _ Ha El) as Hfl. pose proof (key_fits kt _ _ Hb Eh) as Hfh.
  apply wp_bind. eapply wp_open_cursor; [apply Hv|]. intros c Hc Hn.
  eapply wp_cmp; [apply Hv|done|done|]. rewrite (place_sort a lo), (place_sort b hi) by done. intros o Ho _.
  rewrite Z.gtb_ltb. destruct (Z.ltb_spec 0 o) as [Hlt|Hge].
  - apply wp_ret. apply HN; [done|]. apply bytes_nle_lt. unfold bytes_le. intros []. apply Ho. lia.
  - apply HW; [done|by apply place_sort|by apply place_sort|done|done|done|]. unfold bytes_le. intros E%Ho. lia.
Qed.

Lemma foldl_snoc {A B} (f : A → B) (out : list B) (l : list A) : foldl (fun out p => out ++ [f p]) out l = out ++ (f <$> l).
Proof.
  revert out. induction l as [|p l IH]; intros out; simpl; [by rewrite app_nil_r|]. rewrite IH, <- app_assoc. done.
Qed.

Lemma in_range p P `{∀ k, Decision (P k)} : p ∈ pairs_where kt μ P → good_key kt p.1 ∧ value_ok p.2.
Proof. intros Hp. eapply good_pair, elem_of_pairs_where, Hp. Qed.

Lemma fold_collect out l :
  (∀ p, p ∈ l → good_key kt p.1 ∧ value_ok p.2) → fold_pairs kt (collect_pair kt) out l = Ok (out ++ l).
Proof.
  intros Hl. rewrite (fold_pairs_foldl kt _ (fun out p => out ++ [p])).
  - by rewrite (foldl_snoc id), list_fmap_id.
  - intros st p Hp. unfold collect_pair. destruct (Hl p Hp). by rewrite decode_stored.
Qed.

Context (Hfuel : (size μ < fuel)%nat).

Lemma ahead_fuel c op key : (length (ahead kt μ c op key) < fuel)%nat.
Proof. eapply Nat.le_lt_trans; [apply ahead_length|exact Hfuel]. Qed.

Lemma wp_db_load out Q : Q (Ok (out ++ pairs kt μ)) v → wp (db_load kt fuel t out) Q v.
Proof.
  intros HQ. eapply wp_typed_scan; [exact Hv|done|done|]. unfold pairs_where. rewrite filter_all by done.
  rewrite fold_collect; [done|apply good_pair].
Qed.

(** A walk over a range of keys. *)
Lemma wp_range_walk {S} (body : S → bytes → bytes → result (S * bool)) context a b st Q :
  key_ok kt a → key_ok kt b →
  Q (_ ← with_keys a b tt; fold_pairs kt body st (between μ (place a) (place b))) v →
  wp (with_range kt t a b st (fun c lo hi =>
        range_loop body context (t_dbi t) hi fuel c MDBX_SET_RANGE lo st)) Q v.
Proof.
  intros Ha Hb HQ. apply wp_with_range; [done|done|..].
  - intros e E. by rewrite E in HQ.
  - intros E Hlt. by rewrite E, between_empty in HQ.
  - intros lo hi c E El Eh Hl Hh Hc Hle. eapply wp_range_loop; [exact Hv|done|done|done|apply ahead_fuel|].
    by rewrite ahead_from, upto_between, El, Eh; rewrite E in HQ.
Qed.

Lemma between_good lo hi p : p ∈ between μ lo hi → good_key kt p.1 ∧ value_ok p.2.
Proof. apply in_range. Qed.

Lemma with_keys_Ok {A} a b (x : A) : (_ ← with_keys a b tt; Ok x) = with_keys a b x.
Proof. unfold with_keys, with_key. destruct (serialize_key kt a), (serialize_key kt b); done. Qed.

Lemma wp_db_range a b Q :
  key_ok kt a → key_ok kt b → Q (with_keys a b (between μ (place a) (place b))) v → wp (db_range kt fuel t a b) Q v.
Proof.
  intros Ha Hb HQ. apply wp_range_walk; [done|done|]. rewrite fold_collect by apply between_good. by rewrite with_keys_Ok.
Qed.

Lemma wp_db_range_values a b Q :
  key_ok kt a → key_ok kt b → Q (with_keys a b (between μ (place a) (place b)).*2) v → wp (db_range_values kt fuel t a b) Q v.
Proof.
  intros Ha Hb HQ. apply wp_range_walk; [done|done|].
  rewrite (fold_pairs_foldl kt _ (fun out p => out ++ [p.2])), foldl_snoc; [by rewrite with_keys_Ok|].
  intros st p [_ Hx]%between_good. by rewrite value_decodes.
Qed.

Lemma foldl_count (l : list (K * V)) n : foldl (fun n _ => (n + 1) mod 2 ^ 64) (n mod 2 ^ 64) l = (n + Z.of_nat (length l)) mod 2 ^ 64.
Proof.
  revert n. induction l as [|p l IH]; intros n; cbn [foldl length]; [by rewrite Z.add_0_r|].
  rewrite Z.add_mod_idemp_l, IH by done. f_equal. lia.
Qed.

Lemma wp_db_count_range a b Q :
  key_ok kt a → key_ok kt b →
  Q (with_keys a b (Z.of_nat (length (between μ (place a) (place b))) mod 2 ^ 64)) v → wp (db_count_range kt fuel t a b) Q v.
Proof.
  intros Ha Hb HQ. apply wp_range_walk; [done|done|].
  rewrite (fold_pairs_foldl kt _ (fun n _ => (n + 1) mod 2 ^ 64)) by done.
  pose proof (foldl_count (between μ (place a) (place b)) 0) as E. rewrite Z.mod_0_l in E by done.
  rewrite E. by rewrite with_keys_Ok.
Qed.

(** The callback sees the pairs of the range in order, until it returns [false]. *)
Fixpoint visit {S} (callback : S → K → V → result (S * bool)) (st : S) (l : list (K * V)) : result (S * bool) :=
  match l with
  | [] => Ok (st, true)
  | (k, x) :: l' =>
      '(st, more) ← callback st k x;
      if more : bool then visit callback st l' else Ok (st, false)
  end.

Lemma wp_db_for_each_range {S} (callback : S → K → V → result (S * bool)) a b st Q :
  key_ok kt a → key_ok kt b →
  Q (_ ← with_keys a b tt; visit callback st (between μ (place a) (place b))) v →
  wp (db_for_each_range kt fuel t callback a b st) Q v.
Proof.
  intros Ha Hb HQ. apply wp_range_walk; [done|done|].
  assert (∀ l, (∀ p, p ∈ l → good_key kt p.1 ∧ value_ok p.2) → ∀ st,
    fold_pairs kt (fun acc k x => '(key, value) ← decode_pair kt k x; '(st, more) ← callback acc.1 key value;
      Ok ((st, more), more)) (st, true) l = visit callback st l) as Hfold.
  { induction l as [|[k x] l IH]; intros Hl st'; [done|]. destruct (Hl (k, x)) as [Hk Hx]; [left|].
    cbn [fold_pairs visit]. rewrite decode_stored by done. cbn [mbind result_bind fst].
    destruct (callback st' k x) as [[st2 []]|e]; cbn [mbind result_bind]; [|done|done]. apply IH. intros q Hq. apply Hl. by right. }
  rewrite Hfold by apply between_good. done.
Qed.

Lemma wp_db_contains_range a b Q :
  key_ok kt a → key_ok kt b →
  Q (with_keys a b (bool_decide (between μ (place a) (place b) ≠ []))) v → wp (db_contains_range kt t a b) Q v.
Proof.
  intros Ha Hb HQ. rewrite <- with_keys_Ok in HQ. apply wp_with_range; [done|done|..].
  - intros e E. by rewrite E in HQ.
  - intros E Hlt. by rewrite E, between_empty in HQ.
  - intros lo hi c E El Eh Hl Hh Hc Hle. rewrite E in HQ. cbn [mbind result_bind] in HQ. rewrite <- El, <- Eh in HQ.
    eapply wp_typed_get; [exact Hv|done|done|by intros; engine_error_case|].
    rewrite ahead_from, <- upto_between in *. destruct (pairs_where kt μ _) as [|p rest] eqn:Ep.
    { intros k x c' _. by apply wp_ret. }
    intros c' Hp -> Hk Hx. apply wp_ret_bind. eapply wp_cmp; [apply Hv|by eapply key_fits, good_stored; [apply Hk|]|done|].
    intros o Ho _. apply wp_ret. fold (rank kt p.1) in Ho. unfold upto in HQ. rewrite filter_cons in HQ.
    destruct (decide (bytes_le (rank kt p.1) (sort_key fl hi))) as [Hin|Hout].
    + rewrite (proj2 (Z.leb_le _ _)) by (assert (¬ o > 0) by (rewrite Ho; exact Hin); lia). done.
    + assert (o > 0) by (apply Ho; unfold bytes_le in Hout; destruct (bytes_compare _ _); [by destruct Hout..|done]).
      rewrite (proj2 (Z.leb_gt _ _)) by lia.
      assert (upto kt hi (p :: pairs_where kt μ (bytes_lt (rank kt p.1))) = []) as Eu.
      { apply upto_beyond; [|done]. apply Forall_forall. intros q Hq. by apply list_elem_of_filter in Hq as [? _]. }
      unfold upto in Eu. rewrite filter_cons, decide_False in Eu by done. by rewrite Eu in HQ.
Qed.

Lemma strictly_after a : pairs_where kt μ (bytes_lt a) = filter (fun p => bytes_lt a (rank kt p.1)) (pairs_where kt μ (bytes_le a)).
Proof.
  unfold pairs_where. rewrite filter_twice. apply list_filter_iff. intros p. split; [|naive_solver].
  intros H. split; [by apply bytes_lt_le|done].
Qed.

Lemma head_at k x a rest p :
  μ !! k = Some x → a = rank kt k → pairs_where kt μ (bytes_le a) = p :: rest → p = (k, x).
Proof.
  intros Hx -> E. pose proof (pairs_where_sorted kt _ _ _ _ Hv (bytes_le (rank kt k))) as Hs. rewrite E in Hs.
  apply StronglySorted_inv in Hs as [_ Hs]. rewrite Forall_forall in Hs.
  assert ((k, x) ∈ pairs_where kt μ (bytes_le (rank kt k))) as Hin.
  { apply list_elem_of_filter. split; [by apply reflexivity|]. by apply elem_of_pairs. }
  assert (p ∈ pairs_where kt μ (bytes_le (rank kt k))) as [Hp _]%list_elem_of_filter by (rewrite E; left).
  rewrite E in Hin. apply elem_of_cons in Hin as [|Hin]; [done|]. apply Hs in Hin.
  apply bytes_nle_lt in Hin. done.
Qed.

Lemma wp_found_pair p Q : good_key kt p.1 → value_ok p.2 → Q (Ok (Some p)) v → wp (found_pair kt (stored kt p.1) (serialize_value p.2)) Q v.
Proof. intros Hk Hx HQ. apply wp_lift_bind. rewrite decode_stored by done. by apply wp_ret. Qed.

Lemma wp_db_lower_bound k Q :
  key_ok kt k → Q (with_key k (head (pairs_where kt μ (bytes_le (place k))))) v → wp (db_lower_bound kt t k) Q v.
Proof.
  intros Hk HQ. unfold with_key in HQ. apply wp_with_key; [done|intros b Eb|intros e Ee; by rewrite Ee in HQ].
  rewrite Eb in HQ. cbn [mbind result_bind] in HQ.
  assert (wp (c ← open_cursor (t_dbi t); '(rc, k, x, _) ← cursor_get c MDBX_SET_RANGE b;
    if rc =? MDBX_SUCCESS then found_pair kt k x else if rc =? MDBX_NOTFOUND then mret None
    else _ ← check_mdbx rc "Failed to seek lower bound"; mret None) Q v) as Hseek.
  { apply wp_bind. eapply wp_open_cursor; [apply Hv|]. intros c Hc Hn.
    eapply wp_typed_get; [exact Hv|done|by intros _; eapply key_fits|by intros; engine_error_case|].
    rewrite ahead_from, (place_sort k b) by done. destruct (pairs_where kt μ _) as [|p rest]; [intros; by apply wp_ret|].
    intros c' Hp _ Hg Hx. by apply wp_found_pair. }
  eapply wp_get_key; [done..|intros rc x He|].
  { rewrite (proj2 (Z.eqb_neq _ _)); [done|]. intros ->. apply law_error in He. set_solver. }
  destruct (μ !! key_canonical kt k) as [y|] eqn:Ey; [|done].
  destruct (holds_good kt _ _ (proj2 Hv) _ _ Ey) as [Hg Hy].
  rewrite <- (stored_canonical kt k b Hk Eb). apply (wp_found_pair (key_canonical kt k, y)); [done|done|].
  destruct (pairs_where kt μ _) as [|p rest] eqn:E.
  - exfalso. apply (not_elem_of_nil (key_canonical kt k, y)). rewrite <- E. apply list_elem_of_filter.
    split; [by apply reflexivity|by apply elem_of_pairs].
  - by rewrite (head_at _ _ _ _ _ Ey eq_refl E) in HQ.
Qed.

Lemma wp_db_upper_bound k Q :
  key_ok kt k → Q (with_key k (head (pairs_where kt μ (bytes_lt (place k))))) v → wp (db_upper_bound kt t k) Q v.
Proof.
  intros Hk HQ. unfold with_key in HQ. apply wp_with_key; [done|intros b Eb|intros e Ee; by rewrite Ee in HQ].
  rewrite Eb in HQ. cbn [mbind result_bind] in HQ. pose proof (key_fits kt k b Hk Eb) as Hf.
  apply wp_bind. eapply wp_open_cursor; [apply Hv|]. intros c Hc Hn.
  eapply wp_typed_get; [exact Hv|done|done|by intros; engine_error_case|].
  rewrite ahead_from, (place_sort k b) by done. rewrite strictly_after in HQ.
  pose proof (pairs_where_sorted kt _ _ _ _ Hv (bytes_le (place k))) as Hs.
  destruct (pairs_where kt μ (bytes_le (place k))) as [|p rest] eqn:E; [intros; by apply wp_ret|].
  intros c' Hp Er Hg Hx. apply StronglySorted_inv in Hs as [_ Hs]. rewrite Forall_forall in Hs. apply wp_ret_bind.
  assert (p ∈ pairs_where kt μ (bytes_le (place k))) as [Hpk _]%list_elem_of_filter by (rewrite E; left).
  assert (∀ q, q ∈ rest → bytes_lt (place k) (rank kt q.1)) as Hrest.
  { intros q Hq%Hs. apply bytes_le_lteq in Hpk as [Hlt|Heq]; [by eapply bytes_lt_trans|by rewrite Heq]. }
  eapply wp_cmp; [apply Hv|by eapply key_fits, good_stored; [apply Hg|]|done|]. fold (rank kt p.1).
  rewrite (place_sort k b) by done. intros o Ho1 Ho2. rewrite filter_cons, (filter_all _ rest) in HQ by done.
  destruct (Z.eqb_spec o 0) as [->|Hne].
  - assert (rank kt p.1 = place k) as Epk.
    { apply bytes_compare_eq. destruct (bytes_compare (rank kt p.1) (place k)); [done|exfalso..]; intuition lia. }
    eapply wp_typed_get; [exact Hv|apply Hp|done|by intros; engine_error_case|]. rewrite (ahead_next _ _ _ _ _ Hp), <- Er.
    rewrite decide_False in HQ by (rewrite Epk; apply bytes_lt_irrefl).
    destruct rest as [|q rest]; [intros; by apply wp_ret|]. intros c2 Hq _ Hgq Hxq. apply wp_ret_bind. by apply wp_found_pair.
  - rewrite decide_True in HQ; [by apply wp_found_pair|]. apply bytes_le_lteq in Hpk as [|Heq]; [done|].
    exfalso. rewrite Heq in *. rewrite (proj2 (bytes_compare_eq _ _) eq_refl) in *. apply Hne.
    assert (¬ o > 0) by (rewrite Ho1; done). assert (¬ o < 0) by (rewrite Ho2; done). lia.
Qed.

Lemma wp_at_front {A} context (read : bytes → bytes → result A) (g : K * V → A) Q :
  (∀ p, good_key kt p.1 → value_ok p.2 → read (stored kt p.1) (serialize_value p.2) = Ok (g p)) →
  Q (Ok (g <$> head (pairs kt μ))) v → wp (at_end t (fun c => cursor_get c MDBX_FIRST []) context read) Q v.
Proof.
  intros Hr HQ. apply wp_bind. eapply wp_open_cursor; [apply Hv|]. intros c Hc _.
  eapply wp_typed_get; [exact Hv|done|done|by intros; engine_error_case|].
  assert (ahead kt μ c MDBX_FIRST [] = pairs kt μ) as -> by by apply filter_all.
  destruct (pairs kt μ) as [|p rest]; [intros; by apply wp_ret|]. intros c' _ _ Hk Hx. apply wp_ret_bind, wp_lift_bind.
  rewrite Hr by done. by apply wp_ret.
Qed.

Lemma wp_at_back {A} context (read : bytes → bytes → result A) (g : K * V → A) Q :
  (∀ p, good_key kt p.1 → value_ok p.2 → read (stored kt p.1) (serialize_value p.2) = Ok (g p)) →
  Q (Ok (g <$> last (pairs kt μ))) v → wp (at_end t (fun c => cursor_get_back c MDBX_LAST) context read) Q v.
Proof.
  intros Hr HQ. apply wp_bind. eapply wp_open_cursor; [apply Hv|]. intros c Hc _.
  assert (behind kt μ c MDBX_LAST = pairs kt μ) as Eb by by apply filter_all.
  eapply wp_typed_back; [exact Hv|done|by intros; engine_error_case|..].
  - intros p rest c' E _ _ Hk Hx. rewrite <- Eb, E, last_snoc in HQ. apply wp_ret_bind, wp_lift_bind.
    rewrite Hr by done. by apply wp_ret.
  - intros k x c' E _. rewrite <- Eb, E in HQ. by apply wp_ret.
Qed.

Lemma wp_db_first Q : Q (Ok (head (pairs kt μ))) v → wp (db_first kt t) Q v.
Proof. intros HQ. apply (wp_at_front _ _ id); [apply decode_stored|]. by rewrite option_fmap_id. Qed.
Lemma wp_db_last Q : Q (Ok (last (pairs kt μ))) v → wp (db_last kt t) Q v.
Proof. intros HQ. apply (wp_at_back _ _ id); [apply decode_stored|]. by rewrite option_fmap_id. Qed.
Lemma wp_db_min_key Q : Q (Ok (fst <$> head (pairs kt μ))) v → wp (db_min_key kt t) Q v.
Proof. intros HQ. apply (wp_at_front _ _ fst); [|done]. intros p Hk _. by apply decode_key. Qed.
Lemma wp_db_max_key Q : Q (Ok (fst <$> last (pairs kt μ))) v → wp (db_max_key kt t) Q v.
Proof. intros HQ. apply (wp_at_back _ _ fst); [|done]. intros p Hk _. by apply decode_key. Qed.

(** Collecting downwards, from a list in descending order. *)
Fixpoint collect_down (lo : bytes) (limit : option Z) (out l : list (K * V)) : list (K * V) :=
  match l with
  | [] => out
  | p :: l' =>
      if decide (bytes_lt (rank kt p.1) lo) then out
      else
        let out := out ++ [p] in
        if match limit with Some n => size_of out >=? n | None => false end then out
        else collect_down lo limit out l'
  end.

Lemma wp_reverse_loop n lo limit c p rest out Q :
  fits kt lo → on_pair kt (t_dbi t) c p → rest = pairs_where kt μ (fun k => bytes_lt k (rank kt p.1)) →
  good_key kt p.1 → value_ok p.2 → (length rest + 1 < n)%nat →
  Q (Ok (collect_down (sort_key fl lo) limit out (p :: reverse rest))) v →
  wp (reverse_loop kt t n lo limit (MDBX_SUCCESS, stored kt p.1, serialize_value p.2, c) out) Q v.
Proof.
  intros Hlo. revert c p rest out. induction n as [|n IH]; intros c p rest out Hp Er Hk Hx Hn HQ; [lia|].
  cbn [reverse_loop]. rewrite Z.eqb_refl. eapply wp_cmp; [apply Hv|by eapply key_fits, good_stored; [apply Hk|]|done|].
  fold (rank kt p.1). intros o _ Ho. cbn [collect_down] in HQ. destruct (decide (bytes_lt (rank kt p.1) (sort_key fl lo))) as [Hlt|Hge].
  { rewrite (proj2 (Z.ltb_lt _ _)) by (by apply Ho). by apply wp_ret. }
  rewrite (proj2 (Z.ltb_ge _ _)) by (assert (¬ o < 0) by (by rewrite Ho); lia).
  apply wp_lift_bind. rewrite decode_stored by done. cbv zeta in HQ |- *.
  destruct (match limit with Some _ => _ | None => _ end); [by apply wp_ret|].
  eapply wp_typed_back; [exact Hv|apply Hp| |..].
  - intros rc k x c' He. destruct n as [|n]; [lia|]. cbn [reverse_loop]. engine_error_case.
  - intros q rest' c' E Hq Er' Hgq Hxq. rewrite (behind_prev _ _ _ _ _ Hp), <- Er in E. rewrite E, reverse_snoc in HQ.
    eapply IH; [done|done|done|done| |done]. rewrite E, length_app in Hn. simpl in Hn. lia.
  - intros k x c' E _. rewrite (behind_prev _ _ _ _ _ Hp), <- Er in E. rewrite E in HQ.
    destruct n as [|n]; [lia|]. cbn [reverse_loop]. by apply wp_ret.
Qed.

(** The pairs up to a place, in ascending order. *)
Definition below (hi : bytes) : list (K * V) := pairs_where kt μ (fun r => bytes_le r hi).

Lemma below_length hi : (length (below hi) < fuel)%nat.
Proof.
  eapply Nat.le_lt_trans; [|exact Hfuel]. unfold below, pairs_where. etrans; [apply length_filter|].
  unfold pairs. by rewrite merge_sort_Permutation, length_map_to_list.
Qed.

Lemma below_all hi : pairs_where kt μ (bytes_le hi) = [] → below hi = pairs kt μ.
Proof.
  intros E. apply filter_all. intros p Hp. apply bytes_lt_le, bytes_nle_lt. intros Hle.
  apply (not_elem_of_nil p). rewrite <- E. by apply list_elem_of_filter.
Qed.

Lemma first_from hi p rest q :
  pairs_where kt μ (bytes_le hi) = p :: rest → q ∈ pairs kt μ → bytes_lt (rank kt q.1) (rank kt p.1) ↔ bytes_lt (rank kt q.1) hi.
Proof.
  intros E Hq. pose proof (pairs_where_sorted kt _ _ _ _ Hv (bytes_le hi)) as Hs. rewrite E in Hs.
  apply StronglySorted_inv in Hs as [_ Hs]. rewrite Forall_forall in Hs.
  assert (p ∈ pairs_where kt μ (bytes_le hi)) as [Hp _]%list_elem_of_filter by (rewrite E; left). split.
  - intros Hlt. apply bytes_nle_lt. intros Hle. assert (q ∈ pairs_where kt μ (bytes_le hi)) as Hin by by apply list_elem_of_filter.
    rewrite E in Hin. apply elem_of_cons in Hin as [->|Hin%Hs]; [by apply bytes_lt_irrefl in Hlt|].
    eapply bytes_lt_irrefl, bytes_lt_trans; [exact Hlt|exact Hin].
  - intros Hlt. apply bytes_le_lteq in Hp as [Hp|Hp]; [by eapply bytes_lt_trans|by rewrite <- Hp].
Qed.

Lemma filter_ext_in {A} (P Q : A → Prop) `{∀ a, Decision (P a), ∀ a, Decision (Q a)} (l : list A) :
  (∀ a, a ∈ l → P a ↔ Q a) → filter P l = filter Q l.
Proof.
  induction l as [|a l IH]; intros HPQ; [done|]. rewrite !filter_cons, IH by (intros; apply HPQ; by right).
  pose proof (HPQ a ltac:(left)). repeat case_decide; naive_solver.
Qed.

Lemma below_past hi p rest :
  pairs_where kt μ (bytes_le hi) = p :: rest → ¬ bytes_le (rank kt p.1) hi →
  below hi = pairs_where kt μ (fun k => bytes_lt k (rank kt p.1)).
Proof.
  intros E Hp. apply filter_ext_in. intros q Hq. rewrite (first_from hi p rest q E Hq). split; [|apply bytes_lt_le].
  intros [|Heq]%bytes_le_lteq; [done|]. exfalso. apply bytes_nle_lt in Hp.
  assert (bytes_lt (rank kt q.1) hi) as Hlt by (apply (first_from hi p rest q E Hq); by rewrite Heq).
  rewrite Heq in Hlt. by apply bytes_lt_irrefl in Hlt.
Qed.

Lemma below_at hi p rest :
  pairs_where kt μ (bytes_le hi) = p :: rest → bytes_le (rank kt p.1) hi →
  below hi = pairs_where kt μ (fun k => bytes_lt k (rank kt p.1)) ++ [p].
Proof.
  intros E Hp. assert (p ∈ pairs_where kt μ (bytes_le hi)) as [Hhi Hin]%list_elem_of_filter by (rewrite E; left).
  assert (rank kt p.1 = hi) as Eq.
  { apply bytes_le_lteq in Hp as [Hlt|]; [|done]. by apply bytes_nle_lt in Hlt. }
  assert (p ∈ below hi) as Hb by (apply list_elem_of_filter; by rewrite Eq).
  destruct (below hi) as [|q l _] eqn:El using rev_ind; [by apply elem_of_nil in Hb|].
  assert (q = p) as ->.
  { apply elem_of_app in Hb as [Hb|Hb%list_elem_of_singleton]; [|done]. exfalso.
    pose proof (pairs_where_sorted kt _ _ _ _ Hv (fun r => bytes_le r hi)) as Hs. fold (below hi) in Hs. rewrite El in Hs.
    pose proof (StronglySorted_app_1_elem_of _ _ _ p q Hs Hb ltac:(left)) as Hlt.
    assert (q ∈ below hi) as [Hq _]%list_elem_of_filter by (rewrite El; set_solver).
    simpl in Hlt. rewrite Eq in Hlt. apply bytes_nle_lt in Hlt. done. }
  f_equal. refine (sorted_last kt _ _ _ _ (pairs_sorted kt _ _ (proj2 Hv)) _ El). intros a b H1 H2. by etrans.
Qed.

Lemma wp_reverse_from limit c lo hi Q :
  cursor_dbi c = t_dbi t → fits kt lo → fits kt hi →
  Q (Ok (collect_down (sort_key fl lo) limit [] (reverse (below (sort_key fl hi))))) v →
  wp (reverse_from kt fuel t limit c lo hi) Q v.
Proof.
  intros Hc Hlo Hhi HQ. pose proof (below_length (sort_key fl hi)) as Hlen.
  assert (∀ p rest c', below (sort_key fl hi) = rest ++ [p] → on_pair kt (t_dbi t) c' p →
    rest = pairs_where kt μ (fun k => bytes_lt k (rank kt p.1)) → good_key kt p.1 → value_ok p.2 →
    wp (reverse_loop kt t fuel lo limit (MDBX_SUCCESS, stored kt p.1, serialize_value p.2, c') []) Q v) as Hloop.
  { intros p rest c' E Hp Er Hk Hx. rewrite E, length_app in Hlen. simpl in Hlen. eapply wp_reverse_loop; [done..|lia|].
    by rewrite E, reverse_snoc in HQ. }
  eapply wp_typed_get; [exact Hv|done|done| |].
  { intros rc k x c' He. cbv beta iota. rewrite !(proj2 (Z.eqb_neq rc _)) by (intros ->; apply law_error in He; set_solver).
    apply wp_ret_bind. cbv beta iota. rewrite !(proj2 (Z.eqb_neq rc _)) by (intros ->; apply law_error in He; set_solver).
    by apply wp_check_error. }
  rewrite ahead_from. destruct (pairs_where kt μ (bytes_le (sort_key fl hi))) as [|p rest] eqn:E.
  - intros k x c' Hc'. simpl. assert (behind kt μ c' MDBX_LAST = pairs kt μ) as Eb by by apply filter_all.
    eapply wp_typed_back; [exact Hv|done| |..].
    + intros rc k2 x2 c2 He. engine_error_case.
    + intros p rest c2 Ep Hp Er Hk Hx. simpl. apply wp_ret_bind. eapply Hloop; [|done..].
      by rewrite below_all, <- Eb.
    + intros k2 x2 c2 Ep _. simpl. apply wp_ret. by rewrite below_all, <- Eb, Ep in HQ.
  - intros c' Hp Er Hk Hx. simpl. apply wp_assoc. eapply wp_cmp; [apply Hv|by eapply key_fits, good_stored; [apply Hk|]|done|].
    fold (rank kt p.1). intros o Ho _.
    destruct (decide (bytes_le (rank kt p.1) (sort_key fl hi))) as [Hle|Hgt].
    + rewrite Z.gtb_ltb, (proj2 (Z.ltb_ge _ _)) by (assert (¬ o > 0) by (rewrite Ho; exact Hle); lia).
      apply wp_ret_bind. simpl. apply wp_ret_bind. by eapply Hloop; [eapply below_at|..].
    + assert (o > 0) by (apply Ho; unfold bytes_le in Hgt; destruct (bytes_compare _ _); [by destruct Hgt..|done]).
      rewrite Z.gtb_ltb, (proj2 (Z.ltb_lt _ _)) by lia.
      pose proof (below_past _ _ _ E Hgt) as Eb. pose proof (behind_prev kt (t_dbi t) μ c' p Hp) as Ep. rewrite <- Ep in Eb.
      eapply wp_typed_back; [exact Hv|apply Hp| |..].
      * intros rc k2 x2 c2 He. engine_error_case.
      * intros q rest2 c2 E2 Hq Er2 Hgq Hxq. simpl. apply wp_ret_bind. eapply Hloop; [|done..]. congruence.
      * intros k2 x2 c2 E2 _. simpl. apply wp_ret. by rewrite Eb, E2 in HQ.
Qed.


Lemma sorted_reverse {A} (R : A → A → Prop) (l : list A) : StronglySorted R l → StronglySorted (fun x y => R y x) (reverse l).
Proof.
  induction 1 as [|a l Hs IH Hall]; [constructor|]. rewrite reverse_cons. rewrite Forall_forall in Hall.
  apply StronglySorted_app_2; [|done|by repeat constructor].
  intros x y Hx ->%list_elem_of_singleton. rewrite elem_of_reverse in Hx. by apply Hall.
Qed.

(** At most [limit] elements of a list. *)
Definition first_of {A} (limit : option Z) (l : list A) : list A :=
  match limit with Some n => take (Z.to_nat n) l | None => l end.

Lemma collect_down_take lo limit out l :
  StronglySorted (fun p q : K * V => bytes_le (rank kt q.1) (rank kt p.1)) l →
  match limit with Some n => size_of out < n | None => True end →
  collect_down lo limit out l = first_of limit (out ++ filter (fun p => bytes_le lo (rank kt p.1)) l).
Proof.
  clear Hfuel. revert out. induction l as [|p l IH]; intros out Hs Hn; cbn [collect_down].
  { rewrite app_nil_r. destruct limit as [n|]; [|done]. unfold first_of, size_of in *. rewrite take_ge; [done|lia]. }
  apply StronglySorted_inv in Hs as [Hs Hall]. rewrite Forall_forall in Hall. case_decide as Hlt.
  - assert (filter (fun p => bytes_le lo (rank kt p.1)) (p :: l) = []) as ->.
    { apply filter_none, Forall_forall. intros q Hq Hle. apply bytes_nle_lt in Hlt. apply Hlt. apply elem_of_cons in Hq as [->|Hq%Hall]; [done|].
      by etrans. }
    rewrite app_nil_r. destruct limit as [n|]; [|done]. unfold first_of, size_of in *. rewrite take_ge; [done|lia].
  - rewrite filter_cons, decide_True by (by apply bytes_nlt_le). set (l' := filter _ l). change (p :: l') with ([p] ++ l').
    rewrite (app_assoc out [p] l'). cbv zeta.
    destruct limit as [n|]; cbn [first_of] in *; [|by apply (IH (out ++ [p]))].
    unfold size_of in *. rewrite Z.geb_leb, length_app. cbn [length]. destruct (Z.leb_spec n (Z.of_nat (length out + 1))).
    + rewrite take_app_le, take_ge; [done|..]; rewrite length_app; simpl; lia.
    + apply (IH (out ++ [p])); [done|]. rewrite length_app. simpl. lia.
Qed.

Lemma collect_below lo hi limit :
  match limit with Some n => 0 < n | None => True end →
  collect_down lo limit [] (reverse (below hi)) = first_of limit (reverse (between μ lo hi)).
Proof.
  intros Hn. rewrite collect_down_take; [|apply (sorted_reverse (fun p q : K * V => bytes_le (rank kt p.1) (rank kt q.1)))|done].
  2: { rewrite <- (list_fmap_id (below hi)). eapply (StronglySorted_map _ _ id), (pairs_where_sorted kt _ _ _ _ Hv). intros p q. apply bytes_lt_le. }
  simpl. f_equal. rewrite filter_reverse. f_equal. unfold below, between, pairs_where. rewrite filter_twice.
  apply list_filter_iff. naive_solver.
Qed.

Lemma wp_reverse limit a b Q :
  match limit with Some n => 0 < n | None => True end → key_ok kt a → key_ok kt b →
  Q (with_keys a b (first_of limit (reverse (between μ (place a) (place b))))) v →
  wp (with_range kt t a b [] (reverse_from kt fuel t limit)) Q v.
Proof.
  intros Hn Ha Hb HQ. rewrite <- with_keys_Ok in HQ. apply wp_with_range; [done|done|..].
  - intros e E. by rewrite E in HQ.
  - intros E Hlt. rewrite E, between_empty in HQ by done. cbn [mbind result_bind] in HQ. rewrite reverse_nil in HQ.
    destruct limit; cbn [first_of] in HQ; [by rewrite take_nil in HQ|done].
  - intros lo hi c E El Eh Hl Hh Hc Hle. apply wp_reverse_from; [done..|]. rewrite collect_below, El, Eh by done.
    by rewrite E in HQ.
Qed.

Lemma wp_db_range_reverse a b Q :
  key_ok kt a → key_ok kt b → Q (with_keys a b (reverse (between μ (place a) (place b)))) v →
  wp (db_range_reverse kt fuel t a b) Q v.
Proof. intros Ha Hb HQ. by apply wp_reverse. Qed.

Lemma wp_db_range_reverse_limit a b n Q :
  0 ≤ n → key_ok kt a → key_ok kt b →
  Q (if n =? 0 then Ok [] else with_keys a b (take (Z.to_nat n) (reverse (between μ (place a) (place b))))) v →
  wp (db_range_reverse_limit kt fuel t a b n) Q v.
Proof.
  intros Hn Ha Hb HQ. unfold db_range_reverse_limit. destruct (Z.eqb_spec n 0); [by apply wp_ret|].
  apply wp_reverse; [lia|done..].
Qed.

(** What [find_many] finds: the keys that are present, in the order asked for; the first
    key without a stored form ends the call. *)
Fixpoint found_many (keys : list K) : result (list (K * V)) :=
  match keys with
  | [] => Ok []
  | k :: keys' =>
      _ ← serialize_key kt k;
      rest ← found_many keys';
      Ok (match μ !! key_canonical kt k with Some x => (k, x) :: rest | None => rest end)
  end.

Lemma wp_db_find_many_vector keys Q :
  Forall (key_ok kt) keys → Q (found_many keys) v → wp (db_find_many_vector kt t keys) Q v.
Proof.
  revert Q. induction keys as [|k keys IH]; intros Q Hk HQ; cbn [db_find_many_vector found_many] in *; [by apply wp_ret|].
  apply Forall_cons in Hk as [Hk Hks]. apply wp_bind, wp_db_get; [done|]. unfold with_key.
  destruct (serialize_key kt k) as [b|e]; cbn [mbind result_bind] in *; [|done]. apply wp_bind, IH; [done|].
  destruct (found_many keys) as [rest|e]; cbn [mbind result_bind] in *; [|done]. by apply wp_ret.
Qed.
End Reads.
