(* ===== verification/KvSpec.v ===== *)
(** * What a KeyValueTable does

    The abstract table is a finite map.  [call] lists the methods of [KvTable], [run_call]
    runs one on a transaction and [call_spec] says what it does to the map, what it returns
    or throws, and which changes it hands to the hooks of the connection.  The theorems
    relate the two, for single methods and for client programs that choose the next method
    by what the earlier ones returned. *)
From S2P Require Import Prelude SyncCommon KeyCodec SyncProtocol ValueCodec Mdbx RefMdbx StoreBase TxnState.
From S2P Require Import ScopeStore Capture CaptureHooks ApplyEffect TableBase KvTable.
From S2P Require MetaStore VersionedDbiStore.
Open Scope Z_scope.

(** ** Operations on a map *)

(** The result, the new map, and the changes in the order they are made. *)
Definition Sp (K V : Type) `{Countable K} (A : Type) : Type := gmap K V → result A * gmap K V * list ChangeOp.

#[export] Instance Sp_ret {K V} `{Countable K} : MRet (Sp K V) := fun A x μ => (Ok x, μ, []).
#[export] Instance Sp_bind {K V} `{Countable K} : MBind (Sp K V) := fun A B f m μ =>
  match m μ with
  | (Ok x, μ1, ops) => let '(r, μ2, ops') := f x μ1 in (r, μ2, ops ++ ops')
  | (Throw e, μ1, ops) => (Throw e, μ1, ops)
  end.

Section Spec.
Context (kt : key_type) {V : Type} `{!TableValue V} (t : table_obj).
Abbreviation K := (key_val kt).
Abbreviation value_type := (K * V)%type.

Definition observe {A} (f : gmap K V → result A) : Sp K V A := fun μ => (f μ, μ, []).

Definition put_op (k x : bytes) : ChangeOp := table_op (t_name t) (t_flags t) Put k x.
Definition delete_op (p : value_type) : ChangeOp := table_op (t_name t) (t_flags t) Delete (stored kt p.1) [].
Definition clear_op : ChangeOp := table_op (t_name t) (t_flags t) ClearTable [] [].

(** What a method needs the stored form of [k] for. *)
Definition keyed {A} (k : K) (f : bytes → Sp K V A) : Sp K V A := fun μ =>
  match serialize_key kt k with Ok b => f b μ | Throw e => (Throw e, μ, []) end.

Definition assign (k : K) (x : V) : Sp K V unit := keyed k (fun b μ =>
  (Ok tt, <[key_canonical kt k := x]> μ, [put_op b (serialize_value x)])).

Fixpoint assign_all (l : list value_type) : Sp K V unit :=
  match l with
  | [] => mret tt
  | (k, x) :: l' => _ ← assign k x; assign_all l'
  end.

Definition insert_absent (k : K) (x : V) : Sp K V bool := keyed k (fun _ μ =>
  match μ !! key_canonical kt k with
  | Some _ => (Ok false, μ, [])
  | None => (_ ← assign k x; mret true) μ
  end).

Definition update (k : K) (fn : V → result V) : Sp K V bool := keyed k (fun _ μ =>
  match μ !! key_canonical kt k with
  | None => (Ok false, μ, [])
  | Some x =>
      match fn x with
      | Throw e => (Throw e, μ, [])
      | Ok y => (_ ← assign k y; mret true) μ
      end
  end).

Definition remove (k : K) : Sp K V bool := keyed k (fun b μ =>
  match μ !! key_canonical kt k with
  | None => (Ok false, μ, [])
  | Some x => (Ok true, delete (key_canonical kt k) μ, [delete_op (key_canonical kt k, x)])
  end).

(** Removes the pairs that satisfy [P], in key order. *)
Definition remove_where (P : value_type → Prop) `{∀ p, Decision (P p)} : Sp K V Z := fun μ =>
  let l := filter P (pairs kt μ) in
  (Ok (Z.of_nat (length l) mod 2 ^ 64), filter (fun p => ¬ P p) μ, delete_op <$> l).

Definition stale (container : list value_type) (p : value_type) : Prop :=
  known_key kt container.*1 p.1 = false.
#[export] Instance stale_dec container p : Decision (stale container p) := decide_rel (=) _ _.

Definition reconcile (container : list value_type) : Sp K V unit :=
  _ ← assign_all container;
  _ ← remove_where (stale container);
  mret tt.

Definition erase_range (a b : K) : Sp K V Z :=
  keyed a (fun _ => keyed b (fun _ =>
    remove_where (fun p => bytes_le (place kt a) (rank kt p.1) ∧ bytes_le (rank kt p.1) (place kt b)))).

Definition clear : Sp K V unit := fun _ => (Ok tt, ∅, [clear_op]).
End Spec.

(** ** The methods *)

Inductive call {kt : key_type} {V : Type} : Type → Type :=
  | Get (key : key_val kt) : call (option V)
  | Contains (key : key_val kt) : call bool
  | Count : call Z
  | Load (out : list (key_val kt * V)) : call (list (key_val kt * V))
  | Range (from_key to_key : key_val kt) : call (list (key_val kt * V))
  | RangeValues (from_key to_key : key_val kt) : call (list V)
  | ForEachRange {S} (callback : S → key_val kt → V → result (S * bool)) (from_key to_key : key_val kt) (st : S)
      : call (S * bool)
  | LowerBound (key : key_val kt) : call (option (key_val kt * V))
  | UpperBound (key : key_val kt) : call (option (key_val kt * V))
  | First : call (option (key_val kt * V))
  | Last : call (option (key_val kt * V))
  | MinKey : call (option (key_val kt))
  | MaxKey : call (option (key_val kt))
  | RangeReverse (from_key to_key : key_val kt) : call (list (key_val kt * V))
  | RangeReverseLimit (from_key to_key : key_val kt) (limit : Z) : call (list (key_val kt * V))
  | ContainsRange (from_key to_key : key_val kt) : call bool
  | CountRange (from_key to_key : key_val kt) : call Z
  | FindMany (keys : list (key_val kt)) : call (list (key_val kt * V))
  | InsertIfAbsent (key : key_val kt) (value : V) : call bool
  | InsertOrAssign (key : key_val kt) (value : V) : call unit
  | Update (key : key_val kt) (fn : V → result V) : call bool
  | Append (container : list (key_val kt * V)) : call unit
  | Reconcile (container : list (key_val kt * V)) : call unit
  | Erase (key : key_val kt) : call bool
  | EraseRange (from_key to_key : key_val kt) : call Z
  | Clear : call unit.
Arguments call : clear implicits.

Section Calls.
Context (kt : key_type) {V : Type} `{!TableValue V} (t : table_obj).
Abbreviation K := (key_val kt).

Definition run_call {X : Mdbx} (fuel : nat) (ptr : Z) {A} (c : call kt V A) : H A :=
  match c with
  | Get k => txn_call (db_get kt t k)
  | Contains k => txn_call (db_contains kt t k)
  | Count => txn_call (db_count t)
  | Load out => txn_call (db_load kt fuel t out)
  | Range a b => txn_call (db_range kt fuel t a b)
  | RangeValues a b => txn_call (db_range_values kt fuel t a b)
  | ForEachRange f a b st => txn_call (db_for_each_range kt fuel t f a b st)
  | LowerBound k => txn_call (db_lower_bound kt t k)
  | UpperBound k => txn_call (db_upper_bound kt t k)
  | First => txn_call (db_first kt t)
  | Last => txn_call (db_last kt t)
  | MinKey => txn_call (db_min_key kt t)
  | MaxKey => txn_call (db_max_key kt t)
  | RangeReverse a b => txn_call (db_range_reverse kt fuel t a b)
  | RangeReverseLimit a b n => txn_call (db_range_reverse_limit kt fuel t a b n)
  | ContainsRange a b => txn_call (db_contains_range kt t a b)
  | CountRange a b => txn_call (db_count_range kt fuel t a b)
  | FindMany keys => txn_call (db_find_many_vector kt t keys)
  | InsertIfAbsent k x => db_insert_if_absent kt t ptr k x
  | InsertOrAssign k x => db_insert_or_assign kt t ptr k x
  | Update k fn => db_update kt t ptr k fn
  | Append l => db_append kt t ptr l
  | Reconcile l => db_reconcile kt fuel t ptr l
  | Erase k => db_erase kt t ptr k
  | EraseRange a b => db_erase_range kt fuel t ptr a b
  | Clear => db_clear t ptr
  end.

(** The pairs are visited in the order of the keys' values; a bound names a place in it. *)
Definition call_spec {A} (c : call kt V A) : Sp K V A :=
  match c with
  | Get k => observe kt (fun μ => with_key kt k (μ !! key_canonical kt k))
  | Contains k => observe kt (fun μ => with_key kt k (bool_decide (is_Some (μ !! key_canonical kt k))))
  | Count => observe kt (fun μ => Ok (Z.of_nat (size μ)))
  | Load out => observe kt (fun μ => Ok (out ++ pairs kt μ))
  | Range a b => observe kt (fun μ => with_keys kt a b (between kt μ (place kt a) (place kt b)))
  | RangeValues a b => observe kt (fun μ => with_keys kt a b (between kt μ (place kt a) (place kt b)).*2)
  | ForEachRange f a b st => observe kt (fun μ =>
      _ ← with_keys kt a b tt; visit kt f st (between kt μ (place kt a) (place kt b)))
  | LowerBound k => observe kt (fun μ => with_key kt k (head (pairs_where kt μ (bytes_le (place kt k)))))
  | UpperBound k => observe kt (fun μ => with_key kt k (head (pairs_where kt μ (bytes_lt (place kt k)))))
  | First => observe kt (fun μ => Ok (head (pairs kt μ)))
  | Last => observe kt (fun μ => Ok (last (pairs kt μ)))
  | MinKey => observe kt (fun μ => Ok (fst <$> head (pairs kt μ)))
  | MaxKey => observe kt (fun μ => Ok (fst <$> last (pairs kt μ)))
  | RangeReverse a b => observe kt (fun μ => with_keys kt a b (reverse (between kt μ (place kt a) (place kt b))))
  | RangeReverseLimit a b n => observe kt (fun μ =>
      if n =? 0 then Ok []
      else with_keys kt a b (take (Z.to_nat n) (reverse (between kt μ (place kt a) (place kt b)))))
  | ContainsRange a b => observe kt (fun μ =>
      with_keys kt a b (bool_decide (between kt μ (place kt a) (place kt b) ≠ [])))
  | CountRange a b => observe kt (fun μ =>
      with_keys kt a b (Z.of_nat (length (between kt μ (place kt a) (place kt b))) mod 2 ^ 64))
  | FindMany keys => observe kt (fun μ => found_many kt μ keys)
  | InsertIfAbsent k x => insert_absent kt t k x
  | InsertOrAssign k x => assign kt t k x
  | Update k fn => update kt t k fn
  | Append l => assign_all kt t l
  | Reconcile l => reconcile kt t l
  | Erase k => remove kt t k
  | EraseRange a b => erase_range kt t a b
  | Clear => clear kt t
  end.

(** Arguments are values of their types, and functions keep to them. *)
Definition pair_ok (p : K * V) : Prop := key_ok kt p.1 ∧ value_ok p.2.
Definition call_ok {A} (c : call kt V A) : Prop :=
  match c with
  | Get k | Contains k | LowerBound k | UpperBound k | Erase k => key_ok kt k
  | Range a b | RangeValues a b | ForEachRange _ a b _ | RangeReverse a b | ContainsRange a b | CountRange a b
  | EraseRange a b => key_ok kt a ∧ key_ok kt b
  | RangeReverseLimit a b n => key_ok kt a ∧ key_ok kt b ∧ 0 ≤ n
  | FindMany keys => Forall (key_ok kt) keys
  | InsertIfAbsent k x | InsertOrAssign k x => pair_ok (k, x)
  | Update k fn => key_ok kt k ∧ ∀ x y, value_ok x → fn x = Ok y → value_ok y
  | Append l | Reconcile l => Forall pair_ok l
  | Count | Load _ | First | Last | MinKey | MaxKey | Clear => True
  end.

Definition is_read {A} (c : call kt V A) : bool :=
  match c with
  | InsertIfAbsent _ _ | InsertOrAssign _ _ | Update _ _ | Append _ | Reconcile _ | Erase _ | EraseRange _ _ | Clear => false
  | _ => true
  end.

(** More pairs than a method ever meets. *)
Definition call_fuel {A} (c : call kt V A) (μ : gmap K V) : nat :=
  match c with Append l | Reconcile l => S (size μ + length l) | _ => S (size μ) end.
End Calls.

(** ** States of a table *)

Definition guard_tables : list bytes :=
  [scopes_name; dbis_name; MetaStore.meta_name; VersionedDbiStore.versioned_name; logical_bindings_name].

Lemma guard_result_same h ptr v v' n :
  (∀ m, m ∈ guard_tables → v_dbs v' !! m = v_dbs v !! m) → guard_result h ptr v' n = guard_result h ptr v n.
Proof.
  intros Hv. unfold guard_result, existing_result, store_present, writer_result, contract_result, logical_result, recs, table.
  by rewrite !Hv by (unfold guard_tables; set_solver).
Qed.

Lemma guard_view_same env v v' :
  (∀ m, m ∈ guard_tables → v_dbs v' !! m = v_dbs v !! m) → v_env v' = v_env v → guard_view env v → guard_view env v'.
Proof.
  intros Hv He [H1 H2 H3 H4]. assert (∀ m, m ∈ guard_tables → table v' m = table v m) as Ht.
  { intros m Hm. unfold table. by rewrite Hv. }
  split; [by rewrite He| | |].
  - intros n Hn. unfold sys_table. rewrite Ht by (unfold guard_tables; set_solver). by apply H2.
  - unfold recs. rewrite Ht by (unfold guard_tables; set_solver). done.
  - unfold recs. rewrite !Ht by (unfold guard_tables; set_solver). done.
Qed.

Definition recorded_all (ptr : Z) (ops : list ChangeOp) (h : hooks) : hooks :=
  foldl (fun h op => recorded ptr op h) h ops.

Lemma recorded_all_app ptr ops ops' h : recorded_all ptr (ops ++ ops') h = recorded_all ptr ops' (recorded_all ptr ops h).
Proof. apply foldl_app. Qed.

(** What the hooks decide by is not changed by recording. *)
Lemma recorded_guard ptr op h v n : guard_result (recorded ptr op h) ptr v n = guard_result h ptr v n.
Proof.
  unfold recorded. destruct (m_sync_capture h) as [a|] eqn:Ea; [|done]. destruct (sync_capture_suppressed ptr h); [done|].
  unfold guard_result, writer_result. simpl. by rewrite Ea.
Qed.

Definition effects (ops : list ChangeOp) (m : gmap bytes bytes) : gmap bytes bytes :=
  foldl (fun m op => op_effect op m) m ops.

Section Writes.
Context {X : Mdbx} {L : MdbxLaws X} (kt : key_type) `{!KeyReadable kt} {V : Type} `{!TableValue V}.
Context (env : Z) (t : table_obj) (ptr : Z) (Hname : t_name t ∉ guard_tables).
Abbreviation K := (key_val kt).
Abbreviation fl := (get_mdbx_flags kt).

(** The open table holds [μ] in a write transaction. *)
Record table_state (h : hooks) (v : db_view) (μ : gmap K V) : Prop := {
  ts_typed : typed kt v (t_dbi t) (t_name t) μ;
  ts_rw : v_rw v = true;
  ts_env : hk_env h = env;
  ts_sink a : m_sync_capture h = Some a → ac_env a = env;
  ts_writable : hk_read_only h = false;
  ts_guard : guard_view env v;
}.

Lemma ts_reopen h v v' μ : v_reopen v v' → table_state h v μ → table_state h v' μ.
Proof.
  intros [He Hd] [[Hb Hm] H2 H3 H4 H5 H6]. split; try done.
  - split; [by eapply bound_ext|]. by rewrite (ext_recs _ _ _ He).
  - by rewrite (ext_rw _ _ He).
  - eapply guard_view_same; [|by apply ext_env|done]. by rewrite Hd.
Qed.

Lemma ts_recorded op h v μ : table_state h v μ → table_state (recorded ptr op h) v μ.
Proof.
  intros Hs. unfold recorded. destruct (m_sync_capture h) as [a|] eqn:Ea; [|done]. destruct (sync_capture_suppressed ptr h); [done|].
  destruct Hs as [H1 H2 H3 H4 H5 H6]. split; try done. intros a' [= <-]. by apply (H4 a).
Qed.

Lemma update_others v f m : m ≠ t_name t → v_dbs (v_update v (t_name t) f) !! m = v_dbs v !! m.
Proof. intros Hm. apply (only_dbs (t_name t)); [apply v_only_update|done]. Qed.

Lemma guarded_others (v v' : db_view) :
  (∀ m, m ≠ t_name t → v_dbs v' !! m = v_dbs v !! m) → ∀ m, m ∈ guard_tables → v_dbs v' !! m = v_dbs v !! m.
Proof. intros Hv m Hin. apply Hv. by intros ->. Qed.

Lemma ts_update h v μ f μ' :
  table_state h v μ → holds_map kt (f (recs v (t_name t))) μ' → table_state h (v_update v (t_name t) f) μ'.
Proof.
  intros [[Hb Hm] H2 H3 H4 H5 H6] Hf. split; try done.
  - split; [by apply bound_update|]. by rewrite recs_updated by by eapply bound_is_Some.
  - apply (guard_view_same env v); [|done|done]. apply guarded_others, update_others.
Qed.

(** The outcome of a method that did what [out] says from [h] and [v] on: the transaction
    changed in this table only, its records are those of the new map, the changes went to the hooks, and
    they are what turned the old records into the new ones. *)
Record did {A} (h : hooks) (v : db_view) (out : result A * gmap K V * list ChangeOp) (r : result A) (h' : hooks)
    (v' : db_view) : Prop := {
  did_result : r = out.1.1;
  did_hooks : h' = recorded_all ptr out.2 h;
  did_state : table_state h' v' out.1.2;
  did_frame : v_frame [t_name t] v v';
  did_others n : n ≠ t_name t → v_dbs v' !! n = v_dbs v !! n;
  did_effects : recs v' (t_name t) = effects out.2 (recs v (t_name t));
}.

(** A replication contract of the table does not let it be written. *)
Definition refused {A} (h : hooks) (v : db_view) (r : result A) : Prop :=
  ∃ e, guard_result h ptr v (t_name t) = Throw e ∧ r = Throw e.

Definition may {A} (h : hooks) (v : db_view) (out : result A * gmap K V * list ChangeOp) (r : result A) (h' : hooks)
    (v' : db_view) : Prop := did h v out r h' v' ∨ refused h v r.

(** From a table that holds [μ], [m] does what [sp] says, or is refused. *)
Definition refines_at {A} (μ : gmap K V) (m : H A) (sp : Sp K V A) : Prop :=
  ∀ h v, table_state h v μ → cwp (fun _ => True) m (may h v (sp μ)) h v.

Lemma may_same {A} h v (r : result A) μ : table_state h v μ → may h v (r, μ, []) r h v.
Proof. intros Hs. left. by split. Qed.

Lemma recorded_all_guard ops h v n : guard_result (recorded_all ptr ops h) ptr v n = guard_result h ptr v n.
Proof. revert h. induction ops as [|op ops IH]; intros h; [done|]. simpl. by rewrite IH, recorded_guard. Qed.

(** What the guard decides stays the same during a method. *)
Lemma refused_after {A B} h v (out : result A * gmap K V * list ChangeOp) r h1 v1 (r2 : result B) :
  did h v out r h1 v1 → refused h1 v1 r2 → refused h v r2.
Proof.
  intros Hd (e & He & ->). exists e. split; [|done]. rewrite <- He, (did_hooks _ _ _ _ _ _ Hd), recorded_all_guard.
  symmetry. apply guard_result_same. eapply guarded_others, Hd.
Qed.

Lemma did_trans {A B} h v (x : A) μ1 ops1 r1 h1 v1 (r : result B) μ2 ops2 r2 h2 v2 :
  did h v (Ok x, μ1, ops1) r1 h1 v1 → did h1 v1 (r, μ2, ops2) r2 h2 v2 → did h v (r, μ2, ops1 ++ ops2) r2 h2 v2.
Proof.
  intros [-> -> Hs Hf Ho He] [-> -> Hs2 Hf2 Ho2 He2]. simpl in *.
  split; simpl; [done|by rewrite recorded_all_app|done|by etrans|intros n Hn; by rewrite Ho2, Ho|].
  unfold effects in *. by rewrite foldl_app, He2, He.
Qed.

Lemma may_trans {A B} h v (x : A) μ1 ops1 r1 h1 v1 (r : result B) μ2 ops2 r2 h2 v2 :
  did h v (Ok x, μ1, ops1) r1 h1 v1 → may h1 v1 (r, μ2, ops2) r2 h2 v2 → may h v (r, μ2, ops1 ++ ops2) r2 h2 v2.
Proof. intros Hd [H|H]; [left; by eapply did_trans|right; by eapply refused_after]. Qed.

Lemma refines_ret {A} μ (x : A) : refines_at μ (mret x) (mret x).
Proof. intros h v Hs. by apply cwp_ret, may_same. Qed.

Lemma refines_bind {A B} μ (m : H A) (sp : Sp K V A) (f : A → H B) (g : A → Sp K V B) :
  refines_at μ m sp → (∀ x μ' ops, sp μ = (Ok x, μ', ops) → refines_at μ' (f x) (g x)) →
  refines_at μ (m ≫= f) (sp ≫= g).
Proof.
  intros Hm Hf h v Hs. apply cwp_bind. eapply cwp_mono; [by apply Hm|].
  intros r h' v' [Hd|(e & He & ->)]; [|right; by exists e]. destruct (sp μ) as [[r0 μ'] ops] eqn:E.
  assert ((sp ≫= g) μ = match r0 with Ok x => let '(r, μ2, ops') := g x μ' in (r, μ2, ops ++ ops')
    | Throw e => (Throw e, μ', ops) end) as -> by (unfold mbind, Sp_bind; by rewrite E).
  pose proof (did_result _ _ _ _ _ _ Hd) as ->. simpl. destruct r0 as [x|e]; [|left; by destruct Hd].
  eapply cwp_mono; [eapply Hf; [done|apply Hd]|]. intros r2 h2 v2 Hm2. simpl in Hm2.
  destruct (g x μ') as [[r3 μ2] ops2]. by eapply may_trans.
Qed.

(** A write by the transaction and the change handed to the hooks. *)
Lemma cwp_note h v μ ty k x f μ' :
  let op := table_op (t_name t) (t_flags t) ty k x in
  table_state h v μ → f (recs v (t_name t)) = op_effect op (recs v (t_name t)) →
  holds_map kt (f (recs v (t_name t))) μ' →
  cwp (fun _ => True) (record t ptr ty k x) (may h v (Ok tt, μ', [op])) h (v_update v (t_name t) f).
Proof.
  intros op Hs Hf Hm. pose proof (ts_update _ _ _ _ _ Hs Hm) as Hs'.
  assert (is_Some (v_dbs v !! t_name t)) as Hp by (eapply bound_is_Some, Hs).
  pose proof (cwp_record_op env ptr (t_name t) (t_flags t) ty k x h _ (ts_env _ _ _ Hs') (ts_sink _ _ _ Hs')
    (ts_guard _ _ _ Hs')) as Hr.
  intros s Hsv. specialize (Hr s Hsv). unfold record. destruct (record_op _ _ _ _ _ _ h s) as [[r h'] s'].
  destruct Hr as [[Hre Hpost]|[He _]]; [left|by right]. rewrite (ts_writable _ _ _ Hs') in Hpost.
  destruct Hpost as [-> ->]. simpl. rewrite (guard_result_same h ptr v) by (apply guarded_others, update_others).
  destruct (guard_result h ptr v (t_name t)) as [[]|e] eqn:Eg; [left|right; by exists e].
  split; simpl; [done|done|by eapply ts_reopen, ts_recorded| | |].
  - etrans; [apply v_only_self, v_only_update|]. apply v_ext_frame, Hre.
  - intros n Hn. rewrite (proj2 Hre). by apply update_others.
  - by rewrite (ext_recs _ _ _ (proj1 Hre)), recs_updated, Hf.
Qed.

(** ** The writing methods *)

Lemma cwp_pure {A} (r : result A) (Q : result A → hooks → db_view → Prop) h v :
  Q r h v → cwp (fun _ => True) (pure_call r) Q h v.
Proof. intros HQ. apply cwp_in_txn; [done|]. by apply wp_lift. Qed.

Lemma refines_keyed {A} μ k (f : bytes → H A) (g : bytes → Sp K V A) :
  (∀ b, serialize_key kt k = Ok b → refines_at μ (f b) (g b)) →
  refines_at μ (pure_call (serialize_key kt k) ≫= f) (keyed kt k g).
Proof.
  intros Hf h v Hs. apply cwp_bind, cwp_pure. unfold keyed. destruct (serialize_key kt k) as [b|e] eqn:E.
  - by apply Hf.
  - by apply may_same.
Qed.

Lemma key_keyed {A} k b (g : bytes → Sp K V A) μ : serialize_key kt k = Ok b → keyed kt k g μ = g b μ.
Proof. intros E. unfold keyed. by rewrite E. Qed.

Section Put.
Context (h : hooks) (v : db_view) (μ : gmap K V) (Hs : table_state h v μ).

(** The new pair is in the table; the change is not recorded yet. *)
Lemma cwp_put_noted k b x :
  key_ok kt k → serialize_key kt k = Ok b → value_ok x →
  cwp (fun _ => True) (record t ptr Put b (serialize_value x)) (may h v (assign kt t k x μ)) h
    (v_update v (t_name t) <[b := serialize_value x]>).
Proof.
  intros Hk Hb Hx. unfold assign. rewrite (key_keyed _ b) by done. apply (cwp_note _ _ μ); [done|done|].
  apply holds_insert; [apply Hs|done..].
Qed.

Lemma cwp_put_pair context k x : key_ok kt k → value_ok x → cwp (fun _ => True) (put_pair kt t ptr context k x) (may h v (assign kt t k x μ)) h v.
Proof.
  intros Hk Hx. pose proof (cwp_put_noted k) as Hn. unfold put_pair. apply cwp_bind, cwp_pure.
  unfold assign, keyed in *. destruct (serialize_key kt k) as [b|e]; [|by apply may_same].
  apply cwp_bind, cwp_in_txn; [done|]. eapply wp_put; [apply Hs|apply plain_flags|apply Hs|]. by apply Hn.
Qed.
End Put.

Lemma refines_put_pair μ context k x : pair_ok kt (k, x) → refines_at μ (put_pair kt t ptr context k x) (assign kt t k x).
Proof. intros [Hk Hx] h v Hs. by apply cwp_put_pair. Qed.

Lemma refines_append μ l : Forall (pair_ok kt) l → refines_at μ (db_append kt t ptr l) (assign_all kt t l).
Proof.
  intros Hl. revert μ. induction Hl as [|[k x] l Hp Hl IH]; intros μ; [apply refines_ret|].
  apply refines_bind; [by apply refines_put_pair|]. intros. apply IH.
Qed.

Lemma cwp_ret_map {A B} (I : hooks → Prop) (m : H A) (y : B) (Q : result B → hooks → db_view → Prop) h v :
  cwp I m (fun r h' v' => Q (_ ← r; Ok y) h' v') h v → cwp I (_ ← m; mret y) Q h v.
Proof. intros Hm. apply cwp_bind. eapply cwp_mono; [exact Hm|]. intros [x|e] h' v'; [apply cwp_ret|done]. Qed.

Lemma may_result {A B} h v (x : A) (y : B) μ ops r h' v' :
  may h v (Ok x, μ, ops) r h' v' → may h v (Ok y, μ, ops) (_ ← r; Ok y) h' v'.
Proof.
  intros [[-> -> H3 H4 H5 H6]|(e & He & ->)]; [left; by split|right; by exists e].
Qed.

Lemma may_map {A B} h v (sp : Sp K V A) (y : B) μ r h' v' :
  may h v (sp μ) r h' v' → may h v ((_ ← sp; mret y) μ) (_ ← r; Ok y) h' v'.
Proof.
  intros Hm. unfold mbind at 1, Sp_bind. destruct (sp μ) as [[[x|e] μ'] ops].
  - simpl. rewrite app_nil_r. by eapply may_result.
  - destruct Hm as [[-> -> H3 H4 H5 H6]|(e' & He & ->)]; [left; by split|right; by exists e'].
Qed.

Lemma cwp_check_error {B} rc context (f : unit → H B) Q h v :
  engine_error rc → cwp (fun _ => True) (txn_call (check_mdbx rc context) ≫= f) Q h v.
Proof. intros He. apply cwp_bind, cwp_in_txn; [done|]. by apply wp_check_error'. Qed.

Ltac cwp_error_case :=
  repeat match goal with
  | He : engine_error ?rc |- context [?rc =? ?c] =>
      rewrite (error_neq rc c He) by (vm_compute; set_solver)
  end;
  first [by apply cwp_check_error | apply cwp_in_txn; [done|]; by apply wp_check_error'].

Lemma refines_insert_if_absent μ k x :
  pair_ok kt (k, x) → refines_at μ (db_insert_if_absent kt t ptr k x) (insert_absent kt t k x).
Proof.
  intros [Hk Hx]. apply refines_keyed. intros b Hb h v Hs. simpl in *.
  pose proof (holds_lookup_key kt _ _ (proj2 (ts_typed _ _ _ Hs)) k b Hk Hb) as Hl. apply cwp_bind, cwp_in_txn; [done|].
  intros s Hsv. unfold put. destruct (mdbx_put _ _ _ _ _) as [rc s2] eqn:E. left. subst v.
  destruct (law_put _ _ _ _ _ _ _ _ _ E (bound_table _ _ _ _ (proj1 (ts_typed _ _ _ Hs))) (plain_flags kt) (ts_rw _ _ _ Hs))
    as [He|[(_ & [y Hy] & -> & ->)|([[=]|Hn] & -> & ->)]]; [cwp_error_case|..]; cbn [dv_recs] in *; rewrite Hl in *.
  - destruct (μ !! key_canonical kt k); [|done]. by apply cwp_ret, may_same.
  - destruct (μ !! key_canonical kt k); [done|]. apply cwp_ret_map. eapply cwp_mono; [by apply cwp_put_noted|].
    intros r h' v' Hd. by apply may_map.
Qed.

Lemma refines_update μ k fn :
  key_ok kt k → (∀ x y, value_ok x → fn x = Ok y → value_ok y) →
  refines_at μ (db_update kt t ptr k fn) (update kt t k fn).
Proof.
  intros Hk Hfn. apply refines_keyed. intros b Hb h v Hs. apply cwp_bind, cwp_in_txn; [done|].
  eapply wp_lookup_key; [apply Hs|done|done|]. destruct (μ !! key_canonical kt k) as [x|] eqn:Ex; [|by apply cwp_ret, may_same].
  destruct (holds_good kt _ _ (proj2 (ts_typed _ _ _ Hs)) _ _ Ex) as [_ Hx]. cbn [fmap option_fmap option_map].
  apply cwp_bind, cwp_pure. rewrite value_decodes by done. apply cwp_bind, cwp_pure.
  destruct (fn x) as [y|e] eqn:Ey; [|by apply may_same]. apply cwp_ret_map. eapply cwp_mono.
  - apply cwp_put_pair; [done|done|by eapply Hfn].
  - intros r h' v' Hd. by apply may_map.
Qed.

Lemma refines_erase μ k : key_ok kt k → refines_at μ (db_erase kt t ptr k) (remove kt t k).
Proof.
  intros Hk. apply refines_keyed. intros b Hb h v Hs.
  pose proof (holds_lookup_key kt _ _ (proj2 (ts_typed _ _ _ Hs)) k b Hk Hb) as Hl. apply cwp_bind, cwp_in_txn; [done|].
  intros s Hsv. unfold del. destruct (mdbx_del _ _ _) as [rc s2] eqn:E. left. subst v.
  destruct (law_del _ _ _ _ _ _ _ E (bound_table _ _ _ _ (proj1 (ts_typed _ _ _ Hs))) (plain_flags kt) (ts_rw _ _ _ Hs))
    as [He|[(-> & Hn & ->)|(-> & Hn & ->)]]; [cwp_error_case|..]; cbn [dv_recs] in *; rewrite Hl in *.
  - destruct (μ !! key_canonical kt k); [done|]. by apply cwp_ret, may_same.
  - destruct (μ !! key_canonical kt k); [|by destruct Hn]. apply cwp_ret_map. unfold delete_op.
    cbn [fst]. rewrite (stored_canonical kt k b Hk Hb). eapply cwp_mono.
    + apply (cwp_note _ _ μ Delete b [] (delete b) (delete (key_canonical kt k) μ)); [done|done|].
      rewrite <- (stored_canonical kt k b Hk Hb). apply holds_delete; [apply Hs|by eapply good_canonical].
    + intros r h' v' Hd. by eapply may_result.
Qed.

Lemma refines_clear μ : refines_at μ (db_clear t ptr) (clear kt t).
Proof.
  intros h v Hs. apply cwp_bind, cwp_in_txn; [done|].
  intros s Hsv. unfold drop_table. destruct (mdbx_drop _ _) as [rc s2] eqn:E. left. subst v.
  destruct (law_drop _ _ _ _ _ _ E (bound_table _ _ _ _ (proj1 (ts_typed _ _ _ Hs))) (ts_rw _ _ _ Hs)) as [He|(-> & ->)].
  { by apply cwp_check_error. }
  apply cwp_bind, cwp_in_txn; [done|]. apply wp_ret. apply (cwp_note _ _ μ); [done|done|]. apply holds_empty.
Qed.

(** *** Removing with a cursor *)

Definition removed_by (μ : gmap K V) (l : list (K * V)) : gmap K V := foldl (fun μ p => delete p.1 μ) μ l.

Lemma removed_by_lookup l μ k : removed_by μ l !! k = if decide (k ∈ l.*1) then None else μ !! k.
Proof.
  revert μ. induction l as [|p l IH]; intros μ; [done|]. simpl. rewrite IH. destruct (decide (k ∈ l.*1)) as [Hin|Hin].
  - by rewrite decide_True by by right.
  - destruct (decide (k = p.1)) as [->|Hne]; [rewrite decide_True by left; by rewrite lookup_delete_eq|].
    rewrite decide_False by (rewrite elem_of_cons; tauto). by rewrite lookup_delete_ne.
Qed.

Lemma removed_by_filter μ P `{∀ p, Decision (P p)} : removed_by μ (filter P (pairs kt μ)) = filter (fun p => ¬ P p) μ.
Proof.
  apply map_eq. intros k. rewrite removed_by_lookup. apply option_eq. intros x. rewrite map_lookup_filter_Some.
  destruct (decide (k ∈ (filter P (pairs kt μ)).*1)) as [Hin|Hin].
  - split; [done|]. intros [Hx HP]. apply list_elem_of_fmap in Hin as ([k' y] & -> & Hin).
    apply list_elem_of_filter in Hin as [Hy Hin]. apply elem_of_pairs in Hin. simpl in *. congruence.
  - split; [|by intros []]. intros Hx. split; [done|]. intros HP. apply Hin. apply list_elem_of_fmap. exists (k, x).
    split; [done|]. apply list_elem_of_filter. split; [done|]. by apply elem_of_pairs.
Qed.

Lemma pairs_delete m μ k : holds_map kt m μ → pairs kt (delete k μ) = filter (fun p => p.1 ≠ k) (pairs kt μ).
Proof.
  intros Hm. pose proof (pairs_sorted kt _ _ Hm) as Hs.
  assert (∃ m', holds_map kt m' (delete k μ)) as [m' Hm'].
  { destruct (μ !! k) as [x|] eqn:E; [|exists m; by rewrite delete_id].
    exists (delete (stored kt k) m). apply holds_delete; [done|]. by apply (holds_good kt _ _ Hm k x). }
  assert (AntiSymm (=) (fun p q : K * V => bytes_lt (rank kt p.1) (rank kt q.1))).
  { intros p q H1 H2. exfalso. eapply bytes_lt_irrefl, bytes_lt_trans; [exact H1|exact H2]. }
  apply (StronglySorted_unique (fun p q : K * V => bytes_lt (rank kt p.1) (rank kt q.1))).
  - by eapply pairs_sorted.
  - by apply StronglySorted_filter.
  - assert (∀ ν : gmap K V, NoDup (pairs kt ν)) as Hnd.
    { intros ν. unfold pairs. rewrite merge_sort_Permutation. apply NoDup_map_to_list. }
    apply NoDup_Permutation; [apply Hnd|apply NoDup_filter, Hnd|]. intros [k' x].
    rewrite list_elem_of_filter, !elem_of_pairs, lookup_delete_Some. naive_solver.
Qed.

(** After the pair under the cursor was removed, what follows is what followed before. *)
Lemma after_delete m μ (p : K * V) P `{∀ k, Decision (P k)} :
  holds_map kt m μ → ¬ P (rank kt p.1) → pairs_where kt (delete p.1 μ) P = pairs_where kt μ P.
Proof.
  intros Hm HP. unfold pairs_where. rewrite (pairs_delete m) by done. rewrite filter_twice. apply list_filter_iff.
  intros q. split; [tauto|]. intros Hq. split; [|done]. intros E. apply HP. by rewrite <- E.
Qed.

Lemma cwp_delete_current h v μ c p context (Q : result cursor → hooks → db_view → Prop) :
  table_state h v μ → on_pair kt (t_dbi t) c p → μ !! p.1 = Some p.2 →
  (∀ c' h' v', on_pair kt (t_dbi t) c' p → did h v (Ok tt, delete p.1 μ, [delete_op kt t p]) (Ok tt) h' v' → Q (Ok c') h' v') →
  (∀ e h' v', guard_result h ptr v (t_name t) = Throw e → Q (Throw e) h' v') →
  cwp (fun _ => True) (delete_current t ptr c (stored kt p.1) context) Q h v.
Proof.
  intros Hs [Hc Hk] Hp HQ HR. pose proof (ts_typed _ _ _ Hs) as Hv. destruct (holds_good kt _ _ (proj2 Hv) _ _ Hp) as [Hg _].
  apply cwp_bind, cwp_in_txn; [done|]. intros s Hsv. unfold cursor_del.
  destruct (mdbx_cursor_del s c) as [[rc s2] c2] eqn:E. left. subst v.
  pose proof (proj1 Hv) as Hb. rewrite <- Hc in Hb.
  destruct (law_cursor_del_by _ _ _ _ _ _ _ _ _ E (bound_table _ _ _ _ Hb) (typed_sized kt _ _ _ _ Hv) (ts_rw _ _ _ Hs) Hk)
    as [He|(-> & -> & Hc2 & Hk2)].
  { cbn [dv_recs]. by rewrite (holds_lookup kt _ _ (proj2 Hv)), Hp by done. }
  { by apply cwp_check_error. }
  apply cwp_bind, cwp_in_txn; [done|]. apply wp_ret. apply cwp_bind. eapply cwp_mono.
  - apply (cwp_note _ _ μ Delete (stored kt p.1) [] (delete (stored kt p.1)) (delete p.1 μ)); [done|done|].
    apply holds_delete; [apply Hv|done].
  - intros r h' v' [Hd|(e & He & ->)]; [|by apply HR].
    pose proof (did_result _ _ _ _ _ _ Hd) as ->. apply cwp_ret. apply HQ; [|done]. by split; [congruence|].
Qed.

(** One more pair removed. *)
Lemma may_removed {B} h v μ p h1 v1 (r : result B) l r2 h2 v2 :
  did h v (Ok tt, delete p.1 μ, [delete_op kt t p]) (Ok tt) h1 v1 →
  may h1 v1 (r, removed_by (delete p.1 μ) l, delete_op kt t <$> l) r2 h2 v2 →
  may h v (r, removed_by μ (p :: l), delete_op kt t <$> p :: l) r2 h2 v2.
Proof. intros H1 H2. exact (may_trans _ _ _ _ _ _ _ _ _ _ _ _ _ _ H1 H2). Qed.

Lemma ahead_pair μ c op key p rest h v : table_state h v μ → ahead kt μ c op key = p :: rest → μ !! p.1 = Some p.2.
Proof.
  intros Hs E. apply elem_of_pairs. destruct p. eapply elem_of_pairs_where. unfold ahead in E. rewrite E. left.
Qed.

Lemma cwp_call_bind {A B} (m : M A) (f : A → H B) (Q : result B → hooks → db_view → Prop) h v :
  wp (m ≫= mret) (fun r v' => match r with Ok x => cwp (fun _ => True) (f x) Q h v' | Throw e => Q (Throw e) h v' end) v →
  cwp (fun _ => True) (txn_call m ≫= f) Q h v.
Proof.
  intros Hm. apply cwp_bind, cwp_in_txn; [done|]. intros s Hs. specialize (Hm s Hs).
  unfold mbind, M_bind in Hm. by destruct (m s) as [[x|e] s'].
Qed.

(** The step both loops take: a look at the next pair. *)
Lemma cwp_next {A} h v μ c op key (f : Z * bytes * bytes * cursor → H A) (Q : result A → hooks → db_view → Prop) :
  table_state h v μ → cursor_dbi c = t_dbi t → (op = MDBX_SET_RANGE → fits kt key) →
  (∀ rc k x c', engine_error rc → cwp (fun _ => True) (f (rc, k, x, c')) Q h v) →
  match ahead kt μ c op key with
  | p :: rest => ∀ c', on_pair kt (t_dbi t) c' p → rest = pairs_where kt μ (bytes_lt (rank kt p.1)) →
      good_key kt p.1 → cwp (fun _ => True) (f (MDBX_SUCCESS, stored kt p.1, serialize_value p.2, c')) Q h v
  | [] => ∀ k x c', cwp (fun _ => True) (f (MDBX_NOTFOUND, k, x, c')) Q h v
  end →
  cwp (fun _ => True) (txn_call (cursor_get c op key) ≫= f) Q h v.
Proof.
  intros Hs Hc Hf HE HQ. apply cwp_call_bind.
  eapply wp_typed_get; [apply Hs|done|done|intros; by apply wp_ret, HE|].
  destruct (ahead kt μ c op key) as [|p rest].
  - intros k x c' _. apply wp_ret, HQ.
  - intros c' Hp Er Hg Hx. by apply wp_ret, HQ.
Qed.

Lemma cwp_erase_loop n h v μ c hi op key r :
  table_state h v μ → cursor_dbi c = t_dbi t → (op = MDBX_SET_RANGE → fits kt key) → fits kt hi →
  (length (ahead kt μ c op key) < n)%nat →
  let l := upto kt hi (ahead kt μ c op key) in
  cwp (fun _ => True) (erase_loop t ptr n hi op key c (r mod 2 ^ 64))
    (may h v (Ok ((r + Z.of_nat (length l)) mod 2 ^ 64), removed_by μ l, delete_op kt t <$> l)) h v.
Proof.
  revert h v μ c op key r. induction n as [|n IH]; intros h v μ c op key r Hs Hc Hf Hhi Hn l; [lia|].
  pose proof (ts_typed _ _ _ Hs) as Hv. cbn [erase_loop]. eapply cwp_next; [done..|intros; cwp_error_case|].
  assert (∀ p rest, ahead kt μ c op key = p :: rest → μ !! p.1 = Some p.2) as Hin by (intros; by eapply ahead_pair).
  destruct (ahead kt μ c op key) as [|p rest].
  { intros k x c'. apply cwp_ret. subst l. simpl. rewrite Z.add_0_r. by apply may_same. }
  intros c' Hp Er Hg. specialize (Hin p rest eq_refl). simpl in Hn. rewrite Z.eqb_refl.
  apply cwp_call_bind. eapply wp_cmp; [apply Hv|by eapply key_fits; [apply Hg|apply good_stored]|done|].
  fold (rank kt p.1). intros o Ho _. apply wp_ret. rewrite Z.gtb_ltb. destruct (Z.ltb_spec 0 o) as [Hgt|Hle].
  - assert (l = []) as ->; [|by apply cwp_ret; simpl; rewrite Z.add_0_r; apply may_same].
    apply upto_beyond; [|intros Hc2; apply Hc2, Ho; lia]. apply Forall_forall. intros q Hq. rewrite Er in Hq.
    by apply list_elem_of_filter in Hq as [? _].
  - assert (l = p :: upto kt hi rest) as ->.
    { unfold l, upto. rewrite filter_cons, decide_True; [done|]. unfold bytes_le. intros E%Ho. lia. }
    apply cwp_bind. eapply cwp_delete_current; [done..| |intros e h1 v1 He; right; by exists e].
    intros c2 h1 v1 Hc2 Hd. rewrite Z.add_mod_idemp_l by done.
    assert (rest = ahead kt (delete p.1 μ) c2 MDBX_NEXT []) as E.
    { rewrite (ahead_next kt _ _ _ _ Hc2), (after_delete _ μ p _ (proj2 Hv)) by apply bytes_lt_irrefl. done. }
    rewrite E in Hn |- *. pose proof (did_state _ _ _ _ _ _ Hd : table_state h1 v1 (delete p.1 μ)) as Hs1.
    eapply cwp_mono; [apply IH; [exact Hs1|apply Hc2|done|done|by apply Nat.succ_lt_mono]|].
    intros r2 h2 v2 H2. set (l' := upto _ _ _) in *.
    assert (r + Z.of_nat (length (p :: l')) = r + 1 + Z.of_nat (length l')) as -> by (cbn [length]; lia).
    by eapply may_removed.
Qed.

Lemma cwp_stale_loop n h v μ c new_keys :
  table_state h v μ → cursor_dbi c = t_dbi t → (length (ahead kt μ c MDBX_NEXT []) < n)%nat →
  let l := filter (fun p => known_key kt new_keys p.1 = false) (ahead kt μ c MDBX_NEXT []) in
  cwp (fun _ => True) (stale_loop kt t ptr n new_keys c) (may h v (Ok tt, removed_by μ l, delete_op kt t <$> l)) h v.
Proof.
  revert h v μ c. induction n as [|n IH]; intros h v μ c Hs Hc Hn l; [lia|].
  pose proof (ts_typed _ _ _ Hs) as Hv. cbn [stale_loop]. eapply cwp_next; [done..|intros; cwp_error_case|].
  assert (∀ p rest, ahead kt μ c MDBX_NEXT [] = p :: rest → μ !! p.1 = Some p.2) as Hin by (intros; by eapply ahead_pair).
  destruct (ahead kt μ c MDBX_NEXT []) as [|p rest].
  { intros k x c'. apply cwp_ret. by apply may_same. }
  intros c' Hp Er Hg. specialize (Hin p rest eq_refl). simpl in Hn. rewrite Z.eqb_refl.
  apply cwp_bind, cwp_pure. rewrite decode_key by done. subst l. rewrite filter_cons.
  destruct (known_key kt new_keys p.1) eqn:Ek.
  - rewrite decide_False by done. assert (rest = ahead kt μ c' MDBX_NEXT []) as E by by rewrite (ahead_next kt _ _ _ _ Hp).
    rewrite E in Hn |- *.
    apply IH; [done|apply Hp|by apply Nat.succ_lt_mono].
  - rewrite decide_True by done. apply cwp_bind. eapply cwp_delete_current; [done..| |intros e h1 v1 He; right; by exists e].
    intros c2 h1 v1 Hc2 Hd.
    assert (rest = ahead kt (delete p.1 μ) c2 MDBX_NEXT []) as E.
    { rewrite (ahead_next kt _ _ _ _ Hc2), (after_delete _ μ p _ (proj2 Hv)) by apply bytes_lt_irrefl. done. }
    rewrite E in Hn |- *. pose proof (did_state _ _ _ _ _ _ Hd : table_state h1 v1 (delete p.1 μ)) as Hs1.
    eapply cwp_mono; [apply IH; [exact Hs1|apply Hc2|by apply Nat.succ_lt_mono]|]. intros r2 h2 v2 H2. by eapply may_removed.
Qed.

(** *** The methods that remove *)

Lemma assign_all_size l μ μ' ops : assign_all kt t l μ = (Ok tt, μ', ops) → (size μ' ≤ size μ + length l)%nat.
Proof.
  revert μ ops. induction l as [|[k x] l IH]; intros μ ops E; simpl in E.
  { injection E as -> _. by rewrite Nat.add_0_r. }
  unfold mbind, Sp_bind, assign, keyed in E. destruct (serialize_key kt k); [|done].
  destruct (assign_all kt t l _) as [[r μ2] ops2] eqn:E2. injection E as -> -> _. etrans; [exact (IH _ _ E2)|].
  rewrite map_size_insert. cbn [length]. destruct (μ !! key_canonical kt k); simpl; lia.
Qed.

Lemma refines_reconcile n μ l :
  Forall (pair_ok kt) l → (size μ + length l < n)%nat →
  refines_at μ (db_reconcile kt n t ptr l) (reconcile kt t l).
Proof.
  intros Hl Hn. apply refines_bind; [by apply refines_append|]. intros [] μ' ops E h v Hs.
  apply cwp_call_bind. apply wp_bind. eapply wp_open_cursor; [apply Hs|]. intros c Hc Hk. apply wp_ret.
  assert (ahead kt μ' c MDBX_NEXT [] = pairs kt μ') as Ea.
  { apply filter_all. intros p _. by rewrite Hk. }
  eapply cwp_mono; [apply cwp_stale_loop; [done|done|]|].
  - eapply Nat.le_lt_trans; [apply ahead_length|]. eapply Nat.le_lt_trans; [|exact Hn].
    by eapply assign_all_size.
  - intros r h' v' Hd. rewrite Ea, removed_by_filter in Hd.
    unfold mbind, Sp_bind, mret, Sp_ret, remove_where. rewrite app_nil_r. exact Hd.
Qed.

Lemma refines_erase_range n μ a b :
  key_ok kt a → key_ok kt b → (size μ < n)%nat →
  refines_at μ (db_erase_range kt n t ptr a b) (erase_range kt t a b).
Proof.
  intros Ha Hb Hn. apply refines_keyed. intros lo El. apply refines_keyed. intros hi Eh h v Hs.
  pose proof (key_fits kt _ _ Ha El) as Hfl. pose proof (key_fits kt _ _ Hb Eh) as Hfh.
  apply cwp_call_bind, wp_bind. eapply wp_open_cursor; [apply Hs|]. intros c Hc Hk. apply wp_ret.
  apply cwp_call_bind. eapply wp_cmp; [apply Hs|done|done|]. rewrite (place_sort kt a lo), (place_sort kt b hi) by done.
  intros o Ho _. apply wp_ret. rewrite Z.gtb_ltb. unfold remove_where.
  assert (filter (fun p => bytes_le (place kt a) (rank kt p.1) ∧ bytes_le (rank kt p.1) (place kt b)) (pairs kt μ) =
    between kt μ (place kt a) (place kt b)) as Eb by by apply list_filter_iff.
  rewrite <- removed_by_filter, Eb. destruct (Z.ltb_spec 0 o) as [Hlt|Hge].
  - rewrite between_empty; [by apply cwp_ret, may_same|]. apply bytes_nle_lt. intros Hle. apply Hle, Ho. lia.
  - change 0 with (0 mod 2 ^ 64) at 1. eapply cwp_mono.
    + apply (cwp_erase_loop n h v μ c hi MDBX_SET_RANGE lo 0); [done|done|done|done|].
      eapply Nat.le_lt_trans; [apply ahead_length|done].
    + intros r h' v'. rewrite ahead_from, upto_between, (place_sort kt a lo), (place_sort kt b hi) by done. done.
Qed.

(** ** Every method *)

(** A reading method returns what the map says, in any transaction. *)
Lemma cwp_read_call {A} (c : call kt V A) fuel μ h v Q :
  is_read kt c = true → call_ok kt c → (call_fuel kt c μ ≤ fuel)%nat → typed kt v (t_dbi t) (t_name t) μ →
  Q (call_spec kt t c μ).1.1 h v → cwp (fun _ => True) (run_call kt t fuel ptr c) Q h v.
Proof.
  destruct c; cbn [is_read call_ok call_fuel run_call call_spec observe fst]; intros Hr Hok Hf Hv HQ; try done;
    apply cwp_in_txn; try done; try destruct Hok as [Ha Hb].
  - by eapply wp_db_get.
  - by eapply wp_db_contains.
  - by eapply wp_db_count.
  - by eapply wp_db_load.
  - by eapply wp_db_range.
  - by eapply wp_db_range_values.
  - by eapply wp_db_for_each_range.
  - by eapply wp_db_lower_bound.
  - by eapply wp_db_upper_bound.
  - by eapply wp_db_first.
  - by eapply wp_db_last.
  - by eapply wp_db_min_key.
  - by eapply wp_db_max_key.
  - by eapply wp_db_range_reverse.
  - destruct Hb as [Hb Hn]. by eapply wp_db_range_reverse_limit.
  - by eapply wp_db_contains_range.
  - by eapply wp_db_count_range.
  - by eapply wp_db_find_many_vector.
Qed.

Lemma read_spec {A} (c : call kt V A) μ : is_read kt c = true → call_spec kt t c μ = ((call_spec kt t c μ).1.1, μ, []).
Proof. by destruct c. Qed.

Lemma call_refines {A} (c : call kt V A) fuel μ :
  call_ok kt c → (call_fuel kt c μ ≤ fuel)%nat → refines_at μ (run_call kt t fuel ptr c) (call_spec kt t c).
Proof.
  intros Hok Hf. destruct (is_read kt c) eqn:Er.
  { intros h v Hs. apply (cwp_read_call c fuel μ); [done..|apply Hs|]. rewrite read_spec by done. by apply may_same. }
  destruct c; cbn [call_ok call_fuel run_call call_spec] in *; try done.
  - by apply refines_insert_if_absent.
  - by apply refines_put_pair.
  - destruct Hok as [Ha Hb]. by apply refines_update.
  - by apply refines_append.
  - by apply refines_reconcile.
  - by apply refines_erase.
  - destruct Hok as [Ha Hb]. by apply refines_erase_range.
  - apply refines_clear.
Qed.
End Writes.
