(* ===== verification/KvTheorems.v ===== *)
(** * KeyValueTable: the theorems

    Client programs over the methods of a table, and the order of range scans in terms of the
    C++ values of keys. *)
From S2P Require Import Prelude SyncCommon KeyCodec SyncProtocol ValueCodec Mdbx RefMdbx StoreBase TxnState.
From S2P Require Import ScopeStore Capture CaptureHooks ApplyEffect TableBase KvTable KvSpec.
From S2P Require MetaStore VersionedDbiStore.
Open Scope Z_scope.

(** ** Client programs *)

(** A program ends with a result or an exception of its own, or calls a method and goes on
    with what it returned; an exception of a method ends it. *)
Inductive prog {kt : key_type} {V R : Type} : Type :=
  | Done (r : result R)
  | Do {A : Type} (c : call kt V A) (k : A → prog).
Arguments prog : clear implicits.

Section Programs.
Context {kt : key_type} {V : Type} `{!TableValue V} {R : Type}.

Fixpoint run_prog {X : Mdbx} (t : table_obj) (fuel : nat) (ptr : Z) (p : prog kt V R) : H R :=
  match p with
  | Done r => pure_call r
  | Do c k => x ← run_call kt t fuel ptr c; run_prog t fuel ptr (k x)
  end.

Fixpoint prog_spec (t : table_obj) (p : prog kt V R) : Sp (key_val kt) V R :=
  match p with
  | Done r => observe kt (fun _ => r)
  | Do c k => x ← call_spec kt t c; prog_spec t (k x)
  end.

Fixpoint prog_ok (p : prog kt V R) : Prop :=
  match p with Done _ => True | Do c k => call_ok kt c ∧ ∀ x, prog_ok (k x) end.
End Programs.

Section Refinement.
Context {X : Mdbx} {L : MdbxLaws X} (kt : key_type) `{!KeyReadable kt} {V : Type} `{!TableValue V}.
Context (env : Z) (t : table_obj) (ptr : Z) (Hname : t_name t ∉ guard_tables).

Lemma prog_refines {R} (p : prog kt V R) μ :
  prog_ok p → ∃ n, ∀ fuel, (n ≤ fuel)%nat → refines_at kt env t ptr μ (run_prog t fuel ptr p) (prog_spec t p).
Proof.
  revert μ. induction p as [r|A c k IH]; intros μ Hok.
  - exists 0%nat. intros fuel _ h v Hs. apply cwp_pure. by apply may_same.
  - destruct Hok as [Hc Hk]. destruct (call_spec kt t c μ) as [[r μ'] ops] eqn:E.
    assert (∃ n, ∀ fuel, (n ≤ fuel)%nat → ∀ x, r = Ok x →
      refines_at kt env t ptr μ' (run_prog t fuel ptr (k x)) (prog_spec t (k x))) as [n Hn].
    { destruct r as [x|e]; [|exists 0%nat; done]. destruct (IH x μ' (Hk x)) as [n Hn]. exists n.
      intros fuel Hf y [= <-]. by apply Hn. }
    exists (Nat.max (call_fuel kt c μ) n). intros fuel Hf. apply refines_bind; [done|..].
    + apply call_refines; [done..|lia].
    + intros x μ2 ops2 E2. rewrite E in E2. injection E2 as -> -> ->. apply Hn; [lia|done].
Qed.

(** C5: a table is a finite map to its clients, for every key type that can be read back
    ([KeyReadable]: all but some bitsets).  Take a table that holds the map [μ] in a
    write transaction and any program over its methods, which may choose each call by what the
    earlier ones returned.  With enough fuel for the scans, unless the storage engine fails or
    a replication contract refuses a write (with the exception of the write guard), the
    program returns or throws exactly what it would on the map; afterwards the table holds the map the program
    leaves, no other table has changed, the hooks were handed exactly the changes made, in
    order, and applying these changes to the old records gives the new ones, so a replica
    that applies them ends with the same table. *)
Theorem kv_table_refines_map {R} (p : prog kt V R) (μ : gmap (key_val kt) V) :
  prog_ok p → ∃ n, ∀ fuel, (n ≤ fuel)%nat → ∀ h s, table_state kt env t h (view s) μ →
  let '(r, h', s') := run_prog t fuel ptr p h s in
  did kt env t ptr h (view s) (prog_spec t p μ) r h' (view s') ∨ refused t ptr h (view s) r ∨ engine_failure r.
Proof.
  intros Hok. destruct (prog_refines p μ Hok) as [n Hn]. exists n. intros fuel Hf h s Hs.
  specialize (Hn fuel Hf h (view s) Hs s eq_refl). destruct (run_prog _ _ _ _ h s) as [[r h'] s'].
  destruct Hn as [[Hd|Hd]|[He _]]; auto.
Qed.

End Refinement.

(** ** The order of the values *)

Section Order.
Context (kt : key_type) {V : Type} `{!TableValue V}.
Abbreviation K := (key_val kt).
Abbreviation fl := (get_mdbx_flags kt).

(** The key type has an operator [<], and it is the order of the stored keys. *)
Definition value_ordered : Prop :=
  match kt with KBitset _ _ | KTrivial _ => False | _ => signed_units kt = false end.

#[local] Instance ordered_readable : value_ordered → KeyReadable kt.
Proof. unfold value_ordered, KeyReadable. by destruct kt. Qed.

Lemma sort_key_compare a b :
  fits kt a → fits kt b → bytes_compare (sort_key fl a) (sort_key fl b) = mdbx_key_compare fl a b.
Proof.
  intros Ha Hb. unfold sort_key, mdbx_key_compare. destruct (key_width_cases kt) as [E|[E _]]; rewrite E; simpl; [done|].
  assert (length a = length b) as El by (destruct Ha as [->|Ha], Hb as [->|Hb]; [done|by rewrite E in *..]).
  rewrite <- (be_bytes_compare (length a)).
  - unfold be_bytes. rewrite le_bytes_le_val. by rewrite El, le_bytes_le_val.
  - apply le_val_range.
  - rewrite El. apply le_val_range.
Qed.

Lemma value_compare (a b : K) (x y : bytes) :
  value_ordered → key_ok kt a → key_ok kt b → serialize_key kt a = Ok x → serialize_key kt b = Ok y →
  cpp_compare kt a b = Some (bytes_compare (place kt a) (place kt b)).
Proof.
  intros Ho Ha Hb Hx Hy.
  assert (signed_units kt = false) as Hu by (clear -Ho; unfold value_ordered in Ho; by destruct kt).
  rewrite <- (cpp_compare_unsigned kt a b Hu).
  assert (is_Some (key_value_compare kt a b)) as [c Hc].
  { clear -Ho Ha Hb Hx Hy. unfold value_ordered in Ho. destruct kt; simpl in *; try done; [by case_match|..].
    - apply result_bind_Ok in Hx as (ka & Hka & _). apply result_bind_Ok in Hy as (kb & Hkb & _).
      by rewrite (sortable_float_compare a b ka kb).
    - apply result_bind_Ok in Hx as (ka & Hka & _). apply result_bind_Ok in Hy as (kb & Hkb & _).
      by rewrite (sortable_double_compare a b ka kb). }
  pose proof (stored_key_order kt a b x y c Ha Hb Hx Hy Hc) as Hm.
  pose proof (key_fits kt a x Ha Hx). pose proof (key_fits kt b y Hb Hy).
  by rewrite <- (place_sort kt a x), <- (place_sort kt b y), sort_key_compare, Hm by done.
Qed.

Definition value_le (a b : K) : Prop := cpp_compare kt a b = Some Lt ∨ cpp_compare kt a b = Some Eq.

Lemma place_good k : good_key kt k → place kt k = rank kt k.
Proof. intros (_ & E & _). unfold place. by rewrite E. Qed.

Lemma value_le_place (a b : K) (x y : bytes) :
  value_ordered → key_ok kt a → key_ok kt b → serialize_key kt a = Ok x → serialize_key kt b = Ok y →
  value_le a b ↔ bytes_le (place kt a) (place kt b).
Proof.
  intros Ho Ha Hb Hx Hy. unfold value_le, bytes_le. rewrite (value_compare a b x y) by done.
  destruct (bytes_compare _ _); naive_solver.
Qed.

Context {X : Mdbx} {L : MdbxLaws X}.

(** C18: a range scan follows the operator [<] of the key type.  For strings, vectors of
    unsigned bytes, integers of every width and signedness, unsigned code units, floats and
    doubles, [range(a, b)] returns the pairs of the table whose keys are at least [a] and at
    most [b] as values, each once, in increasing order of the values; the scan changes
    nothing.  (A signed [char] or [wchar_t] and vectors of a signed [char] are scanned in the
    order of their unsigned code units.) *)
Theorem kv_range_by_value (t : table_obj) (fuel : nat) (μ : gmap K V) (a b : K) (lo hi : bytes) (s : txn) :
  value_ordered → typed kt (view s) (t_dbi t) (t_name t) μ → (size μ < fuel)%nat → key_ok kt a → key_ok kt b →
  serialize_key kt a = Ok lo → serialize_key kt b = Ok hi →
  let '(r, s') := db_range kt fuel t a b s in
  engine_failure r ∨
  view s' = view s ∧ ∃ l, r = Ok l ∧
    StronglySorted (fun p q => cpp_compare kt p.1 q.1 = Some Lt) l ∧
    ∀ k x, (k, x) ∈ l ↔ μ !! k = Some x ∧ value_le a k ∧ value_le k b.
Proof.
  intros Ho Hv Hf Ha Hb Hlo Hhi. pose proof (ordered_readable Ho) as Hread.
  pose proof (wp_db_range kt fuel t μ (view s) Hv Hf a b (fun r v => r = with_keys kt a b (between kt μ (place kt a) (place kt b)) ∧ v = view s)
    Ha Hb (conj eq_refl eq_refl) s eq_refl) as Hw.
  destruct (db_range kt fuel t a b s) as [r s']. destruct Hw as [[-> Ev]|He]; [right|by left]. split; [done|].
  eexists. split; [unfold with_keys, with_key; by rewrite Hlo, Hhi|].
  pose proof (fun k x => holds_good kt _ _ (proj2 Hv) k x) as Hg. split.
  - assert (∀ p, p ∈ between kt μ (place kt a) (place kt b) → good_key kt p.1) as Hgood.
    { intros [k x] Hp. eapply Hg, elem_of_pairs, elem_of_pairs_where, Hp. }
    pose proof (pairs_where_sorted kt _ _ _ _ Hv (fun r => bytes_le (place kt a) r ∧ bytes_le r (place kt b))) as Hs.
    fold (between kt μ (place kt a) (place kt b)) in Hs. revert Hgood. induction Hs as [|p l Hs IH Hall]; intros Hgood; [constructor|].
    constructor; [apply IH; intros q Hq; apply Hgood; by right|]. rewrite Forall_forall in *. intros q Hq.
    assert (good_key kt p.1) as Hp by (apply Hgood; left). assert (good_key kt q.1) as Hgq by (apply Hgood; by right).
    rewrite (value_compare p.1 q.1 _ _ Ho (proj1 Hp) (proj1 Hgq) (good_stored kt _ Hp) (good_stored kt _ Hgq)), !place_good by done.
    f_equal. by apply Hall.
  - intros k x. unfold between, pairs_where. rewrite list_elem_of_filter, elem_of_pairs. simpl.
    assert (μ !! k = Some x → (value_le a k ↔ bytes_le (place kt a) (rank kt k)) ∧
      (value_le k b ↔ bytes_le (rank kt k) (place kt b))) as Hle; [|naive_solver].
    intros Hx. destruct (Hg k x Hx) as [Hk _]. pose proof (good_stored kt _ Hk) as Es. pose proof (proj1 Hk) as Hko.
    rewrite <- (place_good k Hk). split; by eapply value_le_place.
Qed.
End Order.

(** ** Keys that do not decode *)

Section Unreadable.
Context {X : Mdbx} {L : MdbxLaws X} (kt : key_type) {V : Type} `{!TableValue V} (t : table_obj) (fuel : nat).
Context (μ : gmap (key_val kt) V) (v : db_view) (Hv : typed kt v (t_dbi t) (t_name t) μ) (Hne : μ ≠ ∅).
Context (Hfuel : (size μ < fuel)%nat) (Hkt : ~ KeyReadable kt).

Definition unreadable : exn := runtime_error "deserialize_value: size mismatch".

Lemma good_key_unreadable k : good_key kt k → deserialize_key kt (stored kt k) = Throw unreadable.
Proof. intros Hk. pose proof (good_stored kt k Hk). by eapply decode_unreadable_key; [|apply Hk|]. Qed.

Lemma pairs_nonempty : ∃ p l, pairs kt μ = p :: l.
Proof.
  destruct (pairs kt μ) as [|p l] eqn:E; [|eauto]. exfalso. apply Hne, map_empty. intros k. apply eq_None_not_Some.
  intros [x Hx]. assert ((k, x) ∈ pairs kt μ) as Hp by by apply elem_of_pairs. rewrite E in Hp. by apply elem_of_nil in Hp.
Qed.

Lemma wp_load_unreadable out Q : Q (Throw unreadable) v → wp (db_load kt fuel t out) Q v.
Proof.
  intros HQ. eapply wp_typed_scan; [exact Hv|done|done|]. unfold pairs_where. rewrite filter_all by done.
  pose proof (pairs_good kt _ _ (proj2 Hv)) as Hg. destruct pairs_nonempty as (p & l & E). rewrite E in *.
  apply Forall_cons in Hg as [[Hk _] _]. cbn [fold_pairs]. unfold collect_pair, decode_pair. by rewrite good_key_unreadable.
Qed.

Lemma wp_min_key_unreadable Q : Q (Throw unreadable) v → wp (db_min_key kt t) Q v.
Proof.
  intros HQ. apply wp_bind. eapply wp_open_cursor; [apply Hv|]. intros c Hc _.
  eapply wp_typed_get; [exact Hv|done|done|by intros; engine_error_case|].
  assert (ahead kt μ c MDBX_FIRST [] = pairs kt μ) as -> by by apply filter_all.
  destruct pairs_nonempty as (p & l & ->). intros c' _ _ Hk Hx. apply wp_ret_bind, wp_lift_bind.
  by rewrite good_key_unreadable by done.
Qed.
End Unreadable.

(** C19: a table with [std::bitset<N>] keys can be written and looked up, but not read back
    unless the bitset object has exactly as many bytes as its stored key ([N] of 57 to 64, for
    words of eight bytes): the stored key is the [(N + 7) / 8] bytes that [serialize_key]
    packs, while [deserialize_key] of the type expects the whole object.  So a lookup returns
    the value of the key, but [load] and [min_key] of a table that is not empty throw; none of
    them changes a table. *)
Theorem bitset_keys_unreadable {X : Mdbx} {L : MdbxLaws X} {V : Type} `{!TableValue V} (n size : nat) (t : table_obj) (fuel : nat)
    (μ : gmap (list bool) V) (s : txn) :
  let kt := KBitset n size in
  size ≠ ((n + 7) / 8)%nat → typed kt (view s) (t_dbi t) (t_name t) μ → μ ≠ ∅ → (base.size μ < fuel)%nat →
  (let '(r, s') := db_load kt fuel t [] s in engine_failure r ∨ r = Throw unreadable ∧ view s' = view s) ∧
  (let '(r, s') := db_min_key kt t s in engine_failure r ∨ r = Throw unreadable ∧ view s' = view s) ∧
  (∀ k : key_val kt, length k = n → (n ≤ 8 * size)%nat →
   let '(r, s') := db_get kt t k s in engine_failure r ∨ r = Ok (μ !! k) ∧ view s' = view s).
Proof.
  intros kt Hsize Hv Hne Hf. assert (~ KeyReadable kt) as Hkt by done. split; [|split].
  - pose proof (wp_load_unreadable kt t fuel μ (view s) Hv Hne Hf Hkt [] (fun r v => r = Throw unreadable ∧ v = view s)
      (conj eq_refl eq_refl) s eq_refl) as H. destruct (db_load _ _ _ _ s). destruct H as [[-> ?]|?]; auto.
  - pose proof (wp_min_key_unreadable kt t fuel μ (view s) Hv Hne Hf Hkt (fun r v => r = Throw unreadable ∧ v = view s)
      (conj eq_refl eq_refl) s eq_refl) as H. destruct (db_min_key _ _ s). destruct H as [[-> ?]|?]; auto.
  - intros k Hk Hn. pose proof (wp_db_get kt t μ (view s) Hv k (fun r v => r = Ok (μ !! k) ∧ v = view s)
      (conj Hk Hn) (conj eq_refl eq_refl) s eq_refl) as H. destruct (db_get _ _ _ s). destruct H as [[-> ?]|?]; auto.
Qed.

(** ** A concrete table *)

Definition int32_key : key_type := KIntegral {| ty_size := 4; ty_signed := true; ty_long := false; ty_code_unit := false |}.

#[export] Instance int32_readable : KeyReadable int32_key := I.

Definition sample_table : table_obj := {| t_dbi := 2; t_name := bytes_of_string "orders"; t_flags := MDBX_INTEGERKEY |}.

Definition sample_table_view : db_view :=
  v_opened sample_capture_view (bytes_of_string "orders") (mk_dbi MDBX_INTEGERKEY ∅) 2.

Lemma sample_table_name : t_name sample_table ∉ guard_tables.
Proof. apply (bool_decide_unpack _). vm_compute. exact I. Qed.

Lemma sample_table_state :
  table_state (V := bytes) int32_key 1 sample_table sample_hooks sample_table_view ∅.
Proof.
  split; [|done|done|by intros a [= <-]|done|].
  - split; [apply opened_bound|]. assert (recs sample_table_view (t_name sample_table) = ∅) as -> by (vm_compute; reflexivity).
    apply holds_empty.
  - apply (guard_view_same 1 sample_capture_view); [|done|exact sample_guard_view].
    intros m Hm. unfold sample_table_view, v_opened. cbn [v_dbs]. rewrite lookup_insert_ne; [done|].
    intros <-. by apply sample_table_name.
Qed.

Lemma sample_guard : guard_result sample_hooks 7 sample_table_view (t_name sample_table) = Ok tt.
Proof. vm_compute. reflexivity. Qed.

Definition sample_pairs : list (key_val int32_key * bytes) := [(5, [Byte.x01]); (-3, [Byte.x02]); (9, [Byte.x03])].

(** Three pairs go in, the last one is erased, and the rest is read back. *)
Definition sample_prog : prog int32_key bytes (Z * list (Z * bytes)) :=
  Do (Append sample_pairs) (fun _ =>
  Do (EraseRange (6 : key_val int32_key) (10 : key_val int32_key)) (fun n =>
  Do (Range (-10 : key_val int32_key) (10 : key_val int32_key)) (fun l => Done (Ok (n, l))))).

Lemma int32_ok (z : key_val int32_key) : s_range 32 z → key_ok int32_key z.
Proof. intros Hz. split; [|exact Hz]. split; [simpl; set_solver|]. split; discriminate. Qed.

Lemma sample_pairs_ok : Forall (pair_ok int32_key) sample_pairs.
Proof.
  apply Forall_forall. intros p Hp. split; [|done]. apply int32_ok.
  repeat (apply elem_of_cons in Hp as [->|Hp]; [unfold s_range; simpl; lia|]). by apply elem_of_nil in Hp.
Qed.

Lemma sample_prog_ok : prog_ok sample_prog.
Proof. split; [exact sample_pairs_ok|]. intros _. repeat (split; [split; apply int32_ok; unfold s_range; lia|intros]). done. Qed.

Lemma kv_table_refines_map_witness :
  ∃ fuel, match run_prog (X := ref_mdbx) sample_table fuel 7 sample_prog sample_hooks sample_table_view with
          | (r, h', v') =>
              r = Ok (1, [(-3, [Byte.x02]); (5, [Byte.x01])]) ∧
              did int32_key 1 sample_table 7 sample_hooks sample_table_view (prog_spec sample_table sample_prog ∅) r h' v'
          end.
Proof.
  destruct (kv_table_refines_map (X := ref_mdbx) int32_key 1 sample_table 7 sample_table_name sample_prog ∅ sample_prog_ok)
    as [n Hn]. exists n. specialize (Hn n (le_n n) sample_hooks sample_table_view sample_table_state).
  destruct (run_prog _ _ _ _ _ _) as [[r h'] v']. destruct Hn as [Hd|[Hd|(c & rc & _ & [])]].
  2: { destruct Hd as (e & He & _). pose proof (eq_trans (eq_sym sample_guard) He) as Hx. discriminate. }
  split; [|exact Hd].
  rewrite (did_result _ _ _ _ _ _ _ _ _ _ Hd). vm_compute. reflexivity.
Defined.

(** The same table with its pairs. *)
Definition sample_filled : gmap (key_val int32_key) bytes := list_to_map sample_pairs.

Definition filled_view : db_view :=
  (run_call (X := ref_mdbx) int32_key sample_table 5 7 (Append sample_pairs) sample_hooks sample_table_view).2.

Lemma filled_typed : typed int32_key filled_view (t_dbi sample_table) (t_name sample_table) sample_filled.
Proof.
  pose proof (call_refines (X := ref_mdbx) int32_key 1 sample_table 7 sample_table_name (Append sample_pairs) 5 ∅
    sample_pairs_ok ltac:(apply Nat.leb_le; vm_compute; reflexivity) sample_hooks sample_table_view sample_table_state
    sample_table_view eq_refl) as H. unfold filled_view.
  destruct (run_call _ _ _ _ _ _ _) as [[r h'] v']. destruct H as [[H|(e & He & _)]|[(c & rc & _ & []) _]].
  2: { pose proof (eq_trans (eq_sym sample_guard) He) as Hx. discriminate. }
  pose proof (ts_typed _ _ _ _ _ _ (did_state _ _ _ _ _ _ _ _ _ _ H)) as Ht.
  assert ((call_spec int32_key sample_table (Append sample_pairs) ∅).1.2 = sample_filled) as E by (vm_compute; reflexivity).
  rewrite E in Ht. exact Ht.
Qed.

Lemma int32_stored (z : key_val int32_key) : serialize_key int32_key z = Ok (native_u32 (sortable_key_from_signed_int32 z)).
Proof. reflexivity. Qed.

Lemma filled_fuel : (size sample_filled < 5)%nat.
Proof. apply Nat.ltb_lt. vm_compute. reflexivity. Qed.

Lemma kv_range_by_value_witness :
  match db_range (X := ref_mdbx) int32_key 5 sample_table (-5) 7 filled_view with
  | (r, v') =>
      r = Ok [(-3, [Byte.x02]); (5, [Byte.x01])] ∧
      (engine_failure (X := ref_mdbx) r ∨ view v' = view filled_view ∧ ∃ l, r = Ok l ∧
        StronglySorted (fun p q => cpp_compare int32_key p.1 q.1 = Some Lt) l ∧
        ∀ k x, (k, x) ∈ l ↔ sample_filled !! k = Some x ∧ value_le int32_key (-5) k ∧ value_le int32_key k 7)
  end.
Proof.
  pose proof (kv_range_by_value (X := ref_mdbx) (L := ref_laws) int32_key sample_table 5 sample_filled (-5 : key_val int32_key)
    (7 : key_val int32_key) _ _ filled_view eq_refl filled_typed filled_fuel (int32_ok (-5) ltac:(unfold s_range; lia))
    (int32_ok 7 ltac:(unfold s_range; lia)) (int32_stored (-5)) (int32_stored 7)) as H.
  assert (match db_range (X := ref_mdbx) int32_key 5 sample_table (-5) 7 filled_view with
    | (r, _) => r = Ok [(-3, [Byte.x02]); (5, [Byte.x01])] end) as E by (vm_compute; reflexivity).
  destruct (db_range _ _ _ _ _ _) as [r v']. split; [exact E|exact H].
Defined.

(** A table with one [std::bitset<16>] key. *)
Definition bit_key : key_val (KBitset 16 8) := replicate 16 true.
Definition bit_map : gmap (list bool) bytes := {[ bit_key := [Byte.x01] ]}.
Definition bit_table : table_obj := {| t_dbi := 2; t_name := bytes_of_string "orders"; t_flags := 0 |}.
Definition bit_view : db_view :=
  v_opened sample_capture_view (bytes_of_string "orders") (mk_dbi 0 {[ [Byte.xff; Byte.xff] := [Byte.x01] ]}) 2.

Lemma bit_key_ok : key_ok (KBitset 16 8) bit_key.
Proof. split; [reflexivity|]. apply (bool_decide_unpack _). vm_compute. exact I. Qed.

Lemma bit_typed : typed (KBitset 16 8) bit_view (t_dbi bit_table) (t_name bit_table) bit_map.
Proof.
  split; [apply opened_bound|].
  assert (recs bit_view (t_name bit_table) = {[ [Byte.xff; Byte.xff] := [Byte.x01] ]}) as -> by (vm_compute; reflexivity).
  assert (serialize_key (KBitset 16 8) bit_key = Ok [Byte.xff; Byte.xff]) as Hb by (vm_compute; reflexivity).
  exact (holds_insert (KBitset 16 8) ∅ ∅ (holds_empty (KBitset 16 8)) bit_key [Byte.x01] _ bit_key_ok Hb I).
Qed.

Lemma bitset_keys_unreadable_witness :
  match db_load (X := ref_mdbx) (KBitset 16 8) (V := bytes) 3 bit_table [] bit_view with
  | (r, v') => r = Throw unreadable
  end ∧
  match db_get (X := ref_mdbx) (KBitset 16 8) (V := bytes) bit_table bit_key bit_view with
  | (r, v') => r = Ok (Some [Byte.x01])
  end.
Proof.
  assert (8 ≠ (16 + 7) / 8)%nat as Hs by (vm_compute; discriminate).
  assert (bit_map ≠ ∅) as Hne by (intros E; assert (bit_map !! bit_key = None) as En by (rewrite E; apply lookup_empty); vm_compute in En; discriminate).
  assert (size bit_map < 3)%nat as Hf by (apply Nat.ltb_lt; vm_compute; reflexivity).
  destruct (bitset_keys_unreadable (X := ref_mdbx) (L := ref_laws) 16 8 bit_table 3 bit_map bit_view Hs bit_typed Hne Hf) as (Hl & _ & Hg).
  specialize (Hg bit_key (proj1 bit_key_ok) (proj2 bit_key_ok)).
  destruct (db_load _ _ _ _ _), (db_get _ _ _ _). destruct Hl as [(c & rc & _ & [])|[-> _]], Hg as [(c & rc & _ & [])|[-> _]].
  split; [reflexivity|]. vm_compute. reflexivity.
Defined.
