(* ===== verification/TableCalls.v ===== *)
(** * Tables over sessions

    Models the constructor of [BaseTable] and [BaseTable::with_transaction] of
    [src/include/mdbx_containers/detail/BaseTable.hpp] on the sessions of [CaptureHistory]: a public
    method runs in the transaction of the calling thread, or else in one of its own that is
    committed afterwards and rolled back on every exception.  The return code of
    [mdbx_txn_reset], which ends a read-only transaction, is an argument.

    The theorems: a public call is atomic, and any sequence of public calls leaves the
    committed table as the same operations on a map would, with one changelog record for each
    call that changed something. *)
From S2P Require Import Prelude SyncCommon KeyCodec SyncProtocol ValueCodec Mdbx RefMdbx StoreBase TxnState.
From S2P Require MetaStore OriginIndexStore ChangeLogStore VersionedDbiStore Lifecycle.
From S2P Require Import ScopeStore ScopedStores Capture CaptureHooks CaptureHistory ApplyEffect TableBase KvTable KvSpec KvTheorems.
Open Scope Z_scope.

Section Code.
Context {X : Mdbx} (fuel : nat) (captures : list (M unit)).

(** The guard of a failed automatic transaction: [rollback], whose own exception is
    dropped, then the destructor. *)
Definition abandon (g : session) : session := release_txn (rollback_txn g).2.

Definition run_in {A} (action : Z → H A) (ptr : Z) (s : txn) (g : session) : result A * session :=
  let '(r, h, s') := action ptr (se_hooks g) s in
  (r, {| se_env := se_env g; se_hooks := h; se_txn := Some (ptr, s') |}).

(** In a transaction of its own: [ptr] is the pointer of the new transaction, and [cleanup]
    is what an exception does to it. *)
Definition in_write_txn {A} (cleanup : session → session) (ptr : Z) (action : Z → H A) (g : session)
    : result A * session :=
  match begin_txn ptr g with
  | (Throw e, g) => (Throw e, g)
  | (Ok _, g) =>
      match se_txn g with
      | None => (Throw (no_txn "commit"), g)
      | Some (ptr, s) =>
          match run_in action ptr s g with
          | (Throw e, g) => (Throw e, cleanup g)
          | (Ok x, g) =>
              match commit_txn fuel captures g with
              | (Throw e, g) => (Throw e, cleanup g)
              | (Ok _, g) => (Ok x, release_txn g)
              end
          end
      end
  end.

(** A read-only transaction is reset by [commit] and [rollback] and aborted by the
    destructor; the hooks do not see it end. *)
Definition in_read_txn {A} (reset_rc ptr : Z) (action : Z → H A) (g : session) : result A * session :=
  let '(rc, s) := mdbx_txn_begin (se_env g) true in
  if negb (rc =? MDBX_SUCCESS) then (Throw (MdbxException "Failed to begin transaction" rc), g)
  else
    let '(r, h, s') := action ptr (se_hooks g) s in
    let '(_, e) := mdbx_txn_abort (se_env g) s' in
    let g := {| se_env := e; se_hooks := h; se_txn := None |} in
    match r with
    | Throw e => (Throw e, g)
    | Ok x =>
        if negb (reset_rc =? MDBX_SUCCESS) then
          (Throw (MdbxException "Failed to reset read-only transaction" reset_rc), g)
        else (Ok x, g)
    end.

Definition with_transaction {A} (mode : Lifecycle.TransactionMode) (reset_rc ptr : Z) (action : Z → H A)
    (g : session) : result A * session :=
  match se_txn g with
  | Some (ptr, s) => run_in action ptr s g
  | None =>
      match mode with
      | Lifecycle.WRITABLE => in_write_txn abandon ptr action g
      | Lifecycle.READ_ONLY => in_read_txn reset_rc ptr action g
      end
  end.

(** With a transaction of the caller: [thread_txn] is the one of the calling thread and
    [rdonly] what [mdbx_txn_flags] says of [ptr]. *)
Definition checked_external_txn (t : table_obj) (thread_txn ptr : Z) (rdonly : bool) : H unit :=
  _ ← in_txn (fun h => checked_txn_env (hk_env h) "BaseTable external transaction");
  _ ← ensure_sync_capture_txn_supported thread_txn ptr rdonly "BaseTable external transaction";
  in_txn (fun h => ensure_sync_dbi_external_txn_supported (hk_env h) thread_txn ptr rdonly (t_name t)
    "BaseTable external transaction").

Definition with_external_txn {A} (t : table_obj) (thread_txn ptr : Z) (rdonly : bool) (action : Z → H A) : H A :=
  _ ← checked_external_txn t thread_txn ptr rdonly;
  action ptr.

(** The constructor; its transaction may not be nested in one of the thread, and on an
    exception the destructor ends it. *)
Definition open_action (name : bytes) (flags : Z) : M table_obj :=
  '(rc, dbi) ← dbi_open (c_str name) flags;
  _ ← check_mdbx rc "Failed to open table";
  '(rc, dbi_flags) ← get_flags dbi;
  _ ← check_mdbx rc "Failed to read table flags";
  mret {| t_dbi := dbi; t_name := name; t_flags := dbi_flags |}.

Definition new_table (name : bytes) (flags reset_rc ptr : Z) (g : session) : result table_obj * session :=
  if is_reserved_dbi_name name then
    (Throw (invalid_argument "MDBX Containers table name uses reserved internal prefix '_mdbxc_'"), g)
  else
    let read_only := hk_read_only (se_hooks g) in
    let open_flags := if read_only then Z.land flags (Z.lnot MDBX_CREATE) else flags in
    match se_txn g with
    | Some _ => (Throw (logic_error "A transaction is already active on this connection's thread. Reuse it through table operations or pass the active transaction explicitly."), g)
    | None =>
        if read_only then in_read_txn reset_rc ptr (fun _ => txn_call (open_action name open_flags)) g
        else in_write_txn release_txn ptr (fun _ => txn_call (open_action name open_flags)) g
    end.
End Code.

(** ** Public methods *)

Definition call_mode {kt V A} (c : call kt V A) : Lifecycle.TransactionMode :=
  if is_read kt c then Lifecycle.READ_ONLY else Lifecycle.WRITABLE.

Definition public_call {X : Mdbx} (fuel : nat) (captures : list (M unit)) {kt V} `{!TableValue V} (t : table_obj)
    (reset_rc ptr : Z) {A} (c : call kt V A) (g : session) : result A * session :=
  with_transaction fuel captures (call_mode c) reset_rc ptr (fun ptr => run_call kt t fuel ptr c) g.

(** The constructor of [KeyValueTable]. *)
Definition new_kv_table {X : Mdbx} (fuel : nat) (captures : list (M unit)) (kt : key_type) (name : bytes)
    (flags reset_rc ptr : Z) (g : session) : result table_obj * session :=
  new_table fuel captures name (Z.lor flags (get_mdbx_flags kt)) reset_rc ptr g.

(** ** Atomicity *)

Section Atomic.
Context {X : Mdbx} {L : MdbxLaws X} (fuel : nat) (captures : list (M unit)).

(** The committed tables and handles are the same. *)
Definition same_env (e e' : env) : Prop :=
  env_id e' = env_id e ∧ env_dbs e' = env_dbs e ∧ env_handles e' = env_handles e.

#[export] Instance same_env_preorder : PreOrder same_env.
Proof. split; [by intros e|]. intros a b c (H1 & H2 & H3) (H4 & H5 & H6). split_and!; congruence. Qed.

Lemma aborted_env e s rc e' : mdbx_txn_abort e s = (rc, e') → same_env e e'.
Proof.
  intros Ha. pose proof (law_abort _ _ _ _ Ha) as (H1 & H2 & _). by pose proof (law_abort_handles _ _ _ _ Ha).
Qed.

Lemma release_env g : se_txn (release_txn g) = None ∧ same_env (se_env g) (se_env (release_txn g)).
Proof.
  unfold release_txn. destruct (se_txn g) as [[ptr s]|] eqn:E; [|by split].
  destruct (mdbx_txn_abort _ s) as [rc e] eqn:Ea. split; [done|]. by eapply aborted_env.
Qed.

Lemma rollback_env g : same_env (se_env g) (se_env (rollback_txn g).2).
Proof.
  unfold rollback_txn. destruct (se_txn g) as [[ptr s]|] eqn:E; [|apply reflexivity].
  destruct (mdbx_txn_abort _ s) as [rc e] eqn:Ea. destruct (negb _); by eapply aborted_env.
Qed.

Lemma abandon_env g : se_txn (abandon g) = None ∧ same_env (se_env g) (se_env (abandon g)).
Proof. destruct (release_env (rollback_txn g).2) as [H1 H2]. split; [done|]. etrans; [apply rollback_env|done]. Qed.

Lemma commit_throws_env g e g' : commit_txn fuel captures g = (Throw e, g') → same_env (se_env g) (se_env g').
Proof.
  unfold commit_txn. destruct (se_txn g) as [[ptr s]|]; [|by intros [= <- <-]].
  destruct (on_pre_commit fuel captures ptr (se_hooks g) s) as [[[x|e1] h] s1]; [|by intros [= <- <-]].
  destruct (mdbx_txn_commit (se_env g) s1) as [rc e2] eqn:Ec.
  pose proof (law_commit _ _ _ _ Ec) as [H1 H2]. pose proof (law_commit_handles _ _ _ _ Ec) as H3.
  assert (rc ≠ MDBX_SUCCESS → same_env (se_env g) e2) as Hs.
  { intros Hne. destruct H2 as [[_ H2]|[? _]]; [|done]. by destruct H3 as [[_ H3]|[? _]]. }
  destruct (rc =? MDBX_THREAD_MISMATCH) eqn:E1; zbool; [intros [= <- <-]; apply Hs; by subst|].
  destruct (rc =? MDBX_SUCCESS) eqn:E2; zbool; simpl; [done|]. intros [= <- <-]. by apply Hs.
Qed.

Lemma begin_env ptr g r g' : begin_txn ptr g = (r, g') → se_env g' = se_env g ∧ (∀ e, r = Throw e → g' = g).
Proof.
  unfold begin_txn. destruct (mdbx_txn_begin _ _) as [rc s]. destruct (negb _); intros [= <- <-]; by split.
Qed.

Lemma in_write_txn_env {A} cleanup ptr (action : Z → H A) g :
  se_txn g = None → (∀ g, se_txn (cleanup g) = None ∧ same_env (se_env g) (se_env (cleanup g))) →
  let '(r, g') := in_write_txn fuel captures cleanup ptr action g in
  se_txn g' = None ∧ ((∃ e, r = Throw e) → same_env (se_env g) (se_env g')).
Proof.
  intros Hn Hcl. unfold in_write_txn. destruct (begin_txn ptr g) as [r1 g1] eqn:Eb. apply begin_env in Eb as [Ee Hb].
  destruct r1 as [x|e]; [|rewrite (Hb e eq_refl); by split].
  destruct (se_txn g1) as [[p s]|] eqn:Es; [|split; [done|by rewrite Ee]].
  unfold run_in. destruct (action p (se_hooks g1) s) as [[r h] s']. rewrite <- Ee. destruct r as [y|e]; cbv beta iota.
  - destruct (commit_txn fuel captures _) as [[u|e] g2] eqn:Ec.
    + split; [apply release_env|]. by intros [e [=]].
    + destruct (Hcl g2) as [H1 H2]. split; [done|]. intros _. etrans; [by apply (commit_throws_env _ _ _ Ec)|done].
  - destruct (Hcl {| se_env := se_env g1; se_hooks := h; se_txn := Some (p, s') |}) as [H1 H2]. by split.
Qed.

Lemma in_read_txn_env {A} reset_rc ptr (action : Z → H A) g :
  se_txn g = None →
  let '(r, g') := in_read_txn reset_rc ptr action g in se_txn g' = None ∧ same_env (se_env g) (se_env g').
Proof.
  intros Hn. unfold in_read_txn. destruct (mdbx_txn_begin _ _) as [rc s]. destruct (negb (rc =? MDBX_SUCCESS)); [by split|].
  destruct (action ptr (se_hooks g) s) as [[r h] s']. destruct (mdbx_txn_abort _ s') as [rc2 e] eqn:Ea.
  pose proof (aborted_env _ _ _ _ Ea). destruct r; [|by split]. destruct (negb (reset_rc =? MDBX_SUCCESS)); by split.
Qed.

(** C10: an exception leaves nothing behind.  Whatever a method does in an automatic
    transaction, and whoever throws (the method, its caller's function, the write guard, the
    capture hook, or the storage engine in [begin], in the method or in [commit]), a call that throws leaves the
    committed tables and the open handles as they were and no transaction open; a call in a
    read-only transaction leaves them so in any case. *)
Theorem with_transaction_atomic {A} (mode : Lifecycle.TransactionMode) (reset_rc ptr : Z) (action : Z → H A) (g : session) :
  se_txn g = None →
  let '(r, g') := with_transaction fuel captures mode reset_rc ptr action g in
  se_txn g' = None ∧
  (mode = Lifecycle.READ_ONLY ∨ (∃ e, r = Throw e) → same_env (se_env g) (se_env g')).
Proof.
  intros Hn. unfold with_transaction. rewrite Hn. destruct mode.
  - pose proof (in_read_txn_env reset_rc ptr action g Hn) as H. destruct (in_read_txn _ _ _ _) as [r g']. naive_solver.
  - pose proof (in_write_txn_env abandon ptr action g Hn abandon_env) as H. destruct (in_write_txn _ _ _ _ _ _) as [r g'].
    naive_solver.
Qed.
End Atomic.

(** ** Transactions of the caller *)

Section External.
Context {X : Mdbx} {L : MdbxLaws X} (t : table_obj).

(** The transaction of the thread, or a read-only one, of the same environment: the action
    runs in it. *)
Lemma external_runs {A} thread_txn ptr rdonly (action : Z → H A) h s :
  v_env (view s) = hk_env h → thread_txn = ptr ∨ rdonly = true →
  with_external_txn t thread_txn ptr rdonly action h s = action ptr h s.
Proof.
  intros He Ho. unfold with_external_txn, checked_external_txn, ensure_sync_capture_txn_supported,
    ensure_sync_dbi_external_txn_supported, mbind, St_bind, in_txn, reading, checked_txn_env.
  rewrite law_txn_env, He, Z.eqb_refl. destruct (Z.eqb_spec thread_txn ptr) as [|Hne].
  - simpl. by destruct (m_sync_capture h).
  - destruct Ho as [?| ->]; [done|]. simpl. by destruct (m_sync_capture h).
Qed.

(** Any other write transaction is refused while a sink is attached, before the action
    runs. *)
Lemma external_refused {A} thread_txn ptr (action : Z → H A) h s :
  v_env (view s) = hk_env h → thread_txn ≠ ptr → m_sync_capture h ≠ None →
  ∃ e, with_external_txn t thread_txn ptr false action h s = (Throw (logic_error e), h, s).
Proof.
  intros He Hne Hs. unfold with_external_txn, checked_external_txn, ensure_sync_capture_txn_supported,
    mbind, St_bind, in_txn, reading, checked_txn_env.
  rewrite law_txn_env, He, Z.eqb_refl. simpl. destruct (m_sync_capture h); [|done]. rewrite (proj2 (Z.eqb_neq _ _) Hne).
  simpl. eauto.
Qed.
End External.

(** ** What a call keeps of the hooks *)

(** Besides [hooks_step]: the suppression list, and only the mark of [ptr] is set. *)
Definition marks (ptr : Z) (h h' : hooks) : Prop :=
  m_sync_capture_suppressed_txns h' = m_sync_capture_suppressed_txns h ∧
  (m_sync_capture_failed_txn h' = m_sync_capture_failed_txn h ∨ m_sync_capture_failed_txn h' = ptr).

#[export] Instance marks_preorder ptr : PreOrder (marks ptr).
Proof. split; [intros h; by split; [|left]|]. intros a b c [H1 H2] [H3 H4]. split; [congruence|]. destruct H4 as [->|]; auto. Qed.

Lemma marks_mark ptr h : marks ptr h (mark_sync_capture_failed ptr h).
Proof. unfold mark_sync_capture_failed. destruct (ptr =? 0); [apply reflexivity|]. split; [done|by right]. Qed.

Section During.
Context {X : Mdbx} {L : MdbxLaws X} (id : Z) (node : NodeId) (kt : key_type) `{!KeyReadable kt} {V : Type} `{!TableValue V} (t : table_obj) (ptr : Z).

Definition call_step (h h' : hooks) : Prop := hooks_step id node ptr h h' ∧ marks ptr h h'.

#[export] Instance call_step_preorder : PreOrder call_step.
Proof.
  split; [intros h; split; apply reflexivity|]. intros a b c [H1 H2] [H3 H4]. split; by etrans.
Qed.

Lemma call_step_mark h : call_step h (mark_sync_capture_failed ptr h).
Proof. split; [apply hooks_step_mark|apply marks_mark]. Qed.

Lemma preserves_record ty k x : preserves call_step (record t ptr ty k x).
Proof.
  apply record_op_preserves; [apply _|apply call_step_mark|]. intros h a l Ea. split; [|by split; [|left]].
  split; [done|]. split; [done|]. split; [done|]. intros a' [= <-]%(eq_trans (eq_sym Ea)) Hi. eexists.
  split; [done|]. split; [by apply acc_inv_pending|]. intros q Hq. simpl. by rewrite lookup_insert_ne.
Qed.

Lemma preserves_call {A} (m : M A) : preserves call_step (txn_call m).
Proof. apply preserves_in_txn, _. Qed.

Ltac keeps := repeat first
  [ apply preserves_record | apply preserves_call | apply preserves_ret, _
  | apply preserves_bind; [apply _|..] | intros ? | progress case_match ].

Lemma preserves_put_pair context k (x : V) : preserves call_step (put_pair kt t ptr context k x).
Proof. unfold put_pair, pure_call. keeps. Qed.

Lemma preserves_append (l : list (key_val kt * V)) : preserves call_step (db_append kt t ptr l).
Proof.
  induction l as [|[k x] l IH]; simpl; [apply preserves_ret, _|].
  apply preserves_bind; [apply _|apply preserves_put_pair|done].
Qed.

Lemma preserves_delete_current c k context : preserves call_step (delete_current t ptr c k context).
Proof. unfold delete_current. keeps. Qed.

Lemma preserves_stale_loop n keys c : preserves call_step (stale_loop kt t ptr n keys c).
Proof.
  revert c. induction n as [|n IH]; intros c; simpl; [apply preserves_call|]. unfold pure_call.
  repeat first [apply IH|apply preserves_delete_current|progress keeps].
Qed.

Lemma preserves_erase_loop n hi op key c r : preserves call_step (erase_loop t ptr n hi op key c r).
Proof.
  revert op key c r. induction n as [|n IH]; intros op key c r; simpl; [apply preserves_call|].
  repeat first [apply IH|apply preserves_delete_current|progress keeps].
Qed.

Lemma preserves_run_call {A} fuel (c : call kt V A) : preserves call_step (run_call kt t fuel ptr c).
Proof.
  destruct c; cbn [run_call]; try apply preserves_call;
    unfold db_insert_if_absent, db_insert_or_assign, db_update, db_erase, db_clear, db_reconcile, db_erase_range, pure_call;
    repeat first [apply preserves_put_pair|apply preserves_append|apply preserves_stale_loop|apply preserves_erase_loop|progress keeps].
Qed.
End During.

(** ** Tables of a session at rest *)

Lemma system_reserved n : n ∈ system_tables → is_reserved_dbi_name n = true.
Proof.
  intros Hn. assert (Forall (fun n => is_reserved_dbi_name n = true) system_tables) as H.
  { apply (bool_decide_unpack _). vm_compute. exact I. }
  rewrite Forall_forall in H. by apply H.
Qed.

Section Rest.
Context {X : Mdbx} {L : MdbxLaws X} (id : Z) (node : NodeId) (n0 : Z) (log0 : gmap bytes bytes).
Context (Hnode : node_ok node) (Hz : node ≠ make_zero_node) (Hn0 : 0 ≤ n0).
Context (fuel : nat).

Definition rest_trace (g : session) (hist : list (list ChangeOp)) : trace :=
  {| t_session := g; t_committed := hist; t_written := []; t_current := []; t_lost := false |}.

(** A connection with an attached accumulator, no transaction open, no capture suppressed
    and no failure marked, whose changelog is the history [hist] after [log0]. *)
Record idle (g : session) (hist : list (list ChangeOp)) : Prop := {
  id_inv : ∃ a, trace_inv id node n0 log0 (rest_trace g hist) a;
  id_none : se_txn g = None;
  id_mark : m_sync_capture_failed_txn (se_hooks g) = 0;
  id_suppressed : m_sync_capture_suppressed_txns (se_hooks g) = [];
}.

(** The members after a call: those of [ptr] may have changed. *)
Record quiet (ptr : Z) (h : hooks) (a : accumulator) : Prop := {
  qu_ok : hooks_ok id h a;
  qu_acc : acc_inv id node a;
  qu_pending q : q ≠ ptr → pending_of a q = [];
  qu_mark : m_sync_capture_failed_txn h = 0 ∨ m_sync_capture_failed_txn h = ptr;
  qu_suppressed : m_sync_capture_suppressed_txns h = [];
}.

Lemma idle_quiet ptr g hist : idle g hist → ∃ a, quiet ptr (se_hooks g) a ∧ pending_of a ptr = [].
Proof.
  intros [(a & Hi) Hn Hm Hs]. exists a. pose proof (ti_pending _ _ _ _ _ _ Hi) as Hp. simpl in Hp. rewrite Hn in Hp.
  split; [|by apply Hp]. split; [apply Hi|apply Hi| |by left|done]. intros q _. by apply Hp.
Qed.

Lemma quiet_step ptr h h' a : quiet ptr h a → call_step id node ptr h h' → ∃ a', quiet ptr h' a'.
Proof.
  intros [H1 H2 H3 H4 H5] [Hst [Hs Hm]]. destruct (hooks_step_ok _ _ _ _ _ _ Hst H1 H2) as (a' & Ho & Ha & Hp).
  exists a'. split; [done|done| |destruct Hm as [->|]; auto|congruence]. intros q Hq. rewrite Hp by done. by apply H3.
Qed.

Lemma quiet_discard ptr h a :
  ptr ≠ 0 → quiet ptr h a → quiet ptr (on_discard ptr h) (discard_txn ptr a) ∧ pending_of (discard_txn ptr a) ptr = [] ∧
  m_sync_capture_failed_txn (on_discard ptr h) = 0.
Proof.
  intros Hptr [H1 H2 H3 H4 H5]. destruct (on_discard_ok _ _ ptr h a H1 H2) as (Ho & Ha & Hp).
  assert (m_sync_capture_failed_txn (on_discard ptr h) = 0 ∧ m_sync_capture_suppressed_txns (on_discard ptr h) = []) as [Hm Hs].
  { destruct H1 as (_ & _ & Es). unfold on_discard, clear_sync_capture_failed. rewrite (proj2 (Z.eqb_neq _ _) Hptr).
    destruct (Z.eqb_spec (m_sync_capture_failed_txn h) ptr) as [E|E]; simpl; rewrite Es; simpl; [done|]. by destruct H4. }
  split; [|split; [|done]].
  - split; [done|done| |by left|done]. intros q Hq. rewrite Hp, decide_False by done. by apply H3.
  - by rewrite Hp, decide_True.
Qed.

(** A session whose committed tables are those of an idle one is idle again once its
    transaction was discarded. *)
Lemma idle_again g hist ptr h a e :
  idle g hist → same_env (se_env g) e → quiet ptr h a → pending_of a ptr = [] → m_sync_capture_failed_txn h = 0 →
  idle {| se_env := e; se_hooks := h; se_txn := None |} hist.
Proof.
  intros [(a0 & Hi) Hn _ _] (E1 & E2 & _) [H1 H2 H3 H4 H5] Hp Hm. split; [|done|done|done]. exists a.
  apply (ended_inv _ _ _ _ (rest_trace g hist)); simpl; try done.
  - rewrite E1. apply Hi.
  - eapply sound_same, (ti_sound _ _ _ _ _ _ Hi). intros n _. simpl. by rewrite E2.
  - eapply holds_same, (ti_committed _ _ _ _ _ _ Hi). intros n _. simpl. by rewrite E2.
  - intros q. destruct (decide (q = ptr)) as [->|]; auto.
Qed.

Lemma idle_released g hist ptr s h a e :
  idle g hist → same_env (se_env g) e → ptr ≠ 0 → quiet ptr h a →
  idle (release_txn {| se_env := e; se_hooks := h; se_txn := Some (ptr, s) |}) hist.
Proof.
  intros Hi He Hptr Hq. unfold release_txn. simpl. destruct (mdbx_txn_abort e s) as [rc e'] eqn:Ea.
  destruct (quiet_discard _ _ _ Hptr Hq) as (Hq' & Hp & Hm).
  eapply idle_again; [done| |done|done|done]. etrans; [done|by eapply aborted_env].
Qed.

Lemma idle_abandoned g hist ptr s h a e :
  idle g hist → same_env (se_env g) e → ptr ≠ 0 → quiet ptr h a →
  idle (abandon {| se_env := e; se_hooks := h; se_txn := Some (ptr, s) |}) hist.
Proof.
  intros Hi He Hptr Hq. unfold abandon, rollback_txn. simpl. destruct (mdbx_txn_abort e s) as [rc e'] eqn:Ea.
  destruct (quiet_discard _ _ _ Hptr Hq) as (Hq' & Hp & Hm).
  assert (same_env (se_env g) e') as He' by (etrans; [done|by eapply aborted_env]).
  destruct (negb (rc =? MDBX_SUCCESS)); simpl; [by eapply idle_released|]. unfold release_txn. simpl.
  by eapply idle_again.
Qed.

(** ** An automatic write transaction *)

Lemma preserves_pre_commit ptr : preserves (marks ptr) (on_pre_commit fuel [] ptr).
Proof.
  apply preserves_reading. intros h. destruct (sync_capture_failed ptr h); [apply preserves_throws, _|].
  apply preserves_bind; [apply _|..].
  - apply preserves_on_throw; [apply _| |apply marks_mark]. clear h. intros h s. unfold with_sink.
    destruct (m_sync_capture h) as [a|]; [|apply reflexivity]. destruct (flush_in_txn fuel ptr a s) as [[r a'] s'].
    by split; [|left].
  - intros _. apply preserves_on_throw; [apply _|apply preserves_in_txn, _|apply marks_mark].
Qed.

Lemma pre_commit_frame ptr h a s hist h' s' :
  hooks_ok id h a → acc_inv id node a → in_progress id node n0 log0 s hist →
  (size (recs (view s) ChangeLogStore.changelog_name) < fuel)%nat →
  on_pre_commit fuel [] ptr h s = (Ok tt, h', s') → v_frame capture_tables (view s) (view s').
Proof.
  intros (_ & _ & Ea) [Hok _] (He & Hrw & Hs & _) Hf. unfold on_pre_commit, reading.
  destruct (sync_capture_failed ptr h); [done|]. unfold mbind, St_bind, on_throw, with_sink. rewrite Ea.
  pose proof (cwp_flush id fuel ptr a (view s) Hok (sound_capture_view _ _ _ _ Hs He Hrw Hf) s eq_refl) as H.
  destruct (flush_in_txn fuel ptr a s) as [[[[]|e] a1] s1]; [|done]. intros [= <- <-].
  destruct H as [[Hp _]|[(c & rc & [=] & _) _]]. unfold flush_post in Hp.
  assert (view s1 = view s → v_frame capture_tables (view s) (view s1)) as Hsame by (intros ->; apply reflexivity).
  destruct (ac_pending a !! ptr) as [[|op l]|]; [by apply Hsame, Hp| |by apply Hsame, Hp].
  unfold outcome_post in Hp. destruct (capture_outcome _ _ _); [|done]. apply (ci_frame _ _ _ (proj2 (proj2 (proj2 Hp)))).
Qed.

(** A transaction that starts on the committed tables of [e]. *)
Definition started (e : env) (s : txn) : Prop :=
  v_env (view s) = id ∧ v_rw (view s) = true ∧ v_dbs (view s) = env_dbs e ∧ env_handles e ⊆ v_handles (view s).

Lemma begin_started ptr g hist g1 :
  idle g hist → begin_txn ptr g = (Ok tt, g1) →
  ∃ s, g1 = {| se_env := se_env g; se_hooks := se_hooks g; se_txn := Some (ptr, s) |} ∧ started (se_env g) s ∧
    in_progress id node n0 log0 s hist.
Proof.
  intros Hi. unfold begin_txn. destruct (mdbx_txn_begin (se_env g) false) as [rc s] eqn:Eb.
  destruct (negb (rc =? MDBX_SUCCESS)) eqn:Erc; [done|]. intros [= <-]. zbool. subst rc. exists s. split; [done|].
  destruct (law_begin _ _ _ _ Eb) as [Herr|(_ & E1 & E2 & E3)]; [by apply law_error in Herr; set_solver|].
  destruct (law_begin_handles _ _ _ _ Eb) as [Herr|Hh]; [by apply law_error in Herr; set_solver|].
  destruct (id_inv _ _ Hi) as [a Ha]. pose proof (ti_env _ _ _ _ _ _ Ha) as Eid. simpl in Eid.
  split; [by split_and!; [congruence|..]|].
  split; [congruence|]. split; [done|]. split.
  - apply (same_dbs_sound _ _ _ E3), (ti_sound _ _ _ _ _ _ Ha).
  - apply (same_dbs_holds _ _ _ _ _ _ E3), (ti_committed _ _ _ _ _ _ Ha).
Qed.

Lemma started_fuel e s :
  started e s → (size (recs (committed_view e) ChangeLogStore.changelog_name) < fuel)%nat →
  (size (recs (view s) ChangeLogStore.changelog_name) < fuel)%nat.
Proof. intros (_ & _ & E & _). unfold recs, table. by rewrite E. Qed.

(** What is asked of the action: it changes the hooks as table methods do, writes no system
    table, and when it returns, [ops] are the changes it recorded. *)
Definition records {A} (ptr : Z) (g : session) (hist : list (list ChangeOp)) (action : Z → H A)
    (P : A → list ChangeOp → db_view → db_view → Prop) : Prop :=
  ∀ s r h' s', started (se_env g) s → in_progress id node n0 log0 s hist → action ptr (se_hooks g) s = (r, h', s') →
    call_step id node ptr (se_hooks g) h' ∧
    ∀ x, r = Ok x → m_sync_capture_failed_txn h' = 0 ∧ user_write (view s) (view s') ∧
      ∃ ops, (∀ a, m_sync_capture h' = Some a → pending_of a ptr = ops) ∧ P x ops (view s) (view s').

Lemma write_txn_idle {A} cleanup ptr (action : Z → H A) g hist P :
  idle g hist → ptr ≠ 0 → (size (recs (committed_view (se_env g)) ChangeLogStore.changelog_name) < fuel)%nat →
  (∀ s h a e, same_env (se_env g) e → quiet ptr h a → idle (cleanup {| se_env := e; se_hooks := h; se_txn := Some (ptr, s) |}) hist) →
  (∀ g, se_txn g = None → cleanup g = g) → records ptr g hist action P →
  let '(r, g') := in_write_txn fuel [] cleanup ptr action g in
  match r with
  | Throw _ => idle g' hist
  | Ok x => ∃ ops v v1 v2, idle g' (hist ++ batch_list ops) ∧ P x ops v v1 ∧ v_dbs v = env_dbs (se_env g) ∧
      v_frame capture_tables v1 v2 ∧ env_dbs (se_env g') = v_dbs v2 ∧ env_handles (se_env g') = v_handles v2
  end.
Proof.
  intros Hi Hptr Hf Hcl Hcl0 HP. unfold in_write_txn. destruct (begin_txn ptr g) as [r1 g1] eqn:Eb.
  destruct r1 as [[]|e].
  2: { apply begin_env in Eb as [_ Eb]. by rewrite (Eb e eq_refl). }
  destruct (begin_started _ _ _ _ Hi Eb) as (s & -> & Hst & Hip). cbn [se_txn]. unfold run_in. cbn [se_hooks se_env].
  destruct (action ptr (se_hooks g) s) as [[r h1] s1] eqn:Ea. destruct (HP s r h1 s1 Hst Hip Ea) as [Hcs Hok].
  destruct (idle_quiet ptr _ _ Hi) as (a0 & Hq0 & _). destruct (quiet_step _ _ _ _ Hq0 Hcs) as [a1 Hq1].
  destruct r as [x|e]; cbv beta iota; [|apply (Hcl s1 h1 a1); [apply reflexivity|done]].
  destruct (Hok x eq_refl) as (Hm1 & Hu & ops & Hops & HPx). clear Hok.
  assert (in_progress id node n0 log0 s1 hist) as Hip1 by by eapply user_write_in_progress.
  assert (size (recs (view s1) ChangeLogStore.changelog_name) < fuel)%nat as Hf1.
  { destruct Hu as (_ & _ & Hu). rewrite (same_recs (view s)); [by eapply started_fuel|exact Hu|].
    apply (bool_decide_unpack _). vm_compute. exact I. }
  assert (sync_capture_failed ptr h1 = false) as Hf1'.
  { unfold sync_capture_failed. rewrite (proj2 (Z.eqb_neq _ _) Hptr), Hm1. apply Z.eqb_neq. lia. }
  unfold commit_txn. cbn [se_txn se_hooks se_env].
  destruct (on_pre_commit fuel [] ptr h1 s1) as [[r2 h2] s2] eqn:Ep.
  pose proof (preserves_pre_commit ptr h1 s1) as Hmk. rewrite Ep in Hmk. simpl in Hmk.
  pose proof (pre_commit_run [] id node n0 log0 ltac:(by apply Forall_nil) Hnode Hz Hn0 fuel ptr h1 a1 s1 hist r2 h2 s2 Hptr
    (proj2 (proj2 (qu_ok _ _ _ Hq1))) (qu_acc _ _ _ Hq1) Hip1 Hf1 Hf1' Ep) as [Hst2 Hr2].
  destruct (quiet_step ptr h1 h2 a1 Hq1 (conj Hst2 Hmk)) as [a2 Hq2].
  destruct r2 as [[]|e]; cbv beta iota; [|apply (Hcl s2 h2 a2); [apply reflexivity|done]].
  destruct Hr2 as (Hm2 & Hip2 & Hp2). rewrite (Hops a1) in Hip2 by apply (qu_ok _ _ _ Hq1).
  destruct (mdbx_txn_commit (se_env g) s2) as [rc e] eqn:Ec.
  pose proof (law_commit _ _ _ _ Ec) as [Eid Hrc]. pose proof (law_commit_handles _ _ _ _ Ec) as Hrh.
  assert (rc ≠ MDBX_SUCCESS → same_env (se_env g) e) as Hsame.
  { intros Hne. destruct Hrc as [[_ H2]|[? _]]; [|done]. by destruct Hrh as [[_ H3]|[? _]]. }
  destruct (rc =? MDBX_THREAD_MISMATCH) eqn:E1; zbool; cbv beta iota.
  { apply (Hcl s2 h2 a2); [|done]. apply Hsame. by subst. }
  destruct (quiet_discard _ _ _ Hptr Hq2) as (Hq3 & Hp3 & Hm3).
  destruct (rc =? MDBX_SUCCESS) eqn:E2; zbool; cbn [negb]; cbv beta iota.
  2: { rewrite Hcl0 by done. eapply idle_again; [done|by apply Hsame|done|done|done]. }
  subst rc. destruct Hrc as [[Herr _]|[_ Edb]]; [by apply law_error in Herr; set_solver|].
  destruct Hrh as [[Herr _]|[_ Eh]]; [by apply law_error in Herr; set_solver|].
  exists ops, (view s), (view s1), (view s2). unfold release_txn. cbn [se_txn se_env].
  assert (m_sync_capture_failed_txn h2 = 0) as Hm0.
  { destruct (qu_mark _ _ _ Hq2) as [|E]; [done|]. exfalso. unfold sync_capture_failed in Hm2.
    rewrite (proj2 (Z.eqb_neq _ _) Hptr), E, Z.eqb_refl in Hm2. done. }
  split; [|split; [done|]; split; [apply Hst|]; split; [|done]].
  - split; [|done|done|apply Hq2]. exists a2. destruct (id_inv _ _ Hi) as [a Ha]. pose proof (ti_env _ _ _ _ _ _ Ha) as Eg. simpl in Eg.
    destruct Hip2 as (_ & _ & Hs2 & Hh2).
    apply (ended_inv _ _ _ _ (rest_trace g hist)); simpl; try done; [congruence|apply Hq2|apply Hq2|..].
    + by apply (same_dbs_sound _ s2 e).
    + by apply (same_dbs_holds _ _ _ s2 e).
    + intros q. destruct (decide (q = ptr)) as [->|Hne]; [apply Hp2, (qu_ok _ _ _ Hq2)|by apply (qu_pending _ _ _ Hq2)].
  - by eapply pre_commit_frame; [apply Hq1|apply Hq1|done|done|].
Qed.

(** ** A public call *)

Context (kt : key_type) `{!KeyReadable kt} {V : Type} `{!TableValue V} (t : table_obj).
Context (Hres : is_reserved_dbi_name (t_name t) = false).

(** The committed table holds [μ], and the handle is one of the environment. *)
Definition committed_map (e : env) (μ : gmap (key_val kt) V) : Prop :=
  env_handles e !! t_dbi t = Some (t_name t) ∧
  ∃ m, env_dbs e !! t_name t = Some (mk_dbi (get_mdbx_flags kt) m) ∧ holds_map kt m μ.

Definition committed_recs (e : env) : gmap bytes bytes := recs (committed_view e) (t_name t).

Lemma user_table n : n ∈ system_tables → n ≠ t_name t.
Proof. intros Hn ->. apply system_reserved in Hn. congruence. Qed.

Lemma unguarded : t_name t ∉ guard_tables.
Proof.
  intros Hn. apply (user_table (t_name t)); [|done]. revert Hn. generalize (t_name t). apply Forall_forall.
  apply (bool_decide_unpack _). vm_compute. exact I.
Qed.

Lemma recorded_all_mark ptr ops h :
  m_sync_capture_failed_txn (recorded_all ptr ops h) = m_sync_capture_failed_txn h.
Proof.
  revert h. induction ops as [|op ops IH]; intros h; [done|]. simpl. rewrite IH. unfold recorded.
  destruct (m_sync_capture h); [|done]. by destruct (sync_capture_suppressed ptr h).
Qed.

Lemma recorded_all_pending ptr ops h a :
  hooks_ok id h a → m_sync_capture_suppressed_txns h = [] →
  ∀ a', m_sync_capture (recorded_all ptr ops h) = Some a' → pending_of a' ptr = pending_of a ptr ++ ops.
Proof.
  revert h a. induction ops as [|op ops IH]; intros h a (E1 & E2 & E3) Hs a' Ha'.
  { simpl in Ha'. rewrite E3 in Ha'. injection Ha' as <-. by rewrite app_nil_r. }
  simpl in Ha'. unfold recorded in Ha' at 1. rewrite E3 in Ha'.
  assert (sync_capture_suppressed ptr h = false) as Hsup.
  { unfold sync_capture_suppressed. rewrite Hs. by destruct (ptr =? 0). }
  rewrite Hsup in Ha'. set (a1 := set_pending _ a) in Ha'.
  rewrite (IH (set_sink a1 h) a1 (conj E1 (conj E2 eq_refl)) Hs a' Ha'). unfold pending_of. simpl.
  rewrite lookup_insert_eq. simpl. by rewrite <- app_assoc.
Qed.

Lemma started_table g hist s μ :
  idle g hist → committed_map (se_env g) μ → started (se_env g) s → in_progress id node n0 log0 s hist →
  table_state kt id t (se_hooks g) (view s) μ.
Proof.
  intros Hi (Hh & m & Hm & Hμ) (E1 & E2 & E3 & E4) (_ & _ & Hs & _). destruct (id_inv _ _ Hi) as [a Ha].
  destruct (ti_hooks _ _ _ _ _ _ Ha) as (H1 & H2 & H3). simpl in *. split; try done.
  - split; [|unfold recs, table; by rewrite E3, Hm]. split; [by eapply lookup_weaken|]. rewrite E3, Hm. eauto.
  - intros a' Ea. rewrite H3 in Ea. injection Ea as <-. apply (ti_acc _ _ _ _ _ _ Ha).
  - by eapply sound_guard_view.
Qed.

(** What a successful call did. *)
Definition call_did {A} (c : call kt V A) (μ : gmap (key_val kt) V) (x : A) (ops : list ChangeOp) (v v1 : db_view) : Prop :=
  ∃ μ', call_spec kt t c μ = (Ok x, μ', ops) ∧ typed kt v1 (t_dbi t) (t_name t) μ' ∧
    recs v1 (t_name t) = effects ops (recs v (t_name t)) ∧ ∀ n, n ≠ t_name t → v_dbs v1 !! n = v_dbs v !! n.

Lemma call_records {A} (c : call kt V A) ptr g hist μ :
  idle g hist → committed_map (se_env g) μ → call_ok kt c → (call_fuel kt c μ ≤ fuel)%nat →
  records ptr g hist (fun ptr => run_call kt t fuel ptr c) (call_did c μ).
Proof.
  intros Hi Hμ Hok Hf s r h' s' Hst Hip Hr. split.
  { pose proof (preserves_run_call id node kt t ptr fuel c (se_hooks g) s) as H. by rewrite Hr in H. }
  intros x ->. pose proof (started_table _ _ _ _ Hi Hμ Hst Hip) as Hs.
  pose proof (call_refines kt id t ptr unguarded c fuel μ Hok Hf (se_hooks g) (view s) Hs s eq_refl) as H. rewrite Hr in H.
  destruct H as [[[Hres2 Hh Hs' Hfr Hot Hef]|(e & _ & [=])]|[(k & rc & [=] & _) _]].
  destruct (call_spec kt t c μ) as [[r2 μ'] ops] eqn:E. simpl in *. subst r2 h'.
  split; [rewrite recorded_all_mark; by destruct Hi|]. split.
  { split; [apply Hfr|]. split; [apply Hfr|]. intros n Hn. by apply Hot, user_table. }
  exists ops. split.
  - destruct (idle_quiet ptr _ _ Hi) as (a & Hq & Hp). intros a' Ha'.
    erewrite recorded_all_pending; [|apply Hq|apply Hq|exact Ha']. by rewrite Hp.
  - exists μ'. split; [done|]. split; [apply Hs'|done].
Qed.

Lemma committed_after (v1 v2 : db_view) e μ' :
  v_frame capture_tables v1 v2 → env_dbs e = v_dbs v2 → env_handles e = v_handles v2 → typed kt v1 (t_dbi t) (t_name t) μ' →
  committed_map e μ' ∧ committed_recs e = recs v1 (t_name t).
Proof.
  intros Hf Ed Eh [Hb Hm]. assert (t_name t ∉ capture_tables) as Hn.
  { intros Hn. apply (user_table (t_name t)); [|done]. unfold system_tables. rewrite !elem_of_cons. tauto. }
  pose proof (bound_frame _ _ _ _ _ _ Hf Hb) as (H1 & d & H2 & H3). pose proof (recs_frame _ _ _ _ Hf Hn) as Er.
  assert (committed_recs e = recs v2 (t_name t)) as Ec by (unfold committed_recs, recs, table; simpl; by rewrite Ed).
  split; [|congruence]. split; [by rewrite Eh|]. exists (recs v2 (t_name t)). split; [|by rewrite Er].
  rewrite Ed, H2. unfold recs, table. rewrite H2. simpl. rewrite <- H3. by destruct d.
Qed.

Lemma read_keeps_hooks {A} (c : call kt V A) ptr h s : is_read kt c = true → (run_call kt t fuel ptr c h s).1.2 = h.
Proof.
  destruct c; cbn [is_read run_call]; intros Hr; try done; unfold txn_call, in_txn;
    by match goal with |- context [let '(_, _) := ?m in _] => destruct m end.
Qed.

(** The tables a call on [t] can change. *)
Definition others_kept (e e' : env) : Prop :=
  ∀ n, n ∉ t_name t :: capture_tables → table (committed_view e') n = table (committed_view e) n.

Lemma public_call_idle {A} (c : call kt V A) reset_rc ptr g hist μ :
  idle g hist → committed_map (se_env g) μ → ptr ≠ 0 → call_ok kt c → (call_fuel kt c μ ≤ fuel)%nat →
  (size (recs (committed_view (se_env g)) ChangeLogStore.changelog_name) < fuel)%nat →
  let '(r, g') := public_call fuel [] t reset_rc ptr c g in
  match r with
  | Ok x => ∃ μ' ops, call_spec kt t c μ = (Ok x, μ', ops) ∧ idle g' (hist ++ batch_list ops) ∧
      committed_map (se_env g') μ' ∧ committed_recs (se_env g') = effects ops (committed_recs (se_env g)) ∧
      others_kept (se_env g) (se_env g')
  | Throw _ => idle g' hist ∧ committed_map (se_env g') μ ∧ same_env (se_env g) (se_env g')
  end.
Proof.
  intros Hi Hμ Hptr Hok Hf Hl. unfold public_call, with_transaction, call_mode. rewrite (id_none _ _ Hi).
  assert (∀ e, same_env (se_env g) e → committed_map e μ) as Hsame.
  { intros e (_ & E2 & E3). unfold committed_map. by rewrite E2, E3. }
  destruct (is_read kt c) eqn:Er.
  - pose proof (in_read_txn_env reset_rc ptr (fun ptr => run_call kt t fuel ptr c) g (id_none _ _ Hi)) as Hro.
    unfold in_read_txn in *. destruct (mdbx_txn_begin (se_env g) true) as [rc s] eqn:Eb.
    destruct (negb (rc =? MDBX_SUCCESS)) eqn:Erc; [split; [done|]; split; [done|apply reflexivity]|]. zbool. subst rc.
    pose proof (read_keeps_hooks c ptr (se_hooks g) s Er) as Eh.
    assert (typed kt (view s) (t_dbi t) (t_name t) μ) as Hty.
    { destruct (law_begin _ _ _ _ Eb) as [Herr|(_ & E1 & E2 & E3)]; [by apply law_error in Herr; set_solver|].
      destruct (law_begin_handles _ _ _ _ Eb) as [Herr|E4]; [by apply law_error in Herr; set_solver|].
      destruct Hμ as (Hh & m & Hm & Hmm). split; [|unfold recs, table; by rewrite E3, Hm].
      split; [by eapply lookup_weaken|]. rewrite E3, Hm. eauto. }
    pose proof (cwp_read_call kt t ptr c fuel μ (se_hooks g) (view s) (fun r _ _ => r = (call_spec kt t c μ).1.1) Er Hok Hf Hty
      eq_refl s eq_refl) as Hr.
    destruct (run_call kt t fuel ptr c (se_hooks g) s) as [[r h] s']. simpl in Eh. subst h.
    destruct (mdbx_txn_abort (se_env g) s') as [rc2 e] eqn:Ea. pose proof (aborted_env _ _ _ _ Ea) as He.
    assert (idle {| se_env := e; se_hooks := se_hooks g; se_txn := None |} hist) as Hi'.
    { destruct (idle_quiet ptr _ _ Hi) as (a & Hq & Hp). eapply idle_again; [done|done|done|done|by destruct Hi]. }
    destruct r as [x|e2]; [|split; [done|]; split; [by apply Hsame|done]].
    destruct (negb (reset_rc =? MDBX_SUCCESS)); [split; [done|]; split; [by apply Hsame|done]|].
    destruct Hr as [Hr|[(k & rc & [=] & _) _]]. exists μ, []. rewrite (read_spec _ _ c μ Er), <- Hr. simpl. rewrite app_nil_r.
    split; [done|]. split; [done|]. split; [by apply Hsame|]. destruct He as (_ & He & _).
    split; [unfold committed_recs, recs, table; simpl; by rewrite He|]. intros n _. unfold table. simpl. by rewrite He.
  - pose proof (write_txn_idle abandon ptr (fun ptr => run_call kt t fuel ptr c) g hist (call_did c μ) Hi Hptr Hl) as H.
    pose proof (in_write_txn_env fuel [] abandon ptr (fun ptr => run_call kt t fuel ptr c) g (id_none _ _ Hi) abandon_env) as He.
    destruct (in_write_txn fuel [] abandon ptr _ g) as [r g'].
    assert (match r with
      | Throw _ => idle g' hist
      | Ok x => ∃ ops v v1 v2, idle g' (hist ++ batch_list ops) ∧ call_did c μ x ops v v1 ∧ v_dbs v = env_dbs (se_env g) ∧
          v_frame capture_tables v1 v2 ∧ env_dbs (se_env g') = v_dbs v2 ∧ env_handles (se_env g') = v_handles v2
      end) as Hres2.
    { apply H; [intros; by eapply idle_abandoned| |by apply call_records].
      intros g0 E0. unfold abandon, rollback_txn. rewrite E0. simpl. unfold release_txn. by rewrite E0. }
    clear H. destruct r as [x|e].
    + destruct Hres2 as (ops & v & v1 & v2 & Hi' & (μ' & Hsp & Hty & Hef & Hot) & Ev & Hfr & Ed & Eh).
      destruct (committed_after v1 v2 _ _ Hfr Ed Eh Hty) as [Hc Er2]. exists μ', ops.
      split; [done|]. split; [done|]. split; [done|]. split.
      * rewrite Er2, Hef. f_equal. unfold committed_recs, recs, table. simpl. by rewrite Ev.
      * intros n Hn. apply not_elem_of_cons in Hn as [Hne Hn]. pose proof (fr_table _ _ _ Hfr n Hn) as Et.
        unfold table in *. simpl. rewrite Ed, Et, Hot, Ev by done. done.
    + assert (same_env (se_env g) (se_env g')) as Hs by (apply He; eauto). split; [done|]. split; [by apply Hsame|done].
Qed.

(** ** Sequences of public calls *)

(** A call with the pointer its transaction gets and the code of its reset. *)
Record public_op : Type := { po_type : Type; po_call : call kt V po_type; po_reset : Z; po_ptr : Z }.

(** The caller goes on after an exception. *)
Fixpoint run_public (l : list public_op) (g : session) : list (sigT result) * session :=
  match l with
  | [] => ([], g)
  | o :: l' =>
      let '(r, g1) := public_call fuel [] t (po_reset o) (po_ptr o) (po_call o) g in
      let '(rs, g2) := run_public l' g1 in (existT (po_type o) r :: rs, g2)
  end.

(** The results [rs] of the calls [l] on a map that is [μ] before and [μ'] after, where a call
    that throws does nothing, and the changes of each call that made some. *)
Inductive explains : gmap (key_val kt) V → list public_op → list (sigT result) → gmap (key_val kt) V →
    list (list ChangeOp) → Prop :=
  | ex_nil μ : explains μ [] [] μ []
  | ex_ok μ o x μ1 ops l rs μ' bs :
      call_spec kt t (po_call o) μ = (Ok x, μ1, ops) → explains μ1 l rs μ' bs →
      explains μ (o :: l) (existT (po_type o) (Ok x) :: rs) μ' (batch_list ops ++ bs)
  | ex_throw μ o e l rs μ' bs :
      explains μ l rs μ' bs → explains μ (o :: l) (existT (po_type o) (Throw e) :: rs) μ' bs.

(** How many pairs a call adds at most. *)
Definition call_growth {A} (c : call kt V A) : nat :=
  match c with Append l | Reconcile l => length l | InsertIfAbsent _ _ | InsertOrAssign _ _ | Update _ _ => 1 | _ => 0 end.
Definition growth (l : list public_op) : nat := sum_list ((fun o => call_growth (po_call o)) <$> l).

Lemma assign_growth k x μ : (size (assign kt t k x μ).1.2 ≤ S (size μ))%nat.
Proof.
  unfold assign, keyed. destruct (serialize_key kt k); simpl; [|lia]. rewrite map_size_insert.
  destruct (μ !! key_canonical kt k); simpl; lia.
Qed.

Lemma bind_growth {A B} (sp : Sp (key_val kt) V A) (f : A → Sp (key_val kt) V B) (m n : nat) μ :
  (size (sp μ).1.2 ≤ size μ + m)%nat → (∀ x μ', (size (f x μ').1.2 ≤ size μ' + n)%nat) →
  (size ((sp ≫= f) μ).1.2 ≤ size μ + (m + n))%nat.
Proof.
  intros Hs Hf. unfold mbind, Sp_bind. destruct (sp μ) as [[[x|e] μ1] ops]; simpl in *; [|lia].
  specialize (Hf x μ1). destruct (f x μ1) as [[r μ2] ops2]. simpl in *. lia.
Qed.

Lemma assign_all_growth l μ : (size (assign_all kt t l μ).1.2 ≤ size μ + length l)%nat.
Proof.
  revert μ. induction l as [|[k x] l IH]; intros μ; simpl; [lia|].
  apply (bind_growth _ _ 1 (length l)); [pose proof (assign_growth k x μ); lia|]. intros _ μ'. apply IH.
Qed.

Lemma filter_growth (P : key_val kt * V → Prop) `{∀ p, Decision (P p)} (μ : gmap (key_val kt) V) : (size (filter P μ) ≤ size μ)%nat.
Proof. apply map_subseteq_size, map_filter_subseteq. Qed.

Lemma spec_growth {A} (c : call kt V A) μ : (size (call_spec kt t c μ).1.2 ≤ size μ + call_growth c)%nat.
Proof.
  assert (∀ k x B (y : B) μ, (size ((_ ← assign kt t k x; mret y) μ).1.2 ≤ size μ + 1)%nat) as Hput.
  { intros k x B y ν. apply (bind_growth _ _ 1 0); [pose proof (assign_growth k x ν); lia|]. intros _ ν'. simpl. lia. }
  destruct c; cbn [call_spec call_growth]; try (simpl; lia).
  - unfold insert_absent, keyed. destruct (serialize_key kt key); [|simpl; lia].
    destruct (μ !! key_canonical kt key); [simpl; lia|apply Hput].
  - pose proof (assign_growth key value μ). lia.
  - unfold update, keyed. destruct (serialize_key kt key); [|simpl; lia].
    destruct (μ !! key_canonical kt key); [|simpl; lia]. destruct (fn v); [apply Hput|simpl; lia].
  - apply assign_all_growth.
  - rewrite <- (Nat.add_0_r (length container)). apply bind_growth; [apply assign_all_growth|]. intros _ μ1.
    apply (bind_growth _ _ 0 0); [unfold remove_where; simpl; pose proof (filter_growth (fun p => ¬ stale kt container p) μ1); lia|].
    intros _ μ2. simpl. lia.
  - unfold remove, keyed. destruct (serialize_key kt key); [|simpl; lia].
    destruct (μ !! key_canonical kt key); [|simpl; lia]. cbn [fst snd]. rewrite map_size_delete. destruct (μ !! _); simpl; lia.
  - unfold erase_range, keyed. destruct (serialize_key kt from_key); [|simpl; lia].
    destruct (serialize_key kt to_key); [|simpl; lia]. unfold remove_where. cbn [fst snd].
    rewrite Nat.add_0_r. apply filter_growth.
  - unfold clear. cbn [fst snd]. rewrite map_size_empty. lia.
Qed.

Lemma captured_log_size n h cl : (size (captured_log node n h cl) ≤ size cl + length h)%nat.
Proof.
  revert n cl. induction h as [|l h IH]; intros n cl; simpl; [lia|]. etrans; [apply IH|]. rewrite map_size_insert.
  destruct (cl !! _); simpl; lia.
Qed.

Lemma idle_log g hist :
  idle g hist → n0 + count hist < 2 ^ 64 →
  recs (committed_view (se_env g)) ChangeLogStore.changelog_name = captured_log node n0 hist log0.
Proof. intros [(a & Ha) _ _ _] Hn. by apply (ti_committed _ _ _ _ _ _ Ha). Qed.

Lemma public_history_idle (l : list public_op) (g : session) (hist : list (list ChangeOp)) (μ : gmap (key_val kt) V) :
  idle g hist → committed_map (se_env g) μ → Forall (fun o => call_ok kt (po_call o) ∧ po_ptr o ≠ 0) l →
  n0 + count hist + Z.of_nat (length l) < 2 ^ 64 → (size log0 + length hist + length l < fuel)%nat →
  (size μ + growth l < fuel)%nat →
  let '(rs, g') := run_public l g in
  ∃ μ' bs, explains μ l rs μ' bs ∧ idle g' (hist ++ bs) ∧ committed_map (se_env g') μ' ∧
    recs (committed_view (se_env g')) ChangeLogStore.changelog_name = captured_log node n0 (hist ++ bs) log0 ∧
    committed_recs (se_env g') = effects (concat bs) (committed_recs (se_env g)).
Proof.
  revert g hist μ. induction l as [|o l IH]; intros g hist μ Hi Hμ Hok Hn Hfl Hfm.
  { exists μ, []. rewrite app_nil_r. split; [constructor|]. split; [done|]. split; [done|]. split; [|done].
    apply idle_log; [done|]. simpl in Hn. lia. }
  apply Forall_cons in Hok as [[Ho Hptr] Hok]. change (growth (o :: l)) with (call_growth (po_call o) + growth l)%nat in Hfm.
  cbn [length] in *. unfold count in *.
  assert (call_fuel kt (po_call o) μ ≤ fuel)%nat as Hcf by (destruct (po_call o); simpl in *; lia).
  assert (size (recs (committed_view (se_env g)) ChangeLogStore.changelog_name) < fuel)%nat as Hlf.
  { rewrite (idle_log _ _ Hi) by (unfold count; lia). eapply Nat.le_lt_trans; [apply captured_log_size|]. lia. }
  cbn [run_public]. pose proof (public_call_idle (po_call o) (po_reset o) (po_ptr o) g hist μ Hi Hμ Hptr Ho Hcf Hlf) as H.
  destruct (public_call fuel [] t _ _ (po_call o) g) as [[x|e] g1].
  - destruct H as (μ1 & ops & Hsp & Hi1 & Hμ1 & Her & _).
    pose proof (spec_growth (po_call o) μ) as Hg. rewrite Hsp in Hg. simpl in Hg.
    assert (length (batch_list ops) ≤ 1)%nat as Hb by (destruct ops; simpl; lia).
    specialize (IH g1 (hist ++ batch_list ops) μ1 Hi1 Hμ1 Hok). rewrite length_app in IH.
    destruct (run_public l g1) as [rs g2]. destruct IH as (μ' & bs & Hex & Hi2 & Hμ2 & Hlog & Hrec);
      [lia|lia|lia|]. exists μ', (batch_list ops ++ bs). rewrite app_assoc.
    split; [by econstructor|]. split; [done|]. split; [done|]. split; [done|].
    rewrite Hrec, Her. unfold effects. rewrite concat_app, foldl_app. f_equal.
    destruct ops; simpl; [done|]. by rewrite app_nil_r.
  - destruct H as (Hi1 & Hμ1 & _ & E2 & _). specialize (IH g1 hist μ Hi1 Hμ1 Hok).
    destruct (run_public l g1) as [rs g2]. destruct IH as (μ' & bs & Hex & Hi2 & Hμ2 & Hlog & Hrec);
      [lia|lia|lia|]. exists μ', bs.
    split; [by constructor|]. split; [done|]. split; [done|]. split; [done|]. rewrite Hrec. f_equal.
    unfold committed_recs, recs, table. simpl. by rewrite E2.
Qed.
(** C6: the table and the changelog agree on everything committed.  Take an idle connection
    with an attached accumulator and a table that holds [μ], with keys of a type that can be
    read back ([KeyReadable]: all but some bitsets), and any sequence of public calls,
    each in its own transaction, by a caller that goes on after exceptions.  Then the results
    are those of the same calls on a map, where a call that throws does nothing; the
    committed table holds that map; the changelog is the old one with one batch for each call
    that changed something, in order, with exactly its changes; and applying all these changes
    to the old records gives the new ones. *)
Theorem public_history (l : list public_op) (g : session) (hist : list (list ChangeOp)) (μ : gmap (key_val kt) V) :
  idle g hist → committed_map (se_env g) μ → Forall (fun o => call_ok kt (po_call o) ∧ po_ptr o ≠ 0) l →
  n0 + count hist + Z.of_nat (length l) < 2 ^ 64 → (size log0 + length hist + length l < fuel)%nat →
  (size μ + growth l < fuel)%nat →
  let '(rs, g') := run_public l g in
  ∃ μ' bs, explains μ l rs μ' bs ∧ idle g' (hist ++ bs) ∧ committed_map (se_env g') μ' ∧
    recs (committed_view (se_env g')) ChangeLogStore.changelog_name = captured_log node n0 (hist ++ bs) log0 ∧
    committed_recs (se_env g') = effects (concat bs) (committed_recs (se_env g)).
Proof. apply public_history_idle. Qed.

End Rest.

(** ** The constructor *)

Section Constructor.
Context {X : Mdbx} {L : MdbxLaws X} (id : Z) (node : NodeId) (n0 : Z) (log0 : gmap bytes bytes).
Context (Hnode : node_ok node) (Hz : node ≠ make_zero_node) (Hn0 : 0 ≤ n0).
Context (kt : key_type) {V : Type} `{!TableValue V} (fuel : nat) (name : bytes).
Context (Hres : is_reserved_dbi_name name = false) (Hnul : c_str name = name).
Abbreviation fl := (get_mdbx_flags kt).
Abbreviation table_flags := (Z.lor MDBX_CREATE fl).

(** The table [name] of the committed tables holds [μ], or does not exist and [μ] is empty. *)
Definition may_hold (dbs : gmap bytes dbi_view) (μ : gmap (key_val kt) V) : Prop :=
  match dbs !! name with
  | None => μ = ∅
  | Some d => dv_flags d = fl ∧ holds_map kt (dv_recs d) μ
  end.

Lemma flags_kept : stored_flags table_flags = fl ∧ has_flag table_flags MDBX_CREATE = true ∧ fixed_flags table_flags = false.
Proof. destruct (key_width_cases kt) as [->|[-> _]]; by vm_compute. Qed.

Lemma wp_open_action v μ :
  v_rw v = true → may_hold (v_dbs v) μ →
  wp (open_action name table_flags) (fun r v' => ∀ t, r = Ok t →
    t_name t = name ∧ t_flags t = fl ∧ typed kt v' (t_dbi t) (t_name t) μ ∧
    v_env v' = v_env v ∧ v_rw v' = v_rw v ∧ ∀ n, n ≠ name → v_dbs v' !! n = v_dbs v !! n) v.
Proof.
  intros Hrw Hμ. destruct flags_kept as (Hsf & Hcr & Hdup). unfold open_action. rewrite Hnul.
  apply wp_bind. intros s Hs. unfold dbi_open. destruct (mdbx_dbi_open s name table_flags) as [[rc dbi] s1] eqn:E. left. subst v.
  destruct (law_open _ _ _ _ _ _ E) as [He|Ho]; [engine_error_case|].
  assert (∀ d, view s1 = v_opened (view s) name d dbi → dv_flags d = fl → holds_map kt (dv_recs d) μ →
    wp ('(rc, dbi_flags) ← get_flags dbi; _ ← check_mdbx rc "Failed to read table flags";
        mret {| t_dbi := dbi; t_name := name; t_flags := dbi_flags |}) (fun r v' => ∀ t, r = Ok t →
      t_name t = name ∧ t_flags t = fl ∧ typed kt v' (t_dbi t) (t_name t) μ ∧
      v_env v' = v_env (view s) ∧ v_rw v' = v_rw (view s) ∧ ∀ n, n ≠ name → v_dbs v' !! n = v_dbs (view s) !! n) (view s1)) as Hgo.
  { intros d Ev Hd Hm. pose proof (opened_bound (view s) name d dbi) as Hb. rewrite <- Ev, Hd in Hb.
    apply wp_bind. intros s2 Hs2. left. rewrite <- Hs2 in *. destruct (mdbx_dbi_flags s2 dbi) as [rc2 f] eqn:E2.
    destruct (law_flags _ _ _ _ _ _ E2 (bound_table _ _ _ _ Hb)) as [He|[-> ->]]; [engine_error_case|].
    apply wp_ret_bind, wp_ret. intros t [= <-]. cbn [t_name t_flags t_dbi dv_flags]. split; [done|]. split; [done|]. rewrite Ev in *.
    split; [split; [done|]|]. { unfold recs, table. simpl. by rewrite lookup_insert_eq. }
    split; [done|]. split; [done|]. intros n Hn. simpl. by rewrite lookup_insert_ne. }
  assert (∀ rc0, rc0 ≠ MDBX_SUCCESS → wp (_ ← check_mdbx rc0 "Failed to open table"; '(rc, dbi_flags) ← get_flags dbi;
      _ ← check_mdbx rc "Failed to read table flags"; mret {| t_dbi := dbi; t_name := name; t_flags := dbi_flags |})
    (fun r v' => ∀ t, r = Ok t →
      t_name t = name ∧ t_flags t = fl ∧ typed kt v' (t_dbi t) (t_name t) μ ∧
      v_env v' = v_env (view s) ∧ v_rw v' = v_rw (view s) ∧ ∀ n, n ≠ name → v_dbs v' !! n = v_dbs (view s) !! n) (view s1)) as Hbad.
  { intros rc0 Hne s2 Hs2. unfold mbind at 1, M_bind, check_mdbx. rewrite (proj2 (Z.eqb_neq _ _) Hne). by left. }
  unfold open_spec in Ho. unfold may_hold in Hμ. rewrite Hcr, Hrw, Hdup in Ho. destruct (v_dbs (view s) !! name) as [d|].
  - destruct Hμ as [Hd Hm]. assert (flags_match table_flags d = true) as Hfm.
    { unfold flags_match. rewrite Hsf, Hd, Z.eqb_refl. by rewrite orb_true_r. }
    rewrite Hfm in Ho. destruct Ho as [(-> & _ & _ & Ev)|[[[=] _]|[[[=] _]|(_ & [=] & _)]]].
    apply wp_ret_bind. by eapply Hgo.
  - subst μ. destruct Ho as [(-> & _ & _ & Ev)|[[=] _]]. apply wp_ret_bind.
    eapply Hgo; [done|done|]. apply holds_empty.
Qed.

Lemma new_kv_table_idle (reset_rc ptr : Z) (g : session) (hist : list (list ChangeOp)) (μ : gmap (key_val kt) V) :
  idle id node n0 log0 g hist → ptr ≠ 0 → may_hold (env_dbs (se_env g)) μ →
  (size (recs (committed_view (se_env g)) ChangeLogStore.changelog_name) < fuel)%nat →
  let '(r, g') := new_kv_table fuel [] kt name MDBX_CREATE reset_rc ptr g in
  match r with
  | Ok t => t_name t = name ∧ t_flags t = fl ∧ idle id node n0 log0 g' hist ∧ committed_map kt t (se_env g') μ ∧
      others_kept t (se_env g) (se_env g')
  | Throw _ => idle id node n0 log0 g' hist ∧ same_env (se_env g) (se_env g')
  end.
Proof.
  intros Hi Hptr Hμ Hf. unfold new_kv_table, new_table. rewrite Hres, (id_none _ _ _ _ _ _ Hi).
  assert (hk_read_only (se_hooks g) = false) as ->.
  { destruct (id_inv _ _ _ _ _ _ Hi) as [a Ha]. apply (ti_hooks _ _ _ _ _ _ Ha). }
  cbv beta iota zeta. set (action := fun _ : Z => txn_call (open_action name table_flags)).
  set (P := fun t (ops : list ChangeOp) (v v1 : db_view) => ops = [] ∧ t_name t = name ∧ t_flags t = fl ∧
    typed kt v1 (t_dbi t) (t_name t) μ ∧ ∀ n, n ≠ name → v_dbs v1 !! n = v_dbs v !! n).
  assert (∀ n, n ∈ system_tables → n ≠ name) as Hsys.
  { intros n Hn ->. apply system_reserved in Hn. congruence. }
  assert (records id node n0 log0 ptr g hist action P) as Hrec.
  { intros s r h' s' (E1 & E2 & E3 & E4) Hip Ha. unfold action, txn_call, in_txn in Ha.
    pose proof (wp_open_action (view s) μ E2 ltac:(by rewrite E3) s eq_refl) as Hw.
    destruct (open_action name table_flags s) as [r1 s1]. injection Ha as <- <- <-. split; [apply reflexivity|].
    intros t ->. destruct Hw as [Hw|(c & rc & [=] & _)]. destruct (Hw t eq_refl) as (H1 & H2 & H3 & H4 & H5 & H6).
    split; [by destruct Hi|]. split; [split; [done|]; split; [done|]; intros n Hn; by apply H6, Hsys|].
    destruct (idle_quiet _ _ _ _ ptr _ _ Hi) as (a & Hq & Hp). exists []. split; [|by split_and!].
    intros a' Ha'. pose proof (proj2 (proj2 (qu_ok _ _ _ _ _ Hq))) as Ea. rewrite Ea in Ha'. by injection Ha' as <-. }
  pose proof (write_txn_idle id node n0 log0 Hnode Hz Hn0 fuel release_txn ptr action g hist P Hi Hptr Hf) as H.
  pose proof (in_write_txn_env fuel [] release_txn ptr action g (id_none _ _ _ _ _ _ Hi) release_env) as He.
  destruct (in_write_txn fuel [] release_txn ptr action g) as [r g'].
  assert (match r with
    | Throw _ => idle id node n0 log0 g' hist
    | Ok x => ∃ ops v v1 v2, idle id node n0 log0 g' (hist ++ batch_list ops) ∧ P x ops v v1 ∧ v_dbs v = env_dbs (se_env g) ∧
        v_frame capture_tables v1 v2 ∧ env_dbs (se_env g') = v_dbs v2 ∧ env_handles (se_env g') = v_handles v2
    end) as Hr.
  { apply H; [intros; by eapply idle_released| |done]. intros g0 E0. unfold release_txn. by rewrite E0. }
  destruct r as [t|e]; [|split; [done|apply He; eauto]].
  destruct Hr as (ops & v & v1 & v2 & Hi' & (-> & H1 & H2 & Hty & Hot) & Ev & Hfr & Ed & Eh). rewrite app_nil_r in Hi'.
  split; [done|]. split; [done|]. split; [done|]. split.
  - by eapply (committed_after kt t ltac:(by rewrite H1)).
  - intros n Hn. apply not_elem_of_cons in Hn as [Hne Hn]. pose proof (fr_table _ _ _ Hfr n Hn) as Et.
    unfold table in *. simpl. rewrite Ed, Et, Hot, Ev by congruence. done.
Qed.
(** C20: the constructor of a table, on an idle connection, either throws and leaves the
    committed tables and handles as they were, or commits: the table exists with the flags of the key type
    and holds what it held (nothing, when it is new), its handle is one of the environment,
    no other user table has changed, and the changelog is the same.  A reserved
    name is refused. *)
Theorem new_kv_table_opens (reset_rc ptr : Z) (g : session) (hist : list (list ChangeOp)) (μ : gmap (key_val kt) V) :
  idle id node n0 log0 g hist → ptr ≠ 0 → may_hold (env_dbs (se_env g)) μ →
  (size (recs (committed_view (se_env g)) ChangeLogStore.changelog_name) < fuel)%nat →
  let '(r, g') := new_kv_table fuel [] kt name MDBX_CREATE reset_rc ptr g in
  match r with
  | Ok t => t_name t = name ∧ t_flags t = fl ∧ idle id node n0 log0 g' hist ∧ committed_map kt t (se_env g') μ ∧
      others_kept t (se_env g) (se_env g')
  | Throw _ => idle id node n0 log0 g' hist ∧ same_env (se_env g) (se_env g')
  end.
Proof. apply new_kv_table_idle. Qed.
End Constructor.

(** ** A concrete session *)

Definition prices : bytes := bytes_of_string "prices".
Definition prices_table : table_obj := {| t_dbi := 2; t_name := prices; t_flags := MDBX_INTEGERKEY |}.

(** The database of the sample session, and the constructor of a table on it. *)
Definition opened_session : result table_obj * session (X := ref_mdbx) :=
  new_kv_table (X := ref_mdbx) 9 [] int32_key (prices) MDBX_CREATE 0 7 sample_start.

Lemma sample_idle : idle (X := ref_mdbx) 1 sample_node 0 ∅ sample_start [].
Proof.
  split; [|done|done|done]. exists (new_accumulator 1). apply at_rest_inv. exact sample_at_rest.
Qed.

Lemma sample_fresh : may_hold (V := bytes) int32_key (prices) (env_dbs (X := ref_mdbx) (se_env sample_start)) ∅.
Proof.
  unfold may_hold. assert (env_dbs (X := ref_mdbx) (se_env sample_start) !! prices = None) as ->; [|done].
  vm_compute. reflexivity.
Qed.

Lemma sample_log_fuel :
  (size (recs (committed_view (X := ref_mdbx) (se_env sample_start)) ChangeLogStore.changelog_name) < 9)%nat.
Proof. apply Nat.ltb_lt. vm_compute. reflexivity. Qed.

Lemma new_kv_table_opens_witness :
  match opened_session with
  | (r, g') =>
      (t_dbi <$> match r with Ok t => Some t | Throw _ => None end) = Some 2 ∧
      match r with
      | Ok t => t_name t = prices ∧ t_flags t = MDBX_INTEGERKEY ∧ idle (X := ref_mdbx) 1 sample_node 0 ∅ g' [] ∧
          committed_map (X := ref_mdbx) (V := bytes) int32_key t (se_env g') ∅ ∧ others_kept t (se_env sample_start) (se_env g')
      | Throw _ => idle (X := ref_mdbx) 1 sample_node 0 ∅ g' [] ∧ same_env (X := ref_mdbx) (se_env sample_start) (se_env g')
      end
  end.
Proof.
  pose proof (new_kv_table_opens (X := ref_mdbx) (L := ref_laws) 1 sample_node 0 ∅ eq_refl ltac:(discriminate) ltac:(done)
    int32_key (V := bytes) 9 (prices) eq_refl eq_refl 0 7 sample_start [] ∅ sample_idle ltac:(done) sample_fresh sample_log_fuel) as H.
  assert ((t_dbi <$> match opened_session.1 with Ok t => Some t | Throw _ => None end) = Some 2) as E by (vm_compute; reflexivity).
  unfold opened_session in *. destruct (new_kv_table _ _ _ _ _ _ _ _) as [r g']. split; [exact E|exact H].
Defined.

Lemma opened_table : opened_session.1 = Ok prices_table.
Proof. vm_compute. reflexivity. Qed.

Definition prices_session : session (X := ref_mdbx) := opened_session.2.

Lemma prices_idle :
  idle (X := ref_mdbx) 1 sample_node 0 ∅ prices_session [] ∧
  committed_map (X := ref_mdbx) (V := bytes) int32_key prices_table (se_env prices_session) ∅.
Proof.
  pose proof (new_kv_table_idle (X := ref_mdbx) (L := ref_laws) 1 sample_node 0 ∅ eq_refl ltac:(discriminate) ltac:(done)
    int32_key (V := bytes) 9 (prices) eq_refl eq_refl 0 7 sample_start [] ∅ sample_idle ltac:(done) sample_fresh sample_log_fuel) as H.
  pose proof opened_table as E. unfold prices_session, opened_session in *.
  destruct (new_kv_table _ _ _ _ _ _ _ _) as [r g']. simpl in E. subst r. split; apply H.
Qed.

(** Three pairs are appended, an update fails in the caller's function, a pair is erased
    and the rest is read. *)
Definition sample_calls : list (public_op int32_key (V := bytes)) := [
  {| po_call := Append sample_pairs; po_reset := 0; po_ptr := 7 |};
  {| po_call := Update (5 : key_val int32_key) (fun _ => Throw (logic_error "stop")); po_reset := 0; po_ptr := 8 |};
  {| po_call := Erase (9 : key_val int32_key); po_reset := 0; po_ptr := 7 |};
  {| po_call := Range (-10 : key_val int32_key) (10 : key_val int32_key); po_reset := 0; po_ptr := 7 |} ].

Lemma sample_calls_ok : Forall (fun o => call_ok int32_key (po_call _ o) ∧ po_ptr _ o ≠ 0) sample_calls.
Proof.
  apply Forall_cons. split; [split; [exact sample_pairs_ok|done]|].
  apply Forall_cons. split; [split; [split; [apply int32_ok; unfold s_range; lia|done]|done]|].
  apply Forall_cons. split; [split; [apply int32_ok; unfold s_range; lia|done]|].
  apply Forall_cons. split; [split; [split; apply int32_ok; unfold s_range; lia|done]|]. apply Forall_nil_2.
Qed.

Lemma public_history_witness :
  match run_public (X := ref_mdbx) 9 int32_key prices_table sample_calls prices_session with
  | (rs, g') =>
      (size (committed_recs (X := ref_mdbx) prices_table (se_env g')) = 2%nat ∧
       size (recs (committed_view (X := ref_mdbx) (se_env g')) ChangeLogStore.changelog_name) = 2%nat) ∧
      ∃ μ' bs, explains int32_key prices_table ∅ sample_calls rs μ' bs ∧ idle (X := ref_mdbx) 1 sample_node 0 ∅ g' ([] ++ bs) ∧
        committed_map (X := ref_mdbx) int32_key prices_table (se_env g') μ' ∧
        recs (committed_view (X := ref_mdbx) (se_env g')) ChangeLogStore.changelog_name = captured_log sample_node 0 ([] ++ bs) ∅ ∧
        committed_recs (X := ref_mdbx) prices_table (se_env g') =
          effects (concat bs) (committed_recs (X := ref_mdbx) prices_table (se_env prices_session))
  end.
Proof.
  destruct prices_idle as [Hi Hm].
  assert (0 + count [] + Z.of_nat (length sample_calls) < 2 ^ 64) as H1 by (vm_compute; reflexivity).
  assert (size (∅ : gmap bytes bytes) + length (@nil (list ChangeOp)) + length sample_calls < 9)%nat as H2
    by (apply Nat.ltb_lt; vm_compute; reflexivity).
  assert (size (∅ : gmap (key_val int32_key) bytes) + growth int32_key sample_calls < 9)%nat as H3
    by (apply Nat.ltb_lt; vm_compute; reflexivity).
  pose proof (public_history (X := ref_mdbx) (L := ref_laws) 1 sample_node 0 ∅ eq_refl ltac:(discriminate) ltac:(done) 9 int32_key
    (V := bytes) prices_table eq_refl sample_calls prices_session [] ∅ Hi Hm sample_calls_ok H1 H2 H3) as H.
  assert (match run_public (X := ref_mdbx) 9 int32_key prices_table sample_calls prices_session with
    | (_, g') => size (committed_recs (X := ref_mdbx) prices_table (se_env g')) = 2%nat ∧
       size (recs (committed_view (X := ref_mdbx) (se_env g')) ChangeLogStore.changelog_name) = 2%nat end)
    as E by (vm_compute; repeat split).
  destruct (run_public _ _ _ _ _) as [rs g']. split; [exact E|exact H].
Defined.

(** A method that writes and then throws. *)
Definition failing_action (ptr : Z) : H unit :=
  _ ← db_append (X := ref_mdbx) int32_key prices_table ptr sample_pairs; throws (logic_error "stop").

Lemma with_transaction_atomic_witness :
  match with_transaction (X := ref_mdbx) 9 [] Lifecycle.WRITABLE 0 7 failing_action prices_session with
  | (r, g') => r = Throw (logic_error "stop") ∧ se_txn g' = None ∧
      (Lifecycle.WRITABLE = Lifecycle.READ_ONLY ∨ (∃ e, r = Throw e) →
       same_env (X := ref_mdbx) (se_env prices_session) (se_env g'))
  end.
Proof.
  pose proof (with_transaction_atomic (X := ref_mdbx) (L := ref_laws) 9 [] Lifecycle.WRITABLE 0 7 failing_action prices_session
    (id_none _ _ _ _ _ _ (proj1 prices_idle))) as H.
  assert ((with_transaction (X := ref_mdbx) 9 [] Lifecycle.WRITABLE 0 7 failing_action prices_session).1 =
    Throw (logic_error "stop")) as E by (vm_compute; reflexivity).
  destruct (with_transaction _ _ _ _ _ _ _) as [r g']. split; [exact E|exact H].
Defined.
