(* ===== verification/MultiContent.v ===== *)
(** * The content of a table with several values per key

    [KeyMultiValueTable] and [KeyOrderedMultiValueTable] keep the values of a key as the
    duplicates of a table with [MDBX_DUPSORT], each behind a sequence number in big-endian
    form, so that the order of the table is the order of the numbers.  The content is a finite
    map from keys to non-empty lists of numbered values, in increasing order of the numbers;
    [holds_multi] relates it to the records, and [flat] lists it in the order of the table. *)
From S2P Require Import Prelude SyncCommon KeyCodec Mdbx DupSort TableBase.
Open Scope Z_scope.

Lemma strictly_sorted_NoDup {A} (R : relation A) `{!Irreflexive R} l : StronglySorted R l → NoDup l.
Proof.
  induction 1 as [|a l Hl IH Ha]; [constructor|]. constructor; [|done]. rewrite Forall_forall in Ha.
  intros Hin%Ha. by apply irreflexivity in Hin.
Qed.

(** A strictly sorted list is determined by its elements. *)
Lemma strictly_sorted_ext {A} (R : relation A) `{!StrictOrder R} l l' :
  StronglySorted R l → StronglySorted R l' → (∀ a, a ∈ l ↔ a ∈ l') → l = l'.
Proof.
  intros Hl Hl' He. apply (StronglySorted_unique_strong R); [|done|done|].
  - intros a b _ _ Hab Hba. exfalso. apply (irreflexivity R a). by transitivity b.
  - apply NoDup_Permutation; [by apply (strictly_sorted_NoDup R)..|done].
Qed.

Definition encode_sequence (sequence : Z) : bytes :=
  map (fun i => byte_of (Z.land (Z.shiftr sequence ((7 - i) * 8)) 0xff)) (seqZ 0 8).

Definition multi_flags (kt : key_type) : Z := Z.lor MDBX_DUPSORT (get_mdbx_flags kt).

Section Content.
Context (kt : key_type) {V : Type} `{!TableValue V}.
Abbreviation K := (key_val kt).
Abbreviation fl := (get_mdbx_flags kt).
Abbreviation mfl := (multi_flags kt).

Definition entry (e : Z * V) : bytes := encode_sequence e.1 ++ serialize_value e.2.

Abbreviation content := (gmap K (list (Z * V))).

Definition entries (σ : content) (k : K) : list (Z * V) := default [] (σ !! k).
Definition set_entries (k : K) (l : list (Z * V)) (σ : content) : content :=
  match l with [] => delete k σ | _ => <[k := l]> σ end.

Definition entry_lt (a b : Z * V) : Prop := a.1 < b.1.
Record good_entries (l : list (Z * V)) : Prop := {
  ge_ok : Forall (fun e => is_u64 e.1 ∧ value_ok e.2) l;
  ge_sorted : StronglySorted entry_lt l;
}.

(** The pairs of the content in the order of the table. *)
Definition flat (σ : content) : list (K * (Z * V)) := pairs kt σ ≫= (fun p => pair p.1 <$> p.2).

Definition item_of (p : K * (Z * V)) : bytes := item mfl (stored kt p.1) (entry p.2).
Definition rec_of (p : K * (Z * V)) : bytes * bytes := (item_of p, entry p.2).

Record holds_multi (m : gmap bytes bytes) (σ : content) : Prop := {
  hu_good : map_Forall (fun k l => good_key kt k ∧ l ≠ [] ∧ good_entries l) σ;
  hu_recs b x : m !! b = Some x ↔ ∃ k e, e ∈ entries σ k ∧ b = item_of (k, e) ∧ x = entry e;
}.

(** ** Keys and flags *)

Lemma multi_flags_cases :
  mfl = MDBX_DUPSORT ∧ fl = 0 ∨
  mfl = Z.lor MDBX_DUPSORT MDBX_INTEGERKEY ∧ fl = KeyCodec.MDBX_INTEGERKEY ∧ (key_width kt = 4 ∨ key_width kt = 8)%nat.
Proof. unfold multi_flags. destruct (key_width_cases kt) as [->|[-> Hw]]; [left|right]; done. Qed.

Lemma multi_sort_key b : dup_sort_key mfl b = sort_key fl b.
Proof. destruct multi_flags_cases as [[-> ->]|(-> & -> & _)]; done. Qed.

Lemma multi_keys : dup_keys mfl (key_width kt).
Proof. destruct multi_flags_cases as [[-> _]|(-> & _ & Hw)]; [by left|by right]. Qed.

Lemma multi_fits b : fits kt b → dup_fits mfl (key_width kt) b.
Proof.
  intros [E|E]; [by right|]. left. destruct multi_flags_cases as [[-> _]|(_ & E' & _)]; [done|]. by rewrite E in E'.
Qed.

Lemma good_key_fits k : good_key kt k → fits kt (stored kt k).
Proof. intros Hk. eapply key_fits; [apply Hk|by apply good_stored]. Qed.

(** ** Entries *)

Lemma encode_sequence_be s : encode_sequence s = write_u64_be s.
Proof. done. Qed.

Lemma encode_sequence_length s : length (encode_sequence s) = 8%nat.
Proof. apply write_u64_be_length. Qed.

Lemma entry_lt_bytes a b : is_u64 a.1 → is_u64 b.1 → entry_lt a b → bytes_lt (entry a) (entry b).
Proof.
  intros Ha Hb Hlt. unfold bytes_lt, entry. rewrite separated_same_length by (by rewrite !encode_sequence_length).
  rewrite !encode_sequence_be, write_u64_be_compare by done. by rewrite (proj2 (Z.compare_lt_iff _ _)).
Qed.

Lemma entry_inj a b : is_u64 a.1 → is_u64 b.1 → value_ok a.2 → value_ok b.2 → entry a = entry b → a = b.
Proof.
  intros Ha Hb Hva Hvb E. apply app_inj_1 in E as [E1 E2]; [|by rewrite !encode_sequence_length].
  rewrite !encode_sequence_be in E1. apply (f_equal read_u64_be) in E1.
  assert (∀ s, is_u64 s → read_u64_be (write_u64_be s) = s) as Hr.
  { intros s Hs. rewrite <- (app_nil_r (write_u64_be s)). by apply read_write_u64_be. }
  rewrite !Hr in E1 by done.
  apply (f_equal deserialize_value) in E2. rewrite !value_decodes in E2 by done. injection E2 as E2.
  destruct a, b. cbn in *. by subst.
Qed.

Lemma good_entries_elem l e : good_entries l → e ∈ l → is_u64 e.1 ∧ value_ok e.2.
Proof. intros [H _]. rewrite Forall_forall in H. apply H. Qed.

Lemma entry_lt_trans a b c : entry_lt a b → entry_lt b c → entry_lt a c.
Proof. unfold entry_lt. lia. Qed.

Lemma entries_sorted_bytes l : good_entries l → StronglySorted bytes_lt (entry <$> l).
Proof.
  intros Hg. pose proof (fun e => good_entries_elem l e Hg) as Hok. destruct Hg as [_ Hs].
  induction Hs as [|e l Hs IH He]; [constructor|]. rewrite fmap_cons. constructor.
  - apply IH. intros e' ?. apply Hok. by right.
  - apply Forall_fmap. rewrite Forall_forall in He |- *. intros e' He'. apply entry_lt_bytes; [| |by apply He].
    + apply Hok. left.
    + apply Hok. by right.
Qed.

Lemma good_sublist l l' : sublist l' l → good_entries l → good_entries l'.
Proof.
  intros Hl [Hok Hs]. split.
  - rewrite Forall_forall in Hok |- *. intros e He. apply Hok. by eapply elem_of_sublist.
  - revert Hs. induction Hl as [|e l' l Hl IH|e l' l Hl IH]; intros Hs; [done|..];
      apply StronglySorted_inv in Hs as [Hs He]; [|by apply IH; [apply Forall_inv_tail in Hok|]].
    constructor; [by apply IH; [apply Forall_inv_tail in Hok|]|].
    rewrite Forall_forall in He |- *. intros e' He'. apply He. by eapply elem_of_sublist.
Qed.

Lemma good_snoc l e :
  good_entries l → is_u64 e.1 → value_ok e.2 → Forall (fun e' => entry_lt e' e) l → good_entries (l ++ [e]).
Proof.
  intros [Hok Hs] He Hv Hl. split; [apply Forall_app; split; [done|by apply Forall_singleton]|].
  apply (StronglySorted_app_2 entry_lt); [|done|by repeat constructor].
  intros a b Ha ->%list_elem_of_singleton. rewrite Forall_forall in Hl. by apply Hl.
Qed.

(** ** Lookup *)

Lemma entries_set σ k l k' : entries (set_entries k l σ) k' = if decide (k = k') then l else entries σ k'.
Proof.
  unfold entries, set_entries. destruct (decide (k = k')) as [<-|Hne]; destruct l as [|e l];
    by rewrite ?lookup_delete_eq, ?lookup_insert_eq, ?lookup_delete_ne, ?lookup_insert_ne.
Qed.

Section Holds.
Context (m : gmap bytes bytes) (σ : content) (H : holds_multi m σ).

Lemma entries_good k e : e ∈ entries σ k → good_key kt k ∧ is_u64 e.1 ∧ value_ok e.2.
Proof.
  unfold entries. destruct (σ !! k) as [l|] eqn:E; [|by intros ?%elem_of_nil]. cbn. intros He.
  destruct (hu_good _ _ H k l E) as (Hk & _ & Hl). split; [done|]. by eapply good_entries_elem.
Qed.

Lemma entries_all k : good_entries (entries σ k).
Proof.
  unfold entries. destruct (σ !! k) as [l|] eqn:E; [|by split; constructor]. apply (hu_good _ _ H k l E).
Qed.

Lemma entries_nil k : entries σ k = [] ↔ σ !! k = None.
Proof.
  unfold entries. destruct (σ !! k) as [l|] eqn:E; [|done]. cbn.
  destruct (hu_good _ _ H k l E) as (_ & Hl & _). by split.
Qed.

Lemma item_of_inj p q :
  p.2 ∈ entries σ p.1 → q.2 ∈ entries σ q.1 → item_of p = item_of q → p = q.
Proof.
  destruct p as [k e], q as [k' e']. cbn [fst snd]. intros (Hk & He & Hv)%entries_good (Hk' & He' & Hv')%entries_good.
  intros [E1 E2]%(inj2 (item mfl)). cbn [fst snd] in *. apply stored_inj in E1; [|done..]. apply entry_inj in E2; [|done..].
  by subst.
Qed.

Lemma multi_table : dup_table (mk_dbi mfl m) (key_width kt).
Proof.
  split; [apply multi_keys|]. intros b x (k & e & He & -> & ->)%(hu_recs _ _ H). exists (stored kt k). split; [done|].
  apply multi_fits, good_key_fits. by eapply entries_good.
Qed.

(** The duplicates of a key are its values in the order of their numbers. *)
Lemma holds_values k : good_key kt k → values mfl m (stored kt k) = entry <$> entries σ k.
Proof.
  intros Hk. apply (strictly_sorted_ext bytes_lt).
  - by eapply values_sorted, multi_table.
  - apply entries_sorted_bytes, entries_all.
  - intros x. rewrite (elem_of_values _ _ _ multi_table), (hu_recs _ _ H), list_elem_of_fmap. split.
    + intros (k' & e & He & [Ek Ee]%(inj2 (item mfl)) & ->). cbn [fst snd] in *.
      apply stored_inj in Ek as ->; [by eauto|done|by eapply entries_good].
    + intros (e & -> & He). exists k, e. done.
Qed.

Lemma holds_lookup_item k e : e ∈ entries σ k → m !! item_of (k, e) = Some (entry e).
Proof. intros He. apply (hu_recs _ _ H). eauto. Qed.

(** ** The order of the table *)

Lemma elem_of_flat k e : (k, e) ∈ flat σ ↔ e ∈ entries σ k.
Proof.
  unfold flat, entries. rewrite list_elem_of_bind. split.
  - intros ([k' l] & (e' & [= -> ->] & He)%list_elem_of_fmap & Hl%elem_of_pairs). by rewrite Hl.
  - destruct (σ !! k) as [l|] eqn:E; [|by intros ?%elem_of_nil]. intros He. exists (k, l).
    rewrite elem_of_pairs. split; [|done]. apply list_elem_of_fmap. eauto.
Qed.

Lemma item_lt_key p q : bytes_lt (rank kt p.1) (rank kt q.1) → bytes_lt (item_of p) (item_of q).
Proof.
  unfold bytes_lt, item_of, rank. intros E. by rewrite item_compare, !multi_sort_key, E.
Qed.

Lemma multi_pairs_sorted : StronglySorted (fun p q => bytes_lt (rank kt p.1) (rank kt q.1)) (pairs kt σ).
Proof.
  apply (sorted_strict (rank kt ∘ fst)).
  - apply NoDup_ranks.
    + unfold pairs. rewrite merge_sort_Permutation. apply NoDup_fst_map_to_list.
    + apply Forall_forall. intros [k l] Hp%elem_of_pairs. by apply (hu_good _ _ H k l).
  - apply (Sorted_StronglySorted (pair_le kt)). apply (Sorted_merge_sort (pair_le kt)).
Qed.

Lemma key_entries_sorted k l : good_entries l → StronglySorted (fun p q => bytes_lt (item_of p) (item_of q)) (pair k <$> l).
Proof.
  intros Hg. pose proof (fun e => good_entries_elem l e Hg) as Hok. destruct Hg as [_ Hs].
  induction Hs as [|e l Hs IH He]; [constructor|]. rewrite fmap_cons. constructor.
  - apply IH. intros e' ?. apply Hok. by right.
  - apply Forall_fmap. rewrite Forall_forall in He |- *. intros e' He'. cbn. unfold bytes_lt, item_of. cbn [fst snd].
    rewrite item_compare_value. apply entry_lt_bytes; [| |by apply He]; apply Hok; [left|by right].
Qed.

Lemma flat_sorted : StronglySorted (fun p q => bytes_lt (item_of p) (item_of q)) (flat σ).
Proof.
  assert (∀ p, p ∈ pairs kt σ → good_entries p.2) as Hg.
  { intros [k l] Hp%elem_of_pairs. by apply (hu_good _ _ H k l). }
  pose proof multi_pairs_sorted as Hs. unfold flat. revert Hg.
  induction Hs as [|[k l] ps Hs IH Hp]; intros Hg; [constructor|]. cbn [mbind list_bind].
  apply StronglySorted_app_2; [| |by apply IH; intros q ?; apply Hg; right].
  - intros p q (e & -> & He)%list_elem_of_fmap (q' & (e' & -> & He')%list_elem_of_fmap & Hq')%list_elem_of_bind.
    apply item_lt_key. rewrite Forall_forall in Hp. by apply (Hp q').
  - apply key_entries_sorted. apply (Hg (k, l)). left.
Qed.

Lemma holds_flat : sorted_recs m = rec_of <$> flat σ.
Proof.
  apply strict_sorted_unique; [apply sorted_recs_sorted|..].
  - eapply StronglySorted_map, flat_sorted. done.
  - intros [b x]. rewrite elem_of_sorted_recs, (hu_recs _ _ H), list_elem_of_fmap. split.
    + intros (k & e & He & -> & ->). exists (k, e). by rewrite elem_of_flat.
    + intros ([k e] & [= -> ->] & He%elem_of_flat). by exists k, e.
Qed.

Lemma multi_size : size m = length (flat σ).
Proof.
  rewrite <- (length_fmap rec_of), <- holds_flat. unfold sorted_recs.
  by rewrite merge_sort_Permutation, length_map_to_list.
Qed.

Lemma holds_flat_where P `{∀ b, Decision (P b)} : recs_where m P = rec_of <$> filter (fun p => P (item_of p)) (flat σ).
Proof. unfold recs_where. by rewrite holds_flat, filter_map. Qed.

Lemma flat_good p : p ∈ flat σ → good_key kt p.1 ∧ is_u64 p.2.1 ∧ value_ok p.2.2.
Proof. destruct p as [k e]. intros He%elem_of_flat. by apply entries_good. Qed.
End Holds.

(** ** Updates *)

Lemma in_bucket_item_of k p : good_key kt k → good_key kt p.1 → in_bucket mfl (stored kt k) (item_of p) ↔ k = p.1.
Proof.
  intros Hk Hp. unfold item_of. rewrite in_bucket_item. split; [by apply stored_inj|by intros ->].
Qed.

Lemma map_Forall_set (P : K → list (Z * V) → Prop) k l σ :
  map_Forall P σ → (l ≠ [] → P k l) → map_Forall P (set_entries k l σ).
Proof.
  intros Hσ Hl. destruct l as [|e l]; [by apply map_Forall_delete|]. apply map_Forall_insert_2; [by apply Hl|done].
Qed.

Lemma holds_set m m' σ k l :
  holds_multi m σ → good_key kt k → good_entries l →
  (∀ b x, m' !! b = Some x ↔
    (∃ e, e ∈ l ∧ b = item_of (k, e) ∧ x = entry e) ∨ m !! b = Some x ∧ ¬ in_bucket mfl (stored kt k) b) →
  holds_multi m' (set_entries k l σ).
Proof.
  intros H Hk Hl Hm. split; [apply map_Forall_set; [apply H|done]|]. intros b x. rewrite Hm, (hu_recs _ _ H).
  setoid_rewrite entries_set. split.
  - intros [(e & He & -> & ->)|[(k' & e & He & -> & ->) Hb]].
    + exists k, e. by rewrite decide_True.
    + exists k', e. rewrite decide_False; [done|]. intros <-. apply Hb, in_bucket_item_of; done.
  - intros (k' & e & He & -> & ->). destruct (decide (k = k')) as [<-|Hne]; [left; by eauto|right]. split; [by eauto|].
    rewrite in_bucket_item_of; [done|done|]. by eapply entries_good.
Qed.

Section Updates.
Context (m : gmap bytes bytes) (σ : content) (H : holds_multi m σ).

(** A record of the table is in the bucket of [k] exactly if it is one of its values. *)
Lemma bucket_records k b x :
  good_key kt k → m !! b = Some x → in_bucket mfl (stored kt k) b → ∃ e, e ∈ entries σ k ∧ b = item_of (k, e) ∧ x = entry e.
Proof.
  intros Hk (k' & e & He & -> & ->)%(hu_recs _ _ H) Hb. destruct (entries_good m σ H k' e He) as [Hk' _].
  apply in_bucket_item_of in Hb; [|done..]. cbn in Hb. subst k'. eauto.
Qed.

Lemma holds_add k e :
  good_key kt k → is_u64 e.1 → value_ok e.2 → Forall (fun e' => entry_lt e' e) (entries σ k) →
  holds_multi (<[item_of (k, e) := entry e]> m) (set_entries k (entries σ k ++ [e]) σ).
Proof.
  intros Hk He Hv Hlt. eapply holds_set; [exact H|done|apply good_snoc; [by eapply entries_all|done..]|].
  intros b x. destruct (decide (b = item_of (k, e))) as [->|Hb].
  - rewrite lookup_insert_eq. split.
    + intros [= <-]. left. exists e. set_solver.
    + intros [(e' & He' & E & ->)|[_ []]]; [|by apply in_bucket_item_of].
      apply (inj2 (item mfl)) in E as [_ E]. cbn [snd] in E. by rewrite E.
  - rewrite lookup_insert_ne by done. split.
    + intros Hx. destruct (decide (in_bucket mfl (stored kt k) b)) as [Hin|]; [|by right].
      destruct (bucket_records k b x Hk Hx Hin) as (e' & He' & -> & ->). left. exists e'. set_solver.
    + intros [(e' & He' & -> & ->)|[? _]]; [|done]. apply elem_of_app in He' as [He'|He']; [|apply list_elem_of_singleton in He' as ->; done].
      by apply (holds_lookup_item m σ H).
Qed.

Lemma holds_remove k l1 e l2 :
  good_key kt k → entries σ k = l1 ++ e :: l2 →
  holds_multi (delete (item_of (k, e)) m) (set_entries k (l1 ++ l2) σ).
Proof.
  intros Hk E. pose proof (entries_all m σ H k) as Hg. rewrite E in Hg.
  assert (∀ e', e' ∈ l1 ++ l2 → e' ∈ entries σ k ∧ item_of (k, e') ≠ item_of (k, e)) as Hne.
  { intros e' He'. assert (e' ∈ entries σ k) as Hin by (rewrite E; set_solver). split; [done|]. intros Ei.
    apply (item_of_inj m σ H) in Ei; cbn [fst snd]; [|done|rewrite E; set_solver]. injection Ei as ->.
    pose proof (strictly_sorted_NoDup bytes_lt _ (entries_sorted_bytes _ Hg)) as Hnd%NoDup_fmap_1.
    apply NoDup_app in Hnd as (_ & Hd & [Hd' _]%NoDup_cons). set_solver. }
  eapply holds_set; [exact H|done|eapply good_sublist; [|exact Hg]; apply sublist_app; [done|by constructor]|].
  intros b x. rewrite lookup_delete_Some. split.
  - intros [Hb Hx]. destruct (decide (in_bucket mfl (stored kt k) b)) as [Hin|]; [|by right].
    destruct (bucket_records k b x Hk Hx Hin) as (e' & He' & -> & ->). left. exists e'.
    rewrite E in He'. split; [|done]. assert (e' ≠ e) by congruence. set_solver.
  - intros [(e' & (He' & Hn)%Hne & -> & ->)|[Hx Hb]].
    + split; [done|]. by apply (holds_lookup_item m σ H).
    + split; [|done]. intros <-. by apply Hb, in_bucket_item_of.
Qed.

Lemma holds_erase_key k :
  good_key kt k → holds_multi (filter (fun p => ¬ in_bucket mfl (stored kt k) p.1) m) (set_entries k [] σ).
Proof.
  intros Hk. eapply holds_set; [exact H|done|by split; constructor|]. intros b x. rewrite map_lookup_filter_Some. cbn [fst].
  split; [by right|]. intros [(e & ?%elem_of_nil & _)|]; done.
Qed.
End Updates.

Lemma holds_multi_empty : holds_multi ∅ ∅.
Proof.
  split; [apply map_Forall_empty|]. intros b x. rewrite lookup_empty. split; [done|].
  intros (k & e & He & _). unfold entries in He. rewrite lookup_empty in He. by apply elem_of_nil in He.
Qed.

(** Contents with the same values under each key are equal. *)
Lemma content_ext m m' σ σ' : holds_multi m σ → holds_multi m' σ' → (∀ k, entries σ k = entries σ' k) → σ = σ'.
Proof.
  intros H H' He. apply map_eq. intros k. specialize (He k). unfold entries in He.
  destruct (σ !! k) as [l|] eqn:E, (σ' !! k) as [l'|] eqn:E'; cbn in He; [by subst| | |done].
  - destruct (hu_good _ _ H k l E) as (_ & [] & _). done.
  - destruct (hu_good _ _ H' k l' E') as (_ & [] & _). done.
Qed.
End Content.
