(* ===== verification/MultiBase.v ===== *)
(** * Tables with several values per key: what both classes share

    [KeyMultiValueTable] and [KeyOrderedMultiValueTable] have the same methods up to the texts
    of their errors; a definition of this file takes the texts as arguments, and
    [MultiTable] and [OrderedTable] supply those of each class.  The methods run in a
    transaction.  They are modelled as compiled without [MDBXC_SYNC_ENABLED]: with it they
    also report what they did to a logical capture, if one is attached. *)
From S2P Require Import Prelude SyncCommon KeyCodec ValueCodec Mdbx DupSort DupRules TableBase KvTable MultiContent.
Open Scope Z_scope.

Section Code.
Context {X : Mdbx} {D : MdbxDup X} (kt : key_type) {V : Type} `{!TableValue V}.
Context (corrupted : string) (fuel : nat) (limit : Z) (t : table_obj).
Abbreviation K := (key_val kt).
Abbreviation value_type := (K * V)%type.

(** ** Stored values *)

Definition decode_prefix (stored : bytes) : result Z :=
  if size_of stored <? 8 then Throw (runtime_error corrupted)
  else Ok (foldl (fun sequence i => Z.lor (Z.shiftl sequence 8 mod 2 ^ 64) (at_byte stored i)) 0 (seq 0 8)).

Definition strip_prefix (stored : bytes) : result bytes :=
  if size_of stored <? 8 then Throw (runtime_error corrupted) else Ok (drop 8 stored).

Definition stored_form (sequence : Z) (value : V) : bytes := encode_sequence sequence ++ serialize_value value.

Definition value_matches (stored raw_value : bytes) : result bool :=
  stored_raw ← strip_prefix stored;
  Ok (if negb (size_of stored_raw =? size_of raw_value) then false
      else if size_of stored_raw =? 0 then true
      else bool_decide (stored_raw = raw_value)).

Definition decode_value (stored : bytes) : result V := raw ← strip_prefix stored; deserialize_value raw.

Definition decode_record (k x : bytes) : result value_type :=
  key ← deserialize_key kt k;
  value ← decode_value x;
  Ok (key, value).

(** ** Single keys *)

(** A cursor, and then the stored form of the key. *)
Definition with_cursor_at {A} (key : K) (f : cursor → bytes → M A) : M A :=
  c ← open_cursor (t_dbi t);
  db_key ← lift (serialize_key kt key);
  f c db_key.

Definition next_number (last_context exhausted : string) (key : K) : M Z :=
  with_cursor_at key (fun c db_key =>
    '(rc, _, _, c) ← cursor_get_dup c MDBX_SET_KEY db_key;
    if rc =? MDBX_NOTFOUND then mret 0
    else
      _ ← check_mdbx rc "Failed to seek key";
      '(rc, _, db_val, _) ← cursor_get_dup c MDBX_LAST_DUP [];
      _ ← check_mdbx rc last_context;
      last ← lift (decode_prefix db_val);
      if last =? 2 ^ 64 - 1 then fail (overflow_error exhausted)
      else mret (last + 1)).

Definition insert_value (last_context exhausted context : string) (key : K) (value : V) : M unit :=
  sequence ← next_number last_context exhausted key;
  db_key ← lift (serialize_key kt key);
  let db_val := stored_form sequence value in
  _ ← lift (check_dupsort_value_size limit db_val);
  rc ← put (t_dbi t) db_key db_val MDBX_UPSERT;
  check_mdbx rc context.

Fixpoint insert_all (insert : K → V → M unit) (container : list value_type) : M unit :=
  match container with
  | [] => mret tt
  | (key, value) :: rest => _ ← insert key value; insert_all insert rest
  end.

Definition find_values (context : string) (key : K) : M (list V) :=
  with_cursor_at key (fun c db_key =>
    walk_key (fun values c db_val => value ← lift (decode_value db_val); mret (values ++ [value], c, true))
      context fuel c db_key "Failed to seek key" []).

Definition contains_key (context : string) (key : K) : M bool :=
  db_key ← lift (serialize_key kt key);
  '(rc, _) ← get (t_dbi t) db_key;
  if rc =? MDBX_SUCCESS then mret true
  else if rc =? MDBX_NOTFOUND then mret false
  else _ ← check_mdbx rc context; mret false.

Definition count_all (context : string) : M Z :=
  '(rc, entries) ← get_stat (t_dbi t);
  _ ← check_mdbx rc context;
  mret entries.

Definition count_values (context : string) (key : K) : M Z :=
  with_cursor_at key (fun c db_key =>
    '(rc, _, _, c) ← cursor_get_dup c MDBX_SET_KEY db_key;
    if rc =? MDBX_NOTFOUND then mret 0
    else
      _ ← check_mdbx rc "Failed to seek key";
      '(rc, found) ← cursor_count c;
      _ ← check_mdbx rc context;
      mret found).

Definition count_matching (context : string) (key : K) (value : V) : M Z :=
  with_cursor_at key (fun c db_key =>
    let raw_value := serialize_value value in
    walk_key (fun found c db_val =>
        matches ← lift (value_matches db_val raw_value);
        mret (if matches : bool then (found + 1) mod 2 ^ 64 else found, c, true))
      context fuel c db_key "Failed to seek key" 0).

Definition erase_values (context : string) (key : K) : M bool :=
  db_key ← lift (serialize_key kt key);
  rc ← del (t_dbi t) db_key;
  if rc =? MDBX_SUCCESS then mret true
  else if rc =? MDBX_NOTFOUND then mret false
  else _ ← check_mdbx rc context; mret false.

Definition delete_here (c : cursor) (context : string) : M cursor :=
  '(rc, c) ← cursor_del c;
  _ ← check_mdbx rc context;
  mret c.

Definition erase_matching (del_context context : string) (key : K) (value : V) : M Z :=
  with_cursor_at key (fun c db_key =>
    let raw_value := serialize_value value in
    walk_key (fun removed c db_val =>
        matches ← lift (value_matches db_val raw_value);
        if matches : bool then
          c ← delete_here c del_context;
          mret ((removed + 1) mod 2 ^ 64, c, true)
        else mret (removed, c, true))
      context fuel c db_key "Failed to seek key" 0).

Definition erase_first_matching (del_context context : string) (key : K) (value : V) : M bool :=
  with_cursor_at key (fun c db_key =>
    let raw_value := serialize_value value in
    walk_key (fun _ c db_val =>
        matches ← lift (value_matches db_val raw_value);
        if matches : bool then
          c ← delete_here c del_context;
          mret (true, c, false)
        else mret (false, c, true))
      context fuel c db_key "Failed to seek key" false).

Definition erase_index (del_context context : string) (key : K) (index : Z) : M bool :=
  with_cursor_at key (fun c db_key =>
    '(_, removed) ← walk_key (fun '(current, _) c _ =>
        if current =? index then
          c ← delete_here c del_context;
          mret ((current, true), c, false)
        else mret (((current + 1) mod 2 ^ 64, false), c, true))
      context fuel c db_key "Failed to seek key" (0, false);
    mret removed).

Definition clear_values (context : string) : M unit :=
  rc ← drop_table (t_dbi t);
  check_mdbx rc context.

(** ** Walks over the table *)

Definition collect_record (out : list value_type) (k x : bytes) : result (list value_type * bool) :=
  p ← decode_record k x; Ok (out ++ [p], true).

Definition load_records (context : string) (out : list value_type) : M (list value_type) :=
  scan fuel (t_dbi t) MDBX_NEXT [] collect_record "Failed to open MDBX cursor" context out.

Definition range_records (context : string) (from_key to_key : K) : M (list value_type) :=
  with_range kt t from_key to_key [] (fun c lo hi =>
    range_loop collect_record context (t_dbi t) hi fuel c MDBX_SET_RANGE lo []).
End Code.
