(* ===== verification/MultiTable.v ===== *)
(** * KeyMultiValueTable

    Models the class [KeyMultiValueTable] of
    [src/include/mdbx_containers/KeyMultiValueTable.hpp]: its [db_] methods, from those of
    [MultiBase] and, for ranges, bounds and [reconcile], from its own code. *)
From S2P Require Import Prelude SyncCommon KeyCodec ValueCodec Mdbx DupSort DupRules TableBase KvTable MultiContent MultiBase.
Open Scope Z_scope.

Section Code.
Context {X : Mdbx} {D : MdbxDup X} (kt : key_type) {V : Type} `{!TableValue V}.
Context (fuel : nat) (limit : Z) (t : table_obj).
Abbreviation K := (key_val kt).
Abbreviation value_type := (K * V)%type.

Definition corrupted : string := "Corrupted multi-value record".

Definition decode_sequence : bytes → result Z := decode_prefix corrupted.
Definition strip_sequence : bytes → result bytes := strip_prefix corrupted.
Definition make_stored_value (sequence : Z) (value : V) : bytes := stored_form sequence value.
Definition stored_value_matches : bytes → bytes → result bool := value_matches corrupted.

Definition next_sequence (key : K) : M Z :=
  next_number kt corrupted t "Failed to seek last value" "Per-key multi-value sequence exhausted" key.

Definition db_insert (key : K) (value : V) : M unit :=
  insert_value kt corrupted limit t "Failed to seek last value" "Per-key multi-value sequence exhausted"
    "Failed to insert multi-value record" key value.

Definition db_append (container : list value_type) : M unit := insert_all kt db_insert container.

Definition db_find (key : K) : M (list V) := find_values kt corrupted fuel t "Failed to read duplicate values" key.
Definition db_contains_key (key : K) : M bool := contains_key kt t "Failed to check key presence" key.
Definition db_count : M Z := count_all t "Failed to query database statistics".
Definition db_count_key (key : K) : M Z := count_values kt t "Failed to count duplicate values" key.
Definition db_count_pair (key : K) (value : V) : M Z :=
  count_matching kt corrupted fuel t "Failed to scan duplicate values" key value.
Definition db_contains_pair (key : K) (value : V) : M bool := n ← db_count_pair key value; mret (n >? 0).
Definition db_erase_key (key : K) : M bool := erase_values kt t "Failed to erase key" key.
Definition db_erase_pair (key : K) (value : V) : M Z :=
  erase_matching kt corrupted fuel t "Failed to erase duplicate value" "Failed to scan duplicate values" key value.
Definition db_erase_one_pair (key : K) (value : V) : M bool :=
  erase_first_matching kt corrupted fuel t "Failed to erase duplicate value" "Failed to scan duplicate values" key value.
Definition db_clear : M unit := clear_values t "Failed to clear table".

Definition db_load (out : list value_type) : M (list value_type) :=
  load_records kt corrupted fuel t "Failed to read multi-value table" out.

(** ** Ranges *)

Definition db_range (from_key to_key : K) : M (list value_type) :=
  range_records kt corrupted fuel t "Failed to read multi-value key range" from_key to_key.

Definition db_range_values (from_key to_key : K) : M (list V) :=
  with_range kt t from_key to_key [] (fun c lo hi =>
    range_loop (fun values _ x => value ← decode_value corrupted x; Ok (values ++ [value], true))
      "Failed to read multi-value key range values" (t_dbi t) hi fuel c MDBX_SET_RANGE lo []).

Definition db_for_each_range {S} (callback : S → K → V → result (S * bool)) (from_key to_key : K) (st : S)
    : M (S * bool) :=
  with_range kt t from_key to_key (st, true) (fun c lo hi =>
    range_loop (fun acc k x =>
        '(key, value) ← decode_record kt corrupted k x;
        '(st, more) ← callback acc.1 key value;
        Ok ((st, more), more))
      "Failed to iterate multi-value range" (t_dbi t) hi fuel c MDBX_SET_RANGE lo (st, true)).

Definition found_record (k x : bytes) : M (option value_type) :=
  p ← lift (decode_record kt corrupted k x); mret (Some p).

Definition db_lower_bound (key : K) : M (option value_type) :=
  db_key ← lift (serialize_key kt key);
  c ← open_cursor (t_dbi t);
  '(rc, k, x, _) ← cursor_get c MDBX_SET_RANGE db_key;
  if rc =? MDBX_NOTFOUND then mret None
  else _ ← check_mdbx rc "Failed to seek lower bound"; found_record k x.

Definition db_upper_bound (key : K) : M (option value_type) :=
  db_key_exact ← lift (serialize_key kt key);
  c ← open_cursor (t_dbi t);
  '(rc, k, x, c) ← cursor_get c MDBX_SET_RANGE db_key_exact;
  if rc =? MDBX_NOTFOUND then mret None
  else
    _ ← check_mdbx rc "Failed to seek upper bound";
    o ← cmp (t_dbi t) k db_key_exact;
    if o =? 0 then
      '(rc, k, x, _) ← cursor_get_dup c MDBX_NEXT_NODUP [];
      if rc =? MDBX_NOTFOUND then mret None
      else _ ← check_mdbx rc "Failed to seek next distinct key for upper bound"; found_record k x
    else found_record k x.

Definition db_first : M (option value_type) :=
  at_end t (fun c => cursor_get c MDBX_FIRST []) "Failed to seek first pair" (decode_record kt corrupted).
Definition db_last : M (option value_type) :=
  at_end t (fun c => cursor_get_back c MDBX_LAST) "Failed to seek last pair" (decode_record kt corrupted).
Definition db_min_key : M (option K) :=
  at_end t (fun c => cursor_get c MDBX_FIRST []) "Failed to seek minimum key" (fun k _ => deserialize_key kt k).
Definition db_max_key : M (option K) :=
  at_end t (fun c => cursor_get_back c MDBX_LAST) "Failed to seek maximum key" (fun k _ => deserialize_key kt k).

(** The loop of [db_range_reverse]; without [limit] the walk goes on to the lower bound. *)
Fixpoint reverse_records (n : nat) (lo : bytes) (max : option Z) (at_ : Z * bytes * bytes * cursor)
    (out : list value_type) : M (list value_type) :=
  match n with
  | O => fail out_of_fuel
  | S n =>
      let '(rc, k, x, c) := at_ in
      if rc =? MDBX_SUCCESS then
        o ← cmp (t_dbi t) k lo;
        if o <? 0 then mret out
        else
          p ← lift (decode_record kt corrupted k x);
          let out := out ++ [p] in
          if match max with Some l => size_of out >=? l | None => false end then mret out
          else
            next ← cursor_get_back c MDBX_PREV;
            reverse_records n lo max next out
      else if rc =? MDBX_NOTFOUND then mret out
      else _ ← check_mdbx rc "Failed to iterate reverse multi-value range"; mret out
  end.

(** Where the walk starts: the last pair whose key is not above the upper bound. *)
Definition reverse_start (c : cursor) (hi : bytes) : M (Z * bytes * bytes * cursor) :=
  '(rc, k, x, c) ← cursor_get c MDBX_SET_RANGE hi;
  if rc =? MDBX_NOTFOUND then cursor_get_back c MDBX_LAST
  else if rc =? MDBX_SUCCESS then
    o ← cmp (t_dbi t) k hi;
    if o >? 0 then cursor_get_back c MDBX_PREV
    else
      o ← cmp (t_dbi t) k hi;
      if o =? 0 then
        '(rc, k, x, c) ← cursor_get_dup c MDBX_LAST_DUP [];
        if rc =? MDBX_NOTFOUND then cursor_get_back c MDBX_PREV else mret (rc, k, x, c)
      else mret (rc, k, x, c)
  else mret (rc, k, x, c).

Definition reverse_range (max : option Z) (c : cursor) (lo hi : bytes) : M (list value_type) :=
  '(rc, k, x, c) ← reverse_start c hi;
  if rc =? MDBX_NOTFOUND then mret []
  else
    _ ← check_mdbx rc "Failed to seek reverse range start";
    reverse_records fuel lo max (rc, k, x, c) [].

Definition db_range_reverse (from_key to_key : K) : M (list value_type) :=
  with_range kt t from_key to_key [] (reverse_range None).

Definition db_range_reverse_limit (from_key to_key : K) (max : Z) : M (list value_type) :=
  if max =? 0 then mret []
  else with_range kt t from_key to_key [] (reverse_range (Some max)).

Definition db_contains_range (from_key to_key : K) : M bool :=
  with_range kt t from_key to_key false (fun c lo hi =>
    '(rc, k, _, _) ← cursor_get c MDBX_SET_RANGE lo;
    if rc =? MDBX_NOTFOUND then mret false
    else
      _ ← check_mdbx rc "Failed to seek range for contains";
      o ← cmp (t_dbi t) k hi;
      mret (o <=? 0)).

Definition db_count_range (from_key to_key : K) : M Z :=
  with_range kt t from_key to_key 0 (fun c lo hi =>
    range_loop (fun count _ _ => Ok ((count + 1) mod 2 ^ 64, true))
      "Failed to count multi-value range" (t_dbi t) hi fuel c MDBX_SET_RANGE lo 0).

Fixpoint erase_records (n : nat) (hi : bytes) (c : cursor) (op : cursor_op) (key : bytes) (removed : Z) : M Z :=
  match n with
  | O => fail out_of_fuel
  | S n =>
      '(rc, k, _, c) ← cursor_get c op key;
      if rc =? MDBX_SUCCESS then
        o ← cmp (t_dbi t) k hi;
        if o >? 0 then mret removed
        else
          c ← delete_here c "Failed to erase pair in range";
          erase_records n hi c MDBX_NEXT [] ((removed + 1) mod 2 ^ 64)
      else if rc =? MDBX_NOTFOUND then mret removed
      else _ ← check_mdbx rc "Failed to erase multi-value range"; mret removed
  end.

Definition db_erase_range (from_key to_key : K) : M Z :=
  with_range kt t from_key to_key 0 (fun c lo hi => erase_records fuel hi c MDBX_SET_RANGE lo 0).

(** ** Reconciliation *)

(** A pair as it is stored; [PairCountMap] counts them. *)
Definition SerializedPairKey : Type := (bytes * bytes)%type.
Definition PairCountMap : Type := gmap SerializedPairKey Z.

(** [m[s]], which a missing entry makes 0, and [++m[s]]. *)
Definition count_of (m : PairCountMap) (s : SerializedPairKey) : Z := default 0 (m !! s).
Definition count_up (m : PairCountMap) (s : SerializedPairKey) : PairCountMap :=
  <[s := (count_of m s + 1) mod 2 ^ 64]> m.

Definition make_serialized_pair_key (key : K) (value : V) : result SerializedPairKey :=
  db_key ← serialize_key kt key; Ok (db_key, serialize_value value).
Definition stored_pair_key (db_key db_value : bytes) : result SerializedPairKey :=
  raw ← strip_sequence db_value; Ok (db_key, raw).

Fixpoint collect_reconcile_entries (container : list value_type) (desired : PairCountMap)
    : result (list (value_type * SerializedPairKey) * PairCountMap) :=
  match container with
  | [] => Ok ([], desired)
  | (key, value) :: rest =>
      serialized ← make_serialized_pair_key key value;
      '(entries, desired) ← collect_reconcile_entries rest (count_up desired serialized);
      Ok (((key, value), serialized) :: entries, desired)
  end.

(** [desired.find(s) != end && kept[s] < desired[s]]. *)
Definition still_wanted (desired kept : PairCountMap) (s : SerializedPairKey) : bool :=
  match desired !! s with Some n => count_of kept s <? n | None => false end.

(** The walk over the table, which erases what is not wanted (any more). *)
Fixpoint erase_surplus (n : nat) (desired : PairCountMap) (c : cursor) (kept : PairCountMap) : M PairCountMap :=
  match n with
  | O => fail out_of_fuel
  | S n =>
      '(rc, db_key, db_val, c) ← cursor_get c MDBX_NEXT [];
      if rc =? MDBX_SUCCESS then
        serialized ← lift (stored_pair_key db_key db_val);
        if still_wanted desired kept serialized then erase_surplus n desired c (count_up kept serialized)
        else
          _ ← lift (decode_record kt corrupted db_key db_val);
          c ← delete_here c "Failed to erase surplus record";
          erase_surplus n desired c kept
      else if rc =? MDBX_NOTFOUND then mret kept
      else _ ← check_mdbx rc "Failed to scan multi-value table"; mret kept
  end.

Fixpoint insert_missing (entries : list (value_type * SerializedPairKey)) (desired kept inserted : PairCountMap) : M unit :=
  match entries with
  | [] => mret tt
  | ((key, value), serialized) :: rest =>
      let have := (count_of kept serialized + count_of inserted serialized) mod 2 ^ 64 in
      if have <? count_of desired serialized then
        _ ← db_insert key value;
        insert_missing rest desired kept (count_up inserted serialized)
      else insert_missing rest desired kept inserted
  end.

Definition db_reconcile (container : list value_type) : M unit :=
  '(entries, desired) ← lift (collect_reconcile_entries container ∅);
  c ← open_cursor (t_dbi t);
  kept ← erase_surplus fuel desired c ∅;
  insert_missing entries desired kept ∅.
End Code.
