(* ===== verification/OrderedTable.v ===== *)
(** * KeyOrderedMultiValueTable

    Models the class [KeyOrderedMultiValueTable] of
    [src/include/mdbx_containers/KeyOrderedMultiValueTable.hpp]: its [db_] methods and
    [replace_with], from those of [MultiBase]. *)
From S2P Require Import Prelude SyncCommon KeyCodec ValueCodec Mdbx DupSort DupRules TableBase KvTable MultiContent MultiBase.
Open Scope Z_scope.

Section Code.
Context {X : Mdbx} {D : MdbxDup X} (kt : key_type) {V : Type} `{!TableValue V}.
Context (fuel : nat) (limit : Z) (t : table_obj).
Abbreviation K := (key_val kt).
Abbreviation value_type := (K * V)%type.

Definition corrupted : string := "Corrupted ordered multi-value record".

Definition encode_order (order : Z) : bytes := encode_sequence order.
Definition decode_order : bytes → result Z := decode_prefix corrupted.
Definition strip_order : bytes → result bytes := strip_prefix corrupted.
Definition make_stored_value (order : Z) (value : V) : bytes := stored_form order value.
Definition stored_value_matches : bytes → bytes → result bool := value_matches corrupted.

Definition next_order (key : K) : M Z :=
  next_number kt corrupted t "Failed to seek last ordered value" "Per-key ordered multi-value sequence exhausted" key.

Definition db_append_one (key : K) (value : V) : M unit :=
  insert_value kt corrupted limit t "Failed to seek last ordered value" "Per-key ordered multi-value sequence exhausted"
    "Failed to append ordered multi-value record" key value.

Definition db_append (container : list value_type) : M unit := insert_all kt db_append_one container.

Definition db_find (key : K) : M (list V) :=
  find_values kt corrupted fuel t "Failed to read ordered duplicate values" key.
Definition db_contains_key (key : K) : M bool :=
  contains_key kt t "Failed to check ordered multi-value key presence" key.
Definition db_count : M Z := count_all t "Failed to query ordered multi-value table statistics".
Definition db_count_key (key : K) : M Z := count_values kt t "Failed to count ordered duplicate values" key.
Definition db_count_pair (key : K) (value : V) : M Z :=
  count_matching kt corrupted fuel t "Failed to scan ordered duplicate values" key value.
(** [contains(key, value)]. *)
Definition contains_pair (key : K) (value : V) : M bool := n ← db_count_pair key value; mret (n >? 0).
Definition db_erase_key (key : K) : M bool := erase_values kt t "Failed to erase ordered multi-value key" key.
Definition db_erase_pair (key : K) (value : V) : M Z :=
  erase_matching kt corrupted fuel t "Failed to erase ordered duplicate value" "Failed to scan ordered duplicate values" key value.
Definition db_erase_at (key : K) (index : Z) : M bool :=
  erase_index kt fuel t "Failed to erase ordered duplicate by index" "Failed to scan ordered duplicate values" key index.
Definition db_clear : M unit := clear_values t "Failed to clear ordered multi-value table".

Definition db_load (out : list value_type) : M (list value_type) :=
  load_records kt corrupted fuel t "Failed to read ordered multi-value table" out.
Definition db_range (from_key to_key : K) : M (list value_type) :=
  range_records kt corrupted fuel t "Failed to read ordered multi-value key range" from_key to_key.

Definition replace_with (container : list value_type) : M unit :=
  _ ← db_clear;
  db_append container.
End Code.
