(* ===== verification/MultiRules.v ===== *)
(** * Tables with several values per key: single keys

    What the methods of [MultiBase] for one key do to the content, as functions of the
    content before, and that they do it. *)
From S2P Require Import Prelude SyncCommon KeyCodec ValueCodec Mdbx DupSort DupRules Clients StoreBase TableBase KvTable.
From S2P Require Import MultiContent MultiBase.
Open Scope Z_scope.

(** ** Specification *)

Section Spec.
Context (kt : key_type) {V : Type} `{!TableValue V}.
Abbreviation K := (key_val kt).
Abbreviation content := (gmap K (list (Z * V))).

(** A method that needs the stored form of a key fails as its serialization does. *)
Definition at_key {A} (k : K) (f : K → content → result A * content) (σ : content) : result A * content :=
  match serialize_key kt k with Ok _ => f (key_canonical kt k) σ | Throw e => (Throw e, σ) end.
Definition look_at {A} (k : K) (f : list (Z * V) → A) (σ : content) : result A :=
  with_key kt k (f (entries kt σ (key_canonical kt k))).

Definition same_value (x : V) (e : Z * V) : bool := bool_decide (serialize_value e.2 = serialize_value x).

(** The number of the next value, if there is one. *)
Definition next_of (l : list (Z * V)) : option Z :=
  match last l with
  | None => Some 0
  | Some e => if e.1 =? 2 ^ 64 - 1 then None else Some (e.1 + 1)
  end.

(** The value becomes the last one of its key. *)
Definition add_value (limit : Z) (exhausted : string) (k : K) (x : V) : content → result unit * content :=
  at_key k (fun k σ =>
    match next_of (entries kt σ k) with
    | None => (Throw (overflow_error exhausted), σ)
    | Some s =>
        match check_dupsort_value_size limit (stored_form s x) with
        | Throw e => (Throw e, σ)
        | Ok _ => (Ok tt, set_entries kt k (entries kt σ k ++ [(s, x)]) σ)
        end
    end).

Fixpoint add_values (limit : Z) (exhausted : string) (l : list (K * V)) (σ : content) : result unit * content :=
  match l with
  | [] => (Ok tt, σ)
  | (k, x) :: rest =>
      match add_value limit exhausted k x σ with
      | (Ok _, σ') => add_values limit exhausted rest σ'
      | (Throw e, σ') => (Throw e, σ')
      end
  end.

Definition counted (l : list (Z * V)) : Z := Z.of_nat (length l) mod 2 ^ 64.

Definition remove_key (k : K) : content → result bool * content :=
  at_key k (fun k σ => (Ok (bool_decide (entries kt σ k ≠ [])), set_entries kt k [] σ)).

Definition remove_value (k : K) (x : V) : content → result Z * content :=
  at_key k (fun k σ =>
    (Ok (counted (filter (fun e => same_value x e) (entries kt σ k))),
     set_entries kt k (filter (fun e => negb (same_value x e)) (entries kt σ k)) σ)).

Fixpoint without_first (P : Z * V → bool) (l : list (Z * V)) : list (Z * V) :=
  match l with [] => [] | e :: l => if P e then l else e :: without_first P l end.

Definition remove_first (k : K) (x : V) : content → result bool * content :=
  at_key k (fun k σ =>
    (Ok (existsb (same_value x) (entries kt σ k)),
     set_entries kt k (without_first (same_value x) (entries kt σ k)) σ)).

Definition remove_at (k : K) (index : Z) : content → result bool * content :=
  at_key k (fun k σ =>
    (Ok (index <? size_of (entries kt σ k)),
     set_entries kt k (delete (Z.to_nat index) (entries kt σ k)) σ)).

Definition shown (p : K * (Z * V)) : K * V := (p.1, p.2.2).
Definition listed (σ : content) : list (K * V) := shown <$> flat kt σ.
End Spec.

(** ** Stored values *)

Section Values.
Context (kt : key_type) {V : Type} `{!TableValue V} (corrupted : string).

Lemma entry_length (e : Z * V) : (size_of (entry e) <? 8) = false.
Proof. unfold size_of, entry. rewrite length_app, encode_sequence_length. apply Z.ltb_ge. lia. Qed.

Lemma strip_entry (e : Z * V) : strip_prefix corrupted (entry e) = Ok (serialize_value e.2).
Proof.
  unfold strip_prefix. rewrite entry_length. unfold entry. by rewrite drop_app_length' by (by rewrite encode_sequence_length).
Qed.

Lemma decode_prefix_read x : (size_of x <? 8) = false → decode_prefix corrupted x = Ok (read_u64_be x).
Proof. intros E. unfold decode_prefix, read_u64_be. rewrite E. reflexivity. Qed.

Lemma decode_prefix_entry (e : Z * V) : is_u64 e.1 → decode_prefix corrupted (entry e) = Ok e.1.
Proof.
  intros He. rewrite decode_prefix_read by apply entry_length. f_equal. unfold entry. rewrite encode_sequence_be.
  by apply read_write_u64_be.
Qed.

Lemma matches_entry (e : Z * V) x :
  value_matches corrupted (entry e) (serialize_value x) = Ok (same_value x e).
Proof.
  unfold value_matches, same_value. rewrite strip_entry. cbn [mbind result_bind]. f_equal.
  destruct (Z.eqb_spec (size_of (serialize_value e.2)) (size_of (serialize_value x))) as [E|E]; cbn [negb].
  - destruct (Z.eqb_spec (size_of (serialize_value e.2)) 0) as [E0|E0]; [|done].
    unfold size_of in *. assert (length (serialize_value e.2) = 0)%nat as ->%length_zero_iff_nil by lia.
    assert (length (serialize_value x) = 0)%nat as ->%length_zero_iff_nil by lia. done.
  - symmetry. apply bool_decide_eq_false. intros E'. by rewrite E' in E.
Qed.

Lemma decode_value_entry (e : Z * V) : value_ok e.2 → decode_value corrupted (entry e) = Ok e.2.
Proof. intros He. unfold decode_value. rewrite strip_entry. cbn [mbind result_bind]. by apply value_decodes. Qed.
End Values.

(** ** Rules *)

Section Rules.
Context {X : Mdbx} {D : MdbxDup X} {L : MdbxLaws X} {DL : MdbxDupLaws X D L}.
Context (kt : key_type) {V : Type} `{!TableValue V} (corrupted : string) (fuel : nat) (limit : Z) (t : table_obj).
Abbreviation K := (key_val kt).
Abbreviation content := (gmap K (list (Z * V))).
Abbreviation mfl := (multi_flags kt).

(** The table holds [σ], with room for [n] more values. *)
Record multi_rep (v : db_view) (n : nat) (σ : content) : Prop := {
  mr_bound : bound v (t_dbi t) (t_name t) mfl;
  mr_rw : v_rw v = true;
  mr_holds : holds_multi kt (recs v (t_name t)) σ;
  mr_fuel : (size (recs v (t_name t)) + n < fuel)%nat;
}.

Abbreviation kept := (v_only (t_name t)).

Lemma multi_rep_mono v n n' σ : (n' ≤ n)%nat → multi_rep v n σ → multi_rep v n' σ.
Proof. intros Hn [Hb Hrw Hm Hf]. split; [done..|lia]. Qed.

Lemma multi_bound v n σ : multi_rep v n σ → dup_bound v (t_dbi t) (t_name t) mfl (key_width kt).
Proof. intros [Hb _ Hm _]. split; [done|]. by eapply multi_table. Qed.

(** A change of the records keeps the rest. *)
Lemma multi_rep_update v n n' σ σ' f :
  multi_rep v n σ → holds_multi kt (f (recs v (t_name t))) σ' → (size (f (recs v (t_name t))) + n' < fuel)%nat →
  multi_rep (v_update v (t_name t) f) n' σ'.
Proof.
  intros [Hb Hrw Hm Hf] Hm' Hf'. assert (recs (v_update v (t_name t) f) (t_name t) = f (recs v (t_name t))) as E.
  { apply recs_updated. by eapply bound_is_Some. }
  split; [by apply bound_update|done|by rewrite E|by rewrite E].
Qed.

(** A relation that has the outcome of a function. *)
Lemma refines_does {A} cost (m : M A) (f : content → result A * content) :
  (∀ v n σ, multi_rep v (cost + n) σ → wp m (fun r v' => r = (f σ).1 ∧ multi_rep v' n (f σ).2 ∧ kept v v') v) →
  refines multi_rep kept cost m (does f).
Proof.
  intros H v n σ Hr. eapply wp_mono; [by apply H|]. intros r v' (-> & Hr' & Hk). exists (f σ).2.
  split; [apply surjective_pairing|done].
Qed.

Lemma refines_look {A} (m : M A) (f : content → result A) :
  (∀ v n σ Q, multi_rep v n σ → Q (f σ) v → wp m Q v) → refines multi_rep kept 0 m (does (fun σ => (f σ, σ))).
Proof. intros H. apply refines_does. intros v n σ Hr. by eapply H. Qed.

Section At.
Context (v : db_view) (n : nat) (σ : content) (Hr : multi_rep v n σ).

Lemma wp_cursor_at {A} k (f : cursor → bytes → M A) Q :
  key_ok kt k → (∀ e, serialize_key kt k = Throw e → Q (Throw e) v) →
  (∀ c b, serialize_key kt k = Ok b → cursor_dbi c = t_dbi t → cursor_item c = None →
     stored kt (key_canonical kt k) = b → good_key kt (key_canonical kt k) → wp (f c b) Q v) →
  wp (with_cursor_at kt t k f) Q v.
Proof.
  intros Hk HE HQ. unfold with_cursor_at, open_cursor. apply wp_bind.
  eapply wp_dup_open; [by eapply multi_bound|]. intros c Hc Hi. apply wp_ret.
  apply (wp_with_key kt); [done|intros b Eb|done]. apply HQ; [done|done|done|by apply stored_canonical|by eapply good_canonical].
Qed.

Lemma key_values k : good_key kt k → values mfl (recs v (t_name t)) (stored kt k) = entry <$> entries kt σ k.
Proof. apply holds_values, Hr. Qed.

Lemma stored_fits k : good_key kt k → dup_fits mfl (key_width kt) (stored kt k).
Proof. intros Hk. by apply multi_fits, good_key_fits. Qed.

Lemma entry_there k e : e ∈ entries kt σ k → recs v (t_name t) !! item mfl (stored kt k) (entry e) = Some (entry e).
Proof. apply (holds_lookup_item kt _ _ (mr_holds _ _ _ Hr)). Qed.

Lemma entry_ok k e : e ∈ entries kt σ k → is_u64 e.1 ∧ value_ok e.2.
Proof. intros He. by eapply entries_good; [apply Hr|]. Qed.

(** A walk over the values of a key that only looks. *)
Lemma wp_walk_look {St} (body : St → cursor → bytes → M (St * cursor * bool)) context (step : St → Z * V → St) c k sctx st Q :
  (∀ st c e, is_u64 e.1 → value_ok e.2 → body st c (entry e) = mret (step st e, c, true)) →
  cursor_dbi c = t_dbi t → good_key kt k → Q (Ok (foldl step st (entries kt σ k))) v →
  wp (walk_key body context fuel c (stored kt k) sctx st) Q v.
Proof.
  intros Hbody Hc Hk HQ. assert (∀ e, e ∈ entries kt σ k → is_u64 e.1 ∧ value_ok e.2) as Hok by apply entry_ok.
  eapply (wp_walk_key _ _ mfl (key_width kt) _ _ _ (fun l st' v' => v' = v ∧ ∃ todo, l = entry <$> todo ∧
    (∀ e, e ∈ todo → is_u64 e.1 ∧ value_ok e.2) ∧ foldl step st' todo = foldl step st (entries kt σ k))).
  - intros l st' v' [-> _]. by eapply multi_bound.
  - intros x rest st' c' v' (-> & todo & E & Ht & Ef) Hc' Hrest. destruct todo as [|e todo]; [done|].
    rewrite fmap_cons in E. injection E as -> ->. destruct (Ht e ltac:(left)) as [He Hv].
    rewrite Hbody by done. apply wp_ret. split; [done|]. split; [|done]. split; [done|].
    exists todo. split; [done|]. split; [intros e' ?; apply Ht; by right|done].
  - intros st' v' (-> & todo & E & _ & Ef). symmetry in E. apply fmap_nil_inv in E as ->. cbn in Ef. by rewrite Ef.
  - done.
  - by apply stored_fits.
  - split; [done|]. exists (entries kt σ k). split; [by apply key_values|done].
  - pose proof (mr_fuel _ _ _ Hr). lia.
Qed.

Lemma wp_find_values context k Q :
  key_ok kt k → Q (look_at kt k (fun l => l.*2) σ) v → wp (find_values kt corrupted fuel t context k) Q v.
Proof.
  intros Hk HQ. unfold look_at, with_key in HQ. apply wp_cursor_at; [done|intros e E; by rewrite E in HQ|].
  intros c b E Hc _ <- Hg. rewrite E in HQ. eapply (wp_walk_look _ _ (fun out e => out ++ [e.2])); [|done|done|].
  - intros st c' e He Hv. by rewrite decode_value_entry.
  - by rewrite foldl_snoc.
Qed.

Lemma foldl_matching (P : Z * V → bool) (z : Z) (l : list (Z * V)) :
  0 ≤ z < 2 ^ 64 →
  foldl (fun n e => if P e then (n + 1) mod 2 ^ 64 else n) z l = (z + Z.of_nat (length (filter (fun e => P e) l))) mod 2 ^ 64.
Proof.
  revert z. induction l as [|e l IH]; intros z Hz; cbn [foldl].
  - rewrite filter_nil. cbn. rewrite Z.add_0_r. by rewrite Z.mod_small.
  - rewrite filter_cons. destruct (P e) eqn:E; [|by rewrite IH].
    rewrite decide_True by done. cbn [length]. rewrite IH by (apply Z.mod_pos_bound; lia).
    rewrite Zplus_mod_idemp_l. f_equal. lia.
Qed.

Lemma wp_count_matching context k x Q :
  key_ok kt k → Q (look_at kt k (fun l => counted (filter (fun e => same_value x e) l)) σ) v →
  wp (count_matching kt corrupted fuel t context k x) Q v.
Proof.
  intros Hk HQ. unfold look_at, with_key in HQ. apply wp_cursor_at; [done|intros e E; by rewrite E in HQ|].
  intros c b E Hc _ <- Hg. rewrite E in HQ.
  eapply (wp_walk_look _ _ (fun n e => if same_value x e then (n + 1) mod 2 ^ 64 else n)); [|done|done|].
  - intros st c' e He Hv. by rewrite matches_entry.
  - rewrite foldl_matching by lia. done.
Qed.

Lemma wp_contains_key context k Q :
  key_ok kt k → Q (look_at kt k (fun l => bool_decide (l ≠ [])) σ) v → wp (contains_key kt t context k) Q v.
Proof.
  intros Hk HQ. unfold look_at, with_key in HQ.
  apply (wp_with_key kt); [done|intros b Eb|intros e Ee; by rewrite Ee in HQ]. rewrite Eb in HQ. cbn [mbind result_bind] in HQ.
  pose proof (good_canonical kt k b Hk Eb) as Hg. rewrite <- (stored_canonical kt k b Hk Eb).
  eapply wp_dup_get; [by eapply multi_bound|by apply stored_fits|intros; engine_error_case|].
  rewrite key_values by done. destruct (entries kt σ (key_canonical kt k)) as [|e l]; [intros x|]; by apply wp_ret.
Qed.

Lemma wp_count_all context Q : Q (Ok (Z.of_nat (length (flat kt σ)))) v → wp (count_all t context) Q v.
Proof.
  intros HQ. eapply wp_dup_stat; [by eapply multi_bound|intros; engine_error_case|].
  apply wp_ret_bind, wp_ret. by rewrite (multi_size kt _ _ (mr_holds _ _ _ Hr)).
Qed.

(** Seeking the values of a key. *)
Lemma wp_seek_key {A} c k (f : Z * bytes * bytes * cursor → M A) Q :
  good_key kt k → cursor_dbi c = t_dbi t →
  (∀ rc k x c', engine_error rc → wp (f (rc, k, x, c')) Q v) →
  match entries kt σ k with
  | e :: _ => ∀ c', on_value c' (t_dbi t) mfl (stored kt k) (entry e) →
      wp (f (MDBX_SUCCESS, stored kt k, entry e, c')) Q v
  | [] => ∀ b x c', wp (f (MDBX_NOTFOUND, b, x, c')) Q v
  end →
  wp (cursor_get_dup c MDBX_SET_KEY (stored kt k) ≫= f) Q v.
Proof.
  intros Hk Hc HE HQ. eapply wp_set_key; [by eapply multi_bound|by apply stored_fits|done|done|]. rewrite key_values by done.
  destruct (entries kt σ k) as [|e l]; [done|]. rewrite fmap_cons. intros c' Hc' _. by apply HQ.
Qed.

Lemma wp_count_values context k Q :
  key_ok kt k → Q (look_at kt k (fun l => Z.of_nat (length l)) σ) v → wp (count_values kt t context k) Q v.
Proof.
  intros Hk HQ. unfold look_at, with_key in HQ. apply wp_cursor_at; [done|intros e E; by rewrite E in HQ|].
  intros c b E Hc _ <- Hg. rewrite E in HQ. cbn [mbind result_bind] in HQ.
  apply wp_seek_key; [done|done|intros; engine_error_case|].
  destruct (entries kt σ (key_canonical kt k)) as [|e l] eqn:El; [intros; by apply wp_ret|]. intros c' Hc'.
  apply wp_ret_bind. eapply wp_cursor_count; [by eapply multi_bound|done| |intros; engine_error_case|].
  - apply entry_there. rewrite El. left.
  - apply wp_ret_bind, wp_ret. by rewrite key_values, length_fmap, El.
Qed.

Lemma wp_next_number lctx exhausted k Q :
  key_ok kt k →
  Q (look_at kt k next_of σ ≫= (fun o => match o with Some s => Ok s | None => Throw (overflow_error exhausted) end)) v →
  wp (next_number kt corrupted t lctx exhausted k) Q v.
Proof.
  intros Hk HQ. unfold look_at, with_key in HQ. apply wp_cursor_at; [done|intros e E; by rewrite E in HQ|].
  intros c b E Hc _ <- Hg. rewrite E in HQ. cbn [mbind result_bind] in HQ. unfold next_of in HQ.
  apply wp_seek_key; [done|done|intros; engine_error_case|].
  destruct (entries kt σ (key_canonical kt k)) as [|e l] eqn:El; [intros; by apply wp_ret|]. intros c' Hc'.
  apply wp_ret_bind. eapply wp_last_dup; [by eapply multi_bound|done| |intros; engine_error_case|].
  - apply entry_there. rewrite El. left.
  - intros x c2 Hx _. rewrite key_values in Hx by done. rewrite El, fmap_last in Hx. apply fmap_Some in Hx as (e' & Hl & ->).
    rewrite Hl in HQ. apply wp_ret_bind, wp_lift_bind. rewrite decode_prefix_entry.
    + destruct (e'.1 =? 2 ^ 64 - 1); [by apply wp_fail|by apply wp_ret].
    + apply (entry_ok (key_canonical kt k)). rewrite El. by apply last_Some_elem_of.
Qed.
End At.

(** ** Writing *)

Lemma next_of_above l s : good_entries l → next_of l = Some s → is_u64 s ∧ Forall (fun e => e.1 < s) l.
Proof.
  unfold next_of. intros Hg. destruct l as [|e l _] using rev_ind.
  { intros [= <-]. split; [split; lia|constructor]. }
  rewrite last_snoc. destruct (good_entries_elem _ e Hg ltac:(set_solver)) as [He _].
  destruct (Z.eqb_spec e.1 (2 ^ 64 - 1)); [done|]. intros [= <-]. split; [unfold u_range in *; lia|].
  destruct Hg as [_ [Hlt _]%StronglySorted_app]. apply Forall_app. split; [|repeat constructor; lia].
  apply Forall_forall. intros e' He'. specialize (Hlt e' e He' ltac:(left)). unfold entry_lt in Hlt. lia.
Qed.

Lemma refines_insert_value lctx exhausted context k x :
  key_ok kt k → value_ok x →
  refines multi_rep kept 1 (insert_value kt corrupted limit t lctx exhausted context k x) (does (add_value kt limit exhausted k x)).
Proof.
  intros Hk Hx. apply refines_does. intros v n σ Hr. apply wp_bind. eapply wp_next_number; [exact Hr|done|].
  assert (multi_rep v n σ) as Hr0 by (eapply multi_rep_mono; [|exact Hr]; lia).
  unfold look_at, with_key, add_value, at_key. destruct (serialize_key kt k) as [b|e] eqn:Eb; [|done]. cbn [mbind result_bind].
  destruct (next_of (entries kt σ (key_canonical kt k))) as [s|] eqn:En; [|done].
  apply wp_lift_bind. cbn [mbind result_bind]. apply wp_lift_bind.
  destruct (check_dupsort_value_size limit (stored_form s x)) as [u|e]; [|done].
  pose proof (good_canonical kt k b Hk Eb) as Hg. rewrite <- (stored_canonical kt k b Hk Eb).
  destruct (next_of_above _ s (entries_all kt _ _ (mr_holds _ _ _ Hr) _) En) as [Hs Hlt].
  eapply wp_dup_put; [by eapply multi_bound|by apply stored_fits|apply Hr|intros; engine_error_case|].
  apply wp_ret. split; [done|]. split; [|apply v_only_update]. eapply multi_rep_update; [exact Hr0|..].
  - apply (holds_add kt _ _ (mr_holds _ _ _ Hr) _ (s, x)); done.
  - pose proof (mr_fuel _ _ _ Hr). rewrite map_size_insert. destruct (_ !! _); cbn; lia.
Qed.

Lemma refines_insert_all limit' exhausted (insert : K → V → M unit) l :
  (∀ k x, key_ok kt k → value_ok x → refines multi_rep kept 1 (insert k x) (does (add_value kt limit' exhausted k x))) →
  Forall (fun p => key_ok kt p.1 ∧ value_ok p.2) l →
  refines multi_rep kept (length l) (insert_all kt insert l) (does (add_values kt limit' exhausted l)).
Proof.
  intros Hi. induction 1 as [|[k x] l [Hk Hx] _ IH]; [by apply (rel_refines_ret multi_rep kept)|].
  cbn [length insert_all]. eapply (refines_weaken multi_rep kept).
  - apply (rel_refines_bind multi_rep kept 1 (length l)); [apply multi_rep_mono|by apply Hi|intros ?; exact IH].
  - intros σ r σ'. unfold then_, does. cbn [add_values fst snd] in *.
    intros [(e & -> & ->)|(u & σ1 & -> & H)]; done.
Qed.

Lemma set_set (k : K) (l l' : list (Z * V)) (σ : content) : set_entries kt k l (set_entries kt k l' σ) = set_entries kt k l σ.
Proof.
  unfold set_entries. destruct l, l';
    by rewrite ?delete_delete_eq, ?delete_insert_eq, ?insert_delete_eq, ?insert_insert_eq.
Qed.

Lemma set_same m (σ : content) k : holds_multi kt m σ → set_entries kt k (entries kt σ k) σ = σ.
Proof.
  intros H. unfold set_entries, entries. destruct (σ !! k) as [l|] eqn:E; cbn.
  - destruct (hu_good _ _ _ H k l E) as (_ & Hl & _). destruct l; [done|]. by apply insert_id.
  - by apply delete_id.
Qed.

Lemma refines_erase_values context k :
  key_ok kt k → refines multi_rep kept 0 (erase_values kt t context k) (does (remove_key kt k)).
Proof.
  intros Hk. apply refines_does. intros v n σ Hr. unfold remove_key, at_key.
  apply (wp_with_key kt); [done|intros b Eb|intros e Ee; by rewrite Ee]. rewrite Eb. cbn [fst snd].
  pose proof (good_canonical kt k b Hk Eb) as Hg. rewrite <- (stored_canonical kt k b Hk Eb).
  eapply wp_dup_del; [by eapply multi_bound|by apply stored_fits|apply Hr|intros; engine_error_case|..];
    rewrite (key_values v n σ Hr) by done.
  - intros E%fmap_nil_inv. apply wp_ret. rewrite E. split; [done|]. split; [|done].
    rewrite <- E at 1. by rewrite (set_same _ _ _ (mr_holds _ _ _ Hr)).
  - intros Hne. apply wp_ret. rewrite bool_decide_true by (intros E; apply Hne; by rewrite E). split; [done|].
    split; [|apply v_only_update]. eapply multi_rep_update; [exact Hr|by apply (holds_erase_key kt _ _ (mr_holds _ _ _ Hr))|].
    eapply Nat.le_lt_trans; [|apply (mr_fuel _ _ _ Hr)]. apply Nat.add_le_mono_r, map_subseteq_size, map_filter_subseteq.
Qed.

Lemma refines_clear_values context : refines multi_rep kept 0 (clear_values t context) (does (fun _ => (Ok tt, ∅))).
Proof.
  apply refines_does. intros v n σ Hr. apply wp_bind. intros s Hs. unfold drop_table.
  destruct (mdbx_drop s (t_dbi t)) as [rc s'] eqn:E. left. subst v.
  destruct (law_drop _ _ _ _ _ _ E (bound_table _ _ _ _ (mr_bound _ _ _ Hr)) (mr_rw _ _ _ Hr)) as [He|[-> ->]];
    [engine_error_case|]. apply wp_ret. split; [done|]. split; [|apply v_only_update].
  eapply multi_rep_update; [exact Hr|apply holds_multi_empty|]. rewrite map_size_empty. pose proof (mr_fuel _ _ _ Hr). lia.
Qed.

(** Deleting the value under the cursor, while the values before and after it are [l1] and [l2]. *)
Lemma wp_delete_here {A} v n σ k l1 e l2 c context (f : cursor → M A) Q :
  multi_rep v n σ → good_key kt k → entries kt σ k = l1 ++ e :: l2 → on_value c (t_dbi t) mfl (stored kt k) (entry e) →
  (∀ v' c', on_value c' (t_dbi t) mfl (stored kt k) (entry e) →
     recs v' (t_name t) = delete (item_of kt (k, e)) (recs v (t_name t)) →
     multi_rep v' n (set_entries kt k (l1 ++ l2) σ) → kept v v' → wp (f c') Q v') →
  wp (delete_here c context ≫= f) Q v.
Proof.
  intros Hr Hk E Hc HQ. unfold delete_here. apply wp_bind.
  eapply wp_dup_cursor_del; [by eapply multi_bound|done|apply Hr| |intros; engine_error_case|].
  { eapply entry_there; [done|]. rewrite E. set_solver. }
  intros c' Hc'. apply wp_ret_bind, wp_ret. apply HQ; [done|apply recs_updated; eapply bound_is_Some, Hr| |apply v_only_update].
  eapply multi_rep_update; [exact Hr|by apply (holds_remove kt _ _ (mr_holds _ _ _ Hr))|].
  eapply Nat.le_lt_trans; [|apply (mr_fuel _ _ _ Hr)]. apply Nat.add_le_mono_r, map_subseteq_size, delete_subseteq.
Qed.

Lemma values_after_delete m k x : values_after mfl (delete (item mfl k x) m) k x = values_after mfl m k x.
Proof. unfold values_after. f_equal. apply recs_where_delete. intros [_ Hlt]. by apply bytes_lt_irrefl in Hlt. Qed.

(** A walk over the values of a key that may delete some.  [seen] are the values before the
    cursor that were kept, and [J] relates them and the ones to come to the state. *)
Lemma wp_walk_erase {St} (body : St → cursor → bytes → M (St * cursor * bool)) context v n σ c k sctx st
    (J : list (Z * V) → list (Z * V) → St → Prop) (Q : result St → db_view → Prop) :
  multi_rep v n σ → good_key kt k → cursor_dbi c = t_dbi t →
  (∀ seen e todo st c v',
     J seen (e :: todo) st → multi_rep v' n (set_entries kt k (seen ++ e :: todo) σ) → kept v v' →
     on_value c (t_dbi t) mfl (stored kt k) (entry e) → is_u64 e.1 → value_ok e.2 →
     wp (body st c (entry e)) (fun r v2 =>
       match r with
       | Ok (st', c', true) => on_value c' (t_dbi t) mfl (stored kt k) (entry e) ∧
           (∃ seen', J seen' todo st' ∧ multi_rep v2 n (set_entries kt k (seen' ++ todo) σ)) ∧ kept v v2 ∧
           values_after mfl (recs v2 (t_name t)) (stored kt k) (entry e) = values_after mfl (recs v' (t_name t)) (stored kt k) (entry e)
       | Ok (st', _, false) => Q (Ok st') v2
       | Throw e => Q (Throw e) v2
       end) v') →
  (∀ seen st v', J seen [] st → multi_rep v' n (set_entries kt k seen σ) → kept v v' → Q (Ok st) v') →
  J [] (entries kt σ k) st →
  wp (walk_key body context fuel c (stored kt k) sctx st) Q v.
Proof.
  intros Hr Hk Hc Hbody Hend HJ.
  eapply (wp_walk_key _ _ mfl (key_width kt) _ _ _ (fun l st' v' => ∃ seen todo, l = entry <$> todo ∧
    J seen todo st' ∧ multi_rep v' n (set_entries kt k (seen ++ todo) σ) ∧ kept v v')).
  - intros l st' v' (seen & todo & _ & _ & Hr' & _). by eapply multi_bound.
  - intros x rest st' c' v' (seen & todo & E & HJ' & Hr' & Hk') Hc' Hrest. destruct todo as [|e todo]; [done|].
    rewrite fmap_cons in E. injection E as -> ->.
    destruct (entry_ok v' n _ Hr' k e) as [He Hv]; [rewrite entries_set, decide_True by done; set_solver|].
    eapply wp_mono; [by apply Hbody with (seen := seen) (todo := todo)|]. intros [[[st2 c2] []]|ex] v2 H; [|done|done].
    destruct H as (Hc2 & (seen' & HJ2 & Hr2) & Hk2 & Ea). split; [done|]. split; [|by rewrite Ea].
    exists seen', todo. done.
  - intros st' v' (seen & todo & E & HJ' & Hr' & Hk'). symmetry in E. apply fmap_nil_inv in E as ->.
    rewrite app_nil_r in Hr'. by eapply Hend.
  - done.
  - by apply stored_fits.
  - exists [], (entries kt σ k). split; [by eapply key_values|]. split; [done|]. split; [|done].
    cbn [app]. by rewrite (set_same _ _ _ (mr_holds _ _ _ Hr)).
  - pose proof (mr_fuel _ _ _ Hr). lia.
Qed.

Lemma wp_at_key {A} k (f : cursor → bytes → M A) (g : K → content → result A * content) v n σ :
  multi_rep v n σ → key_ok kt k →
  (∀ c, cursor_dbi c = t_dbi t → good_key kt (key_canonical kt k) →
     wp (f c (stored kt (key_canonical kt k))) (fun r v' =>
       r = (g (key_canonical kt k) σ).1 ∧ multi_rep v' n (g (key_canonical kt k) σ).2 ∧ kept v v') v) →
  wp (with_cursor_at kt t k f) (fun r v' => r = (at_key kt k g σ).1 ∧ multi_rep v' n (at_key kt k g σ).2 ∧ kept v v') v.
Proof.
  intros Hr Hk H. unfold at_key. eapply wp_cursor_at; [exact Hr|done|intros e ->; done|].
  intros c b -> Hc _ <- Hg. by apply H.
Qed.

Lemma refines_erase_matching dctx context k x :
  key_ok kt k → refines multi_rep kept 0 (erase_matching kt corrupted fuel t dctx context k x) (does (remove_value kt k x)).
Proof.
  intros Hk. apply refines_does. intros v n σ Hr. cbn [Nat.add] in Hr. apply wp_at_key; [done|done|]. intros c Hc Hg. cbn [fst snd].
  set (ck := key_canonical kt k) in *. set (l := entries kt σ ck).
  eapply (wp_walk_erase _ _ v n σ _ _ _ _ (fun seen todo removed => ∃ pre, pre ++ todo = l ∧
    seen = filter (fun e => negb (same_value x e)) pre ∧ removed = counted (filter (fun e => same_value x e) pre)));
    [done|done|done| | |by exists []].
  - intros seen e todo st c' v' (pre & E & -> & ->) Hr' Hk' Hc' He Hv. apply wp_lift_bind. rewrite matches_entry.
    destruct (same_value x e) eqn:Em.
    + eapply wp_delete_here; [exact Hr'|done|by rewrite entries_set, decide_True|exact Hc'|].
      intros v2 c2 Hc2 Erec Hr2 Hk2. rewrite set_set in Hr2. apply wp_ret. split; [done|]. split; [|split; [by etrans|]].
      * exists (filter (fun e => negb (same_value x e)) pre). split; [|done]. exists (pre ++ [e]). rewrite <- app_assoc.
        split; [done|]. rewrite !filter_app, !filter_cons, !filter_nil, Em, app_nil_r. cbn. split; [done|].
        unfold counted. rewrite length_app, Zplus_mod_idemp_l. f_equal. rewrite (decide_True (P := True)) by done. cbn [length]. lia.
      * rewrite Erec. apply values_after_delete.
    + apply wp_ret. split; [done|]. split; [|split; [done|done]].
      exists (filter (fun e => negb (same_value x e)) pre ++ [e]). rewrite <- app_assoc. split; [|done].
      exists (pre ++ [e]). rewrite <- app_assoc. split; [done|]. rewrite !filter_app, !filter_cons, !filter_nil, Em.
      cbn. rewrite !app_nil_r. done.
  - intros seen st v' (pre & E & -> & ->) Hr' Hk'. rewrite app_nil_r in E. subst pre. done.
Qed.

Lemma without_first_app (P : Z * V → bool) pre e todo :
  Forall (fun e => P e = false) pre → P e = true → without_first P (pre ++ e :: todo) = pre ++ todo.
Proof. intros Hp He. induction Hp as [|a pre Ha _ IH]; cbn; [by rewrite He|]. by rewrite Ha, IH. Qed.

Lemma without_first_none (P : Z * V → bool) l : Forall (fun e => P e = false) l → without_first P l = l ∧ existsb P l = false.
Proof. induction 1 as [|a l Ha _ [IH1 IH2]]; cbn; [done|]. by rewrite Ha, IH1, IH2. Qed.

Lemma refines_erase_first dctx context k x :
  key_ok kt k → refines multi_rep kept 0 (erase_first_matching kt corrupted fuel t dctx context k x) (does (remove_first kt k x)).
Proof.
  intros Hk. apply refines_does. intros v n σ Hr. cbn [Nat.add] in Hr. apply wp_at_key; [done|done|]. intros c Hc Hg. cbn [fst snd].
  set (ck := key_canonical kt k) in *. set (l := entries kt σ ck).
  eapply (wp_walk_erase _ _ v n σ _ _ _ _ (fun seen todo found => seen ++ todo = l ∧ found = false ∧
    Forall (fun e => same_value x e = false) seen)); [done|done|done| | |done].
  - intros seen e todo st c' v' (E & -> & Hs) Hr' Hk' Hc' He Hv. apply wp_lift_bind. rewrite matches_entry.
    destruct (same_value x e) eqn:Em.
    + eapply wp_delete_here; [exact Hr'|done|by rewrite entries_set, decide_True|exact Hc'|].
      intros v2 c2 Hc2 Erec Hr2 Hk2. rewrite set_set in Hr2. apply wp_ret. rewrite <- E, without_first_app by done.
      split; [|split; [done|by etrans]]. rewrite existsb_app. cbn. by rewrite Em, orb_true_r.
    + apply wp_ret. split; [done|]. split; [|split; [done|done]]. exists (seen ++ [e]). rewrite <- app_assoc.
      split; [|done]. split; [done|]. split; [done|]. apply Forall_app. by repeat constructor.
  - intros seen st v' (E & -> & Hs) Hr' Hk'. rewrite app_nil_r in E. subst seen.
    destruct (without_first_none (same_value x) l Hs) as [-> ->]. done.
Qed.

Lemma delete_beyond {A} (l : list A) : ∀ i, (length l ≤ i)%nat → delete i l = l.
Proof.
  induction l as [|a l IH]; intros [|i] Hi; cbn in *; [done|done|lia|]. f_equal. apply IH. lia.
Qed.

Lemma refines_erase_index dctx context k index :
  key_ok kt k → 0 ≤ index → Z.of_nat fuel < 2 ^ 64 →
  refines multi_rep kept 0 (erase_index kt fuel t dctx context k index) (does (remove_at kt k index)).
Proof.
  intros Hk Hi Hsmall. apply refines_does. intros v n σ Hr. cbn [Nat.add] in Hr. apply wp_at_key; [done|done|]. intros c Hc Hg. cbn [fst snd].
  set (ck := key_canonical kt k) in *. set (l := entries kt σ ck).
  assert (length l < fuel)%nat as Hlen.
  { eapply Nat.le_lt_trans; [|apply (mr_fuel _ _ _ Hr)]. unfold l. rewrite <- (length_fmap entry), <- (key_values v n σ Hr) by done.
    pose proof (values_length mfl (recs v (t_name t)) (stored kt ck)). lia. }
  apply wp_bind.
  eapply (wp_walk_erase _ _ v n σ _ _ _ _ (fun seen todo '(current, found) => seen ++ todo = l ∧ found = false ∧
    current = size_of seen ∧ size_of seen ≤ index)); [done|done|done| | |done].
  - intros seen e todo [current found] c' v' (E & -> & -> & Hle) Hr' Hk' Hc' He Hv. destruct (Z.eqb_spec (size_of seen) index) as [Ei|Hne].
    + eapply wp_delete_here; [exact Hr'|done|by rewrite entries_set, decide_True|exact Hc'|].
      intros v2 c2 Hc2 Erec Hr2 Hk2. rewrite set_set in Hr2. apply wp_ret, wp_ret. subst index.
      assert (Z.to_nat (size_of seen) = length seen) as -> by (unfold size_of; lia). rewrite <- E, delete_middle. split; [|split; [done|by etrans]].
      f_equal. symmetry. apply Z.ltb_lt. unfold size_of. rewrite length_app. cbn. lia.
    + apply wp_ret. split; [done|]. split; [|split; [done|done]]. exists (seen ++ [e]). rewrite <- app_assoc.
      split; [|done]. split; [done|]. split; [done|]. assert (length seen < length l)%nat by (rewrite <- E, length_app; cbn; lia).
      unfold size_of in *. rewrite length_app. cbn. split; [rewrite Z.mod_small; lia|lia].
  - intros seen [current found] v' (E & -> & -> & Hle) Hr' Hk'. rewrite app_nil_r in E. subst seen. apply wp_ret.
    unfold size_of in *. rewrite delete_beyond by lia. split; [|done]. f_equal. symmetry. by apply Z.ltb_ge.
Qed.
End Rules.
