(* ===== verification/MultiRanges.v ===== *)
(** * Tables with several values per key: walks over the table

    The range methods of the classes, in terms of the content in the order of the table: by
    key, and within a key in the order of the numbers. *)
From S2P Require Import Prelude SyncCommon KeyCodec ValueCodec Mdbx DupSort DupRules Clients StoreBase TableBase KvTable.
From S2P Require Import MultiContent MultiBase MultiTable MultiRules.
Open Scope Z_scope.

(** ** Sorted lists *)

Section Sorted.
Context {A : Type} (g : A → bytes).
Abbreviation ascending := (StronglySorted (fun a b => bytes_lt (g a) (g b))).

Lemma ascending_first (P : A → Prop) `{∀ b, Decision (P b)} l a rest :
  ascending l → (∀ x y, P x → bytes_le (g x) (g y) → P y) →
  filter P l = a :: rest → rest = filter (fun b => bytes_lt (g a) (g b)) l.
Proof.
  intros Hs Hup. revert a rest. induction Hs as [|b l Hs IH Hb]; intros a rest; [done|].
  rewrite !filter_cons. rewrite Forall_forall in Hb. case_decide as HP.
  - intros [= <- <-]. rewrite decide_False by apply bytes_lt_irrefl. rewrite !filter_all; [done|auto|].
    intros q Hq. eapply Hup; [exact HP|]. by apply bytes_lt_le, Hb.
  - intros E. rewrite decide_False; [by apply IH|]. intros Hlt. apply (bytes_lt_irrefl (g a)).
    eapply bytes_lt_trans; [exact Hlt|]. apply Hb. assert (a ∈ filter P l) as Ha by (rewrite E; left).
    by apply list_elem_of_filter in Ha as [_ ?].
Qed.

Lemma ascending_last (P : A → Prop) `{∀ b, Decision (P b)} l a rest :
  ascending l → (∀ x y, P y → bytes_le (g x) (g y) → P x) →
  filter P l = rest ++ [a] → rest = filter (fun b => bytes_lt (g b) (g a)) l.
Proof.
  intros Hs Hdown. revert a rest. induction l as [|b l IH] using rev_ind; intros a rest E; [by destruct rest|].
  apply StronglySorted_app in Hs as (Hb & Hs & _). rewrite filter_app, filter_cons, filter_nil in E |- *.
  case_decide as HP.
  - apply app_inj_tail in E as [<- ->]. rewrite (decide_False (P := bytes_lt _ _)) by apply bytes_lt_irrefl.
    rewrite app_nil_r, !filter_all; [done|..]; intros q Hq.
    + apply Hb; [done|left].
    + eapply Hdown; [exact HP|]. apply bytes_lt_le, Hb; [done|left].
  - rewrite app_nil_r in E. assert (a ∈ filter P l) as Ha by (rewrite E; set_solver).
    apply list_elem_of_filter in Ha as [_ Ha]. rewrite decide_False, app_nil_r; [by apply IH|].
    intros Hlt. eapply bytes_lt_irrefl, bytes_lt_trans; [exact Hlt|]. by apply Hb; [|left].
Qed.
End Sorted.

(** ** Ranges of the content *)

Section Ranges.
Context (kt : key_type) {V : Type} `{!TableValue V}.
Abbreviation K := (key_val kt).
Abbreviation fl := (get_mdbx_flags kt).
Abbreviation mfl := (multi_flags kt).
Abbreviation content := (gmap K (list (Z * V))).
Abbreviation numbered := (K * (Z * V))%type.

Definition rk (p : numbered) : bytes := rank kt p.1.

Definition from_place (σ : content) (lo : bytes) : list numbered := filter (fun p => bytes_le lo (rk p)) (flat kt σ).
Definition after_place (σ : content) (lo : bytes) : list numbered := filter (fun p => bytes_lt lo (rk p)) (flat kt σ).
Definition in_range (σ : content) (lo hi : bytes) : list numbered :=
  filter (fun p => bytes_le lo (rk p) ∧ bytes_le (rk p) hi) (flat kt σ).
Definition up_to (hi : bytes) (l : list numbered) : list numbered := filter (fun p => bytes_le (rk p) hi) l.

Lemma up_to_from σ lo hi : up_to hi (from_place σ lo) = in_range σ lo hi.
Proof. unfold up_to, from_place, in_range. apply filter_twice. Qed.

(** A place of the table is behind the start of a bucket when its key is. *)
Lemma bucket_le b p : bytes_le (bucket_of mfl b) (item_of kt p) ↔ bytes_le (sort_key fl b) (rk p).
Proof.
  unfold item_of, rk, rank, bytes_le. change (bucket_of mfl b) with (bucket_of mfl b). rewrite <- (app_nil_r (bucket_of mfl b)).
  change (bucket_of mfl b ++ []) with (item mfl b []). rewrite item_compare, !multi_sort_key.
  destruct (bytes_compare (sort_key fl b) (sort_key fl (stored kt p.1))); cbn; [|done|done].
  split; [done|]. intros _. by destruct (entry p.2).
Qed.

Lemma item_le_key p q : bytes_lt (item_of kt p) (item_of kt q) → bytes_le (rk p) (rk q).
Proof.
  unfold bytes_lt, bytes_le, item_of, rk, rank. rewrite item_compare, !multi_sort_key.
  by destruct (bytes_compare (sort_key fl (stored kt p.1)) (sort_key fl (stored kt q.1))).
Qed.

Lemma item_le_rk p q : bytes_le (item_of kt p) (item_of kt q) → bytes_le (rk p) (rk q).
Proof.
  intros [Hlt|E]%bytes_le_lteq; [by apply item_le_key|]. apply (inj2 (item mfl)) in E as [E _]. unfold rk, rank. by rewrite E.
Qed.

(** [l] is in the order of the table. *)
Definition in_order (l : list numbered) : Prop := StronglySorted (fun p q => bytes_lt (item_of kt p) (item_of kt q)) l.

Lemma up_to_beyond hi p l : in_order (p :: l) → ¬ bytes_le (rk p) hi → up_to hi (p :: l) = [].
Proof.
  intros [_ Hl]%StronglySorted_inv Hp. unfold up_to. rewrite filter_cons, decide_False by done. apply filter_none.
  eapply Forall_impl; [exact Hl|]. cbv beta. intros q Hq Hle. apply Hp. eapply (transitivity (R := bytes_le)); [exact (item_le_key p q Hq)|exact Hle].
Qed.

Lemma in_range_empty σ lo hi : bytes_lt hi lo → in_range σ lo hi = [].
Proof.
  intros Hlt. apply filter_none, Forall_forall. intros p _ [H1 H2]. apply bytes_nle_lt in Hlt. apply Hlt. by etrans.
Qed.
End Ranges.

(** ** Cursors *)

Section Cursor.
Context {X : Mdbx} {D : MdbxDup X} {L : MdbxLaws X} {DL : MdbxDupLaws X D L}.
Context (kt : key_type) {V : Type} `{!TableValue V} (corrupted : string) (fuel : nat) (t : table_obj).
Abbreviation K := (key_val kt).
Abbreviation fl := (get_mdbx_flags kt).
Abbreviation mfl := (multi_flags kt).
Abbreviation content := (gmap K (list (Z * V))).
Abbreviation numbered := (K * (Z * V))%type.

Definition on_item (c : cursor) (p : numbered) : Prop := on_value c (t_dbi t) mfl (stored kt p.1) (entry p.2).

(** The pairs a move of a cursor may reach. *)
Definition ahead_of (σ : content) (c : cursor) (op : cursor_op) (key : bytes) : list numbered :=
  filter (fun p => cursor_range op (cursor_item c) (bucket_of mfl key) (item_of kt p)) (flat kt σ).
Definition behind_of (σ : content) (c : cursor) (op : back_op) : list numbered :=
  filter (fun p => back_range op (cursor_item c) (item_of kt p)) (flat kt σ).

Section At.
Context (v : db_view) (n : nat) (σ : content) (Hr : multi_rep kt fuel t v n σ).

Lemma ahead_records c op key : dup_ahead mfl (recs v (t_name t)) c op key = rec_of kt <$> ahead_of σ c op key.
Proof. apply (holds_flat_where kt _ _ (mr_holds _ _ _ _ _ _ Hr)). Qed.
Lemma behind_records c op : dup_behind (recs v (t_name t)) c op = rec_of kt <$> behind_of σ c op.
Proof. apply (holds_flat_where kt _ _ (mr_holds _ _ _ _ _ _ Hr)). Qed.

Lemma flat_in_order : in_order kt (flat kt σ).
Proof. by eapply flat_sorted, Hr. Qed.

Lemma ahead_in_order c op key : in_order kt (ahead_of σ c op key).
Proof. apply StronglySorted_filter, flat_in_order. Qed.

Lemma ahead_next_item c p : on_item c p → ahead_of σ c MDBX_NEXT [] = filter (fun q => bytes_lt (item_of kt p) (item_of kt q)) (flat kt σ).
Proof. intros [_ E]. unfold ahead_of. by rewrite E. Qed.
Lemma behind_prev_item c p : on_item c p → behind_of σ c MDBX_PREV = filter (fun q => bytes_lt (item_of kt q) (item_of kt p)) (flat kt σ).
Proof. intros [_ E]. unfold behind_of. by rewrite E. Qed.

Lemma flat_member_ok p : p ∈ flat kt σ → good_key kt p.1 ∧ is_u64 p.2.1 ∧ value_ok p.2.2.
Proof. apply (flat_good kt _ _ (mr_holds _ _ _ _ _ _ Hr)). Qed.

Lemma flat_fuel : (length (flat kt σ) < fuel)%nat.
Proof. rewrite <- (multi_size kt _ _ (mr_holds _ _ _ _ _ _ Hr)). pose proof (mr_fuel _ _ _ _ _ _ Hr). lia. Qed.

Lemma ahead_fuel_of c op key : (length (ahead_of σ c op key) < fuel)%nat.
Proof. eapply Nat.le_lt_trans; [apply length_filter|apply flat_fuel]. Qed.

Lemma wp_flat_move {A} c op key (f : Z * bytes * bytes * cursor → M A) Q :
  cursor_dbi c = t_dbi t → (op = MDBX_SET_RANGE → fits kt key) →
  (∀ rc k x c', engine_error rc → wp (f (rc, k, x, c')) Q v) →
  match ahead_of σ c op key with
  | p :: rest => ∀ c', on_item c' p → rest = ahead_of σ c' MDBX_NEXT [] → p ∈ flat kt σ →
      wp (f (MDBX_SUCCESS, stored kt p.1, entry p.2, c')) Q v
  | [] => ∀ k x c', cursor_dbi c' = t_dbi t → wp (f (MDBX_NOTFOUND, k, x, c')) Q v
  end →
  wp (cursor_get c op key ≫= f) Q v.
Proof.
  intros Hc Hf HE HQ. eapply wp_dup_move; [by eapply multi_bound|done|intros E; by apply multi_fits, Hf|done|].
  rewrite ahead_records. destruct (ahead_of σ c op key) as [|p rest] eqn:E; [done|].
  assert (p ∈ flat kt σ) as Hp.
  { assert (p ∈ ahead_of σ c op key) as [_ ?]%list_elem_of_filter by (rewrite E; left). done. }
  rewrite fmap_cons. intros k c' [Ek _]%(inj2 (item mfl)) Hc' _ _ _. subst k. apply HQ; [done| |done].
  rewrite (ahead_next_item c' p Hc').
  refine (ascending_first (item_of kt) _ _ _ _ flat_in_order _ E). eauto using cursor_range_up.
Qed.

Lemma wp_flat_back {A} c op (f : Z * bytes * bytes * cursor → M A) Q :
  cursor_dbi c = t_dbi t →
  (∀ rc k x c', engine_error rc → wp (f (rc, k, x, c')) Q v) →
  (∀ p rest c', behind_of σ c op = rest ++ [p] → on_item c' p → rest = behind_of σ c' MDBX_PREV → p ∈ flat kt σ →
     wp (f (MDBX_SUCCESS, stored kt p.1, entry p.2, c')) Q v) →
  (behind_of σ c op = [] → ∀ k x c', wp (f (MDBX_NOTFOUND, k, x, c')) Q v) →
  wp (cursor_get_back c op ≫= f) Q v.
Proof.
  intros Hc HE HQ HN. eapply wp_dup_back; [by eapply multi_bound|done|done|..].
  - intros rest k x c' E Hc' _. rewrite behind_records in E.
    destruct (behind_of σ c op) as [|p l _] eqn:Eb using rev_ind; [by destruct rest|].
    rewrite fmap_app in E. apply app_inj_tail in E as [_ E]. injection E as Ei <-.
    apply (inj2 (item mfl)) in Ei as [<- _].
    assert (p ∈ flat kt σ) as Hp.
    { assert (p ∈ behind_of σ c op) as [_ ?]%list_elem_of_filter by (rewrite Eb; set_solver). done. }
    eapply HQ; [done|exact Hc'| |done]. rewrite (behind_prev_item c' p Hc').
    refine (ascending_last (item_of kt) _ _ _ _ flat_in_order _ Eb). eauto using back_range_down.
  - intros E. rewrite behind_records in E. apply fmap_nil_inv in E. by apply HN.
Qed.

Lemma wp_multi_cmp {A} a b (f : Z → M A) Q :
  fits kt a → fits kt b →
  (∀ o, (o > 0 ↔ bytes_compare (sort_key fl a) (sort_key fl b) = Gt) →
        (o < 0 ↔ bytes_compare (sort_key fl a) (sort_key fl b) = Lt) → wp (f o) Q v) →
  wp (cmp (t_dbi t) a b ≫= f) Q v.
Proof.
  intros Ha Hb HQ. eapply wp_dup_cmp; [by eapply multi_bound|by apply multi_fits|by apply multi_fits|].
  by rewrite !multi_sort_key.
Qed.

(** Comparing the key of a pair with a bound above. *)
Lemma wp_cmp_above {A} p hi (f : Z → M A) Q :
  p ∈ flat kt σ → fits kt hi →
  (∀ o, (o >? 0) = bool_decide (¬ bytes_le (rk kt p) (sort_key fl hi)) → wp (f o) Q v) →
  wp (cmp (t_dbi t) (stored kt p.1) hi ≫= f) Q v.
Proof.
  intros Hp Hh HQ. destruct (flat_member_ok p Hp) as [Hg _]. apply wp_multi_cmp; [by apply good_key_fits|done|].
  intros o Ho _. apply HQ. fold (rank kt p.1) in Ho. fold (rk kt p) in Ho. rewrite Z.gtb_ltb.
  destruct (decide (bytes_le (rk kt p) (sort_key fl hi))) as [Hle|Hgt].
  - rewrite bool_decide_false by naive_solver. apply Z.ltb_ge. assert (¬ o > 0) by (rewrite Ho; exact Hle). lia.
  - rewrite bool_decide_true by done. apply Z.ltb_lt. cut (o > 0); [lia|]. apply Ho.
    unfold bytes_le in Hgt. by destruct (bytes_compare _ _); [destruct Hgt..|].
Qed.

(** ** Walks *)

(** What a walk computes, over the pairs it visits. *)
Definition raw (p : numbered) : bytes * bytes := (stored kt p.1, entry p.2).

Lemma wp_flat_range_loop {S} (body : S → bytes → bytes → result (S * bool)) context hi m c op key st Q :
  cursor_dbi c = t_dbi t → (op = MDBX_SET_RANGE → fits kt key) → fits kt hi →
  (length (ahead_of σ c op key) < m)%nat →
  Q (fold_recs body st (raw <$> up_to kt (sort_key fl hi) (ahead_of σ c op key))) v →
  wp (range_loop body context (t_dbi t) hi m c op key st) Q v.
Proof.
  intros Hc Hf Hhi. revert c op key st Hc Hf. induction m as [|m IH]; intros c op key st Hc Hf Hlen HQ; [lia|].
  pose proof (ahead_in_order c op key) as Ho. apply wp_flat_move; [done|done|by intros; engine_error_case|].
  destruct (ahead_of σ c op key) as [|p rest] eqn:E; [intros; by apply wp_ret|]. intros c' Hp Er Hin.
  rewrite Z.eqb_refl. apply wp_cmp_above; [done|done|]. intros o ->.
  destruct (decide (bytes_le (rk kt p) (sort_key fl hi))) as [Hle|Hnle].
  - rewrite bool_decide_false by naive_solver. unfold up_to in HQ. rewrite filter_cons, decide_True in HQ by done.
    rewrite fmap_cons in HQ. cbn [fold_recs raw] in HQ. apply wp_lift_bind.
    destruct (body st _ _) as [[st' []]|e]; cbn [mbind result_bind] in HQ |- *; [|by apply wp_ret|done].
    apply IH; [apply Hp|done|rewrite <- Er; cbn in Hlen; lia|by rewrite <- Er].
  - rewrite bool_decide_true by done. apply wp_ret. by rewrite (up_to_beyond kt) in HQ.
Qed.

(** A body that goes on with every pair. *)
Lemma fold_raw {S} (body : S → bytes → bytes → result (S * bool)) (g : S → numbered → S) st l :
  (∀ st p, p ∈ l → body st (stored kt p.1) (entry p.2) = Ok (g st p, true)) →
  fold_recs body st (raw <$> l) = Ok (foldl g st l).
Proof.
  revert st. induction l as [|p l IH]; intros st Hb; [done|]. rewrite fmap_cons. cbn [fold_recs raw].
  rewrite Hb by left. cbn [mbind result_bind foldl]. apply IH. intros st' q Hq. apply Hb. by right.
Qed.

Lemma decode_raw `{!KeyReadable kt} p : p ∈ flat kt σ → decode_record kt corrupted (stored kt p.1) (entry p.2) = Ok (shown kt p).
Proof.
  intros Hp. destruct (flat_member_ok p Hp) as (Hk & _ & Hv). unfold decode_record. rewrite decode_key by done.
  cbn [mbind result_bind]. rewrite decode_value_entry by done. done.
Qed.

Lemma fold_collect_records `{!KeyReadable kt} out l :
  (∀ p, p ∈ l → p ∈ flat kt σ) → fold_recs (collect_record kt corrupted) out (raw <$> l) = Ok (out ++ (shown kt <$> l)).
Proof.
  intros Hl. rewrite (fold_raw _ (fun out p => out ++ [shown kt p])).
  - by rewrite foldl_snoc.
  - intros st p Hp. unfold collect_record. by rewrite decode_raw by auto.
Qed.

Lemma wp_load_records `{!KeyReadable kt} context out Q : Q (Ok (out ++ listed kt σ)) v → wp (load_records kt corrupted fuel t context out) Q v.
Proof.
  intros HQ. eapply wp_dup_scan; [by eapply multi_bound|done|pose proof (mr_fuel _ _ _ _ _ _ Hr); lia|].
  rewrite (holds_flat_where kt _ _ (mr_holds _ _ _ _ _ _ Hr)), filter_all by done.
  assert (∀ l, dup_pairs mfl (rec_of kt <$> l) = raw <$> l) as ->.
  { induction l as [|p l IH]; [done|]. rewrite !fmap_cons. unfold rec_of at 1, item_of at 1. by rewrite dup_pairs_cons, IH. }
  by rewrite fold_collect_records.
Qed.

Lemma wp_multi_open {A} (f : cursor → M A) Q :
  (∀ c, cursor_dbi c = t_dbi t → cursor_item c = None → wp (f c) Q v) → wp (open_cursor (t_dbi t) ≫= f) Q v.
Proof.
  intros HQ. apply wp_bind. unfold open_cursor. eapply wp_dup_open; [by eapply multi_bound|]. intros c Hc Hi. by apply wp_ret, HQ.
Qed.

Lemma wp_multi_range {A} a b none (walk : cursor → bytes → bytes → M A) Q :
  key_ok kt a → key_ok kt b →
  (∀ e, with_keys kt a b tt = Throw e → Q (Throw e) v) →
  (with_keys kt a b tt = Ok tt → bytes_lt (place kt b) (place kt a) → Q (Ok none) v) →
  (∀ lo hi c, with_keys kt a b tt = Ok tt → sort_key fl lo = place kt a → sort_key fl hi = place kt b → fits kt lo → fits kt hi →
     cursor_dbi c = t_dbi t → wp (walk c lo hi) Q v) →
  wp (with_range kt t a b none walk) Q v.
Proof.
  intros Ha Hb HE HN HW. unfold with_keys, with_key in *. unfold with_range.
  apply (wp_with_key kt); [done|intros lo El|intros e Ee; apply HE; by rewrite Ee]. rewrite El in *.
  apply (wp_with_key kt); [done|intros hi Eh|intros e Ee; apply HE; by rewrite Ee]. rewrite Eh in *.
  pose proof (key_fits kt _ _ Ha El) as Hfl. pose proof (key_fits kt _ _ Hb Eh) as Hfh.
  apply wp_multi_open. intros c Hc _.
  apply wp_multi_cmp; [done|done|]. rewrite (place_sort kt a lo), (place_sort kt b hi) by done. intros o Ho _.
  rewrite Z.gtb_ltb. destruct (Z.ltb_spec 0 o) as [Hlt|Hge].
  - apply wp_ret. apply HN; [done|]. apply bytes_nle_lt. unfold bytes_le. intros []. apply Ho. lia.
  - apply HW; [done|by apply place_sort|by apply place_sort|done|done|done].
Qed.

Lemma ahead_from_place c lo : ahead_of σ c MDBX_SET_RANGE lo = from_place kt σ (sort_key fl lo).
Proof. apply list_filter_iff. intros p. apply bucket_le. Qed.

(** A walk over a range of keys. *)
Lemma wp_multi_range_walk {S} (body : S → bytes → bytes → result (S * bool)) context a b st Q :
  key_ok kt a → key_ok kt b →
  Q (_ ← with_keys kt a b tt; fold_recs body st (raw <$> in_range kt σ (place kt a) (place kt b))) v →
  wp (with_range kt t a b st (fun c lo hi => range_loop body context (t_dbi t) hi fuel c MDBX_SET_RANGE lo st)) Q v.
Proof.
  intros Ha Hb HQ. apply wp_multi_range; [done|done|..].
  - intros e E. by rewrite E in HQ.
  - intros E Hlt. by rewrite E, in_range_empty in HQ.
  - intros lo hi c E El Eh Hl Hh Hc. eapply wp_flat_range_loop; [done|done|done|apply ahead_fuel_of|].
    rewrite ahead_from_place, up_to_from, El, Eh. by rewrite E in HQ.
Qed.

Lemma in_range_member lo hi p : p ∈ in_range kt σ lo hi → p ∈ flat kt σ.
Proof. by intros [_ ?]%list_elem_of_filter. Qed.

Lemma wp_range_records `{!KeyReadable kt} context a b Q :
  key_ok kt a → key_ok kt b → Q (with_keys kt a b (shown kt <$> in_range kt σ (place kt a) (place kt b))) v →
  wp (range_records kt corrupted fuel t context a b) Q v.
Proof.
  intros Ha Hb HQ. apply wp_multi_range_walk; [done|done|]. rewrite fold_collect_records by apply in_range_member.
  by rewrite with_keys_Ok.
Qed.
End At.
End Cursor.

(** ** The methods of KeyMultiValueTable *)

Section Methods.
Context {X : Mdbx} {D : MdbxDup X} {L : MdbxLaws X} {DL : MdbxDupLaws X D L}.
Context (kt : key_type) `{!KeyReadable kt} {V : Type} `{!TableValue V} (fuel : nat) (t : table_obj).
Abbreviation K := (key_val kt).
Abbreviation fl := (get_mdbx_flags kt).
Abbreviation mfl := (multi_flags kt).
Abbreviation content := (gmap K (list (Z * V))).
Abbreviation numbered := (K * (Z * V))%type.
Abbreviation between σ a b := (in_range kt σ (place kt a) (place kt b)).

Section At.
Context (v : db_view) (n : nat) (σ : content) (Hr : multi_rep kt fuel t v n σ).

Lemma wp_multi_range_values a b Q :
  key_ok kt a → key_ok kt b → Q (with_keys kt a b ((fun p => p.2.2) <$> between σ a b)) v →
  wp (db_range_values kt fuel t a b) Q v.
Proof.
  intros Ha Hb HQ. eapply wp_multi_range_walk; [exact Hr|done|done|].
  rewrite (fold_raw kt _ (fun out p => out ++ [p.2.2])), foldl_snoc; [by rewrite with_keys_Ok|].
  intros st p Hp%in_range_member. destruct (flat_member_ok kt fuel t v n σ Hr p Hp) as (_ & _ & Hv).
  by rewrite decode_value_entry.
Qed.

Lemma wp_multi_count_range a b Q :
  key_ok kt a → key_ok kt b → Q (with_keys kt a b (Z.of_nat (length (between σ a b)) mod 2 ^ 64)) v →
  wp (db_count_range kt fuel t a b) Q v.
Proof.
  intros Ha Hb HQ. eapply wp_multi_range_walk; [exact Hr|done|done|].
  rewrite (fold_raw kt _ (fun (out : Z) _ => (out + 1) mod 2 ^ 64)) by done.
  assert (∀ (l : list numbered) z, 0 ≤ z < 2 ^ 64 →
    foldl (fun (out : Z) _ => (out + 1) mod 2 ^ 64) z l = (z + Z.of_nat (length l)) mod 2 ^ 64) as Hfold.
  { induction l as [|p l IH]; intros z Hz; cbn [foldl length]; [by rewrite Z.add_0_r, Z.mod_small|].
    rewrite IH by (apply Z.mod_pos_bound; lia). rewrite Zplus_mod_idemp_l. f_equal. lia. }
  rewrite Hfold by lia. by rewrite with_keys_Ok.
Qed.

Lemma wp_multi_for_each {S} (callback : S → K → V → result (S * bool)) a b st Q :
  key_ok kt a → key_ok kt b → Q (_ ← with_keys kt a b tt; visit kt callback st (shown kt <$> between σ a b)) v →
  wp (db_for_each_range kt fuel t callback a b st) Q v.
Proof.
  intros Ha Hb HQ. eapply wp_multi_range_walk; [exact Hr|done|done|].
  assert (∀ l, (∀ p, p ∈ l → p ∈ flat kt σ) → ∀ st,
    fold_recs (fun acc k x => '(key, value) ← decode_record kt corrupted k x; '(st, more) ← callback acc.1 key value;
      Ok ((st, more), more)) (st, true) (raw kt <$> l) = visit kt callback st (shown kt <$> l)) as Hfold.
  { induction l as [|p l IH]; intros Hl st'; [done|]. rewrite !fmap_cons. cbn [fold_recs visit raw shown].
    rewrite (decode_raw kt _ fuel t v n σ Hr) by (apply Hl; left). cbn [mbind result_bind shown fst].
    destruct (callback st' p.1 p.2.2) as [[st2 []]|e]; cbn [mbind result_bind]; [|done|done].
    apply IH. intros q Hq. apply Hl. by right. }
  by rewrite Hfold by apply in_range_member.
Qed.

Lemma wp_found_record p Q : p ∈ flat kt σ → Q (Ok (Some (shown kt p))) v → wp (found_record kt (stored kt p.1) (entry p.2)) Q v.
Proof. intros Hp HQ. apply wp_lift_bind. rewrite (decode_raw kt _ fuel t v n σ Hr) by done. by apply wp_ret. Qed.

Lemma wp_multi_lower_bound k Q :
  key_ok kt k → Q (with_key kt k (shown kt <$> head (from_place kt σ (place kt k)))) v → wp (db_lower_bound kt t k) Q v.
Proof.
  intros Hk HQ. unfold with_key in HQ. apply (wp_with_key kt); [done|intros b Eb|intros e Ee; by rewrite Ee in HQ].
  rewrite Eb in HQ. cbn [mbind result_bind] in HQ. eapply wp_multi_open; [exact Hr|]. intros c Hc _.
  eapply wp_flat_move; [exact Hr|done|by intros _; eapply key_fits|by intros; engine_error_case|].
  rewrite ahead_from_place, (place_sort kt k b) by done.
  destruct (from_place kt σ (place kt k)) as [|p rest]; [intros; by apply wp_ret|]. intros c' _ _ Hp.
  apply wp_ret_bind. by apply wp_found_record.
Qed.

Lemma wp_multi_front {A} context (read : bytes → bytes → result A) (g : numbered → A) Q :
  (∀ p, p ∈ flat kt σ → read (stored kt p.1) (entry p.2) = Ok (g p)) →
  Q (Ok (g <$> head (flat kt σ))) v → wp (at_end t (fun c => cursor_get c MDBX_FIRST []) context read) Q v.
Proof.
  intros Hg HQ. eapply wp_multi_open; [exact Hr|]. intros c Hc _.
  eapply wp_flat_move; [exact Hr|done|done|by intros; engine_error_case|].
  assert (ahead_of kt σ c MDBX_FIRST [] = flat kt σ) as -> by by apply filter_all.
  destruct (flat kt σ) as [|p rest] eqn:E; [intros; by apply wp_ret|]. intros c' _ _ Hp. apply wp_ret_bind, wp_lift_bind.
  rewrite Hg by done. by apply wp_ret.
Qed.

Lemma wp_multi_end {A} context (read : bytes → bytes → result A) (g : numbered → A) Q :
  (∀ p, p ∈ flat kt σ → read (stored kt p.1) (entry p.2) = Ok (g p)) →
  Q (Ok (g <$> last (flat kt σ))) v → wp (at_end t (fun c => cursor_get_back c MDBX_LAST) context read) Q v.
Proof.
  intros Hg HQ. eapply wp_multi_open; [exact Hr|]. intros c Hc _.
  assert (behind_of kt σ c MDBX_LAST = flat kt σ) as Eb by by apply filter_all.
  eapply wp_flat_back; [exact Hr|done|by intros; engine_error_case|..].
  - intros p rest c' E _ _ Hp. rewrite <- Eb, E, last_snoc in HQ. apply wp_ret_bind, wp_lift_bind.
    rewrite Hg by done. by apply wp_ret.
  - intros E k x c'. rewrite <- Eb, E in HQ. by apply wp_ret.
Qed.

Lemma flat_key p : p ∈ flat kt σ → deserialize_key kt (stored kt p.1) = Ok p.1.
Proof. intros Hp. apply decode_key; [done|]. by apply (flat_member_ok kt fuel t v n σ Hr). Qed.

Lemma wp_multi_contains_range a b Q :
  key_ok kt a → key_ok kt b → Q (with_keys kt a b (bool_decide (between σ a b ≠ []))) v →
  wp (db_contains_range kt t a b) Q v.
Proof.
  intros Ha Hb HQ. rewrite <- with_keys_Ok in HQ. eapply wp_multi_range; [exact Hr|done|done|..].
  - intros e E. by rewrite E in HQ.
  - intros E Hlt. by rewrite E, in_range_empty in HQ.
  - intros lo hi c E El Eh Hl Hh Hc. rewrite E in HQ. cbn [mbind result_bind] in HQ. rewrite <- El, <- Eh, <- up_to_from in HQ.
    eapply wp_flat_move; [exact Hr|done|done|by intros; engine_error_case|].
    pose proof (ahead_in_order kt fuel t v n σ Hr c MDBX_SET_RANGE lo) as Ho. rewrite ahead_from_place in Ho |- *.
    destruct (from_place kt σ (sort_key fl lo)) as [|p rest]; [intros; by apply wp_ret|].
    intros c' _ _ Hp. apply wp_ret_bind. eapply wp_cmp_above; [exact Hr|done|done|]. intros o Eo. apply wp_ret.
    rewrite Z.gtb_ltb in Eo. rewrite Z.leb_antisym, Eo. destruct (decide (bytes_le (rk kt p) (sort_key fl hi))) as [Hle|Hgt].
    + unfold up_to in HQ. rewrite filter_cons, decide_True in HQ by done. by rewrite bool_decide_false by naive_solver.
    + rewrite (up_to_beyond kt) in HQ by done. by rewrite bool_decide_true.
Qed.

Lemma from_after k p rest :
  from_place kt σ k = p :: rest → bytes_lt k (rk kt p) → head (after_place kt σ k) = Some p.
Proof.
  intros E Hlt. assert (after_place kt σ k = filter (fun q => bytes_lt k (rk kt q)) (from_place kt σ k)) as ->.
  { unfold after_place, from_place. rewrite filter_twice. apply list_filter_iff. intros q. split; [|naive_solver].
    intros ?. split; [by apply bytes_lt_le|done]. }
  by rewrite E, filter_cons, decide_True.
Qed.

Lemma behind_bucket p q : p ∈ flat kt σ → q ∈ flat kt σ →
  (¬ in_bucket mfl (stored kt p.1) (item_of kt q) ∧ bytes_lt (item_of kt p) (item_of kt q)) ↔ bytes_lt (rk kt p) (rk kt q).
Proof.
  intros [Hp _]%(flat_member_ok kt fuel t v n σ Hr) [Hq _]%(flat_member_ok kt fuel t v n σ Hr).
  rewrite (in_bucket_item_of kt) by done. split.
  - intros [Hne Hlt]. pose proof (item_le_key kt _ _ Hlt) as [|E]%bytes_le_lteq; [done|]. exfalso. apply Hne. by apply rank_inj in E.
  - intros Hlt. split; [|by apply item_lt_key]. intros E. unfold rk in Hlt. rewrite E in Hlt. by apply bytes_lt_irrefl in Hlt.
Qed.

Lemma wp_multi_upper_bound k Q :
  key_ok kt k → Q (with_key kt k (shown kt <$> head (after_place kt σ (place kt k)))) v → wp (db_upper_bound kt t k) Q v.
Proof.
  intros Hk HQ. unfold with_key in HQ. apply (wp_with_key kt); [done|intros b Eb|intros e Ee; by rewrite Ee in HQ].
  rewrite Eb in HQ. cbn [mbind result_bind] in HQ. eapply wp_multi_open; [exact Hr|]. intros c Hc _.
  pose proof (key_fits kt k b Hk Eb) as Hf.
  eapply wp_flat_move; [exact Hr|done|done|by intros; engine_error_case|].
  rewrite ahead_from_place, (place_sort kt k b) by done. destruct (from_place kt σ (place kt k)) as [|p rest] eqn:E.
  { intros k' x c' _. apply wp_ret. assert (after_place kt σ (place kt k) = []) as En; [|by rewrite En in HQ].
    apply filter_none, Forall_forall. intros q Hq Hlt. apply (not_elem_of_nil q). rewrite <- E.
    apply list_elem_of_filter. split; [by apply bytes_lt_le|done]. }
  intros c' Hc' _ Hp. assert (bytes_le (place kt k) (rk kt p)) as Hle.
  { assert (p ∈ from_place kt σ (place kt k)) as [? _]%list_elem_of_filter by (rewrite E; left). done. }
  apply wp_ret_bind. destruct (flat_member_ok kt fuel t v n σ Hr p Hp) as [Hg _].
  eapply wp_multi_cmp; [exact Hr|by apply good_key_fits|done|]. fold (rank kt p.1). fold (rk kt p).
  rewrite (place_sort kt k b) by done. intros o Ho1 Ho2. destruct (Z.eqb_spec o 0) as [->|Hne].
  - assert (rk kt p = place kt k) as Epk.
    { apply bytes_compare_eq. destruct (bytes_compare (rk kt p) (place kt k)); [done|exfalso..]; intuition lia. }
    eapply wp_next_nodup; [by eapply multi_bound|exact Hc'|by intros; engine_error_case|].
    rewrite (holds_flat_where kt _ _ (mr_holds _ _ _ _ _ _ Hr)).
    match goal with |- context [rec_of kt <$> ?l] => replace l with (after_place kt σ (place kt k)) end.
    2: { apply filter_ext_in. intros q Hq. rewrite <- Epk. symmetry. by apply behind_bucket. }
    destruct (after_place kt σ (place kt k)) as [|q rest'] eqn:Ea; [intros k0 x0 c0; by apply wp_ret|].
    assert (q ∈ flat kt σ) as Hq. { assert (q ∈ after_place kt σ (place kt k)) as [_ ?]%list_elem_of_filter by (rewrite Ea; left). done. }
    rewrite fmap_cons. intros k' c2 [<- _]%(inj2 (item mfl)). apply wp_ret_bind. by apply wp_found_record.
  - apply wp_found_record; [done|]. rewrite (from_after _ _ _ E) in HQ; [done|].
    apply bytes_le_lteq in Hle as [|Heq]; [done|]. exfalso. rewrite Heq in *.
    rewrite (proj2 (bytes_compare_eq _ _) eq_refl) in *. apply Hne.
    assert (¬ o > 0) by (rewrite Ho1; done). assert (¬ o < 0) by (rewrite Ho2; done). lia.
Qed.

(** *** Downwards *)

Lemma wp_reverse_records m lo max c p rest out Q :
  fits kt lo → on_item kt t c p → rest = behind_of kt σ c MDBX_PREV → p ∈ flat kt σ → (length rest + 1 < m)%nat →
  Q (Ok (collect_down kt (sort_key fl lo) max out (shown kt <$> p :: reverse rest))) v →
  wp (reverse_records kt t m lo max (MDBX_SUCCESS, stored kt p.1, entry p.2, c) out) Q v.
Proof.
  intros Hlo. revert c p rest out. induction m as [|m IH]; intros c p rest out Hc Er Hp Hm HQ; [lia|].
  cbn [reverse_records]. rewrite Z.eqb_refl. destruct (flat_member_ok kt fuel t v n σ Hr p Hp) as [Hg _].
  eapply wp_multi_cmp; [exact Hr|by apply good_key_fits|done|].
  fold (rank kt p.1). intros o _ Ho. rewrite fmap_cons in HQ. cbn [collect_down shown fst] in HQ.
  destruct (decide (bytes_lt (rank kt p.1) (sort_key fl lo))) as [Hlt|Hge].
  { rewrite (proj2 (Z.ltb_lt _ _)) by (by apply Ho). by apply wp_ret. }
  rewrite (proj2 (Z.ltb_ge _ _)) by (assert (¬ o < 0) by (by rewrite Ho); lia).
  apply wp_lift_bind. rewrite (decode_raw kt _ fuel t v n σ Hr) by done. cbv zeta in HQ |- *. fold (shown kt p) in HQ.
  destruct (match max with Some _ => _ | None => _ end); [by apply wp_ret|].
  eapply wp_flat_back; [exact Hr|apply Hc| |..].
  - intros rc k x c' He. destruct m as [|m]; [lia|]. cbn [reverse_records]. engine_error_case.
  - intros q rest' c' E Hq Er' Hqin. rewrite <- Er in E. rewrite E, reverse_snoc in HQ.
    eapply IH; [exact Hq|exact Er'|done| |done]. rewrite E, length_app in Hm. cbn in Hm. lia.
  - intros E k x c'. rewrite <- Er in E. rewrite E in HQ.
    destruct m as [|m]; [lia|]. cbn [reverse_records]. by apply wp_ret.
Qed.

Abbreviation below hi := (up_to kt hi (flat kt σ)).

Lemma below_in_order hi : in_order kt (below hi).
Proof. apply StronglySorted_filter. by eapply flat_in_order. Qed.

Lemma below_none hi : from_place kt σ hi = [] → below hi = flat kt σ.
Proof.
  intros E. apply filter_all. intros p Hp. apply bytes_lt_le, bytes_nle_lt. intros Hle.
  apply (not_elem_of_nil p). rewrite <- E. by apply list_elem_of_filter.
Qed.

(** The pairs before the first one above the bound. *)
Lemma below_above hi p rest :
  from_place kt σ hi = p :: rest → ¬ bytes_le (rk kt p) hi →
  below hi = filter (fun q => bytes_lt (item_of kt q) (item_of kt p)) (flat kt σ).
Proof.
  intros E Hp. apply filter_ext_in. intros q Hq. split.
  - intros Hle. apply item_lt_key. apply bytes_nle_lt. intros Hle'. apply Hp. by etrans.
  - intros Hlt. apply bytes_nlt_le. intros Hgt.
    assert (q ∈ from_place kt σ hi) as Hin by (apply list_elem_of_filter; split; [by apply bytes_lt_le|done]).
    assert (in_order kt (from_place kt σ hi)) as Ho by (apply StronglySorted_filter; by eapply flat_in_order).
    rewrite E in Hin, Ho. apply StronglySorted_inv in Ho as [_ Ho]. rewrite Forall_forall in Ho.
    apply elem_of_cons in Hin as [->|Hin]; [by apply bytes_lt_irrefl in Hlt|].
    eapply bytes_lt_irrefl, bytes_lt_trans; [exact Hlt|by apply Ho].
Qed.

(** The last value of a key on the bound is the last pair not above it. *)
Lemma below_on p e :
  p ∈ flat kt σ → last (entries kt σ p.1) = Some e → ∃ rest, below (rk kt p) = rest ++ [(p.1, e)].
Proof.
  intros Hp He. destruct (flat_member_ok kt fuel t v n σ Hr p Hp) as [Hg _]. pose proof (mr_holds _ _ _ _ _ _ Hr) as Hm.
  assert (e ∈ entries kt σ p.1) as Hin by by apply last_Some_elem_of.
  assert ((p.1, e) ∈ below (rk kt p)) as Hq by (apply list_elem_of_filter; split; [by apply reflexivity|by apply elem_of_flat]).
  assert (∀ r, r ∈ below (rk kt p) → bytes_le (item_of kt r) (item_of kt (p.1, e))) as Hmax.
  { intros [k e'] [Hle Hk]%list_elem_of_filter. destruct (flat_member_ok kt fuel t v n σ Hr (k, e') Hk) as [Hgk _]. cbn [fst] in *.
    apply bytes_le_lteq in Hle as [Hlt|E]; [by apply bytes_lt_le, item_lt_key|]. apply rank_inj in E; [|done|done]. cbn in E. subst k.
    apply elem_of_flat in Hk. unfold bytes_le, item_of. cbn [fst snd]. rewrite item_compare_value.
    apply last_Some in He as [l El]. pose proof (entries_all kt _ _ Hm p.1) as Hge. rewrite El in Hk, Hge.
    apply elem_of_app in Hk as [Hk|Hk]; [|apply list_elem_of_singleton in Hk as ->; by apply (reflexivity (R := bytes_le))].
    apply entries_sorted_bytes in Hge. rewrite fmap_app in Hge. apply StronglySorted_app in Hge as (Hlt & _).
    apply (bytes_lt_le (entry e') (entry e)), Hlt; [by apply list_elem_of_fmap_2|cbn; left]. }
  pose proof (below_in_order (rk kt p)) as Ho.
  destruct (below (rk kt p)) as [|q l _] eqn:E using rev_ind; [by apply elem_of_nil in Hq|]. exists l. do 2 f_equal.
  apply elem_of_app in Hq as [Hq|Hq]; [|by apply list_elem_of_singleton in Hq].
  exfalso. apply StronglySorted_app in Ho as (Hlt & _). specialize (Hlt _ q Hq ltac:(left)).
  apply bytes_nle_lt in Hlt. apply Hlt, Hmax. set_solver.
Qed.

(** [reverse_start] finds the last pair not above the bound. *)
Lemma wp_reverse_start c hi {A} (f : Z * bytes * bytes * cursor → M A) Q :
  fits kt hi → cursor_dbi c = t_dbi t →
  (∀ rc k x c', engine_error rc → wp (f (rc, k, x, c')) Q v) →
  (∀ p rest c', below (sort_key fl hi) = rest ++ [p] → on_item kt t c' p → rest = behind_of kt σ c' MDBX_PREV → p ∈ flat kt σ →
     wp (f (MDBX_SUCCESS, stored kt p.1, entry p.2, c')) Q v) →
  (below (sort_key fl hi) = [] → ∀ k x c', wp (f (MDBX_NOTFOUND, k, x, c')) Q v) →
  wp (reverse_start t c hi ≫= f) Q v.
Proof.
  intros Hh Hc HE HQ HN. unfold reverse_start. apply wp_assoc.
  assert (∀ rc (k x : bytes) (c' : cursor), engine_error rc → rc ≠ MDBX_SUCCESS ∧ rc ≠ MDBX_NOTFOUND) as Herr.
  { intros rc k x c' He. split; intros ->; apply law_error in He; set_solver. }
  eapply wp_flat_move; [exact Hr|done|done| |].
  { intros rc k x c' He. destruct (Herr rc k x c' He). cbv beta iota. rewrite !(proj2 (Z.eqb_neq rc _)) by done. apply wp_ret_bind. by apply HE. }
  rewrite ahead_from_place. destruct (from_place kt σ (sort_key fl hi)) as [|p rest] eqn:E.
  { intros k x c' Hc'. rewrite (below_none _ E) in HQ, HN. cbn.
    assert (behind_of kt σ c' MDBX_LAST = flat kt σ) as Eb by by apply filter_all.
    eapply wp_flat_back; [exact Hr|done|done| |].
    - intros p rest c2 E2 Hc2 Er Hp. apply (HQ p rest); [by rewrite <- Eb|done|done|done].
    - intros E2. apply HN. by rewrite <- Eb. }
  intros c' Hc' _ Hp. cbn. apply wp_assoc. eapply wp_cmp_above; [exact Hr|done|done|]. intros o Eo. rewrite Eo.
  destruct (decide (bytes_le (rk kt p) (sort_key fl hi))) as [Hle|Hgt].
  2: { rewrite bool_decide_true by done. rewrite (below_above _ _ _ E Hgt), <- (behind_prev_item kt t σ c' p Hc') in HQ, HN.
       eapply wp_flat_back; [exact Hr|apply Hc'|done|done|done]. }
  rewrite bool_decide_false by naive_solver. apply wp_assoc.
  assert (rk kt p = sort_key fl hi) as Ep.
  { apply bytes_le_lteq in Hle as [Hlt|]; [|done]. apply bytes_nle_lt in Hlt. exfalso. apply Hlt.
    assert (p ∈ from_place kt σ (sort_key fl hi)) as [? _]%list_elem_of_filter by (rewrite E; left). done. }
  destruct (flat_member_ok kt fuel t v n σ Hr p Hp) as [Hg _].
  eapply wp_multi_cmp; [exact Hr|by apply good_key_fits|done|]. fold (rank kt p.1). fold (rk kt p). rewrite Ep.
  rewrite (proj2 (bytes_compare_eq (sort_key fl hi) _) eq_refl). intros o2 Ho1 Ho2.
  assert (o2 = 0) as -> by (assert (¬ o2 > 0) by (by rewrite Ho1); assert (¬ o2 < 0) by (by rewrite Ho2); lia). cbn [Z.eqb].
  pose proof (mr_holds _ _ _ _ _ _ Hr) as Hm. apply wp_assoc. eapply wp_last_dup; [by eapply multi_bound|exact Hc'| | |].
  - apply (holds_lookup_item kt _ _ Hm). destruct p. by apply elem_of_flat.
  - intros rc k x c2 He. destruct (Herr rc k x c2 He). cbv beta iota. rewrite !(proj2 (Z.eqb_neq rc _)) by done. apply wp_ret_bind. by apply HE.
  - intros x c2 Hx Hc2. rewrite (holds_values kt _ _ Hm) in Hx by done. rewrite fmap_last in Hx.
    apply fmap_Some in Hx as (e & He & ->). cbn. apply wp_ret_bind.
    destruct (below_on p e Hp He) as [rest' Eb]. rewrite Ep in Eb.
    assert ((p.1, e) ∈ flat kt σ) as Hin by (apply elem_of_flat; by apply last_Some_elem_of).
    apply (HQ (p.1, e) rest' c2 Eb Hc2); [|done]. rewrite (behind_prev_item kt t σ c2 (p.1, e) Hc2).
    refine (ascending_last (item_of kt) _ _ _ _ (flat_in_order kt fuel t v n σ Hr) _ Eb).
    intros q q' Hle' Hq'%item_le_rk. by etrans.
Qed.

Lemma collect_below_range lo hi max :
  match max with Some m => 0 < m | None => True end →
  collect_down kt lo max [] (shown kt <$> reverse (below hi)) = first_of max (shown kt <$> reverse (in_range kt σ lo hi)).
Proof.
  intros Hm. rewrite collect_down_take; [|apply (StronglySorted_map (fun p q => bytes_le (rk kt q) (rk kt p))); [done|]|done].
  - cbn [app]. f_equal. rewrite filter_map. f_equal. cbn. rewrite filter_reverse. f_equal.
    unfold up_to, in_range. rewrite filter_twice. apply list_filter_iff. unfold rk. naive_solver.
  - apply (sorted_reverse (fun p q => bytes_le (rk kt p) (rk kt q))). rewrite <- (list_fmap_id (below hi)).
    eapply (StronglySorted_map _ _ id), below_in_order. intros p q. apply item_le_key.
Qed.

Lemma wp_multi_reverse max a b Q :
  match max with Some m => 0 < m | None => True end → key_ok kt a → key_ok kt b →
  Q (with_keys kt a b (first_of max (shown kt <$> reverse (between σ a b)))) v →
  wp (with_range kt t a b [] (reverse_range kt fuel t max)) Q v.
Proof.
  intros Hm Ha Hb HQ. rewrite <- with_keys_Ok in HQ. eapply wp_multi_range; [exact Hr|done|done|..].
  - intros e E. by rewrite E in HQ.
  - intros E Hlt. rewrite E, in_range_empty in HQ by done. cbn [mbind result_bind] in HQ. rewrite reverse_nil in HQ.
    destruct max; cbn [first_of fmap list_fmap] in HQ; [by rewrite take_nil in HQ|done].
  - intros lo hi c E El Eh Hl Hh Hc. rewrite E in HQ. cbn [mbind result_bind] in HQ.
    rewrite <- El, <- Eh, <- collect_below_range in HQ by done. unfold reverse_range.
    apply wp_reverse_start; [done|done|by intros; engine_error_case|..].
    + intros p rest c' Eb Hc' Er Hp. cbn. apply wp_ret_bind. eapply wp_reverse_records; [done|exact Hc'|exact Er|done| |].
      * assert (length (below (sort_key fl hi)) < fuel)%nat as Hlen.
        { eapply Nat.le_lt_trans; [apply length_filter|by eapply flat_fuel]. }
        rewrite Eb, length_app in Hlen. cbn in Hlen. lia.
      * by rewrite Eb, reverse_snoc in HQ.
    + intros Eb k x c'. cbn. apply wp_ret. by rewrite Eb in HQ.
Qed.

Lemma wp_multi_range_reverse a b Q :
  key_ok kt a → key_ok kt b → Q (with_keys kt a b (shown kt <$> reverse (between σ a b))) v →
  wp (db_range_reverse kt fuel t a b) Q v.
Proof. intros Ha Hb HQ. by apply wp_multi_reverse. Qed.

Lemma wp_multi_range_reverse_limit a b m Q :
  0 ≤ m → key_ok kt a → key_ok kt b →
  Q (if m =? 0 then Ok [] else with_keys kt a b (take (Z.to_nat m) (shown kt <$> reverse (between σ a b)))) v →
  wp (db_range_reverse_limit kt fuel t a b m) Q v.
Proof.
  intros Hm Ha Hb HQ. unfold db_range_reverse_limit. destruct (Z.eqb_spec m 0); [by apply wp_ret|].
  apply wp_multi_reverse; [lia|done..].
Qed.
End At.
End Methods.
