(* ===== verification/MultiReconcile.v ===== *)
(** * KeyMultiValueTable: erasing ranges and reconciliation

    The two methods that delete pairs while they walk over the whole table.  The walk is
    stated of the content as a list: what is before the cursor and what it still has to
    meet. *)
From S2P Require Import Prelude SyncCommon KeyCodec ValueCodec Mdbx DupSort DupRules Clients StoreBase TableBase KvTable.
From S2P Require Import MultiContent MultiBase MultiTable MultiRules MultiRanges.
Open Scope Z_scope.

(** ** Contents as lists *)

Section Lists.
Context (kt : key_type) {V : Type} `{!TableValue V}.
Abbreviation K := (key_val kt).
Abbreviation content := (gmap K (list (Z * V))).
Abbreviation numbered := (K * (Z * V))%type.

Definition item_lt (p q : numbered) : Prop := bytes_lt (item_of kt p) (item_of kt q).

#[local] Instance item_lt_order : StrictOrder item_lt.
Proof.
  split; [intros p; apply bytes_lt_irrefl|]. intros p q r. apply bytes_lt_trans.
Qed.

#[local] Instance entry_lt_order : StrictOrder (entry_lt (V := V)).
Proof. split; [intros e; unfold complement, entry_lt; lia|]. intros a b c. apply entry_lt_trans. Qed.

Definition well_formed (σ : content) : Prop := map_Forall (fun k l => good_key kt k ∧ l ≠ [] ∧ good_entries l) σ.

(** The content is determined by its pairs. *)
Lemma content_determined σ σ' :
  well_formed σ → well_formed σ' → (∀ p, p ∈ flat kt σ ↔ p ∈ flat kt σ') → σ = σ'.
Proof.
  intros Hw Hw' Hp. assert (∀ (τ : content) k, well_formed τ → good_entries (entries kt τ k)) as Hg.
  { intros τ k Ht. unfold entries. destruct (τ !! k) as [l|] eqn:E; [by apply (Ht k l)|by split; constructor]. }
  assert (∀ k, entries kt σ k = entries kt σ' k) as He.
  { intros k. apply (strictly_sorted_ext entry_lt); [by apply Hg|by apply Hg|]. intros e. by rewrite <- !elem_of_flat. }
  apply map_eq. intros k. specialize (He k). unfold entries in He.
  destruct (σ !! k) as [l|] eqn:E, (σ' !! k) as [l'|] eqn:E'; cbn in He; [by subst| | |done].
  - by destruct (Hw k l E) as (_ & [] & _).
  - by destruct (Hw' k l' E') as (_ & [] & _).
Qed.

Section Holds.
Context (m : gmap bytes bytes) (σ : content) (H : holds_multi kt m σ).

Lemma flat_NoDup : NoDup (flat kt σ).
Proof. apply (strictly_sorted_NoDup item_lt). by eapply flat_sorted. Qed.

(** Where a pair of the list is among the values of its key. *)
Lemma flat_split l1 p l2 :
  flat kt σ = l1 ++ p :: l2 → ∃ e1 e2, entries kt σ p.1 = e1 ++ p.2 :: e2 ∧
    ∀ m', holds_multi kt m' (set_entries kt p.1 (e1 ++ e2) σ) → flat kt (set_entries kt p.1 (e1 ++ e2) σ) = l1 ++ l2.
Proof.
  intros E. assert (p ∈ flat kt σ) as Hp by (rewrite E; set_solver). destruct p as [k e]. cbn [fst snd].
  apply elem_of_flat in Hp. apply list_elem_of_split in Hp as (e1 & e2 & Ee). exists e1, e2. split; [done|]. intros m' H'.
  pose proof (flat_sorted kt _ _ H) as Hs. pose proof flat_NoDup as Hnd. rewrite E in Hs, Hnd.
  apply (strictly_sorted_ext item_lt); [by eapply flat_sorted| |].
  { apply StronglySorted_app in Hs as (Hlt & H1 & [H2 H2']%StronglySorted_inv). apply StronglySorted_app_2; [|done|done].
    intros a b Ha Hb. apply Hlt; [done|by right]. }
  intros [k' e']. rewrite elem_of_flat, entries_set. destruct (decide (k = k')) as [<-|Hne].
  - assert (e ∉ e1 ++ e2) as Hn.
    { pose proof (strictly_sorted_NoDup entry_lt _ (ge_sorted _ (entries_all kt _ _ H k))) as Hd. rewrite Ee in Hd.
      apply NoDup_app in Hd as (_ & Hd & [Hd' _]%NoDup_cons). set_solver. }
    assert ((k, e') ∈ flat kt σ ↔ e' ∈ entries kt σ k) as Hf by apply elem_of_flat. rewrite E, Ee in Hf.
    apply NoDup_app in Hnd as (_ & Hd & [Hd' _]%NoDup_cons).
    split; intros Hin.
    + assert ((k, e') ∈ l1 ++ (k, e) :: l2) as Hin' by (apply Hf; set_solver).
      assert ((k, e') ≠ (k, e)) by (intros [= ->]; done). set_solver.
    + assert (e' ∈ e1 ++ e :: e2) as He' by (apply Hf; set_solver).
      assert (e' ≠ e) by (intros ->; set_solver). set_solver.
  - rewrite <- elem_of_flat, E. set_solver.
Qed.

Lemma flat_filter_after l1 p l2 : flat kt σ = l1 ++ p :: l2 → filter (fun q => bytes_lt (item_of kt p) (item_of kt q)) (l1 ++ l2) = l2.
Proof.
  intros E. pose proof (flat_sorted kt _ _ H) as Hs. rewrite E in Hs. apply StronglySorted_app in Hs as (Hlt & _ & [_ Hp]%StronglySorted_inv).
  rewrite filter_app, filter_none, filter_all; [done|..].
  - rewrite Forall_forall in Hp. done.
  - apply Forall_forall. intros q Hq Hlt'. eapply bytes_lt_irrefl, bytes_lt_trans; [exact Hlt'|]. apply Hlt; [done|left].
Qed.

(** A new value of a key is one more pair. *)
Lemma flat_add k e :
  (∀ m', holds_multi kt m' (set_entries kt k (entries kt σ k ++ [e]) σ) → e ∉ entries kt σ k →
    flat kt (set_entries kt k (entries kt σ k ++ [e]) σ) ≡ₚ (k, e) :: flat kt σ).
Proof.
  intros m' H' Hn. apply NoDup_Permutation.
  - apply (strictly_sorted_NoDup item_lt). by eapply flat_sorted.
  - constructor; [by rewrite elem_of_flat|apply flat_NoDup].
  - intros [k' e']. rewrite elem_of_cons, !elem_of_flat, entries_set. destruct (decide (k = k')) as [<-|Hne]; [|naive_solver].
    rewrite elem_of_app, list_elem_of_singleton. naive_solver.
Qed.
End Holds.
End Lists.

(** ** Deleting while walking *)

Section Walks.
Context {X : Mdbx} {D : MdbxDup X} {L : MdbxLaws X} {DL : MdbxDupLaws X D L}.
Context (kt : key_type) `{!KeyReadable kt} {V : Type} `{!TableValue V} (fuel : nat) (limit : Z) (t : table_obj).
Abbreviation K := (key_val kt).
Abbreviation fl := (get_mdbx_flags kt).
Abbreviation content := (gmap K (list (Z * V))).
Abbreviation numbered := (K * (Z * V))%type.
Abbreviation kept := (v_only (t_name t)).

Lemma rep_well_formed v n σ : multi_rep kt fuel t v n σ → well_formed kt σ.
Proof. intros Hr. apply (hu_good _ _ _ (mr_holds _ _ _ _ _ _ Hr)). Qed.

(** The pair [p] the cursor is on goes; the rest of the walk stays. *)
Lemma wp_delete_pair {A} v n σ l1 p l2 c context (f : cursor → M A) Q :
  multi_rep kt fuel t v n σ → flat kt σ = l1 ++ p :: l2 → on_item kt t c p →
  (∀ v' σ' c', multi_rep kt fuel t v' n σ' → flat kt σ' = l1 ++ l2 → kept v v' → cursor_dbi c' = t_dbi t →
     ahead_of kt σ' c' MDBX_NEXT [] = l2 → wp (f c') Q v') →
  wp (delete_here c context ≫= f) Q v.
Proof.
  intros Hr E Hc HQ. pose proof (mr_holds _ _ _ _ _ _ Hr) as Hm.
  destruct (flat_split kt _ _ Hm l1 p l2 E) as (e1 & e2 & Ee & Hflat).
  destruct (flat_member_ok kt fuel t v n σ Hr p) as [Hg _]; [rewrite E; set_solver|].
  eapply wp_delete_here; [exact Hr|exact Hg|exact Ee|exact Hc|]. intros v' c' Hc' _ Hr' Hk.
  pose proof (Hflat _ (mr_holds _ _ _ _ _ _ Hr')) as E'. eapply HQ; [exact Hr'|exact E'|done|apply Hc'|].
  rewrite (ahead_next_item kt t _ c' p Hc'), E'. by eapply flat_filter_after.
Qed.

Lemma ahead_split σ l1 p l2 c v n :
  multi_rep kt fuel t v n σ → flat kt σ = l1 ++ p :: l2 → on_item kt t c p → ahead_of kt σ c MDBX_NEXT [] = l2.
Proof.
  intros Hr E Hc. rewrite (ahead_next_item kt t σ c p Hc), E. pose proof (mr_holds _ _ _ _ _ _ Hr) as Hm.
  rewrite <- (flat_filter_after kt _ _ Hm l1 p l2 E) at 2. rewrite !filter_app, filter_cons, decide_False by apply bytes_lt_irrefl. done.
Qed.

Lemma wp_erase_records m hi v n σ l1 l2 c op key removed Q :
  multi_rep kt fuel t v n σ → fits kt hi → cursor_dbi c = t_dbi t → (op = MDBX_SET_RANGE → fits kt key) →
  flat kt σ = l1 ++ l2 → ahead_of kt σ c op key = l2 → (length l2 < m)%nat → 0 ≤ removed < 2 ^ 64 →
  (∀ v' σ', multi_rep kt fuel t v' n σ' → kept v v' →
     flat kt σ' = l1 ++ filter (fun p => ¬ bytes_le (rk kt p) (sort_key fl hi)) l2 →
     Q (Ok ((removed + Z.of_nat (length (up_to kt (sort_key fl hi) l2))) mod 2 ^ 64)) v') →
  wp (erase_records t m hi c op key removed) Q v.
Proof.
  intros Hr Hh. revert v σ l1 l2 c op key removed Hr. induction m as [|m IH]; intros v σ l1 l2 c op key removed Hr Hc Hf E Ea Hm Hz HQ; [lia|].
  cbn [erase_records]. pose proof (ahead_in_order kt fuel t v n σ Hr c op key) as Ho.
  eapply wp_flat_move; [exact Hr|done|done|by intros; engine_error_case|]. rewrite Ea in *.
  destruct l2 as [|p l2].
  { intros k x c' _. apply wp_ret. rewrite <- (Z.mod_small removed (2 ^ 64)) by done. rewrite <- (Z.add_0_r removed). by apply (HQ v σ). }
  intros c' Hc' _ Hp. rewrite Z.eqb_refl. eapply wp_cmp_above; [exact Hr|done|done|]. intros o ->.
  destruct (decide (bytes_le (rk kt p) (sort_key fl hi))) as [Hle|Hgt].
  - rewrite bool_decide_false by naive_solver. eapply wp_delete_pair; [exact Hr|exact E|exact Hc'|].
    intros v' σ' c2 Hr' E' Hk Hc2 Ea'. eapply (IH v' σ' l1 l2); [done|done|done|done|done|cbn in Hm; lia|apply Z.mod_pos_bound; lia|].
    intros v2 σ2 Hr2 Hk2 E2. assert ((removed + Z.of_nat (length (up_to kt (sort_key fl hi) (p :: l2)))) mod 2 ^ 64 =
      ((removed + 1) mod 2 ^ 64 + Z.of_nat (length (up_to kt (sort_key fl hi) l2))) mod 2 ^ 64) as <-.
    { rewrite Zplus_mod_idemp_l. unfold up_to. rewrite filter_cons, decide_True by done. cbn [length]. f_equal. lia. }
    apply (HQ v2 σ2); [done|by etrans|]. rewrite filter_cons, decide_False by naive_solver. done.
  - rewrite bool_decide_true by done. apply wp_ret. rewrite (up_to_beyond kt) in HQ by done. cbn [length Z.of_nat] in HQ.
    rewrite Z.add_0_r, Z.mod_small in HQ by done. apply (HQ v σ); [done|done|]. rewrite E. f_equal. symmetry. apply filter_all.
    intros q Hq Hle. apply Hgt. apply elem_of_cons in Hq as [->|Hq]; [done|].
    apply StronglySorted_inv in Ho as [_ Ho]. rewrite Forall_forall in Ho. etrans; [exact (item_le_key kt _ _ (Ho q Hq))|done].
Qed.

Definition out_of_place (a b : K) (q : K * list (Z * V)) : Prop :=
  ¬ (bytes_le (place kt a) (rank kt q.1) ∧ bytes_le (rank kt q.1) (place kt b)).

(** The keys of the range go, with all their values. *)
Definition remove_range (a b : K) (σ : content) : result Z * content :=
  (with_keys kt a b (Z.of_nat (length (in_range kt σ (place kt a) (place kt b))) mod 2 ^ 64),
   match with_keys kt a b tt with Ok _ => filter (out_of_place a b) σ | Throw _ => σ end).

Lemma flat_at_place v n σ lo :
  multi_rep kt fuel t v n σ → flat kt σ = filter (fun p => ¬ bytes_le lo (rk kt p)) (flat kt σ) ++ from_place kt σ lo.
Proof.
  intros Hr. pose proof (flat_in_order kt fuel t v n σ Hr) as Ho. unfold from_place. revert Ho.
  generalize (flat kt σ). induction l as [|p l IH]; intros Ho; [done|]. apply StronglySorted_inv in Ho as [Ho Hp].
  rewrite Forall_forall in Hp. rewrite !filter_cons. destruct (decide (bytes_le lo (rk kt p))) as [Hle|Hlt].
  - rewrite decide_False by naive_solver. rewrite filter_none; [cbn; f_equal; symmetry; apply filter_all|]; [|apply Forall_forall];
      intros q Hq; [|intros Hn; apply Hn]; (etrans; [exact Hle|exact (item_le_key kt _ _ (Hp q Hq))]).
  - rewrite decide_True by done. cbn. f_equal. by apply IH.
Qed.

Lemma entries_filter (P : K * list (Z * V) → Prop) `{∀ q, Decision (P q)} (σ : content) k e :
  e ∈ entries kt (filter P σ) k ↔ ∃ l, σ !! k = Some l ∧ P (k, l) ∧ e ∈ l.
Proof.
  unfold entries. destruct (filter P σ !! k) as [l|] eqn:E; cbn.
  - apply map_lookup_filter_Some in E as [E HP]. rewrite E. naive_solver.
  - split; [by intros ?%elem_of_nil|]. intros (l & El & HP & _). exfalso.
    apply map_lookup_filter_None in E as [E|E]; [congruence|]. by apply (E l).
Qed.

Lemma refines_multi_erase_range a b :
  key_ok kt a → key_ok kt b → refines (multi_rep kt fuel t) kept 0 (db_erase_range kt fuel t a b) (does (remove_range a b)).
Proof.
  intros Ha Hb. apply refines_does. intros v n σ Hr. cbn [Nat.add] in Hr. unfold remove_range. cbn [fst snd]. rewrite <- with_keys_Ok.
  eapply wp_multi_range; [exact Hr|done|done|..].
  - intros e ->. done.
  - intros -> Hlt. rewrite in_range_empty by done. split; [done|]. split; [|done]. rewrite map_filter_id; [done|].
    intros k l _ [H1 H2]. apply bytes_nle_lt in Hlt. apply Hlt. by etrans.
  - intros lo hi c -> El Eh Hl Hh Hc. pose proof (flat_at_place v n σ (place kt a) Hr) as E. rewrite <- El in E.
    eapply wp_erase_records; [exact Hr|done|done|done|exact E|apply ahead_from_place| |lia|].
    { eapply Nat.le_lt_trans; [apply length_filter|by eapply flat_fuel]. }
    intros v' σ' Hr' Hk E'. rewrite Z.add_0_l. rewrite up_to_from, El, Eh. split; [done|]. split; [|done].
    assert (σ' = filter (out_of_place a b) σ) as <-; [|done].
    apply (content_determined kt); [by eapply rep_well_formed|intros k l [Hkl _]%map_lookup_filter_Some; exact (rep_well_formed v n σ Hr k l Hkl)|].
    intros [k e]. rewrite E', El, Eh, (elem_of_flat kt (filter _ σ)), entries_filter.
    unfold from_place. rewrite elem_of_app, !list_elem_of_filter, !elem_of_flat. unfold out_of_place, rk, entries. cbn [fst].
    destruct (σ !! k) as [l|]; cbn [default from_option id].
    + destruct (decide (bytes_le (place kt a) (rank kt k))); naive_solver.
    + split; [|naive_solver]. intros [[_ ?%elem_of_nil]|[_ [_ ?%elem_of_nil]]]; done.
Qed.

(** ** Reconciliation *)

(** How often a pair is in a list. *)
Definition tally (l : list SerializedPairKey) (s : SerializedPairKey) : Z :=
  Z.of_nat (List.count_occ (fun x y => decide (x = y)) l s).

Lemma tally_app l l' s : tally (l ++ l') s = tally l s + tally l' s.
Proof. unfold tally. rewrite List.count_occ_app. lia. Qed.

Lemma tally_cons x l s : tally (x :: l) s = (if decide (x = s) then 1 else 0) + tally l s.
Proof. unfold tally. cbn. destruct (decide (x = s)); lia. Qed.

Lemma tally_bound l s : 0 ≤ tally l s ≤ size_of l.
Proof. unfold tally, size_of. pose proof (List.count_occ_bound (fun x y => decide (x = y)) s l). lia. Qed.

Lemma tally_permutation l l' : (∀ s, tally l s = tally l' s) ↔ l ≡ₚ l'.
Proof.
  rewrite (Stdlib.Sorting.Permutation.Permutation_count_occ (fun x y => decide (x = y))). unfold tally.
  split; intros H s; specialize (H s); lia.
Qed.

Definition ser (p : numbered) : SerializedPairKey := (stored kt p.1, serialize_value p.2.2).
Definition wanted (p : K * V) : SerializedPairKey := (stored kt (key_canonical kt p.1), serialize_value p.2).
Definition canonical_pair (p : K * V) : K * V := (key_canonical kt p.1, p.2).

(** The error of the first key without a stored form. *)
Fixpoint key_error (l : list (K * V)) : option exn :=
  match l with
  | [] => None
  | (k, _) :: l => match serialize_key kt k with Throw e => Some e | Ok _ => key_error l end
  end.

Lemma count_of_up m s s' : 0 ≤ count_of m s < 2 ^ 64 - 1 →
  count_of (count_up m s) s' = count_of m s' + if decide (s = s') then 1 else 0.
Proof.
  intros Hs. unfold count_up, count_of, PairCountMap in *. destruct (decide (s = s')) as [<-|Hne].
  - rewrite lookup_insert_eq. cbn [default from_option id]. by rewrite Z.mod_small by lia.
  - rewrite lookup_insert_ne by done. by rewrite Z.add_0_r.
Qed.

Lemma desired_counts l desired :
  Forall (fun p => key_ok kt p.1) l → (∀ s, 0 ≤ count_of desired s) → (∀ s, count_of desired s + size_of l < 2 ^ 64) →
  match key_error l with
  | Some e => collect_reconcile_entries kt l desired = Throw e
  | None => ∃ desired', collect_reconcile_entries kt l desired = Ok ((fun p => (p, wanted p)) <$> l, desired') ∧
      ∀ s, count_of desired' s = count_of desired s + tally (wanted <$> l) s
  end.
Proof.
  intros Hl. revert desired. induction Hl as [|[k x] l Hk _ IH]; intros desired H0 Hd.
  { exists desired. split; [done|]. intros s. unfold tally. cbn. lia. }
  cbn [key_error collect_reconcile_entries]. unfold make_serialized_pair_key. destruct (serialize_key kt k) as [b|e] eqn:Eb; [|done].
  cbn [mbind result_bind]. assert ((b, serialize_value x) = wanted (k, x)) as ->.
  { unfold wanted. cbn [fst snd]. by rewrite (stored_canonical kt k b Hk Eb). }
  assert (size_of ((k, x) :: l) = size_of l + 1) as Esz by (unfold size_of; cbn [length]; lia). rewrite Esz in Hd.
  assert (0 ≤ size_of l) as Hsz by (unfold size_of; lia).
  assert (∀ s, count_of (count_up desired (wanted (k, x))) s = count_of desired s + if decide (wanted (k, x) = s) then 1 else 0) as Hup.
  { intros s. apply count_of_up. specialize (H0 (wanted (k, x))). specialize (Hd (wanted (k, x))). lia. }
  specialize (IH (count_up desired (wanted (k, x)))).
  assert (∀ s, 0 ≤ count_of (count_up desired (wanted (k, x))) s) as H0'.
  { intros s. rewrite Hup. specialize (H0 s). case_decide; lia. }
  assert (∀ s, count_of (count_up desired (wanted (k, x))) s + size_of l < 2 ^ 64) as Hd'.
  { intros s. rewrite Hup. specialize (Hd s). case_decide; lia. }
  specialize (IH H0' Hd'). destruct (key_error l) as [e|]; [by rewrite IH|]. destruct IH as (desired' & -> & IH).
  exists desired'. split; [done|]. intros s. rewrite IH, Hup, fmap_cons, tally_cons. lia.
Qed.

Lemma still_wanted_spec desired kept s :
  0 ≤ count_of kept s → still_wanted desired kept s = (count_of kept s <? count_of desired s).
Proof.
  intros H0. unfold still_wanted. destruct (desired !! s) as [d|] eqn:E.
  - unfold count_of at 3. by rewrite E.
  - unfold count_of at 2. rewrite E. symmetry. by apply Z.ltb_ge.
Qed.

Lemma stored_pair_ser p : stored_pair_key (stored kt p.1) (entry p.2) = Ok (ser p).
Proof. unfold stored_pair_key, strip_sequence. by rewrite strip_entry. Qed.

Lemma wp_erase_surplus m desired v n (σ : content) surv pre todo c kept_ (Q : result PairCountMap → db_view → Prop) :
  multi_rep kt fuel t v n σ → cursor_dbi c = t_dbi t → flat kt σ = surv ++ todo → ahead_of kt σ c MDBX_NEXT [] = todo →
  (length todo < m)%nat → (∀ s, 0 ≤ count_of desired s < 2 ^ 64) →
  (∀ s, count_of kept_ s = Z.min (tally (ser <$> pre) s) (count_of desired s)) →
  (∀ s, tally (ser <$> surv) s = count_of kept_ s) →
  (∀ v' σ' kept', multi_rep kt fuel t v' n σ' → kept v v' → (∀ p, p ∈ flat kt σ' → p ∈ flat kt σ) →
     (∀ s, count_of kept' s = Z.min (tally (ser <$> pre ++ todo) s) (count_of desired s)) →
     (∀ s, tally (ser <$> flat kt σ') s = count_of kept' s) → Q (Ok kept') v') →
  wp (erase_surplus (V := V) kt m desired c kept_) Q v.
Proof.
  revert v σ surv pre todo c kept_. induction m as [|m IH]; intros v σ surv pre todo c kept_ Hr Hc E Ea Hm Hd Hk Hs HQ; [lia|].
  cbn [erase_surplus]. eapply wp_flat_move; [exact Hr|done|done|by intros; engine_error_case|]. rewrite Ea.
  destruct todo as [|p todo].
  { intros k x c' _. apply wp_ret. rewrite app_nil_r in E, HQ. apply (HQ v σ); [done|done|done|done|]. by rewrite E. }
  intros c' Hc' _ Hp. rewrite Z.eqb_refl. apply wp_lift_bind. rewrite stored_pair_ser.
  assert (0 ≤ count_of kept_ (ser p)) as H0 by (rewrite <- Hs; apply tally_bound).
  rewrite still_wanted_spec by done. assert (pre ++ p :: todo = (pre ++ [p]) ++ todo) as Eapp by (by rewrite <- app_assoc).
  rewrite Eapp in HQ. pose proof (Hd (ser p)) as Hdp. destruct (Z.ltb_spec (count_of kept_ (ser p)) (count_of desired (ser p))) as [Hlt|Hge].
  - eapply (IH v σ (surv ++ [p]) (pre ++ [p]) todo); [done|apply Hc'|by rewrite <- app_assoc|by eapply ahead_split|cbn in Hm; lia|done| | |done].
    + intros s. rewrite count_of_up by lia. rewrite Hk, fmap_app, tally_app. change (ser <$> [p]) with [ser p]. rewrite tally_cons.
      change (tally [] s) with 0. destruct (decide (ser p = s)) as [<-|]; [|rewrite !Z.add_0_r; done].
      specialize (Hk (ser p)). lia.
    + intros s. rewrite count_of_up by lia. rewrite fmap_app, tally_app, Hs. change (ser <$> [p]) with [ser p]. rewrite tally_cons.
      change (tally [] s) with 0. destruct (decide (ser p = s)); lia.
  - apply wp_lift_bind. rewrite (decode_raw kt _ fuel t v n σ Hr) by done. eapply wp_delete_pair; [exact Hr|exact E|exact Hc'|].
    intros v' σ' c2 Hr' E' Hkv Hc2 Ea'. eapply (IH v' σ' surv (pre ++ [p]) todo); [done|done|done|done|cbn in Hm; lia|done| |done|].
    + intros s. rewrite Hk, fmap_app, tally_app. change (ser <$> [p]) with [ser p]. rewrite tally_cons.
      change (tally [] s) with 0. destruct (decide (ser p = s)) as [<-|]; [|rewrite !Z.add_0_r; done].
      specialize (Hk (ser p)). lia.
    + intros v2 σ2 kept' Hr2 Hkv2 Hin Hk2 Hs2. apply (HQ v2 σ2); [done|by etrans| |done|done].
      intros q Hq%Hin. rewrite E' in Hq. rewrite E. set_solver.
Qed.

Abbreviation exhausted := "Per-key multi-value sequence exhausted"%string.

(** Why a value cannot be added to the values of a key. *)
Definition insert_error (e : exn) : Prop :=
  e = overflow_error exhausted ∨ ∃ x, check_dupsort_value_size limit x = Throw e.

Lemma add_value_cases k x b (σ : content) m :
  holds_multi kt m σ → key_ok kt k → serialize_key kt k = Ok b →
  match add_value kt limit exhausted k x σ with
  | (Ok _, σ') => (∀ m' s, holds_multi kt m' σ' → tally (ser <$> flat kt σ') s = tally (ser <$> flat kt σ) s + (if decide (wanted (k, x) = s) then 1 else 0)) ∧
      ∀ k', entries kt σ k' `prefix_of` entries kt σ' k'
  | (Throw e, σ') => insert_error e
  end.
Proof.
  intros H Hk Eb. unfold add_value, at_key. rewrite Eb. set (ck := key_canonical kt k).
  destruct (next_of (entries kt σ ck)) as [s|] eqn:En; [|by left].
  destruct (check_dupsort_value_size limit (stored_form s x)) as [u|e] eqn:Ec; [|right; by eexists].
  destruct (next_of_above _ s (entries_all kt _ _ H ck) En) as [Hs Hlt]. split.
  - intros m' s' H'. rewrite (proj2 (tally_permutation _ (ser <$> (ck, (s, x)) :: flat kt σ))).
    + rewrite fmap_cons, tally_cons. change (ser (ck, (s, x))) with (wanted (k, x)). lia.
    + f_equiv. eapply flat_add; [exact H|exact H'|]. intros He. rewrite Forall_forall in Hlt. specialize (Hlt _ He). cbn in Hlt. lia.
  - intros k'. rewrite entries_set. destruct (decide (ck = k')) as [<-|]; [|done]. by exists [(s, x)].
Qed.

Lemma refines_db_insert k x :
  key_ok kt k → value_ok x →
  refines (multi_rep kt fuel t) kept 1 (db_insert kt limit t k x) (does (add_value kt limit exhausted k x)).
Proof. apply refines_insert_value. Qed.

Lemma wp_insert_missing suf pre desired kept_ inserted v n (σ : content) (Q : result unit → db_view → Prop) :
  multi_rep kt fuel t v (length suf + n) σ → Forall (fun p => key_ok kt p.1 ∧ value_ok p.2) suf → key_error suf = None →
  (∀ s, count_of desired s = tally (wanted <$> pre ++ suf) s ∧ count_of desired s < 2 ^ 64) →
  (∀ s, 0 ≤ count_of kept_ s ≤ count_of desired s) →
  (∀ s, count_of inserted s = Z.min (tally (wanted <$> pre) s) (count_of desired s - count_of kept_ s)) →
  (∀ s, tally (ser <$> flat kt σ) s = count_of kept_ s + count_of inserted s) →
  (∀ v' σ', multi_rep kt fuel t v' n σ' → kept v v' → (∀ s, tally (ser <$> flat kt σ') s = count_of desired s) →
     (∀ k, entries kt σ k `prefix_of` entries kt σ' k) → Q (Ok tt) v') →
  (∀ v' σ' e, multi_rep kt fuel t v' n σ' → kept v v' → insert_error e → Q (Throw e) v') →
  wp (insert_missing kt limit t ((fun p => (p, wanted p)) <$> suf) desired kept_ inserted) Q v.
Proof.
  intros Hr Hok. revert pre inserted v σ Hr. induction Hok as [|[k x] suf [Hk Hx] Hok IH]; intros pre inserted v σ Hr Herr Hd Hkept Hi Hc HQ HE.
  { apply wp_ret. rewrite app_nil_r in Hd. apply (HQ v σ); [done|done| |done]. intros s. rewrite Hc, Hi.
    specialize (Hd s). specialize (Hkept s). lia. }
  cbn [key_error] in Herr. destruct (serialize_key kt k) as [b|e] eqn:Eb; [|done].
  rewrite fmap_cons. cbn [insert_missing]. pose proof (Hkept (wanted (k, x))) as Hkx. pose proof (Hi (wanted (k, x))) as Hix.
  pose proof (Hd (wanted (k, x))) as Hdx. pose proof (tally_bound (wanted <$> pre) (wanted (k, x))) as Hb.
  assert (pre ++ (k, x) :: suf = (pre ++ [(k, x)]) ++ suf) as Eapp by (by rewrite <- app_assoc). rewrite Eapp in Hd.
  assert (∀ s, tally (wanted <$> pre ++ [(k, x)]) s = tally (wanted <$> pre) s + if decide (wanted (k, x) = s) then 1 else 0) as Hpre.
  { intros s. rewrite fmap_app, tally_app. change (wanted <$> [(k, x)]) with [wanted (k, x)]. rewrite tally_cons. change (tally [] s) with 0. lia. }
  rewrite Z.mod_small by lia.
  destruct (Z.ltb_spec (count_of kept_ (wanted (k, x)) + count_of inserted (wanted (k, x))) (count_of desired (wanted (k, x)))) as [Hlt|Hge].
  - apply wp_bind. eapply wp_mono; [apply (refines_db_insert k x Hk Hx v (length suf + n)%nat σ Hr)|].
    intros r v' (σ1 & Hdoes & Hr1 & Hk1). unfold does in Hdoes.
    pose proof (add_value_cases k x b σ _ (mr_holds _ _ _ _ _ _ Hr) Hk Eb) as Hcase. rewrite Hdoes in Hcase.
    destruct r as [[]|e]; [|apply (HE v' σ1); [|done|done]; eapply multi_rep_mono; [|exact Hr1]; lia].
    destruct Hcase as [Htally Hprefix]. eapply (IH (pre ++ [(k, x)])); [exact Hr1|done|done|done| | | |].
    + intros s. rewrite count_of_up by lia. rewrite Hi, Hpre. destruct (decide (wanted (k, x) = s)) as [<-|]; lia.
    + intros s. rewrite (Htally _ s (mr_holds _ _ _ _ _ _ Hr1)), Hc, count_of_up by lia. lia.
    + intros v2 σ2 Hr2 Hk2 Ht2 Hp2. apply (HQ v2 σ2); [done|by etrans|done|]. intros k'. transitivity (entries kt σ1 k'); [apply Hprefix|apply Hp2].
    + intros v2 σ2 e Hr2 Hk2 He. apply (HE v2 σ2); [done|by etrans|done].
  - eapply (IH (pre ++ [(k, x)])); [|done|done|done| |done|done|done].
    + eapply multi_rep_mono; [|exact Hr]. cbn [length]. lia.
    + intros s. rewrite Hi, Hpre. destruct (decide (wanted (k, x) = s)) as [<-|]; lia.
Qed.

(** Without an error the pairs of the table are those of the container, each as often as
    there.  What was in the table and is in the container stays, with its number, and the
    values that were missing follow it.  A key without a stored form is found before
    anything is changed. *)
Definition reconciled (container : list (K * V)) : Rel content unit := fun σ r σ' =>
  match key_error container with
  | Some e => r = Throw e ∧ σ' = σ
  | None =>
      match r with
      | Throw e => insert_error e
      | Ok _ =>
          listed kt σ' ≡ₚ canonical_pair <$> container ∧
          ∃ σ1, (∀ k e, e ∈ entries kt σ1 k → e ∈ entries kt σ k) ∧
            (∀ s, tally (ser <$> flat kt σ1) s = Z.min (tally (ser <$> flat kt σ) s) (tally (wanted <$> container) s)) ∧
            ∀ k, entries kt σ1 k `prefix_of` entries kt σ' k
      end
  end.

(** Reading back what a pair is stored as. *)
Definition unser (s : SerializedPairKey) : option (K * V) :=
  match deserialize_key kt s.1, deserialize_value s.2 with Ok k, Ok x => Some (k, x) | _, _ => None end.

Lemma unser_ser p : good_key kt p.1 → value_ok p.2.2 → unser (ser p) = Some (shown kt p).
Proof. intros Hk Hx. unfold unser, ser. cbn [fst snd]. by rewrite decode_key, value_decodes. Qed.

Lemma unser_wanted p b : key_ok kt p.1 → serialize_key kt p.1 = Ok b → value_ok p.2 → unser (wanted p) = Some (canonical_pair p).
Proof.
  intros Hk Eb Hx. unfold unser, wanted. cbn [fst snd]. rewrite decode_key by (done || by eapply good_canonical). by rewrite value_decodes.
Qed.

Lemma same_pairs v n σ container :
  multi_rep kt fuel t v n σ → Forall (fun p => key_ok kt p.1 ∧ value_ok p.2) container → key_error container = None →
  (∀ s, tally (ser <$> flat kt σ) s = tally (wanted <$> container) s) → listed kt σ ≡ₚ canonical_pair <$> container.
Proof.
  intros Hr Hok Herr Ht. apply tally_permutation in Ht.
  assert (listed kt σ = omap unser (ser <$> flat kt σ)) as ->.
  { unfold listed. assert (∀ p, p ∈ flat kt σ → good_key kt p.1 ∧ value_ok p.2.2) as Hg.
    { intros p Hp. by apply (flat_member_ok kt fuel t v n σ Hr) in Hp as (? & _ & ?). }
    revert Hg. generalize (flat kt σ). induction l as [|p l IH]; intros Hg; [done|]. rewrite !fmap_cons. cbn [omap list_omap].
    destruct (Hg p ltac:(left)) as [Hk Hx]. rewrite unser_ser by done. f_equal. apply IH. intros q Hq. apply Hg. by right. }
  assert (canonical_pair <$> container = omap unser (wanted <$> container)) as ->; [|by rewrite Ht].
  clear Ht. induction Hok as [|[k x] l [Hk Hx] _ IH]; [done|]. cbn [key_error] in Herr.
  destruct (serialize_key kt k) as [b|e] eqn:Eb; [|done]. rewrite !fmap_cons. cbn [omap list_omap].
  rewrite (unser_wanted (k, x) b) by done. f_equal. by apply IH.
Qed.

Lemma count_of_empty s : count_of ∅ s = 0.
Proof. unfold count_of, PairCountMap. by rewrite lookup_empty. Qed.

Lemma refines_reconcile_multi container :
  Forall (fun p => key_ok kt p.1 ∧ value_ok p.2) container → size_of container < 2 ^ 64 →
  refines (multi_rep kt fuel t) kept (length container) (db_reconcile kt fuel limit t container) (reconciled container).
Proof.
  intros Hok Hsize v n σ Hr. unfold reconciled. apply wp_lift_bind.
  assert (Forall (fun p => key_ok kt p.1) container) as Hkeys by (eapply Forall_impl; [exact Hok|]; naive_solver).
  pose proof (desired_counts container ∅ Hkeys) as Hc.
  specialize (Hc ltac:(intros; by rewrite count_of_empty) ltac:(intros; by rewrite count_of_empty)). destruct (key_error container) as [e|] eqn:Herr.
  { rewrite Hc. exists σ. split; [done|]. split; [|done]. eapply multi_rep_mono; [|exact Hr]. lia. }
  destruct Hc as (desired & -> & Hd). setoid_rewrite count_of_empty in Hd. cbn [mbind result_bind]. eapply wp_multi_open; [exact Hr|]. intros c Hc Hi.
  assert (∀ s, 0 ≤ count_of desired s < 2 ^ 64) as Hdb.
  { intros s. rewrite Hd. pose proof (tally_bound (wanted <$> container) s) as Hb. unfold size_of in *. rewrite length_fmap in Hb. lia. }
  apply wp_bind. eapply (wp_erase_surplus fuel desired v (length container + n) σ [] [] (flat kt σ)); [exact Hr|done|done| | |done| |done|].
  - unfold ahead_of. rewrite Hi. by apply filter_all.
  - by eapply flat_fuel.
  - intros s. rewrite count_of_empty. change (tally (ser <$> []) s) with 0. specialize (Hdb s). lia.
  - intros v1 σ1 kept1 Hr1 Hk1 Hin Hkept Htally. cbn [app] in Hkept.
    eapply (wp_insert_missing container []); [exact Hr1|done|done| | | | |..].
    + intros s. split; [by rewrite Hd|apply Hdb].
    + intros s. rewrite Hkept. specialize (Hdb s). pose proof (tally_bound (ser <$> flat kt σ) s). lia.
    + intros s. rewrite count_of_empty. change (tally (wanted <$> []) s) with 0. rewrite Hkept. specialize (Hdb s). lia.
    + intros s. by rewrite count_of_empty, Z.add_0_r.
    + intros v2 σ2 Hr2 Hk2 Ht2 Hp2. exists σ2. split; [|split; [done|by etrans]]. split.
      * eapply same_pairs; [exact Hr2|done|done|]. intros s. by rewrite Ht2, Hd.
      * exists σ1. split; [|split; [|done]].
        -- intros k e He. apply elem_of_flat, Hin. by apply elem_of_flat.
        -- intros s. by rewrite Htally, Hkept, Hd.
    + intros v2 σ2 e Hr2 Hk2 He. exists σ2. split; [done|]. split; [done|by etrans].
Qed.
End Walks.
