(* ===== verification/MultiTheorems.v ===== *)
(** * Tables with several values per key, to their clients

    The methods of [KeyMultiValueTable] and of [KeyOrderedMultiValueTable] as calls, what each
    call does to a map from keys to lists of numbered values, and that programs over a table
    cannot tell it from such a map. *)
From S2P Require Import Prelude SyncCommon KeyCodec ValueCodec Mdbx DupSort DupRules RefMdbx Clients StoreBase TableBase KvTable.
From S2P Require Import MultiContent MultiBase MultiRules MultiRanges MultiReconcile.
From S2P Require MultiTable OrderedTable.
Open Scope Z_scope.

(** ** Calls *)

(** One constructor per public method of [KeyMultiValueTable]; overloads and the methods that
    only rename another share one. *)
Inductive multi_call {kt : key_type} {V : Type} : Type → Type :=
  | MInsert (key : key_val kt) (value : V) : multi_call unit
  | MAppend (container : list (key_val kt * V)) : multi_call unit
  | MReconcile (container : list (key_val kt * V)) : multi_call unit
  | MFind (key : key_val kt) : multi_call (list V)
  | MContains (key : key_val kt) : multi_call bool
  | MContainsPair (key : key_val kt) (value : V) : multi_call bool
  | MCount : multi_call Z
  | MCountKey (key : key_val kt) : multi_call Z
  | MCountPair (key : key_val kt) (value : V) : multi_call Z
  | MEmpty : multi_call bool
  | MErase (key : key_val kt) : multi_call bool
  | MErasePair (key : key_val kt) (value : V) : multi_call Z
  | MEraseOne (key : key_val kt) (value : V) : multi_call bool
  | MClear : multi_call unit
  | MLoad (out : list (key_val kt * V)) : multi_call (list (key_val kt * V))
  | MRange (from_key to_key : key_val kt) : multi_call (list (key_val kt * V))
  | MRangeValues (from_key to_key : key_val kt) : multi_call (list V)
  | MForEachRange {S : Type} (callback : S → key_val kt → V → result (S * bool)) (from_key to_key : key_val kt) (st : S)
      : multi_call (S * bool)
  | MLowerBound (key : key_val kt) : multi_call (option (key_val kt * V))
  | MUpperBound (key : key_val kt) : multi_call (option (key_val kt * V))
  | MFirst : multi_call (option (key_val kt * V))
  | MLast : multi_call (option (key_val kt * V))
  | MMinKey : multi_call (option (key_val kt))
  | MMaxKey : multi_call (option (key_val kt))
  | MRangeReverse (from_key to_key : key_val kt) : multi_call (list (key_val kt * V))
  | MRangeReverseLimit (from_key to_key : key_val kt) (limit : Z) : multi_call (list (key_val kt * V))
  | MContainsRange (from_key to_key : key_val kt) : multi_call bool
  | MCountRange (from_key to_key : key_val kt) : multi_call Z
  | MEraseRange (from_key to_key : key_val kt) : multi_call Z.
Arguments multi_call : clear implicits.

(** And of [KeyOrderedMultiValueTable]. *)
Inductive ordered_call {kt : key_type} {V : Type} : Type → Type :=
  | OAppend (key : key_val kt) (value : V) : ordered_call unit
  | OAppendAll (container : list (key_val kt * V)) : ordered_call unit
  | OReplaceWith (container : list (key_val kt * V)) : ordered_call unit
  | OFind (key : key_val kt) : ordered_call (list V)
  | OContains (key : key_val kt) : ordered_call bool
  | OContainsPair (key : key_val kt) (value : V) : ordered_call bool
  | OCount : ordered_call Z
  | OCountKey (key : key_val kt) : ordered_call Z
  | OCountPair (key : key_val kt) (value : V) : ordered_call Z
  | OEmpty : ordered_call bool
  | OErase (key : key_val kt) : ordered_call bool
  | OErasePair (key : key_val kt) (value : V) : ordered_call Z
  | OEraseAt (key : key_val kt) (index : Z) : ordered_call bool
  | OClear : ordered_call unit
  | OLoad (out : list (key_val kt * V)) : ordered_call (list (key_val kt * V))
  | ORange (from_key to_key : key_val kt) : ordered_call (list (key_val kt * V)).
Arguments ordered_call : clear implicits.

Section Run.
Context {X : Mdbx} {D : MdbxDup X} (kt : key_type) {V : Type} `{!TableValue V} (fuel : nat) (limit : Z) (t : table_obj).

Definition run_multi {A} (c : multi_call kt V A) : M A :=
  match c with
  | MInsert k x => MultiTable.db_insert kt limit t k x
  | MAppend l => MultiTable.db_append kt limit t l
  | MReconcile l => MultiTable.db_reconcile kt fuel limit t l
  | MFind k => MultiTable.db_find kt fuel t k
  | MContains k => MultiTable.db_contains_key kt t k
  | MContainsPair k x => MultiTable.db_contains_pair kt fuel t k x
  | MCount => MultiTable.db_count t
  | MCountKey k => MultiTable.db_count_key kt t k
  | MCountPair k x => MultiTable.db_count_pair kt fuel t k x
  | MEmpty => n ← MultiTable.db_count t; mret (n =? 0)
  | MErase k => MultiTable.db_erase_key kt t k
  | MErasePair k x => MultiTable.db_erase_pair kt fuel t k x
  | MEraseOne k x => MultiTable.db_erase_one_pair kt fuel t k x
  | MClear => MultiTable.db_clear t
  | MLoad out => MultiTable.db_load kt fuel t out
  | MRange a b => MultiTable.db_range kt fuel t a b
  | MRangeValues a b => MultiTable.db_range_values kt fuel t a b
  | MForEachRange f a b st => MultiTable.db_for_each_range kt fuel t f a b st
  | MLowerBound k => MultiTable.db_lower_bound kt t k
  | MUpperBound k => MultiTable.db_upper_bound kt t k
  | MFirst => MultiTable.db_first kt t
  | MLast => MultiTable.db_last kt t
  | MMinKey => MultiTable.db_min_key kt t
  | MMaxKey => MultiTable.db_max_key kt t
  | MRangeReverse a b => MultiTable.db_range_reverse kt fuel t a b
  | MRangeReverseLimit a b n => MultiTable.db_range_reverse_limit kt fuel t a b n
  | MContainsRange a b => MultiTable.db_contains_range kt t a b
  | MCountRange a b => MultiTable.db_count_range kt fuel t a b
  | MEraseRange a b => MultiTable.db_erase_range kt fuel t a b
  end.

Definition run_ordered {A} (c : ordered_call kt V A) : M A :=
  match c with
  | OAppend k x => OrderedTable.db_append_one kt limit t k x
  | OAppendAll l => OrderedTable.db_append kt limit t l
  | OReplaceWith l => OrderedTable.replace_with kt limit t l
  | OFind k => OrderedTable.db_find kt fuel t k
  | OContains k => OrderedTable.db_contains_key kt t k
  | OContainsPair k x => OrderedTable.contains_pair kt fuel t k x
  | OCount => OrderedTable.db_count t
  | OCountKey k => OrderedTable.db_count_key kt t k
  | OCountPair k x => OrderedTable.db_count_pair kt fuel t k x
  | OEmpty => n ← OrderedTable.db_count t; mret (n =? 0)
  | OErase k => OrderedTable.db_erase_key kt t k
  | OErasePair k x => OrderedTable.db_erase_pair kt fuel t k x
  | OEraseAt k i => OrderedTable.db_erase_at kt fuel t k i
  | OClear => OrderedTable.db_clear t
  | OLoad out => OrderedTable.db_load kt fuel t out
  | ORange a b => OrderedTable.db_range kt fuel t a b
  end.
End Run.

(** ** What they do *)

Section Spec.
Context (kt : key_type) {V : Type} `{!TableValue V} (limit : Z).
Abbreviation K := (key_val kt).
Abbreviation content := (gmap K (list (Z * V))).
Abbreviation between σ a b := (in_range kt σ (place kt a) (place kt b)).

(** A method that only looks. *)
Definition looks {A} (f : content → result A) : Rel content A := does (fun σ => (f σ, σ)).
Definition matching (k : K) (x : V) : content → result Z :=
  look_at kt k (fun l => counted (filter (fun e => same_value x e) l)).

Abbreviation exhausted_multi := "Per-key multi-value sequence exhausted"%string.
Abbreviation exhausted_ordered := "Per-key ordered multi-value sequence exhausted"%string.

Definition multi_spec {A} (c : multi_call kt V A) : Rel content A :=
  match c with
  | MInsert k x => does (add_value kt limit exhausted_multi k x)
  | MAppend l => does (add_values kt limit exhausted_multi l)
  | MReconcile l => reconciled kt limit l
  | MFind k => looks (look_at kt k (fun l => l.*2))
  | MContains k => looks (look_at kt k (fun l => bool_decide (l ≠ [])))
  | MContainsPair k x => looks (fun σ => n ← matching k x σ; Ok (n >? 0))
  | MCount => looks (fun σ => Ok (Z.of_nat (length (flat kt σ))))
  | MCountKey k => looks (look_at kt k (fun l => Z.of_nat (length l)))
  | MCountPair k x => looks (matching k x)
  | MEmpty => looks (fun σ => Ok (Z.of_nat (length (flat kt σ)) =? 0))
  | MErase k => does (remove_key kt k)
  | MErasePair k x => does (remove_value kt k x)
  | MEraseOne k x => does (remove_first kt k x)
  | MClear => does (fun _ => (Ok tt, ∅))
  | MLoad out => looks (fun σ => Ok (out ++ listed kt σ))
  | MRange a b => looks (fun σ => with_keys kt a b (shown kt <$> between σ a b))
  | MRangeValues a b => looks (fun σ => with_keys kt a b ((fun p => p.2.2) <$> between σ a b))
  | MForEachRange f a b st => looks (fun σ => _ ← with_keys kt a b tt; visit kt f st (shown kt <$> between σ a b))
  | MLowerBound k => looks (fun σ => with_key kt k (shown kt <$> head (from_place kt σ (place kt k))))
  | MUpperBound k => looks (fun σ => with_key kt k (shown kt <$> head (after_place kt σ (place kt k))))
  | MFirst => looks (fun σ => Ok (shown kt <$> head (flat kt σ)))
  | MLast => looks (fun σ => Ok (shown kt <$> last (flat kt σ)))
  | MMinKey => looks (fun σ => Ok (fst <$> head (flat kt σ)))
  | MMaxKey => looks (fun σ => Ok (fst <$> last (flat kt σ)))
  | MRangeReverse a b => looks (fun σ => with_keys kt a b (shown kt <$> reverse (between σ a b)))
  | MRangeReverseLimit a b n => looks (fun σ =>
      if n =? 0 then Ok [] else with_keys kt a b (take (Z.to_nat n) (shown kt <$> reverse (between σ a b))))
  | MContainsRange a b => looks (fun σ => with_keys kt a b (bool_decide (between σ a b ≠ [])))
  | MCountRange a b => looks (fun σ => with_keys kt a b (Z.of_nat (length (between σ a b)) mod 2 ^ 64))
  | MEraseRange a b => does (remove_range kt a b)
  end.

Definition ordered_spec {A} (c : ordered_call kt V A) : Rel content A :=
  match c with
  | OAppend k x => does (add_value kt limit exhausted_ordered k x)
  | OAppendAll l => does (add_values kt limit exhausted_ordered l)
  | OReplaceWith l => does (fun _ => add_values kt limit exhausted_ordered l ∅)
  | OFind k => looks (look_at kt k (fun l => l.*2))
  | OContains k => looks (look_at kt k (fun l => bool_decide (l ≠ [])))
  | OContainsPair k x => looks (fun σ => n ← matching k x σ; Ok (n >? 0))
  | OCount => looks (fun σ => Ok (Z.of_nat (length (flat kt σ))))
  | OCountKey k => looks (look_at kt k (fun l => Z.of_nat (length l)))
  | OCountPair k x => looks (matching k x)
  | OEmpty => looks (fun σ => Ok (Z.of_nat (length (flat kt σ)) =? 0))
  | OErase k => does (remove_key kt k)
  | OErasePair k x => does (remove_value kt k x)
  | OEraseAt k i => does (remove_at kt k i)
  | OClear => does (fun _ => (Ok tt, ∅))
  | OLoad out => looks (fun σ => Ok (out ++ listed kt σ))
  | ORange a b => looks (fun σ => with_keys kt a b (shown kt <$> between σ a b))
  end.

(** Arguments are values of their types, and containers are small enough to be counted. *)
Definition multi_pair_ok (p : K * V) : Prop := key_ok kt p.1 ∧ value_ok p.2.

Definition multi_ok {A} (c : multi_call kt V A) : Prop :=
  match c with
  | MInsert k x => multi_pair_ok (k, x)
  | MAppend l => Forall multi_pair_ok l
  | MReconcile l => Forall multi_pair_ok l ∧ size_of l < 2 ^ 64
  | MFind k | MContains k | MCountKey k | MErase k | MLowerBound k | MUpperBound k
  | MContainsPair k _ | MCountPair k _ | MErasePair k _ | MEraseOne k _ => key_ok kt k
  | MRange a b | MRangeValues a b | MForEachRange _ a b _ | MRangeReverse a b | MContainsRange a b | MCountRange a b
  | MEraseRange a b => key_ok kt a ∧ key_ok kt b
  | MRangeReverseLimit a b n => key_ok kt a ∧ key_ok kt b ∧ 0 ≤ n
  | _ => True
  end.

Definition ordered_ok {A} (c : ordered_call kt V A) : Prop :=
  match c with
  | OAppend k x => multi_pair_ok (k, x)
  | OAppendAll l | OReplaceWith l => Forall multi_pair_ok l
  | OFind k | OContains k | OCountKey k | OErase k | OContainsPair k _ | OCountPair k _ | OErasePair k _ => key_ok kt k
  | OEraseAt k i => key_ok kt k ∧ 0 ≤ i
  | ORange a b => key_ok kt a ∧ key_ok kt b
  | _ => True
  end.

(** The values a call may add. *)
Definition multi_cost {A} (c : multi_call kt V A) : nat :=
  match c with MInsert _ _ => 1 | MAppend l | MReconcile l => length l | _ => 0 end.
Definition ordered_cost {A} (c : ordered_call kt V A) : nat :=
  match c with OAppend _ _ => 1 | OAppendAll l | OReplaceWith l => length l | _ => 0 end.
End Spec.

(** ** They do it *)

Section Refinement.
Context {X : Mdbx} {D : MdbxDup X} {L : MdbxLaws X} {DL : MdbxDupLaws X D L}.
Context (kt : key_type) `{!KeyReadable kt} {V : Type} `{!TableValue V} (fuel : nat) (limit : Z) (t : table_obj).
Abbreviation content := (gmap (key_val kt) (list (Z * V))).
Abbreviation rep := (multi_rep kt fuel t).
Abbreviation kept := (v_only (t_name t)).

Lemma wp_then_ret {A B} (m : M A) (g : A → B) Q v :
  wp m (fun r v' => Q (x ← r; Ok (g x)) v') v → wp (x ← m; mret (g x)) Q v.
Proof. intros H. apply wp_bind. eapply wp_mono; [exact H|]. intros [x|e] v' HQ; [by apply wp_ret|done]. Qed.

Lemma multi_call_refines {A} (c : multi_call kt V A) :
  multi_ok kt c → refines rep kept (multi_cost kt c) (run_multi kt fuel limit t c) (multi_spec kt limit c).
Proof.
  destruct c; intros Hok; cbn [multi_cost run_multi multi_spec]; try (apply refines_look; intros v n σ Q Hr HQ).
  - by apply refines_insert_value; apply Hok.
  - apply refines_insert_all; [|done]. intros k x Hk Hx. by apply refines_insert_value.
  - by apply refines_reconcile_multi; first [done|apply Hok].
  - by eapply wp_find_values.
  - by eapply wp_contains_key.
  - apply wp_then_ret. by eapply wp_count_matching.
  - by eapply wp_count_all.
  - by eapply wp_count_values.
  - by eapply wp_count_matching.
  - apply wp_then_ret. by eapply wp_count_all.
  - by apply refines_erase_values.
  - by apply refines_erase_matching.
  - by apply refines_erase_first.
  - apply refines_clear_values.
  - by eapply wp_load_records.
  - by eapply wp_range_records; [done|(done || apply Hok)..|].
  - by eapply wp_multi_range_values; [done|(done || apply Hok)..|].
  - by eapply wp_multi_for_each; [done|(done || apply Hok)..|].
  - by eapply wp_multi_lower_bound.
  - by eapply wp_multi_upper_bound.
  - eapply wp_multi_front; [done|exact Hr|by eapply decode_raw|done].
  - eapply wp_multi_end; [done|exact Hr|by eapply decode_raw|done].
  - eapply wp_multi_front; [done|exact Hr|by eapply flat_key|done].
  - eapply wp_multi_end; [done|exact Hr|by eapply flat_key|done].
  - by eapply wp_multi_range_reverse; [done|(done || apply Hok)..|].
  - by eapply wp_multi_range_reverse_limit; [done|(done || apply Hok)..|].
  - by eapply wp_multi_contains_range; [done|(done || apply Hok)..|].
  - by eapply wp_multi_count_range; [done|(done || apply Hok)..|].
  - by apply refines_multi_erase_range; first [done|apply Hok].
Qed.

Lemma refines_replace_with (container : list (key_val kt * V)) :
  Z.of_nat fuel < 2 ^ 64 → Forall (multi_pair_ok kt) container →
  refines rep kept (length container) (run_ordered kt fuel limit t (OReplaceWith container))
    (ordered_spec kt limit (OReplaceWith container)).
Proof.
  intros Hfuel Hok. eapply (refines_weaken rep kept).
  - apply (rel_refines_bind rep kept 0 (length container)); [apply multi_rep_mono|apply refines_clear_values|]. intros ?.
    apply refines_insert_all; [|done]. intros k y Hk Hy. by apply refines_insert_value.
  - intros σ r σ'. unfold then_, does. intros [(e & E & _)|(u & σ1 & E & H)]; [done|].
    apply (f_equal snd) in E. cbn [snd] in E. subst σ1. exact H.
Qed.

Lemma ordered_call_refines {A} (c : ordered_call kt V A) :
  Z.of_nat fuel < 2 ^ 64 → ordered_ok kt c →
  refines rep kept (ordered_cost kt c) (run_ordered kt fuel limit t c) (ordered_spec kt limit c).
Proof.
  intros Hfuel. destruct c; intros Hok; cbn [ordered_cost run_ordered ordered_spec]; try (apply refines_look; intros v n σ Q Hr HQ).
  - by apply refines_insert_value; apply Hok.
  - apply refines_insert_all; [|done]. intros k x Hk Hx. by apply refines_insert_value.
  - by apply refines_replace_with.
  - by eapply wp_find_values.
  - by eapply wp_contains_key.
  - apply wp_then_ret. by eapply wp_count_matching.
  - by eapply wp_count_all.
  - by eapply wp_count_values.
  - by eapply wp_count_matching.
  - apply wp_then_ret. by eapply wp_count_all.
  - by apply refines_erase_values.
  - by apply refines_erase_matching.
  - by apply refines_erase_index; [apply Hok..|].
  - apply refines_clear_values.
  - by eapply wp_load_records.
  - by eapply wp_range_records; [done|(done || apply Hok)..|].
Qed.

(** C8: to any program over its methods a [KeyMultiValueTable], for every key type that can be
    read back ([KeyReadable]: all but some bitsets), is a map from keys to lists of
    numbered values.  Take a program over the methods, in a write transaction whose table
    holds [σ] with room for the values the program adds.  Unless the storage engine fails, the
    program returns or throws what it would on the map: a value goes to the end of the list of
    its key and fails when the numbers of the key are used up or the value exceeds the
    configured limit, before anything is written; lookups and ranges see the pairs by key and
    within a key in the order of insertion, and backwards in the opposite order; erasing
    removes all values, the matching ones or the first matching one; reconciling leaves exactly
    the pairs of the container, each as often as there, and keeps those that were there.  The
    table then holds the map the program leaves and no other table has changed. *)
Theorem multi_table_refines {R} (p : client (multi_call kt V) R) (n : nat) (σ : content) (s : txn) :
  client_within (@multi_ok kt V _) (@multi_cost kt V) p n → multi_rep kt fuel t (view s) n σ →
  let '(r, s') := run_client (fun A c => run_multi kt fuel limit t c) p s in
  (∃ σ', client_spec (fun A c => multi_spec kt limit c) p σ r σ' ∧ multi_rep kt fuel t (view s') 0 σ' ∧
     v_only (t_name t) (view s) (view s')) ∨ engine_failure r.
Proof.
  intros Hw Hr. apply (client_refines rep kept (fun A (c : multi_call kt V A) => run_multi kt fuel limit t c)
    (fun A c => multi_spec kt limit c) (@multi_ok kt V _) (@multi_cost kt V)) with (n := n); [|apply multi_rep_mono|done|done|done].
  intros A c. apply multi_call_refines.
Qed.

(** C9: the same for [KeyOrderedMultiValueTable]: values of a key are kept in the order in
    which they were appended, [erase_at] removes the value at a position of that order and
    [replace_with] leaves the pairs of its argument alone, all in terms of the map. *)
Theorem ordered_table_refines {R} (p : client (ordered_call kt V) R) (n : nat) (σ : content) (s : txn) :
  Z.of_nat fuel < 2 ^ 64 →
  client_within (@ordered_ok kt V _) (@ordered_cost kt V) p n → multi_rep kt fuel t (view s) n σ →
  let '(r, s') := run_client (fun A c => run_ordered kt fuel limit t c) p s in
  (∃ σ', client_spec (fun A c => ordered_spec kt limit c) p σ r σ' ∧ multi_rep kt fuel t (view s') 0 σ' ∧
     v_only (t_name t) (view s) (view s')) ∨ engine_failure r.
Proof.
  intros Hfuel Hw Hr. apply (client_refines rep kept (fun A (c : ordered_call kt V A) => run_ordered kt fuel limit t c)
    (fun A c => ordered_spec kt limit c) (@ordered_ok kt V _) (@ordered_cost kt V)) with (n := n); [|apply multi_rep_mono|done|done|done].
  intros A c. by apply ordered_call_refines.
Qed.

(** ** Replacing the content *)

(** The values of a container under a key, in its order. *)
Definition values_of (l : list (key_val kt * V)) (k : key_val kt) : list V :=
  (filter (fun p => key_canonical kt p.1 = k) l).*2.

Definition within_limit (x : V) : Prop := limit ≤ 0 ∨ 8 + size_of (serialize_value x) ≤ limit.

Lemma within_limit_ok s x : within_limit x → check_dupsort_value_size limit (stored_form s x) = Ok tt.
Proof.
  intros Hx. unfold check_dupsort_value_size. apply throw_if_Ok. apply andb_false_iff.
  assert (size_of (stored_form s x) = 8 + size_of (serialize_value x)) as ->.
  { unfold size_of, stored_form. rewrite length_app, encode_sequence_length. lia. }
  rewrite !Z.gtb_ltb, !Z.ltb_ge. destruct Hx; [left|right]; lia.
Qed.

(** A table filled from nothing numbers the values of each key from 0 on. *)
Lemma add_values_fills exhausted l (σ : content) m :
  Forall (fun p => within_limit p.2) l → key_error kt l = None → m + size_of l < 2 ^ 64 →
  (∀ k, next_of (entries kt σ k) = Some (size_of (entries kt σ k)) ∧ size_of (entries kt σ k) ≤ m) →
  ∃ σ', add_values kt limit exhausted l σ = (Ok tt, σ') ∧ ∀ k, (entries kt σ' k).*2 = (entries kt σ k).*2 ++ values_of l k.
Proof.
  intros Hl. revert σ m. induction Hl as [|[k x] l Hx _ IH]; intros σ m Herr Hm Hn.
  { exists σ. split; [done|]. intros k. unfold values_of. by rewrite filter_nil, app_nil_r. }
  cbn [key_error] in Herr. destruct (serialize_key kt k) as [b|e] eqn:Eb; [|done].
  cbn [add_values]. unfold add_value, at_key. rewrite Eb. set (ck := key_canonical kt k).
  destruct (Hn ck) as [Hck Hsz]. rewrite Hck, within_limit_ok by done.
  assert (size_of ((k, x) :: l) = size_of l + 1) as Esz by (unfold size_of; cbn [length]; lia). rewrite Esz in Hm.
  assert (0 ≤ size_of l ∧ 0 ≤ size_of (entries kt σ ck)) as [? ?] by (unfold size_of; lia).
  destruct (IH (set_entries kt ck (entries kt σ ck ++ [(size_of (entries kt σ ck), x)]) σ) (m + 1)) as (σ' & -> & Hσ'); [done|lia| |].
  - intros k'. rewrite entries_set. destruct (decide (ck = k')) as [<-|]; [|destruct (Hn k'); split; [done|lia]].
    assert (size_of (entries kt σ ck ++ [(size_of (entries kt σ ck), x)]) = size_of (entries kt σ ck) + 1) as ->.
    { unfold size_of. rewrite length_app. cbn [length]. lia. }
    split; [|lia]. unfold next_of. rewrite last_snoc. cbn [fst]. rewrite (proj2 (Z.eqb_neq _ _)) by lia. done.
  - exists σ'. split; [done|]. intros k'. rewrite Hσ', entries_set. unfold values_of. rewrite filter_cons. cbn [fst]. fold ck.
    destruct (decide (ck = k')) as [<-|]; [|done]. rewrite fmap_app, <- app_assoc. done.
Qed.

(** C17: what [replace_with] writes, [find] reads: after replacing the content of an ordered
    table by a container whose keys have stored forms and whose values are within the limit,
    looking a key up returns the values of the container under that key, all of them and in
    the order of the container.  Nothing but a failure of the storage engine prevents it, and
    no earlier content of the table shows. *)
Theorem replace_then_find (l : list (key_val kt * V)) (k : key_val kt) (b : bytes) (σ : content) (s : txn) :
  Z.of_nat fuel < 2 ^ 64 → Forall (multi_pair_ok kt) l → Forall (fun p => within_limit p.2) l → key_error kt l = None →
  size_of l < 2 ^ 64 → key_ok kt k → serialize_key kt k = Ok b → multi_rep kt fuel t (view s) (length l) σ →
  let '(r, _) := (_ ← OrderedTable.replace_with kt limit t l; OrderedTable.db_find kt fuel t k) s in
  r = Ok (values_of l (key_canonical kt k)) ∨ engine_failure r.
Proof.
  intros Hfuel Hok Hlim Herr Hsize Hk Eb Hr. replace (length l) with (length l + 0)%nat in Hr by lia.
  pose proof (refines_replace_with l Hfuel Hok (view s) 0%nat σ Hr) as Hrun. cbn [run_ordered ordered_spec] in Hrun.
  assert (wp (_ ← OrderedTable.replace_with kt limit t l; OrderedTable.db_find kt fuel t k)
    (fun r _ => r = Ok (values_of l (key_canonical kt k))) (view s)) as H; [|by apply H].
  apply wp_bind. eapply wp_mono; [exact Hrun|]. intros r v' (σ' & Hd & Hr' & _). unfold does in Hd.
  destruct (add_values_fills "Per-key ordered multi-value sequence exhausted" l ∅ 0) as (σ1 & E & Hv); [done|done|lia|by intros k'|].
  rewrite E in Hd. injection Hd as <- <-. eapply wp_find_values; [exact Hr'|done|].
  unfold look_at, with_key. rewrite Eb. cbn [mbind result_bind]. by rewrite Hv.
Qed.
End Refinement.

(** ** A small table *)

Definition tag_table : table_obj := {| t_dbi := 2; t_name := bytes_of_string "tags"; t_flags := MDBX_DUPSORT |}.
Definition tag_view : db_view :=
  v_opened {| v_env := 1; v_rw := true; v_dbs := ∅; v_handles := ∅ |} (t_name tag_table) (mk_dbi MDBX_DUPSORT ∅) 2.

Definition tag_a : bytes := bytes_of_string "a".
Definition tag_b : bytes := bytes_of_string "b".
Definition tag_c : bytes := bytes_of_string "c".
Definition tag_pairs : list (bytes * bytes) :=
  [(tag_b, [Byte.x02]); (tag_a, [Byte.x01]); (tag_a, [Byte.x03]); (tag_a, [Byte.x01])].

Lemma tag_rep n : (n < 20)%nat → multi_rep KString (V := bytes) 20 tag_table tag_view n ∅.
Proof.
  intros Hn. assert (recs tag_view (t_name tag_table) = ∅) as E by (vm_compute; reflexivity). split.
  - split; [vm_compute; reflexivity|]. eexists. split; vm_compute; reflexivity.
  - done.
  - rewrite E. apply holds_multi_empty.
  - rewrite E, map_size_empty. lia.
Qed.

Definition multi_sample : client (multi_call KString bytes) (bool * list bytes * list (bytes * bytes)) :=
  Invoke (MAppend (kt := KString) tag_pairs) (fun _ =>
  Invoke (MEraseOne (kt := KString) tag_a [Byte.x01]) (fun erased =>
  Invoke (MReconcile (kt := KString) [(tag_a, [Byte.x01]); (tag_a, [Byte.x01]); (tag_c, [Byte.x05])]) (fun _ =>
  Invoke (MFind (kt := KString) tag_a) (fun found =>
  Invoke (MRangeReverse (kt := KString) tag_a tag_c) (fun l => Return (erased, found, l)))))).

Lemma multi_sample_within : client_within (@multi_ok KString bytes _) (@multi_cost KString bytes) multi_sample 7.
Proof.
  split; [by repeat constructor|]. split; [cbn; lia|]. intros _. split; [done|]. split; [cbn; lia|]. intros erased.
  split; [split; [by repeat constructor|done]|]. split; [cbn; lia|]. intros _.
  repeat (split; [done|]; split; [cbn; lia|]; intros ?). done.
Qed.

Definition multi_run : result (bool * list bytes * list (bytes * bytes)) * db_view :=
  run_client (fun A c => run_multi (X := ref_mdbx) (D := ref_mdbx_dup) KString 20 64 tag_table c) multi_sample tag_view.

Lemma multi_table_refines_witness :
  multi_run.1 = Ok (true, [[Byte.x01]; [Byte.x01]], [(tag_c, [Byte.x05]); (tag_a, [Byte.x01]); (tag_a, [Byte.x01])]) ∧
  ∃ σ', client_spec (fun A (c : multi_call KString bytes A) => multi_spec KString 64 c) multi_sample ∅ multi_run.1 σ' ∧
    multi_rep KString 20 tag_table multi_run.2 0 σ'.
Proof.
  split; [vm_compute; reflexivity|].
  assert (let '(r, v') := multi_run in
    (∃ σ', client_spec (fun A (c : multi_call KString bytes A) => multi_spec KString 64 c) multi_sample ∅ r σ' ∧
       multi_rep KString 20 tag_table v' 0 σ' ∧ v_only (t_name tag_table) tag_view v') ∨
    engine_failure (X := ref_mdbx) (L := ref_laws) r) as H.
  { exact (multi_table_refines (X := ref_mdbx) (D := ref_mdbx_dup) (L := ref_laws) (DL := ref_dup_laws) KString 20 64 tag_table
      multi_sample 7 ∅ tag_view multi_sample_within (tag_rep 7 ltac:(lia))). }
  destruct multi_run as [r v']. destruct H as [(σ' & Hs & Hr & _)|(c & rc & _ & [])]. exists σ'. split; [exact Hs|exact Hr].
Defined.

Definition ordered_sample : client (ordered_call KString bytes) (bool * list bytes * Z) :=
  Invoke (OReplaceWith (kt := KString) tag_pairs) (fun _ =>
  Invoke (OEraseAt (kt := KString) tag_a 1) (fun erased =>
  Invoke (OFind (kt := KString) tag_a) (fun found =>
  Invoke OCount (fun n => Return (erased, found, n))))).

Lemma ordered_sample_within : client_within (@ordered_ok KString bytes _) (@ordered_cost KString bytes) ordered_sample 4.
Proof.
  split; [by repeat constructor|]. split; [cbn; lia|]. intros _. repeat (split; [done|]; split; [cbn; lia|]; intros ?). done.
Qed.

Definition ordered_run : result (bool * list bytes * Z) * db_view :=
  run_client (fun A c => run_ordered (X := ref_mdbx) (D := ref_mdbx_dup) KString 20 64 tag_table c) ordered_sample tag_view.

Lemma ordered_table_refines_witness :
  ordered_run.1 = Ok (true, [[Byte.x01]; [Byte.x01]], 3) ∧
  ∃ σ', client_spec (fun A (c : ordered_call KString bytes A) => ordered_spec KString 64 c) ordered_sample ∅ ordered_run.1 σ' ∧
    multi_rep KString 20 tag_table ordered_run.2 0 σ'.
Proof.
  split; [vm_compute; reflexivity|].
  assert (let '(r, v') := ordered_run in
    (∃ σ', client_spec (fun A (c : ordered_call KString bytes A) => ordered_spec KString 64 c) ordered_sample ∅ r σ' ∧
       multi_rep KString 20 tag_table v' 0 σ' ∧ v_only (t_name tag_table) tag_view v') ∨
    engine_failure (X := ref_mdbx) (L := ref_laws) r) as H.
  { exact (ordered_table_refines (X := ref_mdbx) (D := ref_mdbx_dup) (L := ref_laws) (DL := ref_dup_laws) KString 20 64 tag_table
      ordered_sample 4 ∅ tag_view ltac:(lia) ordered_sample_within (tag_rep 4 ltac:(lia))). }
  destruct ordered_run as [r v']. destruct H as [(σ' & Hs & Hr & _)|(c & rc & _ & [])]. exists σ'. split; [exact Hs|exact Hr].
Defined.

Definition replace_run : result (list bytes) * db_view :=
  (_ ← OrderedTable.replace_with (X := ref_mdbx) (D := ref_mdbx_dup) KString 64 tag_table tag_pairs;
   OrderedTable.db_find (X := ref_mdbx) (D := ref_mdbx_dup) KString 20 tag_table tag_a) tag_view.

Lemma tag_pairs_ok :
  Forall (multi_pair_ok KString (V := bytes)) tag_pairs ∧ Forall (fun p => within_limit (V := bytes) 64 p.2) tag_pairs ∧
  key_error KString (V := bytes) tag_pairs = None ∧ size_of tag_pairs < 2 ^ 64.
Proof.
  split; [by repeat constructor|]. split; [|split; [vm_compute; reflexivity|vm_compute; reflexivity]].
  unfold tag_pairs. repeat apply Forall_cons_2; try apply Forall_nil_2; right; vm_compute; discriminate.
Qed.

Lemma replace_then_find_witness : replace_run.1 = Ok [[Byte.x01]; [Byte.x03]; [Byte.x01]].
Proof.
  destruct tag_pairs_ok as (Hok & Hlim & Herr & Hsize).
  assert (serialize_key KString tag_a = Ok tag_a) as Eb by (vm_compute; reflexivity).
  assert (key_ok KString tag_a) as Hk by done.
  assert (let '(r, _) := replace_run in
    r = Ok (values_of KString tag_pairs (key_canonical KString tag_a)) ∨ engine_failure (X := ref_mdbx) (L := ref_laws) r) as H.
  { exact (replace_then_find (X := ref_mdbx) (D := ref_mdbx_dup) (L := ref_laws) (DL := ref_dup_laws) KString 20 64 tag_table
      tag_pairs tag_a tag_a ∅ tag_view ltac:(lia) Hok Hlim Herr Hsize Hk Eb (tag_rep 4 ltac:(lia))). }
  destruct replace_run as [r v']. cbn [fst]. destruct H as [->|(c & rc & _ & [])]. vm_compute. reflexivity.
Defined.
